(* ===== verification/_CoqProject ===== *)
-Q . S2P
Prelude.v
Wire.v
GoText.v
GoRegexp.v
GoCsv.v
GoTime.v
Values.v
BinaryTypes.v
CopyBinary.v
SqlScan.v
ErrorCodes.v
Session.v
ExtendedProtocol.v
SimpleQuery.v
CopyText.v
ProtocolTheorems.v
ExtendedTheorems.v
FailureTheorems.v
CopyTheorems.v
ProtocolWitnesses.v
RuntimeDB.v
RuntimeStore.v
StoreSpec.v
StoreTheorems.v
OrgConnections.v
ConnLimiter.v
WorkerState.v
Lifecycle.v
Janitor.v
Auth.v
WarmCapacity.v
SessionMgr.v
WorkerPool.v
PoolTheorems.v
PoolOwnership.v
PoolRuns.v
SessionMeta.v
StartupOptions.v
ConfigStore.v
ConfigTheorems.v
FlightStream.v
FlightSession.v
FlightStore.v
FlightTheorems.v
FlightAccounting.v
FlightRuns.v
Handshake.v
HandshakeTheorems.v
HandshakeLogin.v
HandshakeGuesses.v
HandshakeRuns.v
DiskCache.v
DuckLake.v
Migration.v
Catalogs.v
TenantRuntime.v
Warehouse.v
Cluster.v
K8sPool.v
K8sTheorems.v
K8sRuns.v
