(* ===== verification/Prelude.v ===== *)
(** Verification of duckgres, a server that speaks the PostgreSQL protocol in front of
    DuckDB and, in its multi-tenant form, a control plane that hands the workers of a
    shared pool to organizations.

    * The program and its parts

    A client connection (src/server) reads messages, rewrites the SQL with the
    transpiler, runs it on an executor (a DuckDB in the process, or a remote worker
    reached over Arrow Flight), and answers in PostgreSQL's text or binary formats.
    The control plane (src/controlplane) admits connections, keeps sessions, claims
    workers from durable tables shared by all control planes (configstore), retires
    what crashed planes leave behind (janitor), and sizes the warm pool. The cache
    proxy (src/cmd/cache-proxy) keeps remote files on disk.

    * Files

    Foundations: this file (outcomes and panics, machine integers, bytes, lists,
    tactics); GoText, GoRegexp, GoCsv, GoTime (what the sources use of Go's standard
    library: UTF-8, strings, hex, base64, JSON strings, regexp, encoding/csv, time).

    The connection, bottom up:
    - Wire: framing, start-up packet, server messages, cancel keys (server/wire).
    - Values: Go values of a driver, their normalisation, text form, type mapping
      (types.go, value_normalize.go, conn.go formatValue and helpers).
    - BinaryTypes: every binary encoder and decoder of types.go.
    - CopyBinary: RowDescription and DataRow bodies, the binary COPY stream both ways,
      the parameters of a portal, the text of batched INSERTs (conn.go).
    - SqlScan: the byte scanners that classify a statement (conn.go, sqlcore/query.go).
    - ErrorCodes: DuckDB's messages to SQLSTATEs, conflicts, cancellations (conn.go,
      transient.go).
    - Session: the state of clientConn, the monad of the handlers, transaction status,
      emulated cursors, retries, row streaming. Its class [Env] holds all that is not
      in the repository or not modelled: pg_query, the transpiler, the executor, the
      connection registry, the file system, the worker's end of an upload.
    - ExtendedProtocol: handleParse, handleBind, handleDescribe, handleExecute,
      handleClose, and the cursor and registry statements they intercept.
    - SimpleQuery: handleQuery, batches, rewrites of writable CTEs, messageLoop.
    - CopyText: handleCopy and all of COPY TO STDOUT and FROM STDIN.
    - ProtocolTheorems, ExtendedTheorems, FailureTheorems, CopyTheorems: their
      theorems. ProtocolWitnesses: a concrete [Env] and the theorems applied to it.

    The control plane:
    - RuntimeDB, RuntimeStore, StoreSpec, StoreTheorems: the runtime tables, every
      operation of configstore/store.go on them, their abstract evolution, and the
      refinement of it by histories with failing statements.
    - OrgConnections (org_connections.go) behind a class, ConnLimiter its client
      (connection_limiter.go).
    - WorkerState (worker_state.go), Lifecycle (worker_lifecycle.go), Janitor
      (janitor.go), WarmCapacity (warm_capacity_policy.go, warm_capacity_targets.go).
    - SessionMgr (session_mgr.go, session_lifecycle.go, memory_rebalancer.go): a step
      relation over goroutines.
    - WorkerPool (worker_mgr.go): the pool of local worker processes, its goroutines as
      threads of a step relation over the pool, its sockets and its processes.
      PoolTheorems, PoolOwnership, PoolRuns: its invariants, and runs of it.
    - ConfigStore, ConfigTheorems (configstore store.go, models.go, tenant_refs.go): the
      configuration tables, the snapshot polled from them, routing and logins. bcrypt
      is the class [Bcrypt], with what is documented of it as [BcryptLaws].
    - SessionMeta, StartupOptions (sessionmeta.go, startup_options.go): the SQL that
      sets a session up, and what a client may ask for in its start-up packet.
    - Handshake (control.go handleConnection and below): a Postgres connection from the
      accepted socket to the message loop, in a monad that logs what is done and lets
      every call fail. It composes Wire, Auth, ConfigStore, SessionMeta and
      StartupOptions. HandshakeTheorems, HandshakeLogin, HandshakeGuesses, HandshakeRuns.
    - FlightStream, FlightSession, FlightStore (flightsqlingress/ingress.go,
      flight_ingress.go, the Flight validator of control.go): credentials, result
      streams, sessions with their transactions and handles, the session store, its
      requests as threads. FlightTheorems, FlightAccounting, FlightRuns.

    The worker:
    - DuckLake (server/ducklake, server/iceberg, the secrets of server.go): the
      statements that attach a tenant's catalogs and carry its credentials, and the
      reader and writer of connection strings.
    - Migration (ducklake/migration.go): the check for a pending migration, the backup
      of the metadata, the cache of checks, as a step relation over connections.
    - Catalogs (server.go, transient.go): the functions that run those statements, in
      a monad over the state of a DuckDB, the class [DuckDB].
    - TenantRuntime (duckdbservice): activation, its renewal and the sessions of a
      worker, requests interleaving wherever the pool's mutex is released.
    - Warehouse (shared_worker_activator.go): the configuration a tenant's worker is
      activated with, from its resources and secrets.

    The cluster, which composes RuntimeStore, Lifecycle, WorkerState and TenantRuntime:
    - Cluster (k8s_pool.go, worker_mgr.go): control planes with their memory, pods with
      their processes, the runtime tables, the effects that code has on them, and
      programs, which are sequences of effects that interleave.
    - K8sPool (k8s_pool.go, org_reserved_pool.go, shared_worker_activator.go,
      credential_refresh_scheduler.go, org_router.go): every operation of the pool as a
      program, and the steps of a cluster that runs any number of them.
    - K8sTheorems: its invariant; K8sRuns: runs of two control planes.

    On their own: Auth (server/auth), DiskCache (cmd/cache-proxy/cache.go).

    Operations keep the names of the code. State is a record per component, an error
    path a value, a Go panic the outcome [Panic] or [Crash]. Integers have their
    width where the code can reach it; counters of live objects are unbounded.

    * What the theorems show

    - Protocol: one ReadyForQuery per query and Sync; the transaction status moves
      only with what the client is told; portals keep their statement; Describe runs
      nothing but probes, and columns are described once; Bind is read back as sent.
    - Failures: a statement reaches the database once inside a transaction and a
      bounded number of times outside; and, as facts of the code that a client should
      know, the errors it hides: no skipping to Sync, a COMMIT after a failed rewrite,
      broken results in batches, EXPLAIN ANALYZE run by Describe.
    - COPY: the upload to a remote worker carries the bytes the local path writes;
      the binary stream is read back as the rows sent, and is what the handler sends;
      a client that leaves makes a remote worker load partial data.
    - Formats: binary values, arrays, messages and start-up packets round-trip;
      binary widths are the declared ones; RETURNING is found exactly where it is a
      token; errors are blamed on the user exactly by their SQLSTATE class.
    - Store: leases are fencing tokens, finished workers stay finished, capacity
      limits hold, orphan cleanup spares live owners, under any interleaving of
      operations and failures.
    - Admission, sessions, janitor, rate limiting, warm pool, disk cache: limits,
      fairness and progress of the queue, accounting of slots, emptiness after a
      drain, bans, use of capacity.
    - Connections: each follows the protocol and cleans up behind itself, also in a
      panic; a tenant's session is created only on a login its tables grant; an address
      is told of a bounded number of wrong passwords. The name of a database and a
      client's search path never leave the literal they are put in.
    - Worker pool: sockets are not shared, the cap holds, no process is forgotten
      before a shutdown, and workers in use are not retired; with runs in which a
      shutdown, a retirement or a fresh worker escapes these rules.
    - Flight: one statement at a time for each session, sessions accounted for, and
      created on the org that verified the user when usernames are unique; with runs
      that cross orgs when they are not, and the rows a result stream loses.
    - Worker: it serves the tenant it was first activated for and no other, its
      sessions are on that tenant's database and within the limit, a migration is
      announced only after a complete backup, secrets stay out of the path clients
      see; with runs in which a failed activation leaves its catalog to the next
      tenant, and a renewal bypasses the cache proxy.
    - Cluster: whatever control planes, goroutines, pods, the API server and the tables
      do, a worker handed out for an organisation is in a process activated for it, and
      no pod serves two organisations; with runs in which a shutdown deletes a pod that
      another control plane serves on, and a worker that migrated its catalog refuses
      renewals. A metadata password with escapes in it is read back wrong.

    * Fuel

    A recursion that is not structural takes its input's length, or the number of
    messages to come plus one, as fuel; each round consumes some of it. For the
    message loop and COPY that is the number of messages the client still sends; for
    the upload, their bytes ([remote_copy_gets_the_file] shows it is enough). The poll
    loop of ConnLimiter and the eviction loop of DiskCache are proved to end within
    theirs. The retry loops have the bounds of the code. The two loops of the Kubernetes
    pool that run until a context ends take a number of rounds, and wait for ever after
    the last; its theorems hold for every number.

    * Not modelled

    The transpiler works on the parse tree of pg_query, a generated protobuf outside
    the repository; its results are parameters. So are DuckDB, PostgreSQL (with its
    documented behaviour as [WorldLaws]), Kubernetes, Arrow Flight and the file
    system. Logging, metrics, tracing, the cancellation of a running query by its
    context and back-off sleeps are left out, and so are failed writes to a client once
    the message loop runs. TLS itself is the standard library's; the standalone server
    around its connections, the Kubernetes pool without a runtime store, pod
    specifications, Arrow records and gRPC, provisioning, the HTTP APIs and the entry
    points are not modelled: mostly input and output over those services. *)

From Stdlib Require Import Strings.Byte.
From stdpp Require Import prelude gmap strings list fin_maps.
From Stdlib Require Import ZArith Lia.

(** * Outcomes of Go calls

    A Go call returns a value, returns a non-nil [error], or panics (a slice
    expression or index out of range, a negative [make]). *)

Inductive panic_reason :=
  | MakeSliceLenOutOfRange
  | SliceBoundsOutOfRange
  | IndexOutOfRange.

Inductive outcome (E A : Type) :=
  | Ret (a : A)
  | Err (e : E)
  | Panic (p : panic_reason).
Arguments Ret {E A} a.
Arguments Err {E A} e.
Arguments Panic {E A} p.

Definition outcome_bind {E A B} (m : outcome E A) (k : A → outcome E B) : outcome E B :=
  match m with
  | Ret a => k a
  | Err e => Err e
  | Panic p => Panic p
  end.

(** Re-labels the error of a call, as [fmt.Errorf] with [%w] does. *)
Definition outcome_wrap {E F A} (f : E → F) (m : outcome E A) : outcome F A :=
  match m with
  | Ret a => Ret a
  | Err e => Err (f e)
  | Panic p => Panic p
  end.

Declare Scope go_scope.
Delimit Scope go_scope with go.
Notation "'let?' x ':=' m 'in' k" := (outcome_bind m (λ x, k))
  (at level 10, x pattern, m at level 100, k at level 200,
   format "'let?'  x  ':='  m  'in' '//' k") : go_scope.
Open Scope go_scope.

(** * Machine-width integers *)

Open Scope Z_scope.

Definition wrap_u (w z : Z) : Z := z mod 2 ^ w.
Definition wrap_s (w z : Z) : Z := (z + 2 ^ (w - 1)) mod 2 ^ w - 2 ^ (w - 1).

Definition in_s (w z : Z) : Prop := - 2 ^ (w - 1) ≤ z < 2 ^ (w - 1).
Definition in_u (w z : Z) : Prop := 0 ≤ z < 2 ^ w.

Lemma wrap_u_small w z : in_u w z → wrap_u w z = z.
Proof. intros H. by apply Z.mod_small. Qed.

Lemma wrap_s_small w z : 0 < w → in_s w z → wrap_s w z = z.
Proof.
  intros Hw [H1 H2]. unfold wrap_s.
  assert (2 ^ w = 2 * 2 ^ (w - 1)) as Hp.
  { replace w with (Z.succ (w - 1)) at 1 by lia. rewrite Z.pow_succ_r; lia. }
  rewrite Z.mod_small; lia.
Qed.

Lemma wrap_u_range w z : 0 ≤ w → in_u w (wrap_u w z).
Proof. intros. apply Z.mod_pos_bound. lia. Qed.

Lemma wrap_s_range w z : 0 < w → in_s w (wrap_s w z).
Proof.
  intros Hw. unfold wrap_s, in_s.
  assert (2 ^ w = 2 * 2 ^ (w - 1)) as Hp.
  { replace w with (Z.succ (w - 1)) at 1 by lia. rewrite Z.pow_succ_r; lia. }
  pose proof (Z.mod_pos_bound (z + 2 ^ (w - 1)) (2 ^ w)). lia.
Qed.

(** Two's complement: a signed value survives the trip through its unsigned
    image of the same width. *)
Lemma wrap_s_wrap_u w z : 0 < w → in_s w z → wrap_s w (wrap_u w z) = z.
Proof.
  intros Hw H. rewrite <- (wrap_s_small w z Hw H) at 2.
  unfold wrap_s, wrap_u. f_equal.
  apply Zplus_mod_idemp_l.
Qed.

(** * Bytes *)

Definition byte_val (b : byte) : Z := Z.of_N (Byte.to_N b).
Definition byte_of_Z (z : Z) : byte :=
  default x00 (Byte.of_N (Z.to_N (z mod 256))).

Lemma byte_val_range b : 0 ≤ byte_val b < 256.
Proof. unfold byte_val. pose proof (Byte.to_N_bounded b). lia. Qed.

Lemma byte_val_of_Z z : byte_val (byte_of_Z z) = z mod 256.
Proof.
  unfold byte_val, byte_of_Z.
  pose proof (Z.mod_pos_bound z 256 ltac:(lia)) as Hz.
  destruct (Byte.of_N (Z.to_N (z mod 256))) as [b|] eqn:E; simpl.
  - apply Byte.to_of_N in E. rewrite E. lia.
  - apply Byte.of_N_None_iff in E. lia.
Qed.

Lemma byte_val_inj a b : byte_val a = byte_val b → a = b.
Proof.
  unfold byte_val. intros H.
  assert (Byte.to_N a = Byte.to_N b) as H' by lia.
  apply (f_equal Byte.of_N) in H'. rewrite !Byte.of_to_N in H'. by injection H'.
Qed.

Lemma byte_of_Z_val b : byte_of_Z (byte_val b) = b.
Proof.
  apply byte_val_inj. rewrite byte_val_of_Z.
  apply Z.mod_small, byte_val_range.
Qed.

#[export] Instance byte_eq_dec : EqDecision byte.
Proof. intros a b. destruct (Byte.eqb a b) eqn:E.
  - left. by apply Byte.byte_dec_bl.
  - right. intros ->. by rewrite (Byte.byte_dec_lb eq_refl) in E.
Defined.

(** [binary.BigEndian]: [be_bytes n z] are the [n] low bytes of [z], most
    significant first; [be_val] reads them back as an unsigned value. *)
Fixpoint be_bytes (n : nat) (z : Z) : list byte :=
  match n with
  | O => []
  | S n' => byte_of_Z (z / 256 ^ Z.of_nat n') :: be_bytes n' z
  end.

Definition be_val (bs : list byte) : Z :=
  fold_left (λ acc b, acc * 256 + byte_val b) bs 0.

Lemma be_bytes_length n z : length (be_bytes n z) = n.
Proof. induction n; simpl; auto. Qed.

Lemma be_val_app_acc bs acc :
  fold_left (λ acc b, acc * 256 + byte_val b) bs acc
  = acc * 256 ^ Z.of_nat (length bs) + be_val bs.
Proof.
  unfold be_val. revert acc. induction bs as [|b bs IH]; intros acc.
  - simpl. lia.
  - cbn [fold_left length]. rewrite IH, (IH (0 * 256 + byte_val b)).
    rewrite Nat2Z.inj_succ, Z.pow_succ_r by lia. lia.
Qed.

Lemma be_val_cons b bs :
  be_val (b :: bs) = byte_val b * 256 ^ Z.of_nat (length bs) + be_val bs.
Proof. unfold be_val at 1. simpl. rewrite be_val_app_acc. lia. Qed.

Lemma be_val_bytes n z : be_val (be_bytes n z) = z mod 256 ^ Z.of_nat n.
Proof.
  induction n as [|n IH].
  - simpl. by rewrite Z.mod_1_r.
  - cbn [be_bytes]. rewrite be_val_cons, be_bytes_length, IH, byte_val_of_Z.
    rewrite Nat2Z.inj_succ, Z.pow_succ_r, (Z.mul_comm 256) by lia.
    rewrite Z.rem_mul_r by lia. lia.
Qed.

Lemma be_val_range bs : 0 ≤ be_val bs < 256 ^ Z.of_nat (length bs).
Proof.
  induction bs as [|b bs IH]; [unfold be_val; simpl; lia|].
  rewrite be_val_cons. cbn [length].
  rewrite Nat2Z.inj_succ, Z.pow_succ_r by lia.
  pose proof (byte_val_range b). nia.
Qed.

Lemma be_val_bytes_u n z :
  0 ≤ z < 256 ^ Z.of_nat n → be_val (be_bytes n z) = z.
Proof. intros. rewrite be_val_bytes. by apply Z.mod_small. Qed.

(** * Strings as byte sequences *)

Definition bytes (s : string) : list byte := String.list_byte_of_string s.
Definition str (l : list byte) : string := String.string_of_list_byte l.

Lemma str_bytes s : str (bytes s) = s.
Proof. apply String.string_of_list_byte_of_string. Qed.
Lemma bytes_str l : bytes (str l) = l.
Proof. apply String.list_byte_of_string_of_list_byte. Qed.
Lemma bytes_inj s t : bytes s = bytes t → s = t.
Proof. intros H. by rewrite <- (str_bytes s), H, str_bytes. Qed.

(** * Decimal numbers: [fmt]'s [%d] and [strconv] *)

Definition digit (d : Z) : byte := byte_of_Z (48 + d).
Definition digit_val (b : byte) : option Z :=
  if bool_decide (48 ≤ byte_val b ≤ 57) then Some (byte_val b - 48) else None.

Fixpoint dec_digits (fuel : nat) (z : Z) : list byte :=
  match fuel with
  | O => []
  | S fuel' => if bool_decide (z < 10) then [digit z]
               else dec_digits fuel' (z / 10) ++ [digit (z mod 10)]
  end.

Definition fmt_d (z : Z) : string :=
  let n := Z.abs z in
  let ds := dec_digits (S (Z.to_nat (Z.log2 n))) n in
  str (if bool_decide (z < 0) then x2d :: ds else ds).

(** The digit loop of [strconv.ParseUint] in base 10 with the bound [maxVal]. *)
Inductive num_result := NumOk (n : Z) | NumSyntax | NumRange.

Fixpoint parse_digits (maxVal n : Z) (l : list byte) : num_result :=
  match l with
  | [] => NumOk n
  | b :: l' =>
      match digit_val b with
      | None => NumSyntax
      | Some d => let n1 := n * 10 + d in
                  if bool_decide (maxVal < n1) then NumRange else parse_digits maxVal n1 l'
      end
  end.

(** [strconv.ParseInt(s, 10, w)]: the value and whether the error is nil. *)
Definition ParseInt (w : Z) (s : string) : Z * bool :=
  match bytes s with
  | [] => (0, false)
  | b :: l =>
      let neg := bool_decide (b = x2d) in
      let ds := if bool_decide (b = x2d ∨ b = x2b) then l else b :: l in
      let cutoff := 2 ^ (w - 1) in
      let fin un ok :=
        if negb neg && bool_decide (cutoff ≤ un) then (cutoff - 1, false)
        else if neg && bool_decide (cutoff < un) then (- cutoff, false)
        else (if neg then - un else un, ok) in
      match ds with
      | [] => (0, false)
      | _ => match parse_digits (2 ^ w - 1) 0 ds with
             | NumSyntax => (0, false)
             | NumRange => fin (2 ^ w - 1) false
             | NumOk un => fin un true
             end
      end
  end.

Lemma digit_val_digit d : 0 ≤ d ≤ 9 → digit_val (digit d) = Some d.
Proof.
  intros Hd. unfold digit_val, digit. rewrite byte_val_of_Z, Z.mod_small by lia.
  rewrite bool_decide_eq_true_2 by lia. f_equal. lia.
Qed.

Lemma parse_digits_app maxVal a : ∀ n b,
  parse_digits maxVal n (a ++ b)
  = match parse_digits maxVal n a with NumOk m => parse_digits maxVal m b | r => r end.
Proof.
  induction a as [|x a IH]; intros n b; simpl; [done|].
  destruct (digit_val x); [|done]. case_bool_decide; [done|]. apply IH.
Qed.

Lemma parse_dec_digits maxVal fuel : ∀ z,
  0 ≤ z ≤ maxVal → z < 2 ^ Z.of_nat fuel →
  parse_digits maxVal 0 (dec_digits fuel z) = NumOk z.
Proof.
  induction fuel as [|fuel IH]; intros z Hz Hlt.
  - simpl in Hlt. replace z with 0 by lia. done.
  - cbn [dec_digits]. case_bool_decide as H10.
    + simpl. rewrite digit_val_digit by lia.
      rewrite bool_decide_eq_false_2 by lia. done.
    + assert (z = 10 * (z / 10) + z mod 10) as Hdm by (apply Z.div_mod; lia).
      pose proof (Z.mod_pos_bound z 10 ltac:(lia)) as Hm.
      rewrite parse_digits_app, IH.
      * simpl. rewrite digit_val_digit by lia.
        rewrite bool_decide_eq_false_2 by lia. f_equal. lia.
      * lia.
      * rewrite Nat2Z.inj_succ, Z.pow_succ_r in Hlt by lia. lia.
Qed.

Lemma dec_digits_fuel z : 0 ≤ z → z < 2 ^ Z.of_nat (S (Z.to_nat (Z.log2 z))).
Proof.
  intros Hz. destruct (decide (z = 0)) as [->|]; [done|].
  pose proof (Z.log2_spec z ltac:(lia)) as [_ H].
  pose proof (Z.log2_nonneg z). rewrite Nat2Z.inj_succ, Z2Nat.id by lia. done.
Qed.

Lemma dec_digits_S fuel z :
  dec_digits (S fuel) z = if bool_decide (z < 10) then [digit z]
                          else dec_digits fuel (z / 10) ++ [digit (z mod 10)].
Proof. done. Qed.

Lemma dec_digits_nonempty fuel z : 0 ≤ z →
  ∃ b l, dec_digits (S fuel) z = b :: l ∧ (∃ d, 0 ≤ d ≤ 9 ∧ b = digit d).
Proof.
  revert z. induction fuel as [|fuel IH]; intros z Hz; rewrite dec_digits_S.
  - case_bool_decide; simpl; do 2 eexists; (split; [done|]).
    + exists z. split; [lia|done].
    + exists (z mod 10). split; [|done]. pose proof (Z.mod_pos_bound z 10). lia.
  - case_bool_decide.
    + do 2 eexists. split; [done|]. exists z. split; [lia|done].
    + destruct (IH (z / 10)) as (b & l & Heq & Hd); [apply Z.div_pos; lia|].
      rewrite Heq. eexists _, _. split; [done|]. done.
Qed.

(** Printing a value that fits and parsing it back is the identity. *)
Lemma ParseInt_fmt_d w z :
  0 < w → 0 ≤ z < 2 ^ (w - 1) → ParseInt w (fmt_d z) = (z, true).
Proof.
  intros Hw Hz. unfold ParseInt, fmt_d. rewrite bytes_str.
  rewrite bool_decide_eq_false_2 by lia. rewrite Z.abs_eq by lia.
  assert (2 ^ w = 2 * 2 ^ (w - 1)) as Hp.
  { replace w with (Z.succ (w - 1)) at 1 by lia. rewrite Z.pow_succ_r; lia. }
  destruct (dec_digits_nonempty (Z.to_nat (Z.log2 z)) z) as (b & l & Heq & d & Hd & Hb); [lia|].
  pose proof (parse_dec_digits (2 ^ w - 1) (S (Z.to_nat (Z.log2 z))) z
    ltac:(lia) (dec_digits_fuel z ltac:(lia))) as Hparse.
  rewrite Heq in Hparse |- *.
  assert (byte_val b = 48 + d) as Hbv.
  { subst b. unfold digit. rewrite byte_val_of_Z. apply Z.mod_small. lia. }
  assert (b ≠ x2d) as H1 by (intros ->; change (byte_val x2d) with 45 in Hbv; lia).
  assert (b ≠ x2b) as H2 by (intros ->; change (byte_val x2b) with 43 in Hbv; lia).
  rewrite (bool_decide_eq_false_2 (b = x2d ∨ b = x2b)) by tauto.
  rewrite (bool_decide_eq_false_2 (b = x2d)) by done.
  rewrite Hparse. cbn [negb andb].
  by rewrite bool_decide_eq_false_2 by lia.
Qed.

Lemma fmt_d_inj a b : 0 ≤ a → 0 ≤ b → fmt_d a = fmt_d b → a = b.
Proof.
  intros Ha Hb Heq.
  set (w := Z.max a b + 2).
  assert (∀ z, 0 ≤ z ≤ Z.max a b → z < 2 ^ (w - 1)) as Hlt.
  { intros z Hz. pose proof (Z.pow_gt_lin_r 2 (w - 1)). subst w. lia. }
  pose proof (ParseInt_fmt_d w a ltac:(lia) ltac:(split; [lia|apply Hlt; lia])) as H1.
  pose proof (ParseInt_fmt_d w b ltac:(lia) ltac:(split; [lia|apply Hlt; lia])) as H2.
  rewrite Heq in H1. congruence.
Qed.

(** * strings.TrimSpace *)

(** The UTF-8 encodings of the code points [unicode.IsSpace] accepts. *)
Definition space_encodings : list (list byte) :=
  [[x09]; [x0a]; [x0b]; [x0c]; [x0d]; [x20]; [xc2; x85]; [xc2; xa0]; [xe1; x9a; x80];
   [xe2; x80; x80]; [xe2; x80; x81]; [xe2; x80; x82]; [xe2; x80; x83]; [xe2; x80; x84];
   [xe2; x80; x85]; [xe2; x80; x86]; [xe2; x80; x87]; [xe2; x80; x88]; [xe2; x80; x89];
   [xe2; x80; x8a]; [xe2; x80; xa8]; [xe2; x80; xa9]; [xe2; x80; xaf]; [xe2; x81; x9f];
   [xe3; x80; x80]].

Fixpoint strip_prefix (p l : list byte) : option (list byte) :=
  match p, l with
  | [], _ => Some l
  | b :: p', c :: l' => if bool_decide (b = c) then strip_prefix p' l' else None
  | _ :: _, [] => None
  end.

Fixpoint strip_one (encs : list (list byte)) (l : list byte) : option (list byte) :=
  match encs with
  | [] => None
  | p :: encs' => match strip_prefix p l with Some l' => Some l' | None => strip_one encs' l end
  end.

Fixpoint strip_all (encs : list (list byte)) (fuel : nat) (l : list byte) : list byte :=
  match fuel with
  | O => l
  | S fuel' => match strip_one encs l with Some l' => strip_all encs fuel' l' | None => l end
  end.

Definition TrimSpace (s : string) : string :=
  let l := strip_all space_encodings (length (bytes s)) (bytes s) in
  str (reverse (strip_all (reverse <$> space_encodings) (length l) (reverse l))).

(** * Proof automation *)

(** Splits on the innermost [match] or [if] of the goal or a hypothesis. *)
Ltac break_match :=
  match goal with
  | |- context [match ?x with _ => _ end] =>
      lazymatch x with
      | context [match _ with _ => _ end] => fail
      | _ => destruct x eqn:?
      end
  | H : context [match ?x with _ => _ end] |- _ =>
      lazymatch x with
      | context [match _ with _ => _ end] => fail
      | _ => destruct x eqn:?
      end
  end.

Ltac break_matches := repeat (break_match; simplify_eq/=).

(** Turns boolean tests of the code into propositions. *)
Ltac to_prop :=
  repeat match goal with
  | H : _ && _ = true |- _ => apply andb_true_iff in H as [? ?]
  | H : _ || _ = false |- _ => apply orb_false_iff in H as [? ?]
  | H : negb _ = true |- _ => apply negb_true_iff in H
  | H : negb _ = false |- _ => apply negb_false_iff in H
  | H : bool_decide _ = true |- _ => apply bool_decide_eq_true in H
  | H : bool_decide _ = false |- _ => apply bool_decide_eq_false in H
  end.

Create HintDb duckgres discriminated.
Create Rewrite HintDb duckgres.
#[export] Hint Rewrite be_bytes_length str_bytes bytes_str byte_of_Z_val : duckgres.

(** * Counting the entries of a map *)

Section Counting.
Context {K V : Type} `{Countable K}.
Implicit Types (P : V → bool) (m : gmap K V).

Definition mcount P m : Z := Z.of_nat (size (filter (λ kv : K * V, P kv.2 = true) m)).

Lemma mcount_nonneg P m : 0 ≤ mcount P m.
Proof. unfold mcount. lia. Qed.

Lemma mcount_empty P : mcount P (∅ : gmap K V) = 0.
Proof. unfold mcount. by rewrite map_filter_empty, map_size_empty. Qed.

Lemma mcount_insert_fresh P m k v :
  m !! k = None → mcount P (<[ k := v ]> m) = mcount P m + Z.b2z (P v).
Proof.
  intros E. unfold mcount. destruct (P v) eqn:Ev.
  - rewrite map_filter_insert_True by done. rewrite map_size_insert_None; [cbn; lia|].
    apply map_lookup_filter_None. by left.
  - rewrite map_filter_insert_False by (cbn; congruence). rewrite delete_id by done. cbn. lia.
Qed.

Lemma mcount_delete P m k v :
  m !! k = Some v → mcount P (delete k m) = mcount P m - Z.b2z (P v).
Proof.
  intros E. rewrite <- (insert_delete_id m k v E) at 2.
  rewrite mcount_insert_fresh by apply lookup_delete_eq. lia.
Qed.

Lemma mcount_insert P m k v :
  mcount P (<[ k := v ]> m) = mcount P m + Z.b2z (P v) - match m !! k with Some x => Z.b2z (P x) | None => 0 end.
Proof.
  destruct (m !! k) as [x|] eqn:E; [|rewrite mcount_insert_fresh by done; lia].
  rewrite <- insert_delete_eq, mcount_insert_fresh by apply lookup_delete_eq.
  rewrite (mcount_delete P m k x E). lia.
Qed.

Lemma mcount_update P m k v x :
  m !! k = Some x → P v = P x → mcount P (<[ k := v ]> m) = mcount P m.
Proof. intros E Hv. rewrite mcount_insert, E, Hv. lia. Qed.

Lemma mcount_pos P m k v : m !! k = Some v → P v = true → 0 < mcount P m.
Proof.
  intros E Hv. pose proof (mcount_nonneg P (delete k m)). rewrite (mcount_delete P m k v E), Hv in *. cbn in *. lia.
Qed.
End Counting.

(** * Sums of lists *)

Definition zsum : list Z → Z := foldr Z.add 0.
Arguments zsum : simpl never.

#[export] Instance zsum_perm : Proper ((≡ₚ) ==> eq) zsum.
Proof. intros l k H. induction H; unfold zsum in *; cbn in *; lia. Qed.

Lemma zsum_nil : zsum [] = 0.
Proof. done. Qed.
Lemma zsum_cons x l : zsum (x :: l) = x + zsum l.
Proof. done. Qed.
Lemma zsum_app l k : zsum (l ++ k) = zsum l + zsum k.
Proof. induction l; cbn [app]; rewrite ?zsum_cons; [done|lia]. Qed.
Lemma zsum_nonneg l : Forall (λ x, 0 ≤ x) l → 0 ≤ zsum l.
Proof. induction 1; [done|]. rewrite zsum_cons. lia. Qed.

Lemma zsum_nonneg_fmap {A} (f : A → Z) l : (∀ x, 0 ≤ f x) → 0 ≤ zsum (f <$> l).
Proof. intros H. apply zsum_nonneg, Forall_fmap, Forall_true. apply H. Qed.

(** A sum of non-negative numbers is 0 only if all of them are. *)
Lemma zsum_zero {A} (f : A → Z) l x : (∀ x, 0 ≤ f x) → zsum (f <$> l) ≤ 0 → x ∈ l → f x = 0.
Proof.
  intros Hf Hs Hx. apply list_elem_of_split in Hx as (l1&l2&->).
  rewrite fmap_app in Hs. cbn in Hs. rewrite zsum_app, zsum_cons in Hs.
  pose proof (zsum_nonneg_fmap f l1 Hf). pose proof (zsum_nonneg_fmap f l2 Hf). specialize (Hf x). lia.
Qed.

Lemma filter_all {A} (P : A → Prop) `{∀ x, Decision (P x)} l : Forall P l → filter P l = l.
Proof. induction 1; [done|]. rewrite filter_cons, decide_True by done. congruence. Qed.

(** The keys of a map. *)
Definition keys {K V} `{Countable K} (m : gmap K V) : list K := (map_to_list m).*1.

Section Keys.
Context {K V : Type} `{Countable K}.
Implicit Types m : gmap K V.

Lemma elem_of_keys m k : k ∈ keys m ↔ is_Some (m !! k).
Proof.
  unfold keys. rewrite list_elem_of_fmap. split.
  - intros ([k' v]&->&Hk). apply elem_of_map_to_list in Hk. eauto.
  - intros [v Hv]. exists (k, v). split; [done|]. by apply elem_of_map_to_list.
Qed.
Lemma keys_insert m k v : m !! k = None → keys (<[ k := v ]> m) ≡ₚ k :: keys m.
Proof. intros E. unfold keys. by rewrite map_to_list_insert. Qed.
Lemma keys_delete m k v : m !! k = Some v → keys m ≡ₚ k :: keys (delete k m).
Proof.
  intros E. rewrite <- (keys_insert _ k v) by apply lookup_delete_eq. by rewrite insert_delete_id.
Qed.
Lemma keys_same m m' : (∀ k, is_Some (m !! k) ↔ is_Some (m' !! k)) → keys m ≡ₚ keys m'.
Proof.
  intros E. apply NoDup_Permutation; try apply NoDup_fst_map_to_list. intros k. by rewrite !elem_of_keys.
Qed.
Lemma keys_nil m : keys m ≡ₚ [] → m = ∅.
Proof.
  intros E. apply map_empty. intros k. destruct (m !! k) eqn:Ek; [|done].
  assert (k ∈ keys m) as Hk by (apply elem_of_keys; eauto). rewrite E in Hk. by apply elem_of_nil in Hk.
Qed.
End Keys.
