(* ===== verification/Wire.v ===== *)
(** PostgreSQL wire protocol (src/server/wire/protocol.go, redact.go,
    backend_key.go): framing of messages, the startup packet, and the messages
    the server sends.

    A reader is the byte stream still to come; a writer is the bytes written so
    far together with an oracle that says which [Write] calls fail. *)

From Stdlib Require Import Strings.Byte.
From stdpp Require Import prelude gmap strings list fin_maps.
From Stdlib Require Import ZArith Lia.
From S2P Require Import Prelude.

Open Scope Z_scope.

(** * Reading *)

Inductive io_err := EOF | ErrUnexpectedEOF.

Inductive wire_err :=
  | IOError (e : io_err)
  | StartupLengthError (e : io_err)
  | StartupBodyError (e : io_err)
  | MessageLengthError (e : io_err)
  | MessageBodyError (e : io_err).

(** [io.ReadFull]: exactly [n] bytes, [EOF] when none was there, otherwise
    [ErrUnexpectedEOF]. *)
Definition ReadFull (n : Z) (r : list byte) : outcome io_err (list byte * list byte) :=
  if bool_decide (n ≤ Z.of_nat (length r))
  then Ret (take (Z.to_nat n) r, drop (Z.to_nat n) r)
  else match r with [] => Err EOF | _ => Err ErrUnexpectedEOF end.

(** [binary.Read] of an [int32], big endian. *)
Definition ReadInt32 (r : list byte) : outcome io_err (Z * list byte) :=
  let? (bs, r') := ReadFull 4 r in
  Ret (wrap_s 32 (be_val bs), r').

(** [make([]byte, n)] for an [int32] length. *)
Definition make_len {E} (n : Z) : outcome E Z :=
  if bool_decide (0 ≤ n) then Ret n else Panic MakeSliceLenOutOfRange.

(** [data[lo:]] *)
Definition slice_from {E} (lo : nat) (data : list byte) : outcome E (list byte) :=
  if bool_decide (lo ≤ length data)%nat then Ret (drop lo data)
  else Panic SliceBoundsOutOfRange.

(** Index of the first NUL byte, or the length: the scans
    [for end < len(data) && data[end] != 0 { end++ }]. *)
Fixpoint scan_nul (data : list byte) : nat :=
  match data with
  | [] => O
  | b :: data' => if bool_decide (b = x00) then O else S (scan_nul data')
  end.

(** The parameter loop of [ReadStartupMessage]; [fuel] bounds the iterations,
    each of which consumes at least one byte. *)
Fixpoint startup_params (fuel : nat) (data : list byte) (params : gmap string string)
    : outcome wire_err (gmap string string) :=
  match fuel with
  | O => Ret params
  | S fuel' =>
      if bool_decide (length data ≤ 1)%nat then Ret params
      else
        let keyEnd := scan_nul data in
        if bool_decide (length data ≤ keyEnd)%nat then Ret params
        else
          let key := str (take keyEnd data) in
          let? data1 := slice_from (S keyEnd) data in
          let valEnd := scan_nul data1 in
          if bool_decide (length data1 < valEnd)%nat then Ret params
          else
            let value := str (take valEnd data1) in
            let? data2 := slice_from (S valEnd) data1 in
            startup_params fuel' data2
              (if bool_decide (key = EmptyString) then params else <[key := value]> params)
  end.

Definition sslRequestCode : Z := 80877103.
Definition gssencRequestCode : Z := 80877104.
Definition cancelRequestCode : Z := 80877102.

(** What [ReadStartupMessage] makes of the bytes after the length word. *)
Definition startup_body (remaining : list byte) : outcome wire_err (gmap string string) :=
  if bool_decide (length remaining < 4)%nat then Panic SliceBoundsOutOfRange
  else
    let protocolVersion := be_val (take 4 remaining) in
    if bool_decide (protocolVersion = sslRequestCode)
    then Ret {[ "__ssl_request"%string := "true"%string ]}
    else if bool_decide (protocolVersion = gssencRequestCode)
    then Ret {[ "__gssenc_request"%string := "true"%string ]}
    else if bool_decide (protocolVersion = cancelRequestCode) then
      if bool_decide (12 ≤ length remaining)%nat then
        let cancelPid := be_val (take 4 (drop 4 remaining)) in
        let cancelSecretKey := be_val (take 4 (drop 8 remaining)) in
        Ret (<[ "__cancel_request"%string := "true"%string ]>
            (<[ "__cancel_pid"%string := fmt_d cancelPid ]>
            (<[ "__cancel_secret_key"%string := fmt_d cancelSecretKey ]> ∅)))
      else Ret {[ "__cancel_request"%string := "true"%string ]}
    else
      let data := drop 4 remaining in
      startup_params (length data) data ∅.

Definition ReadStartupMessage (r : list byte)
    : outcome wire_err (gmap string string * list byte) :=
  let? (length, r1) := outcome_wrap StartupLengthError (ReadInt32 r) in
  let? n := make_len (wrap_s 32 (length - 4)) in
  let? (remaining, r2) := outcome_wrap StartupBodyError (ReadFull n r1) in
  let? params := startup_body remaining in
  Ret (params, r2).

Definition ReadMessage (r : list byte) : outcome wire_err (byte * list byte * list byte) :=
  let? (typeBuf, r1) := outcome_wrap IOError (ReadFull 1 r) in
  let msgType := default x00 (head typeBuf) in
  let? (length, r2) := outcome_wrap MessageLengthError (ReadInt32 r1) in
  let? n := make_len (wrap_s 32 (length - 4)) in
  if bool_decide (4 < length) then
    let? (body, r3) := outcome_wrap MessageBodyError (ReadFull n r2) in
    Ret (msgType, body, r3)
  else Ret (msgType, replicate (Z.to_nat n) x00, r2).

(** * Lemmas on the startup parameter loop *)

Definition nul_free (l : list byte) : Prop := Forall (λ b, b ≠ x00) l.

Lemma scan_nul_free l : nul_free l → scan_nul l = length l.
Proof.
  induction 1 as [|b l Hb _ IH]; simpl; [done|].
  by rewrite bool_decide_eq_false_2, IH.
Qed.

Lemma scan_nul_app k rest : nul_free k → scan_nul (k ++ x00 :: rest) = length k.
Proof.
  induction 1 as [|b l Hb _ IH]; simpl; [done|].
  by rewrite bool_decide_eq_false_2, IH.
Qed.

(** Every byte string either has no NUL or splits at its first one. *)
Lemma split_nul l : nul_free l ∨ ∃ k rest, nul_free k ∧ l = k ++ x00 :: rest.
Proof.
  induction l as [|b l IH]; [left; constructor|].
  destruct (decide (b = x00)) as [->|Hb].
  - right. exists [], l. split; [constructor|done].
  - destruct IH as [IH|(k & rest & Hk & ->)].
    + left. by constructor.
    + right. exists (b :: k), rest. split; [by constructor|done].
Qed.

Lemma slice_from_app {E} k rest :
  slice_from (E := E) (S (length k)) (k ++ x00 :: rest) = Ret rest.
Proof.
  unfold slice_from. rewrite bool_decide_eq_true_2.
  - f_equal. by rewrite (drop_app_ge k) by lia;
      replace (S (length k) - length k)%nat with 1%nat by lia.
  - rewrite length_app. simpl. lia.
Qed.

Lemma slice_from_past {E} v :
  slice_from (E := E) (S (length v)) v = Panic SliceBoundsOutOfRange.
Proof. unfold slice_from. rewrite bool_decide_eq_false_2; [done|lia]. Qed.

Definition add_param (params : gmap string string) (k v : list byte) : gmap string string :=
  if bool_decide (str k = EmptyString) then params else <[str k := str v]> params.

(** The loop's first three cases: too short, no key terminator, a whole pair. *)
Lemma startup_params_short fuel data params :
  (length data ≤ 1)%nat → startup_params fuel data params = Ret params.
Proof. intros. destruct fuel; simpl; [done|]. by rewrite bool_decide_eq_true_2. Qed.

Lemma startup_params_no_nul fuel data params :
  nul_free data → startup_params fuel data params = Ret params.
Proof.
  intros Hf. destruct fuel; simpl; [done|]. case_bool_decide; [done|].
  rewrite (scan_nul_free _ Hf). by rewrite bool_decide_eq_true_2.
Qed.

Lemma startup_params_key fuel k data1 params :
  nul_free k → (1 < length (k ++ x00 :: data1))%nat →
  startup_params (S fuel) (k ++ x00 :: data1) params
  = let valEnd := scan_nul data1 in
    if bool_decide (length data1 < valEnd)%nat then Ret params
    else let? data2 := slice_from (S valEnd) data1 in
         startup_params fuel data2 (add_param params k (take valEnd data1)).
Proof.
  intros Hk Hlen. cbn [startup_params].
  rewrite bool_decide_eq_false_2 by lia.
  rewrite (scan_nul_app _ _ Hk).
  rewrite bool_decide_eq_false_2 by (rewrite length_app; simpl; lia).
  rewrite slice_from_app. cbn [outcome_bind].
  by rewrite take_app_length.
Qed.

Lemma startup_params_pair fuel k v rest params :
  nul_free k → nul_free v →
  startup_params (S fuel) (k ++ x00 :: v ++ x00 :: rest) params
  = startup_params fuel rest (add_param params k v).
Proof.
  intros Hk Hv. rewrite startup_params_key; [|done|].
  - cbv zeta. rewrite (scan_nul_app _ _ Hv).
    rewrite bool_decide_eq_false_2 by (rewrite length_app; lia).
    rewrite slice_from_app. cbn [outcome_bind]. by rewrite take_app_length.
  - rewrite length_app. simpl. rewrite length_app. simpl. lia.
Qed.

(** A key whose value has no terminator makes the slice expression
    [data[valEnd+1:]] panic: the guard before it tests [valEnd > len(data)],
    which never holds. *)
Lemma startup_params_unterminated fuel k v params :
  nul_free k → nul_free v → (1 < length (k ++ x00 :: v))%nat →
  startup_params (S fuel) (k ++ x00 :: v) params = Panic SliceBoundsOutOfRange.
Proof.
  intros Hk Hv Hlen. rewrite startup_params_key by done.
  cbv zeta. rewrite (scan_nul_free _ Hv).
  rewrite bool_decide_eq_false_2 by lia.
  by rewrite slice_from_past.
Qed.

(** NUL-terminated key/value pairs as they stand in a startup packet. *)
Definition enc_pairs (ps : list (list byte * list byte)) : list byte :=
  flat_map (λ '(k, v), k ++ x00 :: v ++ [x00]) ps.

Definition pairs_nul_free (ps : list (list byte * list byte)) : Prop :=
  Forall (λ '(k, v), nul_free k ∧ nul_free v) ps.

Lemma enc_pairs_cons k v ps rest :
  enc_pairs ((k, v) :: ps) ++ rest = k ++ x00 :: v ++ x00 :: (enc_pairs ps ++ rest).
Proof. simpl. by rewrite <- !app_assoc; simpl; rewrite <- app_assoc. Qed.

Lemma startup_params_pairs ps : ∀ fuel rest params,
  pairs_nul_free ps → (length (enc_pairs ps ++ rest) ≤ fuel)%nat →
  ∃ fuel', (length rest ≤ fuel')%nat ∧
  startup_params fuel (enc_pairs ps ++ rest) params
  = startup_params fuel' rest (fold_left (λ m '(k, v), add_param m k v) ps params).
Proof.
  induction ps as [|[k v] ps IH]; intros fuel rest params Hps Hfuel.
  - simpl in *. eauto.
  - apply Forall_cons in Hps as [[Hk Hv] Hps].
    rewrite enc_pairs_cons in *.
    destruct fuel as [|fuel].
    { rewrite !length_app in Hfuel. simpl in Hfuel. lia. }
    rewrite startup_params_pair by done. simpl.
    apply IH; [done|]. rewrite length_app in Hfuel. simpl in Hfuel.
    rewrite length_app in Hfuel. simpl in Hfuel. lia.
Qed.

(** Where a run of the loop can end. *)
Inductive startup_tail : list byte → Prop :=
  | tail_short l : (length l ≤ 1)%nat → startup_tail l
  | tail_no_nul l : nul_free l → startup_tail l
  | tail_unterminated k v :
      nul_free k → nul_free v → (1 < length (k ++ x00 :: v))%nat →
      startup_tail (k ++ x00 :: v).

Lemma startup_decompose n : ∀ data, (length data ≤ n)%nat →
  ∃ ps tail, pairs_nul_free ps ∧ data = enc_pairs ps ++ tail ∧ startup_tail tail.
Proof.
  induction n as [|n IH]; intros data Hn.
  { exists [], data. repeat split; [constructor|]. apply tail_short. lia. }
  destruct (decide (length data ≤ 1)%nat) as [?|Hlong].
  { exists [], data. repeat split; [constructor|]. by apply tail_short. }
  destruct (split_nul data) as [Hf|(k & data1 & Hk & ->)].
  { exists [], data. repeat split; [constructor|]. by apply tail_no_nul. }
  destruct (split_nul data1) as [Hv|(v & rest & Hv & ->)].
  { exists [], (k ++ x00 :: data1). repeat split; [constructor|].
    apply tail_unterminated; [done..|lia]. }
  destruct (IH rest) as (ps & tail & Hps & -> & Ht).
  { rewrite length_app in Hn. simpl in Hn. rewrite length_app in Hn. simpl in Hn. lia. }
  exists ((k, v) :: ps), tail. repeat split; [by constructor| |done].
  by rewrite enc_pairs_cons.
Qed.

(** * Framing lemmas *)

Lemma ReadFull_app n a b :
  n = Z.of_nat (length a) → ReadFull n (a ++ b) = Ret (a, b).
Proof.
  intros ->. unfold ReadFull. rewrite bool_decide_eq_true_2 by (rewrite length_app; lia).
  by rewrite Nat2Z.id, take_app_length, drop_app_length.
Qed.

Lemma ReadInt32_be z r :
  in_s 32 z → ReadInt32 (be_bytes 4 (wrap_u 32 z) ++ r) = Ret (z, r).
Proof.
  intros Hz. unfold ReadInt32. rewrite ReadFull_app by (by rewrite be_bytes_length).
  cbn [outcome_bind]. rewrite be_val_bytes.
  change (256 ^ Z.of_nat 4) with (2 ^ 32).
  f_equal. f_equal. rewrite <- (wrap_s_wrap_u 32 z) at 2 by (done || lia).
  unfold wrap_u. by rewrite Zmod_mod.
Qed.

(** A startup packet with an honest length word delivers its body. *)
Definition startup_packet (body : list byte) : list byte :=
  be_bytes 4 (wrap_u 32 (Z.of_nat (length body) + 4)) ++ body.

Lemma ReadStartupMessage_packet body rest :
  Z.of_nat (length body) + 4 < 2 ^ 31 →
  ReadStartupMessage (startup_packet body ++ rest)
  = let? params := startup_body body in Ret (params, rest).
Proof.
  intros Hlen. unfold ReadStartupMessage, startup_packet. rewrite <- app_assoc.
  rewrite ReadInt32_be by (unfold in_s; lia). cbn [outcome_wrap outcome_bind].
  replace (Z.of_nat (length body) + 4 - 4) with (Z.of_nat (length body)) by lia.
  rewrite wrap_s_small by (unfold in_s; lia).
  unfold make_len. rewrite bool_decide_eq_true_2 by lia. cbn [outcome_bind].
  by rewrite ReadFull_app.
Qed.

(** The body of an ordinary startup packet: protocol version and parameters. *)
Definition ordinary_version (version : Z) : Prop :=
  in_u 32 version ∧ version ≠ sslRequestCode ∧ version ≠ gssencRequestCode
  ∧ version ≠ cancelRequestCode.

Lemma startup_body_ordinary version data :
  ordinary_version version →
  startup_body (be_bytes 4 version ++ data) = startup_params (length data) data ∅.
Proof.
  intros (Hv & H1 & H2 & H3). unfold startup_body.
  rewrite bool_decide_eq_false_2 by (rewrite length_app, be_bytes_length; lia).
  rewrite take_app_length' by (by rewrite be_bytes_length).
  rewrite be_val_bytes_u by exact Hv. cbv zeta.
  rewrite !bool_decide_eq_false_2 by done.
  by rewrite drop_app_length' by (by rewrite be_bytes_length).
Qed.

(** The startup message a client sends for the parameters [ps]. *)
Definition client_startup (version : Z) (ps : list (string * string)) : list byte :=
  startup_packet (be_bytes 4 version
    ++ enc_pairs (map (λ '(k, v), (bytes k, bytes v)) ps) ++ [x00]).

Lemma fold_add_param ps : ∀ m,
  Forall (λ p, p.1 ≠ EmptyString) ps →
  fold_left (λ m '(k, v), add_param m k v) (map (λ '(k, v), (bytes k, bytes v)) ps) m
  = list_to_map (reverse ps) ∪ m.
Proof.
  induction ps as [|[k v] ps IH]; intros m Hne; simpl.
  - by rewrite (left_id_L ∅ (∪)).
  - apply Forall_cons in Hne as [Hk Hne]. simpl in Hk.
    rewrite IH by done. unfold add_param. rewrite !str_bytes.
    rewrite bool_decide_eq_false_2 by done.
    rewrite reverse_cons, list_to_map_app. simpl.
    rewrite <- (assoc_L (∪)). f_equal.
    by rewrite insert_union_singleton_l, insert_empty.
Qed.

(** Parsing what a client sends gives back its parameters: for every
    ordinary protocol version and every list of NUL-free settings with non-empty
    names, [ReadStartupMessage] consumes exactly the packet and returns the map
    of the settings, the last value winning for a repeated name. *)
Theorem startup_roundtrip version ps rest :
  ordinary_version version →
  Forall (λ p, p.1 ≠ EmptyString ∧ nul_free (bytes p.1) ∧ nul_free (bytes p.2)) ps →
  Z.of_nat (length (client_startup version ps)) < 2 ^ 31 →
  ReadStartupMessage (client_startup version ps ++ rest)
  = Ret (list_to_map (reverse ps), rest).
Proof.
  intros Hver Hps Hlen. unfold client_startup in *.
  rewrite ReadStartupMessage_packet.
  2:{ unfold startup_packet in Hlen. rewrite length_app, be_bytes_length in Hlen. lia. }
  rewrite startup_body_ordinary by done.
  set (pbs := map (λ '(k, v), (bytes k, bytes v)) ps).
  destruct (startup_params_pairs pbs
    (length (enc_pairs pbs ++ [x00])) [x00] ∅) as (fuel' & _ & ->); [|done|].
  { apply Forall_map. eapply Forall_impl; [exact Hps|].
    intros [k v]. simpl. tauto. }
  rewrite startup_params_short by (simpl; lia). cbn [outcome_bind].
  unfold pbs. rewrite fold_add_param.
  - by rewrite (right_id_L ∅ (∪)).
  - eapply Forall_impl; [exact Hps|]. intros [k v]. simpl. tauto.
Qed.

Lemma startup_roundtrip_witness :
  ReadStartupMessage
    (client_startup 196608 [("user", "alice"); ("database", "db")]%string ++ [x51])
  = Ret (list_to_map (reverse [("user", "alice"); ("database", "db")]%string), [x51]).
Proof.
  apply startup_roundtrip.
  - vm_compute. repeat split; congruence.
  - repeat constructor; vm_compute; congruence.
  - vm_compute. reflexivity.
Defined.

(** Exactly which delivered startup packets crash the server: the parse
    panics iff, after some complete key/value pairs, the packet ends with a key
    and a value that has no terminating NUL (or a lone non-empty key). The
    guard [valEnd > len(data)] in the source never catches this case. *)
Theorem startup_panic_iff version data rest :
  ordinary_version version →
  Z.of_nat (length data) + 8 < 2 ^ 31 →
  (∃ p, ReadStartupMessage (startup_packet (be_bytes 4 version ++ data) ++ rest) = Panic p)
  ↔ ∃ ps k v, pairs_nul_free ps ∧ nul_free k ∧ nul_free v
      ∧ data = enc_pairs ps ++ k ++ x00 :: v ∧ (1 < length (k ++ x00 :: v))%nat.
Proof.
  intros Hver Hlen.
  rewrite ReadStartupMessage_packet by (rewrite length_app, be_bytes_length; lia).
  rewrite startup_body_ordinary by done.
  destruct (startup_decompose (length data) data) as (ps & tail & Hps & Hdata & Ht); [done|].
  destruct (startup_params_pairs ps (length data) tail ∅) as (fuel & Hfuel & Hrun);
    [done|by rewrite <- Hdata|].
  split.
  - intros [p Hp]. rewrite <- Hdata in Hrun. rewrite Hrun in Hp.
    destruct Ht as [l Hl|l Hl|k v Hk Hv Hkv].
    + by rewrite startup_params_short in Hp.
    + by rewrite startup_params_no_nul in Hp.
    + exists ps, k, v. done.
  - intros (ps' & k & v & Hps' & Hk & Hv & Hdata' & Hkv).
    destruct (startup_params_pairs ps' (length data) (k ++ x00 :: v) ∅)
      as (fuel' & Hfuel' & Hrun'); [done|by rewrite <- Hdata'|].
    rewrite <- Hdata' in Hrun'. rewrite Hrun'. destruct fuel' as [|fuel'].
    { simpl in *. lia. }
    rewrite startup_params_unterminated by done. by eexists.
Qed.

Lemma startup_panic_iff_witness :
  ∃ p, ReadStartupMessage
    (startup_packet (be_bytes 4 196608 ++ bytes "user" ++ [x00] ++ bytes "bob") ++ [])
  = Panic p.
Proof.
  apply startup_panic_iff.
  - vm_compute. repeat split; congruence.
  - vm_compute. reflexivity.
  - exists [], (bytes "user"), (bytes "bob").
    repeat split; try (vm_compute; reflexivity); repeat constructor; vm_compute; congruence.
Defined.

(** * Writing *)

(** The bytes accepted so far and, for each coming [Write] call, whether it
    fails (no entry: it succeeds). *)
Record writer := { w_out : list byte; w_faults : list bool }.

(** [w.Write(bs)]: [true] when the call returned an error. *)
Definition Write (w : writer) (bs : list byte) : bool * writer :=
  match w_faults w with
  | true :: fs => (true, {| w_out := w_out w; w_faults := fs |})
  | false :: fs => (false, {| w_out := w_out w ++ bs; w_faults := fs |})
  | [] => (false, {| w_out := w_out w ++ bs; w_faults := [] |})
  end.

Definition WriteMessage (w : writer) (msgType : byte) (data : list byte) : bool * writer :=
  let '(err, w1) := Write w [msgType] in
  if (err : bool) then (true, w1) else
  let length := wrap_s 32 (Z.of_nat (List.length data) + 4) in
  let '(err, w2) := Write w1 (be_bytes 4 (wrap_u 32 length)) in
  if (err : bool) then (true, w2) else
  if bool_decide (0 < List.length data)%nat then
    let '(err, w3) := Write w2 data in
    if (err : bool) then (true, w3) else (false, w3)
  else (false, w2).

Definition MsgAuth := x52.
Definition MsgParamStatus := x53.
Definition MsgBackendKeyData := x4b.
Definition MsgReadyForQuery := x5a.
Definition MsgCommandComplete := x43.
Definition MsgErrorResponse := x45.
Definition MsgNoticeResponse := x4e.
Definition MsgEmptyQuery := x49.
Definition MsgParseComplete := x31.
Definition MsgBindComplete := x32.
Definition MsgCloseComplete := x33.
Definition MsgNoData := x6e.
Definition MsgCopyData := x64.
Definition MsgCopyDone := x63.
Definition MsgCopyInResponse := x47.
Definition MsgCopyOutResponse := x48.

Definition authOK : Z := 0.
Definition authCleartextPwd : Z := 3.

Definition WriteAuthOK (w : writer) := WriteMessage w MsgAuth (be_bytes 4 authOK).
Definition WriteAuthCleartextPassword (w : writer) :=
  WriteMessage w MsgAuth (be_bytes 4 authCleartextPwd).
Definition WriteParameterStatus (w : writer) (name value : string) :=
  WriteMessage w MsgParamStatus (bytes name ++ [x00] ++ bytes value ++ [x00]).
Definition WriteBackendKeyData (w : writer) (pid secretKey : Z) :=
  WriteMessage w MsgBackendKeyData
    (be_bytes 4 (wrap_u 32 pid) ++ be_bytes 4 (wrap_u 32 secretKey)).
Definition WriteReadyForQuery (w : writer) (txStatus : byte) :=
  WriteMessage w MsgReadyForQuery [txStatus].

(** Matching the secret pattern at the head of the input, as the
    regular-expression engine does (leftmost, greedy): the word password in any
    case ([s] also folds with U+017F), spaces, an equals sign or colon, spaces,
    then a double-quoted run or a run free of spaces and double quotes. The
    result is what follows the first group and what follows the whole match. *)
Definition is_re_space (b : byte) : bool :=
  bool_decide (b = x09 ∨ b = x0a ∨ b = x0c ∨ b = x0d ∨ b = x20).

Definition fold_letter (lower : byte) (l : list byte) : option (list byte) :=
  match l with
  | b :: l' =>
      if bool_decide (b = lower ∨ byte_val b = byte_val lower - 32) then Some l'
      else match lower, b, l' with
           | x73, xc5, xbf :: l'' => Some l''
           | _, _, _ => None
           end
  | [] => None
  end.

Fixpoint fold_word (word l : list byte) : option (list byte) :=
  match word with
  | [] => Some l
  | c :: word' => match fold_letter c l with Some l' => fold_word word' l' | None => None end
  end.

Fixpoint skip_while (p : byte → bool) (l : list byte) : list byte :=
  match l with
  | b :: l' => if p b then skip_while p l' else l
  | [] => []
  end.

Definition match_password (l : list byte) : option (list byte * list byte) :=
  match fold_word (bytes "password") l with
  | None => None
  | Some l1 =>
      match skip_while is_re_space l1 with
      | b :: l2 =>
          if bool_decide (b = x3d ∨ b = x3a) then
            let value := skip_while is_re_space l2 in
            match value with
            | x22 :: l3 => match skip_while (λ c, bool_decide (c ≠ x22)) l3 with
                           | _ :: l4 => Some (value, l4)
                           | [] => None
                           end
            | _ :: _ => Some (value, skip_while
                          (λ c, negb (is_re_space c) && bool_decide (c ≠ x22)) value)
            | [] => None
            end
          else None
      | [] => None
      end
  end.

Fixpoint redact (fuel : nat) (l : list byte) : list byte :=
  match fuel, l with
  | S fuel', b :: l' =>
      match match_password l with
      | Some (value, rest) =>
          take (length l - length value) l ++ bytes "[REDACTED]" ++ redact fuel' rest
      | None => b :: redact fuel' l'
      end
  | _, _ => []
  end.

Definition RedactSecrets (s : string) : string := str (redact (length (bytes s)) (bytes s)).

Definition error_fields (severity code message : string) : list byte :=
  [x53] ++ bytes severity ++ [x00] ++ [x43] ++ bytes code ++ [x00]
  ++ [x4d] ++ bytes message ++ [x00] ++ [x00].

Definition WriteErrorResponse (w : writer) (severity code message : string) :=
  WriteMessage w MsgErrorResponse (error_fields severity code (RedactSecrets message)).
Definition WriteNoticeResponse (w : writer) (severity code message : string) :=
  WriteMessage w MsgNoticeResponse (error_fields severity code message).
Definition WriteCommandComplete (w : writer) (tag : string) :=
  WriteMessage w MsgCommandComplete (bytes tag ++ [x00]).
Definition WriteEmptyQueryResponse (w : writer) := WriteMessage w MsgEmptyQuery [].
Definition WriteParseComplete (w : writer) := WriteMessage w MsgParseComplete [].
Definition WriteBindComplete (w : writer) := WriteMessage w MsgBindComplete [].
Definition WriteCloseComplete (w : writer) := WriteMessage w MsgCloseComplete [].
Definition WriteNoData (w : writer) := WriteMessage w MsgNoData [].

(** The body both COPY responses share: format byte, column count, one format
    code per column (the loop runs over [int16], so not at all when the count
    is negative). *)
Definition copy_response_body (numColumns : Z) (textFormat : bool) : list byte :=
  [if textFormat then x00 else x01] ++ be_bytes 2 (wrap_u 16 numColumns)
  ++ concat (replicate (Z.to_nat numColumns) (be_bytes 2 (if textFormat then 0 else 1))).

Definition WriteCopyOutResponse (w : writer) (numColumns : Z) (textFormat : bool) :=
  WriteMessage w MsgCopyOutResponse (copy_response_body numColumns textFormat).
Definition WriteCopyInResponse (w : writer) (numColumns : Z) (textFormat : bool) :=
  WriteMessage w MsgCopyInResponse (copy_response_body numColumns textFormat).
Definition WriteCopyData (w : writer) (data : list byte) := WriteMessage w MsgCopyData data.
Definition WriteCopyDone (w : writer) := WriteMessage w MsgCopyDone [].

(** * Message streams *)

Definition frame (t : byte) (d : list byte) : list byte :=
  t :: be_bytes 4 (wrap_u 32 (Z.of_nat (length d) + 4)) ++ d.

Definition frame_ok (d : list byte) : Prop := Z.of_nat (length d) + 4 < 2 ^ 31.

Lemma WriteMessage_ok w t d w' :
  frame_ok d → WriteMessage w t d = (false, w') → w_out w' = w_out w ++ frame t d.
Proof.
  unfold frame_ok. intros Hd. unfold WriteMessage.
  rewrite wrap_s_small by (unfold in_s; lia).
  destruct w as [out fs]. unfold Write, frame. simpl.
  destruct d as [|b d]; simpl;
    destruct fs as [|[] [|[] [|[] fs]]]; simpl; intros H; simplify_eq/=;
    by rewrite <- ?app_assoc, ?app_nil_r.
Qed.

Lemma WriteMessage_no_faults w t d :
  w_faults w = [] → frame_ok d →
  WriteMessage w t d = (false, {| w_out := w_out w ++ frame t d; w_faults := [] |}).
Proof.
  destruct w as [out fs]. simpl. intros -> Hd. unfold frame_ok in Hd.
  unfold WriteMessage. rewrite wrap_s_small by (unfold in_s; lia).
  unfold Write, frame. destruct d; simpl; by rewrite <- ?app_assoc, ?app_nil_r.
Qed.

Lemma ReadMessage_frame t d rest :
  frame_ok d → ReadMessage (frame t d ++ rest) = Ret (t, d, rest).
Proof.
  intros Hd. unfold frame_ok in Hd. unfold ReadMessage, frame.
  change (?x :: ?l ++ ?r) with ([x] ++ l ++ r). rewrite <- !app_assoc.
  rewrite ReadFull_app by done. cbn [outcome_wrap outcome_bind default head].
  rewrite ReadInt32_be by (unfold in_s; lia). cbn [outcome_wrap outcome_bind].
  replace (Z.of_nat (length d) + 4 - 4) with (Z.of_nat (length d)) by lia.
  rewrite wrap_s_small by (unfold in_s; lia).
  unfold make_len. rewrite bool_decide_eq_true_2 by lia. cbn [outcome_bind].
  case_bool_decide as Hl.
  - by rewrite ReadFull_app.
  - destruct d; [done|]. simpl in Hl. lia.
Qed.

Fixpoint send_all (w : writer) (ms : list (byte * list byte)) : bool * writer :=
  match ms with
  | [] => (false, w)
  | (t, d) :: ms' => let '(err, w1) := WriteMessage w t d in
                     if (err : bool) then (true, w1) else send_all w1 ms'
  end.

Fixpoint receive_n (n : nat) (r : list byte)
    : outcome wire_err (list (byte * list byte) * list byte) :=
  match n with
  | O => Ret ([], r)
  | S n' => let? (m, r1) := ReadMessage r in
            let? (ms, r2) := receive_n n' r1 in Ret (m :: ms, r2)
  end.

(** The stream of messages is uniquely decodable: whatever faults the
    transport has, if the server's [WriteMessage] calls for [ms] all report
    success, then reading [length ms] messages from the bytes put on the wire
    (with anything after them) yields exactly [ms]. *)
Theorem stream_roundtrip ms : ∀ w w' rest,
  Forall (λ m, frame_ok m.2) ms →
  send_all w ms = (false, w') →
  ∃ sent, w_out w' = w_out w ++ sent ∧ receive_n (length ms) (sent ++ rest) = Ret (ms, rest).
Proof.
  induction ms as [|[t d] ms IH]; intros w w' rest Hms Hsend.
  - simpl in *. simplify_eq. exists []. by rewrite app_nil_r.
  - apply Forall_cons in Hms as [Hd Hms]. simpl in Hsend.
    destruct (WriteMessage w t d) as [[] w1] eqn:E; [done|].
    apply WriteMessage_ok in E; [|done].
    destruct (IH _ _ rest Hms Hsend) as (sent & Hout & Hrecv).
    exists (frame t d ++ sent). split; [by rewrite Hout, E, app_assoc|].
    rewrite <- app_assoc. cbn [receive_n length].
    rewrite ReadMessage_frame by done. cbn [outcome_bind]. by rewrite Hrecv.
Qed.

Lemma stream_roundtrip_witness :
  ∃ sent, w_out (send_all {| w_out := []; w_faults := [] |}
                  [(MsgAuth, be_bytes 4 authOK); (MsgReadyForQuery, [x49])]).2 = [] ++ sent
  ∧ receive_n 2 (sent ++ [x00]) = Ret ([(MsgAuth, be_bytes 4 authOK); (MsgReadyForQuery, [x49])], [x00]).
Proof.
  apply (stream_roundtrip [(MsgAuth, be_bytes 4 authOK); (MsgReadyForQuery, [x49])]
    {| w_out := []; w_faults := [] |}).
  - repeat constructor.
  - vm_compute. reflexivity.
Defined.

(** * Backend keys and cancel requests *)

Record BackendKey := { Pid : Z; SecretKey : Z }.

(** [rnd] is what [rand.Int(rand.Reader, 1<<31)] returned ([None]: an error) and
    [nanos] the clock the fallback reads. *)
Definition GenerateSecretKey (rnd : option Z) (nanos : Z) : Z :=
  match rnd with
  | None => wrap_s 32 (Z.land nanos 0x7FFFFFFF)
  | Some n => wrap_s 32 n
  end.

(** The cancel branch of [handleStartup]: the outer option is whether the packet
    is a cancel request, the inner one the key passed to [CancelQuery]. *)
Definition cancel_request (params : gmap string string) : option (option BackendKey) :=
  if bool_decide (default ""%string (params !! "__cancel_request"%string) = "true"%string) then
    Some (match params !! "__cancel_pid"%string, params !! "__cancel_secret_key"%string with
          | Some pidStr, Some secretKeyStr =>
              Some {| Pid := wrap_s 32 (ParseInt 32 pidStr).1;
                      SecretKey := wrap_s 32 (ParseInt 32 secretKeyStr).1 |}
          | _, _ => None
          end)
  else None.

(** What a client sends to cancel: the request code and the eight bytes of the
    BackendKeyData message it received. *)
Definition cancel_packet (keydata : list byte) : list byte :=
  startup_packet (be_bytes 4 cancelRequestCode ++ keydata).

Lemma GenerateSecretKey_range rnd nanos :
  (∀ n, rnd = Some n → 0 ≤ n < 2 ^ 31) → 0 ≤ GenerateSecretKey rnd nanos < 2 ^ 31.
Proof.
  intros H. unfold GenerateSecretKey. destruct rnd as [n|].
  - specialize (H n eq_refl). rewrite wrap_s_small; unfold in_s; lia.
  - change 0x7FFFFFFF with (Z.ones 31). rewrite Z.land_ones by lia.
    pose proof (Z.mod_pos_bound nanos (2 ^ 31) ltac:(lia)).
    rewrite wrap_s_small; unfold in_s; lia.
Qed.

Lemma startup_body_cancel pid key :
  0 ≤ pid < 2 ^ 31 → 0 ≤ key < 2 ^ 31 →
  startup_body (be_bytes 4 cancelRequestCode ++ be_bytes 4 pid ++ be_bytes 4 key)
  = Ret (<[ "__cancel_request"%string := "true"%string ]>
        (<[ "__cancel_pid"%string := fmt_d pid ]>
        (<[ "__cancel_secret_key"%string := fmt_d key ]> ∅))).
Proof.
  intros Hp Hk. unfold startup_body.
  rewrite !length_app, !be_bytes_length. cbn [Nat.add].
  rewrite (bool_decide_eq_false_2 (12 < 4)%nat) by lia.
  rewrite take_app_length' by (by rewrite be_bytes_length).
  rewrite be_val_bytes, Z.mod_small by (vm_compute; split; congruence).
  rewrite (bool_decide_eq_false_2 (cancelRequestCode = _)) by done.
  rewrite (bool_decide_eq_false_2 (cancelRequestCode = _)) by done.
  rewrite bool_decide_eq_true_2 by done. rewrite bool_decide_eq_true_2 by lia.
  rewrite drop_app_length' by (by rewrite be_bytes_length).
  change 8%nat with (4 + 4)%nat. rewrite <- drop_drop.
  rewrite drop_app_length' by (by rewrite be_bytes_length).
  rewrite drop_app_length' by (by rewrite be_bytes_length).
  rewrite take_app_length' by (by rewrite be_bytes_length).
  rewrite take_ge by (rewrite be_bytes_length; lia).
  rewrite !be_val_bytes, !Z.mod_small; [done|simpl; lia..].
Qed.

(** A cancel request reaches the session it names. Whatever key
    [GenerateSecretKey] produced (random, or from the clock when the random
    source failed) and whatever non-negative pid: the BackendKeyData message is
    read back by the client, and the cancel packet built from its body, read by
    [ReadStartupMessage] and decoded through its decimal [__cancel_*]
    parameters, yields the very same [BackendKey]. *)
Theorem cancel_key_roundtrip w w' pid rnd nanos rest rest' :
  0 ≤ pid < 2 ^ 31 →
  (∀ n, rnd = Some n → 0 ≤ n < 2 ^ 31) →
  WriteBackendKeyData w pid (GenerateSecretKey rnd nanos) = (false, w') →
  ∃ sent body,
    w_out w' = w_out w ++ sent ∧
    ReadMessage (sent ++ rest) = Ret (MsgBackendKeyData, body, rest) ∧
    ∃ params,
      ReadStartupMessage (cancel_packet body ++ rest') = Ret (params, rest') ∧
      cancel_request params
      = Some (Some {| Pid := pid; SecretKey := GenerateSecretKey rnd nanos |}).
Proof.
  intros Hp Hrnd Hw. pose proof (GenerateSecretKey_range rnd nanos Hrnd) as Hk.
  set (key := GenerateSecretKey rnd nanos) in *. unfold WriteBackendKeyData in Hw.
  rewrite !wrap_u_small in Hw by (unfold in_u; lia).
  assert (frame_ok (be_bytes 4 pid ++ be_bytes 4 key)) as Hf.
  { unfold frame_ok. rewrite length_app, !be_bytes_length. lia. }
  eexists _, (be_bytes 4 pid ++ be_bytes 4 key). split; [by eapply WriteMessage_ok|].
  split; [by rewrite ReadMessage_frame|].
  eexists. unfold cancel_packet. split.
  - rewrite ReadStartupMessage_packet by (rewrite !length_app, !be_bytes_length; lia).
    by rewrite startup_body_cancel by lia.
  - unfold cancel_request. simplify_map_eq.
    rewrite !ParseInt_fmt_d by lia. simpl.
    by rewrite !wrap_s_small by (unfold in_s; lia).
Qed.

Lemma cancel_key_roundtrip_witness :
  ∃ sent body,
    w_out (WriteBackendKeyData {| w_out := []; w_faults := [] |} 1000
             (GenerateSecretKey None 2147483650)).2 = [] ++ sent ∧
    ReadMessage (sent ++ []) = Ret (MsgBackendKeyData, body, []) ∧
    ∃ params,
      ReadStartupMessage (cancel_packet body ++ []) = Ret (params, []) ∧
      cancel_request params
      = Some (Some {| Pid := 1000; SecretKey := GenerateSecretKey None 2147483650 |}).
Proof.
  apply (cancel_key_roundtrip {| w_out := []; w_faults := [] |} _ 1000 None 2147483650 [] []).
  - lia.
  - intros n Hn. discriminate Hn.
  - vm_compute. reflexivity.
Defined.
