(* ===== verification/GoText.v ===== *)
(** Go's text facilities as the sources use them: UTF-8 runes, upper case, the
    functions of package strings, [encoding/hex], [encoding/base64] and the string
    form of [encoding/json]. *)

From Stdlib Require Import Strings.Byte.
From stdpp Require Import prelude strings list.
From Stdlib Require Import ZArith Lia.
From S2P Require Import Prelude.

Open Scope Z_scope.

(** * Runes *)

Definition byte_in (lo hi : Z) (b : byte) : bool := bool_decide (lo ≤ byte_val b ≤ hi).
Definition cont (b : byte) : bool := byte_in 0x80 0xbf b.

(** The length of the valid encoding a byte sequence starts with, 0 when it
    starts with none ([utf8.DecodeRune] then yields U+FFFD of width 1). *)
Definition rune_len (l : list byte) : nat :=
  match l with
  | [] => 0
  | a :: r =>
      if byte_in 0 0x7f a then 1 else
      match r with
      | [] => 0
      | b :: r1 =>
          if byte_in 0xc2 0xdf a && cont b then 2 else
          match r1 with
          | [] => 0
          | c :: r2 =>
              if (byte_in 0xe0 0xe0 a && byte_in 0xa0 0xbf b
                  || (byte_in 0xe1 0xec a || byte_in 0xee 0xef a) && cont b
                  || byte_in 0xed 0xed a && byte_in 0x80 0x9f b) && cont c then 3 else
              match r2 with
              | [] => 0
              | d :: _ =>
                  if (byte_in 0xf0 0xf0 a && byte_in 0x90 0xbf b
                      || byte_in 0xf1 0xf3 a && cont b
                      || byte_in 0xf4 0xf4 a && byte_in 0x80 0x8f b) && cont c && cont d then 4 else 0
              end
          end
      end
  end%nat.
Lemma rune_len_le l : (rune_len l ≤ length l)%nat.
Proof. unfold rune_len. repeat case_match; cbn; lia. Qed.

(** U+FFFD *)
Definition rune_error : list byte := [xef; xbf; xbd].

(** [for _, c := range s]: the encodings of the runes, an invalid byte counting as
    U+FFFD; the flag says whether the rune was validly encoded. Each step consumes
    a byte, so the length of the input is fuel enough. *)
Fixpoint runes_fuel (fuel : nat) (l : list byte) : list (bool * list byte) :=
  match fuel, l with
  | S fuel', _ :: l' =>
      match rune_len l with
      | O => (false, rune_error) :: runes_fuel fuel' l'
      | n => (true, take n l) :: runes_fuel fuel' (drop n l)
      end
  | _, _ => []
  end.
Definition runes (l : list byte) : list (bool * list byte) := runes_fuel (length l) l.

Definition valid_utf8 (l : list byte) : bool := forallb fst (runes l).

(** * Package strings *)

Definition is_ascii (l : list byte) : bool := forallb (byte_in 0 0x7f) l.
Definition upper_byte (b : byte) : byte := if byte_in 97 122 b then byte_of_Z (byte_val b - 32) else b.
Definition lower_byte (b : byte) : byte := if byte_in 65 90 b then byte_of_Z (byte_val b + 32) else b.

(** The Unicode case tables, for strings that are not plain ASCII. *)
Class UnicodeCase := { upper_other : list byte → list byte; lower_other : list byte → list byte }.

Section case.
Context `{UnicodeCase}.
Definition ToUpper (s : string) : string :=
  str (if is_ascii (bytes s) then upper_byte <$> bytes s else upper_other (bytes s)).
Definition ToLower (s : string) : string :=
  str (if is_ascii (bytes s) then lower_byte <$> bytes s else lower_other (bytes s)).
End case.

Definition has_prefix (p l : list byte) : bool := bool_decide (take (length p) l = p).
Definition has_suffix (p l : list byte) : bool :=
  bool_decide (length p ≤ length l)%nat && bool_decide (drop (length l - length p) l = p).
Lemma has_prefix_app p l : has_prefix p (p ++ l) = true.
Proof. unfold has_prefix. apply bool_decide_eq_true. apply take_app_length. Qed.
Definition HasPrefix (s p : string) : bool := has_prefix (bytes p) (bytes s).
Definition HasSuffix (s p : string) : bool := has_suffix (bytes p) (bytes s).
Definition TrimPrefix (s p : string) : string :=
  if HasPrefix s p then str (drop (length (bytes p)) (bytes s)) else s.
Definition TrimSuffix (s p : string) : string :=
  if HasSuffix s p then str (take (length (bytes s) - length (bytes p)) (bytes s)) else s.

(** [strings.Index] *)
Fixpoint index (p l : list byte) : option nat :=
  if has_prefix p l then Some O else
  match l with
  | [] => None
  | _ :: l' => S <$> index p l'
  end.
Definition index_byte (b : byte) (l : list byte) : option nat := index [b] l.
Definition Contains (s p : string) : bool := bool_decide (index (bytes p) (bytes s) ≠ None).

(** [strings.ReplaceAll(s, b, "")] for a single byte. *)
Definition remove_byte (b : byte) (l : list byte) : list byte := filter (λ c, c ≠ b) l.

(** [strings.Split] at a single byte, and [strings.SplitN(s, b, 2)]. *)
Fixpoint split_byte (b : byte) (l : list byte) : list (list byte) :=
  match l with
  | [] => [[]]
  | c :: l' =>
      if bool_decide (c = b) then [] :: split_byte b l'
      else match split_byte b l' with
           | w :: ws => (c :: w) :: ws
           | [] => [[c]]
           end
  end.
Definition split2 (b : byte) (l : list byte) : list (list byte) :=
  match index_byte b l with
  | Some i => [take i l; drop (S i) l]
  | None => [l]
  end.

(** [strings.Join] *)
Fixpoint join (sep : list byte) (ws : list (list byte)) : list byte :=
  match ws with
  | [] => []
  | [w] => w
  | w :: ws' => w ++ sep ++ join sep ws'
  end.

(** [strings.Repeat] of a zero digit. *)
Definition zeros (n : Z) : list byte := replicate (Z.to_nat n) x30.

(** * encoding/hex *)

Definition hex_digit (n : Z) : byte := byte_of_Z (if bool_decide (n < 10) then 48 + n else 87 + n).
Definition hex_byte (b : byte) : list byte := [hex_digit (byte_val b / 16); hex_digit (byte_val b mod 16)].
Definition hex_EncodeToString (l : list byte) : list byte := l ≫= hex_byte.

Definition from_hex (b : byte) : option Z :=
  if byte_in 48 57 b then Some (byte_val b - 48)
  else if byte_in 97 102 b then Some (byte_val b - 87)
  else if byte_in 65 70 b then Some (byte_val b - 55)
  else None.
Fixpoint hex_DecodeString (l : list byte) : option (list byte) :=
  match l with
  | [] => Some []
  | a :: b :: l' =>
      x ← from_hex a; y ← from_hex b; r ← hex_DecodeString l';
      Some (byte_of_Z (x * 16 + y) :: r)
  | [_] => None
  end.

Lemma hex_digit_from n : 0 ≤ n < 16 → from_hex (hex_digit n) = Some n.
Proof.
  intros H. assert (n ∈ seqZ 0 16) as Hin by (apply elem_of_seqZ; lia).
  assert (forallb (λ n, bool_decide (from_hex (hex_digit n) = Some n)) (seqZ 0 16) = true) as Hf by by vm_compute.
  rewrite forallb_forall in Hf. apply list_elem_of_In, Hf in Hin. by apply bool_decide_eq_true in Hin.
Qed.

(** What [EncodeToString] prints, [DecodeString] reads. *)
Lemma hex_roundtrip l : hex_DecodeString (hex_EncodeToString l) = Some l.
Proof.
  induction l as [|b l IH]; [done|]. pose proof (byte_val_range b) as Hb.
  change (hex_EncodeToString (b :: l)) with (hex_byte b ++ hex_EncodeToString l).
  unfold hex_byte. cbn [app hex_DecodeString].
  rewrite hex_digit_from by (Z.to_euclidean_division_equations; lia). cbn [mbind option_bind].
  rewrite hex_digit_from by (Z.to_euclidean_division_equations; lia). cbn [mbind option_bind].
  rewrite IH. cbn [mbind option_bind]. do 2 f_equal.
  rewrite (Z.mul_comm _ 16), <- Z.div_mod by lia. apply byte_of_Z_val.
Qed.
Lemma hex_length l : length (hex_EncodeToString l) = (2 * length l)%nat.
Proof. unfold hex_EncodeToString. induction l; [done|]. cbn in *. lia. Qed.

(** * encoding/base64, standard alphabet with padding *)

Definition b64_digit (n : Z) : byte :=
  byte_of_Z (if bool_decide (n < 26) then 65 + n else if bool_decide (n < 52) then 71 + n
             else if bool_decide (n < 62) then n - 4 else if bool_decide (n = 62) then 43 else 47).
Fixpoint base64 (l : list byte) : list byte :=
  match l with
  | [] => []
  | [a] => let v := byte_val a * 16 in [b64_digit (v / 64); b64_digit (v mod 64); x3d; x3d]
  | [a; b] => let v := (byte_val a * 256 + byte_val b) * 4 in
      [b64_digit (v / 4096); b64_digit (v / 64 mod 64); b64_digit (v mod 64); x3d]
  | a :: b :: c :: l' => let v := (byte_val a * 256 + byte_val b) * 256 + byte_val c in
      [b64_digit (v / 262144); b64_digit (v / 4096 mod 64); b64_digit (v / 64 mod 64); b64_digit (v mod 64)]
      ++ base64 l'
  end.

(** * The string form of encoding/json, HTML escaping on *)

Definition json_escape (r : bool * list byte) : list byte :=
  match r with
  | (false, _) => bytes "\ufffd"
  | (true, [b]) =>
      if bool_decide (b = x5c ∨ b = x22) then [x5c; b]
      else if bool_decide (b = x08) then bytes "\b" else if bool_decide (b = x0c) then bytes "\f"
      else if bool_decide (b = x0a) then bytes "\n" else if bool_decide (b = x0d) then bytes "\r"
      else if bool_decide (b = x09) then bytes "\t"
      else if bool_decide (byte_val b < 32 ∨ b = x3c ∨ b = x3e ∨ b = x26) then bytes "\u00" ++ hex_byte b
      else [b]
  | (true, e) =>
      if bool_decide (e = [xe2; x80; xa8]) then bytes "\u2028"
      else if bool_decide (e = [xe2; x80; xa9]) then bytes "\u2029"
      else e
  end.
Definition json_string (l : list byte) : list byte := [x22] ++ (runes l ≫= json_escape) ++ [x22].

(** * Trimming what needs no trimming *)

(** A printable ASCII byte other than the blank. *)
Definition graphic (b : byte) : Prop := 33 ≤ byte_val b ≤ 126.

Lemma strip_all_none encs fuel l : strip_one encs l = None → strip_all encs fuel l = l.
Proof. intros H. destruct fuel; cbn; [done|]. by rewrite H. Qed.

Lemma strip_one_graphic encs b l : graphic b →
  Forall (λ p, match p with [] => False | c :: _ => ¬ graphic c end) encs → strip_one encs (b :: l) = None.
Proof.
  intros Hb. induction 1 as [|p encs Hp _ IH]; [done|]. cbn. destruct p as [|c p]; [done|]. cbn.
  rewrite bool_decide_eq_false_2 by (intros ->; done). done.
Qed.

Ltac no_graphic :=
  lazymatch goal with |- Forall _ ?l => let l' := eval vm_compute in l in change l with l' end;
  repeat (apply Forall_cons; split; [intros [Hlo Hhi]; first [by apply Hlo|by apply Hhi]|]); constructor.

Lemma TrimSpace_graphic b m c : graphic b → graphic c → TrimSpace (str (b :: m ++ [c])) = str (b :: m ++ [c]).
Proof.
  intros Hb Hc. unfold TrimSpace. rewrite bytes_str.
  rewrite (strip_all_none space_encodings) by (apply strip_one_graphic; [done|no_graphic]).
  rewrite strip_all_none; [by rewrite reverse_involutive|].
  rewrite reverse_cons, reverse_app. cbn [reverse rev_append app].
  apply strip_one_graphic; [done|]. no_graphic.
Qed.

Lemma index_byte_first b l rest : b ∉ l → index_byte b (l ++ b :: rest) = Some (length l).
Proof.
  unfold index_byte. induction l as [|c l IH]; intros Hn; cbn.
  - unfold has_prefix. cbn. by rewrite bool_decide_eq_true_2.
  - unfold has_prefix. cbn. rewrite bool_decide_eq_false_2 by (intros [= ->]; apply Hn; left).
    rewrite IH; [done|]. intros H. apply Hn. by right.
Qed.

Lemma bytes_append (s1 s2 : string) : bytes (s1 +:+ s2) = bytes s1 ++ bytes s2.
Proof.
  unfold bytes, String.list_byte_of_string. induction s1 as [|c s1 IH]; [done|].
  change (String c s1 +:+ s2) with (String c (s1 +:+ s2)). cbn. f_equal. apply IH.
Qed.
