(* ===== verification/GoRegexp.v ===== *)
(** Go's package regexp for the patterns the sources use: a backtracking matcher
    over the runes of the text. Go's engine promises the match a backtracking
    search finds first (leftmost, then by the order of alternatives and the
    greediness of repetitions), which is what the matcher computes. *)

From Stdlib Require Import Strings.Byte.
From stdpp Require Import prelude strings list.
From Stdlib Require Import ZArith Lia.
From S2P Require Import Prelude GoText.

Open Scope Z_scope.

(** A rune, as the bytes that encode it; an invalid byte stands for itself. *)
Abbreviation rune := (list byte) (only parsing).

Fixpoint chunks_fuel (fuel : nat) (l : list byte) : list rune :=
  match fuel, l with
  | S fuel', b :: l' =>
      match rune_len l with
      | O => [b] :: chunks_fuel fuel' l'
      | n => take n l :: chunks_fuel fuel' (drop n l)
      end
  | _, _ => []
  end.
Definition chunks (l : list byte) : list rune := chunks_fuel (length l) l.

Lemma concat_chunks l : concat (chunks l) = l.
Proof.
  unfold chunks. assert (∀ n l, (length l ≤ n)%nat → concat (chunks_fuel n l) = l) as H; [|by apply H].
  clear l. induction n as [|n IH]; intros [|b l] Hl; try done; simpl in Hl; [lia|].
  cbn [chunks_fuel]. pose proof (rune_len_le (b :: l)) as Hr.
  destruct (rune_len (b :: l)) as [|m] eqn:E; simpl in *.
  - rewrite IH by lia. done.
  - rewrite IH; [by rewrite take_drop|]. rewrite length_drop. lia.
Qed.

(** * Patterns *)

Inductive re :=
  | RAny (p : rune → bool)            (* one rune of a class *)
  | REps
  | RSeq (r1 r2 : re)
  | RAlt (r1 r2 : re)
  | RStar (greedy : bool) (r : re)
  | RGroup (n : nat) (r : re)         (* a capturing group *)
  | RBegin                            (* ^ *)
  | REnd                              (* $ *)
  | RWord.                            (* \b *)

Record mstate := { m_prev : option rune; m_rest : list rune; m_caps : list (nat * list rune) }.

Definition word_rune (c : rune) : bool :=
  match c with [b] => byte_in 48 57 b || byte_in 65 90 b || byte_in 97 122 b || bool_decide (b = x5f) | _ => false end.
Definition is_word (c : option rune) : bool := match c with Some c => word_rune c | None => false end.

(** One iteration of a repetition consumes a rune, so the length of the text is
    fuel enough for each. *)
Fixpoint rmatch {A} (fuel : nat) (r : re) (st : mstate) (k : mstate → option A) : option A :=
  match r with
  | RAny p =>
      match m_rest st with
      | c :: rest => if p c then k {| m_prev := Some c; m_rest := rest; m_caps := m_caps st |} else None
      | [] => None
      end
  | REps => k st
  | RSeq r1 r2 => rmatch fuel r1 st (λ st, rmatch fuel r2 st k)
  | RAlt r1 r2 => match rmatch fuel r1 st k with Some a => Some a | None => rmatch fuel r2 st k end
  | RStar greedy r' =>
      (fix loop (n : nat) (st : mstate) : option A :=
         match n with
         | O => k st
         | S n' =>
             let more := rmatch fuel r' st (λ st', if bool_decide (length (m_rest st') < length (m_rest st))%nat
                                                   then loop n' st' else None) in
             if greedy then match more with Some a => Some a | None => k st end
             else match k st with Some a => Some a | None => more end
         end) fuel st
  | RGroup n r' =>
      rmatch fuel r' st (λ st', k {| m_prev := m_prev st'; m_rest := m_rest st';
        m_caps := (n, take (length (m_rest st) - length (m_rest st')) (m_rest st)) :: m_caps st' |})
  | RBegin => if bool_decide (m_prev st = None) then k st else None
  | REnd => if bool_decide (m_rest st = []) then k st else None
  | RWord => if bool_decide (is_word (m_prev st) ≠ is_word (head (m_rest st))) then k st else None
  end.

(** The leftmost match: what precedes it, the state after it. *)
Fixpoint rfind (fuel : nat) (r : re) (prev : option rune) (pre l : list rune) : option (list rune * list rune * mstate) :=
  match rmatch fuel r {| m_prev := prev; m_rest := l; m_caps := [] |} Some with
  | Some st => Some (pre, take (length l - length (m_rest st)) l, st)
  | None => match l with
            | [] => None
            | c :: l' => rfind fuel r (Some c) (pre ++ [c]) l'
            end
  end.

Definition FindSubmatch (r : re) (s : list byte) : option (list (nat * list byte)) :=
  let l := chunks s in
  (λ m, (λ '(n, c), (n, concat c)) <$> m_caps m.2) <$> rfind (length l) r None [] l.
Definition MatchString (r : re) (s : list byte) : bool := bool_decide (FindSubmatch r s ≠ None).

(** The text of a group; the first entry of the list is the last one recorded. *)
Fixpoint group (n : nat) (caps : list (nat * list byte)) : option (list byte) :=
  match caps with
  | [] => None
  | (m, w) :: caps' => if bool_decide (m = n) then Some w else group n caps'
  end.

(** * Building patterns *)

Definition ws_rune (c : rune) : bool := bool_decide (c ∈ [[x09]; [x0a]; [x0c]; [x0d]; [x20]]).
Definition rws : re := RAny ws_rune.                          (* \s *)
Definition rnws : re := RAny (λ c, negb (ws_rune c)).         (* \S *)
Definition rdot : re := RAny (λ c, negb (bool_decide (c = [x0a]))).
Definition rnot (bs : list byte) : re := RAny (λ c, negb (bool_decide (c ∈ (λ b, [b]) <$> bs))).
Definition rone (bs : list byte) : re := RAny (λ c, bool_decide (c ∈ (λ b, [b]) <$> bs)).
Definition rstar (r : re) : re := RStar true r.
Definition rplus (r : re) : re := RSeq r (RStar true r).
Definition rplus_lazy (r : re) : re := RSeq r (RStar false r).
Definition ropt (r : re) : re := RAlt r REps.
Definition rseq (rs : list re) : re := foldr RSeq REps rs.

(** A letter under (?i): both cases, and for k and s the two other runes that fold
    to them (U+212A, U+017F). *)
Definition fold_eq (b : byte) (c : rune) : bool :=
  match c with
  | [c'] => bool_decide (lower_byte c' = lower_byte b)
  | _ => bool_decide (lower_byte b = x6b ∧ c = [xe2; x84; xaa] ∨ lower_byte b = x73 ∧ c = [xc5; xbf])
  end.
Definition rlit (w : string) : re := rseq ((λ b, RAny (fold_eq b)) <$> bytes w).
