(* ===== verification/GoCsv.v ===== *)
(** Go's encoding/csv Reader as the COPY fallback uses it: LazyQuotes on, no
    comments, no trimming, FieldsPerRecord taken from the first record. *)

From Stdlib Require Import Strings.Byte.
From stdpp Require Import prelude strings list.
From Stdlib Require Import ZArith Lia.
From S2P Require Import Prelude GoText.

Open Scope Z_scope.

Inductive csv_error := CsvEOF | CsvInvalidDelim | CsvFieldCount.

(** readLine: a line with its line feed, carriage return and line feed made one; a
    carriage return before the end of the input is dropped. [None] at the end. *)
Fixpoint take_line (l : list byte) : list byte * list byte :=
  match l with
  | [] => ([], [])
  | b :: l' => if bool_decide (b = x0a) then ([x0a], l')
               else let '(line, rest) := take_line l' in (b :: line, rest)
  end.
Definition normalize_eol (line : list byte) : list byte :=
  match reverse line with
  | x0a :: x0d :: r => reverse r ++ [x0a]
  | x0a :: _ => line
  | x0d :: r => reverse r
  | _ => line
  end.
Definition readLine (l : list byte) : option (list byte * list byte) :=
  match l with
  | [] => None
  | _ => let '(line, rest) := take_line l in Some (normalize_eol line, rest)
  end.

Definition lengthNL (line : list byte) : nat := if bool_decide (last line = Some x0a) then 1 else 0.

(** The next line that is not empty. *)
Fixpoint next_line (fuel : nat) (l : list byte) : option (list byte * list byte) :=
  match fuel with
  | O => None
  | S fuel' =>
      match readLine l with
      | None => None
      | Some (line, rest) => if bool_decide (length line = lengthNL line) then next_line fuel' rest else Some (line, rest)
      end
  end.

(** The fields of a record: [field] is what a quoted field has so far, [None]
    outside quotes; the record ends with the line, or a quoted field takes in the
    next one. Every step shortens the line or the rest of the input. *)
Fixpoint parse_fields (fuel : nat) (comma : list byte) (field : option (list byte)) (line rest : list byte)
    : list (list byte) * list byte :=
  match fuel with
  | O => ([], rest)
  | S fuel' =>
      match field with
      | None =>
          if bool_decide (head line = Some x22) then parse_fields fuel' comma (Some []) (drop 1 line) rest
          else
            match index comma line with
            | Some i =>
                let '(fs, rest') := parse_fields fuel' comma None (drop (i + length comma) line) rest in
                (take i line :: fs, rest')
            | None => ([take (length line - lengthNL line) line], rest)
            end
      | Some acc =>
          match index [x22] line with
          | Some i =>
              let acc := acc ++ take i line in
              let line := drop (S i) line in
              if bool_decide (head line = Some x22) then parse_fields fuel' comma (Some (acc ++ [x22])) (drop 1 line) rest
              else if has_prefix comma line then
                let '(fs, rest') := parse_fields fuel' comma None (drop (length comma) line) rest in (acc :: fs, rest')
              else if bool_decide (length line = lengthNL line) then ([acc], rest)
              else parse_fields fuel' comma (Some (acc ++ [x22])) line rest
          | None =>
              match line with
              | [] => ([acc], rest)
              | _ =>
                  match readLine rest with
                  | Some (line', rest') => parse_fields fuel' comma (Some (acc ++ line)) line' rest'
                  | None => parse_fields fuel' comma (Some (acc ++ line)) [] []
                  end
              end
          end
      end
  end.

(** The rune of the first byte of the delimiter, in UTF-8. *)
Definition comma_rune (b : byte) : list byte :=
  if byte_in 0 0x7f b then [b]
  else [byte_of_Z (0xc0 + byte_val b / 64); byte_of_Z (0x80 + byte_val b mod 64)].
Definition validDelim (b : byte) : bool := negb (bool_decide (b ∈ [x00; x22; x0d; x0a])).

(** Reads one record: the expected number of fields is that of the first one, 0
    before; the rest of the input comes back. *)
Definition csv_Read (delimiter : byte) (fieldsPerRecord : nat) (l : list byte)
    : (list (list byte) * nat * list byte) + csv_error :=
  if negb (validDelim delimiter) then inr CsvInvalidDelim
  else
    match next_line (S (length l)) l with
    | None => inr CsvEOF
    | Some (line, rest) =>
        let '(fields, rest') := parse_fields (S (2 * (length line + length rest))) (comma_rune delimiter) None line rest in
        if bool_decide (fieldsPerRecord = 0)%nat then inl (fields, length fields, rest')
        else if bool_decide (length fields = fieldsPerRecord) then inl (fields, fieldsPerRecord, rest')
        else inr CsvFieldCount
    end.
