(* ===== verification/GoTime.v ===== *)
(** Go's time package as the value encoders of src/server use it: instants in UTC,
    the proleptic Gregorian calendar, [Time.Format] and [time.Parse] for the
    layouts that occur in the sources. *)

From Stdlib Require Import Strings.Byte.
From stdpp Require Import prelude strings list.
From Stdlib Require Import ZArith Lia.
From S2P Require Import Prelude.

Open Scope Z_scope.

(** * Instants *)

(** Seconds since 1970-01-01 00:00:00 UTC and nanoseconds within the second. *)
Record Time := { t_sec : Z; t_nsec : Z }.

#[export] Instance Time_eq_dec : EqDecision Time.
Proof. solve_decision. Defined.

Definition Time_ok (t : Time) : Prop := in_s 64 (t_sec t) ∧ 0 ≤ t_nsec t < 1000000000.

(** The zero Time, 0001-01-01 00:00:00 UTC. *)
Definition Time_IsZero (t : Time) : bool :=
  bool_decide (t_sec t = -62135596800) && bool_decide (t_nsec t = 0).

Definition Unix (t : Time) : Z := t_sec t.
Definition UnixMicro (t : Time) : Z := wrap_s 64 (t_sec t * 1000000 + t_nsec t / 1000).
Definition Hour (t : Time) : Z := t_sec t mod 86400 / 3600.
Definition Minute (t : Time) : Z := t_sec t mod 3600 / 60.
Definition Second (t : Time) : Z := t_sec t mod 60.
Definition Nanosecond (t : Time) : Z := t_nsec t.

(** [AddDate(0, 0, days)] on a UTC instant. *)
Definition AddDays (t : Time) (days : Z) : Time :=
  {| t_sec := t_sec t + days * 86400; t_nsec := t_nsec t |}.

(** * The calendar *)

Record date := { year : Z; month : Z; day : Z }.

(** Days from 1970-01-01 to a date, with years counted from March so that the
    leap day is the last of its year; an era is 400 years. *)
Definition year_days (yoe : Z) : Z := 365 * yoe + yoe / 4 - yoe / 100.
Definition month_days (mp : Z) : Z := (153 * mp + 2) / 5.
Definition march_month (m : Z) : Z := if bool_decide (2 < m) then m - 3 else m + 9.
Definition march_year (d : date) : Z := if bool_decide (2 < month d) then year d else year d - 1.

Definition days_of_date (d : date) : Z :=
  let y := march_year d in
  y / 400 * 146097 + year_days (y mod 400) + month_days (march_month (month d)) + (day d - 1) - 719468.

Definition date_of_days (z : Z) : date :=
  let era := (z + 719468) / 146097 in
  let doe := (z + 719468) mod 146097 in
  let yoe := (doe - doe / 1460 + doe / 36524 - doe / 146096) / 365 in
  let doy := doe - year_days yoe in
  let mp := (5 * doy + 2) / 153 in
  let m := if bool_decide (mp < 10) then mp + 3 else mp - 9 in
  {| year := yoe + era * 400 + (if bool_decide (2 < m) then 0 else 1);
     month := m;
     day := doy - month_days mp + 1 |}.

Definition isLeap (y : Z) : bool :=
  bool_decide (y mod 4 = 0) && (negb (bool_decide (y mod 100 = 0)) || bool_decide (y mod 400 = 0)).

Definition daysIn (m y : Z) : Z :=
  if bool_decide (m = 2) then (if isLeap y then 29 else 28)
  else if bool_decide (m ∈ [4; 6; 9; 11]) then 30 else 31.

Definition Date (t : Time) : date := date_of_days (t_sec t / 86400).

(** * Format *)

(** Left padding with zeros to [w] bytes. *)
Definition zpad (w : nat) (l : list byte) : list byte := replicate (w - length l) x30 ++ l.
Definition digits (z : Z) : list byte := dec_digits (S (Z.to_nat (Z.log2 z))) z.

(** [fmt]'s [%0wd]: the sign counts in the width. *)
Definition fmt_0d (w : nat) (z : Z) : list byte :=
  if bool_decide (z < 0) then x2d :: zpad (w - 1) (digits (- z)) else zpad w (digits z).

(** [appendInt] of package time: the sign does not count. *)
Definition appendInt (z : Z) (w : nat) : list byte :=
  if bool_decide (z < 0) then x2d :: zpad w (digits (- z)) else zpad w (digits z).

Inductive chunk :=
  | CLit (l : list byte)
  | CYear | CMonth | CDay | CHour | CMin | CSec
  | CFrac0 (n : nat)     (** [.000]: exactly [n] digits *)
  | CFrac9 (n : nat).    (** [.999]: up to [n] digits, no trailing zeros *)

Definition layout := list chunk.

(** The [n] leading digits of the nanoseconds. *)
Definition frac_digits (n : nat) (ns : Z) : list byte := take n (zpad 9 (digits ns)).

Fixpoint drop_trailing_zeros (l : list byte) : list byte :=
  match l with
  | [] => []
  | b :: l' => match drop_trailing_zeros l' with
               | [] => if bool_decide (b = x30) then [] else [b]
               | r => b :: r
               end
  end.

Definition format_chunk (t : Time) (c : chunk) : list byte :=
  match c with
  | CLit l => l
  | CYear => appendInt (year (Date t)) 4
  | CMonth => appendInt (month (Date t)) 2
  | CDay => appendInt (day (Date t)) 2
  | CHour => appendInt (Hour t) 2
  | CMin => appendInt (Minute t) 2
  | CSec => appendInt (Second t) 2
  | CFrac0 n => x2e :: frac_digits n (Nanosecond t)
  | CFrac9 n => match drop_trailing_zeros (frac_digits n (Nanosecond t)) with
                | [] => []
                | ds => x2e :: ds
                end
  end.

Definition Format (l : layout) (t : Time) : string := str (l ≫= format_chunk t).

(** The layouts of the sources. *)
Definition layout_date : layout := [CYear; CLit [x2d]; CMonth; CLit [x2d]; CDay].
Definition layout_clock : layout := [CHour; CLit [x3a]; CMin; CLit [x3a]; CSec].
(** [2006-01-02 15:04:05] *)
Definition layout_datetime : layout := layout_date ++ [CLit [x20]] ++ layout_clock.
(** [2006-01-02T15:04:05Z] *)
Definition layout_datetimeZ : layout := layout_date ++ [CLit [x54]] ++ layout_clock ++ [CLit [x5a]].
(** [2006-01-02 15:04:05.999999] *)
Definition layout_datetime_us : layout := layout_datetime ++ [CFrac9 6].
(** [15:04:05.000000] *)
Definition layout_clock_us : layout := layout_clock ++ [CFrac0 6].

(** * Parse *)

Definition is_digit (b : byte) : bool := bool_decide (48 ≤ byte_val b ≤ 57).
Definition dval (b : byte) : Z := byte_val b - 48.

Fixpoint cutspace (l : list byte) : list byte :=
  match l with
  | b :: l' => if bool_decide (b = x20) then cutspace l' else l
  | [] => []
  end.

(** [skip(value, prefix)]: a space of the layout stands for any number of them. *)
Fixpoint skip (prefix value : list byte) : option (list byte) :=
  match prefix with
  | [] => Some value
  | p :: prefix' =>
      if bool_decide (p = x20) then
        match value with
        | b :: _ => if bool_decide (b = x20) then skip prefix' (cutspace value) else None
        | [] => skip prefix' []
        end
      else match value with
           | b :: value' => if bool_decide (b = p) then skip prefix' value' else None
           | [] => None
           end
  end.

(** [getnum]: two digits, or one when [fixed] does not ask for two. *)
Definition getnum (value : list byte) (fixed : bool) : option (Z * list byte) :=
  match value with
  | a :: rest =>
      if negb (is_digit a) then None else
      match rest with
      | b :: rest' => if is_digit b then Some (dval a * 10 + dval b, rest')
                      else if fixed then None else Some (dval a, rest)
      | [] => if fixed then None else Some (dval a, [])
      end
  | [] => None
  end.

Fixpoint leading_digits (l : list byte) : list byte :=
  match l with
  | b :: l' => if is_digit b then b :: leading_digits l' else []
  | [] => []
  end.

Definition digits_val (l : list byte) : Z := fold_left (λ n b, n * 10 + dval b) l 0.

(** [parseNanoseconds] on the digits after the point: at most nine count. *)
Definition nanos_of (ds : list byte) : Z :=
  let ds := take 9 ds in digits_val ds * 10 ^ (9 - Z.of_nat (length ds)).

Record parsed := { p_year : Z; p_month : Z; p_day : Z; p_hour : Z; p_min : Z; p_sec : Z; p_nsec : Z }.
Definition parsed0 : parsed :=
  {| p_year := 0; p_month := 1; p_day := 1; p_hour := 0; p_min := 0; p_sec := 0; p_nsec := 0 |}.

Definition set_clock (h m s ns : Z) (p : parsed) : parsed :=
  {| p_year := p_year p; p_month := p_month p; p_day := p_day p; p_hour := h; p_min := m; p_sec := s; p_nsec := ns |}.
Definition set_date (y m d : Z) (p : parsed) : parsed :=
  {| p_year := y; p_month := m; p_day := d; p_hour := p_hour p; p_min := p_min p; p_sec := p_sec p; p_nsec := p_nsec p |}.

Definition is_frac (c : chunk) : bool := match c with CFrac0 _ | CFrac9 _ => true | _ => false end.
Definition is_lit (c : chunk) : bool := match c with CLit _ => true | _ => false end.

(** Whether the next field of the layout is a fraction of a second. *)
Fixpoint next_is_frac (l : layout) : bool :=
  match l with
  | c :: l' => if is_lit c then next_is_frac l' else is_frac c
  | [] => false
  end.

Definition comma_or_period (b : byte) : bool := bool_decide (b = x2e ∨ b = x2c).

(** A fraction may follow the seconds although the layout has none. *)
Definition free_fraction (rest : layout) (value : list byte) : option (Z * list byte) :=
  match value with
  | b :: c :: _ =>
      if comma_or_period b && is_digit c && negb (next_is_frac rest)
      then let ds := leading_digits (tail value) in Some (nanos_of ds, drop (S (length ds)) value)
      else None
  | _ => None
  end.

Definition parse_chunk (c : chunk) (rest : layout) (value : list byte) (p : parsed)
    : option (parsed * list byte) :=
  match c with
  | CLit l => v ← skip l value; Some (p, v)
  | CYear =>
      let ds := take 4 value in
      if bool_decide (length ds = 4%nat) && forallb is_digit ds
      then Some (set_date (digits_val ds) (p_month p) (p_day p) p, drop 4 value) else None
  | CMonth =>
      '(m, v) ← getnum value true;
      if bool_decide (m ≤ 0 ∨ 12 < m) then None else Some (set_date (p_year p) m (p_day p) p, v)
  | CDay => '(d, v) ← getnum value true; Some (set_date (p_year p) (p_month p) d p, v)
  | CHour =>
      '(h, v) ← getnum value false;
      if bool_decide (h < 0 ∨ 24 ≤ h) then None else Some (set_clock h (p_min p) (p_sec p) (p_nsec p) p, v)
  | CMin =>
      '(m, v) ← getnum value true;
      if bool_decide (m < 0 ∨ 60 ≤ m) then None else Some (set_clock (p_hour p) m (p_sec p) (p_nsec p) p, v)
  | CSec =>
      '(s, v) ← getnum value true;
      if bool_decide (s < 0 ∨ 60 ≤ s) then None else
      match free_fraction rest v with
      | Some (ns, v') => Some (set_clock (p_hour p) (p_min p) s ns p, v')
      | None => Some (set_clock (p_hour p) (p_min p) s (p_nsec p) p, v)
      end
  | CFrac0 n =>
      match value with
      | b :: v =>
          let ds := take n v in
          if comma_or_period b && bool_decide (length ds = n) && forallb is_digit ds
          then Some (set_clock (p_hour p) (p_min p) (p_sec p) (nanos_of ds) p, drop n v) else None
      | [] => None
      end
  | CFrac9 _ =>
      match value with
      | b :: c :: _ =>
          if comma_or_period b && is_digit c then
            let ds := leading_digits (tail value) in
            Some (set_clock (p_hour p) (p_min p) (p_sec p) (nanos_of ds) p, drop (S (length ds)) value)
          else Some (p, value)
      | _ => Some (p, value)
      end
  end.

Fixpoint parse_chunks (l : layout) (value : list byte) (p : parsed) : option parsed :=
  match l with
  | [] => match value with [] => Some p | _ => None end
  | c :: l' => '(p', v) ← parse_chunk c l' value p; parse_chunks l' v p'
  end.

Definition time_of (p : parsed) : Time :=
  {| t_sec := days_of_date {| year := p_year p; month := p_month p; day := p_day p |} * 86400
              + p_hour p * 3600 + p_min p * 60 + p_sec p;
     t_nsec := p_nsec p |}.

Definition Parse (l : layout) (s : string) : option Time :=
  p ← parse_chunks l (bytes s) parsed0;
  if bool_decide (p_day p < 1 ∨ daysIn (p_month p) (p_year p) < p_day p) then None else Some (time_of p).

(** * The calendar is a bijection *)

(** The year of an era a day falls in: the day is one of that year's. *)
Definition yoe_of (doe : Z) : Z := (doe - doe / 1460 + doe / 36524 - doe / 146096) / 365.

Lemma yoe_of_spec doe : 0 ≤ doe < 146097 →
  0 ≤ yoe_of doe < 400 ∧ year_days (yoe_of doe) ≤ doe
  ∧ (doe < year_days (yoe_of doe + 1) ∨ (yoe_of doe = 399 ∧ doe = 146096)).
Proof. unfold yoe_of, year_days. intros H. Z.to_euclidean_division_equations. lia. Qed.

Lemma march_month_roundtrip mp : 0 ≤ mp < 12 →
  let m := if bool_decide (mp < 10) then mp + 3 else mp - 9 in
  1 ≤ m ≤ 12 ∧ march_month m = mp.
Proof. intros H. unfold march_month. repeat case_bool_decide; lia. Qed.

(** The parts of the date of a day. *)
Lemma date_of_days_parts z :
  let doe := (z + 719468) mod 146097 in
  let yoe := yoe_of doe in let doy := doe - year_days yoe in let mp := (5 * doy + 2) / 153 in
  0 ≤ doy < 366 ∧ 0 ≤ mp < 12 ∧ march_year (date_of_days z) = yoe + (z + 719468) / 146097 * 400
  ∧ march_month (month (date_of_days z)) = mp ∧ 1 ≤ month (date_of_days z) ≤ 12
  ∧ day (date_of_days z) = doy - month_days mp + 1.
Proof.
  intros doe yoe doy mp.
  assert (0 ≤ doe < 146097) as Hdoe by (apply Z.mod_pos_bound; lia).
  destruct (yoe_of_spec doe Hdoe) as (Hy & Hlo & Hhi). fold yoe in Hy, Hlo, Hhi.
  assert (0 ≤ doy < 366) as Hdoy.
  { unfold doy, year_days in *. Z.to_euclidean_division_equations. lia. }
  assert (0 ≤ mp < 12) as Hmp by (unfold mp; Z.to_euclidean_division_equations; lia).
  destruct (march_month_roundtrip mp Hmp) as [Hm Hmm].
  split_and!; try done; unfold march_year, date_of_days; cbn [year month day];
    fold doe; fold (yoe_of doe); fold yoe; fold doy; fold mp; try done; try lia.
  destruct (bool_decide (2 < _)); lia.
Qed.

(** Every day has a date, and the date gives the day back. *)
Lemma days_of_date_of_days z : days_of_date (date_of_days z) = z.
Proof.
  destruct (date_of_days_parts z) as (_ & _ & Hy & Hm & _ & Hd).
  assert (0 ≤ (z + 719468) mod 146097 < 146097) as Hdoe by (apply Z.mod_pos_bound; lia).
  pose proof (yoe_of_spec _ Hdoe) as (Hyoe & _ & _).
  unfold days_of_date. rewrite Hy, Hm, Hd.
  rewrite Z.div_add, Z.div_small, Z.mod_add, Z.mod_small by lia.
  pose proof (Z.div_mod (z + 719468) 146097 ltac:(lia)). lia.
Qed.

Lemma isLeap_march y : isLeap (y + 1) = true ↔
  y mod 400 = 399 ∨ ((y mod 400) mod 4 = 3 ∧ (y mod 400) mod 100 ≠ 99).
Proof.
  unfold isLeap. rewrite andb_true_iff, orb_true_iff, negb_true_iff, !bool_decide_eq_true, bool_decide_eq_false.
  Z.to_euclidean_division_equations. lia.
Qed.

(** The date of a day is one the calendar has. *)
Lemma date_of_days_valid z : 1 ≤ day (date_of_days z) ≤ daysIn (month (date_of_days z)) (year (date_of_days z)).
Proof.
  destruct (date_of_days_parts z) as (Hdoy & Hmp & Hy & Hm & Hr & Hd).
  set (doe := (z + 719468) mod 146097) in *.
  assert (0 ≤ doe < 146097) as Hdoe by (apply Z.mod_pos_bound; lia).
  destruct (yoe_of_spec doe Hdoe) as (Hyoe & Hlo & Hhi). set (yoe := yoe_of doe) in *.
  set (doy := doe - year_days yoe) in *. rewrite Hd. set (d := date_of_days z) in *.
  assert (doy = 365 → isLeap (yoe + (z + 719468) / 146097 * 400 + 1) = true) as Hleap.
  { intros E. apply isLeap_march. rewrite Z.mod_add, Z.mod_small by lia.
    unfold doy, year_days in *. Z.to_euclidean_division_equations. lia. }
  unfold march_month in Hm. unfold march_year in Hy. unfold daysIn, month_days.
  destruct (bool_decide_reflect (month d = 2)) as [H2|H2].
  - rewrite H2 in Hm, Hy. rewrite bool_decide_eq_false_2 in Hm, Hy by lia.
    replace (year d) with (yoe + (z + 719468) / 146097 * 400 + 1) by lia.
    destruct (isLeap (yoe + (z + 719468) / 146097 * 400 + 1));
      [|assert (doy ≠ 365) by (intros E; by specialize (Hleap E))];
      clear Hleap Hy Hd Hhi Hlo; Z.to_euclidean_division_equations; lia.
  - assert (month d ∈ [4; 6; 9; 11] ↔ month d = 4 ∨ month d = 6 ∨ month d = 9 ∨ month d = 11) as H30.
    { rewrite !elem_of_cons, elem_of_nil. tauto. }
    destruct (bool_decide_reflect (2 < month d)) as [H3|H3];
      destruct (bool_decide_reflect (month d ∈ [4; 6; 9; 11])) as [H4|H4]; rewrite H30 in H4;
      clear - Hm Hdoy Hmp Hr H2 H3 H4; Z.to_euclidean_division_equations; lia.
Qed.

(** * Padded numbers *)

Lemma byte_val_digit d : 0 ≤ d ≤ 9 → byte_val (digit d) = 48 + d.
Proof. intros H. unfold digit. rewrite byte_val_of_Z. apply Z.mod_small. lia. Qed.
Lemma dval_digit d : 0 ≤ d ≤ 9 → dval (digit d) = d.
Proof. intros H. unfold dval. rewrite byte_val_digit; lia. Qed.
Lemma is_digit_digit d : 0 ≤ d ≤ 9 → is_digit (digit d) = true.
Proof. intros H. unfold is_digit. rewrite byte_val_digit by done. apply bool_decide_eq_true. lia. Qed.

Lemma digits_val_acc l : ∀ n, fold_left (λ n b, n * 10 + dval b) l n = n * 10 ^ Z.of_nat (length l) + digits_val l.
Proof.
  unfold digits_val. induction l as [|b l IH]; intros n; [simpl; lia|].
  cbn [fold_left length]. rewrite IH, (IH (0 * 10 + dval b)), Nat2Z.inj_succ, Z.pow_succ_r by lia. lia.
Qed.

Lemma digits_val_app a b : digits_val (a ++ b) = digits_val a * 10 ^ Z.of_nat (length b) + digits_val b.
Proof. unfold digits_val at 1. rewrite fold_left_app, digits_val_acc. done. Qed.

Lemma digits_val_zeros n : digits_val (replicate n x30) = 0.
Proof. unfold digits_val. induction n; [done|]. cbn [replicate fold_left]. exact IHn. Qed.

Lemma digits_val_zpad w l : digits_val (zpad w l) = digits_val l.
Proof. unfold zpad. rewrite digits_val_app, digits_val_zeros. lia. Qed.

Lemma dec_digits_spec fuel : ∀ z, 0 ≤ z < 2 ^ Z.of_nat fuel →
  digits_val (dec_digits fuel z) = z ∧ forallb is_digit (dec_digits fuel z) = true.
Proof.
  induction fuel as [|fuel IH]; intros z Hz.
  - cbn in *. replace z with 0 by lia. done.
  - rewrite dec_digits_S. case_bool_decide.
    + cbn. rewrite is_digit_digit by lia. unfold digits_val. cbn. rewrite dval_digit by lia. done.
    + destruct (IH (z / 10)) as [Hv Hd].
      { rewrite Nat2Z.inj_succ, Z.pow_succ_r in Hz by lia. Z.to_euclidean_division_equations. lia. }
      pose proof (Z.mod_pos_bound z 10 ltac:(lia)).
      rewrite digits_val_app, Hv, forallb_app, Hd. cbn. rewrite is_digit_digit by lia.
      unfold digits_val. cbn. rewrite dval_digit by lia. pose proof (Z.div_mod z 10). split; [lia|done].
Qed.

Lemma digits_spec z : 0 ≤ z → digits_val (digits z) = z ∧ forallb is_digit (digits z) = true.
Proof. intros Hz. apply dec_digits_spec. split; [done|]. by apply dec_digits_fuel. Qed.

Lemma dec_digits_length fuel : ∀ z w, 0 ≤ z < 10 ^ Z.of_nat w → (0 < w)%nat →
  (length (dec_digits fuel z) ≤ w)%nat.
Proof.
  induction fuel as [|fuel IH]; intros z w Hz Hw; [cbn; lia|].
  rewrite dec_digits_S. case_bool_decide; [cbn; lia|].
  destruct w as [|[|w]]; [lia|cbn in Hz; lia|].
  rewrite length_app. cbn [length]. enough (length (dec_digits fuel (z / 10)) ≤ S w)%nat by lia.
  apply IH; [|lia]. rewrite Nat2Z.inj_succ, Z.pow_succ_r in Hz by lia. Z.to_euclidean_division_equations. lia.
Qed.

(** A number below [10^w] printed on [w] digits. *)
Lemma zpad_spec w z : (0 < w)%nat → 0 ≤ z < 10 ^ Z.of_nat w →
  length (zpad w (digits z)) = w ∧ digits_val (zpad w (digits z)) = z
  ∧ forallb is_digit (zpad w (digits z)) = true.
Proof.
  intros Hw Hz. destruct (digits_spec z ltac:(lia)) as [Hv Hd].
  pose proof (dec_digits_length (S (Z.to_nat (Z.log2 z))) z w Hz Hw) as Hl.
  split_and!.
  - unfold zpad. rewrite length_app, length_replicate. unfold digits. lia.
  - by rewrite digits_val_zpad.
  - unfold zpad. rewrite forallb_app, Hd, andb_true_r. generalize (w - length (digits z))%nat.
    intros n. induction n; [done|]. cbn. done.
Qed.

Lemma appendInt_spec w z : (0 < w)%nat → 0 ≤ z < 10 ^ Z.of_nat w →
  ∃ ds, appendInt z w = ds ∧ length ds = w ∧ digits_val ds = z ∧ forallb is_digit ds = true.
Proof.
  intros Hw Hz. eexists. split; [done|]. unfold appendInt.
  rewrite bool_decide_eq_false_2 by lia. by apply zpad_spec.
Qed.

Lemma getnum_appendInt z fixed rest : 0 ≤ z < 100 → getnum (appendInt z 2 ++ rest) fixed = Some (z, rest).
Proof.
  intros Hz. destruct (appendInt_spec 2 z) as (ds & -> & Hl & Hv & Hd); [lia|done|].
  destruct ds as [|a [|b [|]]]; try done. cbn in *. apply andb_true_iff in Hd as [Ha Hb].
  rewrite andb_true_r in Hb. rewrite Ha, Hb. cbn. f_equal. f_equal. unfold digits_val in Hv. cbn in Hv. lia.
Qed.

Lemma leading_digits_app ds rest :
  forallb is_digit ds = true → match rest with b :: _ => is_digit b = false | [] => True end →
  leading_digits (ds ++ rest) = ds.
Proof.
  intros Hd Hr. induction ds as [|b ds IH]; cbn.
  - destruct rest; cbn; [done|]. by rewrite Hr.
  - cbn in Hd. apply andb_true_iff in Hd as [-> Hd]. by rewrite IH.
Qed.

Lemma digits_val_range l : forallb is_digit l = true → 0 ≤ digits_val l < 10 ^ Z.of_nat (length l).
Proof.
  induction l as [|b l IH]; [cbn; lia|]. cbn [forallb]. intros [Hb Hl]%andb_true_iff.
  change (b :: l) with ([b] ++ l). rewrite digits_val_app, length_app. specialize (IH Hl).
  unfold is_digit in Hb. apply bool_decide_eq_true in Hb.
  unfold digits_val at 1 3. cbn [fold_left length]. unfold dval.
  rewrite Nat2Z.inj_add, Z.pow_add_r by lia. change (10 ^ Z.of_nat 1) with 10. nia.
Qed.

Lemma forallb_take {A} (f : A → bool) n l : forallb f l = true → forallb f (take n l) = true.
Proof. rewrite !forallb_forall. intros H x Hx. apply H. rewrite <- (take_drop n l). apply in_or_app. by left. Qed.
Lemma forallb_drop {A} (f : A → bool) n l : forallb f l = true → forallb f (drop n l) = true.
Proof. rewrite !forallb_forall. intros H x Hx. apply H. rewrite <- (take_drop n l). apply in_or_app. by right. Qed.

(** The six digits of the microseconds. *)
Lemma frac_digits_6 ns : 0 ≤ ns < 1000000000 →
  length (frac_digits 6 ns) = 6%nat ∧ digits_val (frac_digits 6 ns) = ns / 1000
  ∧ forallb is_digit (frac_digits 6 ns) = true.
Proof.
  intros H. destruct (zpad_spec 9 ns ltac:(lia) ltac:(cbn; lia)) as (Hl & Hv & Hd).
  unfold frac_digits. set (l := zpad 9 (digits ns)) in *.
  pose proof (digits_val_range (drop 6 l) (forallb_drop _ _ _ Hd)) as Hr.
  rewrite <- (take_drop 6 l), digits_val_app, length_drop, Hl in Hv. rewrite length_drop, Hl in Hr.
  split_and!; [rewrite length_take; lia| |by apply forallb_take].
  change (10 ^ Z.of_nat (9 - 6)) with 1000 in *. Z.to_euclidean_division_equations. lia.
Qed.

Lemma drop_trailing_zeros_spec l :
  ∃ n, l = drop_trailing_zeros l ++ replicate n x30.
Proof.
  induction l as [|b l [n IH]]; [by exists 0%nat|]. cbn. destruct (drop_trailing_zeros l) as [|c r] eqn:E.
  - case_bool_decide as Hb; [exists (S n); rewrite Hb|exists n]; cbn; f_equal; exact IH.
  - exists n. cbn. f_equal. exact IH.
Qed.

Lemma nanos_of_dtz l : (length l ≤ 9)%nat → nanos_of (drop_trailing_zeros l) = nanos_of l.
Proof.
  intros Hl. destruct (drop_trailing_zeros_spec l) as [n Hn]. unfold nanos_of.
  assert (length l = length (drop_trailing_zeros l) + n)%nat as Hlen.
  { rewrite Hn at 1. by rewrite length_app, length_replicate. }
  rewrite !take_ge by lia. rewrite Hn at 3. rewrite digits_val_app, length_replicate, digits_val_zeros, Hlen.
  rewrite Z.add_0_r, <- Z.mul_assoc, <- Z.pow_add_r by lia. do 2 f_equal. lia.
Qed.

Lemma parse_year_format y v rest p : 0 ≤ y < 10000 →
  parse_chunk CYear rest (appendInt y 4 ++ v) p = Some (set_date y (p_month p) (p_day p) p, v).
Proof.
  intros Hy. destruct (appendInt_spec 4 y) as (ds & -> & Hl & Hv & Hd); [lia|cbn; lia|].
  cbn [parse_chunk]. rewrite take_app_length', drop_app_length' by done. by rewrite Hl, Hd, Hv.
Qed.

(** One field at a time. *)
Ltac norm_app := repeat first [rewrite <- app_assoc | rewrite app_nil_r | progress cbn [app]].

Lemma parse_step c l v v' p p' :
  parse_chunk c l v p = Some (p', v') → parse_chunks (c :: l) v p = parse_chunks l v' p'.
Proof. intros H. cbn [parse_chunks]. by rewrite H. Qed.

Lemma parse_lit b l v p : b ≠ x20 → parse_chunk (CLit [b]) l (b :: v) p = Some (p, v).
Proof. intros H. cbn. rewrite bool_decide_eq_false_2 by done. by rewrite bool_decide_eq_true_2. Qed.

Lemma parse_month z l v p : 1 ≤ z ≤ 12 →
  parse_chunk CMonth l (appendInt z 2 ++ v) p = Some (set_date (p_year p) z (p_day p) p, v).
Proof.
  intros H. unfold parse_chunk. rewrite getnum_appendInt by lia. cbn. by rewrite bool_decide_eq_false_2 by lia.
Qed.
Lemma parse_day z l v p : 0 ≤ z < 100 →
  parse_chunk CDay l (appendInt z 2 ++ v) p = Some (set_date (p_year p) (p_month p) z p, v).
Proof. intros H. unfold parse_chunk. by rewrite getnum_appendInt by lia. Qed.
Lemma parse_hour z l v p : 0 ≤ z < 24 →
  parse_chunk CHour l (appendInt z 2 ++ v) p = Some (set_clock z (p_min p) (p_sec p) (p_nsec p) p, v).
Proof.
  intros H. unfold parse_chunk. rewrite getnum_appendInt by lia. cbn. by rewrite bool_decide_eq_false_2 by lia.
Qed.
Lemma parse_min z l v p : 0 ≤ z < 60 →
  parse_chunk CMin l (appendInt z 2 ++ v) p = Some (set_clock (p_hour p) z (p_sec p) (p_nsec p) p, v).
Proof.
  intros H. unfold parse_chunk. rewrite getnum_appendInt by lia. cbn. by rewrite bool_decide_eq_false_2 by lia.
Qed.
Lemma parse_sec z l v p : 0 ≤ z < 60 →
  parse_chunk CSec l (appendInt z 2 ++ v) p
  = match free_fraction l v with
    | Some (ns, v') => Some (set_clock (p_hour p) (p_min p) z ns p, v')
    | None => Some (set_clock (p_hour p) (p_min p) z (p_nsec p) p, v)
    end.
Proof.
  intros H. unfold parse_chunk. rewrite getnum_appendInt by lia. cbn. by rewrite bool_decide_eq_false_2 by lia.
Qed.

Lemma Date_range t : 1 ≤ month (Date t) ≤ 12 ∧ 1 ≤ day (Date t) ≤ daysIn (month (Date t)) (year (Date t))
  ∧ day (Date t) < 100.
Proof.
  destruct (date_of_days_parts (t_sec t / 86400)) as (_ & _ & _ & _ & Hm & _).
  pose proof (date_of_days_valid (t_sec t / 86400)) as Hd. fold (Date t) in Hm, Hd.
  split_and!; try lia. unfold daysIn in Hd. repeat case_match; lia.
Qed.

Lemma clock_range t : 0 ≤ Hour t < 24 ∧ 0 ≤ Minute t < 60 ∧ 0 ≤ Second t < 60
  ∧ t_sec t = t_sec t / 86400 * 86400 + Hour t * 3600 + Minute t * 60 + Second t.
Proof. unfold Hour, Minute, Second. Z.to_euclidean_division_equations. lia. Qed.

(** Parsing the date a layout starts with. *)
Lemma parse_date_prefix t l v p : 0 ≤ year (Date t) < 10000 →
  parse_chunks (layout_date ++ l) ((layout_date ≫= format_chunk t) ++ v) p
  = parse_chunks l v (set_date (year (Date t)) (month (Date t)) (day (Date t)) p).
Proof.
  intros Hy. destruct (Date_range t) as (Hm & Hd & Hd').
  unfold layout_date. cbn [mbind list_bind format_chunk app]. norm_app.
  erewrite parse_step by by apply parse_year_format.
  erewrite parse_step by by apply parse_lit.
  erewrite parse_step by by apply parse_month.
  erewrite parse_step by by apply parse_lit.
  erewrite parse_step by (apply parse_day; lia). done.
Qed.

(** Parsing a time of day, up to the fraction. *)
Lemma parse_clock t l v p :
  parse_chunks (layout_clock ++ l) ((layout_clock ≫= format_chunk t) ++ v) p
  = match free_fraction l v with
    | Some (ns, v') => parse_chunks l v' (set_clock (Hour t) (Minute t) (Second t) ns p)
    | None => parse_chunks l v (set_clock (Hour t) (Minute t) (Second t) (p_nsec p) p)
    end.
Proof.
  destruct (clock_range t) as (Hh & Hm & Hs & _).
  unfold layout_clock. cbn [mbind list_bind format_chunk app]. norm_app.
  erewrite parse_step by by apply parse_hour.
  erewrite parse_step by by apply parse_lit.
  erewrite parse_step by by apply parse_min.
  erewrite parse_step by by apply parse_lit.
  cbn [parse_chunks]. rewrite parse_sec by done. by destruct (free_fraction l v) as [[]|].
Qed.

Lemma time_of_date_clock t y m d h mi s ns :
  y = year (Date t) → m = month (Date t) → d = day (Date t) →
  time_of {| p_year := y; p_month := m; p_day := d; p_hour := h; p_min := mi; p_sec := s; p_nsec := ns |}
  = {| t_sec := t_sec t / 86400 * 86400 + h * 3600 + mi * 60 + s; t_nsec := ns |}.
Proof.
  intros -> -> ->. unfold time_of. cbn [p_year p_month p_day p_hour p_min p_sec p_nsec]. f_equal.
  change {| year := _; month := _; day := _ |} with (date_of_days (t_sec t / 86400)).
  by rewrite days_of_date_of_days.
Qed.

(** A date that is printed and parsed is midnight of that day. *)
Lemma Parse_Format_date t : 0 ≤ year (Date t) < 10000 →
  Parse layout_date (Format layout_date t) = Some {| t_sec := t_sec t / 86400 * 86400; t_nsec := 0 |}.
Proof.
  intros Hy. unfold Parse, Format. rewrite bytes_str.
  pose proof (parse_date_prefix t [] [] parsed0 Hy) as H. rewrite !app_nil_r in H. rewrite H. cbn [parse_chunks mbind option_bind].
  destruct (Date_range t) as (Hm & Hd & _). cbn [set_date p_day p_month p_year].
  rewrite bool_decide_eq_false_2 by lia. unfold set_date, parsed0. cbn [p_hour p_min p_sec p_nsec].
  rewrite (time_of_date_clock t) by done. do 2 f_equal. lia.
Qed.

Lemma cutspace_appendInt z v : 0 ≤ z < 100 → cutspace (appendInt z 2 ++ v) = appendInt z 2 ++ v.
Proof.
  intros Hz. destruct (appendInt_spec 2 z) as (ds & -> & Hl & _ & Hd); [lia|done|].
  destruct ds as [|b ds]; [done|]. cbn in *. apply andb_true_iff in Hd as [Hb _].
  rewrite bool_decide_eq_false_2; [done|]. intros ->. by vm_compute in Hb.
Qed.

Lemma parse_space_clock t l v p :
  parse_chunks (CLit [x20] :: layout_clock ++ l) (x20 :: (layout_clock ≫= format_chunk t) ++ v) p
  = parse_chunks (layout_clock ++ l) ((layout_clock ≫= format_chunk t) ++ v) p.
Proof.
  apply parse_step. cbn [parse_chunk skip]. rewrite !bool_decide_eq_true_2 by done. cbn [mbind option_bind].
  do 2 f_equal. cbn [cutspace]. rewrite bool_decide_eq_true_2 by done.
  unfold layout_clock. cbn [mbind list_bind format_chunk app]. norm_app.
  apply cutspace_appendInt. destruct (clock_range t). lia.
Qed.

Lemma parse_datetime t v p : 0 ≤ year (Date t) < 10000 →
  parse_chunks layout_datetime ((layout_datetime ≫= format_chunk t) ++ v) p
  = let p' := set_date (year (Date t)) (month (Date t)) (day (Date t)) p in
    match free_fraction [] v with
    | Some (ns, v') => parse_chunks [] v' (set_clock (Hour t) (Minute t) (Second t) ns p')
    | None => parse_chunks [] v (set_clock (Hour t) (Minute t) (Second t) (p_nsec p') p')
    end.
Proof.
  intros Hy. unfold layout_datetime. rewrite bind_app, <- app_assoc, parse_date_prefix by done.
  change ([CLit [x20]] ++ layout_clock) with (CLit [x20] :: layout_clock).
  rewrite <- (app_nil_r layout_clock) at 1. rewrite bind_cons. cbn [format_chunk app].
  rewrite parse_space_clock. apply parse_clock.
Qed.

Lemma time_of_datetime t ns : 0 ≤ year (Date t) < 10000 →
  let p := set_clock (Hour t) (Minute t) (Second t) ns
             (set_date (year (Date t)) (month (Date t)) (day (Date t)) parsed0) in
  (if bool_decide (p_day p < 1 ∨ daysIn (p_month p) (p_year p) < p_day p) then None else Some (time_of p))
  = Some {| t_sec := t_sec t; t_nsec := ns |}.
Proof.
  intros Hy p. destruct (Date_range t) as (Hm & Hd & _). destruct (clock_range t) as (_ & _ & _ & Hs).
  unfold p, set_clock, set_date. cbn [p_year p_month p_day]. rewrite bool_decide_eq_false_2 by lia.
  rewrite (time_of_date_clock t) by done. by rewrite <- Hs.
Qed.

(** A timestamp printed to the second or to the microsecond parses back to
    that precision. *)
Lemma Parse_Format_datetime t : 0 ≤ year (Date t) < 10000 →
  Parse layout_datetime (Format layout_datetime t) = Some {| t_sec := t_sec t; t_nsec := 0 |}.
Proof.
  intros Hy. unfold Parse, Format. rewrite bytes_str, <- (app_nil_r (layout_datetime ≫= _)), parse_datetime by done.
  cbn [free_fraction parse_chunks mbind option_bind]. exact (time_of_datetime t 0 Hy).
Qed.

Lemma frac9_free t : Time_ok t →
  match format_chunk t (CFrac9 6) with
  | [] => t_nsec t / 1000 = 0
  | v => free_fraction [] v = Some (t_nsec t / 1000 * 1000, [])
  end.
Proof.
  intros [_ Hns]. destruct (frac_digits_6 (t_nsec t) Hns) as (Hl & Hv & Hd). cbn [format_chunk]. unfold Nanosecond.
  set (l := frac_digits 6 (t_nsec t)) in *.
  pose proof (nanos_of_dtz l ltac:(lia)) as Hn. destruct (drop_trailing_zeros_spec l) as [n Heq].
  assert (nanos_of l = t_nsec t / 1000 * 1000) as Hnl.
  { unfold nanos_of. rewrite take_ge by lia. by rewrite Hl, Hv. }
  assert (forallb is_digit (drop_trailing_zeros l) = true) as Hd'.
  { rewrite Heq, forallb_app in Hd. by apply andb_true_iff in Hd as [? _]. }
  destruct (drop_trailing_zeros l) as [|b ds] eqn:E.
  - change (nanos_of []) with 0 in Hn. lia.
  - unfold free_fraction. change (comma_or_period x2e) with true. cbn [tail]. pose proof Hd' as Hb. cbn in Hb.
    apply andb_true_iff in Hb as [Hb _]. rewrite Hb. cbn [next_is_frac negb andb].
    rewrite <- (app_nil_r (b :: ds)), leading_digits_app by done.
    cbn [andb]. f_equal. f_equal; [congruence|].
    rewrite app_nil_r. cbn [length drop]. apply drop_all.
Qed.

Lemma Parse_Format_datetime_us t : Time_ok t → 0 ≤ year (Date t) < 10000 →
  Parse layout_datetime (Format layout_datetime_us t)
  = Some {| t_sec := t_sec t; t_nsec := t_nsec t / 1000 * 1000 |}.
Proof.
  intros Hok Hy. pose proof (frac9_free t Hok) as Hf. unfold Parse, Format, layout_datetime_us.
  rewrite bytes_str, bind_app. replace ([CFrac9 6] ≫= format_chunk t) with (format_chunk t (CFrac9 6)).
  2: { cbn [mbind list_bind]. by rewrite app_nil_r. }
  rewrite parse_datetime by done. destruct (format_chunk t (CFrac9 6)) as [|b v].
  - cbn [free_fraction parse_chunks mbind option_bind]. rewrite Hf. exact (time_of_datetime t 0 Hy).
  - rewrite Hf. exact (time_of_datetime t (t_nsec t / 1000 * 1000) Hy).
Qed.
