(* ===== verification/Values.v ===== *)
(** Column values as the server handles them: the Go values that come out of a
    driver (an [any] in the sources), their normalisation
    (src/server/value_normalize.go, src/duckdbservice/appender_init.go), their
    PostgreSQL text form (formatValue and its helpers in src/server/conn.go), the
    decimal printer of src/duckdbservice/arrowmap/arrowmap.go, and the map from
    DuckDB type names to PostgreSQL types (src/server/types.go). *)

From Stdlib Require Import Strings.Byte Floats.SpecFloat.
From stdpp Require Import prelude gmap strings list sorting.
From Stdlib Require Import ZArith Lia.
From S2P Require Import Prelude GoText GoTime.

Open Scope Z_scope.

(** * Values *)

Inductive int_kind := KInt | KInt8 | KInt16 | KInt32 | KInt64 | KUint | KUint8 | KUint16 | KUint32 | KUint64.

Definition kind_signed (k : int_kind) : bool :=
  match k with KInt | KInt8 | KInt16 | KInt32 | KInt64 => true | _ => false end.
Definition kind_width (k : int_kind) : Z :=
  match k with
  | KInt | KInt64 | KUint | KUint64 => 64
  | KInt8 | KUint8 => 8
  | KInt16 | KUint16 => 16
  | KInt32 | KUint32 => 32
  end.

#[export] Instance int_kind_eq_dec : EqDecision int_kind.
Proof. solve_decision. Defined.

Record IntervalValue := { Months : Z; Days : Z; Micros : Z }.
Record DecimalValue := { Value : Z; Scale : Z }.

(** An [any]. A float is its bit pattern. A slice of bytes may be nil. A map is
    listed in the order an iteration visits it; an ordered map's parallel slices are
    one list of pairs. [VDuckInterval] and [VDuckDecimal] are the driver's own
    types; [VStringer] is any other type with a String method, [VOther] any type
    without, each with what [%v] prints for it. *)
Inductive value :=
  | VNil
  | VBool (b : bool)
  | VInt (k : int_kind) (z : Z)
  | VFloat32 (bits : Z)
  | VFloat64 (bits : Z)
  | VString (s : string)
  | VStringPtr (s : option string)
  | VBytes (bs : option (list byte))
  | VTime (t : Time)
  | VList (l : list value)
  | VMap (kvs : list (string * value))
  | VOrderedMap (kvs : list (value * value))
  | VInterval (iv : IntervalValue)
  | VDecimal (d : DecimalValue)
  | VBigInt (z : Z)
  | VDuckInterval (months days micros : Z)
  | VDuckDecimal (v : Z) (scale : Z)
  | VStringer (s : string)
  | VOther (s : string).

(** [normalizeDuckDBValue], the one hook [normalizeDriverValue] runs in a binary
    that links the driver. *)
Definition normalizeDuckDBValue (v : value) : value :=
  match v with
  | VDuckInterval m d u => VInterval {| Months := m; Days := d; Micros := u |}
  | VDuckDecimal x s => VDecimal {| Value := x; Scale := s |}
  | v => v
  end.
Definition driverNormalizers : list (value → value) := [normalizeDuckDBValue].
Definition normalizeDriverValue (v : value) : value := foldl (λ v h, h v) v driverNormalizers.

(** * Floating point *)

(** What the language leaves to the implementation: the result of converting a
    float to an integer type it does not fit, and the payload a NaN keeps when its
    width changes; and strconv's shortest decimal form of a float, for [%g] and for
    JSON. [json_other] is the JSON form of a driver type. *)
Class GoFloat := {
  float_to_int_oob : Z → Z → Z;      (** target width, bits of the float *)
  nan_to32 : Z → Z;
  nan_to64 : Z → Z;
  fmt_g32 : Z → string;
  fmt_g64 : Z → string;
  json_f32 : Z → list byte;
  json_f64 : Z → list byte;
  json_other : value → option (list byte);
}.

(** IEEE formats: width of the mantissa field and of the exponent field. *)
Definition bias (ew : Z) : Z := 2 ^ (ew - 1) - 1.
Definition sf_of_bits (mw ew bits : Z) : spec_float :=
  let s := Z.testbit bits (mw + ew) in
  let e := bits / 2 ^ mw mod 2 ^ ew in
  let m := bits mod 2 ^ mw in
  if bool_decide (e = 2 ^ ew - 1) then (if bool_decide (m = 0) then S754_infinity s else S754_nan)
  else if bool_decide (e = 0) then
    match m with Zpos p => S754_finite s p (1 - bias ew - mw) | _ => S754_zero s end
  else match m + 2 ^ mw with Zpos p => S754_finite s p (e - bias ew - mw) | _ => S754_nan end.

Definition bits_of_sf (mw ew nan : Z) (f : spec_float) : Z :=
  let sign (s : bool) := if s then 2 ^ (mw + ew) else 0 in
  match f with
  | S754_zero s => sign s
  | S754_infinity s => sign s + (2 ^ ew - 1) * 2 ^ mw
  | S754_nan => nan
  | S754_finite s p e =>
      if bool_decide (Zpos p < 2 ^ mw) then sign s + Zpos p
      else sign s + (e + bias ew + mw) * 2 ^ mw + (Zpos p - 2 ^ mw)
  end.

Definition sf32 : Z → spec_float := sf_of_bits 23 8.
Definition sf64 : Z → spec_float := sf_of_bits 52 11.

(** Truncation towards zero. *)
Definition sf_trunc (f : spec_float) : option Z :=
  match f with
  | S754_zero _ => Some 0
  | S754_finite s p e =>
      let n := if bool_decide (0 ≤ e) then Zpos p * 2 ^ e else Zpos p / 2 ^ (- e) in
      Some (if s then - n else n)
  | _ => None
  end.

(** Rounding to a format, to nearest even. *)
Definition sf_round (prec emax : Z) (f : spec_float) : spec_float :=
  match f with
  | S754_finite s p e => binary_normalize prec emax (if s then Zneg p else Zpos p) e s
  | f => f
  end.

Section values.
Context `{GoFloat}.

(** [intN(f)] *)
Definition float_to_int (w : Z) (f : spec_float) (bits : Z) : Z :=
  match sf_trunc f with
  | Some z => if bool_decide (in_s w z) then z else wrap_s w (float_to_int_oob w bits)
  | None => wrap_s w (float_to_int_oob w bits)
  end.

Definition float32_of_int (z : Z) : Z := bits_of_sf 23 8 0 (binary_normalize 24 128 z 0 false).
Definition float64_of_int (z : Z) : Z := bits_of_sf 52 11 0 (binary_normalize 53 1024 z 0 false).
Definition float32_of_float64 (bits : Z) : Z :=
  bits_of_sf 23 8 (nan_to32 bits) (sf_round 24 128 (sf64 bits)).
Definition float64_of_float32 (bits : Z) : Z :=
  bits_of_sf 52 11 (nan_to64 bits) (sf_round 53 1024 (sf32 bits)).

(** * Text *)

(** DecimalValue.String; a nil Value prints as 0. *)
Definition DecimalValue_String (v : option Z) (scale : Z) : list byte :=
  match v with
  | None => [x30]
  | Some v =>
      if bool_decide (scale ≤ 0) then bytes (fmt_d v) else
      let abs := digits (Z.abs v) in
      let pad := scale + 1 - Z.of_nat (length abs) in
      let abs := if bool_decide (0 < pad) then zeros pad ++ abs else abs in
      let cut := (length abs - Z.to_nat scale)%nat in
      (if bool_decide (v < 0) then [x2d] else []) ++ take cut abs ++ [x2e] ++ drop cut abs
  end.

(** A number with its unit, which takes a final s unless the number is 1 or -1. *)
Definition counted (n : Z) (unit : string) : list byte :=
  bytes (fmt_d n) ++ [x20] ++ bytes unit ++ (if bool_decide (n = 1 ∨ n = -1) then [] else bytes "s").

(** The time of day both interval printers end with; [-micros] wraps. *)
Definition interval_clock (micros : Z) : list byte :=
  let neg := bool_decide (micros < 0) in
  let u := if neg then wrap_s 64 (- micros) else micros in
  let h := Z.quot u 3600000000 in let u := Z.rem u 3600000000 in
  let m := Z.quot u 60000000 in let u := Z.rem u 60000000 in
  let s := Z.quot u 1000000 in let us := Z.rem u 1000000 in
  (if neg then [x2d] else [])
  ++ fmt_0d 2 h ++ [x3a] ++ fmt_0d 2 m ++ [x3a] ++ fmt_0d 2 s
  ++ (if bool_decide (0 < us) then [x2e] ++ fmt_0d 6 us else []).

Definition formatInterval (iv : IntervalValue) : list byte :=
  let years := Z.quot (Months iv) 12 in
  let remMonths := Z.rem (Months iv) 12 in
  let parts :=
    (if bool_decide (years = 0) then [] else [counted years "year"])
    ++ (if bool_decide (remMonths = 0) then [] else [counted remMonths "mon"])
    ++ (if bool_decide (Days iv = 0) then [] else [counted (Days iv) "day"]) in
  let parts := if bool_decide (Micros iv ≠ 0 ∨ parts = []) then parts ++ [interval_clock (Micros iv)] else parts in
  join [x20] parts.

Definition needsArrayQuoting (s : list byte) : bool :=
  bool_decide (s = []) || existsb (λ r, bool_decide (r.2 ∈ [[x2c]; [x7b]; [x7d]; [x22]; [x5c]; [x20]])) (runes s).

(** An element between quotes, with backslashes before quotes and backslashes. *)
Definition quote_element (s : list byte) : list byte :=
  [x22] ++ (runes s ≫= λ r, if bool_decide (r.2 = [x22] ∨ r.2 = [x5c]) then x5c :: r.2 else r.2) ++ [x22].

(** What formatArrayValue writes for an element: [None] for nil. *)
Definition array_element (s : option (list byte)) : list byte :=
  match s with
  | None => bytes "NULL"
  | Some s => if needsArrayQuoting s then quote_element s else s
  end.
Definition array_text (elems : list (option (list byte))) : list byte :=
  [x7b] ++ join [x2c] (array_element <$> elems) ++ [x7d].

Definition map_text (kvs : list (list byte * list byte)) : list byte :=
  [x7b] ++ join (bytes ", ") ((λ kv, kv.1 ++ [x3d] ++ kv.2) <$> kvs) ++ [x7d].

(** The cases of formatValue that do not recurse. *)
Definition format_scalar (v : value) : list byte :=
  match v with
  | VNil => []
  | VBool b => bytes (if b then "t" else "f")
  | VInt _ z => bytes (fmt_d z)
  | VFloat32 f => bytes (fmt_g32 f)
  | VFloat64 f => bytes (fmt_g64 f)
  | VString s => bytes s
  | VStringPtr s => match s with Some s => bytes s | None => [] end
  | VBytes bs => default [] bs
  | VTime t =>
      if Time_IsZero t then []
      else bytes (Format (if bool_decide (Nanosecond t ≠ 0) then layout_datetime_us else layout_datetime) t)
  | VInterval iv => formatInterval iv
  | VDecimal d => DecimalValue_String (Some (Value d)) (Scale d)
  | VBigInt z => bytes (fmt_d z)
  | VStringer s | VOther s => bytes s
  | _ => []
  end.

(** The hook leaves containers as they are, so the recursion is on the value. *)
Fixpoint formatValue (v : value) : list byte :=
  match v with
  | VList l => array_text ((λ x, match x with VNil => None | _ => Some (formatValue x) end) <$> l)
  | VMap kvs => map_text ((λ kv, (bytes kv.1, formatValue kv.2)) <$> kvs)
  | VOrderedMap kvs => map_text ((λ kv, (formatValue kv.1, formatValue kv.2)) <$> kvs)
  | _ => format_scalar (normalizeDriverValue v)
  end.

Definition formatArrayValue (arr : list value) : list byte := formatValue (VList arr).
Definition formatMapValue (m : list (string * value)) : list byte := formatValue (VMap m).
Definition formatOrderedMapValue (m : list (value * value)) : list byte := formatValue (VOrderedMap m).

(** * JSON *)

Definition json_object (fields : list (list byte * list byte)) : list byte :=
  [x7b] ++ join [x2c] ((λ kv, json_string kv.1 ++ [x3a] ++ kv.2) <$> fields) ++ [x7d].
Definition json_array (l : list (list byte)) : list byte := [x5b] ++ join [x2c] l ++ [x5d].

(** Byte order on keys. *)
Fixpoint bytes_le (a b : list byte) : bool :=
  match a, b with
  | [], _ => true
  | _ :: _, [] => false
  | x :: a', y :: b' => if bool_decide (x = y) then bytes_le a' b' else bool_decide (byte_val x < byte_val y)
  end.
Definition key_le (a b : list byte * list byte) : Prop := bytes_le a.1 b.1 = true.
#[local] Instance key_le_dec : RelDecision key_le.
Proof. intros a b. unfold key_le. apply _. Defined.

(** RFC 3339 with nanoseconds, as Time.MarshalJSON prints it. *)
Definition layout_rfc3339nano : layout := layout_date ++ [CLit [x54]] ++ layout_clock ++ [CFrac9 9; CLit [x5a]].

Definition json_scalar (v : value) : option (list byte) :=
  match v with
  | VNil => Some (bytes "null")
  | VBool b => Some (bytes (if b then "true" else "false"))
  | VInt _ z => Some (bytes (fmt_d z))
  | VFloat32 f => match sf32 f with S754_nan | S754_infinity _ => None | _ => Some (json_f32 f) end
  | VFloat64 f => match sf64 f with S754_nan | S754_infinity _ => None | _ => Some (json_f64 f) end
  | VString s | VStringPtr (Some s) => Some (json_string (bytes s))
  | VStringPtr None | VBytes None => Some (bytes "null")
  | VBytes (Some bs) => Some ([x22] ++ base64 bs ++ [x22])
  | VTime t => if bool_decide (0 ≤ year (Date t) < 10000)
               then Some ([x22] ++ bytes (Format layout_rfc3339nano t) ++ [x22]) else None
  | VInterval iv => Some (json_object [(bytes "Months", bytes (fmt_d (Months iv)));
                      (bytes "Days", bytes (fmt_d (Days iv))); (bytes "Micros", bytes (fmt_d (Micros iv)))])
  | VDecimal d => Some (json_object [(bytes "Value", bytes (fmt_d (Value d))); (bytes "Scale", bytes (fmt_d (Scale d)))])
  | VBigInt z => Some (bytes (fmt_d z))
  | v => json_other v
  end.

Fixpoint json_Marshal (v : value) : option (list byte) :=
  match v with
  | VList l => json_array <$> mapM json_Marshal l
  | VMap kvs =>
      fields ← mapM (λ kv, j ← json_Marshal kv.2; Some (bytes kv.1, j)) kvs;
      Some (json_object (merge_sort key_le fields))
  | VOrderedMap kvs =>
      ks ← mapM (λ kv, json_Marshal kv.1) kvs;
      vs ← mapM (λ kv, json_Marshal kv.2) kvs;
      Some (json_object [(bytes "Keys", json_array ks); (bytes "Values", json_array vs)])
  | _ => json_scalar v
  end.
End values.

(** * PostgreSQL types *)

Definition OidBool : Z := 16.
Definition OidBytea : Z := 17.
Definition OidChar : Z := 18.
Definition OidName : Z := 19.
Definition OidInt8 : Z := 20.
Definition OidInt2 : Z := 21.
Definition OidInt4 : Z := 23.
Definition OidText : Z := 25.
Definition OidOid : Z := 26.
Definition OidFloat4 : Z := 700.
Definition OidFloat8 : Z := 701.
Definition OidBpchar : Z := 1042.
Definition OidVarchar : Z := 1043.
Definition OidDate : Z := 1082.
Definition OidTime : Z := 1083.
Definition OidTimestamp : Z := 1114.
Definition OidTimestamptz : Z := 1184.
Definition OidInterval : Z := 1186.
Definition OidNumeric : Z := 1700.
Definition OidUUID : Z := 2950.
Definition OidTimetz : Z := 1266.
Definition OidJSON : Z := 114.
Definition OidJSONB : Z := 3802.

(** Array OID and element OID. *)
Definition arrayElementOIDs : list (Z * Z) :=
  [(1000, OidBool); (1005, OidInt2); (1007, OidInt4); (1016, OidInt8); (1021, OidFloat4); (1022, OidFloat8);
   (1009, OidText); (1015, OidVarchar); (1182, OidDate); (1183, OidTime); (1270, OidTimetz);
   (1115, OidTimestamp); (1185, OidTimestamptz); (1187, OidInterval); (1231, OidNumeric); (2951, OidUUID)].
Definition elementToArrayOID : list (Z * Z) :=
  [(OidBool, 1000); (OidInt2, 1005); (OidInt4, 1007); (OidInt8, 1016); (OidFloat4, 1021); (OidFloat8, 1022);
   (OidText, 1009); (OidVarchar, 1015); (OidDate, 1182); (OidTime, 1183); (OidTimetz, 1270);
   (OidTimestamp, 1115); (OidTimestamptz, 1185); (OidInterval, 1187); (OidNumeric, 1231); (OidUUID, 2951)].

Fixpoint lookup_oid {A} (oid : Z) (l : list (Z * A)) : option A :=
  match l with
  | [] => None
  | (k, v) :: l' => if bool_decide (k = oid) then Some v else lookup_oid oid l'
  end.

Record TypeInfo := { OID : Z; Size : Z; Typmod : Z }.

(** [fmt.Sscanf(s, "%d", &p)] on a trimmed string: an optional sign and the digits
    that follow, the rest being left alone; an error when there is no digit or the
    value does not fit an int. *)
Definition Sscanf_d (l : list byte) : option Z :=
  let neg := bool_decide (head l = Some x2d) in
  let ds := leading_digits (if bool_decide (head l = Some x2d ∨ head l = Some x2b) then tail l else l) in
  match ds with
  | [] => None
  | _ => let z := if neg then - digits_val ds else digits_val ds in
         if bool_decide (in_s 64 z) then Some z else None
  end.

Definition parseNumericTypmod (typeName : list byte) : Z :=
  match index_byte x28 typeName, index_byte x29 typeName with
  | Some lparen, Some rparen =>
      if bool_decide (rparen ≤ lparen)%nat then -1 else
      let inner := take (rparen - S lparen) (drop (S lparen) typeName) in
      match split2 x2c inner with
      | [precision; scale] =>
          match Sscanf_d (bytes (TrimSpace (str precision))), Sscanf_d (bytes (TrimSpace (str scale))) with
          | Some p, Some s =>
              if bool_decide (p ≤ 0 ∨ s < 0 ∨ 38 < p) then -1
              else wrap_s 32 (wrap_s 32 (Z.lor (Z.shiftl p 16) s) + 4)
          | _, _ => -1
          end
      | _ => -1
      end
  | _, _ => -1
  end.

Section types.
Context `{UnicodeCase}.

Definition text_type : TypeInfo := {| OID := OidText; Size := -1; Typmod := -1 |}.
Definition plain (oid size : Z) : TypeInfo := {| OID := oid; Size := size; Typmod := -1 |}.

(** The types with one name or a few, in the order of the source's switch. *)
Definition named_types : list (list string * TypeInfo) :=
  [(["BOOLEAN"; "BOOL"], plain OidBool 1);
   (["TINYINT"; "INT1"], plain OidInt2 2);
   (["SMALLINT"; "INT2"], plain OidInt2 2);
   (["INTEGER"; "INT4"; "INT"], plain OidInt4 4);
   (["BIGINT"; "INT8"], plain OidInt8 8);
   (["HUGEINT"; "INT128"], {| OID := OidNumeric; Size := -1; Typmod := 2490372 |});
   (["UTINYINT"; "USMALLINT"], plain OidInt4 4);
   (["UINTEGER"], plain OidOid 4);
   (["UBIGINT"], {| OID := OidNumeric; Size := -1; Typmod := 1310724 |});
   (["REAL"; "FLOAT4"; "FLOAT"], plain OidFloat4 4);
   (["DOUBLE"; "FLOAT8"], plain OidFloat8 8)]%string.
Definition named_types_2 : list (list string * TypeInfo) :=
  [(["TEXT"; "STRING"], plain OidText (-1));
   (["BLOB"; "BYTEA"], plain OidBytea (-1));
   (["DATE"], plain OidDate 4);
   (["TIME"], plain OidTime 8);
   (["TIME WITH TIME ZONE"; "TIMETZ"], plain OidTimetz 12);
   (["TIMESTAMP"], plain OidTimestamp 8);
   (["TIMESTAMP WITH TIME ZONE"; "TIMESTAMPTZ"], plain OidTimestamptz 8);
   (["INTERVAL"], plain OidInterval 16);
   (["UUID"], plain OidUUID 16);
   (["JSON"], plain OidJSON (-1))]%string.

Definition find_type (upper : string) (l : list (list string * TypeInfo)) : option TypeInfo :=
  snd <$> List.find (λ e, bool_decide (upper ∈ e.1)) l.

Definition scalar_type (typeName upper : string) : TypeInfo :=
  match find_type upper named_types with
  | Some ti => ti
  | None =>
      if HasPrefix upper "DECIMAL" || HasPrefix upper "NUMERIC"
      then {| OID := OidNumeric; Size := -1; Typmod := parseNumericTypmod (bytes typeName) |}
      else if bool_decide (upper = "VARCHAR"%string) || HasPrefix upper "VARCHAR("
      then plain OidVarchar (-1)
      else default text_type (find_type upper named_types_2)
  end.

(** Each level of array suffix takes two bytes off the name, so its length bounds
    the recursion. *)
Fixpoint mapDuckDBType_fuel (fuel : nat) (typeName : list byte) : TypeInfo :=
  let upper := ToUpper (str typeName) in
  if HasSuffix upper "[]" then
    match fuel with
    | O => text_type
    | S fuel' =>
        let elemInfo := mapDuckDBType_fuel fuel' (take (length typeName - 2) typeName) in
        match lookup_oid (OID elemInfo) elementToArrayOID with
        | Some arrayOID => {| OID := arrayOID; Size := -1; Typmod := Typmod elemInfo |}
        | None => text_type
        end
    end
  else scalar_type (str typeName) upper.
Definition mapDuckDBType (typeName : string) : TypeInfo :=
  mapDuckDBType_fuel (length (bytes typeName)) (bytes typeName).

(** [getTypeInfo] of a column whose driver reports this type name. *)
Definition getTypeInfo (databaseTypeName : string) : TypeInfo := mapDuckDBType databaseTypeName.
End types.

(** * Array literals read back

    How PostgreSQL's input function reads the text of a one-dimensional array:
    blanks around an element are skipped, a quoted element may hold anything with
    backslash escapes, an unquoted NULL in any case is the null element. *)

Definition array_space (b : byte) : bool := bool_decide (b ∈ [x20; x09; x0a; x0b; x0c; x0d]).

Fixpoint trim_right (l : list byte) : list byte :=
  match l with
  | [] => []
  | b :: l' => match trim_right l' with
               | [] => if array_space b then [] else [b]
               | r => b :: r
               end
  end.

Inductive array_mode :=
  | BeforeElem                 (** before an element *)
  | InQuotes (w : list byte)   (** inside quotes, [w] read so far *)
  | Escaped (w : list byte)    (** after a backslash inside quotes *)
  | AfterQuotes (w : list byte)
  | Bare (w : list byte).      (** inside an unquoted element *)

Definition bare_element (w : list byte) : option (option (list byte)) :=
  let w := trim_right w in
  if bool_decide (w = []) then None
  else if bool_decide ((upper_byte <$> w) = bytes "NULL") then Some None else Some (Some w).

Fixpoint read_elements (m : array_mode) (acc : list (option (list byte))) (l : list byte)
    : option (list (option (list byte))) :=
  match l with
  | [] => None
  | b :: l' =>
      let fin (e : option (list byte)) :=
        if bool_decide (b = x2c) then read_elements BeforeElem (acc ++ [e]) l'
        else match l' with [] => Some (acc ++ [e]) | _ => None end in
      let stop := bool_decide (b = x2c ∨ b = x7d) in
      match m with
      | BeforeElem =>
          if array_space b then read_elements BeforeElem acc l'
          else if bool_decide (b = x22) then read_elements (InQuotes []) acc l'
          else if bool_decide (b ∈ [x2c; x7d; x7b; x5c]) then None
          else read_elements (Bare [b]) acc l'
      | InQuotes w =>
          if bool_decide (b = x22) then read_elements (AfterQuotes w) acc l'
          else if bool_decide (b = x5c) then read_elements (Escaped w) acc l'
          else read_elements (InQuotes (w ++ [b])) acc l'
      | Escaped w => read_elements (InQuotes (w ++ [b])) acc l'
      | AfterQuotes w =>
          if array_space b then read_elements (AfterQuotes w) acc l'
          else if stop then fin (Some w) else None
      | Bare w =>
          if stop then match bare_element w with Some e => fin e | None => None end
          else if bool_decide (b ∈ [x7b; x22; x5c]) then None
          else read_elements (Bare (w ++ [b])) acc l'
      end
  end.

Definition read_array (l : list byte) : option (list (option (list byte))) :=
  match l with
  | b :: l' =>
      if bool_decide (b = x7b) then
        (if bool_decide (l' = [x7d]) then Some [] else read_elements BeforeElem [] l')
      else None
  | [] => None
  end.

(** An element the text form keeps: quoted and valid UTF-8, or unquoted, free of
    blanks and not the word NULL. *)
Definition element_ok (s : list byte) : Prop :=
  if needsArrayQuoting s then valid_utf8 s = true
  else Forall (λ b, array_space b = false) s ∧ (upper_byte <$> s) ≠ bytes "NULL".

(** ** Runes of a string *)

Lemma runes_fuel_enough fuel l : (length l ≤ fuel)%nat → runes_fuel fuel l = runes l.
Proof.
  unfold runes. assert (∀ n fuel l, (length l ≤ n)%nat → (length l ≤ fuel)%nat →
    runes_fuel fuel l = runes_fuel (length l) l) as Hgen.
  { clear. induction n as [|n IH]; intros fuel l Hn Hf.
    - destruct l; [|cbn in Hn; lia]. by destruct fuel.
    - destruct l as [|b l]; [by destruct fuel|]. destruct fuel as [|fuel]; [cbn in Hf; lia|].
      cbn [runes_fuel length] in *. pose proof (rune_len_le (b :: l)) as Hr. cbn in Hr.
      destruct (rune_len (b :: l)) as [|k] eqn:E.
      + f_equal. apply IH; lia.
      + f_equal. cbn [drop]. rewrite (IH fuel), (IH (length l)) by (rewrite ?length_drop; lia). done. }
  intros Hf. by apply (Hgen (length l)).
Qed.

(** The first rune and the rest. *)
Lemma runes_cons b l :
  runes (b :: l) = match rune_len (b :: l) with
                   | O => (false, rune_error) :: runes l
                   | n => (true, take n (b :: l)) :: runes (drop n (b :: l))
                   end.
Proof.
  unfold runes at 1. cbn [length runes_fuel]. destruct (rune_len (b :: l)) as [|n]; f_equal.
  apply runes_fuel_enough. cbn [drop]. rewrite length_drop. lia.
Qed.

Lemma runes_1 b l : rune_len (b :: l) = 1%nat → runes (b :: l) = (true, [b]) :: runes l.
Proof. intros E. by rewrite runes_cons, E. Qed.

(** The bytes of an encoding longer than one byte are not ASCII. *)
Lemma rune_len_multi b l n : rune_len (b :: l) = S (S n) →
  Forall (λ c, 128 ≤ byte_val c) (take (S (S n)) (b :: l)).
Proof.
  unfold rune_len, cont. intros H.
  repeat (case_match; try discriminate; simplify_eq);
  repeat match goal with
  | H : _ && _ = true |- _ => apply andb_true_iff in H as [? ?]
  | H : _ || _ = true |- _ => apply orb_true_iff in H as [?|?]
  | H : byte_in _ _ _ = true |- _ => unfold byte_in in H; apply bool_decide_eq_true in H
  end; cbn [take]; repeat apply Forall_cons_2; try apply Forall_nil_2; lia.
Qed.

Lemma rune_len_0 b l : rune_len (b :: l) = O → 128 ≤ byte_val b.
Proof.
  unfold rune_len. destruct (byte_in 0 127 b) eqn:E; [done|]. intros _.
  unfold byte_in in E. apply bool_decide_eq_false in E. pose proof (byte_val_range b). lia.
Qed.

Definition special_bytes : list byte := [x2c; x7b; x7d; x22; x5c; x20].

Lemma special_ascii b : 128 ≤ byte_val b → (b ∉ special_bytes) ∧ b ≠ x22 ∧ b ≠ x5c.
Proof.
  intros Hb. assert (b ∉ special_bytes) as Hs.
  { intros Hin. unfold special_bytes in Hin. rewrite !elem_of_cons, elem_of_nil in Hin.
    repeat destruct Hin as [->|Hin]; try done; by apply Hb. }
  split_and!; [done| |]; intros ->; apply Hs; unfold special_bytes; set_solver.
Qed.

(** Induction over the runes of a string. *)
Lemma runes_ind (P : list byte → Prop) :
  P [] →
  (∀ b l, 128 ≤ byte_val b → rune_len (b :: l) = O → P l → P (b :: l)) →
  (∀ b l, rune_len (b :: l) = 1%nat → P l → P (b :: l)) →
  (∀ b l n, rune_len (b :: l) = S (S n) → Forall (λ c, 128 ≤ byte_val c) (take (S (S n)) (b :: l)) →
     P (drop (S (S n)) (b :: l)) → P (b :: l)) →
  ∀ l, P l.
Proof.
  intros H0 Hbad H1 Hm l. remember (length l) as n eqn:Hn. assert (length l ≤ n)%nat as Hl by lia. clear Hn.
  revert l Hl. induction n as [|n IH]; intros [|b l] Hl; try done; [cbn in Hl; lia|]. cbn in Hl.
  destruct (rune_len (b :: l)) as [|[|k]] eqn:E.
  - apply Hbad; [by eapply rune_len_0|done|]. apply IH. lia.
  - apply H1; [done|]. apply IH. lia.
  - eapply Hm; [done|by apply rune_len_multi|]. apply IH. cbn [drop]. rewrite length_drop. lia.
Qed.

Lemma unquoted_bytes s : needsArrayQuoting s = false → s ≠ [] ∧ Forall (λ b, b ∉ special_bytes) s.
Proof.
  unfold needsArrayQuoting. intros [He Hs]%orb_false_iff. apply bool_decide_eq_false in He. split; [done|]. clear He.
  revert Hs. induction s as [|b l Hb E IH|b l E IH|b l n E Hn IH] using runes_ind; intros Hs; [constructor|..];
    rewrite runes_cons, E in Hs; cbn [existsb] in Hs; apply orb_false_iff in Hs as [Hs Hs'].
  - constructor; [by apply special_ascii|]. by apply IH.
  - constructor; [|by apply IH]. apply bool_decide_eq_false in Hs. intros Hin. apply Hs.
    change (take 1 (b :: l)) with [b]. by apply (list_elem_of_fmap_2 (λ c, [c])) in Hin.
  - rewrite <- (take_drop (S (S n)) (b :: l)). apply Forall_app. split; [|by apply IH].
    eapply Forall_impl; [exact Hn|]. intros c Hc. by apply special_ascii.
Qed.

Lemma read_plain ds : ∀ w acc rest, Forall (λ b, b ≠ x22 ∧ b ≠ x5c) ds →
  read_elements (InQuotes w) acc (ds ++ rest) = read_elements (InQuotes (w ++ ds)) acc rest.
Proof.
  induction ds as [|b ds IH]; intros w acc rest Hd; [by rewrite app_nil_r|].
  inversion Hd as [|?? [H1 H2] Hd']; subst. cbn [app read_elements].
  rewrite bool_decide_eq_false_2, bool_decide_eq_false_2 by done. rewrite IH by done. by rewrite <- app_assoc.
Qed.

Lemma read_quoted s : ∀ w acc rest, valid_utf8 s = true →
  read_elements (InQuotes w) acc
    ((runes s ≫= λ r, if bool_decide (r.2 = [x22] ∨ r.2 = [x5c]) then x5c :: r.2 else r.2) ++ x22 :: rest)
  = read_elements (AfterQuotes (w ++ s)) acc rest.
Proof.
  unfold valid_utf8. induction s as [|b l Hb E IH|b l E IH|b l n E Hn IH] using runes_ind; intros w acc rest Hv.
  - rewrite app_nil_r. done.
  - by rewrite runes_cons, E in Hv.
  - rewrite (runes_1 _ _ E) in Hv |- *.
    cbn [forallb fst andb] in Hv. rewrite bind_cons, <- app_assoc. cbn [snd].
    case_bool_decide as Hq.
    + assert (b = x22 ∨ b = x5c) as Hb by (destruct Hq as [Hq|Hq]; injection Hq; tauto).
      cbn [app read_elements]. rewrite bool_decide_eq_false_2, bool_decide_eq_true_2 by done.
      rewrite IH by done. by rewrite <- app_assoc.
    + rewrite read_plain by (repeat constructor; intros ->; apply Hq; tauto).
      rewrite IH by done. by rewrite <- app_assoc.
  - rewrite runes_cons, E in Hv |- *. cbn [forallb fst andb] in Hv. rewrite bind_cons, <- app_assoc. cbn [snd].
    rewrite bool_decide_eq_false_2.
    + rewrite read_plain by (eapply Forall_impl; [exact Hn|]; intros c Hc; by apply special_ascii).
      rewrite IH by done. by rewrite <- app_assoc, take_drop.
    + pose proof (rune_len_le (b :: l)) as Hl. destruct l as [|c l]; [cbn in *; lia|].
      cbn [take]. intros [?|?]; simplify_eq.
Qed.

Lemma read_bare ds : ∀ w acc rest,
  Forall (λ b, (b ∉ special_bytes) ∧ array_space b = false) ds →
  read_elements (Bare w) acc (ds ++ rest) = read_elements (Bare (w ++ ds)) acc rest.
Proof.
  induction ds as [|b ds IH]; intros w acc rest Hd; [by rewrite app_nil_r|].
  inversion Hd as [|?? [H1 _] Hd']; subst. unfold special_bytes in H1. rewrite !not_elem_of_cons in H1.
  cbn [app read_elements]. rewrite bool_decide_eq_false_2 by tauto.
  rewrite bool_decide_eq_false_2 by (rewrite !elem_of_cons, elem_of_nil; tauto).
  rewrite IH by done. by rewrite <- app_assoc.
Qed.

Lemma trim_right_clean w : Forall (λ b, array_space b = false) w → trim_right w = w.
Proof.
  induction 1 as [|b w Hb _ IH]; [done|]. cbn. rewrite IH. destruct w; [by rewrite Hb|done].
Qed.

Lemma bare_element_ok s : s ≠ [] → Forall (λ b, array_space b = false) s → (upper_byte <$> s) ≠ bytes "NULL" →
  bare_element s = Some (Some s).
Proof.
  intros Hne Hsp Hn. unfold bare_element. rewrite trim_right_clean by done.
  rewrite bool_decide_eq_false_2 by done. by rewrite bool_decide_eq_false_2.
Qed.

Lemma read_bare_from_start s acc rest : s ≠ [] →
  Forall (λ b, (b ∉ special_bytes) ∧ array_space b = false) s →
  read_elements BeforeElem acc (s ++ rest) = read_elements (Bare s) acc rest.
Proof.
  intros Hne Hs. destruct s as [|b s]; [done|]. inversion Hs as [|?? [H1 H2] Hs']; subst.
  unfold special_bytes in H1. rewrite !not_elem_of_cons in H1.
  cbn [app read_elements]. rewrite H2. rewrite bool_decide_eq_false_2 by tauto.
  rewrite bool_decide_eq_false_2 by (rewrite !elem_of_cons, elem_of_nil; tauto).
  by rewrite read_bare.
Qed.

Definition element_read (acc : list (option (list byte))) (e : option (list byte)) (c : byte) (rest : list byte)
    : option (list (option (list byte))) :=
  if bool_decide (c = x2c) then read_elements BeforeElem (acc ++ [e]) rest else Some (acc ++ [e]).

(** Reading one printed element, up to the comma or the closing brace. *)
Lemma read_element e acc c rest :
  match e with Some s => element_ok s | None => True end → c = x2c ∨ (c = x7d ∧ rest = []) →
  read_elements BeforeElem acc (array_element e ++ c :: rest) = element_read acc e c rest.
Proof.
  intros He Hc. assert (bool_decide (c = x2c ∨ c = x7d) = true) as Hstop by (apply bool_decide_eq_true; tauto).
  assert (∀ x, (if bool_decide (c = x2c) then read_elements BeforeElem (acc ++ [x]) rest
                else match rest with [] => Some (acc ++ [x]) | _ => None end) = element_read acc x c rest) as Hfin.
  { intros x. unfold element_read. destruct (bool_decide_reflect (c = x2c)); [done|].
    destruct Hc as [?|[_ ->]]; done. }
  destruct e as [s|]; unfold array_element.
  - unfold element_ok in He. destruct (needsArrayQuoting s) eqn:Hq.
    + unfold quote_element. rewrite <- !app_assoc. cbn [app read_elements array_space].
      change (read_elements BeforeElem acc (x22 :: ?l)) with (read_elements (InQuotes []) acc l).
      rewrite read_quoted by done. cbn [app read_elements].
      assert (array_space c = false) as -> by (destruct Hc as [->|[-> _]]; done). rewrite Hstop. apply Hfin.
    + destruct He as [Hsp Hn]. destruct (unquoted_bytes s Hq) as [Hne Hs].
      rewrite read_bare_from_start; [|done|by apply Forall_and]. cbn [read_elements].
      rewrite Hstop, bare_element_ok by done. apply Hfin.
  - rewrite read_bare_from_start; [|done|]. 2: { apply (bool_decide_unpack _). vm_compute. exact I. }
    cbn [read_elements]. rewrite Hstop. change (bare_element (bytes "NULL")) with (Some (None : option (list byte))).
    apply Hfin.
Qed.

Lemma array_element_nonempty e : array_element e ≠ [].
Proof.
  destruct e as [s|]; [|done]. unfold array_element. destruct (needsArrayQuoting s) eqn:Hq; [done|].
  by apply unquoted_bytes.
Qed.

Lemma read_joined e elems : ∀ acc,
  Forall (λ e, match e with Some s => element_ok s | None => True end) (e :: elems) →
  read_elements BeforeElem acc (join [x2c] (array_element <$> e :: elems) ++ [x7d]) = Some (acc ++ e :: elems).
Proof.
  revert e. induction elems as [|e' elems IH]; intros e acc Hok; inversion Hok; subst.
  - cbn [fmap list_fmap join]. rewrite read_element by tauto. done.
  - change (join [x2c] (array_element <$> e :: e' :: elems)) with
      (array_element e ++ [x2c] ++ join [x2c] (array_element <$> e' :: elems)).
    rewrite <- !app_assoc. cbn [app]. rewrite read_element by tauto. unfold element_read.
    rewrite bool_decide_eq_true_2 by done. rewrite IH by done. by rewrite <- app_assoc.
Qed.

(** A one-dimensional array of strings and nulls survives its text form:
    PostgreSQL's reader gives back the elements that formatArrayValue printed,
    whenever no unquoted element holds blanks or spells NULL. *)
Theorem array_text_roundtrip elems :
  Forall (λ e, match e with Some s => element_ok s | None => True end) elems →
  read_array (array_text elems) = Some elems.
Proof.
  intros Hok. unfold read_array, array_text. cbn [app]. rewrite bool_decide_eq_true_2 by done.
  destruct elems as [|e elems]; [done|]. rewrite bool_decide_eq_false_2.
  - by rewrite read_joined.
  - intros Hj. apply (app_inv_tail [x7d] _ []) in Hj.
    destruct elems; cbn [fmap list_fmap join] in Hj; [|apply app_eq_nil in Hj as [Hj _]];
      by apply array_element_nonempty in Hj.
Qed.

Lemma array_text_roundtrip_witness :
  read_array (array_text [Some (bytes "a,b"); None; Some (bytes "plain")]) =
  Some [Some (bytes "a,b"); None; Some (bytes "plain")].
Proof.
  apply array_text_roundtrip. repeat apply Forall_cons_2; try apply Forall_nil_2; try exact I.
  - vm_compute. reflexivity.
  - split; [|vm_compute; discriminate]. apply (bool_decide_unpack _). vm_compute. exact I.
Defined.

(** A string that spells NULL is printed without quotes: the text of the array
    holding it is the text of the array holding a null. *)
Theorem null_string_prints_as_null `{GoFloat} :
  formatArrayValue [VString "NULL"] = formatArrayValue [VNil]
  ∧ read_array (formatArrayValue [VString "NULL"]) = Some [None].
Proof. by split. Qed.
