(* ===== verification/BinaryTypes.v ===== *)
(** PostgreSQL's binary value format (src/server/types.go): the encoders of result
    values, the decoders of parameters and COPY fields, and what a value becomes
    on its way through both. *)

From Stdlib Require Import Strings.Byte Floats.SpecFloat.
From stdpp Require Import prelude strings list.
From Stdlib Require Import ZArith Lia.
From S2P Require Import Prelude GoText GoTime Values.

Open Scope Z_scope.

(** An encoder gives bytes or nil; the numeric encoder can panic. *)
Definition encoded := outcome Empty_set (option (list byte)).

Section encoders.
Context `{GoFloat}.
(** The String method of a driver type, where it has one. *)
Context (duck_String : value → option string).

Definition put (n : nat) (z : Z) : list byte := be_bytes n z.

(** The comparison with 0 in the source is one of interfaces, the constant being an
    int: an integer of another type differs from it whatever its value. *)
Definition encodeBool (v : value) : option (list byte) :=
  let b := match v with
           | VBool b => b
           | VInt KInt z => negb (bool_decide (z = 0))
           | VInt (KInt8 | KInt16 | KInt32 | KInt64) _ => true
           | _ => false
           end in
  Some [if b then x01 else x00].

Definition encodeInt2 (v : value) : option (list byte) :=
  match v with
  | VInt (KInt | KInt8 | KInt16 | KInt32 | KInt64 | KUint8 | KUint16) z => Some (put 2 (wrap_u 16 (wrap_s 16 z)))
  | VFloat32 f => Some (put 2 (wrap_u 16 (float_to_int 16 (sf32 f) f)))
  | VFloat64 f => Some (put 2 (wrap_u 16 (float_to_int 16 (sf64 f) f)))
  | _ => None
  end.

Definition encodeInt4 (v : value) : option (list byte) :=
  match v with
  | VInt (KInt | KInt8 | KInt16 | KInt32 | KInt64 | KUint8 | KUint16 | KUint32) z =>
      Some (put 4 (wrap_u 32 (wrap_s 32 z)))
  | VFloat32 f => Some (put 4 (wrap_u 32 (float_to_int 32 (sf32 f) f)))
  | VFloat64 f => Some (put 4 (wrap_u 32 (float_to_int 32 (sf64 f) f)))
  | _ => None
  end.

Definition encodeInt8 (v : value) : option (list byte) :=
  match v with
  | VInt (KInt | KInt8 | KInt16 | KInt32 | KInt64 | KUint8 | KUint16 | KUint32 | KUint64) z =>
      Some (put 8 (wrap_u 64 (wrap_s 64 z)))
  | VFloat32 f => Some (put 8 (wrap_u 64 (float_to_int 64 (sf32 f) f)))
  | VFloat64 f => Some (put 8 (wrap_u 64 (float_to_int 64 (sf64 f) f)))
  | _ => None
  end.

Definition encodeFloat4 (v : value) : option (list byte) :=
  match v with
  | VFloat32 f => Some (put 4 f)
  | VFloat64 f => Some (put 4 (float32_of_float64 f))
  | VInt (KInt | KInt32 | KInt64) z => Some (put 4 (float32_of_int z))
  | _ => None
  end.

Definition encodeFloat8 (v : value) : option (list byte) :=
  match v with
  | VFloat64 f => Some (put 8 f)
  | VFloat32 f => Some (put 8 (float64_of_float32 f))
  | VInt (KInt | KInt32 | KInt64) z => Some (put 8 (float64_of_int z))
  | _ => None
  end.

Definition pgEpochDays : Z := 10957.
Definition pgEpochMicros : Z := pgEpochDays * 24 * 60 * 60 * 1000000.

Definition date_bytes (t : Time) : list byte :=
  put 4 (wrap_u 32 (wrap_s 32 (Z.quot (Unix t) 86400 - pgEpochDays))).
Definition encodeDate (v : value) : option (list byte) :=
  match v with
  | VTime t => Some (date_bytes t)
  | VString s => t ← Parse layout_date s; Some (date_bytes t)
  | _ => None
  end.

Definition timestamp_bytes (t : Time) : list byte := put 8 (wrap_u 64 (wrap_s 64 (UnixMicro t - pgEpochMicros))).
Definition encodeTimestamp (v : value) : option (list byte) :=
  match v with
  | VTime t => Some (timestamp_bytes t)
  | VString s =>
      match Parse layout_datetime s with
      | Some t => Some (timestamp_bytes t)
      | None => t ← Parse layout_datetimeZ s; Some (timestamp_bytes t)
      end
  | _ => None
  end.

Definition encodeBytea (v : value) : option (list byte) :=
  match v with
  | VBytes bs => bs
  | VString s => Some (bytes s)
  | _ => None
  end.

Definition uuid_of_string (s : list byte) : option (list byte) :=
  let s := remove_byte x2d s in
  if bool_decide (length s ≠ 32%nat) then None else hex_DecodeString s.

(** Time.String always holds a space, which no hex digit is. *)
Definition encodeUUID (v : value) : option (list byte) :=
  match v with
  | VBytes (Some bs) => if bool_decide (length bs = 16%nat) then Some bs else None
  | VBytes None => None
  | VString s | VStringer s => uuid_of_string (bytes s)
  | VDecimal d => uuid_of_string (DecimalValue_String (Some (Value d)) (Scale d))
  | VBigInt z => uuid_of_string (bytes (fmt_d z))
  | VDuckInterval _ _ _ | VDuckDecimal _ _ => s ← duck_String v; uuid_of_string (bytes s)
  | _ => None
  end.

Definition time_bytes (t : Time) : list byte :=
  put 8 (wrap_u 64 (Hour t * 3600000000 + Minute t * 60000000 + Second t * 1000000 + Nanosecond t / 1000)).
Definition encodeTime (v : value) : option (list byte) :=
  match v with
  | VTime t => Some (time_bytes t)
  | VString s =>
      match Parse layout_clock s with
      | Some t => Some (time_bytes t)
      | None => t ← Parse layout_clock_us s; Some (time_bytes t)
      end
  | _ => None
  end.

Definition encodeInterval (v : value) : option (list byte) :=
  match normalizeDriverValue v with
  | VInterval iv =>
      Some (put 8 (wrap_u 64 (Micros iv)) ++ put 4 (wrap_u 32 (Days iv)) ++ put 4 (wrap_u 32 (Months iv)))
  | _ => None
  end.

Definition encodeText (v : value) : list byte := formatValue v.

(** * Numeric *)

(** [big.Int.SetString(s, 10)]: an optional sign and at least one digit. *)
Definition SetString (s : list byte) : option Z :=
  let neg := bool_decide (head s = Some x2d) in
  let ds := if bool_decide (head s = Some x2d ∨ head s = Some x2b) then tail s else s in
  if bool_decide (ds = []) || negb (forallb is_digit ds) then None
  else Some (if neg then - digits_val ds else digits_val ds).

(** The unscaled value and the scale of a decimal in text form. *)
Definition parse_decimal (s : list byte) : option (Z * Z) :=
  let neg := bool_decide (head s = Some x2d) in
  let s := if neg then tail s else s in
  let '(dscale, s) := match index_byte x2e s with
                      | Some dot => (wrap_s 16 (Z.of_nat (length s) - Z.of_nat dot - 1), take dot s ++ drop (S dot) s)
                      | None => (0, s)
                      end in
  v ← SetString s; Some (if neg then - v else v, dscale).

(** Base-10000 digits, least significant first; every step divides, so the
    binary logarithm bounds the loop. *)
Fixpoint groups_lsf (fuel : nat) (n : Z) : list Z :=
  match fuel with
  | O => []
  | S fuel' => if bool_decide (0 < n) then n mod 10000 :: groups_lsf fuel' (n / 10000) else []
  end.
Definition groups (n : Z) : list Z := reverse (groups_lsf (S (Z.to_nat (Z.log2 n))) n).

Fixpoint drop_leading_zeros (l : list Z) : list Z :=
  match l with
  | d :: l' => if bool_decide (d = 0) then drop_leading_zeros l' else l
  | [] => []
  end.
Definition drop_trailing (l : list Z) : list Z := reverse (drop_leading_zeros (reverse l)).

Definition numeric_bytes (nd weight sign dscale : Z) (ds : list Z) : list byte :=
  put 2 (wrap_u 16 nd) ++ put 2 (wrap_u 16 weight) ++ put 2 (wrap_u 16 sign) ++ put 2 (wrap_u 16 dscale)
  ++ (ds ≫= λ d, put 2 (wrap_u 16 d)).

(** The digit loop and the header, from the unscaled value. The buffer's size is
    computed from the digit count as an int16. *)
Definition numeric_core (val dscale : Z) : encoded :=
  let sign := if bool_decide (val < 0) then 0x4000 else 0 in
  let val := Z.abs val in
  if bool_decide (val = 0) then Ret (Some (numeric_bytes 0 0 0 dscale [])) else
  let fracGroups := Z.quot (dscale + 3) 4 in
  let padding := fracGroups * 4 - dscale in
  let val := if bool_decide (0 < padding) then val * 10 ^ padding else val in
  let allDigits := groups val in
  let intGroups := Z.of_nat (length allDigits) - fracGroups in
  let allDigits := if bool_decide (intGroups < 0) then replicate (Z.to_nat (- intGroups)) 0 ++ allDigits else allDigits in
  let intGroups := if bool_decide (intGroups < 0) then 0 else intGroups in
  let kept := drop_trailing allDigits in
  let ds := drop_leading_zeros kept in
  let weight := wrap_s 16 (wrap_s 16 (intGroups - 1) - (Z.of_nat (length kept) - Z.of_nat (length ds))) in
  let nd := wrap_s 16 (Z.of_nat (length ds)) in
  if bool_decide (nd < 0) then Panic MakeSliceLenOutOfRange
  else if bool_decide (nd < Z.of_nat (length ds)) then Panic SliceBoundsOutOfRange
  else Ret (Some (numeric_bytes nd weight sign dscale ds)).

Definition encodeNumeric (v : value) : encoded :=
  match normalizeDriverValue v with
  | VDecimal d => numeric_core (Value d) (wrap_s 16 (Scale d))
  | VBigInt z => numeric_core z 0
  | VString s =>
      match parse_decimal (bytes s) with
      | Some (val, dscale) => numeric_core val dscale
      | None => Ret (Some (encodeText v))
      end
  | _ => Ret (Some (encodeText v))
  end.

Definition encodeJSON (v : value) : list byte := default (encodeText v) (json_Marshal v).

(** * Dispatch *)

(** The cases of encodeBinary that are not arrays. *)
Definition encode_scalar (v : value) (oid : Z) : encoded :=
  if bool_decide (oid = OidBool) then Ret (encodeBool v)
  else if bool_decide (oid = OidInt2) then Ret (encodeInt2 v)
  else if bool_decide (oid = OidInt4 ∨ oid = OidOid) then Ret (encodeInt4 v)
  else if bool_decide (oid = OidInt8) then Ret (encodeInt8 v)
  else if bool_decide (oid = OidFloat4) then Ret (encodeFloat4 v)
  else if bool_decide (oid = OidFloat8) then Ret (encodeFloat8 v)
  else if bool_decide (oid = OidNumeric) then encodeNumeric v
  else if bool_decide (oid = OidDate) then Ret (encodeDate v)
  else if bool_decide (oid = OidTimestamp ∨ oid = OidTimestamptz) then Ret (encodeTimestamp v)
  else if bool_decide (oid = OidTime) then Ret (encodeTime v)
  else if bool_decide (oid = OidInterval) then Ret (encodeInterval v)
  else if bool_decide (oid = OidUUID) then Ret (encodeUUID v)
  else if bool_decide (oid = OidBytea) then Ret (encodeBytea v)
  else if bool_decide (oid = OidJSON ∨ oid = OidJSONB) then Ret (Some (encodeJSON v))
  else Ret (Some (encodeText v)).

Definition is_nil (v : value) : bool := match v with VNil => true | _ => false end.

(** A length-prefixed field, -1 standing for NULL; lengths are written as int32. *)
Definition field (data : option (list byte)) : list byte :=
  match data with
  | None => put 4 (wrap_u 32 (-1))
  | Some bs => put 4 (wrap_u 32 (wrap_s 32 (Z.of_nat (length bs)))) ++ bs
  end.

Definition array_header (elementOID : Z) (slice : list value) : list byte :=
  put 4 1 ++ put 4 (if existsb is_nil slice then 1 else 0) ++ put 4 (wrap_u 32 elementOID)
  ++ put 4 (wrap_u 32 (wrap_s 32 (Z.of_nat (length slice)))) ++ put 4 1.

(** No element OID is an array OID: an element is encoded by [encode_scalar]. *)
Fixpoint encode_elements (elementOID : Z) (slice : list value) : outcome Empty_set (list byte) :=
  match slice with
  | [] => Ret []
  | x :: slice' =>
      let? data := (if is_nil x then Ret None else encode_scalar x elementOID) in
      let? rest := encode_elements elementOID slice' in
      Ret (field data ++ rest)
  end.

Definition encodeArray (v : value) (elementOID : Z) : encoded :=
  match v with
  | VList slice =>
      let? body := encode_elements elementOID slice in
      Ret (Some (array_header elementOID slice ++ body))
  | _ => Ret None
  end.

Definition encodeBinary (v : value) (oid : Z) : encoded :=
  if is_nil v then Ret None else
  match lookup_oid oid arrayElementOIDs with
  | Some elemOID => encodeArray v elemOID
  | None => encode_scalar v oid
  end.
End encoders.

(** * Decoders *)

Inductive decode_error :=
  | Insufficient (what : string) (got need : Z)
  | InvalidUUID (got : Z).

Definition len (data : list byte) : Z := Z.of_nat (length data).

(** [binary.BigEndian] at an offset, after the length has been checked. *)
Definition u_at (n k : nat) (data : list byte) : Z := be_val (take n (drop k data)).

Definition need (what : string) (n : Z) (data : list byte) : outcome decode_error () :=
  if bool_decide (len data < n) then Err (Insufficient what (len data) n) else Ret ().

Definition decodeBool (data : list byte) : outcome decode_error value :=
  let? _ := need "bool" 1 data in Ret (VBool (negb (bool_decide (head data = Some x00)))).
Definition decodeInt2 (data : list byte) : outcome decode_error value :=
  let? _ := need "int2" 2 data in Ret (VInt KInt16 (wrap_s 16 (u_at 2 0 data))).
Definition decodeInt4 (data : list byte) : outcome decode_error value :=
  let? _ := need "int4" 4 data in Ret (VInt KInt32 (wrap_s 32 (u_at 4 0 data))).
Definition decodeInt8 (data : list byte) : outcome decode_error value :=
  let? _ := need "int8" 8 data in Ret (VInt KInt64 (wrap_s 64 (u_at 8 0 data))).
Definition decodeFloat4 (data : list byte) : outcome decode_error value :=
  let? _ := need "float4" 4 data in Ret (VFloat32 (u_at 4 0 data)).
Definition decodeFloat8 (data : list byte) : outcome decode_error value :=
  let? _ := need "float8" 8 data in Ret (VFloat64 (u_at 8 0 data)).

Definition pgEpoch : Time := {| t_sec := 946684800; t_nsec := 0 |}.
Definition decodeDate (data : list byte) : outcome decode_error value :=
  let? _ := need "date" 4 data in Ret (VTime (AddDays pgEpoch (wrap_s 32 (u_at 4 0 data)))).

Definition decodeTimestamp (data : list byte) : outcome decode_error value :=
  let? _ := need "timestamp" 8 data in
  let micros := wrap_s 64 (u_at 8 0 data) in
  let secs := Z.quot micros 1000000 in
  let remain := Z.rem micros 1000000 in
  let '(secs, remain) := if bool_decide (remain < 0) then (secs - 1, remain + 1000000) else (secs, remain) in
  Ret (VTime {| t_sec := 946684800 + secs; t_nsec := remain * 1000 |}).

Definition clock_text (micros : Z) : list byte :=
  let hours := Z.quot micros 3600000000 in let micros := Z.rem micros 3600000000 in
  let minutes := Z.quot micros 60000000 in let micros := Z.rem micros 60000000 in
  let seconds := Z.quot micros 1000000 in let micros := Z.rem micros 1000000 in
  fmt_0d 2 hours ++ [x3a] ++ fmt_0d 2 minutes ++ [x3a] ++ fmt_0d 2 seconds
  ++ (if bool_decide (0 < micros) then [x2e] ++ fmt_0d 6 micros else []).
Definition decodeTime (data : list byte) : outcome decode_error value :=
  let? _ := need "time" 8 data in Ret (VString (str (clock_text (wrap_s 64 (u_at 8 0 data))))).

Definition interval_text (micros days months : Z) : list byte :=
  let years := Z.quot months 12 in
  let remMonths := Z.rem months 12 in
  let parts :=
    (if bool_decide (years = 0) then [] else [bytes (fmt_d years) ++ bytes " year"])
    ++ (if bool_decide (remMonths = 0) then [] else [bytes (fmt_d remMonths) ++ bytes " month"])
    ++ (if bool_decide (days = 0) then [] else [bytes (fmt_d days) ++ bytes " day"]) in
  join [x20] (if bool_decide (micros ≠ 0 ∨ parts = []) then parts ++ [interval_clock micros] else parts).
Definition decodeInterval (data : list byte) : outcome decode_error value :=
  let? _ := need "interval" 16 data in
  Ret (VString (str (interval_text (wrap_s 64 (u_at 8 0 data)) (wrap_s 32 (u_at 4 8 data)) (wrap_s 32 (u_at 4 12 data))))).

Definition decodeUUID (data : list byte) : outcome decode_error value :=
  if bool_decide (length data ≠ 16%nat) then Err (InvalidUUID (len data)) else
  let s := hex_EncodeToString data in
  let part i j := take (j - i) (drop i s) in
  Ret (VString (str (join [x2d] [part 0 8; part 8 12; part 12 16; part 16 20; part 20 32]%nat))).

Fixpoint read_u16s (n : nat) (data : list byte) : list Z :=
  match n with
  | O => []
  | S n' => wrap_s 16 (be_val (take 2 data)) :: read_u16s n' (drop 2 data)
  end.

(** The value of base-10000 digits, most significant first. *)
Definition gval (ds : list Z) : Z := fold_left (λ v d, v * 10000 + d) ds 0.

(** A signed integer with [dscale] implied decimal places. *)
Definition fixed_point (val : Z) (dscale : nat) : list byte :=
  match dscale with
  | O => bytes (fmt_d val)
  | _ => let s := zpad (S dscale) (digits (Z.abs val)) in
         let cut := (length s - dscale)%nat in
         (if bool_decide (val < 0) then [x2d] else []) ++ take cut s ++ [x2e] ++ drop cut s
  end.

Definition decodeNumeric (data : list byte) : outcome decode_error value :=
  let? _ := need "numeric" 8 data in
  let ndigits := u_at 2 0 data in
  let weight := wrap_s 16 (u_at 2 2 data) in
  let sign := u_at 2 4 data in
  let dscale := u_at 2 6 data in
  let? _ := need "numeric digits" (8 + 2 * ndigits) data in
  if bool_decide (sign = 0xC000) then Ret (VString "NaN") else
  let val := gval (read_u16s (Z.to_nat ndigits) (drop 8 data)) in
  let exp := 4 * (weight - ndigits + 1) in
  let shift := dscale + exp in
  let val := if bool_decide (0 < shift) then val * 10 ^ shift
             else if bool_decide (shift < 0) then val / 10 ^ (- shift) else val in
  let val := if bool_decide (sign = 0x4000) then - val else val in
  Ret (VString (str (fixed_point val (Z.to_nat dscale)))).

(** A nil slice is NULL. *)
Definition decodeBinary (data : option (list byte)) (oid : Z) : outcome decode_error value :=
  match data with
  | None => Ret VNil
  | Some data =>
      if bool_decide (oid = OidBool) then decodeBool data
      else if bool_decide (oid = OidInt2) then decodeInt2 data
      else if bool_decide (oid = OidInt4) then decodeInt4 data
      else if bool_decide (oid = OidInt8) then decodeInt8 data
      else if bool_decide (oid = OidFloat4) then decodeFloat4 data
      else if bool_decide (oid = OidFloat8) then decodeFloat8 data
      else if bool_decide (oid = OidNumeric) then decodeNumeric data
      else if bool_decide (oid = OidDate) then decodeDate data
      else if bool_decide (oid = OidTimestamp ∨ oid = OidTimestamptz) then decodeTimestamp data
      else if bool_decide (oid = OidTime) then decodeTime data
      else if bool_decide (oid = OidInterval) then decodeInterval data
      else if bool_decide (oid = OidUUID) then decodeUUID data
      else if bool_decide (oid = OidBytea) then Ret (VBytes (Some data))
      else Ret (VString (str data))
  end.

(** * Reading what was put *)

Lemma u_at_put n k pre z rest : length pre = k →
  u_at n k (pre ++ put n z ++ rest) = z mod 256 ^ Z.of_nat n.
Proof.
  intros <-. unfold u_at, put. rewrite drop_app_length, take_app_length' by (by rewrite be_bytes_length).
  apply be_val_bytes.
Qed.

Lemma u_at_put0 n z rest : u_at n 0 (put n z ++ rest) = z mod 256 ^ Z.of_nat n.
Proof. by apply (u_at_put n 0 []). Qed.

Lemma u_at_put_only n z : u_at n 0 (put n z) = z mod 256 ^ Z.of_nat n.
Proof. rewrite <- (app_nil_r (put n z)). apply u_at_put0. Qed.

Lemma pow256 n : 256 ^ Z.of_nat n = 2 ^ (8 * Z.of_nat n).
Proof. change 256 with (2 ^ 8). rewrite <- Z.pow_mul_r; lia. Qed.

(** A signed value written through its unsigned image and read as signed. *)
Lemma signed_put n w z : w = 8 * Z.of_nat n → 0 < w → in_s w z →
  wrap_s w (wrap_u w z mod 256 ^ Z.of_nat n) = z.
Proof.
  intros -> Hw Hz. rewrite pow256, Z.mod_small by (apply wrap_u_range; lia). by apply wrap_s_wrap_u.
Qed.

Lemma need_ok what n data : n ≤ len data → need what n data = Ret ().
Proof. intros H. unfold need. by rewrite bool_decide_eq_false_2 by lia. Qed.
Lemma len_put n z : len (put n z) = Z.of_nat n.
Proof. unfold len, put. by rewrite be_bytes_length. Qed.
Lemma len_app a b : len (a ++ b) = len a + len b.
Proof. unfold len. rewrite length_app. lia. Qed.

Lemma decodeInt2_put z : in_s 16 z → decodeInt2 (put 2 (wrap_u 16 (wrap_s 16 z))) = Ret (VInt KInt16 z).
Proof.
  intros Hz. unfold decodeInt2. rewrite need_ok by by rewrite len_put. cbn [outcome_bind].
  rewrite u_at_put_only, (wrap_s_small _ z) by (lia || done). by rewrite signed_put.
Qed.
Lemma decodeInt4_put z : in_s 32 z → decodeInt4 (put 4 (wrap_u 32 (wrap_s 32 z))) = Ret (VInt KInt32 z).
Proof.
  intros Hz. unfold decodeInt4. rewrite need_ok by by rewrite len_put. cbn [outcome_bind].
  rewrite u_at_put_only, (wrap_s_small _ z) by (lia || done). by rewrite signed_put.
Qed.
Lemma decodeInt8_put z : in_s 64 z → decodeInt8 (put 8 (wrap_u 64 (wrap_s 64 z))) = Ret (VInt KInt64 z).
Proof.
  intros Hz. unfold decodeInt8. rewrite need_ok by by rewrite len_put. cbn [outcome_bind].
  rewrite u_at_put_only, (wrap_s_small _ z) by (lia || done). by rewrite signed_put.
Qed.

Lemma decodeFloat4_put f : in_u 32 f → decodeFloat4 (put 4 f) = Ret (VFloat32 f).
Proof.
  intros Hf. unfold decodeFloat4. rewrite need_ok by by rewrite len_put. cbn [outcome_bind].
  rewrite u_at_put_only. do 2 f_equal. by apply (wrap_u_small 32).
Qed.
Lemma decodeFloat8_put f : in_u 64 f → decodeFloat8 (put 8 f) = Ret (VFloat64 f).
Proof.
  intros Hf. unfold decodeFloat8. rewrite need_ok by by rewrite len_put. cbn [outcome_bind].
  rewrite u_at_put_only. do 2 f_equal. by apply (wrap_u_small 64).
Qed.

(** * Base-10000 digits *)

Lemma gval_acc ds : ∀ v, fold_left (λ v d, v * 10000 + d) ds v = v * 10000 ^ Z.of_nat (length ds) + gval ds.
Proof.
  unfold gval. induction ds as [|d ds IH]; intros v; [cbn; lia|].
  cbn [fold_left length]. rewrite IH, (IH (0 * 10000 + d)), Nat2Z.inj_succ, Z.pow_succ_r by lia. lia.
Qed.
Lemma gval_app a b : gval (a ++ b) = gval a * 10000 ^ Z.of_nat (length b) + gval b.
Proof. unfold gval at 1. rewrite fold_left_app, gval_acc. done. Qed.
Lemma gval_zeros n : gval (replicate n 0) = 0.
Proof. unfold gval. induction n; [done|]. cbn [replicate fold_left]. exact IHn. Qed.

Lemma groups_lsf_spec fuel : ∀ n, 0 ≤ n < 2 ^ Z.of_nat fuel →
  gval (reverse (groups_lsf fuel n)) = n ∧ Forall (λ d, 0 ≤ d < 10000) (groups_lsf fuel n).
Proof.
  induction fuel as [|fuel IH]; intros n Hn.
  - cbn in *. replace n with 0 by lia. split; [done|constructor].
  - cbn [groups_lsf]. case_bool_decide; [|replace n with 0 by lia; split; [done|constructor]].
    destruct (IH (n / 10000)) as [Hv Hd].
    { rewrite Nat2Z.inj_succ, Z.pow_succ_r in Hn by lia. Z.to_euclidean_division_equations. lia. }
    split.
    + rewrite reverse_cons, gval_app, Hv. change (gval [n mod 10000]) with (0 * 10000 + n mod 10000).
      cbn [length]. change (10000 ^ Z.of_nat 1) with 10000. pose proof (Z.div_mod n 10000). lia.
    + constructor; [apply Z.mod_pos_bound; lia|done].
Qed.

Lemma groups_spec n : 0 ≤ n → gval (groups n) = n ∧ Forall (λ d, 0 ≤ d < 10000) (groups n).
Proof.
  intros Hn. destruct (groups_lsf_spec (S (Z.to_nat (Z.log2 n))) n) as [Hv Hd].
  { split; [done|]. by apply dec_digits_fuel. }
  split; [done|]. unfold groups. by apply Forall_reverse.
Qed.

Lemma groups_lsf_length fuel : ∀ n k, 0 ≤ n < 10000 ^ Z.of_nat k → (length (groups_lsf fuel n) ≤ k)%nat.
Proof.
  induction fuel as [|fuel IH]; intros n k Hn; [cbn; lia|]. cbn [groups_lsf]. case_bool_decide; [|cbn; lia].
  destruct k as [|k]; [cbn in Hn; lia|]. cbn [length]. apply le_n_S, IH.
  rewrite Nat2Z.inj_succ, Z.pow_succ_r in Hn by lia. Z.to_euclidean_division_equations. lia.
Qed.
Lemma groups_length n k : 0 ≤ n < 10000 ^ Z.of_nat k → (length (groups n) ≤ k)%nat.
Proof. intros Hn. unfold groups. rewrite length_reverse. by apply groups_lsf_length. Qed.

Lemma drop_leading_zeros_spec l : ∃ n, l = replicate n 0 ++ drop_leading_zeros l.
Proof.
  induction l as [|d l [n IH]]; [by exists 0%nat|]. cbn. case_bool_decide as Hd; [|by exists 0%nat].
  exists (S n). cbn. by rewrite Hd, <- IH.
Qed.
Lemma drop_trailing_spec l : ∃ n, l = drop_trailing l ++ replicate n 0.
Proof.
  destruct (drop_leading_zeros_spec (reverse l)) as [n Hn]. exists n. unfold drop_trailing.
  apply (inj reverse). rewrite reverse_app, reverse_involutive, reverse_replicate. done.
Qed.

Lemma read_u16s_put ds rest : Forall (λ d, 0 ≤ d < 10000) ds →
  read_u16s (length ds) ((ds ≫= λ d, put 2 (wrap_u 16 d)) ++ rest) = ds.
Proof.
  induction 1 as [|d ds Hd _ IH]; [done|]. rewrite bind_cons, <- app_assoc. cbn [length read_u16s].
  unfold put at 1 3. rewrite take_app_length', drop_app_length' by (by rewrite be_bytes_length).
  rewrite be_val_bytes, IH. f_equal. apply (signed_put 2 16); [done|lia|]. split; cbn; lia.
Qed.
Lemma length_u16s ds : length (ds ≫= λ d, put 2 (wrap_u 16 d)) = (2 * length ds)%nat.
Proof. induction ds as [|d ds IH]; [done|]. rewrite bind_cons, length_app, IH. cbn. lia. Qed.

(** * Numerics *)

(** More decimal digits than any column type holds. *)
Definition numeric_fits (v : Z) : Prop := Z.abs v < 10000 ^ 32765.

Definition frac_groups (dscale : Z) : Z := Z.quot (dscale + 3) 4.

Lemma frac_groups_spec dscale : 0 ≤ dscale < 2 ^ 15 →
  0 ≤ frac_groups dscale ≤ 8192 ∧ 0 ≤ frac_groups dscale * 4 - dscale ≤ 3.
Proof. unfold frac_groups. intros H. change (2 ^ 15) with 32768 in H. Z.to_euclidean_division_equations. lia. Qed.

(** Padding the groups on the left to at least the fractional ones. *)
Definition padded (fg : Z) (g : list Z) : list Z :=
  let ig := Z.of_nat (length g) - fg in
  if bool_decide (ig < 0) then replicate (Z.to_nat (- ig)) 0 ++ g else g.

Lemma padded_spec fg g : 0 ≤ fg → gval (padded fg g) = gval g
  ∧ Z.of_nat (length (padded fg g)) = Z.max (Z.of_nat (length g)) fg
  ∧ (Forall (λ d, 0 ≤ d < 10000) g → Forall (λ d, 0 ≤ d < 10000) (padded fg g)).
Proof.
  intros Hfg. unfold padded. case_bool_decide as Hig; [|split_and!; [done|lia|done]].
  rewrite gval_app, gval_zeros, length_app, length_replicate. split_and!; [lia|lia|].
  intros Hg. apply Forall_app. split; [|done]. apply Forall_replicate. lia.
Qed.

Lemma strip_zeros_spec l : ∃ z t, let kept := drop_trailing l in let ds := drop_leading_zeros kept in
  gval ds * 10000 ^ Z.of_nat t = gval l ∧ (length kept = z + length ds)%nat ∧ (length l = length kept + t)%nat
  ∧ (Forall (λ d, 0 ≤ d < 10000) l → Forall (λ d, 0 ≤ d < 10000) ds).
Proof.
  destruct (drop_trailing_spec l) as [t Ht]. destruct (drop_leading_zeros_spec (drop_trailing l)) as [z Hz].
  exists z, t. cbn zeta. split_and!.
  - rewrite Ht at 2. rewrite gval_app, gval_zeros, length_replicate, Hz, gval_app, gval_zeros.
    rewrite <- Hz. lia.
  - rewrite Hz at 1. by rewrite length_app, length_replicate.
  - rewrite Ht at 1. by rewrite length_app, length_replicate.
  - intros Hl. rewrite Ht in Hl. apply Forall_app in Hl as [Hl _]. rewrite Hz in Hl.
    by apply Forall_app in Hl as [_ Hl].
Qed.

Lemma groups_length_Z n k : 0 ≤ k → 0 ≤ n < 10000 ^ k → Z.of_nat (length (groups n)) ≤ k.
Proof. intros Hk Hn. rewrite <- (Z2Nat.id k Hk) in Hn. apply groups_length in Hn. lia. Qed.

Lemma numeric_fits_groups v p : numeric_fits v → 0 ≤ p ≤ 3 →
  Z.of_nat (length (groups (Z.abs v * 10 ^ p))) ≤ 32766.
Proof.
  unfold numeric_fits. pose proof (Z.pow_succ_r 10000 32765 ltac:(done)) as HM.
  change (Z.succ 32765) with 32766 in HM. intros Hv Hp. apply groups_length_Z; [done|]. rewrite HM. clear HM.
  generalize dependent (10000 ^ 32765). intros M HM.
  assert (0 < 10 ^ p ≤ 1000) as H10.
  { split; [lia|]. change 1000 with (10 ^ 3). apply Z.pow_le_mono_r; lia. }
  nia.
Qed.

(** The digits and the weight the encoder writes for a non-zero value. *)
Lemma numeric_core_shape val dscale :
  0 ≤ dscale < 2 ^ 15 → val ≠ 0 → numeric_fits val →
  ∃ ds t weight,
    numeric_core val dscale
    = Ret (Some (numeric_bytes (Z.of_nat (length ds)) weight (if bool_decide (val < 0) then 0x4000 else 0) dscale ds))
    ∧ Forall (λ d, 0 ≤ d < 10000) ds ∧ Z.of_nat (length ds) ≤ 32766 ∧ in_s 16 weight
    ∧ weight = Z.of_nat t - frac_groups dscale + Z.of_nat (length ds) - 1
    ∧ gval ds * 10000 ^ Z.of_nat t = Z.abs val * 10 ^ (frac_groups dscale * 4 - dscale).
Proof.
  intros Hs Hne Hfit. destruct (frac_groups_spec dscale Hs) as [Hfg Hpad].
  set (fg := frac_groups dscale) in *. set (p := fg * 4 - dscale) in *.
  pose proof (numeric_fits_groups val p Hfit Hpad) as Hlen.
  unfold numeric_core. rewrite (bool_decide_eq_false_2 (Z.abs val = 0)) by lia. fold (frac_groups dscale). fold fg. fold p.
  assert ((if bool_decide (0 < p) then Z.abs val * 10 ^ p else Z.abs val) = Z.abs val * 10 ^ p) as ->.
  { case_bool_decide; [done|]. replace p with 0 by lia. lia. }
  destruct (groups_spec (Z.abs val * 10 ^ p)) as [Hg Hd]; [apply Z.mul_nonneg_nonneg; lia|].
  set (g := groups _) in *. fold (padded fg g).
  destruct (padded_spec fg g) as (Hpv & Hpl & Hpd); [lia|]. specialize (Hpd Hd).
  destruct (strip_zeros_spec (padded fg g)) as (z & t & Hgv & Hk & Hl & Hf). cbn zeta in Hgv, Hk, Hl, Hf.
  set (kept := drop_trailing (padded fg g)) in *. set (ds := drop_leading_zeros kept) in *.
  assert ((if bool_decide (Z.of_nat (length g) - fg < 0) then 0 else Z.of_nat (length g) - fg)
          = Z.of_nat (length (padded fg g)) - fg) as -> by (case_bool_decide; lia).
  assert (Z.of_nat (length (padded fg g)) ≤ 32766) as Hle by lia.
  assert (∀ x, -32768 ≤ x < 32768 → wrap_s 16 x = x) as Hw by (intros; by apply wrap_s_small).
  clearbody kept ds g.
  rewrite (Hw (Z.of_nat (length ds))), (Hw (Z.of_nat (length (padded fg g)) - fg - 1)), Hw by (clear Hgv Hg; lia).
  rewrite bool_decide_eq_false_2 by lia. rewrite bool_decide_eq_false_2 by lia.
  eexists ds, t, _. clear Hw.
  split_and!; [done|by apply Hf|clear Hgv Hg; lia|clear Hgv Hg; unfold in_s; change (2 ^ (16 - 1)) with 32768; lia|clear Hgv Hg; lia|congruence].
Qed.

Lemma fixed_point_String v scale : 0 ≤ scale →
  fixed_point v (Z.to_nat scale) = DecimalValue_String (Some v) scale.
Proof.
  intros Hs. unfold DecimalValue_String, fixed_point. destruct (bool_decide_reflect (scale ≤ 0)); [by replace scale with 0 by lia|].
  destruct (Z.to_nat scale) as [|k] eqn:Hk; [lia|]. rewrite <- Hk.
  assert (zpad (S (Z.to_nat scale)) (digits (Z.abs v))
    = (if bool_decide (0 < scale + 1 - Z.of_nat (length (digits (Z.abs v))))
       then zeros (scale + 1 - Z.of_nat (length (digits (Z.abs v)))) ++ digits (Z.abs v) else digits (Z.abs v))) as <-;
    [|done].
  unfold zpad, zeros. case_bool_decide.
  - f_equal. f_equal. lia.
  - replace (S (Z.to_nat scale) - length (digits (Z.abs v)))%nat with 0%nat by lia. done.
Qed.

(** Undoing the alignment to groups. *)
Lemma shifted_value g n t p : 0 ≤ t → 0 ≤ p → g * 10000 ^ t = n * 10 ^ p →
  (if bool_decide (0 < 4 * t - p) then g * 10 ^ (4 * t - p)
   else if bool_decide (4 * t - p < 0) then g / 10 ^ (- (4 * t - p)) else g) = n.
Proof.
  intros Ht Hp Heq. change 10000 with (10 ^ 4) in Heq. rewrite <- Z.pow_mul_r in Heq by lia.
  assert (∀ k, 0 ≤ k → 0 < 10 ^ k) as H10 by (intros; lia).
  repeat case_bool_decide.
  - apply (Z.mul_reg_r _ _ (10 ^ p)); [specialize (H10 p); lia|].
    rewrite <- Z.mul_assoc, <- Z.pow_add_r by lia. rewrite <- Heq. do 2 f_equal. lia.
  - rewrite <- (Z.div_mul n (10 ^ (- (4 * t - p)))) by (specialize (H10 (- (4 * t - p))); lia). f_equal.
    apply (Z.mul_reg_r _ _ (10 ^ (4 * t))); [specialize (H10 (4 * t)); lia|].
    rewrite <- Z.mul_assoc, <- Z.pow_add_r, Heq by lia. do 2 f_equal. lia.
  - replace (4 * t) with p in Heq by lia. apply (Z.mul_reg_r _ _ (10 ^ p)); [specialize (H10 p); lia|done].
Qed.

(** The fields of the numeric layout. *)
Lemma numeric_bytes_fields nd weight sign dscale ds :
  let data := numeric_bytes nd weight sign dscale ds in
  len data = 8 + 2 * Z.of_nat (length ds)
  ∧ u_at 2 0 data = wrap_u 16 nd ∧ u_at 2 2 data = wrap_u 16 weight
  ∧ u_at 2 4 data = wrap_u 16 sign ∧ u_at 2 6 data = wrap_u 16 dscale
  ∧ drop 8 data = ds ≫= λ d, put 2 (wrap_u 16 d).
Proof.
  assert (∀ z, wrap_u 16 z mod 256 ^ Z.of_nat 2 = wrap_u 16 z) as Hm.
  { intros z. change (256 ^ Z.of_nat 2) with (2 ^ 16). apply Z.mod_small. by apply wrap_u_range. }
  intros data. unfold data, numeric_bytes. split_and!.
  - rewrite !len_app, !len_put. unfold len. rewrite length_u16s. lia.
  - by rewrite u_at_put0.
  - by rewrite (u_at_put 2 2) by (by rewrite be_bytes_length).
  - rewrite app_assoc. by rewrite (u_at_put 2 4) by (by rewrite length_app, !be_bytes_length).
  - rewrite 2!app_assoc. by rewrite (u_at_put 2 6) by (by rewrite !length_app, !be_bytes_length).
  - rewrite 3!app_assoc. by rewrite drop_app_length' by (by rewrite !length_app, !be_bytes_length).
Qed.

Lemma decodeNumeric_bytes weight sign dscale ds :
  Forall (λ d, 0 ≤ d < 10000) ds → Z.of_nat (length ds) ≤ 32766 → in_s 16 weight → 0 ≤ dscale < 2 ^ 15 →
  sign = 0 ∨ sign = 0x4000 →
  decodeNumeric (numeric_bytes (Z.of_nat (length ds)) weight sign dscale ds)
  = let shift := dscale + 4 * (weight - Z.of_nat (length ds) + 1) in
    let val := if bool_decide (0 < shift) then gval ds * 10 ^ shift
               else if bool_decide (shift < 0) then gval ds / 10 ^ (- shift) else gval ds in
    Ret (VString (str (fixed_point (if bool_decide (sign = 0x4000) then - val else val) (Z.to_nat dscale)))).
Proof.
  intros Hd Hl Hw Hs Hsign. change (2 ^ 15) with 32768 in Hs.
  destruct (numeric_bytes_fields (Z.of_nat (length ds)) weight sign dscale ds) as (Hlen & H0 & H2 & H4 & H6 & H8).
  assert (∀ z, 0 ≤ z < 65536 → wrap_u 16 z = z) as Hu by (intros; by apply wrap_u_small).
  rewrite Hu in H0, H6 by lia. rewrite Hu in H4 by (destruct Hsign; lia).
  unfold decodeNumeric. rewrite need_ok by lia. cbn [outcome_bind]. rewrite H0, H2, H4, H6, H8.
  rewrite need_ok by lia. cbn [outcome_bind]. rewrite bool_decide_eq_false_2 by (destruct Hsign; lia).
  rewrite wrap_s_wrap_u by (done || lia). rewrite Nat2Z.id.
  rewrite <- (app_nil_r (ds ≫= _)), read_u16s_put by done. done.
Qed.

(** The numeric encoder and decoder on a decimal: the text DecimalValue.String
    prints. *)
Lemma numeric_roundtrip v scale : numeric_fits v → 0 ≤ scale < 2 ^ 15 →
  ∃ bs, numeric_core v scale = Ret (Some bs)
        ∧ decodeNumeric bs = Ret (VString (str (DecimalValue_String (Some v) scale))).
Proof.
  intros Hfit Hs. rewrite <- fixed_point_String by lia. destruct (decide (v = 0)) as [->|Hne].
  - exists (numeric_bytes 0 0 0 scale []). split; [done|].
    etrans; [apply (decodeNumeric_bytes 0 0 scale []); (done || by left)|].
    cbn zeta. do 3 f_equal. repeat case_bool_decide; done.
  - destruct (numeric_core_shape v scale Hs Hne Hfit) as (ds & t & weight & -> & Hd & Hl & Hw & Hweq & Hg).
    eexists. split; [done|]. destruct (frac_groups_spec scale Hs) as [Hfg Hp].
    rewrite decodeNumeric_bytes by (done || (case_bool_decide; tauto)). cbn zeta.
    replace (scale + 4 * (weight - Z.of_nat (length ds) + 1))
      with (4 * Z.of_nat t - (frac_groups scale * 4 - scale)) by lia.
    rewrite (shifted_value (gval ds) (Z.abs v) (Z.of_nat t) (frac_groups scale * 4 - scale)) by (lia || done).
    destruct (bool_decide_reflect (v < 0)); [rewrite bool_decide_eq_true_2 by done|rewrite bool_decide_eq_false_2 by done];
      do 4 f_equal; lia.
Qed.

(** * Dates and times *)

Lemma date_roundtrip days : in_s 32 (days - pgEpochDays) →
  decodeDate (date_bytes {| t_sec := days * 86400; t_nsec := 0 |})
  = Ret (VTime {| t_sec := days * 86400; t_nsec := 0 |}).
Proof.
  intros Hd. unfold decodeDate, date_bytes, Unix. cbn [t_sec]. rewrite Z.quot_mul by lia.
  rewrite need_ok by by rewrite len_put. cbn [outcome_bind].
  rewrite u_at_put_only, (wrap_s_small _ (days - _)) by (lia || done). rewrite signed_put by (lia || done).
  unfold AddDays, pgEpoch, pgEpochDays. cbn [t_sec t_nsec]. do 3 f_equal. lia.
Qed.

Definition micros_of (t : Time) : Z := t_sec t * 1000000 + t_nsec t / 1000.

Lemma timestamp_roundtrip t : 0 ≤ t_nsec t < 1000000000 → in_s 64 (micros_of t) → in_s 64 (micros_of t - pgEpochMicros) →
  decodeTimestamp (timestamp_bytes t) = Ret (VTime {| t_sec := t_sec t; t_nsec := t_nsec t / 1000 * 1000 |}).
Proof.
  intros Hns Hm Hr. unfold decodeTimestamp, timestamp_bytes, UnixMicro. fold (micros_of t).
  rewrite need_ok by by rewrite len_put. cbn [outcome_bind].
  rewrite u_at_put_only, (wrap_s_small _ (micros_of t)), (wrap_s_small _ (micros_of t - _)) by (lia || done).
  rewrite signed_put by (lia || done).
  unfold micros_of, pgEpochMicros, pgEpochDays in *.
  assert (0 ≤ t_nsec t / 1000 < 1000000) as Hu by (Z.to_euclidean_division_equations; lia).
  generalize dependent (t_nsec t / 1000). intros u Hm Hr Hu.
  destruct (bool_decide_reflect (Z.rem (t_sec t * 1000000 + u - 10957 * 24 * 60 * 60 * 1000000) 1000000 < 0));
    do 3 f_equal; Z.to_euclidean_division_equations; lia.
Qed.

(** Digit strings of one length are determined by their value. *)
Lemma digits_val_inj a : ∀ b, length a = length b → forallb is_digit a = true → forallb is_digit b = true →
  digits_val a = digits_val b → a = b.
Proof.
  induction a as [|x a IH]; intros [|y b]; try done. intros Hl Ha Hb Hv.
  cbn [forallb] in Ha, Hb. apply andb_true_iff in Ha as [Hx Ha]. apply andb_true_iff in Hb as [Hy Hb].
  change (x :: a) with ([x] ++ a) in Hv. change (y :: b) with ([y] ++ b) in Hv. rewrite !digits_val_app in Hv.
  injection Hl as Hl. rewrite <- Hl in Hv.
  pose proof (digits_val_range a Ha) as Ra. pose proof (digits_val_range b Hb) as Rb. rewrite <- Hl in Rb.
  change (digits_val [x]) with (0 * 10 + dval x) in Hv. change (digits_val [y]) with (0 * 10 + dval y) in Hv.
  set (M := 10 ^ Z.of_nat (length a)) in *. assert (dval x = dval y) as Hxy by nia.
  f_equal; [apply byte_val_inj; unfold dval in Hxy; lia|]. apply IH; try done. nia.
Qed.

Lemma frac_digits_zpad ns : 0 ≤ ns < 1000000000 → frac_digits 6 ns = zpad 6 (digits (ns / 1000)).
Proof.
  intros H. destruct (frac_digits_6 ns H) as (Hl & Hv & Hd).
  destruct (zpad_spec 6 (ns / 1000) ltac:(lia)) as (Hl' & Hv' & Hd').
  { change (10 ^ Z.of_nat 6) with 1000000. Z.to_euclidean_division_equations. lia. }
  apply digits_val_inj; congruence.
Qed.

Lemma fmt_0d_appendInt w z : 0 ≤ z → fmt_0d w z = appendInt z w.
Proof. intros H. unfold fmt_0d, appendInt. by rewrite bool_decide_eq_false_2 by lia. Qed.

(** The text of a time of day is the one Time.Format prints. *)
Lemma clock_text_Format t : 0 ≤ t_nsec t < 1000000000 →
  str (clock_text (Hour t * 3600000000 + Minute t * 60000000 + Second t * 1000000 + Nanosecond t / 1000))
  = Format (if bool_decide (0 < Nanosecond t / 1000) then layout_clock_us else layout_clock) t.
Proof.
  intros Hns. destruct (clock_range t) as (Hh & Hm & Hs & _). unfold clock_text, Nanosecond.
  assert (0 ≤ t_nsec t / 1000 < 1000000) as Hu by (Z.to_euclidean_division_equations; lia).
  pose proof (frac_digits_zpad (t_nsec t) Hns) as Hf. unfold Format.
  set (u := t_nsec t / 1000) in *. set (h := Hour t) in *. set (m := Minute t) in *. set (s := Second t) in *.
  assert (Z.quot (h * 3600000000 + m * 60000000 + s * 1000000 + u) 3600000000 = h) as ->
    by (Z.to_euclidean_division_equations; lia).
  assert (Z.rem (h * 3600000000 + m * 60000000 + s * 1000000 + u) 3600000000 = m * 60000000 + s * 1000000 + u) as ->
    by (Z.to_euclidean_division_equations; lia).
  assert (Z.quot (m * 60000000 + s * 1000000 + u) 60000000 = m) as -> by (Z.to_euclidean_division_equations; lia).
  assert (Z.rem (m * 60000000 + s * 1000000 + u) 60000000 = s * 1000000 + u) as ->
    by (Z.to_euclidean_division_equations; lia).
  assert (Z.quot (s * 1000000 + u) 1000000 = s) as -> by (Z.to_euclidean_division_equations; lia).
  assert (Z.rem (s * 1000000 + u) 1000000 = u) as -> by (Z.to_euclidean_division_equations; lia).
  rewrite !fmt_0d_appendInt by lia. f_equal. case_bool_decide; unfold layout_clock_us, layout_clock;
    cbn [mbind list_bind format_chunk app]; unfold Nanosecond; fold u; fold h; fold m; fold s; norm_app; [|done].
  rewrite Hf. unfold appendInt at 4. by rewrite bool_decide_eq_false_2 by lia.
Qed.

Lemma time_roundtrip t : 0 ≤ t_nsec t < 1000000000 →
  decodeTime (time_bytes t)
  = Ret (VString (Format (if bool_decide (0 < Nanosecond t / 1000) then layout_clock_us else layout_clock) t)).
Proof.
  intros Hns. destruct (clock_range t) as (Hh & Hm & Hs & _). unfold decodeTime, time_bytes.
  rewrite need_ok by by rewrite len_put. cbn [outcome_bind]. rewrite u_at_put_only, signed_put; [|done|done|].
  - by rewrite clock_text_Format.
  - unfold in_s, Nanosecond. change (2 ^ (64 - 1)) with 9223372036854775808.
    assert (0 ≤ t_nsec t / 1000 < 1000000) by (Z.to_euclidean_division_equations; lia). lia.
Qed.

Lemma interval_roundtrip iv : in_s 64 (Micros iv) → in_s 32 (Days iv) → in_s 32 (Months iv) →
  ∃ bs, encodeInterval (VInterval iv) = Some bs
    ∧ decodeInterval bs = Ret (VString (str (interval_text (Micros iv) (Days iv) (Months iv)))).
Proof.
  intros H1 H2 H3. eexists. split; [done|]. unfold decodeInterval.
  rewrite need_ok by (rewrite !len_app, !len_put; done). cbn [outcome_bind].
  rewrite u_at_put0, (u_at_put 4 8) by (by rewrite be_bytes_length).
  rewrite app_assoc, <- (app_nil_r (put 4 (wrap_u 32 (Months iv)))).
  rewrite (u_at_put 4 12) by (by rewrite length_app, !be_bytes_length). by rewrite !signed_put.
Qed.

(** * UUIDs *)

Lemma hex_digit_not_dash n : 0 ≤ n < 16 → hex_digit n ≠ x2d.
Proof.
  intros H E. apply (f_equal from_hex) in E. rewrite hex_digit_from in E by done. by vm_compute in E.
Qed.
Lemma hex_no_dash l : Forall (λ b, b ≠ x2d) (hex_EncodeToString l).
Proof.
  induction l as [|b l IH]; [constructor|]. pose proof (byte_val_range b).
  change (hex_EncodeToString (b :: l)) with (hex_byte b ++ hex_EncodeToString l). unfold hex_byte. cbn [app].
  repeat (constructor; [apply hex_digit_not_dash; Z.to_euclidean_division_equations; lia|]). done.
Qed.

Lemma remove_byte_app b x y : remove_byte b (x ++ y) = remove_byte b x ++ remove_byte b y.
Proof. apply filter_app. Qed.
Lemma remove_byte_none b l : Forall (λ c, c ≠ b) l → remove_byte b l = l.
Proof. apply filter_all. Qed.

Definition uuid_text (data : list byte) : list byte :=
  let s := hex_EncodeToString data in
  let part i j := take (j - i) (drop i s) in
  join [x2d] [part 0 8; part 8 12; part 12 16; part 16 20; part 20 32]%nat.

(** Cutting a list in consecutive pieces. *)
Lemma take_drop_step {A} i j (l : list A) : (i ≤ j)%nat → take (j - i) (drop i l) ++ drop j l = drop i l.
Proof. intros H. rewrite <- (take_drop (j - i) (drop i l)) at 2. rewrite drop_drop. do 2 f_equal. lia. Qed.

Lemma uuid_text_hex data : length data = 16%nat → remove_byte x2d (uuid_text data) = hex_EncodeToString data.
Proof.
  intros Hl. pose proof (hex_no_dash data) as Hnd. pose proof (hex_length data) as Hs. rewrite Hl in Hs.
  unfold uuid_text. set (s := hex_EncodeToString data) in *.
  assert (∀ i j, remove_byte x2d (take (j - i) (drop i s)) = take (j - i) (drop i s)) as Hp.
  { intros i j. apply remove_byte_none. by apply Forall_take, Forall_drop. }
  cbn [join]. rewrite !remove_byte_app, !Hp. change (remove_byte x2d [x2d]) with (@nil byte). cbn [app].
  rewrite (take_ge (drop 20 s)) by (rewrite length_drop; lia).
  rewrite (take_drop_step 16 20), (take_drop_step 12 16), (take_drop_step 8 12), (take_drop_step 0 8) by lia. done.
Qed.

Lemma uuid_roundtrip data : length data = 16%nat →
  decodeUUID data = Ret (VString (str (uuid_text data))) ∧ uuid_of_string (uuid_text data) = Some data.
Proof.
  intros Hl. split.
  - unfold decodeUUID. by rewrite bool_decide_eq_false_2 by (intros H; by apply H).
  - unfold uuid_of_string. rewrite uuid_text_hex, hex_length, Hl by done.
    rewrite bool_decide_eq_false_2 by (intros H; by apply H). apply hex_roundtrip.
Qed.

(** * A value through the wire *)

Definition int_kinds_for (oid : Z) : list int_kind :=
  if bool_decide (oid = OidInt2) then [KInt; KInt8; KInt16; KInt32; KInt64; KUint8; KUint16]
  else if bool_decide (oid = OidInt4) then [KInt; KInt8; KInt16; KInt32; KInt64; KUint8; KUint16; KUint32]
  else [KInt; KInt8; KInt16; KInt32; KInt64; KUint8; KUint16; KUint32; KUint64].

(** The OIDs decodeBinary treats as text and encodeBinary prints as text. *)
Definition text_oid (oid : Z) : Prop :=
  (oid ∉ [OidBool; OidInt2; OidInt4; OidOid; OidInt8; OidFloat4; OidFloat8; OidNumeric; OidDate; OidTimestamp;
          OidTimestamptz; OidTime; OidInterval; OidUUID; OidBytea; OidJSON; OidJSONB])
  ∧ lookup_oid oid arrayElementOIDs = None.

(** [carried oid v w]: a column of type [oid] holding [v] reaches the other side
    as [w]. *)
Inductive carried : Z → value → value → Prop :=
  | carried_bool b : carried OidBool (VBool b) (VBool b)
  | carried_int2 k z : k ∈ int_kinds_for OidInt2 → in_s 16 z → carried OidInt2 (VInt k z) (VInt KInt16 z)
  | carried_int4 k z : k ∈ int_kinds_for OidInt4 → in_s 32 z → carried OidInt4 (VInt k z) (VInt KInt32 z)
  | carried_int8 k z : k ∈ int_kinds_for OidInt8 → in_s 64 z → carried OidInt8 (VInt k z) (VInt KInt64 z)
  | carried_float4 f : in_u 32 f → carried OidFloat4 (VFloat32 f) (VFloat32 f)
  | carried_float8 f : in_u 64 f → carried OidFloat8 (VFloat64 f) (VFloat64 f)
  | carried_decimal v scale : numeric_fits v → 0 ≤ scale < 2 ^ 15 →
      carried OidNumeric (VDecimal {| Value := v; Scale := scale |}) (VString (str (DecimalValue_String (Some v) scale)))
  | carried_hugeint v : numeric_fits v → carried OidNumeric (VBigInt v) (VString (fmt_d v))
  | carried_date days : in_s 32 (days - pgEpochDays) →
      carried OidDate (VTime {| t_sec := days * 86400; t_nsec := 0 |}) (VTime {| t_sec := days * 86400; t_nsec := 0 |})
  | carried_timestamp oid t : oid = OidTimestamp ∨ oid = OidTimestamptz → 0 ≤ t_nsec t < 1000000000 →
      in_s 64 (micros_of t) → in_s 64 (micros_of t - pgEpochMicros) →
      carried oid (VTime t) (VTime {| t_sec := t_sec t; t_nsec := t_nsec t / 1000 * 1000 |})
  | carried_time t : 0 ≤ t_nsec t < 1000000000 →
      carried OidTime (VTime t)
        (VString (Format (if bool_decide (0 < Nanosecond t / 1000) then layout_clock_us else layout_clock) t))
  | carried_interval iv : in_s 64 (Micros iv) → in_s 32 (Days iv) → in_s 32 (Months iv) →
      carried OidInterval (VInterval iv) (VString (str (interval_text (Micros iv) (Days iv) (Months iv))))
  | carried_uuid_bytes bs : length bs = 16%nat → carried OidUUID (VBytes (Some bs)) (VString (str (uuid_text bs)))
  | carried_uuid_text bs : length bs = 16%nat →
      carried OidUUID (VString (str (uuid_text bs))) (VString (str (uuid_text bs)))
  | carried_bytea bs : carried OidBytea (VBytes (Some bs)) (VBytes (Some bs))
  | carried_text oid s : text_oid oid → carried oid (VString s) (VString s).

Lemma DecimalValue_String_0 v : str (DecimalValue_String (Some v) 0) = fmt_d v.
Proof. unfold DecimalValue_String. cbn. apply str_bytes. Qed.

Section wire.
Context `{GoFloat} (duck_String : value → option string).

Lemma encode_text_oid oid s : text_oid oid → encodeBinary duck_String (VString s) oid = Ret (Some (bytes s))
  ∧ decodeBinary (Some (bytes s)) oid = Ret (VString s).
Proof.
  intros [Hno Ha]. rewrite !not_elem_of_cons in Hno. split.
  - unfold encodeBinary. cbn [is_nil]. rewrite Ha. unfold encode_scalar.
    repeat (rewrite bool_decide_eq_false_2 by tauto). done.
  - unfold decodeBinary. repeat (rewrite bool_decide_eq_false_2 by tauto). by rewrite str_bytes.
Qed.

Ltac int_kinds k Hk :=
  apply (bool_decide_eq_true_2 (k ∈ _)) in Hk; destruct k; try done; vm_compute in Hk; discriminate.

Lemma binary_value_roundtrip_aux oid v w : carried oid v w →
  ∃ bs, encodeBinary duck_String v oid = Ret (Some bs) ∧ decodeBinary (Some bs) oid = Ret w.
Proof.
  destruct 1 as [b|k z Hk Hz|k z Hk Hz|k z Hk Hz|f Hf|f Hf|v scale Hv Hs|v Hv|days Hd|oid t Ho Hn Hm Hr
    |t Hn|iv H1 H2 H3|bs Hl|bs Hl|bs|oid s Ho].
  - eexists. split; [done|]. by destruct b.
  - eexists. split; [int_kinds k Hk|]. by apply decodeInt2_put.
  - eexists. split; [int_kinds k Hk|]. by apply decodeInt4_put.
  - eexists. split; [int_kinds k Hk|]. by apply decodeInt8_put.
  - eexists. split; [done|]. by apply decodeFloat4_put.
  - eexists. split; [done|]. by apply decodeFloat8_put.
  - destruct (numeric_roundtrip v scale Hv Hs) as (bs & He & Hd). exists bs. split; [|done].
    rewrite <- He. change (encodeBinary _ _ _) with (numeric_core v (wrap_s 16 scale)).
    rewrite wrap_s_small; [done|done|]. unfold in_s. change (2 ^ (16 - 1)) with (2 ^ 15). lia.
  - destruct (numeric_roundtrip v 0 Hv) as (bs & He & Hd); [done|]. exists bs. split; [done|].
    rewrite <- DecimalValue_String_0. done.
  - eexists. split; [done|]. by apply date_roundtrip.
  - eexists. split; [by destruct Ho as [-> | ->]|]. destruct Ho as [-> | ->]; by apply timestamp_roundtrip.
  - eexists. split; [done|]. by apply time_roundtrip.
  - destruct (interval_roundtrip iv H1 H2 H3) as (bs & He & Hd). exists bs. split; [|done]. by rewrite <- He.
  - destruct (uuid_roundtrip bs Hl) as [Hd _]. exists bs. split; [|done].
    change (encodeBinary _ _ _) with (Ret (E := Empty_set) (encodeUUID duck_String (VBytes (Some bs)))).
    unfold encodeUUID. by rewrite bool_decide_eq_true_2.
  - destruct (uuid_roundtrip bs Hl) as [Hd He]. exists bs. split; [|done].
    change (encodeBinary _ _ _) with (Ret (E := Empty_set) (uuid_of_string (bytes (str (uuid_text bs))))).
    by rewrite bytes_str, He.
  - by exists bs.
  - exists (bytes s). by apply encode_text_oid.
Qed.

End wire.

(** A concrete choice for what the language leaves open. *)
Definition plain_floats : GoFloat := {|
  float_to_int_oob _ _ := 0; nan_to32 _ := 0x7fc00000; nan_to64 _ := 0x7ff8000000000000;
  fmt_g32 _ := "0"; fmt_g64 _ := "0"; json_f32 _ := bytes "0"; json_f64 _ := bytes "0"; json_other _ := None |}.

Lemma numeric_fits_small v : Z.abs v < 10000 → numeric_fits v.
Proof.
  intros Hv. unfold numeric_fits. apply (Z.lt_le_trans _ (10000 ^ 1)); [lia|]. apply Z.pow_le_mono_r; done.
Qed.


(** * Field widths *)

Lemma hex_decode_length n : ∀ s bs, hex_DecodeString s = Some bs → length s = (2 * n)%nat → length bs = n.
Proof.
  induction n as [|n IH]; intros s bs E Hl.
  - destruct s; [|done]. by simplify_eq/=.
  - destruct s as [|a [|b s]]; [done|cbn in Hl; lia|]. cbn in E. cbn [length] in Hl.
    destruct (from_hex a); [|done]. destruct (from_hex b); [|done]. cbn in E.
    destruct (hex_DecodeString s) as [r|] eqn:Er; [|done]. simplify_eq/=. f_equal. apply (IH s); [done|lia].
Qed.

Lemma uuid_of_string_length s bs : uuid_of_string s = Some bs → length bs = 16%nat.
Proof.
  unfold uuid_of_string. case_bool_decide as Hl; [done|]. intros E.
  apply (hex_decode_length 16 _ _ E). destruct (decide (length (remove_byte x2d s) = 32%nat)); tauto.
Qed.

(** The types mapDuckDBType knows with a fixed size. *)
Definition fixed_sizes : list (Z * Z) :=
  [(OidBool, 1); (OidInt2, 2); (OidInt4, 4); (OidInt8, 8); (OidOid, 4); (OidFloat4, 4); (OidFloat8, 8);
   (OidDate, 4); (OidTime, 8); (OidTimetz, 12); (OidTimestamp, 8); (OidTimestamptz, 8); (OidInterval, 16); (OidUUID, 16)].

Definition size_known (ti : TypeInfo) : Prop := Size ti = -1 ∨ (OID ti, Size ti) ∈ fixed_sizes.

Lemma find_type_known upper l ti :
  Forall (λ e, size_known e.2) l → find_type upper l = Some ti → size_known ti.
Proof.
  intros Hl E. unfold find_type in E. destruct (List.find _ l) as [[ns t]|] eqn:Ef; [|done]. simplify_eq/=.
  apply find_some in Ef as [Hin _]. rewrite Forall_forall in Hl.
  apply (Hl (ns, ti)). by apply list_elem_of_In.
Qed.

Lemma named_types_known : Forall (λ e, size_known e.2) named_types ∧ Forall (λ e, size_known e.2) named_types_2.
Proof.
  unfold size_known. split; apply (bool_decide_unpack _); vm_compute; exact I.
Qed.

Section widths.
Context `{GoFloat} `{UnicodeCase} (duck_String : value → option string).

Lemma mapDuckDBType_known name : size_known (mapDuckDBType name).
Proof.
  unfold mapDuckDBType. generalize (length (bytes name)) at 1. intros fuel.
  destruct named_types_known as [H1 H2].
  assert (∀ l, size_known (scalar_type l (ToUpper l))) as Hs.
  { intros l. unfold scalar_type. destruct (find_type (ToUpper l) named_types) eqn:E; [exact (find_type_known _ _ _ H1 E)|].
    destruct (_ || _); [by left|]. destruct (_ || _); [by left|].
    destruct (find_type (ToUpper l) named_types_2) eqn:E'; [exact (find_type_known _ _ _ H2 E')|by left]. }
  destruct fuel as [|fuel]; cbn [mapDuckDBType_fuel]; (destruct (HasSuffix _ _); [|apply Hs]); [by left|].
  destruct (lookup_oid _ _); by left.
Qed.

Lemma length_put n z : length (put n z) = n.
Proof. apply be_bytes_length. Qed.

Lemma encoded_width oid size v bs :
  (oid, size) ∈ fixed_sizes → oid ≠ OidTimetz → encodeBinary duck_String v oid = Ret (Some bs) → len bs = size.
Proof.
  intros Hin Htz E. unfold encodeBinary in E. destruct (is_nil v); [done|].
  unfold fixed_sizes in Hin. rewrite !elem_of_cons, elem_of_nil in Hin. unfold len.
  repeat destruct Hin as [Hin|Hin]; try done; injection Hin as -> ->; try done;
    cbn in E; injection E as E; unfold encodeBool, encodeInt2, encodeInt4, encodeInt8, encodeFloat4, encodeFloat8,
      encodeDate, encodeTime, encodeTimestamp, encodeInterval, encodeUUID, date_bytes, time_bytes, timestamp_bytes in E;
    repeat (case_match; simplify_eq/=); rewrite ?length_app, ?length_put; try done;
    repeat match goal with
    | E : _ ≫= _ = Some _ |- _ => apply bind_Some in E as (? & ? & ?); simplify_eq/=
    | E : uuid_of_string _ = Some _ |- _ => apply uuid_of_string_length in E as ->
    | E : bool_decide (_ = 16%nat) = true |- _ => apply bool_decide_eq_true in E as ->
    end; rewrite ?length_put; done.
Qed.


(** TIMETZ columns are announced with twelve bytes and sent as text. *)
Lemma timetz_sent_as_text t : Time_IsZero t = false → Nanosecond t = 0 →
  encodeBinary duck_String (VTime t) OidTimetz = Ret (Some (bytes (Format layout_datetime t))).
Proof.
  intros Hz Hn. change (encodeBinary _ _ _) with (Ret (E := Empty_set) (Some (format_scalar (VTime t)))).
  unfold format_scalar. rewrite Hz. rewrite bool_decide_eq_false_2; [done|]. intros Hne. by apply Hne.
Qed.

(** The integer 0 of any type but int is the boolean true. *)
Lemma zero_encodes_as_true : encodeBinary duck_String (VInt KInt64 0) OidBool = Ret (Some [x01]).
Proof. done. Qed.
End widths.

Definition ascii_case : UnicodeCase := {| upper_other := id; lower_other := id |}.

