(* ===== verification/CopyBinary.v ===== *)
(** Result rows and binary COPY (src/server/conn.go): the RowDescription and DataRow
    payloads, the binary COPY stream handleCopyOutBinary sends, the parser of the
    stream a client sends (parseBinaryCopyAndInsert), the fallback insertion in
    batches, and the parameters of a portal (decodeParams). *)

From Stdlib Require Import Strings.Byte.
From stdpp Require Import prelude gmap strings list.
From Stdlib Require Import ZArith Lia.
From S2P Require Import Prelude GoText GoTime Values BinaryTypes.

Open Scope Z_scope.

(** * Column descriptions *)

(** Column names whose type is fixed whatever DuckDB reports. *)
Definition pgCatalogColumnOIDs : list (string * Z) :=
  [("nspname", OidName); ("relname", OidName); ("attname", OidName); ("typname", OidName); ("datname", OidName);
   ("rolname", OidName); ("collname", OidName); ("conname", OidName); ("proname", OidName); ("usename", OidName);
   ("current_database()", OidName); ("current_database", OidName); ("TABLE_SCHEM", OidName);
   ("TABLE_CATALOG", OidName); ("table_schem", OidName); ("table_name", OidName);
   ("typtype", OidChar); ("typcategory", OidChar); ("typalign", OidChar); ("typstorage", OidChar);
   ("relkind", OidChar); ("relpersistence", OidChar); ("attidentity", OidChar); ("attgenerated", OidChar);
   ("table_type", OidText); ("adsrc", OidText); ("description", OidText); ("attlen", OidInt2)]%string.

Fixpoint lookup_name (name : string) (l : list (string * Z)) : option Z :=
  match l with
  | [] => None
  | (k, v) :: l' => if bool_decide (k = name) then Some v else lookup_name name l'
  end.

Section describe.
Context `{UnicodeCase}.

Definition mapTypeOIDWithColumnName (colName colType : string) : Z :=
  default (OID (getTypeInfo colType)) (lookup_name colName pgCatalogColumnOIDs).

Definition mapTypeSizeWithColumnName (colName colType : string) : Z :=
  match lookup_name colName pgCatalogColumnOIDs with
  | Some oid =>
      if bool_decide (oid = OidName) then 64 else if bool_decide (oid = OidChar) then 1
      else if bool_decide (oid = OidText) then -1 else if bool_decide (oid = OidInt2) then 2
      else Size (getTypeInfo colType)
  | None => Size (getTypeInfo colType)
  end.

(** One code for all columns, or one per column, 0 where there is none. *)
Definition format_code (formatCodes : list Z) (i : nat) : Z :=
  match formatCodes with
  | [f] => f
  | _ => default 0 (formatCodes !! i)
  end.

Definition row_description_field (formatCodes : list Z) (i : nat) (col colType : string) : list byte :=
  let displayCol := TrimPrefix col "memory.main." in
  bytes displayCol ++ [x00] ++ put 4 0 ++ put 2 0
  ++ put 4 (wrap_u 32 (mapTypeOIDWithColumnName displayCol colType))
  ++ put 2 (wrap_u 16 (mapTypeSizeWithColumnName displayCol colType))
  ++ put 4 (wrap_u 32 (Typmod (getTypeInfo colType)))
  ++ put 2 (wrap_u 16 (format_code formatCodes i)).

(** The body of the RowDescription message; [colTypes] is as long as [cols]. *)
Definition sendRowDescriptionWithFormats (cols : list (string * string)) (formatCodes : list Z) : list byte :=
  put 2 (wrap_u 16 (wrap_s 16 (Z.of_nat (length cols))))
  ++ concat (imap (λ i c, row_description_field formatCodes i c.1 c.2) cols).
End describe.

(** * Data rows *)

Section rows.
Context `{GoFloat} (duck_String : value → option string).

(** A column sent as text: JSON columns are serialised again, dates lose the time
    of day. *)
Definition text_field (v : value) (oid : option Z) : list byte :=
  match oid with
  | Some oid =>
      if bool_decide (oid = OidJSON ∨ oid = OidJSONB) then encodeJSON v
      else if bool_decide (oid = OidDate) then
        match v with
        | VTime t => if Time_IsZero t then formatValue v else bytes (Format layout_date t)
        | _ => formatValue v
        end
      else formatValue v
  | None => formatValue v
  end.

Definition data_field (formatCodes typeOIDs : list Z) (i : nat) (v : value) : outcome Empty_set (list byte) :=
  if is_nil v then Ret (field None) else
  match bool_decide (format_code formatCodes i = 1), typeOIDs !! i with
  | true, Some oid => let? data := encodeBinary duck_String (normalizeDriverValue v) oid in Ret (field data)
  | _, oid => Ret (field (Some (text_field v oid)))
  end.

Fixpoint data_fields (formatCodes typeOIDs : list Z) (i : nat) (vs : list value) : outcome Empty_set (list byte) :=
  match vs with
  | [] => Ret []
  | v :: vs' =>
      let? f := data_field formatCodes typeOIDs i v in
      let? rest := data_fields formatCodes typeOIDs (S i) vs' in
      Ret (f ++ rest)
  end.

(** The body of the DataRow message. *)
Definition sendDataRowWithFormats (vs : list value) (formatCodes typeOIDs : list Z) : outcome Empty_set (list byte) :=
  let? fs := data_fields formatCodes typeOIDs 0 vs in
  Ret (put 2 (wrap_u 16 (wrap_s 16 (Z.of_nat (length vs)))) ++ fs).

(** * COPY TO STDOUT in binary *)

Definition copy_signature : list byte := bytes "PGCOPY" ++ [x0a; xff; x0d; x0a; x00].
Definition binaryHeader : list byte := copy_signature ++ [x00; x00; x00; x00] ++ [x00; x00; x00; x00].
Definition copy_trailer : list byte := [xff; xff].

Fixpoint encode_fields (typeOIDs : list Z) (vs : list value) : outcome Empty_set (list byte) :=
  match vs with
  | [] => Ret []
  | v :: vs' =>
      let? data := (if is_nil v then Ret None
                    else match typeOIDs with
                         | oid :: _ => encodeBinary duck_String v oid
                         | [] => Panic SliceBoundsOutOfRange
                         end) in
      let? rest := encode_fields (tail typeOIDs) vs' in
      Ret (field data ++ rest)
  end.

Definition encodeTuple (typeOIDs : list Z) (vs : list value) : outcome Empty_set (list byte) :=
  let? fs := encode_fields typeOIDs vs in
  Ret (put 2 (wrap_u 16 (wrap_s 16 (Z.of_nat (length vs)))) ++ fs).

(** What iterating over the rows yields: a row, or an error of Scan. *)
Inductive scanned := Row (vs : list value) | ScanError.

Inductive copy_out_msg := CopyData (bs : list byte) | CopyDone | CopyOutComplete (rows : nat) | CopyOutError.

(** The CopyData messages of the rows: the header goes with the first one. *)
Fixpoint copy_out_rows (typeOIDs : list Z) (first : bool) (count : nat) (rows : list scanned) (rowsErr : bool)
    : outcome Empty_set (list copy_out_msg) :=
  match rows with
  | ScanError :: _ => Ret [CopyOutError]
  | Row vs :: rows' =>
      let? t := encodeTuple typeOIDs vs in
      let? rest := copy_out_rows typeOIDs false (S count) rows' rowsErr in
      Ret (CopyData (if first then binaryHeader ++ t else t) :: rest)
  | [] =>
      if rowsErr then Ret [CopyOutError]
      else Ret [CopyData (if first then binaryHeader ++ copy_trailer else copy_trailer); CopyDone; CopyOutComplete count]
  end.
Definition copy_out_stream (typeOIDs : list Z) (rows : list scanned) (rowsErr : bool) :=
  copy_out_rows typeOIDs true 0 rows rowsErr.
End rows.

(** The bytes a receiver collects from the messages. *)
Definition copy_payload (msgs : list copy_out_msg) : list byte :=
  msgs ≫= λ m, match m with CopyData bs => bs | _ => [] end.

(** * COPY FROM STDIN in binary *)

Inductive copy_error :=
  | HeaderTooShort | BadSignature
  | TruncatedTuple | FieldCountMismatch (got : Z)
  | TruncatedLength (i : nat) | TruncatedField (i : nat)
  | FieldError (i : nat) (oid n : Z) (e : decode_error).

Definition decodeBinaryCopy (data : list byte) (oid : Z) : outcome decode_error value :=
  match data with
  | [] =>
      if bool_decide (oid ∈ [OidText; OidVarchar; OidBpchar; OidName; OidJSON; OidJSONB]) then Ret (VString "")
      else if bool_decide (oid = OidBytea) then Ret (VBytes (Some []))
      else Ret VNil
  | _ =>
      if bool_decide (oid = OidBool) then decodeBool data
      else if bool_decide (oid = OidInt2 ∨ oid = OidInt4 ∨ oid = OidInt8 ∨ oid = OidOid) then
        match length data with
        | 2%nat => decodeInt2 data
        | 4%nat => decodeInt4 data
        | 8%nat => decodeInt8 data
        | _ => Ret (VString (str data))
        end
      else if bool_decide (oid = OidFloat4) then
        (if bool_decide (length data = 8%nat) then decodeFloat8 data else decodeFloat4 data)
      else if bool_decide (oid = OidFloat8) then
        (if bool_decide (length data = 4%nat) then decodeFloat4 data else decodeFloat8 data)
      else if bool_decide (oid = OidNumeric) then decodeNumeric data
      else if bool_decide (oid = OidDate) then decodeDate data
      else if bool_decide (oid = OidTimestamp ∨ oid = OidTimestamptz) then decodeTimestamp data
      else if bool_decide (oid = OidTime) then decodeTime data
      else if bool_decide (oid = OidInterval) then decodeInterval data
      else if bool_decide (oid = OidUUID) then decodeUUID data
      else if bool_decide (oid = OidBytea) then Ret (VBytes (Some data))
      else Ret (VString (str data))
  end.

(** The fields of a tuple, from the field with index [i] on; the rest of the data
    comes back with the values. A length below -1 is not caught: the slice
    expression that follows panics. *)
Fixpoint copy_fields (n i : nat) (typeOIDs : list Z) (data : list byte)
    : outcome copy_error (list value * list byte) :=
  match n with
  | O => Ret ([], data)
  | S n' =>
      if bool_decide (len data < 4) then Err (TruncatedLength i) else
      let fieldLen := wrap_s 32 (u_at 4 0 data) in
      let data := drop 4 data in
      if bool_decide (fieldLen = -1) then
        let? (vs, data') := copy_fields n' (S i) typeOIDs data in Ret (VNil :: vs, data')
      else if bool_decide (len data < fieldLen) then Err (TruncatedField i)
      else if bool_decide (fieldLen < 0) then Panic SliceBoundsOutOfRange
      else
        let fieldData := take (Z.to_nat fieldLen) data in
        let data := drop (Z.to_nat fieldLen) data in
        match typeOIDs !! i with
        | None => Panic SliceBoundsOutOfRange
        | Some oid =>
            let? v := outcome_wrap (FieldError i oid fieldLen) (decodeBinaryCopy fieldData oid) in
            let? (vs, data') := copy_fields n' (S i) typeOIDs data in Ret (v :: vs, data')
        end
  end.

(** The tuples; each consumes at least the two bytes of its field count, so the
    length of the data bounds the loop. An error comes with the rows read before. *)
Fixpoint copy_tuples (fuel : nat) (numCols : nat) (typeOIDs : list Z) (data : list byte)
    : outcome copy_error (list (list value)) :=
  match fuel with
  | O => Ret []
  | S fuel' =>
      match data with
      | [] => Ret []
      | _ =>
          if bool_decide (len data < 2) then Err TruncatedTuple else
          let fieldCount := wrap_s 16 (u_at 2 0 data) in
          let data := drop 2 data in
          if bool_decide (fieldCount = -1) then Ret []
          else if bool_decide (fieldCount ≠ Z.of_nat numCols) then Err (FieldCountMismatch fieldCount)
          else
            let? (row, data') := copy_fields numCols 0 typeOIDs data in
            let? rows := copy_tuples fuel' numCols typeOIDs data' in
            Ret (row :: rows)
      end
  end.

Definition parse_copy (data : list byte) (numCols : nat) (typeOIDs : list Z)
    : outcome copy_error (list (list value)) :=
  if bool_decide (len data < 19) then Err HeaderTooShort
  else if bool_decide (take 11 data ≠ copy_signature) then Err BadSignature
  else
    let extLen := u_at 4 15 data in
    let data := drop (Z.to_nat extLen) (drop 19 data) in
    copy_tuples (length data) numCols typeOIDs data.

(** * Insertion in batches *)

Definition batchSize : nat := 1000.

Fixpoint batches (fuel : nat) (rows : list (list value)) : list (list (list value)) :=
  match fuel, rows with
  | S fuel', _ :: _ => take batchSize rows :: batches fuel' (drop batchSize rows)
  | _, _ => []
  end.

(** [$i], ..., one placeholder per value, from [paramIdx] on. *)
Definition placeholders (paramIdx : nat) (row : list value) : list byte :=
  [x28] ++ join (bytes ", ") ((λ j, [x24] ++ bytes (fmt_d (Z.of_nat j))) <$> seq paramIdx (length row)) ++ [x29].
Fixpoint value_clauses (paramIdx : nat) (batch : list (list value)) : list (list byte) :=
  match batch with
  | [] => []
  | row :: batch' => placeholders paramIdx row :: value_clauses (paramIdx + length row) batch'
  end.

Definition insert_columns (columnList : string) (cols : list string) : list byte :=
  if bool_decide (columnList = ""%string)
  then [x28] ++ join (bytes ", ") ((λ c, [x22] ++ bytes c ++ [x22]) <$> cols) ++ [x29]
  else bytes columnList.

Definition insert_sql (tableName columnList : string) (cols : list string) (batch : list (list value)) : list byte :=
  bytes "INSERT INTO " ++ bytes tableName ++ [x20] ++ insert_columns columnList cols ++ bytes " VALUES "
  ++ join (bytes ", ") (value_clauses 1 batch).

(** * Parameters of a portal *)

(** decodeParams: a parameter of unknown type, or in text format, is a string; an
    error carries the number of the parameter. *)
Fixpoint decode_params (paramTypes paramFormats : list Z) (i : nat) (vs : list (option (list byte)))
    : outcome (nat * decode_error) (list value) :=
  match vs with
  | [] => Ret []
  | v :: vs' =>
      let typeOID := default 0 (paramTypes !! i) in
      let format := format_code paramFormats i in
      let? x := (match v with
                 | None => Ret VNil
                 | Some bs => if bool_decide (typeOID = 0 ∨ format = 0) then Ret (VString (str bs))
                              else outcome_wrap (pair (S i)) (decodeBinary (Some bs) typeOID)
                 end) in
      let? xs := decode_params paramTypes paramFormats (S i) vs' in
      Ret (x :: xs)
  end.
Definition decodeParams (paramTypes paramFormats : list Z) (paramValues : list (option (list byte))) :=
  decode_params paramTypes paramFormats 0 paramValues.

(** splitQualifiedName *)
Fixpoint split_name (inQuotes : bool) (current : list byte) (name : list byte) : list (list byte) :=
  match name with
  | [] => [current]
  | b :: name' =>
      if bool_decide (b = x22) then split_name (negb inQuotes) current name'
      else if bool_decide (b = x2e) && negb inQuotes then current :: split_name false [] name'
      else split_name inQuotes (current ++ [b]) name'
  end.
Definition splitQualifiedName (name : string) : list string := str <$> split_name false [] (bytes name).

(** * Binary COPY round trip *)

Definition text_oids : list Z := [OidText; OidVarchar; OidBpchar; OidName; OidJSON; OidJSONB].

Ltac known_size := apply (bool_decide_unpack _); vm_compute; exact I.

Section roundtrip.
Context `{GoFloat} (duck_String : value → option string).

(** A field of a column of type [oid] that comes back as [w]: null, or a value the
    binary format carries whose encoding fits a length word, and which is not empty
    unless the type has an empty value. *)
Definition field_carried (oid : Z) (v w : value) : Prop :=
  (v = VNil ∧ w = VNil)
  ∨ (is_nil v = false ∧ carried oid v w
     ∧ ∀ bs, encodeBinary duck_String v oid = Ret (Some bs) →
         len bs < 2 ^ 31 ∧ (bs = [] → oid ∈ text_oids ∨ oid = OidBytea)).

Lemma decodeBinaryCopy_int oid v bs w :
  oid = OidInt2 ∨ oid = OidInt4 ∨ oid = OidInt8 →
  encodeBinary duck_String v oid = Ret (Some bs) → decodeBinary (Some bs) oid = Ret w →
  decodeBinaryCopy bs oid = Ret w.
Proof.
  intros Ho He Hd.
  assert (∀ size, (oid, size) ∈ fixed_sizes → length bs = Z.to_nat size) as Hl.
  { intros size Hin. rewrite <- (encoded_width duck_String oid size v bs Hin) by (done || by destruct Ho as [->|[->| ->]]).
    unfold len. lia. }
  assert (oid = OidOid ∨ bs ≠ []) as Hne.
  { right. intros ->. destruct Ho as [->|[->| ->]]; vm_compute in Hd; done. }
  destruct bs as [|b bs]; [by destruct Hne, Ho as [->|[->| ->]]|]. unfold decodeBinaryCopy.
  destruct Ho as [->|[->| ->]]; repeat (rewrite bool_decide_eq_false_2 by done); rewrite bool_decide_eq_true_2 by tauto;
    [rewrite (Hl 2)|rewrite (Hl 4)|rewrite (Hl 8)]; try exact Hd; known_size.
Qed.

Lemma decodeBinaryCopy_carried oid v w bs :
  carried oid v w → encodeBinary duck_String v oid = Ret (Some bs) → decodeBinary (Some bs) oid = Ret w →
  (bs = [] → oid ∈ text_oids ∨ oid = OidBytea) → decodeBinaryCopy bs oid = Ret w.
Proof.
  intros Hc He Hd Hempty. destruct bs as [|b bs].
  - destruct Hc as [| | | | | | | | |? ? [->| ->]| | | | | |oid s Ho]; destruct (Hempty eq_refl) as [Hin|Hin];
      try (apply (bool_decide_eq_true_2 (_ ∈ _)) in Hin; vm_compute in Hin; done); try done.
    + unfold decodeBinaryCopy. rewrite bool_decide_eq_true_2 by done.
      destruct (encode_text_oid duck_String oid s Ho) as [E _]. rewrite E in He. injection He as He.
      do 2 f_equal. apply bytes_inj. by rewrite He.
    + subst. by destruct Ho as [Ho _]; rewrite !not_elem_of_cons in Ho; destruct_and! Ho.
  - destruct Hc as [| | | |f Hf|f Hf| | | |? ? [->| ->]| | | | | |oid s Ho]; try done;
      try (by eapply decodeBinaryCopy_int; eauto).
    + change (decodeBinaryCopy (b :: bs) OidFloat4) with
        (if bool_decide (length (b :: bs) = 8%nat) then decodeFloat8 (b :: bs) else decodeFloat4 (b :: bs)).
      pose proof (encoded_width duck_String OidFloat4 4 _ _ ltac:(known_size) ltac:(done) He) as Hl.
      unfold len in Hl. by rewrite bool_decide_eq_false_2 by lia.
    + change (decodeBinaryCopy (b :: bs) OidFloat8) with
        (if bool_decide (length (b :: bs) = 4%nat) then decodeFloat4 (b :: bs) else decodeFloat8 (b :: bs)).
      pose proof (encoded_width duck_String OidFloat8 8 _ _ ltac:(known_size) ltac:(done) He) as Hl.
      unfold len in Hl. by rewrite bool_decide_eq_false_2 by lia.
    + rewrite <- Hd. destruct Ho as [Ho _]. rewrite !not_elem_of_cons in Ho.
      unfold decodeBinaryCopy, decodeBinary. repeat (rewrite bool_decide_eq_false_2 by tauto). done.
Qed.

(** Reading one field. *)
Lemma copy_field_read n i oids oid v w rest : oids !! i = Some oid → field_carried oid v w →
  ∃ data, (if is_nil v then Ret None else encodeBinary duck_String v oid) = Ret (E := Empty_set) data
    ∧ copy_fields (S n) i oids (field data ++ rest)
      = (let? (vs, data') := copy_fields n (S i) oids rest in Ret (w :: vs, data')).
Proof.
  intros Hi [[-> ->]|(Hnil & Hc & Hbs)].
  - exists None. split; [done|]. unfold field. cbn [copy_fields].
    rewrite bool_decide_eq_false_2 by (rewrite len_app, len_put; unfold len; lia).
    rewrite u_at_put0. rewrite signed_put by done. rewrite bool_decide_eq_true_2 by done.
    by rewrite drop_app_length' by (by rewrite length_put).
  - destruct (binary_value_roundtrip_aux duck_String oid v w Hc) as (bs & He & Hd).
    destruct (Hbs bs He) as [Hlen Hempty]. exists (Some bs). rewrite Hnil. split; [done|].
    unfold field. rewrite <- app_assoc. cbn [copy_fields].
    rewrite bool_decide_eq_false_2 by (rewrite !len_app, len_put; unfold len; lia).
    fold (len bs). assert (in_s 32 (len bs)) as Hs.
    { unfold in_s, len in *. change (2 ^ (32 - 1)) with (2 ^ 31). lia. }
    rewrite u_at_put0, (wrap_s_small 32 (len bs)) by (lia || done). rewrite signed_put by done.
    rewrite drop_app_length' by (by rewrite length_put).
    rewrite bool_decide_eq_false_2 by (unfold len; lia).
    rewrite bool_decide_eq_false_2 by (rewrite len_app; unfold len; lia).
    rewrite bool_decide_eq_false_2 by (unfold len; lia).
    replace (Z.to_nat (len bs)) with (length bs) by (unfold len; lia).
    rewrite Hi, take_app_length, drop_app_length. by rewrite (decodeBinaryCopy_carried oid v w bs).
Qed.

Lemma copy_fields_read alloids vs : ∀ i oids ws rest,
  drop i alloids = oids → Forall3 field_carried oids vs ws →
  ∃ fs, encode_fields duck_String oids vs = Ret fs
    ∧ copy_fields (length vs) i alloids (fs ++ rest) = Ret (ws, rest).
Proof.
  induction vs as [|v vs IH]; intros i oids ws rest Hi Hf; revert Hi;
    inversion Hf as [|oid ? w oids' ? ws' Hv Hf']; subst; intros Hi.
  - by exists [].
  - assert (alloids !! i = Some oid ∧ drop (S i) alloids = oids') as [Hl Hd].
    { split; [|by rewrite <- Nat.add_1_r, <- drop_drop, Hi].
      by rewrite <- (Nat.add_0_r i), <- lookup_drop, Hi. }
    destruct (IH (S i) oids' ws' rest Hd Hf') as (fs & Hfs & Hrest).
    destruct (copy_field_read (length vs) i alloids oid v w (fs ++ rest) Hl Hv) as (data & He & Hr).
    exists (field data ++ fs). cbn [encode_fields length tail]. rewrite He, Hfs. cbn [outcome_bind].
    split; [done|]. rewrite <- app_assoc, Hr, Hrest. done.
Qed.

Lemma copy_tuple_read fuel oids vs ws rest :
  Forall3 field_carried oids vs ws → Z.of_nat (length vs) < 2 ^ 15 →
  ∃ t, encodeTuple duck_String oids vs = Ret t ∧ (2 ≤ length t)%nat
    ∧ copy_tuples (S fuel) (length vs) oids (t ++ rest)
      = (let? rows := copy_tuples fuel (length vs) oids rest in Ret (ws :: rows)).
Proof.
  intros Hf Hn. destruct (copy_fields_read oids vs 0 oids ws rest eq_refl Hf) as (fs & Hfs & Hread).
  unfold encodeTuple. rewrite Hfs. cbn [outcome_bind]. eexists. split; [done|].
  split; [rewrite length_app, length_put; lia|].
  assert (in_s 16 (Z.of_nat (length vs))) as Hs by (unfold in_s; change (2 ^ (16 - 1)) with (2 ^ 15); lia).
  rewrite <- app_assoc. cbn [copy_tuples].
  destruct (put 2 _ ++ fs ++ rest) as [|b l] eqn:E.
  { apply (f_equal length) in E. rewrite length_app, length_put in E. done. }
  rewrite <- E. clear E.
  rewrite bool_decide_eq_false_2 by (rewrite len_app, len_put; unfold len; lia).
  rewrite u_at_put0, (wrap_s_small 16 (Z.of_nat _)) by (lia || done). rewrite signed_put by done.
  rewrite drop_app_length' by (by rewrite length_put).
  rewrite bool_decide_eq_false_2 by lia. rewrite bool_decide_eq_false_2 by (intros Hne; by apply Hne).
  by rewrite Hread.
Qed.

Definition row_carried (oids : list Z) (n : nat) (row row' : list value) : Prop :=
  length row = n ∧ Forall3 field_carried oids row row'.

Lemma copy_trailer_read fuel n oids : copy_tuples (S fuel) n oids copy_trailer = Ret [].
Proof. done. Qed.

Lemma copy_rows_read oids n rows : ∀ rows' count fuel,
  Forall2 (row_carried oids n) rows rows' → Z.of_nat n < 2 ^ 15 → (length rows < fuel)%nat →
  ∃ msgs, copy_out_rows duck_String oids false count (Row <$> rows) false = Ret msgs
    ∧ (2 * S (length rows) ≤ length (copy_payload msgs))%nat
    ∧ copy_tuples fuel n oids (copy_payload msgs) = Ret rows'.
Proof.
  induction rows as [|vs rows IH]; intros rows' count fuel Hf Hn Hfuel; inversion Hf as [|? ws ? ws' [Hl Hv] Hf']; subst.
  - eexists. split; [done|]. split; [done|]. destruct fuel; [lia|]. apply copy_trailer_read.
  - destruct fuel as [|fuel]; [lia|]. cbn [length] in Hfuel.
    destruct (IH ws' (S count) fuel Hf' Hn) as (msgs & Hm & Hlen & Hr); [lia|].
    destruct (copy_tuple_read fuel oids vs ws (copy_payload msgs) Hv Hn) as (t & Ht & Ht2 & Hread).
    exists (CopyData t :: msgs). cbn [fmap list_fmap copy_out_rows]. rewrite Ht. cbn [outcome_bind].
    rewrite Hm. cbn [outcome_bind]. split; [done|].
    change (copy_payload (CopyData t :: msgs)) with (t ++ copy_payload msgs).
    split; [rewrite length_app; cbn [length]; lia|]. by rewrite Hread, Hr.
Qed.

(** The whole stream is the header and what the tuples and the trailer make. *)
Lemma copy_out_first oids rows msgs :
  copy_out_rows duck_String oids false 0 (Row <$> rows) false = Ret msgs →
  ∃ msgs', copy_out_stream duck_String oids (Row <$> rows) false = Ret msgs'
    ∧ copy_payload msgs' = binaryHeader ++ copy_payload msgs.
Proof.
  unfold copy_out_stream. destruct rows as [|vs rows]; cbn [fmap list_fmap copy_out_rows].
  - intros E. injection E as <-. eexists. split; [done|]. done.
  - destruct (encodeTuple duck_String oids vs) as [t| |]; [|done|done]. cbn [outcome_bind].
    destruct (copy_out_rows _ _ _ _ _ _) as [rest| |]; [|done|done]. cbn [outcome_bind].
    intros E. injection E as <-. eexists. split; [done|]. unfold copy_payload. rewrite !bind_cons. by rewrite <- app_assoc.
Qed.

Lemma parse_copy_header body n oids :
  parse_copy (binaryHeader ++ body) n oids = copy_tuples (length body) n oids body.
Proof.
  unfold parse_copy. rewrite bool_decide_eq_false_2 by (rewrite len_app; change (len binaryHeader) with 19; unfold len; lia).
  rewrite bool_decide_eq_false_2 by (intros Hne; by apply Hne).
  change (u_at 4 15 (binaryHeader ++ body)) with 0. done.
Qed.

(** A table copied out in binary format and copied in again is the same table:
    when every value of every row is null or one the binary format carries,
    parsing the stream copy_out_stream sends gives back the rows. *)
Theorem copy_binary_roundtrip oids n rows rows' :
  Forall2 (row_carried oids n) rows rows' → Z.of_nat n < 2 ^ 15 →
  ∃ msgs, copy_out_stream duck_String oids (Row <$> rows) false = Ret msgs
    ∧ parse_copy (copy_payload msgs) n oids = Ret rows'.
Proof.
  intros Hf Hn.
  destruct (copy_rows_read oids n rows rows' 0 (S (length rows)) Hf Hn) as (msgs & Hm & Hlen & _); [lia|].
  destruct (copy_rows_read oids n rows rows' 0 (length (copy_payload msgs)) Hf Hn) as (msgs2 & Hm2 & _ & Hr); [lia|].
  rewrite Hm in Hm2. injection Hm2 as <-.
  destruct (copy_out_first oids rows msgs Hm) as (msgs' & Hout & Hpay). exists msgs'. split; [done|].
  by rewrite Hpay, parse_copy_header.
Qed.
End roundtrip.

Lemma copy_binary_roundtrip_witness :
  ∃ msgs, copy_out_stream (H := plain_floats) (λ _, None) [OidInt4; OidText]
            (Row <$> [[VInt KInt32 (-7); VString "x"]; [VInt KInt64 5; VNil]]) false = Ret msgs
    ∧ parse_copy (copy_payload msgs) 2 [OidInt4; OidText] = Ret [[VInt KInt32 (-7); VString "x"]; [VInt KInt32 5; VNil]].
Proof.
  refine (copy_binary_roundtrip (H := plain_floats) (λ _, None) [OidInt4; OidText] 2 _ _ _ _); [|done].
  assert (∀ z k, k ∈ int_kinds_for OidInt4 → in_s 32 z →
    field_carried (H := plain_floats) (λ _, None) OidInt4 (VInt k z) (VInt KInt32 z)) as Hint.
  { intros z k Hk Hz. right. split; [done|]. split; [by constructor|]. intros bs E.
    pose proof (encoded_width (H := plain_floats) (λ _, None) OidInt4 4 _ bs ltac:(known_size) ltac:(done) E) as Hl.
    rewrite Hl. split; [done|]. intros ->. done. }
  repeat apply Forall2_cons_2; try apply Forall2_nil_2; (split; [done|]); repeat apply Forall3_cons; try apply Forall3_nil.
  - apply Hint; [known_size|done].
  - right. split; [done|]. split; [constructor; split; [known_size|done]|]. intros bs E. injection E as <-.
    split; [done|]. intros _. left. known_size.
  - apply Hint; [known_size|done].
  - by left.
Defined.

(** A field length below -1 in a binary COPY stream is not rejected: wherever it
    stands, the parser panics on the slice expression it computes with it. *)
Theorem negative_field_length_panics n oids L rest :
  (0 < n)%nat → Z.of_nat n < 2 ^ 15 → - 2 ^ 31 ≤ L < -1 →
  ∃ p, parse_copy (binaryHeader ++ put 2 (Z.of_nat n) ++ put 4 (wrap_u 32 L) ++ rest) n oids = Panic p.
Proof.
  intros Hn0 Hn HL. rewrite parse_copy_header. exists SliceBoundsOutOfRange.
  destruct n as [|n]; [lia|]. rewrite length_app, length_put. cbn [Nat.add copy_tuples].
  destruct (put 2 _ ++ _) as [|b l] eqn:E.
  { apply (f_equal length) in E. rewrite length_app, length_put in E. done. }
  rewrite <- E. clear E.
  rewrite bool_decide_eq_false_2 by (rewrite len_app, len_put; unfold len; lia).
  change (2 ^ 15) with 32768 in Hn. change (2 ^ 31) with 2147483648 in HL.
  rewrite u_at_put0, (Z.mod_small (Z.of_nat (S n))) by (change (256 ^ Z.of_nat 2) with 65536; lia).
  rewrite wrap_s_small; [|done|unfold in_s; change (2 ^ (16 - 1)) with 32768; lia].
  rewrite drop_app_length' by (by rewrite length_put).
  rewrite bool_decide_eq_false_2 by lia. rewrite bool_decide_eq_false_2 by (intros Hne; by apply Hne).
  cbn [copy_fields]. rewrite bool_decide_eq_false_2 by (rewrite len_app, len_put; unfold len; lia).
  rewrite u_at_put0, signed_put; [|done|done|unfold in_s; change (2 ^ (32 - 1)) with 2147483648; lia].
  rewrite bool_decide_eq_false_2 by lia. rewrite bool_decide_eq_false_2 by (unfold len; lia).
  by rewrite bool_decide_eq_true_2 by lia.
Qed.

Lemma negative_field_length_panics_witness :
  ∃ p, parse_copy (binaryHeader ++ put 2 (Z.of_nat 1) ++ put 4 (wrap_u 32 (-2)) ++ []) 1 [OidText] = Panic p.
Proof. apply negative_field_length_panics; [lia|done|lia]. Defined.
