(* ===== verification/SqlScan.v ===== *)
(** The SQL scanners of src/server/conn.go and src/server/sqlcore/query.go: how the
    server tells, without parsing, what kind of statement a query is, whether it
    returns rows, and where its parameters stand.

    A position in the source's strings is the rest of the text here, with the byte
    before it where the source looks back. *)

From Stdlib Require Import Strings.Byte.
From stdpp Require Import prelude strings list.
From Stdlib Require Import ZArith Lia.
From S2P Require Import Prelude GoText GoTime.

Open Scope Z_scope.

Abbreviation text := (list byte) (only parsing).

(** * Lexical elements *)

Definition isWSChar (c : byte) : bool := bool_decide (c ∈ [x20; x0a; x09; x0d]).
Definition isReturningTrailer (c : byte) : bool :=
  isWSChar c || bool_decide (c ∈ [x3b; x2a; x28; x2c; x22; x2d; x2f; x24]).

(** After the opening quote of a string: the text after the closing one. *)
Fixpoint skip_string (estring : bool) (l : text) : text :=
  match l with
  | [] => []
  | b :: l' =>
      if bool_decide (b = x27) then
        match l' with
        | c :: l'' => if bool_decide (c = x27) then skip_string estring l'' else l'
        | [] => []
        end
      else if estring && bool_decide (b = x5c) then
        match l' with _ :: l'' => skip_string estring l'' | [] => [] end
      else skip_string estring l'
  end.

(** After the opening quote of an identifier. *)
Fixpoint skip_ident (l : text) : text :=
  match l with
  | [] => []
  | b :: l' =>
      if bool_decide (b = x22) then
        match l' with
        | c :: l'' => if bool_decide (c = x22) then skip_ident l'' else l'
        | [] => []
        end
      else skip_ident l'
  end.

(** Up to the end of the line, which is left. *)
Fixpoint skip_line (l : text) : text :=
  match l with
  | [] => []
  | b :: l' => if bool_decide (b = x0a) then l else skip_line l'
  end.

(** After the opening of a block comment; the scan stops before the last byte when
    the comment is not closed. *)
Fixpoint skip_block (l : text) : text :=
  match l with
  | b :: (c :: l'') as l' => if bool_decide (b = x2a ∧ c = x2f) then l'' else skip_block l'
  | _ => l
  end.

Definition tag_char (c : byte) : bool := byte_in 65 90 c || byte_in 48 57 c || bool_decide (c = x5f).

(** The rest of a dollar tag after its first dollar sign. *)
Fixpoint tag_tail (l : text) : option text :=
  match l with
  | [] => None
  | c :: l' => if bool_decide (c = x24) then Some [x24]
               else if tag_char c then (λ t, c :: t) <$> tag_tail l' else None
  end.
Definition parseDollarTag (l : text) : option text :=
  match l with
  | b :: l' => if bool_decide (b = x24) then (λ t, x24 :: t) <$> tag_tail l' else None
  | [] => None
  end.

(** After the opening tag: past the closing one, or where no tag fits any more. *)
Fixpoint skip_dollar (tag l : text) : text :=
  match l with
  | [] => []
  | _ :: l' =>
      if bool_decide (length l < length tag)%nat then l
      else if has_prefix tag l then drop (length tag) l
      else skip_dollar tag l'
  end.

(** Past the element that starts with [b], the text after [b] being [l']: a string, an
    identifier in quotes, a dollar-quoted string, a comment, or the byte itself. *)
Definition skip_construct (prev : option byte) (b : byte) (l' : text) : text :=
  if bool_decide (b = x27) then skip_string (bool_decide (prev = Some x45)) l'
  else if bool_decide (b = x22) then skip_ident l'
  else if bool_decide (b = x24) then
    match parseDollarTag (b :: l') with
    | Some tag => skip_dollar tag (drop (length tag) (b :: l'))
    | None => l'
    end
  else if bool_decide (b = x2d) then
    match l' with c :: l'' => if bool_decide (c = x2d) then skip_line l'' else l' | [] => [] end
  else if bool_decide (b = x2f) then
    match l' with c :: l'' => if bool_decide (c = x2a) then skip_block l'' else l' | [] => [] end
  else l'.

(** The byte before the rest [r] of [l]. *)
Definition byte_before (l r : text) : option byte := last (take (length l - length r) l).

(** Every step of the loops below consumes a byte, so the length of the text is fuel
    enough. *)

Fixpoint scan_returning (fuel : nat) (topLevelOnly : bool) (depth : Z) (prev : option byte) (l : text) : bool :=
  match fuel, l with
  | S fuel', b :: l' =>
      if bool_decide (b = x28) then scan_returning fuel' topLevelOnly (depth + 1) (Some b) l'
      else if bool_decide (b = x29) then
        scan_returning fuel' topLevelOnly (if bool_decide (0 < depth) then depth - 1 else depth) (Some b) l'
      else if bool_decide (b = x52) then
        if (negb topLevelOnly || bool_decide (depth = 0)) && has_prefix (bytes "RETURNING") l
           && match prev with Some c => isWSChar c | None => false end
           && match drop 9 l with [] => true | c :: _ => isReturningTrailer c end
        then true else scan_returning fuel' topLevelOnly depth (Some b) l'
      else let r := skip_construct prev b l' in
           scan_returning fuel' topLevelOnly depth (byte_before l r) r
  | _, _ => false
  end.
Definition scanForReturning (upper : text) (topLevelOnly : bool) : bool :=
  scan_returning (length upper) topLevelOnly 0 None upper.
Definition containsReturning (upper : text) : bool := scanForReturning upper true.
Definition containsReturningAnyDepth (upper : text) : bool := scanForReturning upper false.

Fixpoint skip_parens (fuel : nat) (depth : Z) (prev : option byte) (l : text) : text :=
  match fuel, l with
  | S fuel', b :: l' =>
      if bool_decide (depth ≤ 0) then l
      else if bool_decide (b = x28) then skip_parens fuel' (depth + 1) (Some b) l'
      else if bool_decide (b = x29) then skip_parens fuel' (depth - 1) (Some b) l'
      else let r := skip_construct prev b l' in skip_parens fuel' depth (byte_before l r) r
  | _, _ => l
  end.
(** [l] is the text after an opening parenthesis. *)
Definition skipBalancedParens (l : text) : text := skip_parens (length l) 1 (Some x28) l.

Fixpoint skip_ws (fuel : nat) (l : text) : text :=
  match fuel, l with
  | S fuel', b :: l' =>
      if isWSChar b then skip_ws fuel' l' else
      match l' with
      | c :: l'' =>
          if bool_decide (b = x2d ∧ c = x2d) then skip_ws fuel' (skip_line l'')
          else if bool_decide (b = x2f ∧ c = x2a) then skip_ws fuel' (skip_block l'')
          else l
      | [] => l
      end
  | _, _ => l
  end.
Definition skipWhitespaceAndComments (l : text) : text := skip_ws (length l) l.

(** * Leading comments *)

Definition strip_block (l : text) : option text :=
  match index (bytes "*/") l with Some e => Some (drop (e + 2) l) | None => None end.

Fixpoint strip_comments (fuel : nat) (l : text) : text :=
  let l := bytes (TrimSpace (str l)) in
  match fuel with
  | O => l
  | S fuel' =>
      if has_prefix (bytes "/*") l then
        match strip_block l with Some r => strip_comments fuel' r | None => l end
      else if has_prefix (bytes "--") l then
        match index_byte x0a l with Some nl => strip_comments fuel' (drop (S nl) l) | None => [] end
      else l
  end.
Definition StripLeadingComments (l : text) : text := strip_comments (length l) l.

Definition IsEmptyQuery (l : text) : bool :=
  forallb (λ r, bool_decide (r.2 ∈ [[x3b]; [x20]; [x09]; [x0a]; [x0d]])) (runes (StripLeadingComments l)).

Fixpoint trim_left (set : list byte) (l : text) : text :=
  match l with
  | b :: l' => if bool_decide (b ∈ set) then trim_left set l' else l
  | [] => []
  end.

Fixpoint strip_noise (fuel : nat) (l : text) : text :=
  let l' := trim_left [x28; x20; x09; x0a; x0d] (StripLeadingComments l) in
  match fuel with
  | O => l'
  | S fuel' => if bool_decide (l' = l) then l else strip_noise fuel' l'
  end.
Definition stripLeadingNoise (l : text) : text := strip_noise (length l) l.

(** * Kinds of statements *)

(** The word [w] at the start, followed by a byte of [after] or by nothing. *)
Definition keyword (w : string) (after : byte → bool) (l : text) : bool :=
  has_prefix (bytes w) l && match drop (length (bytes w)) l with [] => true | c :: _ => after c end.
Definition ws_or_comment (c : byte) : bool := isWSChar c || bool_decide (c = x2f ∨ c = x2d).
Definition starts_with (ws : list string) (l : text) : bool := existsb (λ w, has_prefix (bytes w) l) ws.

Definition is_with (l : text) : bool := keyword "WITH" ws_or_comment l.
Definition is_dml (l : text) : bool := starts_with ["INSERT"; "UPDATE"; "DELETE"]%string l.

Definition skip_cte_name (l : text) : text :=
  match l with
  | b :: l' =>
      if bool_decide (b = x22) then skip_ident l'
      else (fix go (l : text) := match l with
                                 | c :: l'' => if ws_or_comment c || bool_decide (c = x28) then l else go l''
                                 | [] => []
                                 end) l
  | [] => []
  end.

(** The optional column list: only when AS follows the parenthesis. *)
Definition skip_column_list (l : text) : text :=
  match l with
  | b :: l' =>
      if bool_decide (b = x28) then
        let r := skipWhitespaceAndComments (skipBalancedParens l') in
        if keyword "AS" (λ c, isWSChar c || bool_decide (c = x28)) r then r else l
      else l
  | [] => []
  end.

Definition skip_cte (l : text) : text :=
  let l := skipWhitespaceAndComments (skip_cte_name l) in
  let l := skip_column_list l in
  let l := if keyword "AS" (λ c, ws_or_comment c || bool_decide (c = x28)) l
           then skipWhitespaceAndComments (drop 2 l) else l in
  let l := match l with b :: l' => if bool_decide (b = x28) then skipBalancedParens l' else l | [] => [] end in
  skipWhitespaceAndComments l.

(** A comma announces one more definition; it is consumed, so the length bounds the
    loop. *)
Fixpoint skip_ctes (fuel : nat) (l : text) : text :=
  match fuel, l with
  | S fuel', _ :: _ =>
      let r := skip_cte l in
      match r with
      | b :: r' => if bool_decide (b = x2c) then skip_ctes fuel' (skipWhitespaceAndComments r') else r
      | [] => []
      end
  | _, _ => l
  end.

Definition outerStatementOfCTE (upper : text) : text :=
  if negb (is_with upper) then [] else
  let l := skipWhitespaceAndComments (drop 4 upper) in
  let l := if keyword "RECURSIVE" ws_or_comment l then skipWhitespaceAndComments (drop 9 l) else l in
  skip_ctes (length l) l.

Section classify.
Context `{UnicodeCase}.

Definition upper_stripped (query : text) : text := bytes (ToUpper (str (stripLeadingNoise query))).

Definition describeSupportsLimit (upper : text) : bool :=
  starts_with ["SELECT"; "WITH"; "VALUES"; "TABLE"; "FROM"]%string (bytes (TrimSpace (str upper))).

Definition queryReturnsResults (query : text) : bool :=
  let upper := upper_stripped query in
  starts_with ["SELECT"]%string upper || is_with upper
  || starts_with ["VALUES"; "SHOW"; "TABLE"; "EXECUTE"; "EXPLAIN"; "DESCRIBE"; "SUMMARIZE"; "FROM"]%string upper
  || (is_dml upper && containsReturning upper).

Definition isDMLReturning (query : text) : bool :=
  let upper := upper_stripped query in
  if is_dml upper then containsReturning upper
  else if is_with upper then containsReturningAnyDepth upper else false.

Definition isWithDML (query : text) : bool := is_dml (outerStatementOfCTE (upper_stripped query)).

(** isDuckDBUtilityCommand *)
Definition utilityPrefixes : list string :=
  ["ATTACH"; "DETACH"; "USE"; "INSTALL"; "LOAD"; "UNLOAD"; "CREATE SECRET"; "DROP SECRET";
   "CREATE PERSISTENT SECRET"; "CREATE TEMPORARY SECRET"; "CREATE OR REPLACE SECRET";
   "CREATE OR REPLACE PERSISTENT SECRET"; "CREATE OR REPLACE TEMPORARY SECRET"; "PRAGMA"; "CHECKPOINT";
   "FORCE CHECKPOINT"; "EXPORT DATABASE"; "IMPORT DATABASE"; "CALL"; "SET"; "RESET"]%string.
Definition hasCommandPrefix (query : text) (prefix : string) : bool :=
  keyword prefix (λ c, isWSChar c || bool_decide (c = x3b)) query.
Definition isDuckDBUtilityCommand (query : text) : bool :=
  let upper := bytes (ToUpper (str (StripLeadingComments query))) in
  existsb (hasCommandPrefix upper) utilityPrefixes.

Definition shouldHandleCopyBeforeTranspile (query : text) : bool :=
  has_prefix (bytes "COPY") (bytes (ToUpper (TrimSpace (str query)))).

Definition stripPublicSchema (tableName : text) : text :=
  let quoted := [x22] ++ bytes "public" ++ [x22; x2e] in
  if has_prefix quoted tableName then drop (length quoted) tableName
  else if has_prefix (bytes "public.") (bytes (ToLower (str tableName))) then drop (length (bytes "public.")) tableName
  else tableName.
End classify.

(** The prefixes of getCommandType's switch, in order. *)
Definition command_prefixes : list (list string * string) :=
  [(["SELECT"], "SELECT"); (["INSERT"], "INSERT"); (["UPDATE"], "UPDATE"); (["DELETE"], "DELETE");
   (["CREATE TABLE"; "CREATE TEMPORARY TABLE"; "CREATE TEMP TABLE"; "CREATE UNLOGGED TABLE"], "CREATE TABLE");
   (["CREATE INDEX"; "CREATE UNIQUE INDEX"], "CREATE INDEX");
   (["CREATE VIEW"; "CREATE OR REPLACE VIEW"], "CREATE VIEW");
   (["CREATE SCHEMA"], "CREATE SCHEMA"); (["CREATE"], "CREATE"); (["DROP TABLE"], "DROP TABLE");
   (["DROP INDEX"], "DROP INDEX"); (["DROP VIEW"], "DROP VIEW"); (["DROP SCHEMA"], "DROP SCHEMA");
   (["DROP"], "DROP")]%string.
Definition command_prefixes_2 : list (list string * string) :=
  [(["ALTER"], "ALTER TABLE"); (["TRUNCATE"], "TRUNCATE TABLE"); (["BEGIN"], "BEGIN"); (["COMMIT"], "COMMIT");
   (["ROLLBACK"], "ROLLBACK"); (["SET"], "SET"); (["COPY"], "COPY")]%string.
Definition constraint_words : list string :=
  ["ADD CONSTRAINT"; "ADD PRIMARY KEY"; "ADD UNIQUE"; "ADD FOREIGN KEY"; "ADD CHECK"]%string.

Definition find_command (l : text) (table : list (list string * string)) : option string :=
  snd <$> List.find (λ e, starts_with e.1 l) table.
Definition command_word (l : text) : string :=
  match find_command l command_prefixes with
  | Some c => c
  | None =>
      if existsb (λ w, Contains (str l) w) constraint_words then "ALTER TABLE ADD CONSTRAINT"
      else default "SELECT"%string (find_command l command_prefixes_2)
  end.

(** The outer statement of a CTE is shorter than the query. *)
Fixpoint command_type (fuel : nat) (l : text) : string :=
  let l := StripLeadingComments l in
  match fuel with
  | O => command_word l
  | S fuel' =>
      match (if is_with l then outerStatementOfCTE l else []) with
      | [] => command_word l
      | outer => command_type fuel' outer
      end
  end.
Definition getCommandType (upperQuery : text) : string := command_type (length upperQuery) upperQuery.

Definition buildCommandTagFromRowCount (cmdType : string) (rowCount : Z) : string :=
  if bool_decide (cmdType = "INSERT"%string) then "INSERT 0 " +:+ fmt_d rowCount
  else if bool_decide (cmdType = "UPDATE"%string) then "UPDATE " +:+ fmt_d rowCount
  else if bool_decide (cmdType = "DELETE"%string) then "DELETE " +:+ fmt_d rowCount
  else "SELECT " +:+ fmt_d rowCount.
Definition buildCommandTag (cmdType : string) (rowsAffected : Z) : string :=
  if bool_decide (cmdType = "INSERT"%string) then "INSERT 0 " +:+ fmt_d rowsAffected
  else if bool_decide (cmdType = "UPDATE"%string) then "UPDATE " +:+ fmt_d rowsAffected
  else if bool_decide (cmdType = "DELETE"%string) then "DELETE " +:+ fmt_d rowsAffected
  else cmdType.

(** * Parameters *)

(** The number the digits at the start spell, as an int. *)
Definition leading_int (l : text) : Z := fold_left (λ n b, wrap_s 64 (n * 10 + dval b)) (leading_digits l) 0.
Fixpoint count_params (m : Z) (l : text) : Z :=
  match l with
  | [] => m
  | b :: l' =>
      count_params
        (match l' with
         | c :: _ => if bool_decide (b = x24) && byte_in 49 57 c then Z.max m (leading_int l') else m
         | [] => m
         end) l'
  end.
Definition countDollarParams (query : text) : Z := count_params 0 query.

Definition hasParameterPlaceholders (query : text) : bool :=
  (fix go (l : text) := match l with
                        | b :: l' => (bool_decide (b = x24) && match l' with c :: _ => is_digit c | [] => false end) || go l'
                        | [] => false
                        end) query.

Definition pgOIDToCast (oid : Z) : string :=
  if bool_decide (oid = 16) then "BOOLEAN" else if bool_decide (oid = 20) then "BIGINT"
  else if bool_decide (oid = 21) then "SMALLINT" else if bool_decide (oid = 23 ∨ oid = 26) then "INTEGER"
  else if bool_decide (oid = 700) then "REAL" else if bool_decide (oid = 701) then "DOUBLE"
  else if bool_decide (oid = 1043) then "VARCHAR" else if bool_decide (oid = 1082) then "DATE"
  else if bool_decide (oid = 1083) then "TIME" else if bool_decide (oid = 1114) then "TIMESTAMP"
  else if bool_decide (oid = 1184) then "TIMESTAMPTZ" else if bool_decide (oid = 1186) then "INTERVAL"
  else if bool_decide (oid = 1700) then "NUMERIC" else if bool_decide (oid = 2950) then "UUID"
  else "TEXT".

(** One pass of the replacement for placeholder [n]: the match takes the rune after
    the number, which is copied behind the cast. *)
Fixpoint cast_pass (fuel : nat) (placeholder cast : text) (l : text) : text :=
  match fuel, l with
  | S fuel', b :: l' =>
      let rest := drop (length placeholder) l in
      if has_prefix placeholder l && match rest with [] => true | c :: _ => negb (is_digit c) end then
        let k := Nat.max 1 (rune_len rest) in
        placeholder ++ cast ++ take k rest ++ cast_pass fuel' placeholder cast (drop k rest)
      else b :: cast_pass fuel' placeholder cast l'
  | _, _ => []
  end.
(** Highest index first. *)
Definition castParams (query : text) (paramTypes : list Z) : text :=
  foldr (λ it q, cast_pass (length q) (x24 :: bytes (fmt_d (Z.of_nat (S it.1)))) (bytes "::" ++ bytes (pgOIDToCast it.2)) q)
    query (imap pair paramTypes).

(** * The scanners terminate

    Skipping never lengthens the text, so more fuel than the length changes nothing. *)

Lemma skip_string_le e l : (length (skip_string e l) ≤ length l)%nat.
Proof.
  assert (∀ n l, (length l ≤ n)%nat → (length (skip_string e l) ≤ length l)%nat) as Hn; [|by apply (Hn (length l))].
  clear l. induction n as [|n IH]; intros [|b l] Hl; cbn in *; try lia.
  case_bool_decide; [destruct l as [|c l]; [cbn; lia|]; case_bool_decide; cbn in *; [|lia]|].
  - specialize (IH l). lia.
  - destruct (e && _); [destruct l as [|c l]; [cbn; lia|]; cbn in *; specialize (IH l); lia|].
    specialize (IH l). lia.
Qed.
Lemma skip_ident_le l : (length (skip_ident l) ≤ length l)%nat.
Proof.
  assert (∀ n l, (length l ≤ n)%nat → (length (skip_ident l) ≤ length l)%nat) as Hn; [|by apply (Hn (length l))].
  clear l. induction n as [|n IH]; intros [|b l] Hl; cbn in *; try lia.
  case_bool_decide; [destruct l as [|c l]; [cbn; lia|]; case_bool_decide; cbn in *; [|lia]|].
  - specialize (IH l). lia.
  - specialize (IH l). lia.
Qed.
Lemma skip_line_le l : (length (skip_line l) ≤ length l)%nat.
Proof. induction l; cbn; [done|]. case_bool_decide; cbn; lia. Qed.
Lemma skip_block_le l : (length (skip_block l) ≤ length l)%nat.
Proof.
  induction l as [|b l IH]; [done|]. cbn [skip_block]. destruct l as [|c l]; [done|].
  case_bool_decide; cbn in *; lia.
Qed.
Lemma skip_dollar_le tag l : (length (skip_dollar tag l) ≤ length l)%nat.
Proof.
  induction l as [|b l IH]; [done|]. cbn [skip_dollar]. case_bool_decide; [done|].
  destruct (has_prefix tag (b :: l)); [rewrite length_drop; lia|]. cbn. lia.
Qed.
Lemma skip_construct_le prev b l : (length (skip_construct prev b l) ≤ length l)%nat.
Proof.
  unfold skip_construct. destruct (bool_decide (b = x27)); [apply skip_string_le|]. repeat case_bool_decide; try done.
  - apply skip_ident_le.
  - destruct (parseDollarTag (b :: l)) as [tag|] eqn:E; [|done].
    etrans; [apply skip_dollar_le|]. rewrite length_drop. cbn [length].
    assert (0 < length tag)%nat; [|lia]. unfold parseDollarTag in E. case_bool_decide; [|done].
    destruct (tag_tail l); [|done]. simplify_eq/=. lia.
  - destruct l as [|c l]; [done|]. case_bool_decide; [etrans; [apply skip_line_le|]; cbn; lia|done].
  - destruct l as [|c l]; [done|]. case_bool_decide; [etrans; [apply skip_block_le|]; cbn; lia|done].
Qed.

Lemma scan_fuel top : ∀ fuel l depth prev, (length l ≤ fuel)%nat →
  scan_returning fuel top depth prev l = scan_returning (length l) top depth prev l.
Proof.
  assert (∀ n fuel l depth prev, (length l ≤ n)%nat → (length l ≤ fuel)%nat →
    scan_returning fuel top depth prev l = scan_returning (length l) top depth prev l) as H.
  { induction n as [|n IH]; intros fuel [|b l] depth prev Hn Hf; cbn in Hn, Hf; try lia; try by destruct fuel.
    destruct fuel as [|fuel]; [lia|]. cbn [length scan_returning].
    pose proof (skip_construct_le prev b l) as Hs.
    repeat case_match; try done; try (apply IH; lia).
    etrans; [apply IH; lia|]. symmetry. apply IH; lia. }
  intros fuel l depth prev Hf. by apply (H (length l)).
Qed.

Definition scan (top : bool) (depth : Z) (prev : option byte) (l : text) : bool :=
  scan_returning (length l) top depth prev l.

(** The loop, one element at a time. *)
Lemma scan_cons top depth prev b l :
  scan top depth prev (b :: l) =
  if bool_decide (b = x28) then scan top (depth + 1) (Some b) l
  else if bool_decide (b = x29) then scan top (if bool_decide (0 < depth) then depth - 1 else depth) (Some b) l
  else if bool_decide (b = x52) then
    if (negb top || bool_decide (depth = 0)) && has_prefix (bytes "RETURNING") (b :: l)
       && match prev with Some c => isWSChar c | None => false end
       && match drop 9 (b :: l) with [] => true | c :: _ => isReturningTrailer c end
    then true else scan top depth (Some b) l
  else let r := skip_construct prev b l in scan top depth (byte_before (b :: l) r) r.
Proof.
  unfold scan at 1. cbn [length scan_returning]. repeat case_match; try done.
  apply scan_fuel. apply skip_construct_le.
Qed.

(** * What the RETURNING scanner decides

    A statement as a sequence of lexical elements, and the question the scanner
    answers put on that sequence. *)

Inductive schar :=
  | SPlain (b : byte)        (** a byte that is no quote, and no backslash in an E-string *)
  | SDouble                  (** a doubled quote *)
  | SBackslash (b : byte).   (** an escape, in an E-string *)

Inductive token :=
  | TOpen | TClose
  | TByte (b : byte)
  | TR                       (** the letter R where no keyword RETURNING starts *)
  | TReturning
  | TString (e : bool) (body : list schar)
  | TIdent (body : list byte)
  | TDollar (word body : list byte)
  | TLine (body : list byte)
  | TBlock (body : list byte).

Definition render_schar (c : schar) : text :=
  match c with SPlain b => [b] | SDouble => [x27; x27] | SBackslash b => [x5c; b] end.
Definition dollar_tag (word : list byte) : text := [x24] ++ word ++ [x24].
Definition render_token (t : token) : text :=
  match t with
  | TOpen => [x28] | TClose => [x29]
  | TByte b => [b] | TR => [x52]
  | TReturning => bytes "RETURNING"
  | TString _ body => [x27] ++ (body ≫= render_schar) ++ [x27]
  | TIdent body => [x22] ++ body ++ [x22]
  | TDollar word body => dollar_tag word ++ body ++ dollar_tag word
  | TLine body => [x2d; x2d] ++ body
  | TBlock body => [x2f; x2a] ++ body ++ [x2a; x2f]
  end.
Definition render (ts : list token) : text := ts ≫= render_token.

Definition schar_ok (e : bool) (c : schar) : Prop :=
  match c with
  | SPlain b => b ≠ x27 ∧ (e = true → b ≠ x5c)
  | SDouble => True
  | SBackslash _ => e = true
  end.

Definition is_space_opt (prev : option byte) : bool := match prev with Some c => isWSChar c | None => false end.

(** The element fits between the byte before it and the text after it. *)
Definition token_ok (prev : option byte) (t : token) (rest : text) : Prop :=
  match t with
  | TOpen | TClose => True
  | TByte b => (b ∉ [x28; x29; x27; x22; x52])
      ∧ (b = x24 → parseDollarTag (x24 :: rest) = None)
      ∧ (b = x2d → head rest ≠ Some x2d) ∧ (b = x2f → head rest ≠ Some x2a)
  | TR => is_space_opt prev = false ∨ has_prefix (bytes "ETURNING") rest = false
  | TReturning => is_space_opt prev = true ∧ match rest with [] => True | c :: _ => isReturningTrailer c = true end
  | TString e body => (e = true ↔ prev = Some x45) ∧ Forall (schar_ok e) body ∧ head rest ≠ Some x27
  | TIdent body => Forall (λ b, b ≠ x22) body ∧ head rest ≠ Some x22
  | TDollar word body => Forall (λ c, tag_char c = true) word
      ∧ ∀ i, (i < length body)%nat → has_prefix (dollar_tag word) (drop i (body ++ dollar_tag word)) = false
  | TLine body => Forall (λ b, b ≠ x0a) body ∧ (rest = [] ∨ head rest = Some x0a)
  | TBlock body => ∀ i, ¬ (body !! i = Some x2a ∧ body !! S i = Some x2f)
  end.

Fixpoint tokens_ok (prev : option byte) (ts : list token) : Prop :=
  match ts with
  | [] => True
  | t :: ts' => token_ok prev t (render ts') ∧ tokens_ok (last (render_token t)) ts'
  end.

(** Whether the keyword RETURNING occurs, at parenthesis depth 0 if [top] says so. *)
Fixpoint has_returning (top : bool) (depth : Z) (ts : list token) : bool :=
  match ts with
  | [] => false
  | TOpen :: ts' => has_returning top (depth + 1) ts'
  | TClose :: ts' => has_returning top (if bool_decide (0 < depth) then depth - 1 else depth) ts'
  | TReturning :: ts' => negb top || bool_decide (depth = 0) || has_returning top depth ts'
  | _ :: ts' => has_returning top depth ts'
  end.

Lemma byte_before_app c r : byte_before (c ++ r) r = last c.
Proof.
  unfold byte_before. rewrite length_app. replace (length c + length r - length r)%nat with (length c) by lia.
  by rewrite take_app_length.
Qed.

(** Past one element that is neither a parenthesis nor an R. *)
Lemma scan_skip top depth prev b c l r :
  b ∉ [x28; x29; x52] → skip_construct prev b l = r → b :: l = c ++ r →
  scan top depth prev (b :: l) = scan top depth (last c) r.
Proof.
  intros Hb Hs Heq. rewrite !not_elem_of_cons in Hb. rewrite scan_cons.
  repeat (rewrite bool_decide_eq_false_2 by tauto). cbv zeta. rewrite Hs, Heq. by rewrite byte_before_app.
Qed.

Lemma skip_construct_plain prev b l :
  b ∉ [x27; x22] → (b = x24 → parseDollarTag (x24 :: l) = None) →
  (b = x2d → head l ≠ Some x2d) → (b = x2f → head l ≠ Some x2a) → skip_construct prev b l = l.
Proof.
  intros Hb Hd Hm Hs. rewrite !not_elem_of_cons in Hb. unfold skip_construct.
  rewrite bool_decide_eq_false_2 by tauto. rewrite bool_decide_eq_false_2 by tauto.
  case_bool_decide as H1; [by rewrite H1, Hd|].
  case_bool_decide as H2; [destruct l as [|c l]; [done|]; rewrite bool_decide_eq_false_2; [done|intros ->; by apply Hm]|].
  case_bool_decide as H3; [destruct l as [|c l]; [done|]; rewrite bool_decide_eq_false_2; [done|intros ->; by apply Hs]|done].
Qed.

Lemma scan_plain top depth prev b l : b ∉ [x28; x29; x52; x27; x22; x24; x2d; x2f] →
  scan top depth prev (b :: l) = scan top depth (Some b) l.
Proof.
  intros Hb. rewrite !not_elem_of_cons in Hb. apply (scan_skip _ _ _ _ [b]); [|apply skip_construct_plain|done];
    rewrite ?not_elem_of_cons; try tauto; split_and?; try tauto; apply not_elem_of_nil.
Qed.

Lemma scan_R_inside top depth c l : isWSChar c = false →
  scan top depth (Some c) (x52 :: l) = scan top depth (Some x52) l.
Proof.
  intros Hc. rewrite scan_cons. cbn [bool_decide]. rewrite bool_decide_eq_false_2, bool_decide_eq_false_2 by done.
  rewrite bool_decide_eq_true_2 by done. rewrite Hc, andb_false_r. done.
Qed.

(** The rest of the keyword after its first letter. *)
Lemma scan_eturning top depth l : scan top depth (Some x52) (bytes "ETURNING" ++ l) = scan top depth (Some x47) l.
Proof.
  change (bytes "ETURNING" ++ l) with (x45 :: x54 :: x55 :: x52 :: x4e :: x49 :: x4e :: x47 :: l).
  do 3 (rewrite scan_plain by (apply (bool_decide_unpack _); vm_compute; exact I)).
  rewrite scan_R_inside by done.
  do 4 (rewrite scan_plain by (apply (bool_decide_unpack _); vm_compute; exact I)). done.
Qed.

Lemma skip_string_body e body rest : Forall (schar_ok e) body → head rest ≠ Some x27 →
  skip_string e ((body ≫= render_schar) ++ x27 :: rest) = rest.
Proof.
  intros Hb Hr. induction Hb as [|c body Hc _ IH].
  - cbn. rewrite bool_decide_eq_true_2 by done. destruct rest as [|d rest]; [done|].
    rewrite bool_decide_eq_false_2; [done|]. intros ->. by apply Hr.
  - rewrite bind_cons, <- app_assoc. destruct c as [b| |b]; cbn [render_schar app skip_string].
    + destruct Hc as [H1 H2]. rewrite bool_decide_eq_false_2 by done.
      destruct e; cbn [andb]; [rewrite bool_decide_eq_false_2 by (by apply H2)|]; exact IH.
    + rewrite !bool_decide_eq_true_2 by done. exact IH.
    + cbn in Hc. subst e. rewrite bool_decide_eq_false_2 by done. rewrite bool_decide_eq_true_2 by done. exact IH.
Qed.

Lemma skip_ident_body body rest : Forall (λ b, b ≠ x22) body → head rest ≠ Some x22 →
  skip_ident (body ++ x22 :: rest) = rest.
Proof.
  intros Hb Hr. induction Hb as [|c body Hc _ IH]; cbn [app skip_ident].
  - rewrite bool_decide_eq_true_2 by done. destruct rest as [|d rest]; [done|].
    rewrite bool_decide_eq_false_2; [done|]. intros ->. by apply Hr.
  - by rewrite bool_decide_eq_false_2.
Qed.

Lemma skip_line_body body rest : Forall (λ b, b ≠ x0a) body → rest = [] ∨ head rest = Some x0a →
  skip_line (body ++ rest) = rest.
Proof.
  intros Hb Hr. induction Hb as [|c body Hc _ IH]; cbn [app skip_line].
  - destruct rest as [|d rest]; [done|]. destruct Hr as [?|Hr]; [done|]. injection Hr as ->.
    cbn. by rewrite bool_decide_eq_true_2.
  - by rewrite bool_decide_eq_false_2.
Qed.

Lemma skip_block_body body rest :
  (∀ i, ¬ (body !! i = Some x2a ∧ body !! S i = Some x2f)) → skip_block (body ++ [x2a; x2f] ++ rest) = rest.
Proof.
  induction body as [|c body IH]; intros Hn.
  - cbn. by rewrite bool_decide_eq_true_2.
  - assert (skip_block (body ++ [x2a; x2f] ++ rest) = rest) as Hr.
    { apply IH. intros i [H1 H2]. by apply (Hn (S i)). }
    cbn [app skip_block]. destruct (body ++ [x2a; x2f] ++ rest) as [|d l] eqn:E; [by destruct body|].
    cbn [app] in E. rewrite E. rewrite bool_decide_eq_false_2; [by rewrite <- Hr|].
    intros [-> ->]. destruct body as [|d' body]; cbn in E; [discriminate|]. injection E as E _.
    apply (Hn 0%nat). by rewrite E.
Qed.

Lemma has_prefix_short p a r : (length p ≤ length a)%nat → has_prefix p (a ++ r) = has_prefix p a.
Proof. intros H. unfold has_prefix. by rewrite take_app_le. Qed.

Lemma tag_tail_word word rest : Forall (λ c, tag_char c = true) word → tag_tail (word ++ x24 :: rest) = Some (word ++ [x24]).
Proof.
  induction 1 as [|c word Hc _ IH]; cbn [app tag_tail]; [by rewrite bool_decide_eq_true_2|].
  rewrite bool_decide_eq_false_2 by (intros ->; by vm_compute in Hc). by rewrite Hc, IH.
Qed.

Lemma skip_dollar_body tag body rest : (0 < length tag)%nat →
  (∀ i, (i < length body)%nat → has_prefix tag (drop i (body ++ tag)) = false) →
  skip_dollar tag (body ++ tag ++ rest) = rest.
Proof.
  intros Ht. induction body as [|c body IH]; intros Hn.
  - cbn [app]. destruct (tag ++ rest) as [|x l] eqn:El; [destruct tag; [cbn in Ht; lia|done]|].
    cbn [skip_dollar]. rewrite <- El. rewrite bool_decide_eq_false_2 by (rewrite length_app; lia).
    by rewrite has_prefix_app, drop_app_length.
  - cbn [app skip_dollar]. rewrite bool_decide_eq_false_2 by (cbn [length]; rewrite !length_app; lia).
    pose proof (Hn 0%nat ltac:(cbn; lia)) as H0. rewrite drop_0 in H0.
    change (c :: body ++ tag ++ rest) with ((c :: body) ++ tag ++ rest). rewrite app_assoc, has_prefix_short, H0.
    + apply IH. intros i Hi. by apply (Hn (S i)); cbn; lia.
    + rewrite length_app. cbn. lia.
Qed.

(** Past a quoted element or a comment. *)
Lemma scan_construct top depth prev t rest :
  match t with TString _ _ | TIdent _ | TDollar _ _ | TLine _ | TBlock _ => True | _ => False end →
  token_ok prev t rest →
  scan top depth prev (render_token t ++ rest) = scan top depth (last (render_token t)) rest.
Proof.
  intros Ht Hok. destruct t as [| | | | |e body|body|word body|body|body]; try done; cbn [token_ok] in Hok;
    cbn [render_token].
  - destruct Hok as (He & Hb & Hr). rewrite <- !app_assoc. cbn [app].
    eapply (scan_skip _ _ _ _ ([x27] ++ (body ≫= render_schar) ++ [x27]));
      [by apply (bool_decide_unpack _)| |by cbn [app]; rewrite <- !app_assoc].
    unfold skip_construct. rewrite bool_decide_eq_true_2 by done.
    replace (bool_decide (prev = Some x45)) with e by (symmetry; destruct e; [apply bool_decide_eq_true; tauto|
      apply bool_decide_eq_false; intros ?; by apply Bool.diff_false_true, He]).
    by apply skip_string_body.
  - destruct Hok as (Hb & Hr). rewrite <- !app_assoc. cbn [app].
    eapply (scan_skip _ _ _ _ ([x22] ++ body ++ [x22]));
      [by apply (bool_decide_unpack _)| |by cbn [app]; rewrite <- !app_assoc].
    unfold skip_construct. rewrite bool_decide_eq_false_2, bool_decide_eq_true_2 by done. by apply skip_ident_body.
  - destruct Hok as (Hw & Hn). unfold dollar_tag at 1. rewrite <- !app_assoc. cbn [app].
    eapply (scan_skip _ _ _ _ (dollar_tag word ++ body ++ dollar_tag word)); [by apply (bool_decide_unpack _)| |].
    2: { unfold dollar_tag. norm_app. done. }
    unfold skip_construct. do 2 (rewrite bool_decide_eq_false_2 by done). rewrite bool_decide_eq_true_2 by done.
    cbn [parseDollarTag]. rewrite bool_decide_eq_true_2 by done. rewrite tag_tail_word by done. cbn [fmap option_fmap option_map].
    change (x24 :: word ++ [x24]) with (dollar_tag word).
    change (x24 :: word ++ x24 :: body ++ dollar_tag word ++ rest) with
      ([x24] ++ word ++ [x24] ++ body ++ dollar_tag word ++ rest).
    rewrite 2!app_assoc, drop_app_length' by (unfold dollar_tag; rewrite <- app_assoc; done).
    apply skip_dollar_body; [cbn; lia|done].
  - destruct Hok as (Hb & Hr). rewrite <- !app_assoc. cbn [app].
    eapply (scan_skip _ _ _ _ ([x2d; x2d] ++ body)); [by apply (bool_decide_unpack _)| |by cbn [app]].
    unfold skip_construct. do 3 (rewrite bool_decide_eq_false_2 by done). rewrite !bool_decide_eq_true_2 by done.
    by apply skip_line_body.
  - rewrite <- !app_assoc. cbn [app].
    eapply (scan_skip _ _ _ _ ([x2f; x2a] ++ body ++ [x2a; x2f]));
      [by apply (bool_decide_unpack _)| |by cbn [app]; rewrite <- !app_assoc].
    unfold skip_construct. do 4 (rewrite bool_decide_eq_false_2 by done). rewrite !bool_decide_eq_true_2 by done.
    by apply skip_block_body.
Qed.

Lemma scan_tokens top ts : ∀ depth prev, tokens_ok prev ts →
  scan top depth prev (render ts) = has_returning top depth ts.
Proof.
  induction ts as [|t ts IH]; intros depth prev Hok; [done|]. destruct Hok as [Ht Hts].
  change (render (t :: ts)) with (render_token t ++ render ts). specialize (IH).
  destruct t as [| |b| | |e body|body|word body|body|body]; cbn [has_returning];
    try (rewrite scan_construct by done; by apply IH).
  - cbn [render_token app]. rewrite scan_cons, bool_decide_eq_true_2 by done. by apply IH.
  - cbn [render_token app]. rewrite scan_cons, bool_decide_eq_false_2, bool_decide_eq_true_2 by done. by apply IH.
  - cbn [render_token app token_ok] in *. destruct Ht as (Hb & Hd & Hm & Hs). rewrite !not_elem_of_cons in Hb.
    rewrite (scan_skip top depth prev b [b] (render ts) (render ts)).
    + by apply IH.
    + rewrite !not_elem_of_cons. split_and!; tauto.
    + apply skip_construct_plain; try done. rewrite !not_elem_of_cons. split_and!; tauto.
    + done.
  - cbn [render_token app token_ok] in *. rewrite scan_cons.
    do 2 (rewrite bool_decide_eq_false_2 by done). rewrite bool_decide_eq_true_2 by done.
    assert (has_prefix (bytes "RETURNING") (x52 :: render ts) && is_space_opt prev = false) as Hno.
    { destruct Ht as [-> |Hp]; [by rewrite andb_false_r|]. apply andb_false_iff. left. apply not_true_iff_false.
      intros Hr. unfold has_prefix in Hr, Hp. apply bool_decide_eq_true in Hr. apply bool_decide_eq_false in Hp.
      apply Hp. change (take (length (bytes "RETURNING")) (x52 :: render ts)) with
        (x52 :: take (length (bytes "ETURNING")) (render ts)) in Hr. by injection Hr. }
    fold (is_space_opt prev). rewrite <- (andb_assoc _ (has_prefix _ _)), Hno, andb_false_r. by apply IH.
  - cbn [render_token token_ok] in *. destruct Ht as [Hsp Htr].
    change (bytes "RETURNING" ++ render ts) with (x52 :: bytes "ETURNING" ++ render ts). rewrite scan_cons.
    do 2 (rewrite bool_decide_eq_false_2 by done). rewrite bool_decide_eq_true_2 by done. fold (is_space_opt prev).
    change (x52 :: bytes "ETURNING" ++ render ts) with (bytes "RETURNING" ++ render ts).
    rewrite has_prefix_app, Hsp, andb_true_r.
    change (drop 9 (bytes "RETURNING" ++ render ts)) with (render ts).
    assert (match render ts with [] => true | c :: _ => isReturningTrailer c end = true) as ->
      by (destruct (render ts); done).
    rewrite !andb_true_r. destruct (negb top || bool_decide (depth = 0)); [done|]. cbn [orb].
    rewrite scan_eturning. by apply IH.
Qed.

(** RETURNING is detected exactly where it is a keyword: on a statement made of
    well-formed lexical elements the scanner answers whether RETURNING occurs among
    them (outside all parentheses, if asked so), whatever strings, quoted names,
    dollar quotes and comments contain. *)
Theorem returning_scan_is_lexical ts top : tokens_ok None ts →
  scanForReturning (render ts) top = has_returning top 0 ts.
Proof. apply scan_tokens. Qed.

Lemma returning_scan_is_lexical_witness :
  scanForReturning (bytes "VALUES (' RETURNING ') RETURNING X") true = true.
Proof.
  refine (returning_scan_is_lexical
    ((TByte <$> bytes "VALUES ") ++ [TOpen; TString false (SPlain <$> bytes " RETURNING "); TClose; TByte x20;
      TReturning; TByte x20; TByte x58]) true _).
  cbn [tokens_ok]. repeat split; try (vm_compute; intuition congruence);
    try (apply (bool_decide_unpack _); vm_compute; exact I).
  repeat constructor; done.
Defined.

(** A string right after a word that ends in E is taken for an E-string: a
    backslash at its end hides the closing quote and the RETURNING after it. *)
Lemma returning_missed_after_like :
  containsReturning (bytes "DELETE FROM T WHERE X LIKE'\' RETURNING ID") = false
  ∧ containsReturning (bytes "DELETE FROM T WHERE X LIKE '\' RETURNING ID") = true.
Proof. split; vm_compute; reflexivity. Qed.

(** A comment that opens with a slash right after its star is closed too early. *)
Lemma slash_comment_not_stripped :
  StripLeadingComments (bytes "/*/ x */ SELECT 1") = bytes "x */ SELECT 1".
Proof. vm_compute. reflexivity. Qed.

(** Placeholders inside string literals are cast like any other. *)
Lemma cast_rewrites_literals :
  castParams (bytes "SELECT '$1 off'") [0] = bytes "SELECT '$1::TEXT off'".
Proof. vm_compute. reflexivity. Qed.
