(* ===== verification/ErrorCodes.v ===== *)
(** How the server reads DuckDB's errors (src/server/conn.go, server.go,
    transient.go): cancellations, DuckLake conflicts, broken connections, and the
    SQLSTATE sent to the client. DuckDB reports nothing but a message, so every
    decision is a test on its text. *)

From Stdlib Require Import Strings.Byte.
From stdpp Require Import prelude strings list.
From Stdlib Require Import ZArith Lia.
From S2P Require Import Prelude GoText BinaryTypes.

Open Scope Z_scope.

(** A Go error: its text, and whether the connection's context was done when the
    error was examined (the client asked for the cancellation). *)
Record error := { Error : string; ctx_done : bool }.

Section classify.
Context `{UnicodeCase}.

(** The text has all of these parts. *)
Definition has_all (s : string) (parts : list string) : bool := forallb (Contains s) parts.
Definition has_any (s : string) (parts : list string) : bool := existsb (Contains s) parts.

(** [context.Canceled] has the text it is recognised by. *)
Definition isQueryCancelled (err : error) : bool := Contains (Error err) "context canceled".
Definition isCallerCancellation (err : error) : bool := isQueryCancelled err && ctx_done err.
Definition isDuckLakeTransactionConflict (err : error) : bool := Contains (Error err) "Transaction conflict".
Definition isDuckLakeMetadataConnectionLost (err : error) : bool :=
  has_all (Error err) ["DuckLake transaction"; "SSL connection has been closed unexpectedly"]%string.
Definition isTransactionAborted (err : error) : bool := Contains (Error err) "Current transaction is aborted".

Definition isConnectionBroken (err : error) : bool :=
  has_any (ToLower (Error err))
    ["ssl connection has been closed"; "connection refused"; "broken pipe"; "connection reset";
     "network is unreachable"; "no route to host"; "i/o timeout"; "use of closed network connection"]%string.

Definition isTransientDuckLakeError (err : error) : bool :=
  has_any (Error err)
    ["name resolution"; "could not translate host name"; "could not connect to server"; "Connection refused";
     "connection reset by peer"; "connection timed out"; "server closed the connection unexpectedly";
     "SSL connection has been closed unexpectedly"; "Current transaction is aborted"; "no route to host";
     "network is unreachable"]%string.

Definition isAlterTableNotTableError (err : error) : bool :=
  let msg := ToLower (Error err) in
  has_all msg ["cannot use alter table"; "not a table"]%string
  || Contains msg "can only modify view with alter view statement".
Definition isDropTableOnViewError (err : error) : bool :=
  has_all (Error err) ["is of type View"; "trying to drop type Table"]%string.

(** * SQLSTATE *)

Definition catalogErrorCode (msg : string) : string :=
  let lower := ToLower msg in
  if has_all lower ["schema"; "does not exist"] then "3F000"
  else if has_all lower ["table with name"; "does not exist"] then "42P01"
  else if has_all lower ["view with name"; "does not exist"] then "42P01"
  else if Contains lower "function" && has_any lower ["does not exist"; "with these arguments"] then "42883"
  else if Contains lower "no function matches" then "42883"
  else if has_all lower ["type"; "does not exist"] then "42704"
  else if Contains lower "does not exist" then "42704"
  else if Contains lower "already exists" then
    if Contains lower "function" then "42723"
    else if Contains lower "schema" then "42P06" else "42P07"
  else "42000".

Definition binderErrorCode (msg : string) : string :=
  let lower := ToLower msg in
  if has_all lower ["referenced column"; "not found"] then "42703"
  else if has_all lower ["column"; "does not exist"] then "42703"
  else if Contains lower "ambiguous" then "42702"
  else if has_all lower ["referenced table"; "not found"] then "42P01"
  else if Contains lower "no function matches" then "42883"
  else "42601".

Definition conversionErrorCode (msg : string) : string :=
  if has_any (ToLower msg) ["out of range"; "overflow"; "would be out of range"] then "22003" else "22P02".

Definition constraintErrorCode (msg : string) : string :=
  let lower := ToLower msg in
  if has_any lower ["duplicate key"; "unique"] then "23505"
  else if has_any lower ["not null"; "null value"] then "23502"
  else if Contains lower "foreign key" then "23503"
  else if Contains lower "check constraint" then "23514"
  else "23000".

Definition classifyErrorCode (err : error) : string :=
  if isQueryCancelled err then "57014"
  else if isDuckLakeTransactionConflict err then "40001"
  else
    let msg := Error err in
    if HasPrefix msg "Catalog Error:" then catalogErrorCode msg
    else if HasPrefix msg "Binder Error:" then binderErrorCode msg
    else if HasPrefix msg "Parser Error:" then "42601"
    else if HasPrefix msg "Conversion Error:" then conversionErrorCode msg
    else if HasPrefix msg "Out of Range Error:" then "22003"
    else if HasPrefix msg "Constraint Error:" then constraintErrorCode msg
    else if HasPrefix msg "Permission Error:" then "42501"
    else if HasPrefix msg "Transaction Error:" || HasPrefix msg "TransactionContext Error:" then "25000"
    else if HasPrefix msg "Dependency Error:" then "2BP01"
    else "XX000".

Definition userErrorSQLSTATEClasses : list string :=
  ["0A"; "22"; "23"; "25"; "28"; "2B"; "3D"; "3F"; "42"; "44"]%string.

Definition isUserQueryError (err : error) : bool :=
  let code := bytes (classifyErrorCode err) in
  if bool_decide (length code < 2)%nat then false
  else bool_decide (str (take 2 code) ∈ userErrorSQLSTATEClasses).

(** The level logQueryError logs at. *)
Inductive log_level := LogInfo | LogWarn | LogError.
#[export] Instance log_level_eq_dec : EqDecision log_level.
Proof. solve_decision. Defined.

Definition logQueryError (err : error) : log_level :=
  if isDuckLakeTransactionConflict err then LogWarn
  else if isDuckLakeMetadataConnectionLost err then LogWarn
  else if isUserQueryError err then LogInfo
  else LogError.

(** * What the codes say *)

(** The exception classes DuckDB puts in front of an error a statement caused. *)
Definition user_prefixes : list string :=
  ["Catalog Error:"; "Binder Error:"; "Parser Error:"; "Conversion Error:"; "Out of Range Error:";
   "Constraint Error:"; "Permission Error:"; "Transaction Error:"; "TransactionContext Error:";
   "Dependency Error:"]%string.

Definition user_code (code : string) : bool :=
  bool_decide (2 ≤ length (bytes code))%nat && bool_decide (str (take 2 (bytes code)) ∈ userErrorSQLSTATEClasses).

Ltac by_cases := repeat (match goal with |- context[if ?b then _ else _] => destruct b end); vm_compute; reflexivity.

Lemma catalog_code_user msg : user_code (catalogErrorCode msg) = true.
Proof. unfold catalogErrorCode. by_cases. Qed.
Lemma binder_code_user msg : user_code (binderErrorCode msg) = true.
Proof. unfold binderErrorCode. by_cases. Qed.
Lemma conversion_code_user msg : user_code (conversionErrorCode msg) = true.
Proof. unfold conversionErrorCode. by_cases. Qed.
Lemma constraint_code_user msg : user_code (constraintErrorCode msg) = true.
Proof. unfold constraintErrorCode. by_cases. Qed.

Lemma isUserQueryError_code err : isUserQueryError err = user_code (classifyErrorCode err).
Proof.
  unfold isUserQueryError, user_code. cbv zeta.
  destruct (decide (length (bytes (classifyErrorCode err)) < 2)%nat) as [Hl|Hl].
  - rewrite bool_decide_eq_true_2, bool_decide_eq_false_2 by lia. done.
  - rewrite bool_decide_eq_false_2, (bool_decide_eq_true_2 (2 ≤ _)%nat) by lia. done.
Qed.

Lemma prefixed_code_user msg :
  user_code (if HasPrefix msg "Catalog Error:" then catalogErrorCode msg
    else if HasPrefix msg "Binder Error:" then binderErrorCode msg
    else if HasPrefix msg "Parser Error:" then "42601"
    else if HasPrefix msg "Conversion Error:" then conversionErrorCode msg
    else if HasPrefix msg "Out of Range Error:" then "22003"
    else if HasPrefix msg "Constraint Error:" then constraintErrorCode msg
    else if HasPrefix msg "Permission Error:" then "42501"
    else if HasPrefix msg "Transaction Error:" || HasPrefix msg "TransactionContext Error:" then "25000"
    else if HasPrefix msg "Dependency Error:" then "2BP01"
    else "XX000")%string
  = existsb (HasPrefix msg) user_prefixes.
Proof.
  unfold user_prefixes. cbn [existsb].
  destruct (HasPrefix msg "Catalog Error:"); [apply catalog_code_user|].
  destruct (HasPrefix msg "Binder Error:"); [apply binder_code_user|].
  destruct (HasPrefix msg "Parser Error:"); [reflexivity|].
  destruct (HasPrefix msg "Conversion Error:"); [apply conversion_code_user|].
  destruct (HasPrefix msg "Out of Range Error:"); [reflexivity|].
  destruct (HasPrefix msg "Constraint Error:"); [apply constraint_code_user|].
  do 4 (match goal with |- context[HasPrefix ?m ?p] => destruct (HasPrefix m p) end; try reflexivity).
Qed.

(** An error counts as the user's fault exactly when DuckDB blamed the statement:
    it is no cancellation and no commit conflict, and its text starts with one of
    the exception classes. Everything else, failing workers included, is logged as
    a system error. *)
Theorem user_error_iff err :
  isUserQueryError err = true ↔
  isQueryCancelled err = false ∧ isDuckLakeTransactionConflict err = false ∧
  Exists (λ p, HasPrefix (Error err) p = true) user_prefixes.
Proof.
  rewrite isUserQueryError_code. unfold classifyErrorCode. cbv zeta.
  destruct (isQueryCancelled err); [change (user_code "57014") with false; naive_solver|].
  destruct (isDuckLakeTransactionConflict err); [change (user_code "40001") with false; naive_solver|].
  rewrite prefixed_code_user, existsb_exists, Exists_exists. setoid_rewrite list_elem_of_In.
  split; [intros (p & ? & ?)|intros (_ & _ & p & ? & ?)]; eauto.
Qed.
End classify.

(** * Substrings *)

Lemma index_app p pre post : index p (pre ++ p ++ post) ≠ None.
Proof.
  induction pre as [|b pre IH]; cbn [app].
  - destruct (p ++ post) eqn:E; cbn [index]; rewrite <- E, has_prefix_app; done.
  - cbn [index]. case_match; [done|]. destruct (index p _); done.
Qed.

Lemma Contains_intro s p pre post : bytes s = pre ++ bytes p ++ post → Contains s p = true.
Proof. intros Hs. unfold Contains. rewrite Hs. apply bool_decide_eq_true_2, index_app. Qed.

(** * A missing table *)

(** DuckDB's message for a table that does not exist. *)
Definition missing_table (t : string) : error :=
  {| Error := str (bytes "Catalog Error: Table with name " ++ bytes t ++ bytes " does not exist!"); ctx_done := false |}.

(** The text of a message in lower case. *)
Lemma lower_missing_table `{UnicodeCase} t : is_ascii (bytes t) = true →
  bytes (ToLower (Error (missing_table t)))
  = bytes "catalog error: table with name " ++ (lower_byte <$> bytes t) ++ bytes " does not exist!".
Proof.
  intros Ht. unfold missing_table, ToLower. cbn [Error]. rewrite !bytes_str.
  assert (is_ascii (bytes "Catalog Error: Table with name " ++ bytes t ++ bytes " does not exist!") = true) as ->.
  { unfold is_ascii in *. rewrite !forallb_app, Ht. done. }
  by rewrite !fmap_app.
Qed.

(** DuckDB says that a table is missing in the same words whatever its name is; when
    the name contains "schema" (the schema_migrations table of many frameworks), the
    client is told that a schema is missing (3F000) instead of a table (42P01). *)
Theorem missing_table_blamed_on_schema `{UnicodeCase} t pre post :
  is_ascii (bytes t) = true → bytes t = pre ++ bytes "schema" ++ post →
  isQueryCancelled (missing_table t) = false → isDuckLakeTransactionConflict (missing_table t) = false →
  classifyErrorCode (missing_table t) = "3F000"%string.
Proof.
  intros Ha Ht Hc Hx. unfold classifyErrorCode. rewrite Hc, Hx. cbv zeta.
  assert (HasPrefix (Error (missing_table t)) "Catalog Error:" = true) as ->.
  { unfold HasPrefix, missing_table. cbn [Error]. rewrite bytes_str. reflexivity. }
  pose proof (lower_missing_table t Ha) as Hl. unfold catalogErrorCode, has_all. cbn [forallb].
  rewrite (Contains_intro _ "schema" (bytes "catalog error: table with name " ++ (lower_byte <$> pre))
             ((lower_byte <$> post) ++ bytes " does not exist!")).
  - rewrite (Contains_intro _ "does not exist" (bytes "catalog error: table with name " ++ (lower_byte <$> bytes t) ++ [x20]) [x21]).
    + done.
    + rewrite Hl, <- !app_assoc. done.
  - rewrite Hl, Ht, !fmap_app, <- !app_assoc. done.
Qed.

Lemma missing_table_blamed_on_schema_witness :
  let H := ascii_case in classifyErrorCode (missing_table "schema_migrations") = "3F000"%string.
Proof.
  cbv zeta. apply (@missing_table_blamed_on_schema ascii_case "schema_migrations" [] (bytes "_migrations"));
    vm_compute; reflexivity.
Defined.
