(* ===== verification/Session.v ===== *)
(** The state of one client connection (src/server/conn.go, type clientConn) and
    what both query protocols share: the transaction status, the prepared
    statements and portals, the emulated cursors, retries of failed statements, and
    the streaming of rows.

    A handler runs in a state monad over the connection, the database behind the
    executor, and the messages sent so far; a handler that panics stops there. The
    parser (pg_query), the transpiler, the executor and the connection registry are
    the fields of the class [Env]. Messages are kept as data: [CopyBinary] and
    [Wire] give their bytes. Writes to the client are taken to succeed; a failed
    write ends the connection. *)

From Stdlib Require Import Strings.Byte.
From stdpp Require Import prelude gmap strings list sorting.
From Stdlib Require Import ZArith Lia.
From S2P Require Import Prelude GoText GoRegexp GoTime Values BinaryTypes CopyBinary SqlScan ErrorCodes.

Open Scope Z_scope.

(** * The outside world *)

Inductive txStatus_t := txStatusIdle | txStatusTransaction | txStatusError.
#[export] Instance txStatus_eq_dec : EqDecision txStatus_t.
Proof. solve_decision. Defined.

(** An open result set: the columns with their type names, whether asking for the
    types fails, the rows still to come (a row whose Scan fails is its error), the
    error the iteration ends in, and whether it has ended. *)
Record rowset := {
  rs_columns : list (string * string) + error;
  rs_types_err : option error;
  rs_rows : list (list value + error);
  rs_err : option error;
  rs_ended : bool }.

(** [rows.Err()]: nil until [Next] has returned false. *)
Definition rs_Err (rs : rowset) : option error := if rs_ended rs then rs_err rs else None.

(** What the handlers look at in a parsed statement. *)
Inductive fetch_direction := FETCH_DIRECTION_UNDEFINED | FETCH_FORWARD | FETCH_BACKWARD | FETCH_ABSOLUTE | FETCH_RELATIVE.
Inductive stmt_kind (node : Type) :=
  | DeclareCursorStmt (portalname : string) (query : node)
  | FetchStmt (dir : fetch_direction) (howMany : Z) (portalname : string) (ismove : bool)
  | ClosePortalStmt (portalname : string)
  | OtherStmt.
Arguments DeclareCursorStmt {node}.
Arguments FetchStmt {node}.
Arguments ClosePortalStmt {node}.
Arguments OtherStmt {node}.

Record transpile_result := {
  SQL : text; ParamCount : Z; IsIgnoredSet : bool; IsNoOp : bool; NoOpTag : string;
  TransformError : option string; Statements : list text; CleanupStatements : list text; FallbackToNative : bool }.

(** What the connection registry knows of a connection. *)
Record conn_info := {
  ci_pid : Z; ci_database : string; ci_username : string; ci_applicationName : string;
  ci_addr : option (string * Z); ci_backendStart : Time; ci_query : text; ci_queryStart : option Time;
  ci_txStatus : txStatus_t; ci_workerID : Z }.

Class Env := {
  env_case :: UnicodeCase;
  (** two runes that are not both ASCII are equal under case folding *)
  fold_other : list byte → list byte → bool;
  (** strconv.Quote *)
  Quote : string → string;
  (** pg_query *)
  pg_node : Type;
  pg_Parse : text → option (list pg_node);
  pg_kind : pg_node → stmt_kind pg_node;
  pg_Deparse : pg_node → text + string;
  (** the transpiler, with and without conversion of placeholders *)
  Transpile : bool → text → transpile_result + string;
  ConvertAlterTableToAlterView : text → option text;
  ConvertDropTableToDropView : text → option text;
  (** the executor *)
  DB : Type;
  db_Query : text → list value → DB → (rowset + error) * DB;
  db_Exec : text → list value → DB → (Z + error) * DB;
  (** the connection's fixed settings *)
  passthrough : bool;
  logicalCatalogMapping : bool;
  database : string;
  (** the registry of connections as this one, in this status and running this
      query, sees it; and the progress the workers report *)
  listConns : txStatus_t → text → list conn_info;
  progressFn : option (Z → Z * Z * Z * bool);
  (** COPY FROM STDIN: the name of a fresh temporary file or the error of creating
      it, the error of a write to it, and Exec while it holds these bytes *)
  createTemp : string + string;
  tmp_write : list byte → option string;
  db_ExecFile : string → list byte → text → DB → (Z + error) * DB;
  (** a remote worker: opening the upload, a chunk of it, its regular end, its abort *)
  remote : bool;
  remote_open : text → DB → option string * DB;
  remote_chunk : list byte → DB → option string * DB;
  remote_close : DB → (Z + string) * DB;
  remote_cancel : DB → DB;
  (** the bulk appender of the driver, if it is linked *)
  db_Append : option (list string → list (list value) → DB → (Z + string) * DB);
  env_float :: GoFloat;
  (** the String method of a driver value *)
  duck_String : value → option string;
  (** what [%v] prints for a pointer or a driver value *)
  sprint_other : value → string;
}.

(** * State *)

Inductive cursorOp :=
  | cursorOpNone | cursorOpDeclare | cursorOpFetch | cursorOpClose | cursorOpPgCursorsQuery | cursorOpPgStatActivity.
#[export] Instance cursorOp_eq_dec : EqDecision cursorOp.
Proof. solve_decision. Defined.

Record cursorState := {
  cs_query : text; cs_rows : option rowset; cs_cols : list string; cs_colTypes : list string; cs_typeOIDs : list Z }.

Record preparedStmt := {
  ps_query : text; ps_convertedQuery : text; ps_paramTypes : list Z; ps_numParams : Z;
  ps_isIgnoredSet : bool; ps_isNoOp : bool; ps_noOpTag : string; ps_described : bool;
  ps_statements : list text; ps_cleanupStatements : list text;
  ps_cursorOp : cursorOp; ps_cursorName : string; ps_cursorQuery : text; ps_fetchCount : Z }.

(** A portal holds a pointer to its statement: an index into the statements the
    connection has allocated. *)
Record portal := {
  p_stmt : nat; p_paramValues : list (option (list byte)); p_paramFormats : list Z; p_resultFormats : list Z;
  p_described : bool }.

Record conn := {
  c_heap : list preparedStmt;
  c_stmts : gmap string nat;
  c_portals : gmap string portal;
  c_cursors : gmap string cursorState;
  c_txStatus : txStatus_t }.

Definition newConn : conn :=
  {| c_heap := []; c_stmts := ∅; c_portals := ∅; c_cursors := ∅; c_txStatus := txStatusIdle |}.

(** The messages a handler sends. *)
Inductive reply :=
  | ErrorResponse (severity code message : string)
  | NoticeResponse (severity code message : string)
  | ParseComplete | BindComplete | CloseComplete | NoData | EmptyQueryResponse
  | ParameterDescription (oids : list Z)
  | RowDescription (cols : list (string * string)) (formats : list Z)
  | SyntheticRowDescription (cols : list (string * Z * Z)) (formats : list Z)
  | DataRow (values : list value) (formats typeOIDs : list Z)
  | CommandComplete (tag : string)
  | CopyInResponse (numCols : Z) (textFormat : bool)
  | CopyOutResponse (numCols : Z) (textFormat : bool)
  | CopyDataOut (data : list byte)
  | CopyDoneOut
  | ReadyForQuery (st : txStatus_t).

Section monad.
Context `{Env}.

(** [w_in] is what the client has yet to send: message types and bodies. *)
Record world := { w_conn : conn; w_db : DB; w_out : list reply; w_in : list (byte * list byte) }.

Inductive res (A : Type) := Ok (a : A) | Crash (p : panic_reason).
#[global] Arguments Ok {A} a.
#[global] Arguments Crash {A} p.

Definition M (A : Type) : Type := world → res A * world.
#[global] Instance M_ret : MRet M := λ A a w, (Ok a, w).
#[global] Instance M_bind : MBind M := λ A B f m w,
  match m w with
  | (Ok a, w') => f a w'
  | (Crash p, w') => (Crash p, w')
  end.

Definition crash {A} (p : panic_reason) : M A := λ w, (Crash p, w).
Definition gets {A} (f : conn → A) : M A := λ w, (Ok (f (w_conn w)), w).
Definition modify (f : conn → conn) : M () :=
  λ w, (Ok (), {| w_conn := f (w_conn w); w_db := w_db w; w_out := w_out w; w_in := w_in w |}).
Definition send (r : reply) : M () :=
  λ w, (Ok (), {| w_conn := w_conn w; w_db := w_db w; w_out := w_out w ++ [r]; w_in := w_in w |}).
(** A call on the database. *)
Definition on_db {A} (f : DB → A * DB) : M A :=
  λ w, let '(r, d) := f (w_db w) in (Ok r, {| w_conn := w_conn w; w_db := d; w_out := w_out w; w_in := w_in w |}).
Definition query (sql : text) (args : list value) : M (rowset + error) := on_db (db_Query sql args).
Definition exec (sql : text) (args : list value) : M (Z + error) := on_db (db_Exec sql args).
(** [wire.ReadMessage]; None when the client has left. *)
Definition recv : M (option (byte * list byte)) :=
  λ w, match w_in w with
       | [] => (Ok None, w)
       | m :: ms => (Ok (Some m), {| w_conn := w_conn w; w_db := w_db w; w_out := w_out w; w_in := ms |})
       end.

Definition set_heap (h : list preparedStmt) (c : conn) : conn :=
  {| c_heap := h; c_stmts := c_stmts c; c_portals := c_portals c; c_cursors := c_cursors c; c_txStatus := c_txStatus c |}.
Definition set_stmts (m : gmap string nat) (c : conn) : conn :=
  {| c_heap := c_heap c; c_stmts := m; c_portals := c_portals c; c_cursors := c_cursors c; c_txStatus := c_txStatus c |}.
Definition set_portals (m : gmap string portal) (c : conn) : conn :=
  {| c_heap := c_heap c; c_stmts := c_stmts c; c_portals := m; c_cursors := c_cursors c; c_txStatus := c_txStatus c |}.
Definition set_cursors (m : gmap string cursorState) (c : conn) : conn :=
  {| c_heap := c_heap c; c_stmts := c_stmts c; c_portals := c_portals c; c_cursors := m; c_txStatus := c_txStatus c |}.
Definition set_tx (t : txStatus_t) (c : conn) : conn :=
  {| c_heap := c_heap c; c_stmts := c_stmts c; c_portals := c_portals c; c_cursors := c_cursors c; c_txStatus := t |}.

Definition sendError (code message : string) : M () := send (ErrorResponse "ERROR" code message).
Definition sendNotice (severity code message : string) : M () := send (NoticeResponse severity code message).

(** * Transaction status *)

Definition setTxError : M () :=
  tx ← gets c_txStatus;
  if bool_decide (tx = txStatusTransaction) then modify (set_tx txStatusError) else mret ().

(** * Cursors *)

Definition closeCursor (name : string) : M () := modify (λ c, set_cursors (delete name (c_cursors c)) c).
Definition closeAllCursors : M () :=
  names ← gets (λ c, (map_to_list (c_cursors c)).*1);
  foldr (λ name k, closeCursor name ;; k) (mret ()) names.

Definition updateTxStatus (cmdType : string) : M () :=
  if bool_decide (cmdType = "BEGIN"%string) then modify (set_tx txStatusTransaction)
  else if bool_decide (cmdType = "COMMIT"%string ∨ cmdType = "ROLLBACK"%string)
  then modify (set_tx txStatusIdle) ;; closeAllCursors
  else mret ().

Definition put_cursor (name : string) (cs : cursorState) : M () := modify (λ c, set_cursors (<[name := cs]> (c_cursors c)) c).

Definition type_oids (cols : list (string * string)) : list Z := (λ c, OID (getTypeInfo c.2)) <$> cols.

(** Runs the cursor's query and keeps its result set and metadata. *)
Definition openCursor (name : string) (cursor : cursorState) : M (option error) :=
  r ← query (cs_query cursor) [];
  match r with
  | inr err => mret (Some err)
  | inl rows =>
      match rs_columns rows, rs_types_err rows with
      | inr err, _ => mret (Some err)
      | inl cols, Some err =>
          put_cursor name {| cs_query := cs_query cursor; cs_rows := None; cs_cols := cols.*1;
                             cs_colTypes := cs_colTypes cursor; cs_typeOIDs := cs_typeOIDs cursor |} ;;
          mret (Some err)
      | inl cols, None =>
          put_cursor name {| cs_query := cs_query cursor; cs_rows := Some rows; cs_cols := cols.*1;
                             cs_colTypes := cols.*2; cs_typeOIDs := type_oids cols |} ;;
          mret None
      end
  end.

(** The columns of a cursor, opened if need be; None when it is missing or fails to open. *)
Definition getCursorSchema (name : string) : M (option (list (string * string))) :=
  cs ← gets (λ c, c_cursors c !! name);
  match cs with
  | None => mret None
  | Some cursor =>
      err ← (if cs_rows cursor then mret None else openCursor name cursor);
      match err with
      | Some _ => mret None
      | None => cs' ← gets (λ c, c_cursors c !! name);
                mret ((λ cursor, zip (cs_cols cursor) (cs_colTypes cursor)) <$> cs')
      end
  end.

Definition isFetchForwardOnly (dir : fetch_direction) : bool :=
  match dir with FETCH_DIRECTION_UNDEFINED | FETCH_FORWARD => true | _ => false end.

(** * Rows *)

(** [for rowCount < howMany && rows.Next()]: the rows sent, or the error of a Scan,
    and the result set afterwards. *)
Fixpoint fetch_rows (howMany count : Z) (formats typeOIDs : list Z) (l : list (list value + error))
    : M ((Z + error) * list (list value + error) * bool) :=
  if bool_decide (count < howMany) then
    match l with
    | [] => mret (inl count, [], true)
    | inr err :: l' => mret (inr err, l', false)
    | inl values :: l' =>
        send (DataRow values formats typeOIDs) ;;
        fetch_rows howMany (count + 1) formats typeOIDs l'
    end
  else mret (inl count, l, false).

Definition rs_after (rs : rowset) (l : list (list value + error)) (ended : bool) : rowset :=
  {| rs_columns := rs_columns rs; rs_types_err := rs_types_err rs; rs_rows := l; rs_err := rs_err rs;
     rs_ended := rs_ended rs || ended |}.
Definition with_rows (cursor : cursorState) (rs : rowset) : cursorState :=
  {| cs_query := cs_query cursor; cs_rows := Some rs; cs_cols := cs_cols cursor; cs_colTypes := cs_colTypes cursor;
     cs_typeOIDs := cs_typeOIDs cursor |}.

(** [for rows.Next()] with Execute's row limit, 0 for none; the count is compared as an int32. *)
Fixpoint stream_rows (maxRows count : Z) (formats typeOIDs : list Z) (l : list (list value + error))
    : M ((Z + error) * bool) :=
  match l with
  | [] => mret (inl count, true)
  | r :: l' =>
      if bool_decide (0 < maxRows) && bool_decide (maxRows ≤ wrap_s 32 count) then mret (inl count, false)
      else match r with
           | inr err => mret (inr err, false)
           | inl values =>
               send (DataRow values formats typeOIDs) ;;
               stream_rows maxRows (count + 1) formats typeOIDs l'
           end
  end.

(** A RowDescription indexes the column types by the columns. *)
Definition sendRowDescription (cols : list string) (colTypes : list string) (formats : list Z) : M () :=
  if bool_decide (length colTypes < length cols)%nat then crash IndexOutOfRange
  else send (RowDescription (zip cols colTypes) formats).

(** The client is told 57014 when it asked for the cancellation, else 42000. *)
Definition row_error (err : error) : M () :=
  (if isCallerCancellation err then sendError "57014" "canceling statement due to user request"
   else sendError "42000" (Error err)) ;;
  setTxError.

(** The error of a statement that failed to start. *)
Definition statement_error (err : error) : M () :=
  sendError (classifyErrorCode err)
    (if isCallerCancellation err then "canceling statement due to user request" else Error err) ;;
  setTxError.

(** * Retries (transient.go) *)

Definition conflictMaxRetries : nat := 5.

Definition retries_exhausted (err : error) : error :=
  {| Error := "DuckLake transaction conflict: retries exhausted after 5 attempts: " +:+ Error err; ctx_done := ctx_done err |}.

Fixpoint retry_attempts {A} (n : nat) (lastErr : error) (fn : M (A + error)) : M (A + error) :=
  match n with
  | O => mret (inr (retries_exhausted lastErr))
  | S n' =>
      r ← fn;
      match r with
      | inl a => mret (inl a)
      | inr err => if isDuckLakeTransactionConflict err then retry_attempts n' err fn else mret (inr err)
      end
  end.
Definition retryOnConflict {A} (err : error) (fn : M (A + error)) : M (A + error) :=
  retry_attempts conflictMaxRetries err fn.

Definition recoverAbortedTransaction {A} (err : error) (canRollback : bool) (retry : M (A + error)) : M (A + error) :=
  if negb canRollback || negb (isTransactionAborted err) then mret (inr err)
  else
    r ← exec (bytes "ROLLBACK") [];
    match r with
    | inr rollbackErr =>
        mret (inr {| Error := "DuckLake aborted transaction recovery rollback failed: " +:+ Error rollbackErr
                              +:+ " (original error: " +:+ Error err +:+ ")"; ctx_done := ctx_done rollbackErr |})
    | inl _ => retry
    end.

(** Runs a statement; outside a transaction a conflict is retried and an aborted
    transaction left by the engine is rolled back, once, before another try. *)
Definition run_recovering {A} (run : M (A + error)) : M (A + error) :=
  tx ← gets c_txStatus;
  let idle := bool_decide (tx = txStatusIdle) in
  r ← run;
  r ← match r with
      | inr err => if idle && isDuckLakeTransactionConflict err then retryOnConflict err run else mret (inr err)
      | inl a => mret (inl a)
      end;
  match r with
  | inr err => recoverAbortedTransaction err idle run
  | inl a => mret (inl a)
  end.

(** Exec, taking ALTER or DROP TABLE on a view for the statement on the view. *)
Definition run_exec (sql : text) (args : list value) : M (Z + error) :=
  r ← exec sql args;
  match r with
  | inl n => mret (inl n)
  | inr err =>
      match (if isAlterTableNotTableError err then ConvertAlterTableToAlterView sql else None) with
      | Some altered => exec altered args
      | None =>
          match (if isDropTableOnViewError err then ConvertDropTableToDropView sql else None) with
          | Some altered => exec altered args
          | None => mret (inr err)
          end
      end
  end.

(** * Checks on the text of a query *)

(** [strings.Replace(s, old, "", 1)] *)
Definition remove_first (old s : string) : string :=
  match index (bytes old) (bytes s) with
  | Some i => str (take i (bytes s) ++ drop (i + length (bytes old)) (bytes s))
  | None => s
  end.

Definition validateWithDuckDB (sql : text) : M (option string) :=
  if isDuckDBUtilityCommand sql then mret None
  else if HasPrefix (ToUpper (TrimSpace (str (StripLeadingComments sql)))) "EXPLAIN" then mret None
  else if hasParameterPlaceholders sql then mret None
  else
    r ← exec (bytes "EXPLAIN " ++ sql) [];
    match r with
    | inr err => mret (Some (remove_first "EXPLAIN " (Error err)))
    | inl _ => mret None
    end.

(** [strings.EqualFold] *)
Definition rune_fold_eq (a b : list byte) : bool :=
  match a, b with
  | [x], [y] => bool_decide (lower_byte x = lower_byte y)
  | _, _ => bool_decide (a = b) || fold_other a b
  end.
Fixpoint all2b {A B} (f : A → B → bool) (l : list A) (k : list B) : bool :=
  match l, k with
  | [], [] => true
  | a :: l', b :: k' => f a b && all2b f l' k'
  | _, _ => false
  end.
Definition EqualFold (s t : string) : bool := all2b rune_fold_eq (chunks (bytes s)) (chunks (bytes t)).

(** The name in a USE: double quotes are removed, doubled ones undoubled. *)
Fixpoint undouble (l : text) : text :=
  match l with
  | x22 :: ((x22 :: l') as _rest) => x22 :: undouble l'
  | b :: l' => b :: undouble l'
  | [] => []
  end.
Definition unquote (target : text) : text :=
  if bool_decide (2 ≤ length target)%nat && bool_decide (head target = Some x22) && bool_decide (last target = Some x22)
  then undouble (take (length target - 2) (drop 1 target))
  else target.

Definition rewriteDirectQuery (sql : text) : text :=
  if passthrough || negb logicalCatalogMapping || bool_decide (TrimSpace database = ""%string) then sql
  else
    let stripped := TrimSpace (str (StripLeadingComments sql)) in
    if bool_decide (stripped = ""%string) then sql
    else
      let hasSemicolon := HasSuffix stripped ";" in
      let finish (s : string) := bytes (if hasSemicolon then s +:+ ";" else s) in
      let trimmed := TrimSpace (TrimSuffix stripped ";") in
      if EqualFold trimmed "SHOW DATABASES" then finish "SELECT current_database() AS database_name"
      else if bool_decide (length (bytes trimmed) < 3)%nat || negb (EqualFold (str (take 3 (bytes trimmed))) "USE") then sql
      else
        let target := TrimSpace (str (drop 3 (bytes trimmed))) in
        if bool_decide (target = ""%string) then sql
        else
          let unquoted := str (unquote (bytes target)) in
          if EqualFold unquoted database || EqualFold unquoted "ducklake" then finish "USE ducklake.main"
          else if EqualFold unquoted "iceberg" then finish "USE iceberg.public"
          else sql.
End monad.
