(* ===== verification/ExtendedProtocol.v ===== *)
(** The extended query protocol (src/server/conn.go: handleParse, handleBind,
    handleDescribe, handleExecute, handleClose and the cursor and registry queries
    they intercept), over the connection state of [Session]. *)

From Stdlib Require Import Strings.Byte.
From stdpp Require Import prelude gmap strings list sorting.
From Stdlib Require Import ZArith Lia.
From S2P Require Import Prelude GoText GoRegexp GoTime Values BinaryTypes CopyBinary SqlScan ErrorCodes Session.

Open Scope Z_scope.

(** * Readers *)

Fixpoint readCString (r : list byte) : option (text * list byte) :=
  match r with
  | [] => None
  | b :: r' => if bool_decide (b = x00) then Some ([], r')
               else (λ '(s, rest), (b :: s, rest)) <$> readCString r'
  end.

(** [binary.Read] of an int16 or int32, [io.ReadFull] of a slice. *)
Definition read_n (n : nat) (r : list byte) : option (list byte * list byte) :=
  if bool_decide (n ≤ length r)%nat then Some (take n r, drop n r) else None.
Definition read_int (n : nat) (r : list byte) : option (Z * list byte) :=
  (λ '(bs, r'), (wrap_s (8 * Z.of_nat n) (be_val bs), r')) <$> read_n n r.
Fixpoint read_ints (width count : nat) (r : list byte) : option (list Z * list byte) :=
  match count with
  | O => Some ([], r)
  | S count' =>
      '(z, r1) ← read_int width r;
      '(zs, r2) ← read_ints width count' r1;
      Some (z :: zs, r2)
  end.

(** [bytes.TrimRight(b, "\x00")] *)
Fixpoint trim_nul_rev (l : list byte) : list byte :=
  match l with
  | b :: l' => if bool_decide (b = x00) then trim_nul_rev l' else l
  | [] => []
  end.
Definition trim_nul (l : list byte) : list byte := reverse (trim_nul_rev (reverse l)).

(** What reading a message body gives: malformed, a negative count or length given
    to make, or the fields. *)
Inductive parsed (A : Type) := Malformed | NegativeMake | Fields (a : A).
Arguments Malformed {A}.
Arguments NegativeMake {A}.
Arguments Fields {A} a.

(** An int16 count followed by as many integers. *)
Definition read_counted (width : nat) (r : list byte) : parsed (list Z * list byte) :=
  match read_int 2 r with
  | None => Malformed
  | Some (n, r1) =>
      if bool_decide (n < 0) then NegativeMake
      else match read_ints width (Z.to_nat n) r1 with
           | None => Malformed
           | Some zs => Fields zs
           end
  end.

Record parse_msg := { pm_stmt : string; pm_query : text; pm_types : list Z }.
Definition read_parse (body : list byte) : parsed parse_msg :=
  match readCString body with
  | None => Malformed
  | Some (stmtName, r1) =>
      match readCString r1 with
      | None => Malformed
      | Some (query, r2) =>
          match read_counted 4 r2 with
          | Malformed => Malformed
          | NegativeMake => NegativeMake
          | Fields (types, _) => Fields {| pm_stmt := str stmtName; pm_query := query; pm_types := types |}
          end
      end
  end.

(** The parameter values of a Bind: a length of -1 is NULL, a smaller one panics. *)
Fixpoint read_values (count : nat) (r : list byte) : parsed (list (option (list byte)) * list byte) :=
  match count with
  | O => Fields ([], r)
  | S count' =>
      match read_int 4 r with
      | None => Malformed
      | Some (length, r1) =>
          if bool_decide (length = -1) then
            match read_values count' r1 with
            | Fields (vs, r2) => Fields (None :: vs, r2)
            | Malformed => Malformed
            | NegativeMake => NegativeMake
            end
          else if bool_decide (length < 0) then NegativeMake
          else match read_n (Z.to_nat length) r1 with
               | None => Malformed
               | Some (v, r2) =>
                   match read_values count' r2 with
                   | Fields (vs, r3) => Fields (Some v :: vs, r3)
                   | Malformed => Malformed
                   | NegativeMake => NegativeMake
                   end
               end
      end
  end.

Record bind_msg := { bm_paramFormats : list Z; bm_paramValues : list (option (list byte)); bm_resultFormats : list Z }.
(** A Bind after its two names. *)
Definition read_bind (r : list byte) : parsed bind_msg :=
  match read_counted 2 r with
  | Malformed => Malformed
  | NegativeMake => NegativeMake
  | Fields (formats, r1) =>
      match read_int 2 r1 with
      | None => Malformed
      | Some (n, r2) =>
          if bool_decide (n < 0) then NegativeMake
          else match read_values (Z.to_nat n) r2 with
               | Malformed => Malformed
               | NegativeMake => NegativeMake
               | Fields (values, r3) =>
                   match read_counted 2 r3 with
                   | Malformed => Malformed
                   | NegativeMake => NegativeMake
                   | Fields (rformats, _) =>
                       Fields {| bm_paramFormats := formats; bm_paramValues := values; bm_resultFormats := rformats |}
                   end
               end
      end
  end.

(** * Queries answered without the database *)

Definition pgCursorsPrefix : list re :=
  [RBegin; rstar rws; rlit "SELECT"; rplus rws; rplus rdot; rplus rws; rlit "FROM"; rplus rws;
   ropt (rseq [rlit "pg_catalog"; rstar rws; rlit "."; rstar rws]); rlit "pg_cursors"; rplus rws; rlit "WHERE"; rplus rws;
   rlit "name"; rstar rws; rlit "="; rstar rws].
Definition pgCursorsLiteralRegex : re :=
  rseq (pgCursorsPrefix ++ [rlit "'"; RGroup 1 (rstar (rnot [x27])); rlit "'"]).
Definition pgCursorsParamRegex : re := rseq (pgCursorsPrefix ++ [rlit "$1"; rstar rws; REnd]).

(** The name of the cursor asked for, and whether it is a parameter. *)
Definition matchPgCursorsQuery (query : text) : option (string * bool) :=
  if negb (Contains (str query) "pg_cursors") then None
  else match FindSubmatch pgCursorsLiteralRegex query with
       | Some caps => Some (str (default [] (group 1 caps)), false)
       | None => if MatchString pgCursorsParamRegex query then Some (""%string, true) else None
       end.

Definition pgStatActivityRegex : re :=
  rseq [RWord; rlit "FROM"; rplus rws; ropt (rseq [rlit "pg_catalog"; rstar rws; rlit "."; rstar rws]);
        rlit "pg_stat_activity"; RWord].
Definition matchPgStatActivityQuery (query : text) : bool :=
  if negb (Contains (str query) "pg_stat_activity") then false else MatchString pgStatActivityRegex query.

Definition pgCursorsColumns : list (string * Z * Z) := [("?column?"%string, 23, 4)].
Definition pgStatActivityColumns : list (string * Z * Z) :=
  [("datid", 23, 4); ("datname", 25, -1); ("pid", 23, 4); ("usesysid", 23, 4); ("usename", 25, -1);
   ("application_name", 25, -1); ("client_addr", 25, -1); ("client_port", 23, 4); ("backend_start", 1184, 8);
   ("xact_start", 1184, 8); ("query_start", 1184, 8); ("state_change", 1184, 8); ("wait_event_type", 25, -1);
   ("wait_event", 25, -1); ("state", 25, -1); ("backend_xid", 28, 4); ("backend_xmin", 28, 4); ("query", 25, -1);
   ("backend_type", 25, -1); ("leader_pid", 23, 4); ("worker_id", 23, 4); ("query_progress", 701, 8);
   ("rows_processed", 20, 8); ("total_rows_to_process", 20, 8)]%string.
Definition pgStatActivityTypeOIDs : list Z := (λ c, c.1.2) <$> pgStatActivityColumns.

Definition decode_error_text (e : decode_error) : string :=
  match e with
  | Insufficient what got need =>
      "insufficient data for " +:+ what +:+ ": got " +:+ fmt_d got +:+ " bytes, need "
      +:+ (if bool_decide (what = "numeric"%string) then "at least " else "") +:+ fmt_d need
  | InvalidUUID got => "invalid UUID binary data: got " +:+ fmt_d got +:+ " bytes, need 16"
  end.

Definition pid_le (a b : conn_info) : Prop := ci_pid a ≤ ci_pid b.
#[export] Instance pid_le_dec : RelDecision pid_le.
Proof. intros a b. unfold pid_le. apply _. Defined.

Section extended.
Context `{Env}.

(** The row of one connection. *)
Definition pgStatActivity_row (ci : conn_info) : list value :=
  let state :=
    (if bool_decide (ci_query ci ≠ []) then "active"
     else match ci_txStatus ci with
          | txStatusTransaction => "idle in transaction"
          | txStatusError => "idle in transaction (aborted)"
          | txStatusIdle => "idle"
          end)%string in
  let '(clientAddr, clientPort) := default (""%string, 0) (ci_addr ci) in
  let '(progress, rows, total, state) :=
    match progressFn with
    | Some f => let '(pct, rows, total, stalled) := f (ci_pid ci) in
                (VFloat64 pct, wrap_s 64 rows, wrap_s 64 total,
                 if stalled && bool_decide (state = "active"%string) then "active (stuck)"%string else state)
    | None => (VFloat64 (float64_of_int (-1)), 0, 0, state)
    end in
  let i32 := VInt KInt32 in
  [i32 0; VString (ci_database ci); i32 (ci_pid ci); i32 10; VString (ci_username ci); VString (ci_applicationName ci);
   VString clientAddr; i32 clientPort; VTime (ci_backendStart ci); VNil;
   match ci_queryStart ci with Some t => VTime t | None => VNil end; VNil; VNil; VNil; VString state; VNil; VNil;
   VString (str (ci_query ci)); VString "client backend"; VNil; i32 (wrap_s 32 (ci_workerID ci)); progress;
   VInt KInt64 rows; VInt KInt64 total].

Fixpoint send_all (rs : list reply) : M () :=
  match rs with
  | [] => mret ()
  | r :: rs' => send r ;; send_all rs'
  end.

(** The rows of pg_stat_activity and their completion. *)
Definition send_pg_stat_activity (query : text) (formats : list Z) : M () :=
  tx ← gets c_txStatus;
  let conns := merge_sort pid_le (listConns tx query) in
  send_all ((λ ci, DataRow (pgStatActivity_row ci) formats pgStatActivityTypeOIDs) <$> conns) ;;
  send (CommandComplete ("SELECT " +:+ fmt_d (Z.of_nat (length conns)))).

(** The row of pg_cursors and its completion. *)
Definition send_pg_cursors (name : string) (formats : list Z) : M () :=
  cs ← gets (λ c, c_cursors c !! name);
  match cs with
  | Some _ => send (DataRow [VInt KInt64 1] formats [23]) ;; send (CommandComplete "SELECT 1")
  | None => send (CommandComplete "SELECT 0")
  end.

(** * Parse *)

(** A new statement under this name; one already there is forgotten. *)
Definition put_stmt (name : string) (ps : preparedStmt) : M () :=
  modify (λ c, set_stmts (<[name := length (c_heap c)]> (c_stmts c)) (set_heap (c_heap c ++ [ps]) c)) ;;
  send ParseComplete.

Definition plain_stmt (query converted : text) : preparedStmt :=
  {| ps_query := query; ps_convertedQuery := converted; ps_paramTypes := []; ps_numParams := 0; ps_isIgnoredSet := false;
     ps_isNoOp := false; ps_noOpTag := ""; ps_described := false; ps_statements := []; ps_cleanupStatements := [];
     ps_cursorOp := cursorOpNone; ps_cursorName := ""; ps_cursorQuery := []; ps_fetchCount := 0 |}.
Definition cursor_stmt (query : text) (op : cursorOp) (name : string) (inner : text) (n : Z) : preparedStmt :=
  {| ps_query := query; ps_convertedQuery := query; ps_paramTypes := []; ps_numParams := 0; ps_isIgnoredSet := false;
     ps_isNoOp := false; ps_noOpTag := ""; ps_described := false; ps_statements := []; ps_cleanupStatements := [];
     ps_cursorOp := op; ps_cursorName := name; ps_cursorQuery := inner; ps_fetchCount := n |}.

Definition deparseInnerQuery (node : pg_node) : text := match pg_Deparse node with inl sql => sql | inr _ => [] end.

(** The one statement a query consists of, when it parses as one. *)
Definition single_stmt (query : text) : option (stmt_kind pg_node) :=
  match pg_Parse query with
  | Some [node] => Some (pg_kind node)
  | _ => None
  end.

(** The inner query of a cursor declared by Parse. *)
Definition declare_inner (node : pg_node) : text :=
  let innerSQL := deparseInnerQuery node in
  if negb passthrough && bool_decide (innerSQL ≠ []) then
    match Transpile true innerSQL with
    | inl r => if FallbackToNative r then innerSQL else SQL r
    | inr _ => innerSQL
    end
  else innerSQL.

(** After the cursor statements: the intercepted catalogs, passthrough, the transpiler. *)
Definition parse_query (stmtName : string) (query : text) (paramTypes : list Z) : M () :=
  match matchPgCursorsQuery query with
  | Some (cursorName, parameterized) =>
      let ps := cursor_stmt query cursorOpPgCursorsQuery cursorName [] 0 in
      put_stmt stmtName
        (if parameterized : bool
         then {| ps_query := query; ps_convertedQuery := query; ps_paramTypes := [25]; ps_numParams := 1;
                 ps_isIgnoredSet := false; ps_isNoOp := false; ps_noOpTag := ""; ps_described := false; ps_statements := [];
                 ps_cleanupStatements := []; ps_cursorOp := cursorOpPgCursorsQuery; ps_cursorName := cursorName;
                 ps_cursorQuery := []; ps_fetchCount := 0 |}
         else ps)
  | None =>
      if matchPgStatActivityQuery query then put_stmt stmtName (cursor_stmt query cursorOpPgStatActivity "" [] 0)
      else if passthrough then
        put_stmt stmtName
          {| ps_query := query; ps_convertedQuery := castParams query paramTypes; ps_paramTypes := paramTypes;
             ps_numParams := countDollarParams query; ps_isIgnoredSet := false; ps_isNoOp := false; ps_noOpTag := "";
             ps_described := false; ps_statements := []; ps_cleanupStatements := []; ps_cursorOp := cursorOpNone;
             ps_cursorName := ""; ps_cursorQuery := []; ps_fetchCount := 0 |}
      else
        match Transpile true query with
        | inr err => sendError "42601" ("syntax error: " +:+ err)
        | inl result =>
            match TransformError result with
            | Some err => sendError "42704" err
            | None =>
                invalid ← (if FallbackToNative result then validateWithDuckDB query else mret None);
                match invalid with
                | Some err => sendError "42601" ("syntax error: " +:+ err)
                | None =>
                    put_stmt stmtName
                      {| ps_query := query; ps_convertedQuery := castParams (rewriteDirectQuery (SQL result)) paramTypes;
                         ps_paramTypes := paramTypes; ps_numParams := ParamCount result;
                         ps_isIgnoredSet := IsIgnoredSet result; ps_isNoOp := IsNoOp result; ps_noOpTag := NoOpTag result;
                         ps_described := false; ps_statements := Statements result;
                         ps_cleanupStatements := CleanupStatements result; ps_cursorOp := cursorOpNone;
                         ps_cursorName := ""; ps_cursorQuery := []; ps_fetchCount := 0 |}
                end
            end
        end
  end.

Definition handleParse (body : list byte) : M () :=
  match read_parse body with
  | Malformed => sendError "08P01" "invalid Parse message"
  | NegativeMake => crash MakeSliceLenOutOfRange
  | Fields m =>
      let query := pm_query m in
      match single_stmt query with
      | Some (DeclareCursorStmt portalname node) =>
          put_stmt (pm_stmt m) (cursor_stmt query cursorOpDeclare portalname (declare_inner node) 0)
      | Some (FetchStmt dir howMany portalname _) =>
          if negb (isFetchForwardOnly dir) || bool_decide (howMany < 0)
          then sendError "0A000" "cursor can only scan forward"
          else put_stmt (pm_stmt m) (cursor_stmt query cursorOpFetch portalname [] howMany)
      | Some (ClosePortalStmt portalname) =>
          put_stmt (pm_stmt m) (cursor_stmt query cursorOpClose portalname [] 0)
      | _ => parse_query (pm_stmt m) query (pm_types m)
      end
  end.

(** * Bind *)

Definition no_such_statement (name : string) : M () := sendError "26000" ("prepared statement " +:+ Quote name +:+ " does not exist").
Definition no_such_portal (name : string) : M () := sendError "34000" ("portal " +:+ Quote name +:+ " does not exist").
Definition no_such_cursor (name : string) : M () := sendError "34000" ("cursor " +:+ Quote name +:+ " does not exist").

(** The statement a pointer points to. *)
Definition deref (r : nat) : M preparedStmt :=
  ps ← gets (λ c, c_heap c !! r);
  match ps with
  | Some ps => mret ps
  | None => crash IndexOutOfRange
  end.

Definition handleBind (body : list byte) : M () :=
  match readCString body with
  | None => sendError "08P01" "invalid Bind message"
  | Some (portalName, r1) =>
      match readCString r1 with
      | None => sendError "08P01" "invalid Bind message"
      | Some (stmtName, r2) =>
          ref ← gets (λ c, c_stmts c !! str stmtName);
          match ref with
          | None => no_such_statement (str stmtName)
          | Some ref =>
              match read_bind r2 with
              | Malformed => sendError "08P01" "invalid Bind message"
              | NegativeMake => crash MakeSliceLenOutOfRange
              | Fields m =>
                  ps ← deref ref;
                  modify (λ c, set_portals (<[str portalName :=
                    {| p_stmt := ref; p_paramValues := bm_paramValues m; p_paramFormats := bm_paramFormats m;
                       p_resultFormats := bm_resultFormats m; p_described := ps_described ps |}]> (c_portals c)) c) ;;
                  send BindComplete
              end
          end
      end
  end.

(** * Describe *)

Definition set_described (ref : nat) : M () :=
  modify (λ c, set_heap (alter (λ ps,
    {| ps_query := ps_query ps; ps_convertedQuery := ps_convertedQuery ps; ps_paramTypes := ps_paramTypes ps;
       ps_numParams := ps_numParams ps; ps_isIgnoredSet := ps_isIgnoredSet ps; ps_isNoOp := ps_isNoOp ps;
       ps_noOpTag := ps_noOpTag ps; ps_described := true; ps_statements := ps_statements ps;
       ps_cleanupStatements := ps_cleanupStatements ps; ps_cursorOp := ps_cursorOp ps; ps_cursorName := ps_cursorName ps;
       ps_cursorQuery := ps_cursorQuery ps; ps_fetchCount := ps_fetchCount ps |}) ref (c_heap c)) c).
Definition set_portal_described (name : string) : M () :=
  modify (λ c, set_portals (alter (λ p,
    {| p_stmt := p_stmt p; p_paramValues := p_paramValues p; p_paramFormats := p_paramFormats p;
       p_resultFormats := p_resultFormats p; p_described := true |}) name (c_portals c)) c).

Definition sendParameterDescription (paramTypes : list Z) : M () :=
  send (ParameterDescription ((λ oid, if bool_decide (oid = 0) then 25 else oid) <$> paramTypes)).

Fixpoint trim_semicolons_rev (l : text) : text :=
  match l with
  | b :: l' => if bool_decide (b = x3b) then trim_semicolons_rev l' else l
  | [] => []
  end.
(** The probe for the columns of a statement. *)
Definition describe_query (converted : text) : text :=
  let q := reverse (trim_semicolons_rev (reverse (bytes (TrimSpace (str converted))))) in
  let upper := ToUpper (str q) in
  if negb (Contains upper "LIMIT") && describeSupportsLimit (bytes upper) then q ++ bytes " LIMIT 0" else q.

Definition cannot_describe : string :=
  "DML with RETURNING clause cannot be described without executing the mutation; use simple query protocol or skip the Describe step".

(** Runs the probe; the columns found, unless it failed or has none. Asking the
    types of a result whose types fail leaves a nil slice, which is then indexed. *)
Definition probe (sql : text) (args : list value) : M (option (list (string * string))) :=
  r ← query (describe_query sql) args;
  match r with
  | inr _ => mret None
  | inl rows =>
      match rs_columns rows with
      | inr _ | inl [] => mret None
      | inl cols => if rs_types_err rows then crash IndexOutOfRange else mret (Some cols)
      end
  end.

Definition invalid_param (e : nat * decode_error) : M () :=
  sendError "08P01" ("insufficient data left in message: parameter " +:+ fmt_d (Z.of_nat e.1) +:+ ": " +:+ decode_error_text e.2).

(** Describe of a statement. *)
Definition describe_statement (name : string) (ref : nat) (ps : preparedStmt) : M () :=
  let paramTypes :=
    if bool_decide (Z.of_nat (length (ps_paramTypes ps)) < ps_numParams ps)
    then replicate (Z.to_nat (ps_numParams ps)) 25 else ps_paramTypes ps in
  sendParameterDescription paramTypes ;;
  match ps_cursorOp ps with
  | cursorOpDeclare | cursorOpClose => send NoData
  | cursorOpFetch =>
      cols ← getCursorSchema (ps_cursorName ps);
      match cols with
      | None | Some [] => send NoData
      | Some cols => send (RowDescription cols []) ;; set_described ref
      end
  | cursorOpPgCursorsQuery => send (SyntheticRowDescription pgCursorsColumns []) ;; set_described ref
  | cursorOpPgStatActivity => send (SyntheticRowDescription pgStatActivityColumns []) ;; set_described ref
  | cursorOpNone =>
      if negb (queryReturnsResults (ps_query ps)) then send NoData
      else if isDMLReturning (ps_query ps) then sendError "0A000" cannot_describe
      else if isWithDML (ps_query ps) then send NoData
      else if bool_decide (ps_numParams ps < 0) then crash MakeSliceLenOutOfRange
      else
        cols ← probe (ps_convertedQuery ps) (replicate (Z.to_nat (ps_numParams ps)) VNil);
        match cols with
        | None => send NoData
        | Some cols => send (RowDescription cols []) ;; set_described ref
        end
  end.

(** Describe of a portal. *)
Definition describe_portal (name : string) (p : portal) (ps : preparedStmt) : M () :=
  match ps_cursorOp ps with
  | cursorOpDeclare | cursorOpClose => send NoData
  | cursorOpFetch =>
      cols ← getCursorSchema (ps_cursorName ps);
      match cols with
      | None | Some [] => send NoData
      | Some cols => set_portal_described name ;; send (RowDescription cols (p_resultFormats p))
      end
  | cursorOpPgCursorsQuery =>
      send (SyntheticRowDescription pgCursorsColumns (p_resultFormats p)) ;; set_portal_described name
  | cursorOpPgStatActivity =>
      send (SyntheticRowDescription pgStatActivityColumns (p_resultFormats p)) ;; set_portal_described name
  | cursorOpNone =>
      if negb (queryReturnsResults (ps_query ps)) then send NoData
      else if isDMLReturning (ps_query ps) then sendError "0A000" cannot_describe
      else if isWithDML (ps_query ps) then send NoData
      else
        match decodeParams (ps_paramTypes ps) (p_paramFormats p) (p_paramValues p) with
        | Panic r => crash r
        | Err e => invalid_param e
        | Ret args =>
            cols ← probe (ps_convertedQuery ps) args;
            match cols with
            | None => send NoData
            | Some cols =>
                set_portal_described name ;; set_described (p_stmt p) ;;
                send (RowDescription cols (p_resultFormats p))
            end
        end
  end.

Definition handleDescribe (body : list byte) : M () :=
  match body with
  | [] | [_] => sendError "08P01" "invalid Describe message"
  | descType :: rest =>
      let name := str (trim_nul rest) in
      if bool_decide (descType = x53) then                                (* 'S' *)
        ref ← gets (λ c, c_stmts c !! name);
        match ref with
        | None => no_such_statement name
        | Some ref => ps ← deref ref; describe_statement name ref ps
        end
      else if bool_decide (descType = x50) then                           (* 'P' *)
        p ← gets (λ c, c_portals c !! name);
        match p with
        | Some p => ps ← deref (p_stmt p); describe_portal name p ps
        | None =>
            cursor ← gets (λ c, c_cursors c !! name);
            match cursor with
            | Some _ =>
                cols ← getCursorSchema name;
                match cols with
                | None => send NoData
                | Some cols => send (RowDescription cols [])
                end
            | None => no_such_portal name
            end
        end
      else sendError "08P01" "invalid Describe type"
  end.

(** * Execute *)

Definition handleDeclareCursorExtended (ps : preparedStmt) : M () :=
  closeCursor (ps_cursorName ps) ;;
  put_cursor (ps_cursorName ps)
    {| cs_query := ps_cursorQuery ps; cs_rows := None; cs_cols := []; cs_colTypes := []; cs_typeOIDs := [] |} ;;
  send (CommandComplete "DECLARE CURSOR").

(** An opened cursor: its rows up to the count, then the completion. *)
Definition fetch_from (name : string) (howMany : Z) (formats : list Z) (cursor : cursorState) (rs : rowset) : M () :=
  '(r, rest, ended) ← fetch_rows howMany 0 formats (cs_typeOIDs cursor) (rs_rows rs);
  let rs' := rs_after rs rest ended in
  put_cursor name (with_rows cursor rs') ;;
  match r with
  | inr err => sendError "42000" (Error err) ;; setTxError
  | inl rowCount =>
      match rs_Err rs' with
      | Some err => row_error err
      | None => send (CommandComplete ("FETCH " +:+ fmt_d rowCount))
      end
  end.

Definition handleFetchCursorExtended (p : portal) (ps : preparedStmt) : M () :=
  let name := ps_cursorName ps in
  cursor ← gets (λ c, c_cursors c !! name);
  match cursor with
  | None => no_such_cursor name
  | Some cursor =>
      err ← (if cs_rows cursor then mret None else openCursor name cursor);
      match err with
      | Some err => row_error err
      | None =>
          cursor ← gets (λ c, c_cursors c !! name);
          match cursor ≫= (λ cs, pair cs <$> cs_rows cs) with
          | None => crash IndexOutOfRange
          | Some (cursor, rs) =>
              (if negb (p_described p) && bool_decide (cs_cols cursor ≠ [])
               then sendRowDescription (cs_cols cursor) (cs_colTypes cursor) (p_resultFormats p) else mret ()) ;;
              fetch_from name (ps_fetchCount ps) (p_resultFormats p) cursor rs
          end
      end
  end.

Definition handleCloseCursorExtended (ps : preparedStmt) : M () :=
  let name := ps_cursorName ps in
  if bool_decide (name = ""%string) then closeAllCursors ;; send (CommandComplete "CLOSE CURSOR")
  else
    cursor ← gets (λ c, c_cursors c !! name);
    match cursor with
    | None => no_such_cursor name
    | Some _ => closeCursor name ;; send (CommandComplete "CLOSE CURSOR")
    end.

Definition handlePgCursorsQueryExtended (p : portal) (ps : preparedStmt) : M () :=
  let cursorName :=
    if bool_decide (ps_cursorName ps = ""%string)
    then match p_paramValues p with Some v :: _ => str v | _ => ""%string end
    else ps_cursorName ps in
  (if negb (ps_described ps) then send (SyntheticRowDescription pgCursorsColumns (p_resultFormats p)) else mret ()) ;;
  send_pg_cursors cursorName (p_resultFormats p).

Definition handlePgStatActivityExtended (p : portal) (ps : preparedStmt) : M () :=
  (if negb (ps_described ps) && negb (p_described p)
   then send (SyntheticRowDescription pgStatActivityColumns (p_resultFormats p)) else mret ()) ;;
  send_pg_stat_activity (ps_query ps) (p_resultFormats p).

(** The rewrite of a writable CTE: set-up statements, the statement that answers, clean-up. *)
Fixpoint executeCleanup (cleanup : list text) : M () :=
  match cleanup with
  | [] => mret ()
  | stmt :: cleanup' => exec stmt [] ;; executeCleanup cleanup'
  end.

Fixpoint run_setup (setup : list text) (args : list value) : M (option error) :=
  match setup with
  | [] => mret None
  | stmt :: setup' =>
      r ← exec stmt args;
      match r with
      | inr err => mret (Some err)
      | inl _ => run_setup setup' args
      end
  end.

(** The rewrite brings its own transaction, which is left out inside one. *)
Definition hasOurTransaction (statements cleanup : list text) : bool :=
  bool_decide (2 ≤ length statements)%nat
  && match statements with s :: _ => bool_decide (ToUpper (TrimSpace (str s)) = "BEGIN"%string) | [] => false end
  && match last cleanup with Some s => bool_decide (ToUpper (TrimSpace (str s)) = "COMMIT"%string) | None => false end.
Definition strip_wrapper (tx : txStatus_t) (statements cleanup : list text) : list text * list text :=
  if hasOurTransaction statements cleanup && bool_decide (tx = txStatusTransaction)
  then (drop 1 statements, take (length cleanup - 1) cleanup)
  else (statements, cleanup).

Definition streamRowsToClientExtended (rows : rowset) (cmdType : string) (formats : list Z) (described : bool) : M () :=
  match rs_columns rows, rs_types_err rows with
  | inr err, _ | inl _, Some err => sendError "42000" (Error err) ;; setTxError
  | inl cols, None =>
      (if negb described && bool_decide (cols ≠ []) then send (RowDescription cols formats) else mret ()) ;;
      '(r, ended) ← stream_rows 0 0 formats (type_oids cols) (rs_rows rows);
      match r with
      | inr err => sendError "42000" (Error err) ;; setTxError
      | inl rowCount =>
          match rs_Err (rs_after rows [] ended) with
          | Some err => row_error err
          | None => send (CommandComplete (buildCommandTagFromRowCount cmdType rowCount))
          end
      end
  end.

Definition multi_failed (cleanup : list text) (err : error) : M () :=
  setTxError ;; executeCleanup cleanup ;; sendError "42000" (Error err).

Definition executeMultiStatementExtended (statements cleanup : list text) (args : list value) (formats : list Z)
    (described : bool) : M () :=
  if bool_decide (statements = []) then send EmptyQueryResponse
  else
    tx ← gets c_txStatus;
    let '(statements, cleanup) := strip_wrapper tx statements cleanup in
    err ← run_setup (take (length statements - 1) statements) args;
    match err with
    | Some err => multi_failed cleanup err
    | None =>
        match last statements with
        | None => crash IndexOutOfRange
        | Some finalStmt =>
            let cmdType := getCommandType (bytes (ToUpper (TrimSpace (str finalStmt)))) in
            if queryReturnsResults finalStmt then
              r ← query finalStmt args;
              match r with
              | inr err => multi_failed cleanup err
              | inl rows => executeCleanup cleanup ;; streamRowsToClientExtended rows cmdType formats described
              end
            else
              r ← exec finalStmt args;
              match r with
              | inr err => multi_failed cleanup err
              | inl n => executeCleanup cleanup ;; send (CommandComplete (buildCommandTag cmdType n))
              end
        end
    end.

(** A statement without rows. *)
Definition execute_command (converted : text) (args : list value) (cmdType : string) : M () :=
  tx ← gets c_txStatus;
  if bool_decide (cmdType = "BEGIN"%string) && bool_decide (tx = txStatusTransaction) then
    sendNotice "WARNING" "25001" "there is already a transaction in progress" ;; send (CommandComplete "BEGIN")
  else
    r ← run_recovering (run_exec converted args);
    match r with
    | inr err => statement_error err
    | inl n => updateTxStatus cmdType ;; send (CommandComplete (buildCommandTag cmdType n))
    end.

(** A statement with rows; the types of the columns are asked for, and their error ignored. *)
Definition execute_query (p : portal) (converted : text) (args : list value) (cmdType : string) (maxRows : Z) : M () :=
  r ← run_recovering (query converted args);
  match r with
  | inr err => statement_error err
  | inl rows =>
      match rs_columns rows with
      | inr err => sendError "42000" (Error err) ;; setTxError
      | inl cols =>
          let colTypes := if rs_types_err rows then [] else cols.*2 in
          let typeOIDs := if rs_types_err rows then replicate (length cols) 0 else type_oids cols in
          (if negb (p_described p) && bool_decide (cols ≠ [])
           then sendRowDescription cols.*1 colTypes (p_resultFormats p) else mret ()) ;;
          '(r, ended) ← stream_rows maxRows 0 (p_resultFormats p) typeOIDs (rs_rows rows);
          match r with
          | inr err => sendError "42000" (Error err) ;; setTxError
          | inl rowCount =>
              match rs_Err (rs_after rows [] ended) with
              | Some err => row_error err
              | None => updateTxStatus cmdType ;; send (CommandComplete (buildCommandTagFromRowCount cmdType rowCount))
              end
          end
      end
  end.

Definition execute_statement (p : portal) (ps : preparedStmt) (maxRows : Z) : M () :=
  let trimmedQuery := TrimSpace (str (ps_query ps)) in
  if bool_decide (trimmedQuery = ""%string) || IsEmptyQuery (bytes trimmedQuery) then send EmptyQueryResponse
  else
    match decodeParams (ps_paramTypes ps) (p_paramFormats p) (p_paramValues p) with
    | Panic r => crash r
    | Err e => invalid_param e
    | Ret args =>
        let cmdType := getCommandType (bytes (ToUpper trimmedQuery)) in
        if ps_isIgnoredSet ps then send (CommandComplete "SET")
        else if ps_isNoOp ps then send (CommandComplete (ps_noOpTag ps))
        else if bool_decide (ps_statements ps ≠ []) then
          executeMultiStatementExtended (ps_statements ps) (ps_cleanupStatements ps) args (p_resultFormats p) (p_described p)
        else if queryReturnsResults (ps_query ps) then execute_query p (ps_convertedQuery ps) args cmdType maxRows
        else execute_command (ps_convertedQuery ps) args cmdType
    end.

Definition handleExecute (body : list byte) : M () :=
  match readCString body with
  | None => sendError "08P01" "invalid Execute message"
  | Some (portalName, r1) =>
      match read_int 4 r1 with
      | None => sendError "08P01" "invalid Execute message"
      | Some (maxRows, _) =>
          p ← gets (λ c, c_portals c !! str portalName);
          match p with
          | None => no_such_portal (str portalName)
          | Some p =>
              ps ← deref (p_stmt p);
              match ps_cursorOp ps with
              | cursorOpDeclare => handleDeclareCursorExtended ps
              | cursorOpFetch => handleFetchCursorExtended p ps
              | cursorOpClose => handleCloseCursorExtended ps
              | cursorOpPgCursorsQuery => handlePgCursorsQueryExtended p ps
              | cursorOpPgStatActivity => handlePgStatActivityExtended p ps
              | cursorOpNone => execute_statement p ps maxRows
              end
          end
      end
  end.

(** * Close *)

Definition handleClose (body : list byte) : M () :=
  match body with
  | [] | [_] => sendError "08P01" "invalid Close message"
  | closeType :: rest =>
      let name := str (trim_nul rest) in
      (if bool_decide (closeType = x53) then modify (λ c, set_stmts (delete name (c_stmts c)) c)
       else if bool_decide (closeType = x50) then modify (λ c, set_portals (delete name (c_portals c)) c)
       else mret ()) ;;
      send CloseComplete
  end.
End extended.
