(* ===== verification/SimpleQuery.v ===== *)
(** The simple query protocol (src/server/conn.go: handleQuery, executeQueryDirect,
    executeSelectQuery, handleMultiStatementQuery, executeSingleStatement,
    executeMultiStatement, the simple cursor handlers) and the message loop. COPY is
    a parameter here; [CopyText] models it. *)

From Stdlib Require Import Strings.Byte.
From stdpp Require Import prelude gmap strings list sorting.
From Stdlib Require Import ZArith Lia.
From S2P Require Import Prelude GoText GoRegexp GoTime Values BinaryTypes CopyBinary SqlScan ErrorCodes Session ExtendedProtocol.

Open Scope Z_scope.

Section simple.
Context `{Env}.

Definition ready : M () := tx ← gets c_txStatus; send (ReadyForQuery tx).

(** * Cursors *)

(** The query a cursor is declared over, or the error. *)
Definition cursor_inner (node : pg_node) : text + string :=
  let innerSQL := deparseInnerQuery node in
  if bool_decide (innerSQL = []) then inr "could not deparse cursor query"%string
  else if passthrough then inl innerSQL
  else match Transpile false innerSQL with
       | inr err => inr ("syntax error in cursor query: " +:+ err)
       | inl r => inl (if FallbackToNative r then innerSQL else SQL r)
       end.

(** The three cursor statements, without the final ReadyForQuery; true when an error
    was sent. *)
Definition declare_cursor (portalname : string) (node : pg_node) : M bool :=
  match cursor_inner node with
  | inr err => sendError "42601" err ;; mret true
  | inl sql =>
      closeCursor portalname ;;
      put_cursor portalname {| cs_query := sql; cs_rows := None; cs_cols := []; cs_colTypes := []; cs_typeOIDs := [] |} ;;
      send (CommandComplete "DECLARE CURSOR") ;; mret false
  end.

(** MOVE reads rows without sending them, whether or not they scan. *)
Fixpoint move_rows (howMany count : Z) (l : list (list value + error)) : Z * list (list value + error) * bool :=
  if bool_decide (count < howMany) then
    match l with
    | [] => (count, [], true)
    | _ :: l' => move_rows howMany (count + 1) l'
    end
  else (count, l, false).

Definition fetch_cursor (dir : fetch_direction) (howMany : Z) (name : string) (ismove : bool) : M bool :=
  if negb (isFetchForwardOnly dir) then sendError "0A000" "cursor can only scan forward" ;; mret true
  else
    cursor ← gets (λ c, c_cursors c !! name);
    match cursor with
    | None => no_such_cursor name ;; mret true
    | Some cursor =>
        err ← (if cs_rows cursor then mret None else openCursor name cursor);
        match err with
        | Some err => row_error err ;; mret true
        | None =>
            if bool_decide (howMany < 0) then sendError "0A000" "cursor can only scan forward" ;; mret true
            else
              cursor ← gets (λ c, c_cursors c !! name);
              match cursor ≫= (λ cs, pair cs <$> cs_rows cs) with
              | None => crash IndexOutOfRange
              | Some (cursor, rs) =>
                  if ismove then
                    let '(moveCount, rest, ended) := move_rows howMany 0 (rs_rows rs) in
                    put_cursor name (with_rows cursor (rs_after rs rest ended)) ;;
                    send (CommandComplete ("MOVE " +:+ fmt_d moveCount)) ;; mret false
                  else
                    sendRowDescription (cs_cols cursor) (cs_colTypes cursor) [] ;;
                    '(r, rest, ended) ← fetch_rows howMany 0 [] (cs_typeOIDs cursor) (rs_rows rs);
                    let rs' := rs_after rs rest ended in
                    put_cursor name (with_rows cursor rs') ;;
                    match r with
                    | inr err => sendError "42000" (Error err) ;; setTxError ;; mret true
                    | inl rowCount =>
                        match rs_Err rs' with
                        | Some err => row_error err ;; mret true
                        | None => send (CommandComplete ("FETCH " +:+ fmt_d rowCount)) ;; mret false
                        end
                    end
              end
        end
    end.

Definition close_cursor (name : string) : M bool :=
  if bool_decide (name = ""%string) then closeAllCursors ;; send (CommandComplete "CLOSE CURSOR") ;; mret false
  else
    cursor ← gets (λ c, c_cursors c !! name);
    match cursor with
    | None => no_such_cursor name ;; mret true
    | Some _ => closeCursor name ;; send (CommandComplete "CLOSE CURSOR") ;; mret false
    end.

Definition handleDeclareCursor (portalname : string) (node : pg_node) : M () := declare_cursor portalname node ;; ready.
Definition handleFetchCursor (dir : fetch_direction) (howMany : Z) (name : string) (ismove : bool) : M () :=
  fetch_cursor dir howMany name ismove ;; ready.
Definition handleCloseCursor (name : string) : M () := close_cursor name ;; ready.

Definition handlePgCursorsQuery (cursorName : string) : M () :=
  send (SyntheticRowDescription pgCursorsColumns []) ;; send_pg_cursors cursorName [] ;; ready.
Definition handlePgStatActivity (sql : text) : M () :=
  send (SyntheticRowDescription pgStatActivityColumns []) ;; send_pg_stat_activity sql [] ;; ready.

(** * Single statements *)

(** A result set sent to the client, with the reports each caller makes of a row that
    fails to scan and of an iteration that fails; true when an error was sent. *)
Definition send_result (rows : rowset) (cols : list (string * string)) (scan_failed iteration_failed : error → M bool)
    (complete : Z → M bool) : M bool :=
  send (RowDescription cols []) ;;
  '(r, ended) ← stream_rows 0 0 [] (type_oids cols) (rs_rows rows);
  match r with
  | inr err => scan_failed err
  | inl rowCount =>
      match rs_Err (rs_after rows [] ended) with
      | Some err => iteration_failed err
      | None => complete rowCount
      end
  end.

Definition executeSelectQuery (sql : text) (cmdType : string) : M () :=
  r ← run_recovering (query sql []);
  match r with
  | inr err => statement_error err ;; ready
  | inl rows =>
      match rs_columns rows, rs_types_err rows with
      | inr err, _ | inl _, Some err => sendError "42000" (Error err) ;; setTxError ;; ready
      | inl cols, None =>
          send_result rows cols
            (λ err, sendError "42000" (Error err) ;; setTxError ;; mret true)
            (λ err, row_error err ;; mret true)
            (λ n, updateTxStatus cmdType ;; send (CommandComplete (buildCommandTagFromRowCount cmdType n)) ;; mret false) ;;
          ready
      end
  end.

(** A statement without rows: the one of the protocol with the retry on views, the
    one of passthrough users without. *)
Definition execute_simple (run : M (Z + error)) (cmdType : string) : M bool :=
  tx ← gets c_txStatus;
  if bool_decide (cmdType = "BEGIN"%string) && bool_decide (tx = txStatusTransaction) then
    sendNotice "WARNING" "25001" "there is already a transaction in progress" ;; send (CommandComplete "BEGIN") ;; mret false
  else
    r ← run_recovering run;
    match r with
    | inr err => statement_error err ;; mret true
    | inl n => updateTxStatus cmdType ;; send (CommandComplete (buildCommandTag cmdType n)) ;; mret false
    end.

Definition executeQueryDirect (sql : text) (cmdType : string) : M () :=
  if queryReturnsResults sql then executeSelectQuery sql cmdType
  else execute_simple (exec sql []) cmdType ;; ready.

(** * Batches *)

(** What one statement of a batch does when it returns rows: the result's final
    error is not looked at, and a row that fails to scan leaves the transaction
    status alone. *)
Definition select_in_batch (sql : text) (cmdType : string) : M bool :=
  r ← run_recovering (query sql []);
  match r with
  | inr err => statement_error err ;; mret true
  | inl rows =>
      match rs_columns rows, rs_types_err rows with
      | inr err, _ | inl _, Some err => sendError "42000" (Error err) ;; setTxError ;; mret true
      | inl cols, None =>
          send (RowDescription cols []) ;;
          '(r, _) ← stream_rows 0 0 [] (type_oids cols) (rs_rows rows);
          match r with
          | inr err => sendError "42000" (Error err) ;; mret true
          | inl rowCount =>
              updateTxStatus cmdType ;; send (CommandComplete (buildCommandTagFromRowCount cmdType rowCount)) ;; mret false
          end
      end
  end.

Definition executeSingleStatement (sql : text) : M bool :=
  match single_stmt sql with
  | Some (DeclareCursorStmt portalname node) => declare_cursor portalname node
  | Some (FetchStmt dir howMany name ismove) => fetch_cursor dir howMany name ismove
  | Some (ClosePortalStmt name) => close_cursor name
  | _ =>
      match matchPgCursorsQuery sql with
      | Some (cursorName, _) =>
          send (SyntheticRowDescription pgCursorsColumns []) ;; send_pg_cursors cursorName [] ;; mret false
      | None =>
          if matchPgStatActivityQuery sql then
            send (SyntheticRowDescription pgStatActivityColumns []) ;; send_pg_stat_activity sql [] ;; mret false
          else
            match Transpile false sql with
            | inr err => sendError "42601" ("syntax error: " +:+ err) ;; mret true
            | inl result =>
                invalid ← (if FallbackToNative result then validateWithDuckDB sql else mret None);
                match invalid, TransformError result with
                | Some err, _ => sendError "42601" ("syntax error: " +:+ err) ;; mret true
                | None, Some err => sendError "42704" err ;; mret true
                | None, None =>
                    if IsIgnoredSet result then send (CommandComplete "SET") ;; mret false
                    else if IsNoOp result then send (CommandComplete (NoOpTag result)) ;; mret false
                    else if bool_decide (Statements result ≠ []) then
                      sendError "0A000" "writable CTEs not supported in multi-statement queries" ;; mret true
                    else
                      let executedQuery := rewriteDirectQuery (SQL result) in
                      let cmdType := getCommandType (bytes (ToUpper (str executedQuery))) in
                      if bool_decide (cmdType = "COPY"%string) then
                        sendError "0A000" "COPY not supported in multi-statement queries" ;; mret true
                      else if queryReturnsResults executedQuery then select_in_batch executedQuery cmdType
                      else execute_simple (run_exec executedQuery []) cmdType
                end
            end
      end
  end.

Fixpoint run_batch (stmts : list pg_node) : M () :=
  match stmts with
  | [] => mret ()
  | stmt :: stmts' =>
      match pg_Deparse stmt with
      | inr err => sendError "42601" ("syntax error: " +:+ err)
      | inl singleSQL =>
          errSent ← executeSingleStatement singleSQL;
          if errSent : bool then mret () else run_batch stmts'
      end
  end.
Definition handleMultiStatementQuery (stmts : list pg_node) : M () := run_batch stmts ;; ready.

(** * The rewrite of a writable CTE *)

Definition streamRowsToClient (rows : rowset) (cmdType : string) : M () :=
  match rs_columns rows, rs_types_err rows with
  | inr err, _ | inl _, Some err => sendError "42000" (Error err) ;; setTxError ;; ready
  | inl cols, None =>
      send_result rows cols
        (λ err, sendError "42000" (Error err) ;; setTxError ;; mret true)
        (λ err, row_error err ;; mret true)
        (λ n, send (CommandComplete (buildCommandTagFromRowCount cmdType n)) ;; mret false) ;;
      ready
  end.

Definition executeMultiStatement (statements cleanup : list text) : M () :=
  if bool_decide (statements = []) then send EmptyQueryResponse ;; ready
  else
    tx ← gets c_txStatus;
    let '(statements, cleanup) := strip_wrapper tx statements cleanup in
    err ← run_setup (take (length statements - 1) statements) [];
    match err with
    | Some err => multi_failed cleanup err ;; ready
    | None =>
        match last statements with
        | None => crash IndexOutOfRange
        | Some finalStmt =>
            let cmdType := getCommandType (bytes (ToUpper (TrimSpace (str finalStmt)))) in
            if queryReturnsResults finalStmt then
              r ← query finalStmt [];
              match r with
              | inr err => multi_failed cleanup err ;; ready
              | inl rows => executeCleanup cleanup ;; streamRowsToClient rows cmdType
              end
            else
              r ← exec finalStmt [];
              match r with
              | inr err => multi_failed cleanup err ;; ready
              | inl n => executeCleanup cleanup ;; send (CommandComplete (buildCommandTag cmdType n)) ;; ready
              end
        end
    end.

(** * Query *)

Context (handleCopy : text → M ()).

(** After the parser: the transpiler and what it found. *)
Definition run_transpiled (sql : text) : M () :=
  match Transpile false sql with
  | inr err => sendError "42601" ("syntax error: " +:+ err) ;; ready
  | inl result =>
      invalid ← (if FallbackToNative result then validateWithDuckDB sql else mret None);
      match invalid, TransformError result with
      | Some err, _ => sendError "42601" ("syntax error: " +:+ err) ;; ready
      | None, Some err => sendError "42704" err ;; ready
      | None, None =>
          if IsIgnoredSet result then send (CommandComplete "SET") ;; ready
          else if IsNoOp result then send (CommandComplete (NoOpTag result)) ;; ready
          else if bool_decide (Statements result ≠ []) then
            executeMultiStatement (Statements result) (CleanupStatements result)
          else
            let sql' := rewriteDirectQuery (SQL result) in
            let cmdType := getCommandType (bytes (ToUpper (str sql'))) in
            if bool_decide (cmdType = "COPY"%string) then handleCopy sql'
            else if queryReturnsResults sql' then executeSelectQuery sql' cmdType
            else execute_simple (run_exec sql' []) cmdType ;; ready
      end
  end.

Definition handleQuery (body : list byte) : M () :=
  let sql := bytes (TrimSpace (str (trim_nul body))) in
  if bool_decide (sql = []) || IsEmptyQuery sql then send EmptyQueryResponse ;; ready
  else
    match single_stmt sql with
    | Some (DeclareCursorStmt portalname node) => handleDeclareCursor portalname node
    | Some (FetchStmt dir howMany name ismove) => handleFetchCursor dir howMany name ismove
    | Some (ClosePortalStmt name) => handleCloseCursor name
    | _ =>
        match matchPgCursorsQuery sql with
        | Some (cursorName, _) => handlePgCursorsQuery cursorName
        | None =>
            if matchPgStatActivityQuery sql then handlePgStatActivity sql
            else if passthrough then
              let cmdType := getCommandType (bytes (ToUpper (str sql))) in
              if bool_decide (cmdType = "COPY"%string) then handleCopy sql else executeQueryDirect sql cmdType
            else if shouldHandleCopyBeforeTranspile sql then handleCopy sql
            else match pg_Parse sql with
                 | Some ((_ :: _ :: _) as stmts) => handleMultiStatementQuery stmts
                 | _ => run_transpiled sql
                 end
        end
    end.

(** * The message loop *)

Definition dispatch (msgType : byte) (body : list byte) : M () :=
  if bool_decide (msgType = x51) then handleQuery body            (* Q *)
  else if bool_decide (msgType = x50) then handleParse body       (* P *)
  else if bool_decide (msgType = x42) then handleBind body        (* B *)
  else if bool_decide (msgType = x44) then handleDescribe body    (* D *)
  else if bool_decide (msgType = x45) then handleExecute body     (* E *)
  else if bool_decide (msgType = x53) then ready                  (* S *)
  else if bool_decide (msgType = x43) then handleClose body       (* C *)
  else mret ().                                                   (* Flush, and types that are only logged *)

(** Until the client terminates or leaves; every round takes a message, so the
    number of messages to come is fuel enough. *)
Fixpoint loop (fuel : nat) : M () :=
  match fuel with
  | O => mret ()
  | S fuel' =>
      m ← recv;
      match m with
      | None => mret ()
      | Some (msgType, body) =>
          if bool_decide (msgType = x58) then mret ()                 (* X *)
          else dispatch msgType body ;; loop fuel'
      end
  end.
Definition messageLoop : M () := λ w, loop (S (length (w_in w))) w.
End simple.
