(* ===== verification/CopyText.v ===== *)
(** COPY (src/server/conn.go: the option parsers, handleCopy, handleCopyOut,
    handleCopyOutBinary, handleCopyIn and its variants, copyDataWireReader;
    src/server/flightclient/copyfromstdin.go: the upload to a remote worker). *)

From Stdlib Require Import Strings.Byte.
From stdpp Require Import prelude gmap strings list.
From Stdlib Require Import ZArith Lia.
From S2P Require Import Prelude GoText GoRegexp GoCsv GoTime Values BinaryTypes CopyBinary SqlScan ErrorCodes Session ExtendedProtocol SimpleQuery.

Open Scope Z_scope.

(** * Options *)

Definition quotes : list byte := [x27; x22].
Definition copyToStdoutRegex : re :=
  rseq [rlit "COPY"; rplus rws; RGroup 1 (rplus_lazy rdot); rplus rws; rlit "TO"; rplus rws; rlit "STDOUT"].
Definition copyFromStdinRegex : re :=
  rseq [rlit "COPY"; rplus rws; RGroup 1 (rplus rnws); rstar rws;
        ropt (rseq [rlit "("; RGroup 2 (rplus (rnot [x29])); rlit ")"; rstar rws]);
        rlit "FROM"; rplus rws; rlit "STDIN"].
Definition ropt_quote : re := ropt (rone [x22]).
Definition copyBinaryRegex : re :=
  rseq [RWord; rlit "FORMAT"; rplus rws; RAlt (rseq [ropt_quote; rlit "binary"; ropt_quote]) (rlit "BINARY"); RWord].
Definition copyWithCSVRegex : re := rseq [RWord; rlit "CSV"; RWord].
Definition copyWithHeaderRegex : re := rseq [RWord; rlit "HEADER"; RWord].
Definition copyDelimiterRegex : re :=
  rseq [RWord; rlit "DELIMITER"; rplus rws; rone quotes; RGroup 1 rdot; rone quotes; RWord].
Definition copyNullRegex : re := rseq [RWord; rlit "NULL"; rplus rws; rlit "'"; RGroup 1 (rstar (rnot [x27])); rlit "'"].
Definition quoted_option (word : string) : re :=
  rseq [RWord; rlit word; rplus rws; rone quotes; RGroup 1 rdot; rone quotes; rstar rws].
Definition copyQuoteRegex : re := quoted_option "QUOTE".
Definition copyEscapeRegex : re := quoted_option "ESCAPE".

(** The text of group 1 of a match. *)
Definition submatch1 (r : re) (s : text) : option text := FindSubmatch r s ≫= group 1.

Record CopyFromOptions := {
  TableName : text; ColumnList : text; Delimiter : text; HasHeader : bool; NullString : text;
  QuoteChar : text; Escape : text; IsBinary : bool }.
Record CopyToOptions := { Source : text; to_Delimiter : text; to_HasHeader : bool; IsQuery : bool }.

Definition has_parens (s : text) : bool := bool_decide (head s = Some x28) && bool_decide (last s = Some x29).

Section copy.
Context `{Env}.

Definition upper (sql : text) : text := bytes (ToUpper (str sql)).
Definition copy_delimiter (sql : text) : text :=
  match submatch1 copyDelimiterRegex sql with
  | Some d => d
  | None => if MatchString copyWithCSVRegex (upper sql) then [x2c] else [x09]
  end.
Definition copy_header (sql : text) : bool :=
  MatchString copyWithCSVRegex (upper sql) && MatchString copyWithHeaderRegex (upper sql).

Definition ParseCopyFromOptions (sql : text) : option CopyFromOptions :=
  match FindSubmatch copyFromStdinRegex sql with
  | None => None
  | Some caps =>
      let table := stripPublicSchema (default [] (group 1 caps)) in
      let columnList := match group 2 caps with
                        | Some ((_ :: _) as cs) => [x28] ++ cs ++ [x29]
                        | _ => []
                        end in
      Some (if MatchString copyBinaryRegex (upper sql)
            then {| TableName := table; ColumnList := columnList; Delimiter := [x09]; HasHeader := false;
                    NullString := bytes "\N"; QuoteChar := []; Escape := []; IsBinary := true |}
            else {| TableName := table; ColumnList := columnList; Delimiter := copy_delimiter sql;
                    HasHeader := copy_header sql; NullString := default (bytes "\N") (submatch1 copyNullRegex sql);
                    QuoteChar := match submatch1 copyQuoteRegex sql with
                                 | Some q => q
                                 | None => if MatchString copyWithCSVRegex (upper sql) then [x22] else []
                                 end;
                    Escape := default [] (submatch1 copyEscapeRegex sql); IsBinary := false |})
  end.

Definition ParseCopyToOptions (sql : text) : option CopyToOptions :=
  match submatch1 copyToStdoutRegex sql with
  | None => None
  | Some m =>
      let source := bytes (TrimSpace (str m)) in
      Some {| Source := source; to_Delimiter := copy_delimiter sql; to_HasHeader := copy_header sql;
              IsQuery := has_parens source |}
  end.

(** [name 'value'] *)
Definition option_of (name : string) (v : text) : text := bytes name ++ bytes " '" ++ v ++ [x27].
Definition BuildDuckDBCopyFromSQL (tableName columnList filePath : text) (opts : CopyFromOptions) : text :=
  let copyOptions :=
    [bytes "FORMAT CSV"; bytes "AUTO_DETECT FALSE"; bytes "STRICT_MODE FALSE"; bytes "PARALLEL FALSE";
     bytes "MAX_LINE_SIZE 10485760"]
    ++ (if HasHeader opts then [bytes "HEADER"] else [])
    ++ [option_of "NULL" (NullString opts); option_of "DELIMITER" (Delimiter opts)]
    ++ (if bool_decide (QuoteChar opts ≠ []) then
          [option_of "QUOTE" (QuoteChar opts);
           option_of "ESCAPE" (if bool_decide (Escape opts = []) then QuoteChar opts else Escape opts)]
        else if bool_decide (Escape opts ≠ []) then [option_of "ESCAPE" (Escape opts)] else []) in
  bytes "COPY " ++ tableName ++ [x20] ++ columnList ++ bytes " FROM '" ++ filePath ++ bytes "' ("
  ++ join (bytes ", ") copyOptions ++ [x29].

(** Every failure of a COPY. *)
Definition copy_failed (code message : string) : M () := sendError code message ;; setTxError ;; ready.

(** * COPY TO STDOUT *)

(** [%v] *)
Definition layout_String : layout := layout_datetime ++ [CFrac9 9; CLit (bytes " +0000 UTC")].
Definition Sprint_v (v : value) : text :=
  match v with
  | VNil => bytes "<nil>"
  | VBool b => bytes (if b then "true" else "false")
  | VInt _ z | VBigInt z => bytes (fmt_d z)
  | VFloat32 f => bytes (fmt_g32 f)
  | VFloat64 f => bytes (fmt_g64 f)
  | VString s => bytes s
  | VBytes bs => [x5b] ++ join [x20] ((λ b, bytes (fmt_d (byte_val b))) <$> default [] bs) ++ [x5d]
  | VTime t => bytes (Format layout_String t)
  | VInterval iv => [x7b] ++ join [x20] ((λ z, bytes (fmt_d z)) <$> [Months iv; Days iv; Micros iv]) ++ [x7d]
  | VDecimal d => DecimalValue_String (Some (Value d)) (Scale d)
  | VStringer s | VOther s => bytes s
  | VStringPtr _ | VDuckInterval _ _ _ | VDuckDecimal _ _ | VList _ | VMap _ | VOrderedMap _ => bytes (sprint_other v)
  end.

Definition formatCopyValue (v : value) : text :=
  match v with
  | VNil => bytes "\N"
  | VList _ | VMap _ | VOrderedMap _ => formatValue v
  | _ => Sprint_v v
  end.

(** A line of text: nothing is quoted or escaped. *)
Definition copy_field (typeOIDs : list Z) (i : nat) (v : value) : text :=
  if bool_decide (typeOIDs !! i = Some OidJSON ∨ typeOIDs !! i = Some OidJSONB) then encodeJSON v else formatCopyValue v.
Definition copy_line (delimiter : text) (typeOIDs : list Z) (values : list value) : text :=
  join delimiter (imap (copy_field typeOIDs) values) ++ [x0a].

(** The rows; one that fails to scan is reported and ends the loop only. *)
Fixpoint copy_lines (delimiter : text) (typeOIDs : list Z) (rowCount : Z) (l : list (list value + error)) : M (Z * bool) :=
  match l with
  | [] => mret (rowCount, true)
  | inr err :: _ => sendError "42000" (Error err) ;; mret (rowCount, false)
  | inl values :: l' =>
      send (CopyDataOut (copy_line delimiter typeOIDs values)) ;;
      copy_lines delimiter typeOIDs (rowCount + 1) l'
  end.

Definition copy_done (rowCount : Z) : M () := send (CommandComplete ("COPY " +:+ fmt_d rowCount)) ;; ready.

Definition copy_out_text (sql : text) (rows : rowset) (cols : list (string * string)) : M () :=
  let delimiter := copy_delimiter sql in
  send (CopyOutResponse (wrap_s 16 (Z.of_nat (length cols))) true) ;;
  (if copy_header sql then send (CopyDataOut (join delimiter (bytes <$> cols.*1) ++ [x0a])) else mret ()) ;;
  '(rowCount, ended) ← copy_lines delimiter (type_oids cols) 0 (rs_rows rows);
  match rs_Err (rs_after rows [] ended) with
  | Some err => copy_failed "42000" (Error err)
  | None => send CopyDoneOut ;; copy_done rowCount
  end.

(** The tuples of the binary format, the header with the first one: the rows sent
    or the error of a Scan, whether the rows ended, whether none was sent. *)
Fixpoint copy_out_tuples (typeOIDs : list Z) (first : bool) (rowCount : Z) (l : list (list value + error))
    : M ((Z + error) * bool * bool) :=
  match l with
  | [] => mret (inl rowCount, true, first)
  | inr err :: _ => mret (inr err, false, first)
  | inl values :: l' =>
      match encodeTuple duck_String typeOIDs values with
      | Ret t => send (CopyDataOut (if first then binaryHeader ++ t else t)) ;;
                 copy_out_tuples typeOIDs false (rowCount + 1) l'
      | Err e => match e with end
      | Panic r => crash r
      end
  end.

Definition handleCopyOutBinary (rows : rowset) (cols : list (string * string)) : M () :=
  match rs_types_err rows with
  | Some err => copy_failed "42000" (Error err)
  | None =>
      send (CopyOutResponse (wrap_s 16 (Z.of_nat (length cols))) false) ;;
      '(r, ended, first) ← copy_out_tuples (type_oids cols) true 0 (rs_rows rows);
      match r with
      | inr err => copy_failed "42000" (Error err)
      | inl rowCount =>
          match rs_Err (rs_after rows [] ended) with
          | Some err => copy_failed "42000" (Error err)
          | None =>
              send (CopyDataOut (if first : bool then binaryHeader ++ copy_trailer else copy_trailer)) ;;
              send CopyDoneOut ;; copy_done rowCount
          end
      end
  end.

Definition copy_out_select (source : text) : text :=
  let selectQuery := if has_parens source then take (length source - 2) (drop 1 source)
                     else bytes "SELECT * FROM " ++ source in
  if passthrough then selectQuery
  else match Transpile false selectQuery with
       | inl result => if FallbackToNative result then selectQuery else SQL result
       | inr _ => selectQuery
       end.

Definition handleCopyOut (sql : text) : M () :=
  match submatch1 copyToStdoutRegex sql with
  | None => copy_failed "42601" "Invalid COPY TO STDOUT syntax"
  | Some m =>
      r ← query (copy_out_select (bytes (TrimSpace (str m)))) [];
      match r with
      | inr err => copy_failed "42000" (Error err)
      | inl rows =>
          match rs_columns rows with
          | inr err => copy_failed "42000" (Error err)
          | inl cols =>
              if MatchString copyBinaryRegex sql then handleCopyOutBinary rows cols
              else match rs_types_err rows with
                   | Some err => copy_failed "42000" (Error err)
                   | None => copy_out_text sql rows cols
                   end
          end
      end
  end.

(** * COPY FROM STDIN *)

(** How the client's data ends: done, failed by the client, broken by another
    message, the connection lost, or given up on a failed write. *)
Inductive copy_end :=
  | CopyDoneIn | CopyFailIn (msg : text) | CopyUnexpected (msgType : byte) | CopyLost | CopyWriteFailed (err : string).

#[global] Instance copy_end_eq_dec : EqDecision copy_end.
Proof. solve_decision. Defined.

Definition end_marker (body : list byte) : bool := bool_decide (body = [x5c; x2e; x0a] ∨ body = [x5c; x2e]).

(** A message of the client, as COPY looks at it. *)
Inductive copy_frame := FrameData (body : list byte) | FrameEnd (e : copy_end).
Definition copy_message (m : option (byte * list byte)) : copy_frame :=
  match m with
  | None => FrameEnd CopyLost
  | Some (msgType, body) =>
      if bool_decide (msgType = x64) then FrameData body                              (* d *)
      else if bool_decide (msgType = x63) then FrameEnd CopyDoneIn                    (* c *)
      else if bool_decide (msgType = x66) then FrameEnd (CopyFailIn (trim_nul body))  (* f *)
      else FrameEnd (CopyUnexpected msgType)
  end.

(** The loop over the client's messages; every round takes one. *)
Fixpoint receive (fuel : nat) (skip_marker : bool) (write : list byte → option string) (acc : list byte)
    : M (list byte * copy_end) :=
  match fuel with
  | O => mret (acc, CopyLost)
  | S fuel' =>
      m ← recv;
      match copy_message m with
      | FrameEnd e => mret (acc, e)
      | FrameData body =>
          if skip_marker && end_marker body then receive fuel' skip_marker write acc
          else match write body with
               | Some err => mret (acc, CopyWriteFailed err)
               | None => receive fuel' skip_marker write (acc ++ body)
               end
      end
  end.
Definition copy_receive (skip_marker : bool) (write : list byte → option string) : M (list byte * copy_end) :=
  λ w, receive (S (length (w_in w))) skip_marker write [] w.

Definition unexpected_message (msgType : byte) : string :=
  "unexpected message type during COPY: " +:+ str (comma_rune msgType).

(** What the handlers do once the data has ended, given what they do when it is complete. *)
Definition copy_finish (e : copy_end) (load : M ()) : M () :=
  match e with
  | CopyDoneIn => load
  | CopyFailIn msg => copy_failed "57014" ("COPY failed: " +:+ str msg)
  | CopyUnexpected t => copy_failed "08P01" (unexpected_message t)
  | CopyLost => mret ()
  | CopyWriteFailed err => copy_failed "58000" ("failed to write to temp file: " +:+ err)
  end.

Definition copy_loaded (r : Z + string) : M () :=
  match r with
  | inr err => copy_failed "22P02" ("COPY failed: " +:+ err)
  | inl rowCount => copy_done rowCount
  end.

(** Batches of rows as INSERT statements: the rows inserted, or the error. *)
Fixpoint batchInsertRows (tableName columnList : string) (cols : list string) (bs : list (list (list value)))
    (rowCount : Z) : M (Z + string) :=
  match bs with
  | [] => mret (inl rowCount)
  | b :: bs' =>
      r ← exec (insert_sql tableName columnList cols b) (concat b);
      match r with
      | inr err => mret (inr ("batch INSERT failed at rows " +:+ fmt_d (rowCount + 1) +:+ "-"
                              +:+ fmt_d (rowCount + Z.of_nat (length b)) +:+ ": " +:+ Error err))
      | inl _ => batchInsertRows tableName columnList cols bs' (rowCount + Z.of_nat (length b))
      end
  end.

(** The Appender, when it is linked; true when it took the rows. *)
Definition appendWithDuckDBAppender (tableName : string) (rows : list (list value)) : M (option Z) :=
  match db_Append with
  | None => mret None
  | Some append =>
      r ← on_db (append (splitQualifiedName tableName) rows);
      mret (match r with inl n => Some n | inr _ => None end)
  end.

Definition copy_error_text (numCols : nat) (e : copy_error) : string :=
  match e with
  | HeaderTooShort => "binary COPY data too short for header"
  | BadSignature => "invalid binary COPY signature"
  | TruncatedTuple => "truncated binary COPY data at tuple header"
  | FieldCountMismatch got =>
      "binary COPY field count mismatch: got " +:+ fmt_d got +:+ ", expected " +:+ fmt_d (Z.of_nat numCols)
  | TruncatedLength i => "truncated binary COPY data at field " +:+ fmt_d (Z.of_nat i) +:+ " length"
  | TruncatedField i => "truncated binary COPY data at field " +:+ fmt_d (Z.of_nat i) +:+ " data"
  | FieldError i oid n e =>
      "failed to decode field " +:+ fmt_d (Z.of_nat i) +:+ " (OID " +:+ fmt_d oid +:+ ", " +:+ fmt_d n +:+ " bytes): "
      +:+ decode_error_text e
  end.

Definition parseBinaryCopyAndInsert (data : list byte) (tableName columnList : string) (cols : list string)
    (typeOIDs : list Z) : M (Z + string) :=
  match parse_copy data (length cols) typeOIDs with
  | Panic r => crash r
  | Err e => mret (inr (copy_error_text (length cols) e))
  | Ret [] => mret (inl 0)
  | Ret rows =>
      appended ← (if bool_decide (columnList = ""%string) then appendWithDuckDBAppender tableName rows else mret None);
      match appended with
      | Some n => mret (inl n)
      | None => batchInsertRows tableName columnList cols (batches (length rows) rows) 0
      end
  end.

Definition handleCopyInBinary (opts : CopyFromOptions) (cols : list (string * string)) (typeOIDs : list Z) : M () :=
  send (CopyInResponse (wrap_s 16 (Z.of_nat (length cols))) false) ;;
  '(data, e) ← copy_receive false (λ _, None);
  copy_finish e (r ← parseBinaryCopyAndInsert data (str (TableName opts)) (str (ColumnList opts)) cols.*1 typeOIDs;
                 copy_loaded r).

(** ** Tables with BLOB columns: the CSV is parsed here *)

Definition csv_value (opts : CopyFromOptions) (colTypes : list string) (i : nat) (field : list byte) : value :=
  if bool_decide (field = NullString opts) then VNil
  else if bool_decide (colTypes !! i = Some "BLOB"%string) then VBytes (Some field)
  else VString (str field).

(** Records up to the end or the first error; one of another width is left out. *)
Fixpoint csv_rows (fuel : nat) (opts : CopyFromOptions) (colTypes : list string) (numCols fieldsPerRecord : nat)
    (l : list byte) : list (list value) :=
  match fuel with
  | O => []
  | S fuel' =>
      match csv_Read (default x00 (head (Delimiter opts))) fieldsPerRecord l with
      | inr _ => []
      | inl (record, n, rest) =>
          let rows := csv_rows fuel' opts colTypes numCols n rest in
          if bool_decide (length record = numCols) then imap (csv_value opts colTypes) record :: rows else rows
      end
  end.

Definition csv_error_text (e : csv_error) : string :=
  match e with
  | CsvEOF => "EOF"
  | CsvInvalidDelim => "csv: invalid field or comment delimiter"
  | CsvFieldCount => "wrong number of fields"
  end.

Definition load_csv (opts : CopyFromOptions) (cols : list (string * string)) (data : list byte) : M () :=
  match (if HasHeader opts then csv_Read (default x00 (head (Delimiter opts))) 0 data else inl ([], 0%nat, data)) with
  | inr e => copy_failed "22P02" ("COPY failed: error reading CSV header: " +:+ csv_error_text e)
  | inl (_, n, rest) =>
      let rows := csv_rows (S (length rest)) opts cols.*2 (length cols) n rest in
      if bool_decide (rows = []) then copy_done 0
      else r ← batchInsertRows (str (TableName opts)) (str (ColumnList opts)) cols.*1 (batches (length rows) rows) 0;
           copy_loaded r
  end.

Definition handleCopyInCSVWithBlob (opts : CopyFromOptions) (cols : list (string * string)) : M () :=
  send (CopyInResponse (wrap_s 16 (Z.of_nat (length cols))) true) ;;
  '(data, e) ← copy_receive true (λ _, None);
  copy_finish e (load_csv opts cols data).

(** ** The temporary file *)

Definition handleCopyInFile (opts : CopyFromOptions) : M () :=
  match createTemp with
  | inr err => copy_failed "58000" ("failed to create temp file: " +:+ err)
  | inl tmpPath =>
      '(data, e) ← copy_receive true tmp_write;
      copy_finish e
        (r ← on_db (db_ExecFile tmpPath data (BuildDuckDBCopyFromSQL (TableName opts) (ColumnList opts) (bytes tmpPath) opts));
         copy_loaded (match r with inl n => inl n | inr err => inr (Error err) end))
  end.

(** ** The upload to a remote worker *)

(** copyDataWireReader: the bytes not yet handed out, and how the stream ended. *)
Record wire_reader := { wr_pending : list byte; wr_end : option copy_end }.
Definition new_reader : wire_reader := {| wr_pending := []; wr_end := None |}.

Inductive read_result := ReadBytes (bs : list byte) | ReadEOF | ReadError (err : string).

(** What Read returns when the stream ends, and from then on. A client that leaves
    makes ReadMessage return [io.EOF], which is passed on as it is. *)
Definition read_ended (e : copy_end) : read_result :=
  match e with
  | CopyFailIn _ | CopyUnexpected _ => ReadError "copy data stream aborted"
  | _ => ReadEOF
  end.

(** Read into a buffer of [n] bytes. *)
Fixpoint wire_Read (fuel n : nat) (r : wire_reader) : M (read_result * wire_reader) :=
  match fuel with
  | O => mret (ReadEOF, r)
  | S fuel' =>
      match wr_pending r with
      | _ :: _ => mret (ReadBytes (take n (wr_pending r)), {| wr_pending := drop n (wr_pending r); wr_end := wr_end r |})
      | [] =>
          match wr_end r with
          | Some e => mret (read_ended e, r)
          | None =>
              m ← recv;
              match copy_message m with
              | FrameData body =>
                  if end_marker body then wire_Read fuel' n r
                  else wire_Read fuel' n {| wr_pending := body; wr_end := None |}
              | FrameEnd e =>
                  mret (read_ended e, {| wr_pending := []; wr_end := Some e |})
              end
          end
      end
  end.

(** CopyFromStdin: chunks until the reader ends; end of file closes the upload, which
    makes the worker run the statement, an error cancels it. *)
Fixpoint upload (fuel chunk : nat) (r : wire_reader) : M ((Z + string) * wire_reader) :=
  match fuel with
  | O => mret (inr "upload stopped"%string, r)
  | S fuel' =>
      '(res, r) ← (λ w, wire_Read (S (S (length (w_in w)))) chunk r w);
      match res with
      | ReadBytes bs =>
          err ← on_db (remote_chunk bs);
          match err with
          | Some err => on_db (λ d, ((), remote_cancel d)) ;; mret (inr ("flight doput send chunk: " +:+ err), r)
          | None => upload fuel' chunk r
          end
      | ReadEOF => n ← on_db remote_close; mret (n, r)
      | ReadError err => on_db (λ d, ((), remote_cancel d)) ;; mret (inr ("read csv stream: " +:+ err), r)
      end
  end.

Definition pending_bytes (ms : list (byte * list byte)) : nat := sum_list_with (λ m, S (length m.2)) ms.
Definition CopyFromStdin (chunk : nat) (copySQL : text) : M ((Z + string) * wire_reader) :=
  err ← on_db (remote_open copySQL);
  match err with
  | Some err => on_db (λ d, ((), remote_cancel d)) ;; mret (inr err, new_reader)
  | None => λ w, upload (S (pending_bytes (w_in w))) chunk new_reader w
  end.

Definition CopyFromStdinPathPlaceholder : string := "__DUCKGRES_COPY_PATH__".
Definition CopyFromStdinChunkSize : Z := 2 ^ 20.

Definition handleCopyInRemoteStreaming (opts : CopyFromOptions) : M () :=
  '(res, r) ← CopyFromStdin (Z.to_nat CopyFromStdinChunkSize)
      (BuildDuckDBCopyFromSQL (TableName opts) (ColumnList opts) (bytes CopyFromStdinPathPlaceholder) opts);
  match wr_end r with
  | Some (CopyFailIn msg) => copy_failed "57014" ("COPY failed: " +:+ str msg)
  | Some (CopyUnexpected t) => copy_failed "08P01" (unexpected_message t)
  | _ => copy_loaded res
  end.

(** ** Dispatch *)

Definition copy_columns (opts : CopyFromOptions) : text :=
  bytes "SELECT "
  ++ (if bool_decide (ColumnList opts ≠ []) then take (length (ColumnList opts) - 2) (drop 1 (ColumnList opts)) else bytes "*")
  ++ bytes " FROM " ++ TableName opts ++ bytes " LIMIT 0".

Definition handleCopyIn (sql : text) : M () :=
  match ParseCopyFromOptions sql with
  | None => copy_failed "42601" "Invalid COPY FROM STDIN syntax"
  | Some opts =>
      r ← query (copy_columns opts) [];
      match r with
      | inr _ => copy_failed "42P01" (str (bytes "relation " ++ [x22] ++ TableName opts ++ [x22] ++ bytes " does not exist"))
      | inl testRows =>
          let cols := match rs_columns testRows with inl cols => cols | inr _ => [] end in
          let colTypes := if rs_types_err testRows then [] else cols.*2 in
          if IsBinary opts then handleCopyInBinary opts cols (if rs_types_err testRows then [] else type_oids cols)
          else if bool_decide ("BLOB"%string ∈ colTypes) then handleCopyInCSVWithBlob opts cols
          else
            send (CopyInResponse (wrap_s 16 (Z.of_nat (length cols))) true) ;;
            if remote then handleCopyInRemoteStreaming opts else handleCopyInFile opts
      end
  end.

Definition handleCopy (sql : text) : M () :=
  if MatchString copyToStdoutRegex (upper sql) then handleCopyOut sql
  else if MatchString copyFromStdinRegex (upper sql) then handleCopyIn sql
  else
    r ← exec sql [];
    match r with
    | inr err => copy_failed "42000" (Error err)
    | inl n => copy_done n
    end.
End copy.

(** The loop that serves a connection, with COPY in place. *)
Definition serve_messages `{Env} : M () := messageLoop handleCopy.
Definition serve_message `{Env} : byte → list byte → M () := dispatch handleCopy.
