(* ===== verification/ProtocolTheorems.v ===== *)
(** What a client sees of the query protocols: when the server says it is ready,
    how the transaction status moves, and that portals keep the statement they
    were bound to. *)

From Stdlib Require Import Strings.Byte.
From stdpp Require Import prelude gmap strings list sorting.
From Stdlib Require Import ZArith Lia.
From S2P Require Import Prelude GoText GoRegexp GoTime Values BinaryTypes CopyBinary SqlScan ErrorCodes Session ExtendedProtocol SimpleQuery CopyText.

Open Scope Z_scope.

Section protocol.
Context `{Env}.

(** * How a handler may change the world *)

Definition not_ready (r : reply) : Prop := match r with ReadyForQuery _ => False | _ => True end.

(** A reply that announces a change of the transaction status to [t]. *)
Definition announces (t : txStatus_t) (r : reply) : Prop :=
  match t, r with
  | txStatusError, ErrorResponse _ _ _ => True
  | txStatusIdle, CommandComplete _ | txStatusTransaction, CommandComplete _ => True
  | _, _ => False
  end.
Definition is_completion (r : reply) : Prop := match r with CommandComplete _ => True | _ => False end.

(** The status changes only by what the replies announce, and an error does not
    open a transaction. *)
Definition announced (t : txStatus_t) (new : list reply) (t' : txStatus_t) : Prop :=
  (t' ≠ t → Exists (announces t') new) ∧ (t' = txStatusError → t ≠ txStatusIdle ∨ Exists is_completion new).

(** Two statements differ at most in whether they have been described. *)
Definition same_stmt (a b : preparedStmt) : Prop :=
  ps_query a = ps_query b ∧ ps_convertedQuery a = ps_convertedQuery b ∧ ps_paramTypes a = ps_paramTypes b
  ∧ ps_numParams a = ps_numParams b ∧ ps_isIgnoredSet a = ps_isIgnoredSet b ∧ ps_isNoOp a = ps_isNoOp b
  ∧ ps_noOpTag a = ps_noOpTag b ∧ ps_statements a = ps_statements b
  ∧ ps_cleanupStatements a = ps_cleanupStatements b ∧ ps_cursorOp a = ps_cursorOp b
  ∧ ps_cursorName a = ps_cursorName b ∧ ps_cursorQuery a = ps_cursorQuery b ∧ ps_fetchCount a = ps_fetchCount b
  ∧ (ps_described a = true → ps_described b = true).

(** Statements are allocated and never changed, but for that flag. *)
Definition heap_grows (h h' : list preparedStmt) : Prop := ∀ r ps, h !! r = Some ps → ∃ ps', h' !! r = Some ps' ∧ same_stmt ps ps'.

(** Every name and every portal points to an allocated statement. *)
Definition refs_ok (c : conn) : Prop :=
  (∀ n r, c_stmts c !! n = Some r → is_Some (c_heap c !! r))
  ∧ (∀ n p, c_portals c !! n = Some p → is_Some (c_heap c !! p_stmt p)).

Definition sends (P : reply → Prop) (w w' : world) : Prop :=
  ∃ new, w_out w' = w_out w ++ new ∧ Forall P new ∧ announced (c_txStatus (w_conn w)) new (c_txStatus (w_conn w')).

Record quiet (w w' : world) : Prop := {
  quiet_sends : sends not_ready w w';
  quiet_heap : heap_grows (c_heap (w_conn w)) (c_heap (w_conn w'));
  quiet_refs : refs_ok (w_conn w) → refs_ok (w_conn w');
  quiet_in : w_in w' `suffix_of` w_in w }.

Lemma same_stmt_refl ps : same_stmt ps ps.
Proof. unfold same_stmt. naive_solver. Qed.
Lemma same_stmt_trans a b c : same_stmt a b → same_stmt b c → same_stmt a c.
Proof. unfold same_stmt. intuition congruence. Qed.

Lemma announced_refl t : announced t [] t.
Proof. split; [done|]. intros ->. by left. Qed.
Lemma announced_trans t1 n1 t2 n2 t3 : announced t1 n1 t2 → announced t2 n2 t3 → announced t1 (n1 ++ n2) t3.
Proof.
  intros [A1 B1] [A2 B2]. split.
  - intros Hne. rewrite Exists_app. destruct (decide (t3 = t2)) as [->|]; auto.
  - intros ->. rewrite Exists_app. destruct (decide (t1 = txStatusIdle)) as [->|]; [right|by left].
    destruct (B2 eq_refl) as [Hn|?]; [left|by right].
    destruct t2; [done| |by destruct (B1 eq_refl)].
    destruct (Exists_exists (announces txStatusTransaction) n1) as [He _].
    destruct He as (r & Hr & Ha); [by apply A1|]. apply Exists_exists. exists r. by destruct r.
Qed.

Lemma sends_refl P w : sends P w w.
Proof. exists []. rewrite app_nil_r. auto using announced_refl, Forall_nil_2. Qed.
Lemma sends_trans P w1 w2 w3 : sends P w1 w2 → sends P w2 w3 → sends P w1 w3.
Proof.
  intros (n1 & E1 & F1 & A1) (n2 & E2 & F2 & A2). exists (n1 ++ n2). rewrite E2, E1, app_assoc.
  eauto using Forall_app_2, announced_trans.
Qed.

Lemma heap_grows_refl h : heap_grows h h.
Proof. intros r ps Hr. eauto using same_stmt_refl. Qed.
Lemma heap_grows_trans h1 h2 h3 : heap_grows h1 h2 → heap_grows h2 h3 → heap_grows h1 h3.
Proof. intros H1 H2 r ps Hr. destruct (H1 r ps Hr) as (ps' & Hr' & ?). destruct (H2 r ps' Hr') as (ps'' & ? & ?). eauto using same_stmt_trans. Qed.

#[local] Instance quiet_refl : Reflexive quiet.
Proof. split; eauto using sends_refl, heap_grows_refl. Qed.
#[local] Instance quiet_trans : Transitive quiet.
Proof.
  intros w1 w2 w3 [] []. split; eauto using sends_trans, heap_grows_trans.
  by etrans.
Qed.

(** * Handlers that do not say they are ready *)

Definition keeps {A} (m : M A) : Prop := ∀ w, quiet w (m w).2.

Lemma keeps_pure {A} (a : A) : keeps (mret a).
Proof. intros w. done. Qed.
Lemma keeps_crash {A} p : keeps (@crash _ A p).
Proof. intros w. done. Qed.
Lemma keeps_seq {A B} (m : M A) (f : A → M B) : keeps m → (∀ a, keeps (f a)) → keeps (m ≫= f).
Proof.
  intros Hm Hf w. specialize (Hm w). unfold mbind, M_bind.
  destruct (m w) as [[a|p] w'] eqn:E; simpl in *; [|done]. etrans; [exact Hm|apply Hf].
Qed.
Lemma keeps_gets {A} (f : conn → A) : keeps (gets f).
Proof. intros w. done. Qed.

(** A change of the connection that touches neither statements nor status. *)
Definition harmless (f : conn → conn) : Prop :=
  ∀ c, c_heap (f c) = c_heap c ∧ c_txStatus (f c) = c_txStatus c ∧ (refs_ok c → refs_ok (f c)).
Lemma keeps_modify f : harmless f → keeps (modify f).
Proof.
  intros Hf w. destruct (Hf (w_conn w)) as (Hh & Ht & Hr). split; simpl; [|by rewrite Hh; apply heap_grows_refl|done|done].
  exists []. rewrite app_nil_r. simpl. rewrite Ht. auto using announced_refl, Forall_nil_2.
Qed.
Lemma keeps_send r : not_ready r → keeps (send r).
Proof.
  intros Hr w. split; simpl; [|apply heap_grows_refl|done|done].
  exists [r]. split_and!; [done|by apply Forall_singleton|].
  split; [done|]. simpl. intros Ht. left. by rewrite Ht.
Qed.
Lemma keeps_on_db {A} (f : DB → A * DB) : keeps (on_db f).
Proof. intros w. unfold on_db. destruct (f (w_db w)). split; simpl; eauto using heap_grows_refl. exact (sends_refl _ w). Qed.
Lemma keeps_recv : keeps recv.
Proof.
  intros w. unfold recv. destruct (w_in w) as [|m ms] eqn:E; [done|]. split; simpl; eauto using heap_grows_refl.
  - exact (sends_refl _ w).
  - rewrite E. by apply suffix_cons_r.
Qed.
(** Handlers that look at the world to bound a loop. *)
Lemma keeps_at {A} (m : world → M A) : (∀ w, keeps (m w)) → keeps (λ w, m w w).
Proof. intros Hm w. apply Hm. Qed.

Lemma harmless_cursors m : harmless (λ c, set_cursors (m c) c).
Proof. intros c. done. Qed.

(** * The places where the status moves *)

(** Sending something that announces the status set before or after it. *)
Lemma quiet_tx (w : world) (c : conn) (d : DB) (new : list reply) (i : list (byte * list byte)) :
  c_heap c = c_heap (w_conn w) → (refs_ok (w_conn w) → refs_ok c) → i `suffix_of` w_in w →
  Forall not_ready new → announced (c_txStatus (w_conn w)) new (c_txStatus c) →
  quiet w {| w_conn := c; w_db := d; w_out := w_out w ++ new; w_in := i |}.
Proof. intros Hh Hr Hi Hn Ha. split; simpl; [|rewrite Hh; apply heap_grows_refl|done|done]. by exists new. Qed.

Lemma announced_error t new : Exists (announces txStatusError) new →
  announced t new (if bool_decide (t = txStatusTransaction) then txStatusError else t).
Proof.
  intros He. case_bool_decide as Ht; [|split; [done|intros ->; by left]].
  split; [done|]. intros _. left. by rewrite Ht.
Qed.

Lemma setTxError_run w : (setTxError w).2 = {| w_conn := set_tx (if bool_decide (c_txStatus (w_conn w) = txStatusTransaction)
    then txStatusError else c_txStatus (w_conn w)) (w_conn w); w_db := w_db w; w_out := w_out w; w_in := w_in w |}
  ∧ (setTxError w).1 = Ok ().
Proof. unfold setTxError, mbind, M_bind, gets. cbn. case_bool_decide; [done|]. split; [|done]. by destruct w as [[] ? ? ?]. Qed.

(** An error reported before the status turns. *)
Lemma keeps_error_tx code msg : keeps (sendError code msg ;; setTxError).
Proof.
  intros w. unfold sendError, send, mbind, M_bind. cbn.
  destruct (setTxError_run {| w_conn := w_conn w; w_db := w_db w; w_out := w_out w ++ [ErrorResponse "ERROR" code msg]; w_in := w_in w |})
    as [-> _]. cbn. apply quiet_tx; cbn; try done; [by apply Forall_singleton|].
  apply announced_error. by constructor.
Qed.

(** A completion reported after the status has turned. *)
Lemma foldl_delete_none (l : list string) (m : gmap string cursorState) n :
  n ∈ l ∨ m !! n = None → foldl (λ m n, delete n m) m l !! n = None.
Proof.
  revert m. induction l as [|k l IH]; intros m Hn; cbn [foldl]; [set_solver|]. apply IH.
  destruct (decide (n = k)) as [->|]; [right; apply lookup_delete_eq|].
  rewrite lookup_delete_ne by done. set_solver.
Qed.

Lemma close_cursors_run l w : foldr (λ name k, closeCursor name ;; k) (mret ()) l w
  = (Ok (), {| w_conn := set_cursors (foldl (λ m n, delete n m) (c_cursors (w_conn w)) l) (w_conn w);
               w_db := w_db w; w_out := w_out w; w_in := w_in w |}).
Proof.
  revert w. induction l as [|n l IH]; intros w; cbn [foldr foldl]; [by destruct w as [[] ? ? ?]|].
  unfold closeCursor, modify, mbind, M_bind. cbv beta iota. by rewrite IH.
Qed.

Lemma closeAllCursors_run w : closeAllCursors w =
  (Ok (), {| w_conn := set_cursors ∅ (w_conn w); w_db := w_db w; w_out := w_out w; w_in := w_in w |}).
Proof.
  unfold closeAllCursors, gets, mbind, M_bind. cbv beta iota. rewrite close_cursors_run.
  do 3 f_equal. apply map_eq. intros n. rewrite lookup_empty. apply foldl_delete_none.
  destruct (c_cursors (w_conn w) !! n) as [cs|] eqn:E; [left|by right].
  apply list_elem_of_fmap. exists (n, cs). by rewrite elem_of_map_to_list.
Qed.

(** The connection after a successful command. *)
Definition status_after (cmdType : string) (c : conn) : conn :=
  if bool_decide (cmdType = "BEGIN"%string) then set_tx txStatusTransaction c
  else if bool_decide (cmdType = "COMMIT"%string ∨ cmdType = "ROLLBACK"%string)
  then set_cursors ∅ (set_tx txStatusIdle c) else c.

Lemma updateTxStatus_run cmdType w : updateTxStatus cmdType w =
  (Ok (), {| w_conn := status_after cmdType (w_conn w); w_db := w_db w; w_out := w_out w; w_in := w_in w |}).
Proof.
  unfold updateTxStatus, status_after. case_bool_decide; [done|]. case_bool_decide; [|by destruct w].
  unfold mbind, M_bind, modify. cbv beta iota. by rewrite closeAllCursors_run.
Qed.

Lemma keeps_complete cmdType tag : keeps (updateTxStatus cmdType ;; send (CommandComplete tag)).
Proof.
  intros w. unfold mbind, M_bind. rewrite updateTxStatus_run. cbn.
  assert (announced (c_txStatus (w_conn w)) [CommandComplete tag] (c_txStatus (status_after cmdType (w_conn w)))) as Ha.
  { unfold status_after. repeat case_bool_decide; cbn; (split; [by constructor|by right; constructor]). }
  unfold status_after in *. repeat case_bool_decide; by apply quiet_tx; [..|apply Forall_singleton|].
Qed.

(** Sequencing is associative, so a block may be followed by anything. *)
Lemma keeps_block {A B} (m1 : M A) (m2 : M B) {C} (k : B → M C) :
  keeps (m1 ;; m2) → (∀ b, keeps (k b)) → keeps (m1 ;; (m2 ≫= k)).
Proof.
  intros H12 Hk w. pose proof (keeps_seq _ _ H12 Hk w) as Hq. unfold mbind, M_bind in *.
  by destruct (m1 w) as [[]].
Qed.

Lemma executeCleanup_run cleanup w : ∃ d, executeCleanup cleanup w =
  (Ok (), {| w_conn := w_conn w; w_db := d; w_out := w_out w; w_in := w_in w |}).
Proof.
  revert w. induction cleanup as [|stmt cleanup IH]; intros w; [exists (w_db w); by destruct w|].
  cbn [executeCleanup]. unfold exec, on_db, mbind, M_bind. destruct (db_Exec stmt [] (w_db w)) as [r d].
  cbv beta iota. apply (IH {| w_conn := w_conn w; w_db := d; w_out := w_out w; w_in := w_in w |}).
Qed.

Lemma keeps_multi_failed cleanup err : keeps (multi_failed cleanup err).
Proof.
  intros w. unfold multi_failed, mbind, M_bind.
  destruct (setTxError_run w) as [E1 E2]. destruct (setTxError w) as [r w1]. cbn in E1, E2. subst r w1.
  match goal with |- context[executeCleanup cleanup ?w1] => destruct (executeCleanup_run cleanup w1) as [d ->] end.
  cbn. apply quiet_tx; cbn; try done; [by apply Forall_singleton|]. apply announced_error. by constructor.
Qed.

(** Proves that a handler keeps quiet, down to the handlers it calls. *)
Ltac keeps :=
  repeat match goal with
  | |- keeps (mret _) => apply keeps_pure
  | |- keeps (crash _) => apply keeps_crash
  | |- keeps (gets _) => apply keeps_gets
  | |- keeps (on_db _) => apply keeps_on_db
  | |- keeps recv => apply keeps_recv
  | |- keeps (send _) => apply keeps_send; exact I
  | |- keeps (sendError _ _) => apply keeps_send; exact I
  | |- keeps (sendError _ _ ;; setTxError) => apply keeps_error_tx
  | |- keeps (updateTxStatus _ ;; send (CommandComplete _)) => apply keeps_complete
  | |- keeps (sendError _ _ ;; (setTxError ≫= _)) => apply keeps_block; [apply keeps_error_tx|intros]
  | |- keeps (updateTxStatus _ ;; (send (CommandComplete _) ≫= _)) => apply keeps_block; [apply keeps_complete|intros]
  | |- keeps _ => solve [eauto with keeps]
  | |- keeps (_ ≫= _) => apply keeps_seq; [|intros]
  | |- keeps (match ?x with _ => _ end) => destruct x
  | |- keeps (let '_ := ?x in _) => destruct x
  end.

Create HintDb keeps.
#[local] Hint Resolve keeps_multi_failed : keeps.

Lemma keeps_closeCursor name : keeps (closeCursor name).
Proof. apply keeps_modify, (harmless_cursors (λ c, _)). Qed.
Lemma keeps_put_cursor name cs : keeps (put_cursor name cs).
Proof. apply keeps_modify, (harmless_cursors (λ c, _)). Qed.
#[local] Hint Resolve keeps_closeCursor keeps_put_cursor : keeps.
Lemma keeps_closeAllCursors : keeps closeAllCursors.
Proof.
  unfold closeAllCursors. apply keeps_seq; [apply keeps_gets|]. intros l.
  induction l as [|n l IH]; cbn [foldr]; [apply keeps_pure|]. apply keeps_seq; [keeps|done].
Qed.
#[local] Hint Resolve keeps_closeAllCursors : keeps.

Lemma keeps_query sql args : keeps (query sql args).
Proof. apply keeps_on_db. Qed.
Lemma keeps_db_exec sql args : keeps (exec sql args).
Proof. apply keeps_on_db. Qed.
#[local] Hint Resolve keeps_query keeps_db_exec : keeps.
Lemma keeps_openCursor name cs : keeps (openCursor name cs).
Proof. unfold openCursor. keeps. Qed.
#[local] Hint Resolve keeps_openCursor : keeps.
Lemma keeps_getCursorSchema name : keeps (getCursorSchema name).
Proof. unfold getCursorSchema. keeps. Qed.
Lemma keeps_fetch_rows n c f o l : keeps (fetch_rows n c f o l).
Proof. revert c. induction l as [|[] l IH]; intros c; cbn [fetch_rows]; keeps. Qed.
Lemma keeps_stream_rows n c f o l : keeps (stream_rows n c f o l).
Proof. revert c. induction l as [|[] l IH]; intros c; cbn [stream_rows]; keeps. Qed.
Lemma keeps_sendRowDescription c t f : keeps (sendRowDescription c t f).
Proof. unfold sendRowDescription. keeps. Qed.
Lemma keeps_row_error e : keeps (row_error e).
Proof. unfold row_error. case_match; keeps. Qed.
Lemma keeps_statement_error e : keeps (statement_error e).
Proof. unfold statement_error. keeps. Qed.
#[local] Hint Resolve keeps_getCursorSchema keeps_fetch_rows keeps_stream_rows keeps_sendRowDescription keeps_row_error
  keeps_statement_error : keeps.

Lemma keeps_retry_attempts {A} n e (fn : M (A + error)) : keeps fn → keeps (retry_attempts n e fn).
Proof. intros Hf. revert e. induction n as [|n IH]; intros e; cbn [retry_attempts]; keeps. Qed.
Lemma keeps_run_recovering {A} (fn : M (A + error)) : keeps fn → keeps (run_recovering fn).
Proof. intros Hf. unfold run_recovering, retryOnConflict, recoverAbortedTransaction. pose proof (@keeps_retry_attempts A). keeps. Qed.
Lemma keeps_run_exec sql args : keeps (run_exec sql args).
Proof. unfold run_exec. keeps. Qed.
Lemma keeps_validate sql : keeps (validateWithDuckDB sql).
Proof. unfold validateWithDuckDB. keeps. Qed.
#[local] Hint Resolve keeps_run_recovering keeps_run_exec keeps_validate : keeps.

(** * Statements and portals *)

(** A change of the statements alone. *)
Lemma keeps_modify_heap f :
  (∀ c, heap_grows (c_heap c) (c_heap (f c)) ∧ c_txStatus (f c) = c_txStatus c ∧ (refs_ok c → refs_ok (f c))) →
  keeps (modify f).
Proof.
  intros Hf w. destruct (Hf (w_conn w)) as (Hh & Ht & Hr). split; simpl; try done.
  exists []. rewrite app_nil_r. simpl. rewrite Ht. auto using announced_refl, Forall_nil_2.
Qed.

Lemma heap_is_Some h h' r : heap_grows h h' → is_Some (h !! r) → is_Some (h' !! r).
Proof. intros Hg [ps Hr]. destruct (Hg r ps Hr) as (ps' & ? & _). eauto. Qed.

Lemma refs_heap c h : heap_grows (c_heap c) h → refs_ok c → refs_ok (set_heap h c).
Proof. intros Hg [Hs Hp]. split; simpl; eauto using heap_is_Some. Qed.

Lemma heap_grows_snoc h ps : heap_grows h (h ++ [ps]).
Proof. intros r ps' Hr. exists ps'. split; [by apply lookup_app_l_Some|apply same_stmt_refl]. Qed.

Lemma keeps_put_stmt name ps : keeps (put_stmt name ps).
Proof.
  unfold put_stmt. apply keeps_seq; [|intros; keeps]. apply keeps_modify_heap. intros c. split_and!; [apply heap_grows_snoc|done|].
  intros Hr. destruct (refs_heap c (c_heap c ++ [ps]) (heap_grows_snoc _ _) Hr) as [Hs Hp]. split; simpl in *; [|done].
  intros n r. destruct (decide (n = name)) as [->|]; [rewrite lookup_insert_eq|rewrite lookup_insert_ne by done; apply Hs].
  intros [= <-]. exists ps. by apply list_lookup_middle.
Qed.

Lemma heap_grows_described h r f : (∀ ps, same_stmt ps (f ps)) → heap_grows h (alter f r h).
Proof.
  intros Hf r' ps Hr. destruct (decide (r = r')) as [->|].
  - rewrite list_lookup_alter_eq, Hr. simpl. eauto.
  - rewrite list_lookup_alter_ne by done. eauto using same_stmt_refl.
Qed.
Lemma keeps_set_described r : keeps (set_described r).
Proof.
  apply keeps_modify_heap. intros c. assert (heap_grows (c_heap c) (c_heap (set_heap (alter (λ ps,
    {| ps_query := ps_query ps; ps_convertedQuery := ps_convertedQuery ps; ps_paramTypes := ps_paramTypes ps;
       ps_numParams := ps_numParams ps; ps_isIgnoredSet := ps_isIgnoredSet ps; ps_isNoOp := ps_isNoOp ps;
       ps_noOpTag := ps_noOpTag ps; ps_described := true; ps_statements := ps_statements ps;
       ps_cleanupStatements := ps_cleanupStatements ps; ps_cursorOp := ps_cursorOp ps; ps_cursorName := ps_cursorName ps;
       ps_cursorQuery := ps_cursorQuery ps; ps_fetchCount := ps_fetchCount ps |}) r (c_heap c)) c))) as Hg.
  { apply heap_grows_described. intros ps. by unfold same_stmt. }
  split_and!; [done|done|]. intros Hr. by apply refs_heap.
Qed.

Lemma keeps_set_portal_described name : keeps (set_portal_described name).
Proof.
  apply keeps_modify. intros c. split_and!; [done|done|]. intros [Hs Hp]. split; [done|]. simpl. intros n p.
  rewrite lookup_alter. case_decide as Hn; [|apply Hp].
  rewrite fmap_Some. intros (p' & Hp' & ->). exact (Hp _ p' Hp').
Qed.
Lemma keeps_deref r : keeps (deref r).
Proof. unfold deref. keeps. Qed.
#[local] Hint Resolve keeps_put_stmt keeps_set_described keeps_set_portal_described keeps_deref : keeps.

Lemma keeps_send_all rs : Forall not_ready rs → keeps (send_all rs).
Proof. induction 1 as [|r rs Hr _ IH]; cbn [send_all]; [apply keeps_pure|]. apply keeps_seq; [by apply keeps_send|done]. Qed.
Lemma keeps_pg_stat_activity sql f : keeps (send_pg_stat_activity sql f).
Proof.
  unfold send_pg_stat_activity. apply keeps_seq; [keeps|]. intros tx. cbv zeta. apply keeps_seq; [|intros; keeps].
  apply keeps_send_all. by apply Forall_fmap, Forall_true.
Qed.
Lemma keeps_pg_cursors name f : keeps (send_pg_cursors name f).
Proof. unfold send_pg_cursors. keeps. Qed.
#[local] Hint Resolve keeps_pg_stat_activity keeps_pg_cursors : keeps.

(** * The extended protocol *)

Lemma keeps_handleParse body : keeps (handleParse body).
Proof. unfold handleParse, parse_query. cbv zeta. keeps. Qed.

Lemma keeps_handleBind body : keeps (handleBind body).
Proof.
  unfold handleBind, no_such_statement. destruct (readCString body) as [[portalName r1]|]; [|keeps].
  destruct (readCString r1) as [[stmtName r2]|]; [|keeps].
  intros w. unfold gets, mbind, M_bind. cbv beta iota.
  destruct (c_stmts (w_conn w) !! str stmtName) as [ref|] eqn:Href; [|by apply (keeps_send (ErrorResponse _ _ _))].
  destruct (read_bind r2) as [| |m]; [by apply (keeps_send (ErrorResponse _ _ _))|done|].
  unfold deref, gets, mbind, M_bind. cbv beta iota. destruct (c_heap (w_conn w) !! ref) as [ps|] eqn:Hps; [|done].
  cbn. apply quiet_tx; cbn; try done; [| |split; [done|intros ->; by left]]; [|by apply Forall_singleton].
  intros [Hs Hp]. split; [done|]. cbn. intros n p.
  destruct (decide (n = str portalName)) as [->|]; [rewrite lookup_insert_eq|rewrite lookup_insert_ne by done; apply Hp].
  intros [= <-]. cbn. eauto.
Qed.

Lemma keeps_probe sql args : keeps (probe sql args).
Proof. unfold probe. keeps. Qed.
#[local] Hint Resolve keeps_probe : keeps.
Lemma keeps_handleDescribe body : keeps (handleDescribe body).
Proof.
  unfold handleDescribe, describe_statement, describe_portal, sendParameterDescription, invalid_param, no_such_statement,
    no_such_portal. cbv zeta. keeps.
Qed.

Lemma keeps_run_setup l args : keeps (run_setup l args).
Proof. induction l; cbn [run_setup]; keeps. Qed.
Lemma keeps_executeCleanup l : keeps (executeCleanup l).
Proof. induction l; cbn [executeCleanup]; keeps. Qed.
#[local] Hint Resolve keeps_run_setup keeps_executeCleanup : keeps.
Lemma keeps_multiExtended s c a f d : keeps (executeMultiStatementExtended s c a f d).
Proof. unfold executeMultiStatementExtended, streamRowsToClientExtended. cbv zeta. keeps. Qed.
#[local] Hint Resolve keeps_multiExtended : keeps.
Lemma keeps_handleExecute body : keeps (handleExecute body).
Proof.
  unfold handleExecute, handleDeclareCursorExtended, handleFetchCursorExtended, handleCloseCursorExtended,
    handlePgCursorsQueryExtended, handlePgStatActivityExtended, execute_statement, execute_query, execute_command, fetch_from,
    invalid_param, no_such_portal, no_such_cursor, sendNotice. cbv zeta. keeps.
Qed.

Lemma keeps_handleClose body : keeps (handleClose body).
Proof.
  unfold handleClose. cbv zeta. destruct body as [|t [|b rest]]; [keeps|keeps|].
  apply keeps_seq; [|intros; keeps]. case_match; [|case_match; [|keeps]]; apply keeps_modify; intros c; split_and!; try done;
    intros [Hs Hp]; split; cbn; try done; intros n x [_ Hx]%lookup_delete_Some; eauto.
Qed.
#[local] Hint Resolve keeps_handleParse keeps_handleBind keeps_handleDescribe keeps_handleExecute keeps_handleClose : keeps.

(** * Handlers that end by saying they are ready *)

(** The world after ReadyForQuery with the current status. *)
Definition with_ready (w : world) : world :=
  {| w_conn := w_conn w; w_db := w_db w; w_out := w_out w ++ [ReadyForQuery (c_txStatus (w_conn w))]; w_in := w_in w |}.

(** The handler returns having sent exactly one ReadyForQuery, last and with the
    status then; unless it panicked, or the client left while it was copying. *)
Definition ends_ready {A} (m : M A) : Prop := ∀ w,
  match (m w).1 with
  | Ok _ => (∃ w1, quiet w w1 ∧ (m w).2 = with_ready w1) ∨ (quiet w (m w).2 ∧ w_in (m w).2 = [])
  | Crash _ => quiet w (m w).2
  end.

Lemma ends_ready_ready : ends_ready ready.
Proof. intros w. left. exists w. split; [done|]. by destruct w. Qed.
Lemma ends_ready_crash {A} p : ends_ready (@crash _ A p).
Proof. intros w. cbn. done. Qed.
(** A run that starts after some quiet steps. *)
Lemma ends_ready_after {A} (m : M A) w w1 : quiet w w1 → ends_ready m →
  match (m w1).1 with
  | Ok _ => (∃ w2, quiet w w2 ∧ (m w1).2 = with_ready w2) ∨ (quiet w (m w1).2 ∧ w_in (m w1).2 = [])
  | Crash _ => quiet w (m w1).2
  end.
Proof.
  intros Hq Hm. specialize (Hm w1). destruct (m w1) as [[a|p] w2]; cbn in *; [|by etrans].
  destruct Hm as [(w3 & H3 & ->)|[H3 Hi]]; [left|right]; [exists w3|]; split; try done; by etrans.
Qed.
Lemma ends_ready_bind {A B} (m : M A) (f : A → M B) : keeps m → (∀ a, ends_ready (f a)) → ends_ready (m ≫= f).
Proof.
  intros Hm Hf w. specialize (Hm w). unfold mbind, M_bind. destruct (m w) as [[a|p] w1]; cbn in *; [|done].
  by apply ends_ready_after.
Qed.
Lemma ends_ready_block {A B C} (m1 : M A) (m2 : M B) (k : B → M C) :
  keeps (m1 ;; m2) → (∀ b, ends_ready (k b)) → ends_ready (m1 ;; (m2 ≫= k)).
Proof.
  intros H12 Hk w. pose proof (ends_ready_bind _ _ H12 Hk w) as Hq. unfold mbind, M_bind in *.
  by destruct (m1 w) as [[]].
Qed.

Ltac ends_ready :=
  repeat match goal with
  | |- ends_ready ready => apply ends_ready_ready
  | |- ends_ready (crash _) => apply ends_ready_crash
  | |- ends_ready (sendError _ _ ;; (setTxError ≫= _)) => apply ends_ready_block; [apply keeps_error_tx|intros]
  | |- ends_ready (updateTxStatus _ ;; (send (CommandComplete _) ≫= _)) => apply ends_ready_block; [apply keeps_complete|intros]
  | |- ends_ready _ => solve [eauto with keeps]
  | |- ends_ready (_ ≫= _) => apply ends_ready_bind; [keeps|intros]
  | |- ends_ready (match ?x with _ => _ end) => destruct x
  | |- ends_ready (let '_ := ?x in _) => destruct x
  end.

(** ** Simple queries *)

Lemma keeps_declare_cursor n q : keeps (declare_cursor n q).
Proof. unfold declare_cursor. keeps. Qed.
Lemma keeps_fetch_cursor d n name mv : keeps (fetch_cursor d n name mv).
Proof. unfold fetch_cursor, no_such_cursor. cbv zeta. keeps. Qed.
Lemma keeps_close_cursor name : keeps (close_cursor name).
Proof. unfold close_cursor, no_such_cursor. keeps. Qed.
Lemma keeps_execute_simple run cmd : keeps run → keeps (execute_simple run cmd).
Proof. intros Hr. unfold execute_simple, sendNotice. keeps. Qed.
Lemma keeps_select_in_batch sql cmd : keeps (select_in_batch sql cmd).
Proof. unfold select_in_batch. keeps. Qed.
#[local] Hint Resolve keeps_declare_cursor keeps_fetch_cursor keeps_close_cursor keeps_execute_simple keeps_select_in_batch : keeps.
Lemma keeps_executeSingleStatement sql : keeps (executeSingleStatement sql).
Proof. unfold executeSingleStatement. cbv zeta. keeps. Qed.
#[local] Hint Resolve keeps_executeSingleStatement : keeps.
Lemma keeps_run_batch stmts : keeps (run_batch stmts).
Proof. induction stmts; cbn [run_batch]; keeps. Qed.
#[local] Hint Resolve keeps_run_batch : keeps.
Lemma keeps_send_result rows cols sf itf k : (∀ e, keeps (sf e)) → (∀ e, keeps (itf e)) → (∀ n, keeps (k n)) →
  keeps (send_result rows cols sf itf k).
Proof. intros Hs Hi Hk. unfold send_result. keeps; auto. Qed.

Lemma ends_ready_executeSelectQuery sql cmd : ends_ready (executeSelectQuery sql cmd).
Proof.
  unfold executeSelectQuery. ends_ready. apply keeps_send_result; intros; keeps.
Qed.
#[local] Hint Resolve ends_ready_executeSelectQuery : keeps.
Lemma ends_ready_executeQueryDirect sql cmd : ends_ready (executeQueryDirect sql cmd).
Proof. unfold executeQueryDirect. ends_ready. Qed.
Lemma ends_ready_multi s c : ends_ready (executeMultiStatement s c).
Proof.
  unfold executeMultiStatement, streamRowsToClient. cbv zeta. ends_ready. apply keeps_send_result; intros; keeps.
Qed.
#[local] Hint Resolve ends_ready_executeQueryDirect ends_ready_multi : keeps.

Lemma ends_ready_handleQuery copy body : (∀ sql, ends_ready (copy sql)) → ends_ready (handleQuery copy body).
Proof.
  intros Hc. unfold handleQuery, run_transpiled, handleDeclareCursor, handleFetchCursor, handleCloseCursor,
    handlePgCursorsQuery, handlePgStatActivity, handleMultiStatementQuery. cbv zeta. ends_ready.
Qed.

(** ** COPY *)

Lemma ends_ready_copy_failed code msg : ends_ready (copy_failed code msg).
Proof. unfold copy_failed. ends_ready. Qed.
Lemma ends_ready_copy_done n : ends_ready (copy_done n).
Proof. unfold copy_done. ends_ready. Qed.
#[local] Hint Resolve ends_ready_copy_failed ends_ready_copy_done : keeps.
Lemma ends_ready_copy_loaded r : ends_ready (copy_loaded r).
Proof. unfold copy_loaded. ends_ready. Qed.
#[local] Hint Resolve ends_ready_copy_loaded : keeps.

Lemma keeps_copy_lines d o n l : keeps (copy_lines d o n l).
Proof. revert n. induction l as [|[] l IH]; intros n; cbn [copy_lines]; keeps. Qed.
Lemma keeps_copy_out_tuples o b n l : keeps (copy_out_tuples o b n l).
Proof.
  revert b n. induction l as [|[values|err] l IH]; intros b n; cbn [copy_out_tuples]; keeps.
Qed.
#[local] Hint Resolve keeps_copy_lines keeps_copy_out_tuples : keeps.
Lemma ends_ready_handleCopyOut sql : ends_ready (handleCopyOut sql).
Proof. unfold handleCopyOut, handleCopyOutBinary, copy_out_text. cbv zeta. ends_ready. Qed.

(** Receiving the client's data: lost only when nothing more comes. *)
Lemma keeps_receive fuel skip write acc : keeps (receive fuel skip write acc).
Proof. revert acc. induction fuel as [|fuel IH]; intros acc; cbn [receive]; keeps. Qed.

Lemma receive_lost fuel skip write acc w data w' : (length (w_in w) < fuel)%nat →
  receive fuel skip write acc w = (Ok (data, CopyLost), w') → w_in w' = [].
Proof.
  revert acc w. induction fuel as [|fuel IH]; intros acc w Hf; [lia|]. cbn [receive]. unfold recv, mbind, M_bind.
  destruct (w_in w) as [|[t body] ms] eqn:Ein; cbv beta iota; [by intros [= <- <-]|].
  cbn in Hf. unfold copy_message. repeat case_bool_decide; try (intros ?; discriminate).
  repeat case_match; try (intros ?; discriminate); apply IH; cbn; lia.
Qed.

Lemma ends_ready_received skip write (load : list byte → M ()) : (∀ data, ends_ready (load data)) →
  ends_ready (copy_receive skip write ≫= λ '(data, e), copy_finish e (load data)).
Proof.
  intros Hl w. unfold copy_receive, mbind, M_bind.
  pose proof (keeps_receive (S (length (w_in w))) skip write [] w) as Hq.
  destruct (receive (S (length (w_in w))) skip write [] w) as [[[data e]|p] w1] eqn:E; cbv beta iota; [|done].
  cbn [snd] in Hq. destruct (decide (e = CopyLost)) as [->|He].
  - right. split; [done|]. by eapply receive_lost; [|exact E]; lia.
  - apply ends_ready_after; [done|]. unfold copy_finish. destruct e; try done; auto using ends_ready_copy_failed.
Qed.

Lemma keeps_batchInsertRows t c cols bs n : keeps (batchInsertRows t c cols bs n).
Proof. revert n. induction bs as [|b bs IH]; intros n; cbn [batchInsertRows]; keeps. Qed.
Lemma keeps_append t rows : keeps (appendWithDuckDBAppender t rows).
Proof. unfold appendWithDuckDBAppender. keeps. Qed.
#[local] Hint Resolve keeps_batchInsertRows keeps_append : keeps.
Lemma keeps_parseBinary d t c cols o : keeps (parseBinaryCopyAndInsert d t c cols o).
Proof. unfold parseBinaryCopyAndInsert. keeps. Qed.
#[local] Hint Resolve keeps_parseBinary : keeps.
Lemma ends_ready_load_csv opts cols data : ends_ready (load_csv opts cols data).
Proof. unfold load_csv. cbv zeta. ends_ready. Qed.

Lemma keeps_wire_Read fuel n r : keeps (wire_Read fuel n r).
Proof. revert r. induction fuel as [|fuel IH]; intros r; cbn [wire_Read]; keeps. Qed.
Lemma keeps_upload fuel chunk r : keeps (upload fuel chunk r).
Proof.
  revert r. induction fuel as [|fuel IH]; intros r; cbn [upload]; [keeps|]. apply keeps_seq; [|intros [[] ?]; keeps].
  apply (keeps_at (λ w, wire_Read (S (S (length (w_in w)))) chunk r)). intros w. apply keeps_wire_Read.
Qed.
Lemma keeps_CopyFromStdin chunk sql : keeps (CopyFromStdin chunk sql).
Proof.
  unfold CopyFromStdin. apply keeps_seq; [keeps|]. intros [err|]; [keeps|].
  apply (keeps_at (λ w, upload (S (pending_bytes (w_in w))) chunk new_reader)). intros w. apply keeps_upload.
Qed.
#[local] Hint Resolve keeps_CopyFromStdin ends_ready_load_csv : keeps.

Lemma ends_ready_handleCopyIn sql : ends_ready (handleCopyIn sql).
Proof.
  unfold handleCopyIn, handleCopyInBinary, handleCopyInCSVWithBlob, handleCopyInFile. cbv zeta.
  destruct (ParseCopyFromOptions sql) as [opts|]; [|ends_ready].
  apply ends_ready_bind; [keeps|]. intros [testRows|err]; [|ends_ready].
  destruct (IsBinary opts); [|destruct (bool_decide _)].
  - apply ends_ready_bind; [keeps|]. intros _. apply (ends_ready_received false _ (λ data, _ ≫= _)). intros data. ends_ready.
  - apply ends_ready_bind; [keeps|]. intros _. apply (ends_ready_received true _ (λ data, load_csv opts _ data)). intros data. ends_ready.
  - apply ends_ready_bind; [keeps|]. intros _. destruct remote.
    + unfold handleCopyInRemoteStreaming. ends_ready.
    + destruct createTemp as [tmpPath|err]; [|ends_ready].
      apply (ends_ready_received true _ (λ data, on_db _ ≫= _)). intros data. ends_ready.
Qed.

Lemma ends_ready_handleCopy sql : ends_ready (handleCopy sql).
Proof.
  unfold handleCopy. destruct (MatchString copyToStdoutRegex (upper sql)); [apply ends_ready_handleCopyOut|].
  destruct (MatchString copyFromStdinRegex (upper sql)); [apply ends_ready_handleCopyIn|]. ends_ready.
Qed.

(** * Every message *)

(** One message: quiet, or quiet and then ready. *)
Definition served (w w' : world) : Prop := quiet w w' ∨ ∃ w1, quiet w w1 ∧ w' = with_ready w1.

Definition asks_ready (msgType : byte) : bool := bool_decide (msgType = x51 ∨ msgType = x53).

Lemma keeps_other msgType body : asks_ready msgType = false → keeps (serve_message msgType body).
Proof.
  unfold asks_ready. intros Hm%bool_decide_eq_false_1. unfold serve_message, dispatch.
  rewrite bool_decide_eq_false_2 by tauto. repeat case_bool_decide; try (exfalso; tauto); keeps.
Qed.
Lemma ends_ready_asked msgType body : asks_ready msgType = true → ends_ready (serve_message msgType body).
Proof.
  unfold asks_ready. intros [-> | ->]%bool_decide_eq_true_1; unfold serve_message, dispatch; cbn.
  - apply ends_ready_handleQuery, ends_ready_handleCopy.
  - apply ends_ready_ready.
Qed.

Lemma serve_message_served msgType body w : served w (serve_message msgType body w).2.
Proof.
  destruct (asks_ready msgType) eqn:E; [|left; by apply keeps_other].
  pose proof (ends_ready_asked msgType body E w) as Hr. unfold served.
  destruct (serve_message msgType body w) as [[a|p] w']; cbn in *; naive_solver.
Qed.

Lemma served_heap w w' : served w w' → heap_grows (c_heap (w_conn w)) (c_heap (w_conn w')).
Proof. intros [Hq|(w1 & Hq & ->)]; by destruct Hq. Qed.
Lemma served_refs w w' : served w w' → refs_ok (w_conn w) → refs_ok (w_conn w').
Proof. intros [Hq|(w1 & Hq & ->)]; by destruct Hq. Qed.

(** The whole loop is a sequence of such steps. *)
Lemma loop_served fuel w : rtc served w (loop handleCopy fuel w).2.
Proof.
  revert w. induction fuel as [|fuel IH]; intros w; cbn [loop]; [apply rtc_refl|].
  pose proof (keeps_recv w) as Hr. unfold mbind, M_bind. destruct (recv w) as [[[[t body]|]|p] w1]; cbn in Hr.
  - eapply rtc_l; [by left|]. case_bool_decide; [apply rtc_refl|].
    pose proof (serve_message_served t body w1) as Hs. unfold serve_message in Hs.
    destruct (dispatch handleCopy t body w1) as [[a|p] w2]; cbn in Hs; (eapply rtc_l; [exact Hs|]); [apply IH|apply rtc_refl].
  - by apply rtc_once; left.
  - by apply rtc_once; left.
Qed.

(** C11. Every simple query and every Sync is answered by exactly one ReadyForQuery, as
    the last message and with the transaction status the connection then has; no
    other message is. The exception is a client that leaves while its data is being
    copied. *)
Theorem ready_ends_queries_and_syncs msgType body w w' :
  serve_message msgType body w = (Ok (), w') →
  if asks_ready msgType
  then (∃ l, w_out w' = w_out w ++ l ++ [ReadyForQuery (c_txStatus (w_conn w'))] ∧ Forall not_ready l)
       ∨ (w_in w' = [] ∧ ∃ l, w_out w' = w_out w ++ l ∧ Forall not_ready l)
  else ∃ l, w_out w' = w_out w ++ l ∧ Forall not_ready l.
Proof.
  intros Hs. destruct (asks_ready msgType) eqn:E.
  - pose proof (ends_ready_asked msgType body E w) as Hr. rewrite Hs in Hr. cbn in Hr.
    destruct Hr as [(w1 & [(l & Hl & Hn & _) _ _ _] & ->)|[[(l & Hl & Hn & _) _ _ _] Hi]]; [left|right; eauto].
    exists l. cbn. rewrite Hl, <- app_assoc. done.
  - pose proof (keeps_other msgType body E w) as [(l & Hl & Hn & _) _ _ _]. rewrite Hs in Hl. eauto.
Qed.

(** C12. The transaction status changes only with what the client is told in the replies
    to the same message: to idle or to in-transaction with a CommandComplete, to
    failed with an ErrorResponse; and outside a transaction an error leaves it idle,
    unless a statement of the same batch had opened one. *)
Theorem status_changes_are_announced msgType body w r w' :
  serve_message msgType body w = (r, w') →
  ∃ new, w_out w' = w_out w ++ new
    ∧ (c_txStatus (w_conn w') ≠ c_txStatus (w_conn w) → Exists (announces (c_txStatus (w_conn w'))) new)
    ∧ (c_txStatus (w_conn w) = txStatusIdle → c_txStatus (w_conn w') = txStatusError → Exists is_completion new).
Proof.
  intros Hs. pose proof (serve_message_served msgType body w) as Hq. rewrite Hs in Hq. cbn in Hq.
  destruct Hq as [[(new & Hn & _ & Ha & Hb) _ _ _]|(w1 & [(new & Hn & _ & Ha & Hb) _ _ _] & ->)].
  - exists new. split_and!; [done|done|]. intros Hi He. destruct (Hb He); done.
  - exists (new ++ [ReadyForQuery (c_txStatus (w_conn w1))]). cbn. rewrite Hn, <- app_assoc. rewrite !Exists_app.
    split_and!; [done|by left; apply Ha|]. intros Hi He. left. destruct (Hb He); done.
Qed.

(** C13. Whatever a client sends, the statement a name or a portal points to exists, and
    a statement once prepared is never altered: closing its name or preparing
    another under it leaves the portals already bound to it as they are. *)
Theorem portals_keep_their_statement w : refs_ok (w_conn w) →
  refs_ok (w_conn (serve_messages w).2)
  ∧ ∀ r ps, c_heap (w_conn w) !! r = Some ps →
      ∃ ps', c_heap (w_conn (serve_messages w).2) !! r = Some ps' ∧ same_stmt ps ps'.
Proof.
  intros Hr. unfold serve_messages, messageLoop. pose proof (loop_served (S (length (w_in w))) w) as Hs.
  revert Hs. generalize (loop handleCopy (S (length (w_in w))) w).2. intros w' Hs.
  induction Hs as [w|w w1 w2 H1 _ IH]; [split; [done|apply heap_grows_refl]|].
  destruct (IH (served_refs _ _ H1 Hr)) as [Hr2 Hh]. split; [done|].
  exact (heap_grows_trans _ _ _ (served_heap _ _ H1) Hh).
Qed.
End protocol.
