(* ===== verification/ExtendedTheorems.v ===== *)
(** Details of the extended query protocol: what Describe may run, when columns are
    described, and how Bind reads its message. *)

From Stdlib Require Import Strings.Byte.
From stdpp Require Import prelude gmap strings list sorting.
From Stdlib Require Import ZArith Lia.
From S2P Require Import Prelude Wire GoText GoRegexp GoTime Values BinaryTypes CopyBinary SqlScan ErrorCodes Session ExtendedProtocol SimpleQuery CopyText.

Open Scope Z_scope.

(** * What a handler sends *)

Section emits.
Context `{Env} (P : reply → Prop).

(** All that a handler sends satisfies [P]. *)
Definition emits {A} (m : M A) : Prop := ∀ w, ∃ new, w_out (m w).2 = w_out w ++ new ∧ Forall P new.

Lemma emits_silent {A} (m : M A) : (∀ w, w_out (m w).2 = w_out w) → emits m.
Proof. intros Hm w. exists []. by rewrite Hm, app_nil_r. Qed.
Lemma emits_send r : P r → emits (send r).
Proof. intros Hr w. exists [r]. by rewrite Forall_singleton. Qed.
Lemma emits_on_db {A} (f : DB → A * DB) : emits (on_db f).
Proof. apply emits_silent. intros w. unfold on_db. by destruct (f (w_db w)). Qed.
Lemma emits_bind {A B} (m : M A) (f : A → M B) : emits m → (∀ a, emits (f a)) → emits (m ≫= f).
Proof.
  intros Hm Hf w. destruct (Hm w) as (n1 & E1 & F1). unfold mbind, M_bind. destruct (m w) as [[a|p] w1]; cbn in *; [|eauto].
  destruct (Hf a w1) as (n2 & E2 & F2). exists (n1 ++ n2). rewrite E2, E1, app_assoc. eauto using Forall_app_2.
Qed.
End emits.

Create HintDb emits.
(** Down to the loops, for which lemmas are given. *)
Ltac emits :=
  repeat match goal with
  | |- emits _ (mret _) => by apply emits_silent
  | |- emits _ (crash _) => by apply emits_silent
  | |- emits _ (gets _) => by apply emits_silent
  | |- emits _ (modify _) => by apply emits_silent
  | |- emits _ (on_db _) => apply emits_on_db
  | |- emits _ (query _ _) => apply emits_on_db
  | |- emits _ (exec _ _) => apply emits_on_db
  | |- emits _ (send _) => apply emits_send; done
  | |- emits _ (sendError _ _) => apply emits_send; done
  | |- emits _ _ => solve [eauto with emits]
  | |- emits _ (_ ≫= _) => apply emits_bind; [|intros]
  | |- emits _ (match ?x with _ => _ end) => destruct x
  | |- emits _ (let '_ := ?x in _) => destruct x
  end.

(** * Describing columns once *)

(** A description of the columns of a result. *)
Definition is_row_description (r : reply) : bool :=
  match r with RowDescription _ _ | SyntheticRowDescription _ _ => true | _ => false end.
Definition no_columns (r : reply) : Prop := is_row_description r = false.

Section columns.
Context `{Env}.

Lemma emits_setTxError : emits no_columns setTxError.
Proof. unfold setTxError. emits. Qed.
Lemma emits_closeAllCursors : emits no_columns closeAllCursors.
Proof.
  unfold closeAllCursors. apply emits_bind; [emits|]. intros l. induction l as [|n l IH]; cbn [foldr]; [emits|].
  apply emits_bind; [by apply emits_silent|done].
Qed.
#[local] Hint Resolve emits_setTxError emits_closeAllCursors : emits.
Lemma emits_updateTxStatus cmd : emits no_columns (updateTxStatus cmd).
Proof. unfold updateTxStatus. emits. Qed.
Lemma emits_row_error e : emits no_columns (row_error e).
Proof. unfold row_error. emits. Qed.
Lemma emits_statement_error e : emits no_columns (statement_error e).
Proof. unfold statement_error. emits. Qed.
Lemma emits_openCursor n cs : emits no_columns (openCursor n cs).
Proof. unfold openCursor, put_cursor. emits. Qed.
Lemma emits_fetch_rows n c f o l : emits no_columns (fetch_rows n c f o l).
Proof. revert c. induction l as [|[] l IH]; intros c; cbn [fetch_rows]; emits. Qed.
Lemma emits_stream_rows n c f o l : emits no_columns (stream_rows n c f o l).
Proof. revert c. induction l as [|[] l IH]; intros c; cbn [stream_rows]; emits. Qed.
Lemma emits_retry {A} n e (fn : M (A + error)) : emits no_columns fn → emits no_columns (retry_attempts n e fn).
Proof. intros Hf. revert e. induction n as [|n IH]; intros e; cbn [retry_attempts]; emits. Qed.
Lemma emits_run_recovering {A} (fn : M (A + error)) : emits no_columns fn → emits no_columns (run_recovering fn).
Proof.
  intros Hf. unfold run_recovering, retryOnConflict, recoverAbortedTransaction. pose proof (@emits_retry A). emits.
Qed.
Lemma emits_run_exec sql args : emits no_columns (run_exec sql args).
Proof. unfold run_exec. emits. Qed.
Lemma emits_query sql args : emits no_columns (query sql args).
Proof. emits. Qed.
Lemma emits_cleanup l : emits no_columns (executeCleanup l).
Proof. induction l; cbn [executeCleanup]; emits. Qed.
Lemma emits_setup l args : emits no_columns (run_setup l args).
Proof. induction l; cbn [run_setup]; emits. Qed.
Lemma emits_pg_stat sql f : emits no_columns (send_pg_stat_activity sql f).
Proof.
  unfold send_pg_stat_activity. apply emits_bind; [emits|]. intros tx. cbv zeta. apply emits_bind; [|intros; emits].
  generalize (merge_sort pid_le (listConns tx sql)). intros l. induction l as [|ci l IH]; cbn [fmap list_fmap send_all]; emits.
Qed.
#[local] Hint Resolve emits_updateTxStatus emits_row_error emits_statement_error emits_openCursor emits_fetch_rows
  emits_stream_rows emits_run_recovering emits_run_exec emits_query emits_cleanup emits_setup emits_pg_stat : emits.

(** Execute of a portal that has been described. *)
Lemma execute_described p ps maxRows : p_described p = true → ps_cursorOp ps ≠ cursorOpPgCursorsQuery →
  emits no_columns
    (match ps_cursorOp ps with
     | cursorOpDeclare => handleDeclareCursorExtended ps
     | cursorOpFetch => handleFetchCursorExtended p ps
     | cursorOpClose => handleCloseCursorExtended ps
     | cursorOpPgCursorsQuery => handlePgCursorsQueryExtended p ps
     | cursorOpPgStatActivity => handlePgStatActivityExtended p ps
     | cursorOpNone => execute_statement p ps maxRows
     end).
Proof.
  intros Hd Hop. unfold handleDeclareCursorExtended, handleFetchCursorExtended, handleCloseCursorExtended,
    handlePgStatActivityExtended, execute_statement, execute_query, execute_command, executeMultiStatementExtended,
    streamRowsToClientExtended, multi_failed, fetch_from, invalid_param, no_such_cursor, sendNotice, closeCursor, put_cursor.
  rewrite Hd. rewrite ?andb_false_r. cbn [negb andb]. cbv zeta. destruct (ps_cursorOp ps); try done; emits.
Qed.
End columns.

(** * Names in messages *)

Lemma readCString_app (s rest : list byte) : nul_free s → readCString (s ++ x00 :: rest) = Some (s, rest).
Proof.
  induction 1 as [|b s Hb _ IH]; cbn [app readCString]; [done|].
  rewrite bool_decide_eq_false_2 by done. cbn [app] in IH. by rewrite IH.
Qed.

Lemma trim_nul_app s : nul_free s → trim_nul (s ++ [x00]) = s.
Proof.
  intros Hs. unfold trim_nul. rewrite reverse_snoc. cbn [trim_nul_rev]. rewrite bool_decide_eq_true_2 by done.
  destruct s as [|b s _] using rev_ind; [done|]. rewrite reverse_snoc. cbn [trim_nul_rev].
  apply Forall_app in Hs as [_ Hb]. rewrite Forall_singleton in Hb. rewrite bool_decide_eq_false_2 by done.
  by rewrite reverse_cons, reverse_involutive.
Qed.

(** The body of a Describe of a portal, and of an Execute. *)
Definition describe_portal_body (name : string) : list byte := x50 :: bytes name ++ [x00].
Definition describe_statement_body (name : string) : list byte := x53 :: bytes name ++ [x00].
Definition execute_body (name : string) (maxRows : Z) : list byte := bytes name ++ x00 :: put 4 (wrap_u 32 maxRows).

(** Reading back the integers of a message. *)
Lemma read_n_app (bs rest : list byte) : read_n (length bs) (bs ++ rest) = Some (bs, rest).
Proof.
  unfold read_n. rewrite length_app, bool_decide_eq_true_2 by lia. by rewrite take_app_length, drop_app_length.
Qed.
Lemma read_int_put n z rest : (0 < n)%nat → in_s (8 * Z.of_nat n) z →
  read_int n (put n (wrap_u (8 * Z.of_nat n) z) ++ rest) = Some (z, rest).
Proof.
  intros Hn Hz. unfold read_int. rewrite <- (be_bytes_length n (wrap_u (8 * Z.of_nat n) z)) at 1. unfold put.
  rewrite read_n_app. cbn [fmap option_fmap option_map]. rewrite be_val_bytes, (signed_put n); [done|done|lia|done].
Qed.

Section messages.
Context `{Env}.

Lemma handleDescribe_portal name w p ps : nul_free (bytes name) → c_portals (w_conn w) !! name = Some p →
  c_heap (w_conn w) !! p_stmt p = Some ps →
  handleDescribe (describe_portal_body name) w = describe_portal name p ps w.
Proof.
  intros Hn Hp Hps. unfold handleDescribe, describe_portal_body. destruct (bytes name ++ [x00]) as [|b l] eqn:E; [by destruct (bytes name)|].
  rewrite <- E, trim_nul_app, str_bytes by done. cbv zeta. rewrite bool_decide_eq_false_2, bool_decide_eq_true_2 by done.
  unfold deref, gets, mbind, M_bind. cbv beta iota. by rewrite Hp, Hps.
Qed.

Lemma handleDescribe_statement name w ref ps : nul_free (bytes name) → c_stmts (w_conn w) !! name = Some ref →
  c_heap (w_conn w) !! ref = Some ps →
  handleDescribe (describe_statement_body name) w = describe_statement name ref ps w.
Proof.
  intros Hn Hs Hps. unfold handleDescribe, describe_statement_body. destruct (bytes name ++ [x00]) as [|b l] eqn:E; [by destruct (bytes name)|].
  rewrite <- E, trim_nul_app, str_bytes by done. cbv zeta. rewrite bool_decide_eq_true_2 by done.
  unfold deref, gets, mbind, M_bind. cbv beta iota. by rewrite Hs, Hps.
Qed.

Lemma handleExecute_portal name maxRows w p ps : nul_free (bytes name) → in_s 32 maxRows →
  c_portals (w_conn w) !! name = Some p → c_heap (w_conn w) !! p_stmt p = Some ps →
  handleExecute (execute_body name maxRows) w =
    match ps_cursorOp ps with
    | cursorOpDeclare => handleDeclareCursorExtended ps
    | cursorOpFetch => handleFetchCursorExtended p ps
    | cursorOpClose => handleCloseCursorExtended ps
    | cursorOpPgCursorsQuery => handlePgCursorsQueryExtended p ps
    | cursorOpPgStatActivity => handlePgStatActivityExtended p ps
    | cursorOpNone => execute_statement p ps maxRows
    end w.
Proof.
  intros Hn Hm Hp Hps. unfold handleExecute, execute_body. rewrite readCString_app by done.
  assert (read_int 4 (put 4 (wrap_u 32 maxRows)) = Some (maxRows, [])) as ->.
  { rewrite <- (app_nil_r (put 4 _)). by apply (read_int_put 4); [lia|]. }
  rewrite str_bytes. unfold deref, gets, mbind, M_bind. cbv beta iota. rewrite Hp, Hps. reflexivity.
Qed.

(** * What a handler leaves alone *)

Definition leaves {T A} (f : world → T) (m : M A) : Prop := ∀ w, f (m w).2 = f w.
Lemma leaves_bind {T A B} (f : world → T) (m : M A) (k : A → M B) : leaves f m → (∀ a, leaves f (k a)) → leaves f (m ≫= k).
Proof.
  intros Hm Hk w. specialize (Hm w). unfold mbind, M_bind. destruct (m w) as [[a|p] w1]; cbn in *; [|done].
  rewrite <- Hm. apply Hk.
Qed.

(** Statements, portals and output, but not cursors and the database. *)
Definition fixed (w : world) := (c_heap (w_conn w), c_stmts (w_conn w), c_portals (w_conn w), w_out w).
Lemma leaves_on_db {A} (f : DB → A * DB) : leaves fixed (on_db f).
Proof. intros w. unfold on_db. by destruct (f (w_db w)). Qed.

Ltac leaves :=
  repeat match goal with
  | |- leaves _ (on_db _) => apply leaves_on_db
  | |- leaves _ (query _ _) => apply leaves_on_db
  | |- leaves _ (_ ≫= _) => apply leaves_bind; [|intros]
  | |- leaves _ (match ?x with _ => _ end) => destruct x
  | |- leaves _ (let '_ := ?x in _) => destruct x
  | |- leaves _ _ => by intros ?
  end.

Lemma getCursorSchema_fixed name : leaves fixed (getCursorSchema name).
Proof. unfold getCursorSchema, openCursor, put_cursor. leaves. Qed.
Lemma probe_fixed sql args : leaves fixed (probe sql args).
Proof. unfold probe. leaves. Qed.

(** The portal is marked, or no columns have been sent. *)
Definition marked (name : string) (ref : nat) (op : cursorOp) (w w1 : world) : Prop :=
  Forall no_columns (drop (length (w_out w)) (w_out w1)) ∨
  ∃ p' ps', c_portals (w_conn w1) !! name = Some p' ∧ p_described p' = true ∧ p_stmt p' = ref
            ∧ c_heap (w_conn w1) !! ref = Some ps' ∧ ps_cursorOp ps' = op.

Lemma marked_silent name ref op w w1 r : w_out w1 = w_out w ++ [r] → no_columns r → marked name ref op w w1.
Proof. intros Ho Hr. left. rewrite Ho, drop_app_length. by apply Forall_singleton. Qed.

(** The two ways of marking, whatever is sent with it. *)
Lemma marked_portal name p ps op out (w w1 : world) : c_portals (w_conn w1) !! name = Some p → c_heap (w_conn w1) !! p_stmt p = Some ps →
  ps_cursorOp ps = op →
  marked name (p_stmt p) op w
    {| w_conn := w_conn (set_portal_described name w1).2; w_db := w_db w1; w_out := out; w_in := w_in w1 |}.
Proof.
  intros Hp Hps Hop. right. cbn. rewrite lookup_alter_eq, Hp. cbn. eauto 10.
Qed.
Lemma marked_both name p ps op out (w w1 : world) : c_portals (w_conn w1) !! name = Some p → c_heap (w_conn w1) !! p_stmt p = Some ps →
  ps_cursorOp ps = op →
  marked name (p_stmt p) op w
    {| w_conn := w_conn (set_described (p_stmt p) (set_portal_described name w1).2).2; w_db := w_db w1; w_out := out; w_in := w_in w1 |}.
Proof.
  intros Hp Hps Hop. right. cbn. rewrite lookup_alter_eq, list_lookup_alter_eq, Hp, Hps. cbn. eauto 10.
Qed.

(** A Describe of a portal that sends columns marks the portal. *)
Lemma describe_portal_marks name p ps w w1 : c_portals (w_conn w) !! name = Some p → c_heap (w_conn w) !! p_stmt p = Some ps →
  describe_portal name p ps w = (Ok (), w1) → marked name (p_stmt p) (ps_cursorOp ps) w w1.
Proof.
  intros Hp Hps. unfold describe_portal. destruct (ps_cursorOp ps) eqn:Hop.
  - repeat (match goal with |- (if ?b then _ else _) _ = _ → _ => destruct b end;
      [intros [= <-]; by eapply marked_silent|]).
    destruct (decodeParams _ _ _) as [args|e|r]; [|intros [= <-]; by eapply marked_silent|done].
    pose proof (probe_fixed (ps_convertedQuery ps) args w) as Hf. unfold mbind at 1, M_bind at 1.
    destruct (probe (ps_convertedQuery ps) args w) as [[[cols|]|r] w2]; [..|done]; cbn in Hf; injection Hf as Hh Hs Hpo Ho.
    + intros [= <-]. apply (marked_both name p ps cursorOpNone); congruence.
    + intros [= <-]. eapply marked_silent; [cbn; by rewrite Ho|done].
  - intros [= <-]. by eapply marked_silent.
  - pose proof (getCursorSchema_fixed (ps_cursorName ps) w) as Hf. unfold mbind at 1, M_bind at 1.
    destruct (getCursorSchema (ps_cursorName ps) w) as [[cols|r] w2]; [|done]; cbn in Hf; injection Hf as Hh Hs Hpo Ho.
    destruct cols as [[|col cols]|]; intros [= <-]; try (eapply marked_silent; [cbn; by rewrite Ho|done]).
    apply (marked_portal name p ps); congruence.
  - intros [= <-]. by eapply marked_silent.
  - intros [= <-]. by apply (marked_portal name p ps _ _ w w).
  - intros [= <-]. by apply (marked_portal name p ps _ _ w w).
Qed.

(** When Describe of a portal has described columns, Execute of that portal does
    not describe them again, whatever the statement (pg_cursors lookups excepted):
    a client that pairs the two messages sees the columns once. *)
Theorem columns_described_once name maxRows p ps w w1 r w2 :
  nul_free (bytes name) → in_s 32 maxRows →
  c_portals (w_conn w) !! name = Some p → c_heap (w_conn w) !! p_stmt p = Some ps →
  ps_cursorOp ps ≠ cursorOpPgCursorsQuery →
  handleDescribe (describe_portal_body name) w = (Ok (), w1) →
  handleExecute (execute_body name maxRows) w1 = (r, w2) →
  Forall no_columns (drop (length (w_out w)) (w_out w1)) ∨ Forall no_columns (drop (length (w_out w1)) (w_out w2)).
Proof.
  intros Hn Hm Hp Hps Hop Hd He. rewrite (handleDescribe_portal name w p ps) in Hd by done.
  destruct (describe_portal_marks name p ps w w1 Hp Hps Hd) as [?|(p' & ps' & Hp' & Hdesc & Href & Hps' & Hop')]; [by left|right].
  rewrite <- Href in Hps'. rewrite (handleExecute_portal name maxRows w1 p' ps') in He by done.
  destruct (execute_described p' ps' maxRows Hdesc ltac:(congruence) w1) as (new & Hout & Hnew).
  rewrite He in Hout. cbn in Hout. by rewrite Hout, drop_app_length.
Qed.

Lemma send_pg_cursors_run name f w : ∃ new w', send_pg_cursors name f w = (Ok (), w') ∧ w_out w' = w_out w ++ new.
Proof.
  unfold send_pg_cursors, gets, mbind, M_bind. cbv beta iota.
  destruct (c_cursors (w_conn w) !! name); eexists _, _; (split; [reflexivity|]); cbn; [|done]. by rewrite <- app_assoc.
Qed.

(** A lookup in pg_cursors is the exception: its portal is marked by Describe, but
    Execute looks at the statement's mark, and the client gets the columns twice. *)
Theorem pg_cursors_described_twice name maxRows p ps w :
  nul_free (bytes name) → in_s 32 maxRows →
  c_portals (w_conn w) !! name = Some p → c_heap (w_conn w) !! p_stmt p = Some ps →
  ps_cursorOp ps = cursorOpPgCursorsQuery → ps_described ps = false →
  ∃ w1 w2, handleDescribe (describe_portal_body name) w = (Ok (), w1)
    ∧ handleExecute (execute_body name maxRows) w1 = (Ok (), w2)
    ∧ SyntheticRowDescription pgCursorsColumns (p_resultFormats p) ∈ drop (length (w_out w)) (w_out w1)
    ∧ SyntheticRowDescription pgCursorsColumns (p_resultFormats p) ∈ drop (length (w_out w1)) (w_out w2).
Proof.
  intros Hn Hm Hp Hps Hop Hd. rewrite (handleDescribe_portal name w p ps) by done. unfold describe_portal. rewrite Hop.
  set (w1 := (set_portal_described name (send (SyntheticRowDescription pgCursorsColumns (p_resultFormats p)) w).2).2).
  set (p' := {| p_stmt := p_stmt p; p_paramValues := p_paramValues p; p_paramFormats := p_paramFormats p;
                p_resultFormats := p_resultFormats p; p_described := true |}).
  assert (c_portals (w_conn w1) !! name = Some p') as Hp' by (subst w1; cbn; by rewrite lookup_alter_eq, Hp).
  assert (w_out w1 = w_out w ++ [SyntheticRowDescription pgCursorsColumns (p_resultFormats p)]) as Ho1 by done.
  exists w1. rewrite (handleExecute_portal name maxRows w1 p' ps) by done. rewrite Hop.
  unfold handlePgCursorsQueryExtended. rewrite Hd. cbv zeta. cbn [negb]. unfold mbind, M_bind, send. cbv beta iota.
  match goal with |- context[send_pg_cursors ?n ?f ?w] => destruct (send_pg_cursors_run n f w) as (new & w2 & E & Ho2) end.
  exists w2. split_and!; [done|exact E|rewrite Ho1, drop_app_length; set_solver|].
  cbn in Ho2. rewrite Ho2, <- app_assoc, drop_app_length. set_solver.
Qed.

(** * What Describe runs *)

Lemma probe_db sql args w : w_db (probe sql args w).2 = (db_Query (describe_query sql) args (w_db w)).2.
Proof.
  unfold probe, query, on_db, mbind, M_bind. destruct (db_Query _ _ _) as [[rows|e] d]; [|done].
  by destruct (rs_columns rows) as [[|col cols]|e]; [|destruct (rs_types_err rows)|].
Qed.

Lemma getCursorSchema_db name w : w_db (getCursorSchema name w).2 = w_db w ∨
  ∃ cs, c_cursors (w_conn w) !! name = Some cs ∧ cs_rows cs = None
        ∧ w_db (getCursorSchema name w).2 = (db_Query (cs_query cs) [] (w_db w)).2.
Proof.
  unfold getCursorSchema, openCursor, query, on_db, put_cursor, gets, mbind, M_bind. cbv beta iota.
  destruct (c_cursors (w_conn w) !! name) as [cs|] eqn:Hc; [|by left]. destruct (cs_rows cs) as [rs|] eqn:Hrs; [by left|].
  right. exists cs. split_and!; [done|done|].
  destruct (db_Query (cs_query cs) [] (w_db w)) as [[rows|e] d]; [|done].
  by destruct (rs_columns rows) as [cols|e]; [destruct (rs_types_err rows)|].
Qed.

(** The statements Describe probes: ordinary ones that return rows and are no
    mutations by their text. *)
Definition probed (ps : preparedStmt) : Prop :=
  ps_cursorOp ps = cursorOpNone ∧ queryReturnsResults (ps_query ps) = true
  ∧ isDMLReturning (ps_query ps) = false ∧ isWithDML (ps_query ps) = false.

(** The database after a Describe: as before, or after one probe of such a
    statement, or after opening a cursor that was not open. *)
Definition described_db (w : world) (d : DB) : Prop :=
  d = w_db w
  ∨ (∃ r ps args, c_heap (w_conn w) !! r = Some ps ∧ probed ps
       ∧ d = (db_Query (describe_query (ps_convertedQuery ps)) args (w_db w)).2)
  ∨ (∃ name cs, c_cursors (w_conn w) !! name = Some cs ∧ cs_rows cs = None
       ∧ d = (db_Query (cs_query cs) [] (w_db w)).2).

(** Handlers that touch the database only in those ways. *)
Definition describes {A} (w0 : world) (m : M A) : Prop := ∀ w, w_conn w = w_conn w0 → w_db w = w_db w0 → described_db w0 (w_db (m w).2).
Lemma describes_silent {A} w0 (m : M A) : (∀ w, w_db (m w).2 = w_db w) → describes w0 m.
Proof. intros Hm w _ Hd. left. by rewrite Hm. Qed.
(** A last step that leaves the database alone. *)
Lemma describes_then {A B} w0 (m : M A) (k : A → M B) : describes w0 m → (∀ a w, w_db (k a w).2 = w_db w) → describes w0 (m ≫= k).
Proof.
  intros Hm Hk w Hc Hd. specialize (Hm w Hc Hd). unfold mbind, M_bind. destruct (m w) as [[a|p] w1]; cbn in *; [|done].
  by rewrite Hk.
Qed.
(** A first step that leaves connection and database alone. *)
Lemma describes_after {A B} w0 (m : M A) (k : A → M B) :
  (∀ w, w_conn (m w).2 = w_conn w ∧ w_db (m w).2 = w_db w) → (∀ a, describes w0 (k a)) → describes w0 (m ≫= k).
Proof.
  intros Hm Hk w Hc Hd. destruct (Hm w) as [Hc1 Hd1]. unfold mbind, M_bind. destruct (m w) as [[a|p] w1]; cbn in *.
  - apply Hk; congruence.
  - left. congruence.
Qed.
Lemma describes_schema w0 name : describes w0 (getCursorSchema name).
Proof.
  intros w Hc Hd. destruct (getCursorSchema_db name w) as [E|(cs & Hn & Hr & E)]; rewrite E; [by left|right; right].
  exists name, cs. by rewrite <- Hc, <- Hd.
Qed.
Lemma describes_probe w0 r ps args : c_heap (w_conn w0) !! r = Some ps → probed ps → describes w0 (probe (ps_convertedQuery ps) args).
Proof. intros Hr Hp w Hc Hd. right; left. exists r, ps, args. by rewrite probe_db, Hd. Qed.

Lemma describes_statement w0 name ref ps : c_heap (w_conn w0) !! ref = Some ps → describes w0 (describe_statement name ref ps).
Proof.
  intros Hps. unfold describe_statement. cbv zeta. apply describes_after; [done|]. intros _.
  destruct (ps_cursorOp ps) eqn:Hop; try (by apply describes_silent).
  - destruct (queryReturnsResults (ps_query ps)) eqn:Hq; [|by apply describes_silent]. cbn [negb].
    destruct (isDMLReturning (ps_query ps)) eqn:Hd; [by apply describes_silent|].
    destruct (isWithDML (ps_query ps)) eqn:Hw; [by apply describes_silent|].
    case_bool_decide; [by apply describes_silent|].
    apply describes_then; [by eapply describes_probe|]. by intros [cols|] w.
  - apply describes_then; [apply describes_schema|]. by intros [[|]|] w.
Qed.

Lemma describes_portal w0 name p ps : c_heap (w_conn w0) !! p_stmt p = Some ps → describes w0 (describe_portal name p ps).
Proof.
  intros Hps. unfold describe_portal. destruct (ps_cursorOp ps) eqn:Hop; try (by apply describes_silent).
  - destruct (queryReturnsResults (ps_query ps)) eqn:Hq; [|by apply describes_silent]. cbn [negb].
    destruct (isDMLReturning (ps_query ps)) eqn:Hd; [by apply describes_silent|].
    destruct (isWithDML (ps_query ps)) eqn:Hw; [by apply describes_silent|].
    destruct (decodeParams _ _ _) as [args|e|r]; try (by apply describes_silent).
    apply describes_then; [by eapply describes_probe|]. by intros [cols|] w.
  - apply describes_then; [apply describes_schema|]. by intros [[|]|] w.
Qed.

(** C18. All Describe asks of the database is one probe of a statement that returns rows
    and whose text is no INSERT, UPDATE or DELETE, plain or under a WITH, or the
    query of a cursor not yet open: it never runs such a mutation. *)
Theorem describe_runs_only_probes body w : described_db w (w_db (handleDescribe body w).2).
Proof.
  assert (describes w (handleDescribe body)) as Hd; [|by apply Hd].
  unfold handleDescribe. destruct body as [|t [|b rest]]; try (by apply describes_silent). cbv zeta.
  case_bool_decide.
  - intros w' Hc Hd. unfold gets, mbind, M_bind. cbv beta iota. rewrite Hc.
    destruct (c_stmts (w_conn w) !! _) as [ref|]; [|left; exact Hd]. unfold deref, gets, mbind, M_bind. cbv beta iota. rewrite Hc.
    destruct (c_heap (w_conn w) !! ref) as [ps|] eqn:Hps; [|left; exact Hd]. by apply describes_statement.
  - case_bool_decide; [|by apply describes_silent].
    intros w' Hc Hd. unfold gets, mbind, M_bind. cbv beta iota. rewrite Hc.
    destruct (c_portals (w_conn w) !! _) as [p|].
    + unfold deref, gets, mbind, M_bind. cbv beta iota. rewrite Hc.
      destruct (c_heap (w_conn w) !! p_stmt p) as [ps|] eqn:Hps; [|left; exact Hd]. by apply describes_portal.
    + destruct (c_cursors (w_conn w') !! _); [|left; exact Hd].
      apply (describes_then w (getCursorSchema _) (λ cols, match cols with None => send NoData | Some cols => send (RowDescription cols []) end));
        [apply describes_schema|by intros [cols|] w''|done|done].
Qed.
End messages.

(** * Bind *)

(** The messages as a client writes them. *)
Definition int_bytes (n : nat) (z : Z) : list byte := put n (wrap_u (8 * Z.of_nat n) z).
Definition counted_ints (width : nat) (zs : list Z) : list byte :=
  int_bytes 2 (Z.of_nat (length zs)) ++ (zs ≫= int_bytes width).
Definition value_bytes (v : option (list byte)) : list byte :=
  match v with
  | None => int_bytes 4 (-1)
  | Some bs => int_bytes 4 (Z.of_nat (length bs)) ++ bs
  end.
Definition bind_body (portalName stmtName : string) (m : bind_msg) : list byte :=
  bytes portalName ++ x00 :: bytes stmtName ++ x00 ::
  counted_ints 2 (bm_paramFormats m)
  ++ int_bytes 2 (Z.of_nat (length (bm_paramValues m))) ++ (bm_paramValues m ≫= value_bytes)
  ++ counted_ints 2 (bm_resultFormats m).
Definition parse_body (stmtName : string) (query : text) (types : list Z) : list byte :=
  bytes stmtName ++ x00 :: query ++ x00 :: counted_ints 4 types.

(** What the wire format can carry. *)
Definition fits16 {A} (l : list A) : Prop := Z.of_nat (length l) < 2 ^ 15.
Definition bind_ok (m : bind_msg) : Prop :=
  fits16 (bm_paramFormats m) ∧ Forall (in_s 16) (bm_paramFormats m)
  ∧ fits16 (bm_paramValues m) ∧ Forall (λ v, ∀ bs, v = Some bs → Z.of_nat (length bs) < 2 ^ 31) (bm_paramValues m)
  ∧ fits16 (bm_resultFormats m) ∧ Forall (in_s 16) (bm_resultFormats m).

Lemma read_int_bytes n z rest : (0 < n)%nat → in_s (8 * Z.of_nat n) z → read_int n (int_bytes n z ++ rest) = Some (z, rest).
Proof. apply read_int_put. Qed.
Lemma read_count {A} (l : list A) rest : fits16 l → read_int 2 (int_bytes 2 (Z.of_nat (length l)) ++ rest) = Some (Z.of_nat (length l), rest).
Proof. intros Hl. apply read_int_bytes; [lia|]. unfold in_s, fits16 in *. cbn in *. lia. Qed.

Lemma read_ints_bytes width zs rest : (0 < width)%nat → Forall (in_s (8 * Z.of_nat width)) zs →
  read_ints width (length zs) ((zs ≫= int_bytes width) ++ rest) = Some (zs, rest).
Proof.
  intros Hw. induction 1 as [|z zs Hz _ IH]; [done|]. cbn [length read_ints]. rewrite bind_cons, <- app_assoc.
  rewrite read_int_bytes by done. cbn [mbind option_bind]. by rewrite IH.
Qed.

Lemma read_counted_bytes width zs rest : (0 < width)%nat → fits16 zs → Forall (in_s (8 * Z.of_nat width)) zs →
  read_counted width (counted_ints width zs ++ rest) = Fields (zs, rest).
Proof.
  intros Hw Hl Hz. unfold read_counted, counted_ints. rewrite <- app_assoc, read_count by done.
  rewrite bool_decide_eq_false_2, Nat2Z.id by lia. by rewrite read_ints_bytes.
Qed.

Lemma read_values_bytes vs rest : Forall (λ v, ∀ bs, v = Some bs → Z.of_nat (length bs) < 2 ^ 31) vs →
  read_values (length vs) ((vs ≫= value_bytes) ++ rest) = Fields (vs, rest).
Proof.
  induction 1 as [|v vs Hv _ IH]; [done|]. cbn [length read_values]. rewrite bind_cons, <- app_assoc.
  destruct v as [bs|]; cbn [value_bytes].
  - specialize (Hv bs eq_refl). rewrite <- app_assoc, read_int_bytes; [|lia|split; cbn in *; lia].
    rewrite !bool_decide_eq_false_2 by lia. rewrite Nat2Z.id, read_n_app. by rewrite IH.
  - rewrite read_int_bytes; [|lia|split; cbn; lia]. cbn [bool_decide decide]. rewrite bool_decide_eq_true_2 by done. by rewrite IH.
Qed.

Lemma read_bind_body m : bind_ok m →
  read_bind (counted_ints 2 (bm_paramFormats m)
    ++ int_bytes 2 (Z.of_nat (length (bm_paramValues m))) ++ (bm_paramValues m ≫= value_bytes)
    ++ counted_ints 2 (bm_resultFormats m)) = Fields m.
Proof.
  intros (H1 & H2 & H3 & H4 & H5 & H6). unfold read_bind. rewrite read_counted_bytes by (lia || done).
  rewrite read_count by done. rewrite bool_decide_eq_false_2, Nat2Z.id by lia. rewrite read_values_bytes by done.
  rewrite <- (app_nil_r (counted_ints 2 (bm_resultFormats m))), read_counted_bytes by (lia || done). by destruct m.
Qed.

Lemma handleBind_run `{Env} portalName stmtName m ref ps w :
  nul_free (bytes portalName) → nul_free (bytes stmtName) → bind_ok m →
  c_stmts (w_conn w) !! stmtName = Some ref → c_heap (w_conn w) !! ref = Some ps →
  handleBind (bind_body portalName stmtName m) w =
    (Ok (), {| w_conn := set_portals (<[portalName :=
                 {| p_stmt := ref; p_paramValues := bm_paramValues m; p_paramFormats := bm_paramFormats m;
                    p_resultFormats := bm_resultFormats m; p_described := ps_described ps |}]> (c_portals (w_conn w))) (w_conn w);
               w_db := w_db w; w_out := w_out w ++ [BindComplete]; w_in := w_in w |}).
Proof.
  intros Hp Hs Hm Href Hps. unfold handleBind, bind_body. rewrite !readCString_app by done. rewrite !str_bytes.
  unfold deref, gets, mbind, M_bind. cbv beta iota. rewrite Href, read_bind_body by done. cbv beta iota. by rewrite Hps.
Qed.

(** A Bind message of a client is read back field by field: the portal it creates
    holds exactly the client's formats and values, NULLs included, and points to the
    statement of that name. *)
Theorem bind_roundtrip `{Env} portalName stmtName m ref ps w :
  nul_free (bytes portalName) → nul_free (bytes stmtName) → bind_ok m →
  c_stmts (w_conn w) !! stmtName = Some ref → c_heap (w_conn w) !! ref = Some ps →
  handleBind (bind_body portalName stmtName m) w =
    (Ok (), {| w_conn := set_portals (<[portalName :=
                 {| p_stmt := ref; p_paramValues := bm_paramValues m; p_paramFormats := bm_paramFormats m;
                    p_resultFormats := bm_resultFormats m; p_described := ps_described ps |}]> (c_portals (w_conn w))) (w_conn w);
               w_db := w_db w; w_out := w_out w ++ [BindComplete]; w_in := w_in w |}).
Proof. apply handleBind_run. Qed.
