(* ===== verification/FailureTheorems.v ===== *)
(** What the query handlers do when something fails: how often a statement is tried,
    what is left of a rewrite that breaks off, and the failures a client is told of
    too late or not at all (src/server/conn.go, src/server/transient.go). *)

From Stdlib Require Import Strings.Byte.
From stdpp Require Import prelude gmap strings list sorting.
From Stdlib Require Import ZArith Lia.
From S2P Require Import Prelude Wire GoText GoRegexp GoTime Values BinaryTypes CopyBinary SqlScan ErrorCodes Session ExtendedProtocol SimpleQuery CopyText ExtendedTheorems.

Open Scope Z_scope.

(** Runs the plumbing of a handler. *)
Ltac run := unfold gets, modify, send, sendError, exec, query, on_db, recv, mbind, mret, M_bind, M_ret; cbv beta iota zeta.

Section failures.
Context `{Env}.

(** * Attempts *)

(** The database after a statement was executed [n] times. *)
Fixpoint exec_times (n : nat) (sql : text) (args : list value) (d : DB) : DB :=
  match n with
  | O => d
  | S n' => exec_times n' sql args (db_Exec sql args d).2
  end.

Definition in_db (d : DB) (w : world) : world := {| w_conn := w_conn w; w_db := d; w_out := w_out w; w_in := w_in w |}.
Lemma in_db_same w : in_db (w_db w) w = w.
Proof. by destruct w. Qed.
Lemma exec_run sql args w : exec sql args w = (Ok (db_Exec sql args (w_db w)).1, in_db (db_Exec sql args (w_db w)).2 w).
Proof. unfold exec, on_db. by destruct (db_Exec _ _ _). Qed.
Lemma exec_times_end n sql args d : exec_times n sql args (db_Exec sql args d).2 = exec_times (S n) sql args d.
Proof. done. Qed.

Lemma retry_attempts_bound n err sql args w :
  ∃ k r, (k ≤ n)%nat ∧ retry_attempts n err (exec sql args) w = (Ok r, in_db (exec_times k sql args (w_db w)) w).
Proof.
  revert err w. induction n as [|n IH]; intros err w; cbn [retry_attempts].
  - exists 0%nat. eexists. cbn [exec_times]. by rewrite in_db_same.
  - unfold mbind, M_bind. rewrite exec_run. destruct (db_Exec sql args (w_db w)) as [[a|e] d] eqn:E; cbn [fst snd].
    + exists 1%nat. eexists. split; [lia|]. cbn. by rewrite E.
    + destruct (isDuckLakeTransactionConflict e).
      * destruct (IH e (in_db d w)) as (k & r & Hk & ->). exists (S k), r. split; [lia|]. cbn. by rewrite E.
      * exists 1%nat. eexists. split; [lia|]. cbn. by rewrite E.
Qed.

(** The ways a statement may reach the database: some tries, and, when the last left
    an aborted transaction, a ROLLBACK and at most one more. *)
Definition attempted (max : nat) (sql : text) (args : list value) (d d' : DB) : Prop :=
  ∃ k, (0 < k ≤ max)%nat ∧
    (d' = exec_times k sql args d
     ∨ ∃ j, (j ≤ 1)%nat ∧ d' = exec_times j sql args (db_Exec (bytes "ROLLBACK") [] (exec_times k sql args d)).2).

Lemma recover_attempted k max err idle sql args d w : (0 < k ≤ max)%nat → w_db w = exec_times k sql args d →
  attempted max sql args d (w_db (recoverAbortedTransaction err idle (exec sql args) w).2).
Proof.
  intros Hk Hw. exists k. split; [done|]. unfold recoverAbortedTransaction.
  destruct (negb idle || negb (isTransactionAborted err)); [by left|right].
  unfold mbind, M_bind. rewrite exec_run, Hw. destruct (db_Exec (bytes "ROLLBACK") [] _) as [[n|e] d2]; cbn [fst snd].
  - exists 1%nat. split; [lia|]. by rewrite exec_run.
  - by exists 0%nat; split; [lia|].
Qed.

(** A computation that touches the database only. *)
Definition db_only {A} (m : M A) : Prop := ∀ w, ∃ r d, m w = (Ok r, in_db d w).
Lemma db_only_exec sql args : db_only (exec sql args).
Proof. intros w. rewrite exec_run. eauto. Qed.
Lemma db_only_ret {A} (a : A) : db_only (mret a).
Proof. intros w. exists a, (w_db w). by rewrite in_db_same. Qed.
Lemma db_only_bind {A B} (m : M A) (k : A → M B) : db_only m → (∀ a, db_only (k a)) → db_only (m ≫= k).
Proof.
  intros Hm Hk w. unfold mbind, M_bind. destruct (Hm w) as (a & d & ->). destruct (Hk a (in_db d w)) as (b & d' & ->). by exists b, d'.
Qed.
Lemma db_only_retry n err sql args : db_only (retry_attempts n err (exec sql args)).
Proof. intros w. destruct (retry_attempts_bound n err sql args w) as (k & r & _ & E). eauto. Qed.
Lemma db_only_recover err idle sql args : db_only (recoverAbortedTransaction err idle (exec sql args)).
Proof.
  unfold recoverAbortedTransaction. destruct (_ || _); [apply db_only_ret|]. apply db_only_bind; [apply db_only_exec|].
  intros [n|e]; [apply db_only_exec|apply db_only_ret].
Qed.


(** * Rewrites that break off *)

(** Statements that all succeed. *)
Fixpoint exec_all (stmts : list text) (d : DB) : option DB :=
  match stmts with
  | [] => Some d
  | s :: stmts' => match db_Exec s [] d with (inl _, d') => exec_all stmts' d' | (inr _, _) => None end
  end.
(** The database after statements whose errors are ignored. *)
Definition exec_anyway (stmts : list text) (d : DB) : DB := foldl (λ d s, (db_Exec s [] d).2) d stmts.

Lemma executeCleanup_db cleanup w : executeCleanup cleanup w = (Ok (), in_db (exec_anyway cleanup (w_db w)) w).
Proof.
  revert w. induction cleanup as [|s cleanup IH]; intros w; cbn [executeCleanup].
  - cbn. by rewrite in_db_same.
  - unfold mbind, M_bind. rewrite exec_run. by rewrite IH.
Qed.

Lemma run_setup_fails pre bad post w d1 err d2 :
  exec_all pre (w_db w) = Some d1 → db_Exec bad [] d1 = (inr err, d2) →
  run_setup (pre ++ bad :: post) [] w = (Ok (Some err), in_db d2 w).
Proof.
  revert w. induction pre as [|s pre IH]; intros w Hpre Hbad; cbn [app run_setup]; unfold mbind, M_bind; rewrite exec_run.
  - injection Hpre as ->. by rewrite Hbad.
  - cbn in Hpre. destruct (db_Exec s [] (w_db w)) as [[n|e] d]; [|done]. cbn [fst snd]. by apply (IH (in_db d w)).
Qed.

Lemma setup_of pre (bad : text) post : post ≠ [] →
  take (length (pre ++ bad :: post) - 1) (pre ++ bad :: post) = pre ++ bad :: take (length post - 1) post.
Proof.
  intros Hp. rewrite length_app. cbn [length]. rewrite take_app_ge by lia. f_equal.
  replace (_ + S (length post) - 1 - length pre)%nat with (length post) by lia.
  destruct post as [|p post]; [done|]. cbn [length take]. by replace (S (length post) - 1)%nat with (length post) by lia.
Qed.

(** When a set-up statement of a rewritten query (a writable CTE: BEGIN, temporary
    tables, mutations, and a clean-up that ends in COMMIT) fails, the whole clean-up
    still runs after the statements that succeeded. No ROLLBACK is sent: the COMMIT
    is, and the client, told of an error, is back outside a transaction. *)
Theorem failed_rewrite_still_commits pre bad post cleanup w d1 err d2 :
  c_txStatus (w_conn w) = txStatusIdle → post ≠ [] →
  exec_all pre (w_db w) = Some d1 → db_Exec bad [] d1 = (inr err, d2) →
  executeMultiStatement (pre ++ bad :: post) (cleanup ++ [bytes "COMMIT"]) w =
    (Ok (), {| w_conn := w_conn w; w_db := (db_Exec (bytes "COMMIT") [] (exec_anyway cleanup d2)).2;
               w_out := w_out w ++ [ErrorResponse "ERROR" "42000" (Error err); ReadyForQuery txStatusIdle]; w_in := w_in w |}).
Proof.
  intros Hi Hpost Hpre Hbad. unfold executeMultiStatement. rewrite bool_decide_eq_false_2 by (by destruct pre).
  unfold gets at 1, mbind at 1, M_bind at 1. rewrite Hi. unfold strip_wrapper.
  rewrite (bool_decide_eq_false_2 (txStatusIdle = txStatusTransaction)), andb_false_r by done.
  rewrite setup_of by done. unfold mbind at 1, M_bind at 1. rewrite (run_setup_fails pre bad _ w d1 err d2) by done.
  unfold multi_failed, setTxError, gets, mbind, M_bind. cbn [w_conn in_db]. rewrite Hi.
  rewrite bool_decide_eq_false_2 by done. cbn [mret M_ret]. rewrite executeCleanup_db. unfold ready, gets, sendError, send, mbind, M_bind.
  cbn [w_conn w_out w_db w_in in_db]. rewrite Hi, <- app_assoc. unfold exec_anyway. by rewrite foldl_app.
Qed.

(** * Errors in a batch of messages *)

(** A query the server refuses to prepare. *)
Definition refused (q : text) (err : string) : Prop :=
  nul_free q ∧ passthrough = false ∧ single_stmt q = None ∧ matchPgCursorsQuery q = None
  ∧ matchPgStatActivityQuery q = false ∧ Transpile true q = inr err.
(** A prepared statement without parameters, rows, or effect on the transaction. *)
Definition plain_command (ps : preparedStmt) : Prop :=
  let q := TrimSpace (str (ps_query ps)) in
  ps_cursorOp ps = cursorOpNone ∧ q ≠ ""%string ∧ IsEmptyQuery (bytes q) = false ∧ ps_isIgnoredSet ps = false ∧ ps_isNoOp ps = false
  ∧ ps_statements ps = [] ∧ queryReturnsResults (ps_query ps) = false
  ∧ getCommandType (bytes (ToUpper q)) ∉ ["BEGIN"%string; "COMMIT"%string; "ROLLBACK"%string].

Definition no_params : bind_msg := {| bm_paramFormats := []; bm_paramValues := []; bm_resultFormats := [] |}.
(** Parse, Bind and Execute of the unnamed statement, and Sync, sent in one go. *)
Definition pipelined (q : text) : list (byte * list byte) :=
  [(x50, parse_body "" q []); (x42, bind_body "" "" no_params); (x45, execute_body "" 0); (x53, [])].

Lemma nul_free_nil : nul_free (bytes "").
Proof. constructor. Qed.

Lemma handleParse_refused q err w : refused q err →
  handleParse (parse_body "" q []) w =
    (Ok (), {| w_conn := w_conn w; w_db := w_db w; w_out := w_out w ++ [ErrorResponse "ERROR" "42601" ("syntax error: " +:+ err)]; w_in := w_in w |}).
Proof.
  intros (Hq & Hp & Hs & Hc & Ha & Ht). unfold handleParse, read_parse, parse_body. rewrite !readCString_app by (done || apply nul_free_nil).
  change (read_counted 4 (counted_ints 4 [])) with (@Fields (list Z * list byte) ([], [])). cbv beta iota. cbn [pm_query pm_stmt pm_types].
  rewrite Hs. unfold parse_query. by rewrite Hc, Ha, Hp, Ht.
Qed.

Lemma execute_command_ok converted args cmdType w n d : c_txStatus (w_conn w) = txStatusIdle →
  cmdType ∉ ["BEGIN"%string; "COMMIT"%string; "ROLLBACK"%string] → db_Exec converted args (w_db w) = (inl n, d) →
  execute_command converted args cmdType w =
    (Ok (), {| w_conn := w_conn w; w_db := d; w_out := w_out w ++ [CommandComplete (buildCommandTag cmdType n)]; w_in := w_in w |}).
Proof.
  intros Hi Hc Hd. unfold execute_command, gets, mbind, M_bind. rewrite Hi.
  rewrite (bool_decide_eq_false_2 (txStatusIdle = txStatusTransaction)), andb_false_r by done.
  unfold run_recovering, run_exec, gets, mbind, M_bind. rewrite exec_run, Hd. cbn [mret M_ret fst snd].
  unfold updateTxStatus. rewrite !not_elem_of_cons in Hc. rewrite !bool_decide_eq_false_2 by tauto. done.
Qed.

Lemma execute_plain p ps maxRows w n d : plain_command ps → p_paramValues p = [] → p_paramFormats p = [] →
  c_txStatus (w_conn w) = txStatusIdle → db_Exec (ps_convertedQuery ps) [] (w_db w) = (inl n, d) →
  ∃ tag, execute_statement p ps maxRows w =
    (Ok (), {| w_conn := w_conn w; w_db := d; w_out := w_out w ++ [CommandComplete tag]; w_in := w_in w |}).
Proof.
  intros (_ & Hq & He & His & Hno & Hst & Hrows & Hcmd) Hv Hf Hi Hd. unfold execute_statement. cbv zeta.
  rewrite bool_decide_eq_false_2, He by done. cbn [orb]. rewrite Hv, Hf.
  unfold decodeParams. cbn [decode_params].
  rewrite His, Hno, Hst, Hrows, bool_decide_eq_false_2 by naive_solver. rewrite (execute_command_ok _ _ _ _ n d) by done. eauto.
Qed.

Definition with_in (ms : list (byte * list byte)) (w : world) : world :=
  {| w_conn := w_conn w; w_db := w_db w; w_out := w_out w; w_in := ms |}.
Lemma loop_step fuel t body ms w w' : t ≠ x58 → w_in w = (t, body) :: ms →
  dispatch handleCopy t body (with_in ms w) = (Ok (), w') → loop handleCopy (S fuel) w = loop handleCopy fuel w'.
Proof.
  intros Ht Hw Hd. cbn [loop]. unfold recv, mbind, M_bind. rewrite Hw. rewrite bool_decide_eq_false_2 by done.
  change {| w_conn := w_conn w; w_db := w_db w; w_out := w_out w; w_in := ms |} with (with_in ms w). by rewrite Hd.
Qed.

(** An error does not make the server skip to the next Sync: a client that prepares
    a query the server refuses, and in the same go binds and executes the unnamed
    statement, has the statement prepared there before executed, on no parameters. *)
Theorem stale_statement_is_executed q err ref ps w n d :
  refused q err → w_in w = pipelined q → c_txStatus (w_conn w) = txStatusIdle →
  c_stmts (w_conn w) !! ""%string = Some ref → c_heap (w_conn w) !! ref = Some ps → plain_command ps →
  db_Exec (ps_convertedQuery ps) [] (w_db w) = (inl n, d) →
  ∃ tag w', serve_messages w = (Ok (), w') ∧ w_db w' = d
    ∧ w_out w' = w_out w ++ [ErrorResponse "ERROR" "42601" ("syntax error: " +:+ err); BindComplete;
                             CommandComplete tag; ReadyForQuery txStatusIdle].
Proof.
  intros Hq Hin Hi Hs Hps Hc Hd. unfold serve_messages, messageLoop. rewrite Hin. cbn [length pipelined].
  erewrite (loop_step _ x50); [|done|exact Hin|by apply (handleParse_refused q err)].
  erewrite (loop_step _ x42); [|done|reflexivity|
    eapply (handleBind_run "" "" no_params ref ps); [apply nul_free_nil..|repeat split; constructor || done|done|done]].
  cbn [with_in w_conn w_db w_out w_in]. match goal with |- context[<["" := ?p0]> _] => set (p := p0) end.
  match goal with |- context[loop handleCopy 3 ?w0] => set (w2 := w0) end.
  assert (c_portals (w_conn w2) !! ""%string = Some p) as Hp by (cbn; by rewrite lookup_insert_eq).
  destruct (execute_plain p ps 0 (with_in [(x53, [])] w2) n d) as [tag Htag]; [done..|]. exists tag.
  erewrite (loop_step _ x45); [|done|reflexivity|
    etransitivity; [apply (handleExecute_portal "" 0 (with_in [(x53, [])] w2) p ps); [apply nul_free_nil|done..]|];
    destruct Hc as (-> & _); exact Htag].
  erewrite (loop_step _ x53); [|done|reflexivity|reflexivity].
  eexists. split; [reflexivity|]. cbn. rewrite Hi, <- !app_assoc. done.
Qed.

(** * A mutation run by Describe *)

(** Describe of a prepared EXPLAIN ANALYZE of a DELETE sends the statement itself to
    the database: it returns rows, its text does not begin like a mutation, and no
    LIMIT 0 is put on it. The engine carries it out before any Execute. *)
Theorem describe_sends_explain_analyze name ref w ps :
  nul_free (bytes name) → c_stmts (w_conn w) !! name = Some ref → c_heap (w_conn w) !! ref = Some ps →
  ps_cursorOp ps = cursorOpNone → ps_numParams ps = 0 → ps_query ps = bytes "EXPLAIN ANALYZE DELETE FROM t" →
  ps_convertedQuery ps = ps_query ps →
  w_db (handleDescribe (describe_statement_body name) w).2 = (db_Query (bytes "EXPLAIN ANALYZE DELETE FROM t") [] (w_db w)).2.
Proof.
  intros Hn Hs Hps Hop Hnum Hq Hcv. rewrite (handleDescribe_statement name w ref ps) by done.
  unfold describe_statement. rewrite Hop, Hcv, Hq, Hnum.
  change (queryReturnsResults (bytes "EXPLAIN ANALYZE DELETE FROM t")) with true.
  change (isDMLReturning (bytes "EXPLAIN ANALYZE DELETE FROM t")) with false.
  change (isWithDML (bytes "EXPLAIN ANALYZE DELETE FROM t")) with false. cbn [negb].
  unfold sendParameterDescription, send, mbind, M_bind. rewrite (bool_decide_eq_false_2 (0 < 0)) by lia.
  match goal with |- context[probe ?q ?a ?w0] => pose proof (probe_db q a w0) as Hdb; destruct (probe q a w0) as [[[cols|]|p] w1] end;
    cbn [fst snd] in Hdb; exact Hdb.
Qed.

(** * A result that breaks off in a batch *)

Lemma stream_rows_all count f t rows w :
  stream_rows 0 count f t (inl <$> rows) w =
    (Ok (inl (count + Z.of_nat (length rows)), true),
     {| w_conn := w_conn w; w_db := w_db w; w_out := w_out w ++ ((λ v, DataRow v f t) <$> rows); w_in := w_in w |}).
Proof.
  revert count w. induction rows as [|v rows IH]; intros count w.
  - cbn. rewrite app_nil_r, Z.add_0_r. by destruct w.
  - rewrite !fmap_cons. cbn [stream_rows]. rewrite (bool_decide_eq_false_2 (0 < 0)) by lia. cbn [andb].
    unfold mbind, M_bind, send. rewrite IH. cbn [w_conn w_db w_out w_in length]. rewrite <- app_assoc.
    by replace (count + 1 + Z.of_nat (length rows)) with (count + Z.of_nat (S (length rows))) by lia.
Qed.

Lemma row_error_run err w : ∃ code message t,
  row_error err w = (Ok (), {| w_conn := set_tx t (w_conn w); w_db := w_db w;
                               w_out := w_out w ++ [ErrorResponse "ERROR" code message]; w_in := w_in w |}).
Proof.
  unfold row_error, setTxError, sendError, send, gets, modify, mbind, M_bind. destruct (isCallerCancellation err); cbv beta iota;
    cbn [w_conn]; case_bool_decide; [|destruct w as [[]]| |destruct w as [[]]]; eexists _, _, _; reflexivity.
Qed.

(** When the database breaks off a result after some rows, a lone SELECT ends in an
    error; the same SELECT in a batch of statements is reported as complete with
    the rows that came. *)
Theorem batch_hides_broken_result sql cols good err w d :
  db_Query sql [] (w_db w) =
    (inl {| rs_columns := inl cols; rs_types_err := None; rs_rows := inl <$> good; rs_err := Some err; rs_ended := false |}, d) →
  let sent := RowDescription cols [] :: ((λ v, DataRow v [] (type_oids cols)) <$> good) in
  select_in_batch sql "SELECT" w =
    (Ok false, {| w_conn := w_conn w; w_db := d;
                  w_out := w_out w ++ sent ++ [CommandComplete (buildCommandTagFromRowCount "SELECT" (Z.of_nat (length good)))];
                  w_in := w_in w |})
  ∧ ∃ code message st, w_out (executeSelectQuery sql "SELECT" w).2 =
      w_out w ++ sent ++ [ErrorResponse "ERROR" code message; ReadyForQuery st].
Proof.
  intros Hq. cbv zeta. split.
  - unfold select_in_batch, run_recovering, query, on_db, gets, mbind, M_bind. rewrite Hq.
    cbn [mret M_ret rs_columns rs_types_err rs_rows]. unfold send at 1. rewrite stream_rows_all.
    rewrite (eq_refl : updateTxStatus "SELECT" _ = (Ok (), _)). cbn. rewrite <- !app_assoc. done.
  - unfold executeSelectQuery, send_result, run_recovering, query, on_db, gets, mbind, M_bind. rewrite Hq.
    cbn [mret M_ret rs_columns rs_types_err rs_rows]. unfold send at 1 2. rewrite stream_rows_all.
    cbn [rs_Err rs_after rs_err rs_ended orb].
    match goal with |- context[row_error err ?w0] => destruct (row_error_run err w0) as (code & message & t & ->) end.
    exists code, message, t. unfold ready, gets, send, mbind, M_bind. cbn. rewrite <- !app_assoc. done.
Qed.
End failures.
