(* ===== verification/CopyTheorems.v ===== *)
(** COPY (src/server/conn.go, server/flightclient/copyfromstdin.go): the data of a
    client reaches a remote worker as it would reach the temporary file of a local
    one; and what COPY TO STDOUT makes of a row it cannot read. *)

From Stdlib Require Import Strings.Byte.
From stdpp Require Import prelude gmap strings list sorting.
From Stdlib Require Import ZArith Lia.
From S2P Require Import Prelude Wire GoText GoRegexp GoTime Values BinaryTypes CopyBinary SqlScan ErrorCodes Session ExtendedProtocol SimpleQuery CopyText ExtendedTheorems FailureTheorems.

Open Scope Z_scope.

Section copy_in.
Context `{Env}.

(** The client's data messages, and the bytes they carry; end-of-data markers carry none. *)
Definition frames (datas : list (list byte)) : list (byte * list byte) := (λ b, (x64, b)) <$> datas.
Definition payload (datas : list (list byte)) : list byte := concat (filter (λ b, end_marker b = false) datas).
Lemma payload_cons b datas : payload (b :: datas) = (if end_marker b then [] else b) ++ payload datas.
Proof. unfold payload. rewrite filter_cons. destruct (end_marker b) eqn:E; case_decide; congruence || done. Qed.

(** What follows them ends the copy: a message of another kind, or nothing, when the
    client has left. *)
Definition ends (later : list (byte * list byte)) (e : copy_end) : Prop := copy_message (head later) = FrameEnd e.
Lemma ends_message m rest : m.1 ≠ x64 → ∃ e, ends (m :: rest) e ∧ e ≠ CopyLost ∧ ∀ err, e ≠ CopyWriteFailed err.
Proof.
  destruct m as [t b]. cbn. intros Ht. unfold ends, copy_message. cbn. rewrite bool_decide_eq_false_2 by done.
  repeat case_bool_decide; (eexists; split; [reflexivity|done]).
Qed.
Lemma recv_ends {A} (k : copy_frame → M A) later e w : ends later e → w_in w = later →
  (m ← recv; k (copy_message m)) w = k (FrameEnd e) (with_in (tail later) w).
Proof.
  intros He Hw. unfold recv, mbind, M_bind. rewrite Hw. unfold ends in He. destruct later as [|m later]; cbn in *; rewrite He; [|done].
  rewrite <- Hw. by destruct w.
Qed.

Lemma with_in_in ms ms' w : with_in ms (with_in ms' w) = with_in ms w.
Proof. done. Qed.

(** ** The local path *)

Lemma receive_frames fuel acc datas later e w : (length datas < fuel)%nat → ends later e → w_in w = frames datas ++ later →
  receive fuel true (λ _, None) acc w = (Ok (acc ++ payload datas, e), with_in (tail later) w).
Proof.
  intros Hf He. revert fuel acc w Hf. induction datas as [|b datas IH]; intros [|fuel] acc w Hf Hw; cbn in Hf; try lia; cbn [receive].
  - rewrite (recv_ends (λ m, match m with FrameEnd e => _ | FrameData body => _ end) later e) by done. cbn. by rewrite app_nil_r.
  - unfold recv, mbind, M_bind; rewrite Hw; cbn [frames fmap list_fmap app]. cbn [copy_message]. rewrite bool_decide_eq_true_2 by done. rewrite payload_cons. cbn [andb].
    destruct (end_marker b); rewrite IH by (done || lia); [done|]. by rewrite app_assoc.
Qed.

(** ** The upload *)

(** What the reader has yet to hand out. *)
Definition todo (r : wire_reader) (datas : list (list byte)) : list byte := wr_pending r ++ payload datas.

Lemma take_bounds {A} n (x : A) l : (0 < n)%nat → (0 < length (take n (x :: l)) ≤ n)%nat.
Proof. intros Hn. rewrite length_take. cbn [length]. lia. Qed.

(** A Read hands out a first part of it, or meets the end. *)
Lemma wire_Read_frames fuel n r datas later e w : (S (length datas) < fuel)%nat → (0 < n)%nat → ends later e → wr_end r = None →
  w_in w = frames datas ++ later →
  (todo r datas = [] ∧ wire_Read fuel n r w = (Ok (read_ended e, {| wr_pending := []; wr_end := Some e |}), with_in (tail later) w))
  ∨ ∃ bs r' datas', todo r datas = bs ++ todo r' datas' ∧ (0 < length bs ≤ n)%nat ∧ wr_end r' = None
      ∧ wire_Read fuel n r w = (Ok (ReadBytes bs, r'), with_in (frames datas' ++ later) w).
Proof.
  intros Hf Hn He. revert fuel r w Hf. induction datas as [|b datas IH]; intros [|fuel] [pending end_] w Hf Hr Hw; cbn in Hf, Hr; try lia;
    subst end_; cbn [wire_Read wr_pending wr_end]; (destruct pending as [|p pending]; [|right]).
  - left. split; [done|]. by rewrite (recv_ends (λ m, match m with FrameEnd e => _ | FrameData body => _ end) later e).
  - eexists _, _, []. split; [|split; [by apply take_bounds|split; [|reflexivity || (rewrite <- Hw; by destruct w)]]]; [|done].
    unfold todo. cbn [wr_pending]. by rewrite app_assoc, take_drop.
  - unfold recv, mbind, M_bind. rewrite Hw. cbn [frames fmap list_fmap app copy_message]. rewrite bool_decide_eq_true_2 by done.
    unfold todo at 1 2. cbn [wr_pending app]. rewrite payload_cons. destruct (end_marker b).
    + apply (IH fuel {| wr_pending := []; wr_end := None |} (with_in (frames datas ++ later) w)); [lia|done..].
    + apply (IH fuel {| wr_pending := b; wr_end := None |} (with_in (frames datas ++ later) w)); [lia|done..].
  - eexists _, _, (b :: datas). split; [|split; [by apply take_bounds|split; [|reflexivity || (rewrite <- Hw; by destruct w)]]]; [|done].
    unfold todo. cbn [wr_pending]. by rewrite app_assoc, take_drop.
Qed.

(** The worker after these chunks, and after the end of the upload: end of file makes
    the worker run the statement, an error makes it drop the data. *)
Definition send_chunks (chunks : list (list byte)) (d : DB) : DB := foldl (λ d c, (remote_chunk c d).2) d chunks.
Definition upload_end (e : copy_end) (d : DB) : (Z + string) * DB :=
  match read_ended e with
  | ReadError err => (inr ("read csv stream: " +:+ err), remote_cancel d)
  | _ => remote_close d
  end.
Definition accepts_chunks : Prop := ∀ bs d, (remote_chunk bs d).1 = None.
Definition sized (chunk : nat) (c : list byte) : Prop := (0 < length c ≤ chunk)%nat.

Lemma length_frames datas (later : list (byte * list byte)) : length (frames datas ++ later) = (length datas + length later)%nat.
Proof. unfold frames. by rewrite length_app, length_fmap. Qed.

Lemma upload_frames fuel chunk r datas later e w : (length (todo r datas) < fuel)%nat → (0 < chunk)%nat → ends later e →
  wr_end r = None → accepts_chunks → w_in w = frames datas ++ later →
  ∃ chunks, concat chunks = todo r datas ∧ Forall (sized chunk) chunks
    ∧ upload fuel chunk r w =
        (Ok ((upload_end e (send_chunks chunks (w_db w))).1, {| wr_pending := []; wr_end := Some e |}),
         with_in (tail later) (in_db (upload_end e (send_chunks chunks (w_db w))).2 w)).
Proof.
  intros Hf Hc He Hr Hacc. revert r datas w Hf Hr. induction fuel as [|fuel IH]; intros r datas w Hf Hr Hw; [lia|].
  cbn [upload]. unfold mbind at 1, M_bind at 1.
  destruct (wire_Read_frames (S (S (length (w_in w)))) chunk r datas later e w) as [[Ht ->]|(bs & r' & datas' & Ht & Hl & Hr' & ->)];
    [rewrite Hw, length_frames; lia|done..| |].
  - exists []. rewrite Ht. split_and!; [done|constructor|]. unfold on_db, mbind, M_bind, upload_end.
    destruct e; cbn; try done; by destruct (remote_close (w_db w)).
  - pose proof (Hacc bs (w_db w)) as Hb. unfold on_db, mbind, M_bind. cbn [with_in w_db].
    destruct (remote_chunk bs (w_db w)) as [err d] eqn:E. cbn in Hb. subst err.
    destruct (IH r' datas' (in_db d (with_in (frames datas' ++ later) w))) as (chunks & Hcat & Hall & Hup);
      [apply (f_equal length) in Ht; rewrite length_app in Ht; lia|done..|].
    exists (bs :: chunks). split_and!; [cbn; by rewrite Hcat, Ht|by constructor|].
    cbn [send_chunks foldl]. rewrite E. exact Hup.
Qed.

Lemma payload_pending datas ms : (length (payload datas) ≤ pending_bytes (frames datas ++ ms))%nat.
Proof.
  induction datas as [|b datas IH]; [cbn; lia|]. rewrite payload_cons, length_app. unfold pending_bytes, frames in *. cbn.
  destruct (end_marker b); cbn; lia.
Qed.

Lemma copy_failed_db code message w : w_db (copy_failed code message w).2 = w_db w.
Proof. unfold copy_failed, setTxError, ready, sendError, send, gets, modify, mbind, M_bind. cbv beta iota. by case_bool_decide. Qed.

(** Both paths on the same messages. *)
Lemma both_paths chunk sql datas later e w :
  (0 < chunk)%nat → ends later e → accepts_chunks → (remote_open sql (w_db w)).1 = None → w_in w = frames datas ++ later →
  ∃ chunks, copy_receive true (λ _, None) w = (Ok (concat chunks, e), with_in (tail later) w)
    ∧ concat chunks = payload datas ∧ Forall (sized chunk) chunks
    ∧ let last := upload_end e (send_chunks chunks (remote_open sql (w_db w)).2) in
      CopyFromStdin chunk sql w = (Ok (last.1, {| wr_pending := []; wr_end := Some e |}), with_in (tail later) (in_db last.2 w)).
Proof.
  intros Hc He Hacc Ho Hw. destruct (remote_open sql (w_db w)) as [o d] eqn:E. cbn in Ho. subst o.
  destruct (upload_frames (S (pending_bytes (w_in w))) chunk new_reader datas later e (in_db d w)) as (chunks & Hcat & Hall & Hup);
    [|done..|]. { pose proof (payload_pending datas later). rewrite Hw. cbn. lia. }
  exists chunks. rewrite Hcat. split_and!; [|done|done|].
  - unfold copy_receive. by rewrite (receive_frames _ [] datas later e) by (done || (rewrite Hw, length_frames; lia)).
  - cbv zeta. unfold CopyFromStdin, on_db, mbind, M_bind. rewrite E. exact Hup.
Qed.

(** C17. COPY FROM STDIN to a remote worker delivers what it would write to the local
    file: whatever the sizes of the client's messages and of the chunks, the chunks
    joined are the same bytes; and when a message ends the data, the worker is told
    to load them if it is CopyDone, and to drop them otherwise. *)
Theorem remote_copy_gets_the_file chunk sql datas m rest w :
  (0 < chunk)%nat → m.1 ≠ x64 → accepts_chunks → (remote_open sql (w_db w)).1 = None → w_in w = frames datas ++ m :: rest →
  ∃ e chunks, copy_receive true (λ _, None) w = (Ok (concat chunks, e), with_in rest w)
    ∧ Forall (sized chunk) chunks
    ∧ let d := send_chunks chunks (remote_open sql (w_db w)).2 in
      ∃ res, CopyFromStdin chunk sql w =
        (Ok (res, {| wr_pending := []; wr_end := Some e |}),
         with_in rest (in_db (if bool_decide (e = CopyDoneIn) then (remote_close d).2 else remote_cancel d) w)).
Proof.
  intros Hc Hm Hacc Ho Hw. destruct (ends_message m rest Hm) as (e & He & Hl & Hf).
  destruct (both_paths chunk sql datas (m :: rest) e w) as (chunks & Hrec & _ & Hall & Hup); [done..|].
  exists e, chunks. split_and!; [done|done|]. rewrite Hup. exists (upload_end e (send_chunks chunks (remote_open sql (w_db w)).2)).1.
  destruct e; solve [reflexivity | by destruct Hl | by edestruct Hf].
Qed.

(** The exception is a client that leaves in the middle of its data: the local path
    leaves the database alone, but the reader passes the end of the connection on as
    end of file, and the remote worker is told to load what had arrived. *)
Theorem lost_client_loads_partial_copy chunk sql opts datas w :
  (0 < chunk)%nat → accepts_chunks → (remote_open sql (w_db w)).1 = None → tmp_write = (λ _, None) → w_in w = frames datas →
  w_db (handleCopyInFile opts w).2 = w_db w
  ∧ ∃ chunks, concat chunks = payload datas ∧ Forall (sized chunk) chunks
      ∧ w_db (CopyFromStdin chunk sql w).2 = (remote_close (send_chunks chunks (remote_open sql (w_db w)).2)).2.
Proof.
  intros Hc Hacc Ho Ht Hw. destruct (both_paths chunk sql datas [] CopyLost w) as (chunks & Hrec & Hcat & Hall & Hup);
    [done..|by rewrite app_nil_r|]. split.
  - unfold handleCopyInFile. destruct createTemp as [path|err]; [|apply copy_failed_db].
    unfold mbind, M_bind. rewrite Ht, Hrec. done.
  - exists chunks. split_and!; [done|done|]. by rewrite Hup.
Qed.
End copy_in.

(** * COPY TO STDOUT *)

Section copy_out.
Context `{Env}.

(** The messages of the handler for those of the stream. *)
Inductive renders : copy_out_msg → reply → Prop :=
  | render_data bs : renders (CopyData bs) (CopyDataOut bs)
  | render_done : renders CopyDone CopyDoneOut
  | render_complete n : renders (CopyOutComplete n) (CommandComplete ("COPY " +:+ fmt_d (Z.of_nat n)))
  | render_error message : renders CopyOutError (ErrorResponse "ERROR" "42000" message).
Definition scanned_row (r : list value + error) : scanned := match r with inl vs => Row vs | inr _ => ScanError end.

Definition answered (w : world) (t : txStatus_t) (rs : list reply) : world :=
  {| w_conn := set_tx t (w_conn w); w_db := w_db w; w_out := w_out w ++ rs ++ [ReadyForQuery t]; w_in := w_in w |}.

Lemma copy_failed_run code message w : ∃ t, copy_failed code message w = (Ok (), answered w t [ErrorResponse "ERROR" code message]).
Proof.
  unfold copy_failed, setTxError, ready, answered, sendError, send, gets, modify, mbind, M_bind. cbv beta iota. cbn [w_conn].
  case_bool_decide; eexists; cbn; rewrite <- app_assoc; [reflexivity|by destruct w as [[]]].
Qed.
Lemma copy_done_run n w : ∃ t, copy_done n w = (Ok (), answered w t [CommandComplete ("COPY " +:+ fmt_d n)]).
Proof. exists (c_txStatus (w_conn w)). unfold copy_done, ready, answered, send, gets, mbind, M_bind. cbn. rewrite <- app_assoc. by destruct w as [[]]. Qed.
Lemma answered_send r w t rs : answered (send r w).2 t rs = answered w t (r :: rs).
Proof. unfold answered, send. cbn. by rewrite <- app_assoc. Qed.

(** The end of handleCopyOutBinary. *)
Definition binary_end (rows : rowset) (x : (Z + error) * bool * bool) : M () :=
  let '(r, ended, first) := x in
  match r with
  | inr err => copy_failed "42000" (Error err)
  | inl rowCount =>
      match rs_Err (rs_after rows [] ended) with
      | Some err => copy_failed "42000" (Error err)
      | None =>
          send (CopyDataOut (if first : bool then binaryHeader ++ copy_trailer else copy_trailer)) ;;
          send CopyDoneOut ;; copy_done rowCount
      end
  end.

Lemma copy_out_tuples_run rows oids first n l msgs w :
  copy_out_rows duck_String oids first n (scanned_row <$> l) (bool_decide (is_Some (rs_err rows))) = Ret msgs →
  ∃ rs t, (copy_out_tuples oids first (Z.of_nat n) l ≫= binary_end rows) w = (Ok (), answered w t rs) ∧ Forall2 renders msgs rs.
Proof.
  revert first n msgs w. induction l as [|[vs|err] l IH]; intros first n msgs w Hm; cbn [copy_out_tuples fmap list_fmap scanned_row copy_out_rows] in *.
  - unfold mbind, M_bind. cbn [mret M_ret binary_end]. unfold rs_Err, rs_after. cbn [rs_ended rs_err]. rewrite orb_true_r.
    destruct (rs_err rows) as [err|].
    + rewrite bool_decide_eq_true_2 in Hm by eauto. injection Hm as <-. destruct (copy_failed_run "42000" (Error err) w) as [t ->].
      eexists _, t. split; [done|]. repeat constructor.
    + rewrite bool_decide_eq_false_2 in Hm by (by intros []). injection Hm as <-. unfold mbind, M_bind.
      match goal with |- context[send ?x w] => set (r1 := x) end. destruct (copy_done_run (Z.of_nat n) (send CopyDoneOut (send r1 w).2).2) as [t E].
      rewrite !answered_send in E. eexists _, t. split; [exact E|]. repeat constructor.
  - destruct (encodeTuple duck_String oids vs) as [tup|[]|]; try done. cbn in Hm.
    destruct (copy_out_rows _ _ _ _ _ _) as [rest|[]|] eqn:Er; try done. cbn in Hm. injection Hm as <-.
    destruct (IH false (S n) rest (send (CopyDataOut (if first then binaryHeader ++ tup else tup)) w).2 Er) as (rs & t & E & Hr).
    rewrite answered_send in E. eexists _, t. split; [|constructor; [apply render_data|exact Hr]].
    replace (Z.of_nat (S n)) with (Z.of_nat n + 1) in E by lia. exact E.
  - injection Hm as <-. unfold mbind, M_bind. cbn [mret M_ret binary_end]. destruct (copy_failed_run "42000" (Error err) w) as [t ->].
    eexists _, t. split; [done|]. repeat constructor.
Qed.

(** The binary COPY TO STDOUT of the connection sends, between its CopyOutResponse
    and ReadyForQuery, exactly the messages of the stream that COPY FROM STDIN reads
    back: on every result set, errors included. *)
Theorem binary_copy_out_sends_stream rows cols msgs w :
  rs_types_err rows = None →
  copy_out_stream duck_String (type_oids cols) (scanned_row <$> rs_rows rows) (bool_decide (is_Some (rs_err rows))) = Ret msgs →
  ∃ rs t, handleCopyOutBinary rows cols w =
      (Ok (), answered w t (CopyOutResponse (wrap_s 16 (Z.of_nat (length cols))) false :: rs))
    ∧ Forall2 renders msgs rs.
Proof.
  intros Ht Hm. set (w1 := (send (CopyOutResponse (wrap_s 16 (Z.of_nat (length cols))) false) w).2).
  destruct (copy_out_tuples_run rows (type_oids cols) true 0 (rs_rows rows) msgs w1 Hm) as (rs & t & E & Hr).
  exists rs, t. split; [|done]. unfold w1 in E. rewrite answered_send in E. unfold handleCopyOutBinary. rewrite Ht. exact E.
Qed.

Lemma copy_lines_broken delim oids n good err l w :
  copy_lines delim oids n ((inl <$> good) ++ inr err :: l) w =
    (Ok (n + Z.of_nat (length good), false),
     {| w_conn := w_conn w; w_db := w_db w;
        w_out := w_out w ++ ((λ v, CopyDataOut (copy_line delim oids v)) <$> good) ++ [ErrorResponse "ERROR" "42000" (Error err)];
        w_in := w_in w |}).
Proof.
  revert n w. induction good as [|v good IH]; intros n w.
  - cbn. by rewrite Z.add_0_r.
  - rewrite !fmap_cons. cbn [app copy_lines]. unfold mbind, M_bind, send. rewrite IH. cbn [w_conn w_db w_out w_in length].
    rewrite <- !app_assoc. by replace (n + 1 + Z.of_nat (length good)) with (n + Z.of_nat (S (length good))) by lia.
Qed.

(** COPY TO STDOUT in text format that meets a row it cannot read reports the error
    and then completes as if the rows before it were the whole table: CopyDone and
    the count follow, and the transaction status does not change. *)
Theorem unreadable_row_ends_copy_as_done sql rows cols good err l w :
  rs_rows rows = (inl <$> good) ++ inr err :: l → rs_ended rows = false → copy_header sql = false →
  copy_out_text sql rows cols w =
    (Ok (), answered w (c_txStatus (w_conn w))
      (CopyOutResponse (wrap_s 16 (Z.of_nat (length cols))) true
       :: ((λ v, CopyDataOut (copy_line (copy_delimiter sql) (type_oids cols) v)) <$> good)
       ++ [ErrorResponse "ERROR" "42000" (Error err); CopyDoneOut; CommandComplete ("COPY " +:+ fmt_d (Z.of_nat (length good)))])).
Proof.
  intros Hrows He Hh. unfold copy_out_text. rewrite Hrows, Hh. unfold mbind, M_bind, send. cbv beta iota zeta.
  cbn [mret M_ret]. rewrite copy_lines_broken.
  unfold rs_Err, rs_after. cbn [rs_ended]. rewrite He. cbn [orb].
  unfold copy_done, ready, gets, send, mbind, M_bind, answered. cbn. rewrite <- !app_assoc. by destruct w as [[]].
Qed.
End copy_out.
