(* ===== verification/ProtocolWitnesses.v ===== *)
(** A connection to a small concrete database, and the theorems on the protocol at
    work on it. The database is the list of the statements and data it was given. *)

From Stdlib Require Import Strings.Byte.
From stdpp Require Import prelude gmap strings list sorting.
From Stdlib Require Import ZArith Lia.
From S2P Require Import Prelude Wire GoText GoRegexp GoTime Values BinaryTypes CopyBinary SqlScan ErrorCodes Session ExtendedProtocol SimpleQuery CopyText ProtocolTheorems ExtendedTheorems FailureTheorems CopyTheorems.

Open Scope Z_scope.

(** A connection whose statements answer as given; nothing parses, and the transpiler
    refuses everything. *)
Definition log_env (pass : bool) (answer : text → rowset + error) (done : text → Z + error) : Env := {|
  env_case := ascii_case; fold_other := λ _ _, false; Quote := id;
  pg_node := unit; pg_Parse := λ _, None; pg_kind := λ _, OtherStmt; pg_Deparse := λ _, inl [];
  Transpile := λ _ _, inr "refused"%string;
  ConvertAlterTableToAlterView := λ _, None; ConvertDropTableToDropView := λ _, None;
  DB := list text; db_Query := λ sql _ d, (answer sql, d ++ [sql]); db_Exec := λ sql _ d, (done sql, d ++ [sql]);
  passthrough := pass; logicalCatalogMapping := false; database := ""%string;
  listConns := λ _ _, []; progressFn := None;
  createTemp := inl "tmp"%string; tmp_write := λ _, None; db_ExecFile := λ _ data sql d, (inl 0, d ++ [sql; data]);
  remote := true; remote_open := λ sql d, (None, d ++ [sql]); remote_chunk := λ bs d, (None, d ++ [bs]);
  remote_close := λ d, (inl 1, d ++ [bytes "load"]); remote_cancel := λ d, d ++ [bytes "cancel"];
  db_Append := None; env_float := plain_floats; duck_String := λ _, None; sprint_other := λ _, ""%string |}.

Definition failure (message : string) : error := {| Error := message; ctx_done := false |}.
Definition one_column (rows : list (list value + error)) (err : option error) : rowset :=
  {| rs_columns := inl [("a"%string, "INTEGER"%string)]; rs_types_err := None; rs_rows := rows; rs_err := err; rs_ended := false |}.
Definition start (e : Env) (d : @DB e) (c : conn) (ms : list (byte * list byte)) : @world e :=
  {| w_conn := c; w_db := d; w_out := []; w_in := ms |}.
(** A connection with one prepared statement, unnamed, and a portal bound to it. *)
Definition prepared (ps : preparedStmt) : conn :=
  {| c_heap := [ps]; c_stmts := {[""%string := 0%nat]};
     c_portals := {[""%string := {| p_stmt := 0; p_paramValues := []; p_paramFormats := []; p_resultFormats := []; p_described := false |}]};
     c_cursors := ∅; c_txStatus := txStatusIdle |}.

(** Rows for every query, success for every command. *)
Definition easy : Env := log_env true (λ _, inl (one_column [inl [VInt KInt32 7]] None)) (λ _, inl 1).
Definition no_rows : Env := log_env false (λ _, inr (failure "no")) (λ _, inl 1).

Lemma ready_ends_queries_and_syncs_witness :
  let w := start easy [] newConn [] in
  let w' := (serve_message (H := easy) x51 (bytes "BEGIN" ++ [x00]) w).2 in
  (∃ l, w_out w' = w_out w ++ l ++ [ReadyForQuery (c_txStatus (w_conn w'))] ∧ Forall not_ready l)
  ∨ (w_in w' = [] ∧ ∃ l, w_out w' = w_out w ++ l ∧ Forall not_ready l).
Proof.
  cbv zeta. refine (ready_ends_queries_and_syncs (H := easy) x51 (bytes "BEGIN" ++ [x00]) (start easy [] newConn []) _ _).
  vm_compute. reflexivity.
Defined.

Lemma status_changes_are_announced_witness :
  let w := start easy [] newConn [] in
  let w' := (serve_message (H := easy) x51 (bytes "BEGIN" ++ [x00]) w).2 in
  c_txStatus (w_conn w') = txStatusTransaction
  ∧ ∃ new, w_out w' = w_out w ++ new
      ∧ (c_txStatus (w_conn w') ≠ c_txStatus (w_conn w) → Exists (announces (c_txStatus (w_conn w'))) new)
      ∧ (c_txStatus (w_conn w) = txStatusIdle → c_txStatus (w_conn w') = txStatusError → Exists is_completion new).
Proof.
  cbv zeta. split; [vm_compute; reflexivity|].
  refine (status_changes_are_announced (H := easy) x51 (bytes "BEGIN" ++ [x00]) (start easy [] newConn []) _ _ _).
  apply surjective_pairing.
Defined.

Definition delete_stmt : preparedStmt := plain_stmt (bytes "DELETE FROM t") (bytes "DELETE FROM t").
Definition select_stmt : preparedStmt := plain_stmt (bytes "SELECT 7") (bytes "SELECT 7").
Definition cursors_stmt : preparedStmt := cursor_stmt (bytes "SELECT 1 FROM pg_cursors WHERE name = 'c'") cursorOpPgCursorsQuery "c" [] 0.

(** The unnamed statement is closed and another prepared under its name. *)
Lemma portals_keep_their_statement_witness :
  let w := start easy [] (prepared delete_stmt) [(x43, [x53; x00]); (x50, parse_body "" (bytes "SELECT 7") [])] in
  c_stmts (w_conn (serve_messages (H := easy) w).2) !! ""%string = Some 1%nat
  ∧ refs_ok (w_conn (serve_messages (H := easy) w).2)
  ∧ ∃ ps', c_heap (w_conn (serve_messages (H := easy) w).2) !! 0%nat = Some ps' ∧ same_stmt delete_stmt ps'.
Proof.
  cbv zeta. split; [vm_compute; reflexivity|].
  set (w := start easy [] (prepared delete_stmt) [(x43, [x53; x00]); (x50, parse_body "" (bytes "SELECT 7") [])]).
  destruct (portals_keep_their_statement (H := easy) w) as [Hr Hh].
  - split; intros n r; cbn; intros Hn; apply lookup_singleton_Some in Hn as [<- <-]; by eexists.
  - split; [exact Hr|]. by apply Hh.
Defined.

Lemma columns_described_once_witness :
  let w := start easy [] (prepared select_stmt) [] in
  let w1 := (handleDescribe (H := easy) (describe_portal_body "") w).2 in
  let w2 := (handleExecute (H := easy) (execute_body "" 0) w1).2 in
  w_out w1 = [RowDescription [("a"%string, "INTEGER"%string)] []]
  ∧ (Forall no_columns (drop (length (w_out w)) (w_out w1)) ∨ Forall no_columns (drop (length (w_out w1)) (w_out w2))).
Proof.
  cbv zeta. split; [vm_compute; reflexivity|].
  refine (columns_described_once (H := easy) "" 0 _ select_stmt (start easy [] (prepared select_stmt) []) _
            (handleExecute (H := easy) (execute_body "" 0) _).1 _ _ _ _ _ _ _ _);
    [constructor|split; vm_compute; congruence|apply lookup_singleton_eq|reflexivity|discriminate|vm_compute; reflexivity|apply surjective_pairing].
Defined.

Lemma pg_cursors_described_twice_witness :
  let w := start easy [] (prepared cursors_stmt) [] in
  ∃ w1 w2, handleDescribe (H := easy) (describe_portal_body "") w = (Ok (), w1)
    ∧ handleExecute (H := easy) (execute_body "" 0) w1 = (Ok (), w2)
    ∧ SyntheticRowDescription pgCursorsColumns [] ∈ drop (length (w_out w)) (w_out w1)
    ∧ SyntheticRowDescription pgCursorsColumns [] ∈ drop (length (w_out w1)) (w_out w2).
Proof.
  cbv zeta. refine (pg_cursors_described_twice (H := easy) "" 0 {| p_stmt := 0; p_resultFormats := [] |} cursors_stmt (start easy [] (prepared cursors_stmt) []) _ _ _ _ _ _);
    [constructor|split; vm_compute; congruence|apply lookup_singleton_eq|reflexivity..].
Defined.

(** Two parameters, one NULL, in one format. *)
Definition two_params : bind_msg := {| bm_paramFormats := [1]; bm_paramValues := [Some [x2a]; None]; bm_resultFormats := [] |}.
Lemma bind_roundtrip_witness :
  ∃ w', handleBind (H := easy) (bind_body "p" "" two_params) (start easy [] (prepared select_stmt) []) = (Ok (), w')
    ∧ p_paramValues <$> c_portals (w_conn w') !! "p"%string = Some [Some [x2a]; None].
Proof.
  eexists. split; [refine (bind_roundtrip (H := easy) "p" "" two_params 0 select_stmt (start easy [] (prepared select_stmt) []) _ _ _ _ _)|].
  - by repeat constructor.
  - constructor.
  - repeat split; try (repeat constructor; done); cbn; try (repeat constructor; unfold in_s; lia).
    repeat constructor; intros bs [= <-]; cbn; lia.
  - reflexivity.
  - reflexivity.
  - reflexivity.
Defined.

(** The third statement of a rewrite fails: what came before it is committed. *)
Definition bad_third : Env :=
  log_env false (λ _, inr (failure "no")) (λ sql, if bool_decide (sql = bytes "INSERT INTO u") then inr (failure "no table u") else inl 1).
Lemma failed_rewrite_still_commits_witness :
  let w := start bad_third [] newConn [] in
  w_db (executeMultiStatement (H := bad_third) ([bytes "BEGIN"; bytes "INSERT INTO t"] ++ bytes "INSERT INTO u" :: [bytes "SELECT 1"])
          ([bytes "DROP TABLE x"] ++ [bytes "COMMIT"]) w).2
  = [bytes "BEGIN"; bytes "INSERT INTO t"; bytes "INSERT INTO u"; bytes "DROP TABLE x"; bytes "COMMIT"].
Proof.
  cbv zeta. erewrite (failed_rewrite_still_commits (H := bad_third) [bytes "BEGIN"; bytes "INSERT INTO t"] (bytes "INSERT INTO u") [bytes "SELECT 1"]
    [bytes "DROP TABLE x"] (start bad_third [] newConn []) [bytes "BEGIN"; bytes "INSERT INTO t"] (failure "no table u")
    [bytes "BEGIN"; bytes "INSERT INTO t"; bytes "INSERT INTO u"]); [reflexivity|reflexivity|done|vm_compute; reflexivity|vm_compute; reflexivity].
Defined.

Lemma stale_statement_is_executed_witness :
  let w := start no_rows [] (prepared delete_stmt) (pipelined (bytes "SELEC 1")) in
  ∃ tag w', serve_messages (H := no_rows) w = (Ok (), w') ∧ w_db w' = [bytes "DELETE FROM t"]
    ∧ w_out w' = [ErrorResponse "ERROR" "42601" "syntax error: refused"; BindComplete; CommandComplete tag; ReadyForQuery txStatusIdle].
Proof.
  cbv zeta. refine (stale_statement_is_executed (H := no_rows) (bytes "SELEC 1") "refused" 0 delete_stmt
    (start no_rows [] (prepared delete_stmt) (pipelined (bytes "SELEC 1"))) 1 _ _ _ _ _ _ _ _); try reflexivity.
  - split_and!; try (vm_compute; reflexivity). by repeat constructor.
  - split_and!; try (vm_compute; reflexivity); [vm_compute; discriminate|].
    intros Hin. rewrite !elem_of_cons, elem_of_nil in Hin. destruct Hin as [E|[E|[E|[]]]]; vm_compute in E; discriminate.
Defined.

Definition explain_stmt : preparedStmt :=
  plain_stmt (bytes "EXPLAIN ANALYZE DELETE FROM t") (bytes "EXPLAIN ANALYZE DELETE FROM t").
Lemma describe_sends_explain_analyze_witness :
  w_db (handleDescribe (H := easy) (describe_statement_body "") (start easy [] (prepared explain_stmt) [])).2
  = [bytes "EXPLAIN ANALYZE DELETE FROM t"].
Proof.
  refine (describe_sends_explain_analyze (H := easy) "" 0 (start easy [] (prepared explain_stmt) []) explain_stmt _ _ _ _ _ _ _);
    [constructor|reflexivity..].
Defined.

(** A result that breaks off after one row. *)
Definition broken : Env := log_env true (λ _, inl (one_column (inl <$> [[VInt KInt32 7]]) (Some (failure "lost")))) (λ _, inl 1).
Lemma batch_hides_broken_result_witness :
  (select_in_batch (H := broken) (bytes "SELECT a") "SELECT" (start broken [] newConn [])).1 = Ok false
  ∧ ∃ code message st, w_out (executeSelectQuery (H := broken) (bytes "SELECT a") "SELECT" (start broken [] newConn [])).2 =
      [RowDescription [("a"%string, "INTEGER"%string)] []; DataRow [VInt KInt32 7] [] [23]; ErrorResponse "ERROR" code message; ReadyForQuery st].
Proof.
  destruct (batch_hides_broken_result (H := broken) (bytes "SELECT a") [("a"%string, "INTEGER"%string)] [[VInt KInt32 7]] (failure "lost")
    (start broken [] newConn []) [bytes "SELECT a"] eq_refl) as [E1 E2].
  split; [by rewrite E1|exact E2].
Defined.

(** Three messages, one of them the end-of-data marker, in chunks of two bytes. *)
Lemma remote_copy_gets_the_file_witness :
  let w := start easy [] newConn (frames [bytes "1,2"; [x5c; x2e]; bytes "3"] ++ (x63, []) :: []) in
  ∃ e chunks, copy_receive (H := easy) true (λ _, None) w = (Ok (concat chunks, e), with_in (H := easy) [] w)
    ∧ Forall (sized 2) chunks
    ∧ let d := send_chunks (H := easy) chunks [bytes "COPY"] in
      ∃ res, CopyFromStdin (H := easy) 2 (bytes "COPY") w =
        (Ok (res, {| wr_pending := []; wr_end := Some e |}),
         with_in (H := easy) [] (in_db (H := easy) (if bool_decide (e = CopyDoneIn) then d ++ [bytes "load"] else d ++ [bytes "cancel"]) w)).
Proof.
  cbv zeta. refine (remote_copy_gets_the_file (H := easy) 2 (bytes "COPY") [bytes "1,2"; [x5c; x2e]; bytes "3"] (x63, []) [] _ _ _ _ _ _);
    [lia|discriminate|done|reflexivity|reflexivity].
Defined.

(** A client that leaves after one message. *)
Lemma lost_client_loads_partial_copy_witness :
  let w := start easy [] newConn (frames [bytes "1,2"]) in
  w_db (handleCopyInFile (H := easy) {| TableName := bytes "t"; ColumnList := []; Delimiter := [x2c]; HasHeader := false; NullString := [];
          QuoteChar := []; Escape := []; IsBinary := false |} w).2 = []
  ∧ ∃ chunks, concat chunks = bytes "1,2" ∧ Forall (sized 2) chunks
      ∧ w_db (CopyFromStdin (H := easy) 2 (bytes "COPY") w).2 = send_chunks (H := easy) chunks [bytes "COPY"] ++ [bytes "load"].
Proof.
  cbv zeta. refine (lost_client_loads_partial_copy (H := easy) 2 (bytes "COPY") _ [bytes "1,2"] (start easy [] newConn (frames [bytes "1,2"])) _ _ _ _ _);
    [lia|done|reflexivity..].
Defined.

Lemma binary_copy_out_sends_stream_witness :
  ∃ msgs rs t, handleCopyOutBinary (H := easy) (one_column [inl [VInt KInt32 7]] None) [("a"%string, "INTEGER"%string)] (start easy [] newConn []) =
      (Ok (), answered (H := easy) (start easy [] newConn []) t (CopyOutResponse 1 false :: rs))
    ∧ length msgs = 4%nat ∧ Forall2 renders msgs rs.
Proof.
  eexists. destruct (binary_copy_out_sends_stream (H := easy) (one_column [inl [VInt KInt32 7]] None) [("a"%string, "INTEGER"%string)] _ (start easy [] newConn [])
    eq_refl ltac:(vm_compute; reflexivity)) as (rs & t & E & Hr). exists rs, t. split; [exact E|]. split; [|exact Hr]. reflexivity.
Defined.

Lemma unreadable_row_ends_copy_as_done_witness :
  copy_out_text (H := easy) (bytes "COPY t TO STDOUT") (one_column ((inl <$> [[VInt KInt32 7]]) ++ inr (failure "bad row") :: []) None)
    [("a"%string, "INTEGER"%string)] (start easy [] newConn [])
  = (Ok (), answered (H := easy) (start easy [] newConn []) txStatusIdle
      [CopyOutResponse 1 true; CopyDataOut [x37; x0a]; ErrorResponse "ERROR" "42000" "bad row"; CopyDoneOut; CommandComplete "COPY 1"]).
Proof.
  refine (unreadable_row_ends_copy_as_done (H := easy) (bytes "COPY t TO STDOUT") (one_column ((inl <$> [[VInt KInt32 7]]) ++ inr (failure "bad row") :: []) None)
    [("a"%string, "INTEGER"%string)] [[VInt KInt32 7]] (failure "bad row") [] (start easy [] newConn []) _ _ _); vm_compute; reflexivity.
Defined.
