(* ===== verification/RuntimeDB.v ===== *)
(** The runtime tables of the config store
    (src/controlplane/configstore/models.go, lines 310-483) and the interface to
    the database that holds them.

    PostgreSQL and the query builder are outside the repository. [World] is what
    the code uses of them: statements, transactions and the clock. [WorldLaws]
    states their documented behaviour, failures included: a statement that
    reports success did what it says; one that reports an error did nothing or,
    when only the reply was lost, did it all; a transaction takes effect as a
    whole or not at all. What a statement means is a function on the tables, so
    that the definitions of RuntimeStore read like the queries they model.
    Times are integers in microseconds, the resolution of timestamptz, and 0 is
    Go's zero time. *)

From Stdlib Require Import Strings.Byte.
From stdpp Require Import prelude gmap strings list fin_maps sorting.
From Stdlib Require Import ZArith Lia.
From S2P Require Import Prelude.

Open Scope Z_scope.

Definition time := Z.
Definition IsZero (t : time) : bool := bool_decide (t = 0).

(** * Rows *)

Inductive ControlPlaneInstanceState := CPActive | CPDraining | CPExpired.

Inductive WorkerState :=
  | Spawning | Idle | Reserved | Activating | Hot | HotIdle | Draining | Retired | Lost.

Inductive FlightSessionState := FSActive | FSReconnecting | FSExpired | FSClosed.

Inductive WorkerClaimMissReason := MissNone | NoIdle | OrgCap | GlobalCap | ShuttingDown.

#[export] Instance cp_state_eq_dec : EqDecision ControlPlaneInstanceState.
Proof. solve_decision. Defined.
#[export] Instance worker_state_eq_dec : EqDecision WorkerState.
Proof. solve_decision. Defined.
#[export] Instance flight_state_eq_dec : EqDecision FlightSessionState.
Proof. solve_decision. Defined.
#[export] Instance miss_reason_eq_dec : EqDecision WorkerClaimMissReason.
Proof. solve_decision. Defined.

Definition miss_reason_code (r : WorkerClaimMissReason) : Z :=
  match r with MissNone => 0 | NoIdle => 1 | OrgCap => 2 | GlobalCap => 3 | ShuttingDown => 4 end.
Definition miss_reason_of_code (z : Z) : option WorkerClaimMissReason :=
  match z with
  | 0 => Some MissNone | 1 => Some NoIdle | 2 => Some OrgCap
  | 3 => Some GlobalCap | 4 => Some ShuttingDown | _ => None
  end.
#[export] Instance miss_reason_countable : Countable WorkerClaimMissReason.
Proof. refine (inj_countable miss_reason_code miss_reason_of_code _). by intros []. Defined.

Record ControlPlaneInstance := {
  CP_ID : string;
  CP_PodName : string;
  CP_PodUID : string;
  CP_BootID : string;
  CP_State : ControlPlaneInstanceState;
  CP_StartedAt : time;
  CP_LastHeartbeatAt : time;
  CP_DrainingAt : option time;
  CP_ExpiredAt : option time;
  CP_CreatedAt : time;
  CP_UpdatedAt : time;
}.

(** [W_Owner] is [None] for a NULL owner_cp_instance_id, which old rows have. *)
Record WorkerRecord := {
  W_ID : Z;
  W_PodName : string;
  W_PodUID : string;
  W_Image : string;
  W_State : WorkerState;
  W_OrgID : string;
  W_Owner : option string;
  W_Epoch : Z;
  W_ActivationStartedAt : option time;
  W_LastHeartbeatAt : time;
  W_RetireReason : string;
  W_S3ExpiresAt : option time;
  W_CreatedAt : time;
  W_UpdatedAt : time;
}.

Record FlightSessionRecord := {
  F_Token : string;
  F_Username : string;
  F_OrgID : string;
  F_WorkerID : Z;
  F_Epoch : Z;
  F_CP : string;
  F_State : FlightSessionState;
  F_ExpiresAt : time;
  F_LastSeenAt : time;
  F_CreatedAt : time;
  F_UpdatedAt : time;
}.

Record OrgConnectionQueueEntry := {
  Q_RequestID : string;
  Q_OrgID : string;
  Q_CP : string;
  Q_PID : Z;
  Q_Protocol : string;
  Q_EnqueuedAt : time;
  Q_ExpiresAt : time;
  Q_GrantedAt : option time;
  Q_CanceledAt : option time;
  Q_CreatedAt : time;
  Q_UpdatedAt : time;
}.

Record OrgConnectionLease := {
  L_LeaseID : string;
  L_RequestID : string;
  L_OrgID : string;
  L_CP : string;
  L_PID : Z;
  L_Protocol : string;
  L_AcquiredAt : time;
  L_CreatedAt : time;
  L_UpdatedAt : time;
}.

Record WarmCapacityMissBucket := { B_Count : Z; B_UpdatedAt : time }.

(** The string a Go field gets when the column is scanned. *)
Definition go_owner (r : WorkerRecord) : string := default ""%string (W_Owner r).

Definition set_state (s : WorkerState) (r : WorkerRecord) : WorkerRecord :=
  {| W_ID := W_ID r; W_PodName := W_PodName r; W_PodUID := W_PodUID r; W_Image := W_Image r;
     W_State := s; W_OrgID := W_OrgID r; W_Owner := W_Owner r; W_Epoch := W_Epoch r;
     W_ActivationStartedAt := W_ActivationStartedAt r; W_LastHeartbeatAt := W_LastHeartbeatAt r;
     W_RetireReason := W_RetireReason r; W_S3ExpiresAt := W_S3ExpiresAt r;
     W_CreatedAt := W_CreatedAt r; W_UpdatedAt := W_UpdatedAt r |}.
Definition set_org (o : string) (r : WorkerRecord) : WorkerRecord :=
  {| W_ID := W_ID r; W_PodName := W_PodName r; W_PodUID := W_PodUID r; W_Image := W_Image r;
     W_State := W_State r; W_OrgID := o; W_Owner := W_Owner r; W_Epoch := W_Epoch r;
     W_ActivationStartedAt := W_ActivationStartedAt r; W_LastHeartbeatAt := W_LastHeartbeatAt r;
     W_RetireReason := W_RetireReason r; W_S3ExpiresAt := W_S3ExpiresAt r;
     W_CreatedAt := W_CreatedAt r; W_UpdatedAt := W_UpdatedAt r |}.
Definition set_owner (o : string) (r : WorkerRecord) : WorkerRecord :=
  {| W_ID := W_ID r; W_PodName := W_PodName r; W_PodUID := W_PodUID r; W_Image := W_Image r;
     W_State := W_State r; W_OrgID := W_OrgID r; W_Owner := Some o; W_Epoch := W_Epoch r;
     W_ActivationStartedAt := W_ActivationStartedAt r; W_LastHeartbeatAt := W_LastHeartbeatAt r;
     W_RetireReason := W_RetireReason r; W_S3ExpiresAt := W_S3ExpiresAt r;
     W_CreatedAt := W_CreatedAt r; W_UpdatedAt := W_UpdatedAt r |}.
Definition set_epoch (e : Z) (r : WorkerRecord) : WorkerRecord :=
  {| W_ID := W_ID r; W_PodName := W_PodName r; W_PodUID := W_PodUID r; W_Image := W_Image r;
     W_State := W_State r; W_OrgID := W_OrgID r; W_Owner := W_Owner r; W_Epoch := e;
     W_ActivationStartedAt := W_ActivationStartedAt r; W_LastHeartbeatAt := W_LastHeartbeatAt r;
     W_RetireReason := W_RetireReason r; W_S3ExpiresAt := W_S3ExpiresAt r;
     W_CreatedAt := W_CreatedAt r; W_UpdatedAt := W_UpdatedAt r |}.
Definition set_reason (s : string) (r : WorkerRecord) : WorkerRecord :=
  {| W_ID := W_ID r; W_PodName := W_PodName r; W_PodUID := W_PodUID r; W_Image := W_Image r;
     W_State := W_State r; W_OrgID := W_OrgID r; W_Owner := W_Owner r; W_Epoch := W_Epoch r;
     W_ActivationStartedAt := W_ActivationStartedAt r; W_LastHeartbeatAt := W_LastHeartbeatAt r;
     W_RetireReason := s; W_S3ExpiresAt := W_S3ExpiresAt r;
     W_CreatedAt := W_CreatedAt r; W_UpdatedAt := W_UpdatedAt r |}.
Definition set_s3 (t : time) (r : WorkerRecord) : WorkerRecord :=
  {| W_ID := W_ID r; W_PodName := W_PodName r; W_PodUID := W_PodUID r; W_Image := W_Image r;
     W_State := W_State r; W_OrgID := W_OrgID r; W_Owner := W_Owner r; W_Epoch := W_Epoch r;
     W_ActivationStartedAt := W_ActivationStartedAt r; W_LastHeartbeatAt := W_LastHeartbeatAt r;
     W_RetireReason := W_RetireReason r; W_S3ExpiresAt := Some t;
     W_CreatedAt := W_CreatedAt r; W_UpdatedAt := W_UpdatedAt r |}.
Definition set_updated (t : time) (r : WorkerRecord) : WorkerRecord :=
  {| W_ID := W_ID r; W_PodName := W_PodName r; W_PodUID := W_PodUID r; W_Image := W_Image r;
     W_State := W_State r; W_OrgID := W_OrgID r; W_Owner := W_Owner r; W_Epoch := W_Epoch r;
     W_ActivationStartedAt := W_ActivationStartedAt r; W_LastHeartbeatAt := W_LastHeartbeatAt r;
     W_RetireReason := W_RetireReason r; W_S3ExpiresAt := W_S3ExpiresAt r;
     W_CreatedAt := W_CreatedAt r; W_UpdatedAt := t |}.

Record db := {
  t_workers : gmap Z WorkerRecord;
  t_cps : gmap string ControlPlaneInstance;
  t_flights : gmap string FlightSessionRecord;
  t_queue : gmap string OrgConnectionQueueEntry;
  t_leases : gmap string OrgConnectionLease;
  t_misses : gmap (string * WorkerClaimMissReason * time) WarmCapacityMissBucket;
}.

Definition empty_db : db :=
  {| t_workers := ∅; t_cps := ∅; t_flights := ∅; t_queue := ∅; t_leases := ∅; t_misses := ∅ |}.

Definition with_workers (t : gmap Z WorkerRecord) (s : db) : db :=
  {| t_workers := t; t_cps := t_cps s; t_flights := t_flights s; t_queue := t_queue s;
     t_leases := t_leases s; t_misses := t_misses s |}.
Definition with_cps (t : gmap string ControlPlaneInstance) (s : db) : db :=
  {| t_workers := t_workers s; t_cps := t; t_flights := t_flights s; t_queue := t_queue s;
     t_leases := t_leases s; t_misses := t_misses s |}.
Definition with_flights (t : gmap string FlightSessionRecord) (s : db) : db :=
  {| t_workers := t_workers s; t_cps := t_cps s; t_flights := t; t_queue := t_queue s;
     t_leases := t_leases s; t_misses := t_misses s |}.
Definition with_queue (t : gmap string OrgConnectionQueueEntry) (s : db) : db :=
  {| t_workers := t_workers s; t_cps := t_cps s; t_flights := t_flights s; t_queue := t;
     t_leases := t_leases s; t_misses := t_misses s |}.
Definition with_leases (t : gmap string OrgConnectionLease) (s : db) : db :=
  {| t_workers := t_workers s; t_cps := t_cps s; t_flights := t_flights s; t_queue := t_queue s;
     t_leases := t; t_misses := t_misses s |}.
Definition with_misses
    (t : gmap (string * WorkerClaimMissReason * time) WarmCapacityMissBucket) (s : db) : db :=
  {| t_workers := t_workers s; t_cps := t_cps s; t_flights := t_flights s; t_queue := t_queue s;
     t_leases := t_leases s; t_misses := t |}.

(** * The database interface *)

(** What one execution of a statement sees besides the tables: the worker rows
    other sessions have locked, the next value of the worker_id sequence, the
    database clock, and the order in which an unordered scan meets the rows. *)
Record env := { env_locked : gset Z; env_nextval : Z; env_clock : time; env_rank : Z → Z }.

(** The meaning of a statement: [None] is an SQL error (a constraint, an
    overflow). *)
Definition stmt (A : Type) : Type := env → db → option (A * db).

Inductive store_error :=
  | ErrDB
  | ErrWorkerOwnerEpochMismatch
  | ErrWorkerRecordUpsertFenceMiss
  | ErrInvalid (what : string).

#[export] Instance store_error_eq_dec : EqDecision store_error.
Proof. solve_decision. Defined.

(** Store code: it runs in a world [D] and returns a value or an error. *)
Definition M (D A : Type) : Type := D → (A + store_error) * D.

#[export] Instance M_ret D : MRet (M D) := λ A a d, (inl a, d).
#[export] Instance M_bind D : MBind (M D) := λ A B k m d,
  match m d with
  | (inl a, d') => k a d'
  | (inr e, d') => (inr e, d')
  end.
Definition fail {D A} (e : store_error) : M D A := λ d, (inr e, d).
(** Run [m] and hand its error to the program. *)
Definition catch {D A} (m : M D A) : M D (A + store_error) := λ d,
  let '(r, d') := m d in (inl r, d').

Class World (D : Type) := {
  tables : D → db;
  exec : ∀ {A : Type}, stmt A → M D A;
  time_Now : M D time;
  Transaction : ∀ {A : Type}, M D A → M D A;
}.

Class WorldLaws (D : Type) `{World D} := {
  exec_ok : ∀ A (f : stmt A) d a d',
    exec f d = (inl a, d') → ∃ e, f e (tables d) = Some (a, tables d');
  exec_err : ∀ A (f : stmt A) d err d',
    exec f d = (inr err, d') →
    err = ErrDB ∧ (tables d' = tables d ∨ ∃ e a, f e (tables d) = Some (a, tables d'));
  time_Now_spec : ∀ d, ∃ t d', time_Now d = (inl t, d') ∧ tables d' = tables d;
  Transaction_ok : ∀ A (m : M D A) d a d',
    Transaction m d = (inl a, d') →
    ∃ d1 d2, tables d1 = tables d ∧ m d1 = (inl a, d2) ∧ tables d' = tables d2;
  Transaction_err : ∀ A (m : M D A) d err d',
    Transaction m d = (inr err, d') →
    (tables d' = tables d ∧
       (err = ErrDB ∨ ∃ d1 d2, tables d1 = tables d ∧ m d1 = (inr err, d2)))
    ∨ (err = ErrDB ∧
       ∃ d1 a d2, tables d1 = tables d ∧ m d1 = (inl a, d2) ∧ tables d' = tables d2);
}.

(** * Statements *)

Definition SELECT {A} (f : env → db → A) : stmt A := λ e s, Some (f e s, s).

(** [UPDATE worker_records SET g WHERE P], returning the rows affected. [g] is
    partial: an assignment that overflows its column fails the statement. *)
Definition UPDATE_workers (P : db → WorkerRecord → bool) (g : WorkerRecord → option WorkerRecord)
    : stmt Z := λ _ s,
  let hit := filter (λ kv : Z * WorkerRecord, P s kv.2 = true) (t_workers s) in
  if bool_decide (map_Forall (λ _ r, is_Some (g r)) hit)
  then Some (Z.of_nat (size hit),
             with_workers ((λ r, if P s r then default r (g r) else r) <$> t_workers s) s)
  else None.

(** [owner_epoch + 1] in a bigint column. *)
Definition epoch_plus_1 (r : WorkerRecord) : option WorkerRecord :=
  if bool_decide (W_Epoch r + 1 < 2 ^ 63) then Some (set_epoch (W_Epoch r + 1) r) else None.

Definition worker_id_le (a b : WorkerRecord) : Prop := W_ID a ≤ W_ID b.
#[export] Instance worker_id_le_dec : RelDecision worker_id_le.
Proof. intros a b. unfold worker_id_le. apply _. Defined.

(** [SELECT * FROM worker_records WHERE P ORDER BY worker_id ASC] *)
Definition workers_where (P : WorkerRecord → bool) (s : db) : list WorkerRecord :=
  merge_sort worker_id_le
    ((map_to_list (filter (λ kv : Z * WorkerRecord, P kv.2 = true) (t_workers s))).*2).

(** The same without [ORDER BY]. *)
Definition rank_le (e : env) (a b : WorkerRecord) : Prop :=
  env_rank e (W_ID a) ≤ env_rank e (W_ID b).
#[export] Instance rank_le_dec e : RelDecision (rank_le e).
Proof. intros a b. unfold rank_le. apply _. Defined.
Definition workers_scan (P : WorkerRecord → bool) (e : env) (s : db) : list WorkerRecord :=
  merge_sort (rank_le e)
    ((map_to_list (filter (λ kv : Z * WorkerRecord, P kv.2 = true) (t_workers s))).*2).

(** [SELECT count( * ) FROM worker_records WHERE P] *)
Definition count_workers (P : WorkerRecord → bool) (s : db) : Z :=
  Z.of_nat (size (filter (λ kv : Z * WorkerRecord, P kv.2 = true) (t_workers s))).

(** No other row has the pod name: the unique index on pod_name. *)
Definition pod_name_free (id : Z) (pod : string) (t : gmap Z WorkerRecord) : bool :=
  bool_decide (map_Forall (λ k r, k ≠ id → W_PodName r ≠ pod) t).

(** The value an insert gives an autoincrement key and the timestamps the query
    builder fills in when they are zero. *)
Definition fill_insert (nextval now : Z) (r : WorkerRecord) : WorkerRecord :=
  {| W_ID := if bool_decide (W_ID r = 0) then nextval else W_ID r;
     W_PodName := W_PodName r; W_PodUID := W_PodUID r; W_Image := W_Image r;
     W_State := W_State r; W_OrgID := W_OrgID r; W_Owner := W_Owner r; W_Epoch := W_Epoch r;
     W_ActivationStartedAt := W_ActivationStartedAt r; W_LastHeartbeatAt := W_LastHeartbeatAt r;
     W_RetireReason := W_RetireReason r; W_S3ExpiresAt := W_S3ExpiresAt r;
     W_CreatedAt := if IsZero (W_CreatedAt r) then now else W_CreatedAt r;
     W_UpdatedAt := if IsZero (W_UpdatedAt r) then now else W_UpdatedAt r |}.

(** [INSERT INTO worker_records], returning the row as inserted. *)
Definition INSERT_worker (now : time) (record : WorkerRecord) : stmt WorkerRecord := λ e s,
  let r := fill_insert (env_nextval e) now record in
  if bool_decide (t_workers s !! W_ID r = None) && pod_name_free (W_ID r) (W_PodName r) (t_workers s)
  then Some (r, with_workers (<[ W_ID r := r ]> (t_workers s)) s)
  else None.

(** [UPDATE ... WHERE P] and [DELETE ... WHERE P] on the other tables. *)
Definition map_where {K A} `{Countable K} (P : A → bool) (g : A → A) (t : gmap K A) : gmap K A :=
  (λ r, if P r then g r else r) <$> t.
Definition delete_where {K A} `{Countable K} (P : A → bool) (t : gmap K A) : gmap K A :=
  filter (λ kv : K * A, P kv.2 = false) t.
Definition count_where {K A} `{Countable K} (P : A → bool) (t : gmap K A) : Z :=
  Z.of_nat (size (filter (λ kv : K * A, P kv.2 = true) t)).

(** * Reasoning about store code *)

Section reasoning.
Context {D : Type} `{WorldLaws D}.

(** [wp m s Q]: run from tables [s], in whatever world, [m] ends with a result
    and tables that satisfy [Q]. *)
Definition wp {A} (m : M D A) (s : db) (Q : A + store_error → db → Prop) : Prop :=
  ∀ d r d', tables d = s → m d = (r, d') → Q r (tables d').

Lemma wp_ret {A} (a : A) s (Q : A + store_error → db → Prop) : Q (inl a) s → wp (mret a) s Q.
Proof. intros HQ d r d' <- Heq. unfold mret, M_ret in Heq. by simplify_eq. Qed.

Lemma wp_fail {A} e s (Q : A + store_error → db → Prop) : Q (inr e) s → wp (fail e) s Q.
Proof. intros HQ d r d' <- Heq. unfold fail in Heq. by simplify_eq. Qed.

Lemma wp_bind {A B} (m : M D A) (k : A → M D B) s Q :
  wp m s (λ r s', match r with inl a => wp (k a) s' Q | inr e => Q (inr e) s' end) →
  wp (m ≫= k) s Q.
Proof.
  intros Hm d r d' Hs Heq. unfold mbind, M_bind in Heq.
  destruct (m d) as [[a|e] d1] eqn:E; specialize (Hm _ _ _ Hs E); simpl in Hm.
  - by eapply Hm.
  - by simplify_eq.
Qed.

Lemma wp_mono {A} (m : M D A) s (Q Q' : A + store_error → db → Prop) :
  wp m s Q → (∀ r s', Q r s' → Q' r s') → wp m s Q'.
Proof. intros Hm HQ d r d' Hs Heq. by eapply HQ, Hm. Qed.

Lemma wp_and {A} (m : M D A) s (Q Q' : A + store_error → db → Prop) :
  wp m s Q → wp m s Q' → wp m s (λ r s', Q r s' ∧ Q' r s').
Proof. intros H1 H2 d r d' Hs Heq. split; [by eapply H1|by eapply H2]. Qed.

Lemma wp_exec {A} (f : stmt A) s (Q : A + store_error → db → Prop) :
  Q (inr ErrDB) s →
  (∀ e a s', f e s = Some (a, s') → Q (inl a) s' ∧ Q (inr ErrDB) s') →
  wp (exec f) s Q.
Proof.
  intros Hs Hf d [a|err] d' <- Heq.
  - apply exec_ok in Heq as [e He]. by eapply Hf.
  - apply exec_err in Heq as [-> [->|(e & a & He)]]; [done|by eapply Hf].
Qed.

Lemma wp_select {A} (f : env → db → A) s (Q : A + store_error → db → Prop) :
  Q (inr ErrDB) s → (∀ e, Q (inl (f e s)) s) → wp (exec (SELECT f)) s Q.
Proof. intros Herr HQ. apply wp_exec; [done|]. unfold SELECT. intros. by simplify_eq. Qed.

Lemma wp_now s (Q : time + store_error → db → Prop) : (∀ t, Q (inl t) s) → wp time_Now s Q.
Proof.
  intros HQ d r d' <- Heq. destruct (time_Now_spec d) as (t & d1 & H1 & H2).
  rewrite Heq in H1. simplify_eq. by rewrite H2.
Qed.

Lemma wp_Transaction {A} (m : M D A) s (Q : A + store_error → db → Prop) :
  Q (inr ErrDB) s →
  wp m s (λ r s', match r with
                  | inl a => Q (inl a) s' ∧ Q (inr ErrDB) s'
                  | inr e => Q (inr e) s
                  end) →
  wp (Transaction m) s Q.
Proof.
  intros Herr Hm d [a|err] d' Hs Heq; subst s.
  - apply Transaction_ok in Heq as (d1 & d2 & Hd & Hrun & ->).
    by apply (Hm _ _ _ Hd) in Hrun as [? _].
  - apply Transaction_err in Heq
      as [[-> [->|(d1 & d2 & Hd & Hrun)]]|(-> & d1 & a & d2 & Hd & Hrun & ->)]; [done| |].
    + by apply (Hm _ _ _ Hd) in Hrun.
    + by apply (Hm _ _ _ Hd) in Hrun as [_ ?].
Qed.

Lemma wp_catch {A} (m : M D A) s (Q : (A + store_error) + store_error → db → Prop) :
  wp m s (λ r s', Q (inl r) s') → wp (catch m) s Q.
Proof.
  intros Hm d r d' Hs Heq. unfold catch in Heq. destruct (m d) as [r0 d0] eqn:E.
  injection Heq as <- <-. by eapply Hm.
Qed.
End reasoning.

(** Walks through store code; what is left are the statements that change
    tables and the obligations of the results. *)
Ltac wp_step :=
  first
    [ apply wp_bind
    | apply wp_ret
    | apply wp_fail
    | apply wp_now; intros ?
    | apply wp_select; [|intros ?]
    | apply wp_Transaction
    | match goal with
      | |- wp (match ?x with _ => _ end) _ _ => destruct x eqn:?
      | |- wp (if ?x then _ else _) _ _ => destruct x eqn:?
      end ]; cbn beta iota.
Ltac wp_go := repeat wp_step.

(** * A database in memory *)

(** Tables, the outcome of the coming statements and transaction boundaries, the
    rows other sessions hold, the sequence and the clock. *)
Inductive fault := NoFault | FailBefore | FailAfter.

Record mem := {
  m_db : db;
  m_faults : list fault;
  m_locked : gset Z;
  m_seq : Z;
  m_clock : time;
}.

Definition next_fault (d : mem) : fault * mem :=
  match m_faults d with
  | [] => (NoFault, d)
  | f :: fs => (f, {| m_db := m_db d; m_faults := fs; m_locked := m_locked d;
                      m_seq := m_seq d; m_clock := m_clock d |})
  end.

Definition mem_set_db (s : db) (d : mem) : mem :=
  {| m_db := s; m_faults := m_faults d; m_locked := m_locked d;
     m_seq := m_seq d; m_clock := m_clock d |}.

Definition mem_env (d : mem) : env :=
  {| env_locked := m_locked d; env_nextval := m_seq d; env_clock := m_clock d; env_rank := id |}.

Definition mem_exec {A} (f : stmt A) (d : mem) : (A + store_error) * mem :=
  let '(flt, d1) := next_fault d in
  match flt, f (mem_env d) (m_db d) with
  | FailBefore, _ => (inr ErrDB, d1)
  | _, None => (inr ErrDB, d1)
  | FailAfter, Some (_, s) => (inr ErrDB, mem_set_db s d1)
  | NoFault, Some (a, s) => (inl a, mem_set_db s d1)
  end.

Definition mem_transaction {A} (m : M mem A) (d : mem) : (A + store_error) * mem :=
  let '(flt, d1) := next_fault d in
  match flt with
  | NoFault =>
      match m d1 with
      | (inr e, d2) => (inr e, mem_set_db (m_db d) d2)
      | (inl a, d2) =>
          let '(flt', d3) := next_fault d2 in
          match flt' with
          | NoFault => (inl a, d3)
          | FailBefore => (inr ErrDB, mem_set_db (m_db d) d3)
          | FailAfter => (inr ErrDB, d3)
          end
      end
  | _ => (inr ErrDB, d1)
  end.

#[export] Instance mem_world : World mem := {
  tables := m_db;
  exec A := mem_exec;
  time_Now := λ d, (inl (m_clock d), d);
  Transaction A := mem_transaction;
}.

Lemma next_fault_db d : m_db (next_fault d).2 = m_db d.
Proof. unfold next_fault. by destruct (m_faults d). Qed.

#[export] Instance mem_laws : WorldLaws mem.
Proof.
  split; simpl.
  - intros A f d a d'. unfold mem_exec. pose proof (next_fault_db d) as Hd.
    destruct (next_fault d) as [flt d1]. simpl in Hd.
    destruct flt, (f (mem_env d) (m_db d)) as [[a0 s]|] eqn:E; intros Heq; simplify_eq. eauto.
  - intros A f d err d'. unfold mem_exec. pose proof (next_fault_db d) as Hd.
    destruct (next_fault d) as [flt d1]. simpl in Hd.
    destruct flt, (f (mem_env d) (m_db d)) as [[a0 s]|] eqn:E; intros Heq; simplify_eq; eauto 10.
  - intros d. eauto.
  - intros A m d a d'. unfold mem_transaction. pose proof (next_fault_db d) as Hd.
    destruct (next_fault d) as [flt d1]. simpl in Hd.
    destruct flt; [|done..]. destruct (m d1) as [[a0|e] d2] eqn:E; [|done].
    pose proof (next_fault_db d2) as Hd2. destruct (next_fault d2) as [flt' d3]. simpl in Hd2.
    destruct flt'; intros Heq; simplify_eq. eauto 10.
  - intros A m d err d'. unfold mem_transaction. pose proof (next_fault_db d) as Hd.
    destruct (next_fault d) as [flt d1]. simpl in Hd.
    destruct flt; [|intros Heq; simplify_eq; eauto..].
    destruct (m d1) as [[a0|e] d2] eqn:E; [|intros Heq; simplify_eq; simpl; eauto 10].
    pose proof (next_fault_db d2) as Hd2. destruct (next_fault d2) as [flt' d3]. simpl in Hd2.
    destruct flt'; intros Heq; simplify_eq; simpl; eauto 10.
Qed.

(** * Total correctness without faults *)

(** [twp T m s Q]: in memory, without faults and with the clock at [T], [m]
    returns a value, and [Q] holds of it and of the tables. *)
Definition twp {A} (T : time) (m : M mem A) (s : db) (Q : A → db → Prop) : Prop :=
  ∀ d, m_db d = s → m_faults d = [] → m_clock d = T →
  ∃ a d', m d = (inl a, d') ∧ m_faults d' = [] ∧ m_clock d' = T ∧ Q a (m_db d').

Lemma twp_ret {A} T (a : A) s (Q : A → db → Prop) : Q a s → twp T (mret a) s Q.
Proof. intros HQ d <- Hf Hc. by exists a, d. Qed.

Lemma twp_bind {A B} T (m : M mem A) (k : A → M mem B) s Q :
  twp T m s (λ a s', twp T (k a) s' Q) → twp T (m ≫= k) s Q.
Proof.
  intros Hm d Hs Hf Hc. destruct (Hm d Hs Hf Hc) as (a & d1 & Hrun & Hf1 & Hc1 & Hk).
  destruct (Hk d1 eq_refl Hf1 Hc1) as (b & d2 & Hrun2 & ? & ? & ?).
  exists b, d2. unfold mbind, M_bind. rewrite Hrun. auto.
Qed.

Lemma twp_mono {A} T (m : M mem A) s (Q Q' : A → db → Prop) :
  twp T m s Q → (∀ a s', Q a s' → Q' a s') → twp T m s Q'.
Proof.
  intros Hm HQ d Hs Hf Hc. destruct (Hm d Hs Hf Hc) as (a & d1 & ? & ? & ? & ?). exists a, d1. eauto 10.
Qed.

Lemma twp_now T s (Q : time → db → Prop) : Q T s → twp T time_Now s Q.
Proof. intros HQ d <- Hf <-. by exists (m_clock d), d. Qed.

Lemma twp_exec {A} T (f : stmt A) s (Q : A → db → Prop) :
  (∀ e, env_clock e = T → ∃ a s', f e s = Some (a, s') ∧ Q a s') → twp T (exec f) s Q.
Proof.
  intros HQ d Hs Hf Hc. destruct (HQ (mem_env d) Hc) as (a & s' & Hs' & HQ').
  exists a, (mem_set_db s' d). simpl. unfold mem_exec, next_fault. rewrite Hf, Hs, Hs'. done.
Qed.

Lemma twp_select {A} T (f : env → db → A) s (Q : A → db → Prop) :
  (∀ e, env_clock e = T → Q (f e s) s) → twp T (exec (SELECT f)) s Q.
Proof. intros HQ. apply twp_exec. intros e He. eexists _, _. split; [done|]. by apply HQ. Qed.

Lemma twp_catch {A} T (m : M mem A) s (Q : A + store_error → db → Prop) :
  twp T m s (λ a s', Q (inl a) s') → twp T (catch m) s Q.
Proof.
  intros Hm d Hs Hf Hc. destruct (Hm d Hs Hf Hc) as (a & d1 & Hrun & ? & ? & ?).
  exists (inl a), d1. unfold catch. rewrite Hrun. auto.
Qed.

(** What holds of every run ([wp]) holds of the fault-free one. *)
Lemma twp_wp {A} T (m : M mem A) s (Q : A → db → Prop) (R : A + store_error → db → Prop) :
  twp T m s Q → wp m s R → twp T m s (λ a s', Q a s' ∧ R (inl a) s').
Proof.
  intros Hm Hw d Hs Hf Hc. destruct (Hm d Hs Hf Hc) as (a & d1 & Hrun & ? & ? & ?).
  exists a, d1. split; [done|]. split; [done|]. split; [done|]. split; [done|].
  by apply (Hw d (inl a) d1 Hs).
Qed.
