(* ===== verification/RuntimeStore.v ===== *)
(** The runtime store (src/controlplane/configstore/store.go, lines 782-1954, and
    lifecycle_store.go): the durable records of workers, control-plane instances,
    Flight sessions and warm-capacity misses, and every operation on them.

    Each operation runs in an arbitrary [World]; [Transaction] marks the ones the
    code wraps in a database transaction. An operation is one atomic step: the
    single-statement ones are by SQL, the transactions because they lock the row
    they change or hold the advisory lock their capacity check needs. *)

From Stdlib Require Import Strings.Byte.
From stdpp Require Import prelude gmap strings list fin_maps sorting.
From Stdlib Require Import ZArith Lia.
From S2P Require Import Prelude RuntimeDB.

Open Scope Z_scope.

(** * State sets *)

Definition workerActiveStates : list WorkerState :=
  [Spawning; Idle; Reserved; Activating; Hot; HotIdle; Draining].
Definition workerLostEligibleStates : list WorkerState :=
  [Spawning; Idle; Reserved; Activating; Hot; HotIdle].
Definition workerTerminalEligibleStates (targetState : WorkerState) : list WorkerState :=
  if bool_decide (targetState = Lost) then workerLostEligibleStates else workerActiveStates.
Definition drainableStates : list WorkerState := [Spawning; Idle; Reserved; Activating; Hot; HotIdle].
Definition protectedStates : list WorkerState := [Draining; Retired; Lost].
Definition credEligibleStates : list WorkerState := [Idle; Hot; HotIdle].

Definition state_in (ss : list WorkerState) (r : WorkerRecord) : bool := bool_decide (W_State r ∈ ss).
Definition id_is (id : Z) (r : WorkerRecord) : bool := bool_decide (W_ID r = id).
Definition owned_by (owner : string) (r : WorkerRecord) : bool := bool_decide (W_Owner r = Some owner).
Definition epoch_is (e : Z) (r : WorkerRecord) : bool := bool_decide (W_Epoch r = e).

(** [worker_id = ? AND owner_cp_instance_id = ? AND owner_epoch = ?] *)
Definition lease_is (id : Z) (owner : string) (e : Z) (r : WorkerRecord) : bool :=
  id_is id r && owned_by owner r && epoch_is e r.

(** The conditions of a compare-and-set against an observed row. The observed
    owner is the scanned string; an empty one also matches NULL, and a zero
    [UpdatedAt] drops the timestamp condition. *)
Definition observed_is (record : WorkerRecord) (r : WorkerRecord) : bool :=
  id_is (W_ID record) r && bool_decide (W_State r = W_State record) && epoch_is (W_Epoch record) r
  && (owned_by (go_owner record) r
      || (bool_decide (go_owner record = ""%string) && bool_decide (W_Owner r = None)))
  && (IsZero (W_UpdatedAt record) || bool_decide (W_UpdatedAt r ≤ W_UpdatedAt record)).

(** A control-plane row with this id exists and is not expired. *)
Definition cp_live (s : db) (id : string) : bool :=
  match t_cps s !! id with
  | Some cp => negb (bool_decide (CP_State cp = CPExpired))
  | None => false
  end.

(** Row of an optional owner in the LEFT JOIN with cp_instances. *)
Definition owner_cp (s : db) (r : WorkerRecord) : option ControlPlaneInstance :=
  W_Owner r ≫= λ o, t_cps s !! o.

(** 64-bit FNV-1a. *)
Definition fnv64a (bs : list byte) : Z :=
  foldl (λ h b, wrap_u 64 (Z.lxor h (byte_val b) * 1099511628211)) 14695981039346656037 bs.
Definition advisoryLockKey (s : string) : Z := Z.land (fnv64a (bytes s)) 0x7fffffffffffffff.

(** [SELECT pg_advisory_xact_lock(key)]: no effect on the tables. *)
Definition advisory_xact_lock (key : Z) : stmt unit := SELECT (λ _ _, ()).

Section store.
Context {D : Type} `{World D}.

(** * Control-plane instances *)

Definition UpsertControlPlaneInstance (instance : ControlPlaneInstance) : M D unit :=
  now ← time_Now;
  exec (λ _ s,
    let created := if IsZero (CP_CreatedAt instance) then now else CP_CreatedAt instance in
    let updated := if IsZero (CP_UpdatedAt instance) then now else CP_UpdatedAt instance in
    let row := {| CP_ID := CP_ID instance; CP_PodName := CP_PodName instance;
                  CP_PodUID := CP_PodUID instance; CP_BootID := CP_BootID instance;
                  CP_State := CP_State instance; CP_StartedAt := CP_StartedAt instance;
                  CP_LastHeartbeatAt := CP_LastHeartbeatAt instance;
                  CP_DrainingAt := CP_DrainingAt instance; CP_ExpiredAt := CP_ExpiredAt instance;
                  CP_CreatedAt := match t_cps s !! CP_ID instance with
                                  | Some old => CP_CreatedAt old
                                  | None => created
                                  end;
                  CP_UpdatedAt := updated |} in
    Some ((), with_cps (<[ CP_ID instance := row ]> (t_cps s)) s)).

Definition GetControlPlaneInstance (id : string) : M D ControlPlaneInstance :=
  row ← exec (SELECT (λ _ s, t_cps s !! id));
  match row with Some cp => mret cp | None => fail ErrDB end.

(** The ids of the instances that are not expired, in the order of the scan. *)
Definition ListLiveControlPlaneInstanceIDs : M D (list string) :=
  exec (SELECT (λ _ s, (map_to_list (filter
    (λ kv : string * ControlPlaneInstance, CP_State kv.2 ≠ CPExpired) (t_cps s))).*1)).

Definition cp_expire (now : time) (cp : ControlPlaneInstance) : ControlPlaneInstance :=
  {| CP_ID := CP_ID cp; CP_PodName := CP_PodName cp; CP_PodUID := CP_PodUID cp;
     CP_BootID := CP_BootID cp; CP_State := CPExpired; CP_StartedAt := CP_StartedAt cp;
     CP_LastHeartbeatAt := CP_LastHeartbeatAt cp; CP_DrainingAt := CP_DrainingAt cp;
     CP_ExpiredAt := Some now; CP_CreatedAt := CP_CreatedAt cp; CP_UpdatedAt := now |}.

Definition UPDATE_cps (P : ControlPlaneInstance → bool)
    (g : ControlPlaneInstance → ControlPlaneInstance) : stmt Z := λ _ s,
  Some (count_where P (t_cps s), with_cps (map_where P g (t_cps s)) s).

Definition ExpireControlPlaneInstances (cutoff : time) : M D Z :=
  now ← time_Now;
  exec (UPDATE_cps
    (λ cp, negb (bool_decide (CP_State cp = CPExpired)) && bool_decide (CP_LastHeartbeatAt cp < cutoff))
    (cp_expire now)).

Definition ExpireDrainingControlPlaneInstances (before : time) : M D Z :=
  now ← time_Now;
  exec (UPDATE_cps
    (λ cp, bool_decide (CP_State cp = CPDraining)
           && match CP_DrainingAt cp with Some t => bool_decide (t ≤ before) | None => false end)
    (cp_expire now)).

(** * Worker records *)

(** The row [ON CONFLICT (worker_id) DO UPDATE] leaves: pod_uid and created_at
    are not in its column list. *)
Definition upsert_row (old new : WorkerRecord) : WorkerRecord :=
  {| W_ID := W_ID old; W_PodName := W_PodName new; W_PodUID := W_PodUID old;
     W_Image := W_Image new; W_State := W_State new; W_OrgID := W_OrgID new;
     W_Owner := W_Owner new; W_Epoch := W_Epoch new;
     W_ActivationStartedAt := W_ActivationStartedAt new;
     W_LastHeartbeatAt := W_LastHeartbeatAt new; W_RetireReason := W_RetireReason new;
     W_S3ExpiresAt := W_S3ExpiresAt new; W_CreatedAt := W_CreatedAt old;
     W_UpdatedAt := W_UpdatedAt new |}.

(** The fence of the upsert: the row is not protected and the writer's epoch is
    newer, or the same under the same owner. *)
Definition upsert_fence (old new : WorkerRecord) : bool :=
  negb (state_in protectedStates old)
  && (bool_decide (W_Epoch old < W_Epoch new)
      || (bool_decide (W_Epoch new = W_Epoch old)
          && match W_Owner old with
             | Some o => bool_decide (W_Owner new = Some o)
             | None => false
             end)).

Definition UPSERT_worker (now : time) (record : WorkerRecord) : stmt Z := λ e s,
  let r := fill_insert (env_nextval e) now record in
  match t_workers s !! W_ID r with
  | None =>
      if pod_name_free (W_ID r) (W_PodName r) (t_workers s)
      then Some (1, with_workers (<[ W_ID r := r ]> (t_workers s)) s) else None
  | Some old =>
      if upsert_fence old r then
        if pod_name_free (W_ID r) (W_PodName r) (t_workers s)
        then Some (1, with_workers (<[ W_ID r := upsert_row old r ]> (t_workers s)) s) else None
      else Some (0, s)
  end.

(** The Go record carries a string owner, never NULL. *)
Definition go_record (record : WorkerRecord) : WorkerRecord := set_owner (go_owner record) record.

Definition UpsertWorkerRecord (record : WorkerRecord) : M D unit :=
  now ← time_Now;
  n ← exec (UPSERT_worker now (go_record record));
  if bool_decide (n = 0) then fail ErrWorkerRecordUpsertFenceMiss else mret ().

Definition ListWorkerRecordsByStatesBefore (states : list WorkerState) (updatedBefore : time)
    : M D (list WorkerRecord) :=
  match states with
  | [] => mret []
  | _ => exec (SELECT (λ _, workers_where
           (λ r, state_in states r && bool_decide (W_UpdatedAt r ≤ updatedBefore))))
  end.

Definition GetWorkerRecord (workerID : Z) : M D (option WorkerRecord) :=
  exec (SELECT (λ _ s, t_workers s !! workerID)).

Definition countActiveWorkers (P : WorkerRecord → bool) : M D Z :=
  exec (SELECT (λ _, count_workers (λ r, state_in workerActiveStates r && P r))).

(** [... FOR UPDATE SKIP LOCKED ORDER BY worker_id LIMIT 1] *)
Definition take_skip_locked (P : WorkerRecord → bool) : stmt (option WorkerRecord) :=
  SELECT (λ e s, head (filter (λ r, W_ID r ∉ env_locked e) (workers_where P s))).

(** [First(&current, "worker_id = ?", id)]: an error when there is no row. *)
Definition first_worker (id : Z) : M D WorkerRecord :=
  row ← exec (SELECT (λ _ s, t_workers s !! id));
  match row with Some r => mret r | None => fail ErrDB end.

Definition org_lock (orgID : string) : M D unit :=
  if bool_decide (orgID = ""%string) then mret ()
  else exec (advisory_xact_lock (advisoryLockKey ("duckgres:org:" +:+ orgID))).

(** Whether a positive cap is reached by the workers satisfying [P]. *)
Definition cap_reached (cap : Z) (P : WorkerRecord → bool) : M D bool :=
  if bool_decide (0 < cap) then
    count ← countActiveWorkers P; mret (bool_decide (cap ≤ count))
  else mret false.

Definition org_cap_reached (cap : Z) (orgID : string) (P : WorkerRecord → bool) : M D bool :=
  if bool_decide (orgID = ""%string) then mret false
  else cap_reached cap (λ r, bool_decide (W_OrgID r = orgID) && P r).

Definition ClaimIdleWorker (ownerCPInstanceID orgID image : string)
    (maxOrgWorkers maxGlobalWorkers : Z) : M D (option WorkerRecord * WorkerClaimMissReason) :=
  Transaction (
    org_lock orgID;;
    full ← org_cap_reached maxOrgWorkers orgID (λ _, true);
    if (full : bool) then mret (None, OrgCap) else
    current ← exec (take_skip_locked (λ r,
      state_in [Idle] r && (bool_decide (image = ""%string) || bool_decide (W_Image r = image))));
    match current with
    | None =>
        full ← cap_reached maxGlobalWorkers (λ _, true);
        mret (None, if (full : bool) then GlobalCap else NoIdle)
    | Some current =>
        now ← time_Now;
        exec (UPDATE_workers (λ _, id_is (W_ID current)) (λ r,
          epoch_plus_1 (set_updated now (set_owner ownerCPInstanceID
            (set_org orgID (set_state Reserved r))))));;
        claimed ← first_worker (W_ID current);
        mret (Some claimed, MissNone)
    end).

Definition ClaimHotIdleWorker (ownerCPInstanceID orgID : string) (maxOrgWorkers : Z)
    : M D (option WorkerRecord * WorkerClaimMissReason) :=
  Transaction (
    org_lock orgID;;
    full ← org_cap_reached maxOrgWorkers orgID (λ r, negb (state_in [HotIdle] r));
    if (full : bool) then mret (None, OrgCap) else
    current ← exec (take_skip_locked (λ r,
      state_in [HotIdle] r && bool_decide (W_OrgID r = orgID)));
    match current with
    | None => mret (None, NoIdle)
    | Some current =>
        now ← time_Now;
        exec (UPDATE_workers (λ _, id_is (W_ID current)) (λ r,
          epoch_plus_1 (set_updated now (set_owner ownerCPInstanceID (set_state Reserved r)))));;
        claimed ← first_worker (W_ID current);
        mret (Some claimed, MissNone)
    end).

Definition ListExpiredHotIdleWorkers (before : time) : M D (list WorkerRecord) :=
  exec (SELECT (workers_scan
    (λ r, state_in [HotIdle] r && bool_decide (W_UpdatedAt r ≤ before)))).

Definition MarkWorkerTerminalIfCurrent (record : option WorkerRecord) (targetState : WorkerState)
    (reason : string) : M D bool :=
  match record with
  | None => mret false
  | Some record =>
      if bool_decide (targetState ≠ Retired ∧ targetState ≠ Lost)
      then fail (ErrInvalid "unsupported terminal state") else
      now ← time_Now;
      n ← exec (UPDATE_workers
        (λ _ r, observed_is record r && state_in (workerTerminalEligibleStates targetState) r)
        (λ r, Some (set_updated now (set_reason reason (set_state targetState r)))));
      mret (bool_decide (0 < n))
  end.

Definition RetireHotIdleWorker (record : option WorkerRecord) : M D bool :=
  match record with
  | None => mret false
  | Some r => if bool_decide (W_State r ≠ HotIdle) then mret false
              else MarkWorkerTerminalIfCurrent (Some r) Retired "hot_idle_ttl_expired"
  end.

Definition RetireOrphanWorker (record : option WorkerRecord) (reason : string) : M D bool :=
  match record with
  | None => mret false
  | Some record =>
      now ← time_Now;
      n ← exec (UPDATE_workers
        (λ s r, observed_is record r && state_in (workerTerminalEligibleStates Retired) r
                && (bool_decide (go_owner record = ""%string) || negb (cp_live s (go_owner record))))
        (λ r, Some (set_updated now (set_reason reason (set_state Retired r)))));
      mret (bool_decide (0 < n))
  end.

(** [ORDER BY s3_credentials_expires_at ASC NULLS FIRST, worker_id ASC] *)
Definition s3_le (a b : WorkerRecord) : Prop :=
  match W_S3ExpiresAt a, W_S3ExpiresAt b with
  | None, None => W_ID a ≤ W_ID b
  | None, Some _ => True
  | Some _, None => False
  | Some x, Some y => x < y ∨ (x = y ∧ W_ID a ≤ W_ID b)
  end.
#[local] Instance s3_le_dec : RelDecision s3_le.
Proof. intros a b. unfold s3_le. destruct (W_S3ExpiresAt a), (W_S3ExpiresAt b); apply _. Defined.

Definition ListWorkersDueForCredentialRefresh (ownerCPInstanceID : string) (cutoff : time)
    : M D (list WorkerRecord) :=
  exec (SELECT (λ _ s, merge_sort s3_le (workers_where
    (λ r, owned_by ownerCPInstanceID r && state_in credEligibleStates r
          && negb (bool_decide (W_OrgID r = ""%string))
          && match W_S3ExpiresAt r with None => true | Some t => bool_decide (t ≤ cutoff) end) s))).

Definition BumpWorkerEpoch (workerID : Z) (ownerCPInstanceID : string) (expectedOwnerEpoch : Z)
    : M D Z :=
  Transaction (
    now ← time_Now;
    n ← exec (UPDATE_workers (λ _, lease_is workerID ownerCPInstanceID expectedOwnerEpoch)
                (λ r, epoch_plus_1 (set_updated now r)));
    if bool_decide (n = 0) then fail ErrWorkerOwnerEpochMismatch else
    current ← first_worker workerID;
    mret (W_Epoch current)).

Definition MarkCredentialsRefreshed (workerID : Z) (ownerCPInstanceID : string)
    (expectedOwnerEpoch : Z) (expiresAt : time) : M D bool :=
  now ← time_Now;
  n ← exec (UPDATE_workers (λ _, lease_is workerID ownerCPInstanceID expectedOwnerEpoch)
              (λ r, Some (set_updated now (set_s3 expiresAt r))));
  mret (bool_decide (0 < n)).

Definition RetireIdleOrHotIdleWorker (record : option WorkerRecord) (reason : string) : M D bool :=
  match record with
  | None => mret false
  | Some r => if bool_decide (W_State r ≠ Idle ∧ W_State r ≠ HotIdle) then mret false
              else MarkWorkerTerminalIfCurrent (Some r) Retired reason
  end.

Definition MarkWorkerLostIfCurrentLease (workerID : Z) (ownerCPInstanceID : string)
    (expectedOwnerEpoch : Z) (reason : string) : M D bool :=
  now ← time_Now;
  n ← exec (UPDATE_workers
    (λ _ r, lease_is workerID ownerCPInstanceID expectedOwnerEpoch r && state_in workerLostEligibleStates r)
    (λ r, Some (set_updated now (set_reason reason (set_state Lost r)))));
  mret (bool_decide (0 < n)).

Definition MarkWorkerDraining (workerID : Z) (ownerCPInstanceID : string)
    (expectedOwnerEpoch : Z) : M D bool :=
  now ← time_Now;
  n ← exec (UPDATE_workers
    (λ _ r, lease_is workerID ownerCPInstanceID expectedOwnerEpoch r && state_in drainableStates r)
    (λ r, Some (set_updated now (set_state Draining r))));
  mret (bool_decide (0 < n)).

Definition RetireDrainingWorker (workerID : Z) (ownerCPInstanceID : string)
    (expectedOwnerEpoch : Z) (reason : string) : M D bool :=
  now ← time_Now;
  n ← exec (UPDATE_workers
    (λ _ r, lease_is workerID ownerCPInstanceID expectedOwnerEpoch r && state_in [Draining] r)
    (λ r, Some (set_updated now (set_reason reason (set_state Retired r)))));
  mret (bool_decide (0 < n)).

Definition TakeOverWorker (workerID : Z) (ownerCPInstanceID orgID : string)
    (expectedOwnerEpoch : Z) : M D (option WorkerRecord) :=
  Transaction (
    row ← exec (SELECT (λ _ s, t_workers s !! workerID));
    match row with
    | None => mret None
    | Some current =>
        if bool_decide (W_Epoch current ≠ expectedOwnerEpoch) then fail ErrWorkerOwnerEpochMismatch
        else if bool_decide (W_State current ≠ Hot) then mret None
        else
          now ← time_Now;
          n ← exec (UPDATE_workers (λ _, id_is (W_ID current)) (λ r,
            epoch_plus_1 (set_updated now (set_owner ownerCPInstanceID
              (set_org orgID (set_state Reserved r))))));
          if bool_decide (n = 0) then mret None else
          claimed ← first_worker (W_ID current);
          mret (Some claimed)
    end).

(** [SELECT COALESCE(MAX(worker_id), 0) + 1], an error past bigint. *)
Definition next_worker_id : stmt Z := λ _ s,
  let next := match map_to_list (t_workers s) with
              | [] => 0
              | kv :: l => foldr (λ x m, Z.max x.1 m) kv.1 l
              end + 1 in
  if bool_decide (next < 2 ^ 63) then Some (next, s) else None.

Definition spawning_record (workerID : Z) (podNamePrefix image orgID owner : string)
    (ownerEpoch now : Z) : WorkerRecord :=
  {| W_ID := workerID; W_PodName := podNamePrefix +:+ "-" +:+ fmt_d workerID; W_PodUID := "";
     W_Image := image; W_State := Spawning; W_OrgID := orgID; W_Owner := Some owner;
     W_Epoch := ownerEpoch; W_ActivationStartedAt := None; W_LastHeartbeatAt := now;
     W_RetireReason := ""; W_S3ExpiresAt := None; W_CreatedAt := 0; W_UpdatedAt := 0 |}.

(** The allocation the three slot constructors end with. *)
Definition create_slot (podNamePrefix image orgID owner : string) (ownerEpoch : Z)
    : M D (option WorkerRecord) :=
  workerID ← exec next_worker_id;
  now ← time_Now;
  now' ← time_Now;
  created ← exec (INSERT_worker now' (spawning_record workerID podNamePrefix image orgID owner ownerEpoch now));
  mret (Some created).

Definition CreateSpawningWorkerSlot (ownerCPInstanceID orgID image : string) (ownerEpoch : Z)
    (podNamePrefix : string) (maxOrgWorkers maxGlobalWorkers : Z) : M D (option WorkerRecord) :=
  if bool_decide (TrimSpace podNamePrefix = ""%string)
  then fail (ErrInvalid "pod name prefix is required") else
  Transaction (
    org_lock orgID;;
    exec (advisory_xact_lock (advisoryLockKey "duckgres:global-worker-capacity"));;
    orgFull ← org_cap_reached maxOrgWorkers orgID (λ _, true);
    if (orgFull : bool) then mret None else
    full ← cap_reached maxGlobalWorkers (λ _, true);
    if (full : bool) then mret None else
    create_slot podNamePrefix image orgID ownerCPInstanceID ownerEpoch).

Definition neutral_warm (r : WorkerRecord) : bool :=
  bool_decide (W_OrgID r = ""%string) && state_in [Idle; Spawning] r.

Definition countNeutralWarmWorkers : M D Z := exec (SELECT (λ _, count_workers neutral_warm)).
Definition countNeutralWarmWorkersForImage (image : string) : M D Z :=
  exec (SELECT (λ _, count_workers (λ r, neutral_warm r && bool_decide (W_Image r = image)))).

Definition CreateNeutralWarmWorkerSlotForImage (ownerCPInstanceID podNamePrefix image : string)
    (perImageTarget maxGlobalWorkers : Z) : M D (option WorkerRecord) :=
  if bool_decide (TrimSpace podNamePrefix = ""%string)
  then fail (ErrInvalid "pod name prefix is required") else
  if bool_decide (TrimSpace image = ""%string)
  then fail (ErrInvalid "image is required for per-image warm slot") else
  Transaction (
    exec (advisory_xact_lock (advisoryLockKey "duckgres:shared-warm-target"));;
    exec (advisory_xact_lock (advisoryLockKey "duckgres:global-worker-capacity"));;
    met ← (if bool_decide (0 < perImageTarget) then
             count ← countNeutralWarmWorkersForImage image; mret (bool_decide (perImageTarget ≤ count))
           else mret false);
    if (met : bool) then mret None else
    full ← cap_reached maxGlobalWorkers (λ _, true);
    if (full : bool) then mret None else
    create_slot podNamePrefix image "" ownerCPInstanceID 0).

Definition CreateNeutralWarmWorkerSlot (ownerCPInstanceID podNamePrefix image : string)
    (targetWarmWorkers maxGlobalWorkers : Z) : M D (option WorkerRecord) :=
  if bool_decide (TrimSpace podNamePrefix = ""%string)
  then fail (ErrInvalid "pod name prefix is required") else
  Transaction (
    exec (advisory_xact_lock (advisoryLockKey "duckgres:shared-warm-target"));;
    exec (advisory_xact_lock (advisoryLockKey "duckgres:global-worker-capacity"));;
    met ← (if bool_decide (0 < targetWarmWorkers) then
             count ← countNeutralWarmWorkers; mret (bool_decide (targetWarmWorkers ≤ count))
           else mret false);
    if (met : bool) then mret None else
    full ← cap_reached maxGlobalWorkers (λ _, true);
    if (full : bool) then mret None else
    create_slot podNamePrefix image "" ownerCPInstanceID 0).

(** * Lists for the janitor *)

(** A Flight session of the worker that a client may still reclaim. *)
Definition reclaimable_session (s : db) (workerID : Z) : bool :=
  bool_decide (map_Exists (λ _ f, F_WorkerID f = workerID ∧
    (F_State f = FSActive ∨ F_State f = FSReconnecting)) (t_flights s)).

Definition orphaned (before : time) (s : db) (r : WorkerRecord) : bool :=
  state_in workerActiveStates r
  && (match owner_cp s r with
      | Some cp => bool_decide (CP_State cp = CPExpired)
                   && match CP_ExpiredAt cp with Some t => bool_decide (t ≤ before) | None => false end
      | None => false
      end
      || (bool_decide (go_owner r = ""%string) && bool_decide (W_LastHeartbeatAt r ≤ before))
      || (bool_decide (owner_cp s r = None) && negb (bool_decide (go_owner r = ""%string))
          && bool_decide (W_LastHeartbeatAt r ≤ before)))
  && negb (reclaimable_session s (W_ID r)).

Definition ListOrphanedWorkers (before : time) : M D (list WorkerRecord) :=
  exec (SELECT (λ _ s, workers_where (orphaned before s) s)).

Definition stuck (spawningBefore activatingBefore : time) (s : db) (r : WorkerRecord) : bool :=
  ((state_in [Spawning] r && bool_decide (W_UpdatedAt r ≤ spawningBefore))
   || (state_in [Reserved; Activating] r && bool_decide (W_UpdatedAt r ≤ activatingBefore)))
  && match owner_cp s r with
     | None => true
     | Some cp => negb (bool_decide (CP_State cp = CPExpired))
     end.

Definition ListStuckWorkers (spawningBefore activatingBefore : time) : M D (list WorkerRecord) :=
  exec (SELECT (λ e s, workers_scan (stuck spawningBefore activatingBefore s) e s)).

(** * Flight sessions *)

Definition flight_set (st : FlightSessionState) (seen updated : time) (f : FlightSessionRecord)
    : FlightSessionRecord :=
  {| F_Token := F_Token f; F_Username := F_Username f; F_OrgID := F_OrgID f;
     F_WorkerID := F_WorkerID f; F_Epoch := F_Epoch f; F_CP := F_CP f; F_State := st;
     F_ExpiresAt := F_ExpiresAt f; F_LastSeenAt := seen; F_CreatedAt := F_CreatedAt f;
     F_UpdatedAt := updated |}.

Definition UPDATE_flights (P : FlightSessionRecord → bool)
    (g : FlightSessionRecord → FlightSessionRecord) : stmt Z := λ _ s,
  Some (count_where P (t_flights s), with_flights (map_where P g (t_flights s)) s).

Definition ExpireFlightSessionRecords (before : time) : M D Z :=
  now ← time_Now;
  exec (UPDATE_flights
    (λ f, negb (bool_decide (F_State f = FSExpired ∨ F_State f = FSClosed))
          && bool_decide (F_ExpiresAt f ≤ before))
    (λ f, flight_set FSExpired (F_LastSeenAt f) now f)).

Definition UpsertFlightSessionRecord (record : FlightSessionRecord) : M D unit :=
  now ← time_Now;
  exec (λ _ s,
    let created := if IsZero (F_CreatedAt record) then now else F_CreatedAt record in
    let updated := if IsZero (F_UpdatedAt record) then now else F_UpdatedAt record in
    let row := {| F_Token := F_Token record; F_Username := F_Username record;
                  F_OrgID := F_OrgID record; F_WorkerID := F_WorkerID record;
                  F_Epoch := F_Epoch record; F_CP := F_CP record; F_State := F_State record;
                  F_ExpiresAt := F_ExpiresAt record; F_LastSeenAt := F_LastSeenAt record;
                  F_CreatedAt := match t_flights s !! F_Token record with
                                 | Some old => F_CreatedAt old
                                 | None => created
                                 end;
                  F_UpdatedAt := updated |} in
    Some ((), with_flights (<[ F_Token record := row ]> (t_flights s)) s)).

Definition GetFlightSessionRecord (sessionToken : string) : M D (option FlightSessionRecord) :=
  exec (SELECT (λ _ s, t_flights s !! sessionToken)).

Definition TouchFlightSessionRecord (sessionToken : string) (lastSeenAt : time) : M D unit :=
  now ← time_Now;
  exec (UPDATE_flights (λ f, bool_decide (F_Token f = sessionToken))
    (λ f, flight_set (F_State f) lastSeenAt now f));;
  mret ().

Definition CloseFlightSessionRecord (sessionToken : string) (closedAt : time) : M D unit :=
  now ← time_Now;
  exec (UPDATE_flights (λ f, bool_decide (F_Token f = sessionToken))
    (λ f, flight_set FSClosed closedAt now f));;
  mret ().

(** * Warm-capacity misses *)

Definition WarmCapacityMissBucketSize : Z := 10 * 1000000.
Definition bucket_start (t : time) : time := t - t mod WarmCapacityMissBucketSize.

Definition RecordWarmCapacityMiss (scope : string) (reason : WorkerClaimMissReason) (now : time)
    : M D unit :=
  let scope := TrimSpace scope in
  if bool_decide (scope = ""%string)
  then fail (ErrInvalid "record warm capacity miss: scope is required") else
  if bool_decide (reason = MissNone)
  then fail (ErrInvalid "record warm capacity miss: reason is required") else
  now ← (if IsZero now then time_Now else mret now);
  exec (λ _ s,
    let key := (scope, reason, bucket_start now) in
    match t_misses s !! key with
    | None => Some ((), with_misses (<[ key := {| B_Count := 1; B_UpdatedAt := now |} ]> (t_misses s)) s)
    | Some b =>
        if bool_decide (B_Count b + 1 < 2 ^ 63)
        then Some ((), with_misses (<[ key := {| B_Count := B_Count b + 1; B_UpdatedAt := now |} ]>
                         (t_misses s)) s)
        else None
    end).

(** The aggregates as a map from scope and reason, without the order of the
    rows, which depends on the database's collation. *)
Definition miss_totals (since : time) (reasons : list WorkerClaimMissReason) (s : db)
    : gmap (string * WorkerClaimMissReason) Z :=
  map_fold (λ '(scope, reason, start) b acc,
    if bool_decide (bucket_start since ≤ start)
       && (bool_decide (reasons = []) || bool_decide (reason ∈ reasons))
    then <[ (scope, reason) := default 0 (acc !! (scope, reason)) + B_Count b ]> acc else acc)
    ∅ (t_misses s).

Definition ListWarmCapacityMissesSince (since : time) (reasons : list WorkerClaimMissReason)
    : M D (gmap (string * WorkerClaimMissReason) Z) :=
  let reasonFilters := filter (λ r, r ≠ MissNone) reasons in
  exec (λ _ s,
    let totals := miss_totals since reasonFilters s in
    if bool_decide (map_Forall (λ _ n, in_s 64 n) totals) then Some (totals, s) else None).

Definition PruneWarmCapacityMissBuckets (before : time) : M D Z :=
  exec (λ _ s,
    let old := filter (λ kv : (string * WorkerClaimMissReason * time) * WarmCapacityMissBucket,
                 (kv.1.2 < before)) (t_misses s) in
    Some (Z.of_nat (size old),
          with_misses (filter (λ kv : (string * WorkerClaimMissReason * time) * WarmCapacityMissBucket,
                 ¬ (kv.1.2 < before)) (t_misses s)) s)).

Record WarmCapacityWorkerStats := { ReadyWorkers : Z; SpawningWorkers : Z }.

(** Ready and spawning neutral workers by scope, again without row order. *)
Definition ListWarmCapacityWorkerStats : M D (gmap string WarmCapacityWorkerStats) :=
  exec (SELECT (λ _ s,
    let rows := workers_where (λ r, neutral_warm r && negb (bool_decide (W_Image r = ""%string))) s in
    foldr (λ r acc,
      let st := default {| ReadyWorkers := 0; SpawningWorkers := 0 |} (acc !! ("image:" +:+ W_Image r)) in
      <[ "image:" +:+ W_Image r :=
           {| ReadyWorkers := ReadyWorkers st + (if state_in [Idle] r then 1 else 0);
              SpawningWorkers := SpawningWorkers st + (if state_in [Spawning] r then 1 else 0) |} ]> acc)
      ∅ rows)).
End store.
