(* ===== verification/StoreSpec.v ===== *)
(** What the runtime store promises: the abstract evolution of worker records
    that every operation of RuntimeStore refines, and its consequences for
    control planes that act on leases (fencing), for capacity limits and for the
    cleanup of orphans. *)

From Stdlib Require Import Strings.Byte.
From stdpp Require Import prelude gmap strings list fin_maps sorting.
From Stdlib Require Import ZArith Lia.
From S2P Require Import Prelude RuntimeDB RuntimeStore.

Open Scope Z_scope.

(** * Abstract specification *)

(** Terminal states are final; a draining worker can only be retired. *)
Definition state_evolves (a b : WorkerState) : Prop :=
  match a with
  | Retired | Lost => b = a
  | Draining => b = Draining ∨ b = Retired
  | _ => True
  end.

(** One row over time: the same worker, epochs only grow, an epoch belongs to
    one owner, states evolve. *)
Record row_evolves (r r' : WorkerRecord) : Prop := {
  evolves_id : W_ID r' = W_ID r;
  evolves_epoch : W_Epoch r ≤ W_Epoch r';
  evolves_owner : W_Epoch r' = W_Epoch r → W_Owner r' = W_Owner r;
  evolves_state : state_evolves (W_State r) (W_State r');
}.

(** Rows are filed under their id. *)
Definition keyed (s : db) : Prop := map_Forall (λ k r, W_ID r = k) (t_workers s).

Record evolves_to (s s' : db) : Prop := {
  evolves_keyed : keyed s';
  evolves_rows : ∀ id r, t_workers s !! id = Some r →
    ∃ r', t_workers s' !! id = Some r' ∧ row_evolves r r';
}.

Definition db_evolves (s s' : db) : Prop := keyed s → evolves_to s s'.

#[export] Instance state_evolves_preorder : PreOrder state_evolves.
Proof.
  split; [intros []; simpl; auto|].
  intros a b c. destruct a, b; simpl; intuition congruence.
Qed.

#[export] Instance row_evolves_preorder : PreOrder row_evolves.
Proof.
  split.
  - intros r. split; [done|lia|done|reflexivity].
  - intros r1 r2 r3 [H1 H2 H3 H4] [G1 G2 G3 G4]. split; [congruence|lia| |by etrans].
    intros He. rewrite G3, H3; [done|lia..].
Qed.

#[export] Instance db_evolves_preorder : PreOrder db_evolves.
Proof.
  split.
  - intros s Hk. split; [done|]. intros id r Hr. exists r. by split.
  - intros s1 s2 s3 H12 H23 Hk. destruct (H12 Hk) as [Hk2 Hr2].
    destruct (H23 Hk2) as [Hk3 Hr3]. split; [done|]. intros id r Hr.
    destruct (Hr2 id r Hr) as (r' & Hr' & He). destruct (Hr3 id r' Hr') as (r'' & Hr'' & He').
    exists r''. split; [done|by etrans].
Qed.

(** * Statements *)

Lemma UPDATE_workers_inv P g e s n s' :
  UPDATE_workers P g e s = Some (n, s') →
  n = count_workers (P s) s ∧
  s' = with_workers ((λ r, if P s r then default r (g r) else r) <$> t_workers s) s ∧
  ∀ k r, t_workers s !! k = Some r → P s r = true → is_Some (g r).
Proof.
  unfold UPDATE_workers. case_bool_decide as Hall; intros Heq; simplify_eq.
  split; [done|]. split; [done|]. intros k r Hr HP. apply (Hall k). apply map_lookup_filter_Some. done.
Qed.

Lemma UPDATE_workers_lookup P g e s n s' k r :
  UPDATE_workers P g e s = Some (n, s') → t_workers s !! k = Some r →
  (P s r = false ∧ t_workers s' !! k = Some r)
  ∨ (P s r = true ∧ ∃ r', g r = Some r' ∧ t_workers s' !! k = Some r').
Proof.
  intros (-> & -> & Hall)%UPDATE_workers_inv Hr. simpl. rewrite lookup_fmap, Hr. simpl.
  destruct (P s r) eqn:HP; [|eauto]. destruct (Hall k r Hr HP) as [r' Hr'].
  rewrite Hr'. eauto.
Qed.

Lemma UPDATE_workers_evolves P g e s n s' :
  (∀ k r r', t_workers s !! k = Some r → P s r = true → g r = Some r' → row_evolves r r') →
  UPDATE_workers P g e s = Some (n, s') → db_evolves s s'.
Proof.
  intros Hg Hup Hk. split.
  - intros k r' Hr'. assert (is_Some (t_workers s !! k)) as [r Hr].
    { apply UPDATE_workers_inv in Hup as (_ & -> & _). simpl in Hr'.
      rewrite lookup_fmap in Hr'. by destruct (t_workers s !! k). }
    specialize (Hk k r Hr) as Hid. simpl in Hid.
    destruct (UPDATE_workers_lookup _ _ _ _ _ _ _ _ Hup Hr) as [[_ H1]|(HP & r1 & H1 & H2)].
    + by simplify_eq.
    + simplify_eq. by rewrite (evolves_id _ _ (Hg _ _ _ Hr HP H1)).
  - intros k r Hr.
    destruct (UPDATE_workers_lookup _ _ _ _ _ _ _ _ Hup Hr) as [[_ H1]|(HP & r1 & H1 & H2)];
      eexists; split; eauto; reflexivity.
Qed.

Lemma count_workers_0 P s :
  count_workers P s = 0 ↔ ∀ k r, t_workers s !! k = Some r → P r = false.
Proof.
  unfold count_workers. split.
  - intros Hn k r Hr. apply (Nat2Z.inj _ 0), map_size_empty_iff in Hn.
    destruct (P r) eqn:HP; [|done].
    assert (filter (λ kv : Z * WorkerRecord, P kv.2 = true) (t_workers s) !! k = Some r) as Hf.
    { by apply map_lookup_filter_Some. }
    by rewrite Hn in Hf.
  - intros Hall. replace (filter _ _) with (∅ : gmap Z WorkerRecord); [done|].
    symmetry. apply map_eq. intros k. rewrite lookup_empty, map_lookup_filter_None.
    right. intros r Hr. simpl. by rewrite (Hall k r Hr).
Qed.

Lemma with_workers_same s : with_workers (t_workers s) s = s.
Proof. by destruct s. Qed.

(** A statement that matches no row changes nothing. *)
Lemma UPDATE_workers_miss P g e s n s' :
  (∀ k r, t_workers s !! k = Some r → P s r = false) →
  UPDATE_workers P g e s = Some (n, s') → n = 0 ∧ s' = s.
Proof.
  intros Hmiss (-> & -> & _)%UPDATE_workers_inv. split; [by apply count_workers_0|].
  rewrite <- (with_workers_same s) at 3. f_equal. apply map_eq. intros k.
  rewrite lookup_fmap. destruct (t_workers s !! k) as [r|] eqn:Hr; simpl; [|done].
  by rewrite (Hmiss k r Hr).
Qed.

Lemma elem_of_workers_where P s r :
  r ∈ workers_where P s ↔ P r = true ∧ ∃ k, t_workers s !! k = Some r.
Proof.
  unfold workers_where. rewrite merge_sort_Permutation.
  rewrite list_elem_of_fmap. split.
  - intros ([k r'] & -> & Hin). apply elem_of_map_to_list, map_lookup_filter_Some in Hin as [Hr HP].
    simpl. eauto.
  - intros (HP & k & Hr). exists (k, r). split; [done|].
    apply elem_of_map_to_list, map_lookup_filter_Some. done.
Qed.

Lemma take_skip_locked_spec P e s r :
  head (filter (λ r, W_ID r ∉ env_locked e) (workers_where P s)) = Some r →
  P r = true ∧ ∃ k, t_workers s !! k = Some r.
Proof.
  intros Hh. apply elem_of_workers_where.
  assert (r ∈ filter (λ r, W_ID r ∉ env_locked e) (workers_where P s)) as Hin.
  { destruct (filter _ _); [done|]. simplify_eq/=. left. }
  by apply list_elem_of_filter in Hin as [_ ?].
Qed.

(** * Every operation refines the specification *)

(** Membership of a concrete state in a concrete list, by computation. *)
Ltac mem_absurd :=
  exfalso; match goal with
  | H : ?x ∈ ?l |- _ => apply (bool_decide_eq_true_2 (x ∈ l)) in H; vm_compute in H; discriminate H
  | H : ?x ∉ ?l |- _ => apply H, (bool_decide_eq_true_1 (x ∈ l)); reflexivity
  end.

Lemma epoch_plus_1_inv r r' :
  epoch_plus_1 r = Some r' → r' = set_epoch (W_Epoch r + 1) r.
Proof. unfold epoch_plus_1. case_bool_decide; intros; by simplify_eq. Qed.

Lemma state_in_elem ss r : state_in ss r = true ↔ W_State r ∈ ss.
Proof. apply bool_decide_eq_true. Qed.

(** A row that is not protected may change state and move to a newer epoch. *)
Lemma row_evolves_newer r r' :
  W_State r ∉ protectedStates → W_ID r' = W_ID r → W_Epoch r < W_Epoch r' → row_evolves r r'.
Proof.
  intros Hs Hid He. split; [done|lia|lia|].
  unfold state_evolves. destruct (W_State r); try done; mem_absurd.
Qed.

Lemma row_evolves_same r r' :
  W_ID r' = W_ID r → W_Epoch r' = W_Epoch r → W_Owner r' = W_Owner r →
  state_evolves (W_State r) (W_State r') → row_evolves r r'.
Proof. intros. split; [done|lia|done|done]. Qed.

Lemma retire_evolves st : st ∈ workerActiveStates → state_evolves st Retired.
Proof. intros Hst. destruct st; simpl; auto; mem_absurd. Qed.

Lemma unprotected_evolves st st' : st ∈ workerLostEligibleStates → state_evolves st st'.
Proof. intros Hst. destruct st; simpl; auto; mem_absurd. Qed.

Lemma terminal_evolves st target :
  target = Retired ∨ target = Lost → st ∈ workerTerminalEligibleStates target →
  state_evolves st target.
Proof.
  unfold workerTerminalEligibleStates. intros [-> | ->]; case_bool_decide; try done.
  - apply retire_evolves.
  - apply unprotected_evolves.
Qed.

(** Filing a row under a fresh id. *)
Lemma insert_fresh_evolves s r :
  t_workers s !! W_ID r = None → db_evolves s (with_workers (<[ W_ID r := r ]> (t_workers s)) s).
Proof.
  intros Hnone Hk. split; simpl.
  - intros k x. simpl. rewrite lookup_insert_Some. intros [[<- <-]|[_ Hr]]; [done|by apply Hk].
  - intros k x Hx. exists x. rewrite lookup_insert_ne by congruence. by split.
Qed.

Lemma INSERT_worker_evolves now record e s r s' :
  INSERT_worker now record e s = Some (r, s') → db_evolves s s'.
Proof.
  unfold INSERT_worker. case_bool_decide as Hnone; cbn [andb]; [|done].
  destruct (pod_name_free _ _ _); [|done]. intros [= <- <-]. by apply insert_fresh_evolves.
Qed.

Lemma upsert_row_evolves old new : upsert_fence old new = true → row_evolves old (upsert_row old new).
Proof.
  unfold upsert_fence. intros [Hp Hf]%andb_true_iff.
  apply negb_true_iff, bool_decide_eq_false in Hp.
  apply orb_true_iff in Hf as [He%bool_decide_eq_true|[He%bool_decide_eq_true Ho]%andb_true_iff].
  - by apply row_evolves_newer.
  - apply row_evolves_same; simpl; [done|done| |].
    + destruct (W_Owner old); [|done]. by apply bool_decide_eq_true in Ho.
    + destruct (W_State old); simpl; try done; mem_absurd.
Qed.

Lemma UPSERT_worker_evolves now record e s n s' :
  UPSERT_worker now record e s = Some (n, s') → db_evolves s s'.
Proof.
  unfold UPSERT_worker. set (r := fill_insert _ _ _).
  destruct (t_workers s !! W_ID r) as [old|] eqn:Hold.
  - destruct (upsert_fence old r) eqn:Hf; [|intros; simplify_eq; reflexivity].
    destruct (pod_name_free _ _ _); intros Heq; simplify_eq. intros Hk.
    apply upsert_row_evolves in Hf. split; simpl.
    + intros k x. simpl. rewrite lookup_insert_Some. intros [[<- <-]|[_ Hr]]; [|by apply Hk].
      by rewrite (evolves_id _ _ Hf), (Hk _ _ Hold).
    + intros k x Hx. destruct (decide (k = W_ID r)) as [->|Hne].
      * simplify_eq. rewrite lookup_insert_eq. eauto.
      * rewrite lookup_insert_ne by done. exists x. by split.
  - destruct (pod_name_free _ _ _); [|done]. intros [= <- <-]. by apply insert_fresh_evolves.
Qed.

(** Statements on other tables leave the workers alone. *)
Lemma other_tables_evolve s s' : t_workers s' = t_workers s → db_evolves s s'.
Proof.
  intros Heq Hk. unfold keyed in *. split; [unfold keyed; by rewrite Heq|].
  intros id r Hr. exists r. by rewrite Heq.
Qed.

Section refinement.
Context {D : Type} `{WorldLaws D}.

(** [m] refines the specification: whatever it returns, the tables evolved. *)
Definition evolving {A} (m : M D A) : Prop := ∀ s, wp m s (λ _ s', db_evolves s s').

Lemma wp_update_evolves P g s (Q : Z + store_error → db → Prop) :
  (∀ k r r', t_workers s !! k = Some r → P s r = true → g r = Some r' → row_evolves r r') →
  Q (inr ErrDB) s →
  (∀ n s', db_evolves s s' → Q (inl n) s' ∧ Q (inr ErrDB) s') →
  wp (exec (UPDATE_workers P g)) s Q.
Proof.
  intros Hg Herr HQ. apply wp_exec; [done|]. intros e n s' Hup.
  apply HQ. by eapply UPDATE_workers_evolves.
Qed.

Lemma wp_other_tables {A} (f : stmt A) s (Q : A + store_error → db → Prop) :
  (∀ e s a s', f e s = Some (a, s') → t_workers s' = t_workers s) →
  Q (inr ErrDB) s →
  (∀ a s', db_evolves s s' → Q (inl a) s' ∧ Q (inr ErrDB) s') →
  wp (exec f) s Q.
Proof.
  intros Hf Herr HQ. apply wp_exec; [done|]. intros e a s' Hs'.
  apply HQ, other_tables_evolve. by eapply Hf.
Qed.

Lemma evolving_Transaction {A} (m : M D A) : evolving m → evolving (Transaction m).
Proof.
  intros Hm s. apply wp_Transaction; [reflexivity|].
  eapply wp_mono; [apply Hm|]. intros [a|e] s' Hs'; [by split|reflexivity].
Qed.

(** A guarded update that keeps owner and epoch and moves the state along. *)
Lemma evolving_guarded P g :
  (∀ s r r', P s r = true → g r = Some r' →
     W_ID r' = W_ID r ∧ W_Epoch r' = W_Epoch r ∧ W_Owner r' = W_Owner r ∧
     state_evolves (W_State r) (W_State r')) →
  evolving (exec (UPDATE_workers P g)).
Proof.
  intros Hg s. apply wp_update_evolves; [|reflexivity|auto].
  intros k r r' _ HP Hr'. destruct (Hg s r r' HP Hr') as (? & ? & ? & ?).
  by apply row_evolves_same.
Qed.

Lemma evolving_bind {A B} (m : M D A) (k : A → M D B) :
  evolving m → (∀ a, evolving (k a)) → evolving (m ≫= k).
Proof.
  intros Hm Hk s. apply wp_bind. eapply wp_mono; [apply Hm|]. intros [a|e] s' Hs'; [|done].
  eapply wp_mono; [apply Hk|]. intros r s'' Hs''. by etrans.
Qed.

Lemma evolving_ret {A} (a : A) : evolving (mret a).
Proof. intros s. apply wp_ret. reflexivity. Qed.
Lemma evolving_fail {A} e : evolving (fail (A := A) e).
Proof. intros s. apply wp_fail. reflexivity. Qed.
Lemma evolving_now : evolving time_Now.
Proof. intros s. apply wp_now. intros t. reflexivity. Qed.
Lemma evolving_select {A} (f : env → db → A) : evolving (exec (SELECT f)).
Proof. intros s. apply wp_select; [reflexivity|]. intros e. reflexivity. Qed.
Lemma evolving_other {A} (f : stmt A) :
  (∀ e s a s', f e s = Some (a, s') → t_workers s' = t_workers s) → evolving (exec f).
Proof. intros Hf s. apply wp_other_tables; [done|reflexivity|auto]. Qed.

(** Claims: the row read by [take_skip_locked] is the row the update by id hits,
    and the update moves it to the next epoch. *)
Lemma claim_update_evolves s k current g e n s' :
  keyed s → t_workers s !! k = Some current → W_State current ∉ protectedStates →
  (∀ r r', g r = Some r' → W_ID r' = W_ID r ∧ W_Epoch r < W_Epoch r') →
  UPDATE_workers (λ _, id_is (W_ID current)) g e s = Some (n, s') → db_evolves s s'.
Proof.
  intros Hk Hcur Hst Hg. apply UPDATE_workers_evolves.
  intros k' r r' Hr Hid%bool_decide_eq_true Hr'. destruct (Hg r r' Hr') as [? ?].
  apply row_evolves_newer; [|done|done].
  rewrite (Hk k' r Hr), (Hk k current Hcur) in Hid. by simplify_eq.
Qed.
End refinement.

(** The operations already shown to refine the specification. *)
Create HintDb evolving discriminated.
#[export] Hint Constants Opaque : evolving.

(** Decomposes store code down to its statements. *)
Ltac evolve_step :=
  first
    [ solve [auto 1 with evolving nocore]
    | apply evolving_ret | apply evolving_fail | apply evolving_now | apply evolving_select
    | apply evolving_Transaction
    | apply evolving_bind; [|intros ?]
    | match goal with
      | |- evolving (match ?x with _ => _ end) => destruct x eqn:?
      | |- evolving (if ?x then _ else _) => destruct x eqn:?
      | |- evolving (exec (UPDATE_workers _ _)) =>
          apply evolving_guarded; intros ? ? ?; cbn beta; rewrite ?andb_true_iff;
          intros ? [= <-]; simpl; repeat split
      end ].
Ltac evolve := repeat evolve_step.

Section operations.
Context {D : Type} `{WorldLaws D}.

Lemma first_worker_evolving id : evolving (D := D) (first_worker id).
Proof. unfold first_worker. evolve. Qed.

#[local] Hint Resolve first_worker_evolving : evolving.

Lemma org_lock_evolving orgID : evolving (D := D) (org_lock orgID).
Proof. unfold org_lock, advisory_xact_lock. evolve. Qed.

Lemma cap_reached_evolving cap P : evolving (D := D) (cap_reached cap P).
Proof. unfold cap_reached, countActiveWorkers. evolve. Qed.

#[local] Hint Resolve cap_reached_evolving : evolving.

Lemma org_cap_reached_evolving cap orgID P : evolving (D := D) (org_cap_reached cap orgID P).
Proof. unfold org_cap_reached. evolve. Qed.

Ltac other_table :=
  apply evolving_other; unfold UPDATE_cps, UPDATE_flights; intros; simplify_eq/=; break_matches; done.

Lemma UpsertControlPlaneInstance_evolving i : evolving (D := D) (UpsertControlPlaneInstance i).
Proof. unfold UpsertControlPlaneInstance. evolve. other_table. Qed.

Lemma ExpireControlPlaneInstances_evolving c : evolving (D := D) (ExpireControlPlaneInstances c).
Proof. unfold ExpireControlPlaneInstances. evolve. other_table. Qed.

Lemma ExpireDraining_evolving c : evolving (D := D) (ExpireDrainingControlPlaneInstances c).
Proof.
  unfold ExpireDrainingControlPlaneInstances. evolve. other_table.
Qed.

Lemma ExpireFlight_evolving c : evolving (D := D) (ExpireFlightSessionRecords c).
Proof. unfold ExpireFlightSessionRecords. evolve. other_table. Qed.

Lemma UpsertFlight_evolving r : evolving (D := D) (UpsertFlightSessionRecord r).
Proof. unfold UpsertFlightSessionRecord. evolve. other_table. Qed.

Lemma TouchFlight_evolving k t : evolving (D := D) (TouchFlightSessionRecord k t).
Proof. unfold TouchFlightSessionRecord. evolve. other_table. Qed.

Lemma CloseFlight_evolving k t : evolving (D := D) (CloseFlightSessionRecord k t).
Proof. unfold CloseFlightSessionRecord. evolve. other_table. Qed.

Lemma RecordMiss_evolving sc r t : evolving (D := D) (RecordWarmCapacityMiss sc r t).
Proof.
  unfold RecordWarmCapacityMiss. evolve; other_table.
Qed.

Lemma PruneMisses_evolving t : evolving (D := D) (PruneWarmCapacityMissBuckets t).
Proof. unfold PruneWarmCapacityMissBuckets. other_table. Qed.

Lemma UpsertWorkerRecord_evolving r : evolving (D := D) (UpsertWorkerRecord r).
Proof.
  unfold UpsertWorkerRecord. evolve. intros s. apply wp_exec; [reflexivity|].
  intros e n s' Hup%UPSERT_worker_evolves. done.
Qed.

(** The state part of a guarded update, from the state guard in its [WHERE]. *)
Ltac guarded :=
  match goal with
  | H : _ ∧ state_in _ _ = true |- _ => destruct H as [_ ?%state_in_elem]
  | H : (_ ∧ state_in _ _ = true) ∧ _ |- _ => destruct H as [[_ ?%state_in_elem] _]
  end.

Lemma MarkWorkerTerminal_evolving r st why :
  evolving (D := D) (MarkWorkerTerminalIfCurrent r st why).
Proof.
  unfold MarkWorkerTerminalIfCurrent. evolve. guarded. apply terminal_evolves; [|done].
  match goal with H : bool_decide _ = false |- _ => apply bool_decide_eq_false in H end.
  destruct st; auto; exfalso; naive_solver.
Qed.

#[local] Hint Resolve MarkWorkerTerminal_evolving : evolving.

Lemma RetireHotIdle_evolving r : evolving (D := D) (RetireHotIdleWorker r).
Proof. unfold RetireHotIdleWorker. evolve. Qed.

Lemma RetireIdleOrHotIdle_evolving r why : evolving (D := D) (RetireIdleOrHotIdleWorker r why).
Proof. unfold RetireIdleOrHotIdleWorker. evolve. Qed.

Lemma RetireOrphan_evolving r why : evolving (D := D) (RetireOrphanWorker r why).
Proof. unfold RetireOrphanWorker. evolve. guarded. by apply terminal_evolves; [left|]. Qed.

Lemma MarkCredentials_evolving id o e t : evolving (D := D) (MarkCredentialsRefreshed id o e t).
Proof. unfold MarkCredentialsRefreshed. evolve. reflexivity. Qed.

Lemma MarkLost_evolving id o e why : evolving (D := D) (MarkWorkerLostIfCurrentLease id o e why).
Proof. unfold MarkWorkerLostIfCurrentLease. evolve. guarded. by apply unprotected_evolves. Qed.

Lemma MarkDraining_evolving id o e : evolving (D := D) (MarkWorkerDraining id o e).
Proof. unfold MarkWorkerDraining. evolve. guarded. by apply unprotected_evolves. Qed.

Lemma RetireDraining_evolving id o e why : evolving (D := D) (RetireDrainingWorker id o e why).
Proof.
  unfold RetireDrainingWorker. evolve. guarded.
  match goal with |- state_evolves (W_State ?r) _ => destruct (W_State r) end;
    simpl; try mem_absurd. auto.
Qed.
End operations.

(** * Claims *)

Lemma UPDATE_by_id s cur g e n s' :
  keyed s → t_workers s !! W_ID cur = Some cur →
  UPDATE_workers (λ _, id_is (W_ID cur)) g e s = Some (n, s') →
  n = 1 ∧ ∃ c, g cur = Some c ∧ s' = with_workers (<[ W_ID cur := c ]> (t_workers s)) s.
Proof.
  intros Hk Hcur Hup. pose proof (UPDATE_workers_lookup _ _ _ _ _ _ _ _ Hup Hcur) as Hl.
  unfold id_is in Hl at 1. rewrite bool_decide_eq_true_2 in Hl by done.
  destruct Hl as [[? _]|(_ & c & Hc & _)]; [done|].
  apply UPDATE_workers_inv in Hup as (-> & -> & _). split.
  - unfold count_workers. replace (filter _ _) with ({[ W_ID cur := cur ]} : gmap Z WorkerRecord).
    { by rewrite map_size_singleton. }
    apply map_eq. intros k. apply option_eq. intros r.
    rewrite lookup_singleton_Some, map_lookup_filter_Some. unfold id_is. simpl.
    rewrite bool_decide_eq_true. split; [by intros [<- <-]|].
    intros [Hr Hid]. pose proof (Hk k r Hr) as Hkr. simpl in Hkr. rewrite Hid in Hkr. by simplify_eq.
  - exists c. split; [done|]. f_equal. apply map_eq. intros k. rewrite lookup_fmap.
    destruct (decide (k = W_ID cur)) as [->|Hne].
    + rewrite lookup_insert_eq, Hcur. simpl. unfold id_is.
      by rewrite bool_decide_eq_true_2, Hc by done.
    + rewrite lookup_insert_ne by done. destruct (t_workers s !! k) as [r|] eqn:Hr; [|done].
      simpl. unfold id_is. rewrite bool_decide_eq_false_2; [done|].
      pose proof (Hk k r Hr) as Hkr. simpl in Hkr. congruence.
Qed.

(** The effect of a claim on the tables: one row, moved to the next epoch of the
    new owner. *)
Definition claim_row (owner : string) (org : option string) (now : time) (r : WorkerRecord)
    : option WorkerRecord :=
  epoch_plus_1 (set_updated now (set_owner owner
    (from_option (λ o, set_org o (set_state Reserved r)) (set_state Reserved r) org))).

Definition claims (ok : WorkerRecord → Prop) (owner : string) (org : option string)
    (s s' : db) (c : WorkerRecord) : Prop :=
  ∃ old now, t_workers s !! W_ID old = Some old ∧ ok old ∧ claim_row owner org now old = Some c ∧
             s' = with_workers (<[ W_ID old := c ]> (t_workers s)) s.

Lemma claim_row_inv owner org now r c :
  claim_row owner org now r = Some c →
  W_ID c = W_ID r ∧ W_State c = Reserved ∧ W_Owner c = Some owner ∧ W_Epoch c = W_Epoch r + 1 ∧
  W_OrgID c = default (W_OrgID r) org ∧ W_Image c = W_Image r ∧ W_PodName c = W_PodName r.
Proof. intros ->%epoch_plus_1_inv. by destruct org. Qed.

Lemma claims_evolves ok owner org s s' c :
  (∀ r, ok r → W_State r ∉ protectedStates) → claims ok owner org s s' c → db_evolves s s'.
Proof.
  intros Hok (old & now & Hold & Hst & Hc & ->) Hk.
  apply claim_row_inv in Hc as (Hid & _ & _ & He & _). split; simpl.
  - intros k r. simpl. rewrite lookup_insert_Some. intros [[<- <-]|[_ Hr]]; [done|by apply Hk].
  - intros k r Hr. destruct (decide (k = W_ID old)) as [->|Hne].
    + simplify_eq. rewrite lookup_insert_eq. eexists. split; [done|].
      apply row_evolves_newer; [by apply Hok|done|lia].
    + rewrite lookup_insert_ne by done. exists r. by split.
Qed.

Section claims.
Context {D : Type} `{WorldLaws D}.

(** Clock, update by id, read back: the end of every claim. *)
Lemma wp_claim_tail {B} s cur (g : time → WorkerRecord → option WorkerRecord)
    (F : WorkerRecord → B) (Q : B + store_error → db → Prop) :
  keyed s → t_workers s !! W_ID cur = Some cur →
  (∀ s', Q (inr ErrDB) s') →
  (∀ t c, g t cur = Some c → Q (inl (F c)) (with_workers (<[ W_ID cur := c ]> (t_workers s)) s)) →
  wp (D := D) (now ← time_Now;
      exec (UPDATE_workers (λ _, id_is (W_ID cur)) (g now));;
      claimed ← first_worker (W_ID cur); mret (F claimed)) s Q.
Proof.
  intros Hk Hcur Herr Hok. wp_step. wp_step. wp_step. apply wp_exec; [done|].
  intros e n s' (-> & c & Hc & ->)%UPDATE_by_id; [|done..]. split; [|done].
  unfold first_worker. wp_step. wp_step. wp_step; [done|]. simpl. rewrite lookup_insert_eq.
  wp_go. by eapply Hok.
Qed.

(** A capacity check leaves the tables alone and tells whether the count of
    active workers satisfying [P] is below a positive cap. *)
Lemma wp_cap_reached cap P s (Q : bool + store_error → db → Prop) :
  Q (inr ErrDB) s →
  Q (inl (bool_decide (0 < cap ∧ cap ≤ count_workers (λ r, state_in workerActiveStates r && P r) s))) s →
  wp (D := D) (cap_reached cap P) s Q.
Proof.
  intros Herr HQ. unfold cap_reached, countActiveWorkers.
  destruct (decide (0 < cap)) as [Hc|Hc].
  - rewrite (bool_decide_eq_true_2 (0 < cap)) by done. wp_go; [done|].
    erewrite bool_decide_ext; [exact HQ|]. tauto.
  - rewrite (bool_decide_eq_false_2 (0 < cap)) by done. wp_go.
    rewrite bool_decide_eq_false_2 in HQ; [done|lia].
Qed.

Definition org_full (cap : Z) (orgID : string) (P : WorkerRecord → bool) (s : db) : Prop :=
  orgID ≠ ""%string ∧ 0 < cap ∧
  cap ≤ count_workers (λ r, state_in workerActiveStates r && (bool_decide (W_OrgID r = orgID) && P r)) s.
#[local] Instance org_full_dec cap orgID P s : Decision (org_full cap orgID P s).
Proof. unfold org_full. apply _. Defined.

Lemma wp_org_cap_reached cap orgID P s (Q : bool + store_error → db → Prop) :
  Q (inr ErrDB) s → Q (inl (bool_decide (org_full cap orgID P s))) s →
  wp (D := D) (org_cap_reached cap orgID P) s Q.
Proof.
  intros Herr HQ. unfold org_cap_reached. destruct (decide (orgID = ""%string)) as [Ho|Ho].
  - rewrite (bool_decide_eq_true_2 (orgID = _)) by done. wp_go.
    rewrite bool_decide_eq_false_2 in HQ; [done|]. by intros [? _].
  - rewrite (bool_decide_eq_false_2 (orgID = _)) by done. apply wp_cap_reached; [done|]. erewrite bool_decide_ext; [exact HQ|]. unfold org_full. tauto.
Qed.

Lemma wp_org_lock orgID s (Q : () + store_error → db → Prop) :
  Q (inr ErrDB) s → Q (inl ()) s → wp (D := D) (org_lock orgID) s Q.
Proof. intros Herr HQ. unfold org_lock, advisory_xact_lock. wp_go; done. Qed.
End claims.

Definition idle_for (image : string) (r : WorkerRecord) : Prop :=
  W_State r = Idle ∧ (image = ""%string ∨ W_Image r = image).
Definition hot_idle_of (org : string) (r : WorkerRecord) : Prop :=
  W_State r = HotIdle ∧ W_OrgID r = org.
Definition hot_at (id epoch : Z) (r : WorkerRecord) : Prop :=
  W_State r = Hot ∧ W_ID r = id ∧ W_Epoch r = epoch.

Lemma state_in_1 st r : state_in [st] r = true ↔ W_State r = st.
Proof. rewrite state_in_elem. apply list_elem_of_singleton. Qed.

(** What a claim may do: hand out one row that satisfies [ok], hand out nothing
    and leave the tables alone, or fail, in which case the tables are as before
    or, the reply being lost, as after a claim. *)
Definition claim_outcome (full : Prop) (ok : WorkerRecord → Prop) (owner : string)
    (org : option string) (s : db)
    (r : option WorkerRecord * WorkerClaimMissReason + store_error) (s' : db) : Prop :=
  match r with
  | inl (Some c, miss) => ¬ full ∧ miss = MissNone ∧ claims ok owner org s s' c
  | inl (None, miss) => s' = s ∧ miss ≠ MissNone ∧ (miss = OrgCap ↔ full)
  | inr e => e = ErrDB ∧ (s' = s ∨ (¬ full ∧ ∃ c, claims ok owner org s s' c))
  end.

Section claim_ops.
Context {D : Type} `{WorldLaws D}.

Lemma ClaimIdleWorker_spec owner org image maxOrg maxGlobal s :
  keyed s →
  wp (D := D) (ClaimIdleWorker owner org image maxOrg maxGlobal) s
    (claim_outcome (org_full maxOrg org (λ _, true) s) (idle_for image) owner (Some org) s).
Proof.
  intros Hk. unfold ClaimIdleWorker. wp_step; [simpl; auto|].
  wp_step. apply wp_org_lock; [simpl; auto|].
  wp_step. apply wp_org_cap_reached; [simpl; auto|].
  case_bool_decide as Hfull; [wp_go; simpl; naive_solver|].
  wp_step. wp_step; [simpl; auto|]. destruct (head _) as [cur|] eqn:Hcur.
  - apply take_skip_locked_spec in Hcur as [HP [k Hcur]]. pose proof (Hk _ _ Hcur) as Hid. simpl in Hid.
    subst k. apply andb_true_iff in HP as [Hst%state_in_1 Him].
    assert (idle_for image cur) as Hok.
    { split; [done|]. by apply orb_true_iff in Him as [?%bool_decide_eq_true|?%bool_decide_eq_true]; auto. }
    apply (wp_claim_tail s cur (claim_row owner (Some org)) (λ c, (Some c, MissNone))); [done..|simpl; auto|].
    intros t c Hc. simpl. assert (claims (idle_for image) owner (Some org) s
      (with_workers (<[W_ID cur:=c]> (t_workers s)) s) c) by (exists cur, t; auto).
    eauto 10.
  - wp_step. apply wp_cap_reached; [simpl; auto|]. clear Hcur. case_bool_decide; wp_go; (split; [|simpl; auto]);
      (split; [done|]); (split; [done|]); by split.
Qed.

Lemma ClaimHotIdleWorker_spec owner org maxOrg s :
  keyed s →
  wp (D := D) (ClaimHotIdleWorker owner org maxOrg) s
    (claim_outcome (org_full maxOrg org (λ r, negb (state_in [HotIdle] r)) s)
       (hot_idle_of org) owner None s).
Proof.
  intros Hk. unfold ClaimHotIdleWorker. wp_step; [simpl; auto|].
  wp_step. apply wp_org_lock; [simpl; auto|].
  wp_step. apply wp_org_cap_reached; [simpl; auto|].
  case_bool_decide as Hfull; [wp_go; simpl; naive_solver|].
  wp_step. wp_step; [simpl; auto|]. destruct (head _) as [cur|] eqn:Hcur.
  - apply take_skip_locked_spec in Hcur as [HP [k Hcur]]. pose proof (Hk _ _ Hcur) as Hid. simpl in Hid.
    subst k. apply andb_true_iff in HP as [Hst%state_in_1 Ho%bool_decide_eq_true].
    apply (wp_claim_tail s cur (claim_row owner None) (λ c, (Some c, MissNone))); [done..|simpl; auto|].
    intros t c Hc. simpl. assert (claims (hot_idle_of org) owner None s
      (with_workers (<[W_ID cur:=c]> (t_workers s)) s) c) by (exists cur, t; unfold hot_idle_of; auto).
    eauto 10.
  - wp_go. split; [|simpl; auto]. split; [done|]. split; [done|]. by split.
Qed.

(** Take-over: the caller must know the row's epoch, and the worker be hot. *)
Definition takeover_outcome (id : Z) (owner org : string) (epoch : Z) (s : db)
    (r : option WorkerRecord + store_error) (s' : db) : Prop :=
  match r with
  | inl (Some c) => claims (hot_at id epoch) owner (Some org) s s' c
  | inl None => s' = s ∧ match t_workers s !! id with
                         | Some w => W_Epoch w = epoch ∧ W_State w ≠ Hot
                         | None => True
                         end
  | inr ErrWorkerOwnerEpochMismatch =>
      s' = s ∧ ∃ w, t_workers s !! id = Some w ∧ W_Epoch w ≠ epoch
  | inr e => e = ErrDB ∧ (s' = s ∨ ∃ c, claims (hot_at id epoch) owner (Some org) s s' c)
  end.

Lemma TakeOverWorker_spec id owner org epoch s :
  keyed s →
  wp (D := D) (TakeOverWorker id owner org epoch) s (takeover_outcome id owner org epoch s).
Proof.
  intros Hk. unfold TakeOverWorker. wp_step; [simpl; auto|].
  wp_step. wp_step; [simpl; auto|]. destruct (t_workers s !! id) as [cur|] eqn:Hcur.
  2: { wp_go. simpl. rewrite Hcur. auto. }
  pose proof (Hk _ _ Hcur) as Hid. simpl in Hid. subst id.
  case_bool_decide as He; [wp_go; simpl; eauto|].
  case_bool_decide as Hst; [wp_go; simpl; rewrite Hcur; auto|].
  wp_step. wp_step. wp_step. apply wp_exec; [simpl; auto|].
  intros e' n s' (-> & c & Hc & ->)%UPDATE_by_id; [|done..]. simpl. split; [|auto].
  unfold first_worker. wp_step. wp_step. wp_step; [simpl; auto|]. simpl. rewrite lookup_insert_eq.
  wp_go. simpl.
  assert (claims (hot_at (W_ID cur) epoch) owner (Some org) s
      (with_workers (<[W_ID cur:=c]> (t_workers s)) s) c)
    by (exists cur, t; unfold hot_at; auto).
  eauto 10.
Qed.
End claim_ops.

(** * Slots *)

(** A slot: a spawning row under a fresh id. *)
Definition slot_created (org owner image : string) (epoch : Z) (s s' : db) (c : WorkerRecord) : Prop :=
  t_workers s !! W_ID c = None ∧ W_State c = Spawning ∧ W_OrgID c = org ∧
  W_Owner c = Some owner ∧ W_Epoch c = epoch ∧ W_Image c = image ∧
  s' = with_workers (<[ W_ID c := c ]> (t_workers s)) s.

(** What the slot constructors may do; [full] is their capacity condition. *)
Definition slot_outcome (full : Prop) (org owner image : string) (epoch : Z) (s : db)
    (r : option WorkerRecord + store_error) (s' : db) : Prop :=
  match r with
  | inl (Some c) => ¬ full ∧ slot_created org owner image epoch s s' c
  | inl None => full ∧ s' = s
  | inr (ErrInvalid _) => s' = s
  | inr e => e = ErrDB ∧ (s' = s ∨ (¬ full ∧ ∃ c, slot_created org owner image epoch s s' c))
  end.

Definition cap_full (cap : Z) (P : WorkerRecord → bool) (s : db) : Prop :=
  0 < cap ∧ cap ≤ count_workers (λ r, state_in workerActiveStates r && P r) s.
Definition target_met (target : Z) (P : WorkerRecord → bool) (s : db) : Prop :=
  0 < target ∧ target ≤ count_workers P s.

#[export] Instance cap_full_dec cap P s : Decision (cap_full cap P s).
Proof. unfold cap_full. apply _. Defined.
#[export] Instance target_met_dec t P s : Decision (target_met t P s).
Proof. unfold target_met. apply _. Defined.

Lemma INSERT_worker_inv now record e s c s' :
  INSERT_worker now record e s = Some (c, s') →
  c = fill_insert (env_nextval e) now record ∧ t_workers s !! W_ID c = None ∧
  s' = with_workers (<[ W_ID c := c ]> (t_workers s)) s.
Proof.
  unfold INSERT_worker. case_bool_decide as Hnone; cbn [andb]; [|done].
  destruct (pod_name_free _ _ _); [|done]. intros [= <- <-]. done.
Qed.

Lemma slot_created_evolves org owner image epoch s s' c :
  slot_created org owner image epoch s s' c → db_evolves s s'.
Proof. intros (Hnone & _ & _ & _ & _ & _ & ->). by apply insert_fresh_evolves. Qed.

Lemma slot_created_fill nextval now' id now prefix image org owner epoch s :
  let c := fill_insert nextval now' (spawning_record id prefix image org owner epoch now) in
  t_workers s !! W_ID c = None →
  slot_created org owner image epoch s (with_workers (<[ W_ID c := c ]> (t_workers s)) s) c.
Proof. intros c Hc. by repeat split. Qed.

Section slots.
Context {D : Type} `{WorldLaws D}.

Lemma wp_create_slot full prefix image org owner epoch s :
  ¬ full →
  wp (D := D) (create_slot prefix image org owner epoch) s
    (λ r s', match r with
             | inl a => slot_outcome full org owner image epoch s (inl a) s' ∧
                        slot_outcome full org owner image epoch s (inr ErrDB) s'
             | inr e => slot_outcome full org owner image epoch s (inr e) s
             end).
Proof.
  intros Hfull. unfold create_slot. wp_step. apply wp_exec; [simpl; auto|].
  intros e id s1. unfold next_worker_id. case_bool_decide; [|done]. intros [= <- <-].
  split; [|simpl; auto]. wp_step. wp_step. wp_step. wp_step. wp_step.
  apply wp_exec; [simpl; auto|]. intros e' c s' (-> & Hnone & ->)%INSERT_worker_inv.
  split; [|simpl; auto]. wp_step.
  match goal with |- context [fill_insert ?n ?u (spawning_record ?i _ _ _ _ _ ?t)] =>
    pose proof (slot_created_fill n u i t prefix image org owner epoch s Hnone) as Hc end.
  cbn zeta in Hc. unfold slot_outcome. split; [by split|]. split; [done|]. right. split; [done|].
  eexists. exact Hc.
Qed.

(** The warm-target check of the neutral slot constructors. *)
Lemma wp_target target P s (Q : bool + store_error → db → Prop) :
  Q (inr ErrDB) s → Q (inl (bool_decide (target_met target P s))) s →
  wp (D := D) (if bool_decide (0 < target) then
        count ← exec (SELECT (λ _, count_workers P)); mret (bool_decide (target ≤ count))
      else mret false) s Q.
Proof.
  intros Herr HQ. destruct (decide (0 < target)) as [Hc|Hc].
  - rewrite (bool_decide_eq_true_2 (0 < target)) by done. wp_go; [done|].
    erewrite bool_decide_ext; [exact HQ|]. unfold target_met. tauto.
  - rewrite (bool_decide_eq_false_2 (0 < target)) by done. wp_go.
    rewrite bool_decide_eq_false_2 in HQ; [done|]. by intros [? _].
Qed.

Ltac slot_err := simpl; auto.

Lemma CreateSpawningWorkerSlot_spec owner org image epoch prefix maxOrg maxGlobal s :
  wp (D := D) (CreateSpawningWorkerSlot owner org image epoch prefix maxOrg maxGlobal) s
    (slot_outcome (org_full maxOrg org (λ _, true) s ∨ cap_full maxGlobal (λ _, true) s)
       org owner image epoch s).
Proof.
  unfold CreateSpawningWorkerSlot, advisory_xact_lock. case_bool_decide; [wp_go; slot_err|].
  wp_step; [slot_err|]. wp_step. apply wp_org_lock; [slot_err|].
  wp_step. wp_step; [slot_err|]. wp_step. apply wp_org_cap_reached; [slot_err|].
  case_bool_decide as Ho; [wp_go; slot_err|].
  wp_step. apply wp_cap_reached; [slot_err|]. fold (cap_full maxGlobal (λ _, true) s).
  case_bool_decide as Hg; [wp_go; slot_err; naive_solver|].
  apply wp_create_slot. tauto.
Qed.

Lemma CreateNeutralWarmWorkerSlotForImage_spec owner prefix image target maxGlobal s :
  wp (D := D) (CreateNeutralWarmWorkerSlotForImage owner prefix image target maxGlobal) s
    (slot_outcome (target_met target (λ r, neutral_warm r && bool_decide (W_Image r = image)) s
                   ∨ cap_full maxGlobal (λ _, true) s) "" owner image 0 s).
Proof.
  unfold CreateNeutralWarmWorkerSlotForImage, advisory_xact_lock, countNeutralWarmWorkersForImage.
  case_bool_decide; [wp_go; slot_err|]. case_bool_decide; [wp_go; slot_err|].
  wp_step; [slot_err|]. wp_step. wp_step; [slot_err|]. wp_step. wp_step; [slot_err|].
  wp_step. apply wp_target; [slot_err|]. case_bool_decide; [wp_go; slot_err; naive_solver|].
  wp_step. apply wp_cap_reached; [slot_err|]. fold (cap_full maxGlobal (λ _, true) s).
  case_bool_decide; [wp_go; slot_err; naive_solver|]. apply wp_create_slot. tauto.
Qed.

Lemma CreateNeutralWarmWorkerSlot_spec owner prefix image target maxGlobal s :
  wp (D := D) (CreateNeutralWarmWorkerSlot owner prefix image target maxGlobal) s
    (slot_outcome (target_met target neutral_warm s ∨ cap_full maxGlobal (λ _, true) s)
       "" owner image 0 s).
Proof.
  unfold CreateNeutralWarmWorkerSlot, advisory_xact_lock, countNeutralWarmWorkers.
  case_bool_decide; [wp_go; slot_err|].
  wp_step; [slot_err|]. wp_step. wp_step; [slot_err|]. wp_step. wp_step; [slot_err|].
  wp_step. apply wp_target; [slot_err|]. case_bool_decide; [wp_go; slot_err; naive_solver|].
  wp_step. apply wp_cap_reached; [slot_err|]. fold (cap_full maxGlobal (λ _, true) s).
  case_bool_decide; [wp_go; slot_err; naive_solver|]. apply wp_create_slot. tauto.
Qed.
End slots.
