(* ===== verification/StoreTheorems.v ===== *)
(** Theorems on the runtime store: histories of operations by any number of
    control planes, with failing and half-acknowledged statements, refine the
    abstract evolution of StoreSpec; leases are fencing tokens; capacity limits
    hold; orphan cleanup spares live owners. *)

From Stdlib Require Import Strings.Byte.
From stdpp Require Import prelude gmap strings list fin_maps sorting.
From Stdlib Require Import ZArith Lia.
From S2P Require Import Prelude RuntimeDB RuntimeStore StoreSpec.

Open Scope Z_scope.

(** * Histories *)

(** Every operation of the store that writes, with its arguments. *)
Inductive store_op :=
  | OpUpsertControlPlaneInstance (i : ControlPlaneInstance)
  | OpExpireControlPlaneInstances (cutoff : time)
  | OpExpireDrainingControlPlaneInstances (before : time)
  | OpUpsertWorkerRecord (r : WorkerRecord)
  | OpClaimIdleWorker (owner org image : string) (maxOrg maxGlobal : Z)
  | OpClaimHotIdleWorker (owner org : string) (maxOrg : Z)
  | OpMarkWorkerTerminalIfCurrent (r : option WorkerRecord) (st : WorkerState) (why : string)
  | OpRetireHotIdleWorker (r : option WorkerRecord)
  | OpRetireOrphanWorker (r : option WorkerRecord) (why : string)
  | OpBumpWorkerEpoch (id : Z) (owner : string) (epoch : Z)
  | OpMarkCredentialsRefreshed (id : Z) (owner : string) (epoch : Z) (t : time)
  | OpRetireIdleOrHotIdleWorker (r : option WorkerRecord) (why : string)
  | OpMarkWorkerLostIfCurrentLease (id : Z) (owner : string) (epoch : Z) (why : string)
  | OpMarkWorkerDraining (id : Z) (owner : string) (epoch : Z)
  | OpRetireDrainingWorker (id : Z) (owner : string) (epoch : Z) (why : string)
  | OpTakeOverWorker (id : Z) (owner org : string) (epoch : Z)
  | OpCreateSpawningWorkerSlot (owner org image : string) (epoch : Z) (prefix : string)
      (maxOrg maxGlobal : Z)
  | OpCreateNeutralWarmWorkerSlotForImage (owner prefix image : string) (target maxGlobal : Z)
  | OpCreateNeutralWarmWorkerSlot (owner prefix image : string) (target maxGlobal : Z)
  | OpExpireFlightSessionRecords (before : time)
  | OpUpsertFlightSessionRecord (r : FlightSessionRecord)
  | OpTouchFlightSessionRecord (token : string) (seen : time)
  | OpCloseFlightSessionRecord (token : string) (closed : time)
  | OpRecordWarmCapacityMiss (scope : string) (reason : WorkerClaimMissReason) (now : time)
  | OpPruneWarmCapacityMissBuckets (before : time).

Section histories.
Context {D : Type} `{World D}.

Definition effect_of {A} (m : M D A) (d : D) : D := (m d).2.

(** Run one operation, forgetting its result. *)
Definition run_op (op : store_op) : D → D :=
  match op with
  | OpUpsertControlPlaneInstance i => effect_of (UpsertControlPlaneInstance i)
  | OpExpireControlPlaneInstances c => effect_of (ExpireControlPlaneInstances c)
  | OpExpireDrainingControlPlaneInstances b => effect_of (ExpireDrainingControlPlaneInstances b)
  | OpUpsertWorkerRecord r => effect_of (UpsertWorkerRecord r)
  | OpClaimIdleWorker o g i mo mg => effect_of (ClaimIdleWorker o g i mo mg)
  | OpClaimHotIdleWorker o g mo => effect_of (ClaimHotIdleWorker o g mo)
  | OpMarkWorkerTerminalIfCurrent r st w => effect_of (MarkWorkerTerminalIfCurrent r st w)
  | OpRetireHotIdleWorker r => effect_of (RetireHotIdleWorker r)
  | OpRetireOrphanWorker r w => effect_of (RetireOrphanWorker r w)
  | OpBumpWorkerEpoch i o e => effect_of (BumpWorkerEpoch i o e)
  | OpMarkCredentialsRefreshed i o e t => effect_of (MarkCredentialsRefreshed i o e t)
  | OpRetireIdleOrHotIdleWorker r w => effect_of (RetireIdleOrHotIdleWorker r w)
  | OpMarkWorkerLostIfCurrentLease i o e w => effect_of (MarkWorkerLostIfCurrentLease i o e w)
  | OpMarkWorkerDraining i o e => effect_of (MarkWorkerDraining i o e)
  | OpRetireDrainingWorker i o e w => effect_of (RetireDrainingWorker i o e w)
  | OpTakeOverWorker i o g e => effect_of (TakeOverWorker i o g e)
  | OpCreateSpawningWorkerSlot o g i e p mo mg => effect_of (CreateSpawningWorkerSlot o g i e p mo mg)
  | OpCreateNeutralWarmWorkerSlotForImage o p i t mg =>
      effect_of (CreateNeutralWarmWorkerSlotForImage o p i t mg)
  | OpCreateNeutralWarmWorkerSlot o p i t mg => effect_of (CreateNeutralWarmWorkerSlot o p i t mg)
  | OpExpireFlightSessionRecords b => effect_of (ExpireFlightSessionRecords b)
  | OpUpsertFlightSessionRecord r => effect_of (UpsertFlightSessionRecord r)
  | OpTouchFlightSessionRecord k t => effect_of (TouchFlightSessionRecord k t)
  | OpCloseFlightSessionRecord k t => effect_of (CloseFlightSessionRecord k t)
  | OpRecordWarmCapacityMiss k r t => effect_of (RecordWarmCapacityMiss k r t)
  | OpPruneWarmCapacityMissBuckets b => effect_of (PruneWarmCapacityMissBuckets b)
  end.

(** A history: operations of all control planes in the order the database
    serialised them. *)
Definition run (ops : list store_op) (d : D) : D := foldl (λ d op, run_op op d) d ops.
End histories.

Section evolution.
Context {D : Type} `{WorldLaws D}.

Lemma evolving_effect {A} (m : M D A) : evolving m → ∀ d, db_evolves (tables d) (tables (effect_of m d)).
Proof.
  intros Hm d. unfold effect_of. destruct (m d) as [r d'] eqn:E. simpl. by eapply (Hm (tables d)).
Qed.

Lemma keyed_wp_effect {A} (m : M D A) Q :
  (∀ s, keyed s → wp m s (Q s)) → (∀ s r s', Q s r s' → db_evolves s s') →
  ∀ d, db_evolves (tables d) (tables (effect_of m d)).
Proof.
  intros Hm HQ d Hk. unfold effect_of. destruct (m d) as [r d'] eqn:E. simpl.
  apply (HQ _ r); [|done]. by eapply Hm.
Qed.

Lemma claim_outcome_evolves full ok owner org s r s' :
  (∀ w, ok w → W_State w ∉ protectedStates) →
  claim_outcome full ok owner org s r s' → db_evolves s s'.
Proof.
  intros Hok. destruct r as [[[c|] m]|e]; simpl.
  - intros (_ & _ & Hc). by eapply claims_evolves.
  - intros (-> & _). reflexivity.
  - intros [_ [->|(_ & c & Hc)]]; [reflexivity|by eapply claims_evolves].
Qed.

Lemma takeover_outcome_evolves id owner org epoch s r s' :
  takeover_outcome id owner org epoch s r s' → db_evolves s s'.
Proof.
  assert (∀ w, hot_at id epoch w → W_State w ∉ protectedStates) as Hok.
  { intros w [-> _]. apply (bool_decide_eq_true_1 _). reflexivity. }
  destruct r as [[c|]|[]]; simpl; try (intros [? _]; done).
  - intros Hc. by eapply claims_evolves.
  - intros [-> _]. reflexivity.
  - intros [_ [->|[c Hc]]]; [reflexivity|by eapply claims_evolves].
  - intros [-> _]. reflexivity.
Qed.

Lemma slot_outcome_evolves full org owner image epoch s r s' :
  slot_outcome full org owner image epoch s r s' → db_evolves s s'.
Proof.
  destruct r as [[c|]|[]]; simpl; try (intros [? _]; done).
  - intros [_ Hc]. by eapply slot_created_evolves.
  - intros [_ ->]. reflexivity.
  - intros [_ [->|(_ & c & Hc)]]; [reflexivity|by eapply slot_created_evolves].
  - intros ->. reflexivity.
Qed.

Lemma BumpWorkerEpoch_evolving id o e : evolving (D := D) (BumpWorkerEpoch id o e).
Proof.
  unfold BumpWorkerEpoch. apply evolving_Transaction, evolving_bind; [apply evolving_now|].
  intros t. apply evolving_bind.
  - intros s. apply wp_update_evolves; [|reflexivity|auto].
    intros k r r' _ _ ->%epoch_plus_1_inv. split; simpl; [done|lia|lia|reflexivity].
  - intros n. unfold first_worker. evolve.
Qed.

Lemma not_protected ok st :
  st ∉ protectedStates → (∀ w : WorkerRecord, ok w → W_State w = st) →
  ∀ w, ok w → W_State w ∉ protectedStates.
Proof. intros Hst Hok w Hw. by rewrite (Hok w Hw). Qed.

Lemma run_op_evolves op d : db_evolves (tables d) (tables (run_op op d)).
Proof.
  destruct op; simpl; try (apply evolving_effect;
    eauto using UpsertControlPlaneInstance_evolving, ExpireControlPlaneInstances_evolving,
      ExpireDraining_evolving, ExpireFlight_evolving, UpsertFlight_evolving, TouchFlight_evolving,
      CloseFlight_evolving, RecordMiss_evolving, PruneMisses_evolving, UpsertWorkerRecord_evolving,
      MarkWorkerTerminal_evolving, RetireHotIdle_evolving, RetireIdleOrHotIdle_evolving,
      RetireOrphan_evolving, MarkCredentials_evolving, MarkLost_evolving, MarkDraining_evolving,
      RetireDraining_evolving, BumpWorkerEpoch_evolving; fail).
  - eapply keyed_wp_effect; [intros; by apply ClaimIdleWorker_spec|].
    intros s r s'. apply claim_outcome_evolves, (not_protected _ Idle); [|by intros ? []].
    apply (bool_decide_eq_true_1 _). reflexivity.
  - eapply keyed_wp_effect; [intros; by apply ClaimHotIdleWorker_spec|].
    intros s r s'. apply claim_outcome_evolves, (not_protected _ HotIdle); [|by intros ? []].
    apply (bool_decide_eq_true_1 _). reflexivity.
  - eapply keyed_wp_effect; [intros; by apply TakeOverWorker_spec|].
    intros s r s'. apply takeover_outcome_evolves.
  - eapply keyed_wp_effect; [intros; apply CreateSpawningWorkerSlot_spec|].
    intros s r s'. apply slot_outcome_evolves.
  - eapply keyed_wp_effect; [intros; apply CreateNeutralWarmWorkerSlotForImage_spec|].
    intros s r s'. apply slot_outcome_evolves.
  - eapply keyed_wp_effect; [intros; apply CreateNeutralWarmWorkerSlot_spec|].
    intros s r s'. apply slot_outcome_evolves.
Qed.

Lemma run_evolves ops d : db_evolves (tables d) (tables (run ops d)).
Proof.
  revert d. induction ops as [|op ops IH]; intros d; [reflexivity|]. simpl.
  etrans; [apply run_op_evolves|apply IH].
Qed.
End evolution.

(** * Leases *)

(** The three ways to take a worker. *)
Inductive claim_call :=
  | CallIdle (owner org image : string) (maxOrg maxGlobal : Z)
  | CallHotIdle (owner org : string) (maxOrg : Z)
  | CallTakeOver (id : Z) (owner org : string) (epoch : Z).

Definition run_claim {D} `{World D} (call : claim_call) : M D (option WorkerRecord) :=
  match call with
  | CallIdle o g i mo mg => r ← ClaimIdleWorker o g i mo mg; mret r.1
  | CallHotIdle o g mo => r ← ClaimHotIdleWorker o g mo; mret r.1
  | CallTakeOver i o g e => TakeOverWorker i o g e
  end.

Definition claim_owner (call : claim_call) : string :=
  match call with CallIdle o _ _ _ _ | CallHotIdle o _ _ | CallTakeOver _ o _ _ => o end.

(** The holder of ([owner], [epoch]) no longer owns worker [id]. *)
Definition lease_lost (id : Z) (owner : string) (epoch : Z) (s : db) : Prop :=
  ∃ w, t_workers s !! id = Some w ∧
       (epoch < W_Epoch w ∨ (W_Epoch w = epoch ∧ W_Owner w ≠ Some owner)).

Section leases.
Context {D : Type} `{WorldLaws D}.

(** Nothing the holder of a lease can do has an effect: every call misses (or
    the database fails) and leaves all tables as they are. *)
Definition fenced_out (id : Z) (owner : string) (epoch : Z) (s : db) : Prop :=
  wp (D := D) (MarkWorkerDraining id owner epoch) s (λ r s', s' = s ∧ r ≠ inl true) ∧
  (∀ why, wp (D := D) (RetireDrainingWorker id owner epoch why) s (λ r s', s' = s ∧ r ≠ inl true)) ∧
  (∀ why, wp (D := D) (MarkWorkerLostIfCurrentLease id owner epoch why) s
            (λ r s', s' = s ∧ r ≠ inl true)) ∧
  (∀ t, wp (D := D) (MarkCredentialsRefreshed id owner epoch t) s (λ r s', s' = s ∧ r ≠ inl true)) ∧
  wp (D := D) (BumpWorkerEpoch id owner epoch) s (λ r s', s' = s ∧ ∃ err, r = inr err) ∧
  (∀ record, W_ID record = id → go_owner record = owner → W_Epoch record = epoch →
     wp (D := D) (UpsertWorkerRecord record) s (λ r s', s' = s ∧ ∃ err, r = inr err)).

Lemma lease_lost_run id owner epoch ops (d : D) :
  keyed (tables d) → lease_lost id owner epoch (tables d) →
  lease_lost id owner epoch (tables (run ops d)).
Proof.
  intros Hk (w & Hw & Hlost). destruct (run_evolves ops d Hk) as [_ Hrows].
  destruct (Hrows id w Hw) as (w' & Hw' & [_ He Ho _]). exists w'. split; [done|].
  destruct Hlost as [?|[<- Hne]]; [left; lia|].
  destruct (decide (W_Epoch w' = W_Epoch w)) as [Heq|]; [|left; lia].
  right. by rewrite (Ho Heq).
Qed.

Lemma lease_lost_no_match id owner epoch s k r :
  keyed s → lease_lost id owner epoch s → t_workers s !! k = Some r →
  lease_is id owner epoch r = false.
Proof.
  intros Hk (w & Hw & Hlost) Hr. apply not_true_iff_false. unfold lease_is.
  intros [[Hid%bool_decide_eq_true Ho%bool_decide_eq_true]%andb_true_iff
    He%bool_decide_eq_true]%andb_true_iff.
  pose proof (Hk k r Hr) as Hkr. simpl in Hkr. subst k. rewrite Hid in Hr. simplify_eq.
  destruct Hlost as [?|[_ ?]]; [lia|done].
Qed.

(** An update whose condition contains a lost lease. *)
Lemma wp_lease_miss {A} id owner epoch (P : WorkerRecord → bool) g (k : Z → M D A) s
    (Q : A + store_error → db → Prop) :
  keyed s → lease_lost id owner epoch s →
  (∀ r, P r = true → lease_is id owner epoch r = true) →
  Q (inr ErrDB) s → wp (k 0) s Q →
  wp (n ← exec (UPDATE_workers (λ _, P) g); k n) s Q.
Proof.
  intros Hk Hlost HP Herr Hkont. apply wp_bind, wp_exec; [done|].
  intros e n s' Hup. apply UPDATE_workers_miss in Hup as [-> ->]; [by split|].
  intros k' r Hr. apply not_true_iff_false. intros HPr%HP.
  by rewrite (lease_lost_no_match id owner epoch s k' r) in HPr.
Qed.

Lemma upsert_lost record now id owner epoch e s n s' :
  id ≠ 0 → lease_lost id owner epoch s →
  W_ID record = id → go_owner record = owner → W_Epoch record = epoch →
  UPSERT_worker now (go_record record) e s = Some (n, s') → n = 0 ∧ s' = s.
Proof.
  intros Hid (w & Hw & Hlost) Hrid Hro Hre. unfold UPSERT_worker.
  set (r := fill_insert _ _ _).
  assert (W_ID r = id) as -> by (simpl; by rewrite bool_decide_eq_false_2 by congruence).
  rewrite Hw. replace (upsert_fence w r) with false; [by intros [= <- <-]|].
  symmetry. apply not_true_iff_false. unfold upsert_fence.
  change (W_Epoch r) with (W_Epoch record). change (W_Owner r) with (Some (go_owner record)).
  rewrite Hre, Hro. intros [_ [?%bool_decide_eq_true|[He%bool_decide_eq_true Ho]%andb_true_iff]%orb_true_iff]%andb_true_iff.
  - destruct Hlost as [?|[? _]]; lia.
  - destruct Hlost as [?|[_ Hne]]; [lia|]. destruct (W_Owner w); [|done].
    apply bool_decide_eq_true in Ho. congruence.
Qed.

Lemma lease_lost_fenced id owner epoch s :
  keyed s → id ≠ 0 → lease_lost id owner epoch s → fenced_out id owner epoch s.
Proof.
  intros Hk Hid Hlost.
  assert (∀ r ss, lease_is id owner epoch r && state_in ss r = true →
    lease_is id owner epoch r = true) as Hand by (intros r ss [? _]%andb_true_iff; done).
  split; [|split; [|split; [|split; [|split]]]]; intros;
    [unfold MarkWorkerDraining|unfold RetireDrainingWorker|unfold MarkWorkerLostIfCurrentLease
    |unfold MarkCredentialsRefreshed|unfold BumpWorkerEpoch|unfold UpsertWorkerRecord].
  1-4: wp_step; wp_step; (eapply wp_lease_miss; [done|done|eauto|by auto|wp_step; by auto]).
  - wp_step; [eauto|]. wp_step. wp_step.
    eapply wp_lease_miss; [done|done|eauto|eauto|]. wp_go. eauto.
  - wp_step. wp_step. wp_step. apply wp_exec; [eauto|]. intros e n s' Hup.
    apply (upsert_lost _ _ id owner epoch) in Hup as [-> ->]; [|done..].
    split; [|eauto]. wp_go. eauto.
Qed.
End leases.

Section lease_theorems.
Context {D : Type} `{WorldLaws D}.

Lemma run_claim_spec call s :
  keyed s →
  wp (D := D) (run_claim call) s (λ r s',
    match r with
    | inl (Some c) => ∃ ok org, (∀ w, ok w → W_State w ∉ protectedStates) ∧
                                claims ok (claim_owner call) org s s' c
    | _ => True
    end).
Proof.
  assert (∀ st, bool_decide (st ∉ protectedStates) = true → st ∉ protectedStates) as Hst
    by (intros st; apply bool_decide_eq_true_1).
  intros Hk. destruct call as [o g i mo mg|o g mo|i o g e]; simpl.
  - apply wp_bind. eapply wp_mono; [by apply ClaimIdleWorker_spec|].
    intros [[[c|] m]|err] s'; simpl; [|intros; wp_go; done|done]. intros (_ & _ & Hc). wp_step.
    eexists _, _. split; [|exact Hc]. apply (not_protected _ Idle); [by apply Hst|by intros ? []].
  - apply wp_bind. eapply wp_mono; [by apply ClaimHotIdleWorker_spec|].
    intros [[[c|] m]|err] s'; simpl; [|intros; wp_go; done|done]. intros (_ & _ & Hc). wp_step.
    eexists _, _. split; [|exact Hc]. apply (not_protected _ HotIdle); [by apply Hst|by intros ? []].
  - eapply wp_mono; [by apply TakeOverWorker_spec|].
    intros [[c|]|err] s'; simpl; [|done|done]. intros Hc.
    eexists _, _. split; [|exact Hc]. apply (not_protected _ Hot); [by apply Hst|by intros ? []].
Qed.

Lemma protected_evolves a b : state_evolves a b → a ∈ protectedStates → b ∈ protectedStates.
Proof.
  intros Hs Ha. destruct a; try mem_absurd; simpl in Hs; [destruct Hs as [-> | ->]|subst b..];
    apply (bool_decide_eq_true_1 _); reflexivity.
Qed.

(** What a successful claim did, in one lemma. *)
Lemma run_claim_ok call (d d' : D) c :
  keyed (tables d) → run_claim call d = (inl (Some c), d') →
  keyed (tables d') ∧
  t_workers (tables d') !! W_ID c = Some c ∧ W_Owner c = Some (claim_owner call) ∧
  ∃ old, t_workers (tables d) !! W_ID c = Some old ∧ (W_State old ∉ protectedStates) ∧
         W_Epoch c = W_Epoch old + 1.
Proof.
  intros Hk Hrun. destruct (run_claim_spec call (tables d) Hk d _ d' eq_refl Hrun)
    as (ok & org & Hok & Hc).
  pose proof (claims_evolves _ _ _ _ _ _ Hok Hc Hk) as [Hk' _].
  destruct Hc as (old & now & Hold & Hw & Hc & Hs). apply claim_row_inv in Hc as (Hid & _ & Ho & He & _).
  split; [done|]. rewrite Hs. simpl. rewrite Hid, lookup_insert_eq. split; [done|]. split; [done|].
  exists old. auto.
Qed.

(** C3. Every history of store operations, by any number of control planes, with
    any statement failing or losing its reply, refines the abstract life of a
    worker record: the row stays, its owner epoch never decreases, an epoch never
    changes owner, [retired] and [lost] are final and a draining worker can only
    become retired. *)
Theorem store_history_refines ops (d : D) id r :
  keyed (tables d) → t_workers (tables d) !! id = Some r →
  keyed (tables (run ops d)) ∧
  ∃ r', t_workers (tables (run ops d)) !! id = Some r' ∧ row_evolves r r'.
Proof. intros Hk Hr. destruct (run_evolves ops d Hk) as [Hk' Hrows]. eauto. Qed.

(** C1. A claim fences out every earlier holder. Once a control plane has
    claimed a worker (idle, hot-idle or by take-over), the operations of anybody
    holding an older lease on it — drain, retire, mark lost, refresh credentials,
    bump the epoch, upsert the record — never again have an effect, whatever
    happens in between: they report a miss and leave all tables unchanged. *)
Theorem claim_fences_older_leases call (d d' : D) c ops :
  keyed (tables d) → run_claim call d = (inl (Some c), d') → W_ID c ≠ 0 →
  ∀ owner epoch, epoch < W_Epoch c → fenced_out (D := D) (W_ID c) owner epoch (tables (run ops d')).
Proof.
  intros Hk Hrun Hid owner epoch He.
  destruct (run_claim_ok _ _ _ _ Hk Hrun) as (Hk' & Hc & _).
  apply lease_lost_fenced; [by destruct (run_evolves ops d' Hk')|done|].
  apply lease_lost_run; [done|]. exists c. auto.
Qed.

(** Two claims never hand out the same lease: if a later claim in any history
    returns the same worker, its epoch is strictly larger. *)
Theorem claims_hand_out_distinct_leases call1 call2 (d d1 d2 : D) c1 c2 ops :
  keyed (tables d) →
  run_claim call1 d = (inl (Some c1), d1) →
  run_claim call2 (run ops d1) = (inl (Some c2), d2) →
  W_ID c1 = W_ID c2 → W_Epoch c1 < W_Epoch c2.
Proof.
  intros Hk H1 H2 Hid. destruct (run_claim_ok _ _ _ _ Hk H1) as (Hk1 & Hc1 & _).
  destruct (run_evolves ops d1 Hk1) as [Hk2 Hrows].
  destruct (run_claim_ok _ _ _ _ Hk2 H2) as (_ & _ & _ & old & Hold & _ & He).
  destruct (Hrows _ _ Hc1) as (r' & Hr' & Hev). rewrite <- Hid in Hold. simplify_eq.
  pose proof (evolves_epoch _ _ Hev). lia.
Qed.

(** A worker that was drained, retired or lost is never handed out again. *)
Theorem finished_worker_never_claimed call (d d' : D) id r ops :
  keyed (tables d) → t_workers (tables d) !! id = Some r → W_State r ∈ protectedStates →
  ∀ c, run_claim call (run ops d) = (inl (Some c), d') → W_ID c ≠ id.
Proof.
  intros Hk Hr Hst c Hrun Hid. destruct (run_evolves ops d Hk) as [Hk2 Hrows].
  destruct (run_claim_ok _ _ _ _ Hk2 Hrun) as (_ & _ & _ & old & Hold & Hnp & _).
  destruct (Hrows _ _ Hr) as (r' & Hr' & Hev). rewrite Hid in Hold. simplify_eq.
  by apply Hnp, (protected_evolves _ _ (evolves_state _ _ Hev)).
Qed.
End lease_theorems.

(** A small database for the witnesses: worker 7 idle under cp-a at epoch 3,
    worker 8 retired, worker 9 hot for an org under cp-a. *)
Definition ex_worker (id : Z) (st : WorkerState) (org : string) : WorkerRecord :=
  {| W_ID := id; W_PodName := "pod-" +:+ fmt_d id; W_PodUID := ""; W_Image := "img"; W_State := st;
     W_OrgID := org; W_Owner := Some "cp-a"%string; W_Epoch := 3; W_ActivationStartedAt := None;
     W_LastHeartbeatAt := 10; W_RetireReason := ""; W_S3ExpiresAt := None; W_CreatedAt := 1;
     W_UpdatedAt := 10 |}.

Definition ex_db : db := with_workers
  {[ 7 := ex_worker 7 Idle ""; 8 := ex_worker 8 Retired ""; 9 := ex_worker 9 Hot "org1" ]} empty_db.

Definition ex_mem : mem :=
  {| m_db := ex_db; m_faults := []; m_locked := ∅; m_seq := 100; m_clock := 50 |}.

Lemma ex_keyed : keyed (tables ex_mem).
Proof.
  unfold keyed. simpl. repeat apply map_Forall_insert_2; try done; apply map_Forall_singleton; done.
Qed.

Definition ex_claim : claim_call := CallIdle "cp-b" "org1" "" 5 5.
Definition ex_claimed : WorkerRecord :=
  default (ex_worker 0 Lost "") (match (run_claim ex_claim ex_mem).1 with inl c => c | _ => None end).

Lemma store_history_refines_witness :
  keyed (tables (run [OpClaimIdleWorker "cp-b" "org1" "" 5 5] ex_mem)) ∧
  ∃ r', t_workers (tables (run [OpClaimIdleWorker "cp-b" "org1" "" 5 5] ex_mem)) !! 7 = Some r' ∧
        row_evolves (ex_worker 7 Idle "") r'.
Proof.
  apply (store_history_refines [OpClaimIdleWorker "cp-b" "org1" "" 5 5] ex_mem 7).
  - apply ex_keyed.
  - reflexivity.
Defined.

Lemma claim_fences_older_leases_witness :
  fenced_out (D := mem) 7 "cp-a" 3
    (tables (run [OpMarkWorkerDraining 7 "cp-b" 4] (run_claim ex_claim ex_mem).2)).
Proof.
  apply (claim_fences_older_leases ex_claim ex_mem (run_claim ex_claim ex_mem).2 ex_claimed
    [OpMarkWorkerDraining 7 "cp-b" 4]).
  - apply ex_keyed.
  - vm_compute. reflexivity.
  - vm_compute. discriminate.
  - vm_compute. reflexivity.
Defined.

Lemma claims_hand_out_distinct_leases_witness :
  W_Epoch (ex_worker 9 Hot "org1") + 1 <
  W_Epoch (default (ex_worker 0 Lost "")
    (match (run_claim (CallTakeOver 9 "cp-c" "org1" 4)
       (run [OpUpsertWorkerRecord (set_epoch 4 (set_owner "cp-b" (ex_worker 9 Hot "org1")))]
         (run_claim (CallTakeOver 9 "cp-b" "org1" 3) ex_mem).2)).1 with inl c => c | _ => None end)).
Proof.
  refine (claims_hand_out_distinct_leases (CallTakeOver 9 "cp-b" "org1" 3)
    (CallTakeOver 9 "cp-c" "org1" 4) ex_mem (run_claim (CallTakeOver 9 "cp-b" "org1" 3) ex_mem).2
    _ (default (ex_worker 0 Lost "") (match (run_claim (CallTakeOver 9 "cp-b" "org1" 3) ex_mem).1
       with inl c => c | _ => None end)) _
    [OpUpsertWorkerRecord (set_epoch 4 (set_owner "cp-b" (ex_worker 9 Hot "org1")))] _ _ _ _).
  - apply ex_keyed.
  - vm_compute. reflexivity.
  - vm_compute. reflexivity.
  - vm_compute. reflexivity.
Defined.

Lemma finished_worker_never_claimed_witness :
  W_ID ex_claimed ≠ 8.
Proof.
  apply (finished_worker_never_claimed ex_claim ex_mem (run_claim ex_claim ex_mem).2 8
    (ex_worker 8 Retired "") []).
  - apply ex_keyed.
  - reflexivity.
  - apply (bool_decide_eq_true_1 _). reflexivity.
  - vm_compute. reflexivity.
Defined.

(** * Capacity *)

(** The active workers of an org, and all active workers, as the code counts
    them. *)
Definition org_active (org : string) (s : db) : Z :=
  count_workers (λ r, state_in workerActiveStates r && bool_decide (W_OrgID r = org)) s.
Definition all_active (s : db) : Z := count_workers (state_in workerActiveStates) s.

Lemma count_workers_ext P P' s : (∀ r, P r = P' r) → count_workers P s = count_workers P' s.
Proof.
  intros HP. unfold count_workers. do 2 f_equal. apply map_filter_ext. intros k r _. simpl. by rewrite HP.
Qed.

(** Writing one row changes a count by at most one, and not upwards when the row
    already counted. *)
Lemma count_workers_insert P k c s :
  count_workers P (with_workers (<[ k := c ]> (t_workers s)) s) ≤ count_workers P s + 1.
Proof.
  unfold count_workers. simpl. rewrite map_filter_insert. case_decide.
  - rewrite map_size_insert. destruct (_ !! k); simpl; lia.
  - rewrite map_filter_delete, map_size_delete.
    destruct (_ !! k); simpl; lia.
Qed.

Lemma count_workers_replace P k r c s :
  t_workers s !! k = Some r → P r = true →
  count_workers P (with_workers (<[ k := c ]> (t_workers s)) s) ≤ count_workers P s.
Proof.
  intros Hr HP. unfold count_workers. simpl.
  assert (filter (λ kv : Z * WorkerRecord, P kv.2 = true) (t_workers s) !! k = Some r) as Hf
    by (by apply map_lookup_filter_Some).
  rewrite map_filter_insert. case_decide.
  - rewrite map_size_insert, Hf. simpl. lia.
  - rewrite map_filter_delete, map_size_delete, Hf. simpl. lia.
Qed.

(** [s'] respects [cap] for the measure [count]: it did not grow, or it is within
    a cap that is in force. *)
Definition within_cap (count : db → Z) (cap : Z) (s s' : db) : Prop :=
  0 < cap → count s' ≤ Z.max (count s) cap.

Lemma within_cap_same count cap s : within_cap count cap s s.
Proof. unfold within_cap. lia. Qed.

Lemma org_full_active cap org s :
  org ≠ ""%string → ¬ org_full cap org (λ _, true) s → 0 < cap → org_active org s < cap.
Proof.
  intros Ho Hf Hc. unfold org_full in Hf. unfold org_active.
  rewrite (count_workers_ext _ (λ r, state_in workerActiveStates r && (bool_decide (W_OrgID r = org) && true))).
  - apply Z.nle_gt. intros Hle. apply Hf. done.
  - intros r. by rewrite andb_true_r.
Qed.

Lemma cap_full_active cap s : ¬ cap_full cap (λ _, true) s → 0 < cap → all_active s < cap.
Proof.
  intros Hf Hc. unfold cap_full in Hf. unfold all_active.
  rewrite (count_workers_ext _ (λ r, state_in workerActiveStates r && true)).
  - apply Z.nle_gt. intros Hle. by apply Hf.
  - intros r. by rewrite andb_true_r.
Qed.

Lemma claims_org_cap ok owner org cap s s' c :
  org ≠ ""%string → ¬ org_full cap org (λ _, true) s → claims ok owner (Some org) s s' c →
  within_cap (org_active org) cap s s'.
Proof.
  intros Ho Hf (old & now & _ & _ & _ & ->) Hc.
  pose proof (org_full_active _ _ _ Ho Hf Hc).
  unfold org_active at 1.
  pose proof (count_workers_insert (λ r, state_in workerActiveStates r && bool_decide (W_OrgID r = org))
    (W_ID old) c s). unfold org_active in *. lia.
Qed.

Lemma claims_not_more (P : WorkerRecord → bool) ok owner org s s' c :
  (∀ r, ok r → P r = true) → claims ok owner org s s' c →
  count_workers P s' ≤ count_workers P s.
Proof.
  intros Hok (old & now & Hold & Hw & _ & ->). eapply count_workers_replace; [done|by apply Hok].
Qed.

Lemma slot_cap (count : db → Z) (P : WorkerRecord → bool) cap org owner image epoch s s' c :
  (∀ s, count s = count_workers P s) → (0 < cap → count s < cap) →
  slot_created org owner image epoch s s' c → within_cap count cap s s'.
Proof.
  intros Heq Hlt (_ & _ & _ & _ & _ & _ & ->) Hc. specialize (Hlt Hc).
  pose proof (count_workers_insert P (W_ID c) c s). rewrite Heq in *. lia.
Qed.

Lemma claim_outcome_cap count cap full ok owner org s r s' :
  (∀ c, ¬ full → claims ok owner org s s' c → within_cap count cap s s') →
  claim_outcome full ok owner org s r s' → within_cap count cap s s'.
Proof.
  intros Hcap. destruct r as [[[c|] m]|e]; simpl.
  - intros (Hf & _ & Hc). eauto.
  - intros (-> & _). apply within_cap_same.
  - intros [_ [->|(Hf & c & Hc)]]; [apply within_cap_same|eauto].
Qed.

Lemma slot_outcome_cap count cap full org owner image epoch s r s' :
  (∀ c, ¬ full → slot_created org owner image epoch s s' c → within_cap count cap s s') →
  slot_outcome full org owner image epoch s r s' → within_cap count cap s s'.
Proof.
  intros Hcap. destruct r as [[c|]|[]]; simpl; try (by intros [? _]).
  - intros [Hf Hc]. eauto.
  - intros [_ ->]. apply within_cap_same.
  - intros [_ [->|(Hf & c & Hc)]]; [apply within_cap_same|eauto].
  - intros ->. apply within_cap_same.
Qed.

Lemma hot_idle_counts org r :
  hot_idle_of org r → state_in workerActiveStates r && bool_decide (W_OrgID r = org) = true.
Proof.
  intros [Hw Ho]. apply andb_true_iff. split; [unfold state_in; by rewrite Hw|].
  by apply bool_decide_eq_true.
Qed.

Lemma idle_counts image r : idle_for image r → state_in workerActiveStates r = true.
Proof. intros [Hw _]. unfold state_in. by rewrite Hw. Qed.

Section capacity.
Context {D : Type} `{WorldLaws D}.

(** C16. No allocation pushes an org past its worker cap. Claiming an idle worker,
    reclaiming a hot-idle one or creating a spawn slot, each with a positive cap
    for a named org, leaves the number of the org's active workers at most the
    cap or at most what it was — also when the operation reports an error. *)
Theorem org_cap_respected owner org image epoch prefix maxOrg maxGlobal s :
  keyed s → org ≠ ""%string →
  wp (D := D) (ClaimIdleWorker owner org image maxOrg maxGlobal) s
    (λ _ s', within_cap (org_active org) maxOrg s s') ∧
  wp (D := D) (ClaimHotIdleWorker owner org maxOrg) s
    (λ _ s', within_cap (org_active org) maxOrg s s') ∧
  wp (D := D) (CreateSpawningWorkerSlot owner org image epoch prefix maxOrg maxGlobal) s
    (λ _ s', within_cap (org_active org) maxOrg s s').
Proof.
  intros Hk Ho. split; [|split].
  - eapply wp_mono; [by apply ClaimIdleWorker_spec|]. intros r s'. apply claim_outcome_cap.
    intros c. by apply claims_org_cap.
  - eapply wp_mono; [by apply ClaimHotIdleWorker_spec|]. intros r s'. apply claim_outcome_cap.
    intros c _ Hc _. pose proof (claims_not_more _ _ _ _ _ _ _ (hot_idle_counts org) Hc).
    unfold org_active. lia.
  - eapply wp_mono; [apply CreateSpawningWorkerSlot_spec|]. intros r s'. apply slot_outcome_cap.
    intros c Hf. eapply slot_cap; [done|]. intros. apply org_full_active; [done|tauto|done].
Qed.

(** No slot constructor pushes the cluster past its global worker cap, and
    claiming never adds a worker to it. *)
Theorem global_cap_respected owner org image epoch prefix maxOrg target maxGlobal s :
  keyed s →
  wp (D := D) (CreateSpawningWorkerSlot owner org image epoch prefix maxOrg maxGlobal) s
    (λ _ s', within_cap all_active maxGlobal s s') ∧
  wp (D := D) (CreateNeutralWarmWorkerSlotForImage owner prefix image target maxGlobal) s
    (λ _ s', within_cap all_active maxGlobal s s') ∧
  wp (D := D) (CreateNeutralWarmWorkerSlot owner prefix image target maxGlobal) s
    (λ _ s', within_cap all_active maxGlobal s s') ∧
  wp (D := D) (ClaimIdleWorker owner org image maxOrg maxGlobal) s
    (λ _ s', all_active s' ≤ all_active s).
Proof.
  intros Hk. assert (∀ full org epoch s' c, ¬ (full ∨ cap_full maxGlobal (λ _, true) s) →
    slot_created org owner image epoch s s' c → within_cap all_active maxGlobal s s') as Hslot.
  { intros full o e s' c Hf. eapply slot_cap; [done|]. intros. apply cap_full_active; tauto. }
  split; [|split; [|split]].
  - eapply wp_mono; [apply CreateSpawningWorkerSlot_spec|]. intros r s'.
    apply slot_outcome_cap. intros c. apply Hslot.
  - eapply wp_mono; [apply CreateNeutralWarmWorkerSlotForImage_spec|]. intros r s'.
    apply slot_outcome_cap. intros c. apply Hslot.
  - eapply wp_mono; [apply CreateNeutralWarmWorkerSlot_spec|]. intros r s'.
    apply slot_outcome_cap. intros c. apply Hslot.
  - eapply wp_mono; [by apply ClaimIdleWorker_spec|]. intros [[[c|] m]|e] s'; simpl.
    + intros (_ & _ & Hc). eapply claims_not_more; [apply idle_counts|done].
    + intros (-> & _). lia.
    + intros [_ [->|(_ & c & Hc)]]; [lia|]. eapply claims_not_more; [apply idle_counts|done].
Qed.

(** Orphan cleanup never retires a worker of a live control plane: whatever
    row the caller believes it observed, if the worker's owner has an instance
    row that is not expired, [RetireOrphanWorker] leaves the worker's record
    exactly as it is. *)
Theorem retire_orphan_spares_live_owner record why s k w owner :
  keyed s → t_workers s !! k = Some w → W_Owner w = Some owner → owner ≠ ""%string →
  cp_live s owner = true →
  wp (D := D) (RetireOrphanWorker (Some record) why) s (λ _ s', t_workers s' !! k = Some w).
Proof.
  intros Hk Hw Ho Hne Hlive. unfold RetireOrphanWorker. wp_step. wp_step. wp_step.
  apply wp_exec; [done|]. intros e n s' Hup.
  assert (t_workers s' !! k = Some w) as Hw'.
  { destruct (UPDATE_workers_lookup _ _ _ _ _ _ _ _ Hup Hw) as [[_ ?]|[HP _]]; [done|exfalso].
    unfold observed_is in HP. rewrite !andb_true_iff, !orb_true_iff in HP.
    destruct HP as [[[[_ Hown] _] _] Hdead]. destruct Hown as [Hown|Hown].
    - apply bool_decide_eq_true in Hown. rewrite Ho in Hown. injection Hown as Hown.
      rewrite <- Hown, Hlive in Hdead. destruct Hdead as [?%bool_decide_eq_true|?]; done.
    - apply andb_true_iff in Hown as [_ Hown%bool_decide_eq_true]. congruence. }
  split; [|done]. by wp_step.
Qed.
End capacity.

Lemma org_cap_respected_witness :
  wp (D := mem) (ClaimIdleWorker "cp-b" "org1" "" 1 5) ex_db
    (λ _ s', within_cap (org_active "org1") 1 ex_db s').
Proof.
  refine (proj1 (org_cap_respected (D := mem) "cp-b" "org1" "" 0 "pod" 1 5 ex_db _ _)).
  - exact ex_keyed.
  - discriminate.
Defined.

Lemma global_cap_respected_witness :
  wp (D := mem) (CreateSpawningWorkerSlot "cp-b" "org1" "img" 0 "pod" 9 2) ex_db
    (λ _ s', within_cap all_active 2 ex_db s').
Proof.
  refine (proj1 (global_cap_respected (D := mem) "cp-b" "org1" "img" 0 "pod" 9 1 2 ex_db _)).
  exact ex_keyed.
Defined.

(** cp-a is live, so worker 9 survives an attempt to retire it as an orphan. *)
Definition ex_cp : ControlPlaneInstance :=
  {| CP_ID := "cp-a"; CP_PodName := "p"; CP_PodUID := "u"; CP_BootID := "b"; CP_State := CPDraining;
     CP_StartedAt := 1; CP_LastHeartbeatAt := 40; CP_DrainingAt := Some 41; CP_ExpiredAt := None;
     CP_CreatedAt := 1; CP_UpdatedAt := 41 |}.

Lemma retire_orphan_spares_live_owner_witness :
  wp (D := mem) (RetireOrphanWorker (Some (ex_worker 9 Hot "org1")) "orphaned")
    (with_cps {[ "cp-a"%string := ex_cp ]} ex_db)
    (λ _ s', t_workers s' !! 9 = Some (ex_worker 9 Hot "org1")).
Proof.
  apply (retire_orphan_spares_live_owner (D := mem) (ex_worker 9 Hot "org1") "orphaned"
    (with_cps {[ "cp-a"%string := ex_cp ]} ex_db) 9 (ex_worker 9 Hot "org1") "cp-a").
  - exact ex_keyed.
  - reflexivity.
  - reflexivity.
  - discriminate.
  - reflexivity.
Defined.
