(* ===== verification/OrgConnections.v ===== *)
(** Cluster-wide admission of org connections
    (src/controlplane/configstore/org_connections.go): a FIFO queue of requests
    and a table of leases, in the database world of RuntimeDB.

    The queue is ordered by [enqueued_at], then [request_id]; text order depends
    on the database's collation and is a parameter, of which only that it is a
    total order is used. *)

From Stdlib Require Import Strings.Byte.
From stdpp Require Import prelude gmap strings list fin_maps sorting.
From Stdlib Require Import ZArith Lia.
From S2P Require Import Prelude RuntimeDB RuntimeStore StoreSpec.

Open Scope Z_scope.

Definition missingOwnerOrgConnectionLeaseGrace : Z := 5 * 60 * 1000000.

Definition INSERT_queue (now : time) (e : OrgConnectionQueueEntry) : stmt unit := λ _ s,
  let row := {| Q_RequestID := Q_RequestID e; Q_OrgID := Q_OrgID e; Q_CP := Q_CP e;
                Q_PID := Q_PID e; Q_Protocol := Q_Protocol e; Q_EnqueuedAt := Q_EnqueuedAt e;
                Q_ExpiresAt := Q_ExpiresAt e; Q_GrantedAt := Q_GrantedAt e;
                Q_CanceledAt := Q_CanceledAt e;
                Q_CreatedAt := if IsZero (Q_CreatedAt e) then now else Q_CreatedAt e;
                Q_UpdatedAt := if IsZero (Q_UpdatedAt e) then now else Q_UpdatedAt e |} in
  match t_queue s !! Q_RequestID e with
  | Some _ => None
  | None => Some ((), with_queue (<[ Q_RequestID e := row ]> (t_queue s)) s)
  end.

(** lease_id is the primary key and request_id has a unique index. *)
Definition INSERT_lease (l : OrgConnectionLease) : stmt unit := λ _ s,
  if bool_decide (t_leases s !! L_LeaseID l = None)
     && bool_decide (map_Forall (λ _ l', L_RequestID l' ≠ L_RequestID l) (t_leases s))
  then Some ((), with_leases (<[ L_LeaseID l := l ]> (t_leases s)) s)
  else None.

Definition DELETE_queue (P : OrgConnectionQueueEntry → bool) : stmt unit := λ _ s,
  Some ((), with_queue (delete_where P (t_queue s)) s).
Definition DELETE_leases (P : db → OrgConnectionLease → bool) : stmt unit := λ _ s,
  Some ((), with_leases (delete_where (P s) (t_leases s)) s).

Definition queue_set_times (now ttl : time) (e : OrgConnectionQueueEntry) : OrgConnectionQueueEntry :=
  {| Q_RequestID := Q_RequestID e; Q_OrgID := Q_OrgID e; Q_CP := Q_CP e; Q_PID := Q_PID e;
     Q_Protocol := Q_Protocol e; Q_EnqueuedAt := now; Q_ExpiresAt := now + ttl;
     Q_GrantedAt := Q_GrantedAt e; Q_CanceledAt := Q_CanceledAt e;
     Q_CreatedAt := Q_CreatedAt e; Q_UpdatedAt := Q_UpdatedAt e |}.

Definition queue_set_granted (now : time) (e : OrgConnectionQueueEntry) : OrgConnectionQueueEntry :=
  {| Q_RequestID := Q_RequestID e; Q_OrgID := Q_OrgID e; Q_CP := Q_CP e; Q_PID := Q_PID e;
     Q_Protocol := Q_Protocol e; Q_EnqueuedAt := Q_EnqueuedAt e; Q_ExpiresAt := Q_ExpiresAt e;
     Q_GrantedAt := Some now; Q_CanceledAt := Q_CanceledAt e;
     Q_CreatedAt := Q_CreatedAt e; Q_UpdatedAt := now |}.

Definition is_nil {A} (o : option A) : bool := match o with None => true | Some _ => false end.

(** Waiting: neither granted nor canceled, and not expired at [now]. *)
Definition ungranted (e : OrgConnectionQueueEntry) : bool :=
  is_nil (Q_GrantedAt e) && is_nil (Q_CanceledAt e).
Definition pending (org : string) (now : time) (e : OrgConnectionQueueEntry) : bool :=
  bool_decide (Q_OrgID e = org) && ungranted e && bool_decide (now < Q_ExpiresAt e).

(** Leases that count: the owner has no instance row or one that is not expired. *)
Definition lease_owner_alive (s : db) (l : OrgConnectionLease) : bool :=
  match t_cps s !! L_CP l with
  | None => true
  | Some cp => negb (bool_decide (CP_State cp = CPExpired))
  end.
Definition active_lease (org : string) (s : db) (l : OrgConnectionLease) : bool :=
  bool_decide (L_OrgID l = org) && lease_owner_alive s l.

Section org_connections.
Context {D : Type} `{World D}.
Context (collate : string → string → Prop) `{!RelDecision collate}.

(** [ORDER BY enqueued_at ASC, request_id ASC] *)
Definition queue_le (a b : OrgConnectionQueueEntry) : Prop :=
  Q_EnqueuedAt a < Q_EnqueuedAt b
  ∨ (Q_EnqueuedAt a = Q_EnqueuedAt b ∧ collate (Q_RequestID a) (Q_RequestID b)).
#[export] Instance queue_le_dec : RelDecision queue_le.
Proof. intros a b. unfold queue_le. apply _. Defined.

Definition EnqueueOrgConnectionRequest (entry : option OrgConnectionQueueEntry) : M D unit :=
  match entry with
  | None => fail (ErrInvalid "org connection queue entry is required")
  | Some entry =>
      if bool_decide (TrimSpace (Q_RequestID entry) = ""%string)
      then fail (ErrInvalid "org connection request id is required") else
      if bool_decide (TrimSpace (Q_OrgID entry) = ""%string)
      then fail (ErrInvalid "org connection org id is required") else
      enqueuedAt ← (if IsZero (Q_EnqueuedAt entry) then time_Now else mret (Q_EnqueuedAt entry));
      if IsZero (Q_ExpiresAt entry)
      then fail (ErrInvalid "org connection request expiry is required") else
      let ttl := Q_ExpiresAt entry - enqueuedAt in
      if bool_decide (ttl ≤ 0)
      then fail (ErrInvalid "org connection request expiry must be after enqueue time") else
      Transaction (
        now ← exec (SELECT (λ e _, env_clock e));
        goNow ← time_Now;
        exec (INSERT_queue goNow (queue_set_times now ttl entry)))
  end.

Definition orgConnectionDatabaseNow : M D time := exec (SELECT (λ e _, env_clock e)).

Definition orgIDForConnectionRequest (requestID : string) : M D (option string) :=
  exec (SELECT (λ _ s, Q_OrgID <$> t_queue s !! requestID)).

Definition lockOrgConnectionRequest (requestID : string) : M D (option OrgConnectionQueueEntry) :=
  exec (SELECT (λ _ s, t_queue s !! requestID)).

Definition lease_of_request (requestID : string) (s : db) : option OrgConnectionLease :=
  head (map_to_list (filter (λ kv : string * OrgConnectionLease, L_RequestID kv.2 = requestID)
          (t_leases s))).*2.

Definition existingOrgConnectionLease (requestID : string) : M D (option OrgConnectionLease) :=
  exec (SELECT (λ _, lease_of_request requestID)).

(** The queue of the org, first come first. *)
Definition org_queue (org : string) (now : time) (s : db) : list OrgConnectionQueueEntry :=
  merge_sort queue_le
    (map_to_list (filter (λ kv : string * OrgConnectionQueueEntry, pending org now kv.2 = true)
       (t_queue s))).*2.

Definition isOrgConnectionQueueHead (request : OrgConnectionQueueEntry) (now : time) : M D bool :=
  first ← exec (SELECT (λ _ s, head (org_queue (Q_OrgID request) now s)));
  mret (match first with
        | None => false
        | Some h => bool_decide (Q_RequestID h = Q_RequestID request)
        end).

Definition countActiveOrgConnectionLeases (orgID : string) : M D Z :=
  exec (SELECT (λ _ s, count_where (active_lease orgID s) (t_leases s))).

Definition cleanupOrgConnectionRowsLocked (orgID : string) (now : time) : M D unit :=
  exec (DELETE_queue (λ e, bool_decide (Q_OrgID e = orgID) && ungranted e
                           && bool_decide (Q_ExpiresAt e ≤ now)));;
  exec (DELETE_leases (λ s l, bool_decide (L_OrgID l = orgID)
    && match t_cps s !! L_CP l with Some cp => bool_decide (CP_State cp = CPExpired) | None => false end));;
  exec (DELETE_leases (λ s l, bool_decide (L_OrgID l = orgID)
    && bool_decide (L_AcquiredAt l ≤ now - missingOwnerOrgConnectionLeaseGrace)
    && bool_decide (t_cps s !! L_CP l = None))).

Definition lease_for (request : OrgConnectionQueueEntry) (now goNow : time) : OrgConnectionLease :=
  {| L_LeaseID := Q_RequestID request; L_RequestID := Q_RequestID request;
     L_OrgID := Q_OrgID request; L_CP := Q_CP request; L_PID := Q_PID request;
     L_Protocol := Q_Protocol request; L_AcquiredAt := now; L_CreatedAt := goNow; L_UpdatedAt := goNow |}.

Definition UPDATE_queue (P : OrgConnectionQueueEntry → bool)
    (g : OrgConnectionQueueEntry → OrgConnectionQueueEntry) : stmt unit := λ _ s,
  Some ((), with_queue (map_where P g (t_queue s)) s).

Definition createOrgConnectionLease (request : OrgConnectionQueueEntry) (now : time)
    : M D OrgConnectionLease :=
  goNow ← time_Now;
  let created := lease_for request now goNow in
  exec (INSERT_lease created);;
  exec (UPDATE_queue (λ e, bool_decide (Q_RequestID e = Q_RequestID request)) (queue_set_granted now));;
  mret created.

(** One attempt: the lease if there is one, and whether to retry. *)
Definition tryAcquireOrgConnectionLeaseOnce (requestID : string) (maxConnections : Z)
    : M D (option OrgConnectionLease * bool) :=
  Transaction (
    org ← orgIDForConnectionRequest requestID;
    match org with
    | None => mret (None, false)
    | Some orgID =>
        exec (advisory_xact_lock (advisoryLockKey ("duckgres:org-connections:" +:+ orgID)));;
        now ← orgConnectionDatabaseNow;
        cleanupOrgConnectionRowsLocked orgID now;;
        row ← lockOrgConnectionRequest requestID;
        match row with
        | None => mret (None, false)
        | Some request =>
            if bool_decide (Q_OrgID request ≠ orgID) then mret (None, true) else
            existing ← existingOrgConnectionLease requestID;
            match existing with
            | Some lease => mret (Some lease, false)
            | None =>
                if bool_decide (Q_ExpiresAt request ≤ now) || negb (ungranted request)
                then mret (None, false) else
                atHead ← isOrgConnectionQueueHead request now;
                if negb atHead then mret (None, false) else
                full ← (if bool_decide (0 < maxConnections) then
                          count ← countActiveOrgConnectionLeases orgID;
                          mret (bool_decide (maxConnections ≤ count))
                        else mret false);
                if (full : bool) then mret (None, false) else
                created ← createOrgConnectionLease request now;
                mret (Some created, false)
            end
        end
    end).

(** The retry loop; [fuel] bounds the attempts. *)
Fixpoint acquire_loop (fuel : nat) (requestID : string) (maxConnections : Z)
    : M D (option OrgConnectionLease) :=
  match fuel with
  | O => fail ErrDB
  | S fuel' =>
      r ← tryAcquireOrgConnectionLeaseOnce requestID maxConnections;
      if (r.2 : bool) then acquire_loop fuel' requestID maxConnections else mret r.1
  end.

Definition TryAcquireOrgConnectionLease (requestID : string) (maxConnections : Z)
    : M D (option OrgConnectionLease) :=
  if bool_decide (TrimSpace requestID = ""%string)
  then fail (ErrInvalid "org connection request id is required")
  else acquire_loop 1 requestID maxConnections.

Definition ReleaseOrgConnectionLease (leaseID : string) : M D unit :=
  if bool_decide (TrimSpace leaseID = ""%string) then mret () else
  Transaction (
    exec (DELETE_leases (λ _ l, bool_decide (L_LeaseID l = leaseID)));;
    exec (DELETE_queue (λ e, bool_decide (Q_RequestID e = leaseID)))).

Definition CancelOrgConnectionRequest (requestID : string) : M D unit :=
  if bool_decide (TrimSpace requestID = ""%string) then mret () else
  exec (DELETE_queue (λ e, bool_decide (Q_RequestID e = requestID) && ungranted e)).

Definition ActiveOrgConnectionLeaseCount (orgID : string) : M D Z :=
  Transaction (countActiveOrgConnectionLeases orgID).
End org_connections.

(** * Specification *)

(** Rows are filed under their ids, a lease bears the id of its request, and its
    request is in the queue, granted, for the same org. *)
Record conn_ok (s : db) : Prop := {
  conn_queue_keyed : map_Forall (λ k q, Q_RequestID q = k) (t_queue s);
  conn_lease_keyed : map_Forall (λ k l, L_LeaseID l = k ∧ L_RequestID l = k) (t_leases s);
  conn_lease_backed : map_Forall (λ k l, ∃ q, t_queue s !! k = Some q ∧ Q_OrgID q = L_OrgID l ∧
                                        is_Some (Q_GrantedAt q)) (t_leases s);
}.

(** What the cleanup of an org's rows leaves. *)
Definition lease_dead (org : string) (now : time) (s : db) (l : OrgConnectionLease) : bool :=
  bool_decide (L_OrgID l = org)
  && match t_cps s !! L_CP l with
     | Some cp => bool_decide (CP_State cp = CPExpired)
     | None => bool_decide (L_AcquiredAt l ≤ now - missingOwnerOrgConnectionLeaseGrace)
     end.
Definition cleanup (org : string) (now : time) (s : db) : db :=
  with_leases (delete_where (lease_dead org now s) (t_leases s))
    (with_queue (delete_where (λ e, bool_decide (Q_OrgID e = org) && ungranted e
                                    && bool_decide (Q_ExpiresAt e ≤ now)) (t_queue s)) s).

Definition grant (q : OrgConnectionQueueEntry) (now : time) (l : OrgConnectionLease) (s : db) : db :=
  with_queue (map_where (λ e, bool_decide (Q_RequestID e = Q_RequestID q)) (queue_set_granted now)
                (t_queue s))
    (with_leases (<[ L_LeaseID l := l ]> (t_leases s)) s).

Definition org_leases (org : string) (s : db) : Z := count_where (active_lease org s) (t_leases s).

Lemma delete_where_twice {A} (P Q : A → bool) (t : gmap string A) :
  delete_where Q (delete_where P t) = delete_where (λ x, P x || Q x) t.
Proof.
  unfold delete_where. rewrite map_filter_filter. apply map_filter_ext. intros k x _. simpl.
  destruct (P x), (Q x); simpl; intuition congruence.
Qed.

Section spec.
Context {D : Type} `{WorldLaws D}.
Context (collate : string → string → Prop) `{!RelDecision collate}.

(** [q] may be granted a lease: it is waiting, first in its org's queue, and the
    org is below its limit. *)
Definition grantable (now : time) (max : Z) (q : OrgConnectionQueueEntry) (s : db) : Prop :=
  pending (Q_OrgID q) now q = true ∧
  (∃ h, head (org_queue collate (Q_OrgID q) now s) = Some h ∧ Q_RequestID h = Q_RequestID q) ∧
  (0 < max → org_leases (Q_OrgID q) s < max).

(** The successful outcomes of one attempt for [req]. *)
Inductive acquired (req : string) (max : Z) (s : db)
    : option OrgConnectionLease → db → Prop :=
  | acquired_unknown :
      t_queue s !! req = None → acquired req max s None s
  | acquired_expired now q :
      t_queue s !! req = Some q → t_queue (cleanup (Q_OrgID q) now s) !! req = None →
      acquired req max s None (cleanup (Q_OrgID q) now s)
  | acquired_existing now q l :
      t_queue s !! req = Some q → t_queue (cleanup (Q_OrgID q) now s) !! req = Some q →
      lease_of_request req (cleanup (Q_OrgID q) now s) = Some l →
      acquired req max s (Some l) (cleanup (Q_OrgID q) now s)
  | acquired_waiting now q :
      t_queue s !! req = Some q → t_queue (cleanup (Q_OrgID q) now s) !! req = Some q →
      lease_of_request req (cleanup (Q_OrgID q) now s) = None →
      ¬ grantable now max q (cleanup (Q_OrgID q) now s) →
      acquired req max s None (cleanup (Q_OrgID q) now s)
  | acquired_granted now goNow q :
      t_queue s !! req = Some q → t_queue (cleanup (Q_OrgID q) now s) !! req = Some q →
      lease_of_request req (cleanup (Q_OrgID q) now s) = None →
      grantable now max q (cleanup (Q_OrgID q) now s) →
      acquired req max s (Some (lease_for q now goNow))
        (grant q now (lease_for q now goNow) (cleanup (Q_OrgID q) now s)).

Definition once_outcome (req : string) (max : Z) (s : db)
    (r : option OrgConnectionLease * bool + store_error) (s' : db) : Prop :=
  match r with
  | inl (l, retry) => retry = false ∧ acquired req max s l s'
  | inr e => e = ErrDB ∧ (s' = s ∨ ∃ l, acquired req max s l s')
  end.

Lemma wp_cleanup org now s (Q : () + store_error → db → Prop) :
  (∀ s', Q (inr ErrDB) s') → Q (inl ()) (cleanup org now s) →
  wp (D := D) (cleanupOrgConnectionRowsLocked org now) s Q.
Proof.
  intros Herr HQ. unfold cleanupOrgConnectionRowsLocked.
  wp_step. apply wp_exec; [done|]. intros e [] s1 [= <-]. split; [|done].
  wp_step. apply wp_exec; [done|]. intros e1 [] s2 [= <-]. split; [|done].
  apply wp_exec; [done|]. intros e2 [] s3 [= <-]. split; [|done].
  match goal with |- Q _ ?x => replace x with (cleanup org now s); [done|] end.
  unfold cleanup. simpl. unfold with_leases, with_queue. simpl. f_equal.
  rewrite delete_where_twice. unfold delete_where. apply map_filter_ext. intros k l _. simpl.
  unfold lease_dead. destruct (t_cps s !! L_CP l); simpl.
  - rewrite !andb_false_r, orb_false_r. done.
  - rewrite !andb_false_r, andb_true_r. done.
Qed.

Lemma cleanup_queue_lookup org now s req q :
  t_queue s !! req = Some q →
  t_queue (cleanup org now s) !! req = None ∨ t_queue (cleanup org now s) !! req = Some q.
Proof.
  intros Hq. simpl. unfold delete_where. destruct (filter _ _ !! req) as [q'|] eqn:E; [right|by left].
  apply map_lookup_filter_Some in E as [E _]. congruence.
Qed.

Lemma wp_limit max org s (Q : bool + store_error → db → Prop) :
  Q (inr ErrDB) s → Q (inl (bool_decide (0 < max ∧ max ≤ org_leases org s))) s →
  wp (D := D) (if bool_decide (0 < max) then
        count ← countActiveOrgConnectionLeases org; mret (bool_decide (max ≤ count))
      else mret false) s Q.
Proof.
  intros Herr HQ. unfold countActiveOrgConnectionLeases. destruct (decide (0 < max)) as [Hc|Hc].
  - rewrite (bool_decide_eq_true_2 (0 < max)) by done. wp_go; [done|].
    erewrite bool_decide_ext; [exact HQ|]. tauto.
  - rewrite (bool_decide_eq_false_2 (0 < max)) by done. wp_go.
    rewrite bool_decide_eq_false_2 in HQ; [done|]. by intros [? _].
Qed.

(** The part of an attempt after the request was found and has no lease. *)
Lemma wp_grant_step req max q now s s1 :
  t_queue s !! req = Some q → s1 = cleanup (Q_OrgID q) now s →
  t_queue s1 !! req = Some q → lease_of_request req s1 = None →
  pending (Q_OrgID q) now q = true →
  wp (D := D)
    (atHead ← isOrgConnectionQueueHead collate q now;
     if negb atHead then mret (None, false) else
     full ← (if bool_decide (0 < max) then
               count ← countActiveOrgConnectionLeases (Q_OrgID q);
               mret (bool_decide (max ≤ count))
             else mret false);
     if (full : bool) then mret (None, false) else
     created ← createOrgConnectionLease q now;
     mret (Some created, false)) s1
    (λ r s', match r with
             | inl a => once_outcome req max s (inl a) s' ∧ once_outcome req max s (inr ErrDB) s'
             | inr e => once_outcome req max s (inr e) s
             end).
Proof.
  intros Hq Hs1 Hq1 Hnone Hpend.
  assert (∀ l s', acquired req max s l s' →
    once_outcome req max s (inl (l, false)) s' ∧ once_outcome req max s (inr ErrDB) s') as Hdone
    by (simpl; eauto 10).
  wp_step. unfold isOrgConnectionQueueHead. wp_step. wp_step; [simpl; auto|]. wp_step.
  destruct (match head _ with Some h => _ | None => _ end) eqn:Hhead.
  2: { simpl. wp_step. apply Hdone. subst s1. apply acquired_waiting; [done..|].
       intros (_ & (h & Hh & Hid) & _). rewrite Hh in Hhead.
       by rewrite bool_decide_eq_true_2 in Hhead. }
  assert (∃ h, head (org_queue collate (Q_OrgID q) now s1) = Some h ∧ Q_RequestID h = Q_RequestID q)
    as Hh. { destruct (head _) as [h|]; [|done]. apply bool_decide_eq_true in Hhead. eauto. }
  simpl. wp_step. apply wp_limit; [simpl; auto|]. case_bool_decide as Hfull.
  { wp_step. apply Hdone. subst s1. apply acquired_waiting; [done..|].
    intros (_ & _ & Hlt). lia. }
  unfold createOrgConnectionLease. wp_step. wp_step. wp_step. wp_step.
  apply wp_exec; [simpl; auto|]. intros e2 [] s2. unfold INSERT_lease.
  destruct (_ && _); [|done]. intros [= <-]. split; [|simpl; auto].
  wp_step. apply wp_exec; [simpl; auto|]. intros e3 [] s3 [= <-]. split; [|simpl; auto].
  wp_step. wp_step. apply Hdone. subst s1. apply acquired_granted; [done..|].
  split; [done|]. split; [done|]. lia.
Qed.

Lemma tryAcquireOnce_spec req max s :
  wp (D := D) (tryAcquireOrgConnectionLeaseOnce collate req max) s (once_outcome req max s).
Proof.
  unfold tryAcquireOrgConnectionLeaseOnce, orgIDForConnectionRequest, advisory_xact_lock.
  wp_step; [simpl; auto|]. wp_step. wp_step; [simpl; auto|].
  destruct (t_queue s !! req) as [q|] eqn:Hq; simpl.
  2: { wp_step. simpl. pose proof (acquired_unknown req max s Hq). eauto 10. }
  wp_step. wp_step; [simpl; auto|]. wp_step. wp_step; [simpl; auto|].
  set (now := env_clock _). clearbody now.
  wp_step. apply wp_cleanup; [simpl; auto|]. wp_step. wp_step; [simpl; auto|].
  destruct (cleanup_queue_lookup (Q_OrgID q) now s req q Hq) as [Hq1|Hq1]; rewrite Hq1.
  { wp_step. simpl. pose proof (acquired_expired req max s now q Hq Hq1). eauto 10. }
  rewrite bool_decide_eq_false_2 by auto. wp_step. wp_step; [simpl; auto|].
  destruct (lease_of_request req (cleanup (Q_OrgID q) now s)) as [l|] eqn:Hl.
  { wp_step. simpl. pose proof (acquired_existing req max s now q l Hq Hq1 Hl). eauto 10. }
  destruct (bool_decide (Q_ExpiresAt q ≤ now) || negb (ungranted q)) eqn:Hp.
  { wp_step. simpl.
    assert (¬ grantable now max q (cleanup (Q_OrgID q) now s)) as Hg.
    { intros [Hpend _]. unfold pending in Hpend.
      rewrite !andb_true_iff, !bool_decide_eq_true in Hpend.
      rewrite orb_true_iff, negb_true_iff, bool_decide_eq_true in Hp. destruct Hpend as [[_ ?] ?], Hp; [lia|congruence]. }
    pose proof (acquired_waiting req max s now q Hq Hq1 Hl Hg). eauto 10. }
  apply wp_grant_step; [done..|]. unfold pending.
  rewrite !andb_true_iff, !bool_decide_eq_true. apply orb_false_iff in Hp as [Hp1%bool_decide_eq_false Hp2].
  apply negb_false_iff in Hp2. split; [done|lia].
Qed.

(** The loop makes one attempt: a retry is never asked for, so that any number
    of rounds gives the result of the first. *)
Lemma acquire_loop_spec fuel req max s :
  wp (D := D) (acquire_loop collate (S fuel) req max) s
    (λ r s', match r with
             | inl l => acquired req max s l s'
             | inr e => e = ErrDB ∧ (s' = s ∨ ∃ l, acquired req max s l s')
             end).
Proof.
  cbn [acquire_loop]. apply wp_bind. eapply wp_mono; [apply tryAcquireOnce_spec|].
  intros [[l retry]|e] s'; simpl; [|done]. intros [-> Ha]. by wp_step.
Qed.
End spec.

(** * Invariant *)

Lemma delete_where_lookup {A} (P : A → bool) (t : gmap string A) k x :
  delete_where P t !! k = Some x ↔ t !! k = Some x ∧ P x = false.
Proof. unfold delete_where. by rewrite map_lookup_filter_Some. Qed.

(** Deleting leases, and queue rows that are not granted or whose lease goes
    too, keeps the invariant. *)
Lemma conn_ok_delete s (P : OrgConnectionLease → bool) (Q : OrgConnectionQueueEntry → bool) :
  conn_ok s →
  (∀ k l q, t_leases s !! k = Some l → t_queue s !! k = Some q → P l = false → is_Some (Q_GrantedAt q) →
     Q q = false) →
  conn_ok (with_leases (delete_where P (t_leases s)) (with_queue (delete_where Q (t_queue s)) s)).
Proof.
  intros [Hq Hl Hb] HPQ. split; simpl.
  - intros k q [Hk _]%delete_where_lookup. by apply Hq.
  - intros k l [Hk _]%delete_where_lookup. by apply Hl.
  - intros k l [Hk HP]%delete_where_lookup. destruct (Hb k l Hk) as (q & Hkq & Horg & Hg).
    exists q. rewrite delete_where_lookup. eauto 10.
Qed.

Lemma granted_not_ungranted q : is_Some (Q_GrantedAt q) → ungranted q = false.
Proof. intros [t Ht]. unfold ungranted. by rewrite Ht. Qed.

Lemma cleanup_conn_ok org now s : conn_ok s → conn_ok (cleanup org now s).
Proof.
  intros Hok. apply conn_ok_delete; [done|]. intros k l q _ _ _ Hg.
  rewrite (granted_not_ungranted _ Hg). by rewrite andb_false_r.
Qed.

Lemma map_where_lookup {A} (P : A → bool) (g : A → A) (t : gmap string A) k :
  map_where P g t !! k = (λ x, if P x then g x else x) <$> t !! k.
Proof. apply lookup_fmap. Qed.

Lemma grant_conn_ok q now l s :
  conn_ok s → t_queue s !! Q_RequestID q = Some q →
  L_LeaseID l = Q_RequestID q → L_RequestID l = Q_RequestID q → L_OrgID l = Q_OrgID q →
  conn_ok (grant q now l s).
Proof.
  intros [Hq Hl Hb] Hqq Hid Hreq Horg. unfold grant. split; simpl.
  - intros k x. rewrite map_where_lookup. destruct (t_queue s !! k) as [y|] eqn:Hy; simpl; [|done].
    intros [= <-]. pose proof (Hq k y Hy) as Hk. simpl in Hk. by case_bool_decide.
  - intros k x. rewrite lookup_insert_Some. intros [[<- <-]|[_ Hx]]; [|by apply Hl].
    by rewrite Hid, Hreq.
  - intros k x. rewrite lookup_insert_Some. rewrite map_where_lookup. intros [[<- <-]|[_ Hx]].
    + rewrite Hid, Hqq. simpl. rewrite bool_decide_eq_true_2 by done.
      eexists. split; [done|]. simpl. by eauto.
    + destruct (Hb k x Hx) as (y & Hy & Hyo & Hg). rewrite Hy. simpl. eexists. split; [done|].
      case_bool_decide; simpl; eauto.
Qed.

Lemma INSERT_queue_conn_ok now q e s s' :
  conn_ok s → INSERT_queue now q e s = Some ((), s') → conn_ok s'.
Proof.
  intros [Hq Hl Hb]. unfold INSERT_queue. destruct (t_queue s !! Q_RequestID q) eqn:Hnone; [done|].
  intros [= <-]. split; simpl; [|done|].
  - intros k x. rewrite lookup_insert_Some. intros [[<- <-]|[_ Hx]]; [done|by apply Hq].
  - intros k l Hk. destruct (Hb k l Hk) as (y & Hy & Hyo & Hg). exists y.
    rewrite lookup_insert_ne by congruence. auto.
Qed.

Section invariant.
Context {D : Type} `{WorldLaws D}.
Context (collate : string → string → Prop) `{!RelDecision collate}.

Lemma acquired_conn_ok req max s l s' :
  conn_ok s → acquired collate req max s l s' → conn_ok s'.
Proof.
  intros Hok [|now q|now q|now q|now goNow q Hq Hq1 Hl Hg]; [done|by apply cleanup_conn_ok..|].
  apply grant_conn_ok; [by apply cleanup_conn_ok| |done..].
  by rewrite (conn_queue_keyed s Hok req q Hq).
Qed.

(** The operations of admission control. *)
Inductive conn_op :=
  | OpEnqueue (e : option OrgConnectionQueueEntry)
  | OpTryAcquire (req : string) (max : Z)
  | OpRelease (lease : string)
  | OpCancel (req : string).

Definition run_conn_op (op : conn_op) (d : D) : D :=
  match op with
  | OpEnqueue e => (EnqueueOrgConnectionRequest e d).2
  | OpTryAcquire req max => (TryAcquireOrgConnectionLease collate req max d).2
  | OpRelease l => (ReleaseOrgConnectionLease l d).2
  | OpCancel req => (CancelOrgConnectionRequest req d).2
  end.
Definition run_conn (ops : list conn_op) (d : D) : D := foldl (λ d op, run_conn_op op d) d ops.

Lemma Enqueue_conn_ok e s :
  conn_ok s → wp (D := D) (EnqueueOrgConnectionRequest e) s (λ _ s', conn_ok s').
Proof.
  intros Hok. unfold EnqueueOrgConnectionRequest. wp_go; try done;
    (apply wp_exec; [done|]); by intros x [] s' Hs%INSERT_queue_conn_ok.
Qed.

Lemma TryAcquire_conn_ok req max s :
  conn_ok s → wp (D := D) (TryAcquireOrgConnectionLease collate req max) s (λ _ s', conn_ok s').
Proof.
  intros Hok. unfold TryAcquireOrgConnectionLease. case_bool_decide; [by wp_go|].
  eapply wp_mono; [apply acquire_loop_spec|]. intros [l|e] s'.
  - by apply acquired_conn_ok.
  - intros [_ [->|[l Hl]]]; [done|by eapply acquired_conn_ok].
Qed.

Lemma Release_conn_ok l s :
  conn_ok s → wp (D := D) (ReleaseOrgConnectionLease l) s (λ _ s', conn_ok s').
Proof.
  intros Hok. unfold ReleaseOrgConnectionLease. case_bool_decide; [by wp_go|].
  wp_step; [done|]. wp_step. apply wp_exec; [done|]. intros e [] s1 [= <-]. split; [|done].
  apply wp_exec; [done|]. intros e1 [] s2 [= <-]. split; [|done].
  assert (conn_ok (with_leases (delete_where (λ x, bool_decide (L_LeaseID x = l)) (t_leases s))
    (with_queue (delete_where (λ x, bool_decide (Q_RequestID x = l)) (t_queue s)) s))) as Hdel; [|done].
  apply conn_ok_delete; [done|]. intros k x q Hx Hq HP _. apply bool_decide_eq_false in HP.
  apply bool_decide_eq_false. destruct (conn_lease_keyed s Hok k x Hx) as [Hk _].
  pose proof (conn_queue_keyed s Hok k q Hq) as Hkq. simpl in Hkq. congruence.
Qed.

Lemma Cancel_conn_ok req s :
  conn_ok s → wp (D := D) (CancelOrgConnectionRequest req) s (λ _ s', conn_ok s').
Proof.
  intros Hok. unfold CancelOrgConnectionRequest. case_bool_decide; [by wp_go|].
  apply wp_exec; [done|]. intros e [] s1 [= <-].
  assert (conn_ok (with_leases (delete_where (λ _, false) (t_leases s)) (with_queue
    (delete_where (λ x, bool_decide (Q_RequestID x = req) && ungranted x) (t_queue s)) s))) as Hdel.
  { apply conn_ok_delete; [done|]. intros k l q _ _ _ Hg. rewrite (granted_not_ungranted _ Hg).
    by rewrite andb_false_r. }
  assert (delete_where (λ _, false) (t_leases s) = t_leases s) as Heq.
  { unfold delete_where. apply map_filter_id. done. }
  rewrite Heq in Hdel. by destruct s.
Qed.
End invariant.

(** * Limit and fairness *)

Lemma count_where_delete {A} (P Q : A → bool) (t : gmap string A) :
  count_where P (delete_where Q t) ≤ count_where P t.
Proof.
  unfold count_where, delete_where. apply Nat2Z.inj_le, map_subseteq_size.
  rewrite map_filter_filter. apply map_subseteq_spec. intros k x.
  rewrite !map_lookup_filter_Some. tauto.
Qed.

Lemma count_where_insert {A} (P : A → bool) k (x : A) (t : gmap string A) :
  count_where P (<[ k := x ]> t) ≤ count_where P t + (if P x then 1 else 0).
Proof.
  unfold count_where. rewrite map_filter_insert. destruct (P x) eqn:E; simpl.
  - rewrite decide_True by done. rewrite map_size_insert. destruct (_ !! k); simpl; lia.
  - rewrite decide_False by (simpl; congruence). rewrite map_filter_delete, map_size_delete.
    destruct (_ !! k); simpl; lia.
Qed.

Lemma cleanup_org_leases org org' now s : org_leases org (cleanup org' now s) ≤ org_leases org s.
Proof. apply count_where_delete. Qed.

Section fairness.
Context {D : Type} `{WorldLaws D}.
Context (collate : string → string → Prop) `{!RelDecision collate}.

Lemma acquired_limit req max s l s' org :
  acquired collate req max s l s' → 0 < max → org_leases org s' ≤ Z.max (org_leases org s) max.
Proof.
  intros [|now q|now q|now q|now goNow q Hq Hq1 Hl (_ & _ & Hlt)] Hmax; [lia| | | |].
  1-3: pose proof (cleanup_org_leases org (Q_OrgID q) now s); lia.
  specialize (Hlt Hmax). pose proof (cleanup_org_leases org (Q_OrgID q) now s) as Hcl.
  pose proof (count_where_insert (active_lease org s) (Q_RequestID q) (lease_for q now goNow)
    (t_leases (cleanup (Q_OrgID q) now s))) as Hins.
  assert (∀ o, org_leases o (cleanup (Q_OrgID q) now s)
    = count_where (active_lease o s) (t_leases (cleanup (Q_OrgID q) now s))) as Hc by done.
  assert (org_leases org (grant q now (lease_for q now goNow) (cleanup (Q_OrgID q) now s))
    = count_where (active_lease org s)
        (<[ Q_RequestID q := lease_for q now goNow ]> (t_leases (cleanup (Q_OrgID q) now s)))) as Hg by done.
  rewrite <- Hg, <- Hc in Hins. destruct (active_lease org s (lease_for q now goNow)) eqn:Ha; [|lia].
  unfold active_lease in Ha. apply andb_true_iff in Ha as [Ho%bool_decide_eq_true _]. simpl in Ho.
  subst org. lia.
Qed.

Context `{!TotalOrder collate}.

#[local] Instance queue_le_total : Total (queue_le collate).
Proof.
  intros a b. unfold queue_le. destruct (Z.lt_trichotomy (Q_EnqueuedAt a) (Q_EnqueuedAt b)) as [?|[?|?]].
  - auto.
  - destruct (total collate (Q_RequestID a) (Q_RequestID b)); auto.
  - auto.
Qed.
#[local] Instance queue_le_trans : Transitive (queue_le collate).
Proof.
  intros a b c. unfold queue_le. intros [?|[? ?]] [?|[? ?]]; [left; lia..|right; split; [lia|by etrans]].
Qed.

(** The head of an org's queue comes before every waiting request. *)
Lemma org_queue_head org now s h p :
  head (org_queue collate org now s) = Some h →
  (∃ k, t_queue s !! k = Some p) → pending org now p = true → queue_le collate h p.
Proof.
  intros Hh [k Hp] Hpend. unfold org_queue in Hh.
  set (l := (map_to_list _).*2) in Hh.
  assert (p ∈ merge_sort (queue_le collate) l) as Hin.
  { rewrite merge_sort_Permutation. unfold l. apply list_elem_of_fmap. exists (k, p). split; [done|].
    by apply elem_of_map_to_list, map_lookup_filter_Some. }
  pose proof (StronglySorted_merge_sort (queue_le collate) l) as Hs.
  destruct (merge_sort (queue_le collate) l) as [|h' l'] eqn:E; [done|]. injection Hh as ->.
  apply StronglySorted_inv in Hs as [_ Hall]. apply elem_of_cons in Hin as [->|Hin].
  - destruct (total (queue_le collate) h h); done.
  - rewrite Forall_forall in Hall. by apply Hall.
Qed.

Lemma org_queue_elem org now s h :
  head (org_queue collate org now s) = Some h →
  ∃ k, t_queue s !! k = Some h ∧ pending org now h = true.
Proof.
  intros Hh. assert (h ∈ org_queue collate org now s) as Hin.
  { destruct (org_queue _ _ _ _); [done|]. simplify_eq/=. left. }
  unfold org_queue in Hin. rewrite merge_sort_Permutation in Hin.
  apply list_elem_of_fmap in Hin as ([k x] & -> & Hin).
  apply elem_of_map_to_list, map_lookup_filter_Some in Hin. eauto.
Qed.

Lemma lease_of_request_lookup req s l :
  conn_ok s → lease_of_request req s = Some l → t_leases s !! req = Some l.
Proof.
  intros Hok Hl. unfold lease_of_request in Hl.
  destruct (map_to_list _) as [|[k x] ?] eqn:E; [done|]. injection Hl as ->.
  assert ((k, l) ∈ map_to_list (filter (λ kv : string * OrgConnectionLease,
    L_RequestID kv.2 = req) (t_leases s))) as Hin by (rewrite E; left).
  apply elem_of_map_to_list, map_lookup_filter_Some in Hin as [Hin Hreq]. simpl in Hreq.
  destruct (conn_lease_keyed s Hok k l Hin) as [_ Hk]. congruence.
Qed.

(** The entry found at the head is the request itself. *)
Lemma head_is_request s now req q h :
  conn_ok s → t_queue s !! req = Some q →
  head (org_queue collate (Q_OrgID q) now s) = Some h → Q_RequestID h = Q_RequestID q → h = q.
Proof.
  intros Hok Hq Hh Hid. destruct (org_queue_elem _ _ _ _ Hh) as (k & Hk & _).
  pose proof (conn_queue_keyed s Hok k h Hk) as H1. pose proof (conn_queue_keyed s Hok req q Hq) as H2.
  simpl in H1, H2. congruence.
Qed.

(** C22. Admission tables stay consistent in every history of enqueue, acquire,
    release and cancel calls, failures included: rows are filed under their ids,
    and every lease belongs to exactly one granted queue entry of the same org
    under the same id, so that a request never has two leases. *)
Theorem connection_tables_consistent ops (d : D) :
  conn_ok (tables d) → conn_ok (tables (run_conn collate ops d)).
Proof.
  revert d. induction ops as [|op ops IH]; intros d Hok; [done|]. simpl. apply IH.
  assert (∀ A (m : M D A), (∀ s, conn_ok s → wp m s (λ _ s', conn_ok s')) →
    conn_ok (tables (m d).2)) as Hwp.
  { intros A m Hm. destruct (m d) as [r d'] eqn:E. simpl. by eapply (Hm (tables d) Hok). }
  destruct op; simpl; apply Hwp; intros s Hs.
  - by apply Enqueue_conn_ok.
  - by apply TryAcquire_conn_ok.
  - by apply Release_conn_ok.
  - by apply Cancel_conn_ok.
Qed.

(** C20. The connection limit: acquiring with a positive limit never leaves an org
    with more counted leases than the limit (or than it had before), whatever the
    call returns. *)
Theorem connection_limit_respected req max s org :
  0 < max →
  wp (D := D) (TryAcquireOrgConnectionLease collate req max) s
    (λ _ s', org_leases org s' ≤ Z.max (org_leases org s) max).
Proof.
  intros Hmax. unfold TryAcquireOrgConnectionLease. case_bool_decide; [wp_go; lia|].
  eapply wp_mono; [apply acquire_loop_spec|]. intros [l|e] s'.
  - intros Ha. by eapply acquired_limit.
  - intros [_ [->|[l Ha]]]; [lia|by eapply acquired_limit].
Qed.

(** First come, first served: a new lease is only ever granted to the request
    at the head of its org's queue. If a request without a lease is granted one,
    no request of the org that is still waiting at the time of the grant was
    enqueued before it. *)
Theorem connection_grants_are_fifo req max s q :
  conn_ok s → t_queue s !! req = Some q → t_leases s !! req = None →
  wp (D := D) (TryAcquireOrgConnectionLease collate req max) s
    (λ r _, ∀ l, r = inl (Some l) →
       ∀ k p, t_queue s !! k = Some p → pending (Q_OrgID q) (L_AcquiredAt l) p = true →
         queue_le collate q p).
Proof.
  intros Hok Hq Hnone. unfold TryAcquireOrgConnectionLease. case_bool_decide; [by wp_go|].
  eapply wp_mono; [apply acquire_loop_spec|]. intros [l'|e] s'; [|done].
  intros Ha l [= ->] k p Hp Hpend. inversion Ha as [| |now q' l' Hq' _ Hl| |now goNow q' Hq' Hq1 Hl Hg];
    subst; simplify_eq.
  - exfalso. apply lease_of_request_lookup in Hl; [|by apply cleanup_conn_ok].
    apply delete_where_lookup in Hl as [Hl _]. congruence.
  - destruct Hg as (_ & (h & Hh & Hid) & _). simpl in Hpend.
    assert (h = q) as ->.
    { eapply (head_is_request (cleanup (Q_OrgID q) now s)); [by apply cleanup_conn_ok|done..]. }
    apply (org_queue_head (Q_OrgID q) now (cleanup (Q_OrgID q) now s)); [done| |done].
    exists k. apply delete_where_lookup. split; [done|]. unfold pending in Hpend.
    rewrite !andb_true_iff, !bool_decide_eq_true in Hpend. apply not_true_iff_false.
    rewrite !andb_true_iff, !bool_decide_eq_true. lia.
Qed.
End fairness.

(** * Progress *)

Lemma mem_exec_ok {A} (f : stmt A) (d : mem) a s :
  m_faults d = [] → f (mem_env d) (m_db d) = Some (a, s) → exec f d = (inl a, mem_set_db s d).
Proof. intros Hf Hs. simpl. unfold mem_exec, next_fault. by rewrite Hf, Hs. Qed.

Lemma mem_select {A} (f : env → db → A) (d : mem) :
  m_faults d = [] → exec (SELECT f) d = (inl (f (mem_env d) (m_db d)), d).
Proof. intros Hf. rewrite (mem_exec_ok _ d _ (m_db d)) by done. by destruct d. Qed.

Lemma mem_Transaction {A} (m : M mem A) (d d' : mem) a :
  m_faults d = [] → m d = (inl a, d') → m_faults d' = [] → Transaction m d = (inl a, d').
Proof. intros Hf Hm Hf'. simpl. unfold mem_transaction, next_fault. by rewrite Hf, Hm, Hf'. Qed.

Lemma bind_inl {D A B} (m : M D A) (k : A → M D B) d a d' :
  m d = (inl a, d') → (m ≫= k) d = k a d'.
Proof. unfold mbind, M_bind. by intros ->. Qed.

Ltac mem_read := erewrite bind_inl by (by apply mem_select); cbn beta.

Section progress.
Context (collate : string → string → Prop) `{!RelDecision collate} `{!TotalOrder collate}.

Lemma earliest_is_head s now req q :
  conn_ok s → t_queue s !! req = Some q → pending (Q_OrgID q) now q = true →
  (∀ k p, t_queue s !! k = Some p → pending (Q_OrgID q) now p = true → queue_le collate q p) →
  head (org_queue collate (Q_OrgID q) now s) = Some q.
Proof.
  intros Hok Hq Hp Hmin.
  destruct (head (org_queue collate (Q_OrgID q) now s)) as [h|] eqn:Hh.
  - destruct (org_queue_elem _ _ _ _ _ Hh) as (k & Hk & Hph).
    pose proof (org_queue_head collate _ _ _ _ q Hh (ex_intro _ req Hq) Hp) as Hle.
    pose proof (Hmin k h Hk Hph) as Hle'. f_equal. eapply head_is_request; [done|done|done|].
    unfold queue_le in *. destruct Hle as [?|[? Hle]], Hle' as [?|[? Hle']]; [lia..|].
    by apply (anti_symm collate).
  - exfalso. destruct (org_queue _ _ _ _) eqn:E; [|done].
    assert (q ∈ org_queue collate (Q_OrgID q) now s) as Hin; [|rewrite E in Hin; by apply elem_of_nil in Hin].
    unfold org_queue. rewrite merge_sort_Permutation. apply list_elem_of_fmap. exists (req, q).
    split; [done|]. by apply elem_of_map_to_list, map_lookup_filter_Some.
Qed.

Lemma pending_not_over org now q :
  pending org now q = true → bool_decide (Q_ExpiresAt q ≤ now) || negb (ungranted q) = false.
Proof.
  unfold pending. rewrite !andb_true_iff, !bool_decide_eq_true. intros [[_ ->] ?].
  apply orb_false_iff. split; [|done]. apply bool_decide_eq_false. lia.
Qed.

Lemma cleanup_keeps_pending org now s req q :
  t_queue s !! req = Some q → pending org now q = true →
  t_queue (cleanup org now s) !! req = Some q.
Proof.
  intros Hq Hp. apply delete_where_lookup. split; [done|].
  apply pending_not_over, orb_false_iff in Hp as [-> _]. apply andb_false_r.
Qed.

Lemma mem_cleanup org now (d : mem) :
  m_faults d = [] →
  cleanupOrgConnectionRowsLocked org now d = (inl (), mem_set_db (cleanup org now (m_db d)) d).
Proof.
  intros Hf. assert (∃ s, cleanupOrgConnectionRowsLocked org now d = (inl (), mem_set_db s d)) as [s Hs].
  { unfold cleanupOrgConnectionRowsLocked.
    erewrite bind_inl by (by apply mem_exec_ok). erewrite bind_inl by (by apply mem_exec_ok).
    eexists. etrans; [by apply mem_exec_ok|reflexivity]. }
  rewrite Hs. do 2 f_equal.
  assert (∀ r, cleanupOrgConnectionRowsLocked org now d = (inl r, mem_set_db s d) →
    s = cleanup org now (m_db d)) as Hc; [|by apply (Hc ())].
  intros r Hr. apply (wp_cleanup org now (m_db d)
    (λ r s', match r with inl _ => s' = cleanup org now (m_db d) | _ => True end) ltac:(done)
    ltac:(done) d (inl r) _ eq_refl Hr).
Qed.

Lemma lease_free s req q now goNow e :
  conn_ok s → Q_RequestID q = req → t_leases s !! req = None →
  lease_of_request req s = None ∧
  INSERT_lease (lease_for q now goNow) e s
  = Some ((), with_leases (<[ req := lease_for q now goNow ]> (t_leases s)) s).
Proof.
  intros Hok Hid Hnone. split.
  - destruct (lease_of_request req s) as [l|] eqn:E; [|done].
    apply lease_of_request_lookup in E; [congruence|done].
  - unfold INSERT_lease. simpl. rewrite Hid.
    rewrite !bool_decide_eq_true_2; [done| |done].
    intros k l Hl Hreq. destruct (conn_lease_keyed s Hok k l Hl) as [_ Hk]. congruence.
Qed.

(** The grant itself, run on the database in memory. *)
Lemma mem_grant (d : mem) req q now :
  m_faults d = [] → conn_ok (m_db d) → Q_RequestID q = req → t_leases (m_db d) !! req = None →
  createOrgConnectionLease q now d
  = (inl (lease_for q now (m_clock d)),
     mem_set_db (grant q now (lease_for q now (m_clock d)) (m_db d)) d).
Proof.
  intros Hf Hok Hid Hnone. unfold createOrgConnectionLease.
  rewrite (bind_inl _ _ d (m_clock d) d) by done.
  destruct (lease_free (m_db d) req q now (m_clock d) (mem_env d) Hok Hid Hnone) as [_ Hins].
  erewrite bind_inl by (by apply mem_exec_ok). erewrite bind_inl by (by apply mem_exec_ok).
  unfold mret, M_ret, grant. simpl. by rewrite Hid.
Qed.

Lemma mem_limit (d : mem) max org :
  m_faults d = [] → (0 < max → org_leases org (m_db d) < max) →
  (if bool_decide (0 < max) then
     count ← countActiveOrgConnectionLeases org; mret (bool_decide (max ≤ count))
   else mret false) d = (inl false, d).
Proof.
  intros Hf Hlt. case_bool_decide; [|done]. unfold countActiveOrgConnectionLeases.
  erewrite bind_inl by (by apply mem_select). unfold mret, M_ret. do 2 f_equal.
  apply bool_decide_eq_false. specialize (Hlt H). unfold org_leases in Hlt. lia.
Qed.

(** One attempt of a request that may be granted. *)
Lemma mem_attempt (d : mem) req max q now s1 :
  m_faults d = [] → now = m_clock d → s1 = cleanup (Q_OrgID q) now (m_db d) → conn_ok s1 →
  t_queue (m_db d) !! req = Some q → Q_RequestID q = req → t_queue s1 !! req = Some q →
  t_leases s1 !! req = None → pending (Q_OrgID q) now q = true →
  head (org_queue collate (Q_OrgID q) now s1) = Some q →
  (0 < max → org_leases (Q_OrgID q) s1 < max) →
  tryAcquireOrgConnectionLeaseOnce collate req max d
  = (inl (Some (lease_for q now now), false), mem_set_db (grant q now (lease_for q now now) s1) d).
Proof.
  intros Hf Hnow Hs1 Hok1 Hq Hid Hq1 Hnone1 Hpend Hhead Hlt.
  destruct (lease_free s1 req q now now (mem_env d) Hok1 Hid Hnone1) as (Hl1 & _).
  set (d1 := mem_set_db s1 d). apply mem_Transaction; [done| |done].
  unfold orgIDForConnectionRequest, advisory_xact_lock, orgConnectionDatabaseNow.
  mem_read. rewrite Hq. cbn [fmap option_fmap option_map]. mem_read. mem_read.
  erewrite bind_inl by (by apply mem_cleanup).
  change (env_clock (mem_env d)) with (m_clock d). rewrite <- Hnow, <- Hs1. fold d1.
  change s1 with (m_db d1) in Hok1, Hq1, Hnone1, Hhead, Hlt, Hl1.
  unfold lockOrgConnectionRequest, existingOrgConnectionLease, isOrgConnectionQueueHead.
  mem_read. rewrite Hq1, bool_decide_eq_false_2 by auto.
  mem_read. rewrite Hl1, (pending_not_over (Q_OrgID q)) by done.
  erewrite bind_inl.
  2: { mem_read. rewrite Hhead, bool_decide_eq_true_2 by done. reflexivity. }
  cbn [negb]. erewrite bind_inl by (by apply mem_limit).
  cbn iota. erewrite bind_inl by (by eapply mem_grant). by subst now.
Qed.

(** C21. The first in line is admitted. In a database without faults, a waiting
    request that no waiting request of its org precedes, of an org below its
    limit, gets a lease at its next attempt, and the lease is in the table. *)
Theorem head_of_queue_is_admitted (d : mem) req max q :
  m_faults d = [] → conn_ok (tables d) → TrimSpace req ≠ ""%string →
  t_queue (tables d) !! req = Some q → t_leases (tables d) !! req = None →
  pending (Q_OrgID q) (m_clock d) q = true →
  (∀ k p, t_queue (tables d) !! k = Some p → pending (Q_OrgID q) (m_clock d) p = true →
          queue_le collate q p) →
  (0 < max → org_leases (Q_OrgID q) (tables d) < max) →
  ∃ l d', TryAcquireOrgConnectionLease collate req max d = (inl (Some l), d') ∧
          L_RequestID l = req ∧ t_leases (tables d') !! req = Some l.
Proof.
  intros Hf Hok Htrim Hq Hnone Hpend Hmin Hlt. simpl in Hq, Hnone, Hok, Hmin, Hlt.
  pose proof (conn_queue_keyed _ Hok _ _ Hq) as Hid. simpl in Hid.
  set (now := m_clock d) in *. set (s1 := cleanup (Q_OrgID q) now (m_db d)).
  assert (conn_ok s1) as Hok1 by (by apply cleanup_conn_ok).
  assert (t_queue s1 !! req = Some q) as Hq1 by (by apply cleanup_keeps_pending).
  assert (t_leases s1 !! req = None) as Hnone1.
  { simpl. destruct (delete_where _ _ !! req) eqn:E; [|done]. apply delete_where_lookup in E as [E _].
    congruence. }
  assert (head (org_queue collate (Q_OrgID q) now s1) = Some q) as Hhead.
  { eapply earliest_is_head; [done|done|done|]. intros k p Hp. apply delete_where_lookup in Hp as [Hp _].
    by eapply Hmin. }
  assert (0 < max → org_leases (Q_OrgID q) s1 < max) as Hlt1.
  { intros Hm. specialize (Hlt Hm). pose proof (cleanup_org_leases (Q_OrgID q) (Q_OrgID q) now (m_db d)) as Hcl.
    fold s1 in Hcl. lia. }
  pose proof (mem_attempt d req max q now s1 Hf eq_refl eq_refl Hok1 Hq Hid Hq1 Hnone1 Hpend Hhead Hlt1)
    as Hrun.
  exists (lease_for q now now), (mem_set_db (grant q now (lease_for q now now) s1) d). split; [|split].
  - unfold TryAcquireOrgConnectionLease. rewrite bool_decide_eq_false_2 by done.
    cbn [acquire_loop]. by rewrite (bind_inl _ _ _ _ _ Hrun).
  - done.
  - simpl. by rewrite Hid, lookup_insert_eq.
Qed.
End progress.

(** * Witnesses *)

(** A total order on request ids for the examples. *)
Definition encode_le (a b : string) : Prop := (encode a ≤ encode b)%positive.
#[export] Instance encode_le_dec : RelDecision encode_le.
Proof. intros a b. unfold encode_le. apply _. Defined.
#[export] Instance encode_le_total : TotalOrder encode_le.
Proof.
  unfold encode_le. split; [split; [split|]|].
  - intros a. apply Pos.le_refl.
  - intros a b c. apply Pos.le_trans.
  - intros a b Hab Hba. apply (inj encode), Pos.le_antisym; done.
  - intros a b. unfold strict. destruct (Pos.lt_total (encode a) (encode b)) as [?|[E|?]].
    + left. lia.
    + right. left. by apply (inj encode).
    + right. right. lia.
Qed.

Definition ex_request (id : string) (at_ : time) : OrgConnectionQueueEntry :=
  {| Q_RequestID := id; Q_OrgID := "org1"; Q_CP := "cp-a"; Q_PID := 1; Q_Protocol := "pg";
     Q_EnqueuedAt := at_; Q_ExpiresAt := at_ + 100; Q_GrantedAt := None; Q_CanceledAt := None;
     Q_CreatedAt := 1; Q_UpdatedAt := 1 |}.

Definition ex_queue_db : db :=
  with_queue {[ "r1"%string := ex_request "r1" 20; "r2"%string := ex_request "r2" 30 ]} empty_db.

Definition ex_queue_mem : mem :=
  {| m_db := ex_queue_db; m_faults := []; m_locked := ∅; m_seq := 1; m_clock := 50 |}.

Lemma ex_queue_ok : conn_ok ex_queue_db.
Proof.
  split; simpl; [|apply map_Forall_empty..].
  apply map_Forall_insert_2; [done|]. by apply map_Forall_singleton.
Qed.

Lemma connection_tables_consistent_witness :
  conn_ok (tables (run_conn encode_le
    [OpTryAcquire "r1" 1; OpEnqueue (Some (ex_request "r3" 40)); OpRelease "r1"; OpCancel "r2"]
    ex_queue_mem)).
Proof. apply connection_tables_consistent. exact ex_queue_ok. Defined.

Lemma connection_limit_respected_witness :
  wp (D := mem) (TryAcquireOrgConnectionLease encode_le "r1" 1) ex_queue_db
    (λ _ s', org_leases "org1" s' ≤ Z.max (org_leases "org1" ex_queue_db) 1).
Proof. apply connection_limit_respected. lia. Defined.

Lemma connection_grants_are_fifo_witness :
  wp (D := mem) (TryAcquireOrgConnectionLease encode_le "r1" 1) ex_queue_db
    (λ r _, ∀ l, r = inl (Some l) → ∀ k p, t_queue ex_queue_db !! k = Some p →
       pending "org1" (L_AcquiredAt l) p = true → queue_le encode_le (ex_request "r1" 20) p).
Proof.
  apply (connection_grants_are_fifo encode_le "r1" 1 ex_queue_db (ex_request "r1" 20)).
  - exact ex_queue_ok.
  - reflexivity.
  - reflexivity.
Defined.

Lemma head_of_queue_is_admitted_witness :
  ∃ l d', TryAcquireOrgConnectionLease encode_le "r1" 1 ex_queue_mem = (inl (Some l), d') ∧
          L_RequestID l = "r1"%string ∧ t_leases (tables d') !! "r1"%string = Some l.
Proof.
  apply (head_of_queue_is_admitted encode_le ex_queue_mem "r1" 1 (ex_request "r1" 20)).
  - reflexivity.
  - exact ex_queue_ok.
  - vm_compute. discriminate.
  - reflexivity.
  - reflexivity.
  - reflexivity.
  - intros k p Hp _. simpl in Hp. apply lookup_insert_Some in Hp as [[_ <-]|[_ Hp]].
    + right. split; [reflexivity|]. apply Pos.le_refl.
    + apply lookup_singleton_Some in Hp as [_ <-]. left. reflexivity.
  - intros _. reflexivity.
Defined.
