(* ===== verification/ConnLimiter.v ===== *)
(** The connection limiter of a control plane
    (src/controlplane/connection_limiter.go): it enqueues an admission request
    and polls for its lease until the request expires or the caller gives up.

    The store is the interface [runtimeOrgConnectionStore] of the code, a class
    here; OrgConnections implements it. The loop's clock, limit and context are
    the readings of its successive rounds. *)

From Stdlib Require Import Strings.Byte.
From stdpp Require Import prelude gmap strings list fin_maps sorting.
From Stdlib Require Import ZArith Lia.
From S2P Require Import Prelude RuntimeDB RuntimeStore StoreSpec OrgConnections.

Open Scope Z_scope.

Class ConnStore (D : Type) := {
  cs_enqueue : OrgConnectionQueueEntry → M D unit;
  cs_try_acquire : string → Z → M D (option OrgConnectionLease);
  cs_release : string → M D unit;
  cs_cancel : string → M D unit;
}.

(** What the limiter relies on: a lease it is handed is in the table under the id
    of its request, and a request whose cancellation succeeded is not waiting. *)
Class ConnStoreLaws (D : Type) `{WorldLaws D} `{!ConnStore D} := {
  cs_enqueue_ok : ∀ e s, conn_ok s → wp (cs_enqueue e) s (λ _ s', conn_ok s');
  cs_try_acquire_ok : ∀ req max s, conn_ok s →
    wp (cs_try_acquire req max) s (λ r s', conn_ok s' ∧
      ∀ l, r = inl (Some l) → L_LeaseID l = req ∧ t_leases s' !! req = Some l);
  cs_cancel_ok : ∀ req s, conn_ok s →
    wp (cs_cancel req) s (λ r s', conn_ok s' ∧
      (r = inl () → TrimSpace req ≠ ""%string →
       ∀ q, t_queue s' !! req = Some q → ungranted q = false));
}.

#[export] Instance configstore_conn_store {D} `{World D}
    (collate : string → string → Prop) `{!RelDecision collate} : ConnStore D := {
  cs_enqueue e := EnqueueOrgConnectionRequest (Some e);
  cs_try_acquire := TryAcquireOrgConnectionLease collate;
  cs_release := ReleaseOrgConnectionLease;
  cs_cancel := CancelOrgConnectionRequest;
}.

Definition defaultOrgConnectionPollInterval : Z := 100000.

Record runtimeOrgConnectionLimiter := {
  lim_orgID : string;
  lim_cpInstanceID : string;
  lim_queueTTL : time;
  lim_pollInterval : time;
}.

Definition NewRuntimeOrgConnectionLimiter (orgID cpInstanceID : string) (queueTTL : time)
    : runtimeOrgConnectionLimiter :=
  {| lim_orgID := orgID; lim_cpInstanceID := cpInstanceID;
     lim_queueTTL := if bool_decide (queueTTL ≤ 0) then 60 * 1000000 else queueTTL;
     lim_pollInterval := defaultOrgConnectionPollInterval |}.

(** [ctx.Err()] once the context is done. *)
Inductive ctx_error := DeadlineExceeded | Canceled.

(** One round of the loop: the clock, the limit, whether the context was done
    before the timer fired, and the clock read again in that case. *)
Record round := {
  rd_now : time;
  rd_max : Z;
  rd_ctx : option ctx_error;
  rd_cancel_now : time;
}.

Inductive acquire_result :=
  | AcquireNil                       (** [nil, nil]: no limiter *)
  | AcquireLease (leaseID : string)
  | AcquireTooMany
  | AcquireCtx (e : ctx_error)
  | AcquireStore (e : store_error)
  | AcquireID                        (** no request id could be generated *)
  | AcquireRunning.                  (** still polling after the given rounds *)

Section limiter.
Context {D : Type} `{World D} `{!ConnStore D}.

(** How long a round waits. *)
Definition round_wait (l : runtimeOrgConnectionLimiter) (expiresAt now : time) : time :=
  let remaining := expiresAt - now in
  if bool_decide (0 < remaining ∧ remaining < lim_pollInterval l) then remaining
  else lim_pollInterval l.

Fixpoint acquire_rounds (l : runtimeOrgConnectionLimiter) (requestID : string) (expiresAt : time)
    (rounds : list round) : M D acquire_result :=
  match rounds with
  | [] => mret AcquireRunning
  | rd :: rounds' =>
      if bool_decide (expiresAt ≤ rd_now rd) then
        catch (cs_cancel requestID);; mret AcquireTooMany
      else
        r ← catch (cs_try_acquire requestID (rd_max rd));
        match r with
        | inr err => mret (AcquireStore err)
        | inl (Some lease) => mret (AcquireLease (L_LeaseID lease))
        | inl None =>
            match rd_ctx rd with
            | Some e =>
                catch (cs_cancel requestID);;
                mret (match e with DeadlineExceeded => AcquireTooMany | Canceled => AcquireCtx e end)
            | None => acquire_rounds l requestID expiresAt rounds'
            end
        end
  end.

(** [maxConnections] being nil, and the limiter itself, are options; [newID] is
    what the id generator returned. *)
Definition Acquire (lim : option runtimeOrgConnectionLimiter) (pid : Z) (protocol : string)
    (hasMax : bool) (newID : option string) (enqueuedAt : time) (rounds : list round)
    : M D acquire_result :=
  match lim with
  | None => mret AcquireNil
  | Some l =>
      if negb hasMax then mret AcquireNil else
      match newID with
      | None => mret AcquireID
      | Some requestID =>
          let expiresAt := enqueuedAt + lim_queueTTL l in
          r ← catch (cs_enqueue
            {| Q_RequestID := requestID; Q_OrgID := lim_orgID l; Q_CP := lim_cpInstanceID l;
               Q_PID := pid; Q_Protocol := protocol; Q_EnqueuedAt := enqueuedAt;
               Q_ExpiresAt := expiresAt; Q_GrantedAt := None; Q_CanceledAt := None;
               Q_CreatedAt := 0; Q_UpdatedAt := 0 |});
          match r with
          | inr err => mret (AcquireStore err)
          | inl _ => acquire_rounds l requestID expiresAt rounds
          end
      end
  end.

Definition Release (leaseID : option string) : M D unit :=
  match leaseID with None => mret () | Some id => cs_release id end.

(** [hex.EncodeToString] of 16 random bytes. *)
Definition hex_digit (n : Z) : byte := byte_of_Z (if bool_decide (n < 10) then 48 + n else 87 + n).
Definition hex_encode (bs : list byte) : list byte :=
  bs ≫= λ b, [hex_digit (byte_val b / 16); hex_digit (byte_val b mod 16)].
Definition randomConnectionRequestID (rnd : option (list byte)) : option string :=
  match rnd with None => None | Some b => Some (str (hex_encode b)) end.
End limiter.

Section theorems.
Context {D : Type} `{WorldLaws D} `{!ConnStore D} `{!ConnStoreLaws D}.

(** The verdicts of an acquisition, given the tables at its end. *)
Definition verdict_ok (req : string) (r : acquire_result + store_error) (s : db) : Prop :=
  conn_ok s ∧
  match r with
  | inl (AcquireLease id) => id = req ∧ ∃ l, t_leases s !! req = Some l
  | inl _ => True
  | inr _ => False
  end.

Lemma acquire_rounds_verdict l req expiresAt rounds : ∀ s,
  conn_ok s → wp (acquire_rounds l req expiresAt rounds) s (verdict_ok req).
Proof.
  induction rounds as [|rd rounds IH]; intros s Hok; cbn [acquire_rounds]; [by wp_step|].
  case_bool_decide.
  - wp_step. apply wp_catch. eapply wp_mono; [by apply cs_cancel_ok|]. intros r s' [? _]. by wp_step.
  - wp_step. apply wp_catch. eapply wp_mono; [by apply cs_try_acquire_ok|].
    intros r s' [Hok' Hl]. destruct r as [[lease|]|e].
    + wp_step. destruct (Hl _ eq_refl) as [-> ?]. split; [done|]. eauto.
    + destruct (rd_ctx rd) as [e|]; [|by apply IH].
      wp_step. apply wp_catch. eapply wp_mono; [by apply cs_cancel_ok|]. intros r s'' [? _].
      wp_step. by destruct e.
    + by wp_step.
Qed.

Lemma acquire_rounds_stops l req expiresAt rounds : ∀ s,
  Exists (λ rd, expiresAt ≤ rd_now rd ∨ is_Some (rd_ctx rd)) rounds →
  wp (D := D) (acquire_rounds l req expiresAt rounds) s (λ r _, r ≠ inl AcquireRunning).
Proof.
  induction rounds as [|rd rounds IH]; intros s Hex; [by apply Exists_nil in Hex|].
  cbn [acquire_rounds]. case_bool_decide as Hnow.
  - wp_step. apply wp_catch. intros d r d' _ _. by wp_step.
  - wp_step. apply wp_catch. intros d r d' _ _. destruct r as [[lease|]|e]; [by wp_step| |by wp_step].
    destruct (rd_ctx rd) as [e|] eqn:Hctx.
    + wp_step. apply wp_catch. intros d1 r1 d1' _ _. wp_step. by destruct e.
    + apply IH. apply Exists_cons in Hex as [[?|[x Hx]]|?]; [done|congruence|done].
Qed.

(** Whatever the limiter hands out is a lease that exists: if [Acquire]
    returns a lease handle, the lease table holds a lease under exactly that id,
    which is the id of the request it enqueued; and the admission tables are
    consistent whatever the verdict. *)
Theorem acquire_returns_held_lease l pid protocol req enqueuedAt rounds s :
  conn_ok s →
  wp (D := D) (Acquire (Some l) pid protocol true (Some req) enqueuedAt rounds) s (verdict_ok req).
Proof.
  intros Hok. unfold Acquire. cbn [negb]. wp_step. apply wp_catch.
  eapply wp_mono; [by apply cs_enqueue_ok|]. intros [[]|e] s' Hok'; [|by wp_step].
  by apply acquire_rounds_verdict.
Qed.

(** Timers do not fire early: the clock of a round is past the wait of the round
    before. *)
Fixpoint timers_honest (l : runtimeOrgConnectionLimiter) (expiresAt : time) (rounds : list round) : Prop :=
  match rounds with
  | rd :: ((rd' :: _) as rounds') =>
      rd_now rd + round_wait l expiresAt (rd_now rd) ≤ rd_now rd' ∧ timers_honest l expiresAt rounds'
  | _ => True
  end.

Lemma honest_rounds_reach l expiresAt rounds : ∀ rd,
  0 < lim_pollInterval l → timers_honest l expiresAt (rd :: rounds) →
  (expiresAt - rd_now rd) / lim_pollInterval l + 1 ≤ Z.of_nat (length rounds) →
  Exists (λ rd, expiresAt ≤ rd_now rd) (rd :: rounds).
Proof.
  induction rounds as [|rd' rounds IH]; intros rd Hpoll Hh Hlen.
  - left. simpl in Hlen. apply Z.nlt_ge. intros Hlt.
    pose proof (Z.div_pos (expiresAt - rd_now rd) (lim_pollInterval l) ltac:(lia) Hpoll). lia.
  - destruct (decide (expiresAt ≤ rd_now rd)) as [?|Hlt]; [by left|]. right.
    destruct Hh as [Hstep Hh]. unfold round_wait in Hstep. case_bool_decide as Hw.
    { left. lia. }
    apply IH; [done|done|]. cbn [length] in Hlen. rewrite Nat2Z.inj_succ in Hlen.
    assert ((expiresAt - rd_now rd') / lim_pollInterval l
      ≤ (expiresAt - rd_now rd + (-1) * lim_pollInterval l) / lim_pollInterval l) as Hd
      by (apply Z.div_le_mono; lia).
    rewrite Z.div_add in Hd by lia. lia.
Qed.

(** C23. The poll loop ends: with timers that do not fire early, an [Acquire] that
    started its clock no earlier than it enqueued has returned after at most
    ttl / poll interval + 2 rounds, whatever the store answers. *)
Theorem acquire_terminates l pid protocol req enqueuedAt rd rounds s :
  0 < lim_pollInterval l → enqueuedAt ≤ rd_now rd →
  timers_honest l (enqueuedAt + lim_queueTTL l) (rd :: rounds) →
  lim_queueTTL l / lim_pollInterval l + 1 ≤ Z.of_nat (length rounds) →
  wp (D := D) (Acquire (Some l) pid protocol true (Some req) enqueuedAt (rd :: rounds)) s
    (λ r _, r ≠ inl AcquireRunning).
Proof.
  intros Hpoll Hstart Hh Hlen. unfold Acquire. cbn [negb]. wp_step. apply wp_catch.
  intros d r d' _ _. destruct r as [[]|e]; [|by wp_step]. apply acquire_rounds_stops.
  apply Exists_impl with (λ rd, enqueuedAt + lim_queueTTL l ≤ rd_now rd); [|naive_solver].
  apply (honest_rounds_reach l); [done|done|].
  assert ((enqueuedAt + lim_queueTTL l - rd_now rd) / lim_pollInterval l
    ≤ lim_queueTTL l / lim_pollInterval l) by (apply Z.div_le_mono; lia). lia.
Qed.
End theorems.

(** * The config store implements the interface *)

Section instance.
Context {D : Type} `{WorldLaws D}.
Context (collate : string → string → Prop) `{!RelDecision collate} `{!TotalOrder collate}.

#[local] Existing Instance configstore_conn_store.

Lemma acquired_held req max s l s' :
  conn_ok s → acquired collate req max s (Some l) s' → L_LeaseID l = req ∧ t_leases s' !! req = Some l.
Proof.
  intros Hok Ha. inversion Ha as [| |now q l' Hq Hq1 Hl| |now goNow q Hq Hq1 Hl Hg]; subst.
  - apply lease_of_request_lookup in Hl; [|by apply cleanup_conn_ok]. split; [|done].
    by destruct (conn_lease_keyed _ (cleanup_conn_ok _ now _ Hok) _ _ Hl).
  - pose proof (conn_queue_keyed s Hok req q Hq) as Hid. simpl in Hid. split; [done|].
    simpl. by rewrite Hid, lookup_insert_eq.
Qed.

#[export] Instance configstore_conn_store_laws :
  ConnStoreLaws D (ConnStore0 := configstore_conn_store collate).
Proof.
  split; cbn [cs_enqueue cs_try_acquire cs_cancel configstore_conn_store].
  - intros e s. apply (Enqueue_conn_ok (Some e)).
  - intros req max s Hok. apply wp_and; [by apply TryAcquire_conn_ok|].
    unfold TryAcquireOrgConnectionLease. case_bool_decide; [by wp_go|].
    eapply wp_mono; [apply acquire_loop_spec|]. intros [l'|e] s'; [|done].
    intros Ha l [= ->]. by eapply acquired_held.
  - intros req s Hok. apply wp_and; [by apply Cancel_conn_ok|].
    unfold CancelOrgConnectionRequest. case_bool_decide; [by wp_go|].
    apply wp_exec; [done|]. intros e [] s' [= <-]. split; [|done]. intros _ _ q Hq.
    apply delete_where_lookup in Hq as [Hq Hn]. apply andb_false_iff in Hn as [Hn|Hn]; [|done].
    apply bool_decide_eq_false in Hn. destruct Hn. by apply (conn_queue_keyed s Hok).
Qed.
End instance.

(** * Witnesses *)

Definition ex_limiter : runtimeOrgConnectionLimiter := NewRuntimeOrgConnectionLimiter "org1" "cp-a" 150000.
Definition ex_round (t : time) : round :=
  {| rd_now := t; rd_max := 1; rd_ctx := None; rd_cancel_now := t |}.

Lemma acquire_returns_held_lease_witness :
  wp (D := mem) (Acquire (ConnStore0 := configstore_conn_store encode_le) (Some ex_limiter) 7 "pg" true
    (Some "r9"%string) 50 [ex_round 51; ex_round 100051]) ex_queue_db (verdict_ok "r9").
Proof.
  apply (acquire_returns_held_lease (D := mem) (ConnStore0 := configstore_conn_store encode_le)).
  exact ex_queue_ok.
Defined.

Lemma acquire_terminates_witness :
  wp (D := mem) (Acquire (ConnStore0 := configstore_conn_store encode_le) (Some ex_limiter) 7 "pg" true
    (Some "r9"%string) 50 [ex_round 51; ex_round 100051; ex_round 150050]) ex_queue_db
    (λ r _, r ≠ inl AcquireRunning).
Proof.
  apply (acquire_terminates (D := mem) (ConnStore0 := configstore_conn_store encode_le)).
  - reflexivity.
  - vm_compute. discriminate.
  - vm_compute. split; [discriminate|]. split; [discriminate|]. exact I.
  - vm_compute. discriminate.
Defined.
