(* ===== verification/WorkerState.v ===== *)
(** The lifecycle of a shared warm worker (src/controlplane/worker_state.go): a
    state machine that binds a worker to one tenant. *)

From stdpp Require Import prelude gmap strings list relations.
From Stdlib Require Import ZArith Lia.
From S2P Require Import Prelude.

(** The Go type is a string; values other than the named ones can occur. *)
Inductive WorkerLifecycleState :=
  | LifecycleUnset | LifecycleIdle | LifecycleReserved | LifecycleActivating | LifecycleHot
  | LifecycleHotIdle | LifecycleDraining | LifecycleRetired | LifecycleOther (name : string).

#[export] Instance lifecycle_eq_dec : EqDecision WorkerLifecycleState.
Proof. solve_decision. Defined.

Record WorkerAssignment := { OrgID : string; MaxWorkers : Z; Image : string }.

Record SharedWorkerState := {
  Lifecycle : WorkerLifecycleState;
  Assignment : option WorkerAssignment;
}.

Inductive state_error :=
  | IdleWithAssignment
  | MissingAssignment
  | MissingOrgID
  | UnknownLifecycle (l : WorkerLifecycleState)
  | InvalidTransition (current next : WorkerLifecycleState)
  | AssignmentRequired
  | OrgCannotChange (from to : string).

Definition NormalizedLifecycle (s : SharedWorkerState) : WorkerLifecycleState :=
  match Lifecycle s with LifecycleUnset => LifecycleIdle | l => l end.

Definition validateWorkerAssignment (a : option WorkerAssignment) : outcome state_error unit :=
  match a with
  | None => Err MissingAssignment
  | Some a => if bool_decide (OrgID a = ""%string) then Err MissingOrgID else Ret ()
  end.

(** [cloneWorkerAssignment] copies the struct: the value is the same. *)
Definition cloneWorkerAssignment (a : option WorkerAssignment) : option WorkerAssignment := a.

Definition Validate (s : SharedWorkerState) : outcome state_error unit :=
  match NormalizedLifecycle s with
  | LifecycleIdle => match Assignment s with Some _ => Err IdleWithAssignment | None => Ret () end
  | LifecycleReserved | LifecycleActivating | LifecycleHot | LifecycleHotIdle | LifecycleDraining =>
      validateWorkerAssignment (Assignment s)
  | LifecycleRetired =>
      match Assignment s with None => Ret () | Some _ => validateWorkerAssignment (Assignment s) end
  | l => Err (UnknownLifecycle l)
  end.

Definition isAllowedWorkerLifecycleTransition (current next : WorkerLifecycleState) : bool :=
  match current, next with
  | LifecycleIdle, (LifecycleReserved | LifecycleRetired) => true
  | LifecycleReserved, (LifecycleActivating | LifecycleRetired) => true
  | LifecycleActivating, (LifecycleHot | LifecycleRetired) => true
  | LifecycleHot, (LifecycleDraining | LifecycleRetired | LifecycleHotIdle) => true
  | LifecycleHotIdle, (LifecycleReserved | LifecycleRetired) => true
  | LifecycleDraining, LifecycleRetired => true
  | _, _ => false
  end.

Definition resolveWorkerAssignment (current proposed : option WorkerAssignment)
    : outcome state_error (option WorkerAssignment) :=
  let? _ := match current with Some _ => validateWorkerAssignment current | None => Ret () end in
  let? _ := match proposed with Some _ => validateWorkerAssignment proposed | None => Ret () end in
  match current, proposed with
  | None, None => Err AssignmentRequired
  | None, _ => Ret (cloneWorkerAssignment proposed)
  | _, None => Ret (cloneWorkerAssignment current)
  | Some c, Some p =>
      if bool_decide (OrgID c ≠ OrgID p) then Err (OrgCannotChange (OrgID c) (OrgID p))
      else Ret (cloneWorkerAssignment proposed)
  end.

Definition Transition (s : SharedWorkerState) (next : WorkerLifecycleState)
    (assignment : option WorkerAssignment) : outcome state_error SharedWorkerState :=
  let current := NormalizedLifecycle s in
  let? _ := Validate s in
  if negb (isAllowedWorkerLifecycleTransition current next)
  then Err (InvalidTransition current next) else
  let? resolved :=
    match next with
    | LifecycleIdle => Ret None
    | LifecycleReserved | LifecycleActivating | LifecycleHot | LifecycleHotIdle | LifecycleDraining =>
        resolveWorkerAssignment (Assignment s) assignment
    | LifecycleRetired =>
        match assignment with
        | Some _ => resolveWorkerAssignment (Assignment s) assignment
        | None => Ret (cloneWorkerAssignment (Assignment s))
        end
    | l => Err (UnknownLifecycle l)
    end in
  let nextState := {| Lifecycle := next; Assignment := resolved |} in
  let? _ := Validate nextState in
  Ret nextState.

Definition cloneSharedWorkerState (s : SharedWorkerState) : SharedWorkerState :=
  {| Lifecycle := NormalizedLifecycle s; Assignment := cloneWorkerAssignment (Assignment s) |}.

(** * The state machine *)

(** One successful transition, with whatever was proposed. *)
Inductive lifecycle_step : SharedWorkerState → SharedWorkerState → Prop :=
  | step_transition s next a s' : Transition s next a = Ret s' → lifecycle_step s s'.

(** The tenant a state is bound to. *)
Definition bound_to (s : SharedWorkerState) (org : string) : Prop :=
  OrgID <$> Assignment s = Some org.

Lemma resolve_inv c p r :
  resolveWorkerAssignment c p = Ret r →
  ∃ a, r = Some a ∧ OrgID a ≠ ""%string ∧
       (∀ x, c = Some x → OrgID x = OrgID a) ∧ (c = Some a ∨ p = Some a) ∧
       (∀ x, p = Some x → a = x).
Proof.
  unfold resolveWorkerAssignment, validateWorkerAssignment, cloneWorkerAssignment.
  destruct c as [c|], p as [p|]; simpl; repeat case_bool_decide; simpl; intros; simplify_eq;
    eexists; repeat split; eauto; intros; simplify_eq; eauto.
Qed.

Lemma resolve_ok c p :
  (∀ x, c = Some x → OrgID x ≠ ""%string) → (∀ x, p = Some x → OrgID x ≠ ""%string) →
  (c ≠ None ∨ p ≠ None) → (∀ x y, c = Some x → p = Some y → OrgID x = OrgID y) →
  ∃ a, resolveWorkerAssignment c p = Ret (Some a).
Proof.
  intros Hc Hp Hsome Horg.
  unfold resolveWorkerAssignment, validateWorkerAssignment, cloneWorkerAssignment.
  destruct c as [c|], p as [p|]; simpl;
    rewrite ?(bool_decide_eq_false_2 (OrgID c = _)) by eauto;
    rewrite ?(bool_decide_eq_false_2 (OrgID p = _)) by eauto; simpl; eauto.
  - rewrite bool_decide_eq_false_2; [eauto|]. intros Hne. by apply Hne, Horg.
  - by destruct Hsome.
Qed.

Lemma Transition_inv s next a s' :
  Transition s next a = Ret s' →
  Validate s = Ret () ∧ isAllowedWorkerLifecycleTransition (NormalizedLifecycle s) next = true ∧
  Lifecycle s' = next ∧ Validate s' = Ret () ∧
  (next ≠ LifecycleRetired ∨ a ≠ None →
     resolveWorkerAssignment (Assignment s) a = Ret (Assignment s')) ∧
  (next = LifecycleRetired → a = None → Assignment s' = Assignment s).
Proof.
  unfold Transition. destruct (Validate s) as [[]| |] eqn:Hv; simpl; [|done..].
  destruct (isAllowedWorkerLifecycleTransition _ next) eqn:Hal; simpl; [|done].
  assert (next ≠ LifecycleIdle) as Hni by (intros ->; by destruct (NormalizedLifecycle s)).
  destruct next; simpl; try done; try (destruct a as [a|]; simpl);
    try (destruct (resolveWorkerAssignment _ _) as [r| |] eqn:Hr; simpl; [|done..]);
    match goal with |- context [Validate ?n] => destruct (Validate n) as [[]| |] eqn:Hv' end; simpl;
    intros; simplify_eq; simpl; repeat split; try done; by intros [?|?].
Qed.

Lemma not_plain_retire next (a : option WorkerAssignment) :
  ¬ (next = LifecycleRetired ∧ a = None) → next ≠ LifecycleRetired ∨ a ≠ None.
Proof. intros Hne. destruct a; [by right|left]. intros ->. by apply Hne. Qed.

Lemma step_keeps_org s s' org : lifecycle_step s s' → bound_to s org → bound_to s' org.
Proof.
  intros [s1 next a s2 Ht] Hb.
  apply Transition_inv in Ht as (_ & _ & _ & _ & Hres & Hkeep). unfold bound_to in *.
  destruct (Assignment s1) as [x|] eqn:Hs; [|done]. simpl in Hb. injection Hb as Hb.
  destruct (decide (next = LifecycleRetired ∧ a = None)) as [[-> ->]|Hne].
  - rewrite Hkeep by done. simpl. by rewrite Hb.
  - destruct (resolve_inv _ _ _ (Hres (not_plain_retire _ _ Hne))) as (y & -> & _ & Hy & _).
    simpl. by rewrite <- (Hy x), Hb.
Qed.

(** Tenant isolation: once a worker is bound to an org, no sequence of
    successful transitions unbinds it or binds it to another org. *)
Theorem tenant_binding_is_permanent s s' org :
  rtc lifecycle_step s s' → bound_to s org → bound_to s' org.
Proof.
  induction 1 as [|s1 s2 s3 Hstep _ IH]; [done|]. intros Hb. by eapply IH, step_keeps_org.
Qed.

Lemma valid_org s x : Validate s = Ret () → Assignment s = Some x → OrgID x ≠ ""%string.
Proof.
  unfold Validate. intros Hv Hx. rewrite Hx in Hv.
  destruct (NormalizedLifecycle s); simpl in Hv; by case_bool_decide || done.
Qed.

Lemma valid_bound next y :
  next ≠ LifecycleIdle → next ≠ LifecycleUnset → (∀ n, next ≠ LifecycleOther n) →
  OrgID y ≠ ""%string → Validate {| Lifecycle := next; Assignment := Some y |} = Ret ().
Proof.
  intros H1 H2 H3 Hy. unfold Validate, validateWorkerAssignment. simpl.
  rewrite bool_decide_eq_false_2 by done. destruct next; try done. by destruct (H3 name).
Qed.

(** The edges of the graph lead to named, tenant-bound or final states. *)
Lemma allowed_target current next :
  isAllowedWorkerLifecycleTransition current next = true →
  next ≠ LifecycleIdle ∧ next ≠ LifecycleUnset ∧ ∀ n, next ≠ LifecycleOther n.
Proof. by destruct current, next. Qed.

Lemma Transition_resolved s next a y :
  Validate s = Ret () → isAllowedWorkerLifecycleTransition (NormalizedLifecycle s) next = true →
  next ≠ LifecycleRetired ∨ a ≠ None →
  resolveWorkerAssignment (Assignment s) a = Ret (Some y) → OrgID y ≠ ""%string →
  Transition s next a = Ret {| Lifecycle := next; Assignment := Some y |}.
Proof.
  intros Hv Hal Hne Hr Hy. destruct (allowed_target _ _ Hal) as (H1 & H2 & H3).
  unfold Transition. rewrite Hv. simpl. rewrite Hal. simpl.
  pose proof (valid_bound next y H1 H2 H3 Hy) as Hvn.
  destruct next; try done; rewrite ?Hr; simpl; rewrite ?Hvn; try done.
  destruct a; [|by destruct Hne]. simpl. by rewrite Hvn.
Qed.

Lemma Transition_retire_keep s :
  Validate s = Ret () → isAllowedWorkerLifecycleTransition (NormalizedLifecycle s) LifecycleRetired = true →
  Transition s LifecycleRetired None = Ret {| Lifecycle := LifecycleRetired; Assignment := Assignment s |}.
Proof.
  intros Hv Hal. unfold Transition. rewrite Hv. simpl. rewrite Hal. simpl.
  unfold Validate, cloneWorkerAssignment. simpl. destruct (Assignment s) as [x|] eqn:Hx; [|done].
  simpl. by rewrite bool_decide_eq_false_2 by (by eapply valid_org).
Qed.

(** A transition succeeds exactly when it should: the state is valid, the edge
    is in the lifecycle graph, the proposed assignment names an org, the same as
    the current one if there is one, and there is an assignment unless the worker
    is being retired. *)
Theorem transition_succeeds_iff s next a :
  (∃ s', Transition s next a = Ret s') ↔
  Validate s = Ret () ∧ isAllowedWorkerLifecycleTransition (NormalizedLifecycle s) next = true ∧
  (∀ y, a = Some y → OrgID y ≠ ""%string) ∧
  (∀ x y, Assignment s = Some x → a = Some y → OrgID x = OrgID y) ∧
  (next = LifecycleRetired ∨ Assignment s ≠ None ∨ a ≠ None).
Proof.
  split.
  - intros [s' (Hv & Hal & _ & _ & Hres & _)%Transition_inv]. split; [done|]. split; [done|].
    destruct (decide (next = LifecycleRetired ∧ a = None)) as [[-> ->]|Hne]; [naive_solver|].
    destruct (resolve_inv _ _ _ (Hres (not_plain_retire _ _ Hne)))
      as (y & _ & Hy & Hsame & Hcase & Hprop).
    split; [intros z ->; by rewrite <- (Hprop z)|].
    split; [intros x z Hx ->; by rewrite (Hsame x), (Hprop z)|].
    right. destruct Hcase as [-> | ->]; auto.
  - intros (Hv & Hal & Hy & Hsame & Hsome).
    destruct (decide (next = LifecycleRetired ∧ a = None)) as [[-> ->]|Hne].
    { eexists. by apply Transition_retire_keep. }
    destruct (resolve_ok (Assignment s) a) as [y Hr].
    + intros x. by apply valid_org.
    + done.
    + destruct Hsome as [->|?]; [|done]. right. intros ->. by apply Hne.
    + done.
    + eexists. eapply Transition_resolved; [done|done|by apply not_plain_retire|done|].
      by destruct (resolve_inv _ _ _ Hr) as (z & [= ->] & ? & _).
Qed.

Definition init : SharedWorkerState := {| Lifecycle := LifecycleUnset; Assignment := None |}.

(** The only way into a state, with the tenant it already had. *)
Lemma step_source s s' org (from : WorkerLifecycleState) :
  (∀ l, isAllowedWorkerLifecycleTransition l (Lifecycle s') = true → l = from) →
  from ≠ LifecycleIdle → from ≠ LifecycleRetired →
  lifecycle_step s s' → bound_to s' org → Lifecycle s = from ∧ bound_to s org.
Proof.
  intros Hfrom Hni Hnr Hstep Hb. pose proof (λ org, step_keeps_org s s' org Hstep) as Hk.
  destruct Hstep as [s1 next a s2 Ht].
  apply Transition_inv in Ht as (Hv & Hal & Hl & _). rewrite <- Hl in Hal. apply Hfrom in Hal.
  unfold NormalizedLifecycle, Validate in *. split; [by destruct (Lifecycle s1)|].
  assert (∃ x, Assignment s1 = Some x) as [x Hx].
  { destruct (Assignment s1) as [x|]; [eauto|]. unfold NormalizedLifecycle in Hv.
    by destruct (Lifecycle s1). }
  specialize (Hk (OrgID x) ltac:(unfold bound_to; by rewrite Hx)).
  unfold bound_to in *. rewrite Hx. rewrite Hb in Hk. by rewrite Hk.
Qed.

Lemma reach_source s : rtc lifecycle_step init s → s ≠ init →
  ∃ p, rtc lifecycle_step init p ∧ lifecycle_step p s.
Proof. intros Hr Hne. apply rtc_inv_r in Hr as [<-|(p & ? & ?)]; [done|eauto]. Qed.

(** Before it is hot for a tenant a worker has been reserved and activated for
    that tenant: every run from the zero state to a hot one passes, in this order,
    through a reserved and an activating state bound to the same org. *)
Theorem hot_after_reserved_and_activating s org :
  rtc lifecycle_step init s →
  Lifecycle s = LifecycleHot → bound_to s org →
  ∃ r a, Lifecycle r = LifecycleReserved ∧ bound_to r org ∧
         Lifecycle a = LifecycleActivating ∧ bound_to a org ∧
         rtc lifecycle_step init r ∧
         lifecycle_step r a ∧ lifecycle_step a s.
Proof.
  intros Hr Hl Hb. destruct (reach_source s Hr) as (a & Ha & Hsa); [by intros ->|].
  destruct (step_source a s org LifecycleActivating) as [Hla Hba]; [|done..|].
  { rewrite Hl. intros l. by destruct l. }
  destruct (reach_source a Ha) as (r & Hrr & Hra); [by intros ->|].
  destruct (step_source r a org LifecycleReserved) as [Hlr Hbr]; [|done..|].
  { rewrite Hla. intros l. by destruct l. }
  exists r, a. auto 10.
Qed.

(** * Witnesses *)

Definition ex_assignment : WorkerAssignment := {| OrgID := "org1"; MaxWorkers := 2; Image := "img" |}.
Definition ex_state (l : WorkerLifecycleState) : SharedWorkerState :=
  {| Lifecycle := l; Assignment := Some ex_assignment |}.

Lemma ex_reach_reserved : lifecycle_step init (ex_state LifecycleReserved).
Proof. by apply (step_transition _ LifecycleReserved (Some ex_assignment)). Qed.
Lemma ex_reach_activating : lifecycle_step (ex_state LifecycleReserved) (ex_state LifecycleActivating).
Proof. by apply (step_transition _ LifecycleActivating None). Qed.
Lemma ex_reach_hot : lifecycle_step (ex_state LifecycleActivating) (ex_state LifecycleHot).
Proof. by apply (step_transition _ LifecycleHot None). Qed.

Lemma tenant_binding_is_permanent_witness : bound_to (ex_state LifecycleHot) "org1".
Proof.
  apply (tenant_binding_is_permanent (ex_state LifecycleReserved) (ex_state LifecycleHot) "org1").
  - eapply rtc_l; [exact ex_reach_activating|]. eapply rtc_l; [exact ex_reach_hot|]. apply rtc_refl.
  - reflexivity.
Defined.

Lemma hot_after_reserved_and_activating_witness :
  ∃ r a, Lifecycle r = LifecycleReserved ∧ bound_to r "org1" ∧
         Lifecycle a = LifecycleActivating ∧ bound_to a "org1" ∧
         rtc lifecycle_step init r ∧ lifecycle_step r a ∧ lifecycle_step a (ex_state LifecycleHot).
Proof.
  apply hot_after_reserved_and_activating.
  - eapply rtc_l; [exact ex_reach_reserved|]. eapply rtc_l; [exact ex_reach_activating|].
    eapply rtc_l; [exact ex_reach_hot|]. apply rtc_refl.
  - reflexivity.
  - reflexivity.
Defined.
