(* ===== verification/Lifecycle.v ===== *)
(** Typed lifecycle transitions of worker records
    (src/controlplane/worker_lifecycle.go, with the snapshot and lease types of
    configstore/lifecycle_types.go and lifecycle_store.go): compare-and-set on
    the durable row, then physical cleanup if and only if it landed.

    Deleting a pod is fire-and-forget; a call is an [artifact] in the result. *)

From Stdlib Require Import Strings.Byte.
From stdpp Require Import prelude gmap strings list fin_maps sorting.
From Stdlib Require Import ZArith Lia.
From S2P Require Import Prelude RuntimeDB RuntimeStore StoreSpec StoreTheorems.

Open Scope Z_scope.

(** A snapshot is an observed row, a lease the proof of ownership at an epoch. *)
Record WorkerSnapshot := { snap_record : WorkerRecord }.
Definition NewWorkerSnapshot (record : WorkerRecord) : WorkerSnapshot := {| snap_record := record |}.

Record WorkerLease := { lease_id : Z; lease_owner : string; lease_epoch : Z }.
Definition NewWorkerLease (id : Z) (owner : string) (epoch : Z) : WorkerLease :=
  {| lease_id := id; lease_owner := owner; lease_epoch := epoch |}.

Inductive TransitionOutcomeReason :=
  | OutcomeTransitioned | FenceMissState | FenceMissOwner | FenceMissEpoch | FenceMissUpdatedAt
  | FenceMissCPRevived | RowMissing | StoreError.

Record TransitionOutcome := {
  Transitioned : bool;
  PhysicalCleanupScheduled : bool;
  OutcomeReason : TransitionOutcomeReason;
}.

(** [DeleteWorkerArtifacts(workerID, podName, reason)] *)
Record artifact := { art_worker : Z; art_pod : string; art_reason : string }.

(** What a lifecycle call returns, and the deletions it scheduled. *)
Record lifecycle_result := {
  lr_outcome : TransitionOutcome;
  lr_err : option store_error;
  lr_deleted : list artifact;
}.

Definition errNotConfigured : store_error := ErrInvalid "worker lifecycle service not configured".

Definition failed (e : store_error) : lifecycle_result :=
  {| lr_outcome := {| Transitioned := false; PhysicalCleanupScheduled := false;
                      OutcomeReason := StoreError |};
     lr_err := Some e; lr_deleted := [] |}.

Definition missed (why : TransitionOutcomeReason) : lifecycle_result :=
  {| lr_outcome := {| Transitioned := false; PhysicalCleanupScheduled := false;
                      OutcomeReason := why |};
     lr_err := None; lr_deleted := [] |}.

(** A landed lease transition: no cleanup. *)
Definition landed : lifecycle_result :=
  {| lr_outcome := {| Transitioned := true; PhysicalCleanupScheduled := false;
                      OutcomeReason := OutcomeTransitioned |};
     lr_err := None; lr_deleted := [] |}.

Definition classifySnapshotMiss (snap : WorkerSnapshot) : TransitionOutcomeReason := FenceMissOwner.

(** The service, or nil; [lc_cleanup] is whether a physical cleanup is set. *)
Record WorkerLifecycle := { lc_cleanup : bool }.

Definition scheduleCleanup (l : WorkerLifecycle) (workerID : Z) (podName reason : string) : list artifact :=
  if lc_cleanup l
  then [{| art_worker := workerID; art_pod := podName; art_reason := reason |}] else [].

(** A landed snapshot transition. *)
Definition landed_cleanup (l : WorkerLifecycle) (snap : WorkerSnapshot) (reason : string) : lifecycle_result :=
  {| lr_outcome := {| Transitioned := true; PhysicalCleanupScheduled := lc_cleanup l;
                      OutcomeReason := OutcomeTransitioned |};
     lr_err := None;
     lr_deleted := scheduleCleanup l (W_ID (snap_record snap)) (W_PodName (snap_record snap)) reason |}.

Section lifecycle.
Context {D : Type} `{World D}.

(** * Observations *)

Definition ObserveWorker (workerID : Z) : M D (option WorkerSnapshot) :=
  r ← GetWorkerRecord workerID; mret (NewWorkerSnapshot <$> r).
Definition ListOrphanedWorkerSnapshots (before : time) : M D (list WorkerSnapshot) :=
  rs ← ListOrphanedWorkers before; mret (NewWorkerSnapshot <$> rs).
Definition ListExpiredHotIdleSnapshots (before : time) : M D (list WorkerSnapshot) :=
  rs ← ListExpiredHotIdleWorkers before; mret (NewWorkerSnapshot <$> rs).
Definition ListStuckWorkerSnapshots (spawningBefore activatingBefore : time) : M D (list WorkerSnapshot) :=
  rs ← ListStuckWorkers spawningBefore activatingBefore; mret (NewWorkerSnapshot <$> rs).
Definition ListWorkerRecordSnapshotsByStatesBefore (states : list WorkerState) (before : time)
    : M D (list WorkerSnapshot) :=
  rs ← ListWorkerRecordsByStatesBefore states before; mret (NewWorkerSnapshot <$> rs).

(** * Transitions from a snapshot *)

Definition RetireFromSnapshot (l : option WorkerLifecycle) (snap : WorkerSnapshot)
    (target : WorkerState) (reason : string) : M D lifecycle_result :=
  match l with
  | None => mret (failed errNotConfigured)
  | Some l =>
      if bool_decide (target ≠ Retired ∧ target ≠ Lost)
      then mret (failed (ErrInvalid "unsupported terminal state")) else
      r ← catch (MarkWorkerTerminalIfCurrent (Some (snap_record snap)) target reason);
      mret (match r with
            | inr err => failed err
            | inl false => missed (classifySnapshotMiss snap)
            | inl true => landed_cleanup l snap reason
            end)
  end.

Definition RetireOrphanFromSnapshot (l : option WorkerLifecycle) (snap : WorkerSnapshot)
    (reason : string) : M D lifecycle_result :=
  match l with
  | None => mret (failed errNotConfigured)
  | Some l =>
      r ← catch (RetireOrphanWorker (Some (snap_record snap)) reason);
      mret (match r with
            | inr err => failed err
            | inl false => missed (classifySnapshotMiss snap)
            | inl true => landed_cleanup l snap reason
            end)
  end.

Definition RetireIdleVariantFromSnapshot (l : option WorkerLifecycle) (snap : WorkerSnapshot)
    (reason : string) : M D lifecycle_result :=
  match l with
  | None => mret (failed errNotConfigured)
  | Some l =>
      r ← catch (RetireIdleOrHotIdleWorker (Some (snap_record snap)) reason);
      mret (match r with
            | inr err => failed err
            | inl false =>
                missed (if bool_decide (W_State (snap_record snap) ≠ Idle ∧
                                        W_State (snap_record snap) ≠ HotIdle)
                        then FenceMissState else classifySnapshotMiss snap)
            | inl true => landed_cleanup l snap reason
            end)
  end.

(** * Transitions under a lease *)

Definition lease_transition (l : option WorkerLifecycle) (m : M D bool) : M D lifecycle_result :=
  match l with
  | None => mret (failed errNotConfigured)
  | Some _ =>
      r ← catch m;
      mret (match r with
            | inr err => failed err
            | inl false => missed FenceMissOwner
            | inl true => landed
            end)
  end.

Definition MarkLostFromLease (l : option WorkerLifecycle) (lease : WorkerLease) (reason : string)
    : M D lifecycle_result :=
  lease_transition l
    (MarkWorkerLostIfCurrentLease (lease_id lease) (lease_owner lease) (lease_epoch lease) reason).
Definition Drain (l : option WorkerLifecycle) (lease : WorkerLease) : M D lifecycle_result :=
  lease_transition l (MarkWorkerDraining (lease_id lease) (lease_owner lease) (lease_epoch lease)).
Definition RetireDrained (l : option WorkerLifecycle) (lease : WorkerLease) (reason : string)
    : M D lifecycle_result :=
  lease_transition l
    (RetireDrainingWorker (lease_id lease) (lease_owner lease) (lease_epoch lease) reason).

Definition RefreshLease (l : option WorkerLifecycle) (lease : WorkerLease) : M D WorkerLease :=
  match l with
  | None => fail errNotConfigured
  | Some _ =>
      newEpoch ← BumpWorkerEpoch (lease_id lease) (lease_owner lease) (lease_epoch lease);
      mret (NewWorkerLease (lease_id lease) (lease_owner lease) newEpoch)
  end.
End lifecycle.

(** * Theorems *)

(** The worker is in a final state. *)
Definition is_final (id : Z) (s : db) : Prop :=
  ∃ w, t_workers s !! id = Some w ∧ (W_State w = Retired ∨ W_State w = Lost).

Lemma UPDATE_workers_hit P g e s n s' :
  UPDATE_workers P g e s = Some (n, s') → 0 < n →
  ∃ k r r', t_workers s !! k = Some r ∧ P s r = true ∧ g r = Some r' ∧ t_workers s' !! k = Some r'.
Proof.
  intros Hup Hn. pose proof (UPDATE_workers_inv _ _ _ _ _ _ Hup) as (-> & _ & _).
  assert (¬ ∀ k r, t_workers s !! k = Some r → P s r = false) as Hsome.
  { intros Hall. apply count_workers_0 in Hall. lia. }
  assert (∃ k r, t_workers s !! k = Some r ∧ P s r = true) as (k & r & Hr & HP).
  { destruct (decide (map_Exists (λ _ r, P s r = true) (t_workers s))) as [(k & r & ? & ?)|Hno]; [eauto|].
    exfalso. apply Hsome. intros k r Hr. apply not_true_iff_false. intros HP. apply Hno. by exists k, r. }
  destruct (UPDATE_workers_lookup _ _ _ _ _ _ _ _ Hup Hr) as [[? _]|(_ & r' & ? & ?)]; [congruence|].
  eauto 10.
Qed.

Lemma observed_id record r : observed_is record r = true → W_ID r = W_ID record.
Proof. unfold observed_is, id_is. rewrite !andb_true_iff, bool_decide_eq_true. tauto. Qed.

Section theorems.
Context {D : Type} `{WorldLaws D}.

(** The compare-and-set behind the snapshot transitions. *)
Lemma wp_observed_retire record P target reason t s (Q : bool + store_error → db → Prop) :
  keyed s → target = Retired ∨ target = Lost →
  (∀ s r, P s r = true → observed_is record r = true) →
  (∀ s', Q (inr ErrDB) s') →
  (∀ b s', (b = true → is_final (W_ID record) s') → Q (inl b) s') →
  wp (D := D) (n ← exec (UPDATE_workers P
                  (λ r, Some (set_updated t (set_reason reason (set_state target r)))));
               mret (bool_decide (0 < n))) s Q.
Proof.
  intros Hk Ht Hobs Herr Hok. wp_step. apply wp_exec; [done|]. intros e n s' Hup. split; [|done].
  wp_step. apply Hok. intros Hn%bool_decide_eq_true.
  destruct (UPDATE_workers_hit _ _ _ _ _ _ Hup Hn) as (k & r & r' & Hr & HP & [= <-] & Hr').
  pose proof (Hk k r Hr) as Hid. simpl in Hid. subst k.
  rewrite (observed_id _ _ (Hobs _ _ HP)) in Hr'.
  by exists (set_updated t (set_reason reason (set_state target r))).
Qed.

Lemma MarkWorkerTerminal_final record target reason s :
  keyed s → wp (D := D) (MarkWorkerTerminalIfCurrent (Some record) target reason) s
    (λ r s', r = inl true → is_final (W_ID record) s').
Proof.
  intros Hk. unfold MarkWorkerTerminalIfCurrent. case_bool_decide as Hbad; [by wp_go|].
  wp_step. wp_step. apply (wp_observed_retire record); [done| | |done|].
  - destruct target; auto; exfalso; apply Hbad; done.
  - by intros s1 r [? _]%andb_true_iff.
  - intros b s' Hb [= ->]. by apply Hb.
Qed.

Lemma RetireOrphan_final record reason s :
  keyed s → wp (D := D) (RetireOrphanWorker (Some record) reason) s
    (λ r s', r = inl true → is_final (W_ID record) s').
Proof.
  intros Hk. unfold RetireOrphanWorker. wp_step. wp_step.
  apply (wp_observed_retire record); [done|by left| |done|].
  - by intros s1 r [[? _]%andb_true_iff _]%andb_true_iff.
  - intros b s' Hb [= ->]. by apply Hb.
Qed.

Lemma RetireIdleOrHotIdle_final record reason s :
  keyed s → wp (D := D) (RetireIdleOrHotIdleWorker (Some record) reason) s
    (λ r s', r = inl true → is_final (W_ID record) s').
Proof.
  intros Hk. unfold RetireIdleOrHotIdleWorker. case_bool_decide; [by wp_go|].
  by apply MarkWorkerTerminal_final.
Qed.

(** Every scheduled deletion is of a worker whose row is final. *)
Definition deletions_final (r : lifecycle_result + store_error) (s : db) : Prop :=
  ∀ res, r = inl res → Forall (λ a, is_final (art_worker a) s) (lr_deleted res).

Lemma wp_snapshot_transition l snap reason (m : M D bool) miss s :
  wp m s (λ r s', r = inl true → is_final (W_ID (snap_record snap)) s') →
  wp (D := D) (r ← catch m;
               mret (match r with
                     | inr err => failed err
                     | inl false => missed miss
                     | inl true => landed_cleanup l snap reason
                     end)) s deletions_final.
Proof.
  intros Hm. wp_step. apply wp_catch. eapply wp_mono; [done|]. intros [[]|e] s' Hf; wp_step;
    intros res [= <-]; simpl; [|constructor..]. unfold scheduleCleanup.
  destruct (lc_cleanup l); constructor; [|constructor]. by apply Hf.
Qed.

(** A pod is deleted only when its worker's durable row is final: whenever one
    of the snapshot transitions schedules a physical deletion, the row of that
    worker is retired or lost in the tables it leaves (and, by the store's
    specification, for ever after). *)
Theorem pods_deleted_only_when_final l snap target reason s :
  keyed s →
  wp (D := D) (RetireFromSnapshot l snap target reason) s deletions_final ∧
  wp (D := D) (RetireOrphanFromSnapshot l snap reason) s deletions_final ∧
  wp (D := D) (RetireIdleVariantFromSnapshot l snap reason) s deletions_final.
Proof.
  intros Hk. assert (∀ e, deletions_final (inl (failed e)) s) as Hfail
    by (intros e res [= <-]; constructor).
  split; [|split]; destruct l as [l|]; try (by wp_step).
  - unfold RetireFromSnapshot. case_bool_decide; [by wp_step|].
    by apply wp_snapshot_transition, MarkWorkerTerminal_final.
  - by apply wp_snapshot_transition, RetireOrphan_final.
  - by apply wp_snapshot_transition, RetireIdleOrHotIdle_final.
Qed.

Lemma lease_transition_fenced l (m : M D bool) s :
  wp m s (λ r s', s' = s ∧ r ≠ inl true) →
  wp (D := D) (lease_transition l m) s
    (λ r s', s' = s ∧ ∀ res, r = inl res → Transitioned (lr_outcome res) = false).
Proof.
  intros Hm. destruct l as [l|]; [|wp_step; split; [done|]; by intros res [= <-]].
  unfold lease_transition. wp_step. apply wp_catch. eapply wp_mono; [done|].
  intros [[]|e] s' [-> Hne]; wp_step; split; try done; by intros res [= <-].
Qed.

(** Lease transitions under a lost lease do nothing: [Drain], [RetireDrained]
    and [MarkLostFromLease] report no transition and change no table, and
    [RefreshLease] fails, once somebody else owns the worker's epoch. *)
Theorem lost_lease_transitions_are_noops l lease reason s :
  keyed s → lease_id lease ≠ 0 →
  lease_lost (lease_id lease) (lease_owner lease) (lease_epoch lease) s →
  wp (D := D) (Drain l lease) s
    (λ r s', s' = s ∧ ∀ res, r = inl res → Transitioned (lr_outcome res) = false) ∧
  wp (D := D) (RetireDrained l lease reason) s
    (λ r s', s' = s ∧ ∀ res, r = inl res → Transitioned (lr_outcome res) = false) ∧
  wp (D := D) (MarkLostFromLease l lease reason) s
    (λ r s', s' = s ∧ ∀ res, r = inl res → Transitioned (lr_outcome res) = false) ∧
  wp (D := D) (RefreshLease l lease) s (λ r s', s' = s ∧ ∃ err, r = inr err).
Proof.
  intros Hk Hid Hlost.
  destruct (lease_lost_fenced (D := D) _ _ _ _ Hk Hid Hlost) as (H1 & H2 & H3 & _ & H5 & _).
  split; [|split; [|split]]; [by apply lease_transition_fenced..|].
  unfold RefreshLease. destruct l; [|wp_step; eauto]. wp_step. eapply wp_mono; [exact H5|].
  intros r s' [-> [err ->]]. eauto.
Qed.
End theorems.

(** * Witnesses *)

Lemma pods_deleted_only_when_final_witness :
  wp (D := mem) (RetireFromSnapshot (Some {| lc_cleanup := true |})
    (NewWorkerSnapshot (ex_worker 7 Idle "")) Retired "stale") ex_db deletions_final.
Proof.
  refine (proj1 (pods_deleted_only_when_final (D := mem) (Some {| lc_cleanup := true |})
    (NewWorkerSnapshot (ex_worker 7 Idle "")) Retired "stale" ex_db _)).
  exact ex_keyed.
Defined.

Lemma lost_lease_transitions_are_noops_witness :
  wp (D := mem) (Drain (Some {| lc_cleanup := true |}) (NewWorkerLease 7 "cp-a" 2)) ex_db
    (λ r s', s' = ex_db ∧ ∀ res, r = inl res → Transitioned (lr_outcome res) = false).
Proof.
  refine (proj1 (lost_lease_transitions_are_noops (D := mem) (Some {| lc_cleanup := true |})
    (NewWorkerLease 7 "cp-a" 2) "why" ex_db _ _ _)).
  - exact ex_keyed.
  - discriminate.
  - exists (ex_worker 7 Idle ""). split; [reflexivity|]. left. reflexivity.
Defined.
