(* ===== verification/Janitor.v ===== *)
(** The control-plane janitor (src/controlplane/janitor.go): one tick expires dead
    control planes, retires orphaned, stuck and expired hot-idle workers, expires
    Flight sessions and prunes demand buckets.

    The three optional callbacks at the end of a tick (rolling replacement, pod
    reconciliation and warm-capacity reconciliation, which belong to the
    Kubernetes pool) are parameters. Log lines are not modelled. *)

From Stdlib Require Import Strings.Byte.
From stdpp Require Import prelude gmap strings list fin_maps sorting.
From Stdlib Require Import ZArith Lia.
From S2P Require Import Prelude RuntimeDB RuntimeStore StoreSpec StoreTheorems Lifecycle.

Open Scope Z_scope.

Definition seconds (n : Z) : time := n * 1000000.
Definition defaultWarmCapacityMissBucketTTL : time := seconds (15 * 60).
Definition DefaultWarmCapacityDemandTTL : time := seconds (15 * 60).

Record ControlPlaneJanitor := {
  j_interval : time;
  j_expiryTimeout : time;
  j_orphanGrace : time;
  j_spawnTimeout : time;
  j_activateTimeout : time;
  j_maxDrainTimeout : time;
  j_hotIdleTTL : time;
  j_bucketTTL : time;
  j_lifecycle : option WorkerLifecycle;
}.

Definition NewControlPlaneJanitor (interval expiryTimeout : time) : ControlPlaneJanitor :=
  {| j_interval := if bool_decide (interval ≤ 0) then seconds 5 else interval;
     j_expiryTimeout := if bool_decide (expiryTimeout ≤ 0) then seconds 20 else expiryTimeout;
     j_orphanGrace := seconds 30; j_spawnTimeout := seconds 120; j_activateTimeout := seconds 120;
     j_maxDrainTimeout := seconds (15 * 60); j_hotIdleTTL := 0;
     j_bucketTTL := DefaultWarmCapacityDemandTTL; j_lifecycle := None |}.

Section janitor.
Context {D : Type} `{World D}.

(** Transition the snapshots one by one, collecting the scheduled deletions. *)
Fixpoint reap (f : WorkerSnapshot → M D lifecycle_result) (snaps : list WorkerSnapshot)
    : M D (list artifact) :=
  match snaps with
  | [] => mret []
  | snap :: snaps' =>
      r ← f snap; deleted ← reap f snaps'; mret (lr_deleted r ++ deleted)
  end.

(** List, then reap what was listed; a failed listing reaps nothing. *)
Definition list_and_reap (list : M D (list WorkerSnapshot))
    (f : WorkerSnapshot → M D lifecycle_result) : M D (Datatypes.list artifact) :=
  r ← catch list;
  match r with inr _ => mret [] | inl snaps => reap f snaps end.

Definition reap_orphans (j : ControlPlaneJanitor) : M D (list artifact) :=
  now ← time_Now;
  list_and_reap (ListOrphanedWorkerSnapshots (now - j_orphanGrace j))
    (λ snap, RetireOrphanFromSnapshot (j_lifecycle j) snap "orphaned").

Definition reap_stuck (j : ControlPlaneJanitor) : M D (list artifact) :=
  now ← time_Now; now' ← time_Now;
  list_and_reap (ListStuckWorkerSnapshots (now - j_spawnTimeout j) (now' - j_activateTimeout j))
    (λ snap, RetireFromSnapshot (j_lifecycle j) snap Retired "stuck_activating").

Definition reap_hot_idle (j : ControlPlaneJanitor) : M D (list artifact) :=
  if bool_decide (0 < j_hotIdleTTL j) then
    now ← time_Now;
    list_and_reap (ListExpiredHotIdleSnapshots (now - j_hotIdleTTL j))
      (λ snap, RetireFromSnapshot (j_lifecycle j) snap Retired "hot_idle_ttl_expired")
  else mret [].

Definition expire_instances (j : ControlPlaneJanitor) : M D unit :=
  now ← time_Now;
  catch (ExpireControlPlaneInstances (now - j_expiryTimeout j));;
  if bool_decide (0 < j_maxDrainTimeout j) then
    now ← time_Now;
    catch (ExpireDrainingControlPlaneInstances (now - j_maxDrainTimeout j));;
    mret ()
  else mret ().

Definition prune (j : ControlPlaneJanitor) : M D unit :=
  let ttl := if bool_decide (j_bucketTTL j ≤ 0) then defaultWarmCapacityMissBucketTTL else j_bucketTTL j in
  now ← time_Now;
  catch (PruneWarmCapacityMissBuckets (bucket_start (now - ttl)));;
  mret ().

(** One tick; the result is the physical deletions it scheduled. *)
Definition runOnce (j : ControlPlaneJanitor) (retireMismatchedVersionWorker
    cleanupOrphanedWorkerPods reconcileWarmCapacity : M D unit) : M D (list artifact) :=
  expire_instances j;;
  deleted ← match j_lifecycle j with
            | None => mret []
            | Some _ =>
                a ← reap_orphans j; b ← reap_stuck j; c ← reap_hot_idle j;
                mret (a ++ b ++ c)
            end;
  now ← time_Now;
  catch (ExpireFlightSessionRecords now);;
  prune j;;
  retireMismatchedVersionWorker;;
  cleanupOrphanedWorkerPods;;
  reconcileWarmCapacity;;
  mret deleted.

(** [Run]: a first tick, then one per ticker event until the context is done. *)
Fixpoint Run (j : ControlPlaneJanitor) (retireMismatchedVersionWorker
    cleanupOrphanedWorkerPods reconcileWarmCapacity : M D unit) (ticks : nat) : M D (list artifact) :=
  deleted ← runOnce j retireMismatchedVersionWorker cleanupOrphanedWorkerPods reconcileWarmCapacity;
  match ticks with
  | O => mret deleted
  | S ticks' =>
      more ← Run j retireMismatchedVersionWorker cleanupOrphanedWorkerPods reconcileWarmCapacity ticks';
      mret (deleted ++ more)
  end.
End janitor.

(** * Safety *)

Section safety.
Context {D : Type} `{WorldLaws D}.

(** [m] preserves [I], whatever it returns. *)
Definition keeps {A} (I : db → Prop) (m : M D A) : Prop := ∀ s, I s → wp m s (λ _ s', I s').

Lemma keeps_ret {A} I (a : A) : keeps I (mret a).
Proof. intros s HI. by apply wp_ret. Qed.
Lemma keeps_bind {A B} I (m : M D A) (k : A → M D B) :
  keeps I m → (∀ a, keeps I (k a)) → keeps I (m ≫= k).
Proof.
  intros Hm Hk s HI. apply wp_bind. eapply wp_mono; [by apply Hm|].
  intros [a|e] s' HI'; [by apply Hk|done].
Qed.
Lemma keeps_catch {A} I (m : M D A) : keeps I m → keeps I (catch m).
Proof. intros Hm s HI. apply wp_catch. by apply Hm. Qed.
Lemma keeps_now I : keeps I time_Now.
Proof. intros s HI. by apply wp_now. Qed.
Lemma keeps_select {A} I (f : env → db → A) : keeps I (exec (SELECT f)).
Proof. intros s HI. by apply wp_select. Qed.
Lemma keeps_exec {A} I (f : stmt A) :
  (∀ e s a s', I s → f e s = Some (a, s') → I s') → keeps I (exec f).
Proof. intros Hf s HI. apply wp_exec; [done|]. intros e a s' Hs. split; by eapply Hf. Qed.

Lemma keeps_reap I f snaps :
  (∀ snap, snap ∈ snaps → keeps I (f snap)) → keeps I (reap f snaps).
Proof.
  induction snaps as [|snap snaps IH]; intros Hf; simpl; [apply keeps_ret|].
  apply keeps_bind; [apply Hf; left|]. intros r. apply keeps_bind; [|intros; apply keeps_ret].
  apply IH. intros x Hx. apply Hf. by right.
Qed.

(** Reaping keeps [I] when the listed snapshots all satisfy [P] and reaping a
    snapshot that does keeps it. *)
Lemma keeps_list_and_reap I (P : WorkerSnapshot → Prop) list f :
  (∀ s, I s → wp list s (λ r s', I s' ∧ ∀ snaps, r = inl snaps → Forall P snaps)) →
  (∀ snap, P snap → keeps I (f snap)) →
  keeps I (list_and_reap list f).
Proof.
  intros Hlist Hf s HI. unfold list_and_reap. wp_step. apply wp_catch.
  eapply wp_mono; [by apply Hlist|]. intros [snaps|e] s' [HI' Hsn]; [|by wp_step].
  apply keeps_reap; [|done]. intros snap Hin. apply Hf.
  specialize (Hsn _ eq_refl). rewrite Forall_forall in Hsn. by apply Hsn.
Qed.
End safety.

Section served.
Context {D : Type} `{WorldLaws D}.
Context (j : ControlPlaneJanitor) (T : time) (k : Z) (w : WorkerRecord) (owner : string)
  (cp : ControlPlaneInstance).
Context (clock_bound : ∀ (d : D) t d', time_Now d = (inl t, d') → t ≤ T).
Context (w_hot : W_State w = Hot) (w_owner : W_Owner w = Some owner) (owner_named : owner ≠ ""%string).
Context (cp_alive : CP_State cp ≠ CPExpired).
Context (cp_fresh : T - j_expiryTimeout j ≤ CP_LastHeartbeatAt cp).
Context (cp_drain : ∀ t, CP_State cp = CPDraining → CP_DrainingAt cp = Some t → T - j_maxDrainTimeout j < t).

(** Worker [k] is as [w] and its owner's instance row as [cp]. *)
Definition served (s : db) : Prop :=
  keyed s ∧ t_workers s !! k = Some w ∧ t_cps s !! owner = Some cp.

Lemma wp_now_le s (Q : time + store_error → db → Prop) :
  (∀ t, t ≤ T → Q (inl t) s) → wp (D := D) time_Now s Q.
Proof.
  intros HQ d r d' <- Heq. destruct (time_Now_spec d) as (t & d1 & H1 & H2).
  rewrite Heq in H1. simplify_eq. rewrite H2. by eapply HQ, clock_bound.
Qed.

Lemma keeps_bind_now {A} (m : time → M D A) :
  (∀ t, t ≤ T → keeps served (m t)) → keeps served (now ← time_Now; m now).
Proof. intros Hm s Hs. apply wp_bind, wp_now_le. intros t Ht. by apply Hm. Qed.

(** An update that does not match [w] and keeps ids. *)
Lemma keeps_served_update P g :
  (∀ s, served s → P s w = false) → (∀ r r', g r = Some r' → W_ID r' = W_ID r) →
  keeps served (D := D) (exec (UPDATE_workers P g)).
Proof.
  intros HP Hg. apply keeps_exec. intros e s n s' Hs Hup. pose proof (HP s Hs) as Hno.
  destruct Hs as (Hk & Hw & Hcp). split; [|split].
  - intros i r' Hr'. assert (is_Some (t_workers s !! i)) as [r Hr].
    { apply UPDATE_workers_inv in Hup as (_ & -> & _). simpl in Hr'.
      rewrite lookup_fmap in Hr'. by destruct (t_workers s !! i). }
    destruct (UPDATE_workers_lookup _ _ _ _ _ _ _ _ Hup Hr) as [[_ ?]|(_ & x & Hx & ?)]; simplify_eq.
    + by apply Hk.
    + rewrite (Hg _ _ Hx). by apply Hk.
  - destruct (UPDATE_workers_lookup _ _ _ _ _ _ _ _ Hup Hw) as [[_ ?]|[? _]]; [done|congruence].
  - apply UPDATE_workers_inv in Hup as (_ & -> & _). done.
Qed.

Lemma keeps_served_cps P g :
  P cp = false → keeps served (D := D) (exec (UPDATE_cps P g)).
Proof.
  intros HP. apply keeps_exec. intros e s n s' (Hk & Hw & Hcp) [= <- <-]. split; [done|]. split; [done|].
  simpl. unfold map_where. rewrite lookup_fmap, Hcp. simpl. by rewrite HP.
Qed.

Lemma keeps_served_other {A} (f : stmt A) :
  (∀ e s a s', f e s = Some (a, s') → t_workers s' = t_workers s ∧ t_cps s' = t_cps s) →
  keeps served (D := D) (exec f).
Proof.
  intros Hf. apply keeps_exec. intros e s a s' (Hk & Hw & Hcp) [H1 H2]%Hf.
  unfold served, keyed. rewrite H1, H2. done.
Qed.

Lemma served_expire_instances : keeps served (D := D) (expire_instances j).
Proof.
  unfold expire_instances, ExpireControlPlaneInstances, ExpireDrainingControlPlaneInstances.
  apply keeps_bind_now. intros t Ht. apply keeps_bind; [|intros _].
  - apply keeps_catch, keeps_bind; [apply keeps_now|]. intros now. apply keeps_served_cps.
    apply andb_false_iff. right. apply bool_decide_eq_false. lia.
  - case_bool_decide; [|apply keeps_ret]. apply keeps_bind_now. intros t' Ht'.
    apply keeps_bind; [|intros _; apply keeps_ret].
    apply keeps_catch, keeps_bind; [apply keeps_now|]. intros now. apply keeps_served_cps.
    apply andb_false_iff. destruct (decide (CP_State cp = CPDraining)) as [Hd|Hd].
    + right. destruct (CP_DrainingAt cp) as [t0|] eqn:Hdr; [|done].
      apply bool_decide_eq_false. specialize (cp_drain t0 Hd eq_refl). lia.
    + left. by apply bool_decide_eq_false.
Qed.

(** Transitions from a snapshot in another state than hot do not touch [w]. *)
Lemma served_RetireFromSnapshot l snap target reason :
  W_State (snap_record snap) ≠ Hot →
  keeps served (D := D) (RetireFromSnapshot l snap target reason).
Proof.
  intros Hne. unfold RetireFromSnapshot, MarkWorkerTerminalIfCurrent.
  destruct l; [|apply keeps_ret]. case_bool_decide; [apply keeps_ret|].
  apply keeps_bind; [|intros; apply keeps_ret]. apply keeps_catch.
  apply keeps_bind; [apply keeps_now|]. intros now. apply keeps_bind; [|intros; apply keeps_ret].
  apply keeps_served_update; [|by intros r r' [= <-]]. intros s _. unfold observed_is.
  rewrite (bool_decide_eq_false_2 (W_State w = _)) by congruence. by rewrite andb_false_r.
Qed.

Lemma cp_live_served s : served s → cp_live s owner = true.
Proof.
  intros (_ & _ & Hcp). unfold cp_live. rewrite Hcp. by apply negb_true_iff, bool_decide_eq_false.
Qed.

Lemma served_RetireOrphan l snap reason :
  keeps served (D := D) (RetireOrphanFromSnapshot l snap reason).
Proof.
  unfold RetireOrphanFromSnapshot, RetireOrphanWorker. destruct l; [|apply keeps_ret].
  apply keeps_bind; [|intros; apply keeps_ret]. apply keeps_catch.
  apply keeps_bind; [apply keeps_now|]. intros now. apply keeps_bind; [|intros; apply keeps_ret].
  apply keeps_served_update; [|by intros r r' [= <-]]. intros s Hs%cp_live_served.
  apply not_true_iff_false. unfold observed_is. rewrite !andb_true_iff, !orb_true_iff.
  intros [[[[_ Hown] _] _] Hdead]. destruct Hown as [Hown|Hown].
  - apply bool_decide_eq_true in Hown. rewrite w_owner in Hown. injection Hown as Hown.
    rewrite <- Hown, Hs in Hdead. by destruct Hdead as [?%bool_decide_eq_true|?].
  - apply andb_true_iff in Hown as [_ Hown%bool_decide_eq_true]. congruence.
Qed.

(** Listings return rows in the states they select. *)
Lemma wp_list_scan (P : env → db → WorkerRecord → bool) (sel : env → db → list WorkerRecord) s :
  (∀ e s r, r ∈ sel e s → P e s r = true) → (∀ e s r, P e s r = true → W_State r ≠ Hot) →
  served s →
  wp (D := D) (rs ← exec (SELECT sel); mret (NewWorkerSnapshot <$> rs)) s
    (λ r s', served s' ∧ ∀ snaps, r = inl snaps → Forall (λ sn, W_State (snap_record sn) ≠ Hot) snaps).
Proof.
  intros Hsel HP Hs. wp_step. wp_step; [done|]. wp_step. split; [done|]. intros snaps [= <-].
  apply Forall_fmap, Forall_forall. intros r Hr. simpl. by eapply HP, Hsel.
Qed.

Lemma elem_of_workers_scan P e s r : r ∈ workers_scan P e s → P r = true.
Proof.
  unfold workers_scan. rewrite merge_sort_Permutation, list_elem_of_fmap.
  intros ([i x] & -> & Hin). by apply elem_of_map_to_list, map_lookup_filter_Some in Hin as [_ ?].
Qed.

Lemma stuck_not_hot a b s r : stuck a b s r = true → W_State r ≠ Hot.
Proof.
  unfold stuck. intros [Hst _]%andb_true_iff Hr. unfold state_in in Hst. by rewrite Hr in Hst.
Qed.

Lemma served_runOnce :
  keeps served (D := D) (runOnce j (mret ()) (mret ()) (mret ())).
Proof.
  unfold runOnce. apply keeps_bind; [apply served_expire_instances|intros _].
  apply keeps_bind.
  - destruct (j_lifecycle j) as [l|]; [|apply keeps_ret].
    apply keeps_bind; [|intros ?; apply keeps_bind; [|intros ?; apply keeps_bind; [|intros ?; apply keeps_ret]]].
    + apply keeps_bind; [apply keeps_now|]. intros t.
      apply (keeps_list_and_reap _ (λ _, True)); [|intros snap _; apply served_RetireOrphan].
      intros s Hs. unfold ListOrphanedWorkerSnapshots, ListOrphanedWorkers. wp_go; [done|].
      split; [done|]. intros snaps _. by apply Forall_true.
    + apply keeps_bind; [apply keeps_now|]. intros t. apply keeps_bind; [apply keeps_now|]. intros t'.
      eapply keeps_list_and_reap; [|intros snap; apply served_RetireFromSnapshot].
      intros s Hs. apply (wp_list_scan (λ _, stuck (t - j_spawnTimeout j) (t' - j_activateTimeout j))); [| |done].
      * intros e s' r. apply elem_of_workers_scan.
      * intros e s' r. apply stuck_not_hot.
    + unfold reap_hot_idle. case_bool_decide; [|apply keeps_ret].
      apply keeps_bind; [apply keeps_now|]. intros t.
      eapply keeps_list_and_reap; [|intros snap; apply served_RetireFromSnapshot].
      intros s Hs. apply (wp_list_scan (λ _ _ r, state_in [HotIdle] r && bool_decide (W_UpdatedAt r ≤ t - j_hotIdleTTL j)));
        [| |done].
      * intros e s' r. apply elem_of_workers_scan.
      * intros e s' r [Hst%state_in_1 _]%andb_true_iff. congruence.
  - intros deleted. apply keeps_bind; [apply keeps_now|]. intros t.
    unfold ExpireFlightSessionRecords, prune, PruneWarmCapacityMissBuckets.
    repeat (apply keeps_bind; [|intros ?]); try apply keeps_ret; try apply keeps_now;
      apply keeps_catch; try (apply keeps_bind; [apply keeps_now|intros ?]);
      apply keeps_served_other; intros; simplify_eq/=; try done.
    unfold UPDATE_flights in *. by simplify_eq/=.
Qed.
End served.

(** * Progress *)

(** A row is [r] or has been retired since. *)
Definition same_or_retired (k : Z) (r : WorkerRecord) (s : db) : Prop :=
  ∃ x, t_workers s !! k = Some x ∧ (x = r ∨ W_State x = Retired).

Definition retired_row (k : Z) (s : db) : Prop := ∃ x, t_workers s !! k = Some x ∧ W_State x = Retired.

Lemma UPDATE_workers_total P g e s :
  (∀ r, is_Some (g r)) →
  ∃ n s', UPDATE_workers P g e s = Some (n, s') ∧ t_cps s' = t_cps s ∧ t_flights s' = t_flights s.
Proof.
  intros Hg. unfold UPDATE_workers. rewrite bool_decide_eq_true_2; [by eauto|]. intros k r _. apply Hg.
Qed.

Lemma observed_self r : W_Owner r ≠ None → observed_is r r = true.
Proof.
  intros Ho. unfold observed_is, id_is, epoch_is, owned_by, go_owner.
  destruct (W_Owner r) as [o|]; [|done]. rewrite !andb_true_iff, !orb_true_iff, !bool_decide_eq_true.
  repeat split; auto. right. lia.
Qed.

Section evolution.
Context {D : Type} `{WorldLaws D}.

Lemma evolving_catch {A} (m : M D A) : evolving m → evolving (catch m).
Proof. intros Hm s. apply wp_catch. apply Hm. Qed.

Lemma RetireOrphanFromSnapshot_evolving l snap reason :
  evolving (D := D) (RetireOrphanFromSnapshot l snap reason).
Proof.
  unfold RetireOrphanFromSnapshot. destruct l; [|apply evolving_ret].
  apply evolving_bind; [apply evolving_catch, RetireOrphan_evolving|]. intros r. apply evolving_ret.
Qed.

Lemma RetireFromSnapshot_evolving l snap target reason :
  evolving (D := D) (RetireFromSnapshot l snap target reason).
Proof.
  unfold RetireFromSnapshot. destruct l; [|apply evolving_ret].
  case_bool_decide; [apply evolving_ret|].
  apply evolving_bind; [apply evolving_catch, MarkWorkerTerminal_evolving|]. intros r. apply evolving_ret.
Qed.

Lemma reap_evolving f snaps : (∀ snap, evolving (f snap)) → evolving (D := D) (reap f snaps).
Proof.
  intros Hf. induction snaps as [|snap snaps IH]; simpl; [apply evolving_ret|].
  apply evolving_bind; [apply Hf|]. intros r. apply evolving_bind; [apply IH|]. intros x. apply evolving_ret.
Qed.
(** The rest of the tick after the orphans. *)
Definition after_orphans (j : ControlPlaneJanitor) (a : list artifact) : M D (list artifact) :=
  deleted ← (b ← reap_stuck j; c ← reap_hot_idle j; mret (a ++ b ++ c));
  now ← time_Now;
  catch (ExpireFlightSessionRecords now);;
  prune j;;
  mret ();; mret ();; mret ();;
  mret deleted.

Lemma evolving_after_orphans j a : evolving (D := D) (after_orphans j a).
Proof.
  assert (∀ list st reason, evolving list → evolving (D := D)
    (list_and_reap list (λ sn, RetireFromSnapshot (j_lifecycle j) sn st reason))) as Hreap.
  { intros list st reason Hl. unfold list_and_reap. apply evolving_bind; [by apply evolving_catch|].
    intros [snaps|e]; [|apply evolving_ret]. apply reap_evolving. intros sn.
    apply RetireFromSnapshot_evolving. }
  unfold after_orphans, reap_stuck, reap_hot_idle, ListStuckWorkerSnapshots, ListStuckWorkers,
    ListExpiredHotIdleSnapshots, ListExpiredHotIdleWorkers, prune.
  repeat first [apply Hreap | apply evolving_catch, ExpireFlight_evolving
    | apply evolving_catch, PruneMisses_evolving | evolve_step].
Qed.
End evolution.

Lemma retired_evolves k s s' : keyed s → db_evolves s s' → retired_row k s → retired_row k s'.
Proof.
  intros Hk Hev (x & Hx & Hxs). destruct (Hev Hk) as [_ Hrows].
  destruct (Hrows k x Hx) as (x' & Hx' & Hxx). exists x'. split; [done|].
  pose proof (evolves_state _ _ Hxx) as Hst. by rewrite Hxs in Hst.
Qed.

Section progress.
Context (T : time).

(** Retiring the orphan [snap]: the row of the observed worker ends up retired,
    other rows stay or are retired too, and instances are untouched. *)
Lemma twp_RetireOrphan l snap reason k r s :
  keyed s → same_or_retired k r s → W_Owner r ≠ None →
  twp T (RetireOrphanFromSnapshot (Some l) snap reason) s (λ _ s',
    keyed s' ∧ t_cps s' = t_cps s ∧ same_or_retired k r s' ∧
    (snap_record snap = r → state_in workerActiveStates r = true → cp_live s (go_owner r) = false →
     retired_row k s')).
Proof.
  intros Hk (x & Hx & Hor) Howner. unfold RetireOrphanFromSnapshot, RetireOrphanWorker.
  apply twp_bind, twp_catch, twp_bind, twp_now, twp_bind, twp_exec. intros e _.
  edestruct UPDATE_workers_total as (n & s1 & Hup & Hcps & _); [|rewrite Hup].
  { by eauto. }
  eexists _, _. split; [done|]. apply twp_ret, twp_ret.
  assert (keyed s1) as Hk'.
  { eapply UPDATE_workers_evolves; [|exact Hup|done]. intros i a a' _ HP [= <-].
    apply andb_true_iff in HP as [[_ Hst%state_in_elem]%andb_true_iff _].
    apply row_evolves_same; [done..|]. by apply terminal_evolves; [left|]. }
  split; [exact Hk'|]. split; [done|].
  destruct (UPDATE_workers_lookup _ _ _ _ _ _ _ _ Hup Hx) as [[HP Hx']|(HP & x' & [= <-] & Hx')].
  - split; [exists x; auto|]. intros Hsn Hact Hlive. exists x. split; [done|].
    destruct Hor as [->|?]; [|done]. exfalso. rewrite Hsn, observed_self in HP by done.
    rewrite Hlive in HP. change (workerTerminalEligibleStates Retired) with workerActiveStates in HP.
    rewrite Hact, orb_true_r in HP. done.
  - split; [eexists; split; [exact Hx'|by right]|]. intros _ _ _. eexists. split; [exact Hx'|done].
Qed.

Lemma retired_same k r s : retired_row k s → same_or_retired k r s.
Proof. intros (x & ? & ?). exists x. auto. Qed.

Lemma twp_reap_orphans l snaps reason k r : ∀ s,
  keyed s → same_or_retired k r s → W_Owner r ≠ None → state_in workerActiveStates r = true →
  cp_live s (go_owner r) = false →
  twp T (reap (λ snap, RetireOrphanFromSnapshot (Some l) snap reason) snaps) s
    (λ _ s', keyed s' ∧ same_or_retired k r s' ∧ (NewWorkerSnapshot r ∈ snaps → retired_row k s')).
Proof.
  induction snaps as [|snap snaps IH]; intros s Hk Hsame Ho Hact Hlive; simpl.
  { apply twp_ret. split; [done|]. split; [done|]. by intros ?%elem_of_nil. }
  apply twp_bind. eapply twp_mono; [by apply twp_RetireOrphan|].
  intros res s1 (Hk1 & Hcps & Hsame1 & Hret). apply twp_bind.
  assert (cp_live s1 (go_owner r) = false) as Hlive1 by (unfold cp_live; by rewrite Hcps).
  pose proof (IH s1 Hk1 Hsame1 Ho Hact Hlive1) as Hrest.
  pose proof (twp_wp T _ s1 _ _ Hrest (reap_evolving (D := mem) _ snaps
    (λ sn, RetireOrphanFromSnapshot_evolving (Some l) sn reason) s1)) as Hrest'.
  eapply twp_mono; [exact Hrest'|]. intros del s2 [(Hk2 & Hsame2 & Hin2) Hev].
  apply twp_ret. split; [done|]. split; [done|].
  intros [Heq|Hin]%elem_of_cons; [|by apply Hin2].
  eapply retired_evolves; [exact Hk1|exact Hev|]. apply Hret; [by rewrite <- Heq|done|done].
Qed.

(** Code that returns from every state, whatever the tables become. *)
Definition total {A} (m : M mem A) : Prop := ∀ s, twp T m s (λ _ _, True).

Lemma total_ret {A} (a : A) : total (mret a).
Proof. intros s. by apply twp_ret. Qed.
Lemma total_bind {A B} (m : M mem A) (k : A → M mem B) : total m → (∀ a, total (k a)) → total (m ≫= k).
Proof. intros Hm Hk s. apply twp_bind. eapply twp_mono; [apply Hm|]. intros a s' _. apply Hk. Qed.
Lemma total_now : total time_Now.
Proof. intros s. by apply twp_now. Qed.
Lemma total_catch {A} (m : M mem A) : total m → total (catch m).
Proof. intros Hm s. apply twp_catch. apply Hm. Qed.
Lemma total_exec {A} (f : stmt A) : (∀ e s, is_Some (f e s)) → total (exec f).
Proof. intros Hf s. apply twp_exec. intros e _. destruct (Hf e s) as [[a s'] ?]. eauto. Qed.
Lemma total_update P g : (∀ r, is_Some (g r)) → total (exec (UPDATE_workers P g)).
Proof.
  intros Hg. apply total_exec. intros e s. destruct (UPDATE_workers_total P g e s Hg) as (n & s' & -> & _).
  eauto.
Qed.
Lemma total_reap f snaps : (∀ sn, total (f sn)) → total (reap f snaps).
Proof.
  intros Hf. induction snaps; simpl; [apply total_ret|]. apply total_bind; [apply Hf|].
  intros r. apply total_bind; [done|]. intros x. apply total_ret.
Qed.

Ltac total_step :=
  first
    [ apply total_ret | apply total_now | apply total_catch
    | apply total_update; intros ?; eauto
    | apply total_exec; intros ? ?; eexists; reflexivity
    | apply total_reap; intros ?
    | apply total_bind; [|intros ?]
    | match goal with
      | |- total (match ?x with _ => _ end) => destruct x
      | |- total (if ?x then _ else _) => destruct x
      end ].

Lemma total_RetireFromSnapshot l snap st reason : total (RetireFromSnapshot l snap st reason).
Proof.
  unfold RetireFromSnapshot, MarkWorkerTerminalIfCurrent. destruct l; [|apply total_ret].
  destruct (bool_decide _) eqn:E; [apply total_ret|]. repeat total_step.
Qed.

Lemma total_after_orphans j a : total (after_orphans j a).
Proof.
  unfold after_orphans, reap_stuck, reap_hot_idle, list_and_reap, ListStuckWorkerSnapshots,
    ListStuckWorkers, ListExpiredHotIdleSnapshots, ListExpiredHotIdleWorkers,
    ExpireFlightSessionRecords, prune, PruneWarmCapacityMissBuckets, UPDATE_flights.
  repeat first [apply total_RetireFromSnapshot | total_step].
Qed.


Lemma twp_ext {A} (m m' : M mem A) s Q : (∀ d, m d = m' d) → twp T m' s Q → twp T m s Q.
Proof. intros Heq Hm d. rewrite Heq. apply Hm. Qed.

(** A tick is: expire instances, reap orphans, the rest. *)
Lemma runOnce_split j l d :
  j_lifecycle j = Some l →
  runOnce (D := mem) j (mret ()) (mret ()) (mret ()) d
  = (expire_instances j;; a ← reap_orphans j; after_orphans j a) d.
Proof.
  intros Hl. unfold runOnce, after_orphans. rewrite Hl. unfold mbind, M_bind.
  destruct (expire_instances j d) as [[]?]; [|done]. by destruct (reap_orphans j _) as [[]?].
Qed.

(** Expiring instances leaves an expired instance, the workers and the sessions. *)
Lemma twp_expire_instances j s :
  twp T (expire_instances j) s (λ _ s', t_workers s' = t_workers s ∧ t_flights s' = t_flights s ∧
    ∀ o cp, t_cps s !! o = Some cp → CP_State cp = CPExpired → t_cps s' !! o = Some cp).
Proof.
  assert (∀ P now s0, (∀ cp, CP_State cp = CPExpired → P cp = false) →
    ∀ o cp, t_cps s0 !! o = Some cp → CP_State cp = CPExpired →
    map_where P (cp_expire now) (t_cps s0) !! o = Some cp) as Hmap.
  { intros P now s0 HP o cp Ho Hst. unfold map_where. rewrite lookup_fmap, Ho. simpl.
    by rewrite (HP cp Hst). }
  unfold expire_instances, ExpireControlPlaneInstances, ExpireDrainingControlPlaneInstances, UPDATE_cps.
  apply twp_bind, twp_now, twp_bind, twp_catch, twp_bind, twp_now, twp_exec.
  intros e _. eexists _, _. split; [reflexivity|]. case_bool_decide.
  - apply twp_bind, twp_now, twp_bind, twp_catch, twp_bind, twp_now, twp_exec.
    intros e' _. eexists _, _. split; [reflexivity|]. apply twp_ret. simpl.
    split; [done|]. split; [done|]. intros o cp Ho Hst.
    apply (Hmap _ _ (with_cps _ s)); [|by apply Hmap; [intros ? ->|..]|done]. by intros cp' ->.
  - apply twp_ret. simpl. split; [done|]. split; [done|]. apply Hmap. by intros ? ->.
Qed.

Lemma orphaned_listed before s r k o cp t :
  t_workers s !! k = Some r → state_in workerActiveStates r = true →
  W_Owner r = Some o → t_cps s !! o = Some cp → CP_State cp = CPExpired →
  CP_ExpiredAt cp = Some t → t ≤ before → reclaimable_session s (W_ID r) = false →
  r ∈ workers_where (orphaned before s) s.
Proof.
  intros Hr Hact Ho Hcp Hst Hexp Ht Hsess. apply elem_of_workers_where. split; [|eauto].
  unfold orphaned, owner_cp. rewrite Hact, Ho. simpl. rewrite Hcp, Hst, Hexp, Hsess. simpl.
  by rewrite bool_decide_eq_true_2.
Qed.
End progress.

(** A tick of the janitor never takes a worker from under a live control
    plane: a hot worker whose owner's instance row is not expired, has a fresh
    heartbeat and is not overdue in draining, has exactly the same record after
    the tick, whatever the rest of the tables and whatever fails. *)
Theorem janitor_spares_served_workers {D} `{WorldLaws D} j T k w owner cp s :
  (∀ (d : D) t d', time_Now d = (inl t, d') → t ≤ T) →
  keyed s → t_workers s !! k = Some w → W_State w = Hot →
  W_Owner w = Some owner → owner ≠ ""%string →
  t_cps s !! owner = Some cp → CP_State cp ≠ CPExpired →
  T - j_expiryTimeout j ≤ CP_LastHeartbeatAt cp →
  (∀ t, CP_State cp = CPDraining → CP_DrainingAt cp = Some t → T - j_maxDrainTimeout j < t) →
  wp (D := D) (runOnce j (mret ()) (mret ()) (mret ())) s (λ _ s', t_workers s' !! k = Some w).
Proof.
  intros Hclock Hk Hw Hst Ho Hne Hcp Halive Hfresh Hdrain.
  eapply wp_mono; [apply (served_runOnce (D := D) j T k w owner cp); done|].
  by intros r s' (_ & ? & _).
Qed.

(** C32. Orphans go away: if a worker's owner has been expired for the grace period
    and no Flight session of the worker can be reclaimed, then one fault-free
    tick leaves its record retired, whatever state it was in. *)
Theorem janitor_retires_orphans j l T k r o cp t s :
  j_lifecycle j = Some l →
  keyed s → t_workers s !! k = Some r → state_in workerActiveStates r = true →
  W_Owner r = Some o → o ≠ ""%string → t_cps s !! o = Some cp → CP_State cp = CPExpired →
  CP_ExpiredAt cp = Some t → t ≤ T - j_orphanGrace j → reclaimable_session s (W_ID r) = false →
  twp T (runOnce j (mret ()) (mret ()) (mret ())) s (λ _ s', retired_row k s').
Proof.
  intros Hl Hk Hr Hact Ho Hne Hcp Hst Hexp Ht Hsess.
  eapply twp_ext; [intros d; by eapply runOnce_split|].
  apply twp_bind. eapply twp_mono; [apply twp_expire_instances|].
  intros _ s1 (Hw1 & Hf1 & Hcp1). specialize (Hcp1 o cp Hcp Hst).
  assert (keyed s1) as Hk1 by (unfold keyed; by rewrite Hw1).
  assert (cp_live s1 (go_owner r) = false) as Hlive.
  { unfold cp_live, go_owner. rewrite Ho. simpl. by rewrite Hcp1, Hst. }
  apply twp_bind. unfold reap_orphans, list_and_reap, ListOrphanedWorkerSnapshots, ListOrphanedWorkers.
  apply twp_bind, twp_now, twp_bind, twp_catch, twp_bind, twp_select. intros e _. apply twp_ret.
  rewrite Hl. eapply twp_mono.
  - apply (twp_reap_orphans T l _ "orphaned" k r s1); [done| |congruence|done|done].
    exists r. rewrite Hw1. auto.
  - intros del s2 (Hk2 & _ & Hret).
    pose proof (twp_wp T _ s2 _ _ (total_after_orphans T j del s2)
      (evolving_after_orphans (D := mem) j del s2)) as Hrest.
    eapply twp_mono; [exact Hrest|]. intros del' s3 [_ Hev].
    eapply retired_evolves; [exact Hk2|exact Hev|]. apply Hret, list_elem_of_fmap_2.
    eapply orphaned_listed; [by rewrite Hw1|done..|]. unfold reclaimable_session. by rewrite Hf1.
Qed.

(** * Witnesses *)

(** The database in memory with a clock that does not pass [T]. *)
Definition mem_until (T : time) : World mem := {|
  tables := m_db;
  exec A := mem_exec;
  time_Now := λ d, (inl (Z.min T (m_clock d)), d);
  Transaction A := mem_transaction;
|}.

Lemma mem_until_laws T : @WorldLaws mem (mem_until T).
Proof.
  split.
  - apply (@exec_ok mem mem_world mem_laws).
  - apply (@exec_err mem mem_world mem_laws).
  - intros d. by eexists _, _.
  - apply (@Transaction_ok mem mem_world mem_laws).
  - apply (@Transaction_err mem mem_world mem_laws).
Qed.

Definition ex_janitor : ControlPlaneJanitor :=
  {| j_interval := seconds 5; j_expiryTimeout := seconds 20; j_orphanGrace := seconds 30;
     j_spawnTimeout := seconds 120; j_activateTimeout := seconds 120;
     j_maxDrainTimeout := seconds 900; j_hotIdleTTL := 0; j_bucketTTL := 0;
     j_lifecycle := Some {| lc_cleanup := true |} |}.

Definition ex_instance (st : ControlPlaneInstanceState) (beat : time) (exp : option time)
    : ControlPlaneInstance :=
  {| CP_ID := "cp-a"; CP_PodName := "p"; CP_PodUID := "u"; CP_BootID := "b"; CP_State := st;
     CP_StartedAt := 1; CP_LastHeartbeatAt := beat; CP_DrainingAt := None; CP_ExpiredAt := exp;
     CP_CreatedAt := 1; CP_UpdatedAt := 1 |}.

Definition ex_janitor_db (cp : ControlPlaneInstance) : db := with_cps {[ "cp-a"%string := cp ]} ex_db.

Lemma janitor_spares_served_workers_witness :
  @wp mem (mem_until (seconds 1000)) _
    (@runOnce mem (mem_until (seconds 1000)) ex_janitor (mret ()) (mret ()) (mret ()))
    (ex_janitor_db (ex_instance CPActive (seconds 990) None))
    (λ _ s', t_workers s' !! 9 = Some (ex_worker 9 Hot "org1")).
Proof.
  apply (@janitor_spares_served_workers mem (mem_until (seconds 1000)) (mem_until_laws _)
    ex_janitor (seconds 1000) 9 (ex_worker 9 Hot "org1") "cp-a"
    (ex_instance CPActive (seconds 990) None)).
  - intros d t d' Heq. injection Heq as <- _. apply Z.le_min_l.
  - exact ex_keyed.
  - reflexivity.
  - reflexivity.
  - reflexivity.
  - discriminate.
  - reflexivity.
  - discriminate.
  - vm_compute. discriminate.
  - discriminate.
Defined.

Lemma janitor_retires_orphans_witness :
  twp (seconds 1000) (runOnce ex_janitor (mret ()) (mret ()) (mret ()))
    (ex_janitor_db (ex_instance CPExpired (seconds 900) (Some (seconds 920))))
    (λ _ s', retired_row 9 s').
Proof.
  apply (janitor_retires_orphans ex_janitor {| lc_cleanup := true |} (seconds 1000) 9
    (ex_worker 9 Hot "org1") "cp-a" (ex_instance CPExpired (seconds 900) (Some (seconds 920)))
    (seconds 920)).
  - reflexivity.
  - exact ex_keyed.
  - reflexivity.
  - reflexivity.
  - reflexivity.
  - discriminate.
  - reflexivity.
  - reflexivity.
  - reflexivity.
  - vm_compute. discriminate.
  - reflexivity.
Defined.
