(* ===== verification/Auth.v ===== *)
(** Connection rate limiting and password validation (src/server/auth/ratelimit.go,
    policy.go).

    A method runs under the limiter's mutex, so it is a function on the limiter's
    state; the clock readings it makes are arguments, in nanoseconds since Go's
    zero time. Counters are unbounded integers: they count live connections.
    [rl_gauge] is the value of the rate-limited-IPs gauge; other metrics and the
    ticker that drives [cleanup] are not modelled. *)

From Stdlib Require Import Strings.Byte.
From stdpp Require Import prelude gmap strings list fin_maps.
From Stdlib Require Import ZArith Lia.
From S2P Require Import Prelude.

Open Scope Z_scope.

Definition instant := Z.
Definition is_zero (t : instant) : bool := bool_decide (t = 0).
Definition second : Z := 1000000000.

Record RateLimitConfig := {
  MaxFailedAttempts : Z;
  FailedAttemptWindow : Z;
  BanDuration : Z;
  MaxConnectionsPerIP : Z;
  MaxConnections : Z;
}.

Definition DefaultRateLimitConfig : RateLimitConfig :=
  {| MaxFailedAttempts := 5; FailedAttemptWindow := 5 * 60 * second; BanDuration := 15 * 60 * second;
     MaxConnectionsPerIP := 500; MaxConnections := 1024 |}.

Record ipRecord := {
  failedAttempts : list instant;
  bannedUntil : instant;
  activeConns : Z;
}.
Definition new_record : ipRecord := {| failedAttempts := []; bannedUntil := 0; activeConns := 0 |}.

Record RateLimiter := {
  rl_config : RateLimitConfig;
  rl_records : gmap string ipRecord;
  rl_total : Z;
  rl_gauge : Z;
}.

Definition NewRateLimiter (cfg : RateLimitConfig) : RateLimiter :=
  {| rl_config := cfg; rl_records := ∅; rl_total := 0; rl_gauge := 0 |}.

Definition set_records (rs : gmap string ipRecord) (rl : RateLimiter) : RateLimiter :=
  {| rl_config := rl_config rl; rl_records := rs; rl_total := rl_total rl; rl_gauge := rl_gauge rl |}.
Definition set_total (n : Z) (rl : RateLimiter) : RateLimiter :=
  {| rl_config := rl_config rl; rl_records := rl_records rl; rl_total := n; rl_gauge := rl_gauge rl |}.
Definition add_gauge (n : Z) (rl : RateLimiter) : RateLimiter :=
  {| rl_config := rl_config rl; rl_records := rl_records rl; rl_total := rl_total rl;
     rl_gauge := rl_gauge rl + n |}.

(** * net.SplitHostPort *)

Fixpoint index_byte (b : byte) (l : list byte) : option nat :=
  match l with
  | [] => None
  | c :: l' => if bool_decide (b = c) then Some O else S <$> index_byte b l'
  end.
Definition last_index_byte (b : byte) (l : list byte) : option nat :=
  (λ i, (length l - 1 - i)%nat) <$> index_byte b (reverse l).

(** The host, or [None] for an address error. *)
Definition SplitHostPort (hostport : list byte) : option (list byte) :=
  match last_index_byte x3a hostport with
  | None => None
  | Some i =>
      let parts :=
        match hostport with
        | x5b :: _ =>
            match index_byte x5d hostport with
            | None => None
            | Some e =>
                if bool_decide (S e = length hostport) then None
                else if bool_decide (S e = i) then Some (drop 1 (take e hostport), 1%nat, S e)
                else None
            end
        | _ =>
            let host := take i hostport in
            match index_byte x3a host with Some _ => None | None => Some (host, O, O) end
        end in
      match parts with
      | None => None
      | Some (host, j, k) =>
          match index_byte x5b (drop j hostport), index_byte x5d (drop k hostport) with
          | None, None => Some host
          | _, _ => None
          end
      end
  end.

(** [addr] is [None] for a nil address, otherwise its [String()]. *)
Definition extractIP (addr : option string) : string :=
  match addr with
  | None => ""
  | Some s => match SplitHostPort (bytes s) with Some host => str host | None => s end
  end.

(** * The limiter *)

Inductive reject :=
  | Allowed                              (** the empty message *)
  | TooManyConcurrent
  | TooManyFailedAuth (remaining : Z)    (** the rounded rest of the ban *)
  | TooManyFromIP.

(** [Duration.Round]: half away from zero. *)
Definition Round (d m : Z) : Z :=
  if bool_decide (m ≤ 0) then d else
  let r := Z.rem d m in
  if bool_decide (d < 0)
  then if bool_decide (- r + - r < m) then d - r else d - m - r
  else if bool_decide (r + r < m) then d - r else d + m - r.

Definition record_of (rl : RateLimiter) (ip : string) : ipRecord := default new_record (rl_records rl !! ip).

(** [getOrCreateRecord]: the record, now in the map. *)
Definition getOrCreateRecord (rl : RateLimiter) (ip : string) : ipRecord * RateLimiter :=
  match rl_records rl !! ip with
  | Some r => (r, rl)
  | None => (new_record, set_records (<[ ip := new_record ]> (rl_records rl)) rl)
  end.

Definition at_total_limit (rl : RateLimiter) : bool :=
  bool_decide (0 < MaxConnections (rl_config rl)) && bool_decide (MaxConnections (rl_config rl) ≤ rl_total rl).
Definition at_ip_limit (rl : RateLimiter) (r : ipRecord) : bool :=
  bool_decide (0 < MaxConnectionsPerIP (rl_config rl))
  && bool_decide (MaxConnectionsPerIP (rl_config rl) ≤ activeConns r).
Definition banned_at (now : instant) (r : ipRecord) : bool :=
  negb (is_zero (bannedUntil r)) && bool_decide (now < bannedUntil r).

(** [now2] is the second clock reading, for the message. *)
Definition CheckConnection (rl : RateLimiter) (addr : option string) (now now2 : instant)
    : reject * RateLimiter :=
  let ip := extractIP addr in
  if bool_decide (ip = ""%string) then (Allowed, rl) else
  if at_total_limit rl then (TooManyConcurrent, rl) else
  let '(r, rl) := getOrCreateRecord rl ip in
  if banned_at now r then (TooManyFailedAuth (Round (bannedUntil r - now2) second), rl) else
  if at_ip_limit rl r then (TooManyFromIP, rl) else (Allowed, rl).

Definition with_conns (n : Z) (r : ipRecord) : ipRecord :=
  {| failedAttempts := failedAttempts r; bannedUntil := bannedUntil r; activeConns := n |}.

Definition RegisterConnection (rl : RateLimiter) (addr : option string) (now : instant)
    : bool * RateLimiter :=
  let ip := extractIP addr in
  if bool_decide (ip = ""%string) then (true, rl) else
  if at_total_limit rl then (false, rl) else
  let '(r, rl) := getOrCreateRecord rl ip in
  if banned_at now r then (false, rl) else
  if at_ip_limit rl r then (false, rl) else
  (true, set_total (rl_total rl + 1)
           (set_records (<[ ip := with_conns (activeConns r + 1) r ]> (rl_records rl)) rl)).

Definition UnregisterConnection (rl : RateLimiter) (addr : option string) : RateLimiter :=
  let ip := extractIP addr in
  if bool_decide (ip = ""%string) then rl else
  let n := rl_total rl - 1 in
  let rl := set_total (if bool_decide (n < 0) then 0 else n) rl in
  match rl_records rl !! ip with
  | None => rl
  | Some r =>
      let n := activeConns r - 1 in
      set_records (<[ ip := with_conns (if bool_decide (n < 0) then 0 else n) r ]> (rl_records rl)) rl
  end.

Definition recent (windowStart : instant) (l : list instant) : list instant :=
  filter (λ t, windowStart < t) l.

Definition RecordFailedAuth (rl : RateLimiter) (addr : option string) (now : instant)
    : bool * RateLimiter :=
  let ip := extractIP addr in
  if bool_decide (ip = ""%string) then (false, rl) else
  let '(r, rl) := getOrCreateRecord rl ip in
  let attempts := failedAttempts r ++ [now] in
  let windowStart := now - FailedAttemptWindow (rl_config rl) in
  let recentAttempts := Z.of_nat (length (recent windowStart attempts)) in
  if bool_decide (MaxFailedAttempts (rl_config rl) ≤ recentAttempts) then
    let alreadyCounted := negb (is_zero (bannedUntil r)) in
    let r := {| failedAttempts := attempts; bannedUntil := now + BanDuration (rl_config rl);
                activeConns := activeConns r |} in
    (true, add_gauge (if alreadyCounted then 0 else 1)
             (set_records (<[ ip := r ]> (rl_records rl)) rl))
  else
    let r := {| failedAttempts := attempts; bannedUntil := bannedUntil r; activeConns := activeConns r |} in
    (false, set_records (<[ ip := r ]> (rl_records rl)) rl).

Definition RecordSuccessfulAuth (rl : RateLimiter) (addr : option string) : RateLimiter :=
  let ip := extractIP addr in
  if bool_decide (ip = ""%string) then rl else
  match rl_records rl !! ip with
  | None => rl
  | Some r =>
      let r' := {| failedAttempts := []; bannedUntil := 0; activeConns := activeConns r |} in
      add_gauge (if is_zero (bannedUntil r) then 0 else -1)
        (set_records (<[ ip := r' ]> (rl_records rl)) rl)
  end.

Definition IsBanned (rl : RateLimiter) (addr : option string) (now : instant) : bool :=
  let ip := extractIP addr in
  if bool_decide (ip = ""%string) then false else
  match rl_records rl !! ip with None => false | Some r => banned_at now r end.

(** One record in [cleanup]: what is left of it, if anything, and whether its
    ban was cleared. *)
Definition clean_record (cfg : RateLimitConfig) (now : instant) (r : ipRecord) : option ipRecord * bool :=
  let attempts := recent (now - FailedAttemptWindow cfg) (failedAttempts r) in
  let expired := negb (is_zero (bannedUntil r)) && bool_decide (bannedUntil r < now) in
  let until := if expired then 0 else bannedUntil r in
  if bool_decide (attempts = []) && is_zero until && bool_decide (activeConns r = 0)
  then (None, expired)
  else (Some {| failedAttempts := attempts; bannedUntil := until; activeConns := activeConns r |}, expired).

Definition cleanup (rl : RateLimiter) (now : instant) : RateLimiter :=
  let cleared := filter (λ kv : string * ipRecord, (clean_record (rl_config rl) now kv.2).2 = true)
                   (rl_records rl) in
  add_gauge (- Z.of_nat (size cleared))
    (set_records (omap (λ r, (clean_record (rl_config rl) now r).1) (rl_records rl)) rl).

(** * Policy *)

(** What [BeginRateLimitedAuthAttempt] returns: whether the release function
    unregisters, and the reject reason. The clock is read by the two checks and
    the registration. *)
Definition BeginRateLimitedAuthAttempt (rl : option RateLimiter) (addr : option string)
    (n1 n2 n3 n4 n5 : instant) : bool * reject * option RateLimiter :=
  match rl with
  | None => (false, Allowed, None)
  | Some rl =>
      match CheckConnection rl addr n1 n2 with
      | (Allowed, rl) =>
          match RegisterConnection rl addr n3 with
          | (true, rl) => (true, Allowed, Some rl)
          | (false, rl) =>
              match CheckConnection rl addr n4 n5 with
              | (Allowed, rl) => (false, TooManyFromIP, Some rl)
              | (msg, rl) => (false, msg, Some rl)
              end
          end
      | (msg, rl) => (false, msg, Some rl)
      end
  end.

Definition RecordFailedAuthAttempt (rl : option RateLimiter) (addr : option string) (now : instant)
    : bool * option RateLimiter :=
  match rl with
  | None => (false, None)
  | Some rl => let '(b, rl) := RecordFailedAuth rl addr now in (b, Some rl)
  end.

Definition RecordSuccessfulAuthAttempt (rl : option RateLimiter) (addr : option string)
    : option RateLimiter :=
  match rl with None => None | Some rl => Some (RecordSuccessfulAuth rl addr) end.

(** [subtle.ConstantTimeEq] on int32 values. *)
Definition ConstantTimeEq32 (a b : Z) : bool := bool_decide (wrap_s 32 a = wrap_s 32 b).

(** The comparison loop: bytes past the end read as 0. *)
Fixpoint diff_bytes (n : nat) (i : nat) (a b : list byte) (diff : Z) : Z :=
  match n with
  | O => diff
  | S n' =>
      let av := default 0 (byte_val <$> a !! i) in
      let bv := default 0 (byte_val <$> b !! i) in
      diff_bytes n' (S i) a b (Z.lor diff (Z.lxor av bv))
  end.

Definition constantTimeStringEqual (a b : string) : bool :=
  let ab := bytes a in
  let bb := bytes b in
  let maxLen := Nat.max (length ab) (length bb) in
  let diff := diff_bytes maxLen 0 ab bb 0 in
  ConstantTimeEq32 (Z.of_nat (length ab)) (Z.of_nat (length bb)) && bool_decide (diff = 0).

Definition invalidPasswordSentinel : string := "__duckgres_invalid_password_sentinel__".

Definition ValidateUserPassword (users : gmap string string) (username password : string) : bool :=
  let userFound := bool_decide (is_Some (users !! username)) in
  let expectedPassword := default invalidPasswordSentinel (users !! username) in
  let passwordMatches := constantTimeStringEqual password expectedPassword in
  userFound && passwordMatches.

(** * Histories *)

Inductive rl_op :=
  | OpCheck (addr : option string) (now2 : instant)
  | OpRegister (addr : option string)
  | OpUnregister (addr : option string)
  | OpFailed (addr : option string)
  | OpSuccess (addr : option string)
  | OpIsBanned (addr : option string)
  | OpCleanup.

Inductive response := NoReply | Message (r : reject) | Flag (b : bool).

(** One call at clock reading [now]. *)
Definition rl_step (now : instant) (op : rl_op) (rl : RateLimiter) : response * RateLimiter :=
  match op with
  | OpCheck addr now2 => let '(m, rl) := CheckConnection rl addr now now2 in (Message m, rl)
  | OpRegister addr => let '(b, rl) := RegisterConnection rl addr now in (Flag b, rl)
  | OpUnregister addr => (NoReply, UnregisterConnection rl addr)
  | OpFailed addr => let '(b, rl) := RecordFailedAuth rl addr now in (Flag b, rl)
  | OpSuccess addr => (NoReply, RecordSuccessfulAuth rl addr)
  | OpIsBanned addr => (Flag (IsBanned rl addr now), rl)
  | OpCleanup => (NoReply, cleanup rl now)
  end.

Fixpoint rl_run (h : list (instant * rl_op)) (rl : RateLimiter) : list response * RateLimiter :=
  match h with
  | [] => ([], rl)
  | (now, op) :: h =>
      let '(r, rl) := rl_step now op rl in
      let '(rs, rl) := rl_run h rl in
      (r :: rs, rl)
  end.

(** The clock never goes back from [now] on. *)
Fixpoint clocked (now : instant) (h : list (instant * rl_op)) : Prop :=
  match h with
  | [] => True
  | (t, _) :: h => now ≤ t ∧ clocked t h
  end.

Definition is_cleanup (op : rl_op) : bool := match op with OpCleanup => true | _ => false end.

(** A history without its sweeps, and the replies to the other calls. *)
Definition unswept (h : list (instant * rl_op)) : list (instant * rl_op) :=
  filter (λ p, is_cleanup p.2 = false) h.
Fixpoint client_replies (h : list (instant * rl_op)) (rl : RateLimiter) : list response :=
  match h with
  | [] => []
  | (now, op) :: h =>
      let '(r, rl) := rl_step now op rl in
      (if is_cleanup op then [] else [r]) ++ client_replies h rl
  end.

(** ** What each call does to the record of an address *)

Definition op_addr (op : rl_op) : option string :=
  match op with
  | OpCheck a _ | OpRegister a | OpUnregister a | OpFailed a | OpSuccess a | OpIsBanned a => a
  | OpCleanup => None
  end.

Definition admits (rl : RateLimiter) (now : instant) (r : ipRecord) : bool :=
  negb (at_total_limit rl) && negb (banned_at now r) && negb (at_ip_limit rl r).

Definition bans (cfg : RateLimitConfig) (now : instant) (r : ipRecord) : bool :=
  bool_decide (MaxFailedAttempts cfg ≤
    Z.of_nat (length (recent (now - FailedAttemptWindow cfg) (failedAttempts r ++ [now])))).

(** The record of the call's own address afterwards. *)
Definition touched (rl : RateLimiter) (now : instant) (op : rl_op) (r : ipRecord) : ipRecord :=
  match op with
  | OpRegister _ => if admits rl now r then with_conns (activeConns r + 1) r else r
  | OpUnregister _ => with_conns (Z.max 0 (activeConns r - 1)) r
  | OpFailed _ =>
      {| failedAttempts := failedAttempts r ++ [now];
         bannedUntil := if bans (rl_config rl) now r then now + BanDuration (rl_config rl) else bannedUntil r;
         activeConns := activeConns r |}
  | OpSuccess _ => {| failedAttempts := []; bannedUntil := 0; activeConns := activeConns r |}
  | _ => r
  end.

Lemma record_of_insert rl ip r j :
  record_of (set_records (<[ ip := r ]> (rl_records rl)) rl) j = if decide (ip = j) then r else record_of rl j.
Proof.
  unfold record_of. cbn. case_decide; subst.
  - by rewrite lookup_insert_eq.
  - by rewrite lookup_insert_ne.
Qed.

Lemma record_of_add_gauge n rl j : record_of (add_gauge n rl) j = record_of rl j.
Proof. done. Qed.
Lemma record_of_set_total n rl j : record_of (set_total n rl) j = record_of rl j.
Proof. done. Qed.

Lemma getOrCreate_spec rl ip :
  (getOrCreateRecord rl ip).1 = record_of rl ip
  ∧ rl_config (getOrCreateRecord rl ip).2 = rl_config rl
  ∧ rl_total (getOrCreateRecord rl ip).2 = rl_total rl
  ∧ rl_gauge (getOrCreateRecord rl ip).2 = rl_gauge rl
  ∧ rl_records (getOrCreateRecord rl ip).2
    = match rl_records rl !! ip with
      | Some _ => rl_records rl | None => <[ ip := new_record ]> (rl_records rl) end
  ∧ ∀ j, record_of (getOrCreateRecord rl ip).2 j = record_of rl j.
Proof.
  unfold getOrCreateRecord. destruct (rl_records rl !! ip) eqn:E; cbn.
  - unfold record_of. by rewrite E.
  - repeat split; try (unfold record_of; by rewrite E).
    intros j. rewrite record_of_insert. case_decide; [subst|done].
    unfold record_of. by rewrite E.
Qed.

Lemma cleaned_record_of rl now j :
  record_of (cleanup rl now) j
  = default new_record (clean_record (rl_config rl) now (record_of rl j)).1.
Proof.
  unfold cleanup. rewrite record_of_add_gauge. unfold record_of. cbn [set_records rl_records].
  rewrite lookup_omap. destruct (rl_records rl !! j); reflexivity.
Qed.

(** The calls, seen through [record_of]. *)
Definition active_at (op : rl_op) (j : string) : Prop := extractIP (op_addr op) = j ∧ j ≠ ""%string.
#[export] Instance active_at_dec op j : Decision (active_at op j) := _.

Definition next_record (rl : RateLimiter) (now : instant) (op : rl_op) (j : string) : ipRecord :=
  if is_cleanup op then default new_record (clean_record (rl_config rl) now (record_of rl j)).1
  else if decide (active_at op j) then touched rl now op (record_of rl j)
  else record_of rl j.

Definition next_total (rl : RateLimiter) (now : instant) (op : rl_op) : Z :=
  let ip := extractIP (op_addr op) in
  if bool_decide (ip = ""%string) then rl_total rl else
  match op with
  | OpRegister _ => if admits rl now (record_of rl ip) then rl_total rl + 1 else rl_total rl
  | OpUnregister _ => Z.max 0 (rl_total rl - 1)
  | _ => rl_total rl
  end.

(** [rl'] has the configuration of [rl], and the given total and records. *)
Definition sees (rl' rl : RateLimiter) (total : Z) (rec : string → ipRecord) : Prop :=
  rl_config rl' = rl_config rl ∧ rl_total rl' = total ∧ ∀ j, record_of rl' j = rec j.

Lemma getOrCreate_sees rl ip :
  sees (getOrCreateRecord rl ip).2 rl (rl_total rl) (record_of rl).
Proof. destruct (getOrCreate_spec rl ip) as (_&?&?&_&_&?). done. Qed.

Lemma limits_seen rl rl' r : sees rl' rl (rl_total rl) (record_of rl) →
  at_total_limit rl' = at_total_limit rl ∧ at_ip_limit rl' r = at_ip_limit rl r.
Proof. intros (Hc&Ht&_). unfold at_total_limit, at_ip_limit. by rewrite Hc, Ht. Qed.

Lemma sees_insert rl rl' ip r t :
  sees rl' rl (rl_total rl) (record_of rl) →
  sees (set_total t (set_records (<[ ip := r ]> (rl_records rl')) rl')) rl t
    (λ j, if decide (ip = j) then r else record_of rl j).
Proof.
  intros (Hc&Ht&Hr). split; [done|]. split; [done|]. intros j.
  rewrite record_of_set_total, record_of_insert. case_decide; [done|apply Hr].
Qed.

Lemma check_sees rl addr now now2 :
  sees (CheckConnection rl addr now now2).2 rl (rl_total rl) (record_of rl).
Proof.
  unfold CheckConnection. pose proof (getOrCreate_sees rl (extractIP addr)) as H.
  destruct (getOrCreateRecord rl (extractIP addr)). break_matches; done.
Qed.

Lemma check_reply rl addr now now2 :
  let ip := extractIP addr in let r := record_of rl ip in
  (CheckConnection rl addr now now2).1
  = if bool_decide (ip = ""%string) then Allowed
    else if at_total_limit rl then TooManyConcurrent
    else if banned_at now r then TooManyFailedAuth (Round (bannedUntil r - now2) second)
    else if at_ip_limit rl r then TooManyFromIP else Allowed.
Proof.
  intros ip r. unfold CheckConnection. subst ip.
  destruct (getOrCreate_spec rl (extractIP addr)) as (E&_).
  pose proof (getOrCreate_sees rl (extractIP addr)) as H.
  destruct (getOrCreateRecord rl (extractIP addr)) as [r' rl']. cbn in E, H. subst r' r.
  destruct (limits_seen _ _ (record_of rl (extractIP addr)) H) as [_ ->]. break_matches; done.
Qed.

Lemma sees_ext rl' rl t t' f g : sees rl' rl t f → t = t' → (∀ j, f j = g j) → sees rl' rl t' g.
Proof. intros (?&?&H) -> Hfg. split; [done|]. split; [done|]. intros j. by rewrite H. Qed.

Lemma sees_refl rl : sees rl rl (rl_total rl) (record_of rl).
Proof. done. Qed.

Lemma next_record_idle rl now op :
  is_cleanup op = false → extractIP (op_addr op) = ""%string ∨ touched rl now op = id →
  ∀ j, next_record rl now op j = record_of rl j.
Proof.
  intros Hc H j. unfold next_record, active_at. rewrite Hc.
  case_decide as D; [|done]. destruct H as [H | ->]; [|done]. destruct D. congruence.
Qed.

Lemma next_record_active rl now op ip :
  is_cleanup op = false → extractIP (op_addr op) = ip → ip ≠ ""%string →
  ∀ j, (if decide (ip = j) then touched rl now op (record_of rl ip) else record_of rl j)
       = next_record rl now op j.
Proof.
  intros Hc <- Hne j. unfold next_record, active_at. rewrite Hc.
  repeat case_decide; subst; tauto.
Qed.

Lemma register_spec rl addr now :
  let ip := extractIP addr in
  (RegisterConnection rl addr now).1 = bool_decide (ip = ""%string) || admits rl now (record_of rl ip)
  ∧ sees (RegisterConnection rl addr now).2 rl
      (next_total rl now (OpRegister addr)) (next_record rl now (OpRegister addr)).
Proof.
  intros ip. unfold RegisterConnection, next_total. cbn [op_addr].
  destruct (getOrCreate_spec rl ip) as (E&_). pose proof (getOrCreate_sees rl ip) as H.
  destruct (getOrCreateRecord rl ip) as [r rl'] eqn:Eg. cbn in E, H. subst r.
  pose proof (proj2 (limits_seen _ _ (record_of rl ip) H)) as Hip.
  fold ip. rewrite Eg, Hip. case_bool_decide as Hne.
  { split; [done|]. eapply sees_ext; [apply sees_refl|done|].
    intros j. symmetry. apply next_record_idle; auto. }
  pose proof (next_record_active rl now (OpRegister addr) ip eq_refl eq_refl Hne) as Hn.
  cbn [touched] in Hn. unfold admits in *.
  destruct (at_total_limit rl), (banned_at now (record_of rl ip)), (at_ip_limit rl (record_of rl ip));
    cbn [negb andb orb fst snd] in Hn |- *; (split; [done|]).
  all: try (eapply sees_ext; [first [exact H | apply sees_refl]|done|]; intros j; rewrite <- Hn;
            case_decide; by subst).
  eapply sees_ext; [by apply sees_insert| |exact Hn].
  destruct H as (_&->&_). done.
Qed.

Lemma unregister_sees rl addr now :
  sees (UnregisterConnection rl addr) rl
    (next_total rl now (OpUnregister addr)) (next_record rl now (OpUnregister addr)).
Proof.
  unfold UnregisterConnection, next_total. cbn [op_addr]. set (ip := extractIP addr).
  case_bool_decide as Hne.
  { eapply sees_ext; [apply sees_refl|done|]. intros j. symmetry. apply next_record_idle; auto. }
  pose proof (next_record_active rl now (OpUnregister addr) ip eq_refl eq_refl Hne) as Hn.
  assert (∀ n, (if bool_decide (n - 1 < 0) then 0 else n - 1) = Z.max 0 (n - 1)) as Hz
    by (intros n; case_bool_decide; lia).
  cbn [set_total rl_records]. rewrite !Hz. destruct (rl_records rl !! ip) as [r|] eqn:E.
  - rewrite Hz. split; [done|]. split; [done|]. intros j.
    rewrite <- Hn. unfold record_of. cbn [set_records set_total rl_records].
    case_decide; [subst; by rewrite lookup_insert_eq, E|by rewrite lookup_insert_ne].
  - split; [done|]. split; [done|]. intros j. rewrite <- Hn. unfold record_of.
    cbn [set_total rl_records]. case_decide; [subst; by rewrite E|done].
Qed.

Lemma failed_spec rl addr now :
  let ip := extractIP addr in
  (RecordFailedAuth rl addr now).1
    = negb (bool_decide (ip = ""%string)) && bans (rl_config rl) now (record_of rl ip)
  ∧ sees (RecordFailedAuth rl addr now).2 rl
      (next_total rl now (OpFailed addr)) (next_record rl now (OpFailed addr)).
Proof.
  intros ip. unfold RecordFailedAuth, next_total. cbn [op_addr].
  destruct (getOrCreate_spec rl ip) as (E&_). pose proof (getOrCreate_sees rl ip) as H.
  fold ip. destruct (getOrCreateRecord rl ip) as [r rl'] eqn:Eg. cbn in E, H. subst r.
  case_bool_decide as Hne.
  { split; [done|]. eapply sees_ext; [apply sees_refl|done|].
    intros j. symmetry. apply next_record_idle; auto. }
  pose proof (next_record_active rl now (OpFailed addr) ip eq_refl eq_refl Hne) as Hn.
  cbn [touched] in Hn. destruct H as (Hc&Ht&Hr). rewrite Hc. fold (bans (rl_config rl) now (record_of rl ip)).
  destruct (bans _ _ _); cbn [fst snd negb andb]; (split; [done|]); (split; [done|]); (split; [done|]).
  all: intros j; rewrite <- Hn, ?record_of_add_gauge, record_of_insert; case_decide; done.
Qed.

Lemma success_sees rl addr now :
  sees (RecordSuccessfulAuth rl addr) rl (rl_total rl) (next_record rl now (OpSuccess addr)).
Proof.
  unfold RecordSuccessfulAuth. set (ip := extractIP addr). case_bool_decide as Hne.
  { eapply sees_ext; [apply sees_refl|done|]. intros j. symmetry. apply next_record_idle; auto. }
  pose proof (next_record_active rl now (OpSuccess addr) ip eq_refl eq_refl Hne) as Hn.
  destruct (rl_records rl !! ip) as [r|] eqn:E; (split; [done|]); (split; [done|]); intros j; rewrite <- Hn.
  - rewrite record_of_add_gauge, record_of_insert. unfold record_of at 2. rewrite E. done.
  - unfold record_of. case_decide; [subst; by rewrite E|done].
Qed.

Lemma isbanned_reply rl addr now :
  IsBanned rl addr now
  = negb (bool_decide (extractIP addr = ""%string)) && banned_at now (record_of rl (extractIP addr)).
Proof. unfold IsBanned, record_of. case_bool_decide; [done|]. by destruct (_ !! _). Qed.

Lemma rl_step_sees now op rl :
  sees (rl_step now op rl).2 rl (next_total rl now op) (next_record rl now op).
Proof.
  assert (∀ op, next_total rl now op = rl_total rl ∨ (∃ a, op = OpRegister a ∨ op = OpUnregister a)) as Ht.
  { intros o. unfold next_total. destruct o; try case_bool_decide; eauto. }
  destruct op; cbn [rl_step].
  - pose proof (check_sees rl addr now now2) as H. destruct (CheckConnection _ _ _ _). cbn in *.
    eapply sees_ext; [done| |].
    + by destruct (Ht (OpCheck addr now2)) as [->|(?&[?|?])].
    + intros j. symmetry. apply next_record_idle; auto.
  - destruct (register_spec rl addr now) as [_ H]. by destruct (RegisterConnection _ _ _).
  - apply unregister_sees.
  - destruct (failed_spec rl addr now) as [_ H]. by destruct (RecordFailedAuth _ _ _).
  - eapply sees_ext; [apply success_sees| |done].
    by destruct (Ht (OpSuccess addr)) as [->|(?&[?|?])].
  - eapply sees_ext; [apply sees_refl| |].
    + by destruct (Ht (OpIsBanned addr)) as [->|(?&[?|?])].
    + intros j. symmetry. apply next_record_idle; auto.
  - split; [done|]. split; [done|]. intros j. apply cleaned_record_of.
Qed.

(** ** Sweeping is invisible *)

Definition in_force (now : instant) (r : ipRecord) : option instant :=
  if banned_at now r then Some (bannedUntil r) else None.

Definition alike (W : Z) (now : instant) (r r' : ipRecord) : Prop :=
  activeConns r = activeConns r'
  ∧ recent (now - W) (failedAttempts r) = recent (now - W) (failedAttempts r')
  ∧ in_force now r = in_force now r'.

Definition alike_state (now : instant) (rl rl' : RateLimiter) : Prop :=
  rl_config rl = rl_config rl' ∧ rl_total rl = rl_total rl'
  ∧ ∀ j, alike (FailedAttemptWindow (rl_config rl)) now (record_of rl j) (record_of rl' j).

Lemma recent_recent s s' l : s ≤ s' → recent s' (recent s l) = recent s' l.
Proof.
  intros Hs. unfold recent. rewrite list_filter_filter_l; [done|]. intros t; lia.
Qed.

Lemma recent_app s l l' : recent s (l ++ l') = recent s l ++ recent s l'.
Proof. apply filter_app. Qed.

Lemma in_force_spec now r u : in_force now r = Some u ↔ bannedUntil r = u ∧ u ≠ 0 ∧ now < u.
Proof.
  unfold in_force, banned_at, is_zero. repeat case_bool_decide; cbn; intuition (congruence || lia).
Qed.

Lemma in_force_mono now t r r' : now ≤ t → in_force now r = in_force now r' → in_force t r = in_force t r'.
Proof.
  intros Hle H. apply option_eq. intros u. rewrite !in_force_spec.
  pose proof (in_force_spec now r u) as A. pose proof (in_force_spec now r' u) as B.
  rewrite H in A. split; intros (?&?&?).
  - destruct A as [_ A]. destruct B as [B _]. destruct (B (A ltac:(repeat split; [done|done|lia]))). tauto.
  - destruct A as [A _]. destruct B as [_ B]. destruct (A (B ltac:(repeat split; [done|done|lia]))). tauto.
Qed.

Lemma banned_at_in_force now r r' : in_force now r = in_force now r' → banned_at now r = banned_at now r'.
Proof. unfold in_force. by destruct (banned_at now r), (banned_at now r'). Qed.

Lemma alike_later W now t r r' : now ≤ t → alike W now r r' → alike W t r r'.
Proof.
  intros Hle (Ha&Hf&Hb). split; [done|]. split; [|by eapply in_force_mono].
  rewrite <- (recent_recent (now - W) (t - W)), Hf by lia. apply recent_recent. lia.
Qed.

Lemma alike_clean cfg now r r' :
  alike (FailedAttemptWindow cfg) now r r' →
  alike (FailedAttemptWindow cfg) now (default new_record (clean_record cfg now r).1) r'.
Proof.
  set (W := FailedAttemptWindow cfg). intros (Ha&Hf&Hb). unfold clean_record. fold W.
  set (u := if (negb (is_zero (bannedUntil r)) && bool_decide (bannedUntil r < now)) then 0 else bannedUntil r).
  assert (∀ f a, in_force now {| failedAttempts := f; bannedUntil := u; activeConns := a |} = in_force now r') as Hu.
  { intros f a. rewrite <- Hb. apply option_eq. intros v. rewrite !in_force_spec. cbn. subst u.
    unfold is_zero. repeat case_bool_decide; cbn; intuition (subst; lia). }
  destruct (bool_decide (recent (now - W) (failedAttempts r) = []) && is_zero u
            && bool_decide (activeConns r = 0)) eqn:E; cbn [fst default].
  - apply andb_true_iff in E as [[E1%bool_decide_eq_true E2%bool_decide_eq_true]%andb_true_iff
                                  E3%bool_decide_eq_true].
    split; [cbn; lia|]. split; [cbn; by rewrite <- Hf, E1|].
    rewrite <- (Hu [] 0). by rewrite E2.
  - split; [done|]. split; [|apply Hu].
    cbn [failedAttempts from_option id]. by rewrite recent_recent by lia.
Qed.

Lemma alike_sweep now rl rl' : alike_state now rl rl' → alike_state now (cleanup rl now) rl'.
Proof.
  intros (Hc&Ht&Hr). split; [done|]. split; [done|]. intros j. rewrite cleaned_record_of. by apply alike_clean.
Qed.

Lemma alike_bans cfg now r r' :
  alike (FailedAttemptWindow cfg) now r r' → bans cfg now r = bans cfg now r'.
Proof. intros (_&Hf&_). unfold bans. by rewrite !recent_app, Hf. Qed.

Lemma alike_limits now rl rl' j :
  alike_state now rl rl' →
  at_total_limit rl = at_total_limit rl'
  ∧ at_ip_limit rl (record_of rl j) = at_ip_limit rl' (record_of rl' j)
  ∧ in_force now (record_of rl j) = in_force now (record_of rl' j).
Proof.
  intros (Hc&Ht&Hr). destruct (Hr j) as (Ha&_&Hb).
  unfold at_total_limit, at_ip_limit. by rewrite Hc, Ht, Ha.
Qed.

Lemma alike_admits now rl rl' j :
  alike_state now rl rl' → admits rl now (record_of rl j) = admits rl' now (record_of rl' j).
Proof.
  intros H. destruct (alike_limits now rl rl' j H) as (E1&E2&E3).
  unfold admits. by rewrite E1, E2, (banned_at_in_force _ _ _ E3).
Qed.

Lemma alike_touched now rl rl' op j :
  alike_state now rl rl' → is_cleanup op = false →
  alike (FailedAttemptWindow (rl_config rl)) now (touched rl now op (record_of rl j))
    (touched rl' now op (record_of rl' j)).
Proof.
  intros H Hop. pose proof (alike_admits now rl rl' j H) as Hadm. destruct H as (Hc&Ht&Hr).
  specialize (Hr j). pose proof (alike_bans _ _ _ _ Hr) as Hbans. destruct Hr as (Ha&Hf&Hb).
  destruct op; cbn [touched]; try done; rewrite <- ?Hadm, <- ?Hc.
  - destruct (admits _ _ _); (split; [cbn; congruence|]); (split; [done|]); done.
  - split; [cbn; by rewrite Ha|]. split; done.
  - rewrite <- Hbans. split; [done|]. split; [cbn [failedAttempts]; by rewrite !recent_app, Hf|].
    destruct (bans _ _ _); [done|exact Hb].
Qed.

Lemma alike_step now rl rl' op :
  alike_state now rl rl' → is_cleanup op = false →
  (rl_step now op rl).1 = (rl_step now op rl').1
  ∧ alike_state now (rl_step now op rl).2 (rl_step now op rl').2.
Proof.
  intros H Hop. split.
  - pose proof (alike_limits now rl rl' (extractIP (op_addr op)) H) as (E1&E2&E3).
    pose proof (alike_admits now rl rl' (extractIP (op_addr op)) H) as Hadm.
    pose proof (banned_at_in_force _ _ _ E3) as Hban. pose proof H as (Hc&_&Hr).
    destruct op; cbn [rl_step op_addr is_cleanup] in *; try done.
    + pose proof (check_reply rl addr now now2) as A. pose proof (check_reply rl' addr now now2) as B.
      cbn in A, B. destruct (CheckConnection rl _ _ _), (CheckConnection rl' _ _ _). cbn in *.
      subst. rewrite E1, E2, Hban. unfold in_force in E3. rewrite Hban in E3.
      destruct (banned_at now (record_of rl' _)); [injection E3 as ->|]; done.
    + destruct (register_spec rl addr now) as [A _]. destruct (register_spec rl' addr now) as [B _].
      destruct (RegisterConnection rl _ _), (RegisterConnection rl' _ _). cbn in *. congruence.
    + destruct (failed_spec rl addr now) as [A _]. destruct (failed_spec rl' addr now) as [B _].
      pose proof (alike_bans _ _ _ _ (Hr (extractIP addr))) as Hb.
      destruct (RecordFailedAuth rl _ _), (RecordFailedAuth rl' _ _). cbn in *. congruence.
    + by rewrite !isbanned_reply, Hban.
  - destruct (rl_step_sees now op rl) as (Ac&At&Ar). destruct (rl_step_sees now op rl') as (Bc&Bt&Br).
    pose proof (λ j, alike_touched now rl rl' op j H Hop) as Htouch.
    pose proof (λ j, alike_admits now rl rl' j H) as Hadm. destruct H as (Hc&Ht&Hr).
    split; [congruence|]. split.
    + rewrite At, Bt. unfold next_total. rewrite Ht, Hadm. done.
    + intros j. rewrite Ac, Ar, Br. unfold next_record. rewrite Hop. case_decide; [apply Htouch|apply Hr].
Qed.

Lemma alike_refl now rl : alike_state now rl rl.
Proof. repeat split. Qed.

Lemma alike_state_later now t rl rl' : now ≤ t → alike_state now rl rl' → alike_state t rl rl'.
Proof. intros Hle (Hc&Ht&Hr). split; [done|]. split; [done|]. intros j. eapply alike_later; eauto. Qed.

Lemma swept_replies h : ∀ now rl rl',
  clocked now h → alike_state now rl rl' → client_replies h rl = (rl_run (unswept h) rl').1.
Proof.
  induction h as [|[t op] h IH]; intros now rl rl' Hh Hs; [done|]. destruct Hh as [Hle Hh].
  pose proof (alike_state_later _ _ _ _ Hle Hs) as Hs'. cbn [client_replies]. unfold unswept.
  rewrite filter_cons. cbn [snd]. destruct (is_cleanup op) eqn:Hop.
  - destruct op; try done. cbn [rl_step]. rewrite decide_False by done. cbn [app].
    apply (IH t); [done|by apply alike_sweep].
  - rewrite decide_True by done. cbn [rl_run]. destruct (alike_step t rl rl' op Hs' Hop) as [E Hs2].
    destruct (rl_step t op rl) as [r s], (rl_step t op rl') as [r' s']. cbn in E, Hs2. subst r'.
    cbn [app]. rewrite (IH t s s' Hh Hs2). fold (unswept h). by destruct (rl_run (unswept h) s').
Qed.

(** The background sweep never changes a decision: on any sequence of calls
    with a clock that does not go back, with sweeps anywhere in it, every
    connection check, registration, ban query and recorded failure is answered
    exactly as it would be had no sweep ever run. *)
Theorem sweeps_are_invisible now h rl :
  clocked now h → client_replies h rl = (rl_run (unswept h) rl).1.
Proof. intros Hh. eapply swept_replies; [done|apply alike_refl]. Qed.

Definition peer (s : string) : option string := Some s.

Lemma sweeps_are_invisible_witness :
  let h := [(10, OpFailed (peer "10.0.0.1:5000")); (20, OpCleanup); (30, OpRegister (peer "10.0.0.1:5001"));
            (30, OpCleanup); (40, OpIsBanned (peer "[::1]:9"))] in
  clocked 0 h ∧ client_replies h (NewRateLimiter DefaultRateLimitConfig) = [Flag false; Flag true; Flag false].
Proof.
  split; [cbn; lia|]. rewrite (sweeps_are_invisible 0) by (cbn; lia). vm_compute. reflexivity.
Defined.

(** ** Connection accounting *)

(** [limited cfg open rl]: [rl] is reached by calls made the way the servers make
    them, [open] being the addresses of the registered connections: every
    unregistration is for a connection registered before. *)
Inductive limited (cfg : RateLimitConfig) : list string → RateLimiter → Prop :=
  | limited_new : limited cfg [] (NewRateLimiter cfg)
  | limited_register open rl addr now :
      limited cfg open rl →
      limited cfg
        (if (RegisterConnection rl addr now).1 && negb (bool_decide (extractIP addr = ""%string))
         then extractIP addr :: open else open)
        (RegisterConnection rl addr now).2
  | limited_unregister open open' rl addr :
      limited cfg open rl → extractIP addr ≠ ""%string → open ≡ₚ extractIP addr :: open' →
      limited cfg open' (UnregisterConnection rl addr)
  | limited_other open rl now op :
      limited cfg open rl →
      match op with OpRegister _ | OpUnregister _ => False | _ => True end →
      limited cfg open (rl_step now op rl).2.

Definition conns_to (ip : string) (open : list string) : Z :=
  Z.of_nat (length (filter (λ j, j = ip) open)).

Definition counted (cfg : RateLimitConfig) (open : list string) (rl : RateLimiter) : Prop :=
  rl_config rl = cfg
  ∧ rl_total rl = Z.of_nat (length open)
  ∧ (∀ ip, activeConns (record_of rl ip) = conns_to ip open)
  ∧ (0 < MaxConnections cfg → rl_total rl ≤ MaxConnections cfg)
  ∧ (∀ ip, 0 < MaxConnectionsPerIP cfg → activeConns (record_of rl ip) ≤ MaxConnectionsPerIP cfg).

Lemma conns_to_cons ip j open : conns_to ip (j :: open) = conns_to ip open + (if decide (j = ip) then 1 else 0).
Proof. unfold conns_to. rewrite filter_cons. case_decide; cbn; lia. Qed.

Lemma clean_keeps_conns cfg now r :
  activeConns (default new_record (clean_record cfg now r).1) = activeConns r.
Proof.
  unfold clean_record. destruct (_ && bool_decide (activeConns r = 0)) eqn:E; [|done].
  apply andb_true_iff in E as [_ E%bool_decide_eq_true]. done.
Qed.

Lemma admits_below rl now r :
  admits rl now r = true →
  (0 < MaxConnections (rl_config rl) → rl_total rl < MaxConnections (rl_config rl))
  ∧ (0 < MaxConnectionsPerIP (rl_config rl) → activeConns r < MaxConnectionsPerIP (rl_config rl)).
Proof.
  unfold admits, at_total_limit, at_ip_limit. intros H. repeat case_bool_decide; cbn in H; try lia.
  all: by rewrite ?andb_false_r in H.
Qed.

Lemma counted_register cfg open rl addr now :
  counted cfg open rl →
  counted cfg
    (if (RegisterConnection rl addr now).1 && negb (bool_decide (extractIP addr = ""%string))
     then extractIP addr :: open else open)
    (RegisterConnection rl addr now).2.
Proof.
  intros (Hc&Ht&Ha&Hm&Hi). destruct (register_spec rl addr now) as [-> (Sc&St&Sr)].
  unfold next_total, next_record in *. cbn [op_addr is_cleanup touched] in *.
  set (ip := extractIP addr) in *. set (rl2 := (RegisterConnection rl addr now).2) in *.
  case_bool_decide as Hne; cbn [orb negb].
  { rewrite andb_false_r. split; [congruence|]. split; [congruence|].
    assert (∀ j, record_of rl2 j = record_of rl j) as E.
    { intros j. rewrite Sr. apply (next_record_idle rl now (OpRegister addr)); auto. }
    split; [intros j; rewrite E; apply Ha|]. split; [by rewrite St|]. intros j. rewrite E. apply Hi. }
  rewrite andb_true_r. destruct (admits rl now (record_of rl ip)) eqn:Hadm.
  - destruct (admits_below _ _ _ Hadm) as [B1 B2]. rewrite Hc in B1, B2.
    assert (∀ j, activeConns (record_of rl2 j) = activeConns (record_of rl j) + (if decide (ip = j) then 1 else 0)) as E.
    { intros j. rewrite Sr. unfold active_at. cbn [op_addr]. fold ip.
      destruct (decide (ip = j)) as [<-|]; [rewrite decide_True by done; by rewrite Hadm|].
      rewrite decide_False by tauto. lia. }
    split; [congruence|]. split; [rewrite St; cbn; lia|]. split; [|split].
    + intros j. rewrite E, conns_to_cons, Ha. done.
    + rewrite St. lia.
    + intros j Hp. rewrite E. specialize (Hi j Hp). case_decide; [subst j; lia|lia].
  - assert (∀ j, record_of rl2 j = record_of rl j) as E.
    { intros j. rewrite Sr. case_decide as D; [|done]. destruct D as [D _]. cbn in D. fold ip in D.
      subst j. by rewrite Hadm. }
    split; [congruence|]. split; [congruence|]. split; [intros j; rewrite E; apply Ha|]. split; [by rewrite St|].
    intros j. rewrite E. apply Hi.
Qed.

Lemma counted_unregister cfg open open' rl addr :
  counted cfg open rl → extractIP addr ≠ ""%string → open ≡ₚ extractIP addr :: open' →
  counted cfg open' (UnregisterConnection rl addr).
Proof.
  intros (Hc&Ht&Ha&Hm&Hi) Hne Hp. destruct (unregister_sees rl addr 0) as (Sc&St&Sr).
  unfold next_total in St. cbn [op_addr] in St. rewrite bool_decide_eq_false_2 in St by done.
  set (ip := extractIP addr) in *. set (rl2 := UnregisterConnection rl addr) in *.
  assert (length open = S (length open')) as Hl by (by rewrite Hp).
  assert (∀ j, conns_to j open = conns_to j open' + (if decide (ip = j) then 1 else 0)) as Hcount.
  { intros j. rewrite <- conns_to_cons. unfold conns_to. by rewrite Hp. }
  assert (∀ j, activeConns (record_of rl2 j) = conns_to j open') as E.
  { intros j. rewrite Sr. unfold next_record, active_at. cbn [is_cleanup op_addr touched]. fold ip.
    specialize (Hcount j). specialize (Ha j). assert (0 ≤ conns_to j open') by (unfold conns_to; lia).
    destruct (decide (ip = j)) as [<-|Hj].
    - rewrite decide_True by done. cbn. lia.
    - rewrite decide_False by tauto. lia. }
  split; [congruence|]. split; [lia|]. split; [done|]. split; [lia|].
  intros j Hpos. rewrite E. specialize (Hi j Hpos). rewrite Ha, Hcount in Hi. case_decide; lia.
Qed.

Lemma counted_other cfg open rl now op :
  counted cfg open rl → match op with OpRegister _ | OpUnregister _ => False | _ => True end →
  counted cfg open (rl_step now op rl).2.
Proof.
  intros (Hc&Ht&Ha&Hm&Hi) Hop. destruct (rl_step_sees now op rl) as (Sc&St&Sr).
  set (rl2 := (rl_step now op rl).2) in *.
  assert (rl_total rl2 = rl_total rl) as Et.
  { rewrite St. unfold next_total. case_bool_decide; [done|]. by destruct op. }
  assert (∀ j, activeConns (record_of rl2 j) = activeConns (record_of rl j)) as E.
  { intros j. rewrite Sr. unfold next_record. destruct op; cbn [is_cleanup]; try done.
    all: try apply clean_keeps_conns. all: case_decide; done. }
  split; [congruence|]. split; [congruence|]. split; [intros j; rewrite E; apply Ha|]. split; [by rewrite Et|].
  intros j. rewrite E. apply Hi.
Qed.

(** Connection accounting of the rate limiter: while the servers unregister
    only connections they registered, the limiter's total is the number of
    registered connections, the count it keeps for an address is the number of
    registered connections from it (a swept record loses none), and neither ever
    exceeds its configured cap. *)
Theorem limiter_counts_connections cfg open rl :
  limited cfg open rl → counted cfg open rl.
Proof.
  induction 1.
  - split; [done|]. split; [done|]. split; [done|]. split; [cbn; lia|]. intros ip Hp. unfold record_of.
    cbn [NewRateLimiter rl_records]. rewrite lookup_empty. cbn. lia.
  - by apply counted_register.
  - by eapply counted_unregister.
  - by apply counted_other.
Qed.

Definition one_per_ip : RateLimitConfig :=
  {| MaxFailedAttempts := 2; FailedAttemptWindow := 100; BanDuration := 50;
     MaxConnectionsPerIP := 1; MaxConnections := 3 |}.

(** A second connection from the same address is refused, and the accounting
    stays at one. *)
Lemma limiter_counts_connections_witness :
  let rl1 := (RegisterConnection (NewRateLimiter one_per_ip) (peer "10.0.0.1:1") 1).2 in
  let rl2 := (RegisterConnection rl1 (peer "10.0.0.1:2") 2).2 in
  limited one_per_ip ["10.0.0.1"%string] rl2 ∧ rl_total rl2 = 1.
Proof.
  intros rl1 rl2.
  assert (limited one_per_ip ["10.0.0.1"%string] rl2) as H.
  { refine (limited_register one_per_ip ["10.0.0.1"%string] rl1 (peer "10.0.0.1:2") 2 _).
    refine (limited_register one_per_ip [] (NewRateLimiter one_per_ip) (peer "10.0.0.1:1") 1 _). constructor. }
  split; [exact H|]. exact (proj1 (proj2 (limiter_counts_connections _ _ _ H))).
Defined.

(** ** Bans *)

Definition clears (op : rl_op) (ip : string) : Prop :=
  match op with OpSuccess a => extractIP a = ip | _ => False end.

(** A ban to [u] is kept, unless the clock has passed it. *)
Definition ban_kept (u now : instant) (r : ipRecord) : Prop := u ≤ bannedUntil r ∨ u < now.

Lemma ban_kept_step u t op rl ip :
  ban_kept u t (record_of rl ip) → ¬ clears op ip → u ≤ t + BanDuration (rl_config rl) → 0 < u →
  ban_kept u t (record_of (rl_step t op rl).2 ip).
Proof.
  intros H Hc Hu Hpos. destruct (rl_step_sees t op rl) as (_&_&->). unfold next_record, active_at.
  destruct H as [H|H]; [|by right]. destruct op; cbn [is_cleanup op_addr touched clears] in *.
  7: { unfold clean_record, is_zero. destruct (decide (bannedUntil (record_of rl ip) < t)).
       - right. lia.
       - left. rewrite (bool_decide_eq_false_2 (_ < t)) by done. rewrite andb_false_r.
         rewrite (bool_decide_eq_false_2 (bannedUntil _ = 0)) by lia. by rewrite andb_false_r. }
  all: case_decide as D; try (left; done).
  - destruct (admits _ _ _); by left.
  - left. cbn. destruct (bans _ _ _); lia.
  - by destruct D.
Qed.

Lemma ban_kept_run u h : ∀ now rl ip,
  clocked now h → ban_kept u now (record_of rl ip) → Forall (λ p, ¬ clears p.2 ip) h →
  u ≤ now + BanDuration (rl_config rl) → 0 < u →
  ∃ t, (t = now ∨ t ∈ h.*1) ∧ ban_kept u t (record_of (rl_run h rl).2 ip).
Proof.
  induction h as [|[t op] h IH]; intros now rl ip Hh Hk Hc Hu Hpos; [eauto|].
  destruct Hh as [Hle Hh]. apply Forall_cons in Hc as [Hc Hcs]. cbn [rl_run].
  destruct (rl_step_sees t op rl) as (Ecfg&_). pose proof (ban_kept_step u t op rl ip) as Hs.
  destruct (rl_step t op rl) as [r s]. cbn in Ecfg, Hs.
  destruct (IH t s ip Hh) as (t'&Ht'&Hk'); [| |rewrite Ecfg; lia|lia|].
  - apply Hs; [|done|lia|lia]. destruct Hk; [by left|right; lia].
  - done.
  - destruct (rl_run h s). exists t'. split; [|done]. right. cbn. set_solver.
Qed.

(** A ban is enforced for its whole duration: when a failed authentication at
    [t] bans an address, then after any further calls (sweeps included) that do
    not record a successful authentication from it, the address is still banned
    at every moment before [t + BanDuration], and new connections from it are
    refused. *)
Theorem ban_is_enforced rl rl' addr t h now :
  RecordFailedAuth rl addr t = (true, rl') →
  clocked t h → Forall (λ p, p.1 ≤ now) h → Forall (λ p, ¬ clears p.2 (extractIP addr)) h →
  0 < t → t ≤ now < t + BanDuration (rl_config rl) →
  IsBanned (rl_run h rl').2 addr now = true
  ∧ (RegisterConnection (rl_run h rl').2 addr now).1 = false
  ∧ (CheckConnection (rl_run h rl').2 addr now now).1 ≠ Allowed.
Proof.
  intros E Hh Hnow Hc Ht Hrange. destruct (failed_spec rl addr t) as [E1 (Ecfg&_&Er)].
  rewrite E in E1, Ecfg, Er. cbn [fst snd] in E1, Ecfg, Er.
  symmetry in E1. apply andb_true_iff in E1 as [Hne%negb_true_iff%bool_decide_eq_false Hban].
  set (u := t + BanDuration (rl_config rl)). set (ip := extractIP addr) in *.
  assert (ban_kept u t (record_of rl' ip)) as Hk.
  { left. rewrite Er. unfold next_record. cbn [is_cleanup]. rewrite decide_True by done.
    cbn. rewrite Hban. subst u. lia. }
  destruct (ban_kept_run u h t rl' ip Hh Hk Hc) as (t'&Ht'&Hk'); [subst u; rewrite Ecfg; lia|subst u; lia|].
  assert (t' ≤ now) as Hlate.
  { destruct Ht' as [->|Hin]; [lia|]. apply list_elem_of_fmap in Hin as (p&->&Hin).
    rewrite Forall_forall in Hnow. by apply Hnow. }
  assert (banned_at now (record_of (rl_run h rl').2 ip) = true) as Hb.
  { unfold banned_at, is_zero. destruct Hk' as [Hk'|Hk']; [|subst u; lia].
    rewrite bool_decide_eq_false_2, bool_decide_eq_true_2 by (subst u; lia). done. }
  destruct (register_spec (rl_run h rl').2 addr now) as [Ereg _].
  pose proof (check_reply (rl_run h rl').2 addr now now) as Echk. cbn zeta in Ereg, Echk. fold ip in Ereg, Echk.
  rewrite isbanned_reply, Ereg, Echk. fold ip. unfold admits. rewrite Hb, bool_decide_eq_false_2 by done.
  cbn. rewrite andb_false_r. split; [done|]. split; [done|]. by destruct (at_total_limit _).
Qed.

Lemma ban_is_enforced_witness :
  let a := peer "10.0.0.1:1" in
  let rl := (RecordFailedAuth (NewRateLimiter one_per_ip) a 5).2 in
  let rl' := (RecordFailedAuth rl a 10).2 in
  IsBanned (rl_run [(20, OpCleanup); (30, OpSuccess (peer "10.0.0.2:1"))] rl').2 a 59 = true.
Proof.
  intros a rl rl'.
  refine (proj1 (ban_is_enforced rl rl' a 10
    [(20, OpCleanup); (30, OpSuccess (peer "10.0.0.2:1"))] 59 _ _ _ _ _ _)).
  - vm_compute. reflexivity.
  - cbn. lia.
  - repeat constructor; cbn; lia.
  - apply Forall_cons; split; [intros []|]. apply Forall_cons; split; [vm_compute; discriminate|constructor].
  - lia.
  - split; [lia|vm_compute; reflexivity].
Defined.

(** ** The gauge of banned addresses *)

Definition carries_ban (r : ipRecord) : bool := negb (is_zero (bannedUntil r)).
Definition banned_count (m : gmap string ipRecord) : Z := mcount carries_ban m.
Definition counts (r : ipRecord) : Z := Z.b2z (carries_ban r).

Lemma banned_count_fresh m ip r :
  m !! ip = None → banned_count (<[ ip := r ]> m) = banned_count m + counts r.
Proof. apply mcount_insert_fresh. Qed.

Lemma banned_count_insert m ip r :
  banned_count (<[ ip := r ]> m) = banned_count m + counts r - counts (default new_record (m !! ip)).
Proof. unfold banned_count. rewrite mcount_insert. by destruct (m !! ip). Qed.

Definition gauge_ok (rl : RateLimiter) : Prop := rl_gauge rl = banned_count (rl_records rl).

Lemma gauge_ok_put rl ip r g :
  gauge_ok rl → g = counts r - counts (record_of rl ip) →
  gauge_ok (add_gauge g (set_records (<[ ip := r ]> (rl_records rl)) rl)).
Proof.
  unfold gauge_ok. intros H ->. cbn. rewrite banned_count_insert, H. unfold record_of. lia.
Qed.

Lemma gauge_ok_getOrCreate rl ip : gauge_ok rl → gauge_ok (getOrCreateRecord rl ip).2.
Proof.
  unfold getOrCreateRecord, gauge_ok. destruct (rl_records rl !! ip) eqn:E; [done|].
  cbn. rewrite banned_count_fresh by done. change (counts new_record) with 0. lia.
Qed.

Lemma gauge_ok_unchanged rl rl' ip r :
  gauge_ok rl → rl_gauge rl' = rl_gauge rl → rl_records rl' = <[ ip := r ]> (rl_records rl) →
  counts r = counts (record_of rl ip) → gauge_ok rl'.
Proof.
  unfold gauge_ok. intros H -> -> E. rewrite banned_count_insert, H. unfold record_of in E. lia.
Qed.

Lemma cleared_or_counted cfg now r :
  counts r = (if (clean_record cfg now r).2 then 1 else 0)
             + match (clean_record cfg now r).1 with Some r' => counts r' | None => 0 end.
Proof.
  unfold clean_record, counts, carries_ban.
  destruct (is_zero (bannedUntil r)) eqn:Ez; cbn [negb andb].
  - destruct (_ && _); cbn; [done|]. by rewrite Ez.
  - destruct (bool_decide (bannedUntil r < now)); [by destruct (_ && _)|]. rewrite Ez, andb_false_r. cbn. by rewrite Ez.
Qed.

Lemma cleared_and_kept cfg now (m : gmap string ipRecord) :
  banned_count m
  = banned_count (omap (λ r, (clean_record cfg now r).1) m)
    + Z.of_nat (size (filter (λ kv : string * ipRecord, (clean_record cfg now kv.2).2 = true) m)).
Proof.
  induction m as [|ip r m E IH] using map_ind; [done|].
  rewrite banned_count_fresh, (cleared_or_counted cfg now r), IH by done.
  set (cleared := λ kv : string * ipRecord, (clean_record cfg now kv.2).2 = true).
  assert (omap (λ r, (clean_record cfg now r).1) m !! ip = None) as Eo by (by rewrite lookup_omap, E).
  assert (filter cleared m !! ip = None) as Ef by (apply map_lookup_filter_None; by left).
  assert (Z.of_nat (size (filter cleared (<[ ip := r ]> m)))
          = Z.of_nat (size (filter cleared m)) + (if (clean_record cfg now r).2 then 1 else 0)) as ->.
  { destruct (clean_record cfg now r).2 eqn:Ec.
    - rewrite map_filter_insert_True by done. rewrite map_size_insert_None by done. lia.
    - rewrite map_filter_insert_False by (unfold cleared; cbn; congruence). rewrite delete_id by done. lia. }
  destruct (clean_record cfg now r).1 as [r'|] eqn:Ec.
  - erewrite omap_insert_Some by done. rewrite banned_count_fresh by done. lia.
  - erewrite omap_insert_None by done. rewrite delete_id by done. lia.
Qed.

Lemma gauge_ok_step now op rl :
  gauge_ok rl → 0 < now + BanDuration (rl_config rl) → gauge_ok (rl_step now op rl).2.
Proof.
  intros H Hpos. destruct op; cbn [rl_step].
  - unfold CheckConnection. pose proof (gauge_ok_getOrCreate rl (extractIP addr) H).
    destruct (getOrCreateRecord rl (extractIP addr)). break_matches; simplify_eq; done.
  - unfold RegisterConnection. pose proof (gauge_ok_getOrCreate rl (extractIP addr) H) as Hg.
    destruct (getOrCreate_spec rl (extractIP addr)) as (E&_&_&_&_&Er).
    destruct (getOrCreateRecord rl (extractIP addr)) as [r rl']. cbn in E, Hg, Er.
    break_matches; simplify_eq; try done. eapply gauge_ok_unchanged; [done..|]. by rewrite Er.
  - unfold UnregisterConnection. case_bool_decide; [done|].
    destruct (rl_records (set_total _ rl) !! extractIP addr) as [r|] eqn:Heqo; [|done].
    eapply gauge_ok_unchanged; [done..|]. unfold record_of. cbn in Heqo. by rewrite Heqo.
  - unfold RecordFailedAuth. pose proof (gauge_ok_getOrCreate rl (extractIP addr) H) as Hg.
    destruct (getOrCreate_spec rl (extractIP addr)) as (E&Ec&_&_&_&Er).
    destruct (getOrCreateRecord rl (extractIP addr)) as [r rl']. cbn in E, Hg, Er, Ec. rewrite Ec.
    break_matches; simplify_eq; try done; cbn [snd].
    3: { eapply gauge_ok_unchanged; [done..|]. by rewrite Er. }
    all: apply gauge_ok_put; [done|]; rewrite Er; unfold counts, carries_ban; cbn [bannedUntil].
    all: assert (is_zero (now + BanDuration (rl_config rl)) = false) as -> by (apply bool_decide_eq_false_2; lia).
    all: by destruct (is_zero _).
  - unfold RecordSuccessfulAuth. break_matches; try done. cbn [snd].
    all: apply gauge_ok_put; [done|]; unfold record_of, counts, carries_ban; rewrite Heqo; cbn [from_option id].
    all: by rewrite Heqb0.
  - done.
  - unfold cleanup, gauge_ok. cbn [snd add_gauge set_records rl_gauge rl_records].
    rewrite H, (cleared_and_kept (rl_config rl) now (rl_records rl)). lia.
Qed.

(** The gauge of rate-limited addresses is exact: after any calls since the
    limiter was made, sweeps included, it is the number of records that carry a
    ban, so a ban is counted once however often it is renewed and is uncounted
    once, by the sweep or by the success that clears it. *)
Theorem banned_gauge_is_exact cfg h :
  Forall (λ p, 0 < p.1 + BanDuration cfg) h →
  let rl := (rl_run h (NewRateLimiter cfg)).2 in
  rl_gauge rl = banned_count (rl_records rl).
Proof.
  intros Hh. cbn zeta. fold (gauge_ok (rl_run h (NewRateLimiter cfg)).2).
  assert (gauge_ok (NewRateLimiter cfg)) as H by done.
  assert (rl_config (NewRateLimiter cfg) = cfg) as Hc by done.
  revert H Hc. generalize (NewRateLimiter cfg). induction Hh as [|[t op] h Ht Hh IH]; intros rl H Hc; [done|].
  cbn [rl_run]. destruct (rl_step_sees t op rl) as (Ec&_).
  pose proof (gauge_ok_step t op rl H ltac:(by rewrite Hc)) as H2. destruct (rl_step t op rl) as [r s].
  cbn in Ec, H2. specialize (IH s H2 ltac:(congruence)). by destruct (rl_run h s).
Qed.

Lemma banned_gauge_is_exact_witness :
  let a := peer "10.0.0.1:1" in
  let h := [(5, OpFailed a); (6, OpFailed a); (7, OpFailed a); (70, OpCleanup)] in
  rl_gauge (rl_run h (NewRateLimiter one_per_ip)).2 = 0.
Proof.
  intros a h. rewrite (banned_gauge_is_exact one_per_ip h) by (repeat constructor).
  vm_compute. reflexivity.
Defined.

(** ** Passwords *)

Lemma diff_bytes_lor n a b : ∀ i d, 0 ≤ d →
  diff_bytes n i a b d = 0 ↔ d = 0 ∧ ∀ k, (i ≤ k < i + n)%nat → default 0 (byte_val <$> a !! k) = default 0 (byte_val <$> b !! k).
Proof.
  induction n as [|n IH]; intros i d Hd; cbn [diff_bytes].
  - split; [intros ->; split; [done|]; lia|tauto].
  - set (x := default 0 (byte_val <$> a !! i)). set (y := default 0 (byte_val <$> b !! i)).
    assert (0 ≤ x ∧ 0 ≤ y) as [Hx Hy].
    { subst x y. split; destruct (_ !! i) as [c|]; cbn; try lia; apply byte_val_range. }
    assert (0 ≤ Z.lxor x y) by (by apply Z.lxor_nonneg).
    rewrite IH by (by apply Z.lor_nonneg). rewrite Z.lor_eq_0_iff, Z.lxor_eq_0_iff. split.
    + intros [[-> Hxy] H2]. split; [done|]. intros k Hk. destruct (decide (k = i)) as [->|]; [done|]. apply H2. lia.
    + intros [-> H2]. split; [split; [done|apply H2; lia]|]. intros k Hk. apply H2. lia.
Qed.

Lemma wrap_len s : Z.of_nat (length (bytes s)) < 2 ^ 31 →
  wrap_s 32 (Z.of_nat (length (bytes s))) = Z.of_nat (length (bytes s)).
Proof. intros H. apply wrap_s_small; [lia|]. unfold in_s. split; [lia|exact H]. Qed.

Lemma constantTimeStringEqual_spec a b :
  Z.of_nat (length (bytes a)) < 2 ^ 31 → Z.of_nat (length (bytes b)) < 2 ^ 31 →
  constantTimeStringEqual a b = true ↔ a = b.
Proof.
  intros Ha Hb. unfold constantTimeStringEqual, ConstantTimeEq32. rewrite !wrap_len by done.
  rewrite andb_true_iff, !bool_decide_eq_true, diff_bytes_lor by lia. split.
  - intros [Hl [_ H]]. apply bytes_inj, list_eq_same_length with (length (bytes a)); [lia|done|].
    intros i x y Hi Hx Hy. specialize (H i ltac:(lia)). rewrite Hx, Hy in H. by apply byte_val_inj.
  - intros ->. done.
Qed.

(** Password validation accepts exactly the configured credentials: a login
    is accepted if and only if the user exists and the password is the user's,
    although the comparison always runs over the longer string and against a
    sentinel for unknown users; the sentinel itself is never a way in. Lengths
    are compared as 32-bit integers, hence the bound. *)
Theorem password_accepted_iff users username password :
  Z.of_nat (length (bytes password)) < 2 ^ 31 →
  (∀ u p, users !! u = Some p → Z.of_nat (length (bytes p)) < 2 ^ 31) →
  ValidateUserPassword users username password = true ↔ users !! username = Some password.
Proof.
  intros Hp Hu. unfold ValidateUserPassword. destruct (users !! username) as [p|] eqn:E.
  - rewrite bool_decide_eq_true_2 by eauto. cbn [andb from_option id].
    rewrite constantTimeStringEqual_spec by eauto. split; congruence.
  - rewrite bool_decide_eq_false_2 by (by intros [? ?]). cbn. split; congruence.
Qed.

Lemma password_accepted_iff_witness :
  let users : gmap string string := {[ "ada"%string := "s3cret"%string ]} in
  ValidateUserPassword users "ada" "s3cret" = true
  ∧ ValidateUserPassword users "bob" invalidPasswordSentinel ≠ true.
Proof.
  intros users.
  assert (∀ u p, users !! u = Some p → Z.of_nat (length (bytes p)) < 2 ^ 31) as Hu.
  { intros u p H. apply lookup_singleton_Some in H as [_ <-]. vm_compute. reflexivity. }
  split.
  - refine (proj2 (password_accepted_iff users "ada" "s3cret" eq_refl Hu) eq_refl).
  - intros H. pose proof (proj1 (password_accepted_iff users "bob" invalidPasswordSentinel eq_refl Hu) H).
    discriminate.
Defined.
