(* ===== verification/WarmCapacity.v ===== *)
(** Warm-capacity demand: the miss policy (src/controlplane/warm_capacity_policy.go,
    worker_pool.go) and the dynamic warm-worker targets
    (src/controlplane/warm_capacity_targets.go).

    Go leaves the iteration order of a map open, so the order of every [range]
    over a map is a parameter: [range i m] is the order the loop number [i] visits
    [m] in, any permutation of its entries. Integers are 64-bit and wrap. *)

From Stdlib Require Import Strings.Byte.
From stdpp Require Import prelude gmap strings list sorting fin_maps.
From Stdlib Require Import ZArith Lia.
From S2P Require Import Prelude.

Open Scope Z_scope.

(** * Miss policy *)

(** [configstore.WorkerClaimMissReason] is a string type. *)
Definition MissReasonNone : string := "".
Definition MissReasonNoIdle : string := "no_idle".
Definition MissReasonOrgCap : string := "org_cap".
Definition MissReasonGlobalCap : string := "global_cap".
Definition MissReasonShuttingDown : string := "shutting_down".

Inductive warmCapacityClientMessageKind :=
  | warmCapacityMessageNoIdle | warmCapacityMessageOrgCap | warmCapacityMessageGlobalCap
  | warmCapacityMessageShuttingDown | warmCapacityMessageGeneric.

Record warmCapacityMissPolicy := {
  reason : string;
  recordDynamicDemand : bool;
  messageKind : warmCapacityClientMessageKind;
}.

Definition warmCapacityMissPolicyForReason (r : string) : warmCapacityMissPolicy :=
  if bool_decide (r = MissReasonNone ∨ r = MissReasonNoIdle) then
    {| reason := MissReasonNoIdle; recordDynamicDemand := true; messageKind := warmCapacityMessageNoIdle |}
  else if bool_decide (r = MissReasonOrgCap) then
    {| reason := r; recordDynamicDemand := false; messageKind := warmCapacityMessageOrgCap |}
  else if bool_decide (r = MissReasonGlobalCap) then
    {| reason := r; recordDynamicDemand := false; messageKind := warmCapacityMessageGlobalCap |}
  else if bool_decide (r = MissReasonShuttingDown) then
    {| reason := r; recordDynamicDemand := false; messageKind := warmCapacityMessageShuttingDown |}
  else {| reason := r; recordDynamicDemand := false; messageKind := warmCapacityMessageGeneric |}.

Definition time_Second : Z := 1000000000.
Definition DefaultWarmCapacityRetryAfter : Z := 45 * time_Second.
Definition DefaultWarmCapacityMissesPerWorker : Z := 8.

Definition normalizedWarmCapacityRetryAfter (retryAfter : Z) : Z :=
  if bool_decide (retryAfter ≤ 0) then DefaultWarmCapacityRetryAfter else retryAfter.

(** 64-bit addition and subtraction. *)
Definition addi (a b : Z) : Z := wrap_s 64 (a + b).
Definition subi (a b : Z) : Z := wrap_s 64 (a - b).

(** Go's integer division truncates. *)
Definition warmCapacityRetrySeconds (retryAfter : Z) : Z :=
  Z.quot (subi (addi (normalizedWarmCapacityRetryAfter retryAfter) time_Second) 1) time_Second.

Definition sqlMessage (p : warmCapacityMissPolicy) (retryAfter : Z) : string :=
  match messageKind p with
  | warmCapacityMessageNoIdle =>
      "no warm Duckgres worker is currently available; retry in about "
      ++ fmt_d (warmCapacityRetrySeconds retryAfter) ++ " seconds"
  | warmCapacityMessageOrgCap => "Duckgres worker capacity for this organization is currently exhausted; retry later"
  | warmCapacityMessageGlobalCap => "Duckgres worker capacity is currently exhausted; retry later"
  | warmCapacityMessageShuttingDown => "Duckgres control plane is shutting down; retry later"
  | warmCapacityMessageGeneric => "Duckgres worker capacity is currently unavailable; retry later"
  end%string.

Record WarmCapacityExhaustedError := { RetryAfter : Z; Reason : string }.

Definition missReason (e : WarmCapacityExhaustedError) : string :=
  if bool_decide (Reason e = MissReasonNone) then MissReasonNoIdle else Reason e.

Definition NewWarmCapacityExhaustedErrorForReason (r : string) (retryAfter : Z) : WarmCapacityExhaustedError :=
  {| RetryAfter := if bool_decide (retryAfter ≤ 0) then DefaultWarmCapacityRetryAfter else retryAfter;
     Reason := if bool_decide (r = MissReasonNone) then MissReasonNoIdle else r |}.

Definition NewWarmCapacityExhaustedError (retryAfter : Z) : WarmCapacityExhaustedError :=
  NewWarmCapacityExhaustedErrorForReason MissReasonNoIdle retryAfter.

(** * Targets *)

Record WarmCapacityMissAggregate := { Agg_Scope : string; Agg_Reason : string; Agg_Count : Z }.

Record dynamicWarmCapacityConfig := {
  Enabled : bool;
  MissesPerWorker : Z;
  DynamicImageCeiling : Z;
  DynamicTotalCeiling : Z;
  MaxWorkers : Z;
}.

Definition normalizeDynamicWarmCapacityConfig (cfg : dynamicWarmCapacityConfig) : dynamicWarmCapacityConfig :=
  {| Enabled := Enabled cfg;
     MissesPerWorker := if bool_decide (MissesPerWorker cfg ≤ 0) then DefaultWarmCapacityMissesPerWorker
                        else MissesPerWorker cfg;
     DynamicImageCeiling := if bool_decide (DynamicImageCeiling cfg < 0) then 0 else DynamicImageCeiling cfg;
     DynamicTotalCeiling := if bool_decide (DynamicTotalCeiling cfg < 0) then 0 else DynamicTotalCeiling cfg;
     MaxWorkers := if bool_decide (MaxWorkers cfg < 0) then 0 else MaxWorkers cfg |}.

(** Reading a missing key of a map of numbers gives 0. *)
Definition get (m : gmap string Z) (k : string) : Z := default 0 (m !! k).

(** [strings.CutPrefix]. *)
Fixpoint cut_bytes (p l : list byte) : option (list byte) :=
  match p, l with
  | [], _ => Some l
  | b :: p', c :: l' => if bool_decide (b = c) then cut_bytes p' l' else None
  | _ :: _, [] => None
  end.
Definition CutPrefix (s prefix : string) : option string := str <$> cut_bytes (bytes prefix) (bytes s).

(** The image an aggregate demands capacity for. *)
Definition demanded_image (a : WarmCapacityMissAggregate) : option string :=
  if bool_decide (Agg_Count a ≤ 0) then None else
  if negb (recordDynamicDemand (warmCapacityMissPolicyForReason (Agg_Reason a))) then None else
  match CutPrefix (TrimSpace (Agg_Scope a)) "image:" with
  | None => None
  | Some image =>
      let image := TrimSpace image in
      if bool_decide (image = ""%string) then None else Some image
  end.

Definition imageWarmCapacityMissCounts (aggregates : list WarmCapacityMissAggregate) : gmap string Z :=
  foldl (λ counts a,
    match demanded_image a with
    | None => counts
    | Some image => <[ image := addi (get counts image) (Agg_Count a) ]> counts
    end) ∅ aggregates.

Definition ceilDivInt64 (n d : Z) : Z :=
  if bool_decide (n ≤ 0) then 0 else
  let divisor := if bool_decide (d ≤ 0) then DefaultWarmCapacityMissesPerWorker else d in
  Z.quot (subi (addi n divisor) 1) divisor.

(** Go's [<] on strings: bytewise. *)
Fixpoint lex_ltb (a b : list Z) : bool :=
  match a, b with
  | [], [] => false
  | [], _ :: _ => true
  | _ :: _, [] => false
  | x :: a', y :: b' => (x <? y) || ((x =? y) && lex_ltb a' b')
  end.
Definition str_ltb (a b : string) : bool := lex_ltb (byte_val <$> bytes a) (byte_val <$> bytes b).

(** The comparison of [sort.Slice] in capDynamicWarmCapacityExtras. *)
Definition demand_less (requested missCounts : gmap string Z) (left right : string) : bool :=
  if negb (get missCounts left =? get missCounts right) then get missCounts right <? get missCounts left else
  if negb (get requested left =? get requested right) then get requested right <? get requested left else
  str_ltb left right.

(** Sorted: no element is less than one before it. *)
Definition demand_le (requested missCounts : gmap string Z) (left right : string) : Prop :=
  demand_less requested missCounts right left = false.
#[export] Instance demand_le_dec requested missCounts : RelDecision (demand_le requested missCounts).
Proof. intros a b. unfold demand_le. apply _. Defined.

(** The allocation loop. *)
Fixpoint allocate (requested : gmap string Z) (images : list string) (remaining : Z) (out : gmap string Z)
    : gmap string Z :=
  match images with
  | [] => out
  | image :: images =>
      if bool_decide (remaining ≤ 0) then out else
      let extra := get requested image in
      let extra := if bool_decide (remaining < extra) then remaining else extra in
      if bool_decide (0 < extra)
      then allocate requested images (subi remaining extra) (<[ image := extra ]> out)
      else allocate requested images remaining out
  end.

Section Targets.
Context (range : nat → gmap string Z → list (string * Z)).

Definition sumIntMap (i : nat) (values : gmap string Z) : Z :=
  foldl (λ total kv, if bool_decide (0 < kv.2) then addi total kv.2 else total) 0 (range i values).

Definition sanitizeWarmCapacityTargets (targets : gmap string Z) : gmap string Z :=
  foldl (λ out kv,
    let image := TrimSpace kv.1 in
    if bool_decide (image = ""%string ∨ kv.2 ≤ 0) then out else <[ image := kv.2 ]> out)
    ∅ (range 0 targets).

Definition capDynamicWarmCapacityExtras (requested missCounts : gmap string Z) (cap : Z) : gmap string Z :=
  if bool_decide (cap ≤ 0) then ∅ else
  let wanted := filter (λ kv : string * Z, ¬ (kv.1 = ""%string ∨ kv.2 ≤ 0)) (range 1 requested) in
  let images := wanted.*1 in
  let total := foldl (λ total kv, addi total kv.2) 0 wanted in
  if bool_decide (total ≤ cap)
  then foldl (λ out image, <[ image := get requested image ]> out) ∅ images
  else allocate requested (merge_sort (demand_le requested missCounts) images) cap ∅.

Definition requested_extras (cfg : dynamicWarmCapacityConfig) (missCounts : gmap string Z) : gmap string Z :=
  foldl (λ out kv,
    let extra := ceilDivInt64 kv.2 (MissesPerWorker cfg) in
    let extra := if bool_decide (0 < DynamicImageCeiling cfg ∧ DynamicImageCeiling cfg < extra)
                 then DynamicImageCeiling cfg else extra in
    if bool_decide (0 < extra) then <[ kv.1 := extra ]> out else out) ∅ (range 2 missCounts).

Definition total_cap (cfg : dynamicWarmCapacityConfig) (targets requestedExtra : gmap string Z) : Z :=
  let totalCap := sumIntMap 3 requestedExtra in
  let totalCap := if bool_decide (0 < DynamicTotalCeiling cfg ∧ DynamicTotalCeiling cfg < totalCap)
                  then DynamicTotalCeiling cfg else totalCap in
  if bool_decide (0 < MaxWorkers cfg) then
    let headroom := subi (MaxWorkers cfg) (sumIntMap 4 targets) in
    let headroom := if bool_decide (headroom < 0) then 0 else headroom in
    if bool_decide (headroom < totalCap) then headroom else totalCap
  else totalCap.

Definition computeDynamicWarmCapacityTargets (baseTargets : gmap string Z)
    (aggregates : list WarmCapacityMissAggregate) (cfg : dynamicWarmCapacityConfig) : gmap string Z :=
  let targets := sanitizeWarmCapacityTargets baseTargets in
  if negb (Enabled cfg) then targets else
  let cfg := normalizeDynamicWarmCapacityConfig cfg in
  let missCounts := imageWarmCapacityMissCounts aggregates in
  let requestedExtra := requested_extras cfg missCounts in
  if bool_decide (size requestedExtra = O) then targets else
  let totalCap := total_cap cfg targets requestedExtra in
  if bool_decide (totalCap ≤ 0) then targets else
  foldl (λ targets kv,
    if bool_decide (kv.2 ≤ 0) then targets
    else <[ kv.1 := addi (get targets kv.1) kv.2 ]> targets)
    targets (range 5 (capDynamicWarmCapacityExtras requestedExtra missCounts totalCap)).

End Targets.

(** * Sums and loops over maps *)

Definition msum (m : gmap string Z) : Z := zsum (map_to_list m).*2.

Lemma addi_small a b : - 2 ^ 63 ≤ a + b < 2 ^ 63 → addi a b = a + b.
Proof. intros H. apply wrap_s_small; [lia|]. exact H. Qed.
Lemma subi_small a b : - 2 ^ 63 ≤ a - b < 2 ^ 63 → subi a b = a - b.
Proof. intros H. apply wrap_s_small; [lia|]. exact H. Qed.

Lemma msum_empty : msum ∅ = 0.
Proof. done. Qed.

Lemma msum_insert_fresh m k v : m !! k = None → msum (<[ k := v ]> m) = msum m + v.
Proof. intros H. unfold msum. rewrite map_to_list_insert by done. cbn. rewrite zsum_cons. lia. Qed.

Lemma msum_insert m k v : msum (<[ k := v ]> m) = msum m + v - get m k.
Proof.
  unfold get. destruct (m !! k) as [x|] eqn:E; cbn.
  - assert (m = <[ k := x ]> (delete k m)) as Em by (by rewrite insert_delete_id).
    rewrite Em at 2. rewrite <- insert_delete_eq, !msum_insert_fresh by apply lookup_delete_eq. lia.
  - rewrite msum_insert_fresh by done. lia.
Qed.

Definition positive (m : gmap string Z) : Prop := ∀ k v, m !! k = Some v → 0 < v.

Lemma positive_get m k : positive m → 0 ≤ get m k.
Proof. intros H. unfold get. destruct (m !! k) eqn:E; cbn; [specialize (H _ _ E)|]; lia. Qed.

Lemma positive_insert m k v : positive m → 0 < v → positive (<[ k := v ]> m).
Proof.
  intros H Hv j w. destruct (decide (k = j)) as [<-|].
  - rewrite lookup_insert_eq. congruence.
  - rewrite lookup_insert_ne by done. apply H.
Qed.

Lemma positive_Forall m : positive m → Forall (λ x, 0 < x) (map_to_list m).*2.
Proof.
  intros H. apply Forall_forall. intros x Hx. apply list_elem_of_fmap in Hx as ([k v]&->&Hx).
  apply elem_of_map_to_list in Hx. by apply (H k).
Qed.

Lemma positive_entries m l : positive m → l ≡ₚ map_to_list m → Forall (λ kv, 0 < kv.2) l.
Proof.
  intros H Hl. apply Forall_forall. intros [k v] Hk. rewrite Hl in Hk.
  apply elem_of_map_to_list in Hk. by apply (H k).
Qed.

Lemma msum_nonneg m : positive m → 0 ≤ msum m.
Proof.
  intros H. apply zsum_nonneg. eapply Forall_impl; [by apply positive_Forall|]. cbn. lia.
Qed.

Lemma get_le_msum m k : positive m → get m k ≤ msum m.
Proof.
  intros H. destruct (m !! k) as [v|] eqn:E.
  - rewrite <- (insert_delete_id m k v E) at 2. rewrite msum_insert_fresh by apply lookup_delete_eq.
    assert (0 ≤ msum (delete k m)) by (apply msum_nonneg; intros j w [_ Hw]%lookup_delete_Some; eauto).
    unfold get. rewrite E. cbn. lia.
  - unfold get. rewrite E. by apply msum_nonneg.
Qed.

Lemma get_insert m k v j : get (<[ k := v ]> m) j = if decide (k = j) then v else get m j.
Proof.
  unfold get. case_decide; subst; [by rewrite lookup_insert_eq|by rewrite lookup_insert_ne].
Qed.

(** A loop that adds to entries: without overflow it adds the sums. *)
Definition accumulate (m : gmap string Z) (l : list (string * Z)) : gmap string Z :=
  foldl (λ m kv, <[ kv.1 := addi (get m kv.1) kv.2 ]> m) m l.
Definition gains (j : string) (l : list (string * Z)) : Z := zsum (filter (λ kv, kv.1 = j) l).*2.

Lemma accumulate_spec l : ∀ m,
  positive m → Forall (λ kv, 0 < kv.2) l → msum m + zsum l.*2 < 2 ^ 63 →
  positive (accumulate m l)
  ∧ msum (accumulate m l) = msum m + zsum l.*2
  ∧ ∀ j, get (accumulate m l) j = get m j + gains j l.
Proof.
  induction l as [|[k v] l IH]; intros m Hm Hl Hs; cbn [accumulate foldl fst snd].
  { split; [done|]. split; [cbn; rewrite zsum_nil; lia|]. intros j. unfold gains. cbn. rewrite zsum_nil. lia. }
  apply Forall_cons in Hl as [Hv Hl]. cbn [fmap list_fmap snd] in Hs |- *. rewrite zsum_cons in Hs |- *. cbn in Hv.
  pose proof (get_le_msum m k Hm). pose proof (positive_get m k Hm).
  assert (0 ≤ zsum l.*2).
  { apply zsum_nonneg. apply Forall_fmap. eapply Forall_impl; [done|]. cbn. lia. }
  rewrite addi_small by lia.
  destruct (IH (<[ k := get m k + v ]> m)) as (P&S&G).
  - apply positive_insert; [done|lia].
  - done.
  - rewrite msum_insert. lia.
  - fold (accumulate (<[ k := get m k + v ]> m) l). split; [done|]. split; [rewrite S, msum_insert; lia|].
    intros j. rewrite G, get_insert. unfold gains. rewrite filter_cons. cbn.
    case_decide; subst; cbn [fmap list_fmap snd]; rewrite ?zsum_cons; lia.
Qed.

(** A loop that keeps, changes or drops every entry of a map. *)
Lemma fold_entries (f : Z → option Z) (m : gmap string Z) l :
  l ≡ₚ map_to_list m →
  foldl (λ out kv, match f kv.2 with Some e => <[ kv.1 := e ]> out | None => out end) ∅ l = omap f m.
Proof.
  intros Hl. assert (NoDup l.*1) as Hnd by (rewrite Hl; apply NoDup_fst_map_to_list).
  rewrite <- (list_to_map_to_list m).
  assert (list_to_map (map_to_list m) = (list_to_map l : gmap string Z)) as ->.
  { symmetry. by apply list_to_map_proper. }
  clear Hl. induction l as [|[k v] l IH] using rev_ind; [done|].
  rewrite fmap_app in Hnd. apply NoDup_app in Hnd as (Hl&Hk&_).
  assert (k ∉ l.*1) as Hn by (intros Hin; apply (Hk k Hin); by apply list_elem_of_singleton).
  rewrite foldl_app, IH, list_to_map_snoc by done. cbn [foldl fst snd].
  apply not_elem_of_list_to_map_1 in Hn. destruct (f v) as [e|] eqn:E.
  - by rewrite (omap_insert_Some _ _ _ _ _ E).
  - rewrite (omap_insert_None _ _ _ _ E), delete_id; [done|]. by rewrite lookup_omap, Hn.
Qed.

(** * The loops of the target computation *)

(** The demand the aggregates record, image by image. *)
Definition demands (aggregates : list WarmCapacityMissAggregate) : list (string * Z) :=
  omap (λ a, (λ image, (image, Agg_Count a)) <$> demanded_image a) aggregates.

Lemma demanded_image_Some a image :
  demanded_image a = Some image → 0 < Agg_Count a ∧ image ≠ ""%string.
Proof.
  unfold demanded_image. intros H. break_matches; to_prop; simplify_eq. split; [lia|done].
Qed.

Lemma miss_counts_accumulate aggregates : imageWarmCapacityMissCounts aggregates = accumulate ∅ (demands aggregates).
Proof.
  unfold imageWarmCapacityMissCounts, accumulate, demands. generalize (∅ : gmap string Z).
  induction aggregates as [|a l IH]; intros m; [done|]. cbn. destruct (demanded_image a); cbn; apply IH.
Qed.

Lemma demands_positive aggregates : Forall (λ kv, 0 < kv.2) (demands aggregates).
Proof.
  unfold demands. apply Forall_forall. intros [k v] H. apply list_elem_of_omap in H as (a&_&Ha).
  destruct (demanded_image a) eqn:E; [|done]. apply demanded_image_Some in E as []. cbn in Ha. by simplify_eq.
Qed.

Lemma demands_named aggregates : Forall (λ kv, kv.1 ≠ ""%string) (demands aggregates).
Proof.
  unfold demands. apply Forall_forall. intros [k v] H. apply list_elem_of_omap in H as (a&_&Ha).
  destruct (demanded_image a) eqn:E; [|done]. apply demanded_image_Some in E as []. cbn in Ha. by simplify_eq.
Qed.

Lemma accumulate_dom l : ∀ m k, is_Some (accumulate m l !! k) → is_Some (m !! k) ∨ k ∈ l.*1.
Proof.
  induction l as [|[j v] l IH]; intros m k H; [by left|]. cbn in H. apply IH in H as [H|H].
  - destruct (decide (j = k)) as [->|]; [right; left|]. rewrite lookup_insert_ne in H by done. by left.
  - right. by right.
Qed.

Lemma miss_counts_spec aggregates :
  zsum (demands aggregates).*2 < 2 ^ 62 →
  let counts := imageWarmCapacityMissCounts aggregates in
  positive counts ∧ msum counts < 2 ^ 62 ∧ counts !! ""%string = None.
Proof.
  intros H counts. subst counts. rewrite miss_counts_accumulate.
  destruct (accumulate_spec (demands aggregates) ∅) as (P&S&_).
  - intros k v. by rewrite lookup_empty.
  - apply demands_positive.
  - rewrite msum_empty. lia.
  - split; [done|]. split; [rewrite S, msum_empty; lia|]. apply eq_None_not_Some. intros Hs.
    apply accumulate_dom in Hs as [Hs|Hs]; [by rewrite lookup_empty in Hs; destruct Hs|].
    apply list_elem_of_fmap in Hs as (kv&Hk&Hin).
    pose proof (demands_named aggregates) as Hn. rewrite Forall_forall in Hn. by apply (Hn kv).
Qed.

Lemma ceilDivInt64_spec n d :
  0 < n < 2 ^ 62 → 0 < d ≤ 2 ^ 62 → ceilDivInt64 n d = (n + d - 1) / d ∧ 0 < (n + d - 1) / d ≤ n.
Proof.
  intros Hn Hd. unfold ceilDivInt64. rewrite !bool_decide_eq_false_2 by lia.
  rewrite addi_small, subi_small by lia. split.
  - apply Z.quot_div_nonneg; lia.
  - split; [apply Z.div_str_pos; lia|]. apply Z.div_le_upper_bound; [lia|]. nia.
Qed.

(** The extra workers wanted for an image with [n] misses. *)
Definition wanted_for (cfg : dynamicWarmCapacityConfig) (n : Z) : option Z :=
  let extra := ceilDivInt64 n (MissesPerWorker cfg) in
  let extra := if bool_decide (0 < DynamicImageCeiling cfg ∧ DynamicImageCeiling cfg < extra)
               then DynamicImageCeiling cfg else extra in
  if bool_decide (0 < extra) then Some extra else None.

Lemma wanted_for_spec cfg n e :
  0 < n < 2 ^ 62 → 0 < MissesPerWorker cfg ≤ 2 ^ 62 → wanted_for cfg n = Some e →
  0 < e ≤ n ∧ (0 < DynamicImageCeiling cfg → e ≤ DynamicImageCeiling cfg)
  ∧ e ≤ (n + MissesPerWorker cfg - 1) / MissesPerWorker cfg.
Proof.
  intros Hn Hm. unfold wanted_for. destruct (ceilDivInt64_spec n (MissesPerWorker cfg) Hn Hm) as [-> Hc].
  repeat case_bool_decide; intros [= <-]; lia.
Qed.

Section Loops.
Context (range : nat → gmap string Z → list (string * Z)).
Context (range_perm : ∀ i m, range i m ≡ₚ map_to_list m).

Lemma sumIntMap_spec i m : positive m → msum m < 2 ^ 63 → sumIntMap range i m = msum m.
Proof.
  intros Hm Hs. unfold sumIntMap.
  assert (msum m = zsum (range i m).*2) as E by (unfold msum; by rewrite range_perm).
  assert (Forall (λ x, 0 < x) (range i m).*2) as Hp by (rewrite range_perm; by apply positive_Forall).
  rewrite E in *. clear E Hm.
  assert (∀ l acc, Forall (λ x, 0 < x) l.*2 → 0 ≤ acc → acc + zsum l.*2 < 2 ^ 63 →
    foldl (λ total (kv : string * Z), if bool_decide (0 < kv.2) then addi total kv.2 else total) acc l
    = acc + zsum l.*2) as H; [|rewrite H by (done || lia); lia].
  clear. induction l as [|[k v] l IH]; intros acc Hl Ha Hs; [cbn; rewrite zsum_nil; lia|].
  cbn [fmap list_fmap snd] in Hl, Hs |- *. rewrite zsum_cons in Hs |- *. apply Forall_cons in Hl as [Hv Hl].
  cbn [foldl snd] in *. rewrite bool_decide_eq_true_2 by done.
  assert (0 ≤ zsum l.*2) by (apply zsum_nonneg; eapply Forall_impl; [exact Hl|cbn; lia]).
  rewrite addi_small, IH by (done || lia). lia.
Qed.

Lemma requested_extras_omap cfg counts :
  requested_extras range cfg counts = omap (wanted_for cfg) counts.
Proof.
  rewrite <- (fold_entries _ counts (range 2 counts)) by apply range_perm.
  unfold requested_extras. generalize (∅ : gmap string Z), (range 2 counts).
  intros out l. revert out. induction l as [|[k v] l IH]; intros out; [done|]. cbn.
  rewrite IH. f_equal. unfold wanted_for. by case_bool_decide.
Qed.

Lemma sanitize_positive base : positive (sanitizeWarmCapacityTargets range base).
Proof.
  unfold sanitizeWarmCapacityTargets. generalize (range 0 base).
  assert (∀ l m, positive m → positive (foldl (λ out kv,
    let image := TrimSpace kv.1 in
    if bool_decide (image = ""%string ∨ kv.2 ≤ 0) then out else <[ image := kv.2 ]> out) m l)) as H.
  { induction l as [|[k v] l IH]; intros m Hm; [done|]. cbn. apply IH. case_bool_decide as D; [done|].
    apply positive_insert; [done|]. apply Decidable.not_or in D as [_ D]. lia. }
  intros l. apply H. intros k v. by rewrite lookup_empty.
Qed.

End Loops.

(** * The order of the allocation *)

Lemma lex_irrefl a : lex_ltb a a = false.
Proof. induction a as [|x a IH]; [done|]. cbn. rewrite Z.ltb_irrefl, Z.eqb_refl, IH. done. Qed.

Lemma lex_cons x a y b : lex_ltb (x :: a) (y :: b) = true ↔ x < y ∨ x = y ∧ lex_ltb a b = true.
Proof. cbn. rewrite orb_true_iff, andb_true_iff, Z.ltb_lt, Z.eqb_eq. done. Qed.

Lemma lex_trans a : ∀ b c, lex_ltb a b = true → lex_ltb b c = true → lex_ltb a c = true.
Proof.
  induction a as [|x a IH]; intros [|y b] [|z c]; try done. rewrite !lex_cons.
  intros [?|[-> ?]] [?|[-> ?]]; [left; lia|left; lia|left; lia|right; eauto].
Qed.

Lemma lex_total a : ∀ b, lex_ltb a b = false → lex_ltb b a = false → a = b.
Proof.
  induction a as [|x a IH]; intros [|y b]; try done. rewrite <- !not_true_iff_false, !lex_cons.
  intros H1 H2. assert (x = y) as -> by lia. f_equal.
  apply IH; apply not_true_iff_false; tauto.
Qed.

Section Order.
Context (requested missCounts : gmap string Z).

Definition demand_key (s : string) : list Z :=
  - get missCounts s :: - get requested s :: (byte_val <$> bytes s).

Lemma demand_less_key a b : demand_less requested missCounts a b = lex_ltb (demand_key a) (demand_key b).
Proof.
  unfold demand_less, demand_key, str_ltb. cbn [lex_ltb].
  repeat (match goal with
          | |- context [Z.eqb ?x ?y] => destruct (Z.eqb_spec x y)
          | |- context [Z.ltb ?x ?y] => destruct (Z.ltb_spec x y)
          end; cbn [negb andb orb]; try lia).
  all: done.
Qed.

Lemma demand_key_inj a b : demand_key a = demand_key b → a = b.
Proof.
  intros [= _ _ H]. apply bytes_inj. revert H. apply list_fmap_eq_inj. intros x y. apply byte_val_inj.
Qed.

#[global] Instance demand_le_total : Total (demand_le requested missCounts).
Proof.
  intros a b. unfold demand_le. rewrite !demand_less_key.
  destruct (lex_ltb (demand_key b) (demand_key a)) eqn:E; [right|by left].
  destruct (lex_ltb (demand_key a) (demand_key b)) eqn:E2; [|done].
  pose proof (lex_trans _ _ _ E2 E) as H. by rewrite lex_irrefl in H.
Qed.

#[global] Instance demand_le_trans : Transitive (demand_le requested missCounts).
Proof.
  intros a b c. unfold demand_le. rewrite !demand_less_key. intros H1 H2.
  destruct (lex_ltb (demand_key c) (demand_key a)) eqn:E; [|done].
  destruct (lex_ltb (demand_key a) (demand_key b)) eqn:E2.
  - by rewrite (lex_trans _ _ _ E E2) in H2.
  - rewrite (lex_total _ _ E2 H1) in E. congruence.
Qed.

#[global] Instance demand_le_antisymm : AntiSymm eq (demand_le requested missCounts).
Proof.
  intros a b. unfold demand_le. rewrite !demand_less_key. intros H1 H2. apply demand_key_inj.
  by apply lex_total.
Qed.

(** The visiting order of the map does not matter to the sort. *)
Lemma sort_order_free l k :
  l ≡ₚ k → merge_sort (demand_le requested missCounts) l = merge_sort (demand_le requested missCounts) k.
Proof.
  intros H. apply (StronglySorted_unique (demand_le requested missCounts)).
  - apply StronglySorted_merge_sort; apply _.
  - apply StronglySorted_merge_sort; apply _.
  - by rewrite !merge_sort_Permutation.
Qed.

End Order.

(** * The allocation loop *)

Lemma requests_nonneg requested images :
  (∀ j, j ∈ images → 0 < get requested j) → 0 ≤ zsum (get requested <$> images).
Proof.
  intros H. apply zsum_nonneg, Forall_fmap, Forall_forall. intros j Hj. cbn. specialize (H j Hj). lia.
Qed.

(** An image gets its request, cut to what the images before it left. *)
Lemma allocate_spec requested images : ∀ remaining out,
  NoDup images → (∀ j, j ∈ images → 0 < get requested j ∧ out !! j = None) →
  0 ≤ remaining < 2 ^ 63 → positive out →
  let out' := allocate requested images remaining out in
  positive out'
  ∧ msum out' = msum out + Z.min remaining (zsum (get requested <$> images))
  ∧ (∀ j, j ∉ images → out' !! j = out !! j)
  ∧ ∀ l1 j l2, images = l1 ++ j :: l2 →
      get out' j = Z.max 0 (Z.min (get requested j) (remaining - zsum (get requested <$> l1))).
Proof.
  induction images as [|a images IH]; intros remaining out Hnd Hreq Hrem Hpos; cbn zeta; cbn [allocate].
  { split; [done|]. split; [cbn; rewrite zsum_nil; lia|]. split; [done|]. by intros [] ??. }
  apply NoDup_cons in Hnd as [Ha Hnd]. destruct (Hreq a ltac:(left)) as [Hra Hoa].
  assert (0 ≤ zsum (get requested <$> images)) as Hz.
  { apply requests_nonneg. intros j Hj. apply Hreq. by right. }
  destruct (decide (remaining ≤ 0)) as [Hr0|Hr0].
  { rewrite bool_decide_eq_true_2 by done. split; [done|]. cbn [fmap list_fmap]. rewrite zsum_cons. split; [lia|]. split; [done|].
    intros l1 j l2 E. assert (0 ≤ zsum (get requested <$> l1)).
    { apply requests_nonneg. intros i Hi. apply Hreq. rewrite E. apply elem_of_app. by left. }
    destruct (Hreq j) as [_ Hj]; [rewrite E; apply elem_of_app; right; left|]. unfold get at 1. rewrite Hj. cbn. lia. }
  rewrite (bool_decide_eq_false_2 (remaining ≤ 0)) by done.
  set (e := if bool_decide (remaining < get requested a) then remaining else get requested a).
  assert (e = Z.min remaining (get requested a)) as He by (subst e; case_bool_decide; lia).
  rewrite bool_decide_eq_true_2, subi_small by lia.
  destruct (IH (remaining - e) (<[ a := e ]> out)) as (P&S&F&G).
  - done.
  - intros j Hj. destruct (Hreq j) as [? ?]; [by right|]. split; [done|].
    rewrite lookup_insert_ne by (intros ->; done). done.
  - lia.
  - apply positive_insert; [done|lia].
  - cbn [fmap list_fmap]. rewrite zsum_cons. split; [done|].
    split; [rewrite S, msum_insert_fresh by done; lia|]. split.
    + intros j Hj. apply not_elem_of_cons in Hj as [? ?]. rewrite F, lookup_insert_ne by done. done.
    + intros [|b l1] j l2 E; cbn in E; injection E as <- E.
      * unfold get at 1. rewrite F, lookup_insert_eq by done. cbn. rewrite zsum_nil. lia.
      * rewrite (G _ _ _ E). cbn [fmap list_fmap]. rewrite zsum_cons.
        assert (0 ≤ zsum (get requested <$> l1)); [|lia].
        apply requests_nonneg. intros i Hi. apply Hreq. right. rewrite E. apply elem_of_app. by left.
Qed.

(** * Capped extras *)

Lemma fold_addi (l : list (string * Z)) : ∀ acc,
  Forall (λ x, 0 < x) l.*2 → 0 ≤ acc → acc + zsum l.*2 < 2 ^ 63 →
  foldl (λ total kv, addi total kv.2) acc l = acc + zsum l.*2.
Proof.
  induction l as [|[k v] l IH]; intros acc Hl Ha Hs; [cbn; rewrite zsum_nil; lia|].
  cbn [fmap list_fmap snd] in Hl, Hs |- *. rewrite zsum_cons in Hs |- *. apply Forall_cons in Hl as [Hv Hl].
  assert (0 ≤ zsum l.*2) by (apply zsum_nonneg; eapply Forall_impl; [exact Hl|cbn; lia]).
  cbn [foldl snd]. rewrite addi_small, IH by (done || lia). lia.
Qed.

Lemma fold_keys (h : string → Z) l : ∀ (m : gmap string Z) j,
  foldl (λ out k, <[ k := h k ]> out) m l !! j = if decide (j ∈ l) then Some (h j) else m !! j.
Proof.
  induction l as [|k l IH]; intros m j; cbn [foldl].
  { rewrite decide_False; [done|]. by apply not_elem_of_nil. }
  rewrite IH. destruct (decide (j = k)) as [->|].
  - rewrite lookup_insert_eq, (decide_True (P := k ∈ k :: l)) by left. by case_decide.
  - rewrite lookup_insert_ne by done. destruct (decide (j ∈ l)) as [Hj|Hj].
    + rewrite decide_True; [done|by right].
    + rewrite decide_False; [done|]. by apply not_elem_of_cons.
Qed.

Lemma zsum_keys m : zsum (get m <$> (map_to_list m).*1) = msum m.
Proof.
  unfold msum. f_equal. rewrite <- list_fmap_compose. apply list_fmap_ext. intros i [k v] Hk. cbn.
  apply list_elem_of_lookup_2, elem_of_map_to_list in Hk. unfold get. by rewrite Hk.
Qed.

Lemma map_ext_get m m' : positive m → positive m' → (∀ j, get m j = get m' j) → m = m'.
Proof.
  intros P P' H. apply map_eq. intros j. specialize (H j). unfold get in H.
  destruct (m !! j) eqn:E, (m' !! j) eqn:E'; cbn in H; [by f_equal| | |done].
  - specialize (P _ _ E). lia.
  - specialize (P' _ _ E'). lia.
Qed.

Lemma ranked_before requested missCounts images a b :
  StronglySorted (demand_le requested missCounts) images → a ∈ images → b ∈ images →
  demand_less requested missCounts a b = true →
  ∃ k1 k2 l2, images = k1 ++ a :: k2 ++ b :: l2.
Proof.
  intros Hs Ha Hb Hab. apply list_elem_of_split in Hb as (l1&l2&->).
  assert (a ∈ l1) as Hl.
  { apply elem_of_app in Ha as [?|Ha]; [done|]. apply elem_of_cons in Ha as [->|Ha].
    - by rewrite demand_less_key, lex_irrefl in Hab.
    - apply StronglySorted_app_1_r, StronglySorted_cons in Hs as [Hs _]. rewrite Forall_forall in Hs.
      specialize (Hs a Ha). unfold demand_le in Hs. congruence. }
  apply list_elem_of_split in Hl as (k1&k2&->). exists k1, k2, l2. by rewrite <- app_assoc.
Qed.

Section Caps.
Context (range : nat → gmap string Z → list (string * Z)).
Context (range_perm : ∀ i m, range i m ≡ₚ map_to_list m).
Context (requested missCounts : gmap string Z) (cap : Z).
Context (req_pos : positive requested) (req_named : requested !! ""%string = None).
Context (req_fits : msum requested < 2 ^ 63) (cap_ok : 0 < cap < 2 ^ 63).

(** What the allocation is, whatever order the maps are visited in. *)
Definition fair_extras : gmap string Z :=
  if bool_decide (msum requested ≤ cap) then requested
  else allocate requested (merge_sort (demand_le requested missCounts) (map_to_list requested).*1) cap ∅.

Lemma capped_is_fair : capDynamicWarmCapacityExtras range requested missCounts cap = fair_extras.
Proof.
  unfold capDynamicWarmCapacityExtras, fair_extras. rewrite (bool_decide_eq_false_2 (cap ≤ 0)) by lia.
  rewrite filter_all.
  2: { apply Forall_forall. intros [k v] Hk. rewrite range_perm in Hk. apply elem_of_map_to_list in Hk.
       cbn. intros [->|Hv]; [congruence|]. specialize (req_pos _ _ Hk). lia. }
  assert (zsum (range 1 requested).*2 = msum requested) as Hz by (unfold msum; by rewrite range_perm).
  rewrite fold_addi; [|rewrite range_perm; by apply positive_Forall|lia|rewrite Hz; lia].
  rewrite Hz, Z.add_0_l. case_bool_decide.
  - apply map_eq. intros j. rewrite fold_keys, lookup_empty. case_decide as Hj.
    + rewrite range_perm in Hj. apply list_elem_of_fmap in Hj as ([k v]&->&Hj).
      apply elem_of_map_to_list in Hj. unfold get. cbn. by rewrite Hj.
    + symmetry. apply eq_None_not_Some. intros [v Hv]. apply Hj. rewrite range_perm.
      apply list_elem_of_fmap. exists (j, v). split; [done|]. by apply elem_of_map_to_list.
  - f_equal. apply sort_order_free. by rewrite range_perm.
Qed.

Lemma fair_extras_spec :
  positive fair_extras ∧ msum fair_extras = Z.min cap (msum requested)
  ∧ (∀ j, get fair_extras j ≤ get requested j)
  ∧ ∀ a b, demand_less requested missCounts a b = true → 0 < get requested a → 0 < get fair_extras b →
      get fair_extras a = get requested a.
Proof.
  unfold fair_extras. case_bool_decide; [repeat split; (done || lia)|].
  set (images := merge_sort (demand_le requested missCounts) (map_to_list requested).*1).
  assert (images ≡ₚ (map_to_list requested).*1) as Hp by apply merge_sort_Permutation.
  assert (∀ j, j ∈ images ↔ is_Some (requested !! j)) as Hin.
  { intros j. rewrite Hp, list_elem_of_fmap. split.
    - intros ([k v]&->&Hk). apply elem_of_map_to_list in Hk. eauto.
    - intros [v Hv]. exists (j, v). split; [done|]. by apply elem_of_map_to_list. }
  destruct (allocate_spec requested images cap ∅) as (P&S&F&G).
  - rewrite Hp. apply NoDup_fst_map_to_list.
  - intros j Hj. apply Hin in Hj as [v Hv]. unfold get. rewrite Hv. split; [by apply (req_pos j)|apply lookup_empty].
  - lia.
  - intros k v. by rewrite lookup_empty.
  - assert (zsum (get requested <$> images) = msum requested) as Hz by (rewrite Hp; apply zsum_keys).
    rewrite Hz, msum_empty in S. split; [done|]. split; [done|]. split.
    + intros j. destruct (decide (j ∈ images)) as [Hj|Hj].
      * apply list_elem_of_split in Hj as (l1&l2&E). rewrite (G _ _ _ E).
        assert (0 ≤ get requested j) by (by apply positive_get). lia.
      * unfold get at 1. rewrite F by done. rewrite lookup_empty. by apply positive_get.
    + intros a b Hab Ha Hb. destruct (ranked_before requested missCounts images a b) as (k1&k2&l2&E).
      * apply StronglySorted_merge_sort; apply _.
      * apply Hin. unfold get in Ha. destruct (requested !! a); [eauto|cbn in Ha; lia].
      * destruct (decide (b ∈ images)); [done|].
        unfold get in Hb. rewrite F, lookup_empty in Hb by done. cbn in Hb. lia.
      * done.
      * rewrite (G _ _ _ E). rewrite (G (k1 ++ a :: k2) b l2) in Hb by (by rewrite E, <- app_assoc).
        rewrite fmap_app, zsum_app in Hb. cbn [fmap list_fmap] in Hb. rewrite zsum_cons in Hb.
        assert (0 ≤ zsum (get requested <$> k2)); [|lia].
        apply requests_nonneg. intros j Hj. destruct (proj1 (Hin j)) as [v Hv].
        { rewrite E. apply elem_of_app. right. right. apply elem_of_app. by left. }
        unfold get. rewrite Hv. by apply (req_pos j).
Qed.

End Caps.

Lemma gains_entries j l m : l ≡ₚ map_to_list m → gains j l = get m j.
Proof.
  intros H. unfold gains. rewrite H. clear H l. induction m as [|k v m Hk IH] using map_ind; [done|].
  rewrite map_to_list_insert, filter_cons by done. cbn [fst]. rewrite get_insert.
  case_decide as Hj; [|exact IH]. subst j. cbn [fmap list_fmap snd]. rewrite zsum_cons, IH.
  unfold get. rewrite Hk. cbn. lia.
Qed.

Lemma msum_le m m' : positive m → positive m' → (∀ j, get m j ≤ get m' j) → msum m ≤ msum m'.
Proof.
  revert m'. induction m as [|k v m Hk IH] using map_ind; intros m' P P' H; [by apply msum_nonneg|].
  rewrite msum_insert_fresh by done. pose proof (H k) as Hkv. rewrite get_insert, decide_True in Hkv by done.
  assert (0 < v) by (apply (P k); apply lookup_insert_eq).
  destruct (m' !! k) as [w|] eqn:E; [|unfold get in Hkv; rewrite E in Hkv; cbn in Hkv; lia].
  rewrite <- (insert_delete_id m' k w E), msum_insert_fresh by apply lookup_delete_eq.
  unfold get in Hkv. rewrite E in Hkv. cbn in Hkv. 
  assert (msum m ≤ msum (delete k m')); [|lia]. apply IH.
  - intros j x Hj. apply (P j). rewrite lookup_insert_ne; [done|]. intros ->. congruence.
  - intros j x [_ Hj]%lookup_delete_Some. by apply (P' j).
  - intros j. specialize (H j). rewrite get_insert in H. unfold get in *. destruct (decide (k = j)) as [<-|].
    + by rewrite Hk, lookup_delete_eq.
    + by rewrite lookup_delete_ne.
Qed.

(** * The computed targets *)

(** How many workers may be added over the base targets. *)
Definition extra_limit (cfg : dynamicWarmCapacityConfig) (base requested : gmap string Z) : Z :=
  let wanted := msum requested in
  let wanted := if bool_decide (0 < DynamicTotalCeiling cfg) then Z.min wanted (DynamicTotalCeiling cfg) else wanted in
  if bool_decide (0 < MaxWorkers cfg) then Z.min wanted (Z.max 0 (MaxWorkers cfg - msum base)) else wanted.

Section Main.
Context (range : nat → gmap string Z → list (string * Z)).
Context (range_perm : ∀ i m, range i m ≡ₚ map_to_list m).
Context (baseTargets : gmap string Z) (aggregates : list WarmCapacityMissAggregate)
  (cfg : dynamicWarmCapacityConfig).

(** The numbers are far from the 64-bit limits. *)
Definition numbers_fit : Prop :=
  msum (sanitizeWarmCapacityTargets range baseTargets) < 2 ^ 62
  ∧ zsum (demands aggregates).*2 < 2 ^ 62
  ∧ MissesPerWorker cfg ≤ 2 ^ 62 ∧ MaxWorkers cfg < 2 ^ 63 ∧ DynamicTotalCeiling cfg < 2 ^ 63.

Context (enabled : Enabled cfg = true) (fit : numbers_fit).

Let base := sanitizeWarmCapacityTargets range baseTargets.
Let counts := imageWarmCapacityMissCounts aggregates.
Let ncfg := normalizeDynamicWarmCapacityConfig cfg.
Let requested := omap (wanted_for ncfg) counts.
Let limit := extra_limit ncfg base requested.

Lemma ncfg_ok :
  0 < MissesPerWorker ncfg ≤ 2 ^ 62 ∧ 0 ≤ MaxWorkers ncfg < 2 ^ 63 ∧ 0 ≤ DynamicTotalCeiling ncfg < 2 ^ 63.
Proof.
  destruct fit as (_&_&?&?&?). subst ncfg. unfold DefaultWarmCapacityMissesPerWorker in *. cbn.
  unfold DefaultWarmCapacityMissesPerWorker. repeat case_bool_decide; lia.
Qed.

Lemma requested_wanted j e :
  requested !! j = Some e →
  ∃ n, counts !! j = Some n ∧ wanted_for ncfg n = Some e ∧ 0 < n < 2 ^ 62.
Proof.
  subst requested. rewrite lookup_omap. destruct (counts !! j) as [n|] eqn:E; [|done]. cbn. intros H.
  exists n. split; [done|]. split; [done|]. destruct fit as (_&Hd&_).
  destruct (miss_counts_spec aggregates Hd) as (P&S&_). fold counts in P, S. split; [by apply (P j)|].
  pose proof (get_le_msum counts j P) as Hle. unfold get in Hle. rewrite E in Hle. cbn in Hle. lia.
Qed.

Lemma requested_ok :
  positive requested ∧ requested !! ""%string = None ∧ msum requested < 2 ^ 62.
Proof.
  destruct fit as (_&Hd&_). destruct (miss_counts_spec aggregates Hd) as (P&S&N). fold counts in P, S, N.
  assert (positive requested) as Hp.
  { intros j e (n&_&Hw&Hn)%requested_wanted. by apply (wanted_for_spec ncfg n e Hn (proj1 ncfg_ok)) in Hw as [[? _] _]. }
  split; [done|]. split; [subst requested; by rewrite lookup_omap, N|].
  assert (msum requested ≤ msum counts); [|lia].
  apply msum_le; [done|done|]. intros j. destruct (requested !! j) as [e|] eqn:E.
  - destruct (requested_wanted j e E) as (n&Hc&Hw&Hn).
    apply (wanted_for_spec ncfg n e Hn (proj1 ncfg_ok)) in Hw as [[_ ?] _].
    unfold get. by rewrite E, Hc.
  - unfold get at 1. rewrite E. by apply positive_get.
Qed.
Lemma limit_range : 0 ≤ limit ≤ msum requested.
Proof.
  destruct requested_ok as (P&_&_). pose proof (msum_nonneg _ P). pose proof ncfg_ok.
  subst limit. unfold extra_limit. repeat case_bool_decide; lia.
Qed.

Lemma total_cap_limit : total_cap range ncfg base requested = limit.
Proof.
  destruct requested_ok as (P&_&S). destruct fit as (B&_). fold base in B.
  pose proof (sanitize_positive range baseTargets) as Pb. fold base in Pb.
  pose proof (msum_nonneg _ P). pose proof (msum_nonneg _ Pb). pose proof ncfg_ok.
  unfold total_cap. rewrite !sumIntMap_spec by (done || lia). subst limit. unfold extra_limit.
  rewrite subi_small by lia. repeat case_bool_decide; lia.
Qed.

Lemma computed_targets :
  computeDynamicWarmCapacityTargets range baseTargets aggregates cfg
  = if bool_decide (limit ≤ 0) then base
    else accumulate base (range 5 (fair_extras requested counts limit)).
Proof.
  unfold computeDynamicWarmCapacityTargets. rewrite enabled. cbn [negb]. fold base ncfg counts.
  rewrite requested_extras_omap by done. fold requested. rewrite total_cap_limit.
  destruct requested_ok as (P&N&S). pose proof limit_range.
  destruct (decide (limit ≤ 0)) as [Hl|Hl].
  { rewrite (bool_decide_eq_true_2 (limit ≤ 0)) by done. by case_bool_decide. }
  rewrite (bool_decide_eq_false_2 (limit ≤ 0)) by done. rewrite bool_decide_eq_false_2.
  2: { intros Hz%map_size_empty_inv. assert (msum requested = 0) by (by rewrite Hz). lia. }
  rewrite capped_is_fair by (done || lia).
  destruct (fair_extras_spec requested counts limit) as (Pf&_); [(done || lia)..|].
  unfold accumulate. assert (Forall (λ kv : string * Z, 0 < kv.2) (range 5 (fair_extras requested counts limit))) as Hf.
  { by eapply positive_entries. }
  revert Hf. generalize base. induction (range 5 (fair_extras requested counts limit)) as [|kv l IH]; intros b Hf; [done|].
  apply Forall_cons in Hf as [Hkv Hf]. cbn [foldl]. rewrite bool_decide_eq_false_2 by lia. by apply IH.
Qed.

(** The result entry by entry and in total. *)
Lemma computed_targets_spec :
  let t := computeDynamicWarmCapacityTargets range baseTargets aggregates cfg in
  positive t ∧ msum t = msum base + limit
  ∧ ∀ j, get t j = get base j + (if bool_decide (limit ≤ 0) then 0 else get (fair_extras requested counts limit) j).
Proof.
  cbn zeta. rewrite computed_targets. destruct requested_ok as (P&N&S). pose proof limit_range.
  pose proof (sanitize_positive range baseTargets) as Pb. fold base in Pb. destruct fit as (B&_). fold base in B.
  case_bool_decide; [split; [done|]; split; [lia|intros j; lia]|].
  destruct (fair_extras_spec requested counts limit) as (Pf&Sf&_); [(done || lia)..|].
  assert (zsum (range 5 (fair_extras requested counts limit)).*2 = limit) as Hz.
  { rewrite range_perm. fold (msum (fair_extras requested counts limit)). lia. }
  destruct (accumulate_spec (range 5 (fair_extras requested counts limit)) base) as (Pa&Sa&Ga).
  - done.
  - by eapply positive_entries.
  - lia.
  - split; [done|]. split; [lia|]. intros j. rewrite Ga. f_equal. by apply gains_entries.
Qed.

Lemma image_extra image :
  let extra := if bool_decide (limit ≤ 0) then 0 else get (fair_extras requested counts limit) image in
  0 ≤ extra
  ∧ extra ≤ (get counts image + MissesPerWorker ncfg - 1) / MissesPerWorker ncfg
  ∧ (0 < DynamicImageCeiling ncfg → extra ≤ DynamicImageCeiling ncfg).
Proof.
  cbn zeta. destruct (miss_counts_spec aggregates (proj1 (proj2 fit))) as (Pc&_).
  pose proof (positive_get _ image Pc) as Hc. fold counts in Hc. pose proof ncfg_ok as (Hm&_).
  assert (0 ≤ (get counts image + MissesPerWorker ncfg - 1) / MissesPerWorker ncfg) by (apply Z.div_pos; lia).
  case_bool_decide; [lia|]. destruct requested_ok as (P&N&Sr). pose proof limit_range.
  destruct (fair_extras_spec requested counts limit) as (Pf&_&Gf&_); [(done || lia)..|].
  specialize (Gf image). pose proof (positive_get _ image Pf) as Hpos.
  destruct (requested !! image) as [e|] eqn:E.
  - destruct (requested_wanted image e E) as (n&En&Ew&Hn).
    destruct (wanted_for_spec ncfg n e Hn Hm Ew) as (_&Hi&Hn').
    assert (get counts image = n) as -> by (unfold get; by rewrite En).
    assert (get requested image = e) as Er by (unfold get; by rewrite E). lia.
  - assert (get requested image = 0) as Er by (unfold get; by rewrite E). lia.
Qed.

End Main.

(** The dynamic warm-worker targets add exactly as much capacity as the
    configuration allows: over the sanitised base targets they add the demand the
    misses ask for, cut to the total ceiling and to the room the worker limit
    leaves; no image loses workers, none gets more than its misses or the image
    ceiling justify, and the worker limit is never exceeded by what is added. *)
Theorem warm_targets_fill_allowed_demand range baseTargets aggregates cfg :
  (∀ i m, range i m ≡ₚ map_to_list m) → Enabled cfg = true → numbers_fit range baseTargets aggregates cfg →
  let base := sanitizeWarmCapacityTargets range baseTargets in
  let counts := imageWarmCapacityMissCounts aggregates in
  let ncfg := normalizeDynamicWarmCapacityConfig cfg in
  let t := computeDynamicWarmCapacityTargets range baseTargets aggregates cfg in
  msum t = msum base + extra_limit ncfg base (omap (wanted_for ncfg) counts)
  ∧ (0 < MaxWorkers cfg → msum t ≤ Z.max (msum base) (MaxWorkers cfg))
  ∧ (0 < DynamicTotalCeiling cfg → msum t - msum base ≤ DynamicTotalCeiling cfg)
  ∧ ∀ image, get base image ≤ get t image
     ∧ get t image - get base image ≤ (get counts image + MissesPerWorker ncfg - 1) / MissesPerWorker ncfg
     ∧ (0 < DynamicImageCeiling cfg → get t image - get base image ≤ DynamicImageCeiling cfg).
Proof.
  intros Hr He Hf base counts ncfg t.
  destruct (computed_targets_spec range Hr baseTargets aggregates cfg He Hf) as (_&S&G).
  fold base counts ncfg t in S, G. set (requested := omap (wanted_for ncfg) counts) in *.
  set (limit := extra_limit ncfg base requested) in *. split; [done|].
  pose proof (limit_range range baseTargets aggregates cfg Hf) as Hlim. fold base counts ncfg requested limit in Hlim.
  assert (0 < MaxWorkers cfg → MaxWorkers ncfg = MaxWorkers cfg) as Em
    by (intros ?; subst ncfg; cbn; by rewrite bool_decide_eq_false_2 by lia).
  assert (0 < DynamicTotalCeiling cfg → DynamicTotalCeiling ncfg = DynamicTotalCeiling cfg) as Ed
    by (intros ?; subst ncfg; cbn; by rewrite bool_decide_eq_false_2 by lia).
  assert (0 < DynamicImageCeiling cfg → DynamicImageCeiling ncfg = DynamicImageCeiling cfg) as Ei
    by (intros ?; subst ncfg; cbn; by rewrite bool_decide_eq_false_2 by lia).
  split; [intros Hp; rewrite S; subst limit; unfold extra_limit; specialize (Em Hp); repeat case_bool_decide; lia|].
  split; [intros Hp; rewrite S; subst limit; unfold extra_limit; specialize (Ed Hp); repeat case_bool_decide; lia|].
  intros image. rewrite (G image).
  pose proof (image_extra range baseTargets aggregates cfg Hf image) as (H1&H2&H3).
  fold base counts ncfg requested limit in H1, H2, H3.
  split; [lia|]. split; [lia|]. intros Hp. rewrite <- Ei by done. rewrite <- (Ei Hp) in Hp. specialize (H3 Hp). lia.
Qed.

Definition by_key : nat → gmap string Z → list (string * Z) := λ _, map_to_list.
Definition backwards : nat → gmap string Z → list (string * Z) := λ _ m, reverse (map_to_list m).

Definition image_misses (image : string) (n : Z) : WarmCapacityMissAggregate :=
  {| Agg_Scope := "image:" ++ image; Agg_Reason := MissReasonNoIdle; Agg_Count := n |}.
Definition small_cfg : dynamicWarmCapacityConfig :=
  {| Enabled := true; MissesPerWorker := 8; DynamicImageCeiling := 3; DynamicTotalCeiling := 4; MaxWorkers := 6 |}.
Definition some_base : gmap string Z := {[ "duckdb:1.4"%string := 2 ]}.
Definition some_misses : list WarmCapacityMissAggregate :=
  [image_misses "duckdb:1.4" 20; image_misses " duckdb:1.5" 9; image_misses "duckdb:1.5" 100].

(** Three workers go to the image with more misses and one to the other: the
    total ceiling of four. *)
Lemma warm_targets_fill_allowed_demand_witness :
  msum (computeDynamicWarmCapacityTargets by_key some_base some_misses small_cfg) = 6
  ∧ computeDynamicWarmCapacityTargets by_key some_base some_misses small_cfg
    = {[ "duckdb:1.4"%string := 3; "duckdb:1.5"%string := 3 ]}.
Proof.
  split; [|vm_compute; reflexivity].
  refine (eq_trans (proj1 (warm_targets_fill_allowed_demand by_key some_base some_misses small_cfg _ _ _)) _).
  - done.
  - reflexivity.
  - repeat split; vm_compute; congruence.
  - vm_compute. reflexivity.
Defined.

(** When the requested extra workers exceed the cap, the cap is used up
    exactly and goes by demand: an image gets part of its request only if every
    image with more misses (then the larger request, then the smaller name) got
    all of its own; when they fit, everybody gets the request. *)
Theorem scarce_capacity_goes_by_demand range requested missCounts cap :
  (∀ i m, range i m ≡ₚ map_to_list m) →
  positive requested → requested !! ""%string = None → msum requested < 2 ^ 63 → 0 < cap < 2 ^ 63 →
  let out := capDynamicWarmCapacityExtras range requested missCounts cap in
  msum out = Z.min cap (msum requested)
  ∧ (∀ image, 0 ≤ get out image ≤ get requested image)
  ∧ ∀ a b, demand_less requested missCounts a b = true → 0 < get requested a → 0 < get out b →
      get out a = get requested a.
Proof.
  intros Hr Hp Hn Hs Hc out. subst out. rewrite capped_is_fair by done.
  destruct (fair_extras_spec requested missCounts cap) as (P&S&G&D); [done..|].
  split; [done|]. split; [|done]. intros image. split; [by apply positive_get|apply G].
Qed.

Definition three_requests : gmap string Z := {[ "a"%string := 2; "b"%string := 2; "c"%string := 2 ]}.
Definition three_counts : gmap string Z := {[ "a"%string := 10; "b"%string := 30; "c"%string := 10 ]}.

Lemma scarce_capacity_goes_by_demand_witness :
  let out := capDynamicWarmCapacityExtras backwards three_requests three_counts 3 in
  msum out = 3 ∧ out = {[ "a"%string := 1; "b"%string := 2 ]}.
Proof.
  intros out. split; [|vm_compute; reflexivity].
  refine (proj1 (scarce_capacity_goes_by_demand backwards three_requests three_counts 3 _ _ _ _ _)).
  - intros i m. unfold backwards. apply reverse_Permutation.
  - intros k v H. apply elem_of_map_to_list in H. unfold three_requests in H.
    vm_compute in H. repeat (apply elem_of_cons in H as [[= -> ->]|H]; [lia|]). by apply elem_of_nil in H.
  - vm_compute. reflexivity.
  - vm_compute. reflexivity.
  - lia.
Defined.

(** ** Map iteration order *)

Definition sanitize_step (out : gmap string Z) (kv : string * Z) : gmap string Z :=
  let image := TrimSpace kv.1 in
  if bool_decide (image = ""%string ∨ kv.2 ≤ 0) then out else <[ image := kv.2 ]> out.

Lemma sanitize_lookup l : ∀ m j v,
  NoDup (TrimSpace <$> l.*1) → (∀ k, k ∈ l.*1 → m !! TrimSpace k = None) →
  foldl sanitize_step m l !! j = Some v ↔
  m !! j = Some v ∨ ∃ k, (k, v) ∈ l ∧ TrimSpace k = j ∧ j ≠ ""%string ∧ 0 < v.
Proof.
  induction l as [|[k w] l IH]; intros m j v Hnd Hm; cbn [foldl].
  { split; [by left|]. intros [?|(k&Hk&_)]; [done|]. by apply elem_of_nil in Hk. }
  cbn in Hnd. apply NoDup_cons in Hnd as [Hk Hnd].
  assert (m !! TrimSpace k = None) as Hmk by (apply Hm; left).
  unfold sanitize_step at 2. cbn [fst snd]. case_bool_decide as D; rewrite IH; try done.
  - split; [intros [?|(k'&?&?)]; [by left|right; exists k'; split; [by right|done]]|].
    intros [?|(k'&Hin&E&Hj&Hv)]; [by left|]. right. apply elem_of_cons in Hin as [[= <- <-]|Hin]; [|eauto].
    subst j. exfalso. destruct D; [done|lia].
  - intros k' Hk'. apply Hm. by right.
  - apply Decidable.not_or in D as [D1 D2]. split.
    + intros [H|(k'&?&?)]; [|right; exists k'; split; [by right|done]].
      destruct (decide (TrimSpace k = j)) as [E|E]; [|rewrite lookup_insert_ne in H by done; by left].
      subst j. rewrite lookup_insert_eq in H. injection H as ->. right. exists k. split; [left|]. split; [done|].
      split; [done|lia].
    + intros [H|(k'&Hin&E&Hj&Hv)].
      * left. rewrite lookup_insert_ne; [done|]. intros E. congruence.
      * apply elem_of_cons in Hin as [[= <- <-]|Hin]; [left; subst j; apply lookup_insert_eq|right; exists k'; eauto].
  - intros k' Hk'. rewrite lookup_insert_ne; [apply Hm; by right|].
    intros E. apply Hk. change (TrimSpace k ∈ TrimSpace <$> l.*1). rewrite E. by apply list_elem_of_fmap_2.
Qed.

Lemma sanitize_order_free r r' base :
  (∀ i m, r i m ≡ₚ map_to_list m) → (∀ i m, r' i m ≡ₚ map_to_list m) →
  NoDup (TrimSpace <$> (map_to_list base).*1) →
  sanitizeWarmCapacityTargets r base = sanitizeWarmCapacityTargets r' base.
Proof.
  intros Hr Hr' Hnd. apply map_eq. intros j. apply option_eq. intros v.
  unfold sanitizeWarmCapacityTargets. fold sanitize_step. rewrite !sanitize_lookup.
  - by setoid_rewrite Hr; setoid_rewrite Hr'.
  - by rewrite Hr'.
  - intros k _. apply lookup_empty.
  - by rewrite Hr.
  - intros k _. apply lookup_empty.
Qed.

(** The targets do not depend on Go's map iteration order: when no two base
    images differ only in surrounding white space, any two runs over the same
    data compute the same targets, whatever order their loops visit the maps in. *)
Theorem warm_targets_order_free r r' baseTargets aggregates cfg :
  (∀ i m, r i m ≡ₚ map_to_list m) → (∀ i m, r' i m ≡ₚ map_to_list m) →
  NoDup (TrimSpace <$> (map_to_list baseTargets).*1) → numbers_fit r baseTargets aggregates cfg →
  computeDynamicWarmCapacityTargets r baseTargets aggregates cfg
  = computeDynamicWarmCapacityTargets r' baseTargets aggregates cfg.
Proof.
  intros Hr Hr' Hnd Hf. pose proof (sanitize_order_free r r' baseTargets Hr Hr' Hnd) as Hs.
  assert (numbers_fit r' baseTargets aggregates cfg) as Hf' by (unfold numbers_fit in *; by rewrite <- Hs).
  destruct (Enabled cfg) eqn:He.
  - destruct (computed_targets_spec r Hr baseTargets aggregates cfg He Hf) as (P&_&G).
    destruct (computed_targets_spec r' Hr' baseTargets aggregates cfg He Hf') as (P'&_&G').
    apply map_ext_get; [done..|]. intros j. by rewrite G, G', Hs.
  - unfold computeDynamicWarmCapacityTargets. rewrite He. done.
Qed.

Lemma warm_targets_order_free_witness :
  computeDynamicWarmCapacityTargets by_key some_base some_misses small_cfg
  = computeDynamicWarmCapacityTargets backwards some_base some_misses small_cfg.
Proof.
  apply (warm_targets_order_free by_key backwards some_base some_misses small_cfg).
  - done.
  - intros i m. apply reverse_Permutation.
  - vm_compute. repeat constructor. intros H. by apply elem_of_nil in H.
  - repeat split; vm_compute; congruence.
Defined.

(** Without that condition they do: the base targets of two spellings of an
    image are merged by whichever is visited last. *)
Lemma sanitize_depends_on_order :
  let base : gmap string Z := {[ "duckdb"%string := 1; " duckdb"%string := 5 ]} in
  get (sanitizeWarmCapacityTargets by_key base) "duckdb"
  + get (sanitizeWarmCapacityTargets backwards base) "duckdb" = 6.
Proof. vm_compute. reflexivity. Qed.
