(* ===== verification/SessionMgr.v ===== *)
(** The control plane's session manager (src/controlplane/session_mgr.go) and its
    lifecycle gate (src/controlplane/session_lifecycle.go), with the part of the
    memory rebalancer they call (src/controlplane/memory_rebalancer.go).

    A critical section is a function on the manager's state. Goroutines are
    [thread]s: where one is in CreateSessionWithProtocol, ReconnectFlightSession,
    DestroySession, OnWorkerCrash or DestroyAllSessions. [tnext] runs a thread to
    the end of its next critical section or outside call, [choice] being what the
    outside world does there (the worker pool, the worker's RPC, the cluster-wide
    limiter, the context), and [step] interleaves threads and new calls.

    The lifecycle gate has its own mutex. The only access to it inside a section of
    the manager is one read of [closed] or one update of [active], so the section
    can be taken as atomic at that access. A waiter object is dropped from the heap
    when the goroutine that owns it has read it: nothing refers to it after that. *)

From Stdlib Require Import Strings.Byte.
From stdpp Require Import prelude gmap strings list fin_maps.
From Stdlib Require Import ZArith Lia.
From S2P Require Import Prelude.

Open Scope Z_scope.

(** * Memory limits *)

Definition minMemoryPerSession : Z := 256 * 1024 * 1024.

Record MemoryRebalancer := {
  memoryBudget : Z;
  threadBudget : Z;
  rb_enabled : bool;
  pendingRebalance : bool;   (** the channel of capacity one *)
}.

(** [sysmem] and [numCPU] are what the system reports; the background goroutine
    is not started here. Arithmetic is on uint64. *)
Definition NewMemoryRebalancer (sysmem numCPU memoryBudget threadBudget : Z) (enabled : bool) : MemoryRebalancer :=
  let memoryBudget :=
    if bool_decide (memoryBudget = 0) then
      if bool_decide (0 < sysmem) then wrap_u 64 (sysmem * 3) / 4 else 4 * 1024 * 1024 * 1024
    else memoryBudget in
  let threadBudget := if bool_decide (threadBudget = 0) then numCPU else threadBudget in
  {| memoryBudget := memoryBudget; threadBudget := threadBudget; rb_enabled := enabled;
     pendingRebalance := false |}.

Definition memoryLimit (budget : Z) : Z :=
  if bool_decide (budget < minMemoryPerSession) then minMemoryPerSession else budget.
Definition formatBytes (b : Z) : string := fmt_d (b / (1024 * 1024)) ++ "MB".
Definition MemoryLimit (r : MemoryRebalancer) : string := formatBytes (memoryLimit (memoryBudget r)).
Definition PerSessionThreads (r : MemoryRebalancer) : Z := threadBudget r.
Definition DefaultMaxWorkers (r : MemoryRebalancer) : Z := wrap_s 64 (memoryBudget r / minMemoryPerSession).

(** A send on the buffered channel that never blocks. *)
Definition RequestRebalance (r : MemoryRebalancer) : MemoryRebalancer :=
  if rb_enabled r then
    {| memoryBudget := memoryBudget r; threadBudget := threadBudget r; rb_enabled := true;
       pendingRebalance := true |}
  else r.

Definition resolveSessionLimits (rebalancer : option MemoryRebalancer) (memLimit : string) (threads : Z)
    : string * Z :=
  match rebalancer with
  | None => (memLimit, threads)
  | Some r =>
      (if bool_decide (memLimit = ""%string) then MemoryLimit r else memLimit,
       if bool_decide (threads ≤ 0) then PerSessionThreads r else threads)
  end.

(** * State *)

Inductive sm_error :=
  | ErrTooManyConnections | ErrSessionManagerDraining | ErrContext
  | ErrLimiter | ErrAcquireWorker | ErrReconnect | ErrCreateSession.

Record SessionProgress := { Percentage : Z; Rows : Z; TotalRows : Z; Stalled : bool }.

Record ManagedSession := {
  PID : Z;
  WorkerID : Z;
  Protocol : string;
  SessionToken : string;
  s_dead : bool;                          (** the executor's dead flag *)
  connCloser : option nat;
  lease : option nat;                     (** nil with the local limiter *)
  queryProgress : option SessionProgress;
}.

Record connectionWaiter := { granted : bool; w_err : option sm_error; ready : bool }.

Record SessionManager := {
  sessions : gmap Z ManagedSession;
  byWorker : gmap Z (list Z);
  nextPID : Z;
  maxConnections : Z;
  activeSlots : Z;
  waiters : list nat;
  heap : gmap nat connectionWaiter;       (** the waiter objects in use *)
  limiter : bool;                         (** a cluster-wide limiter is set *)
  (** the lifecycle gate *)
  closed : bool;
  nextID : Z;
  active : Z;
  cancels : gset Z;
  cancelled : gset Z;                     (** contexts cancelled by [close] *)
  (** bookkeeping of the model: PIDs handed out so far *)
  issued : Z;
}.

Definition NewSessionManager : SessionManager :=
  {| sessions := ∅; byWorker := ∅; nextPID := 1000; maxConnections := 0; activeSlots := 0; waiters := [];
     heap := ∅; limiter := false; closed := false; nextID := 0; active := 0; cancels := ∅; cancelled := ∅;
     issued := 0 |}.

Definition with_sessions ss bw (s : SessionManager) : SessionManager :=
  {| sessions := ss; byWorker := bw; nextPID := nextPID s; maxConnections := maxConnections s;
     activeSlots := activeSlots s; waiters := waiters s; heap := heap s; limiter := limiter s;
     closed := closed s; nextID := nextID s; active := active s; cancels := cancels s;
     cancelled := cancelled s; issued := issued s |}.
Definition with_slots n ws h (s : SessionManager) : SessionManager :=
  {| sessions := sessions s; byWorker := byWorker s; nextPID := nextPID s; maxConnections := maxConnections s;
     activeSlots := n; waiters := ws; heap := h; limiter := limiter s;
     closed := closed s; nextID := nextID s; active := active s; cancels := cancels s;
     cancelled := cancelled s; issued := issued s |}.
Definition with_limits m lim (s : SessionManager) : SessionManager :=
  {| sessions := sessions s; byWorker := byWorker s; nextPID := nextPID s; maxConnections := m;
     activeSlots := activeSlots s; waiters := waiters s; heap := heap s; limiter := lim;
     closed := closed s; nextID := nextID s; active := active s; cancels := cancels s;
     cancelled := cancelled s; issued := issued s |}.
Definition with_gate c id n cs cd (s : SessionManager) : SessionManager :=
  {| sessions := sessions s; byWorker := byWorker s; nextPID := nextPID s; maxConnections := maxConnections s;
     activeSlots := activeSlots s; waiters := waiters s; heap := heap s; limiter := limiter s;
     closed := c; nextID := id; active := n; cancels := cs; cancelled := cd; issued := issued s |}.

(** * The lifecycle gate *)

(** [begin]: the id of the creation whose context it hands out. *)
Definition begin (s : SessionManager) : (Z + sm_error) * SessionManager :=
  if closed s then (inr ErrSessionManagerDraining, s) else
  let id := wrap_s 64 (nextID s + 1) in
  (inl id, with_gate (closed s) id (active s + 1) ({[ id ]} ∪ cancels s) (cancelled s) s).

Definition end_ (id : Z) (s : SessionManager) : SessionManager :=
  with_gate (closed s) (nextID s) (active s - 1) (cancels s ∖ {[ id ]}) ({[ id ]} ∪ cancelled s) s.

Definition beginCleanup (s : SessionManager) : SessionManager :=
  with_gate (closed s) (nextID s) (active s + 1) (cancels s) (cancelled s) s.
Definition finishCleanup (s : SessionManager) : SessionManager :=
  with_gate (closed s) (nextID s) (active s - 1) (cancels s) (cancelled s) s.

(** [close], with the cancellations it makes afterwards. *)
Definition close (s : SessionManager) : SessionManager :=
  with_gate true (nextID s) (active s) (cancels s) (cancels s ∪ cancelled s) s.

(** [closeAndWait] returns when no creation and no cleanup is under way. *)
Definition may_return (s : SessionManager) : bool := bool_decide (active s ≤ 0).

(** * Connection slots *)

Definition has_room (s : SessionManager) : bool :=
  bool_decide (maxConnections s ≤ 0) || bool_decide (activeSlots s < maxConnections s).

(** The loop of [grantWaitersLocked]. *)
Fixpoint grant_loop (max slots : Z) (ws : list nat) (h : gmap nat connectionWaiter)
    : Z * list nat * gmap nat connectionWaiter :=
  match ws with
  | [] => (slots, [], h)
  | w :: ws' =>
      if bool_decide (max ≤ 0) || bool_decide (slots < max)
      then grant_loop max (slots + 1) ws' (<[ w := {| granted := true; w_err := None; ready := true |} ]> h)
      else (slots, ws, h)
  end.

Definition grantWaitersLocked (s : SessionManager) : SessionManager :=
  if closed s then s else
  let '(slots, ws, h) := grant_loop (maxConnections s) (activeSlots s) (waiters s) (heap s) in
  with_slots slots ws h s.

Definition fail_waiter (e : sm_error) (h : gmap nat connectionWaiter) (w : nat) : gmap nat connectionWaiter :=
  match h !! w with
  | Some x => <[ w := {| granted := granted x; w_err := Some e; ready := true |} ]> h
  | None => h
  end.
Definition failWaitersLocked (e : sm_error) (s : SessionManager) : SessionManager :=
  with_slots (activeSlots s) [] (foldl (fail_waiter e) (heap s) (waiters s)) s.

(** Removes the first occurrence. *)
Fixpoint remove_first {A} `{EqDecision A} (x : A) (l : list A) : list A :=
  match l with
  | [] => []
  | y :: l' => if bool_decide (y = x) then l' else y :: remove_first x l'
  end.
Definition removeWaiterLocked (w : nat) (s : SessionManager) : SessionManager :=
  with_slots (activeSlots s) (remove_first w (waiters s)) (heap s) s.

Definition SetMaxConnections (n : Z) (s : SessionManager) : SessionManager :=
  grantWaitersLocked (with_limits n (limiter s) s).
Definition SetConnectionLimiter (l : bool) (s : SessionManager) : SessionManager :=
  with_limits (maxConnections s) l s.

(** The local branch of [acquireConnectionSlot]: a slot, a new waiter, or an error. *)
Inductive slot_result := GotSlot | MustWait (w : nat) | NoSlot (e : sm_error).

Definition acquire_local (s : SessionManager) : slot_result * SessionManager :=
  if closed s then (NoSlot ErrSessionManagerDraining, s) else
  if has_room s then (GotSlot, with_slots (activeSlots s + 1) (waiters s) (heap s) s) else
  let w := fresh (dom (heap s)) in
  (MustWait w, with_slots (activeSlots s) (waiters s ++ [w])
                 (<[ w := {| granted := false; w_err := None; ready := false |} ]> (heap s)) s).

Definition drop_waiter (w : nat) (s : SessionManager) : SessionManager :=
  with_slots (activeSlots s) (waiters s) (delete w (heap s)) s.

(** The [ctx.Done] arm of the wait; [deadline] tells a deadline from a cancel. *)
Definition wait_cancelled (w : nat) (deadline : bool) (s : SessionManager) : option sm_error * SessionManager :=
  match heap s !! w with
  | Some x =>
      if granted x then (None, drop_waiter w s)
      else (Some (if deadline then ErrTooManyConnections else ErrContext),
            drop_waiter w (removeWaiterLocked w s))
  | None => (Some ErrContext, s)
  end.

(** [releaseConnectionSlot] without a lease. *)
Definition release_local (s : SessionManager) : SessionManager :=
  grantWaitersLocked
    (with_slots (if bool_decide (0 < activeSlots s) then activeSlots s - 1 else activeSlots s)
       (waiters s) (heap s) s).

Definition connectionLeaseReleaseMaxAttempts : nat := 3.

(** [releaseConnectionLeaseWithRetry]: the replies to the attempts decide how many
    are made and whether the lease was given back. *)
Fixpoint release_attempts (left : nat) (replies : nat → bool) (attempt : nat) : nat * bool :=
  match left with
  | O => (O, false)
  | S left' =>
      if replies attempt then (1%nat, true)
      else let '(n, ok) := release_attempts left' replies (S attempt) in (S n, ok)
  end.
Definition releaseConnectionLeaseWithRetry (replies : nat → bool) : nat * bool :=
  release_attempts connectionLeaseReleaseMaxAttempts replies 1.

(** * Sessions *)

Definition ReservePID (s : SessionManager) : Z * SessionManager :=
  let pid := wrap_s 32 (nextPID s + 1) in
  (pid, {| sessions := sessions s; byWorker := byWorker s; nextPID := pid; maxConnections := maxConnections s;
           activeSlots := activeSlots s; waiters := waiters s; heap := heap s; limiter := limiter s;
           closed := closed s; nextID := nextID s; active := active s; cancels := cancels s;
           cancelled := cancelled s; issued := issued s + 1 |}).

Definition pids_of (wid : Z) (s : SessionManager) : list Z := default [] (byWorker s !! wid).

(** The locked part of [createSessionOnWorker]; [None] when draining. *)
Definition register (ses : ManagedSession) (s : SessionManager) : option SessionManager :=
  if closed s then None else
  Some (with_sessions (<[ PID ses := ses ]> (sessions s))
          (<[ WorkerID ses := pids_of (WorkerID ses) s ++ [PID ses] ]> (byWorker s)) s).

Definition removeSessionFromWorkerLocked (wid pid : Z) (s : SessionManager) : SessionManager :=
  let pids := remove_first pid (pids_of wid s) in
  with_sessions (sessions s)
    (if bool_decide (pids = []) then delete wid (byWorker s) else <[ wid := pids ]> (byWorker s)) s.

Definition detachSessionLocked (pid : Z) (s : SessionManager) : option ManagedSession * SessionManager :=
  match sessions s !! pid with
  | None => (None, s)
  | Some ses =>
      let s := with_sessions (delete pid (sessions s)) (byWorker s) s in
      let s := removeSessionFromWorkerLocked (WorkerID ses) pid s in
      let s := with_slots
                 (if bool_decide (lease ses = None) && bool_decide (0 < activeSlots s)
                  then activeSlots s - 1 else activeSlots s) (waiters s) (heap s) s in
      (Some ses, grantWaitersLocked s)
  end.

(** The locked part of [DestroySession], and of each turn of [OnWorkerCrash]. *)
Definition detach_for_cleanup (pid : Z) (s : SessionManager) : option ManagedSession * SessionManager :=
  match detachSessionLocked pid s with
  | (Some ses, s) => (Some ses, beginCleanup s)
  | (None, s) => (None, s)
  end.

Definition set_dead (ses : ManagedSession) : ManagedSession :=
  {| PID := PID ses; WorkerID := WorkerID ses; Protocol := Protocol ses; SessionToken := SessionToken ses;
     s_dead := true; connCloser := connCloser ses; lease := lease ses; queryProgress := queryProgress ses |}.
Definition mark_dead (ss : gmap Z ManagedSession) (pid : Z) : gmap Z ManagedSession := alter set_dead pid ss.

(** The first section of [OnWorkerCrash]. *)
Definition crash_snapshot (wid : Z) (s : SessionManager) : list Z * SessionManager :=
  let pids := pids_of wid s in
  (pids, with_sessions (foldl mark_dead (sessions s) pids) (byWorker s) s).

(** Its last section. *)
Definition crash_forget (wid : Z) (s : SessionManager) : SessionManager :=
  with_sessions (sessions s) (delete wid (byWorker s)) s.

(** The locked part of a turn of [DestroyAllSessions]. *)
Definition drain_snapshot (s : SessionManager) : SessionManager :=
  failWaitersLocked ErrSessionManagerDraining s.
(** In some order: the [range] over the map leaves it open. *)
Definition sessionPIDsLocked (s : SessionManager) : list Z := keys (sessions s).

(** ** Reading and labelling sessions *)

Definition update_session (f : ManagedSession → ManagedSession) (pid : Z) (s : SessionManager) : SessionManager :=
  with_sessions (alter f pid (sessions s)) (byWorker s) s.

Definition SetConnCloser (pid : Z) (c : nat) : SessionManager → SessionManager :=
  update_session (λ ses,
    {| PID := PID ses; WorkerID := WorkerID ses; Protocol := Protocol ses; SessionToken := SessionToken ses;
       s_dead := s_dead ses; connCloser := Some c; lease := lease ses; queryProgress := queryProgress ses |}) pid.
Definition SetProtocol (pid : Z) (p : string) : SessionManager → SessionManager :=
  update_session (λ ses,
    {| PID := PID ses; WorkerID := WorkerID ses; Protocol := p; SessionToken := SessionToken ses;
       s_dead := s_dead ses; connCloser := connCloser ses; lease := lease ses; queryProgress := queryProgress ses |}) pid.

Definition token_key (t : string) : string := str (take 16 (bytes t)).
Definition set_progress (progress : gmap string SessionProgress) (ses : ManagedSession) : ManagedSession :=
  match progress !! token_key (SessionToken ses) with
  | None => ses
  | Some p =>
      {| PID := PID ses; WorkerID := WorkerID ses; Protocol := Protocol ses; SessionToken := SessionToken ses;
         s_dead := s_dead ses; connCloser := connCloser ses; lease := lease ses; queryProgress := Some p |}
  end.
Definition UpdateProgress (wid : Z) (progress : gmap string SessionProgress) (s : SessionManager) : SessionManager :=
  foldl (λ s pid, update_session (set_progress progress) pid s) s (pids_of wid s).

Definition SessionCount (s : SessionManager) : Z := Z.of_nat (size (sessions s)).
Definition SessionCountForWorker (wid : Z) (s : SessionManager) : Z := Z.of_nat (length (pids_of wid s)).
Definition WorkerIDForPID (pid : Z) (s : SessionManager) : Z :=
  match sessions s !! pid with Some ses => WorkerID ses | None => -1 end.
(** In some order. *)
Definition AllSessions (s : SessionManager) : list ManagedSession := (map_to_list (sessions s)).*2.
Definition GetProgress (pid : Z) (s : SessionManager) : option SessionProgress :=
  sessions s !! pid ≫= queryProgress.

(** * Goroutines *)

(** A call of CreateSessionWithProtocol, or of ReconnectFlightSession. *)
Record creation := { c_id : Z; c_pid : Z; c_protocol : string; c_reconnect : bool }.

Inductive call_result := Created (pid : Z) | Refused (e : sm_error) | Finished | Drained.

Inductive thread :=
  (** creating a session; [l] is the lease, nil with a local slot *)
  | TAcquire (c : creation)                                   (** before the slot *)
  | TLimiter (c : creation)                                   (** in [limiter.Acquire] *)
  | TLocal (c : creation)                                     (** before the local section *)
  | TWait (c : creation) (w : nat)                            (** in the [select] *)
  | TWorker (c : creation) (l : option nat)                   (** before the worker *)
  | TRpc (c : creation) (l : option nat) (wid : Z)            (** in [worker.CreateSession] *)
  | TRegister (c : creation) (l : option nat) (wid : Z) (token : string) (pid : Z)
  | TUndo (c : creation) (l : option nat)                     (** cleanupUnregisteredWorkerSession *)
  | TRelease (c : creation) (l : option nat) (e : sm_error)   (** the deferred release *)
  | TEnd (c : creation) (r : Z + sm_error)                    (** the deferred endCreation *)
  (** destroying a detached session *)
  | TDestroy (ses : ManagedSession)
  (** handling a crash *)
  | TCrash (wid : Z) (todo : list Z)
  | TCrashClean (wid : Z) (ses : ManagedSession) (todo : list Z)
  (** DestroyAllSessions *)
  | TDrain
  | TDrainSnap
  | TDrainPids (pids : list Z)
  | TDrainDestroy (ses : ManagedSession) (pids : list Z)
  | TDrainLast
  | TDrainWait
  | TDone (r : call_result).

Inductive choice :=
  | Go                                  (** the thread's own next section *)
  | WakeUp                              (** [<-waiter.ready] *)
  | CtxDone (deadline : bool)           (** [<-ctx.Done()] *)
  | LimiterGives (l : option nat)
  | WorkerGives (wid : option Z)        (** AcquireWorker or ReconnectFlightWorker *)
  | RpcGives (token : option string)
  | Visits (pids : list Z).             (** the order a [range] visits the sessions in *)

Definition new_session (c : creation) (l : option nat) (wid : Z) (token : string) (pid : Z) : ManagedSession :=
  {| PID := pid; WorkerID := wid; Protocol := c_protocol c; SessionToken := token; s_dead := false;
     connCloser := None; lease := l; queryProgress := None |}.

(** One step of a creation: acquireConnectionSlot, the worker, createSessionOnWorker
    and the deferred calls. *)
Definition create_next (ch : choice) (t : thread) (s : SessionManager) : option (SessionManager * thread) :=
  match t, ch with
  | TAcquire c, Go =>
      if closed s then Some (s, TEnd c (inr ErrSessionManagerDraining))
      else Some (s, if limiter s then TLimiter c else TLocal c)
  | TLimiter c, LimiterGives None => Some (s, TEnd c (inr ErrLimiter))
  | TLimiter c, LimiterGives (Some l) =>
      (* the lease is given back before the error is returned *)
      if closed s then Some (s, TRelease c (Some l) ErrSessionManagerDraining)
      else Some (s, TWorker c (Some l))
  | TLocal c, Go =>
      match acquire_local s with
      | (GotSlot, s) => Some (s, TWorker c None)
      | (MustWait w, s) => Some (s, TWait c w)
      | (NoSlot e, s) => Some (s, TEnd c (inr e))
      end
  | TWait c w, WakeUp =>
      match heap s !! w with
      | Some x =>
          if ready x then
            match w_err x with
            | Some e => Some (drop_waiter w s, TEnd c (inr e))
            | None => Some (drop_waiter w s, TWorker c None)
            end
          else None
      | None => None
      end
  | TWait c w, CtxDone d =>
      match wait_cancelled w d s with
      | (None, s) => Some (s, TWorker c None)
      | (Some e, s) => Some (s, TEnd c (inr e))
      end
  | TWorker c l, WorkerGives None =>
      Some (s, TRelease c l (if c_reconnect c then ErrReconnect else ErrAcquireWorker))
  | TWorker c l, WorkerGives (Some wid) => Some (s, TRpc c l wid)
  | TRpc c l _, RpcGives None => Some (s, TRelease c l ErrCreateSession)
  | TRpc c l wid, RpcGives (Some token) =>
      let '(pid, s) := if bool_decide (c_pid c = 0) then ReservePID s else (c_pid c, s) in
      Some (s, TRegister c l wid token pid)
  | TRegister c l wid token pid, Go =>
      match register (new_session c l wid token pid) s with
      | Some s => Some (s, TEnd c (inl pid))
      | None => Some (s, TUndo c l)
      end
  | TUndo c l, Go => Some (s, TRelease c l ErrSessionManagerDraining)
  | TRelease c None e, Go => Some (release_local s, TEnd c (inr e))
  | TRelease c (Some _) e, Go => Some (s, TEnd c (inr e))
  | TEnd c r, Go =>
      Some (end_ (c_id c) s, TDone (match r with inl pid => Created pid | inr e => Refused e end))
  | _, _ => None
  end.

(** One step of OnWorkerCrash after its snapshot: a turn of its loop detaches a
    session, closes its executor and connection, gives back its lease and ends the
    cleanup; at the end the worker's entry is deleted. *)
Definition crash_next (ch : choice) (t : thread) (s : SessionManager) : option (SessionManager * thread) :=
  match t, ch with
  | TCrash wid [], Go => Some (crash_forget wid s, TDone Finished)
  | TCrash wid (pid :: todo), Go =>
      match detach_for_cleanup pid s with
      | (Some ses, s) => Some (s, TCrashClean wid ses todo)
      | (None, s) => Some (s, TCrash wid todo)
      end
  | TCrashClean wid _ todo, Go => Some (finishCleanup s, TCrash wid todo)
  | _, _ => None
  end.

(** One step of DestroyAllSessions. *)
Definition drain_next (ch : choice) (t : thread) (s : SessionManager) : option (SessionManager * thread) :=
  match t, ch with
  | TDrain, Go => Some (close s, TDrainSnap)
  | TDrainSnap, Visits pids =>
      if bool_decide (pids ≡ₚ sessionPIDsLocked s)
      then Some (drain_snapshot s, match pids with [] => TDrainLast | _ :: _ => TDrainPids pids end)
      else None
  | TDrainPids [], Go => Some (s, TDrain)
  | TDrainPids (pid :: pids), Go =>
      match detach_for_cleanup pid s with
      | (Some ses, s) => Some (s, TDrainDestroy ses pids)
      | (None, s) => Some (s, TDrainPids pids)
      end
  | TDrainDestroy _ pids, Go => Some (finishCleanup s, TDrainPids pids)
  | TDrainLast, Go => Some (close s, TDrainWait)
  | TDrainWait, Go => if may_return s then Some (s, TDone Drained) else None
  | _, _ => None
  end.

(** The rest of DestroySession after the detachment: the executor is closed, the
    worker's session destroyed, the worker and the lease released, all outside the
    manager, and the cleanup ended. *)
Definition destroy_next (ch : choice) (t : thread) (s : SessionManager) : option (SessionManager * thread) :=
  match t, ch with
  | TDestroy _, Go => Some (finishCleanup s, TDone Finished)
  | _, _ => None
  end.

Definition tnext (ch : choice) (t : thread) (s : SessionManager) : option (SessionManager * thread) :=
  match t with
  | TDestroy _ => destroy_next ch t s
  | TCrash _ _ | TCrashClean _ _ _ => crash_next ch t s
  | TDrain | TDrainSnap | TDrainPids _ | TDrainDestroy _ _ | TDrainLast | TDrainWait => drain_next ch t s
  | _ => create_next ch t s
  end.

(** New calls. [CallCreate] is made with a PID reserved for it, or with 0; a
    reconnection with 0. *)
Inductive call :=
  | CallReservePID
  | CallCreate (pid : Z) (protocol : string) (reconnect : bool)
  | CallDestroy (pid : Z)
  | CallCrash (wid : Z)
  | CallDrain
  | CallSetMaxConnections (n : Z)
  | CallSetConnectionLimiter (l : bool)
  | CallSetConnCloser (pid : Z) (c : nat)
  | CallSetProtocol (pid : Z) (p : string)
  | CallUpdateProgress (wid : Z) (progress : gmap string SessionProgress).

Record system := { mgr : SessionManager; threads : list thread; reserved : list Z }.
Definition sys_init : system := {| mgr := NewSessionManager; threads := []; reserved := [] |}.

Definition start (k : call) (S : system) : option system :=
  let s := mgr S in
  let same s := Some {| mgr := s; threads := threads S; reserved := reserved S |} in
  match k with
  | CallReservePID =>
      let '(pid, s) := ReservePID s in
      Some {| mgr := s; threads := threads S; reserved := pid :: reserved S |}
  | CallCreate pid protocol reconnect =>
      if bool_decide (pid ≠ 0 ∧ (pid ∉ reserved S ∨ reconnect = true)) then None else
      let res := remove_first pid (reserved S) in
      match begin s with
      | (inr e, s) => Some {| mgr := s; threads := TDone (Refused e) :: threads S; reserved := res |}
      | (inl id, s) =>
          let c := {| c_id := id; c_pid := pid; c_protocol := protocol; c_reconnect := reconnect |} in
          Some {| mgr := s; threads := TAcquire c :: threads S; reserved := res |}
      end
  | CallDestroy pid =>
      match detach_for_cleanup pid s with
      | (Some ses, s) => Some {| mgr := s; threads := TDestroy ses :: threads S; reserved := reserved S |}
      | (None, s) => same s
      end
  | CallCrash wid =>
      let '(pids, s) := crash_snapshot wid s in
      Some {| mgr := s; threads := TCrash wid pids :: threads S; reserved := reserved S |}
  | CallDrain => Some {| mgr := s; threads := TDrain :: threads S; reserved := reserved S |}
  | CallSetMaxConnections n => same (SetMaxConnections n s)
  | CallSetConnectionLimiter l => same (SetConnectionLimiter l s)
  | CallSetConnCloser pid c => same (SetConnCloser pid c s)
  | CallSetProtocol pid p => same (SetProtocol pid p s)
  | CallUpdateProgress wid progress => same (UpdateProgress wid progress s)
  end.

Inductive step : system → system → Prop :=
  | step_start k S S' : start k S = Some S' → step S S'
  | step_thread ch t t' ts s' S :
      threads S ≡ₚ t :: ts → tnext ch t (mgr S) = Some (s', t') →
      step S {| mgr := s'; threads := t' :: ts; reserved := reserved S |}.

Definition reachable : system → Prop := rtc step sys_init.

(** * Slots and waiters *)

Definition fresh_waiter : connectionWaiter := {| granted := false; w_err := None; ready := false |}.
Definition granted_waiter : connectionWaiter := {| granted := true; w_err := None; ready := true |}.

(** A waiter is waiting, granted or failed. *)
Inductive waiter_ok : connectionWaiter → Prop :=
  | waiter_fresh : waiter_ok fresh_waiter
  | waiter_granted : waiter_ok granted_waiter
  | waiter_failed e : waiter_ok {| granted := false; w_err := Some e; ready := true |}.

(** The queue holds the waiting waiters, and the slot count is the slots in use
    outside, [out], and the granted waiters nobody has picked up. *)
Definition slots_ok (out : Z) (s : SessionManager) : Prop :=
  NoDup (waiters s)
  ∧ (∀ w, w ∈ waiters s → heap s !! w = Some fresh_waiter)
  ∧ (∀ w x, heap s !! w = Some x → waiter_ok x)
  ∧ activeSlots s = out + mcount granted (heap s).

(** No waiter waits while there is room. *)
Definition served (s : SessionManager) : Prop :=
  closed s = false → waiters s ≠ [] → 0 < maxConnections s ≤ activeSlots s.

(** What a section leaves alone. *)
Definition same_gate (s s' : SessionManager) : Prop :=
  closed s' = closed s ∧ nextID s' = nextID s ∧ active s' = active s ∧ cancels s' = cancels s
  ∧ cancelled s' = cancelled s.
Definition same_sessions (s s' : SessionManager) : Prop :=
  sessions s' = sessions s ∧ byWorker s' = byWorker s ∧ nextPID s' = nextPID s ∧ issued s' = issued s.

Lemma grant_loop_spec max ws : ∀ slots h,
  NoDup ws → (∀ w, w ∈ ws → h !! w = Some fresh_waiter) → (∀ w x, h !! w = Some x → waiter_ok x) →
  let '(slots', ws', h') := grant_loop max slots ws h in
  suffix ws' ws
  ∧ (∀ w, w ∈ ws' → h' !! w = Some fresh_waiter)
  ∧ (∀ w x, h' !! w = Some x → waiter_ok x)
  ∧ slots' - mcount granted h' = slots - mcount granted h
  ∧ (∀ w, is_Some (h' !! w) ↔ is_Some (h !! w))
  ∧ (ws' ≠ [] → 0 < max ≤ slots').
Proof.
  induction ws as [|w ws IH]; intros slots h Hnd Hq Hh; cbn [grant_loop].
  { split_and!; try done; lia. }
  apply NoDup_cons in Hnd as [Hw Hnd]. pose proof (Hq w ltac:(left)) as Hfw.
  destruct (bool_decide (max ≤ 0) || bool_decide (slots < max)) eqn:E.
  - fold granted_waiter. pose proof (mcount_insert granted h w granted_waiter) as Hc. rewrite Hfw in Hc. cbn in Hc.
    specialize (IH (slots + 1) (<[ w := granted_waiter ]> h) Hnd).
    destruct (grant_loop max (slots + 1) ws (<[ w := granted_waiter ]> h)) as [[slots' ws'] h'].
    destruct IH as (H1&H2&H3&H4&H5&H6).
    + intros j Hj. rewrite lookup_insert_ne by (intros ->; done). apply Hq. by right.
    + intros j x Hj. destruct (decide (w = j)) as [<-|]; [rewrite lookup_insert_eq in Hj|].
      * injection Hj as <-. constructor.
      * rewrite lookup_insert_ne in Hj by done. by apply (Hh j).
    + split; [by apply suffix_cons_r|]. split; [done|]. split; [done|]. split; [lia|]. split; [|done].
      intros j. rewrite H5. destruct (decide (w = j)) as [<-|].
      * rewrite lookup_insert_eq. split; eauto.
      * by rewrite lookup_insert_ne.
  - to_prop. split_and!; try done; lia.
Qed.

Lemma grant_spec out s :
  slots_ok out s →
  slots_ok out (grantWaitersLocked s) ∧ served (grantWaitersLocked s)
  ∧ (∀ w, is_Some (heap (grantWaitersLocked s) !! w) ↔ is_Some (heap s !! w))
  ∧ same_gate s (grantWaitersLocked s) ∧ same_sessions s (grantWaitersLocked s)
  ∧ maxConnections (grantWaitersLocked s) = maxConnections s
  ∧ suffix (waiters (grantWaitersLocked s)) (waiters s).
Proof.
  intros (Hnd&Hq&Hh&Hs). unfold grantWaitersLocked. destruct (closed s) eqn:Hc.
  { split_and!; try done. unfold served. congruence. }
  pose proof (grant_loop_spec (maxConnections s) (waiters s) (activeSlots s) (heap s) Hnd Hq Hh) as H.
  destruct (grant_loop _ _ _ _) as [[slots ws] h]. destruct H as (H1&H2&H3&H4&H5&H6).
  split; [|split; [unfold served; cbn; auto|repeat split; (done || apply H5)]].
  split; [|split; [done|split; [done|cbn; lia]]].
  cbn. destruct H1 as [l E]. rewrite E in Hnd. by apply NoDup_app in Hnd as (_&_&?).
Qed.

Lemma remove_first_spec {A} `{EqDecision A} (x : A) l :
  NoDup l → NoDup (remove_first x l) ∧ ∀ y, y ∈ remove_first x l ↔ y ∈ l ∧ y ≠ x.
Proof.
  induction l as [|z l IH]; intros Hnd; cbn [remove_first].
  { split; [done|]. intros y. rewrite elem_of_nil. tauto. }
  apply NoDup_cons in Hnd as [Hz Hnd]. destruct (IH Hnd) as [H1 H2]. case_bool_decide as D.
  - subst z. split; [done|]. intros y. rewrite elem_of_cons. split.
    + intros Hy. split; [by right|]. intros ->. done.
    + intros [[->|?] ?]; done.
  - split.
    + apply NoDup_cons. split; [|done]. rewrite H2. tauto.
    + intros y. rewrite !elem_of_cons, H2. split; [intros [->|[? ?]]; tauto|intros [[->|?] ?]; tauto].
Qed.

Lemma remove_first_perm {A} `{EqDecision A} (x : A) l : x ∈ l → l ≡ₚ x :: remove_first x l.
Proof.
  induction l as [|z l IH]; intros Hx; [by apply elem_of_nil in Hx|]. cbn. case_bool_decide as D; [by subst|].
  apply elem_of_cons in Hx as [->|Hx]; [done|]. rewrite (IH Hx) at 1. apply Permutation_swap.
Qed.

Lemma acquire_local_spec out s :
  slots_ok out s → served s →
  match acquire_local s with
  | (GotSlot, s') => slots_ok (out + 1) s' ∧ served s' ∧ heap s' = heap s
  | (MustWait w, s') =>
      slots_ok out s' ∧ served s' ∧ heap s !! w = None ∧ heap s' = <[ w := fresh_waiter ]> (heap s)
  | (NoSlot _, s') => s' = s
  end
  ∧ same_gate s (acquire_local s).2 ∧ same_sessions s (acquire_local s).2.
Proof.
  intros (Hnd&Hq&Hh&Hs) Hsv. unfold acquire_local, has_room. destruct (closed s) eqn:Hc; [done|].
  destruct (_ || _) eqn:Hr; (split; [|done]).
  - unfold slots_ok. split_and!; [done|done|done|cbn; lia| |done]. intros _ Hne. cbn in *. specialize (Hsv Hc Hne).
    apply orb_true_iff in Hr as [Hr|Hr]; to_prop; lia.
  - set (w := fresh (dom (heap s))).
    assert (heap s !! w = None) as Hw by (apply not_elem_of_dom, is_fresh).
    assert (w ∉ waiters s) as Hwq by (intros Hin; specialize (Hq w Hin); congruence).
    unfold slots_ok. split_and!; cbn; [| | | | |done|done].
    + apply NoDup_app. split; [done|]. split; [|apply NoDup_singleton].
      intros j Hj Hj'. apply list_elem_of_singleton in Hj'. by subst j.
    + intros j Hj. apply elem_of_app in Hj as [Hj|Hj].
      * rewrite lookup_insert_ne; [by apply Hq|]. intros <-. done.
      * apply list_elem_of_singleton in Hj as ->. apply lookup_insert_eq.
    + intros j x Hj. apply lookup_insert_Some in Hj as [[<- <-]|[_ Hj]]; [constructor|by apply (Hh j)].
    + rewrite mcount_insert_fresh by done. cbn. lia.
    + unfold served. cbn. intros _ _. to_prop. lia.
Qed.

Lemma drop_spec out s w x :
  slots_ok out s → served s → heap s !! w = Some x → w ∉ waiters s →
  slots_ok (out + Z.b2z (granted x)) (drop_waiter w s) ∧ served (drop_waiter w s).
Proof.
  intros (Hnd&Hq&Hh&Hs) Hsv Hx Hw. split; [|done]. unfold slots_ok. split_and!; cbn.
  - done.
  - intros j Hj. rewrite lookup_delete_ne; [by apply Hq|]. intros <-. done.
  - intros j y [_ Hj]%lookup_delete_Some. by apply (Hh j).
  - rewrite (mcount_delete granted _ _ _ Hx). lia.
Qed.

(** Leaving the wait: woken up or cancelled. *)
Lemma wake_spec out s w x :
  slots_ok out s → served s → heap s !! w = Some x → ready x = true →
  slots_ok (out + Z.b2z (bool_decide (w_err x = None))) (drop_waiter w s) ∧ served (drop_waiter w s).
Proof.
  intros Hok Hsv Hx Hr.
  assert (w ∉ waiters s) as Hw.
  { intros Hin. destruct Hok as (_&Hq&_). specialize (Hq w Hin). rewrite Hx in Hq. by injection Hq as ->. }
  destruct (drop_spec out s w x Hok Hsv Hx Hw) as [H1 H2]. split; [|done].
  destruct Hok as (_&_&Hh&_). by destruct (Hh w x Hx).
Qed.

Lemma cancel_spec out s w x d :
  slots_ok out s → served s → heap s !! w = Some x →
  let r := wait_cancelled w d s in
  slots_ok (out + Z.b2z (bool_decide (r.1 = None))) r.2 ∧ served r.2 ∧ heap r.2 = delete w (heap s)
  ∧ same_gate s r.2 ∧ same_sessions s r.2.
Proof.
  intros Hok Hsv Hx r. subst r. unfold wait_cancelled. rewrite Hx. destruct (granted x) eqn:Hg.
  - assert (w ∉ waiters s) as Hw.
    { intros Hin. destruct Hok as (_&Hq&_). specialize (Hq w Hin). rewrite Hx in Hq. injection Hq as ->. done. }
    destruct (drop_spec out s w x Hok Hsv Hx Hw) as [H1 H2]. rewrite Hg in H1. done.
  - destruct Hok as (Hnd&Hq&Hh&Hs). destruct (remove_first_spec w (waiters s) Hnd) as [R1 R2].
    destruct (drop_spec out (removeWaiterLocked w s) w x) as [H1 H2].
    + unfold slots_ok. split_and!; cbn; [done| |done|done]. intros j Hj. apply R2 in Hj as [Hj _]. by apply Hq.
    + intros Hc Hne. cbn in *. apply Hsv; [done|]. intros E. by rewrite E in Hne.
    + done.
    + cbn. rewrite R2. tauto.
    + rewrite Hg in H1. by destruct d.
Qed.

Lemma release_spec out s :
  slots_ok out s → 0 < out →
  slots_ok (out - 1) (release_local s) ∧ served (release_local s)
  ∧ (∀ w, is_Some (heap (release_local s) !! w) ↔ is_Some (heap s !! w))
  ∧ same_gate s (release_local s) ∧ same_sessions s (release_local s).
Proof.
  intros (Hnd&Hq&Hh&Hs) Hout. pose proof (mcount_nonneg granted (heap s)).
  unfold release_local. rewrite bool_decide_eq_true_2 by lia.
  destruct (grant_spec (out - 1) (with_slots (activeSlots s - 1) (waiters s) (heap s) s)) as (H1&H2&H3&H4&H5&_).
  - unfold slots_ok. split_and!; [done|done|done|cbn; lia].
  - split_and!; done.
Qed.

(** Sessions on a local slot. *)
Definition on_local_slot (ses : ManagedSession) : bool := bool_decide (lease ses = None).

Lemma detach_spec out s pid ses :
  sessions s !! pid = Some ses → 0 ≤ out → slots_ok (out + mcount on_local_slot (sessions s)) s →
  let s' := (detachSessionLocked pid s).2 in
  (detachSessionLocked pid s).1 = Some ses
  ∧ slots_ok (out + mcount on_local_slot (sessions s')) s' ∧ served s'
  ∧ (∀ w, is_Some (heap s' !! w) ↔ is_Some (heap s !! w))
  ∧ same_gate s s' ∧ sessions s' = delete pid (sessions s) ∧ nextPID s' = nextPID s ∧ issued s' = issued s
  ∧ suffix (waiters s') (waiters s).
Proof.
  intros Hp Hout (Hnd&Hq&Hh&Hs) s'. subst s'. unfold detachSessionLocked. rewrite Hp. cbn [fst snd].
  set (s1 := removeSessionFromWorkerLocked _ _ _).
  set (s2 := with_slots _ _ _ s1).
  pose proof (mcount_delete on_local_slot _ _ _ Hp) as Hd.
  assert (sessions s2 = delete pid (sessions s)) as Es by done.
  pose proof (mcount_nonneg granted (heap s)). pose proof (mcount_nonneg on_local_slot (delete pid (sessions s))).
  destruct (grant_spec (out + mcount on_local_slot (delete pid (sessions s))) s2) as (H1&H2&H3&H4&H5&_&H7).
  - unfold slots_ok. split_and!; [done|done|done|]. cbn. unfold on_local_slot in Hd at 3. 
    destruct (decide (lease ses = None)) as [E|E].
    + rewrite bool_decide_eq_true_2 in Hd |- * by done. cbn in *. rewrite bool_decide_eq_true_2 by lia. lia.
    + rewrite bool_decide_eq_false_2 in Hd |- * by done. cbn in *. lia.
  - destruct H5 as (E1&E2&E3&E4). rewrite E1, Es. split_and!; done.
Qed.

Lemma slots_ok_frame out s s' :
  waiters s' = waiters s → heap s' = heap s → activeSlots s' = activeSlots s → slots_ok out s → slots_ok out s'.
Proof. unfold slots_ok. by intros -> -> ->. Qed.

Lemma slots_ok_eq out out' s : slots_ok out s → out = out' → slots_ok out' s.
Proof. by intros H <-. Qed.

Lemma served_frame s s' :
  closed s' = closed s → waiters s' = waiters s → maxConnections s' = maxConnections s →
  activeSlots s' = activeSlots s → served s → served s'.
Proof. unfold served. by intros -> -> -> ->. Qed.

Lemma fail_waiters_spec e s out :
  slots_ok out s →
  slots_ok out (failWaitersLocked e s) ∧ served (failWaitersLocked e s)
  ∧ ∀ w, is_Some (heap (failWaitersLocked e s) !! w) ↔ is_Some (heap s !! w).
Proof.
  intros (Hnd&Hq&Hh&Hs).
  assert (∀ ws h, NoDup ws → (∀ w, w ∈ ws → h !! w = Some fresh_waiter) → (∀ w x, h !! w = Some x → waiter_ok x) →
    (∀ w x, foldl (fail_waiter e) h ws !! w = Some x → waiter_ok x)
    ∧ mcount granted (foldl (fail_waiter e) h ws) = mcount granted h
    ∧ ∀ w, is_Some (foldl (fail_waiter e) h ws !! w) ↔ is_Some (h !! w)) as H.
  { clear. induction ws as [|w ws IH]; intros h Hnd Hq Hh; [done|]. cbn [foldl].
    apply NoDup_cons in Hnd as [Hw Hnd]. pose proof (Hq w ltac:(left)) as Hf.
    unfold fail_waiter at 2 4 6. rewrite Hf. cbn [granted fresh_waiter].
    set (x := {| granted := false; w_err := Some e; ready := true |}).
    destruct (IH (<[ w := x ]> h) Hnd) as (H1&H2&H3).
    - intros j Hj. rewrite lookup_insert_ne by (intros ->; done). apply Hq. by right.
    - intros j y [[<- <-]|[_ Hj]]%lookup_insert_Some; [constructor|by apply (Hh j)].
    - split; [done|]. split; [rewrite H2; by eapply mcount_update|].
      intros j. rewrite H3, lookup_insert_is_Some. destruct (decide (w = j)) as [<-|]; [rewrite Hf; split; eauto|tauto]. }
  destruct (H (waiters s) (heap s) Hnd Hq Hh) as (H1&H2&H3). split; [|split; [|done]].
  - unfold slots_ok. split_and!; [apply NoDup_nil_2|by intros w Hw%elem_of_nil|done|cbn; lia].
  - intros _ Hne. done.
Qed.

(** A map of sessions that differs only in labels. *)
Definition relabelled (ss ss' : gmap Z ManagedSession) : Prop :=
  (∀ p, is_Some (ss' !! p) ↔ is_Some (ss !! p)) ∧ mcount on_local_slot ss' = mcount on_local_slot ss.

#[export] Instance relabelled_preorder : PreOrder relabelled.
Proof.
  split; [done|]. intros a b c [H1 H2] [H3 H4]. split; [intros p; by rewrite H3|congruence].
Qed.

Lemma alter_relabelled f pid ss : (∀ ses, lease (f ses) = lease ses) → relabelled ss (alter f pid ss).
Proof.
  intros Hf. split; [apply lookup_alter_is_Some|]. destruct (ss !! pid) as [ses|] eqn:E.
  - assert (alter f pid ss = <[ pid := f ses ]> ss) as ->.
    { apply map_eq. intros j. destruct (decide (pid = j)) as [<-|].
      - by rewrite lookup_alter_eq, lookup_insert_eq, E.
      - by rewrite lookup_alter_ne, lookup_insert_ne. }
    apply (mcount_update _ _ _ _ ses E). unfold on_local_slot. by rewrite Hf.
  - by rewrite alter_id by (intros x Hx; congruence).
Qed.

Lemma fold_relabelled {A} (g : gmap Z ManagedSession → A → gmap Z ManagedSession) l : ∀ ss,
  (∀ ss x, relabelled ss (g ss x)) → relabelled ss (foldl g ss l).
Proof.
  induction l as [|x l IH]; intros ss H; [done|]. cbn. etransitivity; [apply H|]. by apply IH.
Qed.

Lemma crash_snapshot_relabels wid s : relabelled (sessions s) (sessions (crash_snapshot wid s).2).
Proof. apply fold_relabelled. intros ss p. by apply alter_relabelled. Qed.

Lemma update_progress_relabels wid progress s :
  relabelled (sessions s) (sessions (UpdateProgress wid progress s))
  ∧ with_sessions ∅ ∅ (UpdateProgress wid progress s) = with_sessions ∅ ∅ s.
Proof.
  unfold UpdateProgress. generalize (pids_of wid s). intros l. revert s.
  induction l as [|p l IH]; intros s; [done|]. cbn. destruct (IH (update_session (set_progress progress) p s)) as [H1 H2].
  split; [|by rewrite H2]. etransitivity; [|exact H1]. apply alter_relabelled.
  intros ses. unfold set_progress. by destruct (progress !! _).
Qed.

(** * The invariant *)

(** The local slot a thread holds. *)
Definition hold (t : thread) : Z :=
  match t with
  | TWorker _ None | TRpc _ None _ | TRegister _ None _ _ _ | TUndo _ None | TRelease _ None _ => 1
  | _ => 0
  end.
(** The waiter a thread owns. *)
Definition waits (t : thread) : option nat := match t with TWait _ w => Some w | _ => None end.
(** Whether the lifecycle gate counts it. *)
Definition working (t : thread) : Z :=
  match t with
  | TAcquire _ | TLimiter _ | TLocal _ | TWait _ _ | TWorker _ _ | TRpc _ _ _ | TRegister _ _ _ _ _
  | TUndo _ _ | TRelease _ _ _ | TEnd _ _ | TDestroy _ | TCrashClean _ _ _ | TDrainDestroy _ _ => 1
  | _ => 0
  end.
(** The PID it may still register a session under. *)
Definition claims (t : thread) : list Z :=
  match t with
  | TAcquire c | TLimiter c | TLocal c | TWait c _ | TWorker c _ | TRpc c _ _ =>
      if bool_decide (c_pid c = 0) then [] else [c_pid c]
  | TRegister _ _ _ _ pid => [pid]
  | _ => []
  end.

Definition slots_inv (s : SessionManager) (ts : list thread) : Prop :=
  slots_ok (zsum (hold <$> ts) + mcount on_local_slot (sessions s)) s ∧ served s.
Definition waits_inv (s : SessionManager) (ts : list thread) : Prop :=
  NoDup (omap waits ts) ∧ ∀ w, w ∈ omap waits ts ↔ is_Some (heap s !! w).
Definition gate_inv (s : SessionManager) (ts : list thread) : Prop := active s = zsum (working <$> ts).
Definition pids_inv (s : SessionManager) (ts : list thread) (res : list Z) : Prop :=
  nextPID s = 1000 + issued s ∧ 0 ≤ issued s
  ∧ NoDup (keys (sessions s) ++ concat (claims <$> ts) ++ res)
  ∧ Forall (λ p, 1000 < p ≤ 1000 + issued s) (keys (sessions s) ++ concat (claims <$> ts) ++ res).
(** How far a drain has got. *)
Definition drain_ok (s : SessionManager) (t : thread) : Prop :=
  match t with
  | TDrainSnap | TDrainPids _ | TDrainDestroy _ _ => closed s = true
  | TDrainLast | TDrainWait => closed s = true ∧ sessions s = ∅ ∧ waiters s = []
  | TDone Drained => closed s = true ∧ sessions s = ∅ ∧ waiters s = [] ∧ active s = 0
  | _ => True
  end.

Lemma hold_nonneg t : 0 ≤ hold t.
Proof. destruct t; cbn; break_matches; lia. Qed.
Lemma working_nonneg t : 0 ≤ working t.
Proof. destruct t; cbn; lia. Qed.

(** A heap in which one thread's waiter has changed. *)
Definition heap_moves (s s' : SessionManager) (t t' : thread) : Prop :=
  (∀ w, is_Some (heap s' !! w) ↔ waits t' = Some w ∨ is_Some (heap s !! w) ∧ waits t ≠ Some w)
  ∧ (∀ w, waits t' = Some w → heap s !! w = None).

Lemma heap_still s s' t t' :
  waits t = None → waits t' = None → (∀ w, is_Some (heap s' !! w) ↔ is_Some (heap s !! w)) → heap_moves s s' t t'.
Proof. intros E E' H. split; [|by rewrite E']. intros w. rewrite E, E', H. split; [by right|by intros [|[? _]]]. Qed.

Lemma heap_dropped s s' t t' w :
  waits t = Some w → waits t' = None → heap s' = delete w (heap s) → heap_moves s s' t t'.
Proof.
  intros E E' H. split; [|by rewrite E']. intros j. rewrite E, E', H, lookup_delete_is_Some.
  split; [intros [? ?]; right; split; congruence|intros [|[? ?]]; [done|split; congruence]].
Qed.

(** What a step of one thread does to the slots, [out] being held elsewhere. *)
Definition slots_step (s s' : SessionManager) (t t' : thread) (out : Z) : Prop :=
  slots_ok (hold t' + out + mcount on_local_slot (sessions s')) s' ∧ served s' ∧ heap_moves s s' t t'.

Lemma slots_step_frame s s' t t' out :
  slots_ok (hold t + out + mcount on_local_slot (sessions s)) s → served s →
  hold t' = hold t → waits t = None → waits t' = None →
  waiters s' = waiters s → heap s' = heap s → activeSlots s' = activeSlots s →
  maxConnections s' = maxConnections s → (closed s = true → closed s' = true) →
  relabelled (sessions s) (sessions s') → slots_step s s' t t' out.
Proof.
  intros Hok Hsv Hh Hw Hw' E1 E2 E3 E4 E5 [_ E6]. split_and!.
  - rewrite Hh, E6. by apply (slots_ok_frame _ s).
  - unfold served in *. rewrite E1, E3, E4. intros Hc Hne. apply Hsv; [|done].
    destruct (closed s); [|done]. rewrite E5 in Hc by done. done.
  - apply heap_still; [done..|]. by rewrite E2.
Qed.

Ltac frame :=
  apply slots_step_frame;
  solve [done | congruence | exact (reflexivity (R := relabelled) _)
        | match goal with l : option nat |- _ => by destruct l end].

Lemma detach_step s t t' out pid :
  slots_ok (hold t + out + mcount on_local_slot (sessions s)) s → served s → 0 ≤ out →
  hold t = 0 → hold t' = 0 → waits t = None → waits t' = None →
  slots_step s (detach_for_cleanup pid s).2 t t' out.
Proof.
  intros Hok Hsv Hout Hh Hh' Hw Hw'. unfold detach_for_cleanup. destruct (sessions s !! pid) as [ses|] eqn:E.
  - rewrite Hh, Z.add_0_l in Hok. destruct (detach_spec out s pid ses E Hout Hok) as (E1&H1&H2&H3&_).
    destruct (detachSessionLocked pid s) as [o s']. cbn in *. subst o. cbn. split_and!.
    + rewrite Hh', Z.add_0_l. done.
    + done.
    + by apply heap_still.
  - assert (detachSessionLocked pid s = (None, s)) as -> by (unfold detachSessionLocked; by rewrite E).
    cbn. frame.
Qed.

Lemma register_step s s' c l wid tok pid t' out :
  slots_ok (hold (TRegister c l wid tok pid) + out + mcount on_local_slot (sessions s)) s → served s →
  sessions s !! pid = None → register (new_session c l wid tok pid) s = Some s' →
  hold t' = 0 → waits t' = None → slots_step s s' (TRegister c l wid tok pid) t' out.
Proof.
  intros Hok Hsv Hf Hr Hh Hw. unfold register in Hr. destruct (closed s); [done|]. injection Hr as <-. split_and!.
  - rewrite Hh. cbn [sessions with_sessions new_session PID]. rewrite mcount_insert_fresh by done.
    assert (hold (TRegister c l wid tok pid) = Z.b2z (on_local_slot (new_session c l wid tok pid))) as E
      by (by destruct l).
    rewrite E in Hok. apply (slots_ok_frame _ s); try done. eapply slots_ok_eq; [done|lia].
  - by apply (served_frame s).
  - by apply heap_still.
Qed.

Lemma local_slots c s s' t' out :
  create_next Go (TLocal c) s = Some (s', t') →
  slots_ok (0 + out + mcount on_local_slot (sessions s)) s → served s → slots_step s s' (TLocal c) t' out.
Proof.
  intros E Hok Hsv. cbn [create_next] in E.
  destruct (acquire_local_spec _ s Hok Hsv) as (H&_&(Es&_)). destruct (acquire_local s) as [[|w|e] s1]; cbn in Es.
  - injection E as <- <-. destruct H as (H1&H2&H3). split_and!; [|done|apply heap_still; [done..|by rewrite H3]].
    rewrite Es. eapply slots_ok_eq; [exact H1|]. cbn [hold]. lia.
  - injection E as <- <-. destruct H as (H1&H2&H3&H4). split_and!; [by rewrite Es|done|]. split; cbn [waits].
    + intros j. rewrite H4, lookup_insert_is_Some. split; [intros [->|[? ?]]; auto|intros [[= ->]|[? _]]]; [by left|].
      destruct (decide (w = j)); auto.
    + intros j [= <-]. done.
  - subst s1. injection E as <- <-. frame.
Qed.

Lemma wait_slots ch c w s s' t' out :
  create_next ch (TWait c w) s = Some (s', t') →
  slots_ok (0 + out + mcount on_local_slot (sessions s)) s → served s → is_Some (heap s !! w) →
  slots_step s s' (TWait c w) t' out.
Proof.
  intros E Hok Hsv [x Hx]. destruct ch; try discriminate E; cbn [create_next] in E.
  - rewrite Hx in E. destruct (ready x) eqn:Hr; [|done]. destruct (wake_spec _ s w x Hok Hsv Hx Hr) as [H1 H2].
    destruct (w_err x); simplify_eq; (split_and!; [|done|by eapply heap_dropped]).
    all: eapply slots_ok_eq; [exact H1|]; cbn; lia.
  - destruct (cancel_spec _ s w x deadline Hok Hsv Hx) as (H1&H2&H3&_&(H4&_)).
    destruct (wait_cancelled w deadline s) as [[e|] s1]; cbn in *; simplify_eq;
      (split_and!; [|done|by eapply heap_dropped]); rewrite H4.
    all: eapply slots_ok_eq; [exact H1|]; cbn; lia.
Qed.

Lemma create_slots ch t s s' t' out :
  create_next ch t s = Some (s', t') → 0 ≤ out →
  slots_ok (hold t + out + mcount on_local_slot (sessions s)) s → served s →
  (∀ w, waits t = Some w → is_Some (heap s !! w)) →
  (∀ c l wid tok pid, t = TRegister c l wid tok pid → sessions s !! pid = None) →
  slots_step s s' t t' out.
Proof.
  intros E Hout Hok Hsv Hw Hf. destruct t; cbn [create_next] in E; try discriminate E.
  4: { eapply wait_slots; eauto. }
  all: destruct ch; try discriminate E; try (destruct l; discriminate E).
  3: { by eapply local_slots. }
  - destruct (closed s); [|destruct (limiter s)]; simplify_eq; frame.
  - destruct l as [l|]; [destruct (closed s)|]; simplify_eq; frame.
  - destruct wid as [wid|]; simplify_eq; frame.
  - destruct token as [tok|]; [destruct (bool_decide _); unfold ReservePID in E|]; simplify_eq/=; frame.
  - destruct (register _ s) as [s1|] eqn:Hr; simplify_eq.
    + eapply register_step; eauto.
    + frame.
  - simplify_eq. frame.
  - destruct l as [l|]; simplify_eq; [frame|].
    destruct (release_spec _ s Hok) as (H1&H2&H3&_&(H4&_)).
    { pose proof (mcount_nonneg on_local_slot (sessions s)). cbn. lia. }
    split_and!; [|done|by apply heap_still]. rewrite H4. eapply slots_ok_eq; [exact H1|]. cbn. lia.
  - simplify_eq. frame.
Qed.

Lemma tnext_slots ch t s s' t' out :
  tnext ch t s = Some (s', t') → 0 ≤ out →
  slots_ok (hold t + out + mcount on_local_slot (sessions s)) s → served s →
  (∀ w, waits t = Some w → is_Some (heap s !! w)) →
  (∀ c l wid tok pid, t = TRegister c l wid tok pid → sessions s !! pid = None) →
  slots_step s s' t t' out.
Proof.
  intros E Hout Hok Hsv Hw Hf. destruct t; try (by eapply (create_slots ch)).
  all: destruct ch; cbn [tnext destroy_next crash_next drain_next create_next] in E; try (destruct todo); try (destruct pids); try discriminate E.
  all: repeat match type of E with
       | context [detach_for_cleanup ?pid ?x] =>
           pose proof (λ t t', detach_step x t t' out pid) as Hd; destruct (detach_for_cleanup pid x) as [[?|] ?]
       | context [bool_decide ?P] => destruct (bool_decide P)
       | context [may_return ?x] => destruct (may_return x)
       end; simplify_eq.
  all: try (by apply Hd). all: try (frame).
  all: destruct (fail_waiters_spec ErrSessionManagerDraining s _ Hok) as (H1&H2&H3); split_and!; [done|done|by apply heap_still].
Qed.

(** ** The lifecycle gate *)

Lemma grant_gate s : closed (grantWaitersLocked s) = closed s ∧ active (grantWaitersLocked s) = active s.
Proof.
  unfold grantWaitersLocked. destruct (closed s) eqn:E; [done|]. by destruct (grant_loop _ _ _ _) as [[? ?] ?].
Qed.

Lemma detach_gate pid s :
  closed (detach_for_cleanup pid s).2 = closed s
  ∧ active (detach_for_cleanup pid s).2
    = active s + (match (detach_for_cleanup pid s).1 with Some _ => 1 | None => 0 end).
Proof.
  unfold detach_for_cleanup, detachSessionLocked.
  destruct (sessions s !! pid) as [ses|]; [|cbn; split; [done|lia]].
  match goal with |- context [grantWaitersLocked ?x] => destruct (grant_gate x) as [E1 E2] end.
  cbn in E1, E2. cbn. by rewrite E1, E2.
Qed.

(** Splits a step of a thread into its cases. *)
Ltac step_cases E :=
  repeat match type of E with
  | context [match ?x with _ => _ end] =>
      lazymatch x with
      | context [match _ with _ => _ end] => fail
      | _ => destruct x eqn:?
      end
  end; simplify_eq/=.

Lemma create_gate ch t s s' t' :
  create_next ch t s = Some (s', t') →
  closed s' = closed s ∧ active s' - working t' = active s - working t.
Proof.
  intros E. unfold create_next, acquire_local, wait_cancelled, register, ReservePID in E.
  destruct t; step_cases E; try done.
  all: try (split; [done|cbn; lia]).
  unfold release_local. match goal with |- context [grantWaitersLocked ?x] => destruct (grant_gate x) as [-> ->] end.
  split; [done|cbn; lia].
Qed.

Lemma tnext_gate ch t s s' t' :
  tnext ch t s = Some (s', t') →
  (closed s = true → closed s' = true) ∧ active s' - working t' = active s - working t.
Proof.
  intros E. destruct t; try (destruct (create_gate ch _ s s' t' E) as [-> ?]; done).
  all: destruct ch; cbn [tnext destroy_next crash_next drain_next create_next] in E; try (destruct todo); try (destruct pids); try discriminate E.
  all: try match type of E with
       | context [detach_for_cleanup ?pid ?x] =>
           destruct (detach_gate pid x) as [Hc Ha]; destruct (detach_for_cleanup pid x) as [[?|] ?]; cbn in Hc, Ha
       end; step_cases E; try (split; [congruence|cbn; lia]).
Qed.

Lemma grant_closed s : closed s = true → grantWaitersLocked s = s.
Proof. intros E. unfold grantWaitersLocked. by rewrite E. Qed.

(** Once closed, no session and no waiter is added, and no new work is begun for
    an empty manager. *)
Lemma create_closed ch t s s' t' :
  create_next ch t s = Some (s', t') → closed s = true →
  sessions s' = sessions s ∧ (waiters s = [] → waiters s' = []) ∧ working t' ≤ working t.
Proof.
  intros E Hc. unfold create_next, acquire_local, wait_cancelled, register, ReservePID, release_local in E.
  rewrite ?Hc, grant_closed in E by done. destruct t; step_cases E; try done.
  all: split; [done|]; split; [|cbn; lia]; try done. all: intros Ew; cbn; by rewrite Ew.
Qed.

Lemma detach_closed pid s :
  closed s = true →
  waiters (detach_for_cleanup pid s).2 = waiters s
  ∧ (sessions s = ∅ → detach_for_cleanup pid s = (None, s)).
Proof.
  intros Hc. unfold detach_for_cleanup, detachSessionLocked. split.
  - destruct (sessions s !! pid); [|done]. by rewrite grant_closed.
  - intros E. by rewrite E, lookup_empty.
Qed.

Lemma tnext_closed ch t s s' t' :
  tnext ch t s = Some (s', t') → closed s = true →
  (sessions s = ∅ → sessions s' = ∅ ∧ working t' ≤ working t) ∧ (waiters s = [] → waiters s' = []).
Proof.
  intros E Hc. destruct t; try (destruct (create_closed ch _ s s' t' E Hc) as (->&?&?); done).
  all: destruct ch; cbn [tnext destroy_next crash_next drain_next create_next] in E; try (destruct todo); try (destruct pids); try discriminate E.
  all: try match type of E with
       | context [detach_for_cleanup ?pid ?x] =>
           destruct (detach_closed pid x Hc) as [H1 H2]; destruct (detach_for_cleanup pid x) as [[?|] ?]; cbn in H1
       end; step_cases E; (split; [intros He|congruence || done]).
  all: try (specialize (H2 He); simplify_eq; done). all: try (split; [done|cbn; lia]).
Qed.

(** A drain's own progress. *)
Lemma tnext_drain ch t s s' t' :
  tnext ch t s = Some (s', t') → 0 ≤ active s → drain_ok s t → drain_ok s' t'.
Proof.
  intros E Ha Hd. destruct t.
  11-19: destruct ch; cbn [tnext destroy_next crash_next drain_next create_next] in E; try (destruct todo); try (destruct pids); try discriminate E.
  all: try match type of E with
       | context [detach_for_cleanup ?pid ?x] =>
           destruct (detach_gate pid x) as [Hc _]; destruct (detach_for_cleanup pid x) as [[?|] ?]; cbn in Hc
       end.
  all: cbn [tnext] in E; unfold create_next, acquire_local, wait_cancelled, register, ReservePID in E.
  all: step_cases E; try done; try congruence; try tauto.
  - to_prop. split; [done|]. split; [|done]. apply keys_nil. by symmetry.
  - unfold may_return in *. to_prop. split_and!; try tauto. lia.
Qed.

(** ** PIDs *)

Definition pids_list (s : SessionManager) (ts : list thread) (res : list Z) : list Z :=
  keys (sessions s) ++ concat (claims <$> ts) ++ res.

Lemma NoDup_sub {A} (l k : list A) : l ⊆+ k → NoDup k → NoDup l.
Proof.
  intros Hs Hk. apply submseteq_Permutation in Hs as [r Hr]. rewrite Hr in Hk. by apply NoDup_app in Hk as [? _].
Qed.

Lemma pids_sub s s' ts ts' res res' :
  pids_inv s ts res → nextPID s' = nextPID s → issued s' = issued s →
  pids_list s' ts' res' ⊆+ pids_list s ts res → pids_inv s' ts' res'.
Proof.
  intros (Hn&Hi&Hd&Hf) En Ei Hs. unfold pids_inv. rewrite En, Ei. fold (pids_list s ts res) in Hd, Hf.
  split_and!; [done|done|by eapply NoDup_sub|]. rewrite Forall_forall in Hf |- *.
  intros p Hp. apply Hf. by eapply elem_of_submseteq.
Qed.

(** A new PID differs from all in use, before the counter wraps. *)
Lemma pids_new s s' ts ts' res res' :
  pids_inv s ts res → issued s' = issued s + 1 → issued s' < 2 ^ 31 - 1000 →
  nextPID s' = wrap_s 32 (nextPID s + 1) →
  pids_list s' ts' res' ≡ₚ nextPID s' :: pids_list s ts res → pids_inv s' ts' res'.
Proof.
  intros (Hn&Hi&Hd&Hf) Ei Hlt En Hp. fold (pids_list s ts res) in Hd, Hf.
  rewrite wrap_s_small in En by (unfold in_s; lia).
  unfold pids_inv. fold (pids_list s' ts' res'). rewrite Hp. split_and!; [lia|lia| |].
  - apply NoDup_cons. split; [|done]. intros Hin. rewrite Forall_forall in Hf. specialize (Hf _ Hin). lia.
  - apply Forall_cons. split; [lia|]. eapply Forall_impl; [exact Hf|]. cbn. lia.
Qed.

Lemma pids_list_cons s t ts res :
  pids_list s (t :: ts) res = keys (sessions s) ++ (claims t ++ concat (claims <$> ts)) ++ res.
Proof. done. Qed.

Lemma pids_list_le s s' t t' ts res :
  keys (sessions s') ⊆+ keys (sessions s) → claims t' ⊆+ claims t →
  pids_list s' (t' :: ts) res ⊆+ pids_list s (t :: ts) res.
Proof.
  intros H1 H2. rewrite !pids_list_cons. apply submseteq_app; [done|].
  apply submseteq_skips_r, submseteq_skips_r. done.
Qed.

Lemma detach_pids pid s :
  keys (sessions (detach_for_cleanup pid s).2) ⊆+ keys (sessions s)
  ∧ nextPID (detach_for_cleanup pid s).2 = nextPID s ∧ issued (detach_for_cleanup pid s).2 = issued s.
Proof.
  unfold detach_for_cleanup, detachSessionLocked. destruct (sessions s !! pid) as [ses|] eqn:E; [|done].
  set (s1 := with_slots _ _ _ _). 
  assert (sessions s1 = delete pid (sessions s)) as Es by done.
  assert (sessions (grantWaitersLocked s1) = sessions s1 ∧ nextPID (grantWaitersLocked s1) = nextPID s1
          ∧ issued (grantWaitersLocked s1) = issued s1) as (E1&E2&E3).
  { unfold grantWaitersLocked. destruct (closed s1); [done|]. by destruct (grant_loop _ _ _ _) as [[? ?] ?]. }
  cbn [snd beginCleanup with_gate sessions nextPID issued]. rewrite E1, E2, E3, Es. split; [|done].
  rewrite (keys_delete _ _ _ E). by apply submseteq_cons.
Qed.

Lemma register_pids s s' c l wid tok pid t' ts res :
  pids_inv s (TRegister c l wid tok pid :: ts) res →
  register (new_session c l wid tok pid) s = Some s' → claims t' = [] → pids_inv s' (t' :: ts) res.
Proof.
  intros Hp Hr Ht. unfold register in Hr. destruct (closed s); [done|]. injection Hr as <-.
  assert (sessions s !! pid = None) as Hf.
  { destruct Hp as (_&_&Hd&_). fold (pids_list s (TRegister c l wid tok pid :: ts) res) in Hd.
    rewrite pids_list_cons in Hd. apply NoDup_app in Hd as (_&Hd&_). apply eq_None_not_Some. intros Hs.
    apply elem_of_keys in Hs. apply (Hd pid Hs). cbn. left. }
  eapply pids_sub; [done|done|done|]. rewrite !pids_list_cons, Ht. cbn [claims app sessions with_sessions new_session PID].
  rewrite keys_insert by done. cbn. by rewrite Permutation_middle.
Qed.

(** Every other step keeps the PIDs in use. *)
Lemma pids_frame s s' t t' ts res :
  pids_inv s (t :: ts) res → relabelled (sessions s) (sessions s') → nextPID s' = nextPID s → issued s' = issued s →
  claims t' ⊆+ claims t → pids_inv s' (t' :: ts) res.
Proof.
  intros Hp [H _] E2 E3 E4. eapply pids_sub; [done..|]. apply pids_list_le; [|done].
  rewrite (keys_same (sessions s') (sessions s)); [done|]. intros p. by rewrite H.
Qed.

Lemma grant_pids s :
  sessions (grantWaitersLocked s) = sessions s ∧ nextPID (grantWaitersLocked s) = nextPID s
  ∧ issued (grantWaitersLocked s) = issued s.
Proof.
  unfold grantWaitersLocked. destruct (closed s); [done|]. by destruct (grant_loop _ _ _ _) as [[? ?] ?].
Qed.

Ltac keeps_pids :=
  eapply pids_frame; [eassumption|exact (reflexivity (R := relabelled) _)|done|done|];
  cbn [claims]; first [done | apply submseteq_nil_l].

Lemma create_pids ch t s s' t' ts res :
  create_next ch t s = Some (s', t') → issued s' < 2 ^ 31 - 1000 →
  pids_inv s (t :: ts) res → pids_inv s' (t' :: ts) res.
Proof.
  intros E Hlt Hp. destruct t; cbn [create_next] in E; unfold acquire_local, wait_cancelled in E.
  all: try discriminate E.
  6: { destruct ch; try discriminate E. destruct token as [tok|]; [|injection E as <- <-; keeps_pids].
       case_bool_decide as Hz; unfold ReservePID in E; injection E as <- <-.
       - eapply pids_new; [exact Hp|done|exact Hlt|done|]. rewrite !pids_list_cons. cbn [claims sessions nextPID].
         rewrite (bool_decide_eq_true_2 (c_pid c = 0)) by done. cbn [app]. symmetry. apply Permutation_middle.
       - eapply pids_frame; [exact Hp|done..|]. cbn [claims]. by rewrite bool_decide_eq_false_2. }
  6: { destruct ch; try discriminate E. destruct (register _ s) as [s1|] eqn:Hr; injection E as <- <-; [|keeps_pids].
       by eapply register_pids. }
  7: { destruct ch; try (destruct l; discriminate E). destruct l as [l|]; injection E as <- <-; [keeps_pids|].
       unfold release_local. match goal with |- context [grantWaitersLocked ?x] => destruct (grant_pids x) as (E1&E2&E3) end.
       eapply pids_frame; [exact Hp|by rewrite E1|by rewrite E2|by rewrite E3|done]. }
  all: step_cases E; try done; keeps_pids.
Qed.

Lemma tnext_pids ch t s s' t' ts res :
  tnext ch t s = Some (s', t') → issued s' < 2 ^ 31 - 1000 →
  pids_inv s (t :: ts) res → pids_inv s' (t' :: ts) res.
Proof.
  intros E Hlt Hp. destruct t; try (exact (create_pids ch _ s s' t' ts res E Hlt Hp)).
  all: destruct ch; cbn [tnext destroy_next crash_next drain_next create_next] in E; try (destruct todo); try (destruct pids); try discriminate E.
  all: try match type of E with
       | context [detach_for_cleanup ?pid ?x] =>
           destruct (detach_pids pid x) as (H1&H2&H3); destruct (detach_for_cleanup pid x) as [[?|] ?]; cbn in H1, H2, H3
       end; step_cases E.
  all: try (eapply pids_sub; [exact Hp|done|done|by apply pids_list_le]). all: keeps_pids.
Qed.

(** ** Steps of the system *)

Definition inv (s : SessionManager) (ts : list thread) (res : list Z) : Prop :=
  slots_inv s ts ∧ waits_inv s ts ∧ gate_inv s ts ∧ pids_inv s ts res ∧ Forall (drain_ok s) ts.

(** What a step does to the gate. *)
Definition gate_step (s s' : SessionManager) (t t' : thread) : Prop :=
  (closed s = true → closed s' = true)
  ∧ active s' - working t' = active s - working t
  ∧ (closed s = true →
      (sessions s = ∅ → sessions s' = ∅ ∧ working t' ≤ working t) ∧ (waiters s = [] → waiters s' = [])).

Lemma waits_step s s' t t' ts :
  waits_inv s (t :: ts) → heap_moves s s' t t' → waits_inv s' (t' :: ts).
Proof.
  intros [Hnd Hin] [Hm Hf]. unfold waits_inv. cbn in *.
  assert (NoDup (omap waits ts) ∧ ∀ w, waits t = Some w → w ∉ omap waits ts) as [Hts Ht].
  { destruct (waits t) as [w|]; [|by split]. apply NoDup_cons in Hnd as [? ?]. split; [done|]. by intros ? [= <-]. }
  assert (∀ w, w ∈ omap waits ts ↔ is_Some (heap s !! w) ∧ waits t ≠ Some w) as Hold.
  { intros w. rewrite <- Hin. destruct (waits t) as [w'|]; cbn; [rewrite elem_of_cons|].
    - split; [intros Hw; split; [by right|]|].
      + intros [= ->]. by apply (Ht w).
      + intros [[->|?] ?]; done.
    - split; [done|]. by intros [? _]. }
  destruct (waits t') as [w'|] eqn:E; cbn.
  - split.
    + apply NoDup_cons. split; [|done]. rewrite Hold. rewrite (Hf w' eq_refl). intros [[? ?] _]. done.
    + intros w. rewrite elem_of_cons, Hold, Hm. split; intros [?|?]; auto; left; congruence.
  - split; [done|]. intros w. rewrite Hold, Hm. split; [by right|by intros [|?]].
Qed.

Lemma zsum_hold_nonneg ts : 0 ≤ zsum (hold <$> ts).
Proof. apply zsum_nonneg_fmap, hold_nonneg. Qed.
Lemma zsum_working_nonneg ts : 0 ≤ zsum (working <$> ts).
Proof. apply zsum_nonneg_fmap, working_nonneg. Qed.

Lemma drain_others s s' t t' ts :
  gate_inv s (t :: ts) → gate_step s s' t t' → Forall (drain_ok s) ts → Forall (drain_ok s') ts.
Proof.
  intros Hg (G1&G2&G3) Hd. eapply Forall_impl; [exact Hd|].
  unfold gate_inv in Hg. cbn in Hg. rewrite zsum_cons in Hg. pose proof (zsum_working_nonneg ts).
  assert (0 ≤ working t) by apply working_nonneg. assert (0 ≤ working t') by apply working_nonneg.
  intros t0 Ht0. destruct t0; cbn in *; try done; try (by apply G1).
  - destruct Ht0 as (Hc&He&Hw). destruct (G3 Hc) as [G4 G5]. split_and!; [auto|by apply G4|auto].
  - destruct Ht0 as (Hc&He&Hw). destruct (G3 Hc) as [G4 G5]. split_and!; [auto|by apply G4|auto].
  - destruct r; try done. destruct Ht0 as (Hc&He&Hw&Ha). destruct (G3 Hc) as [G4 G5]. destruct (G4 He) as [G6 G7].
    split_and!; [auto|done|auto|lia].
Qed.

Lemma inv_step s s' t t' ts res res' :
  inv s (t :: ts) res → slots_step s s' t t' (zsum (hold <$> ts)) → gate_step s s' t t' →
  pids_inv s' (t' :: ts) res' → drain_ok s' t' → inv s' (t' :: ts) res'.
Proof.
  intros ((Hok&Hsv)&Hw&Hg&_&Hd) (H1&H2&H3) Hgs Hp Hd'. split_and!.
  - split; [|done]. cbn. by rewrite zsum_cons.
  - by eapply waits_step.
  - destruct Hgs as (_&G2&_). unfold gate_inv in *. cbn in *. rewrite zsum_cons in *. lia.
  - done.
  - apply Forall_cons. split; [done|]. apply Forall_cons in Hd as [_ Hd]. by eapply drain_others.
Qed.

(** A finished call can be forgotten, or taken for a call not yet made. *)
Definition idle : thread := TDone Finished.

Lemma inv_idle s ts res : inv s (idle :: ts) res ↔ inv s ts res.
Proof.
  unfold inv, slots_inv, waits_inv, gate_inv, pids_inv. cbn. rewrite !zsum_cons, !Z.add_0_l, Forall_cons.
  split; [intros (?&?&?&?&?&?); auto|intros (?&?&?&?&?); split_and!; tauto || done].
Qed.

#[export] Instance inv_perm s : Proper ((≡ₚ) ==> eq ==> impl) (inv s).
Proof.
  intros ts ts' Hp res ? <-. unfold inv, slots_inv, waits_inv, gate_inv, pids_inv, impl.
  rewrite Hp. by setoid_rewrite Hp.
Qed.

Lemma thread_preserves ch t s s' t' ts res :
  inv s (t :: ts) res → tnext ch t s = Some (s', t') → issued s' < 2 ^ 31 - 1000 → inv s' (t' :: ts) res.
Proof.
  intros Hi E Hlt. pose proof Hi as ((Hok&Hsv)&(_&Hw)&Hg&Hp&Hd).
  destruct (tnext_gate ch t s s' t' E) as [G1 G2].
  eapply inv_step; [exact Hi| |split_and!; [done|done|by apply tnext_closed with ch]| |].
  - eapply tnext_slots; [done|apply zsum_hold_nonneg| |done| |].
    + cbn in Hok. by rewrite zsum_cons in Hok.
    + intros w Hwt. apply Hw. cbn. rewrite Hwt. left.
    + intros c l wid tok pid ->. destruct Hp as (_&_&Hnd&_). apply eq_None_not_Some. intros Hs.
      apply elem_of_keys in Hs. apply NoDup_app in Hnd as (_&Hnd&_). apply (Hnd pid Hs). cbn. left.
  - by eapply tnext_pids.
  - apply Forall_cons in Hd as [Hd _]. eapply tnext_drain; [done| |done].
    rewrite Hg. apply zsum_working_nonneg.
Qed.

Lemma relabelled_empty ss ss' : relabelled ss ss' → ss = ∅ → ss' = ∅.
Proof.
  intros [H _] ->. apply map_empty. intros p. apply eq_None_not_Some. rewrite H, lookup_empty. by intros [? ?].
Qed.

(** Calls that only relabel sessions and start a thread without claims. *)
Lemma relabel_preserves s s' t' ts res :
  inv s ts res → relabelled (sessions s) (sessions s') → with_sessions ∅ ∅ s' = with_sessions ∅ ∅ s →
  hold t' = 0 → waits t' = None → working t' = 0 → claims t' = [] → drain_ok s' t' → inv s' (t' :: ts) res.
Proof.
  intros Hi Hr Es H1 H2 H3 H4 H5. apply inv_idle in Hi. injection Es as E1 E2 E3 E4 E5 E6 E7 E8 E9 E10 E11 E12.
  pose proof Hi as ((Hok&Hsv)&_&_&Hp&_). cbn in Hok. rewrite zsum_cons in Hok.
  eapply inv_step; [exact Hi| | | |done].
  - apply slots_step_frame; done || congruence.
  - split_and!; [congruence|rewrite H3, E9; cbn; lia|]. intros _.
    split; [intros Hs; split; [by eapply relabelled_empty|rewrite H3; done]|congruence].
  - eapply pids_frame; [done..|]. by rewrite H4.
Qed.

Lemma inv_forget s t ts res : t = idle → inv s (t :: ts) res → inv s ts res.
Proof. intros ->. apply inv_idle. Qed.

Lemma begin_preserves s pid protocol reconnect ts res :
  inv s ts res → pid = 0 ∨ pid ∈ res →
  let res' := remove_first pid res in
  match begin s with
  | (inr e, s') => inv s' (TDone (Refused e) :: ts) res'
  | (inl id, s') =>
      inv s' (TAcquire {| c_id := id; c_pid := pid; c_protocol := protocol; c_reconnect := reconnect |} :: ts) res'
  end.
Proof.
  intros Hi Hpid res'. apply inv_idle in Hi. pose proof Hi as ((Hok&Hsv)&_&_&Hp&_). cbn in Hok. rewrite zsum_cons in Hok.
  assert (∀ t', (if bool_decide (pid = 0) then [] else [pid]) = claims t' ∨ claims t' = [] →
    pids_list s (t' :: ts) res' ⊆+ pids_list s (idle :: ts) res) as Hsub.
  { intros t' Ht'. rewrite !pids_list_cons. apply submseteq_skips_l. cbn [claims app].
    destruct (decide (pid ∈ res)) as [Hin|Hin].
    - rewrite (remove_first_perm pid res Hin). fold res'. rewrite <- Permutation_middle, app_comm_cons.
      apply submseteq_skips_r.
      destruct Ht' as [<-| ->]; [case_bool_decide|]; [by apply submseteq_cons|done|by apply submseteq_cons].
    - destruct Hpid as [->|]; [|done]. rewrite bool_decide_eq_true_2 in Ht' by done.
      assert (claims t' = []) as -> by (by destruct Ht'). cbn [app]. apply submseteq_skips_l.
      subst res'. clear. induction res as [|y l IH]; cbn; [done|]. case_bool_decide; [by apply submseteq_cons|by apply submseteq_skip]. }
  unfold begin. destruct (closed s) eqn:Hc.
  - eapply inv_step; [exact Hi|by frame|split_and!; (done || lia)| |done].
    eapply pids_sub; [exact Hp|done|done|]. apply Hsub. by right.
  - eapply inv_step; [exact Hi|by frame| | |done].
    + split_and!; [congruence|cbn; lia|congruence].
    + eapply pids_sub; [exact Hp|done|done|]. apply Hsub. by left.
Qed.

Lemma set_max_preserves n s ts res : inv s ts res → inv (SetMaxConnections n s) ts res.
Proof.
  intros Hi. apply inv_idle in Hi. pose proof Hi as ((Hok&Hsv)&_&_&Hp&_). cbn in Hok. rewrite zsum_cons in Hok.
  destruct (grant_spec _ (with_limits n (limiter s) s) (slots_ok_frame _ s _ eq_refl eq_refl eq_refl Hok))
    as (H1&H2&H3&H4&H5&_&H7). fold (SetMaxConnections n s) in *.
  destruct H4 as (C1&C2&C3&_). destruct H5 as (D1&D2&D3&D4).
  apply (inv_forget _ idle); [done|]. eapply inv_step; [exact Hi| | | |done].
  - split_and!; [by rewrite D1|done|by apply heap_still].
  - split_and!; [by rewrite C1|rewrite C3; cbn; lia|]. intros _. split; [intros E; by rewrite D1|].
    intros E. cbn in H7. rewrite E in H7. by apply suffix_nil_inv in H7.
  - eapply pids_frame; [exact Hp|by rewrite D1|done|done|done].
Qed.

Lemma detach_preserves pid s ts res t' :
  inv s ts res → hold t' = 0 → waits t' = None → claims t' = [] → drain_ok (detach_for_cleanup pid s).2 t' →
  working t' = match (detach_for_cleanup pid s).1 with Some _ => 1 | None => 0 end →
  inv (detach_for_cleanup pid s).2 (t' :: ts) res.
Proof.
  intros Hi H1 H2 H3 H4 H5. apply inv_idle in Hi. pose proof Hi as ((Hok&Hsv)&_&_&Hp&_). cbn in Hok. rewrite zsum_cons in Hok.
  destruct (detach_gate pid s) as [G1 G2]. eapply inv_step; [exact Hi| | | |done].
  - apply detach_step; try done. apply zsum_hold_nonneg.
  - split_and!; [congruence|rewrite H5, G2; cbn; lia|]. intros Hc. destruct (detach_closed pid s Hc) as [W1 W2].
    split; [|congruence]. intros E. rewrite (W2 E) in *. cbn in *. split; [done|lia].
  - destruct (detach_pids pid s) as (P1&P2&P3). eapply pids_sub; [exact Hp|done|done|].
    apply pids_list_le; [done|by rewrite H3].
Qed.

Lemma start_preserves k S S' :
  start k S = Some S' → issued (mgr S') < 2 ^ 31 - 1000 →
  inv (mgr S) (threads S) (reserved S) → inv (mgr S') (threads S') (reserved S').
Proof.
  intros E Hlt Hi. destruct k; cbn [start] in E.
  - injection E as <-. cbn [mgr threads reserved issued] in *. apply (inv_forget _ idle); [done|].
    apply inv_idle in Hi. pose proof Hi as ((Hok&Hsv)&_&_&Hp&_). cbn in Hok. rewrite zsum_cons in Hok.
    eapply inv_step; [exact Hi|by frame|split_and!; (done || cbn; lia)| |done].
    eapply pids_new; [exact Hp|done|exact Hlt|done|]. rewrite !pids_list_cons. cbn [claims app sessions nextPID].
    rewrite !(assoc_L (++)). symmetry. apply Permutation_middle.
  - case_bool_decide as D; [done|]. 
    assert (pid = 0 ∨ pid ∈ reserved S) as Hpid by (destruct (decide (pid = 0)), (decide (pid ∈ reserved S)); tauto).
    pose proof (begin_preserves (mgr S) pid protocol reconnect (threads S) (reserved S) Hi) as Hb.
    destruct (begin (mgr S)) as [[id|e] s]; injection E as <-; by apply Hb.
  - pose proof (λ t', detach_preserves pid _ _ _ t' Hi) as Hd.
    destruct (detach_for_cleanup pid (mgr S)) as [[ses|] s]; injection E as <-; cbn in *.
    + by apply Hd.
    + apply (inv_forget _ idle); [done|]. by apply Hd.
  - injection E as <-. cbn. apply relabel_preserves with (mgr S); try done. apply crash_snapshot_relabels.
  - injection E as <-. cbn. by apply relabel_preserves with (mgr S).
  - injection E as <-. by apply set_max_preserves.
  - injection E as <-. cbn. apply inv_idle in Hi. pose proof Hi as ((Hok&Hsv)&_&_&Hp&_). cbn in Hok. rewrite zsum_cons in Hok.
    apply (inv_forget _ idle); [done|]. eapply inv_step; [exact Hi|by frame|split_and!; (done || cbn; lia)| |done].
    keeps_pids.
  - injection E as <-. cbn. apply (inv_forget _ idle); [done|]. apply relabel_preserves with (mgr S); try done.
    by apply alter_relabelled.
  - injection E as <-. cbn. apply (inv_forget _ idle); [done|]. apply relabel_preserves with (mgr S); try done.
    by apply alter_relabelled.
  - injection E as <-. cbn. apply (inv_forget _ idle); [done|].
    destruct (update_progress_relabels wid progress (mgr S)). by apply relabel_preserves with (mgr S).
Qed.

(** ** Reachable states *)

Lemma create_issued ch t s s' t' : create_next ch t s = Some (s', t') → issued s ≤ issued s'.
Proof.
  intros E. unfold create_next, acquire_local, wait_cancelled, register, ReservePID in E.
  destruct t; step_cases E; try done; try lia.
  unfold release_local. match goal with |- context [grantWaitersLocked ?x] => destruct (grant_pids x) as (_&_&->) end. done.
Qed.

Lemma tnext_issued ch t s s' t' : tnext ch t s = Some (s', t') → issued s ≤ issued s'.
Proof.
  intros E. destruct t; try (exact (create_issued ch _ s s' t' E)).
  all: destruct ch; cbn [tnext destroy_next crash_next drain_next create_next] in E; try (destruct todo); try (destruct pids); try discriminate E.
  all: try match type of E with
       | context [detach_for_cleanup ?pid ?x] =>
           destruct (detach_pids pid x) as (_&_&H); destruct (detach_for_cleanup pid x) as [[?|] ?]; cbn in H
       end; step_cases E; done || lia.
Qed.

Lemma step_issued S S' : step S S' → issued (mgr S) ≤ issued (mgr S').
Proof.
  intros [k S1 S2 E|ch t t' ts s' S1 _ E]; [|by eapply tnext_issued].
  destruct k; cbn [start] in E.
  - injection E as <-. cbn. lia.
  - case_bool_decide; [done|]. unfold begin in E. destruct (closed (mgr S1)); injection E as <-; done.
  - destruct (detach_pids pid (mgr S1)) as (_&_&H).
    destruct (detach_for_cleanup pid (mgr S1)) as [[?|] ?]; injection E as <-; cbn in *; lia.
  - by injection E as <-.
  - by injection E as <-.
  - injection E as <-. cbn. unfold SetMaxConnections. destruct (grant_pids (with_limits n (limiter (mgr S1)) (mgr S1))) as (_&_&->). done.
  - by injection E as <-.
  - by injection E as <-.
  - by injection E as <-.
  - injection E as <-. cbn. destruct (update_progress_relabels wid progress (mgr S1)) as [_ H]. injection H as H. 
    lia.
Qed.

Lemma inv_init : inv NewSessionManager [] [].
Proof.
  split_and!; cbn; try done.
  - split; [|done]. unfold slots_ok. split_and!; [apply NoDup_nil_2|by intros w Hw%elem_of_nil| |done].
    intros w x Hx. cbn [heap NewSessionManager] in Hx. by rewrite lookup_empty in Hx.
  - split; [apply NoDup_nil_2|]. intros w. rewrite elem_of_nil. cbn [heap NewSessionManager]. rewrite lookup_empty.
    split; [done|by intros [? ?]].
  - split_and!; [done|done|apply NoDup_nil_2|constructor].
Qed.

Lemma reachable_inv S :
  reachable S → issued (mgr S) < 2 ^ 31 - 1000 → inv (mgr S) (threads S) (reserved S).
Proof.
  revert S. apply (rtc_ind_r (λ S, issued (mgr S) < 2 ^ 31 - 1000 → inv (mgr S) (threads S) (reserved S))).
  - intros _. apply inv_init.
  - intros S1 S2 _ Hs IH Hlt. pose proof (step_issued _ _ Hs). specialize (IH ltac:(lia)).
    destruct Hs as [k S1 S2 E|ch t t' ts s' S1 Hts E].
    + by eapply start_preserves.
    + cbn. eapply thread_preserves; [|exact E|exact Hlt]. by rewrite <- Hts.
Qed.

(** ** Growth of the slot count *)

Lemma grant_loop_limit max ws : ∀ slots h,
  0 < max → (grant_loop max slots ws h).1.1 ≤ Z.max slots max.
Proof.
  induction ws as [|w ws IH]; intros slots h Hm; cbn [grant_loop]; [cbn; lia|].
  destruct (_ || _) eqn:E; [|cbn; lia].
  specialize (IH (slots + 1) (<[ w := {| granted := true; w_err := None; ready := true |} ]> h) Hm).
  apply orb_true_iff in E as [E|E]; to_prop; lia.
Qed.

Definition within (s s' : SessionManager) : Prop :=
  0 < maxConnections s' → activeSlots s' ≤ Z.max (activeSlots s) (maxConnections s').

Lemma grant_within s0 s :
  activeSlots s ≤ activeSlots s0 → within s0 (grantWaitersLocked s).
Proof.
  intros Hle. unfold grantWaitersLocked. destruct (closed s); [intros Hm; lia|].
  pose proof (grant_loop_limit (maxConnections s) (waiters s) (activeSlots s) (heap s)) as H.
  destruct (grant_loop _ _ _ _) as [[slots ws] h]. cbn in H. intros Hm. cbn in *. specialize (H Hm). lia.
Qed.

Lemma detach_within pid s : within s (detach_for_cleanup pid s).2.
Proof.
  unfold detach_for_cleanup, detachSessionLocked. destruct (sessions s !! pid); [|intros ?; cbn; lia].
  cbn [snd]. match goal with |- context [grantWaitersLocked ?x] => pose proof (grant_within s x) as H end.
  cbn in H. intros Hm. apply H; [|exact Hm]. destruct (_ && _); lia.
Qed.

Lemma create_within ch t s s' t' : create_next ch t s = Some (s', t') → within s s'.
Proof.
  intros E. destruct t; cbn [create_next] in E; try discriminate E; unfold within.
  3: { destruct ch; try discriminate E. unfold acquire_local, has_room in E. step_cases E; intros Hm; try lia.
       destruct (bool_decide (maxConnections s ≤ 0)) eqn:E1; to_prop; [lia|]. cbn in *. to_prop. lia. }
  8: { destruct ch; try (destruct l; discriminate E). destruct l as [l|]; injection E as <- <-; [lia|].
       apply grant_within. cbn. case_bool_decide; lia. }
  all: unfold wait_cancelled, register, ReservePID in E; step_cases E; try done; lia.
Qed.

Lemma tnext_within ch t s s' t' : tnext ch t s = Some (s', t') → within s s'.
Proof.
  intros E. destruct t; try (exact (create_within ch _ s s' t' E)).
  all: destruct ch; cbn [tnext destroy_next crash_next drain_next create_next] in E; try (destruct todo); try (destruct pids); try discriminate E.
  all: try match type of E with
       | context [detach_for_cleanup ?pid ?x] =>
           pose proof (detach_within pid x) as H; destruct (detach_for_cleanup pid x) as [[?|] ?]; cbn [snd] in H
       end; step_cases E; try done; unfold within; cbn; lia.
Qed.

Lemma start_within k S S' : start k S = Some S' → within (mgr S) (mgr S').
Proof.
  intros E. destruct k; cbn [start] in E.
  - injection E as <-. unfold within. cbn. lia.
  - case_bool_decide; [done|]. unfold begin in E. destruct (closed (mgr S)); injection E as <-; unfold within; cbn; lia.
  - pose proof (detach_within pid (mgr S)) as H. destruct (detach_for_cleanup pid (mgr S)) as [[?|] ?]; by injection E as <-.
  - injection E as <-. unfold within. cbn. lia.
  - injection E as <-. unfold within. cbn. lia.
  - injection E as <-. by apply grant_within.
  - injection E as <-. unfold within. cbn. lia.
  - injection E as <-. unfold within. cbn. lia.
  - injection E as <-. unfold within. cbn. lia.
  - injection E as <-. cbn. destruct (update_progress_relabels wid progress (mgr S)) as [_ H]. injection H as H.
    unfold within. lia.
Qed.

(** ** Scripts: runs given by the choices made *)

Definition run_step (m : call + nat * choice) (S : system) : option system :=
  match m with
  | inl k => start k S
  | inr (i, ch) =>
      t ← threads S !! i;
      '(s, t') ← tnext ch t (mgr S);
      Some {| mgr := s; threads := t' :: (take i (threads S) ++ drop (1 + i) (threads S)); reserved := reserved S |}
  end.
Fixpoint run_script (l : list (call + nat * choice)) (S : system) : option system :=
  match l with [] => Some S | m :: l => run_step m S ≫= run_script l end.

Lemma run_step_sound m S S' : run_step m S = Some S' → step S S'.
Proof.
  destruct m as [k|[i ch]]; cbn; [by econstructor|]. intros H.
  destruct (threads S !! i) as [t|] eqn:Et; cbn in H; [|done].
  destruct (tnext ch t (mgr S)) as [[s t']|] eqn:En; cbn in H; [|done]. injection H as <-.
  eapply step_thread; [|done]. rewrite <- (take_drop_middle _ _ _ Et) at 1. symmetry. apply Permutation_middle.
Qed.

Lemma run_script_sound l : ∀ S S', run_script l S = Some S' → rtc step S S'.
Proof.
  induction l as [|m l IH]; intros S S' H; cbn in H; [by injection H as ->|].
  destruct (run_step m S) as [S1|] eqn:E; cbn in H; [|done]. eapply rtc_l; [by eapply run_step_sound|by apply IH].
Qed.

(** * Theorems *)

(** C28. Slot accounting under any interleaving: in every reachable state the
    number of active slots is the number of creations holding a slot, plus the
    slots granted to waiters that have not resumed, plus the registered sessions
    on local slots; no error path, cancellation, crash or drain leaks a slot or
    gives one back twice. (PIDs must not have wrapped round 32 bits.) *)
Theorem session_slots_are_accounted S :
  reachable S → issued (mgr S) < 2 ^ 31 - 1000 →
  activeSlots (mgr S)
  = zsum (hold <$> threads S) + mcount granted (heap (mgr S)) + mcount on_local_slot (sessions (mgr S)).
Proof.
  intros Hr Hlt. destruct (reachable_inv S Hr Hlt) as (((_&_&_&H)&_)&_). lia.
Qed.

(** With room for one session: the first creation registers its session, the
    second waits, and destroying the session hands its slot to the waiter. *)
Definition handover : list (call + nat * choice) :=
  [inl (CallSetMaxConnections 1); inl (CallCreate 0 "postgres" false); inr (0%nat, Go); inr (0%nat, Go);
   inl (CallCreate 0 "flight" false); inr (0%nat, Go); inr (0%nat, Go);
   inr (1%nat, WorkerGives (Some 7)); inr (0%nat, RpcGives (Some "token"%string)); inr (0%nat, Go);
   inr (0%nat, Go); inl (CallDestroy 1001)].
Definition handover_end : system := default sys_init (run_script handover sys_init).

Lemma handover_reachable : reachable handover_end.
Proof. apply (run_script_sound handover). vm_compute. reflexivity. Qed.

Lemma session_slots_are_accounted_witness :
  activeSlots (mgr handover_end) = 1 ∧ mcount granted (heap (mgr handover_end)) = 1.
Proof.
  split; [|vm_compute; reflexivity].
  rewrite (session_slots_are_accounted handover_end handover_reachable) by (vm_compute; reflexivity).
  vm_compute. reflexivity.
Defined.


Definition waiting_end : system := default sys_init (run_script (take 7 handover) sys_init).


(** The connection limit of a session manager: no step of any goroutine, in
    any state, takes the active slots above the limit in force; the count is above
    it only while the limit was lowered under live sessions. *)
Theorem slots_never_pass_limit S S' :
  step S S' → 0 < maxConnections (mgr S') →
  activeSlots (mgr S') ≤ Z.max (activeSlots (mgr S)) (maxConnections (mgr S')).
Proof.
  intros [k S1 S2 E|ch t t' ts s' S1 _ E]; [by apply (start_within k)|by apply (tnext_within ch t _ _ t')].
Qed.

Lemma slots_never_pass_limit_witness :
  activeSlots (mgr handover_end) ≤ 1.
Proof.
  pose (S0 := default sys_init (run_script (take 11 handover) sys_init)).
  refine (slots_never_pass_limit S0 handover_end _ _).
  - apply (step_start (CallDestroy 1001)). vm_compute. reflexivity.
  - vm_compute. reflexivity.
Defined.

(** C24. When DestroyAllSessions has returned, and ever after, the manager is
    empty: it accepts nothing, no session is registered, nobody waits, no
    creation or cleanup is under way in any goroutine, and every slot has been
    given back. *)
Theorem drained_manager_is_empty S :
  reachable S → issued (mgr S) < 2 ^ 31 - 1000 → TDone Drained ∈ threads S →
  closed (mgr S) = true ∧ sessions (mgr S) = ∅ ∧ waiters (mgr S) = [] ∧ heap (mgr S) = ∅
  ∧ activeSlots (mgr S) = 0 ∧ ∀ t, t ∈ threads S → working t = 0.
Proof.
  intros Hr Hlt Hin. destruct (reachable_inv S Hr Hlt) as (((_&_&_&Hs)&_)&(_&Hw)&Hg&_&Hd).
  rewrite Forall_forall in Hd. destruct (Hd _ Hin) as (Hc&He&Hq&Ha).
  assert (∀ t, t ∈ threads S → working t = 0) as Hidle.
  { intros t. apply zsum_zero; [apply working_nonneg|]. unfold gate_inv in Hg. lia. }
  assert (heap (mgr S) = ∅) as Hh.
  { apply map_empty. intros w. apply eq_None_not_Some. rewrite <- Hw. intros Hx.
    apply list_elem_of_omap in Hx as (t&Ht&Hx). specialize (Hidle t Ht). by destruct t. }
  assert (zsum (hold <$> threads S) = 0) as Hhold.
  { assert (∀ ts, (∀ t, t ∈ ts → working t = 0) → zsum (hold <$> ts) = 0) as Hz; [|by apply Hz].
    induction ts as [|t ts IH]; intros Ht; [done|]. cbn. rewrite zsum_cons, IH by (intros; apply Ht; by right).
    specialize (Ht t ltac:(left)). by destruct t. }
  split_and!; try done. rewrite Hs, Hhold, He, Hh, !mcount_empty. done.
Qed.

(** A drain while a session is live and another creation is waiting. *)
Definition draining : list (call + nat * choice) :=
  take 11 handover ++
  [inl CallDrain; inr (0%nat, Go); inr (0%nat, Visits [1001]); inr (0%nat, Go); inr (0%nat, Go); inr (0%nat, Go);
   inr (0%nat, Go); inr (0%nat, Visits []); inr (0%nat, Go); inr (2%nat, WakeUp); inr (0%nat, Go); inr (1%nat, Go)].
Definition draining_end : system := default sys_init (run_script draining sys_init).

Lemma drained_manager_is_empty_witness : activeSlots (mgr draining_end) = 0.
Proof.
  refine (proj1 (proj2 (proj2 (proj2 (proj2 (drained_manager_is_empty draining_end _ _ _)))))).
  - apply (run_script_sound draining). vm_compute. reflexivity.
  - vm_compute. reflexivity.
  - vm_compute. left.
Defined.

(** A session can outlive the handling of its worker's crash: a creation
    that has its worker's session token when OnWorkerCrash takes its snapshot, and
    registers before OnWorkerCrash forgets the worker, stays registered with an
    executor not marked dead and missing from the worker's index, after crash
    handling has returned. *)
Theorem crash_can_strand_a_session :
  ∃ S ses, reachable S
    ∧ sessions (mgr S) !! 1001 = Some ses ∧ WorkerID ses = 7 ∧ s_dead ses = false
    ∧ SessionCountForWorker 7 (mgr S) = 0
    ∧ threads S = [TDone Finished; TDone (Created 1001)].
Proof.
  set (script := [inl (CallCreate 0 "postgres" false); inr (0%nat, Go); inr (0%nat, Go);
    inr (0%nat, WorkerGives (Some 7)); inr (0%nat, RpcGives (Some "token"%string));
    inl (CallCrash 7); inr (1%nat, Go); inr (0%nat, Go); inr (1%nat, Go)]).
  exists (default sys_init (run_script script sys_init)).
  exists (new_session {| c_id := 1; c_pid := 0; c_protocol := "postgres"; c_reconnect := false |} None 7 "token" 1001).
  split; [apply (run_script_sound script); vm_compute; reflexivity|].
  split; [vm_compute; reflexivity|]. split; [done|]. split; [done|]. split; vm_compute; reflexivity.
Qed.
