(* ===== verification/WorkerPool.v ===== *)
(** The pool of worker processes (src/controlplane/worker_mgr.go).

    The pool's tables are [FlightWorkerPool]; [ManagedWorker] objects live in [objs]
    and are named by their index, so that a pointer kept by one goroutine still sees
    what another does to the object. A critical section is a function on the pool.
    Goroutines are [thread]s: where one is in AcquireWorker, SpawnWorker,
    retireWorkerProcess, HealthCheckLoop, ShutdownAll or a session's life. [tnext]
    runs a thread through its next section, [oracle] being what the operating system,
    the clock, the RPCs and the order of a [range] answer there, and [step]
    interleaves threads, exits of processes and new calls.

    A signal (SIGINT, SIGKILL) is not a step: a process may exit at any point, and the
    code only ever waits for the exit. Worker ids and counters stay far below 2^63
    (one per process spawned, one per goroutine), so they are unbounded here. *)

From Stdlib Require Import Strings.Byte.
From stdpp Require Import prelude gmap strings list fin_maps.
From Stdlib Require Import ZArith Lia.
From S2P Require Import Prelude GoText.

Open Scope Z_scope.

(** * Worker objects *)

Record ManagedWorker := {
  ID : Z;
  socketPath : string;
  cmdEnv : list (list byte);       (** the environment of the process *)
  cmdSlot : option nat;            (** the pre-bound listener the process inherited *)
  w_prebound : option nat;         (** the [prebound] field *)
  released : bool;                 (** [releaseOnce] has run *)
  exited : bool;                   (** [done] is closed *)
  activeSessions : Z;
  peakSessions : Z;
  lastUsed : option Z;             (** [None] is the zero time *)
}.

Definition set_exited (w : ManagedWorker) : ManagedWorker :=
  {| ID := ID w; socketPath := socketPath w; cmdEnv := cmdEnv w; cmdSlot := cmdSlot w; w_prebound := w_prebound w;
     released := released w; exited := true; activeSessions := activeSessions w;
     peakSessions := peakSessions w; lastUsed := lastUsed w |}.
Definition set_slot (s : option nat) (r : bool) (w : ManagedWorker) : ManagedWorker :=
  {| ID := ID w; socketPath := socketPath w; cmdEnv := cmdEnv w; cmdSlot := cmdSlot w; w_prebound := s;
     released := r; exited := exited w; activeSessions := activeSessions w;
     peakSessions := peakSessions w; lastUsed := lastUsed w |}.
Definition set_sessions (a p : Z) (l : option Z) (w : ManagedWorker) : ManagedWorker :=
  {| ID := ID w; socketPath := socketPath w; cmdEnv := cmdEnv w; cmdSlot := cmdSlot w; w_prebound := w_prebound w;
     released := released w; exited := exited w; activeSessions := a; peakSessions := p; lastUsed := l |}.

(** [activeSessions++] with the high-water mark. *)
Definition add_session (w : ManagedWorker) : ManagedWorker :=
  let a := activeSessions w + 1 in
  set_sessions a (if bool_decide (peakSessions w < a) then a else peakSessions w) (lastUsed w) w.
(** [activeSessions--], guarded. *)
Definition drop_session (w : ManagedWorker) : ManagedWorker :=
  set_sessions (if bool_decide (0 < activeSessions w) then activeSessions w - 1 else activeSessions w)
    (peakSessions w) (lastUsed w) w.
Definition stamp (now : Z) (w : ManagedWorker) : ManagedWorker :=
  set_sessions (activeSessions w) (peakSessions w) (Some now) w.

(** * The owner epoch *)

(** [RefreshOwnerEpochAtomic]: the callback runs with the lock held, on the epoch of
    that moment; on an error the epoch is kept. *)
Definition RefreshOwnerEpochAtomic {E} (fn : Z → Z + E) (epoch : Z) : option E * Z :=
  match fn epoch with
  | inl newEpoch => (None, newEpoch)
  | inr e => (Some e, epoch)
  end.
Definition IncrementOwnerEpoch (epoch : Z) : Z * Z :=
  let e := wrap_s 64 (epoch + 1) in (e, e).

(** * The environment of a worker *)

Definition appendOrReplaceEnv (env : list (list byte)) (entry : list byte) : list (list byte) :=
  match index_byte x3d entry with
  | None => env ++ [entry]
  | Some idx =>
      let key := take (idx + 1) entry in
      filter (λ e, has_prefix key e = false) env ++ [entry]
  end.

Definition env_mode : list byte := bytes "DUCKGRES_MODE=duckdb-service".
Definition env_migrate (b : bool) : list byte :=
  bytes (if b then "DUCKGRES_DUCKLAKE_MIGRATE=true" else "DUCKGRES_DUCKLAKE_MIGRATE=false").

(** * Waiting for a worker to answer *)

(** What one turn of the loop of [waitForWorker] meets: how long it takes before the
    pause, and how it goes. *)
Inductive attempt_result := NoSocket | DialFailed | Unhealthy | Healthy.
#[export] Instance attempt_result_eq_dec : EqDecision attempt_result.
Proof. solve_decision. Defined.
Record attempt := { took : Z; result : attempt_result }.

Inductive wait_error := WaitTimeout (last : option attempt_result) (attempts : Z).

(** [now] is the time since the call; times are in milliseconds. The loop is run on
    the turns the world has in store: it ends at the first healthy answer or when the
    deadline has passed ([None]: the world's list is too short). *)
Fixpoint wait_loop (timeout now : Z) (last : option attempt_result) (attempts : Z) (turns : list attempt)
    : option (option wait_error) :=
  if bool_decide (now < timeout) then
    match turns with
    | [] => None
    | t :: turns' =>
        match result t with
        | Healthy => Some None
        | r =>
            wait_loop timeout (now + took t + 100) (Some r)
              (if bool_decide (r = NoSocket) then attempts else attempts + 1) turns'
        end
    end
  else Some (Some (WaitTimeout last attempts)).
Definition waitForWorker (timeout : Z) (turns : list attempt) : option (option wait_error) :=
  wait_loop timeout 0 None 0 turns.

(** The two timeouts of [SpawnWorker]. *)
Definition spawnTimeout (migrating : bool) : Z :=
  if migrating then 20 * 60 * 1000 else 20 * 1000.

(** * The pool *)

Record FlightWorkerPool := {
  workers : gmap Z nat;
  nextWorkerID : Z;
  spawning : Z;
  socketDir : string;
  fallbackSocketDir : string;
  maxWorkers : Z;
  minWorkers : Z;
  idleTimeout : Z;
  retireOnSessionEnd : bool;
  shuttingDown : bool;
  prebound : list nat;
  migrateMu : bool;                (** [ducklakeMigrateMu] is held *)
  ducklakeMigrate : bool;
  (** every worker object made so far *)
  objs : list ManagedWorker;
  (** SpawnAll: its WaitGroup, whether an error was sent, whether it has returned nil *)
  all_wg : Z;
  all_err : bool;
  booted : bool;
  (** HealthCheckLoop: its WaitGroup and its table of failures *)
  hc_wg : Z;
  failures : gmap Z Z;
}.

Definition with_workers ws (p : FlightWorkerPool) : FlightWorkerPool :=
  {| workers := ws; nextWorkerID := nextWorkerID p; spawning := spawning p; socketDir := socketDir p;
     fallbackSocketDir := fallbackSocketDir p; maxWorkers := maxWorkers p; minWorkers := minWorkers p;
     idleTimeout := idleTimeout p; retireOnSessionEnd := retireOnSessionEnd p; shuttingDown := shuttingDown p;
     prebound := prebound p; migrateMu := migrateMu p; ducklakeMigrate := ducklakeMigrate p; objs := objs p;
     all_wg := all_wg p; all_err := all_err p; booted := booted p; hc_wg := hc_wg p; failures := failures p |}.
Definition with_spawning n k (p : FlightWorkerPool) : FlightWorkerPool :=
  {| workers := workers p; nextWorkerID := n; spawning := k; socketDir := socketDir p;
     fallbackSocketDir := fallbackSocketDir p; maxWorkers := maxWorkers p; minWorkers := minWorkers p;
     idleTimeout := idleTimeout p; retireOnSessionEnd := retireOnSessionEnd p; shuttingDown := shuttingDown p;
     prebound := prebound p; migrateMu := migrateMu p; ducklakeMigrate := ducklakeMigrate p; objs := objs p;
     all_wg := all_wg p; all_err := all_err p; booted := booted p; hc_wg := hc_wg p; failures := failures p |}.
Definition with_fallback d (p : FlightWorkerPool) : FlightWorkerPool :=
  {| workers := workers p; nextWorkerID := nextWorkerID p; spawning := spawning p; socketDir := socketDir p;
     fallbackSocketDir := d; maxWorkers := maxWorkers p; minWorkers := minWorkers p;
     idleTimeout := idleTimeout p; retireOnSessionEnd := retireOnSessionEnd p; shuttingDown := shuttingDown p;
     prebound := prebound p; migrateMu := migrateMu p; ducklakeMigrate := ducklakeMigrate p; objs := objs p;
     all_wg := all_wg p; all_err := all_err p; booted := booted p; hc_wg := hc_wg p; failures := failures p |}.
Definition with_max m (p : FlightWorkerPool) : FlightWorkerPool :=
  {| workers := workers p; nextWorkerID := nextWorkerID p; spawning := spawning p; socketDir := socketDir p;
     fallbackSocketDir := fallbackSocketDir p; maxWorkers := m; minWorkers := minWorkers p;
     idleTimeout := idleTimeout p; retireOnSessionEnd := retireOnSessionEnd p; shuttingDown := shuttingDown p;
     prebound := prebound p; migrateMu := migrateMu p; ducklakeMigrate := ducklakeMigrate p; objs := objs p;
     all_wg := all_wg p; all_err := all_err p; booted := booted p; hc_wg := hc_wg p; failures := failures p |}.
Definition with_shutting (p : FlightWorkerPool) : FlightWorkerPool :=
  {| workers := workers p; nextWorkerID := nextWorkerID p; spawning := spawning p; socketDir := socketDir p;
     fallbackSocketDir := fallbackSocketDir p; maxWorkers := maxWorkers p; minWorkers := minWorkers p;
     idleTimeout := idleTimeout p; retireOnSessionEnd := retireOnSessionEnd p; shuttingDown := true;
     prebound := prebound p; migrateMu := migrateMu p; ducklakeMigrate := ducklakeMigrate p; objs := objs p;
     all_wg := all_wg p; all_err := all_err p; booted := booted p; hc_wg := hc_wg p; failures := failures p |}.
Definition with_prebound l (p : FlightWorkerPool) : FlightWorkerPool :=
  {| workers := workers p; nextWorkerID := nextWorkerID p; spawning := spawning p; socketDir := socketDir p;
     fallbackSocketDir := fallbackSocketDir p; maxWorkers := maxWorkers p; minWorkers := minWorkers p;
     idleTimeout := idleTimeout p; retireOnSessionEnd := retireOnSessionEnd p; shuttingDown := shuttingDown p;
     prebound := l; migrateMu := migrateMu p; ducklakeMigrate := ducklakeMigrate p; objs := objs p;
     all_wg := all_wg p; all_err := all_err p; booted := booted p; hc_wg := hc_wg p; failures := failures p |}.
Definition with_migrate mu flag (p : FlightWorkerPool) : FlightWorkerPool :=
  {| workers := workers p; nextWorkerID := nextWorkerID p; spawning := spawning p; socketDir := socketDir p;
     fallbackSocketDir := fallbackSocketDir p; maxWorkers := maxWorkers p; minWorkers := minWorkers p;
     idleTimeout := idleTimeout p; retireOnSessionEnd := retireOnSessionEnd p; shuttingDown := shuttingDown p;
     prebound := prebound p; migrateMu := mu; ducklakeMigrate := flag; objs := objs p;
     all_wg := all_wg p; all_err := all_err p; booted := booted p; hc_wg := hc_wg p; failures := failures p |}.
Definition with_objs os (p : FlightWorkerPool) : FlightWorkerPool :=
  {| workers := workers p; nextWorkerID := nextWorkerID p; spawning := spawning p; socketDir := socketDir p;
     fallbackSocketDir := fallbackSocketDir p; maxWorkers := maxWorkers p; minWorkers := minWorkers p;
     idleTimeout := idleTimeout p; retireOnSessionEnd := retireOnSessionEnd p; shuttingDown := shuttingDown p;
     prebound := prebound p; migrateMu := migrateMu p; ducklakeMigrate := ducklakeMigrate p; objs := os;
     all_wg := all_wg p; all_err := all_err p; booted := booted p; hc_wg := hc_wg p; failures := failures p |}.
Definition with_boot wg e b (p : FlightWorkerPool) : FlightWorkerPool :=
  {| workers := workers p; nextWorkerID := nextWorkerID p; spawning := spawning p; socketDir := socketDir p;
     fallbackSocketDir := fallbackSocketDir p; maxWorkers := maxWorkers p; minWorkers := minWorkers p;
     idleTimeout := idleTimeout p; retireOnSessionEnd := retireOnSessionEnd p; shuttingDown := shuttingDown p;
     prebound := prebound p; migrateMu := migrateMu p; ducklakeMigrate := ducklakeMigrate p; objs := objs p;
     all_wg := wg; all_err := e; booted := b; hc_wg := hc_wg p; failures := failures p |}.
Definition with_health wg fs (p : FlightWorkerPool) : FlightWorkerPool :=
  {| workers := workers p; nextWorkerID := nextWorkerID p; spawning := spawning p; socketDir := socketDir p;
     fallbackSocketDir := fallbackSocketDir p; maxWorkers := maxWorkers p; minWorkers := minWorkers p;
     idleTimeout := idleTimeout p; retireOnSessionEnd := retireOnSessionEnd p; shuttingDown := shuttingDown p;
     prebound := prebound p; migrateMu := migrateMu p; ducklakeMigrate := ducklakeMigrate p; objs := objs p;
     all_wg := all_wg p; all_err := all_err p; booted := booted p; hc_wg := wg; failures := fs |}.

(** A write through a pointer. *)
Definition upd (f : ManagedWorker → ManagedWorker) (r : nat) (p : FlightWorkerPool) : FlightWorkerPool :=
  with_objs (alter f r (objs p)) p.

Definition NewFlightWorkerPool (dir : string) (min max : Z) : FlightWorkerPool :=
  {| workers := ∅; nextWorkerID := 0; spawning := 0; socketDir := dir; fallbackSocketDir := "";
     maxWorkers := max; minWorkers := min; idleTimeout := 0; retireOnSessionEnd := false;
     shuttingDown := false; prebound := []; migrateMu := false; ducklakeMigrate := false; objs := [];
     all_wg := 0; all_err := false; booted := false; hc_wg := 0; failures := ∅ |}.

(** ** Pre-bound sockets: a slot is the index of the socket *)

(** [binds] says for each [net.Listen] in turn whether it worked. *)
Fixpoint prebind_loop (i : nat) (binds : list bool) (p : FlightWorkerPool) : bool * FlightWorkerPool :=
  match binds with
  | [] => (true, p)
  | true :: binds' => prebind_loop (S i) binds' (with_prebound (prebound p ++ [i]) p)
  | false :: _ => (false, with_prebound [] p)
  end.
Definition PreBindSockets (binds : list bool) (p : FlightWorkerPool) : bool * FlightWorkerPool :=
  prebind_loop 0 binds p.

Definition slot_path (p : FlightWorkerPool) (s : nat) : string :=
  socketDir p ++ "/worker-" ++ fmt_d (Z.of_nat s) ++ ".sock".

(** The locked part of [takePrebound]: the last slot of the list. *)
Definition pop_prebound (p : FlightWorkerPool) : option nat * FlightWorkerPool :=
  match last (prebound p) with
  | None => (None, p)
  | Some s => (Some s, with_prebound (take (length (prebound p) - 1) (prebound p)) p)
  end.
Definition returnPrebound (s : nat) (p : FlightWorkerPool) : FlightWorkerPool :=
  with_prebound (prebound p ++ [s]) p.
Definition return_slot (s : option nat) (p : FlightWorkerPool) : FlightWorkerPool :=
  match s with Some s => returnPrebound s p | None => p end.
Definition closeAllPrebound (p : FlightWorkerPool) : FlightWorkerPool := with_prebound [] p.

(** [stat_ok]: the socket's file is still there. *)
Definition releaseWorkerSocket (stat_ok : bool) (r : nat) (p : FlightWorkerPool) : FlightWorkerPool :=
  match objs p !! r with
  | Some w =>
      if released w then p else
      let p := match w_prebound w with
               | Some s => if stat_ok then returnPrebound s p else p
               | None => p
               end in
      upd (set_slot None true) r p
  | None => p
  end.

Definition fallback_dir : string := "/tmp/duckgres".
Definition effectiveSocketDir (writable mkdir_ok : bool) (p : FlightWorkerPool)
    : option string * FlightWorkerPool :=
  if negb (bool_decide (fallbackSocketDir p = ""%string)) then (Some (fallbackSocketDir p), p) else
  if writable then (Some (socketDir p), p) else
  if mkdir_ok then (Some fallback_dir, with_fallback fallback_dir p) else (None, p).

(** ** The scans under the lock, in the order the [range] takes *)

Definition worker_at (p : FlightWorkerPool) (id : Z) : option (nat * ManagedWorker) :=
  r ← workers p !! id; w ← objs p !! r; Some (r, w).

Fixpoint findIdleWorkerLocked (order : list Z) (p : FlightWorkerPool) : option nat :=
  match order with
  | [] => None
  | id :: order' =>
      match worker_at p id with
      | Some (r, w) =>
          if negb (exited w) && bool_decide (activeSessions w = 0) then Some r
          else findIdleWorkerLocked order' p
      | None => findIdleWorkerLocked order' p
      end
  end.

Fixpoint least_loop (best : option (nat * ManagedWorker)) (order : list Z) (p : FlightWorkerPool)
    : option (nat * ManagedWorker) :=
  match order with
  | [] => best
  | id :: order' =>
      match worker_at p id with
      | Some (r, w) =>
          let best :=
            if exited w then best else
            match best with
            | None => Some (r, w)
            | Some (_, b) => if bool_decide (activeSessions w < activeSessions b) then Some (r, w) else best
            end in
          least_loop best order' p
      | None => least_loop best order' p
      end
  end.
Definition leastLoadedWorkerLocked (order : list Z) (p : FlightWorkerPool) : option nat :=
  fst <$> least_loop None order p.

Definition is_live (p : FlightWorkerPool) (r : nat) : bool :=
  match objs p !! r with Some w => negb (exited w) | None => false end.
Definition liveWorkerCountLocked (p : FlightWorkerPool) : Z := spawning p + mcount (is_live p) (workers p).

(** The dead workers, in the order they are met, and the map without them. *)
Definition cleanDeadWorkersLocked (order : list Z) (p : FlightWorkerPool) : list nat * FlightWorkerPool :=
  (filter (λ r, is_live p r = false) (omap (λ id, workers p !! id) order),
   with_workers (filter (λ kv, is_live p kv.2 = true) (workers p)) p).

(** ** Operations of one section *)

Definition Worker (id : Z) (p : FlightWorkerPool) : option nat := workers p !! id.

(** [ReleaseWorker]: the worker to retire in the background, if any. *)
Definition ReleaseWorker (now : Z) (id : Z) (p : FlightWorkerPool) : option nat * FlightWorkerPool :=
  match worker_at p id with
  | None => (None, p)
  | Some (r, w) =>
      let p := upd drop_session r p in
      if retireOnSessionEnd p && bool_decide (activeSessions (drop_session w) = 0)
      then (Some r, with_workers (delete id (workers p)) p)
      else (None, upd (stamp now) r p)
  end.

Definition RetireWorker (id : Z) (p : FlightWorkerPool) : option nat * FlightWorkerPool :=
  match workers p !! id with
  | None => (None, p)
  | Some r => (Some r, with_workers (delete id (workers p)) p)
  end.

Definition RetireWorkerIfNoSessions (id : Z) (p : FlightWorkerPool) : option nat * FlightWorkerPool :=
  match worker_at p id with
  | None => (None, p)
  | Some (r, w) =>
      let p := upd drop_session r p in
      if bool_decide (activeSessions (drop_session w) = 0)
      then (Some r, with_workers (delete id (workers p)) p)
      else (None, p)
  end.

Definition SetMaxWorkers (n : Z) (p : FlightWorkerPool) : FlightWorkerPool := with_max n p.

(** [reapIdleWorkers]: the count of live idle workers, then the loop that takes old
    ones out of the map until [minWorkers] are left. *)
Definition is_idle (p : FlightWorkerPool) (r : nat) : bool :=
  match objs p !! r with
  | Some w => negb (exited w) && bool_decide (activeSessions w = 0)
  | None => false
  end.
Definition idle_count (p : FlightWorkerPool) : Z := mcount (is_idle p) (workers p).

Definition may_reap (now : Z) (p : FlightWorkerPool) (w : ManagedWorker) : bool :=
  bool_decide (activeSessions w = 0) &&
  match lastUsed w with Some l => bool_decide (idleTimeout p < now - l) | None => false end.

Fixpoint reap_loop (now idleCount : Z) (order : list Z) (p : FlightWorkerPool) : list nat * FlightWorkerPool :=
  match order with
  | [] => ([], p)
  | id :: order' =>
      if bool_decide (idleCount ≤ minWorkers p) then ([], p) else
      match worker_at p id with
      | Some (r, w) =>
          if may_reap now p w then
            let '(rs, p) := reap_loop now (idleCount - 1) order' (with_workers (delete id (workers p)) p) in
            (r :: rs, p)
          else reap_loop now idleCount order' p
      | None => reap_loop now idleCount order' p
      end
  end.
Definition reapIdleWorkers (now : Z) (order : list Z) (p : FlightWorkerPool) : list nat * FlightWorkerPool :=
  reap_loop now (idle_count p) order p.

(** ** AcquireWorker, up to the first unlock *)

Inductive pool_error :=
  | ErrPoolShuttingDown | ErrNotFoundAfterSpawn
  | ErrNoSocketDir | ErrBind | ErrListenerFd | ErrStart | ErrFailedToStart (e : wait_error).

Inductive acquire_result :=
  | Refused (e : pool_error)
  | Use (r : nat)          (** an idle or the least loaded worker, claimed *)
  | Spawn (id : Z)         (** spawn one *)
  | Retry.                 (** pause and call again *)

Definition reserve_spawn (p : FlightWorkerPool) : Z * FlightWorkerPool :=
  (nextWorkerID p, with_spawning (nextWorkerID p + 1) (spawning p + 1) p).

(** The first section of [AcquireWorker]; the first [range] is that of
    [cleanDeadWorkersLocked], whose dead workers are cleaned up in the background. *)
Definition acquire_section (dead order : list Z) (p : FlightWorkerPool)
    : acquire_result * list nat * FlightWorkerPool :=
  if shuttingDown p then (Refused ErrPoolShuttingDown, [], p) else
  let '(gone, p) := cleanDeadWorkersLocked dead p in
  match findIdleWorkerLocked order p with
  | Some r => (Use r, gone, upd add_session r p)
  | None =>
      if bool_decide (maxWorkers p = 0) || bool_decide (liveWorkerCountLocked p < maxWorkers p) then
        let '(id, p) := reserve_spawn p in (Spawn id, gone, p)
      else
        match leastLoadedWorkerLocked order p with
        | Some r => (Use r, gone, upd add_session r p)
        | None =>
            if bool_decide (0 < maxWorkers p) && bool_decide (maxWorkers p ≤ liveWorkerCountLocked p)
            then (Retry, gone, p)
            else let '(id, p) := reserve_spawn p in (Spawn id, gone, p)
        end
  end.

(** * Goroutines *)

(** On whose behalf [SpawnWorker] runs. *)
Inductive caller := ForAcquire | ForAll.
#[export] Instance caller_eq_dec : EqDecision caller.
Proof. solve_decision. Defined.

Inductive thread :=
  | TAcquire                                               (** before the first lock *)
  (** SpawnWorker *)
  | TTake (k : caller) (id : Z)                            (** before takePrebound *)
  | TStat (k : caller) (id : Z) (s : nat)                  (** before its [os.Stat] *)
  | TBind (k : caller) (id : Z)                            (** no slot: bind a new socket *)
  | TFile (k : caller) (id : Z) (s : option nat) (path : string)
  | TLock (k : caller) (id : Z) (s : option nat) (path : string) (env : list (list byte))
  | TStart (k : caller) (id : Z) (s : option nat) (path : string) (env : list (list byte)) (migrating : bool)
  | TWait (k : caller) (id : Z) (r : nat) (migrating : bool)  (** in waitForWorker *)
  | TKill (k : caller) (id : Z) (r : nat) (e : wait_error)
  | TAdd (k : caller) (id : Z) (r : nat)
  | TSpawned (k : caller) (id : Z) (e : option pool_error)
  (** AcquireWorker after the spawn *)
  | TLookup (id : Z)
  | TClaim (r : nat)
  (** the caller of AcquireWorker holds the worker *)
  | TSession (r : nat)
  (** retireWorkerProcess and cleanupDeadWorker *)
  | TRetire (r : nat)
  | TRetireWait (r : nat)
  | TRelease (r : nat)                                     (** before releaseWorkerSocket *)
  (** SpawnAll *)
  | TAll (count : nat)
  | TAllWait (count : nat)
  (** HealthCheckLoop: the loop, then a goroutine per worker *)
  | THealth
  | THealthWait
  | TCheck (r : nat)
  | TCheckRpc (r : nat)
  | TCheckEvict (r : nat)
  | TCheckKill (r : nat)
  | TCheckRelease (r : nat)
  (** ShutdownAll *)
  | TShutdown
  | TShutWait (rs : list nat)
  | TShutClose
  (** the other calls *)
  | TReap
  | TRetireCall (id : Z).

(** What the world answers in a section. *)
Record oracle := {
  o_ok : bool;                 (** the call that can fail there works; a session ends well *)
  o_writable : bool;           (** [checkSocketDirWritable] *)
  o_mkdir : bool;
  o_now : Z;
  o_dead : list Z;             (** orders of a [range] over the workers *)
  o_order : list Z;
  o_env : list (list byte);    (** [os.Environ] *)
  o_turns : list attempt;      (** what waitForWorker meets *)
  o_ctx : bool;                (** the loop's context is cancelled *)
}.

Definition is_range (order : list Z) (p : FlightWorkerPool) : bool :=
  bool_decide (NoDup order ∧ list_to_set (C := gset Z) order = dom (workers p)).

Definition obj_exited (p : FlightWorkerPool) (r : nat) : bool :=
  match objs p !! r with Some w => exited w | None => false end.
Definition obj_id (p : FlightWorkerPool) (r : nat) : Z :=
  match objs p !! r with Some w => ID w | None => -1 end.

Definition new_worker id path env s : ManagedWorker :=
  {| ID := id; socketPath := path; cmdEnv := env; cmdSlot := s; w_prebound := s; released := false;
     exited := false; activeSessions := 0; peakSessions := 0; lastUsed := None |}.

(** [SpawnWorker], one section at a time. *)
Definition spawn_next (o : oracle) (t : thread) (p : FlightWorkerPool) : option (FlightWorkerPool * list thread) :=
  match t with
  | TTake k id =>
      match pop_prebound p with
      | (None, p) => Some (p, [TBind k id])
      | (Some s, p) => Some (p, [TStat k id s])
      end
  | TStat k id s =>
      if o_ok o then Some (p, [TFile k id (Some s) (slot_path p s)])
      else Some (closeAllPrebound p, [TBind k id])
  | TBind k id =>
      match effectiveSocketDir (o_writable o) (o_mkdir o) p with
      | (None, p) => Some (p, [TSpawned k id (Some ErrNoSocketDir)])
      | (Some dir, p) =>
          if o_ok o
          then Some (p, [TFile k id None (dir ++ "/worker-dyn-" ++ fmt_d id ++ ".sock")])
          else Some (p, [TSpawned k id (Some ErrBind)])
      end
  | TFile k id s path =>
      if o_ok o then
        (* the flag is read here without its lock *)
        let env := appendOrReplaceEnv (o_env o) env_mode in
        if ducklakeMigrate p then Some (p, [TLock k id s path (appendOrReplaceEnv env (env_migrate true))])
        else Some (p, [TStart k id s path env false])
      else Some (return_slot s p, [TSpawned k id (Some ErrListenerFd)])
  | TLock k id s path env =>
      if migrateMu p then None else
      if ducklakeMigrate p then Some (with_migrate true true p, [TStart k id s path env true])
      else Some (p, [TStart k id s path (appendOrReplaceEnv env (env_migrate false)) false])
  | TStart k id s path env migrating =>
      if o_ok o then
        Some (with_objs (objs p ++ [new_worker id path env s]) p, [TWait k id (length (objs p)) migrating])
      else
        let p := if migrating then with_migrate false (ducklakeMigrate p) p else p in
        Some (return_slot s p, [TSpawned k id (Some ErrStart)])
  | TWait k id r migrating =>
      match waitForWorker (spawnTimeout migrating) (o_turns o) with
      | None => None
      | Some e =>
          let p := if migrating
                   then with_migrate false (if e is Some _ then ducklakeMigrate p else false) p else p in
          Some (p, [match e with Some e => TKill k id r e | None => TAdd k id r end])
      end
  | TKill k id r e =>
      match objs p !! r with
      | Some w =>
          if exited w then
            (* nothing refers to the object after this: its slot is back in the pool *)
            Some (upd (set_slot None (released w)) r (return_slot (w_prebound w) p),
                  [TSpawned k id (Some (ErrFailedToStart e))])
          else None
      | None => None
      end
  | TAdd k id r => Some (with_workers (<[ id := r ]> (workers p)) p, [TSpawned k id None])
  | TSpawned ForAcquire id e =>
      Some (with_spawning (nextWorkerID p) (spawning p - 1) p,
            match e with Some _ => [] | None => [TLookup id] end)
  | TSpawned ForAll id e =>
      Some (with_boot (all_wg p - 1) (if e is Some _ then true else all_err p) (booted p) p, [])
  | _ => None
  end.

(** [AcquireWorker] around the spawn, and the session it is for: the session manager
    ends with ReleaseWorker, or with RetireWorkerIfNoSessions when the session could
    not be created. A worker that is no longer in the pool is not given back. *)
Definition acquire_next (o : oracle) (t : thread) (p : FlightWorkerPool) : option (FlightWorkerPool * list thread) :=
  match t with
  | TAcquire =>
      if is_range (o_dead o) p && is_range (o_order o) p then
        let '(res, gone, p) := acquire_section (o_dead o) (o_order o) p in
        Some (p, match res with
                 | Refused _ => []
                 | Use r => [TSession r]
                 | Spawn id => [TTake ForAcquire id]
                 | Retry => [TAcquire]
                 end ++ (TRelease <$> gone))
      else None
  | TLookup id =>
      match Worker id p with
      | Some r => Some (p, [TClaim r])
      | None => Some (p, [])
      end
  | TClaim r => Some (upd add_session r p, [TSession r])
  | TSession r =>
      let '(gone, p) :=
        if o_ok o then ReleaseWorker (o_now o) (obj_id p r) p
        else RetireWorkerIfNoSessions (obj_id p r) p in
      Some (p, TRetire <$> option_list gone)
  | _ => None
  end.

(** [retireWorkerProcess]: a worker that runs is signalled and waited for. *)
Definition retire_next (o : oracle) (t : thread) (p : FlightWorkerPool) : option (FlightWorkerPool * list thread) :=
  match t with
  | TRetire r => Some (p, [if obj_exited p r then TRelease r else TRetireWait r])
  | TRetireWait r => if obj_exited p r then Some (p, [TRelease r]) else None
  | TRelease r => Some (releaseWorkerSocket (o_ok o) r p, [])
  | _ => None
  end.

(** [SpawnAll]. An error ends the program: the pool is never used after it. When it
    has returned, RunControlPlane starts the health checks. *)
Definition all_next (o : oracle) (t : thread) (p : FlightWorkerPool) : option (FlightWorkerPool * list thread) :=
  match t with
  | TAll count =>
      Some (with_boot (Z.of_nat count) false false p,
            TAllWait count :: ((λ i, TTake ForAll (Z.of_nat i)) <$> seq 0 count))
  | TAllWait count =>
      if bool_decide (all_wg p = 0) then
        if all_err p then Some (p, []) else
        let n := if bool_decide (nextWorkerID p < Z.of_nat count) then Z.of_nat count else nextWorkerID p in
        Some (with_boot 0 false true (with_spawning n (spawning p) p), [THealth])
      else None
  | _ => None
  end.

Definition maxConsecutiveHealthFailures : Z := 3.

(** The outcome of one health check: the new count of failures, and whether the
    worker is to be killed. *)
Definition record_check (healthy : bool) (id : Z) (fs : gmap Z Z) : bool * gmap Z Z :=
  if healthy then (false, delete id fs) else
  let count := default 0 (fs !! id) + 1 in
  if bool_decide (maxConsecutiveHealthFailures ≤ count) then (true, delete id fs)
  else (false, <[ id := count ]> fs).

(** Takes a worker found dead or unresponsive out of the pool, by its id. *)
Definition evict (r : nat) (p : FlightWorkerPool) : bool * FlightWorkerPool :=
  let id := obj_id p r in
  match workers p !! id with
  | Some _ => (true, with_workers (delete id (workers p)) p)
  | None => (false, p)
  end.
Definition hc_done (p : FlightWorkerPool) : FlightWorkerPool := with_health (hc_wg p - 1) (failures p) p.

(** [HealthCheckLoop]. The crash and progress handlers are the session manager's. *)
Definition health_next (o : oracle) (t : thread) (p : FlightWorkerPool) : option (FlightWorkerPool * list thread) :=
  match t with
  | THealth =>
      if o_ctx o || shuttingDown p then Some (p, []) else
      if is_range (o_order o) p then
        let rs := omap (λ id, workers p !! id) (o_order o) in
        Some (with_health (Z.of_nat (length rs)) (failures p) p, THealthWait :: (TCheck <$> rs))
      else None
  | THealthWait => if bool_decide (hc_wg p = 0) then Some (p, [THealth]) else None
  | TCheck r =>
      if o_ctx o then Some (hc_done p, []) else
      if obj_exited p r then
        let p := with_health (hc_wg p) (delete (obj_id p r) (failures p)) p in
        match evict r p with
        | (true, p) => Some (p, [TCheckRelease r])
        | (false, p) => Some (hc_done p, [])
        end
      else Some (p, [TCheckRpc r])
  | TCheckRpc r =>
      let '(kill, fs) := record_check (o_ok o) (obj_id p r) (failures p) in
      let p := with_health (hc_wg p) fs p in
      if kill then Some (p, [TCheckEvict r]) else Some (hc_done p, [])
  | TCheckEvict r =>
      match evict r p with
      | (true, p) => Some (p, [TCheckKill r])
      | (false, p) => Some (hc_done p, [])
      end
  | TCheckKill r => if obj_exited p r then Some (p, [TCheckRelease r]) else None
  | TCheckRelease r => Some (hc_done (releaseWorkerSocket (o_ok o) r p), [])
  | _ => None
  end.

(** [ShutdownAll]. *)
Definition shutdown_next (o : oracle) (t : thread) (p : FlightWorkerPool) : option (FlightWorkerPool * list thread) :=
  match t with
  | TShutdown =>
      if shuttingDown p then Some (p, []) else
      if is_range (o_order o) p
      then Some (with_shutting p, [TShutWait (omap (λ id, workers p !! id) (o_order o))])
      else None
  | TShutWait (r :: rs) =>
      if obj_exited p r then Some (releaseWorkerSocket (o_ok o) r p, [TShutWait rs]) else None
  | TShutWait [] => Some (with_workers ∅ p, [TShutClose])
  | TShutClose => Some (closeAllPrebound p, [])
  | _ => None
  end.

Definition tnext (o : oracle) (t : thread) (p : FlightWorkerPool) : option (FlightWorkerPool * list thread) :=
  match t with
  | TAcquire | TLookup _ | TClaim _ | TSession _ => acquire_next o t p
  | TRetire _ | TRetireWait _ | TRelease _ => retire_next o t p
  | TAll _ | TAllWait _ => all_next o t p
  | THealth | THealthWait | TCheck _ | TCheckRpc _ | TCheckEvict _ | TCheckKill _ | TCheckRelease _ =>
      health_next o t p
  | TShutdown | TShutWait _ | TShutClose => shutdown_next o t p
  | TReap =>
      if is_range (o_order o) p then
        let '(rs, p) := reapIdleWorkers (o_now o) (o_order o) p in Some (p, TRetire <$> rs)
      else None
  | TRetireCall id =>
      let '(gone, p) := RetireWorker id p in Some (p, TRetire <$> option_list gone)
  | _ => spawn_next o t p
  end.

(** * The system *)

Inductive call := CallAcquire | CallReap | CallRetire (id : Z) | CallShutdown.
Definition call_thread (c : call) : thread :=
  match c with
  | CallAcquire => TAcquire
  | CallReap => TReap
  | CallRetire id => TRetireCall id
  | CallShutdown => TShutdown
  end.

Inductive event :=
  | Run (i : nat) (o : oracle)     (** goroutine [i] *)
  | Exit (r : nat)                 (** the process of worker [r] exits *)
  | Call (c : call).

Record system := { pool : FlightWorkerPool; threads : list thread }.

(** Calls come in once SpawnMinWorkers has returned. The cap is set once, before
    that: in this mode nothing calls [SetMaxWorkers]. *)
Definition step (e : event) (S : system) : option system :=
  let p := pool S in
  match e with
  | Run i o =>
      t ← threads S !! i;
      '(p, ts) ← tnext o t p;
      Some {| pool := p; threads := take i (threads S) ++ ts ++ drop (i + 1) (threads S) |}
  | Exit r => Some {| pool := upd set_exited r p; threads := threads S |}
  | Call c =>
      if booted p then Some {| pool := p; threads := threads S ++ [call_thread c] |} else None
  end.

Fixpoint run (es : list event) (S : system) : option system :=
  match es with
  | [] => Some S
  | e :: es' => S ← step e S; run es' S
  end.

(** The set-up of RunControlPlane in process mode: the pool with its settings, the
    pre-bound sockets, then SpawnMinWorkers. *)
Definition boot (dir : string) (min max timeout : Z) (retire migrate : bool) (binds : list bool) : system :=
  let min := if bool_decide (max < min) then max else min in
  let p := NewFlightWorkerPool dir min max in
  let p := {| workers := workers p; nextWorkerID := nextWorkerID p; spawning := spawning p;
              socketDir := socketDir p; fallbackSocketDir := fallbackSocketDir p; maxWorkers := maxWorkers p;
              minWorkers := minWorkers p; idleTimeout := timeout; retireOnSessionEnd := retire;
              shuttingDown := shuttingDown p; prebound := prebound p; migrateMu := migrateMu p;
              ducklakeMigrate := migrate; objs := objs p; all_wg := all_wg p; all_err := all_err p;
              booted := booted p; hc_wg := hc_wg p; failures := failures p |} in
  let p := if bool_decide (0 < max) then snd (PreBindSockets binds p) else p in
  if bool_decide (0 < min)
  then {| pool := p; threads := [TAll (Z.to_nat min)] |}
  else {| pool := with_boot 0 false true p; threads := [THealth] |}.

Inductive reachable : system → Prop :=
  | reach_boot dir min max timeout retire migrate binds :
      0 ≤ max → Z.of_nat (length binds) = max →
      reachable (boot dir min max timeout retire migrate binds)
  | reach_step S e S' : reachable S → step e S = Some S' → reachable S'.
