(* ===== verification/PoolTheorems.v ===== *)
(** Invariants of the worker pool (WorkerPool) over every interleaving. *)

From Stdlib Require Import Strings.Byte.
From stdpp Require Import prelude gmap strings list fin_maps.
From Stdlib Require Import ZArith Lia.
From S2P Require Import Prelude GoText WorkerPool.

Open Scope Z_scope.

(** * Cases of a step *)

(** Splits a step of a given goroutine into its outcomes; [tcases] of any goroutine. *)
Ltac tsplit H :=
  cbn [tnext spawn_next acquire_next retire_next all_next health_next shutdown_next] in H; cbv zeta in H;
  repeat (match type of H with
          | context [match ?x with _ => _ end] =>
              lazymatch x with
              | context [match _ with _ => _ end] => fail
              | _ => destruct x eqn:?
              end
          end; cbn beta iota in H; try discriminate H);
  try (injection H as <- <-).
Ltac tcases H :=
  match type of H with tnext _ ?t _ = Some _ => destruct t; tsplit H end.

(** A step, up to the order of the goroutines. *)
Lemma step_run i o S S' : step (Run i o) S = Some S' →
  ∃ t p new rest, tnext o t (pool S) = Some (p, new) ∧ threads S ≡ₚ t :: rest ∧
    S' = {| pool := p; threads := threads S' |} ∧ threads S' ≡ₚ new ++ rest.
Proof.
  cbn. destruct (threads S !! i) as [t|] eqn:Et; [|done]. cbn.
  destruct (tnext o t (pool S)) as [[p new]|] eqn:En; [|done]. cbn. intros [= <-].
  exists t, p, new, (take i (threads S) ++ drop (i + 1) (threads S)). repeat split; [done| |].
  - rewrite <- (take_drop_middle _ _ _ Et) at 1. rewrite Nat.add_1_r.
    symmetry. apply Permutation_middle.
  - cbn. rewrite !(assoc_L (++)). f_equiv. apply Permutation_app_comm.
Qed.

(** An invariant holds of every reachable system when it holds after the set-up and
    every kind of step keeps it; [J] is an invariant known before. *)
Section InvariantRule.
Context (J I : FlightWorkerPool → list thread → Prop).
Hypothesis J_perm : ∀ p ts ts', ts ≡ₚ ts' → J p ts → J p ts'.
Hypothesis J_holds : ∀ S, reachable S → J (pool S) (threads S).
Hypothesis I_perm : ∀ p ts ts', ts ≡ₚ ts' → I p ts → I p ts'.
Hypothesis I_boot : ∀ dir min max timeout retire migrate binds,
  0 ≤ max → Z.of_nat (length binds) = max →
  let S := boot dir min max timeout retire migrate binds in I (pool S) (threads S).
Hypothesis I_run : ∀ o t p rest p' new, J p (t :: rest) → I p (t :: rest) →
  tnext o t p = Some (p', new) → I p' (new ++ rest).
Hypothesis I_exit : ∀ r p ts, J p ts → I p ts → I (upd set_exited r p) ts.
Hypothesis I_call : ∀ c p ts, booted p = true → J p ts → I p ts → I p (call_thread c :: ts).

Lemma invariant_rule S : reachable S → I (pool S) (threads S).
Proof using All.
  induction 1 as [|S e S' HS IH Hstep]; [by apply I_boot|].
  pose proof (J_holds S HS) as HJ. destruct e as [i o|r|c].
  - apply step_run in Hstep as (t & p & new & rest & Hn & Hts & -> & Hts').
    cbn in *. eapply I_perm; [symmetry; exact Hts'|].
    eapply I_run; [by eapply J_perm|by eapply I_perm|done].
  - cbn in Hstep. simplify_eq. by apply I_exit.
  - cbn in Hstep. destruct (booted (pool S)) eqn:Eb; [|done]. simplify_eq. cbn.
    eapply I_perm; [|by apply (I_call c)]. apply Permutation_cons_append.
Qed.
End InvariantRule.

(** * What the operations do *)

(** Objects are never lost, keep their id and the socket they were started with, and
    an exited process stays exited. *)
Definition ext (os os' : list ManagedWorker) : Prop :=
  ∀ r w, os !! r = Some w →
    ∃ w', os' !! r = Some w' ∧ ID w' = ID w ∧ cmdSlot w' = cmdSlot w ∧ (exited w = true → exited w' = true).

#[export] Instance ext_preorder : PreOrder ext.
Proof.
  split.
  - intros os r w H. by exists w.
  - intros a b c Hab Hbc r w H. destruct (Hab r w H) as (w1 & Hw1 & Hi1 & Hc1 & Hx1).
    destruct (Hbc r w1 Hw1) as (w2 & Hw2 & Hi2 & Hc2 & Hx2).
    exists w2. split; [done|]. repeat split; [congruence..|tauto].
Qed.

Lemma ext_alter f r os :
  (∀ w, ID (f w) = ID w ∧ cmdSlot (f w) = cmdSlot w ∧ (exited w = true → exited (f w) = true)) →
  ext os (alter f r os).
Proof.
  intros Hf r' w H. destruct (decide (r' = r)) as [->|].
  - exists (f w). rewrite list_lookup_alter_eq, H. split; [done|]. apply Hf.
  - exists w. by rewrite list_lookup_alter_ne by done.
Qed.
Lemma ext_app os l : ext os (os ++ l).
Proof. intros r w H. exists w. by rewrite (lookup_app_l_Some _ _ _ _ H). Qed.

Lemma ext_exited os : ∀ r, ext os (alter set_exited r os).
Proof. intros r. apply ext_alter. by intros [] . Qed.
Lemma ext_slot os s b : ∀ r, ext os (alter (set_slot s b) r os).
Proof. intros r. apply ext_alter. by intros []. Qed.
Lemma ext_add os : ∀ r, ext os (alter add_session r os).
Proof. intros r. apply ext_alter. by intros []. Qed.
Lemma ext_drop os : ∀ r, ext os (alter drop_session r os).
Proof. intros r. apply ext_alter. by intros []. Qed.
Lemma ext_stamp os n : ∀ r, ext os (alter (stamp n) r os).
Proof. intros r. apply ext_alter. by intros []. Qed.
Lemma ext_drop_stamp os n : ∀ r, ext os (alter (stamp n) r (alter drop_session r os)).
Proof. intros r. etrans; [apply ext_drop|apply ext_stamp]. Qed.
#[export] Hint Resolve ext_drop_stamp ext_exited ext_slot ext_add ext_drop ext_stamp ext_app : duckgres.

Lemma ext_lookup os os' r : ext os os' → is_Some (os !! r) → is_Some (os' !! r).
Proof. intros H [w Hw]. destruct (H r w Hw) as (w' & ? & _). eauto. Qed.
Lemma ext_obj_exited p p' r : ext (objs p) (objs p') → obj_exited p r = true → obj_exited p' r = true.
Proof.
  unfold obj_exited. intros H. destruct (objs p !! r) as [w|] eqn:E; [|done].
  destruct (H r w E) as (w' & -> & _ & _ & Hx). done.
Qed.
Lemma ext_obj_id p p' r w : ext (objs p) (objs p') → objs p !! r = Some w → obj_id p' r = ID w.
Proof. unfold obj_id. intros H E. by destruct (H r w E) as (w' & -> & Hid & _). Qed.

(** The pool after some workers [rs] were taken out of the map. *)
Definition taken (p : FlightWorkerPool) (rs : list nat) (p' : FlightWorkerPool) : Prop :=
  ∃ ws, p' = with_workers ws p ∧ ws ⊆ workers p ∧
    (∀ id r, workers p !! id = Some r → ws !! id = None → r ∈ rs) ∧
    (∀ r, r ∈ rs → ∃ id, workers p !! id = Some r ∧ ws !! id = None).

Lemma taken_refl p : taken p [] p.
Proof.
  exists (workers p). split; [by destruct p|]. split; [done|].
  split; [congruence|]. intros r []%elem_of_nil.
Qed.

Lemma taken_delete p id r : workers p !! id = Some r → taken p [r] (with_workers (delete id (workers p)) p).
Proof.
  intros H. eexists. split; [done|]. split; [apply delete_subseteq|]. split.
  - intros id' r' Hr' Hn. destruct (decide (id' = id)) as [->|Hne].
    + simplify_eq. by apply list_elem_of_singleton.
    + rewrite lookup_delete_ne in Hn by done. congruence.
  - intros r' ->%list_elem_of_singleton. exists id. by rewrite lookup_delete_eq.
Qed.

Lemma taken_cons p id r rs p' : workers p !! id = Some r →
  taken (with_workers (delete id (workers p)) p) rs p' → taken p (r :: rs) p'.
Proof.
  intros H (ws & -> & Hsub & H1 & H2). cbn in *. exists ws. split; [done|].
  split; [by etrans; [|apply delete_subseteq]|]. split.
  - intros id' r' Hr' Hn. destruct (decide (id' = id)) as [->|Hne].
    + simplify_eq. apply list_elem_of_here.
    + apply list_elem_of_further, (H1 id'); [|done]. by rewrite lookup_delete_ne.
  - intros r' [->|Hr']%elem_of_cons.
    + exists id. split; [done|]. destruct (ws !! id) eqn:E; [|done].
      eapply lookup_weaken in E; [|exact Hsub]. by rewrite lookup_delete_eq in E.
    + destruct (H2 r' Hr') as (id' & Hid' & ?). exists id'.
      by apply lookup_delete_Some in Hid' as [_ ?].
Qed.

Lemma worker_at_Some p id r w : worker_at p id = Some (r, w) ↔ workers p !! id = Some r ∧ objs p !! r = Some w.
Proof.
  unfold worker_at. destruct (workers p !! id) as [r'|] eqn:E; cbn; [|naive_solver].
  destruct (objs p !! r') as [w'|] eqn:E'; cbn; naive_solver.
Qed.

Lemma reap_loop_spec now order : ∀ n p rs p', reap_loop now n order p = (rs, p') →
  taken p rs p' ∧ ∀ r, r ∈ rs → ∃ w, objs p !! r = Some w ∧ activeSessions w = 0.
Proof.
  induction order as [|id order IH]; intros n p rs p'; cbn.
  { intros [= <- <-]. split; [apply taken_refl|]. by intros r ?%elem_of_nil. }
  case_bool_decide.
  { intros [= <- <-]. split; [apply taken_refl|]. by intros r ?%elem_of_nil. }
  destruct (worker_at p id) as [[r w]|] eqn:Ew; [|apply IH].
  apply worker_at_Some in Ew as [Hr Hw].
  destruct (may_reap now p w) eqn:Em; [|apply IH].
  destruct (reap_loop now (n - 1) order _) as [rs1 p1] eqn:El. intros [= <- <-].
  apply IH in El as [Ht Ha]. split; [by eapply taken_cons|].
  intros r' [->|Hr']%elem_of_cons; [|by apply (Ha r')].
  exists w. split; [done|]. unfold may_reap in Em. by to_prop.
Qed.

Lemma find_idle_spec order p r : findIdleWorkerLocked order p = Some r →
  ∃ id w, id ∈ order ∧ workers p !! id = Some r ∧ objs p !! r = Some w ∧ exited w = false ∧ activeSessions w = 0.
Proof.
  induction order as [|id order IH]; cbn; [done|].
  assert (findIdleWorkerLocked order p = Some r → ∃ id0 w, id0 ∈ id :: order ∧ workers p !! id0 = Some r ∧
    objs p !! r = Some w ∧ exited w = false ∧ activeSessions w = 0) as Hrec.
  { intros H. destruct (IH H) as (id' & w & ? & ?). exists id', w. split; [by apply list_elem_of_further|done]. }
  destruct (worker_at p id) as [[r' w]|] eqn:Ew; [|done]. apply worker_at_Some in Ew as [? ?].
  destruct (_ && _) eqn:E; [|done]. intros [= ->]. to_prop.
  exists id, w. split; [apply list_elem_of_here|done].
Qed.

Lemma least_loop_spec order p : ∀ best r w, least_loop best order p = Some (r, w) →
  best = Some (r, w) ∨ ∃ id, id ∈ order ∧ workers p !! id = Some r ∧ objs p !! r = Some w ∧ exited w = false.
Proof.
  induction order as [|id order IH]; intros best r w; cbn; [by left|].
  destruct (worker_at p id) as [[r' w']|] eqn:Ew; intros H.
  2:{ destruct (IH _ _ _ H) as [?|(id' & ? & ?)]; [by left|right]. exists id'. split; [by apply list_elem_of_further|done]. }
  apply worker_at_Some in Ew as [? ?].
  destruct (IH _ _ _ H) as [Hb|(id' & ? & ?)];
    [|right; exists id'; split; [by apply list_elem_of_further|done]].
  destruct (exited w') eqn:Ex; [by left|].
  assert (best = Some (r, w) ∨ Some (r', w') = Some (r, w)) as [?|[= -> ->]].
  { destruct best as [[? b]|]; [|by right]. case_bool_decide; [by right|by left]. }
  - by left.
  - right. exists id. split; [apply list_elem_of_here|done].
Qed.

(** The map without the dead workers. *)
Definition cleaned (p : FlightWorkerPool) : FlightWorkerPool :=
  with_workers (filter (λ kv, is_live p kv.2 = true) (workers p)) p.

Lemma cleaned_lookup p id r : workers (cleaned p) !! id = Some r ↔ workers p !! id = Some r ∧ is_live p r = true.
Proof. cbn. rewrite map_lookup_filter_Some. done. Qed.

Definition acquired (p : FlightWorkerPool) (res : acquire_result) (p' : FlightWorkerPool) : Prop :=
  (∃ r id, workers (cleaned p) !! id = Some r ∧ res = Use r ∧ p' = upd add_session r (cleaned p)) ∨
  ((0 ≤ maxWorkers p → maxWorkers p = 0 ∨ liveWorkerCountLocked (cleaned p) < maxWorkers p) ∧
   res = Spawn (nextWorkerID p) ∧
   p' = with_spawning (nextWorkerID p + 1) (spawning p + 1) (cleaned p)) ∨
  (res = Retry ∧ p' = cleaned p).

Lemma acquire_section_spec dead order p res gone p' :
  acquire_section dead order p = (res, gone, p') →
  (shuttingDown p = true ∧ (∃ e, res = Refused e) ∧ gone = [] ∧ p' = p) ∨
  (shuttingDown p = false ∧ gone = (cleanDeadWorkersLocked dead p).1 ∧ acquired p res p').
Proof.
  unfold acquire_section. destruct (shuttingDown p); [intros [= <- <- <-]; left; split; [done|]; split; [by eexists|done]|].
  cbn [cleanDeadWorkersLocked reserve_spawn fst]. change (with_workers _ p) with (cleaned p).
  intros H. right. split; [done|].
  destruct (findIdleWorkerLocked order (cleaned p)) as [r|] eqn:Ei.
  { simplify_eq. split; [done|]. apply find_idle_spec in Ei as (id & w & _ & Hid & _). left. by exists r, id. }
  destruct (bool_decide (maxWorkers (cleaned p) = 0) || bool_decide (liveWorkerCountLocked (cleaned p) < maxWorkers (cleaned p))) eqn:Em.
  { simplify_eq. split; [done|]. right. left. split; [|done]. intros _.
    apply orb_true_iff in Em as [E|E]; to_prop; cbn [cleaned with_workers maxWorkers] in E; tauto. }
  to_prop. destruct (leastLoadedWorkerLocked order (cleaned p)) as [r|] eqn:El.
  { simplify_eq. split; [done|]. unfold leastLoadedWorkerLocked in El.
    apply fmap_Some in El as ([r' w] & Hl & ->). apply least_loop_spec in Hl as [|(id & _ & Hid & _)]; [done|].
    left. by exists r', id. }
  destruct (_ && _) eqn:E2; simplify_eq; (split; [done|]); [right; by right|].
  right. left. split; [|done]. cbn in *. intros Hmax. apply andb_false_iff in E2 as [E2|E2]; to_prop; lia.
Qed.

Lemma clean_gone dead p r : r ∈ (cleanDeadWorkersLocked dead p).1 →
  is_live p r = false ∧ ∃ id, workers p !! id = Some r.
Proof.
  cbn. rewrite list_elem_of_filter, list_elem_of_omap. intros (H & id & _ & Hid). eauto.
Qed.

Lemma ReleaseWorker_spec now id p gone p' : ReleaseWorker now id p = (gone, p') →
  (workers p !! id = None ∨ (∃ r, workers p !! id = Some r ∧ objs p !! r = None)) ∧ gone = None ∧ p' = p ∨
  ∃ r w, workers p !! id = Some r ∧ objs p !! r = Some w ∧
    ((gone = Some r ∧ activeSessions (drop_session w) = 0 ∧
        p' = with_workers (delete id (workers p)) (upd drop_session r p)) ∨
     (gone = None ∧ p' = upd (stamp now) r (upd drop_session r p))).
Proof.
  unfold ReleaseWorker. destruct (worker_at p id) as [[r w]|] eqn:E.
  - apply worker_at_Some in E as [Hr Hw]. intros H. right. exists r, w. split; [done|]. split; [done|].
    destruct (_ && _) eqn:Eb; simplify_eq; [left|right]; [|done]. to_prop. done.
  - intros [= <- <-]. left. split; [|done]. unfold worker_at in E.
    destruct (workers p !! id) as [r|]; [right|by left]. cbn in E. destruct (objs p !! r) eqn:Er; [done|]. eauto.
Qed.

Lemma RetireIfNone_spec id p gone p' : RetireWorkerIfNoSessions id p = (gone, p') →
  (workers p !! id = None ∨ (∃ r, workers p !! id = Some r ∧ objs p !! r = None)) ∧ gone = None ∧ p' = p ∨
  ∃ r w, workers p !! id = Some r ∧ objs p !! r = Some w ∧
    ((gone = Some r ∧ activeSessions (drop_session w) = 0 ∧
        p' = with_workers (delete id (workers p)) (upd drop_session r p)) ∨
     (gone = None ∧ p' = upd drop_session r p)).
Proof.
  unfold RetireWorkerIfNoSessions. destruct (worker_at p id) as [[r w]|] eqn:E.
  - apply worker_at_Some in E as [Hr Hw]. intros H. right. exists r, w. split; [done|]. split; [done|].
    case_bool_decide; simplify_eq; [left|right]; done.
  - intros [= <- <-]. left. split; [|done]. unfold worker_at in E.
    destruct (workers p !! id) as [r|]; [right|by left]. cbn in E. destruct (objs p !! r) eqn:Er; [done|]. eauto.
Qed.

Lemma effectiveSocketDir_spec wr mk p d p' : effectiveSocketDir wr mk p = (d, p') →
  ∃ f, p' = with_fallback f p.
Proof.
  intros H. exists (fallbackSocketDir p'). apply (f_equal snd) in H. cbn in H. subst p'.
  unfold effectiveSocketDir. destruct (negb _), wr, mk; by destruct p.
Qed.

(** Rewrites the outcome of an operation met by [tcases] into its effect. *)
Ltac op_specs :=
  repeat match goal with
  | H : acquire_section _ _ _ = _ |- _ =>
      apply acquire_section_spec in H as [(? & [? ?] & ? & ?)|(? & ? & [(? & ? & ? & ? & ?)|[(? & ? & ?)|[? ?]]])]; simplify_eq
  | H : ReleaseWorker _ _ _ = _ |- _ =>
      apply ReleaseWorker_spec in H as [([? |[? [? ?]]] & ? & ?)|(? & ? & ? & ? & [(? & ? & ?)|[? ?]])]; subst
  | H : RetireWorkerIfNoSessions _ _ = _ |- _ =>
      apply RetireIfNone_spec in H as [([? |[? [? ?]]] & ? & ?)|(? & ? & ? & ? & [(? & ? & ?)|[? ?]])]; subst
  | H : reapIdleWorkers _ _ _ = _ |- _ =>
      apply reap_loop_spec in H as [(? & ? & ? & ? & ?) ?]; subst
  | H : RetireWorker _ _ = _ |- _ =>
      unfold RetireWorker in H; destruct (workers _ !! _) eqn:? in H; inversion H; subst; clear H
  | H : evict _ _ = _ |- _ =>
      unfold evict in H; cbv zeta in H; destruct (workers _ !! _) eqn:? in H; inversion H; subst; clear H
  | H : pop_prebound _ = _ |- _ =>
      unfold pop_prebound in H; destruct (last _) eqn:? in H; inversion H; subst; clear H
  | H : effectiveSocketDir _ _ _ = _ |- _ => apply effectiveSocketDir_spec in H as [? ->]
  end.

Lemma releaseWorkerSocket_objs b r p :
  objs (releaseWorkerSocket b r p) = objs p ∨
  ∃ w, objs p !! r = Some w ∧ objs (releaseWorkerSocket b r p) = alter (set_slot None true) r (objs p).
Proof.
  unfold releaseWorkerSocket. destruct (objs p !! r) as [w|] eqn:E; [|by left].
  destruct (released w); [by left|]. right. exists w. split; [done|].
  destruct (w_prebound w); [destruct b|]; done.
Qed.

Lemma ext_release b r p : ext (objs p) (objs (releaseWorkerSocket b r p)).
Proof. destruct (releaseWorkerSocket_objs b r p) as [->|(w & _ & ->)]; [done|]. apply ext_slot. Qed.
#[export] Hint Resolve ext_release : duckgres.

Lemma return_slot_objs s p : objs (return_slot s p) = objs p.
Proof. by destruct s. Qed.

Lemma tnext_ext o t p p' new : tnext o t p = Some (p', new) → ext (objs p) (objs p').
Proof.
  intros H. tcases H; op_specs; cbn; rewrite ?return_slot_objs; cbn;
    repeat case_match; try reflexivity; eauto with duckgres.
Qed.

(** * Well-formedness: pointers are valid, and a socket is only given back by a
    goroutine that has seen the process exit *)

Definition refs (t : thread) : list nat :=
  match t with
  | TWait _ _ r _ | TKill _ _ r _ | TAdd _ _ r | TClaim r | TSession r | TRetire r | TRetireWait r
  | TRelease r | TCheck r | TCheckRpc r | TCheckEvict r | TCheckKill r | TCheckRelease r => [r]
  | TShutWait rs => rs
  | _ => []
  end.
Definition dead_refs (t : thread) : list nat :=
  match t with TRelease r | TCheckRelease r => [r] | _ => [] end.

Definition tok (p : FlightWorkerPool) (t : thread) : Prop :=
  (∀ r, r ∈ refs t → is_Some (objs p !! r)) ∧ (∀ r, r ∈ dead_refs t → obj_exited p r = true).
Definition pok (p : FlightWorkerPool) : Prop :=
  (∀ id r, workers p !! id = Some r → is_Some (objs p !! r)) ∧
  (∀ r w, objs p !! r = Some w → exited w = false → w_prebound w = cmdSlot w).
Definition wf (p : FlightWorkerPool) (ts : list thread) : Prop := pok p ∧ ∀ t, t ∈ ts → tok p t.

Lemma tok_ext p p' t : ext (objs p) (objs p') → tok p t → tok p' t.
Proof.
  intros He [H1 H2]. split; intros r Hr.
  - by eapply ext_lookup, H1.
  - by eapply ext_obj_exited, H2.
Qed.

Lemma not_live_exited p r : is_Some (objs p !! r) → is_live p r = false → obj_exited p r = true.
Proof. unfold is_live, obj_exited. intros [w ->]. by destruct (exited w). Qed.

Lemma in_option_list {A} (x : A) o : x ∈ option_list o → o = Some x.
Proof. destruct o; cbn; [intros ->%list_elem_of_singleton|intros ?%elem_of_nil]; done. Qed.

Ltac in_lists :=
  repeat match goal with
  | H : _ ∈ [] |- _ => by apply elem_of_nil in H
  | H : _ ∈ [_] |- _ => apply list_elem_of_singleton in H as ->
  | H : _ ∈ _ :: _ |- _ => apply elem_of_cons in H as [->|H]
  | H : _ ∈ _ ++ _ |- _ => apply elem_of_app in H as [H|H]
  | H : _ ∈ omap _ _ |- _ => apply list_elem_of_omap in H as (? & _ & H)
  | H : _ ∈ _ <$> _ |- _ => apply list_elem_of_fmap in H as (? & -> & H)
  | H : _ ∈ option_list _ |- _ => apply in_option_list in H; simplify_eq
  end.

Lemma new_threads_ok o t p p' new : pok p → tok p t → tnext o t p = Some (p', new) →
  ∀ t', t' ∈ new → tok p' t'.
Proof.
  intros [Hw _] [Hr Hd] H t' Hin. pose proof (tnext_ext _ _ _ _ _ H) as He.
  assert (∀ id r, workers p !! id = Some r → is_Some (objs p' !! r)) as Hw' by (intros; eapply ext_lookup; eauto).
  assert (∀ r, r ∈ refs t → is_Some (objs p' !! r)) as Hr' by (intros; eapply ext_lookup; eauto).
  assert (∀ r, obj_exited p r = true → obj_exited p' r = true) as Hx by (intros; eapply ext_obj_exited; eauto).
  assert (∀ r, r ∈ (cleanDeadWorkersLocked (o_dead o) p).1 → is_Some (objs p' !! r) ∧ obj_exited p' r = true) as Hg.
  { intros r (Hl & id & Hid)%clean_gone. split; [by eapply Hw'|]. apply Hx, not_live_exited; [by eapply Hw|done]. }
  clear He. tcases H; op_specs; in_lists; split; cbn [refs dead_refs]; intros ? ?; in_lists;
    try (by apply Hg); try (eapply Hw'; eassumption);
    try (apply Hr'; first [apply list_elem_of_here|apply list_elem_of_further; assumption]);
    try assumption; try (apply Hx; assumption).
  - apply cleaned_lookup in H1 as [H1 _]. by eapply Hw'.
  - cbn. rewrite lookup_app_r, Nat.sub_diag by done. by eexists.
  - edestruct H2 as (id & ? & _); [eassumption|]. by eapply Hw'.
Qed.

Lemma Forall_alter_objs (P : ManagedWorker → Prop) f (r : nat) (os : list ManagedWorker) :
  (∀ r w, os !! r = Some w → P w) → (∀ w, os !! r = Some w → P (f w)) →
  ∀ r' w, alter f r os !! r' = Some w → P w.
Proof.
  intros H Hf r' w. rewrite list_lookup_alter. case_decide; [subst|by apply H].
  intros (w0 & Hw0 & ->)%fmap_Some. auto.
Qed.

Lemma return_slot_workers s p : workers (return_slot s p) = workers p.
Proof. by destruct s. Qed.
Lemma releaseWorkerSocket_workers b r p : workers (releaseWorkerSocket b r p) = workers p.
Proof.
  unfold releaseWorkerSocket. destruct (objs p !! r) as [w|]; [|done].
  destruct (released w); [done|]. destruct (w_prebound w); [destruct b|]; done.
Qed.

Ltac from_workers :=
  match goal with
  | H : ?m !! ?i = Some ?r |- workers ?p !! ?i = Some ?r =>
      first [exact H
            |apply lookup_delete_Some in H as [_ H]; exact H
            |apply map_lookup_filter_Some in H as [H _]; exact H
            |eapply lookup_weaken; eassumption]
  end.

(** Only SpawnWorker puts a worker in the map. *)
Lemma workers_from o t p p' new id r : tnext o t p = Some (p', new) →
  workers p' !! id = Some r → workers p !! id = Some r ∨ ∃ k, t = TAdd k id r.
Proof.
  intros H Hid.
  tcases H; op_specs; cbn in Hid; rewrite ?return_slot_workers, ?releaseWorkerSocket_workers in Hid;
    cbn in Hid; repeat case_match; try (left; from_workers).
  - apply lookup_insert_Some in Hid as [[-> ->]|[_ Hid]]; [right; by eexists|by left].
  - by rewrite lookup_empty in Hid.
Qed.

Lemma return_slot_obj s p r : objs (return_slot s p) !! r = objs p !! r.
Proof. by rewrite return_slot_objs. Qed.

(** What a step may do to an object: a process never exits by it, its socket is only
    given back once it has, and a new object is a worker just started. *)
Definition changed (w w' : ManagedWorker) : Prop :=
  exited w' = exited w ∧ (w_prebound w' = w_prebound w ∨ (exited w = true ∧ w_prebound w' = None)).

Lemma changed_refl w : changed w w.
Proof. split; [done|by left]. Qed.
#[export] Hint Resolve changed_refl : duckgres.

Definition changes (os os' : list ManagedWorker) : Prop :=
  ∀ r w', os' !! r = Some w' → ∃ w, os !! r = Some w ∧ changed w w'.

Lemma changes_refl os : changes os os.
Proof. intros r w H. eauto with duckgres. Qed.
Lemma changes_trans a b c : changes a b → changes b c → changes a c.
Proof.
  intros H1 H2 r w Hw. destruct (H2 r w Hw) as (w1 & Hw1 & Hx1 & Hp1).
  destruct (H1 r w1 Hw1) as (w0 & Hw0 & Hx0 & Hp0). exists w0. split; [done|].
  split; [congruence|]. destruct Hp1 as [->|[Hx ->]]; [done|]. right. split; [congruence|done].
Qed.
Lemma changes_alter f r os : (∀ w, os !! r = Some w → changed w (f w)) → changes os (alter f r os).
Proof.
  intros Hf r' w'. rewrite list_lookup_alter. case_decide; [subst|intros; eauto with duckgres].
  intros (w & Hw & ->)%fmap_Some. exists w. auto.
Qed.
Lemma changes_sessions f r os : (∀ w, exited (f w) = exited w ∧ w_prebound (f w) = w_prebound w) → changes os (alter f r os).
Proof. intros Hf. apply changes_alter. intros w _. destruct (Hf w). split; [done|by left]. Qed.
Lemma changes_release b r p : obj_exited p r = true → changes (objs p) (objs (releaseWorkerSocket b r p)).
Proof.
  intros Hx. destruct (releaseWorkerSocket_objs b r p) as [->|(w & Hw & ->)]; [apply changes_refl|].
  apply changes_alter. intros w0 Hw0. unfold obj_exited in Hx. rewrite Hw0 in Hx. split; [done|by right].
Qed.

Lemma objs_from o t p p' new : tok p t → tnext o t p = Some (p', new) →
  changes (objs p) (objs p') ∨
  ∃ k id s path env m, t = TStart k id s path env m ∧ objs p' = objs p ++ [new_worker id path env s].
Proof.
  intros [Hr Hd] H.
  tcases H; op_specs; cbn; rewrite ?return_slot_objs; cbn; repeat case_match;
    try (left; first [apply changes_refl|apply changes_sessions; by intros []
                     |apply changes_release, Hd, list_elem_of_here
                     |by apply changes_release]).
  - right. by repeat eexists.
  - left. apply changes_alter. intros w Hw. simplify_eq. split; [done|by right].
  - left. eapply changes_trans; apply changes_sessions; by intros [].
Qed.

Lemma step_pok o t p p' new : pok p → tok p t → tnext o t p = Some (p', new) → pok p'.
Proof.
  intros [Hw Hs] Ht H. split.
  - intros id r Hid. eapply ext_lookup; [by eapply tnext_ext|].
    destruct (workers_from _ _ _ _ _ _ _ H Hid) as [Hid'|[k ->]]; [by eapply Hw|].
    apply Ht, list_elem_of_here.
  - intros r w' Hw' Hx'. destruct (objs_from _ _ _ _ _ Ht H) as [Hc|(k & id & s & path & env & m & -> & Ho)].
    + destruct (Hc r w' Hw') as (w & Hw0 & Hx & [->|[? _]]); [|congruence].
      assert (exited w = false) as Hxw by congruence. rewrite (Hs _ _ Hw0 Hxw).
      destruct (tnext_ext _ _ _ _ _ H r w Hw0) as (w1 & Hw1 & _ & Hcs & _). congruence.
    + rewrite Ho in Hw'. apply lookup_app_Some in Hw' as [Hw'|[_ Hw']]; [by eapply Hs|].
      by apply list_lookup_singleton_Some in Hw' as [_ <-].
Qed.

Lemma PreBind_only binds : ∀ i p, ∃ l, snd (prebind_loop i binds p) = with_prebound l p.
Proof.
  induction binds as [|[] binds IH]; intros i p; cbn.
  - exists (prebound p). by destruct p.
  - destruct (IH (S i) (with_prebound (prebound p ++ [i]) p)) as [l ->]. by exists l.
  - by exists [].
Qed.

(** The pool after the set-up: nothing in it but free sockets. *)
Lemma boot_pool dir min max timeout retire migrate binds :
  let S := boot dir min max timeout retire migrate binds in
  workers (pool S) = ∅ ∧ objs (pool S) = [] ∧ spawning (pool S) = 0 ∧ all_wg (pool S) = 0 ∧ nextWorkerID (pool S) = 0 ∧
  migrateMu (pool S) = false ∧ shuttingDown (pool S) = false ∧ maxWorkers (pool S) = max ∧
  ((booted (pool S) = true ∧ threads S = [THealth]) ∨
   (booted (pool S) = false ∧ ∃ n, threads S = [TAll n] ∧ Z.of_nat n ≤ max)).
Proof.
  cbv zeta. unfold boot. cbv zeta. set (q := Build_FlightWorkerPool _ _ _ _ _ _ _ _ _ _ _ _ _ _ _ _ _ _ _).
  assert (∃ l, (if bool_decide (0 < max) then (PreBindSockets binds q).2 else q) = with_prebound l q) as [l ->].
  { case_bool_decide; [apply PreBind_only|]. by exists (prebound q). }
  repeat case_bool_decide; cbn; repeat (split; [done|]); try (by left); right; (split; [done|]).
  all: eexists; split; [done|]; lia.
Qed.

Lemma wf_reachable S : reachable S → wf (pool S) (threads S).
Proof.
  apply (invariant_rule (λ _ _, True)); clear S; [done|done|..].
  - intros p ts ts' Hp [H1 H2]. split; [done|]. intros t Ht. apply H2. by rewrite Hp.
  - intros dir min max timeout retire migrate binds _ _. cbv zeta.
    destruct (boot_pool dir min max timeout retire migrate binds) as (Hw & Ho & _ & _ & _ & _ & _ & _ & Hts).
    split; [split; rewrite ?Hw, ?Ho; by intros ? ? ?|].
    intros t Hin. destruct Hts as [[_ E]|(_ & n & E & _)]; rewrite E in Hin;
      apply list_elem_of_singleton in Hin as ->; split; intros r Hr; by apply elem_of_nil in Hr.
  - intros o t p rest p' new _ [Hp Ht] H. split; [eapply step_pok; [..|exact H]; [done|apply Ht, list_elem_of_here]|].
    intros t' [Hin|Hin]%elem_of_app.
    + eapply new_threads_ok; [done| |exact H|done]. apply Ht, list_elem_of_here.
    + eapply tok_ext; [by eapply tnext_ext|]. by apply Ht, list_elem_of_further.
  - intros r p ts _ [[Hw Hs] Ht]. split; [split|].
    + intros id r' Hid. eapply ext_lookup; [apply ext_exited|]. by eapply Hw.
    + apply (Forall_alter_objs (λ w, exited w = false → w_prebound w = cmdSlot w)); [done|]. by intros w Hw0 Hx.
    + intros t Hin. eapply tok_ext; [apply ext_exited|]. by apply Ht.
  - intros c p ts _ _ [Hp Ht]. split; [done|]. intros t [->|Hin]%elem_of_cons; [|by apply Ht].
    destruct c; split; intros r Hr; by apply elem_of_nil in Hr.
Qed.

(** * Pre-bound sockets *)

(** The slots a goroutine has in hand, and those of the objects. *)
Definition own_slots (t : thread) : list nat :=
  match t with
  | TStat _ _ s => [s]
  | TFile _ _ s _ | TLock _ _ s _ _ | TStart _ _ s _ _ _ => option_list s
  | _ => []
  end.
Definition obj_slots (w : ManagedWorker) : list nat := option_list (w_prebound w).

Definition occ (s : nat) (l : list nat) : nat := count_occ Nat.eq_dec l s.
Arguments occ : simpl never.
(** In how many places a slot is. *)
Definition places (s : nat) (p : FlightWorkerPool) (ts : list thread) : nat :=
  (occ s (prebound p) + occ s (ts ≫= own_slots) + occ s (objs p ≫= obj_slots))%nat.

Lemma occ_app s a b : occ s (a ++ b) = (occ s a + occ s b)%nat.
Proof. apply count_occ_app. Qed.
Lemma occ_nil s : occ s [] = 0%nat.
Proof. done. Qed.
Lemma occ_in s l : s ∈ l → (1 ≤ occ s l)%nat.
Proof. intros H. apply list_elem_of_In in H. by apply count_occ_In. Qed.
Lemma occ_perm s a b : a ≡ₚ b → occ s a = occ s b.
Proof. intros H. by apply Permutation_count_occ. Qed.
Lemma occ_last s l x : last l = Some x → (occ s (take (length l - 1) l) + occ s [x] = occ s l)%nat.
Proof.
  intros [l' ->]%last_Some. rewrite length_app. cbn.
  rewrite Nat.add_sub, take_app_length, occ_app. done.
Qed.
Lemma occ_seq s i n : (occ s (seq i n) ≤ 1)%nat.
Proof.
  apply (proj1 (NoDup_count_occ Nat.eq_dec _)). apply seq_NoDup.
Qed.

Lemma occ_same f r s os : (∀ w, w_prebound (f w) = w_prebound w) →
  occ s (alter f r os ≫= obj_slots) = occ s (os ≫= obj_slots).
Proof.
  intros Hf. revert r. induction os as [|w os IH]; intros [|r]; [done|done| |].
  - change (alter f 0%nat (w :: os)) with (f w :: os). rewrite !bind_cons. unfold obj_slots. by rewrite Hf.
  - change (alter f (S r) (w :: os)) with (w :: alter f r os). by rewrite !bind_cons, !occ_app, IH.
Qed.
Lemma occ_clear b r s os w : os !! r = Some w →
  (occ s (alter (set_slot None b) r os ≫= obj_slots) + occ s (obj_slots w) = occ s (os ≫= obj_slots))%nat.
Proof.
  revert r. induction os as [|w0 os IH]; intros [|r] H; cbn in H; simplify_eq.
  - change (alter _ 0%nat (w :: os)) with (set_slot None b w :: os). rewrite !bind_cons, !occ_app. cbn. rewrite occ_nil. lia.
  - change (alter _ (S r) (w0 :: os)) with (w0 :: alter (set_slot None b) r os).
    rewrite !bind_cons, !occ_app, <- (IH r H). lia.
Qed.

Lemma places_return s x p ts : places s (return_slot x p) ts = (places s p ts + occ s (option_list x))%nat.
Proof. destruct x; unfold places; cbn; rewrite ?occ_app, ?occ_nil; lia. Qed.

Lemma places_release s b r p ts : (places s (releaseWorkerSocket b r p) ts ≤ places s p ts)%nat.
Proof.
  unfold releaseWorkerSocket. destruct (objs p !! r) as [w|] eqn:Ew; [|done].
  destruct (released w); [done|]. pose proof (occ_clear true r s _ _ Ew) as Hc.
  unfold places, obj_slots in *. destruct (w_prebound w); [destruct b|]; cbn in *; rewrite ?occ_app in *; lia.
Qed.

Lemma places_perm s p ts ts' : ts ≡ₚ ts' → places s p ts = places s p ts'.
Proof. intros H. unfold places. f_equal. f_equal. apply occ_perm. by rewrite H. Qed.

Lemma own_none {A} (f : A → thread) l : (∀ x, own_slots (f x) = []) → (f <$> l) ≫= own_slots = [].
Proof. intros Hf. induction l as [|x l IH]; [done|]. by rewrite fmap_cons, bind_cons, Hf, IH. Qed.

Lemma places_app s p a b : places s p (a ++ b) = (places s p b + occ s (a ≫= own_slots))%nat.
Proof. unfold places. rewrite bind_app, occ_app. lia. Qed.
Lemma places_same s p p' ts : prebound p' = prebound p → objs p' = objs p → places s p' ts = places s p ts.
Proof. unfold places. by intros -> ->. Qed.
Lemma places_upd s f r p ts : (∀ w, w_prebound (f w) = w_prebound w) → places s (upd f r p) ts = places s p ts.
Proof. intros Hf. unfold places. cbn. by rewrite occ_same. Qed.

(** A step moves slots around and never makes one. *)
Lemma places_step s o t p p' new rest : tnext o t p = Some (p', new) →
  (places s p' (new ++ rest) ≤ places s p (t :: rest))%nat.
Proof.
  intros H.
  change (t :: rest) with ([t] ++ rest). rewrite !places_app.
  tcases H; op_specs; rewrite ?bind_app, ?bind_cons, ?occ_app, ?places_return;
    rewrite ?own_none by done; cbn [own_slots]; rewrite ?(right_id_L [] (++)), ?occ_nil;
    rewrite ?places_upd by done; rewrite ?places_return;
    try (cbn [option_list]; lia); try (rewrite (places_same s p) by done; lia);
    try (pose proof (places_release s (o_ok o) r p rest); unfold hc_done; rewrite (places_same s (releaseWorkerSocket _ _ _)) by done; lia).
  - unfold places. cbn. match goal with E : last _ = Some _ |- _ => pose proof (occ_last s _ _ E) end. lia.
  - done.
  - unfold places. cbn. rewrite occ_nil. lia.
  - unfold places. cbn. rewrite bind_app, occ_app. cbn. rewrite (right_id_L [] (++)). unfold obj_slots. cbn. lia.
  - match goal with E : objs p !! r = Some m |- _ => pose proof (occ_clear (released m) r s _ _ E) as Hc end.
    unfold places, obj_slots in *. destruct (w_prebound m); cbn in *; rewrite ?occ_app, ?occ_nil in *; lia.
  - rewrite (places_same s (upd drop_session x p)), places_upd by done. lia.
  - rewrite (places_same s (upd drop_session x p)), places_upd by done. lia.
  - rewrite (places_same s f (hc_done f)) by done. lia.
  - pose proof (places_release s (o_ok o) n p rest). lia.
  - unfold places. cbn. rewrite occ_nil. lia.
Qed.

Definition slots_ok (p : FlightWorkerPool) (ts : list thread) : Prop := ∀ s, (places s p ts ≤ 1)%nat.

Lemma PreBind_occ s binds : ∀ i p, prebound p = seq 0 i →
  (occ s (prebound (snd (prebind_loop i binds p))) ≤ 1)%nat.
Proof.
  induction binds as [|[] binds IH]; intros i p Hp; cbn.
  - rewrite Hp. apply occ_seq.
  - apply IH. rewrite seq_S. cbn. by rewrite Hp.
  - rewrite occ_nil. lia.
Qed.

Lemma slots_reachable S : reachable S → slots_ok (pool S) (threads S).
Proof.
  apply (invariant_rule (λ _ _, True)); clear S; [done|done|..].
  - intros p ts ts' Hp H s. by rewrite <- (places_perm s p ts ts' Hp).
  - intros dir min max timeout retire migrate binds _ _. cbv zeta. intros s.
    destruct (boot_pool dir min max timeout retire migrate binds) as (_ & Ho & _ & _ & _ & _ & _ & _ & Hts).
    unfold places. rewrite Ho.
    assert (threads (boot dir min max timeout retire migrate binds) ≫= own_slots = []) as ->
      by (destruct Hts as [[_ ->]|(_ & n & -> & _)]; done).
    cbn [mbind list_bind]. rewrite !occ_nil, !Nat.add_0_r. unfold boot. cbv zeta.
    repeat case_bool_decide; cbn; rewrite ?occ_nil; try lia; by apply PreBind_occ.
  - intros o t p rest p' new _ H Hn s. specialize (H s). pose proof (places_step s _ _ _ _ _ rest Hn). lia.
  - intros r p ts _ H s. by rewrite places_upd.
  - intros c p ts _ _ H s. specialize (H s). change (call_thread c :: ts) with ([call_thread c] ++ ts).
    rewrite places_app. destruct c; cbn; rewrite occ_nil; lia.
Qed.

Lemma occ_two s os : ∀ r1 r2 w1 w2, os !! r1 = Some w1 → os !! r2 = Some w2 → r1 ≠ r2 →
  w_prebound w1 = Some s → w_prebound w2 = Some s → (2 ≤ occ s (os ≫= obj_slots))%nat.
Proof.
  assert (∀ w, w_prebound w = Some s → occ s (obj_slots w) = 1%nat) as H1.
  { intros w Hw. unfold obj_slots. rewrite Hw. cbn. unfold occ. cbn. by destruct (Nat.eq_dec s s). }
  assert (∀ os r w, os !! r = Some w → w_prebound w = Some s → (1 ≤ occ s (os ≫= obj_slots))%nat) as H2.
  { intros os' r w Hr Hw. apply occ_in, list_elem_of_bind. exists w. split; [|by eapply list_elem_of_lookup_2].
    unfold obj_slots. rewrite Hw. apply list_elem_of_here. }
  induction os as [|w os IH]; intros [|r1] [|r2] w1 w2 Hr1 Hr2 Hne Hw1 Hw2; cbn in Hr1, Hr2; try done;
    simplify_eq; rewrite bind_cons, occ_app.
  - rewrite (H1 _ Hw1). specialize (H2 _ _ _ Hr2 Hw2). lia.
  - rewrite (H1 _ Hw2). specialize (H2 _ _ _ Hr1 Hw1). lia.
  - assert (2 ≤ occ s (os ≫= obj_slots))%nat; [|lia]. by eapply IH; [exact Hr1|exact Hr2|congruence|..].
Qed.

(** C25. Two running workers never serve the same pre-bound socket, and a socket that is
    free to be handed out, or in the hands of a goroutine that is about to start a
    worker on it, is served by none. *)
Theorem sockets_are_not_shared S : reachable S →
  (∀ r1 r2 w1 w2 s, objs (pool S) !! r1 = Some w1 → objs (pool S) !! r2 = Some w2 →
     exited w1 = false → exited w2 = false → cmdSlot w1 = Some s → cmdSlot w2 = Some s → r1 = r2) ∧
  (∀ r w s, objs (pool S) !! r = Some w → exited w = false → cmdSlot w = Some s →
     (s ∉ prebound (pool S)) ∧ (∀ t, t ∈ threads S → s ∉ own_slots t)).
Proof.
  intros HS. destruct (wf_reachable S HS) as [[_ Hs] _]. pose proof (slots_reachable S HS) as Hp.
  split.
  - intros r1 r2 w1 w2 s H1 H2 Hx1 Hx2 Hc1 Hc2. destruct (decide (r1 = r2)) as [|Hne]; [done|exfalso].
    specialize (Hp s). unfold places in Hp. rewrite <- (Hs _ _ H1 Hx1) in Hc1. rewrite <- (Hs _ _ H2 Hx2) in Hc2.
    pose proof (occ_two s _ _ _ _ _ H1 H2 Hne Hc1 Hc2). lia.
  - intros r w s Hr Hx Hc. rewrite <- (Hs _ _ Hr Hx) in Hc. specialize (Hp s). unfold places in Hp.
    assert (1 ≤ occ s (objs (pool S) ≫= obj_slots))%nat as Ho.
    { apply occ_in, list_elem_of_bind. exists w. split; [|by eapply list_elem_of_lookup_2].
      unfold obj_slots. rewrite Hc. apply list_elem_of_here. }
    split; [intros Hin; apply occ_in in Hin; lia|]. intros t Ht Hin.
    assert (1 ≤ occ s (threads S ≫= own_slots))%nat; [|lia].
    apply occ_in, list_elem_of_bind. by exists t.
Qed.


(** * The cap on workers *)

Fixpoint total (f : thread → Z) (ts : list thread) : Z :=
  match ts with [] => 0 | t :: ts => f t + total f ts end.

Lemma total_app f a b : total f (a ++ b) = total f a + total f b.
Proof. induction a as [|t a IH]; cbn; [done|]. rewrite IH. lia. Qed.
Lemma total_perm f a b : a ≡ₚ b → total f a = total f b.
Proof. induction 1; cbn; lia. Qed.
Lemma total_fmap {A} f (g : A → thread) z l : (∀ x, f (g x) = z) → total f (g <$> l) = z * Z.of_nat (length l).
Proof. intros Hg. induction l as [|x l IH]; [cbn; lia|]. rewrite fmap_cons. cbn [total length]. rewrite Hg, IH. lia. Qed.
Lemma total_le f g ts : (∀ t, f t ≤ g t) → total f ts ≤ total g ts.
Proof. intros H. induction ts as [|t ts IH]; cbn; [lia|]. specialize (H t). lia. Qed.
Lemma total_plus f g ts : total (λ t, f t + g t) ts = total f ts + total g ts.
Proof. induction ts; cbn; lia. Qed.
Lemma total_nonneg f ts : (∀ t, 0 ≤ f t) → 0 ≤ total f ts.
Proof. intros H. induction ts as [|t ts IH]; cbn; [lia|]. specialize (H t). lia. Qed.

(** The worker id a goroutine inside [SpawnWorker] works on. *)
Definition spawn_of (t : thread) : option (caller * Z) :=
  match t with
  | TTake k id | TStat k id _ | TBind k id | TFile k id _ _ | TLock k id _ _ _ | TStart k id _ _ _ _
  | TWait k id _ _ | TKill k id _ _ | TAdd k id _ | TSpawned k id _ => Some (k, id)
  | _ => None
  end.
Definition acq_w (t : thread) : Z := match spawn_of t with Some (ForAcquire, _) => 1 | _ => 0 end.
Definition all_w (t : thread) : Z := match spawn_of t with Some (ForAll, _) => 1 | _ => 0 end.
Definition boot_w (t : thread) : Z := match t with TAll _ | TAllWait _ => 1 | _ => 0 end.
Definition start_w (t : thread) : Z := match t with TAll _ => 1 | _ => 0 end.
Definition acquire_w (t : thread) : Z := match t with TAcquire => 1 | _ => 0 end.
(** Workers a goroutine is about to add to the map. *)
Definition coming (t : thread) : Z :=
  match t with
  | TAll n => Z.of_nat n
  | TSpawned _ _ _ => 0
  | _ => match spawn_of t with Some _ => 1 | None => 0 end
  end.

Definition live_workers (p : FlightWorkerPool) : Z := mcount (is_live p) (workers p).

Definition cap_inv (p : FlightWorkerPool) (ts : list thread) : Prop :=
  0 ≤ maxWorkers p ∧ spawning p = total acq_w ts ∧ all_wg p = total all_w ts ∧ total boot_w ts ≤ 1 ∧
  (booted p = true → total boot_w ts = 0 ∧ total all_w ts = 0) ∧
  (booted p = false → total acquire_w ts = 0) ∧
  (0 < total start_w ts → total all_w ts = 0 ∧ booted p = false) ∧
  (0 < maxWorkers p → live_workers p + total coming ts ≤ maxWorkers p).

Lemma mcount_mono {K V} `{Countable K} (P P' : V → bool) (m m' : gmap K V) :
  (∀ k v, m' !! k = Some v → P' v = true → m !! k = Some v ∧ P v = true) → mcount P' m' ≤ mcount P m.
Proof.
  intros Hm. unfold mcount. apply inj_le, map_subseteq_size, map_subseteq_spec.
  intros k v. rewrite !map_lookup_filter_Some. cbn. intros [H1 H2]. by apply Hm.
Qed.

Lemma mcount_insert_le {K V} `{Countable K} (P : V → bool) (m : gmap K V) k v :
  mcount P (<[ k := v ]> m) ≤ mcount P m + 1.
Proof.
  destruct (m !! k) as [v0|] eqn:E.
  - rewrite <- (insert_delete_eq m k v).
    rewrite mcount_insert_fresh by apply lookup_delete_eq. rewrite (mcount_delete P m k v0 E).
    destruct (P v), (P v0); cbn; lia.
  - rewrite mcount_insert_fresh by done. destruct (P v); cbn; lia.
Qed.

Lemma live_from o t p p' new r : pok p → tok p t → tnext o t p = Some (p', new) → is_Some (objs p !! r) →
  is_live p' r = true → is_live p r = true.
Proof.
  intros Hp Ht H [w Hw]. unfold is_live. rewrite Hw.
  destruct (objs p' !! r) as [w'|] eqn:Hw'; [|done].
  destruct (objs_from _ _ _ _ _ Ht H) as [Hc|(k & id & s & path & env & m & -> & Ho)].
  - destruct (Hc r w' Hw') as (w0 & Hw0 & Hx & _). simplify_eq. by rewrite Hx.
  - rewrite Ho, (lookup_app_l_Some _ _ _ _ Hw) in Hw'. by simplify_eq.
Qed.

(** A step adds a live worker to the map only where [SpawnWorker] does. *)
Lemma live_step o t p p' new : pok p → tok p t → tnext o t p = Some (p', new) →
  live_workers p' ≤ live_workers p + match t with TAdd _ _ _ => 1 | _ => 0 end.
Proof.
  intros Hp Ht H. unfold live_workers.
  assert ((∃ k id r, t = TAdd k id r) ∨ ∀ k id r, t ≠ TAdd k id r) as [(k & id & r & ->)|Hne].
  { destruct t; try (by right). left. by repeat eexists. }
  - cbn in H. simplify_eq. cbn. etrans; [apply mcount_insert_le|]. done.
  - assert (mcount (is_live p') (workers p') ≤ mcount (is_live p) (workers p)) as Hle.
    { apply mcount_mono. intros id r Hid Hl. destruct (workers_from _ _ _ _ _ _ _ H Hid) as [Hid'|[k ->]]; [|by destruct (Hne k id r)].
      split; [done|]. eapply live_from; [done..|by eapply Hp|done]. }
    destruct t; lia.
Qed.

Lemma releaseWorkerSocket_rest b r p :
  spawning (releaseWorkerSocket b r p) = spawning p ∧ all_wg (releaseWorkerSocket b r p) = all_wg p ∧
  booted (releaseWorkerSocket b r p) = booted p ∧ maxWorkers (releaseWorkerSocket b r p) = maxWorkers p ∧
  shuttingDown (releaseWorkerSocket b r p) = shuttingDown p ∧
  nextWorkerID (releaseWorkerSocket b r p) = nextWorkerID p ∧
  migrateMu (releaseWorkerSocket b r p) = migrateMu p ∧
  ducklakeMigrate (releaseWorkerSocket b r p) = ducklakeMigrate p.
Proof.
  unfold releaseWorkerSocket. destruct (objs p !! r) as [w|]; [|done].
  destruct (released w); [done|]. by destruct (w_prebound w); [destruct b|].
Qed.
Lemma return_slot_rest s p :
  spawning (return_slot s p) = spawning p ∧ all_wg (return_slot s p) = all_wg p ∧
  booted (return_slot s p) = booted p ∧ maxWorkers (return_slot s p) = maxWorkers p ∧
  shuttingDown (return_slot s p) = shuttingDown p ∧ nextWorkerID (return_slot s p) = nextWorkerID p ∧
  migrateMu (return_slot s p) = migrateMu p ∧ ducklakeMigrate (return_slot s p) = ducklakeMigrate p.
Proof. by destruct s. Qed.

(** The other fields, which giving a socket back leaves alone. *)
Ltac slot_rest_with H :=
  let E1 := fresh in let E2 := fresh in let E3 := fresh in let E4 := fresh in
  let E5 := fresh in let E6 := fresh in let E7 := fresh in let E8 := fresh in
  destruct H as (E1 & E2 & E3 & E4 & E5 & E6 & E7 & E8);
  rewrite ?E1, ?E2, ?E3, ?E4, ?E5, ?E6, ?E7, ?E8; clear E1 E2 E3 E4 E5 E6 E7 E8.
Ltac slot_rest :=
  repeat match goal with
  | |- context [?f (releaseWorkerSocket ?b ?r ?p)] =>
      progress slot_rest_with (releaseWorkerSocket_rest b r p)
  | |- context [?f (return_slot ?s ?p)] => progress slot_rest_with (return_slot_rest s p)
  end.

(** How the counters move, but for the steps of SpawnAll itself. *)
Lemma counters_step o t p p' new : boot_w t = 0 → tnext o t p = Some (p', new) →
  maxWorkers p' = maxWorkers p ∧ booted p' = booted p ∧
  spawning p' - spawning p = total acq_w new - acq_w t ∧
  all_wg p' - all_wg p = total all_w new - all_w t ∧
  total boot_w new = 0 ∧ total start_w new = 0 ∧ total acquire_w new ≤ acquire_w t ∧ total all_w new ≤ all_w t.
Proof.
  intros Hb H. tcases H; try (cbn in Hb; lia); op_specs; rewrite ?total_app; cbn; slot_rest; cbn;
    repeat case_match; cbn; slot_rest;
    rewrite ?(total_fmap _ TRelease 0), ?(total_fmap _ TRetire 0), ?(total_fmap _ TCheck 0) by done;
    repeat split; lia.
Qed.

Lemma acq_coming t : boot_w t = 0 → coming t ≤ acq_w t + all_w t.
Proof. destruct t; cbn; try lia; unfold acq_w, all_w; cbn; destruct k; cbn; lia. Qed.

Lemma coming_total ts : total boot_w ts = 0 → total coming ts ≤ total acq_w ts + total all_w ts.
Proof.
  induction ts as [|t ts IH]; cbn; [lia|]. intros H.
  assert (0 ≤ boot_w t) by (destruct t; cbn; lia).
  assert (0 ≤ total boot_w ts) by (apply total_nonneg; intros []; cbn; lia).
  pose proof (acq_coming t ltac:(lia)). specialize (IH ltac:(lia)). lia.
Qed.

(** Workers about to come, but for AcquireWorker and SpawnAll. *)
Lemma coming_step o t p p' new : tnext o t p = Some (p', new) → t ≠ TAcquire →
  total coming new + match t with TAdd _ _ _ => 1 | _ => 0 end ≤ coming t.
Proof.
  intros H Hne. tcases H; try done; op_specs; rewrite ?total_app; cbn;
    repeat case_match; cbn;
    rewrite ?(total_fmap _ TRelease 0), ?(total_fmap _ TRetire 0), ?(total_fmap _ TCheck 0) by done; try lia.
  rewrite (total_fmap _ _ 1), length_seq by done. lia.
Qed.

Lemma acquire_live o p p' new : 0 < maxWorkers p → 0 ≤ maxWorkers p → tnext o TAcquire p = Some (p', new) →
  live_workers p' ≤ live_workers p ∧ total coming new ≤ 0 ∨
  total coming new = 1 ∧ spawning p + live_workers p' < maxWorkers p.
Proof.
  intros Hm Hm0 H.
  assert (live_workers (cleaned p) ≤ live_workers p) as Hcl.
  { unfold live_workers. apply mcount_mono. intros id r Hid Hl. apply cleaned_lookup in Hid as [? ?]. done. }
  assert (∀ r, live_workers (upd add_session r (cleaned p)) ≤ live_workers (cleaned p)) as Hadd.
  { intros r. unfold live_workers. apply mcount_mono. intros id r' Hid Hl. split; [done|].
    revert Hl. unfold is_live, upd, with_objs. cbn [objs]. rewrite list_lookup_alter.
    case_decide; [subst|done]. cbn. by destruct (objs p !! r'). }
  tsplit H; op_specs; rewrite ?total_app; cbn; rewrite ?(total_fmap _ TRelease 0) by done.
  - left. lia.
  - left. split; [|lia]. etrans; [apply Hadd|done].
  - right. split; [lia|]. match goal with Hx : 0 ≤ _ → _ |- _ => destruct (Hx Hm0) as [?|?]; [lia|] end.
    unfold liveWorkerCountLocked in *. unfold live_workers. cbn in *. done.
  - left. lia.
Qed.

Lemma wf_perm p ts ts' : ts ≡ₚ ts' → wf p ts → wf p ts'.
Proof. intros Hp [H1 H2]. split; [done|]. intros t Ht. apply H2. by rewrite Hp. Qed.

Lemma cap_perm p ts ts' : ts ≡ₚ ts' → cap_inv p ts → cap_inv p ts'.
Proof. intros Hp. unfold cap_inv. by rewrite <- !(total_perm _ ts ts' Hp). Qed.

Ltac nonneg_totals ts :=
  assert (0 ≤ total boot_w ts) by (apply total_nonneg; intros []; cbn; lia);
  assert (0 ≤ total start_w ts) by (apply total_nonneg; intros []; cbn; lia);
  assert (0 ≤ total acquire_w ts) by (apply total_nonneg; intros []; cbn; lia);
  assert (0 ≤ total all_w ts)
    by (apply total_nonneg; intros t'; unfold all_w; destruct (spawn_of t') as [[[] ?]|]; lia);
  assert (0 ≤ total acq_w ts)
    by (apply total_nonneg; intros t'; unfold acq_w; destruct (spawn_of t') as [[[] ?]|]; lia).

(** The steps of SpawnAll itself. *)
Lemma cap_all_step o t p rest p' new : boot_w t = 1 → wf p (t :: rest) → cap_inv p (t :: rest) →
  tnext o t p = Some (p', new) → cap_inv p' (new ++ rest).
Proof.
  intros Hb [Hp Ht] (Hm & Hs & Ha & Hbo & Hbt & Hbf & Hst & Hcap) H.
  pose proof (live_step _ _ _ _ _ Hp (Ht t ltac:(apply list_elem_of_here)) H) as Hl.
  pose proof (coming_step _ _ _ _ _ H ltac:(by intros ->)) as Hco.
  nonneg_totals rest. nonneg_totals (t :: rest).
  assert (total start_w rest ≤ total boot_w rest) by (apply total_le; intros []; cbn; lia).
  assert (booted p = false) as Eb.
  { destruct (booted p); [|done]. destruct Hbt as [Hbt _]; [done|]. cbn in Hbt. lia. }
  specialize (Hbf Eb). clear Hbt. unfold cap_inv. rewrite !total_app.
  destruct t; try (cbn in Hb; lia); tsplit H; cbn in *; to_prop.
  - rewrite ?(total_fmap all_w _ 1), ?(total_fmap boot_w _ 0), ?(total_fmap acquire_w _ 0), ?(total_fmap start_w _ 0),
      ?(total_fmap acq_w _ 0), ?(total_fmap coming _ 1), ?length_seq in * by done.
    destruct Hst as [Hst _]; [lia|]. repeat split; intros; try lia; try done.
  - repeat split; intros; try lia; try done.
  - repeat split; intros; try lia; try done.
  - repeat split; intros; try lia; try done.
Qed.

Lemma cap_run o t p rest p' new : wf p (t :: rest) → cap_inv p (t :: rest) →
  tnext o t p = Some (p', new) → cap_inv p' (new ++ rest).
Proof.
  intros Hwf Hcap0 H. destruct (decide (boot_w t = 1)) as [Hb|Hb]; [by eapply cap_all_step|].
  assert (boot_w t = 0) as Hb0 by (destruct t; cbn in *; lia).
  destruct Hwf as [Hp Ht]. destruct Hcap0 as (Hm & Hs & Ha & Hbo & Hbt & Hbf & Hst & Hcap).
  destruct (counters_step _ _ _ _ _ Hb0 H) as (Em & Ebo & Es & Ea & Eb & Est & Eac & Eal).
  pose proof (live_step _ _ _ _ _ Hp (Ht t ltac:(apply list_elem_of_here)) H) as Hl.
  assert (0 ≤ total acquire_w new) by (apply total_nonneg; intros []; cbn; lia).
  assert (start_w t = 0) by (destruct t; cbn in *; lia).
  nonneg_totals rest. nonneg_totals new. unfold cap_inv in *. rewrite !total_app, Em, Ebo. cbn [total] in *.
  repeat split; intros; try lia.
  - destruct Hbt; [done|]. lia.
  - destruct Hbt; [done|]. lia.
  - specialize (Hbf ltac:(done)). destruct t; cbn in *; lia.
  - destruct Hst; [lia|done].
  - specialize (Hcap ltac:(done)). assert (t = TAcquire ∨ t ≠ TAcquire) as [->|Hne] by (destruct t; by auto).
    + destruct (booted p); [|cbn in *; lia]. destruct Hbt as [Hb1 Hb2]; [done|].
      pose proof (coming_total rest ltac:(cbn in *; lia)).
      destruct (acquire_live o p p' new ltac:(done) Hm H) as [[? ?]|[? ?]]; cbn in *; lia.
    + pose proof (coming_step _ _ _ _ _ H Hne). lia.
Qed.

Lemma cap_reachable S : reachable S → cap_inv (pool S) (threads S).
Proof.
  apply (invariant_rule wf); clear S; [apply wf_perm|apply wf_reachable|apply cap_perm|..].
  - intros dir min max timeout retire migrate binds Hmax Hlen. cbv zeta.
    destruct (boot_pool dir min max timeout retire migrate binds) as (Hw & Ho & Hs & Ha & _ & _ & _ & Hm & Hts).
    unfold cap_inv, live_workers. rewrite Hw, Hs, Ha, Hm, mcount_empty.
    destruct Hts as [[-> ->]|(-> & n & -> & Hn)]; cbn; repeat split; intros; try lia; done.
  - intros o t p rest p' new. apply cap_run.
  - intros r p ts [[Hw _] _] (Hm & Hs & Ha & Hbo & Hbt & Hbf & Hst & Hcap). unfold cap_inv. cbn.
    repeat split; try done; try (by apply Hbt); try (by apply Hst).
    intros Hmax. specialize (Hcap Hmax). assert (live_workers (upd set_exited r p) ≤ live_workers p); [|lia].
    unfold live_workers. apply mcount_mono. intros id r' Hid Hl. split; [done|].
    revert Hl. unfold is_live, upd, with_objs. cbn [objs]. rewrite list_lookup_alter.
    case_decide; [subst|done]. by destruct (objs p !! r').
  - intros c p ts Hb _ (Hm & Hs & Ha & Hbo & Hbt & Hbf & Hst & Hcap).
    destruct (Hbt Hb) as [Hb1 Hb2]. unfold cap_inv. destruct c; cbn; repeat split; intros; try lia; try done.
    all: try congruence; try (by apply Hst); try (specialize (Hcap ltac:(done)); lia).
Qed.

(** The number of live workers in the pool, with those that goroutines are about to
    add to it, never exceeds the cap, whatever calls run at the same time, whatever
    fails and whatever dies. *)
Theorem worker_cap_respected S : reachable S → 0 < maxWorkers (pool S) →
  live_workers (pool S) + total coming (threads S) ≤ maxWorkers (pool S).
Proof. intros HS Hm. by apply (cap_reachable S HS). Qed.
