(* ===== verification/PoolOwnership.v ===== *)
(** Which goroutine answers for which worker process: ids are never reused, the count
    of sessions of a worker is the number of its sessions, and until ShutdownAll no
    running process is forgotten. *)

From Stdlib Require Import Strings.Byte.
From stdpp Require Import prelude gmap strings list fin_maps.
From Stdlib Require Import ZArith Lia.
From S2P Require Import Prelude GoText WorkerPool PoolTheorems.

Open Scope Z_scope.

(** * Worker ids *)

(** The id a goroutine will start a process under. *)
Definition pend (t : thread) : list Z :=
  match t with
  | TTake _ id | TStat _ id _ | TBind _ id | TFile _ id _ _ | TLock _ id _ _ _ | TStart _ id _ _ _ _ => [id]
  | _ => []
  end.
Definition ids (p : FlightWorkerPool) (ts : list thread) : list Z := (ts ≫= pend) ++ (ID <$> objs p).

Lemma ID_alter f (r : nat) (os : list ManagedWorker) : (∀ w, ID (f w) = ID w) → ID <$> alter f r os = ID <$> os.
Proof.
  intros Hf. apply list_eq. intros i. rewrite !list_lookup_fmap, list_lookup_alter.
  case_decide; [subst|done]. destruct (os !! i); cbn; [by rewrite Hf|done].
Qed.
Lemma ID_release b r p : ID <$> objs (releaseWorkerSocket b r p) = ID <$> objs p.
Proof. destruct (releaseWorkerSocket_objs b r p) as [->|(w & _ & ->)]; [done|]. by apply ID_alter. Qed.

Lemma pend_none {A} (f : A → thread) l : (∀ x, pend (f x) = []) → (f <$> l) ≫= pend = [].
Proof. intros Hf. induction l as [|x l IH]; [done|]. by rewrite fmap_cons, bind_cons, Hf, IH. Qed.
Lemma pend_children n i : ((λ i : nat, TTake ForAll (Z.of_nat i)) <$> seq i n) ≫= pend = Z.of_nat <$> seq i n.
Proof. revert i. induction n as [|n IH]; intros i; [done|]. cbn [seq]. by rewrite !fmap_cons, bind_cons, IH. Qed.

Lemma ids_step o t p p' new rest : tnext o t p = Some (p', new) →
  (ids p' (new ++ rest) ⊆+ ids p (t :: rest) ∧
     (nextWorkerID p' = nextWorkerID p ∨ booted p' = true ∧ nextWorkerID p ≤ nextWorkerID p')) ∨
  (t = TAcquire ∧ ids p' (new ++ rest) = nextWorkerID p :: ids p (t :: rest) ∧ nextWorkerID p' = nextWorkerID p + 1) ∨
  (∃ n, t = TAll n ∧ nextWorkerID p' = nextWorkerID p ∧
        ids p' (new ++ rest) = (Z.of_nat <$> seq 0 n) ++ ids p (t :: rest)).
Proof.
  intros H. unfold ids. rewrite bind_cons.
  assert (∀ (a b : list Z), a ⊆+ b → a ++ (rest ≫= pend) ++ (ID <$> objs p) ⊆+ b ++ (rest ≫= pend) ++ (ID <$> objs p)) as Hskip.
  { intros a b. apply submseteq_skips_r. }
  tcases H; op_specs; rewrite ?bind_app, ?bind_cons; rewrite ?pend_none by done; cbn [pend app];
    rewrite ?(right_id_L [] (++)); cbn; rewrite ?return_slot_objs, ?ID_release; cbn;
    rewrite ?ID_alter by done; slot_rest; cbn;
    try (left; split; [done|by left]); try (left; split; [apply submseteq_cons; done|by left]).
  - right. left. done.
  - left. split; [|by left]. rewrite fmap_app. cbn. rewrite (assoc_L (++)).
    apply Permutation_submseteq. symmetry. apply Permutation_cons_append.
  - right. right. exists count. rewrite pend_children, (assoc_L (++)). done.
  - left. to_prop. split; [done|]. right. split; [done|lia].
Qed.

Lemma total_in f ts t : (∀ t, 0 ≤ f t) → t ∈ ts → f t ≤ total f ts.
Proof.
  intros Hf. induction ts as [|t' ts IH]; [by intros ?%elem_of_nil|].
  pose proof (total_nonneg f ts Hf). pose proof (Hf t'). intros [->|Hin]%elem_of_cons; cbn; [lia|].
  specialize (IH Hin). lia.
Qed.

(** What is known of every reachable system so far. *)
Definition base (p : FlightWorkerPool) (ts : list thread) : Prop := wf p ts ∧ cap_inv p ts.
Lemma base_perm p ts ts' : ts ≡ₚ ts' → base p ts → base p ts'.
Proof. intros Hp [H1 H2]. split; [by eapply wf_perm|by eapply cap_perm]. Qed.
Lemma base_reachable S : reachable S → base (pool S) (threads S).
Proof. intros H. split; [by apply wf_reachable|by apply cap_reachable]. Qed.

Lemma booted_no_boot p ts t : base p ts → booted p = true → t ∈ ts → boot_w t = 0.
Proof.
  intros [_ (_ & _ & _ & _ & Hbt & _)] Hb Ht. destruct (Hbt Hb) as [H0 _].
  pose proof (total_in boot_w ts t ltac:(intros []; cbn; lia) Ht). destruct t; cbn in *; lia.
Qed.
Lemma acquire_booted p ts : base p ts → TAcquire ∈ ts → booted p = true.
Proof.
  intros [_ (_ & _ & _ & _ & _ & Hbf & _)] Ht. destruct (booted p); [done|]. specialize (Hbf eq_refl).
  pose proof (total_in acquire_w ts _ ltac:(intros []; cbn; lia) Ht). cbn in *. lia.
Qed.
(** SpawnAll is called once. *)
Lemma one_boot p t rest t' : base p (t :: rest) → boot_w t = 1 → t' ∈ rest → boot_w t' = 0.
Proof.
  intros [_ (_ & _ & _ & Hbo & _)] Hb Ht.
  pose proof (total_in boot_w rest t' ltac:(intros []; cbn; lia) Ht). cbn in Hbo. destruct t'; cbn in *; lia.
Qed.

Definition ids_inv (p : FlightWorkerPool) (ts : list thread) : Prop :=
  NoDup (ids p ts) ∧
  (booted p = true → ∀ i, i ∈ ids p ts → i < nextWorkerID p) ∧
  (booted p = false → nextWorkerID p = 0) ∧
  (∀ n, TAllWait n ∈ ts → ∀ i, i ∈ ids p ts → i < Z.of_nat n) ∧
  (∀ n, TAll n ∈ ts → ids p ts = []).

Lemma ids_perm p ts ts' : ts ≡ₚ ts' → ids p ts ≡ₚ ids p ts'.
Proof. intros H. unfold ids. by rewrite H. Qed.

Lemma ids_inv_perm p ts ts' : ts ≡ₚ ts' → ids_inv p ts → ids_inv p ts'.
Proof.
  intros Hp (H1 & H2 & H3 & H4 & H5). unfold ids_inv. pose proof (ids_perm p _ _ Hp) as Hi.
  rewrite <- Hi. split; [done|]. split; [intros Hb i; rewrite <- Hi; by apply H2|]. split; [done|]. split.
  - intros n Hn i. rewrite <- Hp in Hn. rewrite <- Hi. by apply H4.
  - intros n Hn. rewrite <- Hp in Hn. rewrite (H5 n Hn) in Hi. by apply Permutation_nil_l in Hi.
Qed.

Lemma sub_NoDup {A} (a b : list A) : a ⊆+ b → NoDup b → NoDup a.
Proof. intros (k & Hk)%submseteq_Permutation Hb. rewrite Hk in Hb. by apply NoDup_app in Hb as [? _]. Qed.

Lemma boot_threads o t p p' new t' : tnext o t p = Some (p', new) → t' ∈ new → boot_w t' = 1 →
  ∃ n, t = TAll n ∧ t' = TAllWait n.
Proof.
  intros H Hin Hb. assert (boot_w t = 0 ∨ boot_w t = 1) as [Ht|Ht] by (destruct t; cbn; auto).
  - destruct (counters_step _ _ _ _ _ Ht H) as (_ & _ & _ & _ & Hz & _).
    pose proof (total_in boot_w new t' ltac:(intros []; cbn; lia) Hin). lia.
  - destruct t; cbn in Ht; try lia; tsplit H; in_lists; cbn in Hb; try lia; eauto.
Qed.

Lemma booted_step o t p p' new : tnext o t p = Some (p', new) →
  booted p' = booted p ∨ (∃ n, t = TAllWait n ∧ booted p' = true ∧ Z.of_nat n ≤ nextWorkerID p') ∨
  (∃ n, t = TAll n).
Proof.
  intros H. assert (boot_w t = 0 ∨ boot_w t = 1) as [Ht|Ht] by (destruct t; cbn; auto).
  - left. by destruct (counters_step _ _ _ _ _ Ht H) as (_ & ? & _).
  - destruct t; cbn in Ht; try lia; tsplit H; eauto; right; left; eexists; (split; [done|]); cbn; to_prop; split; done || lia.
Qed.

Lemma ids_run o t p rest p' new : base p (t :: rest) → ids_inv p (t :: rest) →
  tnext o t p = Some (p', new) → ids_inv p' (new ++ rest).
Proof.
  intros HJ (H1 & H2 & H3 & H4 & H5) H.
  assert (∀ t', t' ∈ new ++ rest → boot_w t' = 1 → t' ∈ rest ∨ ∃ n, t = TAll n ∧ t' = TAllWait n) as Hboot.
  { intros t' [Hin|Hin]%elem_of_app Hb; [right; by eapply boot_threads|by left]. }
  assert (∀ n, t = TAll n → ids p (t :: rest) = []) as Hnil.
  { intros n ->. eapply H5, list_elem_of_here. }
  destruct (ids_step _ _ _ _ _ rest H) as [[Hs Hn]|[(-> & Hs & Hn)|(n & -> & Hn & Hs)]].
  - split; [by eapply sub_NoDup|]. split; [|split; [|split]].
    + intros Hb i Hi. eapply elem_of_submseteq in Hi; [|exact Hs].
      destruct (booted_step _ _ _ _ _ H) as [E|[(n & -> & _ & Hle)|(n & ->)]].
      * rewrite E in Hb. specialize (H2 Hb i Hi). lia.
      * specialize (H4 n ltac:(apply list_elem_of_here) i Hi). lia.
      * rewrite (Hnil n eq_refl) in Hi. by apply elem_of_nil in Hi.
    + intros Hb. destruct Hn as [->|[? _]]; [|congruence].
      destruct (booted_step _ _ _ _ _ H) as [E|[(n & _ & E & _)|(n & ->)]]; [apply H3; congruence|congruence|].
      destruct (booted p) eqn:Eb; [|by apply H3].
      by pose proof (booted_no_boot _ _ _ HJ Eb (list_elem_of_here _ _)).
    + intros n Hin i Hi. eapply elem_of_submseteq in Hi; [|exact Hs].
      destruct (Hboot _ Hin eq_refl) as [Hr|(m & -> & [= ->])]; [by eapply H4; [apply list_elem_of_further|]|].
      rewrite (Hnil m eq_refl) in Hi. by apply elem_of_nil in Hi.
    + intros n Hin. destruct (Hboot _ Hin eq_refl) as [Hr|(m & _ & [=])].
      rewrite (H5 n (list_elem_of_further _ _ _ Hr)) in Hs. by apply submseteq_nil_r in Hs.
  - pose proof (acquire_booted _ _ HJ (list_elem_of_here _ _)) as Hb. specialize (H2 Hb).
    destruct (counters_step _ TAcquire _ _ _ eq_refl H) as (_ & Eb & _).
    assert (∀ t', t' ∈ new ++ rest → boot_w t' = 1 → False) as Hno.
    { intros t' Hin Hb1. destruct (Hboot t' Hin Hb1) as [Hr|(? & ? & _)]; [|done].
      pose proof (booted_no_boot _ _ t' HJ Hb (list_elem_of_further _ _ _ Hr)). lia. }
    unfold ids_inv. rewrite Hs, Hn. split; [|split; [|split; [|split]]].
    + apply NoDup_cons. split; [|done]. intros Hi%H2. lia.
    + intros _ i [->|Hi%H2]%elem_of_cons; lia.
    + congruence.
    + intros n Hin. by destruct (Hno _ Hin).
    + intros n Hin. by destruct (Hno _ Hin).
  - unfold ids_inv. rewrite Hs, Hn, (Hnil n eq_refl), (right_id_L [] (++)).
    assert (booted p' = false) as Eb by (tsplit H; done).
    split; [|split; [|split; [|split]]].
    + apply NoDup_fmap_2; [intros ? ?; lia|]. apply NoDup_ListNoDup, seq_NoDup.
    + congruence.
    + intros _. apply H3. destruct (booted p) eqn:Ebp; [|done].
      by pose proof (booted_no_boot _ _ _ HJ Ebp (list_elem_of_here _ _)).
    + intros m Hin i (j & -> & Hj)%list_elem_of_fmap. apply list_elem_of_In, in_seq in Hj.
      destruct (Hboot _ Hin eq_refl) as [Hr|(? & [= ->] & [= ->])]; [|lia].
      by pose proof (one_boot _ (TAll n) _ _ HJ eq_refl Hr).
    + intros m Hin. destruct (Hboot _ Hin eq_refl) as [Hr|(? & _ & [=])].
      by pose proof (one_boot _ (TAll n) _ _ HJ eq_refl Hr).
Qed.

Lemma ids_reachable S : reachable S → ids_inv (pool S) (threads S).
Proof.
  apply (invariant_rule base); clear S; [apply base_perm|apply base_reachable|..].
  - intros p ts ts'. apply ids_inv_perm.
  - intros dir min max timeout retire migrate binds Hmax Hlen. cbv zeta.
    destruct (boot_pool dir min max timeout retire migrate binds) as (_ & Ho & _ & _ & Hn & _ & _ & _ & Hts).
    unfold ids_inv, ids. rewrite Ho, Hn. destruct Hts as [[-> ->]|(-> & n & -> & _)]; cbn.
    all: split; [apply NoDup_nil_2|]; split; [intros _ i Hi; by apply elem_of_nil in Hi|];
      split; [done|]; split; [|done]; intros ? Hin; by apply list_elem_of_singleton in Hin.
  - intros o t p rest p' new. apply ids_run.
  - intros r p ts _. unfold ids_inv, ids. cbn. by rewrite ID_alter.
  - intros c p ts Hb HJ (H1 & H2 & H3 & H4 & H5). unfold ids_inv.
    assert (ids p (call_thread c :: ts) = ids p ts) as -> by (by destruct c).
    split; [done|]. split; [done|]. split; [done|].
    split; intros n [E|Hin]%elem_of_cons; try (by destruct c); [by apply H4|by apply (H5 n)].
Qed.

(** * Ownership *)

Definition spawner (t : thread) : option (Z * nat) :=
  match t with TWait _ id r _ | TKill _ id r _ | TAdd _ id r => Some (id, r) | _ => None end.
Definition mentions (r : nat) (t : thread) : Z := Z.of_nat (occ r (refs t)).
Definition holds (r : nat) (t : thread) : Z :=
  match t with TSession r' => if bool_decide (r' = r) then 1 else 0 | _ => 0 end.
Definition sess (os : list ManagedWorker) (r : nat) : Z :=
  match os !! r with Some w => activeSessions w | None => 0 end.
Definition sessions (p : FlightWorkerPool) (r : nat) : Z := sess (objs p) r.

Definition own_inv (p : FlightWorkerPool) (ts : list thread) : Prop :=
  (∀ id r, workers p !! id = Some r → obj_id p r = id) ∧
  (∀ t id r, t ∈ ts → spawner t = Some (id, r) →
     obj_id p r = id ∧ sessions p r = 0 ∧ (∀ id', workers p !! id' ≠ Some r) ∧ total (mentions r) ts = 1) ∧
  (∀ id r, workers p !! id = Some r → sessions p r = total (holds r) ts).

Lemma same_id p ts r1 r2 : ids_inv p ts → is_Some (objs p !! r1) → is_Some (objs p !! r2) →
  obj_id p r1 = obj_id p r2 → r1 = r2.
Proof.
  intros (Hn & _) [w1 H1] [w2 H2]. unfold obj_id. rewrite H1, H2. intros E.
  apply NoDup_app in Hn as (_ & _ & Hn). eapply NoDup_lookup; [exact Hn|..]; rewrite list_lookup_fmap.
  - by rewrite H1.
  - rewrite H2. cbn. by rewrite E.
Qed.

(** A step only touches objects its goroutine refers to or that are in the map. *)
Lemma objs_frame o t p p' new r : tnext o t p = Some (p', new) → r ∉ refs t →
  (∀ id, workers p !! id ≠ Some r) → is_Some (objs p !! r) → objs p' !! r = objs p !! r.
Proof.
  intros H Hr Hw [w Ho].
  assert (∀ f x id, workers p !! id = Some x → alter f x (objs p) !! r = objs p !! r) as Hin.
  { intros f x id Hid. apply list_lookup_alter_ne. intros ->. by apply (Hw id). }
  assert (∀ b x, x ∈ refs t → objs (releaseWorkerSocket b x p) !! r = objs p !! r) as Hrel.
  { intros b x Hx. destruct (releaseWorkerSocket_objs b x p) as [->|(w' & _ & ->)]; [done|].
    apply list_lookup_alter_ne. by intros ->. }
  tcases H; op_specs; cbn; rewrite ?return_slot_objs; cbn; repeat case_match;
    try reflexivity; try (eapply Hin; eassumption); try (apply Hrel, list_elem_of_here).
  - eapply Hin. by apply cleaned_lookup.
  - by rewrite (lookup_app_l_Some _ _ _ _ Ho).
  - apply list_lookup_alter_ne. intros ->. by apply Hr, list_elem_of_here.
  - apply list_lookup_alter_ne. intros ->. by apply Hr, list_elem_of_here.
  - rewrite list_lookup_alter_ne; [by eapply Hin|]. intros ->. by eapply Hw.
Qed.

(** New goroutines refer to what their parent did, to workers of the map, or to the
    worker just started. *)
Lemma new_refs o t p p' new t' r : tnext o t p = Some (p', new) → t' ∈ new → r ∈ refs t' →
  r ∈ refs t ∨ (∃ id, workers p !! id = Some r) ∨ r = length (objs p).
Proof.
  intros H Hin Hr.
  assert (∀ x, x ∈ (cleanDeadWorkersLocked (o_dead o) p).1 → ∃ id, workers p !! id = Some x) as Hg
    by (intros x (_ & ?)%clean_gone; done).
  tcases H; op_specs; in_lists; cbn [refs] in *; in_lists; eauto using list_elem_of_here, list_elem_of_further.
  - right. left. eexists. by apply cleaned_lookup.
  - right. left. match goal with Hx : ∀ r, r ∈ _ → ∃ id, workers p !! id = Some r ∧ _ |- _ =>
      edestruct Hx as (id & ? & _); [eassumption|]; by exists id end.
Qed.

Lemma mentions_nonneg r t : 0 ≤ mentions r t.
Proof. unfold mentions. lia. Qed.
Lemma mentions_in r t : r ∈ refs t → 1 ≤ mentions r t.
Proof. unfold mentions. intros H%occ_in. lia. Qed.
Lemma mentions_out r t : r ∉ refs t → mentions r t = 0.
Proof.
  unfold mentions, occ. intros H. rewrite (proj1 (count_occ_not_In Nat.eq_dec (refs t) r)); [done|].
  by rewrite <- list_elem_of_In.
Qed.
Lemma mentions_none r ts : (∀ t, t ∈ ts → r ∉ refs t) → total (mentions r) ts = 0.
Proof.
  induction ts as [|t ts IH]; [done|]. intros H. cbn [total].
  rewrite (mentions_out r t) by apply H, list_elem_of_here.
  apply IH. intros t' Ht'. by apply H, list_elem_of_further.
Qed.
Lemma holds_nonneg r t : 0 ≤ holds r t.
Proof. destruct t; cbn; try lia. case_bool_decide; lia. Qed.
Lemma holds_mentions r ts : total (holds r) ts ≤ total (mentions r) ts.
Proof.
  apply total_le. intros t. destruct t; try (apply mentions_nonneg). cbn. case_bool_decide; [|apply mentions_nonneg].
  subst. apply mentions_in, list_elem_of_here.
Qed.
Lemma spawner_ref t id r : spawner t = Some (id, r) → r ∈ refs t.
Proof. destruct t; cbn; intros [= -> ->]; apply list_elem_of_here. Qed.

Lemma spawner_mentions t id r : spawner t = Some (id, r) → mentions r t = 1.
Proof. destruct t; cbn; intros [= -> ->]; unfold mentions, occ; cbn; by destruct (Nat.eq_dec r r). Qed.

(** Whoever spawns a worker is alone to know it. *)
Lemma spawner_alone p ts t t' id r : own_inv p (t :: ts) → t' ∈ ts → spawner t' = Some (id, r) → r ∉ refs t.
Proof.
  intros (_ & HO & _) Hin Hs Hr. destruct (HO t' id r (list_elem_of_further _ _ _ Hin) Hs) as (_ & _ & _ & Hm).
  cbn in Hm. pose proof (mentions_in r t Hr).
  pose proof (total_in (mentions r) ts t' (mentions_nonneg r) Hin).
  pose proof (mentions_in r t' (spawner_ref _ _ _ Hs)). lia.
Qed.

Lemma sess_same f x os r : (∀ w, activeSessions (f w) = activeSessions w) → sess (alter f x os) r = sess os r.
Proof.
  intros Hf. unfold sess. rewrite list_lookup_alter. case_decide; [subst|done].
  destruct (os !! r); cbn; [apply Hf|done].
Qed.
Lemma sess_add x os r : is_Some (os !! r) →
  sess (alter add_session x os) r = sess os r + if bool_decide (x = r) then 1 else 0.
Proof.
  intros [w Hw]. unfold sess. rewrite list_lookup_alter, Hw. case_decide; [subst|].
  - rewrite Hw, bool_decide_eq_true_2 by done. done.
  - rewrite bool_decide_eq_false_2 by congruence. lia.
Qed.
Lemma sess_drop x os r : (x = r → 1 ≤ sess os r) →
  sess (alter drop_session x os) r = sess os r - if bool_decide (x = r) then 1 else 0.
Proof.
  unfold sess. rewrite list_lookup_alter. case_decide as E; [subst|intros _; rewrite bool_decide_eq_false_2 by congruence; lia].
  intros H. specialize (H eq_refl). rewrite bool_decide_eq_true_2 by done.
  destruct (os !! r); cbn; [rewrite bool_decide_eq_true_2 by lia; lia|lia].
Qed.
Lemma sess_release b x p r : sess (objs (releaseWorkerSocket b x p)) r = sess (objs p) r.
Proof. destruct (releaseWorkerSocket_objs b x p) as [->|(w & _ & ->)]; [done|]. by apply sess_same. Qed.
Lemma sess_app os w r : is_Some (os !! r) → sess (os ++ [w]) r = sess os r.
Proof. intros [w' Hw]. unfold sess. by rewrite (lookup_app_l_Some _ _ _ _ Hw), Hw. Qed.

(** The end of the session of [r0], as seen by a worker [r] of the map. *)
Lemma session_end p ts r0 id r x : base p ts → ids_inv p ts → own_inv p ts → TSession r0 ∈ ts →
  workers p !! id = Some r → workers p !! obj_id p r0 = Some x →
  sess (alter drop_session x (objs p)) r = sess (objs p) r - holds r (TSession r0).
Proof.
  intros [[[Hw _] Ht] _] Hids (HW & HO & HS) Hin Hid Hx.
  assert (x = r0) as ->.
  { eapply same_id; [done|by eapply Hw|apply (Ht _ Hin), list_elem_of_here|]. by apply HW. }
  rewrite sess_drop; [done|]. intros ->. change (1 ≤ sessions p r). rewrite (HS id r Hid).
  pose proof (total_in (holds r) ts _ (holds_nonneg r) Hin) as H. cbn in H.
  by rewrite bool_decide_eq_true_2 in H.
Qed.
Lemma session_gone p ts r0 id r : own_inv p ts → workers p !! id = Some r → workers p !! obj_id p r0 = None →
  holds r (TSession r0) = 0.
Proof.
  intros (HW & _) Hid Hn. cbn. case_bool_decide; [subst|done].
  rewrite (HW id r Hid) in Hn. congruence.
Qed.

(** What a step does to the sessions of a worker that stays in the map. *)
Lemma sessions_step o t p rest p' new id r : base p (t :: rest) → ids_inv p (t :: rest) → own_inv p (t :: rest) →
  tnext o t p = Some (p', new) → workers p !! id = Some r →
  sessions p' r = sessions p r + total (holds r) new - holds r t.
Proof.
  intros HJ Hids Hown H Hid. pose proof HJ as [[[Hw _] _] _]. pose proof (Hw id r Hid) as Hr.
  pose proof (list_elem_of_here t rest) as Hin. unfold sessions.
  tcases H; op_specs; rewrite ?total_app; cbn; rewrite ?return_slot_objs; cbn;
    rewrite ?(total_fmap _ TRelease 0), ?(total_fmap _ TRetire 0), ?(total_fmap _ TCheck 0) by done;
    rewrite ?sess_release, ?sess_app, ?sess_add by done; rewrite ?(sess_same (stamp _)), ?(sess_same (set_slot _ _)) by done;
    try match goal with
        | Hx : workers p !! obj_id p ?r0 = Some ?x, Hw : objs p !! ?x = Some _ |- _ =>
            rewrite (session_end p _ r0 id r x HJ Hids Hown Hin Hid Hx); cbn; lia
        | Hx : workers p !! obj_id p ?r0 = None |- context [bool_decide (?r0 = r)] =>
            pose proof (session_gone p _ r0 id r Hown Hid Hx) as Hg; cbn in Hg; lia
        | Hx : workers p !! _ = Some ?x, Hn : objs p !! ?x = None |- _ =>
            destruct (Hw _ _ Hx) as [? ?]; congruence
        end;
    repeat case_match; rewrite ?sess_release; try lia.
  rewrite (total_fmap _ _ 0) by done. lia.
Qed.

Lemma obj_id_step o t p p' new r : tnext o t p = Some (p', new) → is_Some (objs p !! r) → obj_id p' r = obj_id p r.
Proof.
  intros H [w Hw]. unfold obj_id at 2. rewrite Hw. eapply ext_obj_id; [by eapply tnext_ext|done].
Qed.

(** What becomes of a spawner. *)
Lemma spawner_next o t p p' new t' id r : tok p t → tnext o t p = Some (p', new) → t' ∈ new →
  spawner t' = Some (id, r) → new = [t'] ∧ ((spawner t = Some (id, r) ∧ objs p' = objs p ∧ workers p' = workers p) ∨
   (r = length (objs p) ∧ workers p' = workers p ∧ obj_id p' r = id ∧ sessions p' r = 0)).
Proof.
  intros [Hr _] H Hin Hs. tcases H; op_specs; in_lists; cbn in Hs; try discriminate Hs; simplify_eq; (split; [done|]);
    try (left; repeat split; by try case_match).
  right. unfold obj_id, sessions, sess. cbn. rewrite lookup_app_r, Nat.sub_diag by done. done.
Qed.

Lemma own_run o t p rest p' new : base p (t :: rest) → ids_inv p (t :: rest) → own_inv p (t :: rest) →
  tnext o t p = Some (p', new) → own_inv p' (new ++ rest).
Proof.
  intros HJ Hids Hown H. pose proof Hown as (HW & HO & HS). pose proof HJ as [[[Hw _] Ht] _].
  pose proof (Ht t (list_elem_of_here _ _)) as Htok.
  assert (∀ k id r, t = TAdd k id r → obj_id p r = id ∧ sessions p r = 0 ∧ total (mentions r) (t :: rest) = 1) as Hadd.
  { intros k id r ->. destruct (HO _ id r (list_elem_of_here _ _) eq_refl) as (? & ? & _ & ?). done. }
  split; [|split].
  - intros id r Hid. destruct (workers_from _ _ _ _ _ _ _ H Hid) as [Hid0|[k ->]].
    + rewrite (obj_id_step _ _ _ _ _ _ H) by (by eapply Hw). by apply HW.
    + rewrite (obj_id_step _ _ _ _ _ _ H) by (apply Htok, list_elem_of_here). by eapply Hadd.
  - intros t' id r [Hin|Hin]%elem_of_app Hs.
    + destruct (spawner_next _ _ _ _ _ _ _ _ Htok H Hin Hs) as (-> & [(Hs0 & Ho & Hwk)|(-> & Hwk & Hi & Hse)]).
      * destruct (HO t id r (list_elem_of_here _ _) Hs0) as (H1 & H2 & H3 & H4).
        unfold obj_id, sessions in *. rewrite Ho, Hwk. split; [done|]. split; [done|]. split; [done|].
        cbn in *. rewrite (spawner_mentions t id r Hs0) in H4. rewrite (spawner_mentions t' id r Hs). lia.
      * split; [done|]. split; [done|]. rewrite Hwk.
        assert (∀ x, x = length (objs p) → ¬ is_Some (objs p !! x)) as Hlen.
        { intros x -> Hx%lookup_lt_is_Some. lia. }
        split; [intros id' Hid'; eapply Hlen; [reflexivity|by eapply Hw]|].
        cbn. rewrite (spawner_mentions t' id _ Hs), mentions_none; [done|].
        intros t'' Ht'' Hr. eapply Hlen; [reflexivity|]. by apply (Ht t'' (list_elem_of_further _ _ _ Ht'')).
    + destruct (HO t' id r (list_elem_of_further _ _ _ Hin) Hs) as (H1 & H2 & H3 & H4).
      pose proof (spawner_alone _ _ _ _ _ _ Hown Hin Hs) as Hal.
      assert (is_Some (objs p !! r)) as Hr by (apply (Ht t' (list_elem_of_further _ _ _ Hin)), (spawner_ref _ id r Hs)).
      pose proof (objs_frame _ _ _ _ _ _ H Hal H3 Hr) as Hf.
      split; [by rewrite (obj_id_step _ _ _ _ _ _ H Hr)|]. unfold sessions, sess in *. split; [by rewrite Hf|]. split.
      * intros id' Hid'. destruct (workers_from _ _ _ _ _ _ _ H Hid') as [Hid0|[k ->]]; [by apply (H3 id')|].
        by apply Hal, list_elem_of_here.
      * rewrite total_app, mentions_none; [cbn in H4; rewrite (mentions_out r t Hal) in H4; lia|].
        intros t'' Ht'' Hr''. destruct (new_refs _ _ _ _ _ _ _ H Ht'' Hr'') as [?|[[id' ?]| ->]]; [done|by apply (H3 id')|].
        apply lookup_lt_is_Some in Hr. lia.
  - intros id r Hid. rewrite total_app.
    destruct (workers_from _ _ _ _ _ _ _ H Hid) as [Hid0|[k ->]].
    + rewrite (sessions_step _ _ _ _ _ _ _ _ HJ Hids Hown H Hid0), (HS id r Hid0). cbn [total]. lia.
    + destruct (Hadd k id r eq_refl) as (_ & Hz & Hm). cbn in H. simplify_eq. cbn in *.
      pose proof (holds_mentions r rest). pose proof (total_nonneg (holds r) rest (holds_nonneg r)).
      rewrite (spawner_mentions (TAdd k id r) id r eq_refl) in Hm. unfold sessions in *. cbn. lia.
Qed.

Lemma own_reachable S : reachable S → own_inv (pool S) (threads S).
Proof.
  apply (invariant_rule (λ p ts, base p ts ∧ ids_inv p ts)); clear S.
  - intros p ts ts' Hp [H1 H2]. split; [by eapply base_perm|]. by eapply ids_inv_perm.
  - intros S HS. split; [by apply base_reachable|by apply ids_reachable].
  - intros p ts ts' Hp (H1 & H2 & H3). split; [done|]. split.
    + intros t id r Hin. rewrite <- Hp in Hin. rewrite <- (total_perm _ _ _ Hp). by apply H2.
    + intros id r Hid. rewrite <- (total_perm _ _ _ Hp). by eapply H3.
  - intros dir min max timeout retire migrate binds Hmax Hlen. cbv zeta.
    destruct (boot_pool dir min max timeout retire migrate binds) as (Hw & _ & _ & _ & _ & _ & _ & _ & Hts).
    unfold own_inv. rewrite Hw. split; [by intros ? ?; rewrite lookup_empty|].
    split; [|by intros ? ?; rewrite lookup_empty].
    intros t id r Hin. destruct Hts as [[_ E]|(_ & n & E & _)]; rewrite E in Hin;
      by apply list_elem_of_singleton in Hin as ->.
  - intros o t p rest p' new [HJ Hids]. by apply own_run.
  - intros r p ts _ (H1 & H2 & H3).
    assert (∀ r', obj_id (upd set_exited r p) r' = obj_id p r') as Hid.
    { intros r'. unfold obj_id, upd, with_objs. cbn. rewrite list_lookup_alter. case_decide; [subst|done].
      by destruct (objs p !! r'). }
    assert (∀ r', sessions (upd set_exited r p) r' = sessions p r') as Hse by (intros; by apply sess_same).
    split; [|split]; intros; rewrite ?Hid, ?Hse; [by apply H1|by apply (H2 t)|by eapply H3].
  - intros c p ts _ _ (H1 & H2 & H3). split; [done|]. split.
    + intros t id r [->|Hin]%elem_of_cons Hs; [by destruct c|].
      destruct (H2 t id r Hin Hs) as (? & ? & ? & ?). split; [done|]. split; [done|]. split; [done|].
      cbn. rewrite mentions_out; [lia|]. destruct c; apply not_elem_of_nil.
    + intros id r Hid. rewrite (H3 id r Hid). by destruct c.
Qed.

(** * No process is forgotten *)

(** The workers a goroutine waits for or has yet to publish. *)
Definition tended (t : thread) : list nat :=
  match t with
  | TWait _ _ r _ | TKill _ _ r _ | TAdd _ _ r | TRetire r | TRetireWait r | TCheckKill r => [r]
  | _ => []
  end.
Definition in_shutdown (t : thread) : bool :=
  match t with TShutWait _ | TShutClose => true | _ => false end.

Definition acct_inv (p : FlightWorkerPool) (ts : list thread) : Prop :=
  (∀ t, t ∈ ts → in_shutdown t = true → shuttingDown p = true) ∧
  (shuttingDown p = false → ∀ r, is_live p r = true →
     (∃ id, workers p !! id = Some r) ∨ ∃ t, t ∈ ts ∧ r ∈ tended t).

Lemma shutting_step o t p p' new : tnext o t p = Some (p', new) →
  (shuttingDown p' = true ∨ shuttingDown p' = shuttingDown p) ∧
  (∀ t', t' ∈ new → in_shutdown t' = true → shuttingDown p' = true ∨ in_shutdown t = true).
Proof.
  intros H. split.
  - tcases H; op_specs; cbn; slot_rest; try case_match; cbn; by auto.
  - intros t' Hin Hs. tcases H; op_specs; in_lists; cbn in *; try discriminate Hs; by auto.
Qed.

(** A live worker that leaves the map is in the hands of a goroutine. *)
Lemma leaving o t p rest p' new id r : base p (t :: rest) → ids_inv p (t :: rest) → own_inv p (t :: rest) →
  acct_inv p (t :: rest) → shuttingDown p = false → tnext o t p = Some (p', new) → is_live p r = true →
  workers p !! id = Some r → workers p' !! id = Some r ∨ ∃ t', t' ∈ new ∧ r ∈ tended t'.
Proof.
  intros HJ Hids (HW & HO & HS) [Hsh _] Hnot H Hl Hid. pose proof HJ as [[[Hw _] Ht] _].
  assert (∀ x, x ∈ refs t → obj_id p x = id → x = r) as Hsame.
  { intros x Hx Hox. eapply same_id; [done|by apply (Ht t (list_elem_of_here _ _))|by eapply Hw|].
    rewrite Hox. symmetry. by apply HW. }
  destruct (decide (workers p' !! id = Some r)) as [|Hne]; [by left|right].
  tcases H; op_specs; cbn in Hne; rewrite ?return_slot_workers, ?releaseWorkerSocket_workers in Hne; cbn in Hne;
    repeat case_match; try done.
  all: try (destruct Hne; by apply map_lookup_filter_Some_2).
  all: try match type of Hne with
       | delete ?k _ !! ?i ≠ _ =>
           destruct (decide (i = k)) as [->|Hk]; [|rewrite lookup_delete_ne in Hne by congruence; done]
       end.
  - destruct (decide (id = id0)) as [->|]; [|rewrite lookup_insert_ne in Hne by congruence; done].
    destruct (HO _ id0 r0 (list_elem_of_here _ _) eq_refl) as (Hi & _ & Hn & _).
    destruct (Hn id0). rewrite Hid. f_equal. symmetry. by apply Hsame; [apply list_elem_of_here|].
  - simplify_eq. by eexists; split; apply list_elem_of_here.
  - simplify_eq. by eexists; split; apply list_elem_of_here.
  - assert (r0 = r) as -> by (apply Hsame; [apply list_elem_of_here|done]).
    unfold is_live, obj_exited in *. destruct (objs p !! r); [|done]. by destruct (exited m).
  - assert (r0 = r) as -> by (apply Hsame; [apply list_elem_of_here|done]).
    by eexists; split; apply list_elem_of_here.
  - by rewrite (Hsh _ (list_elem_of_here _ _) eq_refl) in Hnot.
  - exists (TRetire r). split; [|apply list_elem_of_here]. apply list_elem_of_fmap_2.
    destruct (x !! id) as [r'|] eqn:Ex; [|by eauto].
    destruct Hne. rewrite <- Hid. symmetry. by eapply lookup_weaken.
  - simplify_eq. by eexists; split; apply list_elem_of_here.
Qed.

Lemma tended_step o t p p' new r : tnext o t p = Some (p', new) → is_live p r = true → r ∈ tended t →
  (∃ id, workers p' !! id = Some r) ∨ ∃ t', t' ∈ new ∧ r ∈ tended t'.
Proof.
  intros H Hl Hr.
  assert (∀ x, x = r → obj_exited p x = false) as Hx.
  { intros ? ->. unfold is_live, obj_exited in *. destruct (objs p !! r); [|done]. by destruct (exited m). }
  tcases H; cbn in Hr; in_lists; op_specs;
    try (right; eexists; split; apply list_elem_of_here); specialize (Hx _ eq_refl); try congruence.
  - unfold obj_exited in Hx. match goal with E : objs p !! _ = Some _ |- _ => rewrite E in Hx end. congruence.
  - left. exists id. apply lookup_insert_eq.
Qed.

Lemma live_exit p r x : is_live (upd set_exited x p) r = true → is_live p r = true.
Proof.
  unfold is_live, upd, with_objs. cbn. rewrite list_lookup_alter. case_decide; [subst|done]. by destruct (objs p !! r).
Qed.

Lemma acct_run o t p rest p' new : base p (t :: rest) → ids_inv p (t :: rest) → own_inv p (t :: rest) →
  acct_inv p (t :: rest) → tnext o t p = Some (p', new) → acct_inv p' (new ++ rest).
Proof.
  intros HJ Hids Hown Hacc H. pose proof Hacc as [Hsh Hac]. pose proof HJ as [[Hp Ht] _].
  destruct (shutting_step _ _ _ _ _ H) as [Hs Hn]. split.
  - intros t' [Hin|Hin]%elem_of_app Hd.
    + destruct (Hn t' Hin Hd) as [|Hd']; [done|]. destruct Hs as [?| ->]; [done|].
      by apply (Hsh t (list_elem_of_here _ _)).
    + destruct Hs as [?| ->]; [done|]. by apply (Hsh t' (list_elem_of_further _ _ _ Hin)).
  - intros Hnot r Hl. destruct Hs as [?|Hs]; [congruence|]. rewrite Hs in Hnot.
    assert ((∃ t', t' ∈ new ∧ r ∈ tended t') → ∃ t', t' ∈ new ++ rest ∧ r ∈ tended t') as Hnew.
    { intros (t' & ? & ?). exists t'. split; [apply elem_of_app; by left|done]. }
    destruct (decide (is_Some (objs p !! r))) as [Hr|Hr].
    + assert (is_live p r = true) as Hl0
        by exact (live_from _ _ _ _ _ _ Hp (Ht t (list_elem_of_here _ _)) H Hr Hl).
      destruct (Hac Hnot r Hl0) as [[id Hid]|(t' & Hin & Ht')];
        [|apply elem_of_cons in Hin as [->|Hin]].
      * destruct (leaving _ _ _ _ _ _ _ _ HJ Hids Hown Hacc Hnot H Hl0 Hid) as [?|?]; [left; by exists id|right; auto].
      * destruct (tended_step _ _ _ _ _ _ H Hl0 Ht') as [?|?]; [by left|right; auto].
      * right. exists t'. split; [apply elem_of_app; by right|done].
    + right. unfold is_live in Hl. destruct (objs p' !! r) as [w|] eqn:Hw; [|done].
      destruct (objs_from _ _ _ _ _ (Ht t (list_elem_of_here _ _)) H) as [Hc|(k & id & s & path & env & m & -> & Ho)].
      * destruct (Hc r w Hw) as (w0 & Hw0 & _). destruct Hr. by eexists.
      * rewrite Ho in Hw. apply lookup_app_Some in Hw as [Hw|[Hlen Hw]]; [destruct Hr; by eexists|].
        apply list_lookup_singleton_Some in Hw as [E _]. tsplit H.
        -- eexists. split; [apply elem_of_app; left; apply list_elem_of_here|]. cbn. apply list_elem_of_singleton. lia.
        -- cbn in Ho. rewrite return_slot_objs in Ho. cbn in Ho. apply (f_equal length) in Ho. rewrite length_app in Ho. cbn in Ho. lia.
        -- cbn in Ho. rewrite return_slot_objs in Ho. apply (f_equal length) in Ho. rewrite length_app in Ho. cbn in Ho. lia.
Qed.

(** What is known of every reachable system. *)
Definition known (p : FlightWorkerPool) (ts : list thread) : Prop := base p ts ∧ ids_inv p ts ∧ own_inv p ts.
Lemma own_perm p ts ts' : ts ≡ₚ ts' → own_inv p ts → own_inv p ts'.
Proof.
  intros Hp (H1 & H2 & H3). split; [done|]. split.
  - intros t id r Hin. rewrite <- Hp in Hin. rewrite <- (total_perm _ _ _ Hp). by apply H2.
  - intros id r Hid. rewrite <- (total_perm _ _ _ Hp). by eapply H3.
Qed.
Lemma known_perm p ts ts' : ts ≡ₚ ts' → known p ts → known p ts'.
Proof. intros Hp (H1 & H2 & H3). split; [by eapply base_perm|]. split; [by eapply ids_inv_perm|by eapply own_perm]. Qed.
Lemma known_reachable S : reachable S → known (pool S) (threads S).
Proof. intros HS. split; [by apply base_reachable|]. split; [by apply ids_reachable|by apply own_reachable]. Qed.

Lemma acct_reachable S : reachable S → acct_inv (pool S) (threads S).
Proof.
  apply (invariant_rule known); clear S; [apply known_perm|apply known_reachable|..].
  - intros p ts ts' Hp [H1 H2]. split; [intros t; rewrite <- Hp; apply H1|].
    intros Hn r Hl. destruct (H2 Hn r Hl) as [?|(t & Hin & ?)]; [by left|right]. exists t. by rewrite <- Hp.
  - intros dir min max timeout retire migrate binds Hmax Hlen. cbv zeta.
    destruct (boot_pool dir min max timeout retire migrate binds) as (_ & Ho & _ & _ & _ & _ & _ & _ & Hts).
    split; [|unfold is_live; rewrite Ho; by intros _ r].
    intros t Hin. destruct Hts as [[_ E]|(_ & n & E & _)]; rewrite E in Hin; by apply list_elem_of_singleton in Hin as ->.
  - intros o t p rest p' new (HJ & Hi & Ho). by apply acct_run.
  - intros r p ts _ [H1 H2]. split; [done|]. intros Hn r' Hl%live_exit. by apply H2.
  - intros c p ts _ _ [H1 H2]. split; [intros t [->|Hin]%elem_of_cons; [by destruct c|by apply H1]|].
    intros Hn r Hl. destruct (H2 Hn r Hl) as [?|(t & Hin & ?)]; [by left|right].
    exists t. split; [by apply list_elem_of_further|done].
Qed.

(** C26. Until ShutdownAll is called, every worker process that runs is in the pool's map
    or in the hands of a goroutine that starts it, stops it or waits for it: none is
    left running with nobody to stop it. *)
Theorem no_process_is_forgotten S r : reachable S → shuttingDown (pool S) = false → is_live (pool S) r = true →
  (∃ id, workers (pool S) !! id = Some r) ∨ ∃ t, t ∈ threads S ∧ r ∈ tended t.
Proof. intros HS Hn Hl. by apply (acct_reachable S HS). Qed.

Lemma holds_zero r ts : total (holds r) ts = 0 → TSession r ∉ ts.
Proof.
  intros H Hin. pose proof (total_in (holds r) ts _ (holds_nonneg r) Hin) as H1.
  cbn in H1. rewrite bool_decide_eq_true_2 in H1 by done. lia.
Qed.

Lemma dropped_to_zero p k id r x w : delete k (workers p) !! id = None → workers p !! id = Some r →
  workers p !! k = Some x → objs p !! x = Some w → activeSessions (drop_session w) = 0 →
  sess (alter drop_session x (objs p)) r = 0.
Proof.
  intros [->|?]%lookup_delete_None Hr Hx Hw Hz; [|congruence]. simplify_eq.
  unfold sess. by rewrite list_lookup_alter_eq, Hw.
Qed.

Lemma retired_is_free o t p rest p' new id r : known p (t :: rest) → t = TReap ∨ (∃ r0, t = TSession r0) →
  tnext o t p = Some (p', new) → workers p !! id = Some r → workers p' !! id = None →
  total (holds r) (new ++ rest) = 0.
Proof.
  intros (HJ & Hids & Hown) Hk H Hid Hnone.
  pose proof (sessions_step _ _ _ _ _ _ _ _ HJ Hids Hown H Hid) as Hse.
  destruct Hown as (HW & HO & HS). pose proof (HS id r Hid) as Hs. cbn in Hs.
  assert (sessions p' r = 0) as Hz; [|rewrite total_app; cbn in *; lia].
  destruct Hk as [->|[r0 ->]]; tsplit H; op_specs; cbn in Hnone; try congruence.
  - match goal with Ha : ∀ id r, workers p !! id = Some r → _ = None → r ∈ l,
                    Hb : ∀ r, r ∈ l → ∃ w, _ |- _ =>
      destruct (Hb r (Ha id r Hid Hnone)) as (w & Hw & Hz) end.
    unfold sessions, sess. cbn. by rewrite Hw.
  - eapply dropped_to_zero; eassumption.
  - eapply dropped_to_zero; eassumption.
Qed.

(** C27. A worker's session count is the number of sessions that hold it; so when the idle
    reaper or the end of a session takes a worker out of the pool to stop it, no
    session is on it. *)
Theorem busy_workers_are_not_retired S i o S' t id r : reachable S → threads S !! i = Some t →
  t = TReap ∨ (∃ r0, t = TSession r0) → step (Run i o) S = Some S' →
  workers (pool S) !! id = Some r →
  sessions (pool S) r = total (holds r) (threads S) ∧
  (workers (pool S') !! id = None → TSession r ∉ threads S').
Proof.
  intros HS Hi Hk Hstep Hid. pose proof (known_reachable S HS) as HK.
  split; [by eapply HK|]. intros Hnone. cbn in Hstep. rewrite Hi in Hstep. cbn in Hstep.
  destruct (tnext o t (pool S)) as [[p' new]|] eqn:En; [|done]. cbn in Hstep. simplify_eq. cbn in *.
  apply holds_zero. rewrite !total_app.
  rewrite Nat.add_1_r. apply (known_perm _ _ (t :: take i (threads S) ++ drop (Datatypes.S i) (threads S))) in HK;
    [|rewrite <- (take_drop_middle _ _ _ Hi) at 1; symmetry; apply Permutation_middle].
  pose proof (retired_is_free _ _ _ _ _ _ _ _ HK Hk En Hid Hnone) as Hz. rewrite !total_app in Hz. lia.
Qed.
