(* ===== verification/PoolRuns.v ===== *)
(** The pool's operations taken one at a time (the reaper, waitForWorker, the health
    checks, the environment of a worker), and runs of the whole pool that show what
    its races can do. *)

From Stdlib Require Import Strings.Byte.
From stdpp Require Import prelude gmap strings list fin_maps.
From Stdlib Require Import ZArith Lia.
From S2P Require Import Prelude GoText WorkerPool PoolTheorems PoolOwnership.

Open Scope Z_scope.

(** * The reaper *)

Lemma idle_delete p id r : workers p !! id = Some r →
  idle_count p - 1 ≤ idle_count (with_workers (delete id (workers p)) p) ≤ idle_count p.
Proof.
  intros H. unfold idle_count. cbn [workers with_workers].
  change (is_idle (with_workers _ p)) with (is_idle p).
  rewrite (mcount_delete _ _ _ _ H). destruct (is_idle p r); cbn [Z.b2z]; lia.
Qed.

Lemma reap_loop_min now order : ∀ n p rs p', n ≤ idle_count p → reap_loop now n order p = (rs, p') →
  idle_count p' ≤ idle_count p ∧ Z.min (minWorkers p) n ≤ idle_count p'.
Proof.
  induction order as [|id order IH]; intros n p rs p' Hn; cbn; [intros [= <- <-]; lia|].
  case_bool_decide; [intros [= <- <-]; lia|].
  destruct (worker_at p id) as [[r w]|] eqn:Ew; [|by apply IH].
  apply worker_at_Some in Ew as [Hr _]. destruct (may_reap now p w); [|by apply IH].
  pose proof (idle_delete p id r Hr). destruct (reap_loop _ _ _ _) as [rs1 p1] eqn:El. intros [= <- <-].
  apply IH in El; [|lia]. cbn in El. lia.
Qed.

(** The reaper leaves at least [minWorkers] live idle workers in the pool, or all of
    them when there were fewer, in whatever order it meets them; it only takes
    workers out that have no session and were released longer ago than the timeout. *)
Theorem reaper_keeps_min_workers now order p rs p' : reapIdleWorkers now order p = (rs, p') →
  Z.min (minWorkers p) (idle_count p) ≤ idle_count p' ∧
  (∀ r, r ∈ rs → ∃ w, objs p !! r = Some w ∧ activeSessions w = 0).
Proof.
  intros H. split; [|by eapply reap_loop_spec].
  apply (reap_loop_min now order (idle_count p)) in H; lia.
Qed.

(** * Waiting for a worker *)

(** The turns that begin before the deadline. *)
Fixpoint in_time (timeout now : Z) (turns : list attempt) : list attempt :=
  match turns with
  | [] => []
  | t :: turns' => if bool_decide (now < timeout) then t :: in_time timeout (now + took t + 100) turns' else []
  end.

Lemma wait_loop_ends timeout turns : ∀ now last n,
  Forall (λ t, 0 ≤ took t) turns → timeout - now ≤ 100 * Z.of_nat (length turns) →
  ∃ e, wait_loop timeout now last n turns = Some e.
Proof.
  induction turns as [|t turns IH]; intros now last n Hf Hlen; cbn; case_bool_decide; eauto.
  - cbn in Hlen. lia.
  - inversion_clear Hf as [|? ? Ht Hf']. cbn [length] in Hlen.
    destruct (result t); [apply IH; [done|lia]..|]. by eexists.
Qed.

Lemma wait_loop_healthy timeout turns : ∀ now last n e, wait_loop timeout now last n turns = Some e →
  (e = None ↔ ∃ t, t ∈ in_time timeout now turns ∧ result t = Healthy).
Proof.
  induction turns as [|t turns IH]; intros now last n e; cbn; case_bool_decide; [done|..].
  - intros [= <-]. split; [done|]. intros (t & Hin & _). by apply elem_of_nil in Hin.
  - destruct (result t) eqn:Er; intros Hl; try (apply IH in Hl; rewrite Hl; split;
      [intros (t' & Hin & Hh); exists t'; split; [by apply list_elem_of_further|done]
      |intros (t' & [->|Hin]%elem_of_cons & Hh); [congruence|by exists t']]).
    simplify_eq. split; [|done]. intros _. exists t. split; [apply list_elem_of_here|done].
  - intros [= <-]. split; [done|]. intros (t' & Hin & _). by apply elem_of_nil in Hin.
Qed.

(** waitForWorker returns: at most one turn per 100 ms of its timeout. It reports
    success exactly when a turn that began before the deadline got a healthy answer. *)
Theorem wait_is_bounded timeout turns : Forall (λ t, 0 ≤ took t) turns →
  timeout ≤ 100 * Z.of_nat (length turns) →
  ∃ e, waitForWorker timeout turns = Some e ∧
    (e = None ↔ ∃ t, t ∈ in_time timeout 0 turns ∧ result t = Healthy).
Proof.
  intros Hf Hlen. destruct (wait_loop_ends timeout turns 0 None 0 Hf ltac:(lia)) as [e He].
  exists e. split; [done|]. by eapply wait_loop_healthy.
Qed.

(** * Health checks *)

(** The checks of one worker, one per tick: whether one of them has it killed. *)
Fixpoint checks (id : Z) (outcomes : list bool) (fs : gmap Z Z) : bool :=
  match outcomes with
  | [] => false
  | h :: outcomes' => let '(kill, fs) := record_check h id fs in kill || checks id outcomes' fs
  end.

Definition three_failures (l : list bool) : Prop := ∃ a b, l = a ++ [false; false; false] ++ b.

Lemma three_cons_true l : three_failures (true :: l) ↔ three_failures l.
Proof.
  split; intros (a & b & E); [|by exists (true :: a), b; rewrite E].
  destruct a as [|x a]; [done|]. exists a, b. by injection E as _ ->.
Qed.
Lemma three_skip c l : (c < 3)%nat → three_failures (replicate c false ++ true :: l) ↔ three_failures l.
Proof.
  intros Hc. destruct c as [|[|[|c]]]; [apply three_cons_true|..|lia]; cbn.
  - split; [|rewrite <- (three_cons_true l); intros (a & b & ->); by exists (false :: a), b].
    intros ([|x a] & b & E); [done|]. injection E as _ E. apply three_cons_true. by exists a, b.
  - split; [|rewrite <- (three_cons_true l); intros (a & b & ->); by exists (false :: false :: a), b].
    intros ([|x [|y a]] & b & E); [done..|]. injection E as _ _ E. apply three_cons_true. by exists a, b.
Qed.

Lemma checks_spec id outcomes : ∀ c fs, (c < 3)%nat → default 0 (fs !! id) = Z.of_nat c →
  checks id outcomes fs = true ↔ three_failures (replicate c false ++ outcomes).
Proof.
  induction outcomes as [|h outcomes IH]; intros c fs Hc Hfs.
  { cbn. split; [done|]. intros (a & b & E). apply (f_equal length) in E.
    rewrite !length_app, length_replicate in E. cbn in E. lia. }
  cbn [checks]. unfold record_check. destruct h.
  - rewrite three_skip by done. cbn [orb]. rewrite (IH 0%nat); [done|lia|]. by rewrite lookup_delete_eq.
  - rewrite Hfs. case_bool_decide as Hk; cbn [orb].
    + split; [|done]. intros _. unfold maxConsecutiveHealthFailures in Hk.
      assert (c = 2%nat) as -> by lia. by exists [], outcomes.
    + unfold maxConsecutiveHealthFailures in Hk. rewrite (IH (S c)); [|lia|rewrite lookup_insert_eq; cbn; lia].
      change (false :: outcomes) with ([false] ++ outcomes).
      rewrite (assoc_L (++)). replace (replicate c false ++ [false]) with (replicate (S c) false); [done|].
      by rewrite replicate_S_end.
Qed.

(** A worker is force-killed by the health checks exactly when three checks in a row
    have failed: a success in between starts the count again. *)
Theorem killed_after_three_failures id outcomes fs : fs !! id = None →
  checks id outcomes fs = true ↔ three_failures outcomes.
Proof. intros H. rewrite (checks_spec id outcomes 0); [done|lia|]. by rewrite H. Qed.

(** * The environment of a worker *)

Lemma index_byte_app b k v : b ∉ k → index_byte b (k ++ b :: v) = Some (length k).
Proof.
  unfold index_byte. induction k as [|c k IH]; cbn; intros Hk.
  - unfold has_prefix. cbn. by rewrite !bool_decide_eq_true_2.
  - apply not_elem_of_cons in Hk as [Hne Hk]. unfold has_prefix. cbn.
    rewrite bool_decide_eq_false_2 by congruence. by rewrite IH.
Qed.

(** appendOrReplaceEnv leaves exactly one entry for the variable, the given one, and
    every other entry as it was. *)
Theorem env_has_one_entry env key v : x3d ∉ key →
  let prefixed e := has_prefix (key ++ [x3d]) e = true in
  let res := appendOrReplaceEnv env (key ++ x3d :: v) in
  filter prefixed res = [key ++ x3d :: v] ∧
  filter (λ e, ¬ prefixed e) res = filter (λ e, ¬ prefixed e) env.
Proof.
  intros Hk prefixed res. subst res. unfold appendOrReplaceEnv. rewrite index_byte_app by done.
  replace (take (length key + 1) (key ++ x3d :: v)) with (key ++ [x3d]).
  2:{ change (key ++ x3d :: v) with (key ++ [x3d] ++ v). rewrite (assoc_L (++)).
      symmetry. apply take_app_length'. rewrite length_app. done. }
  assert (prefixed (key ++ x3d :: v)) as Hp.
  { subst prefixed. cbn. change (key ++ x3d :: v) with (key ++ [x3d] ++ v). rewrite (assoc_L (++)).
    apply has_prefix_app. }
  rewrite !filter_app, (filter_cons_True prefixed) by done.
  rewrite (filter_cons_False (λ e, ¬ prefixed e)) by tauto.
  rewrite !filter_nil, (right_id_L [] (++)). split.
  - assert (filter prefixed (filter (λ e, has_prefix (key ++ [x3d]) e = false) env) = []) as ->; [|done].
    apply elem_of_nil_inv. intros e. rewrite !list_elem_of_filter. subst prefixed. cbn.
    destruct (has_prefix _ e); naive_solver.
  - apply list_filter_filter_l. intros e. subst prefixed. cbn. by destruct (has_prefix _ e).
Qed.

(** * One migration at a time *)

Definition migrates (t : thread) : Z :=
  match t with TStart _ _ _ _ _ true | TWait _ _ _ true => 1 | _ => 0 end.
Definition mig_inv (p : FlightWorkerPool) (ts : list thread) : Prop :=
  total migrates ts = Z.b2z (migrateMu p) ∧ (migrateMu p = true → ducklakeMigrate p = true).

Lemma mig_step o t p p' new : tnext o t p = Some (p', new) → (migrates t = 1 → migrateMu p = true) →
  (migrateMu p = true → ducklakeMigrate p = true) →
  total migrates new - migrates t = Z.b2z (migrateMu p') - Z.b2z (migrateMu p) ∧
  (migrateMu p' = true → ducklakeMigrate p' = true).
Proof.
  intros H Hm Hd. tcases H; op_specs; rewrite ?total_app; cbn in *; slot_rest; cbn;
    rewrite ?(total_fmap _ TRelease 0), ?(total_fmap _ TRetire 0), ?(total_fmap _ TCheck 0),
      ?(total_fmap _ (λ i : nat, TTake ForAll (Z.of_nat i)) 0) by done;
    repeat case_match; subst; cbn in *; slot_rest; cbn;
    try (specialize (Hm eq_refl); rewrite Hm in * ); try (split; [cbn; lia|first [exact Hd|done|auto]]).
  - intros E. by apply Hd in E.
  - match goal with E : migrateMu p = false |- _ => by rewrite E end.
Qed.

Lemma migrates_nonneg t : 0 ≤ migrates t.
Proof. destruct t; cbn; try lia; case_match; lia. Qed.

Lemma mig_reachable S : reachable S → mig_inv (pool S) (threads S).
Proof.
  apply (invariant_rule (λ _ _, True)); clear S; [done|done|..].
  - intros p ts ts' Hp [H1 H2]. split; [by rewrite <- (total_perm _ _ _ Hp)|done].
  - intros dir min max timeout retire migrate binds Hmax Hlen. cbv zeta.
    destruct (boot_pool dir min max timeout retire migrate binds) as (_ & _ & _ & _ & _ & Hm & _ & _ & Hts).
    unfold mig_inv. rewrite Hm. by destruct Hts as [[_ ->]|(_ & n & -> & _)].
  - intros o t p rest p' new _ [H1 H2] H. cbn in H1.
    pose proof (total_nonneg migrates rest migrates_nonneg).
    destruct (mig_step _ _ _ _ _ H) as [E1 E2]; [|done|].
    + intros Ht. destruct (migrateMu p); [done|]. cbn in H1. lia.
    + split; [|done]. rewrite total_app. lia.
  - done.
  - intros c p ts _ _ [H1 H2]. split; [|done]. by destruct c.
Qed.

(** While a DuckLake migration is pending, at most one worker at a time is started
    with the migration switched on, and only while the pending flag is set. *)
Theorem one_migration_at_a_time S : reachable S →
  total migrates (threads S) ≤ 1 ∧
  (∀ t, t ∈ threads S → migrates t = 1 → migrateMu (pool S) = true ∧ ducklakeMigrate (pool S) = true).
Proof.
  intros [H1 H2]%mig_reachable. split; [destruct (migrateMu (pool S)); cbn in H1; lia|].
  intros t Hin Ht. pose proof (total_in migrates (threads S) t migrates_nonneg Hin).
  destruct (migrateMu (pool S)); [by auto|]. cbn in H1. lia.
Qed.

(** * Runs *)

Definition usual : oracle :=
  {| o_ok := true; o_writable := true; o_mkdir := true; o_now := 0; o_dead := []; o_order := [];
     o_env := []; o_turns := [{| took := 5; result := Healthy |}]; o_ctx := false |}.
(** A section that scans the pool while the workers [ids] are in it. *)
Definition scanning (ids : list Z) : oracle :=
  {| o_ok := true; o_writable := true; o_mkdir := true; o_now := 0; o_dead := ids; o_order := ids;
     o_env := []; o_turns := []; o_ctx := false |}.
(** A session that could not be created. *)
Definition failing : oracle :=
  {| o_ok := false; o_writable := true; o_mkdir := true; o_now := 0; o_dead := []; o_order := [];
     o_env := []; o_turns := []; o_ctx := false |}.

Lemma run_reachable es : ∀ S S', reachable S → run es S = Some S' → reachable S'.
Proof.
  induction es as [|e es IH]; intros S S' HS; cbn; [by intros [= <-]|].
  destruct (step e S) as [S1|] eqn:E; [|done]. cbn. apply IH. by eapply reach_step.
Qed.

(** A pool of at most one worker, whose socket is pre-bound. *)
Definition small (retire : bool) : system := boot "run" 0 1 60 retire false [true].
Lemma small_reachable retire : reachable (small retire).
Proof. by constructor. Qed.

(** AcquireWorker as goroutine [i] up to the point where its worker answers. *)
Definition spawning_run (i : nat) : list event :=
  [Run i usual; Run i usual; Run i usual; Run i usual; Run i usual].

(** ShutdownAll takes its list of workers before a worker that is being spawned is
    added to the map, and drops the map after: the process keeps running, the pool is
    empty, no goroutine knows the process, and its AcquireWorker has failed. *)
Theorem shutdown_can_leak_a_worker : ∃ S, reachable S ∧ shuttingDown (pool S) = true ∧
  is_live (pool S) 0 = true ∧ workers (pool S) = ∅ ∧ threads S = [THealth].
Proof.
  assert (∃ S, run ([Call CallAcquire; Run 1 usual] ++ spawning_run 1 ++
                    [Call CallShutdown; Run 2 usual; Run 1 usual; Run 2 usual; Run 2 usual;
                     Run 1 usual; Run 1 usual]) (small false) = Some S ∧
               shuttingDown (pool S) = true ∧ is_live (pool S) 0 = true ∧ workers (pool S) = ∅ ∧
               threads S = [THealth]) as (S & Hrun & H).
  { eexists. split; [vm_compute; reflexivity|]. by vm_compute. }
  exists S. split; [|done]. by eapply run_reachable; [apply (small_reachable false)|].
Qed.

(** A pool of at most one worker can have two worker processes running: one that is
    being retired no longer counts against the cap. *)
Theorem cap_does_not_bound_processes : ∃ S, reachable S ∧ maxWorkers (pool S) = 1 ∧
  is_live (pool S) 0 = true ∧ is_live (pool S) 1 = true ∧ TRetire 0 ∈ threads S ∧ TSession 1 ∈ threads S.
Proof.
  assert (∃ S, run ([Call CallAcquire; Run 1 usual] ++ spawning_run 1 ++
                    [Run 1 usual; Run 1 usual; Run 1 usual; Run 1 usual; Run 1 usual;
                     Call CallAcquire; Run 2 usual] ++ spawning_run 2 ++
                    [Run 2 usual; Run 2 usual; Run 2 usual; Run 2 usual]) (small true) = Some S ∧
               maxWorkers (pool S) = 1 ∧ is_live (pool S) 0 = true ∧ is_live (pool S) 1 = true ∧
               threads S = [THealth; TRetire 0; TSession 1]) as (S & Hrun & H1 & H2 & H3 & Ht).
  { eexists. split; [vm_compute; reflexivity|]. by vm_compute. }
  exists S. split; [by eapply run_reachable; [apply (small_reachable true)|]|].
  rewrite Ht. split; [done|]. split; [done|]. split; [done|].
  split; repeat (apply list_elem_of_here || apply list_elem_of_further).
Qed.

(** A worker spawned for one caller is in the map before that caller has claimed it.
    Another caller can take it as an idle worker, fail to create its session and have
    it retired: the first AcquireWorker then returns a worker that is out of the pool
    and being stopped. *)
Theorem fresh_worker_can_be_retired : ∃ S, reachable S ∧ workers (pool S) = ∅ ∧
  TSession 0 ∈ threads S ∧ TRetire 0 ∈ threads S.
Proof.
  assert (∃ S, run ([Call CallAcquire; Run 1 usual] ++ spawning_run 1 ++
                    [Run 1 usual; Run 1 usual; Run 1 usual;
                     Call CallAcquire; Run 2 (scanning [0]); Run 2 failing; Run 1 usual]) (small false) = Some S ∧
               workers (pool S) = ∅ ∧ threads S = [THealth; TSession 0; TRetire 0]) as (S & Hrun & H1 & Ht).
  { eexists. split; [vm_compute; reflexivity|]. by vm_compute. }
  exists S. split; [by eapply run_reachable; [apply (small_reachable false)|]|].
  rewrite Ht. split; [done|]. split; repeat (apply list_elem_of_here || apply list_elem_of_further).
Qed.

(** * The theorems at concrete systems *)

(** One worker, with one session on it. *)
Definition session_run : list event :=
  [Call CallAcquire; Run 1 usual] ++ spawning_run 1 ++ [Run 1 usual; Run 1 usual; Run 1 usual; Run 1 usual].
Definition one_session : system := default (small false) (run session_run (small false)).
Lemma one_session_reachable : reachable one_session.
Proof. apply (run_reachable session_run (small false)); [apply small_reachable|]. vm_compute. reflexivity. Qed.

Lemma sockets_are_not_shared_witness : reachable one_session ∧ 0%nat ∉ prebound (pool one_session).
Proof.
  split; [apply one_session_reachable|].
  assert (∃ w, objs (pool one_session) !! 0%nat = Some w ∧ exited w = false ∧ cmdSlot w = Some 0%nat)
    as (w & H1 & H2 & H3) by (eexists; split; [vm_compute; reflexivity|done]).
  exact (proj1 (proj2 (sockets_are_not_shared one_session one_session_reachable) 0%nat w 0%nat H1 H2 H3)).
Defined.

Lemma worker_cap_respected_witness : live_workers (pool one_session) + total coming (threads one_session) ≤ 1.
Proof. apply (worker_cap_respected one_session one_session_reachable). vm_compute. reflexivity. Defined.

Lemma no_process_is_forgotten_witness :
  is_live (pool one_session) 0 = true ∧
  ((∃ id, workers (pool one_session) !! id = Some 0%nat) ∨ ∃ t, t ∈ threads one_session ∧ 0%nat ∈ tended t).
Proof.
  split; [by vm_compute|].
  apply (no_process_is_forgotten one_session 0 one_session_reachable); by vm_compute.
Defined.

(** The session ends with a failure, and its worker is retired. *)
Lemma busy_workers_are_not_retired_witness :
  ∃ S', step (Run 1 failing) one_session = Some S' ∧ workers (pool S') !! 0 = None ∧ TSession 0 ∉ threads S'.
Proof.
  destruct (step (Run 1 failing) one_session) as [S'|] eqn:E; [|by vm_compute in E].
  assert (workers (pool S') !! 0 = None) as Hn by (vm_compute in E; by injection E as <-).
  exists S'. split; [done|]. split; [done|].
  refine (proj2 (busy_workers_are_not_retired one_session 1 failing S' (TSession 0) 0 0
                   one_session_reachable _ _ E _) Hn).
  - by vm_compute.
  - right. by exists 0%nat.
  - by vm_compute.
Defined.

Lemma one_migration_at_a_time_witness : total migrates (threads one_session) ≤ 1.
Proof. exact (proj1 (one_migration_at_a_time one_session one_session_reachable)). Defined.

Lemma reaper_keeps_min_workers_witness :
  Z.min (minWorkers (pool one_session)) (idle_count (pool one_session))
    ≤ idle_count (reapIdleWorkers 500 [0] (pool one_session)).2.
Proof.
  destruct (reapIdleWorkers 500 [0] (pool one_session)) as [rs p'] eqn:E.
  exact (proj1 (reaper_keeps_min_workers 500 [0] (pool one_session) rs p' E)).
Defined.

Lemma wait_is_bounded_witness : ∃ e, waitForWorker 150
  [{| took := 20; result := Unhealthy |}; {| took := 20; result := Healthy |}] = Some e ∧ e = None.
Proof.
  destruct (wait_is_bounded 150 [{| took := 20; result := Unhealthy |}; {| took := 20; result := Healthy |}])
    as (e & He & Hiff); [by repeat constructor|done|].
  exists e. split; [done|]. apply Hiff. exists {| took := 20; result := Healthy |}.
  split; [|done]. vm_compute. apply list_elem_of_further, list_elem_of_here.
Defined.

Lemma killed_after_three_failures_witness : checks 7 [false; true; false; false; false] ∅ = true.
Proof. apply (killed_after_three_failures 7 _ ∅); [done|]. by exists [false; true], []. Defined.

Lemma env_has_one_entry_witness :
  let res := appendOrReplaceEnv [bytes "A=1"; bytes "DUCKGRES_MODE=x"] env_mode in
  filter (λ e, has_prefix (bytes "DUCKGRES_MODE=") e = true) res = [env_mode].
Proof.
  refine (proj1 (env_has_one_entry [bytes "A=1"; bytes "DUCKGRES_MODE=x"] (bytes "DUCKGRES_MODE")
                   (bytes "duckdb-service") _)).
  apply (bool_decide_unpack _). by vm_compute.
Defined.
