(* ===== verification/SessionMeta.v ===== *)
(** Session metadata (src/server/sessionmeta/sessionmeta.go): the statements that give a
    session the client-visible name of its database, and what a database name can do to
    them. *)

From Stdlib Require Import Strings.Byte.
From stdpp Require Import prelude gmap strings list fin_maps.
From Stdlib Require Import ZArith Lia.
From S2P Require Import Prelude GoText.

Open Scope string_scope.
Open Scope list_scope.
Open Scope Z_scope.

(** * Texts *)

(** [strings.ReplaceAll] of a quote by two. *)
Definition double_quotes (l : list byte) : list byte := l ≫= λ b, if bool_decide (b = x27) then [x27; x27] else [b].
Definition quoteSQLStringLiteral (value : string) : string := str ([x27] ++ double_quotes (bytes value) ++ [x27]).

(** [fmt.Sprintf] of a format whose verbs are all [%s], with the same argument for each. *)
Fixpoint split_verbs (l : list byte) : list (list byte) :=
  match l with
  | [] => [[]]
  | b :: ((c :: l'') as l') =>
      if bool_decide (b = x25 ∧ c = x73) then [] :: split_verbs l''
      else match split_verbs l' with w :: ws => (b :: w) :: ws | [] => [[b]] end
  | [b] => [[b]]
  end.
Definition Sprintf_s (format arg : string) : string := str (join (bytes arg) (split_verbs (bytes format))).

Definition sessionColumnMetadataTableSQL : string := "
		CREATE TABLE IF NOT EXISTS main.__duckgres_column_metadata (
			table_schema VARCHAR NOT NULL,
			table_name VARCHAR NOT NULL,
			column_name VARCHAR NOT NULL,
			character_maximum_length INTEGER,
			numeric_precision INTEGER,
			numeric_scale INTEGER,
			PRIMARY KEY (table_schema, table_name, column_name)
		)
	".

Definition pg_database_format : string := "
		CREATE OR REPLACE VIEW main.pg_database AS
		WITH base AS (
			SELECT * FROM (
				VALUES
					(1::INTEGER, 'postgres', 10::INTEGER, 6::INTEGER, 'c', false, true, -1::INTEGER, 0::INTEGER, 0::INTEGER, 1663::INTEGER, 'en_US.UTF-8', 'en_US.UTF-8', NULL, NULL, NULL, NULL),
					(2::INTEGER, 'template0', 10::INTEGER, 6::INTEGER, 'c', true, false, -1::INTEGER, 0::INTEGER, 0::INTEGER, 1663::INTEGER, 'en_US.UTF-8', 'en_US.UTF-8', NULL, NULL, NULL, NULL),
					(3::INTEGER, 'template1', 10::INTEGER, 6::INTEGER, 'c', true, true, -1::INTEGER, 0::INTEGER, 0::INTEGER, 1663::INTEGER, 'en_US.UTF-8', 'en_US.UTF-8', NULL, NULL, NULL, NULL)
			) AS rows(
				oid, datname, datdba, encoding, datlocprovider, datistemplate, datallowconn,
				datconnlimit, datfrozenxid, datminmxid, dattablespace, datcollate, datctype,
				daticulocale, daticurules, datcollversion, datacl
			)
		),
		requested AS (
			SELECT
				CASE
					WHEN %s = 'postgres' THEN 1
					WHEN %s = 'template0' THEN 2
					WHEN %s = 'template1' THEN 3
					ELSE 4
				END::INTEGER AS oid,
				%s AS datname,
				10::INTEGER AS datdba,
				6::INTEGER AS encoding,
				'c' AS datlocprovider,
				(%s IN ('template0', 'template1')) AS datistemplate,
				(%s != 'template0') AS datallowconn,
				-1::INTEGER AS datconnlimit,
				0::INTEGER AS datfrozenxid,
				0::INTEGER AS datminmxid,
				1663::INTEGER AS dattablespace,
				'en_US.UTF-8' AS datcollate,
				'en_US.UTF-8' AS datctype,
				NULL AS daticulocale,
				NULL AS daticurules,
				NULL AS datcollversion,
				NULL AS datacl
		)
		SELECT
			oid, datname, datdba, encoding, datlocprovider, datistemplate, datallowconn,
			datconnlimit, datfrozenxid, datminmxid, dattablespace, datcollate, datctype,
			daticulocale, daticurules, datcollversion, datacl
		FROM base
		WHERE datname <> %s
		UNION ALL
		SELECT
			oid, datname, datdba, encoding, datlocprovider, datistemplate, datallowconn,
			datconnlimit, datfrozenxid, datminmxid, dattablespace, datcollate, datctype,
			daticulocale, daticurules, datcollversion, datacl
		FROM requested
	".

Definition buildSessionInformationSchemaColumnsViewSQL : string := "
		CREATE OR REPLACE VIEW main.information_schema_columns_compat AS
		SELECT
			CASE WHEN c.table_catalog IN ('ducklake', 'memory') THEN current_database() ELSE c.table_catalog END AS table_catalog,
			CASE WHEN c.table_schema = 'main' THEN 'public' ELSE c.table_schema END AS table_schema,
			c.table_name,
			c.column_name,
			c.ordinal_position,
			CASE
				WHEN c.column_default IS NULL THEN NULL
				WHEN c.column_default = 'CAST(''t'' AS BOOLEAN)' THEN 'true'
				WHEN c.column_default = 'CAST(''f'' AS BOOLEAN)' THEN 'false'
				WHEN UPPER(c.column_default) = 'CURRENT_TIMESTAMP' THEN 'CURRENT_TIMESTAMP'
				WHEN UPPER(c.column_default) = 'NOW()' THEN 'now()'
				ELSE c.column_default
			END AS column_default,
			c.is_nullable,
			CASE
				WHEN UPPER(c.data_type) = 'VARCHAR' OR UPPER(c.data_type) LIKE 'VARCHAR(%' THEN 'text'
				WHEN UPPER(c.data_type) = 'TEXT' THEN 'text'
				WHEN UPPER(c.data_type) LIKE 'TEXT(%' THEN 'character'
				WHEN UPPER(c.data_type) = 'BOOLEAN' THEN 'boolean'
				WHEN UPPER(c.data_type) = 'TINYINT' THEN 'smallint'
				WHEN UPPER(c.data_type) = 'SMALLINT' THEN 'smallint'
				WHEN UPPER(c.data_type) = 'INTEGER' THEN 'integer'
				WHEN UPPER(c.data_type) = 'BIGINT' THEN 'bigint'
				WHEN UPPER(c.data_type) = 'HUGEINT' THEN 'numeric'
				WHEN UPPER(c.data_type) = 'REAL' OR UPPER(c.data_type) = 'FLOAT4' THEN 'real'
				WHEN UPPER(c.data_type) = 'DOUBLE' OR UPPER(c.data_type) = 'FLOAT8' THEN 'double precision'
				WHEN UPPER(c.data_type) LIKE 'DECIMAL%' THEN 'numeric'
				WHEN UPPER(c.data_type) LIKE 'NUMERIC%' THEN 'numeric'
				WHEN UPPER(c.data_type) = 'DATE' THEN 'date'
				WHEN UPPER(c.data_type) = 'TIME' THEN 'time without time zone'
				WHEN UPPER(c.data_type) = 'TIMESTAMP' THEN 'timestamp without time zone'
				WHEN UPPER(c.data_type) = 'TIMESTAMPTZ' OR UPPER(c.data_type) = 'TIMESTAMP WITH TIME ZONE' THEN 'timestamp with time zone'
				WHEN UPPER(c.data_type) = 'INTERVAL' THEN 'interval'
				WHEN UPPER(c.data_type) = 'UUID' THEN 'uuid'
				WHEN UPPER(c.data_type) = 'BLOB' OR UPPER(c.data_type) = 'BYTEA' THEN 'bytea'
				WHEN UPPER(c.data_type) = 'JSON' THEN 'json'
				WHEN UPPER(c.data_type) LIKE '%[]' THEN 'ARRAY'
				ELSE LOWER(c.data_type)
			END AS data_type,
			COALESCE(m.character_maximum_length, c.character_maximum_length) AS character_maximum_length,
			c.character_octet_length,
			COALESCE(m.numeric_precision, c.numeric_precision) AS numeric_precision,
			COALESCE(m.numeric_scale, c.numeric_scale) AS numeric_scale,
			c.datetime_precision,
			NULL AS interval_type,
			NULL AS interval_precision,
			NULL AS character_set_catalog,
			NULL AS character_set_schema,
			NULL AS character_set_name,
			NULL AS collation_catalog,
			NULL AS collation_schema,
			NULL AS collation_name,
			NULL AS domain_catalog,
			NULL AS domain_schema,
			NULL AS domain_name,
			NULL AS udt_catalog,
			'pg_catalog' AS udt_schema,
			CASE
				WHEN UPPER(c.data_type) = 'VARCHAR' OR UPPER(c.data_type) LIKE 'VARCHAR(%' THEN 'varchar'
				WHEN UPPER(c.data_type) = 'TEXT' THEN 'text'
				WHEN UPPER(c.data_type) = 'BOOLEAN' THEN 'bool'
				WHEN UPPER(c.data_type) = 'TINYINT' OR UPPER(c.data_type) = 'SMALLINT' THEN 'int2'
				WHEN UPPER(c.data_type) = 'INTEGER' THEN 'int4'
				WHEN UPPER(c.data_type) = 'BIGINT' THEN 'int8'
				WHEN UPPER(c.data_type) = 'HUGEINT' THEN 'numeric'
				WHEN UPPER(c.data_type) = 'REAL' OR UPPER(c.data_type) = 'FLOAT4' THEN 'float4'
				WHEN UPPER(c.data_type) = 'DOUBLE' OR UPPER(c.data_type) = 'FLOAT8' THEN 'float8'
				WHEN UPPER(c.data_type) LIKE 'DECIMAL%' OR UPPER(c.data_type) LIKE 'NUMERIC%' THEN 'numeric'
				WHEN UPPER(c.data_type) = 'DATE' THEN 'date'
				WHEN UPPER(c.data_type) = 'TIME' THEN 'time'
				WHEN UPPER(c.data_type) = 'TIMESTAMP' THEN 'timestamp'
				WHEN UPPER(c.data_type) = 'TIMESTAMPTZ' OR UPPER(c.data_type) = 'TIMESTAMP WITH TIME ZONE' THEN 'timestamptz'
				WHEN UPPER(c.data_type) = 'INTERVAL' THEN 'interval'
				WHEN UPPER(c.data_type) = 'UUID' THEN 'uuid'
				WHEN UPPER(c.data_type) = 'BLOB' OR UPPER(c.data_type) = 'BYTEA' THEN 'bytea'
				WHEN UPPER(c.data_type) = 'JSON' THEN 'json'
				WHEN UPPER(c.data_type) LIKE '%[]' THEN '_' || LOWER(REPLACE(c.data_type, '[]', ''))
				ELSE LOWER(c.data_type)
			END AS udt_name,
			NULL AS scope_catalog,
			NULL AS scope_schema,
			NULL AS scope_name,
			NULL AS maximum_cardinality,
			NULL AS dtd_identifier,
			'NO' AS is_self_referencing,
			'NO' AS is_identity,
			NULL AS identity_generation,
			NULL AS identity_start,
			NULL AS identity_increment,
			NULL AS identity_maximum,
			NULL AS identity_minimum,
			NULL AS identity_cycle,
			'NEVER' AS is_generated,
			NULL AS generation_expression,
			'YES' AS is_updatable
		FROM information_schema.columns c
		LEFT JOIN main.__duckgres_column_metadata m
			ON c.table_schema = m.table_schema
			AND c.table_name = m.table_name
			AND c.column_name = m.column_name
	".

Definition buildSessionInformationSchemaTablesViewSQL : string := "
		CREATE OR REPLACE VIEW main.information_schema_tables_compat AS
		SELECT
			CASE WHEN t.table_catalog IN ('ducklake', 'memory') THEN current_database() ELSE t.table_catalog END AS table_catalog,
			CASE WHEN t.table_schema = 'main' THEN 'public' ELSE t.table_schema END AS table_schema,
			t.table_name,
			t.table_type,
			NULL AS self_referencing_column_name,
			NULL AS reference_generation,
			NULL AS user_defined_type_catalog,
			NULL AS user_defined_type_schema,
			NULL AS user_defined_type_name,
			'YES' AS is_insertable_into,
			'NO' AS is_typed,
			NULL AS commit_action
		FROM information_schema.tables t
		WHERE t.table_name NOT IN (
			'__duckgres_column_metadata',
			'pg_class_full', 'pg_collation', 'pg_database', 'pg_inherits',
			'pg_namespace', 'pg_policy', 'pg_publication', 'pg_publication_rel',
			'pg_publication_tables', 'pg_roles', 'pg_rules', 'pg_statistic_ext', 'pg_matviews',
			'pg_stat_user_tables', 'pg_statio_user_tables', 'pg_stat_statements', 'pg_stat_activity',
			'pg_partitioned_table', 'pg_rewrite', 'pg_attribute',
			'information_schema_columns_compat', 'information_schema_tables_compat',
			'information_schema_schemata_compat', 'information_schema_views_compat'
		)
		AND t.table_name NOT LIKE 'duckdb_%'
		AND t.table_name NOT LIKE 'sqlite_%'
		AND t.table_name NOT LIKE 'pragma_%'
	".

Definition buildSessionInformationSchemaSchemataViewSQL : string := "
		CREATE OR REPLACE VIEW main.information_schema_schemata_compat AS
		SELECT
			CASE WHEN s.catalog_name IN ('ducklake', 'memory') THEN current_database() ELSE s.catalog_name END AS catalog_name,
			CASE WHEN s.schema_name = 'main' THEN 'public' ELSE s.schema_name END AS schema_name,
			'duckdb' AS schema_owner,
			NULL AS default_character_set_catalog,
			NULL AS default_character_set_schema,
			NULL AS default_character_set_name,
			NULL AS sql_path
		FROM information_schema.schemata s
		WHERE s.schema_name NOT IN ('main', 'pg_catalog', 'information_schema')
		AND s.catalog_name NOT LIKE '__ducklake_metadata_%'
		UNION ALL
		SELECT current_database() AS catalog_name, 'public' AS schema_name, 'duckdb' AS schema_owner,
			NULL, NULL, NULL, NULL
		UNION ALL
		SELECT current_database() AS catalog_name, 'pg_catalog' AS schema_name, 'duckdb' AS schema_owner,
			NULL, NULL, NULL, NULL
		UNION ALL
		SELECT current_database() AS catalog_name, 'information_schema' AS schema_name, 'duckdb' AS schema_owner,
			NULL, NULL, NULL, NULL
		UNION ALL
		SELECT current_database() AS catalog_name, 'pg_toast' AS schema_name, 'duckdb' AS schema_owner,
			NULL, NULL, NULL, NULL
	".

Definition buildSessionInformationSchemaViewsViewSQL : string := "
		CREATE OR REPLACE VIEW main.information_schema_views_compat AS
		SELECT
			CASE WHEN v.table_catalog IN ('ducklake', 'memory') THEN current_database() ELSE v.table_catalog END AS table_catalog,
			CASE WHEN v.table_schema = 'main' THEN 'public' ELSE v.table_schema END AS table_schema,
			v.table_name,
			v.view_definition,
			v.check_option,
			v.is_updatable,
			v.is_insertable_into,
			v.is_trigger_updatable,
			v.is_trigger_deletable,
			v.is_trigger_insertable_into
		FROM information_schema.views v
		WHERE v.table_name NOT IN (
			'pg_class_full', 'pg_collation', 'pg_database', 'pg_inherits',
			'pg_namespace', 'pg_policy', 'pg_publication', 'pg_publication_rel',
			'pg_publication_tables', 'pg_roles', 'pg_rules', 'pg_statistic_ext', 'pg_matviews',
			'pg_stat_user_tables', 'pg_statio_user_tables', 'pg_stat_statements', 'pg_stat_activity',
			'pg_partitioned_table', 'pg_rewrite', 'pg_attribute',
			'information_schema_columns_compat', 'information_schema_tables_compat',
			'information_schema_schemata_compat', 'information_schema_views_compat'
		)
		AND v.table_name NOT LIKE 'duckdb_%'
		AND v.table_name NOT LIKE 'sqlite_%'
		AND v.table_name NOT LIKE 'pragma_%'
	".

Definition buildSessionPgDatabaseViewSQL (database : string) : string :=
  Sprintf_s pg_database_format (quoteSQLStringLiteral database).

(** The newline of [";\n"]. *)
Definition newline : string := str [x0a].

Definition buildSessionMetadataSQL (database : string) : string :=
  str (join (bytes (";" +:+ newline)) (bytes <$>
    [sessionColumnMetadataTableSQL; buildSessionPgDatabaseViewSQL database; buildSessionInformationSchemaColumnsViewSQL;
     buildSessionInformationSchemaTablesViewSQL; buildSessionInformationSchemaSchemataViewSQL;
     buildSessionInformationSchemaViewsViewSQL])) +:+ ";".

Definition current_database_macro (database : string) : string :=
  "CREATE OR REPLACE TEMP MACRO current_database() AS " +:+ quoteSQLStringLiteral database.

Definition attached_query (catalog : string) : string :=
  "SELECT COUNT(*) FROM duckdb_databases() WHERE database_name = " +:+ quoteSQLStringLiteral catalog.

(** * The session's executor *)

(** What a query for a count comes back with. *)
Inductive count_answer :=
  | QueryFails
  | NoRow (failed : bool)              (** rows.Next() is false; rows.Err() *)
  | ScanFails
  | Counted (n : Z) (failed : bool)    (** an integer of some width, taken to an int; rows.Err() *)
  | OtherType.

(** The worker a session is on: whether it refuses a statement, and what it counts, after
    the statements it was sent. *)
Class Executor := {
  exec_fails : list string → string → bool;
  count_of : list string → string → count_answer;
}.

Inductive meta_err := CreateMacro | DetectDuckLake | SwitchCatalog | ApplyOverride.

Section executor.
Context `{Executor}.

(** HasAttachedCatalog: an answer or an error, and the statements sent by now. *)
Definition HasAttachedCatalog (catalog : string) (sent : list string) : option bool * list string :=
  let q := attached_query catalog in
  (match count_of sent q with
   | Counted n false => Some (bool_decide (0 < wrap_s 64 n))
   | _ => None
   end, sent ++ [q]).

(** InitSessionDatabaseMetadata; the deferred statements come last, whatever the script
    came to, and only when the session was switched to the memory catalog. *)
Definition InitSessionDatabaseMetadata (database : string) (sent : list string) : option meta_err * list string :=
  let database := TrimSpace database in
  if bool_decide (database = "") then (None, sent) else
  let macro := current_database_macro database in
  if exec_fails sent macro then (Some CreateMacro, sent ++ [macro]) else
  match HasAttachedCatalog "ducklake" (sent ++ [macro]) with
  | (None, sent) => (Some DetectDuckLake, sent)
  | (Some duckLakeAttached, sent) =>
      if exec_fails sent "USE memory" then (Some SwitchCatalog, sent ++ ["USE memory"]) else
      let sent := sent ++ ["USE memory"] in
      let script := buildSessionMetadataSQL database in
      (if exec_fails sent script then Some ApplyOverride else None,
       sent ++ [script] ++ if duckLakeAttached then ["USE ducklake"; "SET search_path = 'main,memory.main'"] else [])
  end.
End executor.

(** * The shape of a statement *)

(** Where a reader of SQL text is: in the code after a byte, in a string (an escape
    string, after a quote in it, after its backslash), in a quoted identifier, in a
    comment. *)
Inductive place :=
  | Code (prev : option byte)
  | InString (escapes : bool)
  | AtQuote (escapes : bool)
  | AfterBackslash
  | InIdent
  | InLine
  | InBlock (star : bool).

(** In the code, a byte is kept, and a string leaves its opening quote alone. *)
Definition read_code (prev : option byte) (b : byte) : place * list byte :=
  if bool_decide (b = x27) then (InString (bool_decide (prev = Some x45 ∨ prev = Some x65)), [b])
  else if bool_decide (b = x22) then (InIdent, [b])
  else if bool_decide (prev = Some x2d ∧ b = x2d) then (InLine, [b])
  else if bool_decide (prev = Some x2f ∧ b = x2a) then (InBlock false, [b])
  else (Code (Some b), [b]).

Definition read_byte (s : place) (b : byte) : place * list byte :=
  match s with
  | Code prev => read_code prev b
  | InString escapes =>
      if bool_decide (b = x27) then (AtQuote escapes, [])
      else if escapes && bool_decide (b = x5c) then (AfterBackslash, [])
      else (InString escapes, [])
  | AtQuote escapes => if bool_decide (b = x27) then (InString escapes, []) else read_code (Some x27) b
  | AfterBackslash => (InString true, [])
  | InIdent => if bool_decide (b = x22) then (Code (Some b), [b]) else (InIdent, [b])
  | InLine => if bool_decide (b = x0a) then (Code (Some b), [b]) else (InLine, [b])
  | InBlock star => if star && bool_decide (b = x2f) then (Code (Some b), [b]) else (InBlock (bool_decide (b = x2a)), [b])
  end.

Fixpoint read_text (s : place) (l : list byte) : place * list byte :=
  match l with
  | [] => (s, [])
  | b :: l' => let '(s, out) := read_byte s b in let '(s', rest) := read_text s l' in (s', out ++ rest)
  end.

(** A text without the contents of its string literals, and where it ends. *)
Definition sql_shape (q : string) : place * list byte := read_text (Code None) (bytes q).

Lemma read_text_app s l1 l2 :
  read_text s (l1 ++ l2) = let '(s1, o1) := read_text s l1 in let '(s2, o2) := read_text s1 l2 in (s2, o1 ++ o2).
Proof.
  revert s. induction l1 as [|b l1 IH]; intros s; cbn; [by destruct (read_text s l2)|].
  destruct (read_byte s b) as [s' o]. rewrite IH. destruct (read_text s' l1) as [s1 o1].
  destruct (read_text s1 l2) as [s2 o2]. by rewrite app_assoc.
Qed.

(** Places a literal can be put at: code that is not after the letter of an escape string. *)
Definition plain (s : place) : bool :=
  match s with
  | Code prev => negb (bool_decide (prev = Some x45 ∨ prev = Some x65))
  | _ => false
  end.

Lemma read_doubled l : read_text (InString false) (double_quotes l ++ [x27]) = (AtQuote false, []).
Proof.
  induction l as [|b l IH]; [done|].
  change (double_quotes (b :: l)) with ((if bool_decide (b = x27) then [x27; x27] else [b]) ++ double_quotes l).
  rewrite <- app_assoc. revert IH. generalize (double_quotes l ++ [x27]). intros m IH.
  destruct (bool_decide (b = x27)) eqn:Hb; cbn [app read_text read_byte].
  - change (bool_decide (x27 = x27)) with true. cbn [read_byte]. change (bool_decide (x27 = x27)) with true. cbn. by rewrite IH.
  - rewrite Hb. cbn. by rewrite IH.
Qed.

Lemma read_literal s d : plain s = true →
  read_text s (bytes (quoteSQLStringLiteral d)) = (AtQuote false, [x27]).
Proof.
  unfold plain, quoteSQLStringLiteral. destruct s as [prev| | | | | |]; try done. rewrite negb_true_iff. intros Hp.
  rewrite bytes_str. cbn [app read_text read_byte]. unfold read_code. rewrite bool_decide_eq_true_2, Hp by done.
  by rewrite read_doubled.
Qed.

(** The pieces of a format leave its reader where a literal can follow. *)
Fixpoint holes_plain (s : place) (ws : list (list byte)) : bool :=
  match ws with
  | [] | [_] => true
  | w :: ws' => plain (read_text s w).1 && holes_plain (AtQuote false) ws'
  end.

Lemma read_holes d d' ws : ∀ s, holes_plain s ws = true →
  read_text s (join (bytes (quoteSQLStringLiteral d)) ws) = read_text s (join (bytes (quoteSQLStringLiteral d')) ws).
Proof.
  induction ws as [|w ws IH]; intros s Hs; [done|]. destruct ws as [|w' ws]; [done|].
  apply andb_prop in Hs as [Hp Hs].
  assert (∀ sep, join sep (w :: w' :: ws) = w ++ sep ++ join sep (w' :: ws)) as Hj by done.
  rewrite !Hj, !(read_text_app s). destruct (read_text s w) as [s1 o1]. cbn [fst] in Hp.
  rewrite !(read_text_app s1), !(read_literal s1) by done. by rewrite (IH (AtQuote false) Hs).
Qed.

Lemma read_swap s pre l l' post : read_text (read_text s pre).1 l = read_text (read_text s pre).1 l' →
  read_text s (pre ++ l ++ post) = read_text s (pre ++ l' ++ post).
Proof.
  intros H. rewrite !(read_text_app s pre). destruct (read_text s pre) as [s1 o1]. cbn in H.
  by rewrite !(read_text_app s1), H.
Qed.

Definition script_head : list byte := bytes sessionColumnMetadataTableSQL ++ [x3b; x0a].
Definition script_tail : list byte :=
  [x3b; x0a] ++ join [x3b; x0a] (bytes <$>
    [buildSessionInformationSchemaColumnsViewSQL; buildSessionInformationSchemaTablesViewSQL;
     buildSessionInformationSchemaSchemataViewSQL; buildSessionInformationSchemaViewsViewSQL]) ++ [x3b].

Lemma script_parts d :
  bytes (buildSessionMetadataSQL d)
  = script_head ++ join (bytes (quoteSQLStringLiteral d)) (split_verbs (bytes pg_database_format)) ++ script_tail.
Proof.
  unfold buildSessionMetadataSQL, script_head, script_tail. rewrite bytes_append, bytes_str.
  change (bytes (";" +:+ newline)) with [x3b; x0a]. cbn [fmap list_fmap join].
  unfold buildSessionPgDatabaseViewSQL, Sprintf_s. rewrite bytes_str. rewrite <- !app_assoc. done.
Qed.

(** The name of a database is data: whatever it is, the macro and the script a session
    is set up with are the same statements up to the contents of their string literals,
    and no literal stays open. *)
Theorem database_name_is_data d d' :
  sql_shape (current_database_macro d) = sql_shape (current_database_macro d') ∧
  (sql_shape (current_database_macro d)).1 = AtQuote false ∧
  sql_shape (buildSessionMetadataSQL d) = sql_shape (buildSessionMetadataSQL d') ∧
  ∃ prev, (sql_shape (buildSessionMetadataSQL d)).1 = Code prev.
Proof.
  unfold sql_shape, current_database_macro. rewrite !bytes_append, !read_text_app.
  destruct (read_text (Code None) (bytes "CREATE OR REPLACE TEMP MACRO current_database() AS ")) as [s o] eqn:E.
  assert (plain s = true) as Hp by (vm_compute in E; by injection E as <- <-).
  rewrite !(read_literal s) by done. split; [done|]. split; [done|].
  assert (∀ d d', read_text (Code None) (bytes (buildSessionMetadataSQL d))
                  = read_text (Code None) (bytes (buildSessionMetadataSQL d'))) as Hs.
  { intros e e'. rewrite !script_parts. apply read_swap, read_holes. by vm_compute. }
  split; [apply Hs|]. rewrite (Hs d ""). eexists. vm_compute. reflexivity.
Qed.
