(* ===== verification/StartupOptions.v ===== *)
(** What a client asks of its session when it connects: the options of the startup
    packet (src/server/startup_options.go) and the search path they set. *)

From Stdlib Require Import Strings.Byte.
From stdpp Require Import prelude gmap strings list fin_maps.
From Stdlib Require Import ZArith Lia.
From S2P Require Import Prelude GoText GoRegexp Values SessionMeta.

Open Scope string_scope.
Open Scope list_scope.
Open Scope Z_scope.

(** * Options of the startup packet *)

(** splitStartupOptions: the loop over the runes, with the word begun so far. *)
Fixpoint split_options (rs : list (list byte)) (escaped : bool) (b : list byte) : list (list byte) :=
  match rs with
  | [] => if bool_decide (b = []) then [] else [b]
  | r :: rs' =>
      if escaped then split_options rs' false (b ++ r)
      else if bool_decide (r = [x5c]) then split_options rs' true b
      else if bool_decide (r = [x20] ∨ r = [x09]) then
        if bool_decide (b = []) then split_options rs' false [] else b :: split_options rs' false []
      else split_options rs' false (b ++ r)
  end.
Definition splitStartupOptions (s : string) : list (list byte) := split_options (snd <$> runes (bytes s)) false [].

(** One setting [name=value]. *)
Definition set_option (kv : list byte) (out : gmap string string) : gmap string string :=
  match index_byte x3d kv with
  | Some eq =>
      if bool_decide (0 < eq)%nat then
        let name := TrimSpace (str (take eq kv)) in
        let val := TrimSpace (str (drop (S eq) kv)) in
        if bool_decide (name = "") then out else <[name := val]> out
      else out
  | None => out
  end.

Fixpoint parse_options (tokens : list (list byte)) (out : gmap string string) : gmap string string :=
  match tokens with
  | [] => out
  | tok :: rest =>
      if has_prefix (bytes "-c") tok then
        let kv := drop 2 tok in
        match rest with
        | tok' :: rest' => if bool_decide (kv = []) then parse_options rest' (set_option tok' out)
                           else parse_options rest (set_option kv out)
        | [] => set_option kv out
        end
      else if has_prefix (bytes "--") tok then parse_options rest (set_option (drop 2 tok) out)
      else parse_options rest out
  end.

Definition ParseStartupOptions (options : string) : gmap string string :=
  if bool_decide (TrimSpace options = "") then ∅ else parse_options (splitStartupOptions options) ∅.

(** ** The search path *)

Definition path_byte (b : byte) : bool :=
  byte_in 65 90 b || byte_in 97 122 b || byte_in 48 57 b || bool_decide (b ∈ [x5f; x2e; x2c; x22; x2d; x20]).
Definition path_rune (c : list byte) : bool := match c with [b] => path_byte b | _ => false end.
Definition safeSearchPathPattern : re := rseq [RBegin; rplus (RAny path_rune); REnd].

Definition SanitizeSearchPath (s : string) : option string :=
  let s := TrimSpace s in
  if bool_decide (s = "") || bool_decide (512 < Z.of_nat (length (bytes s))) then None
  else if negb (MatchString safeSearchPathPattern (bytes s)) then None
  else Some s.

(** The search path handleConnection takes from the startup parameters; the empty string
    when there is none. *)
Definition clientSearchPath (params : gmap string string) : string :=
  let raw := default "" (ParseStartupOptions (default "" (params !! "options")) !! "search_path") in
  if bool_decide (raw = "") then "" else default "" (SanitizeSearchPath raw).

Section search_path.
Context `{UnicodeCase}.

(** The statement that sets it. *)
Definition search_path_statement (sp : string) : string :=
  let sp := if Contains (ToLower sp) "memory.main" then sp else sp +:+ ",memory.main" in
  "SET search_path = '" +:+ sp +:+ "'".
End search_path.

(** * The search path stays in its quotes *)

Lemma rmatch_star_end p fuel st : rmatch (A := mstate) fuel (RStar true (RAny p)) st (λ st, rmatch fuel (RSeq REnd REps) st Some) ≠ None →
  Forall (λ c, p c = true) (m_rest st).
Proof.
  cbn [rmatch]. revert st. generalize fuel at 1 as n. induction n as [|n IH]; intros st; cbn.
  - case_bool_decide as E; [by rewrite E|done].
  - destruct (m_rest st) as [|c rest] eqn:Er; [by constructor|].
    destruct (p c) eqn:Ep; [|by rewrite bool_decide_eq_false_2].
    rewrite bool_decide_eq_true_2 by (cbn; lia). intros H. constructor; [done|].
    apply (IH {| m_prev := Some c; m_rest := rest; m_caps := m_caps st |}). intros E.
    match type of H with match ?X with _ => _ end ≠ _ => replace X with (None (A := mstate)) in H end.
    by rewrite bool_decide_eq_false_2 in H.
Qed.

Lemma anchored_later p fuel l : ∀ c pre, rfind fuel (rseq [RBegin; rplus (RAny p); REnd]) (Some c) pre l = None.
Proof. induction l as [|d l IH]; intros c pre; cbn; [done|]. apply IH. Qed.

(** A pattern [^[...]+$] matches texts whose runes are all in the class. *)
Lemma anchored_class p s : MatchString (rseq [RBegin; rplus (RAny p); REnd]) s = true → Forall (λ c, p c = true) (chunks s).
Proof.
  unfold MatchString, FindSubmatch. rewrite bool_decide_eq_true. intros H.
  destruct (rfind _ _ None [] (chunks s)) as [m|] eqn:E; [|done]. clear H.
  destruct (chunks s) as [|c rest] eqn:Ec; [by constructor|].
  cbn [rfind] in E. rewrite anchored_later in E.
  destruct (rmatch _ _ _ Some) eqn:Em; [|done]. clear E. cbn [rseq foldr rplus rmatch m_prev m_rest] in Em.
  rewrite bool_decide_eq_true_2 in Em by done. destruct (p c) eqn:Ep; [|done]. constructor; [done|].
  apply (rmatch_star_end p (length (c :: rest)) {| m_prev := Some c; m_rest := rest; m_caps := [] |}).
  cbn [rmatch]. cbn [rmatch m_rest m_caps] in Em. intros E. unfold rseq in Em. cbn in Em. cbn in E. congruence.
Qed.

Lemma sanitized_bytes s sp : SanitizeSearchPath s = Some sp → sp ≠ "" ∧ Forall (λ b, path_byte b = true) (bytes sp).
Proof.
  unfold SanitizeSearchPath. destruct (bool_decide _ || bool_decide _) eqn:E; [done|].
  apply orb_false_iff in E as [Hne _]. apply bool_decide_eq_false in Hne.
  destruct (MatchString _ _) eqn:Em; [|done]. cbn. intros [= <-]. split; [done|].
  apply anchored_class in Em. rewrite <- (concat_chunks (bytes (TrimSpace s))).
  induction Em as [|c cs Hc _ IH]; [constructor|]. cbn. apply Forall_app. split; [|done].
  destruct c as [|b [|? ?]]; try done. by repeat constructor.
Qed.

Lemma path_byte_unquoted b : path_byte b = true → b ≠ x27.
Proof. by intros H ->. Qed.

Lemma read_unquoted l : Forall (λ b, b ≠ x27) l → read_text (InString false) l = (InString false, []).
Proof. induction 1 as [|b l Hb _ IH]; [done|]. cbn. rewrite bool_decide_eq_false_2 by done. cbn. by rewrite IH. Qed.

(** Whatever a client puts in its options, the statement that sets its search path is
    [SET search_path =] and one string literal, which ends where the statement does. *)
Theorem search_path_is_one_literal `{UnicodeCase} params :
  clientSearchPath params ≠ "" →
  sql_shape (search_path_statement (clientSearchPath params)) = (AtQuote false, bytes "SET search_path = '").
Proof.
  unfold clientSearchPath. case_bool_decide as Hraw; [done|].
  destruct (SanitizeSearchPath _) as [sp|] eqn:Es; [|done]. cbn. intros _. apply sanitized_bytes in Es as [_ Hs].
  assert (∀ body, Forall (λ b, b ≠ x27) (bytes body) →
    sql_shape ("SET search_path = '" +:+ body +:+ "'") = (AtQuote false, bytes "SET search_path = '")) as Hb.
  { intros body Hb. unfold sql_shape. rewrite !bytes_append, read_text_app.
    change (read_text (Code None) (bytes "SET search_path = '")) with (InString false, bytes "SET search_path = '").
    cbn beta iota. rewrite read_text_app, read_unquoted by done. done. }
  assert (Forall (λ b, b ≠ x27) (bytes sp)) as Hq by (eapply Forall_impl; [exact Hs|apply path_byte_unquoted]).
  unfold search_path_statement. destruct (Contains _ _); apply Hb; [done|].
  rewrite bytes_append. apply Forall_app. split; [done|]. by repeat constructor.
Qed.

Lemma search_path_is_one_literal_witness :
  sql_shape (search_path_statement (H := {| upper_other := id; lower_other := id |})
    (clientSearchPath {["options" := "-c search_path=iceberg.public,\ main"]}))
  = (AtQuote false, bytes "SET search_path = '").
Proof. apply search_path_is_one_literal. vm_compute. congruence. Defined.

(** * Options survive the packet *)

(** How a client writes an option: a flag of its own or with the setting, blanks and
    backslashes escaped. *)
Inductive option_form := Dash_c | Dash_c_joined | Dashes.

Definition escape (l : list byte) : list byte :=
  l ≫= λ b, if bool_decide (b ∈ [x20; x09; x5c]) then [x5c; b] else [b].
Definition render_option (o : option_form * (string * string)) : list byte :=
  let '(form, (name, value)) := o in
  match form with Dash_c => bytes "-c " | Dash_c_joined => bytes "-c" | Dashes => bytes "--" end
  ++ escape (bytes name ++ [x3d] ++ bytes value).
Definition render_options (os : list (option_form * (string * string))) : string := str (join [x20] (render_option <$> os)).

(** No blank at either end. *)
Definition trimmed (l : list byte) : Prop := ∃ b c, head l = Some b ∧ last l = Some c ∧ graphic b ∧ graphic c.

(** A setting: ASCII, a name without an equals sign, neither name nor value with blanks
    at its ends. *)
Definition setting_ok (nv : string * string) : Prop :=
  trimmed (bytes nv.1) ∧ (nv.2 = "" ∨ trimmed (bytes nv.2)) ∧ x3d ∉ bytes nv.1 ∧
  Forall (λ b, byte_val b < 128) (bytes nv.1 ++ bytes nv.2).

Lemma TrimSpace_trimmed l : trimmed l → TrimSpace (str l) = str l.
Proof.
  intros (b & c & Hb & Hc & Gb & Gc). unfold TrimSpace. rewrite bytes_str.
  destruct l as [|b' l]; [done|]. injection Hb as ->.
  rewrite (strip_all_none space_encodings) by (apply strip_one_graphic; [done|no_graphic]).
  rewrite strip_all_none; [by rewrite reverse_involutive|].
  rewrite <- head_reverse in Hc. destruct (reverse (b :: l)) as [|c' r]; [done|]. injection Hc as ->.
  apply strip_one_graphic; [done|]. no_graphic.
Qed.

(** Stripping blanks leaves what is not blank. *)
Lemma strip_prefix_app p l l' : strip_prefix p l = Some l' → l = p ++ l'.
Proof.
  revert l. induction p as [|b p IH]; intros l; cbn; [by intros [= ->]|]. destruct l as [|c l]; [done|].
  case_bool_decide; [|done]. intros Hl%IH. by subst.
Qed.

Lemma strip_all_keeps encs b fuel l : graphic b → Forall (Forall (λ c, ¬ graphic c)) encs → b ∈ l → b ∈ strip_all encs fuel l.
Proof.
  intros Gb He. assert (∀ l l', strip_one encs l = Some l' → b ∈ l → b ∈ l') as Hone.
  { clear l. induction He as [|p encs Hp _ IH]; intros l l'; cbn; [done|].
    destruct (strip_prefix p l) as [l1|] eqn:Ep; [|by apply IH]. intros [= <-] Hb.
    apply strip_prefix_app in Ep. subst. apply elem_of_app in Hb as [Hb|Hb]; [|done].
    by destruct (proj1 (Forall_forall _ _) Hp b Hb). }
  revert l. induction fuel as [|fuel IH]; intros l Hb; cbn; [done|].
  destruct (strip_one encs l) as [l'|] eqn:E; [|done]. eauto.
Qed.

Ltac no_graphics :=
  lazymatch goal with |- Forall _ ?l => let l' := eval vm_compute in l in change l with l' end;
  repeat (apply Forall_cons; split; [repeat (apply Forall_cons; split; [intros [Hlo Hhi]; first [by apply Hlo|by apply Hhi]|]); constructor|]);
  constructor.

Lemma TrimSpace_nonempty b l : graphic b → b ∈ l → TrimSpace (str l) ≠ "".
Proof.
  intros Gb Hb E. unfold TrimSpace in E. rewrite bytes_str in E.
  apply (f_equal bytes) in E. rewrite bytes_str in E.
  match type of E with reverse ?X = _ => assert (b ∈ X) as Hx end.
  { apply strip_all_keeps; [done|no_graphics|]. rewrite elem_of_reverse. apply strip_all_keeps; [done|no_graphics|done]. }
  rewrite <- elem_of_reverse, E in Hx. by apply elem_of_nil in Hx.
Qed.

Lemma ascii_runes l : Forall (λ b, byte_val b < 128) l → snd <$> runes l = ((λ b, [b]) <$> l).
Proof.
  induction 1 as [|b l Hb _ IH]; [done|]. rewrite runes_1; [cbn; by rewrite IH|].
  unfold rune_len, byte_in. pose proof (byte_val_range b). by rewrite bool_decide_eq_true_2 by lia.
Qed.

Abbreviation singles l := ((λ b : byte, [b]) <$> l).

Lemma split_escaped w : ∀ b rest,
  split_options (singles (escape w) ++ rest) false b = split_options rest false (b ++ w).
Proof.
  induction w as [|c w IH]; intros b rest; [by rewrite app_nil_r|].
  change (escape (c :: w)) with ((if bool_decide (c ∈ [x20; x09; x5c]) then [x5c; c] else [c]) ++ escape w).
  rewrite fmap_app, <- app_assoc. case_bool_decide as Hc; cbn [fmap list_fmap app split_options].
  - rewrite bool_decide_eq_true_2 by done. rewrite IH. by rewrite <- app_assoc.
  - rewrite !bool_decide_eq_false_2 by (rewrite !not_elem_of_cons in Hc; naive_solver).
    rewrite IH. by rewrite <- app_assoc.
Qed.

Definition setting_text (nv : string * string) : list byte := bytes nv.1 ++ [x3d] ++ bytes nv.2.
Definition option_tokens (o : option_form * (string * string)) : list (list byte) :=
  match o.1 with
  | Dash_c => [bytes "-c"; setting_text o.2]
  | Dash_c_joined => [bytes "-c" ++ setting_text o.2]
  | Dashes => [bytes "--" ++ setting_text o.2]
  end.

Lemma setting_text_nonempty nv : setting_text nv ≠ [].
Proof. unfold setting_text. by destruct (bytes nv.1). Qed.

Lemma split_option o rest : split_options (singles (render_option o) ++ rest) false []
  = match o.1 with
    | Dash_c => bytes "-c" :: split_options rest false (setting_text o.2)
    | Dash_c_joined => split_options rest false (bytes "-c" ++ setting_text o.2)
    | Dashes => split_options rest false (bytes "--" ++ setting_text o.2)
    end.
Proof.
  destruct o as [form [name value]]. unfold render_option, setting_text. cbn [fst snd].
  rewrite fmap_app, <- app_assoc. destruct form.
  - change (singles (bytes "-c ")) with [[x2d]; [x63]; [x20]]. cbn [app split_options].
    rewrite !bool_decide_eq_false_2, bool_decide_eq_true_2 by naive_solver. cbn [app].
    rewrite bool_decide_eq_false_2 by done. by rewrite split_escaped.
  - change (singles (bytes "-c")) with [[x2d]; [x63]]. cbn [app split_options].
    rewrite !bool_decide_eq_false_2 by naive_solver. by rewrite split_escaped.
  - change (singles (bytes "--")) with [[x2d]; [x2d]]. cbn [app split_options].
    rewrite !bool_decide_eq_false_2 by naive_solver. by rewrite split_escaped.
Qed.

Lemma split_word w rest : w ≠ [] → split_options ([x20] :: rest) false w = w :: split_options rest false [].
Proof. intros Hw. cbn [split_options]. by rewrite bool_decide_eq_false_2, bool_decide_eq_true_2, bool_decide_eq_false_2 by auto. Qed.

Lemma split_render os : split_options (singles (join [x20] (render_option <$> os))) false [] = concat (option_tokens <$> os).
Proof.
  assert (∀ w, w ≠ [] → split_options [] false w = [w]) as Hend by (intros w Hw; cbn; by rewrite bool_decide_eq_false_2).
  induction os as [|o os IH]; [done|]. destruct os as [|o' os].
  - cbn [fmap list_fmap join concat]. rewrite <- (app_nil_r (singles (render_option o))), split_option, app_nil_r.
    unfold option_tokens. destruct o.1; rewrite Hend by (try done; apply setting_text_nonempty); done.
  - change (join [x20] (render_option <$> o :: o' :: os)) with (render_option o ++ [x20] ++ join [x20] (render_option <$> o' :: os)).
    rewrite fmap_app, split_option. change (concat (option_tokens <$> o :: o' :: os))
      with (option_tokens o ++ concat (option_tokens <$> o' :: os)). rewrite <- IH. unfold option_tokens.
    rewrite fmap_app. change (singles [x20]) with [[x20]]. cbn [app].
    destruct o.1; rewrite split_word by (try done; apply setting_text_nonempty); done.
Qed.

Lemma drop_past {A} (l r : list A) b : drop (S (length l)) (l ++ b :: r) = r.
Proof. by induction l. Qed.

Lemma set_setting nv out : setting_ok nv → set_option (setting_text nv) out = <[nv.1 := nv.2]> out.
Proof.
  destruct nv as [name value]. intros (Hn & Hv & He & _). cbn [fst snd] in *. unfold set_option, setting_text. cbn [fst snd].
  change (bytes name ++ [x3d] ++ bytes value) with (bytes name ++ x3d :: bytes value). rewrite index_byte_first by done.
  assert (bytes name ≠ []) as Hne by (destruct Hn as (b & ? & Hb & _); by destruct (bytes name)).
  rewrite bool_decide_eq_true_2 by (destruct (bytes name); [done|cbn; lia]).
  rewrite take_app_length, drop_past, TrimSpace_trimmed, str_bytes by done.
  rewrite bool_decide_eq_false_2 by (intros ->; done).
  f_equal. destruct Hv as [->|Hv]; [done|]. by rewrite TrimSpace_trimmed, str_bytes.
Qed.

Lemma parse_rendered os out : Forall (λ o, setting_ok o.2) os →
  parse_options (concat (option_tokens <$> os)) out = fold_left (λ m nv, <[nv.1 := nv.2]> m) os.*2 out.
Proof.
  intros Hos. revert out. induction Hos as [|o os Ho _ IH]; intros out; [done|].
  cbn [fmap list_fmap concat fold_left]. rewrite <- (set_setting _ out Ho), <- IH. unfold option_tokens.
  destruct o as [form nv]; destruct form; cbn [fst snd app parse_options].
  - done.
  - change (has_prefix (bytes "-c") (bytes "-c" ++ setting_text nv)) with (has_prefix (bytes "-c") (bytes "-c" ++ setting_text nv)).
    rewrite has_prefix_app. change (drop 2 (bytes "-c" ++ setting_text nv)) with (setting_text nv).
    rewrite bool_decide_eq_false_2 by apply setting_text_nonempty. by destruct (concat _).
  - done.
Qed.

Lemma rendered_ascii os : Forall (λ o, setting_ok o.2) os →
  Forall (λ b, byte_val b < 128) (join [x20] (render_option <$> os)).
Proof.
  assert (∀ l, Forall (λ b, byte_val b < 128) l → Forall (λ b, byte_val b < 128) (escape l)) as Hesc.
  { intros l. induction 1 as [|b l Hb _ IH]; [constructor|].
    change (escape (b :: l)) with ((if bool_decide (b ∈ [x20; x09; x5c]) then [x5c; b] else [b]) ++ escape l).
    apply Forall_app. split; [|done]. by destruct (bool_decide _); repeat constructor. }
  assert (∀ o, setting_ok o.2 → Forall (λ b, byte_val b < 128) (render_option o)) as Ho.
  { intros [form [name value]] (_ & _ & _ & [Hn Hv]%Forall_app). unfold render_option. apply Forall_app. split.
    - by destruct form; repeat constructor.
    - apply Hesc, Forall_app. split; [done|]. by apply Forall_app; split; [repeat constructor|]. }
  induction 1 as [|o os H1 H2 IH]; [constructor|]. destruct os as [|o' os]; [by apply Ho|].
  change (join [x20] (render_option <$> o :: o' :: os)) with (render_option o ++ [x20] ++ join [x20] (render_option <$> o' :: os)).
  apply Forall_app. split; [by apply Ho|]. apply Forall_app. split; [by repeat constructor|done].
Qed.

(** The settings a client writes into its options are the ones the server reads, the
    last of a name winning. *)
Theorem startup_options_roundtrip os : Forall (λ o, setting_ok o.2) os →
  ParseStartupOptions (render_options os) = fold_left (λ m nv, <[nv.1 := nv.2]> m) os.*2 ∅.
Proof.
  intros Hos. unfold ParseStartupOptions, splitStartupOptions, render_options.
  rewrite <- (parse_rendered os ∅ Hos), <- split_render, bytes_str, ascii_runes by (by apply rendered_ascii).
  destruct os as [|[form nv] os]; [done|]. rewrite bool_decide_eq_false_2; [done|].
  apply (TrimSpace_nonempty x2d); [by split|]. destruct form, nv, os; cbn; left.
Qed.

Lemma startup_options_roundtrip_witness :
  ParseStartupOptions (render_options [(Dash_c, ("search_path", "a, b")); (Dashes, ("geqo", "off"))])
  = <["geqo" := "off"]> {["search_path" := "a, b"]}.
Proof.
  assert (∀ b c l, head l = Some b → last l = Some c → (33 <=? byte_val b) && (byte_val b <=? 126) = true →
    (33 <=? byte_val c) && (byte_val c <=? 126) = true → trimmed l) as Ht.
  { intros b c l Hb Hc Gb Gc. exists b, c. unfold graphic. split_and!; try done; lia. }
  rewrite startup_options_roundtrip; [reflexivity|].
  assert (∀ l : list byte, bool_decide (x3d ∉ l) = true → x3d ∉ l) as Hn by (intros l; by rewrite bool_decide_eq_true).
  apply Forall_cons; split; [|apply Forall_cons; split; [|constructor]]; unfold setting_ok; cbn [fst snd]; split_and!.
  - by eapply (Ht x73 x68).
  - right. by eapply (Ht x61 x62).
  - by apply Hn.
  - by repeat constructor.
  - by eapply (Ht x67 x6f).
  - right. by eapply (Ht x6f x66).
  - by apply Hn.
  - by repeat constructor.
Defined.
