(* ===== verification/ConfigStore.v ===== *)
(** The configuration of the tenants (src/controlplane/configstore: store.go, models.go,
    tenant_refs.go): the tables, the snapshot loaded from them, the resolution and
    authentication of a login against one snapshot, the writes of users and warehouse
    states, the one-time migrations, and the rules for secret references. bcrypt is a
    parameter. *)

From Stdlib Require Import Strings.Byte.
From stdpp Require Import prelude gmap strings list fin_maps.
From Stdlib Require Import ZArith Lia.
From S2P Require Import Prelude GoText.

Open Scope Z_scope.
Open Scope string_scope.

(** * Rows *)

Record SecretRef := { sr_Namespace : string; sr_Name : string; sr_Key : string }.

Record ManagedWarehouseIceberg := {
  ice_Backend : string;
  ice_TableBucketArn : string;
  ice_LakekeeperClientCredentials : SecretRef;
}.

(** The columns of a warehouse that the modelled code reads or writes; the others are
    copied into the snapshot unchanged. *)
Record ManagedWarehouse := {
  w_State : string;
  w_DeltaCatalogEnabled : bool;
  w_Iceberg : ManagedWarehouseIceberg;
  w_IdentityNamespace : string;
  w_WarehouseDatabaseCredentials : SecretRef;
  w_MetadataStoreCredentials : SecretRef;
  w_S3Credentials : SecretRef;
  w_RuntimeConfig : SecretRef;
}.

Definition StatePending := "pending".
Definition StateProvisioning := "provisioning".
Definition StateReady := "ready".
Definition StateFailed := "failed".
Definition StateDeleting := "deleting".
Definition StateDeleted := "deleted".

Definition IcebergBackendLakekeeper := "lakekeeper".
Definition IcebergBackendS3Tables := "s3_tables".

Definition ResolvedBackend (i : ManagedWarehouseIceberg) : string :=
  if bool_decide (ice_Backend i = "") then IcebergBackendLakekeeper else ice_Backend i.

Definition OrgUserKey : Type := string * string.

Record OrgUser := {
  u_OrgID : string;
  u_Username : string;
  u_Password : string;
  u_Passthrough : bool;
}.

(** The columns of duckgres_orgs. *)
Record OrgRow := {
  o_Name : string;
  o_DatabaseName : string;
  o_HostnameAlias : option string;
  o_MaxWorkers : Z;
  o_MaxConnections : Z;
  o_MemoryBudget : string;
  o_IdleTimeoutS : Z;
  o_WorkerCPURequest : string;
  o_WorkerMemoryRequest : string;
}.

(** An org as [Find] returns it, with its preloaded associations. *)
Record Org := {
  org_row : OrgRow;
  org_Users : list OrgUser;
  org_Warehouse : option ManagedWarehouse;
}.

(** A singleton settings row, by its columns; the zero struct is the empty list. *)
Definition setting : Type := list (string * string).

(** * The snapshot *)

Record OrgConfig := {
  oc_Name : string;
  oc_DatabaseName : string;
  oc_HostnameAlias : string;
  oc_MaxWorkers : Z;
  oc_MaxConnections : Z;
  oc_MemoryBudget : string;
  oc_IdleTimeoutS : Z;
  oc_WorkerCPURequest : string;
  oc_WorkerMemoryRequest : string;
  oc_Users : gmap string string;
  oc_Warehouse : option ManagedWarehouse;
}.

Record Snapshot := {
  s_Orgs : gmap string OrgConfig;
  s_DatabaseOrg : gmap string string;
  s_HostnameAliasOrg : gmap string string;
  s_OrgUserPassword : gmap OrgUserKey string;
  s_OrgUserPassthrough : gmap OrgUserKey bool;
  s_Global : setting;
  s_DuckLake : setting;
  s_RateLimit : setting;
  s_QueryLog : setting;
}.

Definition alias_of (o : OrgRow) : string := default "" (o_HostnameAlias o).

(** The loop of load over the users of one org: passwords of the org, and the entries
    of the snapshot's two maps. *)
Definition load_user (name : string)
    (acc : gmap string string * gmap OrgUserKey string * gmap OrgUserKey bool) (u : OrgUser) :=
  let '(users, pw, pass) := acc in
  let key := (name, u_Username u) in
  (<[u_Username u := u_Password u]> users, <[key := u_Password u]> pw,
   if u_Passthrough u then <[key := true]> pass else pass).

Definition load_org (snap : Snapshot) (org : Org) : Snapshot :=
  let o := org_row org in
  let '(users, pw, pass) :=
    fold_left (load_user (o_Name o)) (org_Users org) (∅, s_OrgUserPassword snap, s_OrgUserPassthrough snap) in
  {| s_Orgs := <[o_Name o :=
       {| oc_Name := o_Name o; oc_DatabaseName := o_DatabaseName o; oc_HostnameAlias := alias_of o;
          oc_MaxWorkers := o_MaxWorkers o; oc_MaxConnections := o_MaxConnections o;
          oc_MemoryBudget := o_MemoryBudget o; oc_IdleTimeoutS := o_IdleTimeoutS o;
          oc_WorkerCPURequest := o_WorkerCPURequest o; oc_WorkerMemoryRequest := o_WorkerMemoryRequest o;
          oc_Users := users; oc_Warehouse := org_Warehouse org |}]> (s_Orgs snap);
     s_DatabaseOrg := if bool_decide (o_DatabaseName o = "") then s_DatabaseOrg snap
                      else <[o_DatabaseName o := o_Name o]> (s_DatabaseOrg snap);
     s_HostnameAliasOrg := if bool_decide (alias_of o = "") then s_HostnameAliasOrg snap
                           else <[alias_of o := o_Name o]> (s_HostnameAliasOrg snap);
     s_OrgUserPassword := pw;
     s_OrgUserPassthrough := pass;
     s_Global := s_Global snap; s_DuckLake := s_DuckLake snap;
     s_RateLimit := s_RateLimit snap; s_QueryLog := s_QueryLog snap |}.

(** What the database answers to the five queries of load: the orgs, or an error, and
    the four settings rows, whose errors load ignores. *)
Record answers := {
  a_orgs : option (list Org);
  a_global : option setting;
  a_ducklake : option setting;
  a_ratelimit : option setting;
  a_querylog : option setting;
}.

Definition empty_snapshot (a : answers) : Snapshot :=
  {| s_Orgs := ∅; s_DatabaseOrg := ∅; s_HostnameAliasOrg := ∅; s_OrgUserPassword := ∅;
     s_OrgUserPassthrough := ∅; s_Global := default [] (a_global a); s_DuckLake := default [] (a_ducklake a);
     s_RateLimit := default [] (a_ratelimit a); s_QueryLog := default [] (a_querylog a) |}.

Definition load (a : answers) : option Snapshot :=
  orgs ← a_orgs a; Some (fold_left load_org orgs (empty_snapshot a)).

(** * The store and its poll loop *)

Record ConfigStore := {
  cs_snapshot : option Snapshot;
  cs_onChange : list nat;
}.

(** A call of a registered callback with the old and the new snapshot. *)
Definition notification : Type := nat * option Snapshot * Snapshot.

Definition OnChange (fn : nat) (cs : ConfigStore) : ConfigStore :=
  {| cs_snapshot := cs_snapshot cs; cs_onChange := cs_onChange cs ++ [fn] |}.

(** One tick of Start. *)
Definition poll (a : answers) (cs : ConfigStore) : ConfigStore * list notification :=
  match load a with
  | None => (cs, [])
  | Some new => ({| cs_snapshot := Some new; cs_onChange := cs_onChange cs |},
                 (λ fn, (fn, cs_snapshot cs, new)) <$> cs_onChange cs)
  end.

(** * Lookups in a snapshot *)

Definition ResolveDatabase (cs : ConfigStore) (database : string) : string :=
  match cs_snapshot cs with
  | None => ""
  | Some s => default "" (s_DatabaseOrg s !! database)
  end.

Definition DatabaseNameForSNIPrefix (cs : ConfigStore) (prefix : string) : string :=
  if bool_decide (prefix = "") then "" else
  match cs_snapshot cs with
  | None => prefix
  | Some s =>
      match s_HostnameAliasOrg s !! prefix ≫= (s_Orgs s !!.) with
      | Some oc => if bool_decide (oc_DatabaseName oc = "") then prefix else oc_DatabaseName oc
      | None => prefix
      end
  end.

Fixpoint label_chars (n i : nat) (l : list byte) : bool :=
  match l with
  | [] => true
  | b :: l' =>
      let isAlnum := byte_in 97 122 b || byte_in 65 90 b || byte_in 48 57 b in
      let isHyphen := bool_decide (b = x2d) in
      if negb isAlnum && negb isHyphen then false else
      if isHyphen && (bool_decide (i = 0%nat) || bool_decide (i = n - 1)%nat) then false else
      label_chars n (S i) l'
  end.

Definition isDNSLabel (label : string) : bool :=
  let l := bytes label in
  if bool_decide (length l = 0%nat) || bool_decide (63 < length l)%nat then false
  else label_chars (length l) 0 l.

Definition resolveSNIPrefixFromSnapshot (snap : Snapshot) (prefix : string) : string * string * bool :=
  if bool_decide (prefix = "") then ("", "", false) else
  match s_HostnameAliasOrg snap !! prefix with
  | Some orgID =>
      match s_Orgs snap !! orgID with
      | Some oc => (orgID, oc_DatabaseName oc, true)
      | None => ("", "", false)
      end
  | None =>
      match s_DatabaseOrg snap !! prefix with
      | Some orgID => (orgID, prefix, false)
      | None =>
          if isDNSLabel prefix then
            match s_Orgs snap !! prefix with
            | Some oc => (oc_Name oc, oc_DatabaseName oc, false)
            | None => ("", "", false)
            end
          else ("", "", false)
      end
  end.

Definition ResolveSNIPrefix (cs : ConfigStore) (prefix : string) : string * string :=
  if bool_decide (prefix = "") then ("", "") else
  match cs_snapshot cs with
  | None => ("", "")
  | Some s => (resolveSNIPrefixFromSnapshot s prefix).1
  end.

Definition OrgWarehouseStatus (cs : ConfigStore) (orgID : string) : string * bool :=
  match cs_snapshot cs ≫= λ s, s_Orgs s !! orgID with
  | None => ("", false)
  | Some oc => match oc_Warehouse oc with
               | None => ("", true)
               | Some w => (w_State w, true)
               end
  end.

(** * Passwords *)

(** golang.org/x/crypto/bcrypt. *)
Class Bcrypt := {
  CompareHashAndPassword : string → string → bool;
  GenerateFromPassword : string → option string;
}.

(** A hash it generates is accepted with its password. *)
Class BcryptLaws `{Bcrypt} := {
  generated_compares : ∀ p h, GenerateFromPassword p = Some h → CompareHashAndPassword h p = true;
}.

Definition dummy_hash := "$2a$10$000000000000000000000000000000000000000000000000000000".

(** A result with the hashes compared on the way: a comparison is what takes time. *)
Definition timed (A : Type) : Type := A * list string.

Section passwords.
Context `{Bcrypt}.

Definition HashPassword (password : string) : option string := GenerateFromPassword password.

Definition ValidateOrgUser (cs : ConfigStore) (orgID username password : string) : timed bool :=
  match cs_snapshot cs with
  | None => (false, [])
  | Some s =>
      match s_OrgUserPassword s !! (orgID, username) with
      | None => (false, [dummy_hash])
      | Some storedHash => (CompareHashAndPassword storedHash password, [storedHash])
      end
  end.

Definition IsOrgUserPassthrough (cs : ConfigStore) (orgID username : string) : bool :=
  match cs_snapshot cs with
  | None => false
  | Some s => default false (s_OrgUserPassthrough s !! (orgID, username))
  end.

Definition ValidateOrgUserAndGetPassthrough (cs : ConfigStore) (orgID username password : string)
    : timed (bool * bool) :=
  match cs_snapshot cs with
  | None => ((false, false), [dummy_hash])
  | Some s =>
      match s_OrgUserPassword s !! (orgID, username) with
      | None => ((false, false), [dummy_hash])
      | Some storedHash =>
          (if negb (CompareHashAndPassword storedHash password) then (false, false)
           else (true, default false (s_OrgUserPassthrough s !! (orgID, username))),
           [storedHash])
      end
  end.

(** The loop of FindAndValidateUser over the password map, in the order the runtime
    picks. *)
Fixpoint find_user (order : list (OrgUserKey * string)) (username password : string) : timed (option string) :=
  match order with
  | [] => (None, [dummy_hash])
  | ((orgID, user), storedHash) :: order' =>
      if bool_decide (user = username) then
        (if CompareHashAndPassword storedHash password then Some orgID else None, [storedHash])
      else find_user order' username password
  end.

Definition FindAndValidateUser (cs : ConfigStore) (order : list (OrgUserKey * string)) (username password : string)
    : timed (option string) :=
  match cs_snapshot cs with
  | None => (None, [])
  | Some _ => find_user order username password
  end.

(** An order in which a range over the snapshot's password map may go. *)
Definition range_order (cs : ConfigStore) (order : list (OrgUserKey * string)) : Prop :=
  match cs_snapshot cs with
  | None => order = []
  | Some s => order ≡ₚ map_to_list (s_OrgUserPassword s)
  end.

Record PostgresConnectionResolution := {
  r_EffectiveDatabase : string;
  r_OrgID : string;
  r_SNIOrgID : string;
  r_SNIDatabase : string;
  r_SNIAliasUsed : bool;
  r_UsedSNIDatabase : bool;
  r_RequiresSNIOrgMatch : bool;
  r_SNIResolved : bool;
  r_DatabaseExists : bool;
  r_HostnameMatches : bool;
  r_Valid : bool;
  r_Passthrough : bool;
}.

Definition set_org (orgID : string) (hostname : bool) (r : PostgresConnectionResolution) :=
  {| r_EffectiveDatabase := r_EffectiveDatabase r; r_OrgID := orgID; r_SNIOrgID := r_SNIOrgID r;
     r_SNIDatabase := r_SNIDatabase r; r_SNIAliasUsed := r_SNIAliasUsed r; r_UsedSNIDatabase := r_UsedSNIDatabase r;
     r_RequiresSNIOrgMatch := r_RequiresSNIOrgMatch r; r_SNIResolved := r_SNIResolved r;
     r_DatabaseExists := true; r_HostnameMatches := hostname; r_Valid := r_Valid r; r_Passthrough := r_Passthrough r |}.

Definition set_valid (passthrough : bool) (r : PostgresConnectionResolution) :=
  {| r_EffectiveDatabase := r_EffectiveDatabase r; r_OrgID := r_OrgID r; r_SNIOrgID := r_SNIOrgID r;
     r_SNIDatabase := r_SNIDatabase r; r_SNIAliasUsed := r_SNIAliasUsed r; r_UsedSNIDatabase := r_UsedSNIDatabase r;
     r_RequiresSNIOrgMatch := r_RequiresSNIOrgMatch r; r_SNIResolved := r_SNIResolved r;
     r_DatabaseExists := r_DatabaseExists r; r_HostnameMatches := r_HostnameMatches r;
     r_Valid := true; r_Passthrough := passthrough |}.

(** The first part of ResolvePostgresConnection: which database is meant, and what the
    managed hostname names. *)
Definition resolve_sni (snap : option Snapshot) (startupDatabase sniPrefix : string) (useManagedSNI : bool)
    : PostgresConnectionResolution :=
  let result db sniOrg sniDB alias used req resolved :=
    {| r_EffectiveDatabase := db; r_OrgID := ""; r_SNIOrgID := sniOrg; r_SNIDatabase := sniDB;
       r_SNIAliasUsed := alias; r_UsedSNIDatabase := used; r_RequiresSNIOrgMatch := req; r_SNIResolved := resolved;
       r_DatabaseExists := false; r_HostnameMatches := true; r_Valid := false; r_Passthrough := false |} in
  match snap, useManagedSNI with
  | Some s, true =>
      let '(sniOrg, sniDB0, alias) := resolveSNIPrefixFromSnapshot s sniPrefix in
      let sniDB := if bool_decide (sniDB0 = "") then sniPrefix else sniDB0 in
      let used := bool_decide (startupDatabase = "") in
      result (if used then sniDB else startupDatabase) sniOrg sniDB alias used true (bool_decide (sniOrg ≠ ""))
  | _, _ => result startupDatabase "" "" false false false false
  end.

Definition ResolvePostgresConnection (cs : ConfigStore) (startupDatabase sniPrefix : string) (useManagedSNI : bool)
    (username password : string) : timed PostgresConnectionResolution :=
  let result := resolve_sni (cs_snapshot cs) startupDatabase sniPrefix useManagedSNI in
  match cs_snapshot cs with
  | None => (result, [])
  | Some s =>
      if bool_decide (r_EffectiveDatabase result = "") then (result, []) else
      let orgID := default "" (s_DatabaseOrg s !! r_EffectiveDatabase result) in
      if bool_decide (orgID = "") then (result, []) else
      if r_RequiresSNIOrgMatch result && bool_decide (r_SNIOrgID result ≠ orgID)
      then (set_org orgID false result, []) else
      let result := set_org orgID true result in
      match s_OrgUserPassword s !! (orgID, username) with
      | None => (result, [dummy_hash])
      | Some storedHash =>
          (if negb (CompareHashAndPassword storedHash password) then result
           else set_valid (default false (s_OrgUserPassthrough s !! (orgID, username))) result, [storedHash])
      end
  end.
End passwords.

(** * The tables *)

Record config_db := {
  d_orgs : gmap string OrgRow;
  d_users : gmap OrgUserKey OrgUser;
  d_warehouses : gmap string ManagedWarehouse;
  d_ducklake_delta : bool;
  d_migrations : gset string;
}.

Definition with_users (us : gmap OrgUserKey OrgUser) (d : config_db) : config_db :=
  {| d_orgs := d_orgs d; d_users := us; d_warehouses := d_warehouses d;
     d_ducklake_delta := d_ducklake_delta d; d_migrations := d_migrations d |}.
Definition with_warehouses (ws : gmap string ManagedWarehouse) (d : config_db) : config_db :=
  {| d_orgs := d_orgs d; d_users := d_users d; d_warehouses := ws;
     d_ducklake_delta := d_ducklake_delta d; d_migrations := d_migrations d |}.

(** What the keys of the tables guarantee: a row is filed under its primary key, users
    belong to an org (foreign key), and the unique indexes of database_name and
    hostname_alias, where NULL is no value. *)
Record db_ok (d : config_db) : Prop := {
  org_filed : ∀ n o, d_orgs d !! n = Some o → o_Name o = n;
  user_filed : ∀ n x u, d_users d !! (n, x) = Some u → u_OrgID u = n ∧ u_Username u = x ∧ is_Some (d_orgs d !! n);
  database_unique : ∀ n n' o o', d_orgs d !! n = Some o → d_orgs d !! n' = Some o' →
    o_DatabaseName o = o_DatabaseName o' → n = n';
  alias_unique : ∀ n n' o o' a, d_orgs d !! n = Some o → d_orgs d !! n' = Some o' →
    o_HostnameAlias o = Some a → o_HostnameAlias o' = Some a → n = n';
}.

(** Find with Preload: every org with its users and its warehouse, rows in the order
    the database returns them. *)
Definition preload (d : config_db) (us : list OrgUser) (o : OrgRow) : Org :=
  {| org_row := o; org_Users := filter (λ u, u_OrgID u = o_Name o) us; org_Warehouse := d_warehouses d !! o_Name o |}.

Definition rows {K V} `{Countable K} (m : gmap K V) : list V := (map_to_list m).*2.

Definition answered (d : config_db) (a : answers) : Prop :=
  ∃ os us, os ≡ₚ rows (d_orgs d) ∧ us ≡ₚ rows (d_users d) ∧ a_orgs a = Some (preload d us <$> os).

Inductive db_err :=
  | DbError                        (** the statement failed *)
  | UserNotFound
  | ErrWarehouseNotFound
  | ErrWarehouseStateMismatch.

(** INSERT ... ON CONFLICT (org_id, username) DO UPDATE SET password. *)
Definition CreateOrgUser (fault : bool) (orgID username passwordHash : string) (d : config_db)
    : option db_err * config_db :=
  if fault || bool_decide (d_orgs d !! orgID = None) then (Some DbError, d) else
  let passthrough := match d_users d !! (orgID, username) with Some u => u_Passthrough u | None => false end in
  (None, with_users (<[(orgID, username) := {| u_OrgID := orgID; u_Username := username;
            u_Password := passwordHash; u_Passthrough := passthrough |}]> (d_users d)) d).

Definition UpdateOrgUserPassword (fault : bool) (orgID username passwordHash : string) (d : config_db)
    : option db_err * config_db :=
  if fault then (Some DbError, d) else
  match d_users d !! (orgID, username) with
  | None => (Some UserNotFound, d)
  | Some u => (None, with_users (<[(orgID, username) := {| u_OrgID := u_OrgID u; u_Username := u_Username u;
                 u_Password := passwordHash; u_Passthrough := u_Passthrough u |}]> (d_users d)) d)
  end.

Definition ListWarehousesByStates (fault : bool) (states : list string) (d : config_db)
    : option (list ManagedWarehouse) :=
  if fault then None else Some (filter (λ w, w_State w ∈ states) (rows (d_warehouses d))).

Definition UpdateIcebergConfig (fault : bool) (orgID : string) (updates : ManagedWarehouse → ManagedWarehouse)
    (d : config_db) : option db_err * config_db :=
  if fault then (Some DbError, d) else
  match d_warehouses d !! orgID with
  | None => (Some ErrWarehouseNotFound, d)
  | Some w => (None, with_warehouses (<[orgID := updates w]> (d_warehouses d)) d)
  end.

Definition UpdateWarehouseState (fault : bool) (orgID expectedState : string)
    (updates : ManagedWarehouse → ManagedWarehouse) (d : config_db) : option db_err * config_db :=
  if fault then (Some DbError, d) else
  match d_warehouses d !! orgID with
  | Some w => if bool_decide (w_State w = expectedState)
              then (None, with_warehouses (<[orgID := updates w]> (d_warehouses d)) d)
              else (Some ErrWarehouseStateMismatch, d)
  | None => (Some ErrWarehouseStateMismatch, d)
  end.

(** ** One-time migrations *)

Definition deltaCatalogDefaultMigrationName := "2026_05_delta_catalog_default_enabled".
Definition icebergBackendBackfillMigrationName := "2026_05_iceberg_backend_backfill".

Definition enable_delta (w : ManagedWarehouse) : ManagedWarehouse :=
  {| w_State := w_State w; w_DeltaCatalogEnabled := true; w_Iceberg := w_Iceberg w;
     w_IdentityNamespace := w_IdentityNamespace w;
     w_WarehouseDatabaseCredentials := w_WarehouseDatabaseCredentials w;
     w_MetadataStoreCredentials := w_MetadataStoreCredentials w;
     w_S3Credentials := w_S3Credentials w; w_RuntimeConfig := w_RuntimeConfig w |}.

Definition backfill_backend (w : ManagedWarehouse) : ManagedWarehouse :=
  let i := w_Iceberg w in
  if bool_decide (ice_TableBucketArn i ≠ "") && bool_decide (ice_Backend i = "") then
    {| w_State := w_State w; w_DeltaCatalogEnabled := w_DeltaCatalogEnabled w;
       w_Iceberg := {| ice_Backend := IcebergBackendS3Tables; ice_TableBucketArn := ice_TableBucketArn i;
                       ice_LakekeeperClientCredentials := ice_LakekeeperClientCredentials i |};
       w_IdentityNamespace := w_IdentityNamespace w;
       w_WarehouseDatabaseCredentials := w_WarehouseDatabaseCredentials w;
       w_MetadataStoreCredentials := w_MetadataStoreCredentials w;
       w_S3Credentials := w_S3Credentials w; w_RuntimeConfig := w_RuntimeConfig w |}
  else w.

(** The shape both migrations have: a look at duckgres_schema_migrations, then one
    transaction that changes the rows and records the name. [fault] is the statement
    that fails, if one does; inside the transaction nothing is kept then. *)
Definition one_shot (name : string) (change : config_db → config_db) (fault : option nat) (d : config_db)
    : bool * config_db :=
  if bool_decide (fault = Some 0%nat) then (false, d) else
  if bool_decide (name ∈ d_migrations d) then (true, d) else
  if bool_decide (fault ≠ None) then (false, d) else
  let d' := change d in
  (true, {| d_orgs := d_orgs d'; d_users := d_users d'; d_warehouses := d_warehouses d';
            d_ducklake_delta := d_ducklake_delta d'; d_migrations := {[ name ]} ∪ d_migrations d' |}).

Definition migrateDeltaCatalogDefaultEnabled : option nat → config_db → bool * config_db :=
  one_shot deltaCatalogDefaultMigrationName (λ d,
    {| d_orgs := d_orgs d; d_users := d_users d; d_warehouses := enable_delta <$> d_warehouses d;
       d_ducklake_delta := true; d_migrations := d_migrations d |}).

Definition migrateIcebergBackendBackfill : option nat → config_db → bool * config_db :=
  one_shot icebergBackendBackfillMigrationName (λ d, with_warehouses (backfill_backend <$> d_warehouses d) d).

Definition resolveRuntimeSchema (currentSchema : option string) : option string :=
  s ← currentSchema;
  Some (if bool_decide (s = "") || bool_decide (s = "public") then "cp_runtime" else s ++ "_runtime").

(** * Secret references *)

Inductive ref_err :=
  | RequiresNameAndKey (field : string)
  | RequiresIdentityNamespace (field : string) (refused : option string)
  | RequiresExplicitNamespace (field tenant : string) (refused : option string)
  | NamespaceMismatch (field ref tenant : string)
  | NameNotPrefixed (field name prefix : string).

Definition SecretRefEmpty (ref : SecretRef) : bool :=
  bool_decide (TrimSpace (sr_Namespace ref) = "") && bool_decide (TrimSpace (sr_Name ref) = "")
  && bool_decide (TrimSpace (sr_Key ref) = "").

Definition tenantSecretNamePrefix (orgID : string) : string :=
  let orgID := TrimSpace orgID in
  if bool_decide (orgID = "") then "" else orgID ++ "-".

Definition ValidateTenantSecretRef (orgID tenantNamespace defaultNamespace field : string) (ref : SecretRef)
    : option ref_err :=
  if SecretRefEmpty ref then None else
  let name := TrimSpace (sr_Name ref) in
  let key := TrimSpace (sr_Key ref) in
  let refNamespace := TrimSpace (sr_Namespace ref) in
  let effectiveTenantNamespace := TrimSpace tenantNamespace in
  let refused := if bool_decide (TrimSpace defaultNamespace ≠ "") then Some (TrimSpace defaultNamespace) else None in
  if bool_decide (name = "") || bool_decide (key = "") then Some (RequiresNameAndKey field) else
  if bool_decide (effectiveTenantNamespace = "") then Some (RequiresIdentityNamespace field refused) else
  if bool_decide (refNamespace = "") then Some (RequiresExplicitNamespace field effectiveTenantNamespace refused) else
  if bool_decide (refNamespace ≠ effectiveTenantNamespace)
  then Some (NamespaceMismatch field refNamespace effectiveTenantNamespace) else
  let prefix := tenantSecretNamePrefix orgID in
  if bool_decide (prefix ≠ "") && negb (HasPrefix name prefix) then Some (NameNotPrefixed field name prefix) else
  None.

Fixpoint first_ref_error (orgID tenantNamespace defaultNamespace : string) (cs : list (string * SecretRef))
    : option ref_err :=
  match cs with
  | [] => None
  | (field, ref) :: cs' =>
      match ValidateTenantSecretRef orgID tenantNamespace defaultNamespace field ref with
      | Some e => Some e
      | None => first_ref_error orgID tenantNamespace defaultNamespace cs'
      end
  end.

(** The references the validation looks at, with their field names. *)
Definition checked_refs (w : ManagedWarehouse) : list (string * SecretRef) :=
  [("warehouse_database_credentials", w_WarehouseDatabaseCredentials w);
   ("metadata_store_credentials", w_MetadataStoreCredentials w);
   ("s3_credentials", w_S3Credentials w);
   ("runtime_config", w_RuntimeConfig w)].

Definition ValidateManagedWarehouseSecretRefs (orgID defaultNamespace : string) (warehouse : option ManagedWarehouse)
    : option ref_err :=
  match warehouse with
  | None => None
  | Some w => first_ref_error orgID (TrimSpace (w_IdentityNamespace w)) defaultNamespace (checked_refs w)
  end.
