(* ===== verification/ConfigTheorems.v ===== *)
(** Theorems on the configuration: the snapshot is a function of the tables, a login is
    granted exactly when the tables say so, refusals do not tell users apart, password
    changes take effect, state changes of a warehouse have one winner, migrations run
    once, and checked secret references stay with their tenant. *)

From Stdlib Require Import Strings.Byte.
From stdpp Require Import prelude gmap strings list fin_maps.
From Stdlib Require Import ZArith Lia.
From S2P Require Import Prelude GoText ConfigStore.

Open Scope Z_scope.
Open Scope string_scope.

(** * Maps filled by a loop *)

Section filled.
Context {K V : Type} `{Countable K}.

Definition fill (l : list (K * V)) (m : gmap K V) : gmap K V := fold_left (λ m kv, <[kv.1 := kv.2]> m) l m.

Lemma fill_app l l' m : fill (l ++ l') m = fill l' (fill l m).
Proof. apply fold_left_app. Qed.

(** No key is given two values. *)
Definition functional (l : list (K * V)) : Prop := ∀ k v v', (k, v) ∈ l → (k, v') ∈ l → v = v'.

Lemma fill_lookup_over l : ∀ m k v, functional l →
  fill l m !! k = Some v ↔ (k, v) ∈ l ∨ ((∀ v', (k, v') ∉ l) ∧ m !! k = Some v).
Proof.
  induction l as [|[k0 v0] l IH] using rev_ind; intros m k v Hf.
  { cbn. rewrite elem_of_nil. split; [intros ?; right; split; [set_solver|done]|tauto]. }
  assert (functional l) as Hl by (intros k1 v1 v2 H1 H2; apply (Hf k1); set_solver).
  rewrite fill_app. cbn [fill fold_left fst snd].
  destruct (decide (k0 = k)) as [->|Hne].
  - rewrite lookup_insert_eq. split.
    + intros [= ->]. left. set_solver.
    + intros [Hin|[Hno _]]; [|exfalso; apply (Hno v0); set_solver].
      f_equal. apply (Hf k); [set_solver|done].
  - rewrite lookup_insert_ne by done. change (fold_left _ l m) with (fill l m). rewrite (IH m k v Hl).
    set_solver.
Qed.

Lemma fill_lookup l k v : functional l → fill l ∅ !! k = Some v ↔ (k, v) ∈ l.
Proof. intros Hf. rewrite fill_lookup_over by done. rewrite lookup_empty. naive_solver. Qed.
End filled.

(** * What a snapshot holds *)

Definition database_entry (org : Org) : list (string * string) :=
  if bool_decide (o_DatabaseName (org_row org) = "") then [] else [(o_DatabaseName (org_row org), o_Name (org_row org))].
Definition alias_entry (org : Org) : list (string * string) :=
  if bool_decide (alias_of (org_row org) = "") then [] else [(alias_of (org_row org), o_Name (org_row org))].
Definition password_entry (n : string) (u : OrgUser) : OrgUserKey * string := ((n, u_Username u), u_Password u).
Definition passthrough_entry (n : string) (u : OrgUser) : list (OrgUserKey * bool) :=
  if u_Passthrough u then [((n, u_Username u), true)] else [].
Definition config_of (org : Org) : OrgConfig :=
  let o := org_row org in
  {| oc_Name := o_Name o; oc_DatabaseName := o_DatabaseName o; oc_HostnameAlias := alias_of o;
     oc_MaxWorkers := o_MaxWorkers o; oc_MaxConnections := o_MaxConnections o;
     oc_MemoryBudget := o_MemoryBudget o; oc_IdleTimeoutS := o_IdleTimeoutS o;
     oc_WorkerCPURequest := o_WorkerCPURequest o; oc_WorkerMemoryRequest := o_WorkerMemoryRequest o;
     oc_Users := fill ((λ u, (u_Username u, u_Password u)) <$> org_Users org) ∅;
     oc_Warehouse := org_Warehouse org |}.

Lemma load_users_fill n us : ∀ m pw pass,
  fold_left (load_user n) us (m, pw, pass)
  = (fill ((λ u, (u_Username u, u_Password u)) <$> us) m, fill (password_entry n <$> us) pw,
     fill (us ≫= passthrough_entry n) pass).
Proof.
  induction us as [|u us IH]; intros m pw pass; [done|].
  cbn [fold_left load_user]. rewrite IH. cbn [fmap list_fmap mbind list_bind].
  rewrite fill_app. f_equal. f_equal. unfold passthrough_entry. by destruct (u_Passthrough u).
Qed.

Definition snapshot_of (os : list Org) (s : Snapshot) : Snapshot :=
  {| s_Orgs := fill ((λ org, (o_Name (org_row org), config_of org)) <$> os) (s_Orgs s);
     s_DatabaseOrg := fill (os ≫= database_entry) (s_DatabaseOrg s);
     s_HostnameAliasOrg := fill (os ≫= alias_entry) (s_HostnameAliasOrg s);
     s_OrgUserPassword := fill (os ≫= λ org, password_entry (o_Name (org_row org)) <$> org_Users org) (s_OrgUserPassword s);
     s_OrgUserPassthrough := fill (os ≫= λ org, org_Users org ≫= passthrough_entry (o_Name (org_row org))) (s_OrgUserPassthrough s);
     s_Global := s_Global s; s_DuckLake := s_DuckLake s; s_RateLimit := s_RateLimit s; s_QueryLog := s_QueryLog s |}.

Lemma load_orgs_fill os : ∀ s, fold_left load_org os s = snapshot_of os s.
Proof.
  induction os as [|org os IH]; intros s; [by destruct s|].
  cbn [fold_left]. rewrite IH. unfold load_org at 1. rewrite load_users_fill.
  unfold snapshot_of. cbn [s_Orgs s_DatabaseOrg s_HostnameAliasOrg s_OrgUserPassword s_OrgUserPassthrough
    s_Global s_DuckLake s_RateLimit s_QueryLog].
  cbn [fmap list_fmap mbind list_bind]. rewrite !fill_app. f_equal.
  - f_equal. unfold database_entry. by case_bool_decide.
  - f_equal. unfold alias_entry. by case_bool_decide.
Qed.

(** The tables, read as maps of the snapshot. *)
Record reflects (d : config_db) (s : Snapshot) : Prop := {
  reflects_org : ∀ n oc, s_Orgs s !! n = Some oc ↔
    ∃ o m, d_orgs d !! n = Some o ∧ oc = config_of {| org_row := o; org_Users := m; org_Warehouse := d_warehouses d !! n |}
      ∧ (∀ u, u ∈ m ↔ d_users d !! (n, u_Username u) = Some u);
  reflects_database : ∀ db n, s_DatabaseOrg s !! db = Some n ↔
    db ≠ "" ∧ ∃ o, d_orgs d !! n = Some o ∧ o_DatabaseName o = db;
  reflects_alias : ∀ a n, s_HostnameAliasOrg s !! a = Some n ↔
    a ≠ "" ∧ ∃ o, d_orgs d !! n = Some o ∧ o_HostnameAlias o = Some a;
  reflects_password : ∀ n x h, s_OrgUserPassword s !! (n, x) = Some h ↔
    ∃ u, d_users d !! (n, x) = Some u ∧ u_Password u = h;
  reflects_passthrough : ∀ n x b, s_OrgUserPassthrough s !! (n, x) = Some b ↔
    b = true ∧ ∃ u, d_users d !! (n, x) = Some u ∧ u_Passthrough u = true;
}.

Lemma elem_of_rows {K V} `{Countable K} (m : gmap K V) v : v ∈ rows m ↔ ∃ k, m !! k = Some v.
Proof.
  unfold rows. rewrite list_elem_of_fmap. split.
  - intros ([k v'] & -> & Hin%elem_of_map_to_list). by exists k.
  - intros [k Hk]. exists (k, v). split; [done|]. by apply elem_of_map_to_list.
Qed.

Section answered.
Context (d : config_db) (os : list OrgRow) (us : list OrgUser).
Hypotheses (Hd : db_ok d) (Hos : os ≡ₚ rows (d_orgs d)) (Hus : us ≡ₚ rows (d_users d)).

Lemma answered_org org : org ∈ preload d us <$> os ↔
  ∃ o, d_orgs d !! o_Name o = Some o ∧ org = preload d us o.
Proof.
  rewrite list_elem_of_fmap. split.
  - intros (o & -> & Hin). exists o. split; [|done].
    rewrite Hos in Hin. apply elem_of_rows in Hin as [n Hn]. by rewrite (org_filed d Hd _ _ Hn).
  - intros (o & Ho & ->). exists o. split; [done|]. rewrite Hos. apply elem_of_rows. by exists (o_Name o).
Qed.

Lemma answered_user o u : u ∈ org_Users (preload d us o) ↔ d_users d !! (o_Name o, u_Username u) = Some u.
Proof.
  cbn. rewrite list_elem_of_filter, Hus, elem_of_rows. split.
  - intros [<- [[n x] Hu]]. by destruct (user_filed d Hd _ _ _ Hu) as (-> & -> & _).
  - intros Hu. split; [|eauto]. by destruct (user_filed d Hd _ _ _ Hu) as (-> & _).
Qed.

Lemma orgs_functional : functional ((λ org, (o_Name (org_row org), config_of org)) <$> (preload d us <$> os)).
Proof.
  intros n c c' [org [[= -> ->] [o [Ho ->]]%answered_org]]%list_elem_of_fmap
    [org' [[= E ->] [o' [Ho' ->]]%answered_org]]%list_elem_of_fmap.
  cbn in *. rewrite E in Ho. by simplify_eq.
Qed.

Lemma database_entries n db : (db, n) ∈ (preload d us <$> os) ≫= database_entry ↔
  db ≠ "" ∧ ∃ o, d_orgs d !! n = Some o ∧ o_DatabaseName o = db.
Proof.
  rewrite list_elem_of_bind. split.
  - intros (org & Hin & [o [Ho ->]]%answered_org). unfold database_entry in Hin. cbn in Hin.
    case_bool_decide; [set_solver|]. apply list_elem_of_singleton in Hin as [= -> ->]. eauto.
  - intros (Hdb & o & Ho & <-). exists (preload d us o). rewrite answered_org. unfold database_entry. cbn.
    rewrite bool_decide_eq_false_2 by done. rewrite <- (org_filed d Hd _ _ Ho) in Ho |- *.
    split; [by apply list_elem_of_singleton|eauto].
Qed.

Lemma alias_entries n a : (a, n) ∈ (preload d us <$> os) ≫= alias_entry ↔
  a ≠ "" ∧ ∃ o, d_orgs d !! n = Some o ∧ o_HostnameAlias o = Some a.
Proof.
  rewrite list_elem_of_bind. split.
  - intros (org & Hin & [o [Ho ->]]%answered_org). unfold alias_entry, alias_of in Hin. cbn in Hin.
    case_bool_decide as Hne; [set_solver|]. apply list_elem_of_singleton in Hin as [= -> ->].
    destruct (o_HostnameAlias o) as [b|] eqn:Eb; [|done]. cbn in *. eauto.
  - intros (Ha & o & Ho & Eo). exists (preload d us o). rewrite answered_org. unfold alias_entry, alias_of. cbn.
    rewrite Eo. cbn. rewrite bool_decide_eq_false_2 by done. rewrite <- (org_filed d Hd _ _ Ho) in Ho |- *.
    split; [by apply list_elem_of_singleton|eauto].
Qed.

Lemma password_entries n x h :
  ((n, x), h) ∈ ((preload d us <$> os) ≫= λ org, password_entry (o_Name (org_row org)) <$> org_Users org) ↔
  ∃ u, d_users d !! (n, x) = Some u ∧ u_Password u = h.
Proof.
  rewrite list_elem_of_bind. split.
  - intros (org & Hin & [o [Ho ->]]%answered_org). apply list_elem_of_fmap in Hin as (u & Eu & Hu%answered_user).
    injection Eu as -> -> ->. eauto.
  - intros (u & Hu & <-). destruct (user_filed d Hd _ _ _ Hu) as (_ & Ex & [o Ho]).
    pose proof (org_filed d Hd _ _ Ho) as En.
    exists (preload d us o). rewrite answered_org. split.
    + apply list_elem_of_fmap. exists u. rewrite answered_user, Ex, En. split; [|done].
      unfold password_entry. cbn. by rewrite Ex, En.
    + exists o. by rewrite En.
Qed.

Lemma passthrough_entries n x b :
  ((n, x), b) ∈ ((preload d us <$> os) ≫= λ org, org_Users org ≫= passthrough_entry (o_Name (org_row org))) ↔
  b = true ∧ ∃ u, d_users d !! (n, x) = Some u ∧ u_Passthrough u = true.
Proof.
  rewrite list_elem_of_bind. split.
  - intros (org & Hin & [o [Ho ->]]%answered_org). apply list_elem_of_bind in Hin as (u & Eu & Hu%answered_user).
    unfold passthrough_entry in Eu. destruct (u_Passthrough u) eqn:Ep; [|set_solver].
    apply list_elem_of_singleton in Eu as [= -> -> ->]. eauto.
  - intros (-> & u & Hu & Hp). destruct (user_filed d Hd _ _ _ Hu) as (_ & Ex & [o Ho]).
    pose proof (org_filed d Hd _ _ Ho) as En.
    exists (preload d us o). rewrite answered_org. split.
    + apply list_elem_of_bind. exists u. rewrite answered_user, Ex, En. split; [|done].
      unfold passthrough_entry. rewrite Hp, Ex. cbn. rewrite En. by apply list_elem_of_singleton.
    + exists o. by rewrite En.
Qed.

Lemma org_users_fill n l x h : (∀ u, u ∈ l ↔ d_users d !! (n, u_Username u) = Some u) →
  fill ((λ u, (u_Username u, u_Password u)) <$> l) ∅ !! x = Some h ↔
  ∃ u, d_users d !! (n, x) = Some u ∧ u_Password u = h.
Proof.
  intros Hl. rewrite fill_lookup.
  - rewrite list_elem_of_fmap. split.
    + intros (u & [= -> ->] & Hu%Hl). eauto.
    + intros (u & Hu & <-). destruct (user_filed d Hd _ _ _ Hu) as (_ & Ex & _).
      exists u. split; [by rewrite Ex|]. apply Hl. by rewrite Ex.
  - intros k v v' [u [[= -> ->] Hu%Hl]]%list_elem_of_fmap [u' [[= E ->] Hu'%Hl]]%list_elem_of_fmap.
    rewrite E in Hu. congruence.
Qed.

Lemma filled_reflects a : reflects d (snapshot_of (preload d us <$> os) (empty_snapshot a)).
Proof.
  split; cbn [snapshot_of s_Orgs s_DatabaseOrg s_HostnameAliasOrg s_OrgUserPassword s_OrgUserPassthrough empty_snapshot].
  - intros n oc. rewrite fill_lookup by apply orgs_functional. rewrite list_elem_of_fmap. split.
    + intros (org & [= -> ->] & [o [Ho ->]]%answered_org). exists o, (org_Users (preload d us o)).
      split; [done|]. split; [done|]. intros u. apply answered_user.
    + intros (o & m & Ho & -> & Hm). pose proof (org_filed d Hd _ _ Ho) as En.
      exists (preload d us o). rewrite answered_org. split; [|by exists o; rewrite En].
      cbn. rewrite En. f_equal. unfold config_of. cbn. rewrite En. f_equal.
      apply map_eq. intros x. apply option_eq. intros h.
      etrans; [by apply (org_users_fill n)|symmetry; apply (org_users_fill n)].
      intros u. rewrite <- En. apply answered_user.
  - intros db n. rewrite fill_lookup; [by rewrite database_entries|].
    intros k v v'. rewrite !database_entries. intros (_ & o & Ho & <-) (_ & o' & Ho' & E).
    by eapply (database_unique d Hd).
  - intros a' n. rewrite fill_lookup; [by rewrite alias_entries|].
    intros k v v'. rewrite !alias_entries. intros (_ & o & Ho & E) (_ & o' & Ho' & E').
    by eapply (alias_unique d Hd).
  - intros n x h. rewrite fill_lookup; [by rewrite password_entries|].
    intros [k1 k2] v v'. rewrite !password_entries. naive_solver.
  - intros n x b. rewrite fill_lookup; [by rewrite passthrough_entries|].
    intros [k1 k2] v v'. rewrite !passthrough_entries. naive_solver.
Qed.
End answered.

Lemma load_reflects d a s : db_ok d → answered d a → load a = Some s → reflects d s.
Proof.
  intros Hd (os & us & Hos & Hus & Ea). unfold load. rewrite Ea. cbn. rewrite load_orgs_fill. intros [= <-].
  by apply filled_reflects.
Qed.

Lemma load_answered d a : answered d a → ∃ s, load a = Some s.
Proof. intros (os & us & _ & _ & Ea). unfold load. rewrite Ea. cbn. eauto. Qed.

(** * Logins *)

Definition aliased (orgs : gmap string OrgRow) (p n : string) : Prop :=
  ∃ o, orgs !! n = Some o ∧ o_HostnameAlias o = Some p.
Definition has_database (orgs : gmap string OrgRow) (p n : string) : Prop :=
  ∃ o, orgs !! n = Some o ∧ o_DatabaseName o = p.

(** The org that the label of a managed hostname names, in the tables: its alias, else
    its database, else its own name when that is a DNS label. *)
Inductive names_org (orgs : gmap string OrgRow) (p : string) : string → Prop :=
  | by_alias n : aliased orgs p n → names_org orgs p n
  | by_database n : (∀ m, ¬ aliased orgs p m) → has_database orgs p n → names_org orgs p n
  | by_name : (∀ m, ¬ aliased orgs p m) → (∀ m, ¬ has_database orgs p m) → isDNSLabel p = true →
      is_Some (orgs !! p) → names_org orgs p p.

Lemma names_org_unique d p n m : db_ok d → names_org (d_orgs d) p n → names_org (d_orgs d) p m → n = m.
Proof.
  intros Hd Hn Hm. destruct Hn as [n Ha|n Hna Hb|Hna Hnb Hl Ho], Hm as [m Ha'|m Hna' Hb'|Hna' Hnb' Hl' Ho'].
  all: try (by exfalso; eapply Hna'); try (by exfalso; eapply Hna);
    try (by exfalso; eapply Hnb'); try (by exfalso; eapply Hnb).
  - destruct Ha as (o & Ho & E), Ha' as (o' & Ho' & E'). by eapply (alias_unique d Hd).
  - destruct Hb as (o & Ho & E), Hb' as (o' & Ho' & E'). eapply (database_unique d Hd); [done..|congruence].
  - done.
Qed.

Section reflected.
Context (d : config_db) (s : Snapshot).
Hypotheses (Hd : db_ok d) (Hs : reflects d s).

Lemma not_aliased p : p ≠ "" → s_HostnameAliasOrg s !! p = None ↔ ∀ m, ¬ aliased (d_orgs d) p m.
Proof.
  intros Hp. rewrite eq_None_not_Some. split.
  - intros Hn m Hm. apply Hn. exists m. apply (reflects_alias d s Hs). by split.
  - intros Hn [m [_ Hm]%(reflects_alias d s Hs)]. by apply (Hn m).
Qed.

Lemma not_database p : p ≠ "" → s_DatabaseOrg s !! p = None ↔ ∀ m, ¬ has_database (d_orgs d) p m.
Proof.
  intros Hp. rewrite eq_None_not_Some. split.
  - intros Hn m Hm. apply Hn. exists m. apply (reflects_database d s Hs). by split.
  - intros Hn [m [_ Hm]%(reflects_database d s Hs)]. by apply (Hn m).
Qed.

Lemma org_config n oc : s_Orgs s !! n = Some oc →
  ∃ o, d_orgs d !! n = Some o ∧ oc_Name oc = n ∧ oc_DatabaseName oc = o_DatabaseName o.
Proof.
  intros (o & m & Ho & -> & _)%(reflects_org d s Hs). exists o. split; [done|]. split; [|done].
  apply (org_filed d Hd _ _ Ho).
Qed.

Lemma org_config_Some n : is_Some (s_Orgs s !! n) ↔ is_Some (d_orgs d !! n).
Proof.
  split.
  - intros [oc (o & Ho & _)%org_config]. by exists o.
  - intros [o Ho]. destruct (s_Orgs s !! n) as [oc|] eqn:E; [by eexists|]. exfalso.
    set (m := filter (λ u, u_OrgID u = n) (rows (d_users d))).
    assert (s_Orgs s !! n = Some (config_of {| org_row := o; org_Users := m; org_Warehouse := d_warehouses d !! n |}));
      [|congruence].
    apply (reflects_org d s Hs). exists o, m. split; [done|]. split; [done|].
    intros u. unfold m. rewrite list_elem_of_filter, elem_of_rows. split.
    + intros [<- [[k x] Hu]]. by destruct (user_filed d Hd _ _ _ Hu) as (-> & -> & _).
    + intros Hu. split; [|eauto]. by destruct (user_filed d Hd _ _ _ Hu) as (-> & _).
Qed.

Lemma passthrough_flag n x u : d_users d !! (n, x) = Some u →
  default false (s_OrgUserPassthrough s !! (n, x)) = u_Passthrough u.
Proof.
  intros Hu. destruct (s_OrgUserPassthrough s !! (n, x)) as [b|] eqn:E; cbn.
  - apply (reflects_passthrough d s Hs) in E as (-> & u' & Hu' & Ep). congruence.
  - destruct (u_Passthrough u) eqn:Ep; [|done].
    assert (s_OrgUserPassthrough s !! (n, x) = Some true) by (apply (reflects_passthrough d s Hs); eauto). congruence.
Qed.

(** resolveSNIPrefixFromSnapshot returns the org the label names, and its database. *)
Lemma resolve_prefix p n db al : p ≠ "" → resolveSNIPrefixFromSnapshot s p = (n, db, al) →
  (names_org (d_orgs d) p n ∧ ∃ o, d_orgs d !! n = Some o ∧ o_DatabaseName o = db) ∨
  (n = "" ∧ db = "" ∧ ∀ m, ¬ names_org (d_orgs d) p m).
Proof.
  intros Hp. unfold resolveSNIPrefixFromSnapshot. rewrite bool_decide_eq_false_2 by done.
  destruct (s_HostnameAliasOrg s !! p) as [o1|] eqn:Ea.
  { pose proof (proj1 (reflects_alias d s Hs _ _) Ea) as [_ Hal].
    destruct (proj2 (org_config_Some o1)) as [oc Eoc]; [destruct Hal as (o & -> & _); by eexists|].
    rewrite Eoc. intros [= <- <- <-]. left. split; [by constructor|].
    apply org_config in Eoc as (o & Ho & _ & ->). eauto. }
  rewrite not_aliased in Ea by done.
  destruct (s_DatabaseOrg s !! p) as [o1|] eqn:Edb.
  { intros [= <- <- <-]. apply (reflects_database d s Hs) in Edb as [_ Hdb].
    left. split; [by apply by_database|]. destruct Hdb as (o & Ho & <-). eauto. }
  rewrite not_database in Edb by done.
  destruct (isDNSLabel p) eqn:El.
  - destruct (s_Orgs s !! p) as [oc|] eqn:Eoc.
    + intros [= <- <- <-]. destruct (org_config _ _ Eoc) as (o & Ho & -> & ->). left.
      split; [apply by_name; [done..|by eexists]|eauto].
    + intros [= <- <- <-]. right. split_and!; [done..|]. intros m [n' Hn|n' _ Hn|_ _ _ Hn]; [by eapply Ea|by eapply Edb|].
      apply org_config_Some in Hn as [? Hn]. congruence.
  - intros [= <- <- <-]. right. split_and!; [done..|].
    intros m [n' Hn|n' _ Hn|_ _ ? Hn]; [by eapply Ea|by eapply Edb|congruence].
Qed.
End reflected.

(** The org whose user ResolvePostgresConnection asks for a password, if it gets there. *)
Definition checked_org (s : Snapshot) (startupDatabase sniPrefix : string) (managed : bool) : option string :=
  let r := resolve_sni (Some s) startupDatabase sniPrefix managed in
  let orgID := default "" (s_DatabaseOrg s !! r_EffectiveDatabase r) in
  if bool_decide (r_EffectiveDatabase r = "") || bool_decide (orgID = "")
     || (r_RequiresSNIOrgMatch r && bool_decide (r_SNIOrgID r ≠ orgID))
  then None else Some orgID.

(** What the tables say of the org a login goes to: it owns the database, named by the
    client or implied by the hostname, and a managed hostname names the same org. *)
Definition reaches (d : config_db) (startupDatabase sniPrefix : string) (managed : bool) (n : string) : Prop :=
  n ≠ "" ∧
  (∃ o, d_orgs d !! n = Some o ∧ o_DatabaseName o ≠ "" ∧
        (startupDatabase = o_DatabaseName o ∨ startupDatabase = "" ∧ managed = true)) ∧
  (managed = true → sniPrefix ≠ "" ∧ names_org (d_orgs d) sniPrefix n).

Section reaches.
Context (d : config_db) (s : Snapshot).
Hypotheses (Hd : db_ok d) (Hs : reflects d s).

Lemma database_org db n : db ≠ "" → n ≠ "" → default "" (s_DatabaseOrg s !! db) = n ↔ has_database (d_orgs d) db n.
Proof.
  intros Hdb Hn. destruct (s_DatabaseOrg s !! db) as [m|] eqn:E; cbn.
  - apply (reflects_database d s Hs) in E as [_ Hm]. split; [by intros ->|].
    destruct Hm as (o & Ho & Eo). intros (o' & Ho' & Eo'). eapply (database_unique d Hd); [done..|congruence].
  - split; [congruence|]. intros Hm. by eapply (not_database d s Hs) in E.
Qed.

(** The database a managed hostname implies belongs to the org it names. *)
Lemma implied_database p n0 db0 al n : p ≠ "" → n ≠ "" → resolveSNIPrefixFromSnapshot s p = (n0, db0, al) →
  default "" (s_DatabaseOrg s !! (if bool_decide (db0 = "") then p else db0)) = n ∧ n0 = n ↔
  names_org (d_orgs d) p n ∧ ∃ o, d_orgs d !! n = Some o ∧ o_DatabaseName o ≠ "".
Proof.
  intros Hp Hn Hr. destruct (resolve_prefix d s Hd Hs p n0 db0 al Hp Hr) as [(Hnm & o & Ho & Eo)|(-> & -> & Hno)].
  - case_bool_decide as Edb.
    + subst db0. split.
      * intros [Hdef ->]. exfalso. apply (database_org p n) in Hdef as (o' & Ho' & Eo'); [|done..]. congruence.
      * intros [Hnm' (o' & Ho' & Eo')]. rewrite (names_org_unique d p n n0 Hd Hnm' Hnm) in *. congruence.
    + rewrite (database_org db0 n) by done. split.
      * intros [_ ->]. split; [done|]. exists o. by rewrite Eo.
      * intros [Hnm' _]. rewrite (names_org_unique d p n n0 Hd Hnm' Hnm). split; [by exists o|done].
  - rewrite bool_decide_eq_true_2 by done. split; [intros [_ <-]; done|]. intros [Hnm _]. by destruct (Hno n).
Qed.

Lemma checked_org_Some db p m n : checked_org s db p m = Some n ↔
  let r := resolve_sni (Some s) db p m in
  n ≠ "" ∧ r_EffectiveDatabase r ≠ "" ∧ default "" (s_DatabaseOrg s !! r_EffectiveDatabase r) = n ∧
  (r_RequiresSNIOrgMatch r = true → r_SNIOrgID r = n).
Proof.
  unfold checked_org. cbn zeta. set (r := resolve_sni _ _ _ _). set (o := default _ _).
  destruct (r_RequiresSNIOrgMatch r); cbn; repeat case_bool_decide; cbn;
    (split; [intros [= <-] || done|intros (? & ? & <- & ?)]); try (destruct (decide (r_SNIOrgID r = o)); naive_solver).
Qed.

(** A hostname that names [n] and a database of [n]: the client's or the implied one. *)
Lemma managed_reaches db p n : p ≠ "" →
  checked_org s db p true = Some n ↔ reaches d db p true n.
Proof.
  intros Hp. rewrite checked_org_Some. unfold reaches, resolve_sni. cbn zeta.
  destruct (resolveSNIPrefixFromSnapshot s p) as [[n0 db0] al] eqn:Er. cbn.
  destruct (decide (n = "")) as [->|Hn]; [naive_solver|].
  case_bool_decide as Hdb.
  - subst db. pose proof (implied_database p n0 db0 al n Hp Hn Er) as Himp.
    assert ((if bool_decide (db0 = "") then p else db0) ≠ "") as Hdb1 by (case_bool_decide; done). naive_solver.
  - rewrite (database_org db n) by done.
    pose proof (resolve_prefix d s Hd Hs p n0 db0 al Hp Er) as Hr. split.
    + intros (_ & _ & (o & Ho & <-) & Hm). rewrite (Hm eq_refl) in Hr. destruct Hr as [[? _]|[? _]]; [|done]. eauto 10.
    + intros (_ & (o & Ho & Eo & [->|[? _]]) & Hnm); [|done]. destruct (Hnm eq_refl) as [_ Hnm'].
      split; [done|]. split; [done|]. split; [by exists o|]. intros _.
      destruct Hr as [[? _]|(_ & _ & Hno)]; [by eapply names_org_unique|by destruct (Hno n)].
Qed.

Lemma checked_org_reaches db p m n : checked_org s db p m = Some n ↔ reaches d db p m n.
Proof.
  destruct m; [destruct (decide (p = "")) as [->|Hp]; [|by apply managed_reaches]|];
    rewrite checked_org_Some; unfold reaches, resolve_sni; cbn.
  - split; [naive_solver|]. intros (_ & _ & Hnm). by destruct (Hnm eq_refl).
  - split.
    + intros (Hn & Hdb & Hdef & _). apply database_org in Hdef as (o & Ho & Eo); [|done..]. naive_solver.
    + intros (Hn & (o & Ho & Eo & [->|[_ ?]]) & _); [|done]. split; [done|]. split; [done|]. split; [|done].
      apply database_org; [done..|by exists o].
Qed.
End reaches.

(** What ResolvePostgresConnection answers when the login is refused. *)
Definition refusal (s : Snapshot) (startupDatabase sniPrefix : string) (managed : bool) : PostgresConnectionResolution :=
  let r := resolve_sni (Some s) startupDatabase sniPrefix managed in
  let orgID := default "" (s_DatabaseOrg s !! r_EffectiveDatabase r) in
  if bool_decide (r_EffectiveDatabase r = "") || bool_decide (orgID = "") then r
  else set_org orgID (negb (r_RequiresSNIOrgMatch r && bool_decide (r_SNIOrgID r ≠ orgID))) r.

Section logins.
Context `{Bcrypt}.

Lemma resolve_checked cs s db p m x pw : cs_snapshot cs = Some s →
  ResolvePostgresConnection cs db p m x pw =
  match checked_org s db p m with
  | None => (refusal s db p m, [])
  | Some n =>
      match s_OrgUserPassword s !! (n, x) with
      | None => (refusal s db p m, [dummy_hash])
      | Some h => (if CompareHashAndPassword h pw
                   then set_valid (default false (s_OrgUserPassthrough s !! (n, x))) (refusal s db p m)
                   else refusal s db p m, [h])
      end
  end.
Proof.
  intros E. unfold ResolvePostgresConnection, checked_org, refusal. rewrite E.
  set (r := resolve_sni _ _ _ _). set (o := default _ (s_DatabaseOrg s !! _)).
  case_bool_decide; [done|]. case_bool_decide; [done|]. cbn.
  destruct (_ && _); [done|]. destruct (s_OrgUserPassword s !! (o, x)) as [h|]; [|done].
  by destruct (CompareHashAndPassword h pw).
Qed.

Lemma refusal_spec s db p m : r_Valid (refusal s db p m) = false ∧ r_Passthrough (refusal s db p m) = false ∧
  (∀ n, checked_org s db p m = Some n → r_OrgID (refusal s db p m) = n).
Proof.
  unfold refusal, checked_org.
  assert (r_Valid (resolve_sni (Some s) db p m) = false ∧ r_Passthrough (resolve_sni (Some s) db p m) = false) as [Hv Hp].
  { destruct m; cbn; [|done]. by destruct (resolveSNIPrefixFromSnapshot s p) as [[??]?]. }
  set (r := resolve_sni _ _ _ _) in *. set (o := default _ _).
  destruct (bool_decide _ || bool_decide _); cbn; [done|]. split; [done|]. split; [done|].
  intros n. destruct (_ && _); [done|]. by intros [= <-].
Qed.

(** A login that is granted, by the tables: the org it reaches and the user's row. *)
Definition granted (d : config_db) (startupDatabase sniPrefix : string) (managed : bool)
    (username password n : string) (u : OrgUser) : Prop :=
  reaches d startupDatabase sniPrefix managed n ∧ d_users d !! (n, username) = Some u ∧
  CompareHashAndPassword (u_Password u) password = true.

Lemma granted_spec d s cs db p m x pw n b : db_ok d → reflects d s → cs_snapshot cs = Some s →
  let r := (ResolvePostgresConnection cs db p m x pw).1 in
  (r_Valid r = true ∧ r_OrgID r = n ∧ r_Passthrough r = b) ↔
  ∃ u, granted d db p m x pw n u ∧ u_Passthrough u = b.
Proof.
  intros Hd Hs Es.
  rewrite (resolve_checked _ s) by done. destruct (refusal_spec s db p m) as (Hv & Hpass & Ho). cbn zeta.
  unfold granted. setoid_rewrite <- (checked_org_reaches d s Hd Hs).
  destruct (checked_org s db p m) as [k|] eqn:Ec; [|cbn; rewrite Hv; naive_solver].
  specialize (Ho k eq_refl). destruct (s_OrgUserPassword s !! (k, x)) as [h|] eqn:Eh.
  - apply (reflects_password d s Hs) in Eh as (u & Hu & Eu). rewrite <- Eu.
    rewrite (passthrough_flag d s Hs k x u Hu). cbn.
    destruct (CompareHashAndPassword (u_Password u) pw) eqn:Ecmp; cbn.
    + rewrite Ho. split; [intros (_ & -> & <-); eauto|].
      intros (u' & ([= <-] & Hu' & _) & <-). by simplify_eq.
    + rewrite Hv. split; [by intros [? _]|]. intros (u' & ([= <-] & Hu' & ?) & _). congruence.
  - cbn. rewrite Hv. split; [by intros [? _]|]. intros (u & ([= <-] & Hu & _) & _).
    assert (s_OrgUserPassword s !! (k, x) = Some (u_Password u)) by (apply (reflects_password d s Hs); eauto). congruence.
Qed.

Lemma poll_reflects d a cs cs' ns : db_ok d → answered d a → poll a cs = (cs', ns) →
  ∃ s, cs_snapshot cs' = Some s ∧ reflects d s.
Proof.
  intros Hd Ha. destruct (load_answered d a Ha) as [s Es]. unfold poll. rewrite Es. intros [= <- <-].
  exists s. split; [done|]. by eapply load_reflects.
Qed.

(** C15. After a poll, a login is accepted for an org, with or without passthrough, exactly
    when the tables grant it: the org owns the database, the managed hostname (if that
    is in force) names the same org, and the org's own user has that password. *)
Theorem login_iff_granted d a cs cs' ns db p m x pw n b :
  db_ok d → answered d a → poll a cs = (cs', ns) →
  let r := (ResolvePostgresConnection cs' db p m x pw).1 in
  (r_Valid r = true ∧ r_OrgID r = n ∧ r_Passthrough r = b) ↔
  ∃ u, granted d db p m x pw n u ∧ u_Passthrough u = b.
Proof.
  intros Hd Ha Hp. destruct (poll_reflects d a cs cs' ns Hd Ha Hp) as (s & Es & Hs). by eapply granted_spec.
Qed.

Lemma with_users_ok d n x u : db_ok d → is_Some (d_orgs d !! n) → u_OrgID u = n → u_Username u = x →
  db_ok (with_users (<[(n, x) := u]> (d_users d)) d).
Proof.
  intros [H1 H2 H3 H4] Hn Eo Ex. split; cbn; [done| |done|done].
  intros n' x' u'. destruct (decide ((n, x) = (n', x'))) as [[= <- <-]|Hne].
  - rewrite lookup_insert_eq. by intros [= <-].
  - rewrite lookup_insert_ne by done. apply H2.
Qed.

(** From the poll after a password change, the new password opens the login and every
    password the new hash refuses is refused, the old one included. *)
Theorem password_change_takes_effect d d' a cs cs' ns db p m n x h pw :
  db_ok d → UpdateOrgUserPassword false n x h d = (None, d') → answered d' a → poll a cs = (cs', ns) →
  reaches d db p m n →
  r_Valid (ResolvePostgresConnection cs' db p m x pw).1 = CompareHashAndPassword h pw.
Proof.
  intros Hd Hu Ha Hp Hr. unfold UpdateOrgUserPassword in Hu. cbn in Hu.
  destruct (d_users d !! (n, x)) as [u|] eqn:Eu; [|done]. injection Hu as <-.
  destruct (user_filed d Hd _ _ _ Eu) as (En & Ex & Ho).
  set (u' := {| u_OrgID := _ |}) in *.
  assert (db_ok (with_users (<[(n, x) := u']> (d_users d)) d)) as Hd' by by apply with_users_ok.
  destruct (poll_reflects _ a cs cs' ns Hd' Ha Hp) as (s & Es & Hs).
  pose proof (λ k b, granted_spec _ s cs' db p m x pw k b Hd' Hs Es) as Hg. cbn zeta in Hg.
  set (r := (ResolvePostgresConnection cs' db p m x pw).1) in *.
  apply Bool.eq_true_iff_eq. split.
  - intros Hv. destruct (proj1 (Hg (r_OrgID r) (r_Passthrough r))) as (v & (Hr' & Hv' & Hc) & _); [done|].
    assert (r_OrgID r = n) as E.
    { destruct Hr as (Hn & (o & Ho1 & Ho2 & Hdb) & Hm), Hr' as (Hn' & (o' & Ho1' & Ho2' & Hdb') & Hm').
      destruct m; [eapply (names_org_unique d p); [done|by apply Hm'|by apply Hm]|].
      eapply (database_unique d Hd); [done..|]. destruct Hdb as [?|[? ?]], Hdb' as [?|[? ?]]; congruence. }
    rewrite E in Hv'. cbn in Hv'. rewrite lookup_insert_eq in Hv'. by injection Hv' as <-.
  - intros Hc. destruct (proj2 (Hg n (u_Passthrough u))) as [Hv _]; [|done].
    exists u'. split; [|done]. split; [done|]. cbn. by rewrite lookup_insert_eq.
Qed.

(** A refused login looks the same and takes the same number of comparisons whether the
    user is unknown or the password wrong; and the flag is never shown. *)
Theorem refusals_look_alike cs db p m x pw x' pw' :
  let r := ResolvePostgresConnection cs db p m x pw in
  let r' := ResolvePostgresConnection cs db p m x' pw' in
  length r.2 = length r'.2 ∧
  (r_Valid r.1 = false → r_Valid r'.1 = false → r.1 = r'.1 ∧ r_Passthrough r.1 = false).
Proof.
  cbn zeta. destruct (cs_snapshot cs) as [s|] eqn:E.
  - rewrite !(resolve_checked cs s) by done. destruct (refusal_spec s db p m) as (Hv & Hp & _).
    destruct (checked_org s db p m) as [n|]; [|done].
    destruct (s_OrgUserPassword s !! (n, x)) as [h|], (s_OrgUserPassword s !! (n, x')) as [h'|]; cbn;
      repeat destruct (CompareHashAndPassword _ _); cbn; naive_solver.
  - unfold ResolvePostgresConnection. rewrite E. cbn. by destruct m.
Qed.
End logins.

(** The snapshot is a function of the tables: the order in which the database returns
    rows does not show in it. *)
Theorem snapshot_ignores_row_order d a a' : db_ok d → answered d a → answered d a' →
  a_global a = a_global a' → a_ducklake a = a_ducklake a' → a_ratelimit a = a_ratelimit a' → a_querylog a = a_querylog a' →
  load a = load a'.
Proof.
  intros Hd Ha Ha' E1 E2 E3 E4.
  destruct (load_answered d a Ha) as [s Es], (load_answered d a' Ha') as [s' Es']. rewrite Es, Es'. f_equal.
  pose proof (load_reflects d a s Hd Ha Es) as Hs. pose proof (load_reflects d a' s' Hd Ha' Es') as Hs'.
  unfold load in Es, Es'. destruct (a_orgs a), (a_orgs a'); try done. cbn in Es, Es'. rewrite load_orgs_fill in Es, Es'.
  destruct s as [os dbs als pws pts g dl rl ql], s' as [os' dbs' als' pws' pts' g' dl' rl' ql'].
  assert (g = g' ∧ dl = dl' ∧ rl = rl' ∧ ql = ql') as (-> & -> & -> & ->).
  { injection Es as _ _ _ _ _ <- <- <- <-. injection Es' as _ _ _ _ _ <- <- <- <-. by rewrite E1, E2, E3, E4. }
  clear Es Es'. destruct Hs as [A1 A2 A3 A4 A5], Hs' as [B1 B2 B3 B4 B5].
  cbn [s_Orgs s_DatabaseOrg s_HostnameAliasOrg s_OrgUserPassword s_OrgUserPassthrough] in *.
  f_equal; apply map_eq; intros k; apply option_eq; intros v; try destruct k;
    first [by rewrite A1, B1|by rewrite A2, B2|by rewrite A3, B3|by rewrite A4, B4|by rewrite A5, B5].
Qed.

(** * The scan over all orgs *)

Section scan.
Context `{Bcrypt}.

Lemma find_user_only order x pw n h : NoDup order.*1 → ((n, x), h) ∈ order → (∀ m h', ((m, x), h') ∈ order → m = n) →
  (find_user order x pw).1 = if CompareHashAndPassword h pw then Some n else None.
Proof.
  induction order as [|[[m y] h'] order IH]; [set_solver|]. cbn. intros [Hno Hnd]%NoDup_cons Hin Hu.
  case_bool_decide as Ey.
  - subst y. assert (m = n) as -> by (apply (Hu m h'); set_solver).
    apply elem_of_cons in Hin as [[= ->]|Hin]; [done|]. exfalso. apply Hno. apply list_elem_of_fmap. by exists ((n, x), h).
  - apply elem_of_cons in Hin as [[=]|Hin]; [by subst|]. apply IH; [done..|]. intros k h'' Hk. apply (Hu k h''). set_solver.
Qed.

(** FindAndValidateUser is right for a username that one org only has, whatever the
    order of the map. *)
Theorem scan_finds_the_only_user cs s order x pw n : cs_snapshot cs = Some s → range_order cs order →
  (∀ m, is_Some (s_OrgUserPassword s !! (m, x)) ↔ m = n) →
  (FindAndValidateUser cs order x pw).1 = (if (ValidateOrgUser cs n x pw).1 then Some n else None).
Proof.
  unfold range_order, FindAndValidateUser, ValidateOrgUser. intros -> Hr Hu.
  destruct (proj2 (Hu n) eq_refl) as [h Eh]. rewrite Eh. cbn.
  apply (find_user_only order x pw n h).
  - rewrite Hr. apply NoDup_fst_map_to_list.
  - rewrite Hr. by apply elem_of_map_to_list.
  - intros m h'. rewrite Hr, elem_of_map_to_list. intros Hm. apply Hu. by eexists.
Qed.
End scan.

(** * Changes of a warehouse's state *)

(** Concurrent attempts to move one warehouse out of the same state, in the order the
    database takes them. *)
Fixpoint race (orgID expected : string) (attempts : list (bool * (ManagedWarehouse → ManagedWarehouse))) (d : config_db)
    : list (option db_err) * config_db :=
  match attempts with
  | [] => ([], d)
  | (fault, updates) :: rest =>
      let '(e, d1) := UpdateWarehouseState fault orgID expected updates d in
      let '(es, d2) := race orgID expected rest d1 in
      (e :: es, d2)
  end.

Definition winners (es : list (option db_err)) : nat := length (filter (λ e, e = None) es).

Lemma race_lost orgID expected ats : ∀ d, (∀ w, d_warehouses d !! orgID = Some w → w_State w ≠ expected) →
  winners (race orgID expected ats d).1 = 0%nat ∧ (race orgID expected ats d).2 = d.
Proof.
  induction ats as [|[fault f] ats IH]; intros d Hd; [done|].
  cbn. assert (∃ e, UpdateWarehouseState fault orgID expected f d = (Some e, d)) as [e ->].
  { unfold UpdateWarehouseState. destruct fault; [by eexists|].
    destruct (d_warehouses d !! orgID) as [w|]; [|by eexists].
    rewrite bool_decide_eq_false_2 by auto. by eexists. }
  specialize (IH d Hd). destruct (race orgID expected ats d) as [es d2]. cbn in *. destruct IH as [Hw ->]. done.
Qed.

(** Of any number of attempts to move a warehouse out of a state exactly one succeeds,
    the first the database does not fail, and the row is what that one wrote. *)
Theorem state_change_has_one_winner orgID expected ats d w :
  d_warehouses d !! orgID = Some w → w_State w = expected →
  Forall (λ a, ∀ v, w_State (a.2 v) ≠ expected) ats → Exists (λ a, a.1 = false) ats →
  let '(es, d') := race orgID expected ats d in
  winners es = 1%nat ∧
  ∃ f, head (filter (λ a, a.1 = false) ats) = Some (false, f) ∧ d_warehouses d' !! orgID = Some (f w).
Proof.
  intros Hw Es. induction ats as [|[fault f] ats IH]; intros Hf Hex; [by apply Exists_nil in Hex|].
  apply Forall_cons in Hf as [Hf1 Hf2]. cbn. unfold UpdateWarehouseState. destruct fault.
  - apply Exists_cons in Hex as [?|Hex]; [done|]. specialize (IH Hf2 Hex).
    destruct (race orgID expected ats d) as [es d']. exact IH.
  - rewrite Hw, bool_decide_eq_true_2 by done.
    pose proof (race_lost orgID expected ats (with_warehouses (<[orgID := f w]> (d_warehouses d)) d)) as Hl.
    destruct Hl as [Hn Hd']; [intros w'; cbn; rewrite lookup_insert_eq; intros [= <-]; apply Hf1|].
    clear IH. destruct (race orgID expected ats _) as [es d']. cbn [fst snd] in Hn, Hd'. subst d'.
    split; [change (S (winners es) = 1%nat); by rewrite Hn|]. exists f. cbn. by rewrite lookup_insert_eq.
Qed.

(** * Migrations *)

Definition recorded (name : string) (d : config_db) : config_db :=
  {| d_orgs := d_orgs d; d_users := d_users d; d_warehouses := d_warehouses d;
     d_ducklake_delta := d_ducklake_delta d; d_migrations := {[ name ]} ∪ d_migrations d |}.

Lemma one_shot_done name change fault d d' : one_shot name change fault d = (true, d') →
  (name ∈ d_migrations d ∧ d' = d) ∨ (name ∉ d_migrations d ∧ d' = recorded name (change d)).
Proof.
  unfold one_shot. destruct (bool_decide (fault = Some 0%nat)); [done|].
  destruct (bool_decide (name ∈ d_migrations d)) eqn:E; [apply bool_decide_eq_true in E|apply bool_decide_eq_false in E].
  - intros [= <-]. by left.
  - destruct (bool_decide (fault ≠ None)); [done|]. intros [= <-]. by right.
Qed.

Lemma one_shot_again name change fault d : name ∈ d_migrations d → (one_shot name change fault d).2 = d.
Proof. intros Hin. unfold one_shot. rewrite (bool_decide_eq_true_2 (name ∈ _)) by done. by case_bool_decide. Qed.

(** Once a migration succeeded it never touches the tables again, whatever was changed
    in between; and when it applies, it leaves every warehouse enabled. *)
Theorem migration_applies_once fault fault' d d1 d2 :
  migrateDeltaCatalogDefaultEnabled fault d = (true, d1) → d_migrations d1 ⊆ d_migrations d2 →
  (migrateDeltaCatalogDefaultEnabled fault' d2).2 = d2 ∧
  (deltaCatalogDefaultMigrationName ∉ d_migrations d →
   ∀ n w, d_warehouses d1 !! n = Some w → w_DeltaCatalogEnabled w = true).
Proof.
  intros H1%one_shot_done Hsub. split.
  - apply one_shot_again, Hsub. destruct H1 as [[? ->]|[_ ->]]; [done|]. cbn. set_solver.
  - intros Hno n w. destruct H1 as [[? _]|[_ ->]]; [done|]. cbn. rewrite lookup_fmap.
    destruct (d_warehouses d !! n); cbn; [|done]. by intros [= <-].
Qed.

(** * Secret references *)

(** A warehouse that passes the validation keeps its checked references in its own
    namespace and under its own name. *)
Theorem checked_refs_stay_with_tenant orgID def w : ValidateManagedWarehouseSecretRefs orgID def (Some w) = None →
  ∀ field ref, (field, ref) ∈ checked_refs w → SecretRefEmpty ref = false →
  TrimSpace (sr_Namespace ref) = TrimSpace (TrimSpace (w_IdentityNamespace w)) ∧ TrimSpace (sr_Namespace ref) ≠ "" ∧
  TrimSpace (sr_Key ref) ≠ "" ∧
  (TrimSpace orgID ≠ "" → HasPrefix (TrimSpace (sr_Name ref)) (TrimSpace orgID ++ "-") = true).
Proof.
  cbn [ValidateManagedWarehouseSecretRefs]. generalize (checked_refs w) as refs.
  induction refs as [|[f r] refs IH]; [set_solver|]. cbn [first_ref_error].
  destruct (ValidateTenantSecretRef _ _ _ f r) eqn:E; [done|]. intros Hrest field ref Hin Hne.
  apply elem_of_cons in Hin as [[= -> ->]|Hin]; [|by eapply IH].
  revert E. unfold ValidateTenantSecretRef, tenantSecretNamePrefix. rewrite Hne.
  repeat (case_bool_decide; cbn; try done); intros E; split_and!; try done; try congruence.
  - intros _. by destruct (HasPrefix _ _).
  - by destruct (TrimSpace orgID).
Qed.

Definition no_ref : SecretRef := {| sr_Namespace := ""; sr_Name := ""; sr_Key := "" |}.
Definition stray_warehouse : ManagedWarehouse :=
  {| w_State := StateReady; w_DeltaCatalogEnabled := true;
     w_Iceberg := {| ice_Backend := ""; ice_TableBucketArn := "";
       ice_LakekeeperClientCredentials := {| sr_Namespace := "globex"; sr_Name := "globex-oauth"; sr_Key := "secret" |} |};
     w_IdentityNamespace := "acme"; w_WarehouseDatabaseCredentials := no_ref; w_MetadataStoreCredentials := no_ref;
     w_S3Credentials := no_ref; w_RuntimeConfig := no_ref |}.

(** The reference to the Lakekeeper secret is not among the checked ones: a warehouse of
    one tenant passes with the namespace and name of another's; and a name may carry
    the prefix of two tenants at once. *)
Theorem secret_refs_can_stray :
  (ValidateManagedWarehouseSecretRefs "acme" "" (Some stray_warehouse) = None ∧
   ResolvedBackend (w_Iceberg stray_warehouse) = IcebergBackendLakekeeper ∧
   ValidateTenantSecretRef "acme" "acme" "" "lakekeeper"
     (ice_LakekeeperClientCredentials (w_Iceberg stray_warehouse)) ≠ None) ∧
  (let ref := {| sr_Namespace := "shared"; sr_Name := "acme-eu-db"; sr_Key := "password" |} in
   ValidateTenantSecretRef "acme" "shared" "" "s3" ref = None ∧
   ValidateTenantSecretRef "acme-eu" "shared" "" "s3" ref = None).
Proof. split; [split_and!; [by vm_compute..|]|by vm_compute]. by vm_compute. Qed.

(** * The theorems at work on two tenants *)

#[local] Instance plain_bcrypt : Bcrypt :=
  {| CompareHashAndPassword h p := bool_decide (h = "h:" ++ p); GenerateFromPassword p := Some ("h:" ++ p) |}.

#[local] Instance plain_bcrypt_laws : BcryptLaws.
Proof. constructor. intros p h [= <-]. by apply bool_decide_eq_true. Qed.

Definition tenant (name db : string) (alias : option string) : OrgRow :=
  {| o_Name := name; o_DatabaseName := db; o_HostnameAlias := alias; o_MaxWorkers := 0; o_MaxConnections := 0;
     o_MemoryBudget := ""; o_IdleTimeoutS := 0; o_WorkerCPURequest := ""; o_WorkerMemoryRequest := "" |}.
Definition login (org user hash : string) (pass : bool) : OrgUser :=
  {| u_OrgID := org; u_Username := user; u_Password := hash; u_Passthrough := pass |}.

Definition two_tenants : config_db :=
  {| d_orgs := <["acme" := tenant "acme" "acme_db" (Some "wildcat")]> {["globex" := tenant "globex" "globex" None]};
     d_users := <[("acme", "alice") := login "acme" "alice" "h:a" false]>
                {[("globex", "alice") := login "globex" "alice" "h:g" true]};
     d_warehouses := {["acme" := stray_warehouse]}; d_ducklake_delta := false; d_migrations := ∅ |}.

Lemma two_tenants_ok : db_ok two_tenants.
Proof.
  split; cbn; [intros n o|intros n x u|intros n n' o o'|intros n n' o o' a];
    rewrite ?lookup_insert_Some, ?lookup_singleton_Some.
  - naive_solver.
  - intros [[[= <- <-] <-]|[_ [[= <- <-] <-]]]; split_and!; try done; by eexists.
  - intros [[<- <-]|[_ [<- <-]]] [[<- <-]|[_ [<- <-]]]; done.
  - intros [[<- <-]|[_ [<- <-]]] [[<- <-]|[_ [<- <-]]]; done.
Qed.

(** The answers of a database that returns its rows in the order of the maps. *)
Definition answers_of (d : config_db) : answers :=
  {| a_orgs := Some (preload d (rows (d_users d)) <$> rows (d_orgs d)); a_global := Some []; a_ducklake := None;
     a_ratelimit := Some []; a_querylog := Some [] |}.
Definition reversed_answers_of (d : config_db) : answers :=
  {| a_orgs := Some (preload d (reverse (rows (d_users d))) <$> reverse (rows (d_orgs d))); a_global := Some [];
     a_ducklake := None; a_ratelimit := Some []; a_querylog := Some [] |}.

Lemma answers_of_answered d : answered d (answers_of d).
Proof. by exists (rows (d_orgs d)), (rows (d_users d)). Qed.
Lemma reversed_answers_of_answered d : answered d (reversed_answers_of d).
Proof. exists (reverse (rows (d_orgs d))), (reverse (rows (d_users d))). split_and!; [apply reverse_Permutation..|done]. Qed.

Definition new_store : ConfigStore := {| cs_snapshot := None; cs_onChange := [7%nat] |}.
Definition polled (d : config_db) : ConfigStore := (poll (answers_of d) new_store).1.

Lemma login_iff_granted_witness :
  ∃ u, granted two_tenants "" "wildcat" true "alice" "a" "acme" u ∧ u_Passthrough u = false.
Proof.
  apply (login_iff_granted two_tenants (answers_of two_tenants) new_store (polled two_tenants)
    (poll (answers_of two_tenants) new_store).2 "" "wildcat" true "alice" "a" "acme" false
    two_tenants_ok (answers_of_answered _)); [reflexivity|]. vm_compute. done.
Defined.

Lemma snapshot_ignores_row_order_witness :
  load (answers_of two_tenants) = load (reversed_answers_of two_tenants).
Proof.
  apply (snapshot_ignores_row_order two_tenants); [apply two_tenants_ok|apply answers_of_answered|
    apply reversed_answers_of_answered|done..].
Defined.

Definition changed_tenants : config_db := (UpdateOrgUserPassword false "acme" "alice" "h:new" two_tenants).2.

Lemma password_change_takes_effect_witness :
  r_Valid (ResolvePostgresConnection (polled changed_tenants) "acme_db" "" false "alice" "a").1 = false ∧
  r_Valid (ResolvePostgresConnection (polled changed_tenants) "acme_db" "" false "alice" "new").1 = true.
Proof.
  assert (reaches two_tenants "acme_db" "" false "acme") as Hr.
  { split; [done|]. split; [|done]. exists (tenant "acme" "acme_db" (Some "wildcat")). split; [done|]. split; [done|]. by left. }
  split; rewrite (password_change_takes_effect two_tenants changed_tenants (answers_of changed_tenants) new_store
    (polled changed_tenants) (poll (answers_of changed_tenants) new_store).2 "acme_db" "" false "acme" "alice" "h:new" _
    two_tenants_ok eq_refl (answers_of_answered _) eq_refl Hr); reflexivity.
Defined.

(** A store that knows these passwords and nothing else. *)
Definition password_store (m : gmap OrgUserKey string) : ConfigStore :=
  {| cs_snapshot := Some {| s_Orgs := ∅; s_DatabaseOrg := ∅; s_HostnameAliasOrg := ∅; s_OrgUserPassword := m;
       s_OrgUserPassthrough := ∅; s_Global := []; s_DuckLake := []; s_RateLimit := []; s_QueryLog := [] |};
     cs_onChange := [] |}.

Lemma scan_finds_the_only_user_witness :
  (FindAndValidateUser (password_store {[("globex", "bob") := "h:b"]}) [(("globex", "bob"), "h:b")] "bob" "b").1
  = Some "globex".
Proof.
  rewrite (scan_finds_the_only_user (password_store {[("globex", "bob") := "h:b"]}) _ _ "bob" "b" "globex" eq_refl);
    [done|unfold range_order; cbn; by rewrite map_to_list_singleton|].
  intros m. cbn. unfold is_Some. setoid_rewrite lookup_singleton_Some. naive_solver.
Defined.

(** With one username in two orgs the scan looks at a single one of them, the first the
    runtime happens to visit: the right password of the other org is refused. *)
Theorem scan_can_refuse_a_valid_login :
  let cs := password_store (<[("acme", "alice") := "h:a"]> {[("globex", "alice") := "h:g"]}) in
  (ValidateOrgUser cs "globex" "alice" "g").1 = true ∧
  ∃ order order', range_order cs order ∧ range_order cs order' ∧
    (FindAndValidateUser cs order "alice" "g").1 = None ∧
    (FindAndValidateUser cs order' "alice" "g").1 = Some "globex".
Proof.
  split; [done|].
  exists [(("acme", "alice"), "h:a"); (("globex", "alice"), "h:g")], [(("globex", "alice"), "h:g"); (("acme", "alice"), "h:a")].
  assert (map_to_list (<[("acme", "alice") := "h:a"]> {[("globex", "alice") := "h:g"]} : gmap OrgUserKey string)
    ≡ₚ [(("acme", "alice"), "h:a"); (("globex", "alice"), "h:g")]) as E.
  { rewrite map_to_list_insert by done. by rewrite map_to_list_singleton. }
  unfold range_order. cbn [cs_snapshot password_store s_OrgUserPassword]. rewrite E.
  split; [done|]. split; [constructor|done].
Qed.

Definition to_ready (w : ManagedWarehouse) : ManagedWarehouse :=
  {| w_State := StateReady; w_DeltaCatalogEnabled := w_DeltaCatalogEnabled w; w_Iceberg := w_Iceberg w;
     w_IdentityNamespace := w_IdentityNamespace w; w_WarehouseDatabaseCredentials := w_WarehouseDatabaseCredentials w;
     w_MetadataStoreCredentials := w_MetadataStoreCredentials w; w_S3Credentials := w_S3Credentials w;
     w_RuntimeConfig := w_RuntimeConfig w |}.
Definition to_failed (w : ManagedWarehouse) : ManagedWarehouse :=
  {| w_State := StateFailed; w_DeltaCatalogEnabled := w_DeltaCatalogEnabled w; w_Iceberg := w_Iceberg w;
     w_IdentityNamespace := w_IdentityNamespace w; w_WarehouseDatabaseCredentials := w_WarehouseDatabaseCredentials w;
     w_MetadataStoreCredentials := w_MetadataStoreCredentials w; w_S3Credentials := w_S3Credentials w;
     w_RuntimeConfig := w_RuntimeConfig w |}.
Definition to_provisioning (w : ManagedWarehouse) : ManagedWarehouse :=
  {| w_State := StateProvisioning; w_DeltaCatalogEnabled := w_DeltaCatalogEnabled w; w_Iceberg := w_Iceberg w;
     w_IdentityNamespace := w_IdentityNamespace w; w_WarehouseDatabaseCredentials := w_WarehouseDatabaseCredentials w;
     w_MetadataStoreCredentials := w_MetadataStoreCredentials w; w_S3Credentials := w_S3Credentials w;
     w_RuntimeConfig := w_RuntimeConfig w |}.

Definition provisioning_tenants : config_db :=
  with_warehouses {["acme" := to_provisioning stray_warehouse]} two_tenants.

Lemma state_change_has_one_winner_witness :
  winners (race "acme" StateProvisioning [(true, to_ready); (false, to_failed); (false, to_ready)] provisioning_tenants).1 = 1%nat.
Proof.
  pose proof (state_change_has_one_winner "acme" StateProvisioning [(true, to_ready); (false, to_failed); (false, to_ready)]
    provisioning_tenants (to_provisioning stray_warehouse) eq_refl eq_refl) as H.
  destruct (race _ _ _ _) as [es d']. apply H; [repeat constructor; done|]. right. by left.
Defined.

Lemma migration_applies_once_witness :
  (migrateDeltaCatalogDefaultEnabled None (migrateDeltaCatalogDefaultEnabled None two_tenants).2).2
  = (migrateDeltaCatalogDefaultEnabled None two_tenants).2.
Proof. by apply (migration_applies_once None None two_tenants (migrateDeltaCatalogDefaultEnabled None two_tenants).2). Defined.

Definition tidy_warehouse : ManagedWarehouse :=
  {| w_State := StateReady; w_DeltaCatalogEnabled := true; w_Iceberg := w_Iceberg stray_warehouse;
     w_IdentityNamespace := "acme-ns"; w_WarehouseDatabaseCredentials := no_ref; w_MetadataStoreCredentials := no_ref;
     w_S3Credentials := {| sr_Namespace := " acme-ns"; sr_Name := "acme-s3"; sr_Key := "key" |}; w_RuntimeConfig := no_ref |}.

Lemma checked_refs_stay_with_tenant_witness :
  HasPrefix (TrimSpace (sr_Name (w_S3Credentials tidy_warehouse))) (TrimSpace "acme" ++ "-") = true.
Proof.
  apply (checked_refs_stay_with_tenant "acme" "" tidy_warehouse eq_refl "s3_credentials"); [|done..].
  cbn. set_solver.
Defined.
