(* ===== verification/FlightStream.v ===== *)
(** The parts of the Flight SQL ingress that have no state of their own
    (src/server/flightsqlingress/ingress.go): the Basic credentials of a request, the
    statement a schema is inferred from, the metadata queries, and the cutting of a
    result into record batches. *)

From Stdlib Require Import Strings.Byte.
From stdpp Require Import prelude gmap strings list.
From Stdlib Require Import ZArith Lia.
From S2P Require Import Prelude GoText Wire.

Open Scope Z_scope.

(** * encoding/base64: StdEncoding and RawStdEncoding *)

Definition b64_val (b : byte) : option Z :=
  let v := byte_val b in
  if byte_in 65 90 b then Some (v - 65) else if byte_in 97 122 b then Some (v - 71)
  else if byte_in 48 57 b then Some (v + 4) else if bool_decide (b = x2b) then Some 62
  else if bool_decide (b = x2f) then Some 63 else None.

(** The bytes of the leading 8-bit groups of [n] digits. *)
Definition b64_bytes (ds : list Z) : list byte :=
  match ds with
  | [a; b] => [byte_of_Z (a * 4 + b / 16)]
  | [a; b; c] => [byte_of_Z (a * 4 + b / 16); byte_of_Z (b * 16 + c / 4)]
  | [a; b; c; d] => [byte_of_Z (a * 4 + b / 16); byte_of_Z (b * 16 + c / 4); byte_of_Z (c * 64 + d)]
  | _ => []
  end.

(** Decoding by quanta of four digits. Padding is accepted only as the end of the last
    quantum of a padded encoding; an unpadded encoding may end after two or three
    digits. Bits beyond the last byte are not looked at. *)
Fixpoint b64_quanta (padded : bool) (l : list byte) : option (list byte) :=
  match l with
  | [] => Some []
  | a :: b :: c :: d :: l' =>
      va ← b64_val a; vb ← b64_val b;
      if padded && bool_decide (c = x3d ∧ d = x3d ∧ l' = []) then Some (b64_bytes [va; vb]) else
      vc ← b64_val c;
      if padded && bool_decide (d = x3d ∧ l' = []) then Some (b64_bytes [va; vb; vc]) else
      vd ← b64_val d;
      rest ← b64_quanta padded l';
      Some (b64_bytes [va; vb; vc; vd] ++ rest)
  | [a; b; c] => if padded then None else va ← b64_val a; vb ← b64_val b; vc ← b64_val c; Some (b64_bytes [va; vb; vc])
  | [a; b] => if padded then None else va ← b64_val a; vb ← b64_val b; Some (b64_bytes [va; vb])
  | [_] => None
  end.

(** [DecodeString]: line breaks are skipped wherever they are. *)
Definition b64_decode (padded : bool) (l : list byte) : option (list byte) :=
  b64_quanta padded (filter (λ b, b ≠ x0a ∧ b ≠ x0d) l).

Inductive basic_err := ExpectedBasic | InvalidEncoding | InvalidPayload | UsernameRequired.

Definition parseBasicCredentials (authHeader : string) : (string * string) + basic_err :=
  match split2 x20 (bytes (TrimSpace authHeader)) with
  | [scheme; payload] =>
      if bool_decide (fold_word (bytes "basic") scheme ≠ Some []) then inr ExpectedBasic else
      match (match b64_decode true payload with Some d => Some d | None => b64_decode false payload end) with
      | None => inr InvalidEncoding
      | Some creds =>
          match index_byte x3a creds with
          | None => inr InvalidPayload
          | Some sep =>
              let username := str (take sep creds) in
              let password := str (drop (S sep) creds) in
              if bool_decide (username = ""%string) then inr UsernameRequired else inl (username, password)
          end
      end
  | _ => inr ExpectedBasic
  end.

(** The header a client makes of its credentials. *)
Definition basic_header (username password : string) : string :=
  str (bytes "Basic " ++ base64 (bytes username ++ [x3a] ++ bytes password)).

(** * The statement a schema is inferred from *)

Section schema.
Context `{UnicodeCase}.

Definition supportsLimit (upper : string) : bool :=
  let s := TrimSpace upper in
  HasPrefix s "SELECT" || HasPrefix s "WITH" || HasPrefix s "VALUES" || HasPrefix s "TABLE" || HasPrefix s "FROM".

(** [strings.TrimRight(s, ";")] *)
Fixpoint drop_semicolons (rev : list byte) : list byte :=
  match rev with
  | x3b :: rest => drop_semicolons rest
  | _ => rev
  end.

(** The text getQuerySchema runs, or its refusal. *)
Definition schema_statement (query : string) : option string :=
  let q := str (reverse (drop_semicolons (reverse (bytes (TrimSpace query))))) in
  let upper := ToUpper q in
  if negb (supportsLimit upper) then None
  else Some (if negb (Contains upper "LIMIT") && supportsLimit upper then q +:+ " LIMIT 0" else q)%string.
End schema.

(** * Metadata queries *)

(** A query under construction: its text and its arguments. *)
Definition bound : Type := string * list string.

(** One optional filter: appended with the number of its argument when it is set. *)
Definition add_filter (text : string) (v : option string) (q : bound) : bound :=
  match v with
  | Some x => if bool_decide (x = ""%string) then q
              else ((q.1 +:+ " AND " +:+ text +:+ " $" +:+ fmt_d (Z.of_nat (S (length q.2))))%string, q.2 ++ [x])
  | None => q
  end.

Definition schemas_query (catalog pattern : option string) : bound :=
  let q := ("SELECT catalog_name, schema_name AS db_schema_name FROM information_schema.schemata WHERE 1=1"%string, []) in
  let q := add_filter "schema_name LIKE" pattern (add_filter "catalog_name =" catalog q) in
  ((q.1 +:+ " ORDER BY catalog_name, db_schema_name")%string, q.2).

Definition placeholders (first : nat) (n : nat) : string :=
  str (join (bytes ", ") ((λ i, bytes ("$" +:+ fmt_d (Z.of_nat i))) <$> seq first n)).

Definition tables_query (catalog schemaPattern tablePattern : option string) (tableTypes : list string) : bound :=
  let q := ("SELECT table_catalog, table_schema, table_name, table_type FROM information_schema.tables WHERE 1=1"%string, []) in
  let q := add_filter "table_name LIKE" tablePattern
             (add_filter "table_schema LIKE" schemaPattern (add_filter "table_catalog =" catalog q)) in
  let q := match tableTypes with
           | [] => q
           | _ => ((q.1 +:+ " AND table_type IN (" +:+ placeholders (S (length q.2)) (length tableTypes) +:+ ")")%string,
                   q.2 ++ tableTypes)
           end in
  ((q.1 +:+ " ORDER BY table_catalog, table_schema, table_name")%string, q.2).

Definition columns_query (catalog schemaPattern tablePattern : option string) : bound :=
  let q := ("SELECT table_catalog, table_schema, table_name, column_name, data_type, is_nullable FROM information_schema.columns WHERE 1=1"%string, []) in
  let q := add_filter "table_name LIKE" tablePattern
             (add_filter "table_schema LIKE" schemaPattern (add_filter "table_catalog =" catalog q)) in
  ((q.1 +:+ " ORDER BY table_catalog, table_schema, table_name, ordinal_position")%string, q.2).

(** * Record batches *)

Section batches.
Context {V : Type}.

(** A result still to be read: a row, or the error its Scan gives, and the error that
    [Err] reports once [Next] has returned false. *)
Record rowset := { rs_rows : list (V + string); rs_err : option string }.

Inductive batch_end := Exhausted | Full | ScanFailed (e : string).

(** The loop of rowSetToRecord with room for [room] more rows. [Next] is asked first, so
    the row it moves to is passed over when there is no room for it. *)
Fixpoint fill_batch (room : nat) (rows : list (V + string)) {struct rows} : list V * batch_end * list (V + string) :=
  match rows with
  | [] => ([], Exhausted, [])
  | r :: rest =>
      match room with
      | O => ([], Full, rest)
      | S room' =>
          match r with
          | inr e => ([], ScanFailed e, rest)
          | inl v => let '(vs, fin, rest') := fill_batch room' rest in (v :: vs, fin, rest')
          end
      end
  end.

Definition rowSetToRecord (batchSize : nat) (rs : rowset) : (option (list V) + string) * rowset :=
  let '(vs, fin, rest) := fill_batch batchSize (rs_rows rs) in
  let rs' := {| rs_rows := rest; rs_err := rs_err rs |} in
  let record := match vs with [] => None | _ => Some vs end in
  match fin, rs_err rs with
  | ScanFailed e, _ => (inr e, rs')
  | Exhausted, Some e => (inr e, rs')
  | _, _ => (inl record, rs')
  end.

Inductive chunk := Data (rows : list V) | StreamErr (e : string).

(** The goroutine of DoGetStatement, DoGetPreparedStatement, DoGetDBSchemas and
    DoGetTables: [client] is how many chunks are taken before the request's context is
    done, if it ever is. *)
Fixpoint stream (fuel : nat) (client : option nat) (batchSize : nat) (rs : rowset) : list chunk :=
  match fuel with
  | O => []
  | S fuel' =>
      match rowSetToRecord batchSize rs, client with
      | (inr e, _), Some O => []
      | (inr e, _), _ => [StreamErr e]
      | (inl None, _), _ => []
      | (inl (Some _), _), Some O => []
      | (inl (Some vs), rs'), Some (S n) => Data vs :: stream fuel' (Some n) batchSize rs'
      | (inl (Some vs), rs'), None => Data vs :: stream fuel' None batchSize rs'
      end
  end.

Definition flightBatchSize : nat := Z.to_nat 1024.

(** All that a client which stays gets of a result. *)
Definition stream_all (rs : rowset) : list chunk := stream (S (length (rs_rows rs))) None flightBatchSize rs.

Definition chunk_rows (c : chunk) : list V := match c with Data vs => vs | StreamErr _ => [] end.
Definition delivered (cs : list chunk) : list V := cs ≫= chunk_rows.
End batches.
Arguments rowset : clear implicits.
Arguments chunk : clear implicits.

(** * What of a result is delivered *)

Section delivered.
Context {V : Type}.

(** The rows left when one is dropped after every [n]; [room] before the next drop. *)
Fixpoint kept (n room : nat) (rows : list V) {struct rows} : list V :=
  match rows with
  | [] => []
  | v :: rest => match room with O => kept n n rest | S room' => v :: kept n room' rest end
  end.

Lemma fill_batch_kept n room (rows : list V) : ∃ vs fin rest,
  fill_batch room (inl <$> rows) = (vs, fin, inl <$> rest) ∧ kept n room rows = vs ++ kept n n rest ∧
  (length rest ≤ length rows)%nat ∧
  (fin = Exhausted ∧ rest = [] ∨ fin = Full ∧ (length rest < length rows)%nat ∧ length vs = room).
Proof.
  revert room. induction rows as [|v rows IH]; intros room; cbn.
  { exists [], Exhausted, []. split; [done|]. split; [done|]. split; [done|]. by left. }
  destruct room as [|room].
  - exists [], Full, rows. split; [done|]. split; [done|]. split; [cbn; lia|]. right. split_and!; [done|lia|done].
  - destruct (IH room) as (vs & fin & rest & -> & -> & Hle & Hfin).
    exists (v :: vs), fin, rest. split; [done|]. split; [done|]. split; [lia|].
    destruct Hfin as [[-> ->]|(-> & Hlt & <-)]; [by left|right]. cbn. split_and!; [done|lia|done].
Qed.

Lemma stream_kept n : (0 < n)%nat → ∀ fuel (rows : list V), (length rows < fuel)%nat →
  delivered (stream fuel None n {| rs_rows := inl <$> rows; rs_err := None |}) = kept n n rows.
Proof.
  intros Hn fuel. induction fuel as [|fuel IH]; intros rows Hf; [lia|].
  cbn [stream]. unfold rowSetToRecord. cbn [rs_rows rs_err].
  destruct (fill_batch_kept n n rows) as (vs & fin & rest & -> & -> & Hle & Hfin).
  destruct Hfin as [[-> ->]|(-> & Hlt & Hl)].
  - destruct vs as [|v vs]; [done|]. cbn. rewrite !app_nil_r. destruct fuel; cbn; [|by rewrite app_nil_r].
    by rewrite app_nil_r.
  - destruct vs as [|v vs]; [cbn in Hl; lia|]. cbn -[delivered]. unfold delivered in *. cbn. by rewrite IH by lia.
Qed.

Lemma kept_lookup n (rows : list V) : (0 < n)%nat → ∀ room j, (room ≤ n)%nat →
  kept n room rows !! j = rows !! (j + (j + (n - room)) / n)%nat.
Proof.
  intros Hn. induction rows as [|v rows IH]; intros room j Hr; [by rewrite !lookup_nil|].
  cbn [kept]. destruct room as [|room].
  - rewrite IH by lia. replace (j + (n - 0))%nat with (j + 1 * n)%nat by lia. rewrite Nat.div_add by lia.
    replace (n - n)%nat with 0%nat by lia. rewrite Nat.add_0_r.
    by replace (j + (j / n + 1))%nat with (S (j + j / n)) by lia.
  - destruct j as [|j].
    + rewrite Nat.div_small by lia. done.
    + replace (S j + (n - S room))%nat with (j + (n - room))%nat by lia. apply (IH room j). lia.
Qed.

Lemma kept_length n (rows : list V) : (0 < n)%nat → ∀ room, (room ≤ n)%nat →
  (length (kept n room rows) + (length rows + (n - room)) / S n = length rows)%nat.
Proof.
  intros Hn. induction rows as [|v rows IH]; intros room Hr; cbn [kept length].
  - rewrite Nat.div_small by lia. lia.
  - destruct room as [|room].
    + specialize (IH n ltac:(lia)). replace (n - n)%nat with 0%nat in IH by lia. rewrite Nat.add_0_r in IH.
      replace (S (length rows) + (n - 0))%nat with (length rows + 1 * S n)%nat by lia. rewrite Nat.div_add by lia. lia.
    + specialize (IH room ltac:(lia)). cbn [length].
      replace (S (length rows) + (n - S room))%nat with (length rows + (n - room))%nat by lia. lia.
Qed.

(** Of a result that raises no error a Flight client gets 1024 rows, then loses one,
    and so on: the j-th row delivered is row j + j/1024 of the result, one row in 1025
    is missing, and the result is complete exactly when it fits one batch. *)
Theorem stream_drops_a_row_per_batch (rows : list V) :
  let d := delivered (stream_all {| rs_rows := inl <$> rows; rs_err := None |}) in
  (length d + length rows / S flightBatchSize = length rows)%nat ∧
  (∀ j, d !! j = rows !! (j + j / flightBatchSize)%nat) ∧
  (d = rows ↔ (length rows ≤ flightBatchSize)%nat).
Proof.
  cbn zeta. assert (0 < flightBatchSize)%nat as Hn by (unfold flightBatchSize; lia).
  unfold stream_all. cbn [rs_rows]. rewrite length_fmap, stream_kept by lia.
  generalize dependent flightBatchSize. intros n Hn.
  pose proof (kept_length n rows Hn n ltac:(lia)) as Hl. replace (n - n)%nat with 0%nat in Hl by lia. rewrite Nat.add_0_r in Hl.
  assert (∀ j, kept n n rows !! j = rows !! (j + j / n)%nat) as Hj.
  { intros j. rewrite kept_lookup by lia. by replace (j + (n - n))%nat with j by lia. }
  split_and!; [done..|]. split.
  - intros E. rewrite E in Hl. assert (length rows / S n = 0)%nat as Hz by lia. apply Nat.div_small_iff in Hz; lia.
  - intros Hle. apply list_eq. intros j. rewrite Hj. destruct (decide (j < n)%nat).
    + rewrite Nat.div_small by done. f_equal. lia.
    + rewrite !lookup_ge_None_2; [done|lia..].
Qed.
End delivered.

(** * Credentials survive their header *)

Lemma b64_val_digit n : 0 ≤ n < 64 → b64_val (b64_digit n) = Some n.
Proof.
  intros Hn. assert (Forall (λ k, b64_val (b64_digit (Z.of_nat k)) = Some (Z.of_nat k)) (seq 0 64)) as H.
  { repeat (constructor; [vm_compute; reflexivity|]). constructor. }
  rewrite Forall_forall in H. specialize (H (Z.to_nat n)). rewrite elem_of_seq, Z2Nat.id in H by lia. apply H. lia.
Qed.

Lemma byte_of_Z_eq z b : z mod 256 = byte_val b → byte_of_Z z = b.
Proof. intros H. apply byte_val_inj. by rewrite byte_val_of_Z. Qed.

Lemma b64_digit_not_pad n : 0 ≤ n < 64 → b64_digit n ≠ x3d.
Proof. intros Hn E. pose proof (b64_val_digit n Hn) as H. by rewrite E in H. Qed.

Ltac digits := rewrite ?b64_val_digit by (Z.to_euclidean_division_equations; lia); cbn [mbind option_bind].
Ltac same_bytes := f_equal; repeat f_equal; apply byte_of_Z_eq; Z.to_euclidean_division_equations; lia.

Lemma b64_quanta_base64 n : ∀ l, (length l ≤ n)%nat → b64_quanta true (base64 l) = Some l.
Proof.
  induction n as [|n IH]; intros l Hl; [by destruct l; [|cbn in Hl; lia]|].
  destruct l as [|a [|b [|c l]]]; [done|..]; cbn [base64 app];
    pose proof (byte_val_range a); try pose proof (byte_val_range b); try pose proof (byte_val_range c).
  - cbn. digits. same_bytes.
  - cbn [b64_quanta]. digits. rewrite bool_decide_eq_false_2.
    2:{ intros [E _]. revert E. apply b64_digit_not_pad. Z.to_euclidean_division_equations; lia. }
    cbn. digits. same_bytes.
  - cbn [b64_quanta]. digits. rewrite bool_decide_eq_false_2.
    2:{ intros [E _]. revert E. apply b64_digit_not_pad. Z.to_euclidean_division_equations; lia. }
    cbn [andb]. digits. rewrite bool_decide_eq_false_2.
    2:{ intros [E _]. revert E. apply b64_digit_not_pad. Z.to_euclidean_division_equations; lia. }
    cbn [andb]. digits. rewrite (IH l) by (cbn in Hl; lia). cbn [mbind option_bind]. cbn [b64_bytes app].
    same_bytes.
Qed.

Lemma b64_digit_graphic n : 0 ≤ n < 64 → graphic (b64_digit n).
Proof.
  intros Hn. unfold graphic, b64_digit. rewrite byte_val_of_Z.
  repeat case_bool_decide; rewrite Z.mod_small by lia; lia.
Qed.

Lemma base64_graphic n : ∀ l, (length l ≤ n)%nat → Forall graphic (base64 l).
Proof.
  assert (graphic x3d) as Hpad by (split; done).
  induction n as [|n IH]; intros l Hl; [by destruct l; [constructor|cbn in Hl; lia]|].
  destruct l as [|a [|b [|c l]]]; [constructor|..]; cbn [base64 app];
    pose proof (byte_val_range a); try pose proof (byte_val_range b); try pose proof (byte_val_range c).
  all: repeat (constructor; [first [done|apply b64_digit_graphic; Z.to_euclidean_division_equations; lia]|]); try constructor.
  apply IH. cbn in Hl. lia.
Qed.

(** What a client puts in its Basic header is what the server reads, for every password
    and every username that is not empty and has no colon. *)
Theorem basic_credentials_roundtrip username password :
  username ≠ ""%string → x3a ∉ bytes username →
  parseBasicCredentials (basic_header username password) = inl (username, password).
Proof.
  intros Hu Hc. unfold parseBasicCredentials, basic_header.
  set (creds := bytes username ++ [x3a] ++ bytes password).
  assert (creds ≠ []) as Hne by (unfold creds; destruct (bytes username); done).
  pose proof (base64_graphic _ creds (le_n _)) as Hg.
  pose proof (b64_quanta_base64 _ creds (le_n _)) as Hd.
  assert (base64 creds ≠ []) as Hb by (intros E; rewrite E in Hd; cbn in Hd; congruence).
  destruct (exists_last Hb) as (m & z & Ez).
  assert (graphic z) as Hz by (rewrite Ez, Forall_app, Forall_singleton in Hg; tauto).
  rewrite Ez at 1. change (bytes "Basic " ++ m ++ [z]) with (x42 :: (bytes "asic " ++ m) ++ [z]).
  rewrite TrimSpace_graphic by (done || split; done). rewrite bytes_str.
  change (x42 :: (bytes "asic " ++ m) ++ [z]) with (bytes "Basic" ++ x20 :: (m ++ [z])). rewrite <- Ez.
  unfold split2. rewrite index_byte_first by (cbn; set_solver).
  rewrite take_app_length, drop_app_ge by (cbn; lia).
  replace (S (length (bytes "Basic")) - length (bytes "Basic"))%nat with 1%nat by lia. cbn [drop]. rewrite drop_0.
  rewrite bool_decide_eq_false_2 by (intros H; by apply H).
  unfold b64_decode. rewrite filter_all.
  2:{ eapply Forall_impl; [exact Hg|]. intros b [H1 H2]. split; intros ->; by apply H1. }
  rewrite Hd. change creds with (bytes username ++ x3a :: bytes password). rewrite index_byte_first by done.
  rewrite take_app_length, drop_app_ge by lia. replace (S (length (bytes username)) - length (bytes username))%nat with 1%nat by lia.
  cbn [drop]. rewrite drop_0, !str_bytes, bool_decide_eq_false_2 by done. done.
Qed.

Lemma basic_credentials_roundtrip_witness :
  parseBasicCredentials (basic_header "alice" "p:w d") = inl ("alice", "p:w d")%string.
Proof. apply basic_credentials_roundtrip; [done|]. cbn. set_solver. Defined.
