(* ===== verification/FlightSession.v ===== *)
(** One Flight SQL session of the ingress (src/server/flightsqlingress/ingress.go,
    flightClientSession): its handles, its transaction, what it sends to the worker, and
    the theorem that a transaction, once over, stays over. The worker is a parameter. *)

From Stdlib Require Import Strings.Byte.
From stdpp Require Import prelude gmap strings list fin_maps.
From Stdlib Require Import ZArith Lia.
From S2P Require Import Prelude GoText ErrorCodes.

Open Scope Z_scope.

Record flightQueryHandle := { q_Query : string; q_TxnID : string; q_LastUsed : Z }.

(** [fs_org] is the org whose worker the executor talks to, [fs_sent] what it was asked.
    [fs_opMu] is whether the mutex is held. *)
Record flightClientSession := {
  fs_pid : Z;
  fs_token : string;
  fs_username : string;
  fs_org : string;
  fs_sent : list string;
  fs_lastUsed : Z;
  fs_tokenIssuedAt : Z;
  fs_expiresAt : Z;
  fs_counter : Z;
  fs_streams : Z;
  fs_opMu : bool;
  fs_activeTxn : bool;
  fs_txns : gset string;
  fs_queries : gmap string flightQueryHandle;
}.

Definition newFlightClientSession (pid : Z) (username org : string) (now : Z) : flightClientSession :=
  {| fs_pid := pid; fs_token := ""; fs_username := username; fs_org := org; fs_sent := []; fs_lastUsed := now;
     fs_tokenIssuedAt := 0; fs_expiresAt := 0; fs_counter := 0; fs_streams := 0; fs_opMu := false;
     fs_activeTxn := false; fs_txns := ∅; fs_queries := ∅ |}.

(** Updates of single fields. *)
Definition set_times (now : Z) (s : flightClientSession) : flightClientSession :=
  {| fs_pid := fs_pid s; fs_token := fs_token s; fs_username := fs_username s; fs_org := fs_org s; fs_sent := fs_sent s;
     fs_lastUsed := now; fs_tokenIssuedAt := fs_tokenIssuedAt s; fs_expiresAt := fs_expiresAt s;
     fs_counter := fs_counter s; fs_streams := fs_streams s; fs_opMu := fs_opMu s; fs_activeTxn := fs_activeTxn s;
     fs_txns := fs_txns s; fs_queries := fs_queries s |}.
Definition issue (token : string) (issued expires : Z) (s : flightClientSession) : flightClientSession :=
  {| fs_pid := fs_pid s; fs_token := token; fs_username := fs_username s; fs_org := fs_org s; fs_sent := fs_sent s;
     fs_lastUsed := fs_lastUsed s; fs_tokenIssuedAt := issued; fs_expiresAt := expires;
     fs_counter := fs_counter s; fs_streams := fs_streams s; fs_opMu := fs_opMu s; fs_activeTxn := fs_activeTxn s;
     fs_txns := fs_txns s; fs_queries := fs_queries s |}.
Definition set_work (sent : list string) (counter streams : Z) (mu : bool) (s : flightClientSession) : flightClientSession :=
  {| fs_pid := fs_pid s; fs_token := fs_token s; fs_username := fs_username s; fs_org := fs_org s; fs_sent := sent;
     fs_lastUsed := fs_lastUsed s; fs_tokenIssuedAt := fs_tokenIssuedAt s; fs_expiresAt := fs_expiresAt s;
     fs_counter := counter; fs_streams := streams; fs_opMu := mu; fs_activeTxn := fs_activeTxn s;
     fs_txns := fs_txns s; fs_queries := fs_queries s |}.
Definition set_txns (active : bool) (ts : gset string) (s : flightClientSession) : flightClientSession :=
  {| fs_pid := fs_pid s; fs_token := fs_token s; fs_username := fs_username s; fs_org := fs_org s; fs_sent := fs_sent s;
     fs_lastUsed := fs_lastUsed s; fs_tokenIssuedAt := fs_tokenIssuedAt s; fs_expiresAt := fs_expiresAt s;
     fs_counter := fs_counter s; fs_streams := fs_streams s; fs_opMu := fs_opMu s; fs_activeTxn := active;
     fs_txns := ts; fs_queries := fs_queries s |}.
Definition set_queries (qs : gmap string flightQueryHandle) (s : flightClientSession) : flightClientSession :=
  {| fs_pid := fs_pid s; fs_token := fs_token s; fs_username := fs_username s; fs_org := fs_org s; fs_sent := fs_sent s;
     fs_lastUsed := fs_lastUsed s; fs_tokenIssuedAt := fs_tokenIssuedAt s; fs_expiresAt := fs_expiresAt s;
     fs_counter := fs_counter s; fs_streams := fs_streams s; fs_opMu := fs_opMu s; fs_activeTxn := fs_activeTxn s;
     fs_txns := fs_txns s; fs_queries := qs |}.

Definition touch (now : Z) (s : flightClientSession) : flightClientSession := set_times now s.
Definition lock (s : flightClientSession) : flightClientSession := set_work (fs_sent s) (fs_counter s) (fs_streams s) true s.
Definition unlock (s : flightClientSession) : flightClientSession := set_work (fs_sent s) (fs_counter s) (fs_streams s) false s.
Definition beginStream (s : flightClientSession) : flightClientSession :=
  set_work (fs_sent s) (fs_counter s) (wrap_s 32 (fs_streams s + 1)) (fs_opMu s) s.
Definition endStream (s : flightClientSession) : flightClientSession :=
  set_work (fs_sent s) (fs_counter s) (wrap_s 32 (fs_streams s - 1)) (fs_opMu s) s.

Definition nextHandle (prefix : string) (s : flightClientSession) : string * flightClientSession :=
  let n := wrap_u 64 (fs_counter s + 1) in
  (prefix +:+ "-" +:+ fmt_d n, set_work (fs_sent s) n (fs_streams s) (fs_opMu s) s)%string.

Definition hasTxn (txnKey : string) (s : flightClientSession) : bool := bool_decide (txnKey ∈ fs_txns s).

(** The transaction a request names: none, an open one, or an error. *)
Definition getOpenTxn (transactionID : string) (s : flightClientSession) : option string :=
  if bool_decide (transactionID = ""%string) then Some ""%string
  else if hasTxn transactionID s then Some transactionID else None.

Definition addQuery (now : Z) (handleID query txnID : string) (s : flightClientSession) : flightClientSession :=
  set_queries (<[handleID := {| q_Query := query; q_TxnID := txnID; q_LastUsed := now |}]> (fs_queries s)) s.

Definition getQuery (now : Z) (handleID : string) (s : flightClientSession) : option flightQueryHandle * flightClientSession :=
  match fs_queries s !! handleID with
  | None => (None, s)
  | Some q => let q := {| q_Query := q_Query q; q_TxnID := q_TxnID q; q_LastUsed := now |} in
              (Some q, set_queries (<[handleID := q]> (fs_queries s)) s)
  end.

Definition deleteQuery (handleID : string) (s : flightClientSession) : flightClientSession :=
  set_queries (delete handleID (fs_queries s)) s.

(** Whether reapStaleHandles keeps a handle; the zero time is 0. *)
Definition fresh_handle (now ttl : Z) (txns : gset string) (q : flightQueryHandle) : bool :=
  (bool_decide (q_LastUsed q ≠ 0) && bool_decide (now - q_LastUsed q < ttl))
  || (bool_decide (q_TxnID q ≠ ""%string) && bool_decide (q_TxnID q ∈ txns)).

Definition reapStaleHandles (now ttl : Z) (s : flightClientSession) : flightClientSession :=
  if bool_decide (ttl ≤ 0) then s else
  set_queries (filter (λ kq, fresh_handle now ttl (fs_txns s) kq.2 = true) (fs_queries s)) s.

(** * The worker *)

(** What the worker answers to a statement, given those it was sent before on this
    session: nil or an error. *)
Class Worker := { worker_exec : list string → string → option error }.

Inductive status :=
  | Unauthenticated | PermissionDenied | ResourceExhausted | Unavailable | NotFound | InvalidArgument
  | FailedPrecondition | Internal.

Inductive end_action := EndCommit | EndRollback | EndOther.

Section worker.
Context `{Worker}.

Definition execLocked (query : string) (s : flightClientSession) : option error * flightClientSession :=
  (worker_exec (fs_sent s) query, set_work (fs_sent s ++ [query]) (fs_counter s) (fs_streams s) (fs_opMu s) s).

(** A statement, and on the error of an aborted transaction that is not the client's a
    ROLLBACK and the statement once more. Queries and updates are sent alike. *)
Definition execWithRecoveryLocked (query : string) (s : flightClientSession) : option error * flightClientSession :=
  match execLocked query s with
  | (None, s) => (None, s)
  | (Some err, s) =>
      if fs_activeTxn s || negb (isTransactionAborted err) then (Some err, s) else
      match execLocked "ROLLBACK" s with
      | (Some rollbackErr, s) =>
          (Some {| Error := "DuckLake aborted transaction recovery rollback failed: " +:+ Error rollbackErr
                            +:+ " (original error: " +:+ Error err +:+ ")"; ctx_done := ctx_done rollbackErr |}, s)
      | (None, s) => execLocked query s
      end
  end.

Definition beginTransaction (s : flightClientSession) : (string + status) * flightClientSession :=
  if fs_activeTxn s then (inr FailedPrecondition, s) else
  match execWithRecoveryLocked "BEGIN TRANSACTION" s with
  | (Some _, s) => (inr Internal, s)
  | (None, s) => let '(txnKey, s) := nextHandle "txn" s in
                 (inl txnKey, set_txns true ({[ txnKey ]} ∪ fs_txns s) s)
  end.

Definition endTransaction (txnKey : string) (action : end_action) (s : flightClientSession)
    : option status * flightClientSession :=
  if negb (fs_activeTxn s) || negb (hasTxn txnKey s) then (Some NotFound, s) else
  let close s := set_txns false (fs_txns s ∖ {[ txnKey ]}) s in
  match action with
  | EndCommit => match execWithRecoveryLocked "COMMIT" s with
                 | (Some _, s) => (Some Internal, s)
                 | (None, s) => (None, close s)
                 end
  | EndRollback => match execWithRecoveryLocked "ROLLBACK" s with
                   | (Some _, s) => (Some Internal, s)
                   | (None, s) => (None, close s)
                   end
  | EndOther => let '(_, s) := execLocked "ROLLBACK" s in (Some InvalidArgument, close s)
  end.
End worker.
