(* ===== verification/FlightStore.v ===== *)
(** The Flight SQL ingress with its sessions (src/server/flightsqlingress/ingress.go:
    flightAuthSessionStore and the handlers; src/controlplane/flight_ingress.go: the
    session providers; src/controlplane/control.go: cpFlightCredentialValidator): a step
    relation over the goroutines of requests and of the reaper. A section under the
    store's mutex is one step, and so is a call of the provider. A session manager is
    seen through what it promises here: the pids it hands out and the sessions it has.
    The worker, bcrypt and the order of a range over a map are parameters or choices. *)

From Stdlib Require Import Strings.Byte.
From stdpp Require Import prelude gmap strings list fin_maps.
From Stdlib Require Import ZArith Lia.
From S2P Require Import Prelude GoText SqlScan ErrorCodes Auth ConfigStore FlightStream FlightSession.

Open Scope string_scope.
Open Scope Z_scope.

(** * Routing by hostname *)

Definition SNIRoutingOff := "off".
Definition SNIRoutingPassthrough := "passthrough".
Definition SNIRoutingEnforce := "enforce".

(** extractOrgFromSNI: the label before the first managed suffix that fits. *)
Fixpoint extractOrgFromSNI (suffixes : list string) (sni : string) : option string :=
  match suffixes with
  | [] => None
  | suffix :: rest =>
      if negb (HasSuffix sni suffix) then extractOrgFromSNI rest sni else
      let prefix := TrimSuffix sni suffix in
      if bool_decide (prefix = "") || Contains prefix "." then extractOrgFromSNI rest sni
      else Some prefix
  end.

(** startFlightIngress: static users and one session manager, or the config store and a
    manager per org. *)
Inductive deployment :=
  | SingleTenant (users : gmap string string)
  | MultiTenant (mode : string) (suffixes : list string).

Section validators.
Context `{Bcrypt}.

Definition authForSNIPrefix (cs : ConfigStore) (sniPrefix username password : string) : option string :=
  let dbname := DatabaseNameForSNIPrefix cs sniPrefix in
  let orgID := ResolveDatabase cs dbname in
  if bool_decide (orgID = "") then None
  else if (ValidateOrgUser cs orgID username password).1 then Some orgID else None.

Definition authByScan (cs : ConfigStore) (order : list (OrgUserKey * string)) (username password : string) : option string :=
  (FindAndValidateUser cs order username password).1.

(** The org a client is authenticated for, before it is noted in userOrg. *)
Definition ValidateCredentialsForSNI (mode : string) (suffixes : list string) (cs : ConfigStore)
    (order : list (OrgUserKey * string)) (sni username password : string) : option string :=
  let managed := extractOrgFromSNI suffixes sni in
  if bool_decide (mode = SNIRoutingEnforce) then
    match managed with
    | None => None
    | Some prefix => authForSNIPrefix cs prefix username password
    end
  else if bool_decide (mode = SNIRoutingPassthrough) then
    match managed with
    | Some prefix => authForSNIPrefix cs prefix username password
    | None => authByScan cs order username password
    end
  else authByScan cs order username password.

(** What the validator of a deployment answers; a single tenant has no org. *)
Definition validate (dep : deployment) (cs : ConfigStore) (order : list (OrgUserKey * string))
    (sni username password : string) : option string :=
  match dep with
  | SingleTenant users => if ValidateUserPassword users username password then Some "" else None
  | MultiTenant mode suffixes => ValidateCredentialsForSNI mode suffixes cs order sni username password
  end.
End validators.

(** * The state *)

(** A session manager, by the pids of its Flight sessions with their workers. *)
Record manager := { m_nextPID : Z; m_live : gmap Z Z }.

Record DurableSessionRecord := {
  dr_Username : string;
  dr_OrgID : string;
  dr_WorkerID : Z;
  dr_Active : bool;
  dr_ExpiresAt : Z;
}.

Record settings := {
  idleTTL : Z;
  handleIdleTTL : Z;
  tokenTTL : Z;
}.

Record ingress := {
  i_now : Z;
  i_rl : option RateLimiter;
  i_cs : ConfigStore;
  i_draining : bool;
  i_objs : list flightClientSession;
  i_sessions : gmap string nat;
  i_byKey : gmap string string;
  i_managers : gmap string manager;
  i_userOrg : gmap string string;
  i_pidSession : gmap Z string;
  i_durable : gmap string DurableSessionRecord;
}.

Definition with_now (t : Z) (w : ingress) : ingress :=
  {| i_now := t; i_rl := i_rl w; i_cs := i_cs w; i_draining := i_draining w; i_objs := i_objs w;
     i_sessions := i_sessions w; i_byKey := i_byKey w; i_managers := i_managers w; i_userOrg := i_userOrg w;
     i_pidSession := i_pidSession w; i_durable := i_durable w |}.
Definition with_rl (rl : option RateLimiter) (w : ingress) : ingress :=
  {| i_now := i_now w; i_rl := rl; i_cs := i_cs w; i_draining := i_draining w; i_objs := i_objs w;
     i_sessions := i_sessions w; i_byKey := i_byKey w; i_managers := i_managers w; i_userOrg := i_userOrg w;
     i_pidSession := i_pidSession w; i_durable := i_durable w |}.
Definition with_config (cs : ConfigStore) (w : ingress) : ingress :=
  {| i_now := i_now w; i_rl := i_rl w; i_cs := cs; i_draining := i_draining w; i_objs := i_objs w;
     i_sessions := i_sessions w; i_byKey := i_byKey w; i_managers := i_managers w; i_userOrg := i_userOrg w;
     i_pidSession := i_pidSession w; i_durable := i_durable w |}.
Definition SetDraining (w : ingress) : ingress :=
  {| i_now := i_now w; i_rl := i_rl w; i_cs := i_cs w; i_draining := true; i_objs := i_objs w;
     i_sessions := i_sessions w; i_byKey := i_byKey w; i_managers := i_managers w; i_userOrg := i_userOrg w;
     i_pidSession := i_pidSession w; i_durable := i_durable w |}.
Definition with_store (objs : list flightClientSession) (sessions : gmap string nat) (byKey : gmap string string)
    (w : ingress) : ingress :=
  {| i_now := i_now w; i_rl := i_rl w; i_cs := i_cs w; i_draining := i_draining w; i_objs := objs;
     i_sessions := sessions; i_byKey := byKey; i_managers := i_managers w; i_userOrg := i_userOrg w;
     i_pidSession := i_pidSession w; i_durable := i_durable w |}.
Definition with_provider (ms : gmap string manager) (uo : gmap string string) (ps : gmap Z string) (w : ingress) : ingress :=
  {| i_now := i_now w; i_rl := i_rl w; i_cs := i_cs w; i_draining := i_draining w; i_objs := i_objs w;
     i_sessions := i_sessions w; i_byKey := i_byKey w; i_managers := ms; i_userOrg := uo;
     i_pidSession := ps; i_durable := i_durable w |}.
Definition with_durable (d : gmap string DurableSessionRecord) (w : ingress) : ingress :=
  {| i_now := i_now w; i_rl := i_rl w; i_cs := i_cs w; i_draining := i_draining w; i_objs := i_objs w;
     i_sessions := i_sessions w; i_byKey := i_byKey w; i_managers := i_managers w; i_userOrg := i_userOrg w;
     i_pidSession := i_pidSession w; i_durable := d |}.

(** Changes the session object at [r]. *)
Definition upd (f : flightClientSession → flightClientSession) (r : nat) (w : ingress) : ingress :=
  with_store (alter f r (i_objs w)) (i_sessions w) (i_byKey w) w.

(** * The providers *)

Definition multi (dep : deployment) : bool := match dep with SingleTenant _ => false | MultiTenant _ _ => true end.

(** A session on the org's manager, on worker [wid]: the pid is its next one. *)
Definition manager_create (org : string) (wid : Z) (w : ingress) : option (Z * ingress) :=
  m ← i_managers w !! org;
  let pid := wrap_s 32 (m_nextPID m + 1) in
  Some (pid, with_provider (<[org := {| m_nextPID := pid; m_live := <[pid := wid]> (m_live m) |}]> (i_managers w))
               (i_userOrg w) (i_pidSession w) w).

Definition manager_destroy (org : string) (pid : Z) (w : ingress) : ingress :=
  match i_managers w !! org with
  | None => w
  | Some m => with_provider (<[org := {| m_nextPID := m_nextPID m; m_live := delete pid (m_live m) |}]> (i_managers w))
                (i_userOrg w) (i_pidSession w) w
  end.

(** The note of the owning manager that orgRoutedSessionProvider keeps per pid. *)
Definition note_pid (dep : deployment) (pid : Z) (org : string) (w : ingress) : ingress :=
  if multi dep then with_provider (i_managers w) (i_userOrg w) (<[pid := org]> (i_pidSession w)) w else w.

(** DestroySession of either provider. *)
Definition DestroySession (dep : deployment) (pid : Z) (w : ingress) : ingress :=
  if multi dep then
    match i_pidSession w !! pid with
    | None => w
    | Some org => let w := manager_destroy org pid w in
                  with_provider (i_managers w) (i_userOrg w) (delete pid (i_pidSession w)) w
    end
  else manager_destroy "" pid w.

(** DurableSessionMetadata: the org and the worker of a pid. *)
Definition DurableSessionMetadata (pid : Z) (w : ingress) : option (string * Z) :=
  org ← i_pidSession w !! pid;
  m ← i_managers w !! org;
  wid ← m_live m !! pid;
  Some (org, wid).

(** persistSession; only the routed provider has a durable store. *)
Definition persistSession (dep : deployment) (fault : bool) (r : nat) (w : ingress) : ingress :=
  match i_objs w !! r with
  | Some s =>
      if negb (multi dep) || fault then w else
      match DurableSessionMetadata (fs_pid s) w with
      | None => w
      | Some (org, wid) =>
          with_durable (<[fs_token s := {| dr_Username := fs_username s; dr_OrgID := org; dr_WorkerID := wid;
            dr_Active := true; dr_ExpiresAt := fs_expiresAt s |}]> (i_durable w)) w
      end
  | None => w
  end.

Definition close_durable (token : string) (w : ingress) : ingress :=
  with_durable (alter (λ d, {| dr_Username := dr_Username d; dr_OrgID := dr_OrgID d; dr_WorkerID := dr_WorkerID d;
    dr_Active := false; dr_ExpiresAt := dr_ExpiresAt d |}) token (i_durable w)) w.

(** * The session store *)

Definition session_at (w : ingress) (token : string) : option (nat * flightClientSession) :=
  r ← i_sessions w !! token; s ← i_objs w !! r; Some (r, s).

(** A token and every bootstrap key of it leave the maps. *)
Definition forget (token : string) (w : ingress) : ingress :=
  with_store (i_objs w) (delete token (i_sessions w)) (filter (λ kt, kt.2 ≠ token) (i_byKey w)) w.

(** The section of GetByTokenContext. *)
Inductive lookup_result :=
  | Missing                    (** no such session: reconnectByToken *)
  | Expired (r : nat)          (** taken out of the maps; still to be destroyed *)
  | Usable (r : nat).

Definition GetByToken (cfg : settings) (token : string) (w : ingress) : lookup_result * ingress :=
  match session_at w token with
  | None => (Missing, w)
  | Some (r, s) =>
      if bool_decide (0 < fs_expiresAt s) && bool_decide (fs_expiresAt s < i_now w) then (Expired r, forget token w) else
      if bool_decide (0 < tokenTTL cfg) && bool_decide (0 < fs_tokenIssuedAt s)
         && bool_decide (tokenTTL cfg ≤ i_now w - fs_tokenIssuedAt s) then (Expired r, forget token w) else
      (Usable r, w)
  end.

Definition CloseByToken (token : string) (w : ingress) : option nat * ingress :=
  match i_sessions w !! token with
  | None => (None, w)
  | Some r => (Some r, forget token w)
  end.

Definition getExistingByKey (key : string) (w : ingress) : option nat :=
  token ← i_byKey w !! key; i_sessions w !! token.

(** The last section of GetOrCreate: another session of the same key wins, a token in
    use is drawn again. [tokens] are the random tokens to come. *)
Inductive insert_result := Existing (r : nat) | Inserted (r : nat) | NoToken.

Fixpoint draw (tokens : list (option string)) (sessions : gmap string nat) : option string :=
  match tokens with
  | Some t :: rest => if bool_decide (sessions !! t = None) then Some t else draw rest sessions
  | _ => None
  end.

Definition insert_session (cfg : settings) (key username org : string) (pid : Z) (tokens : list (option string))
    (w : ingress) : insert_result * ingress :=
  match getExistingByKey key w with
  | Some r => (Existing r, w)
  | None =>
      match draw tokens (i_sessions w) with
      | None => (NoToken, w)
      | Some token =>
          let expires := if bool_decide (0 < tokenTTL cfg) then i_now w + tokenTTL cfg else 0 in
          let s := issue token (i_now w) expires (newFlightClientSession pid username org (i_now w)) in
          let r := length (i_objs w) in
          (Inserted r, with_store (i_objs w ++ [s]) (<[token := r]> (i_sessions w)) (<[key := token]> (i_byKey w)) w)
      end
  end.

(** The last section of reconnectByToken. *)
Definition adopt_session (token : string) (rec : DurableSessionRecord) (org : string) (pid : Z) (w : ingress) : nat * ingress :=
  let expires := if bool_decide (dr_ExpiresAt rec = 0) then 0 else dr_ExpiresAt rec in
  let s := issue token (i_now w) expires (newFlightClientSession pid (dr_Username rec) org (i_now w)) in
  let r := length (i_objs w) in
  (r, with_store (i_objs w ++ [s]) (<[token := r]> (i_sessions w)) (i_byKey w) w).

(** Whether reapIdle takes a session out, its stale handles reaped. *)
Definition reapable (cfg : settings) (now : Z) (s : flightClientSession) : bool :=
  let s' := reapStaleHandles now (handleIdleTTL cfg) s in
  bool_decide (idleTTL cfg ≤ now - fs_lastUsed s') && bool_decide (fs_txns s' = ∅)
  && bool_decide (fs_streams s' ≤ 0) && bool_decide (fs_queries s' = ∅).

(** The objects of the store whose token [reapIdle] removes. *)
Definition stale (cfg : settings) (w : ingress) : list (string * nat) :=
  filter (λ tr, default false (reapable cfg (i_now w) <$> i_objs w !! tr.2) = true) (map_to_list (i_sessions w)).

(** reapIdle's section: stale handles go in every session of the map, then the sessions
    that may go are taken out. *)
Definition reapIdle (cfg : settings) (w : ingress) : list (string * nat) * ingress :=
  let dead := stale cfg w in
  let objs := foldr (λ tr os, alter (reapStaleHandles (i_now w) (handleIdleTTL cfg)) tr.2 os)
                (i_objs w) (map_to_list (i_sessions w)) in
  (dead, with_store objs
           (filter (λ tr, tr.1 ∉ dead.*1) (i_sessions w))
           (filter (λ kt, kt.2 ∉ dead.*1) (i_byKey w)) w).

(** * Requests *)

Inductive rpc :=
  | InfoStatement (txn query : string)       (** GetFlightInfoStatement *)
  | CreatePrepared (txn query : string)
  | InfoPrepared (handle : string)
  | ClosePrepared (handle : string)
  | DoGet (handle : string) (prepared : bool)
  | Update (txn query : string)              (** DoPutCommandStatementUpdate *)
  | BeginTxn
  | EndTxn (txn : string) (action : end_action)
  | CloseSession.

Record request := {
  rq_addr : option string;
  rq_sni : string;
  rq_metadata : bool;
  rq_authorization : list string;
  rq_session : list string;
  rq_rpc : rpc;
}.

Definition incomingSessionToken (rq : request) : string :=
  match rq_session rq with [] => "" | v :: _ => TrimSpace v end.

Inductive reply := Failed (code : status) (message : string) | Answer (value : string).

Definition fail_auth (rq : request) (w : ingress) : ingress :=
  with_rl (RecordFailedAuthAttempt (i_rl w) (rq_addr rq) (i_now w)).2 w.

Definition header_error (e : basic_err) : string :=
  match e with
  | ExpectedBasic => "expected Basic authorization"
  | InvalidEncoding => "invalid basic auth encoding"
  | InvalidPayload => "invalid basic auth payload"
  | UsernameRequired => "username is required"
  end.

Section handlers.
Context `{Bcrypt} `{UnicodeCase} `{Worker} (dep : deployment) (cfg : settings).

(** authenticateBasicCredentials: the user with the org it was authenticated for, or the
    answer. A routed validator notes the org under the username. *)
Definition authenticateBasicCredentials (order : list (OrgUserKey * string)) (rq : request) (w : ingress)
    : ((string * string) + reply) * ingress :=
  match rq_authorization rq with
  | [] => (inr (Failed Unauthenticated "missing authorization header"), fail_auth rq w)
  | header :: _ =>
      match parseBasicCredentials header with
      | inr e => (inr (Failed Unauthenticated (header_error e)), fail_auth rq w)
      | inl (username, password) =>
          match validate dep (i_cs w) order (rq_sni rq) username password with
          | None => (inr (Failed Unauthenticated "invalid credentials"), fail_auth rq w)
          | Some org =>
              let w := if multi dep
                       then with_provider (i_managers w) (<[username := org]> (i_userOrg w)) (i_pidSession w) w else w in
              (inl (username, org), with_rl (RecordSuccessfulAuthAttempt (i_rl w) (rq_addr rq)) w)
          end
      end
  end.

(** A bootstrap in progress: its user, the org that authenticated it, whether the rate
    limiter has it registered, and the attempt of Create it is at. *)
Record bootstrap := {
  b_rq : request;
  b_user : string;
  b_auth : string;
  b_registered : bool;
  b_key : string;
  b_last : bool;
}.

Inductive thread :=
  | TRequest (rq : request)
  | TLookup (rq : request) (user : option string)
  | TExpired (rq : request) (r : nat)
  | TReconnect (rq : request) (user : option string)
  | TRejoin (rq : request) (user : option string) (rec : DurableSessionRecord)
  | TRecovered (rq : request) (user : option string) (rec : DurableSessionRecord) (pid : Z)
  | TAdopt (rq : request) (user : option string) (rec : DurableSessionRecord) (pid : Z)
  | TAdopted (rq : request) (user : option string) (r : nat)
  | TFound (rq : request) (user : option string) (r : nat)
  | TCreate (rq : request) (user auth : string) (registered : bool)
  | TGetOrCreate (b : bootstrap)
  | TProvider (b : bootstrap)
  | TNote (b : bootstrap) (org : string) (pid : Z)
  | TInsert (b : bootstrap) (org : string) (pid : Z)
  | TUndo (b : bootstrap) (pid : Z) (existing : option nat)
  | TMissed (b : bootstrap)                             (** an attempt of Create failed *)
  | TForced (b : bootstrap) (todo : list (string * nat))
  | TInserted (b : bootstrap) (r : nat)
  | TReady (b : bootstrap) (r : nat)
  | TRpc (rq : request) (r : nat)
  | TWait (rq : request) (r : nat) (q : string)         (** before opMu.Lock() *)
  | TRun (rq : request) (r : nat) (q : string)          (** in the worker, holding opMu *)
  | TStream (rq : request) (r : nat)                    (** streaming, holding opMu *)
  | TClose (rq : request) (r : nat)
  | TReap
  | TReaped (todo : list (string * nat))
  | TDone (p : reply).

(** What a session manager's pool answers. *)
Inductive grant := Granted (wid : Z) | Denied | Fenced.

Inductive oracle :=
  | Go
  | ScanOrder (order : list (OrgUserKey * string))
  | Nonce (n : option string)
  | Gives (g : grant)
  | Loads (ok : bool)                     (** the durable store answers *)
  | Tokens (ts : list (option string))
  | CtxErr (expired : bool).

(** authentication with the order a scan over the users takes *)
Definition auth_step (o : oracle) (rq : request) (w : ingress) : option (((string * string) + reply) * ingress) :=
  match o with
  | ScanOrder order => if bool_decide (order ≡ₚ match cs_snapshot (i_cs w) with
                                               | Some s => map_to_list (s_OrgUserPassword s)
                                               | None => []
                                               end)
                       then Some (authenticateBasicCredentials order rq w) else None
  | _ => None
  end.

(** The answer to a token that leads nowhere. *)
Definition lost (rq : request) (w : ingress) : ingress * thread :=
  (fail_auth rq w, TDone (Failed Unauthenticated "session not found")).

(** sessionFromContextWithTokenMetadata up to the session, for a request with a token. *)
Definition token_next (o : oracle) (t : thread) (w : ingress) : option (ingress * thread) :=
  match t, o with
  | TLookup rq user, Go =>
      let token := incomingSessionToken rq in
      match GetByToken cfg token w with
      | (Usable r, w) => Some (w, TFound rq user r)
      | (Expired r, w) => Some (w, TExpired rq r)
      | (Missing, w) =>
          if multi dep then Some (w, TReconnect rq user)
          else Some (lost rq w)
      end
  | TExpired rq r, Go =>
      match i_objs w !! r with
      | Some s =>
          let w := DestroySession dep (fs_pid s) w in
          let w := if multi dep then close_durable (fs_token s) w else w in
          Some (lost rq w)
      | None => None
      end
  | TReconnect rq user, Loads ok =>
      let token := incomingSessionToken rq in
      match (if ok then i_durable w !! token else None) with
      | None => Some (lost rq w)
      | Some rec =>
          if negb (dr_Active rec) then Some (lost rq w) else
          if bool_decide (dr_ExpiresAt rec ≠ 0) && bool_decide (dr_ExpiresAt rec < i_now w)
          then Some (lost rq (close_durable token w)) else Some (w, TRejoin rq user rec)
      end
  | TRejoin rq user rec, Gives g =>
      match g, i_managers w !! dr_OrgID rec with
      | Granted wid, Some _ =>
          match manager_create (dr_OrgID rec) wid w with
          | Some (pid, w) => Some (w, TRecovered rq user rec pid)
          | None => None
          end
      | Fenced, Some _ => Some (lost rq (close_durable (incomingSessionToken rq) w))
      | _, _ => Some (lost rq w)
      end
  | TRecovered rq user rec pid, Go => Some (note_pid dep pid (dr_OrgID rec) w, TAdopt rq user rec pid)
  | TAdopt rq user rec pid, Go =>
      let '(r, w) := adopt_session (incomingSessionToken rq) rec (dr_OrgID rec) pid w in
      Some (w, TAdopted rq user r)
  | TAdopted rq user r, Loads ok => Some (persistSession dep (negb ok) r w, TFound rq user r)
  | TFound rq user r, Go =>
      match i_objs w !! r, user with
      | Some s, Some u =>
          if bool_decide (u ≠ "") && bool_decide (u ≠ fs_username s)
          then Some (fail_auth rq w, TDone (Failed PermissionDenied "session token does not match authenticated user"))
          else Some (upd (touch (i_now w)) r w, TRpc rq r)
      | Some s, None => Some (upd (touch (i_now w)) r w, TRpc rq r)
      | None, _ => None
      end
  | _, _ => None
  end.

(** ** Bootstrap: Create, GetOrCreate and the provider's CreateSession *)

(** The deferred release of the rate limiter, when sessionFromContext returns. *)
Definition release (rq : request) (registered : bool) (w : ingress) : ingress :=
  if registered then with_rl ((λ rl, UnregisterConnection rl (rq_addr rq)) <$> i_rl w) w else w.

Definition refuse_boot (b : bootstrap) (w : ingress) : ingress * thread :=
  (release (b_rq b) (b_registered b) w, TDone (Failed Unavailable "create bootstrap session")).

Definition second_attempt (b : bootstrap) : bootstrap :=
  {| b_rq := b_rq b; b_user := b_user b; b_auth := b_auth b; b_registered := b_registered b; b_key := b_key b; b_last := true |}.

(** The org a session is created on: what userOrg holds for the name, by now. *)
Definition routed_org (username : string) (w : ingress) : string :=
  if multi dep then default "" (i_userOrg w !! username) else "".

(** A session [reapIdle] or [Close] took out is destroyed. *)
Definition discard (tr : string * nat) (w : ingress) : ingress :=
  match i_objs w !! tr.2 with
  | Some s => let w := DestroySession dep (fs_pid s) w in
              if multi dep then close_durable (fs_token s) w else w
  | None => w
  end.

Definition boot_next (o : oracle) (t : thread) (w : ingress) : option (ingress * thread) :=
  match t, o with
  | TCreate rq user auth registered, Nonce n =>
      if i_draining w
      then Some (release rq registered w, TDone (Failed Unavailable "create bootstrap session"))
      else match n with
           | None => Some (release rq registered w, TDone (Failed Unavailable "create bootstrap session"))
           | Some nonce => Some (w, TGetOrCreate {| b_rq := rq; b_user := user; b_auth := auth; b_registered := registered;
                             b_key := "bootstrap|" +:+ user +:+ "|" +:+ nonce; b_last := false |})
           end
  | TGetOrCreate b, Go =>
      match getExistingByKey (b_key b) w with
      | Some r => Some (upd (touch (i_now w)) r w, TReady b r)
      | None => Some (with_store (i_objs w) (i_sessions w) (delete (b_key b) (i_byKey w)) w, TProvider b)
      end
  | TProvider b, Gives g =>
      let org := routed_org (b_user b) w in
      match g with
      | Granted wid =>
          match manager_create org wid w with
          | Some (pid, w) => Some (w, TNote b org pid)
          | None => Some (w, TMissed b)
          end
      | _ => Some (w, TMissed b)
      end
  | TNote b org pid, Go => Some (note_pid dep pid org w, TInsert b org pid)
  | TInsert b org pid, Tokens ts =>
      match ts with
      | None :: _ => Some (w, TUndo b pid None)       (* no first token: before the section *)
      | _ =>
          match insert_session cfg (b_key b) (b_user b) org pid ts w with
          | (Existing r, w) => Some (w, TUndo b pid (Some r))
          | (Inserted r, w) => Some (w, TInserted b r)
          | (NoToken, w) => Some (w, TUndo b pid None)
          end
      end
  | TUndo b pid existing, Go =>
      let w := DestroySession dep pid w in
      match existing with
      | Some r => Some (upd (touch (i_now w)) r w, TReady b r)
      | None => Some (w, TMissed b)
      end
  | TMissed b, CtxErr expired =>
      if b_last b then Some (refuse_boot b w) else
      if expired then Some (w, TGetOrCreate (second_attempt b)) else
      let '(dead, w) := reapIdle cfg w in Some (w, TForced b dead)
  | TForced b [], Go => Some (w, TGetOrCreate (second_attempt b))
  | TForced b (tr :: todo), Go => Some (discard tr w, TForced b todo)
  | TInserted b r, Loads ok => Some (persistSession dep (negb ok) r w, TReady b r)
  | TReady b r, Go => Some (release (b_rq b) (b_registered b) (upd (touch (i_now w)) r w), TRpc (b_rq b) r)
  | _, _ => None
  end.

(** ** The handlers, with their session *)

Definition answer (rq : request) (r : nat) (f : flightClientSession → flightClientSession) (p : reply) (w : ingress)
    : option (ingress * thread) := Some (upd f r w, TDone p).

(** What a handler does with its session before it needs the worker: it is done, or it
    has a statement for it. *)
Definition prepare (now : Z) (rq : request) (s : flightClientSession) : (reply + string) * flightClientSession :=
  let no_txn := Failed NotFound "transaction not found" in
  let open (txn query prefix : string) :=
    match getOpenTxn txn s with
    | None => (inl no_txn, s)
    | Some key =>
        if IsEmptyQuery (bytes query) then
          let '(id, s) := nextHandle prefix s in (inl (Answer id), addQuery now id query key s)
        else match schema_statement query with
             | None => (inl (Failed InvalidArgument "failed to prepare query"), s)
             | Some stmt => (inr stmt, s)
             end
    end in
  let use handle missing :=
    match getQuery now handle s with
    | (None, s) => (inl (Failed NotFound missing), s)
    | (Some q, s) =>
        if bool_decide (q_TxnID q ≠ "") && negb (hasTxn (q_TxnID q) s) then (inl no_txn, s) else (inr (q_Query q), s)
    end in
  match rq_rpc rq with
  | InfoStatement txn query => open txn query "query"
  | CreatePrepared txn query => open txn query "prep"
  | InfoPrepared handle =>
      match use handle "prepared statement not found" with
      | (inr _, s) => (inl (Answer handle), s)
      | e => e
      end
  | ClosePrepared handle => (inl (Answer ""), deleteQuery handle s)
  | DoGet handle prepared => use handle (if prepared then "prepared statement not found" else "query handle not found")
  | Update txn query =>
      match getOpenTxn txn s with
      | None => (inl no_txn, s)
      | Some _ => if IsEmptyQuery (bytes query) then (inl (Answer "0"), s) else (inr query, s)
      end
  | BeginTxn => (inr "", s)
  | EndTxn txn _ => if bool_decide (txn = "") then (inl (Failed InvalidArgument "missing transaction id"), s) else (inr "", s)
  | CloseSession => (inr "", s)
  end.

(** The handler's work under opMu, up to the release of it; a query that is streamed
    keeps it. *)
Definition finish (now : Z) (rq : request) (q : string) (s : flightClientSession) : (reply + unit) * flightClientSession :=
  let inferred (txn query prefix : string) :=
    match execWithRecoveryLocked q s with
    | (Some _, s) => (inl (Failed InvalidArgument "failed to prepare query"), s)
    | (None, s) => let '(id, s) := nextHandle prefix s in (inl (Answer id), addQuery now id query txn s)
    end in
  match rq_rpc rq with
  | InfoStatement txn query => inferred txn query "query"
  | CreatePrepared txn query => inferred txn query "prep"
  | DoGet _ _ =>
      match execWithRecoveryLocked q s with
      | (Some _, s) => (inl (Failed InvalidArgument "failed to execute query"), s)
      | (None, s) => (inr tt, beginStream s)
      end
  | Update _ _ =>
      match execWithRecoveryLocked q s with
      | (Some _, s) => (inl (Failed InvalidArgument "failed to execute update"), s)
      | (None, s) => (inl (Answer "done"), s)
      end
  | BeginTxn => match beginTransaction s with
                | (inl key, s) => (inl (Answer key), s)
                | (inr e, s) => (inl (Failed e "begin"), s)
                end
  | EndTxn txn action => match endTransaction txn action s with
                         | (None, s) => (inl (Answer ""), s)
                         | (Some e, s) => (inl (Failed e "end"), s)
                         end
  | _ => (inl (Answer ""), s)
  end.

Definition rpc_next (o : oracle) (t : thread) (w : ingress) : option (ingress * thread) :=
  match t, o with
  | TRpc rq r, Go =>
      match i_objs w !! r with
      | None => None
      | Some s =>
          match rq_rpc rq with
          | CloseSession =>
              match CloseByToken (incomingSessionToken rq) w with
              | (None, w) => Some (w, TDone (Failed Unauthenticated "session not found"))
              | (Some r', w) => Some (w, TClose rq r')
              end
          | _ =>
              match prepare (i_now w) rq s with
              | (inl p, s') => answer rq r (λ _, s') p w
              | (inr q, s') => Some (upd (λ _, touch (i_now w) s') r w, TWait rq r q)
              end
          end
      end
  | TWait rq r q, Go =>
      match i_objs w !! r with
      | None => None
      | Some s => if fs_opMu s then None else Some (upd lock r w, TRun rq r q)
      end
  | TRun rq r q, Go =>
      match i_objs w !! r with
      | None => None
      | Some s =>
          match finish (i_now w) rq q s with
          | (inl p, s') => answer rq r (λ _, unlock s') p w
          | (inr _, s') => Some (upd (λ _, s') r w, TStream rq r)
          end
      end
  | TStream rq r, Go =>
      match i_objs w !! r, rq_rpc rq with
      | Some s, DoGet handle prepared =>
          answer rq r (λ s, (if prepared then id else deleteQuery handle) (unlock (endStream s))) (Answer "streamed") w
      | _, _ => None
      end
  | TClose rq r, Go =>
      match i_objs w !! r with
      | Some s => Some (discard (fs_token s, r) w, TDone (Answer "closed"))
      | None => None
      end
  | _, _ => None
  end.

(** ** All goroutines *)

(** The start of a request: sessionFromContextWithTokenMetadata up to the session store,
    behind the checks of CloseSession when it is that. *)
Definition request_next (o : oracle) (rq : request) (w : ingress) : option (ingress * thread) :=
  let closing := match rq_rpc rq with CloseSession => true | _ => false end in
  let refuse w code message := match o with Go => Some (w, TDone (Failed code message)) | _ => None end in
  if negb (rq_metadata rq) then refuse (if closing then w else fail_auth rq w) Unauthenticated "missing metadata" else
  if bool_decide (incomingSessionToken rq ≠ "") then
    match rq_authorization rq with
    | [] => match o with Go => Some (w, TLookup rq None) | _ => None end
    | _ :: _ =>
        match auth_step o rq w with
        | Some (inl (user, _), w) => Some (w, TLookup rq (Some user))
        | Some (inr p, w) => Some (w, TDone p)
        | None => None
        end
    end
  else if closing then refuse w Unauthenticated "missing x-duckgres-session header" else
  let n := i_now w in
  match BeginRateLimitedAuthAttempt (i_rl w) (rq_addr rq) n n n n n with
  | (registered, Allowed, rl) =>
      match auth_step o rq (with_rl rl w) with
      | Some (inl (user, auth), w) => Some (w, TCreate rq user auth registered)
      | Some (inr p, w) => Some (release rq registered w, TDone p)
      | None => None
      end
  | (registered, _, rl) =>
      refuse (release rq registered (with_rl rl w)) ResourceExhausted "authentication rate limit exceeded"
  end.

Definition tnext (o : oracle) (t : thread) (w : ingress) : option (ingress * thread) :=
  match t with
  | TRequest rq => request_next o rq w
  | TReap => match o with Go => let '(dead, w) := reapIdle cfg w in Some (w, TReaped dead) | _ => None end
  | TReaped (tr :: todo) => match o with Go => Some (discard tr w, TReaped todo) | _ => None end
  | TReaped [] | TDone _ => None
  | TLookup _ _ | TExpired _ _ | TReconnect _ _ | TRejoin _ _ _ | TRecovered _ _ _ _ | TAdopt _ _ _ _
  | TAdopted _ _ _ | TFound _ _ _ => token_next o t w
  | TCreate _ _ _ _ | TGetOrCreate _ | TProvider _ | TNote _ _ _ | TInsert _ _ _ | TUndo _ _ _ | TMissed _
  | TForced _ _ | TInserted _ _ | TReady _ _ => boot_next o t w
  | TRpc _ _ | TWait _ _ _ | TRun _ _ _ | TStream _ _ | TClose _ _ => rpc_next o t w
  end.

Inductive event :=
  | Run (i : nat) (o : oracle)
  | Call (rq : request)
  | ReapTick                             (** the periodic reap *)
  | Elapse (d : Z)                       (** time passes *)
  | Poll (cs : ConfigStore)              (** the configuration is loaded again *)
  | Drain
  | NewStack (org : string)              (** an org gets its stack: NewSessionManager *)
  | TakePid (org : string).              (** ReservePID for a Postgres connection *)

Record system := { world : ingress; threads : list thread }.

Definition step (e : event) (S : system) : option system :=
  let w := world S in
  match e with
  | Run i o =>
      t ← threads S !! i;
      '(w, t') ← tnext o t w;
      Some {| world := w; threads := <[i := t']> (threads S) |}
  | Call rq => Some {| world := w; threads := threads S ++ [TRequest rq] |}
  | ReapTick => Some {| world := w; threads := threads S ++ [TReap] |}
  | Elapse d => if bool_decide (0 ≤ d) then Some {| world := with_now (i_now w + d) w; threads := threads S |} else None
  | Poll cs => Some {| world := with_config cs w; threads := threads S |}
  | Drain => Some {| world := SetDraining w; threads := threads S |}
  | NewStack org =>
      match i_managers w !! org with
      | None => Some {| world := with_provider (<[org := {| m_nextPID := 1000; m_live := ∅ |}]> (i_managers w))
                                   (i_userOrg w) (i_pidSession w) w; threads := threads S |}
      | Some _ => None
      end
  | TakePid org =>
      m ← i_managers w !! org;
      Some {| world := with_provider (<[org := {| m_nextPID := wrap_s 32 (m_nextPID m + 1); m_live := m_live m |}]> (i_managers w))
                         (i_userOrg w) (i_pidSession w) w; threads := threads S |}
  end.

Fixpoint run (es : list event) (S : system) : option system :=
  match es with
  | [] => Some S
  | e :: es' => S ← step e S; run es' S
  end.

(** A control plane starts without sessions; the durable records are those of the
    others, or of its own last life. *)
Definition start (now : Z) (rl : option RateLimiter) (cs : ConfigStore) (durable : gmap string DurableSessionRecord) : system :=
  {| world := {| i_now := now; i_rl := rl; i_cs := cs; i_draining := false; i_objs := []; i_sessions := ∅; i_byKey := ∅;
                 i_managers := ∅; i_userOrg := ∅; i_pidSession := ∅; i_durable := durable |};
     threads := [] |}.

(** Systems reached when only configurations that satisfy [P] are loaded. *)
Inductive reachable (P : ConfigStore → Prop) : system → Prop :=
  | reach_start now rl cs durable : P cs → reachable P (start now rl cs durable)
  | reach_step S e S' : reachable P S → (∀ cs, e = Poll cs → P cs) → step e S = Some S' → reachable P S'.
End handlers.
