(* ===== verification/FlightTheorems.v ===== *)
(** Invariants of the Flight SQL ingress (FlightStore) over every interleaving of
    requests, reaps and reloads. *)

From Stdlib Require Import Strings.Byte.
From stdpp Require Import prelude gmap strings list fin_maps.
From Stdlib Require Import ZArith Lia.
From S2P Require Import Prelude GoText SqlScan ErrorCodes Auth ConfigStore FlightStream FlightSession FlightStore.

Open Scope string_scope.
Open Scope list_scope.
Open Scope Z_scope.

(** * Cases of a step *)

Ltac isplit H :=
  unfold auth_step, answer in H;
  cbn [tnext token_next boot_next rpc_next] in H; cbv zeta in H;
  repeat (match type of H with
          | context [match ?x with _ => _ end] =>
              lazymatch x with
              | context [match _ with _ => _ end] => fail
              | _ => destruct x eqn:?
              end
          end; cbn beta iota in H; try discriminate H);
  cbn [mbind option_bind] in H;
  try (injection H as <- <-).

Section rule.
Context `{HB : Bcrypt} `{HU : UnicodeCase} `{HW : Worker} (dep : deployment) (cfg : settings) (P : ConfigStore → Prop).

(** What an event other than a goroutine's step does to the world. *)
Inductive outside (w : ingress) : ingress → Prop :=
  | outside_time d : 0 ≤ d → outside w (with_now (i_now w + d) w)
  | outside_config cs : P cs → outside w (with_config cs w)
  | outside_drain : outside w (SetDraining w)
  | outside_stack org : i_managers w !! org = None →
      outside w (with_provider (<[org := {| m_nextPID := 1000; m_live := ∅ |}]> (i_managers w)) (i_userOrg w) (i_pidSession w) w)
  | outside_pid org m : i_managers w !! org = Some m →
      outside w (with_provider (<[org := {| m_nextPID := wrap_s 32 (m_nextPID m + 1); m_live := m_live m |}]> (i_managers w))
                   (i_userOrg w) (i_pidSession w) w).

Context (I : ingress → list thread → Prop).
Hypothesis I_perm : ∀ w ts ts', ts ≡ₚ ts' → I w ts → I w ts'.
Hypothesis I_start : ∀ now rl cs durable, P cs → I (world (start now rl cs durable)) [].
Hypothesis I_run : ∀ o t w rest w' t', I w (t :: rest) → tnext dep cfg o t w = Some (w', t') → I w' (t' :: rest).
Hypothesis I_outside : ∀ w w' ts, outside w w' → I w ts → I w' ts.
Hypothesis I_call : ∀ rq w ts, I w ts → I w (TRequest rq :: ts).
Hypothesis I_reap : ∀ w ts, I w ts → I w (TReap :: ts).

Lemma ingress_invariant S : reachable dep cfg P S → I (world S) (threads S).
Proof using All.
  induction 1 as [now rl cs durable HP|S e S' HS IH HP Hstep]; [by apply I_start|].
  destruct e as [i o|rq| |d|cs| |org|org]; cbn in Hstep.
  - destruct (threads S !! i) as [t|] eqn:Et; [|done]. cbn in Hstep.
    destruct (tnext dep cfg o t (world S)) as [[w' t']|] eqn:En; [|done]. cbn in Hstep. injection Hstep as <-. cbn.
    pose proof (take_drop_middle _ _ _ Et) as Hts.
    eapply I_perm; [|eapply (I_run o t (world S) (take i (threads S) ++ drop (Datatypes.S i) (threads S))); [|exact En]].
    + rewrite insert_take_drop by (by eapply lookup_lt_Some). apply Permutation_middle.
    + eapply I_perm; [|exact IH]. rewrite <- Hts at 1. symmetry. apply Permutation_middle.
  - injection Hstep as <-. cbn. eapply I_perm; [apply Permutation_cons_append|]. by apply I_call.
  - injection Hstep as <-. cbn. eapply I_perm; [apply Permutation_cons_append|]. by apply I_reap.
  - case_bool_decide; [|done]. injection Hstep as <-. by eapply I_outside; [constructor|].
  - injection Hstep as <-. eapply I_outside; [|done]. constructor. by apply HP.
  - injection Hstep as <-. by eapply I_outside; [constructor|].
  - destruct (i_managers (world S) !! org) eqn:Em; [done|]. injection Hstep as <-. by eapply I_outside; [constructor|].
  - destruct (i_managers (world S) !! org) eqn:Em; [|done]. cbn in Hstep. injection Hstep as <-. by eapply I_outside; [by constructor|].
Qed.
End rule.

(** * What a step does to the sessions *)

(** A session keeps who it is; only its work changes. *)
Definition same_session (s s' : flightClientSession) : Prop :=
  fs_pid s' = fs_pid s ∧ fs_token s' = fs_token s ∧ fs_username s' = fs_username s ∧ fs_org s' = fs_org s.

#[export] Instance same_session_preorder : PreOrder same_session.
Proof. split; [done|]. unfold same_session. intros a b c. intuition congruence. Qed.

(** What the worker is asked changes neither the session nor its transaction. *)
Lemma exec_same `{Worker} q s e s' : execWithRecoveryLocked q s = (e, s') →
  same_session s s' ∧ fs_activeTxn s' = fs_activeTxn s ∧ fs_txns s' = fs_txns s ∧ fs_opMu s' = fs_opMu s.
Proof.
  unfold execWithRecoveryLocked, execLocked. cbv zeta.
  repeat (match goal with |- context [match ?x with _ => _ end] =>
            lazymatch x with context [match _ with _ => _ end] => fail | _ => destruct x end end; cbn);
    intros [= <- <-]; done.
Qed.

(** At most one transaction is open, and the flag says whether one is. *)
Definition txn_ok (s : flightClientSession) : Prop :=
  if fs_activeTxn s then ∃ k, fs_txns s = {[ k ]} else fs_txns s = ∅.

(** A step of work on a session: who it is, its transaction invariant and its lock stay. *)
Definition works (s s' : flightClientSession) : Prop :=
  same_session s s' ∧ (txn_ok s → txn_ok s') ∧ fs_opMu s' = fs_opMu s.

#[export] Instance works_preorder : PreOrder works.
Proof.
  split; [intros s; unfold works; by auto|]. intros a b c (H1 & H2 & H3) (H4 & H5 & H6).
  split; [by etrans|]. split; [auto|congruence].
Qed.

Lemma works_begin `{Worker} s r s' : beginTransaction s = (r, s') → works s s'.
Proof.
  unfold beginTransaction. destruct (fs_activeTxn s) eqn:Ea; [by intros [= <- <-]|].
  destruct (execWithRecoveryLocked _ s) as [e s1] eqn:E. apply exec_same in E as (Es & Eact & Etx & Emu).
  destruct e; [|cbn]; intros [= <- <-]; (split; [done|]); unfold txn_ok; cbn; rewrite ?Eact, ?Etx, Ea; [done|].
  split; [|done]. intros ->. eexists. by rewrite (right_id_L ∅ (∪)).
Qed.

Lemma works_end `{Worker} k a s r s' : endTransaction k a s = (r, s') → works s s'.
Proof.
  unfold endTransaction. destruct (negb (fs_activeTxn s) || negb (hasTxn k s)) eqn:Eg; [by intros [= <- <-]|].
  apply orb_false_iff in Eg as [Ea Et]. apply negb_false_iff in Ea, Et. unfold hasTxn in Et. apply bool_decide_eq_true in Et.
  assert (∀ s1, same_session s s1 → fs_txns s1 = fs_txns s → fs_opMu s1 = fs_opMu s →
    works s (set_txns false (fs_txns s1 ∖ {[k]}) s1)) as Hclose.
  { intros s1 Es Etx Emu. split; [done|]. split; [|done]. unfold txn_ok. cbn. rewrite Ea, Etx.
    intros [k' E]. rewrite E in Et |- *. set_solver. }
  assert (∀ s1, same_session s s1 → fs_activeTxn s1 = fs_activeTxn s → fs_txns s1 = fs_txns s → fs_opMu s1 = fs_opMu s → works s s1) as Hkeep.
  { intros s1 Es Eact Etx Emu. split; [done|]. split; [|done]. unfold txn_ok. by rewrite Eact, Etx. }
  destruct a.
  1,2: destruct (execWithRecoveryLocked _ s) as [e s1] eqn:E; apply exec_same in E as (Es & Eact & Etx & Emu);
    destruct e; intros [= <- <-]; [by apply Hkeep|by apply Hclose].
  unfold execLocked. intros [= <- <-]. by apply (Hclose (set_work (fs_sent s ++ ["ROLLBACK"]) (fs_counter s) (fs_streams s) (fs_opMu s) s)).
Qed.

Lemma works_exec `{Worker} q s e s' : execWithRecoveryLocked q s = (e, s') → works s s'.
Proof.
  intros (Es & Ea & Et & Em)%exec_same. split; [done|]. split; [|done]. unfold txn_ok. by rewrite Ea, Et.
Qed.

Lemma works_get now h s q s' : getQuery now h s = (q, s') → works s s'.
Proof. unfold getQuery. destruct (fs_queries s !! h); by intros [= <- <-]. Qed.

Lemma works_prepare `{UnicodeCase} now rq s p s' : prepare now rq s = (p, s') → works s s'.
Proof.
  unfold prepare. destruct (rq_rpc rq); cbv zeta; intros Hp;
    repeat (match type of Hp with context [match ?x with _ => _ end] =>
      lazymatch x with context [match _ with _ => _ end] => fail | _ => destruct x eqn:? end end; cbn in Hp);
    simplify_eq; try done; try (by eapply works_get).
Qed.

Lemma works_finish `{Worker} now rq q s p s' : finish now rq q s = (p, s') → works s s'.
Proof.
  unfold finish. destruct (rq_rpc rq); cbv zeta; intros Hp;
    repeat (match type of Hp with context [match ?x with _ => _ end] =>
      lazymatch x with context [match _ with _ => _ end] => fail | _ => destruct x eqn:? end end; cbn in Hp);
    simplify_eq; try done;
    first [by eapply works_exec|by eapply works_begin|by eapply works_end|etrans; [by eapply works_exec|done]].
Qed.

(** * What the pieces leave alone *)

(** The store and the routing table are untouched. *)
Definition frame (w w' : ingress) : Prop :=
  i_objs w' = i_objs w ∧ i_sessions w' = i_sessions w ∧ i_byKey w' = i_byKey w ∧ i_userOrg w' = i_userOrg w ∧ i_cs w' = i_cs w.

#[export] Instance frame_preorder : PreOrder frame.
Proof. split; [done|]. unfold frame. intros a b c. intuition congruence. Qed.

Lemma frame_fail rq w : frame w (fail_auth rq w).
Proof. done. Qed.
Lemma frame_release rq b w : frame w (release rq b w).
Proof. by destruct b. Qed.
Lemma frame_durable token w : frame w (close_durable token w).
Proof. done. Qed.
Lemma frame_note dep pid org w : frame w (note_pid dep pid org w).
Proof. unfold note_pid. by destruct (multi dep). Qed.
Lemma frame_manager_destroy org pid w : frame w (manager_destroy org pid w).
Proof. unfold manager_destroy. by destruct (i_managers w !! org). Qed.
Lemma frame_destroy dep pid w : frame w (DestroySession dep pid w).
Proof.
  unfold DestroySession. destruct (multi dep); [|apply frame_manager_destroy].
  destruct (i_pidSession w !! pid) as [org|]; [|done]. apply (frame_manager_destroy org pid w).
Qed.
Lemma frame_discard dep tr w : frame w (discard dep tr w).
Proof.
  unfold discard. destruct (i_objs w !! tr.2); [|done]. destruct (multi dep); [|apply frame_destroy].
  apply (frame_destroy dep (fs_pid f) w).
Qed.
Lemma frame_persist dep fault r w : frame w (persistSession dep fault r w).
Proof.
  unfold persistSession. destruct (i_objs w !! r); [|done]. destruct (_ || _); [done|].
  by destruct (DurableSessionMetadata _ w) as [[??]|].
Qed.
Lemma frame_create org wid w pid w' : manager_create org wid w = Some (pid, w') → frame w w'.
Proof. unfold manager_create. destruct (i_managers w !! org); [|done]. by intros [= <- <-]. Qed.
Lemma frame_with_rl rl w : frame w (with_rl rl w).
Proof. done. Qed.
#[export] Hint Resolve frame_fail frame_release frame_durable frame_note frame_destroy frame_discard frame_persist
  frame_create frame_with_rl : duckgres.

(** Authentication touches the routing table only, and with the org it answers. *)
Lemma auth_frame `{Bcrypt} dep order rq w a w' : authenticateBasicCredentials dep order rq w = (a, w') →
  i_objs w' = i_objs w ∧ i_sessions w' = i_sessions w ∧ i_byKey w' = i_byKey w ∧ i_managers w' = i_managers w ∧
  i_pidSession w' = i_pidSession w ∧ i_cs w' = i_cs w ∧
  match a with
  | inl (u, org) => (∃ pw, validate dep (i_cs w) order (rq_sni rq) u pw = Some org) ∧
      i_userOrg w' = if multi dep then <[u := org]> (i_userOrg w) else i_userOrg w
  | inr _ => i_userOrg w' = i_userOrg w
  end.
Proof.
  unfold authenticateBasicCredentials. destruct (rq_authorization rq) as [|h hs]; [by intros [= <- <-]|].
  destruct (parseBasicCredentials h) as [[u pw]|e]; [|by intros [= <- <-]].
  destruct (validate dep (i_cs w) order (rq_sni rq) u pw) as [org|] eqn:Ev; [|by intros [= <- <-]].
  intros [= <- <-]. destruct (multi dep); cbn; eauto 10.
Qed.

(** A step keeps every session object at work and may add one, which is idle. *)
Definition heap_ok (w w' : ingress) : Prop :=
  (∀ r s, i_objs w !! r = Some s → ∃ s', i_objs w' !! r = Some s' ∧ works s s') ∧
  (∀ r s', i_objs w' !! r = Some s' → i_objs w !! r = None → txn_ok s' ∧ fs_opMu s' = false).

Lemma heap_same w w' : i_objs w' = i_objs w → heap_ok w w'.
Proof. intros E. unfold heap_ok. rewrite E. split; [intros r s Hs; by exists s|congruence]. Qed.

Lemma heap_frame w w' : frame w w' → heap_ok w w'.
Proof. intros (E & _). by apply heap_same. Qed.

Lemma heap_trans w w1 w2 : heap_ok w w1 → heap_ok w1 w2 → heap_ok w w2.
Proof.
  intros [H1 H2] [H3 H4]. split.
  - intros r s Hs. destruct (H1 r s Hs) as (s1 & Hs1 & W1), (H3 r s1 Hs1) as (s2 & Hs2 & W2).
    exists s2. split; [done|]. by etrans.
  - intros r s2 Hs2 Hn. destruct (i_objs w1 !! r) as [s1|] eqn:E1; [|by eapply H4].
    destruct (H2 r s1 E1 Hn) as [T1 M1], (H3 r s1 E1) as (s2' & E2 & W2 & T2 & M2).
    assert (s2' = s2) as -> by congruence. split; [auto|congruence].
Qed.

Lemma heap_alter f r w : (∀ s, i_objs w !! r = Some s → works s (f s)) →
  ∀ w', i_objs w' = alter f r (i_objs w) → heap_ok w w'.
Proof.
  intros Hf w' E. split; rewrite E.
  - intros r' s Hs. destruct (decide (r' = r)) as [->|].
    + exists (f s). rewrite list_lookup_alter_eq, Hs. auto.
    + exists s. rewrite list_lookup_alter_ne by done. done.
  - intros r' s Hs Hn. apply lookup_ge_None in Hn. apply lookup_lt_Some in Hs. rewrite length_alter in Hs. lia.
Qed.

Lemma heap_upd f r w : (∀ s, i_objs w !! r = Some s → works s (f s)) → heap_ok w (upd f r w).
Proof. intros Hf. by apply (heap_alter f r w Hf). Qed.

Lemma heap_const r s s' w : i_objs w !! r = Some s → works s s' → heap_ok w (upd (λ _, s') r w).
Proof. intros Hs Hw. apply heap_upd. intros s0 Hs0. by simplify_eq. Qed.

Lemma heap_touch n r w : heap_ok w (upd (touch n) r w).
Proof. by apply heap_upd. Qed.

Lemma heap_snoc w w' s : i_objs w' = i_objs w ++ [s] → txn_ok s → fs_opMu s = false → heap_ok w w'.
Proof.
  intros E Ht Hm. split; rewrite E.
  - intros r s0 Hs. exists s0. by rewrite (lookup_app_l_Some _ _ _ _ Hs).
  - intros r s' Hs Hn. apply lookup_app_Some in Hs as [Hs|[_ Hs]]; [congruence|].
    apply list_lookup_singleton_Some in Hs as [_ ->]. done.
Qed.

Lemma heap_insert cfg key user org pid ts w r w' : insert_session cfg key user org pid ts w = (r, w') → heap_ok w w'.
Proof.
  unfold insert_session. destruct (getExistingByKey key w); [intros [= <- <-]; by apply heap_same|].
  destruct (draw ts (i_sessions w)); intros [= <- <-]; [|by apply heap_same]. by eapply heap_snoc.
Qed.

Lemma heap_adopt token rec org pid w r w' : adopt_session token rec org pid w = (r, w') → heap_ok w w'.
Proof. intros [= <- <-]. by eapply heap_snoc. Qed.

Lemma works_reap now ttl s : works s (reapStaleHandles now ttl s).
Proof. unfold reapStaleHandles. by case_bool_decide. Qed.

Lemma heap_reap cfg w dead w' : reapIdle cfg w = (dead, w') → heap_ok w w'.
Proof.
  unfold reapIdle. intros [= <- <-].
  match goal with |- heap_ok _ ?w' => set (w1 := w') end.
  assert (∀ l : list (string * nat), heap_ok w
    (with_store (foldr (λ tr os, alter (reapStaleHandles (i_now w) (handleIdleTTL cfg)) tr.2 os) (i_objs w) l) ∅ ∅ w)) as Hl.
  { induction l as [|tr l IH]; cbn; [by apply heap_same|].
    eapply heap_trans; [exact IH|]. eapply heap_alter; [|reflexivity]. intros s _. apply works_reap. }
  eapply heap_trans; [apply (Hl (map_to_list (i_sessions w)))|]. by apply heap_same.
Qed.

Lemma heap_forget token w : heap_ok w (forget token w).
Proof. by apply heap_same. Qed.

Lemma heap_close token w r w' : CloseByToken token w = (r, w') → heap_ok w w'.
Proof. unfold CloseByToken. destruct (i_sessions w !! token); intros [= <- <-]; by apply heap_same. Qed.

Lemma heap_lookup cfg token w r w' : GetByToken cfg token w = (r, w') → heap_ok w w'.
Proof.
  unfold GetByToken. destruct (session_at w token) as [[r0 s0]|]; [|intros [= <- <-]; by apply heap_same].
  destruct (_ && _); [intros [= <- <-]; by apply heap_same|].
  destruct (_ && _); intros [= <- <-]; by apply heap_same.
Qed.

Lemma heap_auth `{Bcrypt} dep order rq w a w' : authenticateBasicCredentials dep order rq w = (a, w') → heap_ok w w'.
Proof. intros (E & _)%auth_frame. by apply heap_same. Qed.

Section steps.
Context `{HB : Bcrypt} `{HU : UnicodeCase} `{HW : Worker} (dep : deployment) (cfg : settings).

(** The steps in which opMu changes hands, or is held. *)
Definition locking (t : thread) : bool :=
  match t with TWait _ _ _ | TRun _ _ _ | TStream _ _ => true | _ => false end.

(** Takes the outermost operation off the world after a step. *)
Ltac peel :=
  lazymatch goal with
  | |- heap_ok _ (fail_auth _ ?i) => eapply (heap_trans _ i); [|apply heap_frame, frame_fail]
  | |- heap_ok _ (with_rl _ ?i) => eapply (heap_trans _ i); [|apply heap_frame, frame_with_rl]
  | |- heap_ok _ (release _ _ ?i) => eapply (heap_trans _ i); [|apply heap_frame, frame_release]
  | |- heap_ok _ (close_durable _ ?i) => eapply (heap_trans _ i); [|apply heap_frame, frame_durable]
  | |- heap_ok _ (DestroySession _ _ ?i) => eapply (heap_trans _ i); [|apply heap_frame, frame_destroy]
  | |- heap_ok _ (discard _ _ ?i) => eapply (heap_trans _ i); [|apply heap_frame, frame_discard]
  | |- heap_ok _ (persistSession _ _ _ ?i) => eapply (heap_trans _ i); [|apply heap_frame, frame_persist]
  | |- heap_ok _ (note_pid _ _ _ ?i) => eapply (heap_trans _ i); [|apply heap_frame, frame_note]
  | |- heap_ok _ (upd (touch _) _ ?i) => eapply (heap_trans _ i); [|apply heap_touch]
  end.
Ltac heap_step :=
  repeat peel;
  first
    [ by apply heap_same
    | by eauto using heap_lookup, heap_insert, heap_adopt, heap_reap, heap_auth
    | by eapply heap_frame, frame_create ].

Lemma token_heap o t w w' t' : token_next dep cfg o t w = Some (w', t') → heap_ok w w'.
Proof. intros Hn. destruct t; try done; isplit Hn; heap_step. Qed.

Lemma boot_heap o t w w' t' : boot_next dep cfg o t w = Some (w', t') → heap_ok w w'.
Proof. intros Hn. destruct t; try done; isplit Hn; heap_step. Qed.

Lemma rpc_heap o t w w' t' : locking t = false → rpc_next dep o t w = Some (w', t') → heap_ok w w'.
Proof.
  intros Hl Hn. destruct t; try done; isplit Hn;
    first [ heap_step
          | by eapply heap_const; [done|]; eapply works_prepare
          | eapply heap_const; [done|]; etrans; [by eapply works_prepare|done]
          | by eapply heap_close ].
Qed.

(** The start of a request ends it, looks for its token, or has authenticated its user. *)
Lemma request_cases o rq w w' t' : request_next dep o rq w = Some (w', t') →
  (frame w w' ∧ i_managers w' = i_managers w ∧ i_pidSession w' = i_pidSession w ∧ (t' = TLookup rq None ∨ ∃ p, t' = TDone p)) ∨
  (∃ order rl a w1, authenticateBasicCredentials dep order rq (with_rl rl w) = (a, w1) ∧
    order ≡ₚ match cs_snapshot (i_cs w) with Some s => map_to_list (s_OrgUserPassword s) | None => [] end ∧
    frame w1 w' ∧ i_managers w' = i_managers w1 ∧ i_pidSession w' = i_pidSession w1 ∧
    match a with
    | inl (u, auth) => t' = TLookup rq (Some u) ∨ ∃ b, t' = TCreate rq u auth b
    | inr p => t' = TDone p
    end).
Proof.
  unfold request_next. cbv zeta. destruct (negb (rq_metadata rq)).
  { destruct o; try done. intros [= <- <-]. left. split_and!; [by destruct (rq_rpc rq)..|]. right. by eexists. }
  case_bool_decide as Ht.
  - destruct (rq_authorization rq) as [|h hs] eqn:Ea.
    { destruct o; try done. intros [= <- <-]. left. split_and!; try done. by left. }
    unfold auth_step. destruct o as [|order| | | | |]; try done. case_bool_decide as Ho; [|done].
    destruct (authenticateBasicCredentials dep order rq w) as [a w1] eqn:E.
    intros Hn. right. exists order, (i_rl w), a, w1. split; [by destruct w|]. split; [done|].
    destruct a as [[u auth]|p]; injection Hn as <- <-; split_and!; try done. by left.
  - destruct (match rq_rpc rq with CloseSession => true | _ => false end).
    { destruct o; try done. intros [= <- <-]. left. split_and!; try done. right. by eexists. }
    destruct (BeginRateLimitedAuthAttempt _ _ _ _ _ _ _) as [[b msg] rl].
    destruct msg; try (destruct o; try done; intros [= <- <-]; left; split_and!; [by destruct b..|right; by eexists]).
    unfold auth_step. destruct o as [|order| | | | |]; try done. case_bool_decide as Ho; [|done].
    destruct (authenticateBasicCredentials dep order rq (with_rl rl w)) as [a w1] eqn:E.
    intros Hn. right. exists order, rl, a, w1. split; [done|]. split; [done|].
    destruct a as [[u auth]|p]; injection Hn as <- <-; split_and!; try done; [right; by eexists|by destruct b..].
Qed.

Lemma request_heap o rq w w' t' : request_next dep o rq w = Some (w', t') → heap_ok w w'.
Proof.
  intros [(Hf & _)|(order & rl & a & w1 & E & _ & Hf & _)]%request_cases; [by apply heap_frame|].
  eapply heap_trans; [|by apply heap_frame]. eapply heap_trans; [|by eapply heap_auth]. apply heap_frame, frame_with_rl.
Qed.

Lemma tnext_heap o t w w' t' : locking t = false → tnext dep cfg o t w = Some (w', t') → heap_ok w w'.
Proof.
  intros Hl Hn. destruct t; cbn [tnext] in Hn;
    first [exact (request_heap _ _ _ _ _ Hn)|exact (token_heap _ _ _ _ _ Hn)|exact (boot_heap _ _ _ _ _ Hn)
          |exact (rpc_heap _ _ _ _ _ Hl Hn)|isplit Hn; heap_step].
Qed.

(** ** opMu *)

(** Threads in the worker on behalf of session [r]. *)
Definition runs_on (r : nat) (t : thread) : bool :=
  match t with TRun _ r' _ | TStream _ r' => bool_decide (r' = r) | _ => false end.
Definition running (r : nat) (ts : list thread) : nat := length (filter (λ t, runs_on r t = true) ts).

Lemma running_cons r t ts : running r (t :: ts) = ((if runs_on r t then 1 else 0) + running r ts)%nat.
Proof. unfold running. rewrite filter_cons. destruct (runs_on r t); by case_decide. Qed.

Definition held (w : ingress) (r : nat) : nat :=
  match i_objs w !! r with Some s => if fs_opMu s then 1 else 0 | None => 0 end.

Definition mu_inv (w : ingress) (ts : list thread) : Prop :=
  (∀ r, running r ts = held w r) ∧ ∀ r s, i_objs w !! r = Some s → txn_ok s.

Lemma not_running o t w w' t' : locking t = false → tnext dep cfg o t w = Some (w', t') → ∀ r, runs_on r t' = false.
Proof.
  intros Hl Hn. destruct t; try done; cbn [tnext] in Hn.
  { apply request_cases in Hn as [(_ & _ & _ & [->|[p ->]])|(order & rl & a & w1 & _ & _ & _ & _ & _ & Ht)]; try done.
    destruct a as [[u auth]|p]; [|by rewrite Ht]. by destruct Ht as [->|[b ->]]. }
  all: isplit Hn; done.
Qed.

Lemma held_heap w w' : heap_ok w w' → ∀ r, held w' r = held w r.
Proof.
  intros [H1 H2] r. unfold held. destruct (i_objs w !! r) as [s|] eqn:E.
  - destruct (H1 r s E) as (s' & -> & _ & _ & ->). done.
  - destruct (i_objs w' !! r) as [s'|] eqn:E'; [|done]. by destruct (H2 r s' E' E) as [_ ->].
Qed.

Lemma txn_alter f r w w' : i_objs w' = alter f r (i_objs w) → (∀ s, i_objs w !! r = Some s → txn_ok s → txn_ok (f s)) →
  (∀ k s, i_objs w !! k = Some s → txn_ok s) → ∀ k s, i_objs w' !! k = Some s → txn_ok s.
Proof.
  intros E Hf Ht k s. rewrite E. destruct (decide (k = r)) as [->|].
  - rewrite list_lookup_alter_eq. destruct (i_objs w !! r) as [s0|] eqn:E0; [|done]. intros [= <-]. eauto.
  - rewrite list_lookup_alter_ne by done. apply Ht.
Qed.

Definition one (b : bool) : nat := if b then 1 else 0.

(** A step on one session alone, whose thread takes up or gives up what the lock does. *)
Lemma mu_alter f r s w w' t t' rest : mu_inv w (t :: rest) → i_objs w' = alter f r (i_objs w) → i_objs w !! r = Some s →
  (txn_ok s → txn_ok (f s)) → (∀ k, k ≠ r → runs_on k t' = runs_on k t) →
  (one (runs_on r t') + one (fs_opMu s) = one (runs_on r t) + one (fs_opMu (f s)))%nat → mu_inv w' (t' :: rest).
Proof.
  intros [Hr Ht] E Es Hf Ho Hone. split; [|by eapply (txn_alter f r w); [done|intros s0 Hs0; simplify_eq|]].
  intros k. specialize (Hr k). rewrite running_cons in *. unfold held in *. rewrite E. destruct (decide (k = r)) as [->|Hk].
  - rewrite list_lookup_alter_eq, Es in *. cbn. unfold one in Hone. lia.
  - rewrite list_lookup_alter_ne by done. by rewrite Ho.
Qed.

Lemma mu_running w t rest r s : mu_inv w (t :: rest) → runs_on r t = true → i_objs w !! r = Some s → fs_opMu s = true.
Proof.
  intros [Hr _] Ht Es. specialize (Hr r). rewrite running_cons, Ht in Hr. unfold held in Hr. rewrite Es in Hr.
  destruct (fs_opMu s); [done|lia].
Qed.

Lemma mu_locking o t w rest w' t' : locking t = true → mu_inv w (t :: rest) → tnext dep cfg o t w = Some (w', t') →
  mu_inv w' (t' :: rest).
Proof.
  assert (∀ r k : nat, k ≠ r → bool_decide (r = k) = false) as Hk by (intros r k Hne; by apply bool_decide_eq_false_2).
  intros El HI Hn. destruct t; try done; cbn [tnext rpc_next] in Hn; destruct o; try done;
    (destruct (i_objs w !! r) as [s|] eqn:Es; [|done]).
  - destruct (fs_opMu s) eqn:Em; [done|]. injection Hn as <- <-.
    eapply (mu_alter lock r s); try done; cbn; [by intros k Hne; rewrite Hk|].
    by rewrite bool_decide_eq_true_2, Em.
  - pose proof (mu_running w _ rest r s HI) as Em. cbn in Em. rewrite bool_decide_eq_true_2 in Em by done.
    specialize (Em eq_refl Es). destruct (finish (i_now w) rq q s) as [p s1] eqn:Ef. apply works_finish in Ef as (_ & Htx & Emu).
    destruct p as [p|]; injection Hn as <- <-.
    + eapply (mu_alter (λ _, unlock s1) r s); try done; cbn; [by intros k Hne; rewrite Hk|].
      by rewrite bool_decide_eq_true_2, Em.
    + eapply (mu_alter (λ _, s1) r s); try done; cbn. by rewrite Emu.
  - pose proof (mu_running w _ rest r s HI) as Em. cbn in Em. rewrite bool_decide_eq_true_2 in Em by done.
    specialize (Em eq_refl Es). destruct (rq_rpc rq) as [| | | |h prep| | | |]; try done. injection Hn as <- <-.
    eapply mu_alter; [done|reflexivity|done|by destruct prep|by intros k Hne; cbn; rewrite Hk|].
    cbn. rewrite bool_decide_eq_true_2, Em by done. by destruct prep.
Qed.

Lemma mu_step o t w rest w' t' : mu_inv w (t :: rest) → tnext dep cfg o t w = Some (w', t') → mu_inv w' (t' :: rest).
Proof.
  destruct (locking t) eqn:El; [by apply mu_locking|]. intros [Hr Ht] Hn.
  pose proof (tnext_heap o t w w' t' El Hn) as Hh. pose proof (not_running o t w w' t' El Hn) as Hnr. split.
  - intros r. rewrite (held_heap w w' Hh), <- (Hr r), !running_cons, (Hnr r). by destruct t.
  - intros r s' Hs'. destruct (i_objs w !! r) as [s|] eqn:E; [|by eapply Hh].
    destruct Hh as [H1 _]. destruct (H1 r s E) as (s1 & Hs1 & _ & Htx & _). simplify_eq. eauto.
Qed.

Lemma running_perm r ts ts' : ts ≡ₚ ts' → running r ts = running r ts'.
Proof. intros E. unfold running. by rewrite E. Qed.

Lemma mu_holds P S : reachable dep cfg P S → mu_inv (world S) (threads S).
Proof.
  apply (ingress_invariant dep cfg P mu_inv).
  - intros w ts ts' E [Hr Ht]. split; [|done]. intros r. by rewrite <- (running_perm r _ _ E).
  - intros now rl cs durable _. split; [done|]. by intros r s.
  - intros o t w rest w' t'. apply mu_step.
  - intros w w' ts Ho [Hr Ht]. destruct Ho; done.
  - intros rq w ts [Hr Ht]. split; [|done]. intros r. by rewrite running_cons, Hr.
  - intros w ts [Hr Ht]. split; [|done]. intros r. by rewrite running_cons, Hr.
Qed.

(** C29. In every interleaving the worker runs at most one statement or stream of a session
    at a time, and a session has at most one open transaction, of which its flag tells. *)
Theorem one_statement_at_a_time P S : reachable dep cfg P S →
  ∀ r s, i_objs (world S) !! r = Some s →
  (running r (threads S) ≤ 1)%nat ∧
  if fs_activeTxn s then ∃ k, fs_txns s = {[ k ]} else fs_txns s = ∅.
Proof.
  intros [Hr Ht]%mu_holds r s Hs. split; [|by apply (Ht r s)]. rewrite Hr. unfold held. rewrite Hs. destruct (fs_opMu s); lia.
Qed.

(** ** Routing *)

(** Who a session is does not change, in any step. *)
Lemma tnext_kept o t w w' t' : tnext dep cfg o t w = Some (w', t') →
  ∀ r s, i_objs w !! r = Some s → ∃ s', i_objs w' !! r = Some s' ∧ same_session s s'.
Proof.
  intros Hn. destruct (locking t) eqn:El.
  2:{ intros r s Hs. destruct (tnext_heap o t w w' t' El Hn) as [H1 _]. destruct (H1 r s Hs) as (s' & Hs' & Hw & _). eauto. }
  assert (∃ f r0, i_objs w' = alter f r0 (i_objs w) ∧ ∀ s, i_objs w !! r0 = Some s → same_session s (f s)) as (f & r0 & E & Hf).
  { destruct t; try done; cbn [tnext rpc_next] in Hn; destruct o; try done;
      (destruct (i_objs w !! r) as [s|] eqn:Es; [|done]).
    - destruct (fs_opMu s); [done|]. injection Hn as <- <-. by exists lock, r.
    - destruct (finish (i_now w) rq q s) as [p s1] eqn:Ef. apply works_finish in Ef as [Hs _].
      destruct p; injection Hn as <- <-; [exists (λ _, unlock s1), r|exists (λ _, s1), r];
        (split; [done|]; intros s0 Hs0; by simplify_eq).
    - destruct (rq_rpc rq) as [| | | |h prep| | | |]; try done. injection Hn as <- <-.
      eexists _, r. split; [done|]. intros s0 _. by destruct prep. }
  intros r s Hs. rewrite E. destruct (decide (r = r0)) as [->|].
  - exists (f s). rewrite list_lookup_alter_eq, Hs. auto.
  - exists s. by rewrite list_lookup_alter_ne.
Qed.

(** The routing table and the configuration. *)
Definition routes (w w' : ingress) : Prop := i_userOrg w' = i_userOrg w ∧ i_cs w' = i_cs w.
Lemma routes_frame w w' : frame w w' → routes w w'.
Proof. by intros (_ & _ & _ & ? & ?). Qed.
Lemma routes_trans w w1 w2 : routes w w1 → routes w1 w2 → routes w w2.
Proof. intros [??] [??]. split; congruence. Qed.
Lemma routes_lookup token w r w' : GetByToken cfg token w = (r, w') → routes w w'.
Proof.
  unfold GetByToken. destruct (session_at w token) as [[??]|]; [|by intros [= <- <-]].
  destruct (_ && _); [by intros [= <- <-]|]. destruct (_ && _); by intros [= <- <-].
Qed.
Lemma routes_insert key user org pid ts w r w' : insert_session cfg key user org pid ts w = (r, w') → routes w w'.
Proof.
  unfold insert_session. destruct (getExistingByKey key w); [by intros [= <- <-]|].
  destruct (draw ts (i_sessions w)); by intros [= <- <-].
Qed.
Lemma routes_close token w r w' : CloseByToken token w = (r, w') → routes w w'.
Proof. unfold CloseByToken. destruct (i_sessions w !! token); by intros [= <- <-]. Qed.
Lemma routes_reap w d w' : reapIdle cfg w = (d, w') → routes w w'.
Proof. by intros [= <- <-]. Qed.

Lemma routes_adopt token rec org pid w r w' : adopt_session token rec org pid w = (r, w') → routes w w'.
Proof. by intros [= <- <-]. Qed.

Ltac peel_routes :=
  lazymatch goal with
  | |- routes _ (fail_auth _ ?i) => eapply (routes_trans _ i); [|done]
  | |- routes _ (release _ _ ?i) => eapply (routes_trans _ i); [|apply routes_frame, frame_release]
  | |- routes _ (close_durable _ ?i) => eapply (routes_trans _ i); [|done]
  | |- routes _ (DestroySession _ _ ?i) => eapply (routes_trans _ i); [|apply routes_frame, frame_destroy]
  | |- routes _ (discard _ _ ?i) => eapply (routes_trans _ i); [|apply routes_frame, frame_discard]
  | |- routes _ (persistSession _ _ _ ?i) => eapply (routes_trans _ i); [|apply routes_frame, frame_persist]
  | |- routes _ (note_pid _ _ _ ?i) => eapply (routes_trans _ i); [|apply routes_frame, frame_note]
  | |- routes _ (upd _ _ ?i) => eapply (routes_trans _ i); [|done]
  end.

Lemma tnext_routes o t w w' t' : (∀ rq, t ≠ TRequest rq) → tnext dep cfg o t w = Some (w', t') → routes w w'.
Proof.
  intros Ht Hn. destruct t; [by destruct (Ht rq)|..]; try done; cbn [tnext] in Hn; isplit Hn; repeat peel_routes;
    first [ done | by eauto using routes_lookup, routes_insert, routes_close, routes_reap, routes_adopt
          | by eapply routes_frame, frame_create ].
Qed.
End steps.

Section routing.
Context `{HB : Bcrypt} `{HU : UnicodeCase} `{HW : Worker} (mode : string) (suffixes : list string) (cfg : settings).
Context (home : string → string).
Local Abbreviation dep := (MultiTenant mode suffixes).

(** No two orgs have a user of the same name: a name has one home. *)
Definition homed (cs : ConfigStore) : Prop :=
  ∀ s n x, cs_snapshot cs = Some s → is_Some (s_OrgUserPassword s !! (n, x)) → n = home x.

Lemma find_user_in order x pw n : (find_user order x pw).1 = Some n → ∃ h, ((n, x), h) ∈ order.
Proof.
  induction order as [|[[m y] h] order IH]; cbn; [done|]. case_bool_decide as Ey; cbn.
  - destruct (CompareHashAndPassword h pw); [|done]. intros [= <-]. subst. exists h. by left.
  - intros [h' Hh]%IH. exists h'. by right.
Qed.

Lemma validated_at_home cs order sni x pw org : homed cs →
  order ≡ₚ match cs_snapshot cs with Some s => map_to_list (s_OrgUserPassword s) | None => [] end →
  validate dep cs order sni x pw = Some org → org = home x.
Proof.
  intros Hh Ho. unfold validate, ValidateCredentialsForSNI.
  assert (∀ p, authForSNIPrefix cs p x pw = Some org → org = home x) as Hp.
  { intros p. unfold authForSNIPrefix, ValidateOrgUser. case_bool_decide; [done|].
    destruct (cs_snapshot cs) as [s|] eqn:Es; [|done].
    destruct (s_OrgUserPassword s !! (_, x)) as [h|] eqn:Eh; [|done]. cbn.
    destruct (CompareHashAndPassword h pw); [|done]. intros [= <-]. eapply Hh; [done|by eexists]. }
  assert (authByScan cs order x pw = Some org → org = home x) as Hs.
  { unfold authByScan, FindAndValidateUser. destruct (cs_snapshot cs) as [s|] eqn:Es; [|done].
    intros [h Hin]%find_user_in. rewrite Ho in Hin. apply elem_of_map_to_list in Hin. eapply Hh; [done|by eexists]. }
  destruct (extractOrgFromSNI suffixes sni);
    repeat (match goal with |- context [bool_decide ?P] => destruct (bool_decide P) end); (apply Hp || apply Hs || done).
Qed.

Definition boot_ok (w : ingress) (b : bootstrap) : Prop :=
  b_auth b = home (b_user b) ∧ is_Some (i_userOrg w !! b_user b).

Definition routed (w : ingress) (t : thread) : Prop :=
  match t with
  | TCreate _ u auth _ => auth = home u ∧ is_Some (i_userOrg w !! u)
  | TGetOrCreate b | TProvider b | TMissed b | TForced b _ | TUndo b _ _ | TReady b _ => boot_ok w b
  | TNote b org _ | TInsert b org _ => boot_ok w b ∧ org = b_auth b
  | TInserted b r => boot_ok w b ∧ ∃ s, i_objs w !! r = Some s ∧ fs_org s = b_auth b ∧ fs_username s = b_user b
  | _ => True
  end.

Definition route_inv (w : ingress) (ts : list thread) : Prop :=
  (∀ u o, i_userOrg w !! u = Some o → o = home u) ∧ homed (i_cs w) ∧ Forall (routed w) ts.

Lemma routed_later w w' t : (∀ u, is_Some (i_userOrg w !! u) → is_Some (i_userOrg w' !! u)) →
  (∀ r s, i_objs w !! r = Some s → ∃ s', i_objs w' !! r = Some s' ∧ same_session s s') → routed w t → routed w' t.
Proof.
  intros Hu Ho. destruct t; cbn; unfold boot_ok; try naive_solver.
  intros [[? ?] (s & Hs & Eo & Eu)]. destruct (Ho r s Hs) as (s' & Hs' & _ & _ & E1 & E2).
  split; [by auto|]. exists s'. split; [done|]. split; congruence.
Qed.

Lemma insert_routed key user org pid ts w r w' : insert_session cfg key user org pid ts w = (Inserted r, w') →
  ∃ s, i_objs w' !! r = Some s ∧ fs_org s = org ∧ fs_username s = user.
Proof.
  unfold insert_session. destruct (getExistingByKey key w); [done|]. destruct (draw ts (i_sessions w)); [|done].
  intros [= <- <-]. eexists. cbn. by rewrite list_lookup_middle by done.
Qed.

Lemma route_rest w w' rest : (∀ u, is_Some (i_userOrg w !! u) → is_Some (i_userOrg w' !! u)) →
  (∀ r s, i_objs w !! r = Some s → ∃ s', i_objs w' !! r = Some s' ∧ same_session s s') →
  Forall (routed w) rest → Forall (routed w') rest.
Proof. intros Hu Ho Hr. eapply Forall_impl; [done|]. intros t. by apply routed_later. Qed.

Lemma route_request o rq w rest w' t' : route_inv w (TRequest rq :: rest) → tnext dep cfg o (TRequest rq) w = Some (w', t') →
  route_inv w' (t' :: rest).
Proof.
  intros (Hu & Hh & [Ht Hrest]%Forall_cons) Hn. pose proof (tnext_kept dep cfg o _ w w' t' Hn) as Hk. cbn [tnext] in Hn.
  apply request_cases in Hn as [(Hf & _ & _ & Ht')|(order & rl & a & w1 & Ea & Ho & Hf & _ & _ & Ht')];
    destruct (routes_frame _ _ Hf) as [E1 E2].
  { split; [by rewrite E1|]. split; [by rewrite E2|]. constructor; [by destruct Ht' as [->|[p ->]]|].
    apply (route_rest w w'); [by rewrite E1|done|done]. }
  apply auth_frame in Ea as (_ & _ & _ & _ & _ & Ecs & Ha). cbn in Ecs, Ha.
  destruct a as [[u auth]|p].
  - destruct Ha as [[pw Hv] EuO]. pose proof (validated_at_home _ _ _ _ _ _ Hh Ho Hv) as ->.
    split; [|split; [by rewrite E2, Ecs|constructor]].
    + intros u' o'. rewrite E1, EuO. intros [[<- <-]|[_ ?]]%lookup_insert_Some; eauto.
    + destruct Ht' as [->|[b ->]]; [done|]. split; [done|]. rewrite E1, EuO, lookup_insert_eq. by eexists.
    + apply (route_rest w w'); [|done|done]. intros u'. rewrite E1, EuO. intros Hs.
      destruct (decide (u = u')) as [->|]; [rewrite lookup_insert_eq; by eexists|by rewrite lookup_insert_ne].
  - split; [by rewrite E1, Ha|]. split; [by rewrite E2, Ecs|]. constructor; [by rewrite Ht'|].
    apply (route_rest w w'); [by rewrite E1, Ha|done|done].
Qed.

Lemma route_step o t w rest w' t' : route_inv w (t :: rest) → tnext dep cfg o t w = Some (w', t') → route_inv w' (t' :: rest).
Proof.
  intros HI Hn. assert ((∃ rq, t = TRequest rq) ∨ ∀ rq, t ≠ TRequest rq) as [[rq ->]|Hno] by (destruct t; eauto; by right).
  { by eapply route_request. }
  destruct HI as (Hu & Hh & [Ht Hrest]%Forall_cons).
  destruct (tnext_routes dep cfg o t w w' t' Hno Hn) as [E1 E2]. pose proof (tnext_kept dep cfg o t w w' t' Hn) as Hk.
  split; [by rewrite E1|]. split; [by rewrite E2|]. constructor; [|apply (route_rest w w'); [by rewrite E1|done|done]].
  destruct t; try done; cbn [tnext] in Hn; isplit Hn; cbn [routed] in *; unfold boot_ok in *; rewrite ?E1; try done; try naive_solver.
  - destruct Ht as [Eb [x Ex]]. split; [split; [done|by eexists]|]. unfold routed_org. cbn. rewrite Ex, Eb. by eapply Hu.
  - destruct Ht as [Ht ->]. split; [done|by eapply insert_routed].
  - destruct Ht as [Ht ->]. split; [done|by eapply insert_routed].
Qed.

Lemma route_holds S : reachable dep cfg homed S → route_inv (world S) (threads S).
Proof.
  apply (ingress_invariant dep cfg homed route_inv).
  - intros w ts ts' E (Hu & Hh & Ht). split; [done|]. split; [done|by rewrite <- E].
  - intros now rl cs durable Hh. by repeat split.
  - intros o t w rest w' t'. apply route_step.
  - intros w w' ts Ho (Hu & Hh & Ht). destruct Ho; (split; [done|]; split; [done|]; apply (route_rest w); [done| |done]; intros r s Hs; by exists s).
  - intros rq w ts (Hu & Hh & Ht). split; [done|]. split; [done|]. by constructor.
  - intros w ts (Hu & Hh & Ht). split; [done|]. split; [done|]. by constructor.
Qed.

End routing.
