(* ===== verification/FlightAccounting.v ===== *)
(** Leak freedom of the Flight SQL session store without org routing: every session the
    manager has for the ingress is in the store, under its token, or in the hands of a
    goroutine that is about to put it there or to destroy it. *)

From Stdlib Require Import Strings.Byte.
From stdpp Require Import prelude gmap strings list fin_maps.
From Stdlib Require Import ZArith Lia.
From S2P Require Import Prelude GoText Auth ConfigStore FlightStream FlightSession FlightStore FlightTheorems.

Open Scope string_scope.
Open Scope list_scope.
Open Scope Z_scope.

Lemma draw_fresh ts sessions token : draw ts sessions = Some token → sessions !! token = None.
Proof. induction ts as [|[t|] ts IH]; cbn; try done. case_bool_decide; [by intros [= <-]|done]. Qed.

Section accounting.
Context `{HB : Bcrypt} `{HU : UnicodeCase} `{HW : Worker} (users : gmap string string) (cfg : settings).
Local Abbreviation dep := (SingleTenant users).

Definition pid_at (w : ingress) (r : nat) : option Z := fs_pid <$> i_objs w !! r.

(** The sessions of the process's session manager. *)
Definition live (w : ingress) (pid : Z) : Prop := ∃ m, i_managers w !! "" = Some m ∧ is_Some (m_live m !! pid).

Definition stored (w : ingress) (pid : Z) : Prop := ∃ token r, i_sessions w !! token = Some r ∧ pid_at w r = Some pid.

(** A goroutine that will insert the session, or destroy it. *)
Definition holds (w : ingress) (t : thread) (pid : Z) : Prop :=
  match t with
  | TNote _ _ p | TInsert _ _ p | TUndo _ p _ => p = pid
  | TExpired _ r | TClose _ r => pid_at w r = Some pid
  | TForced _ todo | TReaped todo => ∃ tr, tr ∈ todo ∧ pid_at w tr.2 = Some pid
  | _ => False
  end.

Definition accounted (w : ingress) (ts : list thread) : Prop :=
  ∀ pid, live w pid → stored w pid ∨ ∃ t, t ∈ ts ∧ holds w t pid.

(** A session that lives after a step lived before and stays where it can be found, or
    is in the hands of the goroutine that made the step. *)
Definition handed (w : ingress) (t : thread) (w' : ingress) (t' : thread) : Prop :=
  ∀ pid, live w' pid → holds w' t' pid ∨ live w pid ∧
    (stored w pid → stored w' pid ∨ holds w' t' pid) ∧ (holds w t pid → stored w' pid ∨ holds w' t' pid).

(** A step that leaves the managers and the session table alone. *)
Definition quiet (w w' : ingress) : Prop := i_managers w' = i_managers w ∧ i_sessions w' = i_sessions w.

Lemma quiet_trans w w1 w2 : quiet w w1 → quiet w1 w2 → quiet w w2.
Proof. intros [??] [??]. split; congruence. Qed.

Lemma live_quiet w w' pid : i_managers w' = i_managers w → live w' pid → live w pid.
Proof. unfold live. by intros ->. Qed.

Definition kept (w w' : ingress) : Prop := ∀ r p, pid_at w r = Some p → pid_at w' r = Some p.

Lemma stored_kept w w' pid : kept w w' → (∀ k r, i_sessions w !! k = Some r → i_sessions w' !! k = Some r) →
  stored w pid → stored w' pid.
Proof. intros Hk Hs (token & r & Ht & Hr). exists token, r. auto. Qed.

Lemma holds_kept w w' t pid : kept w w' → holds w t pid → holds w' t pid.
Proof. intros Hk. destruct t; cbn; eauto; intros (tr & Hin & Hr); eauto. Qed.

Lemma tnext_keeps_pids o t w w' t' : tnext dep cfg o t w = Some (w', t') → kept w w'.
Proof.
  intros Hn r p Hp. unfold pid_at in *. apply fmap_Some in Hp as (s & Hs & ->).
  destruct (tnext_kept dep cfg o t w w' t' Hn r s Hs) as (s' & -> & Es). cbn. f_equal. apply Es.
Qed.

Lemma handed_quiet w t w' t' : kept w w' → quiet w w' → (∀ p, holds w t p → holds w' t' p) → handed w t w' t'.
Proof.
  intros Hk [Em Es] Hh pid Hl. right. split; [by eapply live_quiet|]. split; [|by auto].
  intros Hs. left. eapply stored_kept; [done| |done]. by rewrite Es.
Qed.

Lemma live_destroy w pid q : live (manager_destroy "" q w) pid → live w pid ∧ pid ≠ q.
Proof.
  unfold live, manager_destroy. destruct (i_managers w !! "") as [m|] eqn:Em; cbn; [|rewrite Em; by intros (? & ? & ?)].
  rewrite lookup_insert_eq. intros (m' & [= <-] & [wid Hl]). cbn in Hl. apply lookup_delete_Some in Hl as [Hne Hl].
  split; [|done]. exists m. split; [done|by eexists].
Qed.

(** Destroying the session a goroutine holds. *)
Lemma handed_destroy w t q w' t' : kept w w' → i_sessions w' = i_sessions w → i_managers w' = i_managers (manager_destroy "" q w) →
  (∀ p, holds w t p → p = q ∨ holds w' t' p) → handed w t w' t'.
Proof.
  intros Hk Es Em Hh pid Hl. right.
  assert (live (manager_destroy "" q w) pid) as [Hlw Hne]%live_destroy by (unfold live in *; by rewrite <- Em).
  split; [done|]. split.
  - intros Hs. left. eapply stored_kept; [done| |done]. by rewrite Es.
  - intros [->|?]%Hh; [done|by right].
Qed.

Lemma handed_lookup token w w' r rq user : GetByToken cfg token w = (r, w') →
  match r with
  | Expired r => handed w (TLookup rq user) w' (TExpired rq r)
  | _ => w' = w
  end.
Proof.
  unfold GetByToken, session_at. destruct (i_sessions w !! token) as [r0|] eqn:Er; [|by intros [= <- <-]].
  cbn. destruct (i_objs w !! r0) as [s|] eqn:Es; [|by intros [= <- <-]]. cbn.
  assert (handed w (TLookup rq user) (forget token w) (TExpired rq r0)) as Hh.
  { intros pid Hl. right. split; [done|]. split; [|done]. intros (k & r1 & Hk & Hr).
    destruct (decide (k = token)) as [->|]; [right; by simplify_eq|]. left. exists k, r1. split; [|done].
    cbn. by rewrite lookup_delete_ne. }
  destruct (_ && _); [by intros [= <- <-]|]. destruct (_ && _); by intros [= <- <-].
Qed.

Lemma handed_close token w w' r t rq : CloseByToken token w = (Some r, w') → (∀ p, ¬ holds w t p) →
  handed w t w' (TClose rq r).
Proof.
  unfold CloseByToken. destruct (i_sessions w !! token) as [r0|] eqn:Er; [|done]. intros [= <- <-] Ht pid Hl. right.
  split; [done|]. split; [|by intros ?%Ht]. intros (k & r1 & Hk & Hr).
  destruct (decide (k = token)) as [->|]; [right; by simplify_eq|]. left. exists k, r1. split; [|done].
  cbn. by rewrite lookup_delete_ne.
Qed.

Lemma handed_reap w t w' t' dead : reapIdle cfg w = (dead, w') → kept w w' → (∀ p, ¬ holds w t p) →
  (∀ tr p, tr ∈ dead → pid_at w' tr.2 = Some p → holds w' t' p) → handed w t w' t'.
Proof.
  intros [= Ed <-] Hk Ht Hh pid Hl. right. split; [done|]. split; [|by intros ?%Ht]. intros (k & r & Hs & Hr).
  destruct (decide (k ∈ dead.*1)) as [Hd|Hd].
  - right. apply list_elem_of_fmap in Hd as ([k' r'] & -> & Hin).
    assert (i_sessions w !! k' = Some r').
    { rewrite <- Ed in Hin. unfold stale in Hin. apply list_elem_of_filter in Hin as [_ Hin]. by apply elem_of_map_to_list in Hin. }
    cbn in *. simplify_eq. by eapply Hh; [|apply Hk].
  - left. exists k, r. split; [|by apply Hk]. cbn. apply map_lookup_filter_Some. split; [done|]. cbn. by rewrite Ed.
Qed.

Lemma handed_insert b org pid ts w r w' : insert_session cfg (b_key b) (b_user b) org pid ts w = (r, w') → kept w w' →
  handed w (TInsert b org pid) w'
    (match r with Existing r => TUndo b pid (Some r) | Inserted r => TInserted b r | NoToken => TUndo b pid None end).
Proof.
  unfold insert_session. intros Hi Hk. destruct (getExistingByKey (b_key b) w); [injection Hi as <- <-; by apply handed_quiet|].
  destruct (draw ts (i_sessions w)) as [token|] eqn:Ed; injection Hi as <- <-; [|by apply handed_quiet].
  intros p Hl. right. split; [done|]. split; intros Hs; left.
  - destruct Hs as (k & r & Hs & Hr). exists k, r. split; [|by apply Hk]. cbn. rewrite lookup_insert_ne; [done|].
    intros ->. apply draw_fresh in Ed. congruence.
  - cbn in Hs. subst. eexists token, _. cbn. rewrite lookup_insert_eq. split; [done|].
    unfold pid_at. cbn. by rewrite list_lookup_middle.
Qed.

Lemma handed_create t b org wid w pid w' : manager_create "" wid w = Some (pid, w') → kept w w' → (∀ p, ¬ holds w t p) →
  handed w t w' (TNote b org pid).
Proof.
  unfold manager_create. destruct (i_managers w !! "") as [m|] eqn:Em; [|done]. cbn. intros [= <- <-] Hk Ht p Hl.
  unfold live in *. cbn in Hl. rewrite lookup_insert_eq in Hl. destruct Hl as (m' & [= <-] & Hl). cbn in Hl.
  destruct (decide (p = wrap_s 32 (m_nextPID m + 1))) as [->|Hne]; [by left|]. rewrite lookup_insert_ne in Hl by done.
  right. split; [by eauto|]. split; [|by intros ?%Ht]. intros Hs. left. by eapply stored_kept.
Qed.

Ltac peel_quiet :=
  lazymatch goal with
  | |- quiet _ (fail_auth _ ?i) => eapply (quiet_trans _ i); [|done]
  | |- quiet _ (release _ ?b ?i) => eapply (quiet_trans _ i); [|by destruct b]
  | |- quiet _ (upd _ _ ?i) => eapply (quiet_trans _ i); [|done]
  end.

(** Without a durable store nobody reconnects by token. *)
Definition rejoining (t : thread) : bool :=
  match t with
  | TReconnect _ _ | TRejoin _ _ _ | TRecovered _ _ _ _ | TAdopt _ _ _ _ | TAdopted _ _ _ => true
  | _ => false
  end.

Lemma tnext_plain o t w w' t' : rejoining t = false → tnext dep cfg o t w = Some (w', t') → rejoining t' = false.
Proof.
  intros Hr Hn. destruct t; try done; cbn [tnext] in Hn; [|isplit Hn; done..].
  apply request_cases in Hn as [(_ & _ & _ & [->|[p ->]])|(order & rl & [[u a]|p] & w1 & _ & _ & _ & _ & _ & Ht)]; try done;
    [by destruct Ht as [->|[b ->]]|by rewrite Ht].
Qed.

Lemma quiet_request o rq w w' t' : request_next dep o rq w = Some (w', t') → quiet w w'.
Proof.
  intros [(Hf & Em & _)|(order & rl & a & w1 & Ea & _ & Hf & Em & _)]%request_cases.
  - split; [done|apply Hf].
  - apply auth_frame in Ea as (_ & Es & _ & Em1 & _). cbn in *. split; [congruence|].
    destruct Hf as (_ & Es' & _). congruence.
Qed.

Lemma handed_discard w t tr t' : kept w (discard dep tr w) →
  (∀ p, holds w t p → pid_at w tr.2 = Some p ∨ holds w t' p) → handed w t (discard dep tr w) t'.
Proof.
  unfold discard. destruct (i_objs w !! tr.2) as [s|] eqn:Es; intros Hk Hh.
  - apply (handed_destroy w t (fs_pid s)); [done|apply (frame_manager_destroy "" (fs_pid s) w)|done|].
    intros p [Hp|Hp]%Hh; [left; unfold pid_at in Hp; rewrite Es in Hp; by simplify_eq/=|right].
    by eapply holds_kept.
  - apply handed_quiet; [done|done|]. intros p [Hp|Hp]%Hh; [|done]. unfold pid_at in Hp. by rewrite Es in Hp.
Qed.

Lemma tnext_handed o t w w' t' : rejoining t = false → tnext dep cfg o t w = Some (w', t') → handed w t w' t'.
Proof.
  intros Hj Hn. pose proof (tnext_keeps_pids _ _ _ _ _ Hn) as Hk.
  destruct t; try done; cbn [tnext] in Hn.
  { apply quiet_request in Hn. by apply handed_quiet. }
  all: isplit Hn; try (by apply handed_quiet; [done|repeat peel_quiet|]).
  all: try lazymatch goal with
    | H : GetByToken cfg ?k ?w = (?r, _) |- _ =>
        pose proof (handed_lookup k w _ r rq user H) as Hl; cbn in Hl; (exact Hl || (subst; by apply handed_quiet))
    | H : insert_session _ _ _ _ _ _ _ = (?r, _) |- _ => exact (handed_insert b _ _ _ _ r _ H Hk)
    | H : manager_create _ _ _ = Some _ |- _ => by eapply handed_create
    | H : CloseByToken _ _ = (Some _, _) |- _ => by eapply handed_close
    | H : reapIdle _ _ = _ |- _ => eapply handed_reap; [done|done|by intros p ?|by intros tr p ??; exists tr]
    | |- handed _ _ (discard _ _ _) _ => apply handed_discard; [done|cbn; try (intros q (tr & [->|?]%elem_of_cons & ?)); eauto]
    end.
  - apply (handed_destroy w _ (fs_pid f)); [done|apply (frame_manager_destroy "" (fs_pid f) w)|done|].
    intros p Hp. left. cbn in Hp. unfold pid_at in Hp. by simplify_option_eq.
  - by eapply handed_create; [|done|intros q ?].
  - apply (handed_destroy w _ pid); [done|apply (frame_manager_destroy "" pid w)|done|by left].
  - apply (handed_destroy w _ pid); [done|apply (frame_manager_destroy "" pid w)|done|by left].
  - apply handed_quiet; [done|done|]. by intros q (? & ?%elem_of_nil & ?).
  - apply handed_quiet; [done| |done]. unfold persistSession. by destruct (i_objs w !! r).
  - eapply handed_close; [done|by intros q ?].
  - apply handed_quiet; [done| |done].
    lazymatch goal with H : CloseByToken ?k _ = _ |- _ => unfold CloseByToken in H; by destruct (i_sessions w !! k); simplify_eq end.
Qed.

Lemma accounted_perm w ts ts' : ts ≡ₚ ts' → accounted w ts → accounted w ts'.
Proof. intros E Ha pid [?|(t & Ht & Hh)]%Ha; [by left|right]. exists t. by rewrite <- E. Qed.

Lemma accounted_more w t ts : accounted w ts → accounted w (t :: ts).
Proof. intros Ha pid [?|(t0 & Ht & Hh)]%Ha; [by left|right]. exists t0. split; [by right|done]. Qed.

Lemma accounted_step w t rest w' t' : kept w w' → handed w t w' t' → accounted w (t :: rest) → accounted w' (t' :: rest).
Proof.
  intros Hk Hh Ha pid Hl. destruct (Hh pid Hl) as [Ht'|(Hlw & Hs & Ht)]; [right; exists t'; split; [by left|done]|].
  assert (stored w' pid ∨ holds w' t' pid → stored w' pid ∨ ∃ t0, t0 ∈ t' :: rest ∧ holds w' t0 pid) as Hend.
  { intros [?|?]; [by left|right; exists t'; split; [by left|done]]. }
  destruct (Ha pid Hlw) as [?|(t0 & [->|Hin]%elem_of_cons & Ht0)]; [by auto..|].
  right. exists t0. split; [by right|by eapply holds_kept].
Qed.

Lemma accounted_outside P w w' ts : outside P w w' → accounted w ts → accounted w' ts.
Proof.
  intros Ho Ha. destruct Ho as [d ?|cs ?| |org Hm|org m Hm]; try done; intros pid (m' & Hm' & Hl);
    cbn in Hm'; apply Ha; (destruct (decide (org = "")) as [->|]; [|rewrite lookup_insert_ne in Hm' by done; by exists m']);
    rewrite lookup_insert_eq in Hm'; injection Hm' as <-; [by destruct Hl|by exists m].
Qed.

(** Without org routing no Flight session is forgotten: in every interleaving of
    requests, expiries, reaps and closes, a session that the session manager has for the
    ingress is in the store under its token, or a goroutine holds it that will store it
    or destroy it. *)
Theorem flight_sessions_are_accounted P S : reachable dep cfg P S → accounted (world S) (threads S).
Proof.
  intros HS. apply (ingress_invariant dep cfg P (λ w ts, accounted w ts ∧ Forall (λ t, rejoining t = false) ts)); [..|done].
  - intros w ts ts' E [Ha Hr]. split; [by eapply accounted_perm|by rewrite <- E].
  - intros now rl cs durable _. split; [|done]. by intros pid (m & ? & ?).
  - intros o t w rest w' t' [Ha [Hr Hrest]%Forall_cons] Hn. split; [|constructor; [by eapply tnext_plain|done]].
    eapply accounted_step; [by eapply tnext_keeps_pids|by eapply tnext_handed|done].
  - intros w w' ts Ho [Ha Hr]. split; [by eapply accounted_outside|done].
  - intros rq w ts [Ha Hr]. split; [by apply accounted_more|by constructor].
  - intros w ts [Ha Hr]. split; [by apply accounted_more|by constructor].
Qed.
End accounting.
