(* ===== verification/FlightRuns.v ===== *)
(** Runs of the Flight SQL ingress (FlightStore): what happens when the requests of two
    orgs or two requests of one session interleave, and instances of its theorems. *)

From Stdlib Require Import Strings.Byte.
From stdpp Require Import prelude gmap strings list fin_maps.
From Stdlib Require Import ZArith Lia.
From S2P Require Import Prelude GoText BinaryTypes Auth ConfigStore ConfigTheorems FlightStream FlightSession FlightStore FlightTheorems FlightAccounting.

Open Scope string_scope.
Open Scope list_scope.
Open Scope Z_scope.

(** * Who the rate limiter stops *)

Section limiter.
Context `{HB : Bcrypt} `{HU : UnicodeCase} `{HW : Worker} (dep : deployment) (cfg : settings).

Lemma auth_ignores_limiter order rq w rl :
  (authenticateBasicCredentials dep order rq (with_rl rl w)).1 = (authenticateBasicCredentials dep order rq w).1.
Proof.
  unfold authenticateBasicCredentials. destruct (rq_authorization rq) as [|h hs]; [done|].
  destruct (parseBasicCredentials h) as [[u pw]|e]; [|done]. cbn. by destruct (validate _ _ _ _ u pw).
Qed.

(** What a request without a token is told depends on the rate limiter first: an address
    it refuses learns nothing of its credentials. A request that carries any session
    token at all is answered as if there were no limiter, so its credentials are checked
    for a banned address too. *)
Theorem ban_covers_bootstrap_only o rq w :
  rq_metadata rq = true → rq_rpc rq ≠ CloseSession →
  if bool_decide (incomingSessionToken rq = "")
  then let n := i_now w in
       (BeginRateLimitedAuthAttempt (i_rl w) (rq_addr rq) n n n n n).1.2 ≠ Allowed →
       snd <$> tnext dep cfg o (TRequest rq) w
       = match o with
         | Go => Some (TDone (Failed ResourceExhausted "authentication rate limit exceeded"))
         | _ => None
         end
  else ∀ rl, snd <$> tnext dep cfg o (TRequest rq) (with_rl rl w) = snd <$> tnext dep cfg o (TRequest rq) w.
Proof.
  intros Hm Hc. cbn [tnext]. unfold request_next. rewrite Hm. cbv zeta. cbn [negb].
  assert ((match rq_rpc rq with CloseSession => true | _ => false end) = false) as -> by (by destruct (rq_rpc rq)).
  case_bool_decide as Ht; (case_bool_decide as Ht'; [|]); try done.
  - destruct (BeginRateLimitedAuthAttempt _ _ _ _ _ _ _) as [[b msg] rl]. cbn. intros Hno.
    by destruct msg, o.
  - intros rl. destruct (rq_authorization rq) as [|h hs] eqn:Ea; [by destruct o|]. unfold auth_step.
    destruct o as [|order| | | | |]; try done. cbn [with_rl i_cs]. case_bool_decide; [|done].
    pose proof (auth_ignores_limiter order rq w rl) as E.
    destruct (authenticateBasicCredentials dep order rq w) as [a w1],
      (authenticateBasicCredentials dep order rq (with_rl rl w)) as [a' w1']. cbn in E. subst.
    by destruct a as [[u auth]|p].
Qed.
End limiter.

(** * Runs *)

#[local] Existing Instance plain_bcrypt.
#[local] Existing Instance ascii_case.
#[local] Instance willing_worker : Worker := {| worker_exec _ _ := None |}.

(** Events other than a reload. *)
Definition no_poll (e : event) : bool := match e with Poll _ => false | _ => true end.

Lemma run_reaches dep cfg P es S S' : reachable dep cfg P S → forallb no_poll es = true →
  run dep cfg es S = Some S' → reachable dep cfg P S'.
Proof.
  revert S. induction es as [|e es IH]; intros S HS Hes Hrun; cbn in Hrun; [by injection Hrun as <-|].
  cbn in Hes. apply andb_prop in Hes as [He Hes]. destruct (step dep cfg e S) as [S1|] eqn:E; [|done].
  eapply (IH S1); [|done|done]. eapply reach_step; [done| |done]. by intros cs ->.
Qed.

(** A run whose end passes a check. *)
Definition ends (dep : deployment) (cfg : settings) (check : system → bool) (es : list event) (S : system) : bool :=
  forallb no_poll es && match run dep cfg es S with Some S' => check S' | None => false end.

Lemma run_ends dep cfg P check es S : reachable dep cfg P S → ends dep cfg check es S = true →
  ∃ S', reachable dep cfg P S' ∧ check S' = true.
Proof.
  intros HS He. unfold ends in He. apply andb_prop in He as [Hp He].
  destruct (run dep cfg es S) as [S'|] eqn:Hrun; [|done]. exists S'. split; [by eapply run_reaches|done].
Qed.

Definition hour_ttl : settings := {| idleTTL := 3600; handleIdleTTL := 3600; tokenTTL := 86400 |}.

Definition rpc_of (sni : string) (auth token : list string) (c : rpc) : request :=
  {| rq_addr := Some "192.0.2.7"; rq_sni := sni; rq_metadata := true; rq_authorization := auth;
     rq_session := token; rq_rpc := c |}.

Definition tenants : ConfigStore := polled two_tenants.
Definition names_of (cs : ConfigStore) : list (OrgUserKey * string) :=
  match cs_snapshot cs with Some s => map_to_list (s_OrgUserPassword s) | None => [] end.

(** Both orgs have a user alice, with passwords of their own. *)
Definition routed_deployment : deployment := MultiTenant SNIRoutingEnforce [".dw.example"].
Definition acme_bootstrap : request := rpc_of "wildcat.dw.example" [basic_header "alice" "a"] [] BeginTxn.
Definition globex_bootstrap : request := rpc_of "globex.dw.example" [basic_header "alice" "g"] [] BeginTxn.

Definition two_stacks (durable : gmap string DurableSessionRecord) : system :=
  default (start 1000 None tenants durable)
    (run routed_deployment hour_ttl [NewStack "acme"; NewStack "globex"] (start 1000 None tenants durable)).

Lemma two_stacks_reachable durable : reachable routed_deployment hour_ttl (λ cs, cs = tenants) (two_stacks durable).
Proof.
  apply (run_reaches _ _ _ [NewStack "acme"; NewStack "globex"] (start 1000 None tenants durable));
    [by apply reach_start|reflexivity|reflexivity].
Qed.

(** A goroutine's way from its request to the session it inserts. *)
Definition bootstrap_run (i : nat) (token : string) : list event :=
  [Run i (ScanOrder (names_of tenants)); Run i (Nonce (Some token)); Run i Go; Run i (Gives (Granted 7)); Run i Go;
   Run i (Tokens [Some token])].

Definition all_done (ts : list thread) : bool := forallb (λ t, match t with TDone _ => true | _ => false end) ts.

Lemma all_done_spec ts : all_done ts = true → ∀ t, t ∈ ts → ∃ p, t = TDone p.
Proof.
  intros Hd t Ht. apply forallb_forall with (x := t) in Hd; [|by apply list_elem_of_In]. destruct t; try done. by eexists.
Qed.

(** The sessions of an org's manager, by number. *)
Definition pids_of (org : string) (w : ingress) : gset Z :=
  match i_managers w !! org with Some m => dom (m_live m) | None => ∅ end.

Definition crossed (S : system) : bool :=
  match threads S !! 0%nat, i_objs (world S) !! 0%nat with
  | Some (TInserted b r), Some s =>
      bool_decide (r = 0%nat ∧ i_sessions (world S) !! fs_token s = Some r ∧ b_auth b = "acme" ∧
                   fs_username s = "alice" ∧ fs_org s = "globex")
  | _, _ => false
  end.

(** C40. The org of a username is noted under the name alone. A client that acme has
    authenticated gets its session on globex, when a client of globex with the same name
    authenticates in between. *)
Theorem session_can_cross_orgs : ∃ S, reachable routed_deployment hour_ttl (λ cs, cs = tenants) S ∧
  ∃ b r s, TInserted b r ∈ threads S ∧ i_objs (world S) !! r = Some s ∧ i_sessions (world S) !! fs_token s = Some r ∧
    b_auth b = "acme" ∧ fs_username s = "alice" ∧ fs_org s = "globex".
Proof.
  destruct (run_ends routed_deployment hour_ttl (λ cs, cs = tenants) crossed
      [Call acme_bootstrap; Call globex_bootstrap; Run 0 (ScanOrder (names_of tenants)); Run 0 (Nonce (Some "n")); Run 0 Go;
       Run 1 (ScanOrder (names_of tenants)); Run 0 (Gives (Granted 7)); Run 0 Go; Run 0 (Tokens [Some "t"])]
      (two_stacks ∅) (two_stacks_reachable ∅)) as (S & HS & Hc); [by vm_compute|].
  exists S. split; [done|]. unfold crossed in Hc.
  destruct (threads S !! 0%nat) as [[]|] eqn:Et; try done. destruct (i_objs (world S) !! 0%nat) as [s|] eqn:Es; [|done].
  apply bool_decide_eq_true in Hc as (-> & H). exists b, 0%nat, s. split; [by eapply list_elem_of_lookup_2|done].
Qed.

(** Every session manager numbers its sessions from 1000, and the owner of a session is
    noted under that number alone. When acme's client closes its session, globex's
    session of the same number is destroyed in its place: its client still has a token,
    and acme's session stays with no one to destroy it. *)
Theorem close_can_destroy_another_orgs_session : ∃ S, reachable routed_deployment hour_ttl (λ cs, cs = tenants) S ∧
  (∀ t, t ∈ threads S → ∃ p, t = TDone p) ∧ pids_of "acme" (world S) = {[1001]} ∧ pids_of "globex" (world S) = ∅ ∧
  i_sessions (world S) = {["g" := 1%nat]} ∧
  ∃ s, i_objs (world S) !! 1%nat = Some s ∧ fs_org s = "globex" ∧ fs_pid s = 1001.
Proof.
  destruct (run_ends routed_deployment hour_ttl (λ cs, cs = tenants)
      (λ S, all_done (threads S) &&
            bool_decide (pids_of "acme" (world S) = {[1001]} ∧ pids_of "globex" (world S) = ∅ ∧
                         i_sessions (world S) = {["g" := 1%nat]} ∧
                         (λ s, (fs_org s, fs_pid s)) <$> i_objs (world S) !! 1%nat = Some ("globex", 1001)))
      ([Call acme_bootstrap] ++ bootstrap_run 0 "a" ++ [Run 0 (Loads true); Run 0 Go; Run 0 Go; Run 0 Go; Run 0 Go] ++
       [Call globex_bootstrap] ++ bootstrap_run 1 "g" ++ [Run 1 (Loads true); Run 1 Go; Run 1 Go; Run 1 Go; Run 1 Go] ++
       [Call (rpc_of "wildcat.dw.example" [] ["a"] CloseSession); Run 2 Go; Run 2 Go; Run 2 Go; Run 2 Go; Run 2 Go])
      (two_stacks ∅) (two_stacks_reachable ∅)) as (S & HS & [Hd Hc]%andb_prop); [by vm_compute|].
  exists S. apply bool_decide_eq_true in Hc as (Ha & Hg & Hs & Ho). split; [done|]. split; [by apply all_done_spec|].
  split; [done|]. split; [done|]. split; [done|].
  destruct (i_objs (world S) !! 1%nat) as [s|]; [|done]. exists s. by simplify_eq/=.
Qed.

(** Two requests that bring the token of a session of another process each recover it:
    the second session takes the token, and the first stays with the session manager
    with no one to destroy it. *)
Theorem reconnect_can_leak_a_session : ∃ S, reachable routed_deployment hour_ttl (λ cs, cs = tenants) S ∧
  (∀ t, t ∈ threads S → ∃ p, t = TDone p) ∧
  pids_of "acme" (world S) = {[1001; 1002]} ∧ i_sessions (world S) = {["t" := 1%nat]} ∧
  ∃ s, i_objs (world S) !! 1%nat = Some s ∧ fs_pid s = 1002.
Proof.
  set (away := {["t" := {| dr_Username := "alice"; dr_OrgID := "acme"; dr_WorkerID := 4; dr_Active := true;
                           dr_ExpiresAt := 0 |}]} : gmap string DurableSessionRecord).
  destruct (run_ends routed_deployment hour_ttl (λ cs, cs = tenants)
      (λ S, all_done (threads S) &&
            bool_decide (pids_of "acme" (world S) = {[1001; 1002]} ∧ i_sessions (world S) = {["t" := 1%nat]} ∧
                         fs_pid <$> i_objs (world S) !! 1%nat = Some 1002))
      (let rq := rpc_of "wildcat.dw.example" [] ["t"] BeginTxn in
       [Call rq; Call rq; Run 0 Go; Run 1 Go; Run 0 Go; Run 1 Go; Run 0 (Loads true); Run 1 (Loads true);
        Run 0 (Gives (Granted 4)); Run 1 (Gives (Granted 4)); Run 0 Go; Run 1 Go; Run 0 Go; Run 1 Go;
        Run 0 (Loads true); Run 0 Go; Run 0 Go; Run 0 Go; Run 0 Go;
        Run 1 (Loads true); Run 1 Go; Run 1 Go; Run 1 Go; Run 1 Go])
      (two_stacks away) (two_stacks_reachable away)) as (S & HS & [Hd Hc]%andb_prop); [by vm_compute|].
  exists S. apply bool_decide_eq_true in Hc as (Ha & Hs & Ho). split; [done|].
  split; [by apply all_done_spec|]. split; [done|]. split; [done|]. by apply fmap_Some in Ho as (s & ? & ->); exists s.
Qed.

(** * A single tenant *)

Definition alone : deployment := SingleTenant {["alice" := "a"]}.
Definition alone_start : system := start 1000 None tenants ∅.
Definition alone_run : list event :=
  [NewStack ""; Call (rpc_of "" [basic_header "alice" "a"] [] (Update "" "INSERT INTO t SELECT * FROM big"))] ++
  bootstrap_run 0 "a" ++ [Run 0 (Loads true); Run 0 Go; Run 0 Go; Run 0 Go].

(** A session whose update is with the worker. *)
Definition updating : system := default alone_start (run alone hour_ttl alone_run alone_start).

Lemma alone_reachable : reachable alone hour_ttl (λ _, True) alone_start.
Proof. by apply reach_start. Qed.

Definition at_update (S : system) : bool :=
  match threads S !! 0%nat, i_objs (world S) !! 0%nat with
  | Some (TRun _ r q), Some s => bool_decide (r = 0%nat ∧ q = "INSERT INTO t SELECT * FROM big" ∧ fs_opMu s = true)
  | _, _ => false
  end.

(** The reaper counts handles, transactions and streams as activity, and not a statement
    that runs: after the idle time it destroys a session whose update the worker is at. *)
Theorem running_update_can_be_reaped : ∃ S, reachable alone hour_ttl (λ _, True) S ∧
  pids_of "" (world S) = ∅ ∧ i_sessions (world S) = ∅ ∧
  ∃ rq r s, TRun rq r "INSERT INTO t SELECT * FROM big" ∈ threads S ∧ i_objs (world S) !! r = Some s ∧ fs_opMu s = true.
Proof.
  destruct (run_ends alone hour_ttl (λ _, True)
      (λ S, at_update S && bool_decide (pids_of "" (world S) = ∅ ∧ i_sessions (world S) = ∅))
      (alone_run ++ [Elapse 3600; ReapTick; Run 1 Go; Run 1 Go]) alone_start alone_reachable)
    as (S & HS & [Hu Hc]%andb_prop); [by vm_compute|].
  exists S. apply bool_decide_eq_true in Hc as (Hp & Hs). split; [done|]. split; [done|]. split; [done|].
  unfold at_update in Hu. destruct (threads S !! 0%nat) as [[]|] eqn:Et; try done.
  destruct (i_objs (world S) !! 0%nat) as [s|] eqn:Es; [|done]. apply bool_decide_eq_true in Hu as (-> & -> & Hm).
  exists rq, 0%nat, s. split; [by eapply list_elem_of_lookup_2|done].
Qed.

(** * The theorems at concrete systems *)

Lemma updating_reachable : reachable alone hour_ttl (λ _, True) updating.
Proof. apply (run_reaches _ _ _ alone_run alone_start); [apply alone_reachable|reflexivity|by vm_compute]. Qed.

Lemma one_statement_at_a_time_witness : running 0 (threads updating) = 1%nat ∧ (running 0 (threads updating) ≤ 1)%nat.
Proof.
  assert (∃ s, i_objs (world updating) !! 0%nat = Some s) as [s Hs] by (eexists; vm_compute; reflexivity).
  split; [by vm_compute|].
  exact (proj1 (one_statement_at_a_time alone hour_ttl (λ _, True) updating updating_reachable 0%nat s Hs)).
Defined.

Lemma flight_sessions_are_accounted_witness : accounted (world updating) (threads updating).
Proof. exact (flight_sessions_are_accounted {["alice" := "a"]} hour_ttl (λ _, True) updating updating_reachable). Defined.

(** One org, whose only user is bob. *)
Definition only_bob : ConfigStore := password_store {[("globex", "bob") := "h:b"]}.
Definition bob_run : list event :=
  [NewStack "globex"; Call (rpc_of "" [basic_header "bob" "b"] [] BeginTxn); Run 0 (ScanOrder (names_of only_bob));
   Run 0 (Nonce (Some "n")); Run 0 Go; Run 0 (Gives (Granted 3)); Run 0 Go; Run 0 (Tokens [Some "t"])].
Definition scanning_deployment : deployment := MultiTenant SNIRoutingOff [].
Definition bob_start : system := start 1000 None only_bob ∅.
Definition bob_in : system := default bob_start (run scanning_deployment hour_ttl bob_run bob_start).

Lemma only_bob_homed : homed (λ _, "globex") only_bob.
Proof. intros s n x [= <-] [h Hh]. cbn in Hh. apply lookup_singleton_Some in Hh as [[= <- <-] _]. done. Qed.

Lemma bob_in_reachable : reachable scanning_deployment hour_ttl (homed (λ _, "globex")) bob_in.
Proof.
  apply (run_reaches _ _ _ bob_run bob_start); [apply reach_start, only_bob_homed|reflexivity|by vm_compute].
Qed.


(** A limiter that has banned the client. *)
Definition banning : RateLimiter :=
  set_records {["192.0.2.7" := {| failedAttempts := []; bannedUntil := 5000; activeConns := 0 |}]}
    (NewRateLimiter {| MaxFailedAttempts := 3; FailedAttemptWindow := 300; BanDuration := 900;
                       MaxConnectionsPerIP := 10; MaxConnections := 100 |}).

(** Banned, the client is refused a session, and its token request gets as far as with
    no limiter. *)
Lemma ban_covers_bootstrap_only_witness :
  let w := with_rl (Some banning) (world alone_start) in
  snd <$> tnext alone hour_ttl Go (TRequest (rpc_of "" [basic_header "alice" "a"] [] BeginTxn)) w
    = Some (TDone (Failed ResourceExhausted "authentication rate limit exceeded")) ∧
  let rq := rpc_of "" [basic_header "alice" "a"] ["x"] BeginTxn in
  snd <$> tnext alone hour_ttl (ScanOrder (names_of tenants)) (TRequest rq) w = Some (TLookup rq (Some "alice")).
Proof.
  intros w. split.
  - apply (ban_covers_bootstrap_only alone hour_ttl Go (rpc_of "" [basic_header "alice" "a"] [] BeginTxn) w eq_refl
      ltac:(done)). by vm_compute.
  - intros rq. pose proof (ban_covers_bootstrap_only alone hour_ttl (ScanOrder (names_of tenants)) rq (world alone_start)
      eq_refl ltac:(done) (Some banning)) as H. unfold w. rewrite H. by vm_compute.
Defined.
