(* ===== verification/Handshake.v ===== *)
(** The control plane's Postgres connections up to their message loop
    (src/controlplane/control.go: readStartupFromRaw, handleConnection and what they call).

    A connection is what its client sends, in the clear and then inside TLS, and which of
    the calls on it fail; everything the handler asks of the rest of the control plane is
    an argument. The handler's run is the log of what it does. *)

From Stdlib Require Import Strings.Byte.
From stdpp Require Import prelude gmap strings list fin_maps.
From Stdlib Require Import ZArith Lia.
From S2P Require Import Prelude Wire GoText GoRegexp Auth WarmCapacity SessionMeta StartupOptions ConfigStore FlightStore.

Open Scope string_scope.
Open Scope list_scope.
Open Scope Z_scope.

(** * Texts *)

(** [strconv.Quote], the verb [%q]: whether a rune that is not ASCII is printable is in
    the Unicode tables. *)
Class UnicodePrint := { print_other : list byte → bool }.

Definition code_point (c : list byte) : Z :=
  match c with
  | [a; b] => (byte_val a - 192) * 64 + (byte_val b - 128)
  | [a; b; d] => (byte_val a - 224) * 4096 + (byte_val b - 128) * 64 + (byte_val d - 128)
  | [a; b; d; e] => (byte_val a - 240) * 262144 + (byte_val b - 128) * 4096 + (byte_val d - 128) * 64 + (byte_val e - 128)
  | _ => 0
  end.

Section quote.
Context `{UnicodePrint}.

Definition quote_rune (c : list byte) : list byte :=
  match c with
  | [b] =>
      if bool_decide (b = x22 ∨ b = x5c) then [x5c; b]
      else if byte_in 32 126 b then [b]
      else if bool_decide (b = x07) then bytes "\a" else if bool_decide (b = x08) then bytes "\b"
      else if bool_decide (b = x0c) then bytes "\f" else if bool_decide (b = x0a) then bytes "\n"
      else if bool_decide (b = x0d) then bytes "\r" else if bool_decide (b = x09) then bytes "\t"
      else if bool_decide (b = x0b) then bytes "\v"
      else bytes "\x" ++ hex_byte b
  | _ =>
      if print_other c then c
      else let n := code_point c in
           if bool_decide (n < 65536) then bytes "\u" ++ hex_EncodeToString (be_bytes 2 n)
           else bytes "\U" ++ hex_EncodeToString (be_bytes 4 n)
  end.
Definition strconv_Quote (s : string) : string := str ([x22] ++ (chunks (bytes s) ≫= quote_rune) ++ [x22]).
End quote.

Definition managedHostnameHint (suffixes : list string) : string :=
  match suffixes with
  | [] => "<org-id>.<managed-suffix>"
  | _ => str (join (bytes " or ") ((λ s, bytes ("<org-id>" +:+ s)) <$> suffixes))
  end.

(** * What the handler does *)

Inductive message :=
  | AuthCleartextPassword
  | AuthOK
  | ParameterStatus (name value : string)
  | BackendKeyData (pid secretKey : Z)
  | Fatal (code text : string)
  | ReadyForQuery (txStatus : byte).

Inductive action :=
  | Register                                  (** the rate limiter counts the connection *)
  | Release
  | Deadline                                  (** a deadline set or cleared *)
  | Clear (bs : list byte)                    (** bytes sent before TLS *)
  | ClearFatal (code text : string)
  | Active (d : Z)                            (** activeConns *)
  | Send (m : message)                        (** a message put in the TLS connection's buffer *)
  | Flush
  | FailedAuth                                (** RecordFailedAuthAttempt *)
  | PassedAuth
  | CancelQuery (pid secretKey : Z)
  | RegisterQuery (pid secretKey : Z)
  | UnregisterQuery (pid secretKey : Z)
  | Create (org username : string) (pid : Z) (limits : string * Z) (ok : bool)
  | Destroy (pid : Z)
  | Execute (statements : list string)        (** what the session's worker was sent *)
  | SetConnCloser (pid : Z)
  | MessageLoop (org username database : string) (passthrough mapped : bool).

(** * The handler's monad *)

Record io := {
  unread : list byte;
  faults : list bool;            (** which of the coming calls fail; success beyond the list *)
  log : list action;
}.

(** A computation returns, ends the handler, or panics. *)
Definition Handler (A : Type) : Type := io → outcome unit A * io.
Definition ret {A} (a : A) : Handler A := λ s, (Ret a, s).
Definition stop {A} : Handler A := λ s, (Err tt, s).
Definition bind {A B} (m : Handler A) (k : A → Handler B) : Handler B :=
  λ s, match m s with
       | (Ret a, s) => k a s
       | (Err e, s) => (Err e, s)
       | (Panic p, s) => (Panic p, s)
       end.
Notation "'let!' x ':=' m 'in' k" := (bind m (λ x, k)) (at level 10, x pattern, m at level 100, k at level 200) : go_scope.
Notation "m ';;;' k" := (bind m (λ _, k)) (at level 100, right associativity) : go_scope.

Definition emit (a : action) : Handler unit := λ s, (Ret tt, {| unread := unread s; faults := faults s; log := log s ++ [a] |}).

(** A call whose error ends the handler, and one whose error is dropped. *)
Definition call (a : action) : Handler unit := λ s,
  match faults s with
  | true :: fs => (Err tt, {| unread := unread s; faults := fs; log := log s |})
  | false :: fs => (Ret tt, {| unread := unread s; faults := fs; log := log s ++ [a] |})
  | [] => (Ret tt, {| unread := unread s; faults := []; log := log s ++ [a] |})
  end.
Definition try (a : action) : Handler unit := λ s, match call a s with (Err _, s) => (Ret tt, s) | r => r end.

Definition reads {E A} (f : list byte → outcome E (A * list byte)) : Handler A := λ s,
  match f (unread s) with
  | Ret (a, r) => (Ret a, {| unread := r; faults := faults s; log := log s |})
  | Err _ => (Err tt, s)
  | Panic p => (Panic p, s)
  end.

(** [defer]: what is done when the rest returns, however it does. *)
Definition deferred (a : action) {A} (m : Handler A) : Handler A := λ s,
  let '(r, s) := m s in (r, {| unread := unread s; faults := faults s; log := log s ++ [a] |}).

Fixpoint each {A} (f : A → Handler unit) (l : list A) : Handler unit :=
  match l with [] => ret tt | a :: l' => f a ;;; each f l' end.

Definition refuse {A} (code text : string) : Handler A := try (Send (Fatal code text)) ;;; try Flush ;;; stop.

(** * Before TLS *)

Inductive startupResult := SSLRequest | StartupMessage | CancelRequest (pid secretKey : Z).

Definition maxNegotiationRounds : nat := 3.

Fixpoint read_rounds (rounds : nat) : Handler startupResult :=
  match rounds with
  | O => stop
  | S rounds' =>
      let! length := reads ReadInt32 in
      if bool_decide (length < 8) || bool_decide (10000 < length) then stop else
      let! remaining := reads (ReadFull (length - 4)) in
      let protocolVersion := be_val (take 4 remaining) in
      if bool_decide (protocolVersion = 80877103) then ret SSLRequest
      else if bool_decide (protocolVersion = 80877102) && bool_decide (12 ≤ List.length remaining)%nat then
        ret (CancelRequest (wrap_s 32 (be_val (take 4 (drop 4 remaining)))) (wrap_s 32 (be_val (take 4 (drop 8 remaining)))))
      else if bool_decide (protocolVersion = 80877104) then call (Clear [x4e]) ;;; read_rounds rounds'
      else if bool_decide (protocolVersion = 196608) then ret StartupMessage
      else stop
  end.
Definition readStartupFromRaw : Handler startupResult := read_rounds maxNegotiationRounds.

(** * The rest of the control plane *)

(** A multi-tenant control plane: the configuration when the credentials are checked and
    when the warehouse's state is asked, and the org router's answers. *)
Record tenancy := {
  t_config : ConfigStore;
  t_later : ConfigStore;
  t_migrating : string → bool;              (** IsMigratingForOrg *)
  t_stack : string → bool;                  (** StackForOrg finds one *)
}.

(** Why a session was not created: what errors.As and errors.Is find in the error. *)
Record create_error := {
  ce_capacity : option WarmCapacityExhaustedError;
  ce_canceled : bool;
  ce_deadline : bool;
  ce_tooMany : bool;
  ce_text : string;
}.

Definition sessionCreationErrorResponse (e : create_error) : string * string :=
  match ce_capacity e with
  | Some c => ("53300", sqlMessage (warmCapacityMissPolicyForReason (missReason c)) (RetryAfter c))
  | None =>
      if ce_canceled e then ("57014", "canceling authentication due to user request")
      else if ce_deadline e then ("53300", "timed out waiting for an available worker")
      else if ce_tooMany e then ("53300", "too many connections")
      else ("58000", "failed to create session: " +:+ ce_text e)
  end.

Record view := {
  v_limiter : option RateLimiter;
  v_now : Z;
  v_users : gmap string string;
  v_tenancy : option tenancy;
  v_mode : string;                          (** SNIRoutingMode *)
  v_suffixes : list string;                 (** ManagedHostnameSuffixes *)
  v_draining : bool;
  v_pid : Z;                                (** ReservePID *)
  v_secret : Z;                             (** GenerateSecretKey *)
  v_limits : string * Z;                    (** workerDuckDBLimits, or the rebalancer's *)
  v_create : option create_error;           (** what CreateSession returns *)
  v_params : list (string * string);        (** the initial parameters, in the order of the map *)
}.

Definition initial_params : list (string * string) :=
  [("server_version", "15.0 (Duckgres)"); ("server_encoding", "UTF8"); ("client_encoding", "UTF8");
   ("DateStyle", "ISO, MDY"); ("TimeZone", "UTC"); ("integer_datetimes", "on"); ("standard_conforming_strings", "on")].

Record connection := {
  c_addr : option string;
  c_clear : list byte;
  c_tls : option (string * list byte);      (** the handshake's server name, and what comes inside TLS *)
}.

(** * Who the client is *)

(** A refusal, and whether the rate limiter counts it. *)
Record refusal := { counted : bool; ref_code : string; ref_text : string }.

Definition postgresSNIRoutingModeEnabled (mode : string) : bool :=
  bool_decide (mode = SNIRoutingPassthrough ∨ mode = SNIRoutingEnforce).

Section authentication.
Context `{Bcrypt} `{UnicodePrint}.

(** The org, whether the user passes through, and the effective database. *)
Definition authenticate (v : view) (sni username password database : string) : (string * bool * string) + refusal :=
  match v_tenancy v with
  | None =>
      if ValidateUserPassword (v_users v) username password then inl ("", false, database)
      else inr {| counted := true; ref_code := "28P01"; ref_text := "password authentication failed" |}
  | Some t =>
      let managed := extractOrgFromSNI (v_suffixes v) sni in
      let isManaged := bool_decide (is_Some managed) in
      let useManagedSNI := postgresSNIRoutingModeEnabled (v_mode v) && isManaged in
      if bool_decide (v_mode v = SNIRoutingEnforce) && negb isManaged then
        inr {| counted := false; ref_code := "08006";
               ref_text := "this server requires connecting via " +:+ managedHostnameHint (v_suffixes v) |}
      else
      let resolution := (ResolvePostgresConnection (t_config t) database (default "" managed) useManagedSNI username password).1 in
      let effectiveDatabase := r_EffectiveDatabase resolution in
      if bool_decide (effectiveDatabase = "") then
        inr {| counted := false; ref_code := "28000"; ref_text := "database name is required" |}
      else if negb (r_DatabaseExists resolution) then
        inr {| counted := false; ref_code := "3D000";
               ref_text := "database " +:+ strconv_Quote effectiveDatabase +:+ " does not exist" |}
      else if negb (r_HostnameMatches resolution) then
        inr {| counted := false; ref_code := "28000"; ref_text := "requested database does not match managed hostname" |}
      else if negb (r_Valid resolution) then
        inr {| counted := true; ref_code := "28P01"; ref_text := "password authentication failed" |}
      else inl (r_OrgID resolution, r_Passthrough resolution, effectiveDatabase)
  end.
End authentication.

(** The answer for an org without a stack. *)
Definition no_stack_response (status : string * bool) : string * string :=
  let '(whState, orgExists) := status in
  if negb orgExists then ("28000", "no org configured for user")
  else if bool_decide (whState = "" ∨ whState = StateReady) then
    ("57P03", "warehouse is starting up, please retry in a few seconds")
  else if bool_decide (whState = StateFailed) then ("57P03", "warehouse provisioning failed; contact support")
  else if bool_decide (whState = StateDeleting ∨ whState = StateDeleted) then ("57P03", "warehouse is being deleted")
  else ("57P03", "warehouse is still provisioning, please retry in a few minutes").

(** [bytes.TrimRight(body, NUL)] *)
Fixpoint trim_nuls (l : list byte) : list byte :=
  match l with
  | [] => []
  | b :: l' => match trim_nuls l' with
               | [] => if bool_decide (b = x00) then [] else [b]
               | l'' => b :: l''
               end
  end.

(** * handleConnection *)

Section handler.
Context `{Bcrypt} `{UnicodePrint} `{UnicodeCase} `{Executor} (c : connection) (v : view).

Definition param (params : gmap string string) (name : string) : string := default "" (params !! name).

(** From the session to the message loop. *)
Definition serve_session (org username database : string) (passthrough : bool) (searchPath : string) : Handler unit :=
  let! mapped :=
    if passthrough then ret false else
    match InitSessionDatabaseMetadata database [] with
    | (Some _, sent) => emit (Execute sent) ;;; refuse "XX000" "failed to initialize session database metadata"
    | (None, sent) =>
        match HasAttachedCatalog "ducklake" sent with
        | (None, sent) => emit (Execute sent) ;;; refuse "XX000" "failed to detect ducklake catalog attachment"
        | (Some mapped, sent) =>
            emit (Execute (sent ++ if bool_decide (searchPath = "") then [] else [search_path_statement searchPath])) ;;;
            ret mapped
        end
    end in
  emit (SetConnCloser (v_pid v)) ;;;
  call (Send (ReadyForQuery x49)) ;;;
  call Flush ;;;
  emit (MessageLoop org username database passthrough mapped).

Definition create_session (org username database : string) (passthrough : bool) (searchPath : string) : Handler unit :=
  each (λ p, try (Send (ParameterStatus p.1 p.2))) (v_params v) ;;;
  try (Send (BackendKeyData (v_pid v) (v_secret v))) ;;;
  call Flush ;;;
  emit (RegisterQuery (v_pid v) (v_secret v)) ;;;
  emit (Create org username (v_pid v) (v_limits v) (bool_decide (v_create v = None))) ;;;
  emit (UnregisterQuery (v_pid v) (v_secret v)) ;;;
  match v_create v with
  | Some e => let '(code, text) := sessionCreationErrorResponse e in refuse code text
  | None => deferred (Destroy (v_pid v)) (serve_session org username database passthrough searchPath)
  end.

Definition welcome (org username database : string) (passthrough : bool) (searchPath : string) : Handler unit :=
  call (Send AuthOK) ;;;
  emit PassedAuth ;;;
  match v_tenancy v with
  | Some t =>
      if t_migrating t org then
        refuse "57P03" "DuckLake catalog upgrade in progress for your organization, please retry in a few moments"
      else if negb (t_stack t org) then
        let '(code, text) := no_stack_response (OrgWarehouseStatus (t_later t) org) in refuse code text
      else ret tt
  | None => ret tt
  end ;;;
  if v_draining v then refuse "57P03" "control plane is draining, retry shortly"
  else create_session org username database passthrough searchPath.

(** Inside TLS. *)
Definition handle_secure (sni : string) : Handler unit :=
  let! params := reads ReadStartupMessage in
  let username := param params "user" in
  let searchPath := clientSearchPath params in
  if bool_decide (username = "") then emit FailedAuth ;;; refuse "28000" "no user specified" else
  call (Send AuthCleartextPassword) ;;;
  call Flush ;;;
  let! (msgType, body) := reads ReadMessage in
  if bool_decide (msgType ≠ x70) then emit FailedAuth ;;; refuse "28000" "expected password message" else
  match authenticate v sni username (str (trim_nuls body)) (param params "database") with
  | inr r => (if counted r then emit FailedAuth else ret tt) ;;; refuse (ref_code r) (ref_text r)
  | inl (org, passthrough, database) => welcome org username database passthrough searchPath
  end.

(** The reads go on inside TLS. *)
Definition upgrade (bs : list byte) : Handler unit := λ s, (Ret tt, {| unread := bs; faults := faults s; log := log s |}).

Definition handle_startup : Handler unit :=
  call Deadline ;;;
  let! result := readStartupFromRaw in
  match result with
  | CancelRequest pid key => emit (CancelQuery pid key) ;;; stop
  | SSLRequest =>
      call Deadline ;;;
      call (Clear [x53]) ;;;
      emit (Active 1) ;;;
      deferred (Active (-1))
        (call Deadline ;;;
         match c_tls c with
         | None => stop
         | Some (sni, bs) => upgrade bs ;;; call Deadline ;;; handle_secure sni
         end)
  | StartupMessage =>
      call Deadline ;;;
      try (ClearFatal "28000" "SSL/TLS connection required. Connect with sslmode=require or higher.") ;;; stop
  end.

Definition handleConnection : Handler unit :=
  match BeginRateLimitedAuthAttempt (v_limiter v) (c_addr c) (v_now v) (v_now v) (v_now v) (v_now v) (v_now v) with
  | (_, Allowed, _) => emit Register ;;; deferred Release handle_startup
  | _ => stop
  end.

(** A connection's run: how the handler ends, and its log. *)
Definition connect (fs : list bool) : outcome unit unit * list action :=
  let '(r, s) := handleConnection {| unread := c_clear c; faults := fs; log := [] |} in (r, log s).
End handler.
