(* ===== verification/HandshakeTheorems.v ===== *)
(** What every Postgres connection of the control plane (Handshake) does: it follows one
    protocol, cleans up behind itself, and gets a session only for valid credentials. *)

From Stdlib Require Import Strings.Byte.
From stdpp Require Import prelude gmap strings list fin_maps.
From Stdlib Require Import ZArith Lia.
From S2P Require Import Prelude Wire GoText BinaryTypes Auth WarmCapacity SessionMeta StartupOptions ConfigStore ConfigTheorems FlightStore Handshake.

Open Scope string_scope.
Open Scope list_scope.
Open Scope Z_scope.

(** * The protocol of a connection *)

(** Where a connection is, as its log tells. *)
Inductive phase :=
  | Fresh
  | Negotiating (declined : nat)    (** in the clear, GSSAPI declined so many times *)
  | Turned                          (** told to use TLS, or a cancel request served *)
  | Agreed                          (** TLS agreed on *)
  | Secured                         (** inside TLS, nothing sent *)
  | Asked                           (** the password asked for *)
  | Rejected (asked : bool)         (** a failure counted *)
  | Greeted                         (** the credentials are good *)
  | Welcomed
  | Announced                       (** the cancel key can be used *)
  | Created (ok : bool)
  | Answered (ok : bool)            (** CreateSession has returned *)
  | Prepared                        (** the session's metadata is set up, or need not be *)
  | Watched                         (** closed when its worker dies *)
  | Readied
  | Looped
  | Failed (session : bool)         (** told why it ends *)
  | Destroyed
  | Inactive
  | Released.

(** What a client with good credentials, or none yet, is never told. *)
Definition wrong_password : string := "28P01".
Definition fails (session : bool) (code : string) : option phase :=
  if bool_decide (code = wrong_password) then None else Some (Failed session).

(** One action of the log; no phase when the protocol does not allow it. *)
Definition watch (p : phase) (a : action) : option phase :=
  match p, a with
  | Fresh, Register => Some (Negotiating 0)
  | Negotiating n, Clear bs =>
      if bool_decide (bs = [x53]) then Some Agreed
      else if bool_decide (bs = [x4e] ∧ (n < 3)%nat) then Some (Negotiating (S n)) else None
  | Negotiating _, CancelQuery _ _ => Some Turned
  | Negotiating _, ClearFatal _ _ => Some Turned
  | Agreed, Active 1 => Some Secured
  | Secured, Send AuthCleartextPassword => Some Asked
  | Secured, FailedAuth => Some (Rejected false)
  | Asked, FailedAuth => Some (Rejected true)
  | Asked, Send AuthOK => Some Greeted
  | Greeted, PassedAuth => Some Welcomed
  | Welcomed, Send (ParameterStatus _ _ | BackendKeyData _ _) => Some Welcomed
  | Welcomed, RegisterQuery _ _ => Some Announced
  | Announced, Create _ _ _ _ ok => Some (Created ok)
  | Created ok, UnregisterQuery _ _ => Some (Answered ok)
  | Answered true, Execute _ => Some Prepared
  | (Answered true | Prepared), SetConnCloser _ => Some Watched
  | Watched, Send (ReadyForQuery tx) => if bool_decide (tx = x49) then Some Readied else None
  | Readied, MessageLoop _ _ _ _ _ => Some Looped
  | Rejected _, Send (Fatal _ _) => Some (Failed false)
  | (Asked | Welcomed | Answered false), Send (Fatal code _) => fails false code
  | Prepared, Send (Fatal code _) => fails true code
  | (Answered true | Prepared | Watched | Readied | Looped | Failed true), Destroy _ => Some Destroyed
  | (Secured | Asked | Rejected _ | Welcomed | Answered false | Failed false | Destroyed), Active (-1) => Some Inactive
  | (Negotiating _ | Turned | Agreed | Inactive), Release => Some Released
  | (Negotiating _ | Secured), Deadline => Some p
  | (Asked | Rejected _ | Welcomed | Answered _ | Prepared | Readied | Failed _), Flush => Some p
  | _, _ => None
  end.

Definition watch_all : option phase → list action → option phase := foldl (λ p a, p ≫= λ p, watch p a).

Lemma watch_snoc l a : watch_all (Some Fresh) (l ++ [a]) = watch_all (Some Fresh) l ≫= λ p, watch p a.
Proof. unfold watch_all. by rewrite foldl_app. Qed.

(** * Rules *)

(** From a log that ends at [p], [m] leads to one that ends where [Q] says. *)
Definition follows {A} (p : phase) (m : Handler A) (Q : outcome unit A → phase → Prop) : Prop :=
  ∀ s r s', m s = (r, s') → watch_all (Some Fresh) (log s) = Some p →
  ∃ p', watch_all (Some Fresh) (log s') = Some p' ∧ Q r p'.

Section rules.
Context {A : Type}.

Lemma follows_weaken p (m : Handler A) (Q Q' : outcome unit A → phase → Prop) :
  (∀ r p', Q r p' → Q' r p') → follows p m Q → follows p m Q'.
Proof. intros HQ Hm s r s' E Hp. destruct (Hm s r s' E Hp) as (p' & ? & ?). eauto. Qed.

Lemma follows_ret p (a : A) (Q : outcome unit A → phase → Prop) : Q (Ret a) p → follows p (ret a) Q.
Proof. intros HQ s r s' [= <- <-] Hp. eauto. Qed.

Lemma follows_stop p (Q : outcome unit A → phase → Prop) : Q (Err tt) p → follows p stop Q.
Proof. intros HQ s r s' [= <- <-] Hp. eauto. Qed.

Lemma follows_bind {B} p (m : Handler B) (k : B → Handler A) (R : outcome unit B → phase → Prop) Q :
  follows p m R → (∀ a p', R (Ret a) p' → follows p' (k a) Q) →
  (∀ e p', R (Err e) p' → Q (Err e) p') → (∀ x p', R (Panic x) p' → Q (Panic x) p') → follows p (bind m k) Q.
Proof.
  intros Hm Hk He Hx s r s' E Hp. unfold bind in E. destruct (m s) as [o s1] eqn:Em.
  destruct (Hm s o s1 Em Hp) as (p1 & Hp1 & HR). destruct o as [a|e|x].
  - by eapply Hk.
  - injection E as <- <-. eauto.
  - injection E as <- <-. eauto.
Qed.

Lemma follows_reads {E} p (f : list byte → outcome E (A * list byte)) (Q : outcome unit A → phase → Prop) :
  (∀ r, Q r p) → follows p (reads f) Q.
Proof.
  intros HQ s r s' Er Hp. unfold reads in Er. destruct (f (unread s)) as [[a l]|e|x]; injection Er as <- <-; eauto.
Qed.

Lemma follows_deferred p (m : Handler A) a (R Q : outcome unit A → phase → Prop) :
  follows p m R → (∀ r p', R r p' → ∃ p'', watch p' a = Some p'' ∧ Q r p'') → follows p (deferred a m) Q.
Proof.
  intros Hm Ha s r s' E Hp. unfold deferred in E. destruct (m s) as [o s1] eqn:Em. injection E as <- <-.
  destruct (Hm s o s1 Em Hp) as (p1 & Hp1 & HR). destruct (Ha o p1 HR) as (p2 & Hw & HQ).
  exists p2. cbn. by rewrite watch_snoc, Hp1.
Qed.
End rules.

Lemma follows_emit p a p' Q : watch p a = Some p' → Q (Ret tt) p' → follows p (emit a) Q.
Proof. intros Hw HQ s r s' [= <- <-] Hp. exists p'. cbn. by rewrite watch_snoc, Hp. Qed.

Lemma follows_call p a p' (Q : outcome unit unit → phase → Prop) :
  watch p a = Some p' → Q (Ret tt) p' → Q (Err tt) p → follows p (call a) Q.
Proof.
  intros Hw HQ He s r s' E Hp. unfold call in E.
  destruct (faults s) as [|[] fs]; injection E as <- <-; [exists p'|exists p|exists p']; cbn; by rewrite ?watch_snoc, ?Hp.
Qed.

Lemma follows_try p a p' (Q : outcome unit unit → phase → Prop) :
  watch p a = Some p' → Q (Ret tt) p' → Q (Ret tt) p → follows p (try a) Q.
Proof.
  intros Hw HQ He s r s' E Hp. unfold try, call in E.
  destruct (faults s) as [|[] fs]; injection E as <- <-; [exists p'|exists p|exists p']; cbn; by rewrite ?watch_snoc, ?Hp.
Qed.

Lemma follows_each {A} p (f : A → Handler unit) l : (∀ a, follows p (f a) (λ r p', r = Ret tt ∧ p' = p)) →
  follows p (each f l) (λ r p', r = Ret tt ∧ p' = p).
Proof.
  intros Hf. induction l as [|a l IH]; cbn; [by apply follows_ret|].
  eapply follows_bind; [apply Hf|..]; [by intros [] p' [_ ->]|by intros ? ? [? _]..].
Qed.

Section sequences.
Context {A : Type} (Q : outcome unit A → phase → Prop).

Lemma then_emit p a p' (k : unit → Handler A) : watch p a = Some p' → follows p' (k tt) Q → follows p (bind (emit a) k) Q.
Proof.
  intros Hw Hk. eapply (follows_bind _ _ _ (λ r q, r = Ret tt ∧ q = p')); [by eapply follows_emit|..];
    [by intros [] q [_ ->]|by intros ? ? [? _]..].
Qed.

Lemma then_call p a p' (k : unit → Handler A) : watch p a = Some p' → Q (Err tt) p → follows p' (k tt) Q →
  follows p (bind (call a) k) Q.
Proof.
  intros Hw He Hk. eapply (follows_bind _ _ _ (λ r q, (r = Ret tt ∧ q = p') ∨ (r = Err tt ∧ q = p)));
    [eapply follows_call; eauto|..].
  - intros [] q [[_ ->]|[? _]]; done.
  - intros [] q [[? _]|[_ ->]]; done.
  - by intros x q [[? _]|[? _]].
Qed.

Lemma then_try p a p' (k : unit → Handler A) : watch p a = Some p' → follows p (k tt) Q → follows p' (k tt) Q →
  follows p (bind (try a) k) Q.
Proof.
  intros Hw Hk Hk'. eapply (follows_bind _ _ _ (λ r q, r = Ret tt ∧ (q = p' ∨ q = p))); [eapply follows_try; eauto|..];
    [by intros [] q [_ [->| ->]]|by intros ? ? [? _]..].
Qed.

Lemma then_reads {E B} p (f : list byte → outcome E (B * list byte)) (k : B → Handler A) :
  (∀ a, follows p (k a) Q) → Q (Err tt) p → (∀ x, Q (Panic x) p) → follows p (bind (reads f) k) Q.
Proof.
  intros Hk He Hx. eapply (follows_bind _ _ _ (λ r q, q = p)); [by apply follows_reads|..];
    [by intros a q ->|by intros [] q ->|by intros x q ->].
Qed.

Lemma follows_refuse p q code text : watch p (Send (Fatal code text)) = Some q → watch p Flush = Some p → watch q Flush = Some q →
  Q (Err tt) p → Q (Err tt) q → follows p (refuse code text) Q.
Proof.
  intros Hf Hp Hq HQ HQ'. unfold refuse. eapply then_try; [done|..]; (eapply then_try; [done|..]); by apply follows_stop.
Qed.
End sequences.

(** The cases of the protocol, for a bound or an equation on each. *)
Ltac watch_cases :=
  let p := fresh in let a := fresh in let p' := fresh in let E := fresh in
  intros p a p' E; destruct p, a; try discriminate E; cbn in E; unfold fails in E; repeat case_match; simplify_eq; cbn;
  repeat case_match; first [lia|congruence].

(** ** The codes of the refusals *)

Lemma fails_other session code : code ≠ wrong_password → fails session code = Some (Failed session).
Proof. intros Hc. unfold fails. by rewrite bool_decide_eq_false_2. Qed.

Lemma creation_code e : (sessionCreationErrorResponse e).1 ≠ wrong_password.
Proof. unfold sessionCreationErrorResponse. by repeat case_match. Qed.

Lemma no_stack_code status : (no_stack_response status).1 ≠ wrong_password.
Proof. destruct status as [w b]. unfold no_stack_response. by repeat case_match. Qed.

Lemma uncounted_code `{Bcrypt} `{UnicodePrint} v sni user pw db r :
  authenticate v sni user pw db = inr r → counted r = false → ref_code r ≠ wrong_password.
Proof. unfold authenticate. cbv zeta. intros E. repeat case_match; simplify_eq; done. Qed.

(** Takes the next action of a handler. *)
Ltac next :=
  lazymatch goal with
  | |- follows _ (bind (emit _) _) _ => eapply then_emit; [reflexivity|]
  | |- follows _ (bind (call _) _) _ => eapply then_call; [reflexivity|done|]
  | |- follows _ (bind (try _) _) _ => eapply then_try; [reflexivity|..]
  | |- follows _ (refuse _ _) _ =>
      eapply follows_refuse; [first [reflexivity|by apply fails_other]|reflexivity|reflexivity|done|done]
  | |- follows _ stop _ => apply follows_stop; done
  | |- follows _ (ret _) _ => apply follows_ret; done
  | |- follows _ (emit _) _ => eapply follows_emit; [reflexivity|done]
  end.

Section protocol.
Context `{HB : Bcrypt} `{HP : UnicodePrint} `{HU : UnicodeCase} `{HX : Executor} (c : connection) (v : view).

(** The phases in which a session has to be destroyed, and those inside TLS without one. *)
Definition has_session (p : phase) : Prop := ∀ pid, watch p (Destroy pid) = Some Destroyed.
Definition inside (p : phase) : Prop := watch p (Active (-1)) = Some Inactive.

Lemma serve_follows org user db pass sp : follows (Answered true) (serve_session v org user db pass sp) (λ _ p, has_session p).
Proof.
  unfold serve_session. eapply (follows_bind _ _ _ (λ r p, has_session p ∧ ∀ a, r = Ret a → p = Answered true ∨ p = Prepared)).
  - destruct pass; [apply follows_ret; split; [done|by left]|].
    destruct (InitSessionDatabaseMetadata db []) as [[e|] sent]; [next; next|].
    destruct (HasAttachedCatalog _ sent) as [[m|] sent']; next; [|next].
    apply follows_ret. split; [done|by right].
  - intros m p [_ Hp]. destruct (Hp m eq_refl) as [->| ->]; repeat next.
  - by intros e p [? _].
  - by intros x p [? _].
Qed.

Lemma create_follows org user db pass sp : follows Welcomed (create_session v org user db pass sp) (λ _ p, inside p).
Proof.
  unfold create_session. eapply follows_bind.
  - apply follows_each. intros [n w]. by eapply follows_try.
  - intros [] p [_ ->]. next; next; next; next; next; (destruct (v_create v) as [e|]; cbn;
      [pose proof (creation_code e); destruct (sessionCreationErrorResponse e); next|]);
    (eapply follows_deferred; [apply serve_follows|]; intros r p Hp; by exists Destroyed).
  - by intros e p [? _].
  - by intros x p [? _].
Qed.

Lemma welcome_follows org user db pass sp : follows Asked (welcome v org user db pass sp) (λ _ p, inside p).
Proof.
  unfold welcome. next. next.
  eapply (follows_bind _ _ _ (λ r p, inside p ∧ ∀ a, r = Ret a → p = Welcomed)).
  - destruct (v_tenancy v) as [t|]; [|by apply follows_ret].
    destruct (t_migrating t org); [next|]. destruct (t_stack t org); cbn [negb]; [by apply follows_ret|].
    pose proof (no_stack_code (OrgWarehouseStatus (t_later t) org)). destruct (no_stack_response _). next.
  - intros a p [_ Hp]. rewrite (Hp a eq_refl). destruct (v_draining v); [next|apply create_follows].
  - by intros e p [? _].
  - by intros x p [? _].
Qed.

Lemma secure_follows sni : follows Secured (handle_secure v sni) (λ _ p, inside p).
Proof.
  unfold handle_secure. apply then_reads; [|done|done]. intros params. cbv zeta.
  case_bool_decide; [next; next|]. next. next. apply then_reads; [|done|done]. intros [msgType body].
  case_bool_decide; [next; next|].
  destruct (authenticate _ _ _ _ _) as [[[org pass] db]|r] eqn:Ea; [apply welcome_follows|]. pose proof (uncounted_code _ _ _ _ _ _ Ea) as Hc.
  destruct (counted r); [next; next|]. specialize (Hc eq_refl). eapply (follows_bind _ _ _ (λ r p, r = Ret tt ∧ p = Asked)); [by apply follows_ret|..].
  - intros [] p [_ ->]. next.
  - by intros e p [? _].
  - by intros x p [? _].
Qed.

Lemma upgrade_follows p bs : follows p (upgrade bs) (λ r p', r = Ret tt ∧ p' = p).
Proof. intros s r s' [= <- <-] Hp. by exists p. Qed.

(** Up to [3] probes are declined. *)
Definition clear_phase (r : outcome unit startupResult) (p : phase) : Prop := ∃ n, p = Negotiating n.

Lemma rounds_follow rounds n : (n + rounds ≤ 3)%nat → follows (Negotiating n) (read_rounds rounds) clear_phase.
Proof.
  revert n. induction rounds as [|rounds IH]; intros n Hn; cbn [read_rounds]; [apply follows_stop; by exists n|].
  apply then_reads; [|by exists n|by exists n]. intros length. destruct (_ || _); [apply follows_stop; by exists n|].
  apply then_reads; [|by exists n|by exists n]. intros remaining. cbv zeta.
  destruct (bool_decide _); [apply follows_ret; by exists n|]. destruct (_ && _); [apply follows_ret; by exists n|].
  destruct (bool_decide _).
  - eapply then_call; [cbn; rewrite bool_decide_eq_false_2, bool_decide_eq_true_2 by first [done|split; [done|lia]]; reflexivity|by exists n|]. apply IH. lia.
  - destruct (bool_decide _); [apply follows_ret|apply follows_stop]; by exists n.
Qed.

(** The phases the limiter's count is given back in. *)
Definition outside_tls (p : phase) : Prop := watch p Release = Some Released.

Lemma startup_follows : follows (Negotiating 0) (handle_startup c v) (λ _ p, outside_tls p).
Proof.
  unfold handle_startup. next. eapply follows_bind; [by apply rounds_follow| |by intros e p [n ->]..].
  intros result p [n ->]. destruct result as [| |pid key].
  - next. next. next. eapply (follows_deferred _ _ _ (λ _ p, inside p)).
    + next. destruct (c_tls c) as [[sni bs]|]; [|next].
      eapply follows_bind; [apply upgrade_follows|..]; [|by intros ? ? [? _]..]. intros [] p [_ ->]. next. apply secure_follows.
    + intros r p Hp. exists Inactive. by split.
  - next. next; next.
  - next. next.
Qed.

Lemma connect_follows fs : ∃ p,
  watch_all (Some Fresh) (connect c v fs).2 = Some p ∧ (p = Fresh ∧ (connect c v fs).2 = [] ∨ p = Released).
Proof.
  unfold connect, handleConnection.
  destruct (BeginRateLimitedAuthAttempt _ _ _ _ _ _ _) as [[b msg] rl]. destruct msg; try (exists Fresh; split; [done|by left]).
  destruct (bind _ _ _) as [r s] eqn:E. cbn.
  assert (follows Fresh (emit Register ;;; deferred Release (handle_startup c v)) (λ _ p, p = Released)) as Hf.
  { next. eapply follows_deferred; [apply startup_follows|]. intros r0 p Hp. exists Released. by split. }
  destruct (Hf _ _ _ E eq_refl) as (p & Hp & ->). exists Released. split; [done|by right].
Qed.

(** C6. Every connection follows the protocol, whatever its client sends and whichever calls
    fail: at most three probes are declined in the clear, nothing else but the agreement
    on TLS or the demand for it is sent there; the password is asked for before anything
    is accepted, and called wrong only after the failure is counted; a session is
    created only after AuthOK; ReadyForQuery comes when the
    session is ready and nothing but the message loop after it; at most one FATAL is
    sent, and nothing follows it; and when the handler ends, also in a panic, the session
    is destroyed and the connection released. *)
Theorem connection_follows_protocol fs : ∃ p,
  watch_all (Some Fresh) (connect c v fs).2 = Some p ∧ (p = Fresh ∧ (connect c v fs).2 = [] ∨ p = Released).
Proof. apply connect_follows. Qed.

(** ** Accounts *)

Lemma watch_sum (w : action → Z) (g : phase → Z) l p q : (∀ p a p', watch p a = Some p' → g p' = g p + w a) →
  watch_all (Some p) l = Some q → zsum (w <$> l) = g q - g p.
Proof.
  intros Hw. revert p. unfold zsum. induction l as [|a l IH]; intros p; cbn; [intros [= ->]; lia|].
  destruct (watch p a) as [p'|] eqn:E; cbn.
  - intros Hl%IH. unfold zsum in Hl. rewrite Hl. apply Hw in E. lia.
  - assert (watch_all None l = None) as ->; [|done]. clear. by induction l.
Qed.

(** What an action adds to the limiter's connections, the active connections, the
    queries that can be cancelled, and the sessions. *)
Definition limiter_weight (a : action) : Z := match a with Register => 1 | Release => -1 | _ => 0 end.
Definition active_weight (a : action) : Z := match a with Active d => d | _ => 0 end.
Definition query_weight (a : action) : Z := match a with RegisterQuery _ _ => 1 | UnregisterQuery _ _ => -1 | _ => 0 end.
Definition session_weight (a : action) : Z := match a with Create _ _ _ _ true => 1 | Destroy _ => -1 | _ => 0 end.
Definition guess_weight (a : action) : Z := match a with FailedAuth => 1 | _ => 0 end.
Definition refused_weight (a : action) : Z :=
  match a with Send (Fatal code _) => if bool_decide (code = wrong_password) then 1 else 0 | _ => 0 end.

Lemma balanced w g fs : (∀ p a p', watch p a = Some p' → g p' = g p + w a) → g Fresh = 0 → g Released = 0 →
  zsum (w <$> (connect c v fs).2) = 0.
Proof.
  intros Hw H0 H1. destruct (connect_follows fs) as (p & Hp & [[-> E]| ->]); [by rewrite E|].
  rewrite (watch_sum w g _ _ _ Hw Hp). lia.
Qed.

(** C7. Whatever happens to a connection, also when its handler panics, it leaves nothing
    behind: the rate limiter and the count of active connections have it no longer, its
    cancel key is withdrawn, and a session that was created is destroyed, once. *)
Theorem connection_cleans_up fs :
  let lg := (connect c v fs).2 in
  zsum (limiter_weight <$> lg) = 0 ∧ zsum (active_weight <$> lg) = 0 ∧
  zsum (query_weight <$> lg) = 0 ∧ zsum (session_weight <$> lg) = 0.
Proof.
  split_and!.
  - apply (balanced _ (λ p, match p with Fresh | Released => 0 | _ => 1 end)); [watch_cases|done|done].
  - apply (balanced _ (λ p, match p with Fresh | Negotiating _ | Turned | Agreed | Inactive | Released => 0 | _ => 1 end));
      [watch_cases|done|done].
  - apply (balanced _ (λ p, match p with Announced | Created _ => 1 | _ => 0 end)); [watch_cases|done|done].
  - apply (balanced _ (λ p, match p with
      Created true | Answered true | Prepared | Watched | Readied | Looped | Failed true => 1 | _ => 0 end)); [watch_cases|done|done].
Qed.
End protocol.
