(* ===== verification/HandshakeLogin.v ===== *)
(** Who gets a session of the control plane, and how many passwords an address can try
    (Handshake with Auth and ConfigStore). *)

From Stdlib Require Import Strings.Byte.
From stdpp Require Import prelude gmap strings list fin_maps.
From Stdlib Require Import ZArith Lia.
From S2P Require Import Prelude Wire GoText BinaryTypes Auth WarmCapacity SessionMeta StartupOptions ConfigStore ConfigTheorems FlightStore Handshake HandshakeTheorems.

Open Scope string_scope.
Open Scope list_scope.
Open Scope Z_scope.

(** * Who gets a session *)

(** Run on what is unread, [m] adds only actions of [P]. *)
Definition adds {A} (u : list byte) (m : Handler A) (P : action → Prop) : Prop :=
  ∀ s r s', unread s = u → m s = (r, s') → ∃ new, log s' = log s ++ new ∧ Forall P new.

Section adds_rules.
Context {A : Type} (P : action → Prop).

Lemma adds_ret u (a : A) : adds u (ret a) P.
Proof. intros s r s' _ [= <- <-]. exists []. by rewrite app_nil_r. Qed.
Lemma adds_stop u : adds u (stop (A := A)) P.
Proof. intros s r s' _ [= <- <-]. exists []. by rewrite app_nil_r. Qed.

(** A call that leaves the reader where it is, then the rest. *)
Lemma adds_then {B} u (m : Handler B) (k : B → Handler A) : (∀ s r s', m s = (r, s') → unread s' = unread s) →
  adds u m P → (∀ b, adds u (k b) P) → adds u (bind m k) P.
Proof.
  intros Hu Hm Hk s r s' Es E. unfold bind in E. destruct (m s) as [o s1] eqn:Em.
  destruct (Hm s o s1 Es Em) as (n1 & El & HP). pose proof (Hu _ _ _ Em) as Eu. destruct o as [b|e|x].
  - destruct (Hk b s1 r s' ltac:(congruence) E) as (n2 & El2 & HP2). exists (n1 ++ n2).
    rewrite El2, El, app_assoc. split; [done|]. by apply Forall_app.
  - injection E as <- <-. eauto.
  - injection E as <- <-. eauto.
Qed.

(** The same for a call after which the reader can be anywhere. *)
Lemma adds_bind {B} u (m : Handler B) (k : B → Handler A) : adds u m P →
  (∀ b u', (∃ s s', m s = (Ret b, s')) → adds u' (k b) P) → adds u (bind m k) P.
Proof.
  intros Hm Hk s r s' Es E. unfold bind in E. destruct (m s) as [o s1] eqn:Em.
  destruct (Hm s o s1 Es Em) as (n1 & El & HP). destruct o as [b|e|x].
  - destruct (Hk b (unread s1) ltac:(eauto) s1 r s' eq_refl E) as (n2 & El2 & HP2). exists (n1 ++ n2).
    rewrite El2, El, app_assoc. split; [done|]. by apply Forall_app.
  - injection E as <- <-. eauto.
  - injection E as <- <-. eauto.
Qed.

Lemma adds_reads {E B} u (f : list byte → outcome E (B * list byte)) (k : B → Handler A) :
  (∀ b u', f u = Ret (b, u') → adds u' (k b) P) → adds u (bind (reads f) k) P.
Proof.
  intros Hk s r s' Es E0. unfold bind, reads in E0. rewrite Es in E0. destruct (f u) as [[b u']|e|x] eqn:Ef.
  - by eapply (Hk b u' eq_refl {| unread := u'; faults := faults s; log := log s |}).
  - injection E0 as <- <-. exists []. by rewrite app_nil_r.
  - injection E0 as <- <-. exists []. by rewrite app_nil_r.
Qed.

Lemma adds_deferred u (m : Handler A) a : P a → adds u m P → adds u (deferred a m) P.
Proof.
  intros Ha Hm s r s' Es E. unfold deferred in E. destruct (m s) as [o s1] eqn:Em. injection E as <- <-.
  destruct (Hm s o s1 Es Em) as (n & El & HP). exists (n ++ [a]). cbn. rewrite El, app_assoc.
  split; [done|]. apply Forall_app. by repeat constructor.
Qed.
End adds_rules.

Section adds_actions.
Context (P : action → Prop) (u : list byte) (a : action).
Hypothesis Pa : P a.

Lemma adds_emit : adds u (emit a) P.
Proof using Pa. intros s r s' _ [= <- <-]. exists [a]. by repeat constructor. Qed.
Lemma adds_call : adds u (call a) P.
Proof using Pa.
  intros s r s' _ E. unfold call in E. destruct (faults s) as [|[] fs]; injection E as <- <-;
    [exists [a]|exists []|exists [a]]; cbn; rewrite ?app_nil_r; by repeat constructor.
Qed.
Lemma adds_try : adds u (try a) P.
Proof using Pa.
  intros s r s' _ E. unfold try, call in E. destruct (faults s) as [|[] fs]; injection E as <- <-;
    [exists [a]|exists []|exists [a]]; cbn; rewrite ?app_nil_r; by repeat constructor.
Qed.
End adds_actions.

Lemma unread_emit a s r s' : emit a s = (r, s') → unread s' = unread s.
Proof. by intros [= <- <-]. Qed.
Lemma unread_call a s r s' : call a s = (r, s') → unread s' = unread s.
Proof. unfold call. by destruct (faults s) as [|[] fs]; intros [= <- <-]. Qed.
Lemma unread_try a s r s' : try a s = (r, s') → unread s' = unread s.
Proof. unfold try, call. by destruct (faults s) as [|[] fs]; intros [= <- <-]. Qed.

(** Takes the next action of a handler. *)
Ltac add :=
  lazymatch goal with
  | |- adds _ (bind (emit _) _) _ => eapply adds_then; [apply unread_emit|apply adds_emit; cbn|intros _]
  | |- adds _ (bind (call _) _) _ => eapply adds_then; [apply unread_call|apply adds_call; cbn|intros _]
  | |- adds _ (bind (try _) _) _ => eapply adds_then; [apply unread_try|apply adds_try; cbn|intros _]
  | |- adds _ (refuse _ _) _ => unfold refuse
  | |- adds _ stop _ => apply adds_stop
  | |- adds _ (ret _) _ => apply adds_ret
  | |- adds _ (emit _) _ => apply adds_emit; cbn
  | |- adds _ (bind (reads _) _) _ => apply adds_reads; intros ? ? ?
  end.

Lemma refuse_stops {A} code text s (b : A) s' : refuse code text s ≠ (Ret b, s').
Proof.
  unfold refuse, bind. destruct (try _ s) as [o s1] eqn:E1. destruct o; [|done..].
  destruct (try Flush s1) as [o s2]. by destruct o.
Qed.

Section login.
Context `{HB : Bcrypt} `{HP : UnicodePrint} `{HU : UnicodeCase} `{HX : Executor} (c : connection) (v : view).

(** The client's credentials, read inside TLS, were found good for the org. *)
Definition authenticated (org username : string) (passthrough : bool) (database : string) : Prop :=
  ∃ sni bs params rest body rest',
    c_tls c = Some (sni, bs) ∧ ReadStartupMessage bs = Ret (params, rest) ∧ ReadMessage rest = Ret (x70, body, rest') ∧
    username = param params "user" ∧ username ≠ "" ∧
    authenticate v sni username (str (trim_nuls body)) (param params "database") = inl (org, passthrough, database).

Definition let_in (org : string) : Prop :=
  (BeginRateLimitedAuthAttempt (v_limiter v) (c_addr c) (v_now v) (v_now v) (v_now v) (v_now v) (v_now v)).1.2 = Allowed ∧
  v_draining v = false ∧
  match v_tenancy v with Some t => t_migrating t org = false ∧ t_stack t org = true | None => True end.

(** What stands behind a session, and behind its message loop. *)
Definition justified (a : action) : Prop :=
  match a with
  | Create org username pid _ _ => pid = v_pid v ∧ let_in org ∧ ∃ pass db, authenticated org username pass db
  | MessageLoop org username db pass _ => v_create v = None ∧ let_in org ∧ authenticated org username pass db
  | _ => True
  end.

Lemma serve_justified u org user db pass sp : v_create v = None → let_in org → authenticated org user pass db →
  adds u (serve_session v org user db pass sp) justified.
Proof.
  intros Hc Ha Hu. unfold serve_session. apply adds_bind.
  - destruct pass; [add|]. destruct (InitSessionDatabaseMetadata db []) as [[e|] sent]; [by repeat add|].
    destruct (HasAttachedCatalog _ sent) as [[m|] sent']; by repeat add.
  - intros m u' _. by repeat add.
Qed.

Lemma create_justified u org user db pass sp : let_in org → authenticated org user pass db →
  adds u (create_session v org user db pass sp) justified.
Proof.
  intros Ha Hu. unfold create_session. apply adds_bind.
  { generalize (v_params v). intros ps. revert u. induction ps as [|q ps IH]; intros u; cbn [each]; [add|].
    apply adds_bind; [by apply adds_try|]. intros _ u' _. apply IH. }
  intros _ u' _. add; [done|]. add; [done|]. add; [done|]. add; [by eauto|]. add; [done|].
  destruct (v_create v) as [e|] eqn:Ec; [destruct (sessionCreationErrorResponse e); by repeat add|].
  apply adds_deferred; [done|]. by apply serve_justified.
Qed.

Lemma welcome_justified u org user db pass sp :
  (BeginRateLimitedAuthAttempt (v_limiter v) (c_addr c) (v_now v) (v_now v) (v_now v) (v_now v) (v_now v)).1.2 = Allowed →
  authenticated org user pass db → adds u (welcome v org user db pass sp) justified.
Proof.
  intros Hl Hu. unfold welcome. add; [done|]. add; [done|]. apply adds_bind.
  - destruct (v_tenancy v) as [t|]; [|add]. destruct (t_migrating t org); [by repeat add|].
    destruct (negb (t_stack t org)); [|add]. destruct (no_stack_response _). by repeat add.
  - intros b u' (s & s' & Hb). destruct (v_draining v) eqn:Ed; [by repeat add|]. apply create_justified; [|done].
    split; [done|]. split; [done|]. destruct (v_tenancy v) as [t|]; [|done].
    destruct (t_migrating t org); [by apply refuse_stops in Hb|]. destruct (t_stack t org); [done|].
    cbn in Hb. destruct (no_stack_response _). by apply refuse_stops in Hb.
Qed.

Lemma secure_justified sni bs :
  (BeginRateLimitedAuthAttempt (v_limiter v) (c_addr c) (v_now v) (v_now v) (v_now v) (v_now v) (v_now v)).1.2 = Allowed →
  c_tls c = Some (sni, bs) → adds bs (handle_secure v sni) justified.
Proof.
  intros Hl Ht. unfold handle_secure. add. cbv zeta. case_bool_decide as Hu; [by repeat add|].
  add; [done|]. add; [done|]. apply adds_reads. intros [msgType body] rest' Hm.
  case_bool_decide as Hp; [by repeat add|]. assert (msgType = x70) as -> by (by destruct (decide (msgType = x70))).
  destruct (authenticate _ _ _ _ _) as [[[org pass] db]|r] eqn:Ea.
  - apply welcome_justified; [done|]. by eexists sni, bs, _, _, body, rest'.
  - apply adds_bind; [destruct (counted r); by repeat add|]. intros _ u1 _. by repeat add.
Qed.

Lemma upgrade_unread bs s : upgrade bs s = (Ret tt, {| unread := bs; faults := faults s; log := log s |}).
Proof. done. Qed.

Lemma rounds_justified rounds u : adds u (read_rounds rounds) justified.
Proof.
  revert u. induction rounds as [|rounds IH]; intros u; cbn [read_rounds]; [add|]. add.
  destruct (_ || _); [add|]. add. cbv zeta. destruct (bool_decide _); [add|]. destruct (_ && _); [add|].
  destruct (bool_decide _); [add; [done|]; apply IH|]. destruct (bool_decide _); add.
Qed.

Lemma startup_justified u :
  (BeginRateLimitedAuthAttempt (v_limiter v) (c_addr c) (v_now v) (v_now v) (v_now v) (v_now v) (v_now v)).1.2 = Allowed →
  adds u (handle_startup c v) justified.
Proof.
  intros Hl. unfold handle_startup. add; [done|]. apply adds_bind; [apply rounds_justified|].
  intros result u' _. destruct result as [| |pid key]; [|by repeat add..].
  add; [done|]. add; [done|]. add; [done|]. apply adds_deferred; [done|]. add; [done|].
  destruct (c_tls c) as [[sni bs]|] eqn:Ht; [|add].
  intros s r s' _ E. unfold bind at 1 in E. rewrite upgrade_unread in E.
  assert (adds bs (call Deadline ;;; handle_secure v sni) justified) as Ha by (add; [done|by apply secure_justified]).
  exact (Ha {| unread := bs; faults := faults s; log := log s |} r s' eq_refl E).
Qed.

Lemma connect_justified fs : Forall justified (connect c v fs).2.
Proof.
  unfold connect, handleConnection.
  destruct (BeginRateLimitedAuthAttempt _ _ _ _ _ _ _) as [[b msg] rl] eqn:El.
  destruct msg; try (by constructor). destruct (bind _ _ _) as [r s] eqn:E. cbn.
  assert (adds (c_clear c) (emit Register ;;; deferred Release (handle_startup c v)) justified) as Ha.
  { add; [done|]. apply adds_deferred; [done|]. apply startup_justified. by rewrite El. }
  by destruct (Ha {| unread := c_clear c; faults := fs; log := [] |} r s eq_refl E) as (new & -> & Hn).
Qed.

(** A session is created, and a message loop run, only for a client that the rate
    limiter admits, that is inside TLS, and that has sent a password the configuration
    or the user table accepts for that user: on the stack of that user's org, while the
    org's catalog is not being migrated and the control plane is not draining, and the
    loop runs for that user, org, database and passthrough flag. *)
Theorem session_needs_login fs a : a ∈ (connect c v fs).2 → justified a.
Proof. intros Ha. exact (proj1 (Forall_forall _ _) (connect_justified fs) a Ha). Qed.

Lemma authenticate_tenant t sni user pw db org pass db' : v_tenancy v = Some t →
  authenticate v sni user pw db = inl (org, pass, db') →
  let p := extractOrgFromSNI (v_suffixes v) sni in
  let m := postgresSNIRoutingModeEnabled (v_mode v) && bool_decide (is_Some p) in
  let r := (ResolvePostgresConnection (t_config t) db (default "" p) m user pw).1 in
  (v_mode v = SNIRoutingEnforce → is_Some p) ∧ r_Valid r = true ∧ r_OrgID r = org ∧ r_Passthrough r = pass.
Proof.
  intros Et. unfold authenticate. rewrite Et. cbv zeta. destruct (_ && negb _) eqn:Em; [done|].
  destruct (bool_decide (r_EffectiveDatabase _ = "")); [done|].
  destruct (negb (r_DatabaseExists _)); [done|]. destruct (negb (r_HostnameMatches _)); [done|].
  destruct (r_Valid _) eqn:Ev; [|done]. cbn. intros [= <- <- <-]. split; [|done].
  intros Hm. rewrite (bool_decide_eq_true_2 (v_mode v = SNIRoutingEnforce)) in Em by done.
  cbn in Em. apply negb_false_iff, bool_decide_eq_true in Em. done.
Qed.

End login.
