(* ===== verification/HandshakeGuesses.v ===== *)
(** How many passwords one address can try: the control plane's connections (Handshake)
    against its rate limiter (Auth). *)

From Stdlib Require Import Strings.Byte.
From stdpp Require Import prelude gmap strings list fin_maps.
From Stdlib Require Import ZArith Lia.
From S2P Require Import Prelude Wire GoText BinaryTypes Auth WarmCapacity SessionMeta StartupOptions ConfigStore ConfigTheorems FlightStore Handshake HandshakeTheorems.

Open Scope string_scope.
Open Scope list_scope.
Open Scope Z_scope.

(** * One failure a connection *)

Lemma watch_none l : watch_all None l = None.
Proof. by induction l. Qed.

Lemma watch_bound (w : action → Z) (g : phase → Z) l p q : (∀ p a p', watch p a = Some p' → w a ≤ g p - g p') →
  watch_all (Some p) l = Some q → zsum (w <$> l) ≤ g p - g q.
Proof.
  intros Hw. revert p. unfold zsum. induction l as [|a l IH]; intros p; cbn; [intros [= ->]; lia|].
  destruct (watch p a) as [p'|] eqn:E; cbn; [|by rewrite watch_none].
  intros Hl%IH. unfold zsum in Hl. apply Hw in E. lia.
Qed.

Section one_guess.
Context `{HB : Bcrypt} `{HP : UnicodePrint} `{HU : UnicodeCase} `{HX : Executor} (c : connection) (v : view).

Lemma one_guess fs : zsum (guess_weight <$> (connect c v fs).2) ≤ 1.
Proof.
  destruct (connect_follows c v fs) as (p & Hp & _).
  apply (watch_bound guess_weight (λ p, match p with Fresh | Negotiating _ | Agreed | Secured | Asked => 1 | _ => 0 end)) in Hp;
    [by destruct p; cbn in Hp; lia|].
  watch_cases.
Qed.

(** A client is told of a wrong password only after the limiter was. *)
Lemma refusals_are_counted fs : zsum (refused_weight <$> (connect c v fs).2) ≤ zsum (guess_weight <$> (connect c v fs).2).
Proof.
  destruct (connect_follows c v fs) as (p & Hp & _).
  apply (watch_bound (λ a, refused_weight a - guess_weight a) (λ p, match p with Rejected _ => 1 | _ => 0 end)) in Hp.
  - assert (∀ l, zsum ((λ a, refused_weight a - guess_weight a) <$> l) = zsum (refused_weight <$> l) - zsum (guess_weight <$> l)) as Hd.
    { unfold zsum. induction l as [|a l IH]; cbn in *; [done|]. rewrite IH. lia. }
    rewrite Hd in Hp. destruct p; cbn in Hp; lia.
  - watch_cases.
Qed.

Lemma refused_logs_nothing fs :
  (BeginRateLimitedAuthAttempt (v_limiter v) (c_addr c) (v_now v) (v_now v) (v_now v) (v_now v) (v_now v)).1.2 ≠ Allowed →
  (connect c v fs).2 = [].
Proof.
  unfold connect, handleConnection. destruct (BeginRateLimitedAuthAttempt _ _ _ _ _ _ _) as [[b msg] rl]. cbn. by destruct msg.
Qed.
End one_guess.

(** * An address's visits, one after another *)

Record attempt := { a_now : Z; a_conn : connection; a_view : view; a_faults : list bool }.

(** The control plane as a connection finds it. *)
Definition at_limiter (rl : RateLimiter) (now : Z) (v : view) : view :=
  {| v_limiter := Some rl; v_now := now; v_users := v_users v; v_tenancy := v_tenancy v; v_mode := v_mode v;
     v_suffixes := v_suffixes v; v_draining := v_draining v; v_pid := v_pid v; v_secret := v_secret v;
     v_limits := v_limits v; v_create := v_create v; v_params := v_params v |}.

(** What the limiter is told of a connection after it has been let in. *)
Definition limit_step (addr : option string) (now : Z) (rl : RateLimiter) (a : action) : RateLimiter :=
  match a with
  | FailedAuth => (RecordFailedAuth rl addr now).2
  | PassedAuth => RecordSuccessfulAuth rl addr
  | Release => UnregisterConnection rl addr
  | _ => rl
  end.

Section visits.
Context `{HB : Bcrypt} `{HP : UnicodePrint} `{HU : UnicodeCase} `{HX : Executor}.

Definition visit (a : attempt) (rl : RateLimiter) : list action * RateLimiter :=
  let addr := c_addr (a_conn a) in
  let now := a_now a in
  let lg := (connect (a_conn a) (at_limiter rl now (a_view a)) (a_faults a)).2 in
  (lg, foldl (limit_step addr now) (default rl (BeginRateLimitedAuthAttempt (Some rl) addr now now now now now).2) lg).

Fixpoint visits (l : list attempt) (rl : RateLimiter) : list action * RateLimiter :=
  match l with
  | [] => ([], rl)
  | a :: l' => let '(lg, rl) := visit a rl in let '(lg', rl) := visits l' rl in (lg ++ lg', rl)
  end.

Lemma visits_are_counted l rl : zsum (refused_weight <$> (visits l rl).1) ≤ zsum (guess_weight <$> (visits l rl).1).
Proof.
  revert rl. induction l as [|a l IH]; intros rl; [done|]. cbn [visits].
  pose proof (refusals_are_counted (a_conn a) (at_limiter rl (a_now a) (a_view a)) (a_faults a)) as Ha.
  change (connect _ _ _).2 with (visit a rl).1 in Ha. destruct (visit a rl) as [lg rl1]. specialize (IH rl1).
  destruct (visits l rl1) as [lg' rl2]. cbn [fst] in *. rewrite !fmap_app, !zsum_app. lia.
Qed.
End visits.

(** ** What a visit does to the address's record *)

(** The configuration, and the failures and the ban of an address, are unchanged. *)
Definition same_failures (ip : string) (rl rl' : RateLimiter) : Prop :=
  rl_config rl' = rl_config rl ∧ failedAttempts (record_of rl' ip) = failedAttempts (record_of rl ip) ∧
  bannedUntil (record_of rl' ip) = bannedUntil (record_of rl ip).

#[export] Instance same_failures_preorder ip : PreOrder (same_failures ip).
Proof. split; [done|]. unfold same_failures. intros a b c. intuition congruence. Qed.

Lemma check_failures ip rl addr n n' : same_failures ip rl (CheckConnection rl addr n n').2.
Proof. destruct (check_sees rl addr n n') as (Ec & _ & Er). split; [done|]. by rewrite Er. Qed.

Lemma register_failures ip rl addr n : same_failures ip rl (RegisterConnection rl addr n).2.
Proof.
  destruct (register_spec rl addr n) as [_ (Ec & _ & Er)]. split; [done|]. rewrite Er. unfold next_record. cbn.
  case_decide; [|done]. cbn. by destruct (admits _ _ _).
Qed.

Lemma unregister_failures ip rl addr : same_failures ip rl (UnregisterConnection rl addr).
Proof.
  destruct (unregister_sees rl addr 0) as (Ec & _ & Er). split; [done|]. rewrite Er. unfold next_record. cbn.
  by case_decide.
Qed.

Lemma begin_failures ip rl addr n1 n2 n3 n4 n5 :
  same_failures ip rl (default rl (BeginRateLimitedAuthAttempt (Some rl) addr n1 n2 n3 n4 n5).2).
Proof.
  unfold BeginRateLimitedAuthAttempt. pose proof (check_failures ip rl addr n1 n2) as H1.
  destruct (CheckConnection rl addr n1 n2) as [m rl1]. cbn in H1. destruct m; try done.
  pose proof (register_failures ip rl1 addr n3) as H2. destruct (RegisterConnection rl1 addr n3) as [b rl2]. cbn in H2.
  destruct b; [by etrans|]. pose proof (check_failures ip rl2 addr n4 n5) as H3.
  destruct (CheckConnection rl2 addr n4 n5) as [m rl3]. cbn in H3.
  assert (same_failures ip rl rl3) by (etrans; [done|]; by etrans). by destruct m.
Qed.

(** Actions the limiter does not judge by. *)
Definition silent (a : action) : bool := match a with FailedAuth | PassedAuth => false | _ => true end.

Lemma silent_failures ip addr now l rl : forallb silent l = true → same_failures ip rl (foldl (limit_step addr now) rl l).
Proof.
  revert rl. induction l as [|a l IH]; intros rl; cbn; [done|]. intros [Ha Hl]%andb_prop.
  etrans; [|by apply IH]. destruct a; try done. apply unregister_failures.
Qed.

(** A log without a success has no failure, or one. *)
Lemma guess_split l : PassedAuth ∉ l → zsum (guess_weight <$> l) ≤ 1 →
  (forallb silent l = true ∧ zsum (guess_weight <$> l) = 0) ∨
  (∃ l1 l2, l = l1 ++ FailedAuth :: l2 ∧ forallb silent l1 = true ∧ forallb silent l2 = true ∧ zsum (guess_weight <$> l) = 1).
Proof.
  assert (∀ l, 0 ≤ zsum (guess_weight <$> l)) as Hpos.
  { intros k. unfold zsum. induction k as [|[] k IH]; cbn; lia. }
  unfold zsum in *. induction l as [|a l IH]; [by left|]. rewrite not_elem_of_cons. intros [Ha Hl] Hs. cbn in Hs.
  specialize (Hpos l). cbn in Hpos. destruct (silent a) eqn:Ea.
  - assert (guess_weight a = 0) as Ew by (by destruct a). destruct IH as [[Hf Hz]|(l1 & l2 & -> & H1 & H2 & Hz)]; [done|lia|..].
    + left. cbn. rewrite Ea, Hf, Ew. split; [done|lia].
    + right. exists (a :: l1), l2. cbn in *. by rewrite Ea, H1, Ew.
  - assert (a = FailedAuth) as -> by (by destruct a). cbn in Hs. right. exists [], l. cbn.
    destruct IH as [[Hf Hz]|(l1 & l2 & -> & H1 & H2 & Hz)]; [done|lia|..]; [split_and!; [done..|lia]|lia].
Qed.

(** * The bound *)

Lemma filter_weaker {A} (P Q : A → Prop) `{∀ x, Decision (P x), ∀ x, Decision (Q x)} (l : list A) :
  (∀ x, P x → Q x) → (length (filter P l) ≤ length (filter Q l))%nat.
Proof.
  intros HPQ. induction l as [|t l IH]; [done|]. rewrite !filter_cons.
  destruct (decide (P t)), (decide (Q t)); cbn [length]; first [lia|exfalso; auto].
Qed.

(** How many of the failures are not before [t0]. *)
Definition since (t0 : instant) (l : list instant) : Z := Z.of_nat (length (filter (λ t, t0 ≤ t) l)).

Lemma since_now (t0 : instant) (l : list instant) (now : instant) : t0 ≤ now → since t0 (l ++ [now]) = since t0 l + 1.
Proof. intros Ht. unfold since. rewrite filter_app, length_app, filter_cons_True, filter_nil by done. cbn [length]. rewrite Nat2Z.inj_add. done. Qed.

Lemma since_recent (t0 : instant) (l : list instant) (start : instant) : start < t0 → since t0 l ≤ Z.of_nat (length (recent start l)).
Proof. intros Hs. unfold since, recent. apply inj_le, filter_weaker. intros t. unfold instant in *. lia. Qed.

Lemma since_nonneg t0 l : 0 ≤ since t0 l.
Proof. unfold since. lia. Qed.

Section bound.
Context `{HB : Bcrypt} `{HP : UnicodePrint} `{HU : UnicodeCase} `{HX : Executor}.
Context (cfg : RateLimitConfig) (ip : string) (t0 : Z).
Hypothesis Hip : ip ≠ "".
Hypothesis Hban : FailedAttemptWindow cfg ≤ BanDuration cfg.
Hypothesis Ht0 : 0 < t0.

Definition allowance : Z := Z.max 1 (MaxFailedAttempts cfg).

(** After [k] failures since [t0] the address is banned to the end of the window, or
    has failures left and those it has are on record. *)
Definition tracked (k : Z) (rl : RateLimiter) : Prop :=
  rl_config rl = cfg ∧ k ≤ allowance ∧
  let r := record_of rl ip in
  t0 + FailedAttemptWindow cfg ≤ bannedUntil r ∨
  (k < allowance ∧ k ≤ since t0 (failedAttempts r)).

Lemma tracked_same k rl rl' : same_failures ip rl rl' → tracked k rl → tracked k rl'.
Proof. intros (Ec & Ef & Eb). unfold tracked. cbn. by rewrite Ec, Ef, Eb. Qed.

Lemma tracked_failure k rl addr now : extractIP addr = ip → t0 ≤ now < t0 + FailedAttemptWindow cfg →
  rl_config rl = cfg → k < allowance → k ≤ since t0 (failedAttempts (record_of rl ip)) →
  tracked (k + 1) (RecordFailedAuth rl addr now).2.
Proof.
  intros Ei Hnow Ec Hk Hl. destruct (failed_spec rl addr now) as [_ (Ec' & _ & Er)].
  split; [congruence|]. split; [lia|]. cbn. rewrite Er. unfold next_record. cbn.
  rewrite decide_True by (split; [done|congruence]). cbn. unfold bans. rewrite Ec.
  rewrite since_now by lia.
  pose proof (since_recent t0 (failedAttempts (record_of rl ip) ++ [now]) (now - FailedAttemptWindow cfg)) as Hrec.
  rewrite since_now in Hrec by lia. unfold instant in *. case_bool_decide as Hb; [left; lia|right]. unfold allowance in *. lia.
Qed.

Lemma tracked_refused k rl addr now : tracked k rl → extractIP addr = ip → t0 ≤ now < t0 + FailedAttemptWindow cfg →
  ¬ (k < allowance ∧ k ≤ since t0 (failedAttempts (record_of rl ip))) →
  (BeginRateLimitedAuthAttempt (Some rl) addr now now now now now).1.2 ≠ Allowed.
Proof.
  intros (_ & _ & [Hb|?]) Ei Hnow Hno; [|done]. unfold BeginRateLimitedAuthAttempt.
  pose proof (check_reply rl addr now now) as Hr. cbn zeta in Hr. rewrite Ei in Hr.
  destruct (CheckConnection rl addr now now) as [m rl1]. cbn in Hr. subst m.
  rewrite bool_decide_eq_false_2 by done. destruct (at_total_limit rl); [done|].
  unfold banned_at, is_zero. rewrite bool_decide_eq_false_2, bool_decide_eq_true_2 by lia. done.
Qed.

Definition of_address (a : attempt) : Prop :=
  extractIP (c_addr (a_conn a)) = ip ∧ t0 ≤ a_now a < t0 + FailedAttemptWindow cfg.

Lemma visit_tracked k a rl : of_address a → tracked k rl → PassedAuth ∉ (visit a rl).1 →
  tracked (k + zsum (guess_weight <$> (visit a rl).1)) (visit a rl).2.
Proof.
  intros [Ei Hnow] Hk Hp. unfold visit in *. cbn [fst snd] in *. set (addr := c_addr (a_conn a)) in *.
  set (v := at_limiter rl (a_now a) (a_view a)) in *.
  pose proof (begin_failures ip rl addr (a_now a) (a_now a) (a_now a) (a_now a) (a_now a)) as Hb.
  destruct (decide (k < allowance ∧ k ≤ since t0 (failedAttempts (record_of rl ip))))
    as [[Hlt Hle]|Hno].
  - destruct (guess_split _ Hp (one_guess (a_conn a) v (a_faults a))) as [[Hs ->]|(l1 & l2 & E & H1 & H2 & ->)].
    + rewrite Z.add_0_r. eapply tracked_same; [by apply silent_failures|]. by eapply tracked_same.
    + rewrite E, foldl_app. cbn [foldl limit_step]. eapply tracked_same; [by apply silent_failures|].
      pose proof (transitivity Hb (silent_failures ip addr (a_now a) l1 _ H1)) as (Ec & Ef & _).
      apply tracked_failure; [done|done|rewrite Ec; apply Hk|done|by rewrite Ef].
  - rewrite (refused_logs_nothing (a_conn a) v (a_faults a)) by (by eapply tracked_refused).
    cbn [fmap list_fmap foldl]. unfold zsum. cbn. rewrite Z.add_0_r. by eapply tracked_same.
Qed.

Lemma visits_tracked l : ∀ k rl, Forall of_address l → tracked k rl → PassedAuth ∉ (visits l rl).1 →
  tracked (k + zsum (guess_weight <$> (visits l rl).1)) (visits l rl).2.
Proof.
  induction l as [|a l IH]; intros k rl Hl Hk Hp; cbn [visits] in *; [unfold zsum; cbn; by rewrite Z.add_0_r|].
  apply Forall_cons in Hl as [Ha Hl]. pose proof (visit_tracked k a rl Ha Hk) as Hv.
  destruct (visit a rl) as [lg rl1]. cbn [fst snd] in Hv. specialize (IH (k + zsum (guess_weight <$> lg)) rl1 Hl).
  destruct (visits l rl1) as [lg' rl2]. cbn [fst snd] in *. rewrite not_elem_of_app in Hp. destruct Hp as [Hp1 Hp2].
  rewrite fmap_app, zsum_app, Z.add_assoc. auto.
Qed.

End bound.
