(* ===== verification/HandshakeRuns.v ===== *)
(** Connections of the control plane (Handshake), run: a client that crashes it, and
    instances of the theorems. *)

From Stdlib Require Import Strings.Byte.
From stdpp Require Import prelude gmap strings list fin_maps.
From Stdlib Require Import ZArith Lia.
From S2P Require Import Prelude Wire GoText BinaryTypes Auth WarmCapacity SessionMeta StartupOptions ConfigStore ConfigTheorems FlightStore Handshake HandshakeTheorems HandshakeLogin HandshakeGuesses.

Open Scope string_scope.
Open Scope list_scope.
Open Scope Z_scope.

#[local] Existing Instance plain_bcrypt.
#[local] Existing Instance ascii_case.
#[local] Instance all_printable : UnicodePrint := {| print_other _ := true |}.
#[local] Instance willing_executor : Executor := {| exec_fails _ _ := false; count_of _ _ := Counted 1 false |}.

Definition ssl_request : list byte := be_bytes 4 8 ++ be_bytes 4 80877103.
Definition password_message (pw : string) : list byte :=
  [x70] ++ be_bytes 4 (Z.of_nat (length (bytes pw)) + 5) ++ bytes pw ++ [x00].

Definition client (sni user pw database : string) : connection :=
  {| c_addr := Some "192.0.2.7:4000"; c_clear := ssl_request;
     c_tls := Some (sni, client_startup 196608 [("user", user); ("database", database)] ++ password_message pw) |}.

Definition calm (tenancy : option tenancy) : view :=
  {| v_limiter := None; v_now := 1000; v_users := {["alice" := "a"]}; v_tenancy := tenancy; v_mode := SNIRoutingEnforce;
     v_suffixes := [".dw.example"]; v_draining := false; v_pid := 1001; v_secret := 77; v_limits := ("4GB", 8);
     v_create := None; v_params := initial_params |}.

(** * A crash before authentication *)

(** A startup packet whose last value is not terminated. *)
Definition unterminated : connection :=
  {| c_addr := Some "192.0.2.7:4000"; c_clear := ssl_request;
     c_tls := Some ("", be_bytes 4 14 ++ be_bytes 4 196608 ++ bytes "user" ++ [x00; x78]) |}.

(** There is a client that ends the control plane's process without a password: whatever
    the control plane's state, with the rate limiter off, the handler panics
    reading its startup packet, and no failure is counted against it. *)
Theorem startup_packet_can_crash : ∃ c, ∀ v, v_limiter v = None →
  (connect c v []).1 = Panic SliceBoundsOutOfRange ∧ FailedAuth ∉ (connect c v []).2.
Proof.
  exists unterminated. intros v Hv. assert (connect unterminated v [] = (Panic SliceBoundsOutOfRange,
    [Register; Deadline; Deadline; Clear [x53]; Active 1; Deadline; Deadline; Active (-1); Release])) as ->.
  { unfold connect, handleConnection. rewrite Hv. vm_compute. reflexivity. }
  split; [done|]. cbn. rewrite !not_elem_of_cons. split_and!; try done. apply not_elem_of_nil.
Qed.

(** * The theorems at concrete connections *)

(** Does a log have the given session created? *)
Definition creates (org user : string) (a : action) : bool :=
  match a with Create o u pid limits ok => bool_decide (o = org ∧ u = user ∧ pid = 1001 ∧ limits = ("4GB", 8) ∧ ok = true) | _ => false end.

Lemma creates_in org user l : existsb (creates org user) l = true → Create org user 1001 ("4GB", 8) true ∈ l.
Proof.
  intros (a & Ha & E)%existsb_exists. apply list_elem_of_In in Ha. destruct a; try done. cbn in E.
  by apply bool_decide_eq_true in E as (-> & -> & -> & -> & ->).
Qed.

Definition alice : connection := client "" "alice" "a" "".

Lemma session_needs_login_witness : ∃ pass db, authenticated alice (calm None) "" "alice" pass db.
Proof.
  destruct (session_needs_login alice (calm None) [] (Create "" "alice" 1001 ("4GB", 8) true)) as (_ & _ & H); [|exact H].
  apply creates_in. by vm_compute.
Defined.

Definition acme_client : connection := client "wildcat.dw.example" "alice" "a" "".
Definition tenant_view : view :=
  calm (Some {| t_config := polled two_tenants; t_later := polled two_tenants; t_migrating _ := false; t_stack _ := true |}).


(** Two wrong passwords are allowed; the third attempt is right, and comes too late. *)
Definition strict : RateLimitConfig :=
  {| MaxFailedAttempts := 2; FailedAttemptWindow := 300; BanDuration := 900; MaxConnectionsPerIP := 10; MaxConnections := 100 |}.
Definition guesses : list attempt :=
  (λ p : Z * string, {| a_now := p.1; a_conn := client "" "alice" p.2 ""; a_view := calm None; a_faults := [] |})
  <$> [(1000, "b"); (1010, "c"); (1020, "a")].

