(* ===== verification/DiskCache.v ===== *)
(** The cache proxy's disk cache (src/cmd/cache-proxy/cache.go): LRU bookkeeping
    over a directory of files.

    Every operation runs alone here. The directory is a map from names to contents;
    whether a removal succeeds and how a write ends are the system's choice.
    [sort.Slice] is not stable, so the sort is a parameter with its specification.
    Sizes are unbounded integers: they are sizes of files on one disk. *)

From Stdlib Require Import Strings.Byte.
From stdpp Require Import prelude gmap strings list sorting fin_maps.
From Stdlib Require Import ZArith Lia.
From S2P Require Import Prelude.

Open Scope Z_scope.

Record cacheEntry := { key : string; size : Z; lastAccess : Z }.

Record DiskCache := {
  maxBytes : Z;
  currentSize : Z;
  order : list cacheEntry;
  files : gmap string (list byte);     (** the directory *)
}.

Definition with_order (n : Z) (o : list cacheEntry) (c : DiskCache) : DiskCache :=
  {| maxBytes := maxBytes c; currentSize := n; order := o; files := files c |}.
Definition with_files (f : gmap string (list byte)) (c : DiskCache) : DiskCache :=
  {| maxBytes := maxBytes c; currentSize := currentSize c; order := order c; files := f |}.

(** [^[0-9a-f]{64}$]. *)
Definition hex_digit (b : byte) : bool :=
  bool_decide (48 ≤ byte_val b ≤ 57) || bool_decide (97 ≤ byte_val b ≤ 102).
Definition IsValidCacheKey (k : string) : bool :=
  bool_decide (length (bytes k) = 64%nat) && forallb hex_digit (bytes k).

(** The capacity [NewDiskCache] derives from the file system's size. *)
Definition capacity (blocks bsize maxPercent : Z) : Z :=
  let totalBytes := wrap_s 64 (wrap_s 64 blocks * wrap_s 64 bsize) in
  Z.quot (wrap_s 64 (totalBytes * wrap_s 64 maxPercent)) 100.

(** An entry of the directory: a file with its size and modification time, a
    subdirectory, or one whose information cannot be read. *)
Inductive dirent := File (name : string) (size mtime : Z) | SkippedEntry.

Definition scan_entry (c : DiskCache) (e : dirent) : DiskCache :=
  match e with
  | SkippedEntry => c
  | File name sz mtime =>
      with_order (currentSize c + sz) (order c ++ [{| key := name; size := sz; lastAccess := mtime |}]) c
  end.
(** [entries] is [None] when the directory cannot be read. *)
Definition scanExisting (entries : option (list dirent)) (c : DiskCache) : DiskCache :=
  match entries with None => c | Some es => foldl scan_entry c es end.

(** [mkdir] tells whether the directory could be made; [stat] is the file system's
    blocks and block size, if they could be read. *)
Definition NewDiskCache (mkdir : bool) (stat : option (Z * Z)) (maxPercent : Z)
    (entries : option (list dirent)) (dir : gmap string (list byte)) : option DiskCache :=
  if negb mkdir then None else
  match stat with
  | None => None
  | Some (blocks, bsize) =>
      Some (scanExisting entries
        {| maxBytes := capacity blocks bsize maxPercent; currentSize := 0; order := []; files := dir |})
  end.

Definition Has (k : string) (c : DiskCache) : bool :=
  if IsValidCacheKey k then bool_decide (is_Some (files c !! k)) else false.

(** Moves the first entry of the key to the end. *)
Fixpoint touch (k : string) (now : Z) (o : list cacheEntry) : option (list cacheEntry) :=
  match o with
  | [] => None
  | e :: o' =>
      if bool_decide (key e = k)
      then Some (o' ++ [{| key := key e; size := size e; lastAccess := now |}])
      else (λ r, e :: r) <$> touch k now o'
  end.
Definition touchLocked (k : string) (now : Z) (c : DiskCache) : DiskCache :=
  with_order (currentSize c) (default (order c) (touch k now (order c))) c.

Definition Get (k : string) (now : Z) (c : DiskCache) : option (list byte) * DiskCache :=
  if negb (IsValidCacheKey k) then (None, c) else
  match files c !! k with
  | None => (None, c)
  | Some data => (Some data, touchLocked k now c)
  end.

(** The size of the opened file. *)
Definition Open (k : string) (now : Z) (c : DiskCache) : option Z * DiskCache :=
  if negb (IsValidCacheKey k) then (None, c) else
  match files c !! k with
  | None => (None, c)
  | Some data => (Some (Z.of_nat (length data)), touchLocked k now c)
  end.

(** A failed [os.WriteFile] may leave a part of the data under the name. *)
Inductive write_result := Written | WriteFailed (left : option (list byte)).

Definition older (a b : cacheEntry) : Prop := lastAccess a ≤ lastAccess b.
#[export] Instance older_dec : RelDecision older.
Proof. intros a b. unfold older. apply _. Defined.

Section Evict.
Context (sort : list cacheEntry → list cacheEntry).   (** [sort.Slice] *)
Context (removes : string → bool).                   (** whether [os.Remove] succeeds *)

Definition evictOldest (c : DiskCache) : DiskCache :=
  match sort (order c) with
  | [] => c
  | oldest :: rest =>
      let c := with_files (if removes (key oldest) then delete (key oldest) (files c) else files c) c in
      with_order (currentSize c - size oldest) rest c
  end.

Fixpoint evict_loop (fuel : nat) (sz : Z) (c : DiskCache) : DiskCache :=
  match fuel with
  | O => c
  | S fuel =>
      if bool_decide (maxBytes c < currentSize c + sz) && negb (bool_decide (order c = []))
      then evict_loop fuel sz (evictOldest c) else c
  end.

(** The error is a failed write or an invalid key. *)
Definition Put (k : string) (data : list byte) (now : Z) (w : write_result) (c : DiskCache) : bool * DiskCache :=
  if negb (IsValidCacheKey k) then (false, c) else
  let sz := Z.of_nat (length data) in
  let c := evict_loop (length (order c)) sz c in
  match w with
  | WriteFailed None => (false, c)
  | WriteFailed (Some part) => (false, with_files (<[ k := part ]> (files c)) c)
  | Written =>
      let c := with_files (<[ k := data ]> (files c)) c in
      (true, with_order (currentSize c + sz) (order c ++ [{| key := k; size := sz; lastAccess := now |}]) c)
  end.
End Evict.

(** * Accounting *)

Definition total (o : list cacheEntry) : Z := zsum (size <$> o).
Definition len (d : list byte) : Z := Z.of_nat (length d).
Definition disk_usage (c : DiskCache) : Z := zsum (len <$> (map_to_list (files c)).*2).

(** Every file is accounted for by an entry of its size. *)
Definition covers (o : list cacheEntry) (f : gmap string (list byte)) : Prop :=
  ∀ k d, f !! k = Some d → ∃ e, e ∈ o ∧ key e = k ∧ size e = len d.
Definition accounted (c : DiskCache) : Prop :=
  currentSize c = total (order c) ∧ Forall (λ e, 0 ≤ size e) (order c) ∧ covers (order c) (files c).

Lemma usage_le_total o : ∀ f,
  Forall (λ e, 0 ≤ size e) o → covers o f → zsum (len <$> (map_to_list f).*2) ≤ total o.
Proof.
  induction o as [|e o IH]; intros f Hp Hc.
  { assert (f = ∅) as ->; [|done]. apply map_empty. intros k. destruct (f !! k) as [d|] eqn:E; [|done].
    destruct (Hc k d E) as (e&He&_). by apply elem_of_nil in He. }
  apply Forall_cons in Hp as [He Hp]. unfold total in *. cbn [fmap list_fmap]. rewrite zsum_cons.
  assert (covers o f → zsum (len <$> (map_to_list f).*2) ≤ size e + zsum (size <$> o)) as Hrest
    by (intros Ho; specialize (IH f Hp Ho); lia).
  destruct (f !! key e) as [d|] eqn:E.
  2: { apply Hrest. intros k d Hd. destruct (Hc k d Hd) as (e'&[->|He']%elem_of_cons&Hk&Hs); [congruence|eauto]. }
  destruct (decide (len d = size e)) as [Hl|Hl].
  - assert (covers o (delete (key e) f)) as Hcd.
    { intros k d' [Hne Hd]%lookup_delete_Some.
      destruct (Hc k d' Hd) as (e'&[->|He']%elem_of_cons&Hk&Hs); [congruence|eauto]. }
    rewrite <- (insert_delete_id f (key e) d E), map_to_list_insert by apply lookup_delete_eq.
    cbn [fmap list_fmap snd]. rewrite zsum_cons. specialize (IH _ Hp Hcd). lia.
  - apply Hrest. intros k d' Hd. destruct (Hc k d' Hd) as (e'&[->|He']%elem_of_cons&Hk&Hs); [congruence|eauto].
Qed.

Lemma accounted_usage c : accounted c → disk_usage c ≤ currentSize c.
Proof. intros (->&Hp&Hc). by apply usage_le_total. Qed.

#[export] Instance covers_proper : Proper ((≡ₚ) ==> eq ==> iff) covers.
Proof. intros o o' Hp f ? <-. unfold covers. by setoid_rewrite Hp. Qed.

Lemma touch_spec k now o o' :
  touch k now o = Some o' →
  ∃ e r, o ≡ₚ e :: r ∧ o' ≡ₚ {| key := key e; size := size e; lastAccess := now |} :: r.
Proof.
  revert o'. induction o as [|e o IH]; intros o' H; cbn in H; [done|]. case_bool_decide.
  - injection H as <-. exists e, o. split; [done|]. by rewrite Permutation_app_comm.
  - destruct (touch k now o) as [r|] eqn:E; [|done]. injection H as <-.
    destruct (IH r eq_refl) as (e'&r'&H1&H2). exists e', (e :: r').
    rewrite H1, H2. split; apply Permutation_swap.
Qed.

Lemma touch_accounted k now c : accounted c → accounted (touchLocked k now c).
Proof.
  intros (Hs&Hp&Hc). unfold touchLocked, accounted. cbn. destruct (touch k now (order c)) as [o|] eqn:E; [|done].
  destruct (touch_spec _ _ _ _ E) as (e&r&H1&H2). cbn. unfold total in *. rewrite H1 in Hs, Hp. rewrite H2.
  apply Forall_cons in Hp as [He Hp]. split; [done|]. split; [by apply Forall_cons|].
  intros k' d Hd. destruct (Hc k' d Hd) as (x&Hx&Hk&Hl). rewrite H1 in Hx. apply elem_of_cons in Hx as [->|Hx].
  - eexists. split; [left|]. done.
  - exists x. split; [by right|done].
Qed.

(** * Eviction *)

Section EvictSpec.
Context (sort : list cacheEntry → list cacheEntry).
Context (sort_perm : ∀ l, sort l ≡ₚ l) (sort_sorted : ∀ l, StronglySorted older (sort l)).
Context (removes : string → bool) (removes_ok : ∀ k, removes k = true).

Lemma evict_split c :
  order c ≠ [] →
  ∃ e rest, order c ≡ₚ e :: rest ∧ (∀ x, x ∈ rest → lastAccess e ≤ lastAccess x)
    ∧ evictOldest sort removes c
      = {| maxBytes := maxBytes c; currentSize := currentSize c - size e; order := rest;
           files := delete (key e) (files c) |}.
Proof.
  intros Hne. pose proof (sort_perm (order c)) as Hp. pose proof (sort_sorted (order c)) as Hs.
  unfold evictOldest. destruct (sort (order c)) as [|e rest].
  - apply Permutation_nil in Hp. by rewrite Hp in Hne.
  - exists e, rest. split; [done|]. apply StronglySorted_cons in Hs as [Hs _]. rewrite Forall_forall in Hs.
    split; [exact Hs|]. by rewrite removes_ok.
Qed.

Lemma evict_accounted c : accounted c → order c ≠ [] → accounted (evictOldest sort removes c).
Proof.
  intros (Hs&Hp&Hc) Hne. destruct (evict_split c Hne) as (e&rest&H1&_&->). unfold accounted, total in *. cbn.
  rewrite H1 in Hs, Hp. cbn in Hs. rewrite zsum_cons in Hs. apply Forall_cons in Hp as [_ Hp].
  split; [lia|]. split; [done|]. intros k d [Hk Hd]%lookup_delete_Some.
  destruct (Hc k d Hd) as (x&Hx&Hxk&Hl). rewrite H1 in Hx. apply elem_of_cons in Hx as [->|Hx]; [congruence|eauto].
Qed.

(** The loop leaves room or an empty cache; its fuel is enough. *)
Lemma evict_loop_spec sz fuel : ∀ c,
  (length (order c) ≤ fuel)%nat → accounted c →
  let c' := evict_loop sort removes fuel sz c in
  accounted c' ∧ maxBytes c' = maxBytes c ∧ (currentSize c' + sz ≤ maxBytes c ∨ order c' = []).
Proof.
  induction fuel as [|fuel IH]; intros c Hf Ha; cbn zeta; cbn [evict_loop].
  { split; [done|]. split; [done|]. right. apply nil_length_inv. lia. }
  destruct (_ && _) eqn:E.
  - apply andb_true_iff in E as [_ E]. to_prop. destruct (evict_split c E) as (e&rest&H1&_&He).
    destruct (IH (evictOldest sort removes c)) as (I1&I2&I3).
    + rewrite He. cbn. apply Permutation_length in H1. cbn in H1. lia.
    + by apply evict_accounted.
    + split; [done|]. rewrite He in I2, I3. rewrite He. done.
  - split; [done|]. split; [done|]. apply andb_false_iff in E as [E|E]; to_prop; [left; lia|by right].
Qed.

(** * Histories *)

Inductive cache_op :=
  | OpGet (k : string) (now : Z)
  | OpOpen (k : string) (now : Z)
  | OpPut (k : string) (data : list byte) (now : Z) (w : write_result).

Definition cache_step (c : DiskCache) (op : cache_op) : DiskCache :=
  match op with
  | OpGet k now => (Get k now c).2
  | OpOpen k now => (Open k now c).2
  | OpPut k data now w => (Put sort removes k data now w c).2
  end.

(** Data that fits, and no half-written files. *)
Definition clean_op (cap : Z) (op : cache_op) : Prop :=
  match op with
  | OpPut _ data _ w => len data ≤ cap ∧ match w with WriteFailed (Some _) => False | _ => True end
  | _ => True
  end.

Lemma put_accounted k data now w c :
  accounted c → currentSize c ≤ maxBytes c → clean_op (maxBytes c) (OpPut k data now w) →
  let c' := (Put sort removes k data now w c).2 in
  accounted c' ∧ maxBytes c' = maxBytes c ∧ currentSize c' ≤ maxBytes c.
Proof.
  intros Ha Hle [Hd Hw]. cbn zeta. unfold Put. destruct (negb _); [done|].
  destruct (evict_loop_spec (Z.of_nat (length data)) (length (order c)) c ltac:(lia) Ha) as (A&M&R).
  set (c1 := evict_loop _ _ _ _ _) in *. destruct A as (As&Ap&Ac).
  assert (currentSize c1 ≤ maxBytes c ∧ currentSize c1 + len data ≤ maxBytes c) as [R1 R2].
  { unfold len in *. destruct R as [R|R]; [lia|]. rewrite As, R. cbn. unfold total, zsum. cbn. lia. }
  destruct w as [|[part|]]; [|done|done]. cbn [snd]. unfold accounted, total in *. cbn. split; [|split; [done|exact R2]].
  rewrite fmap_app, zsum_app. cbn. rewrite zsum_cons. split; [rewrite As; unfold zsum at 3; cbn; lia|].
  split; [apply Forall_app; split; [done|]; apply Forall_singleton; cbn; lia|].
  intros j d [[<- <-]|[Hj Hf]]%lookup_insert_Some.
  - eexists. split; [apply elem_of_app; right; left|]. done.
  - destruct (Ac j d Hf) as (x&Hx&?). exists x. split; [apply elem_of_app; by left|done].
Qed.

Lemma step_accounted op c :
  accounted c → currentSize c ≤ maxBytes c → clean_op (maxBytes c) op →
  accounted (cache_step c op) ∧ maxBytes (cache_step c op) = maxBytes c
  ∧ currentSize (cache_step c op) ≤ maxBytes c.
Proof.
  intros Ha Hle Hop. destruct op; cbn [cache_step]; [| |by apply put_accounted].
  - unfold Get. destruct (negb _); [done|]. destruct (files c !! k); [|done]. split; [by apply touch_accounted|done].
  - unfold Open. destruct (negb _); [done|]. destruct (files c !! k); [|done]. split; [by apply touch_accounted|done].
Qed.

(** ** Recently used entries *)

(** The bytes of the entries used at [t] or later. *)
Definition used_since (t : Z) (o : list cacheEntry) : Z := total (filter (λ x, t ≤ lastAccess x) o).

Lemma evict_loop_keeps e sz fuel : ∀ c,
  accounted c → NoDup (key <$> order c) → e ∈ order c →
  used_since (lastAccess e) (order c) + sz ≤ maxBytes c →
  let c' := evict_loop sort removes fuel sz c in
  e ∈ order c' ∧ files c' !! key e = files c !! key e.
Proof.
  induction fuel as [|fuel IH]; intros c Ha Hnd He Hroom; cbn zeta; cbn [evict_loop]; [done|].
  destruct (_ && _) eqn:E; [|done]. apply andb_true_iff in E as [E1 E2]. to_prop.
  destruct (evict_split c E2) as (o&rest&H1&H2&Hev). pose proof (evict_accounted c Ha E2) as Ha'.
  destruct Ha as (Hs&Hp&_). unfold used_since, total in Hroom, Hs.
  rewrite H1 in Hs, Hp, Hnd, He, Hroom. cbn [fmap list_fmap] in Hs, Hnd. rewrite zsum_cons in Hs.
  apply NoDup_cons in Hnd as [Ho Hnd]. apply Forall_cons in Hp as [Hpo Hp].
  assert (e ≠ o) as Hneq.
  { intros ->. rewrite (filter_all (λ x, lastAccess o ≤ lastAccess x)) in Hroom.
    - cbn in Hroom. rewrite zsum_cons in Hroom. lia.
    - apply Forall_cons. split; [lia|]. by apply Forall_forall. }
  apply elem_of_cons in He as [->|He]; [done|].
  assert (key o ≠ key e) as Hkey by (intros Hk; apply Ho; rewrite Hk; by apply list_elem_of_fmap_2).
  assert (used_since (lastAccess e) rest + sz ≤ maxBytes c) as Hrest.
  { unfold used_since, total. rewrite filter_cons in Hroom.
    destruct (decide (lastAccess e ≤ lastAccess o)); [|done].
    cbn [fmap list_fmap] in Hroom. rewrite zsum_cons in Hroom. lia. }
  rewrite Hev in Ha' |- *.
  destruct (IH _ Ha' Hnd He Hrest) as [I1 I2]. split; [done|]. rewrite I2. cbn. by rewrite lookup_delete_ne.
Qed.
End EvictSpec.

(** * Theorems *)

(** What the code relies on of [sort.Slice] with this comparison. *)
Definition sorts (sort : list cacheEntry → list cacheEntry) : Prop :=
  (∀ l, sort l ≡ₚ l) ∧ ∀ l, StronglySorted older (sort l).

Lemma run_accounted sort removes h : ∀ c,
  sorts sort → (∀ k, removes k = true) → accounted c → currentSize c ≤ maxBytes c → Forall (clean_op (maxBytes c)) h →
  accounted (foldl (cache_step sort removes) c h)
  ∧ currentSize (foldl (cache_step sort removes) c h) ≤ maxBytes c.
Proof.
  induction h as [|op h IH]; intros c [Hp Hs] Hr Ha Hle Hh; [done|].
  apply Forall_cons in Hh as [Hop Hh]. destruct (step_accounted sort Hp Hs removes Hr op c Ha Hle Hop) as (A&M&L).
  rewrite <- M in Hh, L |- *. by apply IH.
Qed.


(** The cache is least-recently-used: storing new data keeps every entry
    that fits beside the new data together with all entries used at least as
    recently, its file untouched; only older entries make room. *)
Theorem recent_entries_survive sort removes k data now e c :
  sorts sort → (∀ k, removes k = true) → accounted c → NoDup (key <$> order c) →
  e ∈ order c → key e ≠ k → used_since (lastAccess e) (order c) + len data ≤ maxBytes c →
  let c' := (Put sort removes k data now Written c).2 in
  e ∈ order c' ∧ files c' !! key e = files c !! key e.
Proof.
  intros [Hp Hs] Hr Ha Hnd He Hk Hroom. cbn zeta. unfold Put. destruct (negb _); [done|].
  destruct (evict_loop_keeps sort Hp Hs removes Hr e (Z.of_nat (length data)) (length (order c)) c Ha Hnd He Hroom)
    as [H1 H2].
  cbn. split; [apply elem_of_app; by left|]. by rewrite lookup_insert_ne.
Qed.

#[export] Instance older_total : Total older.
Proof. intros a b. unfold older. lia. Qed.
#[export] Instance older_trans : Transitive older.
Proof. intros a b c. unfold older. lia. Qed.

Definition stable_sort : list cacheEntry → list cacheEntry := merge_sort older.
Lemma stable_sort_sorts : sorts stable_sort.
Proof.
  split; intros l; [apply merge_sort_Permutation|]. apply StronglySorted_merge_sort; apply _.
Qed.

(** Keys [aa..a] and the like. *)
Definition hex_key (b : byte) : string := str (repeat b 64).
Definition empty_cache (cap : Z) : DiskCache := {| maxBytes := cap; currentSize := 0; order := []; files := ∅ |}.

Lemma empty_cache_accounted cap : accounted (empty_cache cap).
Proof.
  split; [done|]. split; [constructor|]. intros k d H. cbn in H. by rewrite lookup_empty in H.
Qed.

Definition always (k : string) : bool := true.


(** Of two cached files the one read last survives the next store. *)
Definition two_files : DiskCache :=
  foldl (cache_step stable_sort always) (empty_cache 3)
    [OpPut (hex_key x61) [x00] 1 Written; OpPut (hex_key x62) [x01] 2 Written; OpGet (hex_key x61) 3].

Lemma recent_entries_survive_witness :
  let c := (Put stable_sort always (hex_key x63) [x02; x02] 4 Written two_files).2 in
  files c !! hex_key x61 = Some [x00] ∧ files c !! hex_key x62 = None.
Proof.
  intros c. split; [|vm_compute; reflexivity].
  refine (proj2 (recent_entries_survive stable_sort always (hex_key x63) [x02; x02] 4
    {| key := hex_key x61; size := 1; lastAccess := 3 |} two_files _ _ _ _ _ _ _)).
  - exact stable_sort_sorts.
  - reflexivity.
  - apply (run_accounted stable_sort always _ (empty_cache 3) stable_sort_sorts); [done|apply empty_cache_accounted|done|].
    repeat apply Forall_cons_2; try (split; [vm_compute; discriminate|exact I]); [exact I|apply Forall_nil_2].
  - apply (bool_decide_unpack (NoDup (key <$> order two_files))). vm_compute. exact I.
  - vm_compute. right. left.
  - vm_compute. discriminate.
  - vm_compute. discriminate.
Defined.

(** Storing a key twice corrupts the bookkeeping: the recorded size counts
    the file twice, and making room evicts the file just stored, although
    everything would fit, while an entry for it remains. *)
Theorem storing_twice_loses_the_file :
  let put k d t := OpPut (hex_key k) d t Written in
  let c := foldl (cache_step stable_sort always) (empty_cache 3) [put x61 [x00] 1; put x61 [x00] 2] in
  let c' := (Put stable_sort always (hex_key x62) [x01; x01] 3 Written c).2 in
  disk_usage c = 1 ∧ currentSize c = 2
  ∧ files c' !! hex_key x61 = None ∧ hex_key x61 ∈ key <$> order c'.
Proof.
  split; [vm_compute; reflexivity|]. split; [vm_compute; reflexivity|]. split; [vm_compute; reflexivity|].
  vm_compute. left.
Qed.
