(* ===== verification/DuckLake.v ===== *)
(** The lake catalogs of a session: the configuration of DuckLake and Iceberg
    (src/server/ducklake/config.go, src/server/iceberg/config.go), the statements that
    attach them and create their secrets (src/server/ducklake/migration.go,
    src/server/ducklake/restricted.go, src/server/iceberg/migration.go and the secret
    builders of src/server/server.go), and what reading such a statement or connection
    string gives back. *)

From Stdlib Require Import Strings.Byte.
From stdpp Require Import prelude gmap strings list fin_maps.
From Stdlib Require Import ZArith Lia.
From S2P Require Import Prelude GoText SessionMeta.

Open Scope string_scope.
Open Scope list_scope.
Open Scope Z_scope.

(** * Configuration *)

Module ducklake.
Record Config := {
  MetadataStore : string;
  RestrictClientSessions : bool;
  DisableMetadataThreadLocalCache : option bool;
  ObjectStore : string;
  DataPath : string;
  DeltaCatalogEnabled : bool;
  CfgDeltaCatalogPath : string;
  S3Provider : string;
  S3Endpoint : string;
  S3AccessKey : string;
  S3SecretKey : string;
  S3SessionToken : string;
  S3Region : string;
  S3UseSSL : bool;
  S3URLStyle : string;
  S3Chain : string;
  S3Profile : string;
  AzureProvider : string;
  AzureAccountName : string;
  AzureChain : string;
  AzureClientID : string;
  HTTPProxy : string;
  CheckpointInterval : Z;
  DataInliningRowLimit : option Z;
  Migrate : bool;
  SpecVersion : string;
  ViaPgBouncer : bool;
  ApplicationName : string;
}.

(** [reflect.DeepEqual]: pointers are compared by what they point to. *)
#[global] Instance Config_eq_dec : EqDecision Config.
Proof. solve_decision. Defined.
End ducklake.

Module iceberg.
Record Config := {
  Enabled : bool;
  Backend : string;
  Namespace : string;
  Region : string;
  TableBucket : string;
  LakekeeperEndpoint : string;
  LakekeeperWarehouse : string;
  LakekeeperClientID : string;
  LakekeeperClientSecret : string;
  LakekeeperOAuth2ServerURI : string;
}.

#[global] Instance Config_eq_dec : EqDecision Config.
Proof. solve_decision. Defined.

Definition BackendLakekeeper : string := "lakekeeper".
Definition BackendS3Tables : string := "s3_tables".
Definition ResolvedBackend (c : Config) : string := if bool_decide (Backend c = "") then BackendLakekeeper else Backend c.

Definition DefaultRegion : string := "us-east-1".
Definition CatalogName : string := "iceberg".
Definition DefaultSchema : string := "public".
Definition LakekeeperSecretName : string := "iceberg_oauth".
Definition LakekeeperAccessDelegationNone : string := "ACCESS_DELEGATION_MODE 'none'".
End iceberg.

Definition or_default (s d : string) : string := if bool_decide (s = "") then d else s.

(** * Statements of the Iceberg catalog *)

(** [strings.ReplaceAll(v, "'", two of them)], in both packages. *)
Definition escapeSQLStringLiteral (v : string) : string := str (double_quotes (bytes v)).

Definition BuildIcebergSecretStmt (cfg : iceberg.Config) (keyID secret sessionToken : string) : string :=
  let region := or_default (iceberg.Region cfg) iceberg.DefaultRegion in
  "CREATE OR REPLACE SECRET iceberg_sigv4 (TYPE S3, PROVIDER config, KEY_ID '" +:+ escapeSQLStringLiteral keyID
  +:+ "', SECRET '" +:+ escapeSQLStringLiteral secret +:+ "', REGION '" +:+ escapeSQLStringLiteral region +:+ "'"
  +:+ (if bool_decide (sessionToken = "") then "" else ", SESSION_TOKEN '" +:+ escapeSQLStringLiteral sessionToken +:+ "'")
  +:+ ")".

Definition BuildIcebergAttachStmt (cfg : iceberg.Config) : string :=
  "ATTACH '" +:+ escapeSQLStringLiteral (iceberg.TableBucket cfg) +:+ "' AS " +:+ iceberg.CatalogName
  +:+ " (TYPE iceberg, ENDPOINT_TYPE 's3_tables')".

Definition BuildLakekeeperSecretStmt (cfg : iceberg.Config) : string :=
  if bool_decide (iceberg.LakekeeperOAuth2ServerURI cfg = "") then "" else
  "CREATE OR REPLACE SECRET " +:+ iceberg.LakekeeperSecretName +:+ " (TYPE ICEBERG, CLIENT_ID '"
  +:+ escapeSQLStringLiteral (iceberg.LakekeeperClientID cfg) +:+ "', CLIENT_SECRET '"
  +:+ escapeSQLStringLiteral (iceberg.LakekeeperClientSecret cfg) +:+ "', OAUTH2_SERVER_URI '"
  +:+ escapeSQLStringLiteral (iceberg.LakekeeperOAuth2ServerURI cfg) +:+ "')".

Definition BuildLakekeeperAttachStmt (cfg : iceberg.Config) : string :=
  "ATTACH '" +:+ escapeSQLStringLiteral (iceberg.LakekeeperWarehouse cfg) +:+ "' AS " +:+ iceberg.CatalogName
  +:+ " (TYPE ICEBERG, ENDPOINT '" +:+ escapeSQLStringLiteral (iceberg.LakekeeperEndpoint cfg) +:+ "', "
  +:+ (if bool_decide (iceberg.LakekeeperOAuth2ServerURI cfg = "") then "AUTHORIZATION_TYPE 'none'"
       else "SECRET " +:+ iceberg.LakekeeperSecretName)
  +:+ ", " +:+ iceberg.LakekeeperAccessDelegationNone +:+ ")".

(** * Statements of the DuckLake and Delta catalogs *)

Definition injectPostgresKeepalive (metadataStore : string) : string :=
  if negb (HasPrefix metadataStore "postgres:") then metadataStore
  else if Contains (TrimPrefix metadataStore "postgres:") "keepalives" then metadataStore
  else metadataStore +:+ " keepalives=1 keepalives_idle=60 keepalives_interval=10 keepalives_count=5".

Definition injectPostgresApplicationName (metadataStore name : string) : string :=
  if bool_decide (name = "") then metadataStore
  else if negb (HasPrefix metadataStore "postgres:") then metadataStore
  else if Contains (TrimPrefix metadataStore "postgres:") "application_name" then metadataStore
  else
    let name := str (take 63 (bytes name)) in
    metadataStore +:+ " application_name='" +:+ escapeSQLStringLiteral name +:+ "'".

Definition attachOptions (dlCfg : ducklake.Config) (migrate : bool) : list string :=
  let dataPath := or_default (ducklake.ObjectStore dlCfg) (ducklake.DataPath dlCfg) in
  (if bool_decide (dataPath = "") then [] else ["DATA_PATH '" +:+ escapeSQLStringLiteral dataPath +:+ "'"])
  ++ (if migrate then ["AUTOMATIC_MIGRATION TRUE"] else [])
  ++ match ducklake.DataInliningRowLimit dlCfg with
     | Some n => ["DATA_INLINING_ROW_LIMIT " +:+ fmt_d n]
     | None => []
     end.

(** [strings.Join] of a list of strings. *)
Definition Join (ws : list string) (sep : string) : string := str (join (bytes sep) (bytes <$> ws)).

Definition BuildAttachStmt (dlCfg : ducklake.Config) (migrate : bool) : string :=
  let connStr := escapeSQLStringLiteral (injectPostgresApplicationName
                   (injectPostgresKeepalive (ducklake.MetadataStore dlCfg)) (ducklake.ApplicationName dlCfg)) in
  match attachOptions dlCfg migrate with
  | [] => "ATTACH 'ducklake:" +:+ connStr +:+ "' AS ducklake"
  | options => "ATTACH 'ducklake:" +:+ connStr +:+ "' AS ducklake (" +:+ Join options ", " +:+ ")"
  end.

(** [strings.TrimRight(s, "/")] and [strings.LastIndexByte(s, '/')]. *)
Definition trim_slashes (l : list byte) : list byte :=
  reverse ((fix go l := match l with b :: l' => if bool_decide (b = x2f) then go l' else l | [] => [] end) (reverse l)).
Definition last_slash (l : list byte) : option nat :=
  (λ i, length l - 1 - i)%nat <$> index_byte x2f (reverse l).

Definition objectStoreParentPrefix (path : string) : string :=
  let l := bytes path in
  let '(scheme, rest) := match index (bytes "://") l with
                         | Some i => (take (i + 3) l, drop (i + 3) l)
                         | None => ([], l)
                         end in
  let rest := trim_slashes rest in
  str match rest, last_slash rest with
      | [], _ => scheme
      | _, Some idx => scheme ++ take (idx + 1) rest
      | _, None => scheme ++ rest ++ [x2f]
      end.

(** [filepath.Clean], [filepath.Dir] and [filepath.Join] of two elements, on Unix. *)
Definition clean_segment (rooted : bool) (out : list (list byte)) (seg : list byte) : list (list byte) :=
  if bool_decide (seg = [] ∨ seg = [x2e]) then out
  else if bool_decide (seg = [x2e; x2e]) then
    match out with
    | s :: out' => if bool_decide (s = [x2e; x2e]) then seg :: out else out'
    | [] => if rooted then [] else [seg]
    end
  else seg :: out.
Definition filepath_Clean (l : list byte) : list byte :=
  match l with
  | [] => [x2e]
  | b :: _ =>
      let rooted := bool_decide (b = x2f) in
      let body := join [x2f] (reverse (foldl (clean_segment rooted) [] (split_byte x2f l))) in
      if rooted then x2f :: body else match body with [] => [x2e] | _ => body end
  end.
Definition filepath_Dir (l : list byte) : list byte :=
  filepath_Clean (match last_slash l with Some i => take (i + 1) l | None => [] end).
Definition filepath_Join2 (a b : list byte) : list byte :=
  match a, b with
  | [], [] => []
  | [], _ => filepath_Clean b
  | _, _ => filepath_Clean (a ++ [x2f] ++ b)
  end.

Definition DefaultDeltaCatalogPath (dlCfg : ducklake.Config) : string :=
  if bool_decide (ducklake.ObjectStore dlCfg ≠ "") then objectStoreParentPrefix (ducklake.ObjectStore dlCfg) +:+ "delta/"
  else if bool_decide (ducklake.DataPath dlCfg ≠ "") then
    str (filepath_Join2 (filepath_Dir (filepath_Clean (bytes (ducklake.DataPath dlCfg)))) (bytes "delta"))
  else "".

Definition DeltaCatalogPath (dlCfg : ducklake.Config) : string :=
  or_default (ducklake.CfgDeltaCatalogPath dlCfg) (DefaultDeltaCatalogPath dlCfg).

Definition BuildDeltaAttachStmt (dlCfg : ducklake.Config) : string :=
  "ATTACH '" +:+ escapeSQLStringLiteral (DeltaCatalogPath dlCfg) +:+ "' AS delta (TYPE delta)".

(** * The connection string of the metadata store *)

Definition libpqParam : Type := list byte * list byte.

Inductive libpq_error :=
  | ExpectedKeyValue (near : list byte)
  | UnterminatedQuote (key : list byte).

Definition blanks : list byte := [x20; x09; x0a; x0d].
Definition is_blank (b : byte) : bool := bool_decide (b ∈ blanks).

Fixpoint skip_space (l : list byte) : list byte :=
  match l with
  | b :: l' => if is_blank b then skip_space l' else l
  | [] => []
  end.

(** The bytes up to the first one that [stop] accepts, and the rest. *)
Fixpoint scan_until (stop : byte → bool) (l : list byte) : list byte * list byte :=
  match l with
  | [] => ([], [])
  | b :: l' => if stop b then ([], l) else let '(w, r) := scan_until stop l' in (b :: w, r)
  end.

Definition ends_key (b : byte) : bool := bool_decide (b ∈ [x3d; x20; x09]).

(** The loop over a quoted value, past the opening quote: the value and the rest. *)
Fixpoint scan_quoted (l : list byte) : option (list byte * list byte) :=
  match l with
  | [] => None
  | b :: l' =>
      match l' with
      | c :: l'' =>
          if bool_decide (b = x5c) then (λ '(v, r), (c :: v, r)) <$> scan_quoted l''
          else if bool_decide (b = x27) then Some ([], l')
          else (λ '(v, r), (b :: v, r)) <$> scan_quoted l'
      | [] => if bool_decide (b = x27) then Some ([], []) else None
      end
  end.

Fixpoint parse_params (fuel : nat) (s : list byte) : libpq_error + list libpqParam :=
  match fuel with
  | O => inr []
  | S fuel' =>
      match skip_space s with
      | [] => inr []
      | start =>
          let '(key, rest) := scan_until ends_key start in
          match skip_space rest, key with
          | b :: rest, _ :: _ =>
              if negb (bool_decide (b = x3d)) then inl (ExpectedKeyValue start) else
              let go value rest := match parse_params fuel' rest with inl e => inl e | inr ps => inr ((key, value) :: ps) end in
              match skip_space rest with
              | c :: rest' =>
                  if bool_decide (c = x27)
                  then match scan_quoted rest' with Some (v, r) => go v r | None => inl (UnterminatedQuote key) end
                  else let '(v, r) := scan_until is_blank (c :: rest') in go v r
              | [] => go [] []
              end
          | _, _ => inl (ExpectedKeyValue start)
          end
      end
  end.

(** A parameter takes at least its equals sign, so the length is fuel enough. *)
Definition parseLibpqParams (s : list byte) : libpq_error + list libpqParam := parse_params (S (length s)) s.

(** [strings.NewReplacer] of a backslash and a quote by their escapes. *)
Definition escape_libpq (v : list byte) : list byte :=
  v ≫= λ b, if bool_decide (b = x5c ∨ b = x27) then [x5c; b] else [b].
Definition formatLibpqValue (v : list byte) : list byte :=
  if bool_decide (v ≠ []) && forallb (λ b, negb (bool_decide (b ∈ blanks ++ [x27; x5c]))) v then v
  else [x27] ++ escape_libpq v ++ [x27].

Definition metadataSecretFields (key : list byte) : option string :=
  if bool_decide (key = bytes "host") then Some "HOST"
  else if bool_decide (key = bytes "port") then Some "PORT"
  else if bool_decide (key = bytes "user") then Some "USER"
  else if bool_decide (key = bytes "password") then Some "PASSWORD"
  else None.

Definition MetadataSecretName : string := "ducklake_metadata".

Definition secret_part (p : libpqParam) : option string :=
  field ← metadataSecretFields p.1; Some (field +:+ " '" +:+ escapeSQLStringLiteral (str p.2) +:+ "'").
Definition path_part (p : libpqParam) : option string :=
  match metadataSecretFields p.1 with
  | Some _ => None
  | None => Some (str (p.1 ++ [x3d] ++ formatLibpqValue p.2))
  end.

Inductive restricted_error := NotPostgres | BadParams (e : libpq_error).

Definition BuildRestrictedAttachStmts (dlCfg : ducklake.Config) (migrate : bool) : restricted_error + string * string :=
  if negb (HasPrefix (ducklake.MetadataStore dlCfg) "postgres:") then inl NotPostgres else
  let connStr := injectPostgresApplicationName (injectPostgresKeepalive (ducklake.MetadataStore dlCfg)) (ducklake.ApplicationName dlCfg) in
  match parseLibpqParams (bytes (TrimPrefix connStr "postgres:")) with
  | inl e => inl (BadParams e)
  | inr params =>
      let secretParts := "TYPE postgres" :: omap secret_part params in
      let pathParts := omap path_part params in
      let options := attachOptions dlCfg migrate
        ++ ["METADATA_PARAMETERS MAP {'TYPE': 'postgres', 'SECRET': '" +:+ MetadataSecretName +:+ "'}"] in
      inr ("CREATE OR REPLACE SECRET " +:+ MetadataSecretName +:+ " (" +:+ Join secretParts ", " +:+ ")",
           "ATTACH 'ducklake:" +:+ escapeSQLStringLiteral (Join pathParts " ") +:+ "' AS ducklake (" +:+ Join options ", " +:+ ")")
  end.

Definition sqlStringList (values : list string) : string :=
  "[" +:+ Join ((λ v, "'" +:+ escapeSQLStringLiteral v +:+ "'") <$> values) ", " +:+ "]".

Definition BuildSessionLockStmts (allowedDirs allowedPaths : list string) : list string :=
  ["SET allowed_directories = " +:+ sqlStringList allowedDirs;
   "SET allowed_paths = " +:+ sqlStringList allowedPaths;
   "SET enable_external_access = false";
   "SET lock_configuration = true"].

(** * The secret of the object store *)

Definition isAzureObjectStore (objectStore : string) : bool :=
  HasPrefix objectStore "azure://" || HasPrefix objectStore "az://".

Definition S3ProviderForConfig (dlCfg : ducklake.Config) : string :=
  or_default (ducklake.S3Provider dlCfg) (if bool_decide (ducklake.S3AccessKey dlCfg ≠ "") then "config" else "credential_chain").

Definition needsCredentialRefresh (dlCfg : ducklake.Config) : bool :=
  if bool_decide (ducklake.ObjectStore dlCfg = "") then false
  else if isAzureObjectStore (ducklake.ObjectStore dlCfg) then false
  else let p := S3ProviderForConfig dlCfg in
       bool_decide (p = "credential_chain") || bool_decide (p = "aws_sdk") || bool_decide (ducklake.S3SessionToken dlCfg ≠ "").

(** The URL style and whether to use TLS, as the secret spells them. *)
Definition resolveS3SecretTransport (dlCfg : ducklake.Config) : string * string :=
  if bool_decide (ducklake.HTTPProxy dlCfg ≠ "") then ("path", "false")
  else (or_default (ducklake.S3URLStyle dlCfg) "path", if ducklake.S3UseSSL dlCfg then "true" else "false").

(** [",\n\t\t\tNAME 'value'"] *)
Definition field (name value : string) : string := ",
			" +:+ name +:+ " '" +:+ value +:+ "'".
Definition opt_field (name value : string) : string := if bool_decide (value = "") then "" else field name value.
Definition close_secret : string := "
		)".

Definition buildConfigSecret (dlCfg : ducklake.Config) : string :=
  let region := or_default (ducklake.S3Region dlCfg) "us-east-1" in
  let '(urlStyle, useSSL) := resolveS3SecretTransport dlCfg in
  "
		CREATE OR REPLACE SECRET ducklake_s3 (
			TYPE s3,
			PROVIDER config,
			KEY_ID '" +:+ ducklake.S3AccessKey dlCfg +:+ "'" +:+ field "SECRET" (ducklake.S3SecretKey dlCfg)
  +:+ field "REGION" region +:+ field "URL_STYLE" urlStyle +:+ ",
			USE_SSL " +:+ useSSL
  +:+ opt_field "ENDPOINT" (ducklake.S3Endpoint dlCfg) +:+ opt_field "SESSION_TOKEN" (ducklake.S3SessionToken dlCfg)
  +:+ close_secret.

(** The transport fields of the two builders that leave them out for plain S3. *)
Definition transport_fields (dlCfg : ducklake.Config) : string :=
  if bool_decide (ducklake.S3Endpoint dlCfg ≠ "") || bool_decide (ducklake.HTTPProxy dlCfg ≠ "") then
    let '(urlStyle, useSSL) := resolveS3SecretTransport dlCfg in
    opt_field "ENDPOINT" (ducklake.S3Endpoint dlCfg) +:+ field "URL_STYLE" urlStyle +:+ ",
			USE_SSL " +:+ useSSL
  else "".

Definition buildCredentialChainSecret (dlCfg : ducklake.Config) : string :=
  "
		CREATE OR REPLACE SECRET ducklake_s3 (
			TYPE s3,
			PROVIDER credential_chain"
  +:+ opt_field "CHAIN" (ducklake.S3Chain dlCfg) +:+ opt_field "PROFILE" (ducklake.S3Profile dlCfg)
  +:+ opt_field "REGION" (ducklake.S3Region dlCfg) +:+ transport_fields dlCfg +:+ close_secret.

(** The credentials the AWS library retrieves: key, secret, session token. *)
Definition buildAWSSdkSecret (fetched : option (string * string * string)) (dlCfg : ducklake.Config) : option string :=
  '(AccessKeyID, SecretAccessKey, SessionToken) ← fetched;
  let region := or_default (ducklake.S3Region dlCfg) "us-east-1" in
  Some ("
		CREATE OR REPLACE SECRET ducklake_s3 (
			TYPE s3,
			PROVIDER config,
			KEY_ID '" +:+ AccessKeyID +:+ "'" +:+ field "SECRET" SecretAccessKey +:+ field "REGION" region
  +:+ opt_field "SESSION_TOKEN" SessionToken +:+ transport_fields dlCfg +:+ close_secret).

Definition buildAzureSecret (dlCfg : ducklake.Config) : string :=
  let provider := or_default (ducklake.AzureProvider dlCfg) "credential_chain" in
  "
		CREATE OR REPLACE SECRET ducklake_azure (
			TYPE azure,
			PROVIDER " +:+ provider +:+ field "ACCOUNT_NAME" (ducklake.AzureAccountName dlCfg)
  +:+ opt_field "CHAIN" (ducklake.AzureChain dlCfg) +:+ opt_field "CLIENT_ID" (ducklake.AzureClientID dlCfg) +:+ close_secret.

(** * Reading a connection string back *)

Lemma skip_space_length l : (length (skip_space l) ≤ length l)%nat.
Proof. induction l as [|b l IH]; cbn; [done|]. destruct (is_blank b); cbn; lia. Qed.

Lemma scan_until_length stop l : length l = (length (scan_until stop l).1 + length (scan_until stop l).2)%nat.
Proof. induction l as [|b l IH]; cbn; [done|]. destruct (stop b); [done|]. destruct (scan_until stop l); cbn in *. lia. Qed.

Lemma scan_quoted_length n : ∀ l v r, (length l ≤ n)%nat → scan_quoted l = Some (v, r) → (length r < length l)%nat.
Proof.
  induction n as [|n IH]; intros [|b l] v r Hn; cbn in *; [done|lia|done|].
  destruct l as [|c l]; [case_bool_decide; intros [= <- <-]; cbn; lia|].
  destruct (bool_decide (b = x5c)) eqn:?.
  { destruct (scan_quoted l) as [[v' r']|] eqn:E; cbn; [|done]. intros [= <- <-].
    apply IH in E; cbn in *; lia. }
  destruct (bool_decide (b = x27)); [intros [= <- <-]; cbn; lia|].
  destruct (scan_quoted (c :: l)) as [[v' r']|] eqn:E; cbn -[scan_quoted]; [|done]. intros [= <- <-].
  apply IH in E; cbn in *; lia.
Qed.

(** Any fuel past the length gives the same result. *)
Lemma parse_params_fuel n : ∀ m s, (length s < n)%nat → (length s < m)%nat → parse_params n s = parse_params m s.
Proof.
  induction n as [|n IH]; intros [|m] s Hn Hm; [lia..|]. cbn [parse_params].
  pose proof (skip_space_length s). destruct (skip_space s) as [|b0 l0] eqn:E; [done|].
  pose proof (scan_until_length ends_key (b0 :: l0)) as Hs.
  destruct (scan_until ends_key (b0 :: l0)) as [key rest] eqn:Ek. cbn [fst snd] in Hs.
  pose proof (skip_space_length rest). destruct (skip_space rest) as [|b rest'] eqn:Er; [done|].
  destruct key as [|k0 key]; [done|]. destruct (negb (bool_decide (b = x3d))); [done|].
  pose proof (skip_space_length rest'). destruct (skip_space rest') as [|c r] eqn:Ec; cbn [length] in *.
  { rewrite (IH m []); cbn; [done|lia|lia]. }
  destruct (bool_decide (c = x27)).
  - destruct (scan_quoted r) as [[v r']|] eqn:Eq; [|done].
    apply (scan_quoted_length (length r)) in Eq; [|done]. rewrite (IH m r'); [done|lia|lia].
  - pose proof (scan_until_length is_blank (c :: r)) as Hv.
    destruct (scan_until is_blank (c :: r)) as [v r'] eqn:Ev. cbn [fst snd length] in Hv.
    rewrite (IH m r'); [done|lia|lia].
Qed.

(** A key that can be written in a connection string. *)
Definition key_ok (k : list byte) : bool :=
  match k with b :: _ => negb (is_blank b) | [] => false end && forallb (λ b, negb (ends_key b)) k.

Definition render_param (p : libpqParam) : list byte := p.1 ++ [x3d] ++ formatLibpqValue p.2.
Definition render_params (ps : list libpqParam) : list byte := join [x20] (render_param <$> ps).

(** What may follow a parameter. *)
Definition param_end (l : list byte) : bool := match l with [] => true | b :: _ => is_blank b end.

Lemma scan_until_app stop l b rest : forallb (λ b, negb (stop b)) l = true → stop b = true →
  scan_until stop (l ++ b :: rest) = (l, b :: rest).
Proof.
  intros Hl Hb. induction l as [|c l IH]; cbn in *; [by rewrite Hb|].
  apply andb_true_iff in Hl as [Hc Hl]. apply negb_true_iff in Hc. by rewrite Hc, IH.
Qed.

Lemma scan_word l rest : forallb (λ b, negb (is_blank b)) l = true → param_end rest = true →
  scan_until is_blank (l ++ rest) = (l, rest).
Proof.
  intros Hl Hr. destruct rest as [|b rest]; [|by apply scan_until_app].
  rewrite app_nil_r. clear Hr. induction l as [|c l IH]; cbn in *; [done|].
  apply andb_true_iff in Hl as [Hc Hl]. apply negb_true_iff in Hc. by rewrite Hc, IH.
Qed.

Lemma scan_escaped v rest : scan_quoted (escape_libpq v ++ x27 :: rest) = Some (v, rest).
Proof.
  induction v as [|b v IH]; [by destruct rest|].
  change (escape_libpq (b :: v)) with ((if bool_decide (b = x5c ∨ b = x27) then [x5c; b] else [b]) ++ escape_libpq v).
  case_bool_decide as Hb; cbn [app scan_quoted].
  - by rewrite bool_decide_eq_true_2, IH.
  - destruct (escape_libpq v ++ x27 :: rest) as [|c l] eqn:E; [by destruct (escape_libpq v)|].
    rewrite !bool_decide_eq_false_2 by naive_solver. by rewrite IH.
Qed.

Lemma skip_space_id b l : is_blank b = false → skip_space (b :: l) = b :: l.
Proof. intros Hb. cbn. by rewrite Hb. Qed.

Definition cons_param (p : libpqParam) (r : libpq_error + list libpqParam) : libpq_error + list libpqParam :=
  match r with inl e => inl e | inr ps => inr (p :: ps) end.

Lemma parse_value fuel key c l rest v : param_end rest = true → formatLibpqValue v = c :: l →
  (if bool_decide (c = x27)
   then match scan_quoted (l ++ rest) with
        | Some (v, r) => cons_param (key, v) (parse_params fuel r)
        | None => inl (UnterminatedQuote key)
        end
   else let '(v, r) := scan_until is_blank (c :: l ++ rest) in cons_param (key, v) (parse_params fuel r))
  = cons_param (key, v) (parse_params fuel rest).
Proof.
  intros Hr. unfold formatLibpqValue. destruct (bool_decide (v ≠ []) && _) eqn:Hv.
  - intros ->. apply andb_true_iff in Hv as [_ Hv].
    assert (Forall (λ b, b ∉ blanks ++ [x27; x5c]) (c :: l)) as Hf.
    { apply Forall_forall. intros b Hb. rewrite forallb_forall in Hv.
      specialize (Hv b ltac:(by apply list_elem_of_In)). by to_prop. }
    rewrite bool_decide_eq_false_2.
    2:{ apply Forall_cons in Hf as [Hc _]. intros ->. by apply Hc; vm_compute; repeat constructor. }
    change (c :: l ++ rest) with ((c :: l) ++ rest). rewrite scan_word; [done| |done].
    apply forallb_forall. intros b Hb%list_elem_of_In. rewrite Forall_forall in Hf. specialize (Hf b Hb).
    unfold is_blank. rewrite bool_decide_eq_false_2; [done|]. intros ?. apply Hf, elem_of_app. by left.
  - intros [= <- <-]. rewrite bool_decide_eq_true_2 by done. rewrite <- app_assoc. cbn [app].
    by rewrite scan_escaped.
Qed.

Lemma parse_render_one fuel p rest : key_ok p.1 = true → param_end rest = true →
  parse_params (S fuel) (render_param p ++ rest) = cons_param p (parse_params fuel rest).
Proof.
  intros Hk Hr. destruct p as [key v]. unfold render_param. cbn [fst snd] in *.
  destruct key as [|b key]; [done|]. unfold key_ok in Hk. apply andb_true_iff in Hk as [Hb Hk].
  apply negb_true_iff in Hb. destruct (formatLibpqValue v) as [|c l] eqn:Ev.
  { unfold formatLibpqValue in Ev. destruct v; cbn in Ev; [done|]. by case_match. }
  assert (is_blank c = false) as Hc.
  { unfold formatLibpqValue in Ev. destruct (bool_decide (v ≠ []) && _) eqn:Hv.
    - subst v. apply andb_true_iff in Hv as [_ Hv]. cbn [forallb] in Hv. apply andb_true_iff in Hv as [Hv _].
      to_prop. unfold is_blank. apply bool_decide_eq_false. intros ?. apply Hv, elem_of_app. by left.
    - by injection Ev as <-. }
  rewrite <- !app_assoc. cbn [parse_params app]. rewrite skip_space_id by done.
  change (b :: key ++ x3d :: c :: l ++ rest) with ((b :: key) ++ x3d :: c :: l ++ rest).
  rewrite scan_until_app by done. rewrite skip_space_id by done. rewrite bool_decide_eq_true_2 by done. cbn [negb].
  rewrite skip_space_id by done. by apply parse_value.
Qed.

Lemma parse_render_app ps : ∀ fuel rest, Forall (λ p, key_ok p.1 = true) ps → ps ≠ [] → param_end rest = true →
  parse_params (length ps + fuel) (render_params ps ++ rest)
  = foldr cons_param (parse_params fuel rest) ps.
Proof.
  unfold render_params. induction ps as [|p ps IH]; intros fuel rest Hps Hne Hr; [done|].
  apply Forall_cons in Hps as [Hp Hps]. destruct ps as [|p' ps]; [by apply parse_render_one|].
  change (join [x20] (render_param <$> p :: p' :: ps)) with (render_param p ++ [x20] ++ join [x20] (render_param <$> p' :: ps)).
  rewrite <- !app_assoc. change (length (p :: p' :: ps) + fuel)%nat with (S (length (p' :: ps) + fuel))%nat.
  rewrite parse_render_one by done. change (foldr cons_param ?r (p :: ?l)) with (cons_param p (foldr cons_param r l)).
  f_equal. by rewrite <- IH.
Qed.

Lemma foldr_cons_param ps qs : foldr cons_param (inr qs) ps = inr (ps ++ qs).
Proof. induction ps as [|p ps IH]; cbn; [done|]. by rewrite IH. Qed.

(** Parameters written out, then something else, are read as the parameters and what the
    rest reads as. *)
Lemma parse_rendered_params ps rest : Forall (λ p, key_ok p.1 = true) ps → ps ≠ [] → param_end rest = true →
  parseLibpqParams (render_params ps ++ rest) = foldr cons_param (parseLibpqParams rest) ps.
Proof.
  intros Hps Hne Hr. unfold parseLibpqParams. set (total := render_params ps ++ rest).
  rewrite (parse_params_fuel _ (length ps + S (length total)) total) by lia.
  unfold total at 2. rewrite parse_render_app by done. f_equal. apply parse_params_fuel; [|lia].
  unfold total. rewrite length_app. lia.
Qed.

Lemma read_rendered_params ps : Forall (λ p, key_ok p.1 = true) ps → parseLibpqParams (render_params ps) = inr ps.
Proof.
  intros Hps. destruct (decide (ps = [])) as [->|Hne]; [done|].
  rewrite <- (app_nil_r (render_params ps)), parse_rendered_params by done.
  change (parseLibpqParams []) with (inr [] : libpq_error + list libpqParam).
  by rewrite foldr_cons_param, app_nil_r.
Qed.

(** C35. Parsing what was written gives the parameters back. *)
Theorem libpq_params_roundtrip ps : Forall (λ p, key_ok p.1 = true) ps → parseLibpqParams (render_params ps) = inr ps.
Proof. apply read_rendered_params. Qed.

(** * What a restricted attach shows *)

Lemma skip_space_head l b l' : skip_space l = b :: l' → is_blank b = false.
Proof. induction l as [|c l IH]; cbn; [done|]. destruct (is_blank c) eqn:E; [done|]. by intros [= <- <-]. Qed.

Lemma scan_until_stops stop l : forallb (λ b, negb (stop b)) (scan_until stop l).1 = true.
Proof. induction l as [|b l IH]; cbn; [done|]. destruct (stop b) eqn:E; [done|]. destruct (scan_until stop l). cbn in *. by rewrite E. Qed.

(** The keys that are read can be written. *)
Lemma parsed_keys_ok fuel : ∀ s ps, parse_params fuel s = inr ps → Forall (λ p, key_ok p.1 = true) ps.
Proof.
  induction fuel as [|fuel IH]; intros s ps; cbn [parse_params]; [intros [= <-]; constructor|].
  destruct (skip_space s) as [|b0 l0] eqn:E; [intros [= <-]; constructor|]. apply skip_space_head in E.
  pose proof (scan_until_stops ends_key (b0 :: l0)) as Hk.
  destruct (scan_until ends_key (b0 :: l0)) as [key rest] eqn:Ek. cbn [fst] in Hk.
  destruct (skip_space rest) as [|b rest']; [done|]. destruct key as [|k0 key]; [done|].
  assert (k0 = b0) as ->.
  { cbn in Ek. destruct (ends_key b0); [done|]. destruct (scan_until ends_key l0). by injection Ek. }
  destruct (negb _); [done|].
  assert (∀ v r, match parse_params fuel r with inl e => inl e | inr ps => inr ((b0 :: key, v) :: ps) end = inr ps →
                 Forall (λ p, key_ok p.1 = true) ps) as Hgo.
  { intros v r. destruct (parse_params fuel r) as [|qs] eqn:Er; [done|]. intros [= <-].
    apply Forall_cons. split; [|by eapply IH]. unfold key_ok. cbn [fst]. by rewrite E, Hk. }
  destruct (skip_space rest') as [|c r]; [apply Hgo|]. destruct (bool_decide (c = x27)).
  - destruct (scan_quoted r) as [[v r']|]; [apply Hgo|done].
  - destruct (scan_until is_blank (c :: r)) as [v r']. apply Hgo.
Qed.

Definition public_param (p : libpqParam) : Prop := metadataSecretFields p.1 = None.
#[export] Instance public_param_dec p : Decision (public_param p).
Proof. unfold public_param. apply _. Defined.

Lemma path_parts ps : Join (omap path_part ps) " " = str (render_params (filter public_param ps)).
Proof.
  unfold Join, render_params. do 2 f_equal. induction ps as [|p ps IH]; [done|].
  rewrite filter_cons. cbn [omap list_omap]. unfold path_part at 1.
  case_decide as Hp; unfold public_param in Hp.
  - rewrite Hp, !fmap_cons, bytes_str. f_equal. apply IH.
  - destruct (metadataSecretFields p.1); [done|]. by destruct Hp.
Qed.

(** The connection string the statements are made from. *)
Definition metadata_conn (dlCfg : ducklake.Config) : list byte :=
  bytes (TrimPrefix (injectPostgresApplicationName (injectPostgresKeepalive (ducklake.MetadataStore dlCfg))
                       (ducklake.ApplicationName dlCfg)) "postgres:").


(** * The parameters the code adds *)

Definition keepalive_params : list libpqParam :=
  [(bytes "keepalives", bytes "1"); (bytes "keepalives_idle", bytes "60");
   (bytes "keepalives_interval", bytes "10"); (bytes "keepalives_count", bytes "5")].

Lemma parse_quoted_one fuel key v rest : key_ok key = true →
  parse_params (S fuel) (key ++ [x3d; x27] ++ escape_libpq v ++ x27 :: rest) = cons_param (key, v) (parse_params fuel rest).
Proof.
  destruct key as [|b key]; [done|]. unfold key_ok. intros [Hb Hk]%andb_true_iff. apply negb_true_iff in Hb.
  cbn [parse_params app]. rewrite skip_space_id by done.
  change (b :: key ++ x3d :: x27 :: ?l) with ((b :: key) ++ x3d :: x27 :: l).
  rewrite scan_until_app by done. rewrite skip_space_id by done. rewrite bool_decide_eq_true_2 by done. cbn [negb].
  rewrite skip_space_id by done. rewrite bool_decide_eq_true_2 by done. by rewrite scan_escaped.
Qed.

(** A name that is written as it is: no quote, no backslash. *)
Definition plain_name (name : list byte) : bool := forallb (λ b, negb (bool_decide (b ∈ [x27; x5c]))) name.

Lemma double_quotes_plain l : plain_name l = true → double_quotes l = l ∧ escape_libpq l = l.
Proof.
  induction l as [|b l IH]; [done|]. cbn [plain_name forallb]. intros [Hb [H1 H2]%IH]%andb_true_iff.
  apply negb_true_iff, bool_decide_eq_false in Hb. rewrite !not_elem_of_cons in Hb.
  change (double_quotes (b :: l)) with ((if bool_decide (b = x27) then [x27; x27] else [b]) ++ double_quotes l).
  change (escape_libpq (b :: l)) with ((if bool_decide (b = x5c ∨ b = x27) then [x5c; b] else [b]) ++ escape_libpq l).
  destruct Hb as (Hb1 & Hb2 & _).
  rewrite !bool_decide_eq_false_2 by (try intros [?| ?]; done). by rewrite H1, H2.
Qed.

Lemma plain_name_take n l : plain_name l = true → plain_name (take n l) = true.
Proof.
  revert n. induction l as [|b l IH]; intros [|n]; cbn; try done. intros [-> H]%andb_true_iff. by apply IH.
Qed.

Lemma trim_prefix_app p l : TrimPrefix (p +:+ str l) p = str l.
Proof. unfold TrimPrefix, HasPrefix. rewrite bytes_append, bytes_str, has_prefix_app. by rewrite drop_app_length. Qed.
Lemma has_prefix_str p l : HasPrefix (p +:+ str l) p = true.
Proof. unfold HasPrefix. rewrite bytes_append. apply has_prefix_app. Qed.

Lemma app_str (p : string) (l m : list byte) : (p +:+ str l) +:+ str m = p +:+ str (l ++ m).
Proof. apply bytes_inj. by rewrite !bytes_append, !bytes_str, app_assoc. Qed.

(** The connection string of a metadata store is read as its own parameters, the
    keepalive settings unless it mentions some, and an application name of at most 63
    bytes when it has no quote or backslash. *)
Theorem metadata_params_are_added dlCfg ps :
  Forall (λ p, key_ok p.1 = true) ps → ps ≠ [] →
  ducklake.MetadataStore dlCfg = "postgres:" +:+ str (render_params ps) →
  Contains (str (render_params ps)) "keepalives" = false →
  ducklake.ApplicationName dlCfg ≠ "" →
  plain_name (bytes (ducklake.ApplicationName dlCfg)) = true →
  Contains (str (render_params ps ++ bytes " keepalives=1 keepalives_idle=60 keepalives_interval=10 keepalives_count=5")) "application_name" = false →
  parseLibpqParams (metadata_conn dlCfg)
  = inr (ps ++ keepalive_params ++ [(bytes "application_name", take 63 (bytes (ducklake.ApplicationName dlCfg)))]).
Proof.
  intros Hps Hne Hst Hk Hn Hplain Ha. unfold metadata_conn, injectPostgresKeepalive, injectPostgresApplicationName.
  rewrite Hst, has_prefix_str, trim_prefix_app, Hk. cbn [negb].
  rewrite bool_decide_eq_false_2 by done.
  change " keepalives=1 keepalives_idle=60 keepalives_interval=10 keepalives_count=5"
    with (str (bytes " keepalives=1 keepalives_idle=60 keepalives_interval=10 keepalives_count=5")).
  rewrite app_str, has_prefix_str, trim_prefix_app, Ha. cbn [negb].
  set (name := take 63 (bytes (ducklake.ApplicationName dlCfg))).
  assert (plain_name name = true) as [Hd He]%double_quotes_plain by by apply plain_name_take.
  unfold escapeSQLStringLiteral. rewrite bytes_str, Hd.
  replace (" application_name='" +:+ str name +:+ "'") with (str (bytes " application_name='" ++ name ++ [x27])).
  2:{ apply bytes_inj. by rewrite bytes_str, !bytes_append, bytes_str. }
  rewrite app_str, trim_prefix_app, bytes_str, <- app_assoc.
  rewrite parse_rendered_params by done.
  replace (parseLibpqParams _) with (inr (keepalive_params ++ [(bytes "application_name", name)]) : libpq_error + list libpqParam);
    [by rewrite foldr_cons_param|].
  assert (∀ l, parseLibpqParams (x20 :: l) = parseLibpqParams l) as Hskip.
  { intros l. unfold parseLibpqParams. rewrite (parse_params_fuel (S (length l)) (S (S (length l)))) by lia. done. }
  change (bytes " keepalives=1 keepalives_idle=60 keepalives_interval=10 keepalives_count=5")
    with (x20 :: render_params keepalive_params).
  cbn [app]. rewrite Hskip, parse_rendered_params by (try done; by repeat constructor).
  change (bytes " application_name='" ++ name ++ [x27]) with (x20 :: (bytes "application_name" ++ [x3d] ++ [x27] ++ name ++ [x27])).
  rewrite Hskip. rewrite <- He at 2. unfold parseLibpqParams.
  change ([x3d] ++ [x27] ++ ?l) with ([x3d; x27] ++ l). rewrite parse_quoted_one by done. done.
Qed.

(** * Examples *)

Definition no_lake : ducklake.Config := {|
  ducklake.MetadataStore := ""; ducklake.RestrictClientSessions := false;
  ducklake.DisableMetadataThreadLocalCache := None; ducklake.ObjectStore := ""; ducklake.DataPath := "";
  ducklake.DeltaCatalogEnabled := false; ducklake.CfgDeltaCatalogPath := ""; ducklake.S3Provider := "";
  ducklake.S3Endpoint := ""; ducklake.S3AccessKey := ""; ducklake.S3SecretKey := ""; ducklake.S3SessionToken := "";
  ducklake.S3Region := ""; ducklake.S3UseSSL := false; ducklake.S3URLStyle := ""; ducklake.S3Chain := "";
  ducklake.S3Profile := ""; ducklake.AzureProvider := ""; ducklake.AzureAccountName := ""; ducklake.AzureChain := "";
  ducklake.AzureClientID := ""; ducklake.HTTPProxy := ""; ducklake.CheckpointInterval := 0;
  ducklake.DataInliningRowLimit := None; ducklake.Migrate := false; ducklake.SpecVersion := "";
  ducklake.ViaPgBouncer := false; ducklake.ApplicationName := "" |}.

Definition no_iceberg : iceberg.Config := {|
  iceberg.Enabled := false; iceberg.Backend := ""; iceberg.Namespace := ""; iceberg.Region := "";
  iceberg.TableBucket := ""; iceberg.LakekeeperEndpoint := ""; iceberg.LakekeeperWarehouse := "";
  iceberg.LakekeeperClientID := ""; iceberg.LakekeeperClientSecret := ""; iceberg.LakekeeperOAuth2ServerURI := "" |}.

Definition with_store (store appName : string) (c : ducklake.Config) : ducklake.Config := {|
  ducklake.MetadataStore := store; ducklake.RestrictClientSessions := ducklake.RestrictClientSessions c;
  ducklake.DisableMetadataThreadLocalCache := ducklake.DisableMetadataThreadLocalCache c;
  ducklake.ObjectStore := ducklake.ObjectStore c; ducklake.DataPath := ducklake.DataPath c;
  ducklake.DeltaCatalogEnabled := ducklake.DeltaCatalogEnabled c; ducklake.CfgDeltaCatalogPath := ducklake.CfgDeltaCatalogPath c;
  ducklake.S3Provider := ducklake.S3Provider c; ducklake.S3Endpoint := ducklake.S3Endpoint c;
  ducklake.S3AccessKey := ducklake.S3AccessKey c; ducklake.S3SecretKey := ducklake.S3SecretKey c;
  ducklake.S3SessionToken := ducklake.S3SessionToken c; ducklake.S3Region := ducklake.S3Region c;
  ducklake.S3UseSSL := ducklake.S3UseSSL c; ducklake.S3URLStyle := ducklake.S3URLStyle c;
  ducklake.S3Chain := ducklake.S3Chain c; ducklake.S3Profile := ducklake.S3Profile c;
  ducklake.AzureProvider := ducklake.AzureProvider c; ducklake.AzureAccountName := ducklake.AzureAccountName c;
  ducklake.AzureChain := ducklake.AzureChain c; ducklake.AzureClientID := ducklake.AzureClientID c;
  ducklake.HTTPProxy := ducklake.HTTPProxy c; ducklake.CheckpointInterval := ducklake.CheckpointInterval c;
  ducklake.DataInliningRowLimit := ducklake.DataInliningRowLimit c; ducklake.Migrate := ducklake.Migrate c;
  ducklake.SpecVersion := ducklake.SpecVersion c; ducklake.ViaPgBouncer := ducklake.ViaPgBouncer c;
  ducklake.ApplicationName := appName |}.

Definition example_params : list libpqParam :=
  [(bytes "host", bytes "db.internal"); (bytes "user", bytes "lake"); (bytes "password", bytes "it's \ here"); (bytes "dbname", bytes "meta")].
Definition example_store : string := "postgres:" +:+ str (render_params example_params).

Lemma libpq_params_roundtrip_witness : parseLibpqParams (render_params example_params) = inr example_params.
Proof. apply libpq_params_roundtrip. by repeat constructor. Defined.

Lemma metadata_params_are_added_witness :
  parseLibpqParams (metadata_conn (with_store example_store "duckgres/acme" no_lake))
  = inr (example_params ++ keepalive_params ++ [(bytes "application_name", bytes "duckgres/acme")]).
Proof.
  apply (metadata_params_are_added (with_store example_store "duckgres/acme" no_lake) example_params);
  [by repeat constructor|done|done|by vm_compute|done|by vm_compute|by vm_compute].
Defined.


(** An apostrophe in the application name, which carries the organisation's identifier, is
    doubled as in SQL; a connection string has no such escape, and the statements of a
    restricted session cannot be built. *)
Theorem apostrophe_breaks_the_connection_string : ∃ dlCfg : ducklake.Config,
  ducklake.ApplicationName dlCfg = "duckgres/o'brien" ∧
  (∃ e, BuildRestrictedAttachStmts dlCfg false = inl (BadParams e)) ∧
  (∃ stmts, BuildRestrictedAttachStmts (with_store (ducklake.MetadataStore dlCfg) "" dlCfg) false = inr stmts).
Proof.
  exists (with_store example_store "duckgres/o'brien" no_lake). split; [done|].
  split; eexists; vm_compute; reflexivity.
Qed.
