(* ===== verification/Migration.v ===== *)
(** The migration check of a DuckLake metadata store (src/server/ducklake/migration.go): the
    comparison of versions, the backup that precedes an upgrade, and the cache of results
    that concurrent sessions share. *)

From Stdlib Require Import Strings.Byte.
From stdpp Require Import prelude gmap strings list fin_maps.
From Stdlib Require Import ZArith Lia.
From S2P Require Import Prelude GoText GoTime Values BinaryTypes SessionMeta DuckLake.

Open Scope string_scope.
Open Scope list_scope.
Open Scope Z_scope.

(** * Versions *)

Definition DefaultSpecVersion : string := "1.0".

(** [strconv.Atoi] *)
Definition Atoi (l : list byte) : option Z := let '(z, ok) := ParseInt 64 (str l) in if ok then Some z else None.

Definition parseVersion (ver : string) : option (Z * Z) :=
  match split2 x2e (bytes ver) with
  | [a; b] => major ← Atoi a; minor ← Atoi b; Some (major, minor)
  | _ => None
  end.

Definition versionLessThan (a b : string) : option bool :=
  '(aMaj, aMin) ← parseVersion a;
  '(bMaj, bMin) ← parseVersion b;
  Some (bool_decide (aMaj < bMaj) || (bool_decide (aMaj = bMaj) && bool_decide (aMin < bMin))).

(** * The metadata store *)

(** A value the database driver hands out. A time is given by its RFC 3339 text, a value of
    another type by what [%v] prints. *)
Inductive sql_value :=
  | SNil
  | SBool (b : bool)
  | SInt (z : Z)
  | SFloat (bits : Z)
  | SBytes (l : list byte)
  | SString (s : list byte)
  | STime (rfc3339nano : list byte)
  | SOther (text : list byte).

Record colDef := { c_name : list byte; c_dataType : list byte; c_nullable : list byte }.

(** The rows of a query, and whether reading them ended in an error; [None] when the query
    itself fails. *)
Definition rows (A : Type) : Type := option (list A * bool).

(** What the Postgres server answers during one call. *)
Record metadata_db := {
  db_open : bool;
  db_ping : bool;
  db_exists : option bool;                       (** the table ducklake_metadata *)
  db_version : option string;
  db_begin : bool;
  db_tables : rows (list byte);
  db_columns : list byte → rows colDef;
  db_rows : list byte → rows (list sql_value);
}.

(** * The backup file *)

Inductive migration_error :=
  | OpenStore | Connect | CheckExistence | ReadVersion | CompareVersions
  | BeginBackup | ListTables | IterateTables | CreateFile | WriteFile | SyncFile
  | GetColumns | IterateColumns | SelectData | IterateRows.

(** The file system, and what it does during one call: whether files can be created and
    synced, and after how many writes the disk is full. *)
Definition files : Type := gmap string (list byte).
Record disk := { can_create : bool; writes_left : option nat; can_sync : bool }.

(** Code that writes to the open backup file: what was written, and the writes left. *)
Definition writer : Type := list byte * option nat.
Definition W (A : Type) : Type := writer → (migration_error + A) * writer.
Definition wret {A} (a : A) : W A := λ w, (inr a, w).
Definition wfail {A} (e : migration_error) : W A := λ w, (inl e, w).
Definition wbind {A B} (m : W A) (k : A → W B) : W B :=
  λ w, match m w with (inr a, w') => k a w' | (inl e, w') => (inl e, w') end.
Local Notation "'let!' x ':=' m 'in' k" := (wbind m (λ x, k)) (at level 10, x pattern, m at level 100, k at level 200).
Local Notation "m ';;;' k" := (wbind m (λ _, k)) (at level 100, right associativity).

Definition write (l : list byte) : W () := λ w,
  match w.2 with
  | Some O => (inl WriteFile, w)
  | Some (S n) => (inr (), (w.1 ++ l, Some n))
  | None => (inr (), (w.1 ++ l, None))
  end.

Fixpoint wfor {A} (l : list A) (body : A → W ()) : W () :=
  match l with
  | [] => wret ()
  | a :: l' => body a;;; wfor l' body
  end.

Definition read_rows {A} (r : rows A) (failed iterate : migration_error) : W (list A) :=
  match r with
  | None => wfail failed
  | Some (l, true) => wfail iterate
  | Some (l, false) => wret l
  end.

Section backup.
Context `{GoFloat}.

(** [quoteIdent]: double quotes are doubled. *)
Definition quoteIdent (name : list byte) : list byte :=
  [x22] ++ (name ≫= λ b, if bool_decide (b = x22) then [x22; x22] else [b]) ++ [x22].

Definition quoted (l : list byte) : list byte := [x27] ++ double_quotes l ++ [x27].

Definition formatSQLValue (v : sql_value) : list byte :=
  match v with
  | SNil => bytes "NULL"
  | SBool true => bytes "TRUE"
  | SBool false => bytes "FALSE"
  | SInt z => bytes (fmt_d z)
  | SFloat f => bytes (fmt_g64 f)
  | SBytes l | SString l => quoted l
  | STime t => [x27] ++ t ++ [x27]
  | SOther t => quoted t
  end.

Definition newline_b : list byte := [x0a].

Definition column_line (last : bool) (c : colDef) : list byte :=
  bytes "  " ++ quoteIdent (c_name c) ++ [x20] ++ c_dataType c
  ++ (if bool_decide (c_nullable c = bytes "NO") then bytes " NOT NULL" else [])
  ++ (if last then [] else [x2c]) ++ newline_b.

(** The lines of the columns: all but the last end in a comma. *)
Fixpoint column_lines (cols : list colDef) : list (list byte) :=
  match cols with
  | [] => []
  | [c] => [column_line true c]
  | c :: cols' => column_line false c :: column_lines cols'
  end.

Definition quotedColList (cols : list colDef) : list byte := join (bytes ", ") (quoteIdent ∘ c_name <$> cols).

Definition insert_line (table : list byte) (cols : list colDef) (row : list sql_value) : list byte :=
  bytes "INSERT INTO " ++ quoteIdent table ++ bytes " (" ++ quotedColList cols ++ bytes ") VALUES ("
  ++ join (bytes ", ") (formatSQLValue <$> row) ++ bytes ");" ++ newline_b.

(** Rows are written as they are read: an error while reading comes after them. *)
Definition backupTable (db : metadata_db) (table : list byte) : W () :=
  let! cols := read_rows (db_columns db table) GetColumns IterateColumns in
  match cols with
  | [] => wret ()
  | _ =>
      write (newline_b ++ bytes "-- Table: " ++ table ++ newline_b);;;
      write (bytes "CREATE TABLE IF NOT EXISTS " ++ quoteIdent table ++ bytes " (" ++ newline_b);;;
      wfor (column_lines cols) write;;;
      write (bytes ");" ++ newline_b);;;
      match db_rows db table with
      | None => wfail SelectData
      | Some (rs, failed) =>
          wfor rs (λ r, write (insert_line table cols r));;;
          if failed then wfail IterateRows else wret ()
      end
  end.

(** The arrow between the versions, in UTF-8. *)
Definition backupHeader (version targetVersion : string) : list byte :=
  bytes "-- DuckLake metadata backup before migration (v" ++ bytes version ++ [x20; xe2; x86; x92; x20] ++ [x76]
  ++ bytes (or_default targetVersion DefaultSpecVersion) ++ bytes ")" ++ newline_b.

Definition layout_stamp : layout := [CYear; CMonth; CDay; CLit [x54]; CHour; CMin; CSec; CLit [x5a]].

Definition backup_path (dataDir version : string) (now : Time) : string :=
  str (filepath_Join2 (bytes dataDir) (bytes ("ducklake-backup-" +:+ Format layout_stamp now +:+ "-v" +:+ version +:+ ".sql"))).

(** The body of the file, once it is open. *)
Definition write_backup (db : metadata_db) (tables : list (list byte)) (generated : Time) (version targetVersion : string) : W () :=
  write (backupHeader version targetVersion);;;
  write (bytes "-- Generated: " ++ bytes (Format layout_datetimeZ generated) ++ newline_b);;;
  write (bytes "-- Tables: " ++ bytes (fmt_d (Z.of_nat (length tables))) ++ newline_b ++ newline_b);;;
  write (bytes "BEGIN;" ++ newline_b);;;
  wfor tables (backupTable db);;;
  write (newline_b ++ bytes "COMMIT;" ++ newline_b).

(** The error, if any, and the files: a backup that fails is removed again. The clock is
    read for the name and again for the header. *)
Definition backupMetadata (db : metadata_db) (d : disk) (now generated : Time) (dataDir version targetVersion : string) (fs : files)
    : option migration_error * files :=
  if negb (db_begin db) then (Some BeginBackup, fs) else
  match db_tables db with
  | None => (Some ListTables, fs)
  | Some (_, true) => (Some IterateTables, fs)
  | Some ([], false) => (None, fs)
  | Some (tables, false) =>
      let path := backup_path dataDir version now in
      if negb (can_create d) then (Some CreateFile, fs) else
      match write_backup db tables generated version targetVersion ([], writes_left d) with
      | (inl e, _) => (Some e, delete path fs)
      | (inr _, (text, _)) =>
          if can_sync d then (None, <[path := text]> fs) else (Some SyncFile, delete path fs)
      end
  end.

(** Whether a migration is needed, the version found, and the error. *)
Definition checkAndBackupIfNeeded (db : metadata_db) (d : disk) (now generated : Time) (dlCfg : ducklake.Config)
    (dataDir targetVersion : string) (fs : files) : (bool * string * option migration_error) * files :=
  if negb (HasPrefix (ducklake.MetadataStore dlCfg) "postgres:") then (false, "", None, fs)
  else if negb (db_open db) then (false, "", Some OpenStore, fs)
  else if negb (db_ping db) then (false, "", Some Connect, fs)
  else match db_exists db with
  | None => (false, "", Some CheckExistence, fs)
  | Some false => (false, "", None, fs)
  | Some true =>
      match db_version db with
      | None => (false, "", Some ReadVersion, fs)
      | Some ver =>
          match versionLessThan ver targetVersion with
          | None => (false, ver, Some CompareVersions, fs)
          | Some false => (false, ver, None, fs)
          | Some true =>
              let '(err, fs) := backupMetadata db d now generated dataDir ver targetVersion fs in
              (true, ver, err, fs)
          end
      end
  end.

(** The check of the control plane, before it activates a worker. *)
Definition CheckAndBackupMigration (db : metadata_db) (d : disk) (now generated : Time) (dlCfg : ducklake.Config)
    (dataDir targetVersion : string) (fs : files) : (bool * option migration_error) * files :=
  if bool_decide (ducklake.MetadataStore dlCfg = "") then (false, None, fs) else
  let '(needed, _, err, fs) := checkAndBackupIfNeeded db d now generated dlCfg dataDir (or_default targetVersion DefaultSpecVersion) fs in
  (needed, err, fs).
End backup.

(** * The cache of results *)

Record migrationState := { m_done : bool; m_needed : bool; m_err : option migration_error; m_checkedV : string }.

Definition MigrationNeeded (migrations : gmap string migrationState) (connStr : string) : bool :=
  match migrations !! connStr with
  | Some state => m_needed state && bool_decide (m_err state = None)
  | None => false
  end.

Definition MigrationCheckError (migrations : gmap string migrationState) (connStr : string) : option migration_error :=
  state ← migrations !! connStr; m_err state.

Definition MigrationCheckedVersion (migrations : gmap string migrationState) (connStr : string) : string :=
  match migrations !! connStr with Some state => m_checkedV state | None => "" end.

(** A goroutine in EnsureMigrationCheck, by the next thing it does. *)
Inductive checker :=
  | CCalled (dlCfg : ducklake.Config) (dataDir : string)
  | CLocking (dlCfg : ducklake.Config) (dataDir : string) (mu : nat)
  | CLocked (dlCfg : ducklake.Config) (dataDir : string) (mu : nat)
  | CChecking (dlCfg : ducklake.Config) (dataDir : string) (mu : nat)
  | CChecked (connStr : string) (mu : nat) (result : bool * string * option migration_error)
  | CStored (connStr : string) (mu : nat)
  | CLeaving (mu : nat)
  | CReturned.

(** What one run of the check saw: the store's answers and the files before and after. *)
Record check_run := {
  r_conn : string; r_db : metadata_db; r_disk : disk; r_now : Time; r_generated : Time; r_dir : string; r_target : string;
  r_before : files; r_after : files;
}.

Record shared := {
  migrations : gmap string migrationState;
  migrationMu : gmap string nat;
  held : gset nat;
  next_mu : nat;
  fs : files;
  runs : list check_run;
  checkers : list checker;
}.

Definition no_checks : shared :=
  {| migrations := ∅; migrationMu := ∅; held := ∅; next_mu := 0; fs := ∅; runs := []; checkers := [] |}.

Inductive check_event :=
  | Call (dlCfg : ducklake.Config) (dataDir : string)
  | Advance (i : nat)
  | FinishCheck (i : nat) (db : metadata_db) (d : disk) (now generated : Time).

Definition set_checker (i : nat) (c : checker) (s : shared) : shared :=
  {| migrations := migrations s; migrationMu := migrationMu s; held := held s; next_mu := next_mu s; fs := fs s;
     runs := runs s; checkers := <[i := c]> (checkers s) |}.

Section cache.
Context `{GoFloat}.

(** One step of a goroutine; [None] when it waits for the mutex or for the store. *)
Definition advance (i : nat) (c : checker) (s : shared) : option shared :=
  match c with
  | CCalled dlCfg dataDir =>
      if bool_decide (ducklake.MetadataStore dlCfg = "") then Some (set_checker i CReturned s) else
      (* LoadOrStore *)
      match migrationMu s !! ducklake.MetadataStore dlCfg with
      | Some mu => Some (set_checker i (CLocking dlCfg dataDir mu) s)
      | None =>
          Some {| migrations := migrations s; migrationMu := <[ducklake.MetadataStore dlCfg := next_mu s]> (migrationMu s);
                  held := held s; next_mu := S (next_mu s); fs := fs s; runs := runs s;
                  checkers := <[i := CLocking dlCfg dataDir (next_mu s)]> (checkers s) |}
      end
  | CLocking dlCfg dataDir mu =>
      if bool_decide (mu ∈ held s) then None else
      Some {| migrations := migrations s; migrationMu := migrationMu s; held := {[mu]} ∪ held s; next_mu := next_mu s;
              fs := fs s; runs := runs s; checkers := <[i := CLocked dlCfg dataDir mu]> (checkers s) |}
  | CLocked dlCfg dataDir mu =>
      match migrations s !! ducklake.MetadataStore dlCfg with
      | Some state => Some (set_checker i (if m_done state then CLeaving mu else CChecking dlCfg dataDir mu) s)
      | None => Some (set_checker i (CChecking dlCfg dataDir mu) s)
      end
  | CChecking _ _ _ => None
  | CChecked connStr mu (needed, ver, err) =>
      Some {| migrations := <[connStr := {| m_done := bool_decide (err = None); m_needed := needed; m_err := err; m_checkedV := ver |}]> (migrations s);
              migrationMu := migrationMu s; held := held s; next_mu := next_mu s; fs := fs s; runs := runs s;
              checkers := <[i := CStored connStr mu]> (checkers s) |}
  | CStored connStr mu =>
      Some {| migrations := migrations s; migrationMu := delete connStr (migrationMu s); held := held s; next_mu := next_mu s;
              fs := fs s; runs := runs s; checkers := <[i := CLeaving mu]> (checkers s) |}
  | CLeaving mu =>
      Some {| migrations := migrations s; migrationMu := migrationMu s; held := held s ∖ {[mu]}; next_mu := next_mu s;
              fs := fs s; runs := runs s; checkers := <[i := CReturned]> (checkers s) |}
  | CReturned => None
  end.

Definition check_step (e : check_event) (s : shared) : option shared :=
  match e with
  | Call dlCfg dataDir =>
      Some {| migrations := migrations s; migrationMu := migrationMu s; held := held s; next_mu := next_mu s; fs := fs s;
              runs := runs s; checkers := checkers s ++ [CCalled dlCfg dataDir] |}
  | Advance i => c ← checkers s !! i; advance i c s
  | FinishCheck i db d now generated =>
      match checkers s !! i with
      | Some (CChecking dlCfg dataDir mu) =>
          let target := or_default (ducklake.SpecVersion dlCfg) DefaultSpecVersion in
          let '(needed, ver, err, fs') := checkAndBackupIfNeeded db d now generated dlCfg dataDir target (fs s) in
          Some {| migrations := migrations s; migrationMu := migrationMu s; held := held s; next_mu := next_mu s; fs := fs';
                  runs := runs s ++ [{| r_conn := ducklake.MetadataStore dlCfg; r_db := db; r_disk := d; r_now := now;
                                        r_generated := generated; r_dir := dataDir; r_target := target;
                                        r_before := fs s; r_after := fs' |}];
                  checkers := <[i := CChecked (ducklake.MetadataStore dlCfg) mu (needed, ver, err)]> (checkers s) |}
      | _ => None
      end
  end.

Fixpoint check_run_all (es : list check_event) (s : shared) : option shared :=
  match es with
  | [] => Some s
  | e :: es' => s' ← check_step e s; check_run_all es' s'
  end.

Inductive check_reachable : shared → Prop :=
  | check_reachable_start : check_reachable no_checks
  | check_reachable_step e s s' : check_reachable s → check_step e s = Some s' → check_reachable s'.
End cache.

(** * A backup that succeeds is complete *)

Section complete.
Context `{GoFloat}.

(** The text of a table, when its columns and rows could all be read. *)
Definition table_text (db : metadata_db) (table : list byte) : option (list byte) :=
  match db_columns db table with
  | Some ([], false) => Some []
  | Some (cols, false) =>
      match db_rows db table with
      | Some (rs, false) =>
          Some (newline_b ++ bytes "-- Table: " ++ table ++ newline_b
                ++ bytes "CREATE TABLE IF NOT EXISTS " ++ quoteIdent table ++ bytes " (" ++ newline_b
                ++ concat (column_lines cols) ++ bytes ");" ++ newline_b
                ++ concat (insert_line table cols <$> rs))
      | _ => None
      end
  | _ => None
  end.

Definition backup_text (db : metadata_db) (tables : list (list byte)) (generated : Time) (version targetVersion : string)
    : option (list byte) :=
  texts ← mapM (table_text db) tables;
  Some (backupHeader version targetVersion
        ++ bytes "-- Generated: " ++ bytes (Format layout_datetimeZ generated) ++ newline_b
        ++ bytes "-- Tables: " ++ bytes (fmt_d (Z.of_nat (length tables))) ++ newline_b ++ newline_b
        ++ bytes "BEGIN;" ++ newline_b ++ concat texts ++ newline_b ++ bytes "COMMIT;" ++ newline_b).

(** When [m] succeeds it has added the text [l]; [l] is [None] when it cannot. *)
Definition writes {A} (m : W A) (l : option (list byte)) : Prop :=
  ∀ w a w', m w = (inr a, w') → ∃ t, l = Some t ∧ w'.1 = w.1 ++ t.

Lemma writes_ret {A} (a : A) : writes (wret a) (Some []).
Proof. intros w b w' [= <- <-]. exists []. by rewrite app_nil_r. Qed.
Lemma writes_fail {A} e l : writes (wfail e : W A) l.
Proof. by intros w a w'. Qed.
Lemma writes_write l : writes (write l) (Some l).
Proof. intros [t n] a w'. unfold write. destruct n as [[|n]|]; intros [= <- <-]; by exists l. Qed.
Lemma writes_seq {A} (m : W ()) (m' : W A) l1 l2 :
  writes m l1 → writes m' l2 → writes (wbind m (λ _, m')) (t1 ← l1; t2 ← l2; Some (t1 ++ t2)).
Proof.
  intros Hm Hk w a w'. unfold wbind. destruct (m w) as [[e|[]] w1] eqn:E; [done|]. intros E2.
  destruct (Hm _ _ _ E) as (t1 & -> & H1). destruct (Hk _ _ _ E2) as (t2 & -> & H2).
  exists (t1 ++ t2). split; [done|]. by rewrite H2, H1, app_assoc.
Qed.
Lemma writes_eq {A} (m : W A) l l' : writes m l → l = l' → writes m l'.
Proof. by intros ? <-. Qed.
Lemma writes_for {A} (l : list A) (body : A → W ()) (text : A → option (list byte)) :
  (∀ a, writes (body a) (text a)) → writes (wfor l body) (@concat byte <$> mapM text l).
Proof.
  intros Hb. induction l as [|a l IH]; [apply writes_ret|]. cbn [wfor]. intros w u w' E.
  destruct (writes_seq _ _ _ _ (Hb a) IH _ _ _ E) as (t & Ht & Hw).
  exists t. split; [|done]. cbn. destruct (text a) as [t1|]; [|done]. cbn in *.
  by destruct (mapM text l).
Qed.

Lemma writes_each (l : list (list byte)) : writes (wfor l write) (Some (concat l)).
Proof.
  intros w a w' E. destruct (writes_for l write Some writes_write _ _ _ E) as (t & Ht & Hw).
  exists t. split; [|done]. rewrite <- Ht. assert (mapM Some l = Some l) as ->; [|done].
  clear. induction l as [|x l IH]; [done|]. cbn. by rewrite IH.
Qed.

Lemma wfor_fmap {A B} (f : A → B) l (body : B → W ()) : wfor l (λ a, body (f a)) = wfor (f <$> l) body.
Proof. induction l as [|a l IH]; cbn; [done|]. by rewrite IH. Qed.

Lemma writes_table db table : writes (backupTable db table) (table_text db table).
Proof.
  intros w a w'. unfold backupTable, table_text, wbind at 1.
  destruct (db_columns db table) as [[cols []]|]; cbn [read_rows wret wfail]; [done| |done].
  destruct cols as [|c cols]; [intros [= <- <-]; exists []; by rewrite app_nil_r|].
  destruct (db_rows db table) as [[rs failed]|]; [rewrite (wfor_fmap (insert_line table (c :: cols)))|unfold wbind; by repeat case_match].
  revert w a w'. refine (writes_eq _ _ _ (writes_seq _ _ _ _ (writes_write _) (writes_seq _ _ _ _ (writes_write _)
    (writes_seq _ _ _ _ (writes_each _) (writes_seq _ _ _ _ (writes_write _) (writes_seq _ _ _ (if failed then None else Some []) (writes_each _) _))))) _).
  - destruct failed; [apply writes_fail|apply writes_ret].
  - destruct failed; cbn; [done|]. f_equal. by rewrite <- !app_assoc, app_nil_r.
Qed.

Lemma writes_backup db tables generated version targetVersion :
  writes (write_backup db tables generated version targetVersion) (backup_text db tables generated version targetVersion).
Proof.
  refine (writes_eq _ _ _ (writes_seq _ _ _ _ (writes_write _) (writes_seq _ _ _ _ (writes_write _)
    (writes_seq _ _ _ _ (writes_write _) (writes_seq _ _ _ _ (writes_write _)
      (writes_seq _ _ _ _ (writes_for _ _ _ (writes_table db)) (writes_write _)))))) _).
  unfold backup_text. destruct (mapM (table_text db) tables) as [texts|]; cbn; [|done].
  f_equal. by rewrite <- !app_assoc.
Qed.

(** A run of the check left a complete backup: the file named after its clock and version
    holds every table of the store, every column and every row; or the store had none. *)
Definition backed_up (r : check_run) : Prop :=
  ∃ tables version,
    db_tables (r_db r) = Some (tables, false) ∧ db_version (r_db r) = Some version ∧
    (tables = [] ∨ ∃ text,
      backup_text (r_db r) tables (r_generated r) version (r_target r) = Some text ∧
      r_after r !! backup_path (r_dir r) version (r_now r) = Some text).

Lemma check_backs_up db d now generated dlCfg dir target before ver after :
  checkAndBackupIfNeeded db d now generated dlCfg dir target before = (true, ver, None, after) →
  backed_up {| r_conn := ducklake.MetadataStore dlCfg; r_db := db; r_disk := d; r_now := now; r_generated := generated;
               r_dir := dir; r_target := target; r_before := before; r_after := after |}.
Proof.
  unfold checkAndBackupIfNeeded. destruct (negb _); [done|]. destruct (negb _); [done|]. destruct (negb _); [done|].
  destruct (db_exists db) as [[]|]; [|done|done]. destruct (db_version db) as [v|] eqn:Ev; [|done].
  destruct (versionLessThan v target) as [[]|]; [|done|done]. unfold backupMetadata.
  destruct (negb (db_begin db)); [done|].
  destruct (db_tables db) as [[[|tb tables] []]|] eqn:Et; try done.
  { intros _. exists [], v. split_and!; [done|done|by left]. }
  destruct (negb (can_create d)); [done|].
  destruct (write_backup db (tb :: tables) generated v target ([], writes_left d)) as [[e|u] [text left]] eqn:Ew; [done|].
  destruct (can_sync d); [|done]. intros [= <- <-].
  destruct (writes_backup _ _ _ _ _ _ _ _ Ew) as (t & Ht & Hw). cbn in Hw. subst t.
  exists (tb :: tables), v. split_and!; [done|done|right]. exists text. split; [done|]. apply lookup_insert_eq.
Qed.

(** The results on their way to the cache and in it come from runs of the check. *)
Definition result_backed (rs : list check_run) (connStr : string) (needed : bool) (err : option migration_error) : Prop :=
  needed = true → err = None → ∃ r, r ∈ rs ∧ r_conn r = connStr ∧ backed_up r.

Record checks_ok (s : shared) : Prop := {
  ok_cache : map_Forall (λ connStr st, result_backed (runs s) connStr (m_needed st) (m_err st)) (migrations s);
  ok_checkers : Forall (λ c, match c with
    | CChecked connStr _ (needed, _, err) => result_backed (runs s) connStr needed err
    | _ => True
    end) (checkers s);
}.

Lemma result_backed_mono rs r connStr needed err :
  result_backed rs connStr needed err → result_backed (rs ++ [r]) connStr needed err.
Proof. intros Hb Hn He. destruct (Hb Hn He) as (r' & Hr & ?). exists r'. split; [apply elem_of_app; by left|done]. Qed.

Lemma checks_ok_step e s s' : checks_ok s → check_step e s = Some s' → checks_ok s'.
Proof.
  intros [Hc Ht] Hs. destruct e as [dlCfg dir|i|i db d now gen]; cbn in Hs.
  - injection Hs as <-. split; cbn; [done|]. apply Forall_app. by repeat constructor.
  - destruct (checkers s !! i) as [c|] eqn:Ei; [|done]. cbn in Hs.
    pose proof (Forall_lookup_1 _ _ _ _ Ht Ei) as Hi.
    destruct c as [| | | |connStr mu [[needed ver] err]| | |]; cbn in Hs; repeat (case_match; try done);
      simplify_eq; (split; cbn; [|by apply Forall_insert; [|repeat case_match]]); try done.
    by apply map_Forall_insert_2.
  - destruct (checkers s !! i) as [[| | |dlCfg dir mu| | | |]|] eqn:Ei; try done.
    destruct (checkAndBackupIfNeeded _ _ _ _ _ _ _ _) as [[[needed ver] err] after] eqn:Ec. injection Hs as <-.
    split; cbn.
    + eapply map_Forall_impl; [exact Hc|]. intros k st. apply result_backed_mono.
    + apply Forall_insert.
      * eapply Forall_impl; [exact Ht|]. intros [| | | |connStr mu' [[n v] e]| | |]; try done. apply result_backed_mono.
      * intros -> ->. eexists. split; [apply elem_of_app; right; by apply list_elem_of_singleton|]. split; [done|].
        by apply check_backs_up in Ec.
Qed.

Lemma checks_ok_reachable s : check_reachable s → checks_ok s.
Proof. induction 1; [split; cbn; [apply map_Forall_empty|constructor]|by eapply checks_ok_step]. Qed.

End complete.

(** * The rows of a backup can be read back *)

(** A value in the text of an INSERT: a word or a literal. *)
Inductive cell := Word (w : list byte) | Literal (l : list byte).

Definition cell_of `{GoFloat} (v : sql_value) : cell :=
  match v with
  | SBytes l | SString l | SOther l | STime l => Literal l
  | _ => Word (formatSQLValue v)
  end.

(** The text of a literal, past its opening quote. *)
Fixpoint read_literal (l : list byte) : option (list byte * list byte) :=
  match l with
  | [] => None
  | b :: l' =>
      if bool_decide (b = x27) then
        match l' with
        | c :: l'' => if bool_decide (c = x27) then (λ '(t, r), (x27 :: t, r)) <$> read_literal l'' else Some ([], l')
        | [] => Some ([], [])
        end
      else (λ '(t, r), (b :: t, r)) <$> read_literal l'
  end.

Definition ends_word (b : byte) : bool := bool_decide (b ∈ [x2c; x29; x27]).

Definition read_cell (l : list byte) : option (cell * list byte) :=
  match l with
  | x27 :: l' => '(t, r) ← read_literal l'; Some (Literal t, r)
  | _ => let '(w, r) := scan_until ends_word l in if bool_decide (w = []) then None else Some (Word w, r)
  end.

(** The values up to the closing parenthesis, and the rest. *)
Fixpoint read_cells (fuel : nat) (l : list byte) : option (list cell * list byte) :=
  match fuel with
  | O => None
  | S fuel' =>
      '(c, r) ← read_cell l;
      match r with
      | x29 :: r' => Some ([c], r')
      | x2c :: x20 :: r' => '(cs, r'') ← read_cells fuel' r'; Some (c :: cs, r'')
      | _ => None
      end
  end.

Section rows.
Context `{GoFloat}.

(** Values whose text has no quote of its own: the times and floats of the language. *)
Definition value_ok (v : sql_value) : bool :=
  match v with
  | SFloat f => bool_decide (fmt_g64 f ≠ "") && forallb (λ b, negb (ends_word b)) (bytes (fmt_g64 f))
  | STime t => forallb (λ b, negb (bool_decide (b = x27))) t
  | _ => true
  end.

Lemma read_literal_quoted l b rest : b ≠ x27 → read_literal (double_quotes l ++ x27 :: b :: rest) = Some (l, b :: rest).
Proof.
  intros Hb. induction l as [|c l IH].
  { cbn [double_quotes mbind list_bind app read_literal]. rewrite bool_decide_eq_true_2 by done. by rewrite bool_decide_eq_false_2. }
  change (double_quotes (c :: l)) with ((if bool_decide (c = x27) then [x27; x27] else [c]) ++ double_quotes l).
  case_bool_decide as Hc; cbn [app read_literal].
  - rewrite !bool_decide_eq_true_2 by done. rewrite IH. cbn. by subst.
  - rewrite bool_decide_eq_false_2 by done. by rewrite IH.
Qed.

Lemma double_quotes_none t : forallb (λ b, negb (bool_decide (b = x27))) t = true → double_quotes t = t.
Proof.
  induction t as [|b t IH]; [done|]. cbn [forallb]. intros [Hb Ht]%andb_true_iff.
  change (double_quotes (b :: t)) with ((if bool_decide (b = x27) then [x27; x27] else [b]) ++ double_quotes t).
  apply negb_true_iff in Hb. by rewrite Hb, IH.
Qed.

Lemma fmt_d_word z : bytes (fmt_d z) ≠ [] ∧ forallb (λ b, negb (ends_word b)) (bytes (fmt_d z)) = true.
Proof.
  unfold fmt_d. rewrite bytes_str. pose proof (digits_spec (Z.abs z) ltac:(lia)) as [_ Hd]. unfold digits in Hd.
  assert (forallb (λ b, negb (ends_word b)) (dec_digits (S (Z.to_nat (Z.log2 (Z.abs z)))) (Z.abs z)) = true) as Hw.
  { apply forallb_forall. intros b Hb. rewrite forallb_forall in Hd. specialize (Hd b Hb).
    unfold is_digit in Hd. to_prop. unfold ends_word. apply negb_true_iff, bool_decide_eq_false.
    rewrite !elem_of_cons, elem_of_nil. destruct Hd as [Hd _]. intros [->|[->|[->|[]]]]; by apply Hd. }
  case_bool_decide; [by cbn|]. split; [|done].
  destruct (dec_digits_nonempty (Z.to_nat (Z.log2 (Z.abs z))) (Z.abs z)) as (b & l & -> & _); [lia|done].
Qed.

Definition cell_end (b : byte) : Prop := b = x2c ∨ b = x29.

Lemma read_word w b rest : w ≠ [] → forallb (λ b, negb (ends_word b)) w = true → cell_end b →
  read_cell (w ++ b :: rest) = Some (Word w, b :: rest).
Proof.
  intros Hw Hf Hb. unfold read_cell. destruct w as [|c w]; [done|].
  assert (c ≠ x27) as Hc. { intros ->. by cbn in Hf. }
  assert (ends_word b = true) as He by by destruct Hb as [-> | ->].
  pose proof (scan_until_app ends_word (c :: w) b rest Hf He) as Hs. cbn [app] in *.
  rewrite Hs, bool_decide_eq_false_2 by done. by destruct c.
Qed.

Lemma read_value v b rest : value_ok v = true → cell_end b →
  read_cell (formatSQLValue v ++ b :: rest) = Some (cell_of v, b :: rest).
Proof.
  intros Hv Hb. assert (b ≠ x27) as Hq by by destruct Hb as [-> | ->].
  assert (∀ l, read_cell (quoted l ++ b :: rest) = Some (Literal l, b :: rest)) as Hl.
  { intros l. unfold quoted. rewrite <- !app_assoc. cbn [app read_cell]. by rewrite read_literal_quoted. }
  destruct v as [|[]|z|f|l|l|t|t]; cbn [formatSQLValue cell_of value_ok] in *;
    try apply Hl; try (apply read_word; [done|done|done]).
  - destruct (fmt_d_word z). by apply read_word.
  - to_prop. apply read_word; [|done|done]. intros E. by destruct (fmt_g64 f).
  - specialize (Hl t). unfold quoted in Hl. by rewrite double_quotes_none in Hl.
Qed.

(** The values of a row, as the backup writes them, are read back: words for numbers,
    truth values and NULL, and for everything else the text itself, quotes included. *)
Theorem backup_row_roundtrip row rest :
  row ≠ [] → forallb value_ok row = true →
  read_cells (length row) (join (bytes ", ") (formatSQLValue <$> row) ++ [x29] ++ rest) = Some (cell_of <$> row, rest).
Proof.
  induction row as [|v row IH]; [done|]. intros _ [Hv Hr]%andb_true_iff. destruct row as [|v' row].
  - cbn [fmap list_fmap join length read_cells]. cbn [app]. rewrite read_value; [done|done|by right].
  - change (join (bytes ", ") (formatSQLValue <$> v :: v' :: row))
      with (formatSQLValue v ++ x2c :: x20 :: join (bytes ", ") (formatSQLValue <$> v' :: row)).
    rewrite <- app_assoc. cbn [app].
    change (length (v :: v' :: row)) with (S (length (v' :: row))). cbn [read_cells].
    rewrite read_value by (done || by left). cbn [mbind option_bind].
    change (x29 :: rest) with ([x29] ++ rest). by rewrite (IH ltac:(done) Hr).
Qed.
End rows.

(** * Examples *)

Definition lake_at (store : string) : ducklake.Config := with_store store "" no_lake.
Definition instant_0 : Time := {| t_sec := 1700000000; t_nsec := 0 |}.
Definition good_disk : disk := {| can_create := true; writes_left := None; can_sync := true |}.

(** A store of version 0.3 with one table of one row. *)
Definition store_of (content : string) : metadata_db :=
  {| db_open := true; db_ping := true; db_exists := Some true; db_version := Some "0.3"; db_begin := true;
     db_tables := Some ([bytes "ducklake_metadata"], false);
     db_columns := λ _, Some ([{| c_name := bytes "key"; c_dataType := bytes "text"; c_nullable := bytes "NO" |}], false);
     db_rows := λ _, Some ([[SString (bytes content)]], false) |}.
Definition unreachable_store : metadata_db :=
  {| db_open := true; db_ping := false; db_exists := None; db_version := None; db_begin := false;
     db_tables := None; db_columns := λ _, None; db_rows := λ _, None |}.

(** A caller that goes through its check alone. *)
Definition whole_check (i : nat) (store : string) (db : metadata_db) : list check_event :=
  [Call (lake_at store) "/tmp"; Advance i; Advance i; Advance i; FinishCheck i db good_disk instant_0 instant_0; Advance i; Advance i; Advance i].

Section examples.
Context `{GoFloat}.

Lemma check_run_reachable es : ∀ s s', check_reachable s → check_run_all es s = Some s' → check_reachable s'.
Proof.
  induction es as [|e es IH]; intros s s' Hs; cbn; [by intros [= <-]|].
  destruct (check_step e s) as [s1|] eqn:E; cbn; [|done]. apply IH. by eapply check_reachable_step.
Qed.

(** The name of a backup has the second and the version and nothing of the store: of two
    stores checked in the same second and then migrated, the first has no backup left. *)
Theorem backups_of_a_second_collide : ∃ es s text,
  check_run_all es no_checks = Some s ∧
  MigrationNeeded (migrations s) "postgres:dbname=one" = true ∧
  MigrationNeeded (migrations s) "postgres:dbname=two" = true ∧
  In (FinishCheck 0 (store_of "first") good_disk instant_0 instant_0) es ∧
  backup_text (store_of "first") [bytes "ducklake_metadata"] instant_0 "0.3" DefaultSpecVersion = Some text ∧
  Forall (λ f, f.2 ≠ text) (map_to_list (fs s)).
Proof.
  set (es := whole_check 0 "postgres:dbname=one" (store_of "first") ++ whole_check 1 "postgres:dbname=two" (store_of "second")).
  exists es. assert (match check_run_all es no_checks, backup_text (store_of "first") [bytes "ducklake_metadata"] instant_0 "0.3" DefaultSpecVersion with
          | Some s, Some text => MigrationNeeded (migrations s) "postgres:dbname=one" && MigrationNeeded (migrations s) "postgres:dbname=two"
                                 && forallb (λ f, bool_decide (f.2 ≠ text)) (map_to_list (fs s))
          | _, _ => false end = true) as Hc by by vm_compute.
  destruct (check_run_all es no_checks) as [s|]; [|done].
  destruct (backup_text _ _ _ _ _) as [text|]; [|done]. exists s, text. apply andb_true_iff in Hc as [[H1 H2]%andb_true_iff Hf].
  split_and!; try done; [cbn; tauto|]. apply Forall_forall. intros f Hin%list_elem_of_In.
  rewrite forallb_forall in Hf. specialize (Hf f Hin). by to_prop.
Qed.

(** A failed check takes its mutex out of the map while others wait for it: two callers
    then check the same store at once, and the one that fails overwrites the success of
    the other. *)
Theorem success_can_be_forgotten : ∃ es1 es2 s1 s2 store,
  check_run_all es1 no_checks = Some s1 ∧ check_run_all es2 s1 = Some s2 ∧
  (m_done <$> migrations s1 !! store) = Some true ∧ (m_done <$> migrations s2 !! store) = Some false ∧
  MigrationCheckError (migrations s2) store = Some Connect.
Proof.
  set (lake := lake_at "postgres:dbname=one").
  set (finish i db := FinishCheck i db good_disk instant_0 instant_0).
  set (es1 := [Call lake "/tmp"; Call lake "/tmp"; Advance 0; Advance 1; Advance 0; Advance 0; finish 0%nat unreachable_store;
               Advance 0; Advance 0; Call lake "/tmp"; Advance 2; Advance 2; Advance 2; Advance 0; Advance 1; Advance 1;
               finish 2%nat (store_of "first"); Advance 2]).
  set (es2 := [finish 1%nat unreachable_store; Advance 1]).
  exists es1, es2.
  assert (match check_run_all es1 no_checks with
          | Some s1 => match check_run_all es2 s1 with
             | Some s2 => bool_decide ((m_done <$> migrations s1 !! "postgres:dbname=one") = Some true
                 ∧ (m_done <$> migrations s2 !! "postgres:dbname=one") = Some false)
                 && match MigrationCheckError (migrations s2) "postgres:dbname=one" with Some Connect => true | _ => false end
             | None => false end
          | None => false end = true) as Hc by by vm_compute.
  destruct (check_run_all es1 no_checks) as [s1|]; [|done]. destruct (check_run_all es2 s1) as [s2|] eqn:E2; [|done].
  apply andb_true_iff in Hc as [[H1 H2]%bool_decide_eq_true He].
  exists s1, s2, "postgres:dbname=one". split_and!; try done.
  by destruct (MigrationCheckError _ _) as [[]|].
Qed.
End examples.


Lemma backup_row_roundtrip_witness :
  read_cells 3 (join (bytes ", ") (formatSQLValue (H := plain_floats) <$> [SInt 7; SNil; SString (bytes "it's")]) ++ [x29] ++ bytes ";")
  = Some ([Word (bytes "7"); Word (bytes "NULL"); Literal (bytes "it's")], bytes ";").
Proof. apply (backup_row_roundtrip (H := plain_floats) [SInt 7; SNil; SString (bytes "it's")] (bytes ";")); [done|by vm_compute]. Defined.
