(* ===== verification/Catalogs.v ===== *)
(** Attaching the catalogs of a tenant to a DuckDB instance and rotating its secrets: the
    functions AttachDuckLake, AttachDeltaCatalog, AttachIcebergCatalog, ActivateDBConnection,
    RefreshS3Secret and RefreshIcebergSecret of src/server/server.go. DuckDB itself is a
    parameter: what it answers to a statement. *)

From Stdlib Require Import Strings.Byte.
From stdpp Require Import prelude gmap strings list fin_maps.
From Stdlib Require Import ZArith Lia.
From S2P Require Import Prelude GoText GoTime Values ErrorCodes SessionMeta DuckLake Migration.

Open Scope string_scope.
Open Scope list_scope.
Open Scope Z_scope.

(** A DuckDB instance: statements, the two counts the code asks for ([None] when the query
    fails), and the views of catalog.go, whose failures are only logged. *)
Class DuckDB := {
  duck : Type;
  exec : string → duck → option error * duck;
  count_database : string → duck → option Z;
  count_secret : string → duck → option Z;
  catalog_views : duck → duck;
}.

(** What else an attach meets: whether the semaphore came free in time, the credentials the
    AWS library finds, the extensions bundled with the program, and the process's results
    of migration checks, after EnsureMigrationCheck has run for the store. *)
Record attach_env := {
  got_sem : bool;
  aws_credentials : option (string * string * string);
  bundled : string → bool;
  checked : gmap string migrationState;
}.

Inductive attach_error :=
  | NoMetadataStore | MigrationCheckFailed (e : migration_error) | SemTimeout | AwsFetch | SecretFailed (e : error)
  | SettingFailed (stmt : string) (e : error) | BadRestricted (e : restricted_error) | LoadFailed (e : error)
  | AttachFailed (e : error) | ProbeFailed (e : error) | NoCredentials | UnsupportedBackend (b : string)
  | DefaultFailed (e : error).

(** Code that runs statements and may give up. *)
Definition X `{DuckDB} (A : Type) : Type := duck → (attach_error + A) * duck.

Section attach.
Context `{HD : DuckDB}.

Definition xret {A} (a : A) : X A := λ d, (inr a, d).
Definition xfail {A} (e : attach_error) : X A := λ d, (inl e, d).
Definition xbind {A B} (m : X A) (k : A → X B) : X B :=
  λ d, match m d with (inr a, d') => k a d' | (inl e, d') => (inl e, d') end.
Local Notation "'let!' x ':=' m 'in' k" := (xbind m (λ x, k)) (at level 10, x pattern, m at level 100, k at level 200).
Local Notation "m ';;;' k" := (xbind m (λ _, k)) (at level 100, right associativity).

(** db.Exec: the error, if any; and the same with the error returned to the caller. *)
Definition try_exec (stmt : string) : X (option error) := λ d, let '(e, d') := exec stmt d in (inr e, d').
Definition must_exec (wrap : error → attach_error) (stmt : string) : X () :=
  let! e := try_exec stmt in match e with Some e => xfail (wrap e) | None => xret () end.
Definition log_exec (stmt : string) : X () := try_exec stmt;;; xret ().
Definition ask {A} (f : duck → A) : X A := λ d, (inr (f d), d).

(** A count query that succeeds with a positive number. *)
Definition already (count : option Z) : bool := match count with Some n => bool_decide (0 < n) | None => false end.

(** LoadExtensions, for one extension without a source. *)
Definition LoadExtension (env : attach_env) (name : string) : X (option error) :=
  let! e := (if bundled env name then xret None else try_exec ("INSTALL " +:+ name)) in
  match e with
  | Some e => xret (Some e)
  | None => try_exec ("LOAD " +:+ name)
  end.
Definition must_load (env : attach_env) (name : string) : X () :=
  let! e := LoadExtension env name in match e with Some e => xfail (LoadFailed e) | None => xret () end.

(** * Secrets *)

Definition createAzureSecret (dlCfg : ducklake.Config) : X () :=
  let! n := ask (count_secret "ducklake_azure") in
  if already n then xret () else must_exec SecretFailed (buildAzureSecret dlCfg).

(** The statement for the provider of the configuration. *)
Definition s3_secret_stmt (env : attach_env) (dlCfg : ducklake.Config) : X string :=
  let provider := S3ProviderForConfig dlCfg in
  if bool_decide (provider = "aws_sdk") then
    match buildAWSSdkSecret (aws_credentials env) dlCfg with Some stmt => xret stmt | None => xfail AwsFetch end
  else if bool_decide (provider = "credential_chain") then xret (buildCredentialChainSecret dlCfg)
  else xret (buildConfigSecret dlCfg).

Definition createS3Secret (env : attach_env) (dlCfg : ducklake.Config) : X () :=
  let! n := ask (count_secret "ducklake_s3") in
  if already n then xret () else
  let! stmt := s3_secret_stmt env dlCfg in must_exec SecretFailed stmt.

(** Runs the statement, once more after a ROLLBACK when the connection was left in an
    aborted transaction. *)
Definition exec_after_rollback (stmt : string) : X () :=
  let! e := try_exec stmt in
  match e with
  | None => xret ()
  | Some e =>
      if isTransactionAborted e then log_exec "ROLLBACK";;; must_exec SecretFailed stmt
      else xfail (SecretFailed e)
  end.

Definition RefreshS3Secret (env : attach_env) (dlCfg : ducklake.Config) : X () :=
  if bool_decide (ducklake.ObjectStore dlCfg = "") then xret () else
  let! stmt := s3_secret_stmt env dlCfg in exec_after_rollback stmt.

Definition RefreshIcebergSecret (ic : iceberg.Config) (keyID secretKey sessionToken : string) : X () :=
  if negb (iceberg.Enabled ic) then xret ()
  else if bool_decide (keyID = "") || bool_decide (secretKey = "") then xfail NoCredentials
  else exec_after_rollback (BuildIcebergSecretStmt ic keyID secretKey sessionToken).

(** * DuckLake *)

Definition buildDuckLakePreAttachStatements (dlCfg : ducklake.Config) : list string :=
  (if default true (ducklake.DisableMetadataThreadLocalCache dlCfg) then ["SET GLOBAL pg_pool_enable_thread_local_cache = false"] else [])
  ++ (if ducklake.ViaPgBouncer dlCfg then ["SET GLOBAL pg_pool_max_connections = 0"] else []).

(** The text of DuckDB's message is ASCII up to quoted names. *)
Context `{HU : UnicodeCase}.
Definition isMissingDuckLakePoolSettingError (e : error) : bool :=
  Contains (ToLower (Error e)) "unrecognized configuration parameter".

Definition apply_setting (env : attach_env) (stmt : string) : X () :=
  let! e := try_exec stmt in
  match e with
  | None => xret ()
  | Some e =>
      if isMissingDuckLakePoolSettingError e then
        let! loadErr := LoadExtension env "postgres_scanner" in
        match loadErr with
        | Some _ => xret ()
        | None =>
            let! retryErr := try_exec stmt in
            match retryErr with
            | None => xret ()
            | Some r => if isMissingDuckLakePoolSettingError r then xret () else xfail (SettingFailed stmt r)
            end
        end
      else xfail (SettingFailed stmt e)
  end.
Fixpoint apply_settings (env : attach_env) (stmts : list string) : X () :=
  match stmts with
  | [] => xret ()
  | stmt :: stmts' => apply_setting env stmt;;; apply_settings env stmts'
  end.
Definition applyDuckLakePreAttachSettings (env : attach_env) (dlCfg : ducklake.Config) : X () :=
  apply_settings env (buildDuckLakePreAttachStatements dlCfg).

Definition transientMaxRetries : nat := 3.
Fixpoint retry_attach (attempts : nat) (stmt : string) : X () :=
  let! e := try_exec stmt in
  match e, attempts with
  | None, _ => xret ()
  | Some e, S attempts' => if isTransientDuckLakeError e then retry_attach attempts' stmt else xfail (AttachFailed e)
  | Some e, O => xfail (AttachFailed e)
  end.
Definition retryOnTransientAttach (stmt : string) : X () := retry_attach transientMaxRetries stmt.

Definition needs_s3_secret (dlCfg : ducklake.Config) : bool :=
  bool_decide (ducklake.S3Endpoint dlCfg ≠ "") || bool_decide (ducklake.S3AccessKey dlCfg ≠ "")
  || bool_decide (ducklake.S3Provider dlCfg = "credential_chain") || bool_decide (ducklake.S3Provider dlCfg = "aws_sdk")
  || bool_decide (ducklake.S3Chain dlCfg ≠ "") || bool_decide (ducklake.S3Profile dlCfg ≠ "").

Definition object_store_secret (env : attach_env) (dlCfg : ducklake.Config) : X () :=
  if bool_decide (ducklake.ObjectStore dlCfg = "") then xret ()
  else if isAzureObjectStore (ducklake.ObjectStore dlCfg) then
    if bool_decide (ducklake.AzureAccountName dlCfg ≠ "") then createAzureSecret dlCfg else xret ()
  else if needs_s3_secret dlCfg then createS3Secret env dlCfg else xret ().

Definition configure_pool_stmt : string := "SELECT * FROM postgres_configure_pool(
		catalog_name := '__ducklake_metadata_ducklake',
		enable_reaper_thread := true,
		idle_timeout_millis := 60000,
		max_lifetime_millis := 600000
	)".

Definition AttachDuckLake (env : attach_env) (dlCfg : ducklake.Config) : X () :=
  if bool_decide (ducklake.MetadataStore dlCfg = "") then xret () else
  match (if ducklake.Migrate dlCfg then None else MigrationCheckError (checked env) (ducklake.MetadataStore dlCfg)) with
  | Some e => xfail (MigrationCheckFailed e)
  | None =>
      if negb (got_sem env) then xfail SemTimeout else
      let! n := ask (count_database "ducklake") in
      if already n then xret () else
      object_store_secret env dlCfg;;;
      (if bool_decide (ducklake.HTTPProxy dlCfg = "") then xret ()
       else log_exec ("SET GLOBAL http_proxy = '" +:+ ducklake.HTTPProxy dlCfg +:+ "'"));;;
      (if isAzureObjectStore (ducklake.ObjectStore dlCfg) then log_exec "SET GLOBAL azure_transport_option_type = 'curl'" else xret ());;;
      applyDuckLakePreAttachSettings env dlCfg;;;
      let migrate := ducklake.Migrate dlCfg || MigrationNeeded (checked env) (ducklake.MetadataStore dlCfg) in
      let! attachStmt :=
        (if ducklake.RestrictClientSessions dlCfg then
           match BuildRestrictedAttachStmts dlCfg migrate with
           | inl e => xfail (BadRestricted e)
           | inr (secretStmt, restrictedAttachStmt) =>
               must_load env "postgres_scanner";;; must_exec SecretFailed secretStmt;;; xret restrictedAttachStmt
           end
         else xret (BuildAttachStmt dlCfg migrate)) in
      retryOnTransientAttach attachStmt;;;
      log_exec "SET ducklake_max_retry_count = 100";;;
      log_exec configure_pool_stmt
  end.

(** * Delta and Iceberg *)

Definition isDeltaCatalogEmptyError (e : error) : bool := Contains (Error e) "No files in log segment".

Definition deltaCatalogNeedsS3Secret (catalogPath : string) (dlCfg : ducklake.Config) : bool :=
  if negb (Contains catalogPath "://") then false else
  let provider := S3ProviderForConfig dlCfg in
  bool_decide (ducklake.S3Endpoint dlCfg ≠ "") || bool_decide (ducklake.S3AccessKey dlCfg ≠ "")
  || bool_decide (provider = "credential_chain") || bool_decide (provider = "aws_sdk")
  || bool_decide (ducklake.S3Chain dlCfg ≠ "") || bool_decide (ducklake.S3Profile dlCfg ≠ "").

(** ATTACH, then a probe that detaches an empty catalog again. *)
Definition attach_and_probe (isEmpty : error → bool) (catalog attachStmt : string) : X () :=
  let! e := try_exec attachStmt in
  match e with
  | Some e => if isEmpty e then xret () else xfail (AttachFailed e)
  | None =>
      let! e := try_exec ("SHOW TABLES FROM " +:+ catalog) in
      match e with
      | Some e => if isEmpty e then log_exec ("DETACH " +:+ catalog) else xfail (ProbeFailed e)
      | None => xret ()
      end
  end.

Definition AttachDeltaCatalog (env : attach_env) (dlCfg : ducklake.Config) : X () :=
  if negb (ducklake.DeltaCatalogEnabled dlCfg) then xret () else
  let catalogPath := DeltaCatalogPath dlCfg in
  if bool_decide (catalogPath = "") then xret ()
  else if negb (got_sem env) then xfail SemTimeout else
  let! n := ask (count_database "delta") in
  if already n then xret () else
  must_load env "delta";;;
  (if deltaCatalogNeedsS3Secret catalogPath dlCfg then createS3Secret env dlCfg else xret ());;;
  attach_and_probe isDeltaCatalogEmptyError "delta" (BuildDeltaAttachStmt dlCfg).

Definition isIcebergCatalogEmptyError (e : error) : bool :=
  has_any (Error e) ["no namespace"; "no namespaces"; "NamespaceNotFound"; "NoSuchNamespace"; "NoSuchTable"].

Definition attachS3TablesIcebergCatalog (env : attach_env) (ic : iceberg.Config) (keyID secret sessionToken : string) : X () :=
  if bool_decide (iceberg.TableBucket ic = "") then xret ()
  else if bool_decide (keyID = "") || bool_decide (secret = "") then xfail NoCredentials
  else if negb (got_sem env) then xfail SemTimeout else
  let! n := ask (count_database iceberg.CatalogName) in
  if already n then xret () else
  must_load env "iceberg";;;
  must_exec SecretFailed (BuildIcebergSecretStmt ic keyID secret sessionToken);;;
  attach_and_probe isIcebergCatalogEmptyError iceberg.CatalogName (BuildIcebergAttachStmt ic).

Definition attachLakekeeperCatalog (env : attach_env) (ic : iceberg.Config) (keyID secret sessionToken : string) : X () :=
  if bool_decide (iceberg.LakekeeperEndpoint ic = "") || bool_decide (iceberg.LakekeeperWarehouse ic = "") then xret ()
  else if negb (got_sem env) then xfail SemTimeout else
  let! n := ask (count_database iceberg.CatalogName) in
  if already n then xret () else
  must_load env "iceberg";;;
  (if bool_decide (keyID ≠ "") && bool_decide (secret ≠ "")
   then must_exec SecretFailed (BuildIcebergSecretStmt ic keyID secret sessionToken) else xret ());;;
  (let stmt := BuildLakekeeperSecretStmt ic in if bool_decide (stmt = "") then xret () else must_exec SecretFailed stmt);;;
  let! e := try_exec (BuildLakekeeperAttachStmt ic) in
  match e with
  | Some e => if isIcebergCatalogEmptyError e then xret () else xfail (AttachFailed e)
  | None => log_exec ("CREATE SCHEMA IF NOT EXISTS " +:+ iceberg.CatalogName +:+ "." +:+ iceberg.DefaultSchema)
  end.

Definition AttachIcebergCatalog (env : attach_env) (ic : iceberg.Config) (keyID secret sessionToken : string) : X () :=
  if negb (iceberg.Enabled ic) then xret ()
  else if bool_decide (iceberg.ResolvedBackend ic = iceberg.BackendLakekeeper) then attachLakekeeperCatalog env ic keyID secret sessionToken
  else if bool_decide (iceberg.ResolvedBackend ic = iceberg.BackendS3Tables) then attachS3TablesIcebergCatalog env ic keyID secret sessionToken
  else xfail (UnsupportedBackend (iceberg.Backend ic)).

Definition setDuckLakeDefault : X () := must_exec DefaultFailed "USE ducklake".

(** * Activation *)

(** ActivateDBConnection in its four parts: each attach holds the semaphore for its own
    length, so the attaches of two activations can come between one another. *)
Inductive attach_stage := StageDuckLake | StageDelta | StageIceberg | StageDefault.

Definition activate_stage (env : attach_env) (dl : ducklake.Config) (ic : iceberg.Config) (stage : attach_stage) : X () :=
  match stage with
  | StageDuckLake => if bool_decide (ducklake.MetadataStore dl = "") then xfail NoMetadataStore else AttachDuckLake env dl
  | StageDelta => AttachDeltaCatalog env dl
  | StageIceberg => AttachIcebergCatalog env ic (ducklake.S3AccessKey dl) (ducklake.S3SecretKey dl) (ducklake.S3SessionToken dl)
  | StageDefault => (λ d, (inr (), catalog_views d));;; setDuckLakeDefault
  end.

Definition next_stage (stage : attach_stage) : option attach_stage :=
  match stage with
  | StageDuckLake => Some StageDelta | StageDelta => Some StageIceberg | StageIceberg => Some StageDefault | StageDefault => None
  end.

(** The four parts one after the other. *)
Definition ActivateDBConnection (env : attach_env) (dl : ducklake.Config) (ic : iceberg.Config) : X () :=
  activate_stage env dl ic StageDuckLake;;; activate_stage env dl ic StageDelta;;;
  activate_stage env dl ic StageIceberg;;; activate_stage env dl ic StageDefault.
End attach.
