(* ===== verification/TenantRuntime.v ===== *)
(** The worker's side of tenancy (src/duckdbservice/activation.go, the session pool of
    src/duckdbservice/service.go, the handlers of src/duckdbservice/flight_handler.go and the
    override of src/duckdbservice/cache_proxy.go): a neutral worker is activated for one
    organisation, its credentials are renewed by activating it again, and sessions are
    opened on it. Requests run concurrently; the state is guarded by one lock, which is not
    held while DuckDB works. *)

From Stdlib Require Import Strings.Byte.
From stdpp Require Import prelude gmap strings list fin_maps.
From Stdlib Require Import ZArith Lia.
From S2P Require Import Prelude GoText GoTime Values ErrorCodes SessionMeta DuckLake Migration Catalogs.

Open Scope string_scope.
Open Scope list_scope.
Open Scope Z_scope.

(** * Payloads *)

Record ActivationPayload := {
  WorkerID : Z;
  OwnerEpoch : Z;
  CPInstanceID : string;
  OrgID : string;
  DuckLakeCfg : ducklake.Config;
  IcebergCfg : iceberg.Config;
}.

#[export] Instance ActivationPayload_eq_dec : EqDecision ActivationPayload.
Proof. solve_decision. Defined.

Definition s3CredentialsChanged (a b : ducklake.Config) : bool :=
  bool_decide (ducklake.S3AccessKey a ≠ ducklake.S3AccessKey b) || bool_decide (ducklake.S3SecretKey a ≠ ducklake.S3SecretKey b)
  || bool_decide (ducklake.S3SessionToken a ≠ ducklake.S3SessionToken b).

Definition sameOwnerActivationAttempt (current next : ActivationPayload) : bool :=
  bool_decide (WorkerID current = WorkerID next) && bool_decide (CPInstanceID current = CPInstanceID next)
  && bool_decide (OwnerEpoch current = OwnerEpoch next).

(** The fields that make the runtime of a tenant: everything but its identity as a worker
    and the credentials that rotate. *)
Definition runtime_fields (p : ActivationPayload) :=
  let a := DuckLakeCfg p in let ai := IcebergCfg p in
  ((OrgID p, ducklake.MetadataStore a, ducklake.ObjectStore a, ducklake.DataPath a, ducklake.DeltaCatalogEnabled a, ducklake.CfgDeltaCatalogPath a),
   (ducklake.S3Provider a, ducklake.S3Endpoint a, ducklake.S3Region a, ducklake.S3UseSSL a, ducklake.S3URLStyle a, ducklake.S3Chain a, ducklake.S3Profile a),
   (ducklake.Migrate a, ducklake.DataInliningRowLimit a, ducklake.CheckpointInterval a),
   (iceberg.Enabled ai, iceberg.Backend ai, iceberg.TableBucket ai, iceberg.Region ai, iceberg.Namespace ai),
   (iceberg.LakekeeperEndpoint ai, iceberg.LakekeeperWarehouse ai, iceberg.LakekeeperClientID ai, iceberg.LakekeeperOAuth2ServerURI ai)).

Definition sameTenantActivationRuntime (current next : ActivationPayload) : bool :=
  bool_decide (runtime_fields current = runtime_fields next).

(** overrideS3EndpointForCacheProxy, for the address of the proxy on this node. *)
Definition overrideS3EndpointForCacheProxy (addr : string) (c : ducklake.Config) : ducklake.Config :=
  if bool_decide (addr = "") then c else {|
  ducklake.MetadataStore := ducklake.MetadataStore c; ducklake.RestrictClientSessions := ducklake.RestrictClientSessions c;
  ducklake.DisableMetadataThreadLocalCache := ducklake.DisableMetadataThreadLocalCache c;
  ducklake.ObjectStore := ducklake.ObjectStore c; ducklake.DataPath := ducklake.DataPath c;
  ducklake.DeltaCatalogEnabled := ducklake.DeltaCatalogEnabled c; ducklake.CfgDeltaCatalogPath := ducklake.CfgDeltaCatalogPath c;
  ducklake.S3Provider := ducklake.S3Provider c;
  ducklake.S3Endpoint := or_default (ducklake.S3Endpoint c) ("s3." +:+ or_default (ducklake.S3Region c) "us-east-1" +:+ ".amazonaws.com");
  ducklake.S3AccessKey := ducklake.S3AccessKey c; ducklake.S3SecretKey := ducklake.S3SecretKey c;
  ducklake.S3SessionToken := ducklake.S3SessionToken c; ducklake.S3Region := ducklake.S3Region c;
  ducklake.S3UseSSL := false; ducklake.S3URLStyle := ducklake.S3URLStyle c;
  ducklake.S3Chain := ducklake.S3Chain c; ducklake.S3Profile := ducklake.S3Profile c;
  ducklake.AzureProvider := ducklake.AzureProvider c; ducklake.AzureAccountName := ducklake.AzureAccountName c;
  ducklake.AzureChain := ducklake.AzureChain c; ducklake.AzureClientID := ducklake.AzureClientID c;
  ducklake.HTTPProxy := "http://" +:+ addr; ducklake.CheckpointInterval := ducklake.CheckpointInterval c;
  ducklake.DataInliningRowLimit := ducklake.DataInliningRowLimit c; ducklake.Migrate := ducklake.Migrate c;
  ducklake.SpecVersion := ducklake.SpecVersion c; ducklake.ViaPgBouncer := ducklake.ViaPgBouncer c;
  ducklake.ApplicationName := ducklake.ApplicationName c |}.

(** The configuration an activation attaches with. *)
Definition activation_config (addr : string) (payload : ActivationPayload) : ducklake.Config :=
  let c := overrideS3EndpointForCacheProxy addr (DuckLakeCfg payload) in
  if bool_decide (ducklake.ApplicationName c = "")
  then with_store (ducklake.MetadataStore c) ("duckgres/" +:+ OrgID payload) c else c.

(** * The session pool *)

(** A database is one of the DuckDB instances the process has opened. *)
Record SessionPool `{DuckDB} := {
  sharedWarmMode : bool;
  maxSessions : Z;
  proxyAddr : string;
  users : list string;
  standalone : ActivationPayload;              (** p.cfg's own DuckLake and Iceberg *)
  sessions : gmap string nat;                  (** token to database *)
  reserved : Z;
  warmupDone : bool;
  warmupDB : option nat;
  fallbackDB : option nat;
  dbInitOnce : bool;
  fallbackErr : bool;
  activePair : option nat;
  activation : option (ActivationPayload * nat);
  ownerEpoch : Z;
  ownerCPInstanceID : string;
  workerID : Z;
  dbs : list duck;
}.

Section pool.
Context `{HD : DuckDB} `{HU : UnicodeCase}.

Definition set_activation (payload : ActivationPayload) (db : nat) (p : SessionPool) : SessionPool :=
  {| sharedWarmMode := sharedWarmMode p; maxSessions := maxSessions p; proxyAddr := proxyAddr p; users := users p;
     standalone := standalone p; sessions := sessions p; reserved := reserved p; warmupDone := warmupDone p;
     warmupDB := warmupDB p; fallbackDB := fallbackDB p; dbInitOnce := dbInitOnce p; fallbackErr := fallbackErr p;
     activePair := activePair p; activation := Some (payload, db); ownerEpoch := OwnerEpoch payload;
     ownerCPInstanceID := CPInstanceID payload; workerID := WorkerID payload; dbs := dbs p |}.
Definition set_dbs (warmup fallback pair : option nat) (ds : list duck) (p : SessionPool) : SessionPool :=
  {| sharedWarmMode := sharedWarmMode p; maxSessions := maxSessions p; proxyAddr := proxyAddr p; users := users p;
     standalone := standalone p; sessions := sessions p; reserved := reserved p; warmupDone := warmupDone p;
     warmupDB := warmup; fallbackDB := fallback; dbInitOnce := dbInitOnce p; fallbackErr := fallbackErr p;
     activePair := pair; activation := activation p; ownerEpoch := ownerEpoch p;
     ownerCPInstanceID := ownerCPInstanceID p; workerID := workerID p; dbs := ds |}.
Definition set_once (warm once err : bool) (p : SessionPool) : SessionPool :=
  {| sharedWarmMode := sharedWarmMode p; maxSessions := maxSessions p; proxyAddr := proxyAddr p; users := users p;
     standalone := standalone p; sessions := sessions p; reserved := reserved p; warmupDone := warm;
     warmupDB := warmupDB p; fallbackDB := fallbackDB p; dbInitOnce := once; fallbackErr := err;
     activePair := activePair p; activation := activation p; ownerEpoch := ownerEpoch p;
     ownerCPInstanceID := ownerCPInstanceID p; workerID := workerID p; dbs := dbs p |}.
Definition set_sessions (ss : gmap string nat) (r : Z) (p : SessionPool) : SessionPool :=
  {| sharedWarmMode := sharedWarmMode p; maxSessions := maxSessions p; proxyAddr := proxyAddr p; users := users p;
     standalone := standalone p; sessions := ss; reserved := r; warmupDone := warmupDone p;
     warmupDB := warmupDB p; fallbackDB := fallbackDB p; dbInitOnce := dbInitOnce p; fallbackErr := fallbackErr p;
     activePair := activePair p; activation := activation p; ownerEpoch := ownerEpoch p;
     ownerCPInstanceID := ownerCPInstanceID p; workerID := workerID p; dbs := dbs p |}.

(** Runs code on a database. *)
Definition on_db {A} (db : nat) (m : X A) (p : SessionPool) : option ((attach_error + A) * SessionPool) :=
  d ← dbs p !! db;
  let '(r, d') := m d in
  Some (r, set_dbs (warmupDB p) (fallbackDB p) (activePair p) (<[db := d']> (dbs p)) p).

Definition validateControlMetadata (metaWorkerID : Z) (p : SessionPool) : bool :=
  if negb (sharedWarmMode p) then true
  else negb (bool_decide (0 < workerID p) && bool_decide (metaWorkerID ≠ 0) && bool_decide (metaWorkerID ≠ workerID p)).

(** currentSessionConfig: the catalogs a session sees, or an error. *)
Definition currentSessionConfig (p : SessionPool) : option (ducklake.Config * iceberg.Config) :=
  if negb (sharedWarmMode p) then Some (DuckLakeCfg (standalone p), IcebergCfg (standalone p)) else
  '(payload, _) ← activation p;
  Some (overrideS3EndpointForCacheProxy (proxyAddr p) (DuckLakeCfg payload), IcebergCfg payload).

Definition activeSharedDB (p : SessionPool) : option nat :=
  if negb (sharedWarmMode p) then None else snd <$> activation p.

(** * Requests *)

(** A request in progress, by what it does next. *)
Inductive request :=
  | AReceived (payload : ActivationPayload)                       (** doActivateTenant *)
  | AChecking (payload : ActivationPayload)                       (** activateTenant, first reading *)
  | AChoosing (payload : ActivationPayload)                       (** waiting for the warm-up, choosing the database *)
  | AAttaching (payload : ActivationPayload) (db : nat) (stage : attach_stage)
  | ACommitting (payload : ActivationPayload) (db : nat)
  | RInspecting (payload : ActivationPayload)                     (** reuseExistingActivation, phase 1 *)
  | RRefreshingS3 (payload : ActivationPayload) (db : nat)
  | RRefreshingIceberg (payload : ActivationPayload) (db : nat)
  | RCommitting (payload : ActivationPayload)
  | AReplied (payload : ActivationPayload) (ok : bool)
  | SReceived (user : string) (metaWorkerID : Z)                  (** doCreateSession *)
  | SWaiting (user : string)                                      (** slot reserved *)
  | SFallingBack (user : string)                                  (** no shared database yet *)
  | SConnecting (user : string) (db : nat)
  | SConfiguring (user : string) (db : nat)
  | SRegistering (user : string) (db : nat)
  | SReplied (token : option string)
  | DReceived (token : string) (metaWorkerID : Z)                 (** doDestroySession *)
  | DReplied (ok : bool).

(** What a step meets that the worker does not decide: whether a database could be opened
    and its state, the conditions of an attach, whether the pool has a connection free,
    the token that was drawn. *)
Record surroundings := {
  opened : option duck;
  attach : attach_env;
  conn_ok : bool;
  drawn : string;
}.

(** The locked phase that decides whether an activation may replace the current one. *)
Definition may_replace (current payload : ActivationPayload) : bool :=
  sameTenantActivationRuntime current payload
  && (bool_decide (current = payload) || negb (bool_decide (OwnerEpoch payload ≤ OwnerEpoch current))
      || sameOwnerActivationAttempt current payload).

Definition needsRefresh (current payload : ActivationPayload) : bool :=
  if (bool_decide (ducklake.ObjectStore (DuckLakeCfg payload) ≠ "") || iceberg.Enabled (IcebergCfg payload))
     && bool_decide (DuckLakeCfg current ≠ DuckLakeCfg payload)
  then s3CredentialsChanged (DuckLakeCfg current) (DuckLakeCfg payload)
       || bool_decide (S3ProviderForConfig (DuckLakeCfg payload) = "aws_sdk")
       || bool_decide (S3ProviderForConfig (DuckLakeCfg payload) = "credential_chain")
  else false.

(** activateTenant up to the attach: a reply, or what comes next. *)
Definition activate_check (payload : ActivationPayload) (p : SessionPool) : request :=
  if negb (sharedWarmMode p) then AReplied payload false
  else if bool_decide (TrimSpace (OrgID payload) = "") then AReplied payload false
  else if bool_decide (OwnerEpoch payload < 0) then AReplied payload false
  else if bool_decide (0 < workerID p) && bool_decide (WorkerID payload ≠ workerID p) then AReplied payload false
  else match activation p with
  | Some (current, _) =>
      if negb (sameTenantActivationRuntime current payload) then AReplied payload false
      else if bool_decide (current = payload) then AReplied payload true
      else if bool_decide (OwnerEpoch payload ≤ ownerEpoch p) && negb (sameOwnerActivationAttempt current payload) then AReplied payload false
      else RInspecting payload
  | None => if bool_decide (OwnerEpoch payload ≤ ownerEpoch p) then AReplied payload false else AChoosing payload
  end.

(** The last phase of activateTenant. *)
Definition activate_commit (payload : ActivationPayload) (db : nat) (p : SessionPool) : bool * SessionPool :=
  if bool_decide (0 < workerID p) && bool_decide (WorkerID payload ≠ workerID p) then (false, p)
  else if match activation p with Some (current, _) => sameTenantActivationRuntime current payload && bool_decide (current = payload) | None => false end
  then (true, p)
  else if bool_decide (OwnerEpoch payload ≤ ownerEpoch p) then (false, p)
  else match activation p with
  | Some _ => (false, p)
  | None => (true, set_activation payload db p)
  end.

(** The last phase of reuseExistingActivation. *)
Definition reuse_commit (payload : ActivationPayload) (p : SessionPool) : bool * SessionPool :=
  match activation p with
  | Some (live, db) => if may_replace live payload then (true, set_activation payload db p) else (false, p)
  | None => (false, p)
  end.

(** What the handlers do between two points where others may come in: what the request does
    next, and the pool. [None] when it must wait. *)
Definition outcome : Type := option (request * SessionPool).

Definition doActivateTenant (payload : ActivationPayload) (p : SessionPool) : outcome :=
  if bool_decide (TrimSpace (OrgID payload) = "") then Some (AReplied payload false, p)
  else match activation p with
  | Some (current, _) =>
      if bool_decide (OrgID current ≠ OrgID payload) then Some (AReplied payload false, p) else Some (AChecking payload, p)
  | None => Some (AChecking payload, p)
  end.

(** The database of an activation: the warm one, or one opened now. *)
Definition activation_db (s : surroundings) (payload : ActivationPayload) (p : SessionPool) : outcome :=
  if negb (warmupDone p) then None else
  match warmupDB p, fallbackDB p with
  | Some db, _ => Some (AAttaching payload db StageDuckLake, p)
  | None, Some db => Some (AAttaching payload db StageDuckLake, set_dbs (Some db) (fallbackDB p) (activePair p) (dbs p) p)
  | None, None =>
      match opened s with
      | None => Some (AReplied payload false, p)
      | Some d => let db := length (dbs p) in
          Some (AAttaching payload db StageDuckLake, set_dbs (Some db) (Some db) (Some db) (dbs p ++ [d]) p)
      end
  end.

Definition attach_catalogs (s : surroundings) (payload : ActivationPayload) (db : nat) (stage : attach_stage) (p : SessionPool) : outcome :=
  '(res, p') ← on_db db (activate_stage (attach s) (activation_config (proxyAddr p) payload) (IcebergCfg payload) stage) p;
  Some (match res, next_stage stage with
        | inl _, _ => AReplied payload false
        | inr _, Some stage' => AAttaching payload db stage'
        | inr _, None => ACommitting payload db
        end, p').

Definition reuse_inspect (payload : ActivationPayload) (p : SessionPool) : outcome :=
  match activation p with
  | Some (current, db) =>
      if negb (may_replace current payload) then Some (AReplied payload false, p)
      else let refreshDB := default db (activePair p) in
           if negb (needsRefresh current payload) then Some (RCommitting payload, p)
           else Some (if bool_decide (ducklake.ObjectStore (DuckLakeCfg payload) ≠ "") then RRefreshingS3 payload refreshDB
                      else if iceberg.Enabled (IcebergCfg payload) then RRefreshingIceberg payload refreshDB else RCommitting payload, p)
  | None => Some (AReplied payload false, p)
  end.

Definition reuse_refresh_s3 (s : surroundings) (payload : ActivationPayload) (db : nat) (p : SessionPool) : outcome :=
  '(res, p') ← on_db db (RefreshS3Secret (attach s) (DuckLakeCfg payload)) p;
  Some (match res with
        | inl _ => AReplied payload false
        | inr _ => if iceberg.Enabled (IcebergCfg payload) then RRefreshingIceberg payload db else RCommitting payload
        end, p').

Definition reuse_refresh_iceberg (payload : ActivationPayload) (db : nat) (p : SessionPool) : outcome :=
  '(res, p') ← on_db db (RefreshIcebergSecret (IcebergCfg payload) (ducklake.S3AccessKey (DuckLakeCfg payload))
                           (ducklake.S3SecretKey (DuckLakeCfg payload)) (ducklake.S3SessionToken (DuckLakeCfg payload))) p;
  Some (match res with inl _ => AReplied payload false | inr _ => RCommitting payload end, p').

(** doCreateSession, with CreateSession's reservation of a slot. *)
Definition doCreateSession (user : string) (metaWorkerID : Z) (p : SessionPool) : outcome :=
  if bool_decide (user = "") then Some (SReplied None, p)
  else if negb (validateControlMetadata metaWorkerID p) then Some (SReplied None, p)
  else if sharedWarmMode p && bool_decide (activation p = None) then Some (SReplied None, p)
  else if negb (sharedWarmMode p) && negb (bool_decide (user ∈ users p)) then Some (SReplied None, p)
  else if bool_decide (0 < maxSessions p) && bool_decide (maxSessions p ≤ Z.of_nat (size (sessions p)) + reserved p) then Some (SReplied None, p)
  else Some (SWaiting user, set_sessions (sessions p) (reserved p + 1) p).

(** A session that is not made gives its slot back. *)
Definition session_refused (p : SessionPool) : outcome :=
  Some (SReplied None, set_sessions (sessions p) (reserved p - 1) p).

Definition session_db (user : string) (p : SessionPool) : outcome :=
  if negb (warmupDone p) then None else
  match activeSharedDB p, warmupDB p with
  | Some db, _ | None, Some db => Some (SConnecting user db, p)
  | None, None => match currentSessionConfig p with
                  | None => session_refused p
                  | Some _ => Some (SFallingBack user, p)
                  end
  end.

(** dbInitOnce.Do *)
Definition init_fallback (s : surroundings) (p : SessionPool) : SessionPool :=
  if dbInitOnce p then p else
  match opened s with
  | None => set_once (warmupDone p) true true p
  | Some d => let db := length (dbs p) in
      set_once (warmupDone p) true (fallbackErr p) (set_dbs (warmupDB p) (Some db) (Some db) (dbs p ++ [d]) p)
  end.

Definition session_fallback (s : surroundings) (user : string) (p : SessionPool) : outcome :=
  let p := init_fallback s p in
  match fallbackErr p, fallbackDB p with
  | true, _ | _, None => session_refused p
  | false, Some db => Some (SConnecting user db, p)
  end.

Definition doDestroySession (token : string) (metaWorkerID : Z) (p : SessionPool) : outcome :=
  if bool_decide (token = "") then Some (DReplied false, p)
  else if negb (validateControlMetadata metaWorkerID p) then Some (DReplied false, p)
  else match sessions p !! token with
  | Some _ => Some (DReplied true, set_sessions (delete token (sessions p)) (reserved p) p)
  | None => Some (DReplied false, p)
  end.

(** One step of a request. *)
Definition request_step (s : surroundings) (r : request) (p : SessionPool) : outcome :=
  match r with
  | AReceived payload => doActivateTenant payload p
  | AChecking payload => Some (activate_check payload p, p)
  | AChoosing payload => activation_db s payload p
  | AAttaching payload db stage => attach_catalogs s payload db stage p
  | ACommitting payload db => let '(ok, p') := activate_commit payload db p in Some (AReplied payload ok, p')
  | RInspecting payload => reuse_inspect payload p
  | RRefreshingS3 payload db => reuse_refresh_s3 s payload db p
  | RRefreshingIceberg payload db => reuse_refresh_iceberg payload db p
  | RCommitting payload => let '(ok, p') := reuse_commit payload p in Some (AReplied payload ok, p')
  | SReceived user metaWorkerID => doCreateSession user metaWorkerID p
  | SWaiting user => session_db user p
  | SFallingBack user => session_fallback s user p
  | SConnecting user db => if conn_ok s then Some (SConfiguring user db, p) else session_refused p
  | SConfiguring user db => match currentSessionConfig p with None => session_refused p | Some _ => Some (SRegistering user db, p) end
  | SRegistering user db => Some (SReplied (Some (drawn s)), set_sessions (<[drawn s := db]> (sessions p)) (reserved p - 1) p)
  | DReceived token metaWorkerID => doDestroySession token metaWorkerID p
  | AReplied _ _ | SReplied _ | DReplied _ => None
  end.
End pool.

(** * The worker *)

Record worker `{DuckDB} := { pool : SessionPool; requests : list request }.

Inductive worker_event `{DuckDB} :=
  | Activate (payload : ActivationPayload)
  | CreateSession (user : string) (metaWorkerID : Z)
  | DestroySession (token : string) (metaWorkerID : Z)
  | Proceed (i : nat) (s : surroundings)
  | Warmup (s : surroundings)
  | CloseAll.

Section worker.
Context `{HD : DuckDB} `{HU : UnicodeCase}.

Definition receive_request (r : request) (w : worker) : worker := {| pool := pool w; requests := requests w ++ [r] |}.

(** Warmup runs once, when the process starts; sessions and activations wait for it. *)
Definition warm_up (s : surroundings) (p : SessionPool) : SessionPool :=
  match opened s with
  | None => set_once true (dbInitOnce p) (fallbackErr p) p
  | Some d => let db := length (dbs p) in
      set_once true (dbInitOnce p) (fallbackErr p) (set_dbs (Some db) (fallbackDB p) (Some db) (dbs p ++ [d]) p)
  end.

(** CloseAll: the sessions go, and the shared databases with the pair that owns them. *)
Definition close_all (p : SessionPool) : SessionPool :=
  let p := set_sessions ∅ (reserved p) p in
  match activePair p with
  | Some _ => set_dbs None None None (dbs p) p
  | None => p
  end.

Definition worker_step (e : worker_event) (w : worker) : option worker :=
  match e with
  | Activate payload => Some (receive_request (AReceived payload) w)
  | CreateSession user metaWorkerID => Some (receive_request (SReceived user metaWorkerID) w)
  | DestroySession token metaWorkerID => Some (receive_request (DReceived token metaWorkerID) w)
  | Proceed i s =>
      r ← requests w !! i;
      '(r', p') ← request_step s r (pool w);
      Some {| pool := p'; requests := <[i := r']> (requests w) |}
  | Warmup s => if warmupDone (pool w) then None else Some {| pool := warm_up s (pool w); requests := requests w |}
  | CloseAll => Some {| pool := close_all (pool w); requests := requests w |}
  end.

Fixpoint worker_run (es : list worker_event) (w : worker) : option worker :=
  match es with
  | [] => Some w
  | e :: es' => w' ← worker_step e w; worker_run es' w'
  end.

(** NewDuckDBService *)
Definition new_pool (warm : bool) (max : Z) (addr : string) (us : list string) (own : ActivationPayload) : SessionPool :=
  {| sharedWarmMode := warm; maxSessions := max; proxyAddr := addr; users := us; standalone := own; sessions := ∅;
     reserved := 0; warmupDone := false; warmupDB := None; fallbackDB := None; dbInitOnce := false; fallbackErr := false;
     activePair := None; activation := None; ownerEpoch := 0; ownerCPInstanceID := ""; workerID := 0; dbs := [] |}.
Definition new_worker (warm : bool) (max : Z) (addr : string) (us : list string) (own : ActivationPayload) : worker :=
  {| pool := new_pool warm max addr us own; requests := [] |}.

Inductive worker_reachable : worker → Prop :=
  | worker_new warm max addr us own : worker_reachable (new_worker warm max addr us own)
  | worker_next e w w' : worker_reachable w → worker_step e w = Some w' → worker_reachable w'.

(** * Activations last *)

Definition same_runtime (a b : ActivationPayload) : Prop := runtime_fields a = runtime_fields b.

(** The owner the pool remembers is the one of its activation. *)
Definition owner_ok (p : SessionPool) : Prop :=
  ∀ q db, activation p = Some (q, db) → ownerEpoch p = OwnerEpoch q ∧ workerID p = WorkerID q.

(** The pool moves on: an activation stays, for the same tenant and on the same database,
    and its owner's epoch does not go back. *)
Definition evolves (p p' : SessionPool) : Prop :=
  sharedWarmMode p' = sharedWarmMode p ∧ maxSessions p' = maxSessions p ∧
  ∀ q db, activation p = Some (q, db) →
    ∃ q', activation p' = Some (q', db) ∧ same_runtime q q' ∧ OwnerEpoch q ≤ OwnerEpoch q'.

Lemma evolves_same p p' : sharedWarmMode p' = sharedWarmMode p → maxSessions p' = maxSessions p →
  activation p' = activation p → evolves p p'.
Proof. intros ? ? Ha. split; [done|]. split; [done|]. intros q db. rewrite Ha. intros ->. exists q. by split. Qed.
Lemma evolves_refl p : evolves p p.
Proof. by apply evolves_same. Qed.
Lemma evolves_trans p1 p2 p3 : evolves p1 p2 → evolves p2 p3 → evolves p1 p3.
Proof.
  intros (Hw1 & Hm1 & Ha1) (Hw2 & Hm2 & Ha2). split; [congruence|]. split; [congruence|].
  intros q db (q' & Hq' & Hr' & He')%Ha1. destruct (Ha2 _ _ Hq') as (q2 & ? & ? & ?).
  exists q2. split; [done|]. split; [unfold same_runtime in *; congruence|lia].
Qed.

Lemma same_tenant_true a b : sameTenantActivationRuntime a b = true ↔ same_runtime a b.
Proof. apply bool_decide_eq_true. Qed.
Lemma same_runtime_org a b : same_runtime a b → OrgID a = OrgID b.
Proof. unfold same_runtime, runtime_fields. congruence. Qed.

Lemma may_replace_true q payload : may_replace q payload = true → same_runtime q payload ∧ OwnerEpoch q ≤ OwnerEpoch payload.
Proof.
  unfold may_replace, sameOwnerActivationAttempt. intros [Hs Ho]%andb_true_iff. split; [by apply same_tenant_true|].
  apply orb_true_iff in Ho as [[Ho|Ho]%orb_true_iff|Ho]; to_prop; [by subst|lia|lia].
Qed.

Lemma on_db_keeps {A} db (m : X A) p r p' : on_db db m p = Some (r, p') →
  evolves p p' ∧ activation p' = activation p ∧ ownerEpoch p' = ownerEpoch p ∧ workerID p' = workerID p
  ∧ sessions p' = sessions p ∧ reserved p' = reserved p.
Proof.
  unfold on_db. destruct (dbs p !! db); [|done]. cbn. destruct (m d) as [r' d']. intros [= <- <-].
  split; [by apply evolves_same|done].
Qed.

(** What a request that was answered, or is about to be, tells of the pool. *)
Definition request_ok (p : SessionPool) (r : request) : Prop :=
  match r with
  | AReplied payload true => ∃ q db, activation p = Some (q, db) ∧ same_runtime q payload ∧ OwnerEpoch payload ≤ OwnerEpoch q
  | SWaiting _ => sharedWarmMode p = true → is_Some (activation p)
  | SFallingBack _ => sharedWarmMode p = false
  | SConnecting _ db | SConfiguring _ db | SRegistering _ db => sharedWarmMode p = true → ∃ q, activation p = Some (q, db)
  | _ => True
  end.

Lemma request_ok_evolves p p' r : evolves p p' → request_ok p r → request_ok p' r.
Proof.
  intros (Hw & _ & Ha). destruct r as [| | | | | | | | |payload []| | | | | | | | |]; cbn; try done; rewrite ?Hw; try done.
  - intros (q & db & (q' & ? & Hs & ?)%Ha & Hs' & ?). exists q', db. split; [done|]. unfold same_runtime in *. split; [congruence|lia].
  - intros Hs Hwm. destruct (Hs Hwm) as [[q db] (q' & ? & _)%Ha]. by eexists.
  - intros Hs Hwm. destruct (Hs Hwm) as (q & (q' & ? & _)%Ha). by eexists.
  - intros Hs Hwm. destruct (Hs Hwm) as (q & (q' & ? & _)%Ha). by eexists.
  - intros Hs Hwm. destruct (Hs Hwm) as (q & (q' & ? & _)%Ha). by eexists.
Qed.

Lemma commit_ok payload db p ok p' : owner_ok p → activate_commit payload db p = (ok, p') →
  evolves p p' ∧ owner_ok p' ∧ request_ok p' (AReplied payload ok) ∧ sessions p' = sessions p ∧ reserved p' = reserved p.
Proof.
  intros Ho. unfold activate_commit. destruct (bool_decide (0 < workerID p) && _).
  { intros [= <- <-]. by split_and!; [apply evolves_refl|..]. }
  destruct (activation p) as [[q db0]|] eqn:Ea.
  - destruct (_ && bool_decide (q = payload)) eqn:Es.
    + intros [= <- <-]. apply andb_true_iff in Es as [Hs Hq]. to_prop. subst q.
      split_and!; [apply evolves_refl|done|by exists payload, db0|done|done].
    + destruct (bool_decide (OwnerEpoch payload ≤ ownerEpoch p)); intros [= <- <-]; by split_and!; [apply evolves_refl|..].
  - destruct (bool_decide (OwnerEpoch payload ≤ ownerEpoch p)); intros [= <- <-]; [by split_and!; [apply evolves_refl|..]|].
    split_and!; [|by intros q db' [= <- <-]|by exists payload, db|done|done].
    split; [done|]. split; [done|]. intros q db'. by rewrite Ea.
Qed.

Lemma reuse_commit_ok payload p ok p' : owner_ok p → reuse_commit payload p = (ok, p') →
  evolves p p' ∧ owner_ok p' ∧ request_ok p' (AReplied payload ok) ∧ sessions p' = sessions p ∧ reserved p' = reserved p.
Proof.
  intros Ho. unfold reuse_commit. destruct (activation p) as [[q db]|] eqn:Ea.
  2:{ intros [= <- <-]. by split_and!; [apply evolves_refl|..]. }
  destruct (may_replace q payload) eqn:Em; intros [= <- <-]; [|by split_and!; [apply evolves_refl|..]].
  apply may_replace_true in Em as [Hs He].
  split_and!; [|by intros q' db' [= <- <-]|by exists payload, db|done|done].
  split; [done|]. split; [done|]. intros q' db'. rewrite Ea. intros [= <- <-]. by exists payload.
Qed.

Lemma check_ok payload p : owner_ok p → request_ok p (activate_check payload p) ∧
  match activate_check payload p with AReplied _ _ | RInspecting _ | AChoosing _ => True | _ => False end.
Proof.
  intros Ho. unfold activate_check. do 4 (destruct (_ : bool); [done|]).
  destruct (activation p) as [[q db]|] eqn:Ea; [|by case_bool_decide].
  destruct (negb (sameTenantActivationRuntime q payload)); [done|]. case_bool_decide; [|by case_match].
  subst q. split; [|done]. by exists payload, db.
Qed.

(** The slot a request holds while its session is made. *)
Definition slot (r : request) : Z :=
  match r with SWaiting _ | SFallingBack _ | SConnecting _ _ | SConfiguring _ _ | SRegistering _ _ => 1 | _ => 0 end.

(** Sessions of a tenant's worker are on the database that was activated. *)
Definition sessions_ok (p : SessionPool) : Prop :=
  sharedWarmMode p = true → ∀ token db, sessions p !! token = Some db → ∃ q, activation p = Some (q, db).

(** Sessions and slots together within the limit. *)
Definition within_limit (p : SessionPool) : Prop :=
  0 < maxSessions p → Z.of_nat (size (sessions p)) + reserved p ≤ maxSessions p.

Definition pool_ok (p : SessionPool) : Prop := owner_ok p ∧ sessions_ok p ∧ within_limit p.

(** A step that leaves the activation and the sessions alone. *)
Lemma quiet_step p p' r r' :
  pool_ok p → evolves p p' → activation p' = activation p → ownerEpoch p' = ownerEpoch p → workerID p' = workerID p →
  sessions p' = sessions p → reserved p' = reserved p + slot r' - slot r → slot r' ≤ slot r → request_ok p' r' →
  evolves p p' ∧ pool_ok p' ∧ request_ok p' r' ∧ reserved p' - slot r' = reserved p - slot r.
Proof.
  intros (Ho & Hs & Hl) He Ha Hoe Hw Hss Hr Hle Hok. split_and!; [done| |done|lia]. destruct He as (Hwm & Hm & _).
  split_and!.
  - intros q db. rewrite Ha, Hoe, Hw. apply Ho.
  - intros Hwarm token db. rewrite Hss, Ha. apply Hs. congruence.
  - unfold within_limit in *. rewrite Hm, Hss, Hr. lia.
Qed.

(** Every step of a request keeps what holds of the pool. *)
Definition step_ok (p p' : SessionPool) (r r' : request) : Prop :=
  evolves p p' ∧ pool_ok p' ∧ request_ok p' r' ∧ reserved p' - slot r' = reserved p - slot r.

Ltac quiet := apply quiet_step; try done; try (cbn; lia); by eapply request_ok_evolves.

Lemma same_step p r r' : pool_ok p → slot r' = slot r → request_ok p r' → step_ok p p r r'.
Proof. intros Hp Hs Hr. pose proof (evolves_refl p). quiet. Qed.

Lemma give_back p r r' : pool_ok p → slot r = 1 → slot r' = 0 → request_ok p r' →
  step_ok p (set_sessions (sessions p) (reserved p - 1) p) r r'.
Proof.
  intros Hp Hs Hs' Hr. assert (evolves p (set_sessions (sessions p) (reserved p - 1) p)) as He by by apply evolves_same.
  quiet.
Qed.

Lemma set_dbs_step w f pr ds p r r' : pool_ok p → slot r' = slot r → request_ok p r' → step_ok p (set_dbs w f pr ds p) r r'.
Proof.
  intros Hp Hs Hr. assert (evolves p (set_dbs w f pr ds p)) as He by by apply evolves_same.
  quiet.
Qed.

Lemma on_db_step {A} db (m : X A) p res p' r r' : pool_ok p → on_db db m p = Some (res, p') → slot r' = slot r →
  request_ok p r' → step_ok p p' r r'.
Proof.
  intros Hp Hd Hs Hr. apply on_db_keeps in Hd as (He & Ha & Ho & Hw & Hss & Hrs).
  quiet.
Qed.

Lemma commit_step p p' r r' : pool_ok p → evolves p p' → owner_ok p' → sessions p' = sessions p → reserved p' = reserved p →
  slot r' = slot r → request_ok p' r' → step_ok p p' r r'.
Proof.
  intros (Ho & Hss & Hl) He Ho' Hs' Hres Hsl Hr. split_and!; [done| |done|lia]. destruct He as (Hw' & Hm & Ha). split_and!; [done| |].
  - intros Hw token db' Ht. rewrite Hw' in Hw. rewrite Hs' in Ht. destruct (Hss Hw _ _ Ht) as (q & (q' & ? & _)%Ha). by exists q'.
  - unfold within_limit in *. by rewrite Hm, Hs', Hres.
Qed.

Lemma activation_step s r p r' p' : pool_ok p → request_ok p r → request_step s r p = Some (r', p') →
  match r with SReceived _ _ | SWaiting _ | SFallingBack _ | SConnecting _ _ | SConfiguring _ _ | SRegistering _ _ | SReplied _ | DReceived _ _ | DReplied _ => False | _ => True end →
  step_ok p p' r r'.
Proof.
  intros Hp Hr Hs Hk. pose proof Hp as (Ho & Hss & Hl).
  destruct r as [payload|payload|payload|payload db stage|payload db|payload|payload db|payload db|payload| | | | | | | | | |]; try done; cbn in Hs; unfold doActivateTenant, activation_db, attach_catalogs, reuse_inspect, reuse_refresh_s3, reuse_refresh_iceberg in Hs.
  - destruct (bool_decide (_ = "")); [simplify_eq; by apply same_step|].
    destruct (activation p) as [[q db]|]; [destruct (bool_decide (OrgID q ≠ _))|]; simplify_eq; by apply same_step.
  - simplify_eq. destruct (check_ok payload p' Ho) as [Hc Hk']. apply same_step; [done| |done]. by destruct (activate_check payload p').
  - destruct (warmupDone p); [|done]. cbn in Hs.
    destruct (warmupDB p); [simplify_eq; by apply same_step|]. destruct (fallbackDB p); [simplify_eq; by apply set_dbs_step|].
    destruct (opened s); simplify_eq; [by apply set_dbs_step|by apply same_step].
  - destruct (on_db _ _ _) as [[res p1]|] eqn:Ed; [|done]. cbn in Hs. injection Hs as <- <-.
    eapply on_db_step; [done|exact Ed|..]; by destruct res; [|destruct (next_stage stage)].
  - destruct (activate_commit payload db p) as [ok p1] eqn:Ec. injection Hs as <- <-.
    apply commit_ok in Ec as (He & Ho' & Hr' & Hs' & Hres); [|done].
    by eapply commit_step.
  - destruct (activation p) as [[q db]|] eqn:Ea; [|simplify_eq; by apply same_step].
    destruct (negb (may_replace q payload)); [simplify_eq; by apply same_step|].
    destruct (negb (needsRefresh q payload)); simplify_eq; apply same_step; try done; by repeat case_match.
  - destruct (on_db _ _ _) as [[res p1]|] eqn:Ed; [|done]. cbn in Hs. injection Hs as <- <-.
    eapply on_db_step; [done|exact Ed|..]; by destruct res; [|case_match].
  - destruct (on_db _ _ _) as [[res p1]|] eqn:Ed; [|done]. cbn in Hs. injection Hs as <- <-.
    eapply on_db_step; [done|exact Ed|..]; by destruct res.
  - destruct (reuse_commit payload p) as [ok p1] eqn:Ec. injection Hs as <- <-.
    apply reuse_commit_ok in Ec as (He & Ho' & Hr' & Hs' & Hres); [|done].
    by eapply commit_step.
Qed.

Lemma size_insert_le (m : gmap string nat) k v : (size (<[k := v]> m) ≤ S (size m))%nat.
Proof. destruct (m !! k) eqn:E; [rewrite map_size_insert_Some by done; lia|rewrite map_size_insert_None by done; lia]. Qed.
Lemma size_delete_le (m : gmap string nat) k : (size (delete k m) ≤ size m)%nat.
Proof. destruct (m !! k) eqn:E; [rewrite map_size_delete_Some by done; lia|rewrite map_size_delete_None by done; lia]. Qed.

(** A slot is taken only when there is room. *)
Lemma take_slot p user m : pool_ok p → (sharedWarmMode p = true → is_Some (activation p)) →
  bool_decide (0 < maxSessions p) && bool_decide (maxSessions p ≤ Z.of_nat (size (sessions p)) + reserved p) = false →
  step_ok p (set_sessions (sessions p) (reserved p + 1) p) (SReceived user m) (SWaiting user).
Proof.
  intros (Ho & Hs & Hl) Ha Hg. split_and!; [by apply evolves_same|split_and!; [done|done|]|done|cbn; lia].
  unfold within_limit in *. cbn. intros Hm. rewrite bool_decide_eq_true_2 in Hg by done. cbn in Hg. to_prop. lia.
Qed.

Lemma register_session_step p user db token : pool_ok p → request_ok p (SRegistering user db) →
  step_ok p (set_sessions (<[token := db]> (sessions p)) (reserved p - 1) p) (SRegistering user db) (SReplied (Some token)).
Proof.
  intros (Ho & Hs & Hl) Hr. split_and!; [by apply evolves_same|split_and!; [done| |]|done|cbn; lia].
  - intros Hw token' db'. cbn. destruct (decide (token' = token)) as [->|].
    + rewrite lookup_insert_eq. intros [= <-]. by apply Hr.
    + rewrite lookup_insert_ne by done. by apply Hs.
  - unfold within_limit in *. cbn. intros Hm. specialize (Hl Hm). pose proof (size_insert_le (sessions p) token db). lia.
Qed.

Lemma destroy_step p token m : pool_ok p →
  step_ok p (set_sessions (delete token (sessions p)) (reserved p) p) (DReceived token m) (DReplied true).
Proof.
  intros (Ho & Hs & Hl). split_and!; [by apply evolves_same|split_and!; [done| |]|done|cbn; lia].
  - intros Hw token' db'. cbn. intros [_ Ht]%lookup_delete_Some. by apply (Hs Hw token').
  - unfold within_limit in *. cbn. intros Hm. specialize (Hl Hm). pose proof (size_delete_le (sessions p) token). lia.
Qed.

Lemma fall_back_step s p user r' p' : pool_ok p → sharedWarmMode p = false → request_step s (SFallingBack user) p = Some (r', p') →
  step_ok p p' (SFallingBack user) r'.
Proof.
  intros Hp Hw. cbn. unfold session_fallback, session_refused. set (p1 := init_fallback s p).
  assert (step_ok p p1 (SFallingBack user) (SFallingBack user) ∧ sharedWarmMode p1 = false) as [(He & Hp1 & _ & Hres) Hw1].
  { unfold p1, init_fallback. destruct (dbInitOnce p); [by split; [apply same_step|]|].
    destruct (opened s); (split; [|done]); (apply quiet_step; try done; [by apply evolves_same|cbn; lia]). }
  cbn in Hres. clearbody p1. intros Hs.
  assert (step_ok p1 p' (SFallingBack user) r') as (He2 & Hp2 & Hr2 & Hres2).
  { destruct (fallbackErr p1); [simplify_eq; by apply give_back|]. destruct (fallbackDB p1); simplify_eq; [|by apply give_back].
    apply same_step; [done|done|]. cbn. congruence. }
  split_and!; [by eapply evolves_trans|done|done|cbn in *; lia].
Qed.

Lemma session_step s r p r' p' : pool_ok p → request_ok p r → request_step s r p = Some (r', p') →
  match r with SReceived _ _ | SWaiting _ | SFallingBack _ | SConnecting _ _ | SConfiguring _ _ | SRegistering _ _ | SReplied _ | DReceived _ _ | DReplied _ => True | _ => False end →
  step_ok p p' r r'.
Proof.
  intros Hp Hr Hs Hk.
  destruct r as [| | | | | | | | | |user m|user|user|user db|user db|user db| |token m|]; try done; [| |by eapply fall_back_step|..];
    cbn in Hs; unfold doCreateSession, session_db, session_refused, doDestroySession in Hs.
  - destruct (bool_decide (user = "")); [simplify_eq; by apply same_step|].
    destruct (negb (validateControlMetadata m p)); [simplify_eq; by apply same_step|].
    destruct (sharedWarmMode p && bool_decide (activation p = None)) eqn:Ea; [simplify_eq; by apply same_step|].
    destruct (negb (sharedWarmMode p) && _); [simplify_eq; by apply same_step|].
    destruct (bool_decide (0 < maxSessions p) && _) eqn:Eg; simplify_eq; [by apply same_step|].
    apply take_slot; [done| |done]. intros Hw. rewrite Hw in Ea. cbn in Ea. to_prop. by destruct (activation p).
  - cbn in Hr. destruct (warmupDone p); [|done]. cbn in Hs. unfold activeSharedDB in Hs.
    destruct (sharedWarmMode p) eqn:Ew; cbn in Hs.
    + destruct (Hr eq_refl) as [[q db] Ha]. rewrite Ha in Hs. cbn in Hs. simplify_eq. apply same_step; [done|done|]. cbn. by eexists.
    + destruct (warmupDB p); [simplify_eq; apply same_step; try done; cbn; congruence|].
      destruct (currentSessionConfig p); simplify_eq; [by apply same_step|by apply give_back].
  - cbn in Hs. destruct (conn_ok s); simplify_eq; [by apply same_step|by apply give_back].
  - cbn in Hs. destruct (currentSessionConfig p); simplify_eq; [by apply same_step|by apply give_back].
  - cbn in Hs. simplify_eq. by apply register_session_step.
  - cbn in Hs. destruct (bool_decide (token = "")); [simplify_eq; by apply same_step|].
    destruct (negb (validateControlMetadata m p)); [simplify_eq; by apply same_step|].
    destruct (sessions p !! token); simplify_eq; [by apply destroy_step|by apply same_step].
Qed.

Lemma request_step_ok s r p r' p' : pool_ok p → request_ok p r → request_step s r p = Some (r', p') → step_ok p p' r r'.
Proof.
  intros Hp Hr Hs. destruct r; first [by eapply activation_step|by eapply session_step].
Qed.

(** * The worker's invariant *)

Lemma zsum_insert l i x y : l !! i = Some x → zsum (<[i := y]> l) = zsum l - x + y.
Proof.
  revert i. induction l as [|z l IH]; intros [|i] Hi; [done|done| |].
  - injection Hi as ->. cbn [insert list_insert]. rewrite !zsum_cons. lia.
  - change (<[S i := y]> (z :: l)) with (z :: <[i := y]> l). rewrite !zsum_cons, (IH i) by done. lia.
Qed.

Lemma close_all_ok p : pool_ok p → evolves p (close_all p) ∧ pool_ok (close_all p) ∧ reserved (close_all p) = reserved p.
Proof.
  intros (Ho & Hs & Hl). unfold close_all. cbn.
  destruct (activePair p); (split_and!; [by apply evolves_same|split_and!; [done|done|]|done]);
    intros Hm; specialize (Hl Hm); cbn; rewrite map_size_empty; lia.
Qed.

Record worker_ok (w : worker) : Prop := {
  ok_pool : pool_ok (pool w);
  ok_requests : Forall (request_ok (pool w)) (requests w);
  ok_slots : reserved (pool w) = zsum (slot <$> requests w);
}.

Lemma worker_step_ok e w w' : worker_ok w → worker_step e w = Some w' → worker_ok w' ∧ evolves (pool w) (pool w').
Proof.
  intros [Hp Hr Hn] Hs.
  assert (∀ r, request_ok (pool w) r → slot r = 0 → worker_ok (receive_request r w) ∧ evolves (pool w) (pool (receive_request r w))) as Hrec.
  { intros r Hok Hsl. split; [|apply evolves_refl]. split; cbn; [done|apply Forall_app; by repeat constructor|].
    rewrite fmap_app, zsum_app, Hn. cbn [fmap list_fmap]. rewrite zsum_cons, zsum_nil. lia. }
  destruct e as [payload|user m|token m|i s|s|]; cbn in Hs; try (simplify_eq; by apply Hrec).
  - destruct (requests w !! i) as [r|] eqn:Ei; [|done]. cbn in Hs.
    destruct (request_step s r (pool w)) as [[r' p']|] eqn:Es; [|done]. cbn in Hs. injection Hs as <-.
    pose proof (Forall_lookup_1 _ _ _ _ Hr Ei) as Hri.
    destruct (request_step_ok _ _ _ _ _ Hp Hri Es) as (He & Hp' & Hr' & Hres). split; [|done]. split; cbn; [done| |].
    + apply Forall_insert; [|done]. eapply Forall_impl; [exact Hr|]. intros r0. by apply request_ok_evolves.
    + rewrite list_fmap_insert. rewrite (zsum_insert _ _ (slot r)); [lia|]. by rewrite list_lookup_fmap, Ei.
  - destruct (warmupDone (pool w)); [done|]. injection Hs as <-.
    assert (step_ok (pool w) (warm_up s (pool w)) (DReplied true) (DReplied true)) as (He & Hp' & _ & Hres).
    { unfold warm_up. destruct (opened s); (apply quiet_step; try done; [by apply evolves_same|cbn; lia]). }
    split; [|done]. split; cbn; [done| |cbn in Hres; lia].
    eapply Forall_impl; [exact Hr|]. intros r0. by apply request_ok_evolves.
  - injection Hs as <-. destruct (close_all_ok _ Hp) as (He & Hp' & Hres). split; [|done]. split; cbn; [done| |congruence].
    eapply Forall_impl; [exact Hr|intros r0; by apply request_ok_evolves].
Qed.

Lemma worker_reachable_ok w : worker_reachable w → worker_ok w.
Proof.
  induction 1 as [|e w w' _ IH Hs]; [|by destruct (worker_step_ok _ _ _ IH Hs)].
  split; cbn; [|constructor|done]. split_and!; [by intros q db|by intros _ token db|].
  unfold within_limit. cbn. rewrite map_size_empty. lia.
Qed.

Lemma worker_run_ok es : ∀ w w', worker_ok w → worker_run es w = Some w' → worker_ok w' ∧ evolves (pool w) (pool w').
Proof.
  induction es as [|e es IH]; intros w w' Hw; cbn; [intros [= <-]; split; [done|apply evolves_refl]|].
  destruct (worker_step e w) as [w1|] eqn:Es; cbn; [|done]. intros Hr.
  destruct (worker_step_ok _ _ _ Hw Es) as [Hw1 He1]. destruct (IH _ _ Hw1 Hr) as [Hw' He2].
  split; [done|by eapply evolves_trans].
Qed.

Lemma worker_run_reachable es : ∀ w w', worker_reachable w → worker_run es w = Some w' → worker_reachable w'.
Proof.
  induction es as [|e es IH]; intros w w' Hw; cbn; [by intros [= <-]|].
  destruct (worker_step e w) as [w1|] eqn:Es; cbn; [|done]. apply IH. by eapply worker_next.
Qed.

(** C9. Whatever requests a worker gets and however they interleave, an activation is for
    good: the organisation, its catalogs and the database stay, and the epoch of its owner
    never goes back. A request that is told of success was for that organisation, with an
    epoch no later than the one in force, and every session is on the database that was
    activated. *)
Theorem worker_serves_one_tenant w es w' q db :
  worker_reachable w → worker_run es w = Some w' → activation (pool w) = Some (q, db) →
  ∃ q', activation (pool w') = Some (q', db) ∧ runtime_fields q' = runtime_fields q ∧
    OwnerEpoch q ≤ OwnerEpoch q' ∧ ownerEpoch (pool w') = OwnerEpoch q' ∧
    (∀ payload, AReplied payload true ∈ requests w' → OrgID payload = OrgID q ∧ OwnerEpoch payload ≤ OwnerEpoch q') ∧
    (sharedWarmMode (pool w') = true → ∀ token db', sessions (pool w') !! token = Some db' → db' = db).
Proof.
  intros Hw%worker_reachable_ok Hr Ha. destruct (worker_run_ok _ _ _ Hw Hr) as [[(Ho & Hs & _) Hq _] (_ & _ & He)].
  destruct (He _ _ Ha) as (q' & Ha' & Hsame & Hle). exists q'. split_and!; [done|done|done|by apply (Ho _ _ Ha')| |].
  - intros payload Hin. rewrite Forall_forall in Hq. destruct (Hq _ Hin) as (q2 & db2 & Ha2 & Hs2 & He2).
    rewrite Ha' in Ha2. injection Ha2 as <- <-. apply same_runtime_org in Hsame, Hs2. split; [congruence|done].
  - intros Hwm token db' Ht. destruct (Hs Hwm _ _ Ht) as (q2 & Ha2). congruence.
Qed.

(** Sessions and the ones being opened stay within the worker's limit, and a request that
    gives up gives its slot back. *)
Theorem worker_sessions_are_bounded w :
  worker_reachable w →
  reserved (pool w) = zsum (slot <$> requests w) ∧
  (0 < maxSessions (pool w) → Z.of_nat (size (sessions (pool w))) + zsum (slot <$> requests w) ≤ maxSessions (pool w)).
Proof. intros [(_ & _ & Hl) _ Hn]%worker_reachable_ok. split; [done|]. by rewrite <- Hn. Qed.
End worker.

(** * Runs *)

(** A DuckDB that keeps the catalogs attached to it and the statement of its S3 secret,
    and refuses some statements. *)
Record toy_duck := { toy_attached : list (string * string); toy_secret : option string; toy_refuses : list string }.

Definition toy_exec (stmt : string) (d : toy_duck) : option error * toy_duck :=
  if existsb (Contains stmt) (toy_refuses d) then (Some {| Error := "connection lost"; ctx_done := false |}, d)
  else if HasPrefix stmt "ATTACH" then
    let name := if Contains stmt " AS ducklake" then "ducklake" else if Contains stmt " AS iceberg" then "iceberg" else "delta" in
    (None, {| toy_attached := (name, stmt) :: toy_attached d; toy_secret := toy_secret d; toy_refuses := toy_refuses d |})
  else if Contains stmt "SECRET ducklake_s3" then
    (None, {| toy_attached := toy_attached d; toy_secret := Some stmt; toy_refuses := toy_refuses d |})
  else (None, d).

Definition toy : DuckDB := {|
  duck := toy_duck; exec := toy_exec;
  count_database name d := Some (Z.of_nat (length (filter (λ c, c.1 = name) (toy_attached d))));
  count_secret name d := Some (match toy_secret d with Some _ => if bool_decide (name = "ducklake_s3") then 1 else 0 | None => 0 end);
  catalog_views d := d;
|}.
Definition ascii : UnicodeCase := {| upper_other := id; lower_other := id |}.

Definition with_iceberg (endpoint : string) : iceberg.Config := {|
  iceberg.Enabled := true; iceberg.Backend := ""; iceberg.Namespace := ""; iceberg.Region := "";
  iceberg.TableBucket := ""; iceberg.LakekeeperEndpoint := endpoint; iceberg.LakekeeperWarehouse := "warehouse";
  iceberg.LakekeeperClientID := ""; iceberg.LakekeeperClientSecret := ""; iceberg.LakekeeperOAuth2ServerURI := "" |}.
Definition payload_for (org : string) (epoch : Z) (dl : ducklake.Config) (ic : iceberg.Config) : ActivationPayload :=
  {| WorkerID := 7; OwnerEpoch := epoch; CPInstanceID := "cp-1"; OrgID := org; DuckLakeCfg := dl; IcebergCfg := ic |}.
Definition nobody : ActivationPayload := payload_for "" 0 no_lake no_iceberg.

Definition quiet_env : attach_env := {| got_sem := true; aws_credentials := None; bundled := λ _, true; checked := ∅ |}.
Definition here (refuses : list string) : surroundings (HD := toy) :=
  {| opened := Some ({| toy_attached := []; toy_secret := None; toy_refuses := refuses |} : duck (DuckDB := toy));
     attach := quiet_env; conn_ok := true; drawn := "token" |}.
Definition proceed (i n : nat) : list (worker_event (H := toy)) := replicate n (Proceed (H := toy) i (here [])).

Definition alpha_lake : ducklake.Config := with_store "postgres:dbname=alpha" "" no_lake.
Definition beta_lake : ducklake.Config := with_store "postgres:dbname=beta" "" no_lake.

(** An activation for alpha fails once its DuckLake catalog is attached; one for beta then
    succeeds, and a session is opened. *)
Definition crossed_run : list (worker_event (H := toy)) :=
  [Warmup (H := toy) (here ["TYPE ICEBERG"]); Activate (H := toy) (payload_for "alpha" 1 alpha_lake (with_iceberg "http://lakekeeper"))]
  ++ proceed 0 6
  ++ [Activate (H := toy) (payload_for "beta" 2 beta_lake no_iceberg)] ++ proceed 1 8
  ++ [CreateSession (H := toy) "beta_user" 7] ++ proceed 2 5.

Definition crossed (w : worker (H := toy)) : bool :=
  match activation (pool w), requests w with
  | Some (q, db), AReplied a false :: AReplied b true :: SReplied (Some token) :: _ =>
      bool_decide (OrgID q = "beta" ∧ OrgID a = "alpha" ∧ sessions (pool w) !! token = Some db)
      && match dbs (pool w) !! db with
         | Some d => bool_decide (toy_attached d = [("ducklake", BuildAttachStmt (activation_config "" (payload_for "alpha" 1 alpha_lake no_iceberg)) false)])
         | None => false
         end
  | _, _ => false
  end.

(** C39. When an activation fails after its catalog was attached, the catalog stays: AttachDuckLake
    takes any catalog of the name for the one it was asked for, so a later activation for
    another organisation succeeds, and its sessions read the first organisation's tables. *)
Theorem failed_activation_leaves_its_catalog : ∃ w : worker (H := toy),
  worker_run (HU := ascii) crossed_run (new_worker (HD := toy) true 0 "" [] nobody) = Some w ∧ crossed w = true.
Proof.
  assert (crossed <$> worker_run (HU := ascii) crossed_run (new_worker (HD := toy) true 0 "" [] nobody) = Some true)
    as (w & Hw & Hc)%fmap_Some by (vm_compute; reflexivity).
  exact (ex_intro _ w (conj Hw (eq_sym Hc))).
Qed.

Definition with_s3 (key : string) (c : ducklake.Config) : ducklake.Config := {|
  ducklake.MetadataStore := ducklake.MetadataStore c; ducklake.RestrictClientSessions := false;
  ducklake.DisableMetadataThreadLocalCache := None; ducklake.ObjectStore := "s3://bucket/lake/"; ducklake.DataPath := "";
  ducklake.DeltaCatalogEnabled := false; ducklake.CfgDeltaCatalogPath := ""; ducklake.S3Provider := "config";
  ducklake.S3Endpoint := ""; ducklake.S3AccessKey := key; ducklake.S3SecretKey := "secret"; ducklake.S3SessionToken := "session";
  ducklake.S3Region := "eu-west-1"; ducklake.S3UseSSL := true; ducklake.S3URLStyle := "vhost"; ducklake.S3Chain := "";
  ducklake.S3Profile := ""; ducklake.AzureProvider := ""; ducklake.AzureAccountName := ""; ducklake.AzureChain := "";
  ducklake.AzureClientID := ""; ducklake.HTTPProxy := ""; ducklake.CheckpointInterval := 0;
  ducklake.DataInliningRowLimit := None; ducklake.Migrate := false; ducklake.SpecVersion := "";
  ducklake.ViaPgBouncer := false; ducklake.ApplicationName := "" |}.

(** A worker behind the cache proxy is activated. *)
Definition proxied_run : list (worker_event (H := toy)) :=
  [Warmup (H := toy) (here []); Activate (H := toy) (payload_for "alpha" 1 (with_s3 "key1" alpha_lake) no_iceberg)] ++ proceed 0 8.
(** Its credentials are renewed. *)
Definition renewal_run : list (worker_event (H := toy)) :=
  [Activate (H := toy) (payload_for "alpha" 2 (with_s3 "key2" alpha_lake) no_iceberg)] ++ proceed 1 5.

(** The last reply, and whether the S3 secret asks for plain HTTP, which the proxy needs. *)
Definition s3_transport (w : worker (H := toy)) : option (option bool * bool * bool) :=
  '(_, db) ← activation (pool w); d ← dbs (pool w) !! db; stmt ← toy_secret d;
  Some (match last (requests w) with Some (AReplied _ ok) => Some ok | _ => None end,
        Contains stmt "USE_SSL false" && Contains stmt "URL_STYLE 'path'", Contains stmt "USE_SSL true").

(** The secret made at activation keeps the traffic plain, so that it goes through the
    cache proxy; the secret made when the credentials are renewed is built from the payload
    as it came, without the override, and asks for TLS. *)
Theorem renewal_leaves_the_proxy : ∃ w1 w2 : worker (H := toy),
  worker_run (HU := ascii) proxied_run (new_worker (HD := toy) true 0 "10.0.0.1:8080" [] nobody) = Some w1 ∧
  worker_run (HU := ascii) renewal_run w1 = Some w2 ∧
  s3_transport w1 = Some (Some true, true, false) ∧ s3_transport w2 = Some (Some true, false, true).
Proof.
  assert ((λ w1, (s3_transport w1, s3_transport <$> worker_run (HU := ascii) renewal_run w1)) <$>
          worker_run (HU := ascii) proxied_run (new_worker (HD := toy) true 0 "10.0.0.1:8080" [] nobody)
          = Some (Some (Some true, true, false), Some (Some (Some true, false, true))))
    as (w1 & Hw1 & Hc)%fmap_Some by (vm_compute; reflexivity).
  injection Hc as Hc1 Hc2. symmetry in Hc2. apply fmap_Some in Hc2 as (w2 & Hw2 & Hc2).
  exact (ex_intro _ w1 (ex_intro _ w2 (conj Hw1 (conj Hw2 (conj (eq_sym Hc1) (eq_sym Hc2)))))).
Qed.

(** The credentials of the AWS library and of the credential chain expire without the
    payload changing; a payload that has not changed refreshes nothing. *)
Theorem unchanged_payload_refreshes_nothing current payload :
  DuckLakeCfg current = DuckLakeCfg payload → needsRefresh current payload = false.
Proof. intros E. unfold needsRefresh. rewrite (bool_decide_eq_false_2 (DuckLakeCfg current ≠ DuckLakeCfg payload)), andb_false_r by auto. done. Qed.

Lemma worker_serves_one_tenant_witness : ∃ (w1 w2 : worker (H := toy)) q db q',
  worker_run (HU := ascii) proxied_run (new_worker (HD := toy) true 0 "" [] nobody) = Some w1 ∧
  worker_run (HU := ascii) renewal_run w1 = Some w2 ∧
  activation (pool w1) = Some (q, db) ∧ activation (pool w2) = Some (q', db) ∧ OwnerEpoch q ≤ OwnerEpoch q'.
Proof.
  assert ((λ w1, (fst <$> activation (pool w1), (λ w2, fst <$> activation (pool w2)) <$> worker_run (HU := ascii) renewal_run w1)) <$>
          worker_run (HU := ascii) proxied_run (new_worker (HD := toy) true 0 "" [] nobody)
          = Some (Some (payload_for "alpha" 1 (with_s3 "key1" alpha_lake) no_iceberg),
                  Some (Some (payload_for "alpha" 2 (with_s3 "key2" alpha_lake) no_iceberg))))
    as (w1 & Hw1 & Hc)%fmap_Some by (vm_compute; reflexivity).
  injection Hc as Hc1 Hc2. symmetry in Hc1, Hc2.
  apply fmap_Some in Hc2 as (w2 & Hw2 & _). apply fmap_Some in Hc1 as ([q db] & Ha & _).
  assert (worker_reachable (HU := ascii) w1) as Hreach.
  { eapply worker_run_reachable; [apply worker_new|exact Hw1]. }
  destruct (worker_serves_one_tenant (HU := ascii) w1 renewal_run w2 q db Hreach Hw2 Ha) as (q' & Ha' & _ & He & _).
  exact (ex_intro _ w1 (ex_intro _ w2 (ex_intro _ q (ex_intro _ db (ex_intro _ q' (conj Hw1 (conj Hw2 (conj Ha (conj Ha' He))))))))).
Defined.

Lemma worker_sessions_are_bounded_witness : ∃ w : worker (H := toy),
  worker_run (HU := ascii) crossed_run (new_worker (HD := toy) true 1 "" [] nobody) = Some w ∧
  Z.of_nat (size (sessions (pool w))) + zsum (slot <$> requests w) ≤ 1.
Proof.
  assert ((λ w, maxSessions (pool w)) <$> worker_run (HU := ascii) crossed_run (new_worker (HD := toy) true 1 "" [] nobody) = Some 1)
    as (w & Hw & Hm)%fmap_Some by (vm_compute; reflexivity).
  assert (worker_reachable (HU := ascii) w) as Hreach.
  { eapply worker_run_reachable; [apply worker_new|exact Hw]. }
  destruct (worker_sessions_are_bounded (HU := ascii) w Hreach) as [_ Hb]. rewrite <- Hm in Hb.
  exact (ex_intro _ w (conj Hw (Hb eq_refl))).
Defined.
