(* ===== verification/Warehouse.v ===== *)
(** The configuration an organisation's worker is activated with
    (src/controlplane/shared_worker_activator.go): the connection string of the metadata
    store, the bucket, the credentials brokered for them and the Iceberg catalog. Secrets of
    Kubernetes and roles of AWS are parameters. *)

From Stdlib Require Import Strings.Byte.
From stdpp Require Import prelude gmap strings list fin_maps.
From Stdlib Require Import ZArith Lia.
From S2P Require Import Prelude GoText RuntimeDB Auth DuckLake.

Open Scope string_scope.
Open Scope list_scope.
Open Scope Z_scope.

(** * The connection string *)

(** [strings.NewReplacer] of single bytes works byte by byte. *)
Definition escape_byte (b : byte) : list byte :=
  match b with
  | x5c | x20 | x27 | x22 => [x5c; b]
  | x09 => [x5c; x74]
  | x0a => [x5c; x6e]
  | x0d => [x5c; x72]
  | _ => [b]
  end.
Definition escapeDuckLakeConnStringValue (value : list byte) : list byte := value ≫= escape_byte.

Definition dsn_params (host : list byte) (port : Z) (username password database : list byte) : list (list byte * list byte) :=
  [(bytes "host", escapeDuckLakeConnStringValue host); (bytes "port", bytes (fmt_d port));
   (bytes "user", escapeDuckLakeConnStringValue username); (bytes "password", escapeDuckLakeConnStringValue password);
   (bytes "dbname", escapeDuckLakeConnStringValue database)].
Definition write_param (p : list byte * list byte) : list byte := p.1 ++ [x3d] ++ p.2.
Definition dsn_body (host : list byte) (port : Z) (username password database : list byte) : list byte :=
  join [x20] (write_param <$> dsn_params host port username password database).
Definition buildDuckLakeMetadataStoreDSN (host : list byte) (port : Z) (username password database : list byte) : list byte :=
  bytes "postgres:" ++ dsn_body host port username password database.

(** * The bucket *)

Fixpoint trim_left (c : byte) (l : list byte) : list byte :=
  match l with
  | b :: l' => if bool_decide (b = c) then trim_left c l' else l
  | [] => []
  end.
Definition trim (c : byte) (l : list byte) : list byte := reverse (trim_left c (reverse (trim_left c l))).

Definition buildManagedWarehouseObjectStore (bucket pathPrefix : list byte) : list byte :=
  match bucket with
  | [] => []
  | _ => match trim x2f pathPrefix with
         | [] => bytes "s3://" ++ bucket ++ bytes "/"
         | prefix => bytes "s3://" ++ bucket ++ bytes "/" ++ prefix ++ bytes "/"
         end
  end.

(** * Ducklings *)

Record DucklingStatus := {
  ms_Endpoint : string;
  ms_PgBouncerEndpoint : string;
  ms_Password : string;
  ms_User : string;
  ms_Database : string;
  ds_BucketName : string;
  ds_S3Region : string;
  IAMRoleARN : string;
}.

Record AssumedCredentials := { AccessKeyID : string; SecretAccessKey : string; SessionToken : string; Expiration : time }.

Inductive warehouse_error :=
  | ResolveFailed | NoPassword | NoBucket | BadEndpoint | BadPort | NoEndpoint | NoRole | NoBroker | AssumeRoleFailed
  | RefIncomplete | RefWithoutNamespace | SecretMissing | KeyMissing.

(** The port of an address that [net.SplitHostPort] accepts. *)
Definition port_of (hostport : list byte) : list byte :=
  match last_index_byte x3a hostport with Some i => drop (S i) hostport | None => [] end.

Definition ducklingMetadataStoreAddress (status : DucklingStatus) : string * Z * bool + warehouse_error :=
  if bool_decide (ms_PgBouncerEndpoint status ≠ "") then
    match SplitHostPort (bytes (ms_PgBouncerEndpoint status)) with
    | None => inr BadEndpoint
    | Some h =>
        let '(portNum, ok) := ParseInt 64 (str (port_of (bytes (ms_PgBouncerEndpoint status)))) in
        if ok : bool then inl (str h, portNum, true) else inr BadPort
    end
  else if bool_decide (ms_Endpoint status = "") then inr NoEndpoint
  else inl (ms_Endpoint status, 5432, false).

Definition duckling_lake (store bucket region : string) (viaPgBouncer : bool) (creds : AssumedCredentials) : ducklake.Config := {|
  ducklake.MetadataStore := store; ducklake.RestrictClientSessions := false;
  ducklake.DisableMetadataThreadLocalCache := None; ducklake.ObjectStore := "s3://" +:+ bucket +:+ "/"; ducklake.DataPath := "";
  ducklake.DeltaCatalogEnabled := false; ducklake.CfgDeltaCatalogPath := ""; ducklake.S3Provider := "config";
  ducklake.S3Endpoint := ""; ducklake.S3AccessKey := AccessKeyID creds; ducklake.S3SecretKey := SecretAccessKey creds;
  ducklake.S3SessionToken := SessionToken creds; ducklake.S3Region := region; ducklake.S3UseSSL := true;
  ducklake.S3URLStyle := "vhost"; ducklake.S3Chain := ""; ducklake.S3Profile := ""; ducklake.AzureProvider := "";
  ducklake.AzureAccountName := ""; ducklake.AzureChain := ""; ducklake.AzureClientID := ""; ducklake.HTTPProxy := "";
  ducklake.CheckpointInterval := 0; ducklake.DataInliningRowLimit := None; ducklake.Migrate := false;
  ducklake.SpecVersion := ""; ducklake.ViaPgBouncer := viaPgBouncer; ducklake.ApplicationName := "" |}.

Section activator.
(** The custom resource of an organisation, STS, and the secrets by namespace and name. *)
Context (resolveDucklingStatus : string → option DucklingStatus)
        (AssumeRole : option (string → option AssumedCredentials))
        (get_secret : string → string → option (gmap string string * gmap string string)).

Definition buildDuckLakeConfigFromDuckling (orgID : string) : ducklake.Config * time + warehouse_error :=
  match resolveDucklingStatus orgID with
  | None => inr ResolveFailed
  | Some status =>
      if bool_decide (ms_Password status = "") then inr NoPassword else
      if bool_decide (ds_BucketName status = "") then inr NoBucket else
      match ducklingMetadataStoreAddress status with
      | inr e => inr e
      | inl (host, port, viaPgBouncer) =>
          let store := str (buildDuckLakeMetadataStoreDSN (bytes host) port (bytes (ms_User status)) (bytes (ms_Password status))
                              (bytes (ms_Database status))) in
          if bool_decide (IAMRoleARN status = "") then inr NoRole else
          match AssumeRole with
          | None => inr NoBroker
          | Some assume =>
              match assume (IAMRoleARN status) with
              | None => inr AssumeRoleFailed
              | Some creds => inl (duckling_lake store (ds_BucketName status) (ds_S3Region status) viaPgBouncer creds, Expiration creds)
              end
          end
      end
  end.

(** * Secrets and the Iceberg catalog *)

Record SecretRef := { ref_Namespace : string; ref_Name : string; ref_Key : string }.
Record ManagedWarehouseIceberg := {
  src_Enabled : bool;
  src_Backend : string;
  src_Namespace : string;
  src_Region : string;
  src_TableBucketArn : string;
  src_LakekeeperEndpoint : string;
  src_LakekeeperWarehouse : string;
  src_LakekeeperClientID : string;
  src_LakekeeperOAuth2ServerURI : string;
  src_LakekeeperClientCredentials : SecretRef;
}.

Definition readSecretValue (ref : SecretRef) : string + warehouse_error :=
  if bool_decide (TrimSpace (ref_Name ref) = "") || bool_decide (TrimSpace (ref_Key ref) = "") then inr RefIncomplete else
  let namespace := TrimSpace (ref_Namespace ref) in
  if bool_decide (namespace = "") then inr RefWithoutNamespace else
  match get_secret namespace (TrimSpace (ref_Name ref)) with
  | None => inr SecretMissing
  | Some (stringData, data) =>
      let key := TrimSpace (ref_Key ref) in
      match stringData !! key, data !! key with
      | Some value, raw => if bool_decide (value ≠ "") then inl value else match raw with Some r => inl r | None => inr KeyMissing end
      | None, Some raw => inl raw
      | None, None => inr KeyMissing
      end
  end.

Definition lakekeeper_config (src : ManagedWarehouseIceberg) (secret : string) : iceberg.Config := {|
  iceberg.Enabled := src_Enabled src; iceberg.Backend := src_Backend src; iceberg.Namespace := src_Namespace src;
  iceberg.Region := src_Region src; iceberg.TableBucket := ""; iceberg.LakekeeperEndpoint := src_LakekeeperEndpoint src;
  iceberg.LakekeeperWarehouse := src_LakekeeperWarehouse src; iceberg.LakekeeperClientID := src_LakekeeperClientID src;
  iceberg.LakekeeperClientSecret := secret; iceberg.LakekeeperOAuth2ServerURI := src_LakekeeperOAuth2ServerURI src |}.
Definition plain_iceberg (src : ManagedWarehouseIceberg) (bucket : string) : iceberg.Config := {|
  iceberg.Enabled := src_Enabled src; iceberg.Backend := src_Backend src; iceberg.Namespace := src_Namespace src;
  iceberg.Region := src_Region src; iceberg.TableBucket := bucket; iceberg.LakekeeperEndpoint := "";
  iceberg.LakekeeperWarehouse := ""; iceberg.LakekeeperClientID := ""; iceberg.LakekeeperClientSecret := "";
  iceberg.LakekeeperOAuth2ServerURI := "" |}.

Definition buildIcebergConfig (src : ManagedWarehouseIceberg) : iceberg.Config + warehouse_error :=
  let backend := iceberg.ResolvedBackend (plain_iceberg src "") in
  if bool_decide (backend = iceberg.BackendLakekeeper) then
    if bool_decide (ref_Name (src_LakekeeperClientCredentials src) ≠ "") then
      match readSecretValue (src_LakekeeperClientCredentials src) with
      | inl val => inl (lakekeeper_config src val)
      | inr e => inr e
      end
    else inl (lakekeeper_config src "")
  else if bool_decide (backend = iceberg.BackendS3Tables) then inl (plain_iceberg src (src_TableBucketArn src))
  else inl (plain_iceberg src "").
End activator.

(** * What is read back *)

(** A value a connection string can carry as it is. *)
Definition word (v : list byte) : bool :=
  match v with b :: _ => negb (bool_decide (b = x27)) | [] => false end && forallb (λ b, negb (is_blank b)) v.

Lemma parse_word fuel p rest : key_ok p.1 = true → word p.2 = true → param_end rest = true →
  parse_params (S fuel) (write_param p ++ rest) = cons_param p (parse_params fuel rest).
Proof.
  intros Hk Hv Hr. destruct p as [key v]. unfold write_param. cbn [fst snd] in *.
  destruct key as [|b key]; [done|]. unfold key_ok in Hk. apply andb_true_iff in Hk as [Hb Hk]. apply negb_true_iff in Hb.
  destruct v as [|c v]; [done|]. apply andb_true_iff in Hv as [Hq Hv]. apply negb_true_iff, bool_decide_eq_false in Hq.
  assert (is_blank c = false) as Hc. { cbn in Hv. apply andb_true_iff in Hv as [Hc _]. by apply negb_true_iff. }
  rewrite <- !app_assoc. cbn [parse_params app]. rewrite skip_space_id by done.
  change (b :: key ++ x3d :: c :: v ++ rest) with ((b :: key) ++ x3d :: c :: v ++ rest).
  rewrite scan_until_app by done. rewrite skip_space_id by done. rewrite bool_decide_eq_true_2 by done. cbn [negb].
  rewrite skip_space_id by done. rewrite bool_decide_eq_false_2 by done.
  change (c :: v ++ rest) with ((c :: v) ++ rest). by rewrite scan_word.
Qed.

Lemma parse_words ps : ∀ fuel, Forall (λ p, key_ok p.1 = true ∧ word p.2 = true) ps →
  parse_params (length ps + S fuel) (join [x20] (write_param <$> ps)) = inr ps.
Proof.
  induction ps as [|p ps IH]; intros fuel Hps; [done|]. apply Forall_cons in Hps as [[Hk Hv] Hps].
  destruct ps as [|p' ps].
  - change (join [x20] (write_param <$> [p])) with (write_param p). rewrite <- (app_nil_r (write_param p)).
    change (length [p] + S fuel)%nat with (S (S fuel)). by rewrite parse_word.
  - change (join [x20] (write_param <$> p :: p' :: ps)) with (write_param p ++ x20 :: join [x20] (write_param <$> p' :: ps)).
    change (length (p :: p' :: ps) + S fuel)%nat with (S (length (p' :: ps) + S fuel)). rewrite parse_word by done.
    replace (parse_params (length (p' :: ps) + S fuel) (x20 :: join [x20] (write_param <$> p' :: ps)))
      with (parse_params (length (p' :: ps) + S fuel) (join [x20] (write_param <$> p' :: ps))) by done.
    by rewrite IH.
Qed.

Lemma join_length ps : (length ps ≤ length (join [x20] (write_param <$> ps)))%nat.
Proof.
  induction ps as [|p ps IH]; [done|]. destruct ps as [|p' ps]; [cbn; unfold write_param; rewrite !length_app; cbn; lia|].
  change (join [x20] (write_param <$> p :: p' :: ps)) with (write_param p ++ [x20] ++ join [x20] (write_param <$> p' :: ps)).
  rewrite !length_app. cbn [length] in *. lia.
Qed.

Lemma parse_written ps : Forall (λ p, key_ok p.1 = true ∧ word p.2 = true) ps →
  parseLibpqParams (join [x20] (write_param <$> ps)) = inr ps.
Proof.
  intros Hps. unfold parseLibpqParams. pose proof (join_length ps).
  set (s := join [x20] (write_param <$> ps)) in *.
  rewrite (parse_params_fuel _ (length ps + S (length s)) s) by lia. by apply parse_words.
Qed.

(** The bytes that are escaped. *)
Definition special (b : byte) : bool := negb (bool_decide (escape_byte b = [b])).

Lemma escape_byte_no_blank b : b ≠ x20 → forallb (λ b, negb (is_blank b)) (escape_byte b) = true.
Proof. intros Hb. by destruct b. Qed.
Lemma escape_word v : v ≠ [] → x20 ∉ v → word (escapeDuckLakeConnStringValue v) = true.
Proof.
  intros Hne Hv. unfold word. apply andb_true_iff. split.
  - destruct v as [|b v]; [done|]. unfold escapeDuckLakeConnStringValue. cbn. by destruct b.
  - clear Hne. induction v as [|b v IH]; [done|]. apply not_elem_of_cons in Hv as [Hb Hv].
    unfold escapeDuckLakeConnStringValue in *. cbn. rewrite forallb_app, escape_byte_no_blank by done. by apply IH.
Qed.

Lemma escape_length b : (1 ≤ length (escape_byte b))%nat ∧ (length (escape_byte b) = 1%nat → escape_byte b = [b]).
Proof. by destruct b; cbn; split; try lia. Qed.
Lemma escape_id v : escapeDuckLakeConnStringValue v = v ↔ Forall (λ b, special b = false) v.
Proof.
  unfold escapeDuckLakeConnStringValue. split.
  - assert (∀ w : list byte, (length w ≤ length (w ≫= escape_byte))%nat) as Hlen.
    { induction w as [|b w IH]; cbn; [done|]. rewrite length_app. pose proof (escape_length b). lia. }
    induction v as [|b v IH]; [by constructor|]. cbn. intros Heq. pose proof (f_equal length Heq) as Hl.
    rewrite length_app in Hl. cbn in Hl. specialize (Hlen v). destruct (escape_length b) as [H1 H2].
    assert (escape_byte b = [b]) as Hb by (apply H2; lia). constructor; [unfold special; by rewrite bool_decide_eq_true_2|].
    rewrite Hb in Heq. injection Heq as Heq. by apply IH.
  - induction 1 as [|b v Hb _ IH]; [done|]. cbn. apply negb_false_iff, bool_decide_eq_true in Hb. by rewrite Hb, IH.
Qed.

Lemma dec_digits_range fuel : ∀ z, 0 ≤ z → Forall (λ b, 48 ≤ byte_val b ≤ 57) (dec_digits fuel z).
Proof.
  assert (∀ d, 0 ≤ d ≤ 9 → 48 ≤ byte_val (digit d) ≤ 57) as Hd.
  { intros d Hd. unfold digit. rewrite byte_val_of_Z, Z.mod_small by lia. lia. }
  induction fuel as [|fuel IH]; intros z Hz; cbn [dec_digits]; [by constructor|]. case_bool_decide as H10.
  - constructor; [apply Hd; lia|constructor].
  - apply Forall_app. split; [apply IH, Z.div_pos; lia|]. pose proof (Z.mod_pos_bound z 10). constructor; [apply Hd; lia|constructor].
Qed.
Lemma not_blank b : 33 ≤ byte_val b → is_blank b = false.
Proof.
  intros Hb. apply bool_decide_eq_false. intros Hin. unfold blanks in Hin.
  repeat apply elem_of_cons in Hin as [->|Hin]; [by vm_compute in Hb..|]. by apply not_elem_of_nil in Hin.
Qed.

Lemma port_is_word z : word (bytes (fmt_d z)) = true.
Proof.
  unfold fmt_d. rewrite bytes_str. set (n := Z.abs z).
  assert (Forall (λ b, 48 ≤ byte_val b ≤ 57) (dec_digits (S (Z.to_nat (Z.log2 n))) n)) as Hds by (apply dec_digits_range; lia).
  assert (forallb (λ b, negb (is_blank b)) (dec_digits (S (Z.to_nat (Z.log2 n))) n) = true) as Hb.
  { apply forallb_forall. intros b Hin%list_elem_of_In. rewrite Forall_forall in Hds. rewrite not_blank; [done|]. specialize (Hds b Hin). lia. }
  destruct (dec_digits_nonempty (Z.to_nat (Z.log2 n)) n ltac:(lia)) as (b & l & Heq & d & Hd & Hdig).
  rewrite Heq in *. unfold word. destruct (bool_decide (z < 0)).
  { change (forallb _ (x2d :: b :: l)) with (negb (is_blank x2d) && forallb (λ b, negb (is_blank b)) (b :: l)). by rewrite Hb. }
  rewrite Hb, andb_true_r. apply negb_true_iff, bool_decide_eq_false. intros ->. apply Forall_cons in Hds as [Hr _]. change (byte_val x27) with 39 in Hr. lia.
Qed.

Lemma read_dsn host port username password database :
  Forall (λ v, v ≠ [] ∧ x20 ∉ v) [host; username; password; database] →
  parseLibpqParams (dsn_body host port username password database) = inr (dsn_params host port username password database).
Proof.
  intros Hvs. apply parse_written. unfold dsn_params.
  rewrite !Forall_cons in Hvs. destruct Hvs as ([? ?] & [? ?] & [? ?] & [? ?] & _).
  repeat constructor; cbn [fst snd]; try done; try apply port_is_word; by apply escape_word.
Qed.

(** The connection string is read, by the code that takes the credentials out of it for
    restricted sessions, with the escapes still in the values. So a password is read back
    exactly when none of its bytes needed an escape. *)
Theorem warehouse_password_is_misread host port username password database :
  Forall (λ v, v ≠ [] ∧ x20 ∉ v) [host; username; password; database] →
  (∃ ps, parseLibpqParams (dsn_body host port username password database) = inr ps ∧ (bytes "password", password) ∈ ps)
  ↔ Forall (λ b, special b = false) password.
Proof.
  intros Hvs. rewrite <- escape_id, (read_dsn _ _ _ _ _ Hvs). split.
  - intros (ps & [= <-] & Hin). unfold dsn_params in Hin. repeat apply elem_of_cons in Hin as [Hin|Hin]; try (by injection Hin).
    by apply not_elem_of_nil in Hin.
  - intros He. eexists. split; [done|]. unfold dsn_params. rewrite He. do 3 right. left.
Qed.

(** With a blank in the password nothing can be read at all. *)
Theorem blank_in_password_breaks_the_dsn :
  parseLibpqParams (dsn_body (bytes "db") 5432 (bytes "lake") (bytes "pass word") (bytes "meta"))
  = inl (ExpectedKeyValue (bytes "word dbname=meta")).
Proof. by vm_compute. Qed.

(** * The Iceberg catalog *)

(** The payload has the fields of the backend that is selected and no others, and depends on
    no secret but the one the Lakekeeper credentials name, and on that one for Lakekeeper only. *)
Theorem iceberg_payload_is_its_backends get src ic : buildIcebergConfig get src = inl ic →
  iceberg.Backend ic = src_Backend src ∧
  (iceberg.ResolvedBackend ic ≠ iceberg.BackendS3Tables → iceberg.TableBucket ic = "") ∧
  (iceberg.ResolvedBackend ic ≠ iceberg.BackendLakekeeper →
     iceberg.LakekeeperEndpoint ic = "" ∧ iceberg.LakekeeperClientID ic = "" ∧ iceberg.LakekeeperClientSecret ic = "" ∧
     ∀ get', buildIcebergConfig get' src = inl ic) ∧
  ∀ get', (let ref := src_LakekeeperClientCredentials src in
           get' (TrimSpace (ref_Namespace ref)) (TrimSpace (ref_Name ref)) = get (TrimSpace (ref_Namespace ref)) (TrimSpace (ref_Name ref))) →
    buildIcebergConfig get' src = inl ic.
Proof.
  unfold buildIcebergConfig, iceberg.ResolvedBackend. cbn [iceberg.Backend plain_iceberg].
  set (backend := if bool_decide (src_Backend src = "") then _ else _).
  destruct (bool_decide (backend = iceberg.BackendLakekeeper)) eqn:Hl.
  - apply bool_decide_eq_true in Hl. destruct (bool_decide (ref_Name _ ≠ "")).
    + unfold readSecretValue. intros Hic.
      assert (iceberg.Backend ic = src_Backend src ∧ iceberg.TableBucket ic = "") as [Hb Ht].
      { repeat (case_match; simplify_eq); by split. }
      rewrite Hb. fold backend. split_and!; [done|by intros _|by rewrite Hl|]. cbn zeta. intros get' ->. exact Hic.
    + intros [= <-]. cbn. fold backend. by rewrite Hl.
  - apply bool_decide_eq_false in Hl. destruct (bool_decide (backend = iceberg.BackendS3Tables)) eqn:Ht; intros [= <-]; cbn; fold backend.
    + apply bool_decide_eq_true in Ht. by rewrite Ht.
    + done.
Qed.
