(* ===== verification/Cluster.v ===== *)
(** A cluster in which control planes share a pool of worker pods: the memory of each
    control plane (the pool of src/controlplane/k8s_pool.go and the workers of
    src/controlplane/worker_mgr.go it points to), the pods with the process of TenantRuntime
    in each, and the runtime tables of RuntimeStore.

    The pool's code runs in goroutines. A program is the sequence of the effects it has on
    this world; threads of programs interleave between effects. What Kubernetes and the
    network answer, the clock and the order in which a map is ranged over come with each
    step, so that every outcome is possible. *)

From Stdlib Require Import Strings.Byte.
From stdpp Require Import prelude gmap strings list fin_maps.
From Stdlib Require Import ZArith Lia.
From S2P Require Import Prelude GoText DuckLake Catalogs RuntimeDB RuntimeStore Lifecycle WorkerState TenantRuntime.

Open Scope string_scope.
Open Scope list_scope.
Open Scope Z_scope.

(** * The memory of a control plane *)

Record TenantActivationPayload := {
  tp_OrgID : string;
  tp_DuckLake : ducklake.Config;
  tp_Iceberg : iceberg.Config;
  tp_ExpiresAt : option time;
}.

(** A worker as a control plane knows it. Its client is a connection to one pod. *)
Record ManagedWorker := {
  mw_ID : Z;
  podName : string;
  nodeName : string;
  image : string;
  client : option nat;
  done : bool;
  activeSessions : Z;
  peakSessions : Z;
  lastUsed : time;
  sharedState : SharedWorkerState;
  reservedAt : time;
  mw_ownerEpoch : Z;
  mw_ownerCP : string;
  hotIdleReclaimed : bool;
  cachedActivationPayload : option TenantActivationPayload;
}.

Definition new_managed (id : Z) (pod node img : string) (c : option nat) (owner : string) (epoch : Z) : ManagedWorker := {|
  mw_ID := id; podName := pod; nodeName := node; image := img; client := c; done := false; activeSessions := 0;
  peakSessions := 0; lastUsed := 0; sharedState := {| WorkerState.Lifecycle := LifecycleUnset; Assignment := None |};
  reservedAt := 0; mw_ownerEpoch := epoch; mw_ownerCP := owner; hotIdleReclaimed := false;
  cachedActivationPayload := None |}.

Definition set_pod (v : string) (w : ManagedWorker) : ManagedWorker := {|
  mw_ID := mw_ID w; podName := v; nodeName := nodeName w; image := image w; client := client w; done := done w;
  activeSessions := activeSessions w; peakSessions := peakSessions w; lastUsed := lastUsed w;
  sharedState := sharedState w; reservedAt := reservedAt w; mw_ownerEpoch := mw_ownerEpoch w;
  mw_ownerCP := mw_ownerCP w; hotIdleReclaimed := hotIdleReclaimed w; cachedActivationPayload := cachedActivationPayload w |}.
Definition set_done (w : ManagedWorker) : ManagedWorker := {|
  mw_ID := mw_ID w; podName := podName w; nodeName := nodeName w; image := image w; client := client w; done := true;
  activeSessions := activeSessions w; peakSessions := peakSessions w; lastUsed := lastUsed w;
  sharedState := sharedState w; reservedAt := reservedAt w; mw_ownerEpoch := mw_ownerEpoch w;
  mw_ownerCP := mw_ownerCP w; hotIdleReclaimed := hotIdleReclaimed w; cachedActivationPayload := cachedActivationPayload w |}.
Definition set_sessions (n peak : Z) (w : ManagedWorker) : ManagedWorker := {|
  mw_ID := mw_ID w; podName := podName w; nodeName := nodeName w; image := image w; client := client w; done := done w;
  activeSessions := n; peakSessions := peak; lastUsed := lastUsed w;
  sharedState := sharedState w; reservedAt := reservedAt w; mw_ownerEpoch := mw_ownerEpoch w;
  mw_ownerCP := mw_ownerCP w; hotIdleReclaimed := hotIdleReclaimed w; cachedActivationPayload := cachedActivationPayload w |}.
Definition set_used (t : time) (w : ManagedWorker) : ManagedWorker := {|
  mw_ID := mw_ID w; podName := podName w; nodeName := nodeName w; image := image w; client := client w; done := done w;
  activeSessions := activeSessions w; peakSessions := peakSessions w; lastUsed := t;
  sharedState := sharedState w; reservedAt := reservedAt w; mw_ownerEpoch := mw_ownerEpoch w;
  mw_ownerCP := mw_ownerCP w; hotIdleReclaimed := hotIdleReclaimed w; cachedActivationPayload := cachedActivationPayload w |}.
Definition set_shared (s : SharedWorkerState) (w : ManagedWorker) : ManagedWorker := {|
  mw_ID := mw_ID w; podName := podName w; nodeName := nodeName w; image := image w; client := client w; done := done w;
  activeSessions := activeSessions w; peakSessions := peakSessions w; lastUsed := lastUsed w;
  sharedState := s; reservedAt := reservedAt w; mw_ownerEpoch := mw_ownerEpoch w;
  mw_ownerCP := mw_ownerCP w; hotIdleReclaimed := hotIdleReclaimed w; cachedActivationPayload := cachedActivationPayload w |}.
Definition set_reserved_at (t : time) (w : ManagedWorker) : ManagedWorker := {|
  mw_ID := mw_ID w; podName := podName w; nodeName := nodeName w; image := image w; client := client w; done := done w;
  activeSessions := activeSessions w; peakSessions := peakSessions w; lastUsed := lastUsed w;
  sharedState := sharedState w; reservedAt := t; mw_ownerEpoch := mw_ownerEpoch w;
  mw_ownerCP := mw_ownerCP w; hotIdleReclaimed := hotIdleReclaimed w; cachedActivationPayload := cachedActivationPayload w |}.
Definition set_lease (owner : string) (epoch : Z) (w : ManagedWorker) : ManagedWorker := {|
  mw_ID := mw_ID w; podName := podName w; nodeName := nodeName w; image := image w; client := client w; done := done w;
  activeSessions := activeSessions w; peakSessions := peakSessions w; lastUsed := lastUsed w;
  sharedState := sharedState w; reservedAt := reservedAt w; mw_ownerEpoch := epoch;
  mw_ownerCP := owner; hotIdleReclaimed := hotIdleReclaimed w; cachedActivationPayload := cachedActivationPayload w |}.
Definition set_reclaimed (w : ManagedWorker) : ManagedWorker := {|
  mw_ID := mw_ID w; podName := podName w; nodeName := nodeName w; image := image w; client := client w; done := done w;
  activeSessions := activeSessions w; peakSessions := peakSessions w; lastUsed := lastUsed w;
  sharedState := sharedState w; reservedAt := reservedAt w; mw_ownerEpoch := mw_ownerEpoch w;
  mw_ownerCP := mw_ownerCP w; hotIdleReclaimed := true; cachedActivationPayload := cachedActivationPayload w |}.
Definition set_cached (p : TenantActivationPayload) (w : ManagedWorker) : ManagedWorker := {|
  mw_ID := mw_ID w; podName := podName w; nodeName := nodeName w; image := image w; client := client w; done := done w;
  activeSessions := activeSessions w; peakSessions := peakSessions w; lastUsed := lastUsed w;
  sharedState := sharedState w; reservedAt := reservedAt w; mw_ownerEpoch := mw_ownerEpoch w;
  mw_ownerCP := mw_ownerCP w; hotIdleReclaimed := hotIdleReclaimed w; cachedActivationPayload := Some p |}.

Definition SharedState (w : ManagedWorker) : SharedWorkerState := cloneSharedWorkerState (sharedState w).
Definition SetSharedState (s : SharedWorkerState) (w : ManagedWorker) : option ManagedWorker :=
  match Validate s with Ret _ => Some (set_shared (cloneSharedWorkerState s) w) | _ => None end.
Definition lifecycle_of (w : ManagedWorker) : WorkerLifecycleState := NormalizedLifecycle (SharedState w).
(** Transition, then SetSharedState; both errors end the caller in the same way. *)
Definition move (next : WorkerLifecycleState) (a : option WorkerAssignment) (w : ManagedWorker) : option ManagedWorker :=
  match Transition (SharedState w) next a with Ret s => SetSharedState s w | _ => None end.

(** A session more. *)
Definition add_session (w : ManagedWorker) : ManagedWorker :=
  let n := activeSessions w + 1 in set_sessions n (Z.max n (peakSessions w)) w.
Definition drop_session (w : ManagedWorker) : ManagedWorker :=
  if bool_decide (0 < activeSessions w) then set_sessions (activeSessions w - 1) (peakSessions w) w else w.

(** workerLeaseSnapshot: worker, owner, epoch *)
Definition lease : Type := Z * string * Z.

(** The pool, with the OrgReservedPools and activators on top of it. [workers] points into
    [heap], where a worker stays when it is taken out of the map. *)
Record pool_memory := {
  cpInstanceID : string;
  cpID : string;
  workerImage : string;
  idleTimeout : Z;
  activatingTimeout : Z;
  defaultSpecVersion : string;
  workers : gmap Z nat;
  heap : list ManagedWorker;
  spawning : Z;
  maxWorkers : Z;
  minWorkers : Z;
  perImageWarmTarget : gmap string Z;
  shuttingDown : bool;
  mu : bool;
  nodeFirstSeen : gmap string time;
  failures : gmap lease Z;
  orgs : gmap string (Z * string);        (** the OrgReservedPools: maxWorkers and image *)
  stacks : gset string;                   (** the ones the router has *)
  migrating : gset string;
  migrationChecked : gmap string bool;
}.

Definition set_workers (ws : gmap Z nat) (h : list ManagedWorker) (k : pool_memory) : pool_memory := {|
  cpInstanceID := cpInstanceID k; cpID := cpID k; workerImage := workerImage k; idleTimeout := idleTimeout k;
  activatingTimeout := activatingTimeout k; defaultSpecVersion := defaultSpecVersion k; workers := ws; heap := h;
  spawning := spawning k; maxWorkers := maxWorkers k; minWorkers := minWorkers k; perImageWarmTarget := perImageWarmTarget k;
  shuttingDown := shuttingDown k; mu := mu k; nodeFirstSeen := nodeFirstSeen k; failures := failures k; orgs := orgs k; stacks := stacks k;
  migrating := migrating k; migrationChecked := migrationChecked k |}.
Definition set_limits (n max min : Z) (targets : gmap string Z) (k : pool_memory) : pool_memory := {|
  cpInstanceID := cpInstanceID k; cpID := cpID k; workerImage := workerImage k; idleTimeout := idleTimeout k;
  activatingTimeout := activatingTimeout k; defaultSpecVersion := defaultSpecVersion k; workers := workers k; heap := heap k;
  spawning := n; maxWorkers := max; minWorkers := min; perImageWarmTarget := targets;
  shuttingDown := shuttingDown k; mu := mu k; nodeFirstSeen := nodeFirstSeen k; failures := failures k; orgs := orgs k; stacks := stacks k;
  migrating := migrating k; migrationChecked := migrationChecked k |}.
Definition set_lock (down m : bool) (k : pool_memory) : pool_memory := {|
  cpInstanceID := cpInstanceID k; cpID := cpID k; workerImage := workerImage k; idleTimeout := idleTimeout k;
  activatingTimeout := activatingTimeout k; defaultSpecVersion := defaultSpecVersion k; workers := workers k; heap := heap k;
  spawning := spawning k; maxWorkers := maxWorkers k; minWorkers := minWorkers k; perImageWarmTarget := perImageWarmTarget k;
  shuttingDown := down; mu := m; nodeFirstSeen := nodeFirstSeen k; failures := failures k; orgs := orgs k; stacks := stacks k;
  migrating := migrating k; migrationChecked := migrationChecked k |}.
Definition set_seen (ns : gmap string time) (fs : gmap lease Z) (k : pool_memory) : pool_memory := {|
  cpInstanceID := cpInstanceID k; cpID := cpID k; workerImage := workerImage k; idleTimeout := idleTimeout k;
  activatingTimeout := activatingTimeout k; defaultSpecVersion := defaultSpecVersion k; workers := workers k; heap := heap k;
  spawning := spawning k; maxWorkers := maxWorkers k; minWorkers := minWorkers k; perImageWarmTarget := perImageWarmTarget k;
  shuttingDown := shuttingDown k; mu := mu k; nodeFirstSeen := ns; failures := fs; orgs := orgs k; stacks := stacks k;
  migrating := migrating k; migrationChecked := migrationChecked k |}.
Definition set_orgs (os : gmap string (Z * string)) (ss : gset string) (ms : gset string) (mc : gmap string bool) (k : pool_memory) : pool_memory := {|
  cpInstanceID := cpInstanceID k; cpID := cpID k; workerImage := workerImage k; idleTimeout := idleTimeout k;
  activatingTimeout := activatingTimeout k; defaultSpecVersion := defaultSpecVersion k; workers := workers k; heap := heap k;
  spawning := spawning k; maxWorkers := maxWorkers k; minWorkers := minWorkers k; perImageWarmTarget := perImageWarmTarget k;
  shuttingDown := shuttingDown k; mu := mu k; nodeFirstSeen := nodeFirstSeen k; failures := failures k; orgs := os; stacks := ss;
  migrating := ms; migrationChecked := mc |}.

(** The worker behind a pointer is changed. *)
Definition update (r : nat) (f : ManagedWorker → ManagedWorker) (k : pool_memory) : pool_memory :=
  set_workers (workers k) (alter f r (heap k)) k.
Definition unlist (id : Z) (k : pool_memory) : pool_memory := set_workers (delete id (workers k)) (heap k) k.
(** A new worker, under its id. *)
Definition enlist (w : ManagedWorker) (k : pool_memory) : pool_memory :=
  set_workers (<[mw_ID w := length (heap k)]> (workers k)) (heap k ++ [w]) k.
Definition add_spawning (n : Z) (k : pool_memory) : pool_memory :=
  set_limits (spawning k + n) (maxWorkers k) (minWorkers k) (perImageWarmTarget k) k.

(** * Pods *)

(** [pod_worker] is the process in it, [pod_org] the active-org label. A deleted pod has
    lost its name, though its process may live on for a while. *)
Record pod `{DuckDB} := {
  pod_name : string;
  pod_deleted : bool;
  pod_node : string;
  pod_image : string;
  pod_id : Z;
  pod_cp : string;
  pod_created : time;
  pod_org : option string;
  pod_worker : worker;
}.

Section cluster.
Context `{HD : DuckDB} `{HU : UnicodeCase} {D : Type} `{HW : World D}.

Record world := { w_db : D; w_pods : list pod; w_cps : gmap string pool_memory }.

(** What one step meets: the clock, the order of a map, whether a call is reported as a
    success, whether it took effect and whether its error is permanent, what an organisation's configuration resolves to,
    the node and the settings of a new pod. *)
Record choice := {
  ch_now : time;
  ch_order : list Z;
  ch_ok : bool;
  ch_applied : bool;
  ch_permanent : bool;
  ch_warehouse : option (ducklake.Config * iceberg.Config * option time * string);
  ch_migration : option bool;
  ch_image : option string;
  ch_node : string;
  ch_new : Z * string * ActivationPayload;
}.

(** An order in which the pool's workers may be ranged over. *)
Definition an_order (l : list Z) (k : pool_memory) : bool :=
  bool_decide (NoDup l) && bool_decide (list_to_set l =@{gset Z} dom (workers k)).

(** * Effects *)

Inductive created := Created | Refused | Retriable.

Inductive op : Type → Type :=
  | Mem {B} (f : choice → pool_memory → B * pool_memory) : op B    (** a section under the pool's mutex *)
  | Lock : op ()
  | Held {B} (f : choice → pool_memory → B * pool_memory) : op B   (** between Lock and Unlock *)
  | Unlock : op ()
  | Free {B} (f : choice → pool_memory → B * pool_memory) : op B   (** not under it *)
  | Store {B} (m : M D B) : op (B + store_error)
  | RefreshOwnerEpochAtomic (r : nat) (owner : string) : op (option Z)
  | Ask {B} (f : choice → B) : op B
  | CreatePod (name img cp : string) (id : Z) : op created
  | DeletePod (name : string) : op bool
  | FindPod (name : string) : op (option (nat * string))
  | LabelPod (name org : string) : op ()
  | ListPods : op (option (list (string * Z * string * option string * string * time)))
  | Send (i : nat) (payload : ActivationPayload) : op nat          (** ActivateTenant, to the pod *)
  | Receive (i j : nat) : op bool                                  (** its answer *)
  | Wait : op Empty_set.                                           (** for ever *)

Definition with_memory (c : string) (k : pool_memory) (s : world) : world :=
  {| w_db := w_db s; w_pods := w_pods s; w_cps := <[c := k]> (w_cps s) |}.
Definition with_db (d : D) (s : world) : world := {| w_db := d; w_pods := w_pods s; w_cps := w_cps s |}.
Definition with_pods (ps : list pod) (s : world) : world := {| w_db := w_db s; w_pods := ps; w_cps := w_cps s |}.

(** The pod that has a name now. *)
Definition named (name : string) (p : pod) : bool := bool_decide (pod_name p = name) && negb (pod_deleted p).
Fixpoint find_pod (name : string) (ps : list pod) : option nat :=
  match ps with
  | [] => None
  | p :: ps => if named name p then Some 0%nat else S <$> find_pod name ps
  end.

Definition set_deleted (p : pod) : pod := {|
  pod_name := pod_name p; pod_deleted := true; pod_node := pod_node p; pod_image := pod_image p; pod_id := pod_id p;
  pod_cp := pod_cp p; pod_created := pod_created p; pod_org := pod_org p; pod_worker := pod_worker p |}.
Definition set_label (org : string) (p : pod) : pod := {|
  pod_name := pod_name p; pod_deleted := pod_deleted p; pod_node := pod_node p; pod_image := pod_image p; pod_id := pod_id p;
  pod_cp := pod_cp p; pod_created := pod_created p; pod_org := Some org; pod_worker := pod_worker p |}.
Definition set_worker (w : worker) (p : pod) : pod := {|
  pod_name := pod_name p; pod_deleted := pod_deleted p; pod_node := pod_node p; pod_image := pod_image p; pod_id := pod_id p;
  pod_cp := pod_cp p; pod_created := pod_created p; pod_org := pod_org p; pod_worker := w |}.

(** Pods are started with DUCKGRES_SHARED_WARM_WORKER. *)
Definition new_pod (e : choice) (name img cp : string) (id : Z) : pod :=
  let '(max, addr, own) := ch_new e in {|
  pod_name := name; pod_deleted := false; pod_node := ch_node e; pod_image := img; pod_id := id; pod_cp := cp;
  pod_created := ch_now e; pod_org := None; pod_worker := new_worker true max addr [] own |}.

Definition section_step {B} (c : string) (e : choice) (f : choice → pool_memory → B * pool_memory) (k : pool_memory) (s : world)
    : option (B * world) :=
  if an_order (ch_order e) k then let '(b, k') := f e k in Some (b, with_memory c k' s) else None.

(** What an effect of control plane [c] does; [None] while it must wait. *)
Definition op_step (c : string) (e : choice) {B} (o : op B) (s : world) : option (B * world) :=
  k ← w_cps s !! c;
  match o in op B return option (B * world) with
  | Mem f => if mu k then None else section_step c e f k s
  | Lock => if mu k then None else Some ((), with_memory c (set_lock (shuttingDown k) true k) s)
  | Held f | Free f => section_step c e f k s
  | Unlock => Some ((), with_memory c (set_lock (shuttingDown k) false k) s)
  | Store m => let '(r, d) := m (w_db s) in Some (r, with_db d s)
  | RefreshOwnerEpochAtomic r owner =>
      match heap k !! r with
      | None => Some (None, s)
      | Some w =>
          let '(res, d) := RefreshLease (Some {| lc_cleanup := true |}) (NewWorkerLease (mw_ID w) owner (mw_ownerEpoch w)) (w_db s) in
          match res with
          | inl l => Some (Some (lease_epoch l), with_db d (with_memory c (update r (λ w, set_lease (mw_ownerCP w) (lease_epoch l) w) k) s))
          | inr _ => Some (None, with_db d s)
          end
      end
  | Ask f => Some (f e, s)
  | CreatePod name img cp id =>
      match find_pod name (w_pods s) with
      | Some _ => Some (Refused, s)
      | None => Some (if ch_ok e then Created else if ch_permanent e then Refused else Retriable,
                      if ch_ok e || ch_applied e then with_pods (w_pods s ++ [new_pod e name img cp id]) s else s)
      end
  | DeletePod name =>
      match find_pod name (w_pods s) with
      | None => Some (ch_ok e, s)
      | Some i => Some (ch_ok e, if ch_ok e || ch_applied e then with_pods (alter set_deleted i (w_pods s)) s else s)
      end
  | FindPod name =>
      if ch_ok e then Some (i ← find_pod name (w_pods s); p ← w_pods s !! i; Some (i, pod_node p), s) else Some (None, s)
  | LabelPod name org =>
      match find_pod name (w_pods s) with
      | Some i => Some ((), if ch_ok e || ch_applied e then with_pods (alter (set_label org) i (w_pods s)) s else s)
      | None => Some ((), s)
      end
  | ListPods =>
      Some (if ch_ok e then Some ((λ p, (pod_name p, pod_id p, pod_cp p, pod_org p, pod_image p, pod_created p))
                                    <$> filter (λ p, pod_deleted p = false) (w_pods s)) else None, s)
  | Send i payload =>
      p ← w_pods s !! i;
      w ← worker_step (Activate payload) (pod_worker p);
      Some (length (requests (pod_worker p)), with_pods (<[i := set_worker w p]> (w_pods s)) s)
  | Receive i j =>
      if negb (ch_ok e) then Some (false, s) else
      p ← w_pods s !! i;
      match requests (pod_worker p) !! j with
      | Some (AReplied _ ok) => Some (ok, s)
      | _ => None
      end
  | Wait => None
  end.

(** * Programs *)

Inductive prog : Type → Type :=
  | Return {A} (a : A) : prog A
  | Do {A B} (o : op B) (k : B → prog A) : prog A
  | Go {A} (p : prog ()) (k : prog A) : prog A.

Fixpoint pbind {A B} (p : prog A) : (A → prog B) → prog B :=
  match p in prog A return (A → prog B) → prog B with
  | Return a => λ f, f a
  | Do o k => λ f, Do o (λ b, pbind (k b) f)
  | Go q k => λ f, Go q (pbind k f)
  end.

#[export] Instance prog_ret : MRet prog := λ A, Return.
#[export] Instance prog_bind : MBind prog := λ A B f p, pbind p f.

Definition mem {B} (f : choice → pool_memory → B * pool_memory) : prog B := Do (Mem f) Return.
Definition held {B} (f : choice → pool_memory → B * pool_memory) : prog B := Do (Held f) Return.
Definition free {B} (f : choice → pool_memory → B * pool_memory) : prog B := Do (Free f) Return.
Definition lock : prog () := Do Lock Return.
Definition unlock : prog () := Do Unlock Return.
Definition store {B} (m : M D B) : prog (B + store_error) := Do (Store m) Return.
Definition ask {B} (f : choice → B) : prog B := Do (Ask f) Return.
Definition go (p : prog ()) : prog () := Go p (Return ()).
(** A loop whose rounds are used up waits: the number of rounds is any. *)
Definition wait {A} : prog A := Do Wait (λ e : Empty_set, match e with end).

Fixpoint for_each {A} (l : list A) (body : A → prog ()) : prog () :=
  match l with
  | [] => mret ()
  | a :: l => body a;; for_each l body
  end.
End cluster.

#[global] Arguments prog {D}.
#[global] Arguments op {D}.
