(* ===== verification/K8sPool.v ===== *)
(** The Kubernetes worker pool (src/controlplane/k8s_pool.go) with a runtime store, as the
    multi-tenant control plane has it; the per-organisation pools over it
    (org_reserved_pool.go), the activator (shared_worker_activator.go), the scheduler of
    credential renewals (credential_refresh_scheduler.go) and the shut-down of org_router.go.

    Every function is a program of Cluster: a section of [mem] is what the code does while it
    holds the pool's mutex, and everything else may be interleaved. Semaphores and wait groups,
    which only hold threads back, are left out. *)

From Stdlib Require Import Strings.Byte.
From stdpp Require Import prelude gmap strings list fin_maps sorting.
From Stdlib Require Import ZArith Lia.
From S2P Require Import Prelude GoText DuckLake Migration Catalogs RuntimeDB RuntimeStore Lifecycle WorkerState TenantRuntime Cluster.

Open Scope string_scope.
Open Scope list_scope.
Open Scope Z_scope.

Definition RetireReasonNormal : string := "normal".
Definition RetireReasonActivationFailure : string := "activation_failure".
Definition RetireReasonCrash : string := "crash".
Definition RetireReasonShutdown : string := "shutdown".
Definition RetireReasonIdleTimeout : string := "idle_timeout".
Definition RetireReasonStuckActivating : string := "stuck_activating".
Definition RetireReasonMismatchedVersion : string := "mismatched_version".
Definition maxConsecutiveHealthFailures : Z := 3.
Definition defaultActivatingTimeout : Z := 120 * 1000000.

(** * Names and records *)

Definition last_dash (l : list byte) : option nat :=
  (λ i, (length l - 1 - i)%nat) <$> index_byte x2d (rev l).

Definition hash_char (b : byte) : bool := byte_in 97 122 b || byte_in 48 57 b.

Definition trimK8sPodHashSuffix (name : string) : string :=
  let l := bytes name in
  match last_dash l with
  | None | Some 0%nat => name
  | Some idx =>
      let suffix := drop (S idx) l in
      if bool_decide (length suffix = 5%nat) && forallb hash_char suffix then str (take idx l) else name
  end.

Definition workerPodNamePrefix (k : pool_memory) : string := trimK8sPodHashSuffix (cpID k) +:+ "-worker".
Definition podNameForWorker (k : pool_memory) (id : Z) : string := workerPodNamePrefix k +:+ "-" +:+ fmt_d id.
Definition workerPodName (k : pool_memory) (w : ManagedWorker) : string := or_default (podName w) (podNameForWorker k (mw_ID w)).

Definition workerRecordFor (k : pool_memory) (now : time) (id : Z) (worker : option ManagedWorker) (ownerEpoch : Z)
    (state : RuntimeDB.WorkerState) (retireReason : string) (activationStartedAt : option time) : WorkerRecord := {|
  W_ID := id;
  W_PodName := match worker with Some w => workerPodName k w | None => podNameForWorker k id end;
  W_PodUID := "";
  W_Image := match worker with Some w => or_default (image w) (workerImage k) | None => workerImage k end;
  W_State := state;
  W_OrgID := match worker with
             | Some w => if bool_decide (state = Idle) then ""
                         else match Assignment (SharedState w) with Some a => WorkerState.OrgID a | None => "" end
             | None => "" end;
  W_Owner := Some (match worker with Some w => or_default (mw_ownerCP w) (cpInstanceID k) | None => cpInstanceID k end);
  W_Epoch := ownerEpoch; W_ActivationStartedAt := activationStartedAt; W_LastHeartbeatAt := now;
  W_RetireReason := retireReason; W_S3ExpiresAt := None; W_CreatedAt := 0; W_UpdatedAt := 0 |}.

(** The record of a worker of the pool. *)
Definition record_of (k : pool_memory) (now : time) (r : nat) (state : RuntimeDB.WorkerState) (reason : string)
    (started : option time) : option WorkerRecord :=
  (λ w, workerRecordFor k now (mw_ID w) (Some w) (mw_ownerEpoch w) state reason started) <$> heap k !! r.

(** A lifecycle transition of a worker, or an error. *)
Definition try_move (next : WorkerLifecycleState) (a : option WorkerAssignment) (r : nat) (k : pool_memory) : bool * pool_memory :=
  match w ← heap k !! r; move next a w with
  | Some w => (true, update r (λ _, w) k)
  | None => (false, k)
  end.

Definition markWorkerRetiredInMemoryLocked (r : nat) (k : pool_memory) : pool_memory := (try_move LifecycleRetired None r k).2.

(** * Scheduling helpers *)

(** The workers of the pool, in the order of a range over the map. *)
Definition listed (order : list Z) (k : pool_memory) : list (Z * nat * ManagedWorker) :=
  omap (λ id, r ← workers k !! id; w ← heap k !! r; Some (id, r, w)) order.

Definition isWarmIdleWorkerLocked (w : ManagedWorker) : bool :=
  bool_decide (activeSessions w = 0) && bool_decide (lifecycle_of w = LifecycleIdle).
Definition liveWorkerCountLocked (order : list Z) (k : pool_memory) : Z :=
  spawning k + Z.of_nat (length (filter (λ x, done x.2 = false) (listed order k))).
Definition idleWarmWorkerCountByImageLocked (order : list Z) (k : pool_memory) (img : string) : Z :=
  Z.of_nat (length (filter (λ x, done x.2 = false ∧ isWarmIdleWorkerLocked x.2 = true ∧ image x.2 = img) (listed order k))).

Definition stampNodeFirstSeenLocked (node : string) (now : time) (k : pool_memory) : pool_memory :=
  if bool_decide (node = "") || bool_decide (is_Some (nodeFirstSeen k !! node)) then k
  else set_seen (<[node := now]> (nodeFirstSeen k)) (failures k) k.
Definition nodeSeenAtLocked (node : string) (fallback : time) (k : pool_memory) : time :=
  if bool_decide (node = "") then fallback else default fallback (nodeFirstSeen k !! node).
Definition pruneNodeFirstSeenLocked (order : list Z) (node : string) (k : pool_memory) : pool_memory :=
  if bool_decide (node = "") || existsb (λ x, bool_decide (nodeName x.2 = node)) (listed order k) then k
  else set_seen (delete node (nodeFirstSeen k)) (failures k) k.

(** * Leases *)

Definition workerLeaseSnapshot (k : pool_memory) (w : ManagedWorker) : lease :=
  (mw_ID w, or_default (mw_ownerCP w) (cpInstanceID k), mw_ownerEpoch w).

(** The listed worker, when it still has the lease. *)
Definition worker_of_lease (l : lease) (k : pool_memory) : option nat :=
  r ← workers k !! l.1.1; w ← heap k !! r;
  if bool_decide (workerLeaseSnapshot k w = l) then Some r else None.

Definition dropLocalWorkerIfSameLeaseLocked (l : lease) (k : pool_memory) : bool * pool_memory :=
  match worker_of_lease l k with
  | Some _ => (true, unlist l.1.1 k)
  | None => (false, k)
  end.
(** With a runtime store nothing is replenished here. *)
Definition removeWorkerAfterLostLeaseLocked (l : lease) (k : pool_memory) : option nat * pool_memory :=
  match worker_of_lease l k with
  | Some r => (Some r, unlist l.1.1 (markWorkerRetiredInMemoryLocked r k))
  | None => (None, k)
  end.

Inductive workerLostLeaseDisposition := LeaseCurrent | LeaseStale | LeaseRetry | LeaseAlreadyLost.

Section pool.
Context `{HD : DuckDB} `{HU : UnicodeCase} {D : Type} `{HW : World D}.
Local Notation prog := (prog (D := D)).

Definition lifecycle : option WorkerLifecycle := Some {| lc_cleanup := true |}.

Definition persistWorkerRecord (record : option WorkerRecord) : prog () :=
  match record with
  | Some r => store (UpsertWorkerRecord r);; mret ()
  | None => mret ()
  end.

(** The pod of a worker is deleted, whatever its name is by then. *)
Definition delete_pod (name : string) : prog bool := Do (DeletePod name) Return.
Definition retireWorkerPod (r : nat) : prog () :=
  name ← free (λ _ k, (workerPodName k <$> heap k !! r, k));
  match name with Some n => delete_pod n;; mret () | None => mret () end.

Definition markWorkerLostIfCurrentLease (l : lease) : prog (bool + store_error) :=
  own ← free (λ _ k, (cpInstanceID k, k));
  if bool_decide (l.1.2 ≠ own) then mret (inl false) else
  res ← store (MarkLostFromLease lifecycle (NewWorkerLease l.1.1 own l.2) RetireReasonCrash);
  mret (match res with
        | inl lr => match lr_err lr with Some e => inr e | None => inl (Transitioned (lr_outcome lr)) end
        | inr e => inr e
        end).

Definition markWorkerLostForHealthLease (l : lease) : prog (workerLostLeaseDisposition + store_error) :=
  own ← free (λ _ k, (cpInstanceID k, k));
  if bool_decide (l.1.2 ≠ own) then mret (inl LeaseStale) else
  current ← markWorkerLostIfCurrentLease l;
  match current with
  | inr e => mret (inr e)
  | inl true => mret (inl LeaseCurrent)
  | inl false =>
      record ← store (GetWorkerRecord l.1.1);
      mret (match record with
            | inr e => inr e
            | inl None => inl LeaseStale
            | inl (Some rec) =>
                inl (if bool_decide (go_owner rec ≠ own) then LeaseStale
                     else if bool_decide (W_Epoch rec ≠ l.2) then LeaseRetry
                     else if bool_decide (W_State rec = Lost ∧ W_RetireReason rec = RetireReasonCrash) then LeaseAlreadyLost
                     else LeaseStale)
            end)
  end.

(** Under the mutex, which is kept during the calls to the store. *)
Definition cleanDeadWorkersLocked : prog () :=
  ids ← held (λ e k, (ch_order e, k));
  for_each ids (λ id,
    dead ← held (λ _ k, (r ← workers k !! id; w ← heap k !! r; if done w then Some (workerLeaseSnapshot k w) else None, k));
    match dead with
    | None => mret ()
    | Some l =>
        d ← markWorkerLostForHealthLease l;
        match d with
        | inl LeaseStale => held (λ _ k, dropLocalWorkerIfSameLeaseLocked l k);; mret ()
        | _ => mret ()
        end
    end).

Definition markWorkerRetiredLocked (r : nat) (reason : string) : prog () :=
  record ← held (λ e k, let k' := markWorkerRetiredInMemoryLocked r k in
                        (record_of k' (ch_now e) r (if bool_decide (reason = RetireReasonCrash) then Lost else Retired) reason None, k'));
  persistWorkerRecord record.

(** * Retiring *)

(** The rest of a retirement: the row, the map, the pod. *)
Definition retire_listed (id : Z) (r : nat) (reason : string) : prog () :=
  markWorkerRetiredLocked r reason;;
  held (λ _ k, ((), unlist id k));;
  unlock;;
  go (retireWorkerPod r).

Definition retireWorkerWithReason (id : Z) (reason : string) : prog bool :=
  lock;;
  w ← held (λ _ k, (workers k !! id, k));
  match w with
  | None => unlock;; mret false
  | Some r => retire_listed id r reason;; mret true
  end.

Definition RetireWorker (id : Z) : prog () := retireWorkerWithReason id RetireReasonNormal;; mret ().

Definition retireWorkerIfNoSessionsWithReason (id : Z) (reason : string) : prog bool :=
  lock;;
  w ← held (λ _ k, match workers k !! id with
                   | Some r => let k' := update r drop_session k in
                               (Some (r, bool_decide (activeSessions <$> heap k' !! r = Some 0)), k')
                   | None => (None, k)
                   end);
  match w with
  | Some (r, true) => retire_listed id r reason;; mret true
  | _ => unlock;; mret false
  end.

Definition RetireIfDrainingAndEmpty (id : Z) : prog () :=
  lock;;
  w ← held (λ _ k, (r ← workers k !! id; w ← heap k !! r;
                    if bool_decide (activeSessions w ≤ 0) && bool_decide (lifecycle_of w = LifecycleDraining) then Some r else None, k));
  match w with
  | Some r => retire_listed id r RetireReasonNormal
  | None => unlock
  end.

Definition TransitionToHotIdleIfNoSessions (id : Z) : prog bool :=
  record ← mem (λ e k,
    match workers k !! id with
    | None => (None, k)
    | Some r =>
        let k := update r drop_session k in
        match heap k !! r with
        | None => (None, k)
        | Some w =>
            if bool_decide (activeSessions w ≠ 0) || bool_decide (lifecycle_of w ≠ LifecycleHot) then (None, k) else
            let '(ok, k) := try_move LifecycleHotIdle None r k in
            if negb ok then (None, k) else
            let k := update r (set_used (ch_now e)) k in
            (record_of k (ch_now e) r HotIdle "" None, k)
        end
    end);
  match record with
  | Some rec => persistWorkerRecord (Some rec);; mret true
  | None => mret false
  end.

(** DeleteWorkerArtifacts, deleteRetiredRuntimeWorker: after the row is final. *)
Definition DeleteWorkerArtifacts (id : Z) (pod : string) : prog () :=
  local ← mem (λ _ k, match workers k !! id with
                      | Some r => (inl r, unlist id (markWorkerRetiredInMemoryLocked r k))
                      | None => (inr (or_default pod (podNameForWorker k id)), k)
                      end);
  go (match local with
      | inl r => retireWorkerPod r
      | inr name => delete_pod name;; mret ()
      end).

(** A lifecycle call of the pool, with the clean-up it schedules. *)
Definition with_cleanup (m : M D lifecycle_result) : prog (option lifecycle_result) :=
  res ← store m;
  match res with
  | inl lr => for_each (lr_deleted lr) (λ a, DeleteWorkerArtifacts (art_worker a) (art_pod a));; mret (Some lr)
  | inr _ => mret None
  end.

Definition retireClaimedWorker (claimed : WorkerRecord) (reason : string) : prog () :=
  with_cleanup (RetireFromSnapshot lifecycle (NewWorkerSnapshot claimed)
    (if bool_decide (reason = RetireReasonCrash) then Lost else Retired) reason);;
  mret ().

Definition retireCurrentRuntimeWorker (claimed : WorkerRecord) (reason : string) : prog () :=
  refreshed ← store (ObserveWorker (W_ID claimed));
  match refreshed with
  | inr _ => retireClaimedWorker claimed reason
  | inl None => mret ()
  | inl (Some snap) =>
      let rec := snap_record snap in
      if bool_decide (go_owner rec ≠ go_owner claimed) || bool_decide (W_Epoch rec ≠ W_Epoch claimed) then mret ()
      else retireClaimedWorker rec reason
  end.

(** * Spawning *)

(** createPodWithBackoff: five attempts, unless the error is permanent. *)
Fixpoint create_pod (attempts : nat) (name img cp : string) (id : Z) : prog bool :=
  match attempts with
  | O => mret false
  | S n =>
      res ← Do (CreatePod name img cp id) Return;
      match res with
      | Created => mret true
      | Refused => mret false
      | Retriable => create_pod n name img cp id
      end
  end.
Definition createPodWithBackoff : string → string → string → Z → prog bool := create_pod 5.

Definition spawnWorker (id : Z) (img : string) (publishIdle : bool) : prog bool :=
  ready ← ask ch_ok;                         (** the start-up configuration and the RPC secret *)
  if negb ready then mret false else
  '(name, cp, spawningRecord) ← free (λ e k, (podNameForWorker k id, cpID k, workerRecordFor k (ch_now e) id None 0 Spawning "" None, k));
  delete_pod name;;
  (if publishIdle then persistWorkerRecord (Some spawningRecord) else mret ());;
  ok ← createPodWithBackoff name img cp id;
  if negb ok then mret false else
  pod ← Do (FindPod name) Return;            (** waitForPodReady *)
  connected ← ask ch_ok;                     (** readWorkerRPCSecurity, waitForWorkerTCP *)
  match pod, connected with
  | Some (i, node), true =>
      record ← mem (λ e k,
        let w := new_managed id name node img (Some i) "" 0 in
        let k := stampNodeFirstSeenLocked node (ch_now e) (enlist w k) in
        (workerRecordFor k (ch_now e) id (Some w) 0 Idle "" None, k));
      (if publishIdle then persistWorkerRecord (Some record) else mret ());;
      mret true
  | _, _ => delete_pod name;; mret false
  end.

Definition SpawnWorker (id : Z) (img : string) : prog bool := spawnWorker id img true.

(** spawnWarmWorker, for a slot that has its id. *)
Definition spawnWarmWorker (id : Z) (img : string) : prog bool :=
  if bool_decide (id ≤ 0) then
    '(own, prefix, img, min, max) ← free (λ _ k, (cpInstanceID k, workerPodNamePrefix k, or_default img (workerImage k), minWorkers k, maxWorkers k, k));
    slot ← store (CreateNeutralWarmWorkerSlot own prefix img min max);
    match slot with
    | inr _ => mret false
    | inl None => mret true
    | inl (Some rec) => SpawnWorker (W_ID rec) (W_Image rec)
    end
  else SpawnWorker id img.

(** The goroutine of a slot. *)
Definition spawn_slot (slot : WorkerRecord) : prog () :=
  ok ← spawnWarmWorker (W_ID slot) (W_Image slot);
  mem (λ _ k, ((), add_spawning (-1) k));;
  (if ok : bool then mret () else retireCurrentRuntimeWorker slot RetireReasonCrash).

(** The slots of a round: all of them, or an error after the ones before it were given up. *)
Fixpoint claim_slots (n : nat) (create : pool_memory → M D (option WorkerRecord)) (slots : list WorkerRecord) : prog (option (list WorkerRecord)) :=
  match n with
  | O => mret (Some slots)
  | S n =>
      create_now ← free (λ _ k, (create k, k));
      slot ← store create_now;
      match slot with
      | inr _ => for_each slots (λ s, retireCurrentRuntimeWorker s RetireReasonCrash);; mret None
      | inl None => mret (Some slots)
      | inl (Some s) => claim_slots n create (slots ++ [s])
      end
  end.

Definition spawn_slots (slots : option (list WorkerRecord)) : prog () :=
  match slots with
  | None | Some [] => mret ()
  | Some slots =>
      mem (λ _ k, ((), add_spawning (Z.of_nat (length slots)) k));;
      for_each slots (λ s, go (spawn_slot s))
  end.

Definition SpawnMinWorkers (count : Z) : prog () :=
  if bool_decide (count ≤ 0) then mret () else
  mem (λ _ k, ((), set_limits (spawning k) (maxWorkers k) (Z.max count (minWorkers k)) (perImageWarmTarget k) k));;
  slots ← claim_slots (Z.to_nat count)
    (λ k, CreateNeutralWarmWorkerSlot (cpInstanceID k) (workerPodNamePrefix k) (workerImage k) count (maxWorkers k)) [];
  spawn_slots slots.

Definition SpawnMinWorkersForImage (img : string) (count : Z) : prog () :=
  if bool_decide (count ≤ 0) || bool_decide (TrimSpace img = "") then mret () else
  lock;;
  down ← held (λ _ k, (shuttingDown k, k));
  if down : bool then unlock else
  cleanDeadWorkersLocked;;
  missing ← held (λ e k,
    let missing := count - idleWarmWorkerCountByImageLocked (ch_order e) k img in
    let room := maxWorkers k - liveWorkerCountLocked (ch_order e) k in
    (if bool_decide (missing ≤ 0) then 0
     else if bool_decide (0 < maxWorkers k) then (if bool_decide (room ≤ 0) then 0 else Z.min missing room)
     else missing, k));
  unlock;;
  if bool_decide (missing = 0) then mret () else
  slots ← claim_slots (Z.to_nat missing)
    (λ k, CreateNeutralWarmWorkerSlotForImage (cpInstanceID k) (workerPodNamePrefix k) img count (maxWorkers k)) [];
  spawn_slots slots.

Definition triggerPerImageReplenish (img : string) : prog () :=
  if bool_decide (TrimSpace img = "") then mret () else
  target ← mem (λ _ k, (default 0 (perImageWarmTarget k !! img), k));
  if bool_decide (target ≤ 0) then mret () else go (SpawnMinWorkersForImage img target).

(** * Reserving *)

Definition isDuplicateRuntimeWorkerClaim (w : ManagedWorker) (claimed : WorkerRecord) (a : WorkerAssignment) : bool :=
  bool_decide (mw_ownerCP w = go_owner claimed) && bool_decide (mw_ownerEpoch w = W_Epoch claimed)
  && bool_decide (lifecycle_of w = LifecycleReserved ∨ lifecycle_of w = LifecycleActivating)
  && match Assignment (SharedState w) with Some x => bool_decide (WorkerState.OrgID x = WorkerState.OrgID a) | None => false end.

(** adoptClaimedWorker: a connection to the pod of the name the row has. *)
Definition adoptClaimedWorker (claimed : WorkerRecord) : prog (option nat) :=
  pod ← Do (FindPod (W_PodName claimed)) Return;
  connected ← ask ch_ok;
  mret (match pod, connected with Some (i, _), true => Some i | _, _ => None end).
Definition adopted_worker (claimed : WorkerRecord) (i : nat) : ManagedWorker :=
  new_managed (W_ID claimed) (W_PodName claimed) "" (W_Image claimed) (Some i) (go_owner claimed) (W_Epoch claimed).

Inductive reserve_result := ReservedWorker (r : nat) | StaleClaim | ReserveFailed.

(** The section that binds a worker to the claim; an error is stale or not. *)
Definition bind_claim (claimed : WorkerRecord) (a : WorkerAssignment) (r : nat) (e : choice) (k : pool_memory)
    : (bool + Z * option WorkerRecord) * pool_memory :=
  if shuttingDown k then (inl false, k) else
  match heap k !! r with
  | None => (inl false, k)
  | Some w0 =>
      let w := if bool_decide (W_PodName claimed = "") then w0 else set_pod (W_PodName claimed) w0 in
      let k := update r (λ _, w) k in
      if bool_decide (0 < mw_ownerEpoch w) && bool_decide (W_Epoch claimed < mw_ownerEpoch w) then (inl true, k)
      else if isDuplicateRuntimeWorkerClaim w claimed a then (inl true, k)
      else
        let k := update r (set_lease (go_owner claimed) (W_Epoch claimed)) k in
        let '(ok, k) := try_move LifecycleReserved (Some a) r k in
        if negb ok then (inl false, k) else
        let k := update r (set_reserved_at (ch_now e)) k in
        (inr (mw_ID w, if bool_decide (W_State claimed ≠ Reserved) then record_of k (ch_now e) r Reserved "" None else None), k)
  end.

Definition reserveClaimedWorker (claimed : WorkerRecord) (a : WorkerAssignment) : prog reserve_result :=
  lock;;
  down ← held (λ _ k, (shuttingDown k, k));
  if down : bool then unlock;; mret ReserveFailed else
  cleanDeadWorkersLocked;;
  known ← held (λ _ k, (workers k !! W_ID claimed, k));
  unlock;;
  found ← match known with
          | Some r => mret (Some r)
          | None =>
              adopted ← adoptClaimedWorker claimed;
              match adopted with
              | None => mret None
              | Some i => mem (λ _ k, match workers k !! W_ID claimed with
                                      | Some r => (Some r, k)
                                      | None => (Some (length (heap k)), enlist (adopted_worker claimed i) k)
                                      end)
              end
          end;
  match found with
  | None => mret ReserveFailed
  | Some r =>
      bound ← mem (bind_claim claimed a r);
      match bound with
      | inl stale => mret (if stale : bool then StaleClaim else ReserveFailed)
      | inr (id, record) =>
          persistWorkerRecord record;;
          alive ← ask ch_ok;                 (** checkReservedWorkerLiveness *)
          if alive : bool then mret (ReservedWorker r)
          else retireWorkerWithReason id RetireReasonCrash;; mret ReserveFailed
      end
  end.

Definition recordWarmCapacityMiss (a : WorkerAssignment) (reason : WorkerClaimMissReason) : prog () :=
  '(img, now) ← free (λ e k, (or_default (TrimSpace (Image a)) (TrimSpace (workerImage k)), ch_now e, k));
  if bool_decide (img = "") then mret () else
  if bool_decide (reason = MissNone ∨ reason = NoIdle)
  then store (RecordWarmCapacityMiss ("image:" +:+ img) NoIdle now);; mret () else mret ().

(** ReserveSharedWorker: the tenant's own idle workers first, then neutral ones. *)
Fixpoint ReserveSharedWorker (rounds : nat) (a : WorkerAssignment) : prog (option nat) :=
  match rounds with
  | O => wait
  | S rounds =>
      if bool_decide (WorkerState.OrgID a = "") then mret None else
      cancelled ← ask ch_ok;
      if cancelled : bool then mret None else
      own ← free (λ _ k, (cpInstanceID k, k));
      hot ← store (ClaimHotIdleWorker own (WorkerState.OrgID a) (MaxWorkers a));
      match hot with
      | inr _ => mret None
      | inl (hotClaimed, missReason) =>
          let claim_idle :=
            max ← mem (λ _ k, (maxWorkers k, k));
            idle ← store (ClaimIdleWorker own (WorkerState.OrgID a) (Image a) (MaxWorkers a) max);
            match idle with
            | inr _ => mret None
            | inl (None, reason) => recordWarmCapacityMiss a reason;; mret None
            | inl (Some claimed, _) =>
                res ← reserveClaimedWorker claimed a;
                match res with
                | ReservedWorker r => triggerPerImageReplenish (W_Image claimed);; mret (Some r)
                | StaleClaim => ReserveSharedWorker rounds a
                | ReserveFailed => retireClaimedWorker claimed RetireReasonCrash;; ReserveSharedWorker rounds a
                end
            end in
          match hotClaimed with
          | None =>
              if bool_decide (missReason ≠ MissNone ∧ missReason ≠ NoIdle)
              then recordWarmCapacityMiss a missReason;; mret None else claim_idle
          | Some claimed =>
              if bool_decide (Image a ≠ "") && bool_decide (W_Image claimed ≠ Image a)
              then retireClaimedWorker claimed RetireReasonMismatchedVersion;; claim_idle else
              res ← reserveClaimedWorker claimed a;
              match res with
              | ReservedWorker r => free (λ _ k, ((), update r set_reclaimed k));; mret (Some r)
              | StaleClaim => ReserveSharedWorker rounds a
              | ReserveFailed => retireClaimedWorker claimed RetireReasonCrash;; claim_idle
              end
          end
      end
  end.

Definition claimSpecificWorker (id expectedOwnerEpoch : Z) (a : WorkerAssignment) : prog (option nat) :=
  if bool_decide (WorkerState.OrgID a = "") then mret None else
  own ← free (λ _ k, (cpInstanceID k, k));
  record ← store (TakeOverWorker id own (WorkerState.OrgID a) expectedOwnerEpoch);
  match record with
  | inl (Some rec) =>
      if bool_decide (Image a ≠ "") && bool_decide (W_Image rec ≠ Image a) then mret None else
      res ← reserveClaimedWorker rec a;
      mret (match res with ReservedWorker r => Some r | _ => None end)
  | _ => mret None
  end.

(** * Activating *)

(** ManagedWorker.ActivateTenant: the request, then its answer or the loss of it. *)
Definition ActivateTenant (r : nat) (payload : ActivationPayload) : prog bool :=
  c ← free (λ _ k, (w ← heap k !! r; client w, k));
  match c with
  | None => mret false
  | Some i => j ← Do (Send i payload) Return; Do (Receive i j) Return
  end.

Definition activation_payload (id epoch : Z) (owner : string) (p : TenantActivationPayload) : ActivationPayload :=
  {| WorkerID := id; OwnerEpoch := epoch; CPInstanceID := owner; OrgID := tp_OrgID p;
     DuckLakeCfg := tp_DuckLake p; IcebergCfg := tp_Iceberg p |}.

(** The section before the request: the state to go back to, and the row to write. *)
Definition begin_activation (r : nat) (e : choice) (k : pool_memory)
    : option (option SharedWorkerState * option WorkerRecord) * pool_memory :=
  match heap k !! r with
  | None => (None, k)
  | Some w =>
      match lifecycle_of w with
      | LifecycleReserved =>
          let '(ok, k) := try_move LifecycleActivating None r k in
          if negb ok then (None, k)
          else (Some (Some (SharedState w), record_of k (ch_now e) r Activating "" (Some (ch_now e))), k)
      | LifecycleActivating => (Some (None, record_of k (ch_now e) r Activating "" (Some (ch_now e))), k)
      | _ => (None, k)
      end
  end.

(** The section after it: whether the worker is hot, and the row to write. *)
Definition finish_activation (r : nat) (payload : TenantActivationPayload) (e : choice) (k : pool_memory)
    : (bool * option WorkerRecord) * pool_memory :=
  let k := update r (set_cached payload) k in
  match heap k !! r with
  | None => (false, None, k)
  | Some w =>
      if bool_decide (lifecycle_of w = LifecycleHot) then (true, None, k) else
      let '(ok, k) := try_move LifecycleHot None r k in
      if ok then (true, record_of k (ch_now e) r Hot "" None, k) else (false, None, k)
  end.

(** ActivateReservedWorker of the pool. *)
Definition ActivateReservedWorker (r : nat) (payload : TenantActivationPayload) : prog bool :=
  begun ← mem (begin_activation r);
  match begun with
  | None => mret false
  | Some (prevState, record) =>
      persistWorkerRecord record;;
      m ← free (λ _ k, ((λ w, (mw_ID w, mw_ownerEpoch w, mw_ownerCP w)) <$> heap k !! r, k));
      match m with
      | None => mret false
      | Some (id, epoch, owner) =>
          ok ← ActivateTenant r (activation_payload id epoch owner payload);
          if negb ok then
            (match prevState with
             | Some s => mem (λ _ k, ((), match w ← heap k !! r; SetSharedState s w with Some w => update r (λ _, w) k | None => k end))
             | None => mret ()
             end);;
            retireWorkerWithReason id RetireReasonActivationFailure;; mret false
          else
            '(hot, record) ← mem (finish_activation r payload);
            persistWorkerRecord record;; mret hot
      end
  end.

Definition set_version (spec : string) (migrate : bool) (c : ducklake.Config) : ducklake.Config := {|
  ducklake.MetadataStore := ducklake.MetadataStore c; ducklake.RestrictClientSessions := ducklake.RestrictClientSessions c;
  ducklake.DisableMetadataThreadLocalCache := ducklake.DisableMetadataThreadLocalCache c;
  ducklake.ObjectStore := ducklake.ObjectStore c; ducklake.DataPath := ducklake.DataPath c;
  ducklake.DeltaCatalogEnabled := ducklake.DeltaCatalogEnabled c; ducklake.CfgDeltaCatalogPath := ducklake.CfgDeltaCatalogPath c;
  ducklake.S3Provider := ducklake.S3Provider c; ducklake.S3Endpoint := ducklake.S3Endpoint c;
  ducklake.S3AccessKey := ducklake.S3AccessKey c; ducklake.S3SecretKey := ducklake.S3SecretKey c;
  ducklake.S3SessionToken := ducklake.S3SessionToken c; ducklake.S3Region := ducklake.S3Region c;
  ducklake.S3UseSSL := ducklake.S3UseSSL c; ducklake.S3URLStyle := ducklake.S3URLStyle c;
  ducklake.S3Chain := ducklake.S3Chain c; ducklake.S3Profile := ducklake.S3Profile c;
  ducklake.AzureProvider := ducklake.AzureProvider c; ducklake.AzureAccountName := ducklake.AzureAccountName c;
  ducklake.AzureChain := ducklake.AzureChain c; ducklake.AzureClientID := ducklake.AzureClientID c;
  ducklake.HTTPProxy := ducklake.HTTPProxy c; ducklake.CheckpointInterval := ducklake.CheckpointInterval c;
  ducklake.DataInliningRowLimit := ducklake.DataInliningRowLimit c; ducklake.Migrate := migrate;
  ducklake.SpecVersion := spec; ducklake.ViaPgBouncer := ducklake.ViaPgBouncer c;
  ducklake.ApplicationName := ducklake.ApplicationName c |}.

(** lookupOrgConfig and BuildActivationRequest: the catalogs come from the organisation's
    configuration, its secrets and the provisioner, the identity from the assignment. *)
Definition BuildActivationRequest (a : WorkerAssignment) : prog (option TenantActivationPayload) :=
  resolved ← ask ch_warehouse;
  spec ← free (λ _ k, (defaultSpecVersion k, k));
  mret (match resolved with
        | None => None
        | Some (dl, ic, expires, version) =>
            Some {| tp_OrgID := WorkerState.OrgID a;
                    tp_DuckLake := set_version (or_default version (or_default spec DefaultSpecVersion)) (ducklake.Migrate dl) dl;
                    tp_Iceberg := ic; tp_ExpiresAt := expires |}
        end).

Definition migrate_payload (p : TenantActivationPayload) : TenantActivationPayload :=
  {| tp_OrgID := tp_OrgID p; tp_DuckLake := set_version (ducklake.SpecVersion (tp_DuckLake p)) true (tp_DuckLake p);
     tp_Iceberg := tp_Iceberg p; tp_ExpiresAt := tp_ExpiresAt p |}.

Definition remember_migration (org : string) (needed : bool) (k : pool_memory) : pool_memory :=
  set_orgs (orgs k) (stacks k) (migrating k) (<[org := needed]> (migrationChecked k)) k.

(** The check for a migration, once per organisation; Migration models the check itself. *)
Definition check_migration (payload : TenantActivationPayload) : prog TenantActivationPayload :=
  cached ← free (λ _ k, (migrationChecked k !! tp_OrgID payload, k));
  match cached with
  | Some needed => mret (if needed : bool then migrate_payload payload else payload)
  | None =>
      checked ← ask ch_migration;
      match checked with
      | None => mret payload
      | Some needed =>
          free (λ _ k, ((), remember_migration (tp_OrgID payload) needed k));;
          mret (if needed : bool then migrate_payload payload else payload)
      end
  end.

(** ActivateReservedWorker of the activator. *)
Definition activate_with_catalogs (r : nat) : prog bool :=
  assigned ← free (λ _ k, (w ← heap k !! r; Assignment (SharedState w), k));
  match assigned with
  | None => mret false
  | Some a =>
      request ← BuildActivationRequest a;
      match request with
      | None => mret false
      | Some payload =>
          payload ← check_migration payload;
          let migrate := ducklake.Migrate (tp_DuckLake payload) in
          let org := tp_OrgID payload in
          (if migrate then free (λ _ k, ((), set_orgs (orgs k) (stacks k) ({[org]} ∪ migrating k) (migrationChecked k) k)) else mret ());;
          ok ← ActivateReservedWorker r payload;
          (if ok : bool then
             name ← free (λ _ k, (podName <$> heap k !! r, k));
             match name with
             | Some n => if bool_decide (n = "") || bool_decide (org = "") then mret () else Do (LabelPod n org) Return
             | None => mret ()
             end
           else mret ());;
          (if migrate then
             free (λ _ k, ((), set_orgs (orgs k) (stacks k) (migrating k ∖ {[org]}) (migrationChecked k) k));;
             if ok : bool then free (λ _ k, ((), remember_migration org false k)) else mret ()
           else mret ());;
          match ok, tp_ExpiresAt payload with
          | true, Some t =>
              m ← free (λ _ k, ((λ w, (mw_ID w, mw_ownerEpoch w, mw_ownerCP w)) <$> heap k !! r, k));
              match m with
              | Some (id, epoch, owner) => store (MarkCredentialsRefreshed id owner epoch t);; mret true
              | None => mret true
              end
          | _, _ => mret ok
          end
      end
  end.

Definition RefreshCredentials (r : nat) : prog () :=
  assigned ← free (λ _ k, (w ← heap k !! r; a ← Assignment (SharedState w);
                           if bool_decide (WorkerState.OrgID a = "") then None else Some (a, mw_ID w), k));
  match assigned with
  | None => mret ()
  | Some (a, id) =>
      request ← BuildActivationRequest a;
      match request with
      | None => mret ()
      | Some payload =>
          match tp_ExpiresAt payload with
          | None => mret ()
          | Some t =>
              owner ← free (λ _ k, (default "" (mw_ownerCP <$> heap k !! r), k));
              epoch ← Do (RefreshOwnerEpochAtomic r owner) Return;
              match epoch with
              | None => mret ()
              | Some epoch =>
                  ok ← ActivateTenant r (activation_payload id epoch owner payload);
                  if ok : bool then store (MarkCredentialsRefreshed id owner epoch t);; mret () else mret ()
              end
          end
      end
  end.

(** A tick of the scheduler; [lookahead] is its setting. *)
Definition refresh_tick (lookahead : Z) : prog () :=
  '(own, now) ← free (λ e k, (cpInstanceID k, ch_now e, k));
  due ← store (ListWorkersDueForCredentialRefresh own (now + lookahead));
  match due with
  | inr _ => mret ()
  | inl rows =>
      for_each rows (λ rec,
        w ← mem (λ _ k, (workers k !! W_ID rec, k));
        match w with Some r => RefreshCredentials r | None => mret () end)
  end.

(** * The pool of an organisation *)

Definition belongs (org : string) (w : ManagedWorker) : bool :=
  match Assignment (SharedState w) with Some a => bool_decide (WorkerState.OrgID a = org) | None => false end
  && bool_decide (lifecycle_of w ≠ LifecycleRetired).

Definition findIdleAssignedWorkerLocked (org : string) (order : list Z) (k : pool_memory) : option nat :=
  (λ x, x.1.2) <$> head (filter (λ x, done x.2 = false ∧ activeSessions x.2 = 0 ∧ belongs org x.2 = true ∧ lifecycle_of x.2 = LifecycleHot) (listed order k)).

Definition assignedWorkerCountLocked (org : string) (order : list Z) (k : pool_memory) : Z :=
  Z.of_nat (length (filter (λ x, done x.2 = false ∧ lifecycle_of x.2 ≠ LifecycleHotIdle ∧ belongs org x.2 = true) (listed order k))).

Definition activateWorkerForOrg (r : nat) : prog bool :=
  ready ← mem (λ _ k, match heap k !! r with
                      | Some w => if bool_decide (lifecycle_of w = LifecycleReserved) then try_move LifecycleActivating None r k else (true, k)
                      | None => (false, k)
                      end);
  if negb ready then mret false else
  ok ← activate_with_catalogs r;
  if negb ok then mret false else
  mem (λ _ k, match heap k !! r with
              | Some w => match lifecycle_of w with
                          | LifecycleActivating => try_move LifecycleHot None r k
                          | LifecycleHot => (true, k)
                          | _ => (false, k)
                          end
              | None => (false, k)
              end).

(** A worker is handed out. *)
Definition hand_out (org : string) (r : nat) (k : pool_memory) : option nat * pool_memory :=
  match heap k !! r with
  | Some w => if belongs org w then (Some r, update r add_session k) else (None, k)
  | None => (None, k)
  end.

Inductive acquire_plan := GiveUp | Take (r : nat) | Claim (max : Z) (img : string) | TryLater.

Definition plan_acquire (org : string) (e : choice) (k : pool_memory) : acquire_plan * pool_memory :=
  match orgs k !! org with
  | None => (GiveUp, k)
  | Some (max, img) =>
      match findIdleAssignedWorkerLocked org (ch_order e) k with
      | Some r => (Take r, update r add_session k)
      | None => if bool_decide (max = 0) || bool_decide (assignedWorkerCountLocked org (ch_order e) k < max) then (Claim max img, k)
                else (TryLater, k)
      end
  end.

Fixpoint AcquireWorker (rounds : nat) (org : string) : prog (option nat) :=
  match rounds with
  | O => wait
  | S rounds =>
      cancelled ← ask ch_ok;
      if cancelled : bool then mret None else
      lock;;
      down ← held (λ _ k, (shuttingDown k, k));
      if down : bool then unlock;; mret None else
      cleanDeadWorkersLocked;;
      plan ← held (plan_acquire org);
      unlock;;
      match plan with
      | GiveUp => mret None
      | Take r => mret (Some r)
      | TryLater => AcquireWorker rounds org
      | Claim max img =>
          reserved ← ReserveSharedWorker rounds {| WorkerState.OrgID := org; MaxWorkers := max; Image := img |};
          match reserved with
          | None => mret None
          | Some r =>
              ok ← activateWorkerForOrg r;
              if negb ok then
                id ← free (λ _ k, (mw_ID <$> heap k !! r, k));
                match id with Some id => retireWorkerWithReason id RetireReasonActivationFailure;; mret None | None => mret None end
              else
                given ← mem (λ _ k, hand_out org r k);
                match given with Some r => mret (Some r) | None => AcquireWorker rounds org end
          end
      end
  end.

Definition ReconnectFlightWorker (org : string) (id epoch : Z) : prog (option nat) :=
  '(max, img) ← mem (λ _ k, (default (0, "") (orgs k !! org), k));
  claimed ← claimSpecificWorker id epoch {| WorkerState.OrgID := org; MaxWorkers := max; Image := img |};
  match claimed with
  | None => mret None
  | Some r =>
      ok ← activateWorkerForOrg r;
      if ok : bool then mret (Some r) else
      wid ← free (λ _ k, (mw_ID <$> heap k !! r, k));
      match wid with Some wid => retireWorkerWithReason wid RetireReasonActivationFailure;; mret None | None => mret None end
  end.

Definition ReleaseWorker (id : Z) : prog () :=
  idle ← TransitionToHotIdleIfNoSessions id;
  if idle : bool then mret () else RetireIfDrainingAndEmpty id.

(** Whether the organisation has the worker. *)
Definition has_worker (org : string) (id : Z) : prog bool :=
  mem (λ _ k, (match r ← workers k !! id; heap k !! r with Some w => belongs org w | None => false end, k)).
Definition org_RetireWorker (org : string) (id : Z) : prog () :=
  mine ← has_worker org id; if mine : bool then RetireWorker id else mret ().
Definition org_RetireWorkerIfNoSessions (org : string) (id : Z) : prog () :=
  mine ← has_worker org id;
  if mine : bool then retireWorkerIfNoSessionsWithReason id RetireReasonNormal;; mret () else mret ().

Definition org_ShutdownAll (org : string) : prog () :=
  ids ← mem (λ e k, ((λ x, x.1.1) <$> filter (λ x, belongs org x.2 = true) (listed (ch_order e) k), k));
  for_each ids (λ id, retireWorkerWithReason id RetireReasonShutdown;; mret ()).

(** * Health checks *)

(** The end of a worker whose lease was marked as lost. *)
Definition bury (l : lease) : prog () :=
  removed ← mem (λ _ k, removeWorkerAfterLostLeaseLocked l k);
  match removed with
  | None => mret ()
  | Some r => retireWorkerPod r
  end.

Definition forget_failures (l : lease) : prog () := free (λ _ k, ((), set_seen (nodeFirstSeen k) (delete l (failures k)) k)).

Definition health_check (r : nat) (l : lease) : prog () :=
  gone ← free (λ _ k, (default false (done <$> heap k !! r), k));
  if gone : bool then
    forget_failures l;;
    d ← markWorkerLostForHealthLease l;
    match d with
    | inr _ | inl LeaseRetry => mret ()
    | inl LeaseStale => mem (λ _ k, dropLocalWorkerIfSameLeaseLocked l k);; mret ()
    | inl LeaseCurrent | inl LeaseAlreadyLost => bury l
    end
  else
    healthy ← ask ch_ok;
    if healthy : bool then forget_failures l else
    count ← free (λ _ k, let n := default 0 (failures k !! l) + 1 in (n, set_seen (nodeFirstSeen k) (<[l := n]> (failures k)) k));
    if bool_decide (count < maxConsecutiveHealthFailures) then mret () else
    d ← markWorkerLostForHealthLease l;
    match d with
    | inr _ | inl LeaseRetry => mret ()
    | inl LeaseStale => forget_failures l;; mem (λ _ k, dropLocalWorkerIfSameLeaseLocked l k);; mret ()
    | inl LeaseCurrent | inl LeaseAlreadyLost => forget_failures l;; bury l
    end.

(** One tick of HealthCheckLoop. *)
Definition health_tick : prog () :=
  targets ← mem (λ e k, (if shuttingDown k then [] else (λ x, (x.1.2, workerLeaseSnapshot k x.2)) <$> listed (ch_order e) k, k));
  for_each targets (λ x, go (health_check x.1 x.2)).

(** onPodTerminated, from the informer. *)
Definition onPodTerminated (id : Z) : prog () :=
  w ← mem (λ _ k, (workers k !! id, k));
  match w with
  | Some r => free (λ _ k, ((), update r set_done k))
  | None => mret ()
  end.

(** * Reaping *)

(** Retires the ones it is given, as long as enough idle ones stay. *)
Fixpoint reap (idleCount : Z) (candidates : list (Z * nat * ManagedWorker)) : prog (list nat) :=
  match candidates with
  | [] => mret []
  | (id, r, w) :: rest =>
      enough ← held (λ _ k, (bool_decide (idleCount ≤ minWorkers k), k));
      if enough : bool then mret [] else
      markWorkerRetiredLocked r RetireReasonIdleTimeout;;
      held (λ e k, ((), let k := unlist id k in pruneNodeFirstSeenLocked (filter (λ i, i ≠ id) (ch_order e)) (nodeName w) k));;
      rest ← reap (idleCount - 1) rest;
      mret (r :: rest)
  end.

Definition seen_later (k : pool_memory) (now : time) (x y : Z * nat * ManagedWorker) : Prop :=
  nodeSeenAtLocked (nodeName y.2) now k ≤ nodeSeenAtLocked (nodeName x.2) now k.
#[local] Instance seen_later_dec k now : RelDecision (seen_later k now).
Proof. intros x y. unfold seen_later. apply _. Defined.

Definition reapIdleWorkers : prog () :=
  lock;;
  '(idleCount, candidates) ← held (λ e k,
    let all := listed (ch_order e) k in
    let old := filter (λ x, isWarmIdleWorkerLocked x.2 = true ∧ lastUsed x.2 ≠ 0 ∧ idleTimeout k < ch_now e - lastUsed x.2) all in
    (Z.of_nat (length (filter (λ x, isWarmIdleWorkerLocked x.2 = true) all)), merge_sort (seen_later k (ch_now e)) old, k));
  retired ← reap idleCount candidates;
  unlock;;
  for_each retired (λ r, go (retireWorkerPod r)).

Definition stuck (timeout now : Z) (w : ManagedWorker) : bool :=
  negb (done w) && bool_decide (lifecycle_of w = LifecycleReserved ∨ lifecycle_of w = LifecycleActivating)
  && bool_decide (reservedAt w ≠ 0) && bool_decide (timeout < now - reservedAt w).

Definition reapStuckActivatingWorkers : prog () :=
  lock;;
  stuck ← held (λ e k, (filter (λ x, stuck (if bool_decide (activatingTimeout k ≤ 0) then defaultActivatingTimeout else activatingTimeout k)
                                            (ch_now e) x.2 = true) (listed (ch_order e) k), k));
  for_each stuck (λ x, markWorkerRetiredLocked x.1.2 RetireReasonStuckActivating;; held (λ _ k, ((), unlist x.1.1 k)));;
  unlock;;
  for_each stuck (λ x, go (retireWorkerPod x.1.2)).

(** One tick of idleReaper. *)
Definition idle_reaper_tick : prog () :=
  on ← free (λ _ k, (bool_decide (0 < idleTimeout k), k));
  (if on : bool then reapIdleWorkers else mret ());;
  reapStuckActivatingWorkers.

(** * Pods that should not be there *)

(** RetireOneMismatchedVersionWorker over the pods that were listed. *)
Fixpoint retire_mismatched (myVersion : string) (pods : list (string * Z * string * option string * string * time)) : prog bool :=
  match pods with
  | [] => mret false
  | (name, id, cp, _, img, _) :: rest =>
      if bool_decide (cp = "") then retire_mismatched myVersion rest else
      snap ← store (ObserveWorker id);
      let snap := match snap with inl s => s | inr _ => None end in
      let org := match snap with Some s => W_OrgID (snap_record s) | None => "" end in
      target ← (if bool_decide (org = "") then mret None
                else cfg ← ask ch_image; own ← free (λ _ k, (workerImage k, k));
                     mret (match cfg with Some i => Some (or_default i own) | None => None end));
      let mismatched := if bool_decide (org = "") then bool_decide (trimK8sPodHashSuffix cp ≠ myVersion)
                        else match target with
                             | None => false
                             | Some t => let actual := or_default img (match snap with Some s => W_Image (snap_record s) | None => "" end) in
                                         bool_decide (actual ≠ "" ∧ actual ≠ t)
                             end in
      match mismatched, snap with
      | true, Some s =>
          res ← with_cleanup (RetireIdleVariantFromSnapshot lifecycle s RetireReasonMismatchedVersion);
          match res with
          | Some lr => if bool_decide (lr_err lr = None) && Transitioned (lr_outcome lr) then delete_pod name;; mret true
                       else retire_mismatched myVersion rest
          | None => retire_mismatched myVersion rest
          end
      | _, _ => retire_mismatched myVersion rest
      end
  end.

Definition RetireOneMismatchedVersionWorker : prog bool :=
  '(id, mine) ← free (λ _ k, (cpID k, trimK8sPodHashSuffix (cpID k), k));
  if bool_decide (mine = id) then mret false else
  pods ← Do ListPods Return;
  match pods with Some ps => retire_mismatched mine ps | None => mret false end.

Definition cleanupOrphanedWorkerPods (minAge : Z) : prog () :=
  pods ← Do ListPods Return;
  now ← ask ch_now;
  match pods with
  | None => mret ()
  | Some ps =>
      for_each ps (λ x,
        let '(name, id, _, _, _, created) := x in
        if bool_decide (now - minAge < created) then mret () else
        rec ← store (GetWorkerRecord id);
        match rec with
        | inl (Some r) => if bool_decide (W_State r = Retired ∨ W_State r = Lost) then delete_pod name;; mret () else mret ()
        | inl None => delete_pod name;; mret ()
        | inr _ => mret ()
        end)
  end.

(** * Shutting down *)

(** One worker of ShutdownAll; [true] when it is kept. *)
Definition shut_down (r : nat) : prog bool :=
  w ← free (λ _ k, ((λ w, (mw_ID w, activeSessions w, workerPodName k w, cpInstanceID k, mw_ownerEpoch w)) <$> heap k !! r, k));
  match w with
  | None => mret false
  | Some (id, active, name, own, epoch) =>
      if bool_decide (0 < active) then mret true else
      drained ← store (Drain lifecycle (NewWorkerLease id own epoch));
      match drained with
      | inl lr =>
          if bool_decide (lr_err lr = None) && Transitioned (lr_outcome lr) then
            gone ← delete_pod name;
            if negb gone then mret false else
            late ← free (λ _ k, (default 0 (mw_ownerEpoch <$> heap k !! r), k));
            retired ← store (RetireDrained lifecycle (NewWorkerLease id own late) RetireReasonShutdown);
            match retired with
            | inl lr => if bool_decide (lr_err lr = None)
                        then mem (λ _ k, ((), markWorkerRetiredInMemoryLocked r k));; mret false else mret false
            | inr _ => mret false
            end
          else mret false
      | inr _ => mret false
      end
  end.

Fixpoint shut_down_all (rs : list (Z * nat)) : prog (list (Z * nat)) :=
  match rs with
  | [] => mret []
  | (id, r) :: rs => keep ← shut_down r; kept ← shut_down_all rs; mret (if keep : bool then (id, r) :: kept else kept)
  end.

Definition ShutdownAll : prog () :=
  ws ← mem (λ e k, (if shuttingDown k then None else Some ((λ x, (x.1.1, x.1.2)) <$> listed (ch_order e) k), set_lock true (mu k) k));
  match ws with
  | None => mret ()
  | Some rs =>
      kept ← shut_down_all rs;
      mem (λ _ k, ((), set_workers (list_to_map kept) (heap k) k))
  end.

(** DestroyAllSessions, as far as the pool is concerned: each session gives its worker back.
    [held] has the worker of every session; SessionManager models the rest. *)
Definition destroy_sessions (held : list Z) : prog () := for_each held ReleaseWorker.

(** The shut-down of the router: the organisations in some order, then the shared pool. *)
Definition some_order (order : list string) (names : gset string) : list string :=
  if bool_decide (NoDup order) && bool_decide (list_to_set order =@{gset string} names) then order else elements names.
Definition router_ShutdownAll (order : list string) (held : string → list Z) : prog () :=
  os ← free (λ _ k, (some_order order (stacks k), set_orgs (orgs k) ∅ (migrating k) (migrationChecked k) k));
  for_each os (λ org, destroy_sessions (held org);; org_ShutdownAll org);;
  ShutdownAll.
Definition DestroyOrgStack (org : string) (held : list Z) : prog () :=
  had ← free (λ _ k, (bool_decide (org ∈ stacks k), set_orgs (orgs k) (stacks k ∖ {[org]}) (migrating k) (migrationChecked k) k));
  if had : bool then destroy_sessions held;; org_ShutdownAll org else mret ().

(** * Settings *)

Definition createOrgStack (org : string) (max : Z) (img : string) : prog () :=
  free (λ _ k, ((), set_orgs (<[org := (max, img)]> (orgs k)) ({[org]} ∪ stacks k) (migrating k) (migrationChecked k) k)).
Definition org_SetMaxWorkers (org : string) (n : Z) : prog () :=
  mem (λ _ k, ((), set_orgs (alter (λ x, (n, x.2)) org (orgs k)) (stacks k) (migrating k) (migrationChecked k) k)).
Definition org_SetWorkerImage (org img : string) : prog () :=
  mem (λ _ k, ((), set_orgs (alter (λ x, (x.1, img)) org (orgs k)) (stacks k) (migrating k) (migrationChecked k) k)).
Definition SetMaxWorkers (n : Z) : prog () :=
  mem (λ _ k, ((), set_limits (spawning k) n (minWorkers k) (perImageWarmTarget k) k)).
Definition SetWarmCapacityTarget (n : Z) : prog () :=
  mem (λ _ k, ((), set_limits (spawning k) (maxWorkers k) (Z.max 0 n) (perImageWarmTarget k) k)).
Definition SetPerImageWarmTargets (targets : gmap string Z) : prog () :=
  let clean := filter (λ x : string * Z, x.1 ≠ "" ∧ 0 < x.2) targets in
  mem (λ _ k, ((), set_limits (spawning k) (maxWorkers k) (minWorkers k) clean k)).

(** * The calls of the other components *)

Inductive call :=
  | CallAcquire (rounds : nat) (org : string)
  | CallReconnect (org : string) (id epoch : Z)
  | CallRelease (id : Z)
  | CallRetire (org : string) (id : Z)
  | CallRetireIfNoSessions (org : string) (id : Z)
  | CallDeleteArtifacts (id : Z) (pod : string)
  | CallSpawnMin (count : Z)
  | CallSpawnMinForImage (img : string) (count : Z)
  | CallHealthTick
  | CallPodTerminated (id : Z)
  | CallReaperTick
  | CallRefreshTick (lookahead : Z)
  | CallRetireMismatched
  | CallCleanupPods (minAge : Z)
  | CallShutdown (order : list string) (held : string → list Z)
  | CallDestroyStack (org : string) (held : list Z)
  | CallCreateStack (org : string) (max : Z) (img : string)
  | CallSetOrgMax (org : string) (n : Z)
  | CallSetOrgImage (org img : string)
  | CallSetMax (n : Z)
  | CallSetWarmTarget (n : Z)
  | CallSetImageTargets (targets : gmap string Z).

(** What a call ends with: a worker for a session of the organisation, or nothing. *)
Inductive result := Acquired (org : string) (r : nat) | Finished.

Definition acquired (org : string) (p : prog (option nat)) : prog result :=
  r ← p; mret (match r with Some r => Acquired org r | None => Finished end).
Definition finished {A} (p : prog A) : prog result := p;; mret Finished.

Definition program (c : call) : prog result :=
  match c with
  | CallAcquire rounds org => acquired org (AcquireWorker rounds org)
  | CallReconnect org id epoch => acquired org (ReconnectFlightWorker org id epoch)
  | CallRelease id => finished (ReleaseWorker id)
  | CallRetire org id => finished (org_RetireWorker org id)
  | CallRetireIfNoSessions org id => finished (org_RetireWorkerIfNoSessions org id)
  | CallDeleteArtifacts id pod => finished (DeleteWorkerArtifacts id pod)
  | CallSpawnMin count => finished (SpawnMinWorkers count)
  | CallSpawnMinForImage img count => finished (SpawnMinWorkersForImage img count)
  | CallHealthTick => finished health_tick
  | CallPodTerminated id => finished (onPodTerminated id)
  | CallReaperTick => finished idle_reaper_tick
  | CallRefreshTick lookahead => finished (refresh_tick lookahead)
  | CallRetireMismatched => finished RetireOneMismatchedVersionWorker
  | CallCleanupPods minAge => finished (cleanupOrphanedWorkerPods minAge)
  | CallShutdown order held => finished (router_ShutdownAll order held)
  | CallDestroyStack org held => finished (DestroyOrgStack org held)
  | CallCreateStack org max img => finished (createOrgStack org max img)
  | CallSetOrgMax org n => finished (org_SetMaxWorkers org n)
  | CallSetOrgImage org img => finished (org_SetWorkerImage org img)
  | CallSetMax n => finished (SetMaxWorkers n)
  | CallSetWarmTarget n => finished (SetWarmCapacityTarget n)
  | CallSetImageTargets targets => finished (SetPerImageWarmTargets targets)
  end.
End pool.

(** * The cluster *)

(** A control plane as it starts. *)
Definition new_memory (instance id img spec : string) (idle activating max : Z) : pool_memory := {|
  cpInstanceID := instance; cpID := id; workerImage := img; idleTimeout := idle; activatingTimeout := activating;
  defaultSpecVersion := spec; workers := ∅; heap := []; spawning := 0; maxWorkers := max; minWorkers := 0;
  perImageWarmTarget := ∅; shuttingDown := false; mu := false; nodeFirstSeen := ∅; failures := ∅; orgs := ∅; stacks := ∅;
  migrating := ∅; migrationChecked := ∅ |}.

Section cluster.
Context `{HD : DuckDB} `{HU : UnicodeCase} {D : Type} `{HW : World D}.
Local Notation prog := (prog (D := D)).
Local Notation world := (world (D := D)).

Record thread := { t_cp : string; t_prog : prog result }.
Record cluster := { c_world : world; c_threads : list thread }.

(** [Outside] is whatever else happens in the database, [PodStep] what a worker does
    besides being activated, which only control planes can ask for. *)
Inductive cluster_event :=
  | Join (instance id img spec : string) (idle activating max : Z)
  | Start (cp : string) (c : call)
  | Run (i : nat) (e : choice)
  | PodStep (i : nat) (e : worker_event)
  | Outside (d : D).

Definition prog_step (c : string) (e : choice) {A} (p : prog A) (s : world) : option (world * prog A * list (prog ())) :=
  match p in Cluster.prog A return option (world * prog A * list (prog ())) with
  | Return _ => None
  | Do o k => match op_step c e o s with Some (b, s') => Some (s', k b, []) | None => None end
  | Go q k => Some (s, k, [q])
  end.

Definition cluster_step (ev : cluster_event) (s : cluster) : option cluster :=
  match ev with
  | Join instance id img spec idle activating max =>
      match w_cps (c_world s) !! instance with
      | Some _ => None
      | None => Some {| c_world := with_memory instance (new_memory instance id img spec idle activating max) (c_world s);
                        c_threads := c_threads s |}
      end
  | Start c call => Some {| c_world := c_world s; c_threads := c_threads s ++ [{| t_cp := c; t_prog := program call |}] |}
  | Run i e =>
      match c_threads s !! i with
      | None => None
      | Some t =>
          match prog_step (t_cp t) e (t_prog t) (c_world s) with
          | None => None
          | Some (w, p, forked) =>
              Some {| c_world := w;
                      c_threads := <[i := {| t_cp := t_cp t; t_prog := p |}]> (c_threads s)
                                     ++ map (λ q, {| t_cp := t_cp t; t_prog := finished q |}) forked |}
          end
      end
  | PodStep i ev =>
      match ev with
      | Activate _ => None
      | _ =>
          match (p ← w_pods (c_world s) !! i; w ← worker_step ev (pod_worker p); Some (set_worker w p)) with
          | Some p => Some {| c_world := with_pods (<[i := p]> (w_pods (c_world s))) (c_world s); c_threads := c_threads s |}
          | None => None
          end
      end
  | Outside d => Some {| c_world := with_db d (c_world s); c_threads := c_threads s |}
  end.

Inductive cluster_reachable : cluster → Prop :=
  | cluster_start d : cluster_reachable {| c_world := {| w_db := d; w_pods := []; w_cps := ∅ |}; c_threads := [] |}
  | cluster_next ev s s' : cluster_reachable s → cluster_step ev s = Some s' → cluster_reachable s'.

Fixpoint cluster_run (evs : list cluster_event) (s : cluster) : option cluster :=
  match evs with
  | [] => Some s
  | ev :: evs => match cluster_step ev s with Some s' => cluster_run evs s' | None => None end
  end.
End cluster.
