(* ===== verification/K8sTheorems.v ===== *)
(** Tenancy across a cluster: the worker a session of an organisation is given is in a pod
    whose process was activated for that organisation, whatever the control planes, the
    pods, the database and the network do. Programs are shown safe one effect at a time,
    from facts that no step of anyone can undo. *)

From Stdlib Require Import Strings.Byte.
From stdpp Require Import prelude gmap strings list fin_maps.
From Stdlib Require Import ZArith Lia.
From S2P Require Import Prelude GoText DuckLake Catalogs RuntimeDB RuntimeStore Lifecycle WorkerState TenantRuntime Cluster K8sPool.

Open Scope string_scope.
Open Scope list_scope.
Open Scope Z_scope.

(** * Changes to workers *)

(** In use by its organisation, or kept for it. *)
Definition hot (w : ManagedWorker) : Prop := lifecycle_of w = LifecycleHot ∨ lifecycle_of w = LifecycleHotIdle.

(** The worker is the same one: its connection and, once it has one, its organisation. *)
Definition same_worker (w w' : ManagedWorker) : Prop :=
  client w' = client w ∧ ∀ org, bound_to (sharedState w) org → bound_to (sharedState w') org.

(** A change that makes no worker hot. *)
Definition calm (w w' : ManagedWorker) : Prop := same_worker w w' ∧ (hot w' → hot w).

Definition heap_evo (h h' : list ManagedWorker) : Prop :=
  ∀ r w, h !! r = Some w → ∃ w', h' !! r = Some w' ∧ same_worker w w'.
Definition heap_calm (h h' : list ManagedWorker) : Prop :=
  (∀ r w, h !! r = Some w → ∃ w', h' !! r = Some w' ∧ calm w w') ∧
  (∀ r w', h' !! r = Some w' → h !! r = None → ¬ hot w').

Lemma same_worker_refl w : same_worker w w.
Proof. by split. Qed.
Lemma same_worker_trans w1 w2 w3 : same_worker w1 w2 → same_worker w2 w3 → same_worker w1 w3.
Proof. intros [? ?] [? ?]. split; [congruence|auto]. Qed.
Lemma calm_refl w : calm w w.
Proof. split; [apply same_worker_refl|done]. Qed.
Lemma calm_trans w1 w2 w3 : calm w1 w2 → calm w2 w3 → calm w1 w3.
Proof. intros [? ?] [? ?]. split; [by eapply same_worker_trans|auto]. Qed.
(** What leaves the connection and the state alone is calm. *)
Lemma calm_fields w w' : client w' = client w → sharedState w' = sharedState w → calm w w'.
Proof. intros Hc Hs. split; [split; [done|by rewrite Hs]|]. unfold hot, lifecycle_of, SharedState. by rewrite Hs. Qed.

Lemma heap_calm_refl h : heap_calm h h.
Proof. split; [intros r w Hr; exists w; split; [done|apply calm_refl]|by intros r w' ->]. Qed.
Lemma heap_calm_trans h1 h2 h3 : heap_calm h1 h2 → heap_calm h2 h3 → heap_calm h1 h3.
Proof.
  intros [H1 N1] [H2 N2]. split.
  - intros r w (w2 & Hr2 & Hc)%H1. destruct (H2 _ _ Hr2) as (w3 & ? & ?). exists w3. split; [done|by eapply calm_trans].
  - intros r w3 Hr3 Hr1. destruct (h2 !! r) as [w2|] eqn:Hr2; [|by eapply N2].
    destruct (H2 _ _ Hr2) as (w3' & Hr3' & _ & Hh). rewrite Hr3 in Hr3'. injection Hr3' as <-.
    intros Hhot. by apply (N1 r w2 Hr2 Hr1), Hh.
Qed.
Lemma heap_calm_evo h h' : heap_calm h h' → heap_evo h h'.
Proof. intros [Hc _] r w (w' & ? & ? & _)%Hc. by exists w'. Qed.
Lemma heap_evo_refl h : heap_evo h h.
Proof. intros r w Hr. exists w. split; [done|apply same_worker_refl]. Qed.
Lemma heap_evo_trans h1 h2 h3 : heap_evo h1 h2 → heap_evo h2 h3 → heap_evo h1 h3.
Proof.
  intros H1 H2 r w (w2 & Hr2 & Hs)%H1. destruct (H2 _ _ Hr2) as (w3 & ? & ?).
  exists w3. split; [done|by eapply same_worker_trans].
Qed.

Lemma calm_alter f r h : (∀ w, h !! r = Some w → calm w (f w)) → heap_calm h (alter f r h).
Proof.
  intros Hf. split.
  - intros r' w Hr. destruct (decide (r' = r)) as [->|Hne].
    + exists (f w). rewrite list_lookup_alter_eq, Hr. split; [done|by apply Hf].
    + exists w. rewrite list_lookup_alter_ne by done. split; [done|apply calm_refl].
  - intros r' w' Hr' Hr. destruct (decide (r' = r)) as [->|Hne].
    + by rewrite list_lookup_alter_eq, Hr in Hr'.
    + rewrite list_lookup_alter_ne in Hr' by done. congruence.
Qed.
Lemma calm_snoc h w : ¬ hot w → heap_calm h (h ++ [w]).
Proof.
  intros Hw. split.
  - intros r w0 Hr. exists w0. split; [by apply lookup_app_l_Some|apply calm_refl].
  - intros r w' Hr' Hr. apply lookup_app_Some in Hr' as [?|[_ Hr']]; [congruence|].
    by apply list_lookup_singleton_Some in Hr' as [_ <-].
Qed.

(** * Transitions *)

Lemma clone_bound s org : bound_to (cloneSharedWorkerState s) org ↔ bound_to s org.
Proof. done. Qed.
Lemma clone_lifecycle s : NormalizedLifecycle (cloneSharedWorkerState s) = NormalizedLifecycle s.
Proof. unfold NormalizedLifecycle, cloneSharedWorkerState. cbn. unfold NormalizedLifecycle. by destruct (WorkerState.Lifecycle s). Qed.

Lemma lifecycle_set_shared s w : lifecycle_of (set_shared (cloneSharedWorkerState s) w) = NormalizedLifecycle s.
Proof. unfold lifecycle_of, SharedState. cbn [sharedState set_shared]. by rewrite !clone_lifecycle. Qed.

(** What a transition does to a worker. *)
Lemma move_inv next a w w' : move next a w = Some w' →
  client w' = client w ∧ lifecycle_of w' = next ∧ isAllowedWorkerLifecycleTransition (lifecycle_of w) next = true ∧
  (∀ org, bound_to (sharedState w) org → bound_to (sharedState w') org) ∧
  (∀ x, a = Some x → bound_to (sharedState w') (WorkerState.OrgID x)).
Proof.
  unfold move. destruct (Transition _ _ _) as [s| |] eqn:Ht; [|done..]. unfold SetSharedState.
  pose proof (Transition_inv _ _ _ _ Ht) as (_ & Hal & Hl & Hv & Hres & _). rewrite Hv. intros [= <-].
  split; [done|]. split.
  { rewrite lifecycle_set_shared. unfold NormalizedLifecycle. rewrite Hl. destruct next; try done. by destruct (NormalizedLifecycle (SharedState w)). }
  split; [done|]. split.
  - intros org Hb. apply clone_bound. apply (step_keeps_org (SharedState w)); [by econstructor|done].
  - intros x ->. apply clone_bound. unfold bound_to.
    destruct (resolve_inv _ _ _ (Hres ltac:(by right))) as (y & -> & _ & _ & _ & Hy). cbn. by rewrite (Hy x).
Qed.

Lemma move_calm next a w w' : next ≠ LifecycleHot → move next a w = Some w' → calm w w'.
Proof.
  intros Hn (Hc & Hl & Hal & Hb & _)%move_inv. split; [by split|]. unfold hot. rewrite Hl. intros [->| ->]; [done|].
  left. by destruct (lifecycle_of w).
Qed.

(** * Calm sections *)

Create HintDb calm.

Definition calm_section {B} (f : choice → pool_memory → B * pool_memory) : Prop :=
  ∀ e k, heap_calm (heap k) (heap (f e k).2).

Lemma update_calm r f k k' : heap_calm (heap k) (heap k') → (∀ w, calm w (f w)) → heap_calm (heap k) (heap (update r f k')).
Proof. intros Hk Hf. eapply heap_calm_trans; [done|]. apply calm_alter. auto. Qed.
Lemma try_move_calm next a r k k' : heap_calm (heap k) (heap k') → next ≠ LifecycleHot → heap_calm (heap k) (heap (try_move next a r k').2).
Proof.
  intros Hk Hn. unfold try_move. destruct (w ← heap k' !! r; move next a w) as [w'|] eqn:E; [|done].
  eapply heap_calm_trans; [done|]. cbn. apply calm_alter. intros w Hw. rewrite Hw in E. cbn in E. by eapply move_calm.
Qed.
Lemma enlist_calm w k k' : heap_calm (heap k) (heap k') → ¬ hot w → heap_calm (heap k) (heap (enlist w k')).
Proof. intros Hk Hw. eapply heap_calm_trans; [done|]. by apply calm_snoc. Qed.
Lemma new_managed_cold id pod node img c owner epoch : ¬ hot (new_managed id pod node img c owner epoch).
Proof. by intros [?|?]. Qed.

(** * The world *)

(** The activation a request asks for. *)
Definition payload_of (r : request) : option ActivationPayload :=
  match r with
  | AReceived p | AChecking p | AChoosing p | AAttaching p _ _ | ACommitting p _ | RInspecting p | RRefreshingS3 p _
  | RRefreshingIceberg p _ | RCommitting p | AReplied p _ => Some p
  | _ => None
  end.

Section world.
Context `{HD : DuckDB} `{HU : UnicodeCase} {D : Type} `{HW : World D}.
Local Notation world := (world (D := D)).

Lemma check_payload payload p : payload_of (activate_check payload p) = Some payload.
Proof. unfold activate_check. by repeat case_match. Qed.

Lemma request_keeps_payload s r p r' p' : request_step s r p = Some (r', p') → payload_of r' = payload_of r.
Proof.
  destruct r; cbn;
    unfold doActivateTenant, activation_db, attach_catalogs, reuse_inspect, reuse_refresh_s3, reuse_refresh_iceberg,
      doCreateSession, session_db, session_fallback, session_refused, doDestroySession;
    intros Hs; try (injection Hs as <- <-; by rewrite ?check_payload);
    try (destruct (on_db _ _ _) as [[res p1]|]; cbn in Hs; [|done]);
    repeat case_match; by simplify_eq.
Qed.

Lemma worker_keeps_requests ev w w' j r : worker_step ev w = Some w' → requests w !! j = Some r →
  ∃ r', requests w' !! j = Some r' ∧ payload_of r' = payload_of r.
Proof.
  intros Hs Hj. destruct ev as [payload|user m|token m|i s|s|]; cbn in Hs.
  1-3: injection Hs as <-; exists r; split; [by apply lookup_app_l_Some|done].
  - destruct (requests w !! i) as [ri|] eqn:Ei; [|done]. cbn in Hs.
    destruct (request_step s ri (pool w)) as [[r' p']|] eqn:Es; [|done]. injection Hs as <-. cbn.
    destruct (decide (i = j)) as [->|Hne].
    + exists r'. rewrite list_lookup_insert_eq by (by eapply lookup_lt_Some). simplify_eq.
      split; [done|by eapply request_keeps_payload].
    + exists r. by rewrite list_lookup_insert_ne by done.
  - destruct (warmupDone (pool w)); [done|]. injection Hs as <-. by exists r.
  - injection Hs as <-. by exists r.
Qed.

Definition worker_evo (w w' : worker) : Prop :=
  evolves (pool w) (pool w') ∧ ∀ j r, requests w !! j = Some r → ∃ r', requests w' !! j = Some r' ∧ payload_of r' = payload_of r.

Lemma worker_evo_refl w : worker_evo w w.
Proof. split; [apply evolves_refl|eauto]. Qed.
Lemma worker_evo_trans w1 w2 w3 : worker_evo w1 w2 → worker_evo w2 w3 → worker_evo w1 w3.
Proof.
  intros [He1 Hr1] [He2 Hr2]. split; [by eapply evolves_trans|].
  intros j r (r2 & Hj & Hp)%Hr1. destruct (Hr2 _ _ Hj) as (r3 & ? & ?). exists r3. split; [done|congruence].
Qed.
(** A process that waits for its organisation, or has it. *)
Definition tenant_worker (w : worker) : Prop := worker_ok w ∧ sharedWarmMode (pool w) = true.

Lemma worker_step_evo ev w w' : tenant_worker w → worker_step ev w = Some w' → tenant_worker w' ∧ worker_evo w w'.
Proof.
  intros [Hw Hm] Hs. destruct (worker_step_ok _ _ _ Hw Hs) as [Hw' He]. split; [split; [done|destruct He; congruence]|]. split; [done|].
  intros j r. by apply worker_keeps_requests with ev.
Qed.

(** What nothing that happens can undo. *)
Record world_evo (s s' : world) : Prop := {
  evo_pods : ∀ i p, w_pods s !! i = Some p → ∃ p', w_pods s' !! i = Some p' ∧ worker_evo (pod_worker p) (pod_worker p');
  evo_cps : ∀ c k, w_cps s !! c = Some k → ∃ k', w_cps s' !! c = Some k' ∧ heap_evo (heap k) (heap k');
}.

(** The pod's process is activated for the organisation. *)
Definition active (s : world) (i : nat) (org : string) : Prop :=
  ∃ p q db, w_pods s !! i = Some p ∧ activation (pool (pod_worker p)) = Some (q, db) ∧ OrgID q = org.

(** The processes are as TenantRuntime says, and hot workers are in pods activated for the
    organisation they are bound to. *)
Record world_ok (s : world) : Prop := {
  ok_pods : ∀ i p, w_pods s !! i = Some p → tenant_worker (pod_worker p);
  ok_hot : ∀ c k r w, w_cps s !! c = Some k → heap k !! r = Some w → hot w →
    ∃ org i, bound_to (sharedState w) org ∧ client w = Some i ∧ active s i org;
}.

Lemma world_evo_refl s : world_evo s s.
Proof.
  split; [intros i p Hp; exists p; split; [done|apply worker_evo_refl]|].
  intros c k Hk. exists k. split; [done|apply heap_evo_refl].
Qed.
Lemma world_evo_trans s1 s2 s3 : world_evo s1 s2 → world_evo s2 s3 → world_evo s1 s3.
Proof.
  intros [P1 C1] [P2 C2]. split.
  - intros i p (p2 & Hp2 & He)%P1. destruct (P2 _ _ Hp2) as (p3 & ? & ?). exists p3. split; [done|by eapply worker_evo_trans].
  - intros c k (k2 & Hk2 & He)%C1. destruct (C2 _ _ Hk2) as (k3 & ? & ?). exists k3. split; [done|by eapply heap_evo_trans].
Qed.

Lemma active_evo s s' i org : world_evo s s' → active s i org → active s' i org.
Proof.
  intros [Hp _] (p & q & db & Hi & Ha & Ho). destruct (Hp _ _ Hi) as (p' & Hi' & (_ & _ & He) & _).
  destruct (He _ _ Ha) as (q' & Ha' & Hs & _). exists p', q', db. split; [done|]. split; [done|].
  apply same_runtime_org in Hs. congruence.
Qed.

(** Changes to the pods alone. *)
Lemma with_pods_ok s ps : world_ok s →
  (∀ i p, w_pods s !! i = Some p → ∃ p', ps !! i = Some p' ∧ worker_evo (pod_worker p) (pod_worker p')) →
  (∀ i p, ps !! i = Some p → tenant_worker (pod_worker p)) →
  world_ok (with_pods ps s) ∧ world_evo s (with_pods ps s).
Proof.
  intros [Hp Hh] He Hok.
  assert (world_evo s (with_pods ps s)) as Hev.
  { split; [done|]. intros c k Hk. exists k. split; [done|apply heap_evo_refl]. }
  split; [|done]. split; [done|]. intros c k r w Hk Hr Hw.
  destruct (Hh _ _ _ _ Hk Hr Hw) as (org & i & ? & ? & ?). exists org, i. split; [done|]. split; [done|by eapply active_evo].
Qed.

Lemma alter_pod_ok s i f : world_ok s → (∀ p, pod_worker (f p) = pod_worker p) →
  world_ok (with_pods (alter f i (w_pods s)) s) ∧ world_evo s (with_pods (alter f i (w_pods s)) s).
Proof.
  intros Hs Hf. apply with_pods_ok; [done| |].
  - intros j p Hj. destruct (decide (j = i)) as [->|].
    + exists (f p). rewrite list_lookup_alter_eq, Hj, Hf. split; [done|apply worker_evo_refl].
    + exists p. rewrite list_lookup_alter_ne by done. split; [done|apply worker_evo_refl].
  - intros j p. destruct (decide (j = i)) as [->|].
    + rewrite list_lookup_alter_eq. intros (p0 & Hp0 & ->)%fmap_Some. rewrite Hf. by eapply ok_pods.
    + rewrite list_lookup_alter_ne by done. by eapply ok_pods.
Qed.

Lemma insert_worker_ok s i p ev w : world_ok s → w_pods s !! i = Some p → worker_step ev (pod_worker p) = Some w →
  world_ok (with_pods (<[i := set_worker w p]> (w_pods s)) s) ∧ world_evo s (with_pods (<[i := set_worker w p]> (w_pods s)) s).
Proof.
  intros Hs Hi Hw. destruct (worker_step_evo _ _ _ (ok_pods s Hs i p Hi) Hw) as [Hok He].
  apply with_pods_ok; [done| |].
  - intros j p0 Hj. destruct (decide (j = i)) as [->|].
    + exists (set_worker w p). rewrite list_lookup_insert_eq by (by eapply lookup_lt_Some). by simplify_eq.
    + exists p0. rewrite list_lookup_insert_ne by done. split; [done|apply worker_evo_refl].
  - intros j p0. destruct (decide (j = i)) as [->|].
    + rewrite list_lookup_insert_eq by (by eapply lookup_lt_Some). by intros [= <-].
    + rewrite list_lookup_insert_ne by done. by eapply ok_pods.
Qed.

(** Changes to a control plane's memory alone, that make no worker hot. *)
Lemma with_memory_evo c k k' s : w_cps s !! c = Some k → heap_evo (heap k) (heap k') → world_evo s (with_memory c k' s).
Proof.
  intros Hk He. split; [intros i p Hp; exists p; split; [done|apply worker_evo_refl]|]. intros c' k0 Hk0. cbn.
  destruct (decide (c' = c)) as [->|].
  - exists k'. rewrite lookup_insert_eq. by simplify_eq.
  - exists k0. rewrite lookup_insert_ne by done. split; [done|apply heap_evo_refl].
Qed.
Lemma with_memory_calm c k k' s : world_ok s → w_cps s !! c = Some k → heap_calm (heap k) (heap k') →
  world_ok (with_memory c k' s) ∧ world_evo s (with_memory c k' s).
Proof.
  intros Hs Hk Hc. split; [|by eapply with_memory_evo, heap_calm_evo].
  split; [exact (ok_pods s Hs)|]. intros c' k0 r w. cbn. destruct (decide (c' = c)) as [->|].
  - rewrite lookup_insert_eq. intros [= <-] Hr Hw. destruct Hc as [Hold Hnew].
    destruct (heap k !! r) as [w0|] eqn:Hr0; [|by destruct (Hnew _ _ Hr Hr0)].
    destruct (Hold _ _ Hr0) as (w1 & Hr1 & (Hcl & Hb) & Hh). rewrite Hr in Hr1. injection Hr1 as <-.
    destruct (ok_hot s Hs _ _ _ _ Hk Hr0 (Hh Hw)) as (org & i & ? & ? & ?).
    exists org, i. split; [by apply Hb|]. split; [congruence|done].
  - rewrite lookup_insert_ne by done. intros Hk0 Hr Hw. by eapply (ok_hot s Hs).
Qed.

Lemma with_db_ok s d : world_ok s → world_ok (with_db d s) ∧ world_evo s (with_db d s).
Proof. intros [Hp Hh]. split; [by split|]. destruct (world_evo_refl s). by split. Qed.

(** * Effects *)

Definition calm_op {B} (o : op (D := D) B) : Prop :=
  match o with
  | Mem f | Held f | Free f => calm_section f
  | _ => True
  end.

Lemma section_calm {B} c e (f : choice → pool_memory → B * pool_memory) k s b s' :
  world_ok s → w_cps s !! c = Some k → calm_section f → section_step c e f k s = Some (b, s') → world_ok s' ∧ world_evo s s'.
Proof.
  intros Hs Hk Hf. unfold section_step. destruct (an_order _ _); [|done]. pose proof (Hf e k) as Hc.
  destruct (f e k) as [b' k']. intros [= <- <-]. by apply with_memory_calm with k.
Qed.

Lemma new_pod_ok e name img cp id : tenant_worker (pod_worker (new_pod e name img cp id)).
Proof. unfold new_pod. destruct (ch_new e) as [[max addr] own]. cbn. split; [apply worker_reachable_ok, worker_new|done]. Qed.

Lemma calm_op_step c e {B} (o : op (D := D) B) s b s' :
  calm_op o → world_ok s → op_step c e o s = Some (b, s') → world_ok s' ∧ world_evo s s'.
Proof.
  intros Ho Hs. unfold op_step. destruct (w_cps s !! c) as [k|] eqn:Hk; [|done]. cbn [mbind option_bind].
  pose proof (conj Hs (world_evo_refl s)) as Hsame.
  destruct o as [B f| |B f| |B f|B m|r owner|B f|name img cp id|name|name|name org| |i payload|i j|]; cbn in Ho.
  - destruct (mu k); [done|]. by apply section_calm.
  - destruct (mu k); [done|]. intros [= <- <-]. apply with_memory_calm with k; [done|done|apply heap_calm_refl].
  - by apply section_calm.
  - intros [= <- <-]. apply with_memory_calm with k; [done|done|apply heap_calm_refl].
  - by apply section_calm.
  - destruct (m (w_db s)) as [r d]. intros [= <- <-]. by apply with_db_ok.
  - destruct (heap k !! r) as [w|] eqn:Hr; [|by intros [= <- <-]].
    destruct (RefreshLease _ _ _) as [[l|err] d]; intros [= <- <-]; [|by apply with_db_ok].
    assert (heap_calm (heap k) (heap (update r (λ w, set_lease (mw_ownerCP w) (lease_epoch l) w) k))) as Hc.
    { apply update_calm; [apply heap_calm_refl|]. intros w0. by apply calm_fields. }
    destruct (with_memory_calm c k _ s Hs Hk Hc) as [Hok Hev]. destruct (with_db_ok _ d Hok). by split; [|eapply world_evo_trans].
  - by intros [= <- <-].
  - destruct (find_pod name (w_pods s)); [by intros [= <- <-]|]. intros [= <- <-]. destruct (_ || _); [|done].
    apply with_pods_ok; [done| |].
    + intros i p Hp. exists p. split; [by apply lookup_app_l_Some|apply worker_evo_refl].
    + intros i p [Hp|[_ [_ <-]%list_lookup_singleton_Some]]%lookup_app_Some; [by eapply ok_pods|apply new_pod_ok].
  - destruct (find_pod name (w_pods s)); intros [= <- <-]; [|done]. destruct (_ || _); [|done]. by apply alter_pod_ok.
  - destruct (ch_ok e); by intros [= <- <-].
  - destruct (find_pod name (w_pods s)); intros [= <- <-]; [|done]. destruct (_ || _); [|done]. by apply alter_pod_ok.
  - by intros [= <- <-].
  - destruct (w_pods s !! i) as [p|] eqn:Hp; [|done]. cbn. intros [= <- <-].
    by apply (insert_worker_ok s i p (Activate payload)).
  - destruct (ch_ok e); cbn; [|by intros [= <- <-]]. destruct (w_pods s !! i) as [p|]; [|done]. cbn.
    destruct (_ !! j) as [[]|]; by intros [= <- <-].
  - done.
Qed.

(** * Programs *)

(** From [s] on, whatever the others do, the program keeps the world right and ends in [Q]. *)
Fixpoint safe (c : string) {A} (p : prog (D := D) A) : (A → world → Prop) → world → Prop :=
  match p in prog A return (A → world → Prop) → world → Prop with
  | Return a => λ Q s, ∀ s', world_evo s s' → world_ok s' → Q a s'
  | Do o k => λ Q s, ∀ s', world_evo s s' → world_ok s' → ∀ e b s'', op_step c e o s' = Some (b, s'') →
                world_ok s'' ∧ world_evo s' s'' ∧ safe c (k b) Q s''
  | Go q k => λ Q s, safe c q (λ _ _, True) s ∧ safe c k Q s
  end.

Lemma safe_evo c {A} (p : prog (D := D) A) : ∀ Q s s', world_evo s s' → safe c p Q s → safe c p Q s'.
Proof.
  induction p as [A a|A B o k IH|A q IHq k IHk]; intros Q s s' He; cbn.
  - intros Hp s2 He2. apply Hp. by eapply world_evo_trans.
  - intros Hp s2 He2. apply Hp. by eapply world_evo_trans.
  - intros [Hq Hk]. split; [by eapply IHq|by eapply IHk].
Qed.

Lemma safe_later c {A} (p : prog (D := D) A) : ∀ Q s, (∀ s', world_evo s s' → world_ok s' → safe c p Q s') → safe c p Q s.
Proof.
  induction p as [A a|A B o k IH|A q IHq k IHk]; intros Q s Hp; cbn.
  - intros s' He Hs. by apply (Hp s' He Hs); [apply world_evo_refl|].
  - intros s' He Hs. by apply (Hp s' He Hs); [apply world_evo_refl|].
  - split; [apply IHq|apply IHk]; intros s' He Hs; by destruct (Hp s' He Hs).
Qed.

Lemma safe_bind c {A B} (p : prog (D := D) A) (f : A → prog B) : ∀ Q s, safe c p (λ a s', safe c (f a) Q s') s → safe c (p ≫= f) Q s.
Proof.
  induction p as [A a|A C o k IH|A q IHq k IHk]; intros Q s; cbn.
  - intros Hp. by apply safe_later.
  - intros Hp s' He Hs e b s2 Ho. destruct (Hp s' He Hs e b s2 Ho) as (? & ? & ?). split; [done|]. split; [done|by apply IH].
  - intros [Hq Hk]. split; [done|by apply IHk].
Qed.

Lemma safe_mono c {A} (p : prog (D := D) A) : ∀ Q Q' s, safe c p Q s →
  (∀ a s', world_evo s s' → world_ok s' → Q a s' → Q' a s') → safe c p Q' s.
Proof.
  induction p as [A a|A C o k IH|A q IHq k IHk]; intros Q Q' s; cbn.
  - intros Hp HQ s' He Hs. by apply HQ, Hp.
  - intros Hp HQ s' He Hs e b s2 Ho. destruct (Hp s' He Hs e b s2 Ho) as (? & Hev & Hk). split; [done|]. split; [done|].
    eapply IH; [exact Hk|]. intros a s3 He3. apply HQ. eapply world_evo_trans; [exact He|]. by eapply world_evo_trans.
  - intros [Hq Hk] HQ. split; [done|by eapply IHk].
Qed.

(** Programs whose sections are all calm. *)
Fixpoint calm_prog {A} (p : prog (D := D) A) : Prop :=
  match p with
  | Return _ => True
  | Do o k => calm_op o ∧ ∀ b, calm_prog (k b)
  | Go q k => calm_prog q ∧ calm_prog k
  end.

Lemma calm_safe c {A} (p : prog (D := D) A) : ∀ s, calm_prog p → safe c p (λ _ _, True) s.
Proof.
  induction p as [A a|A B o k IH|A q IHq k IHk]; intros s; cbn; [done| |].
  - intros [Ho Hk] s' He Hs e b s2 Hstep. destruct (calm_op_step _ _ _ _ _ _ Ho Hs Hstep). by auto.
  - intros [Hq Hk]. auto.
Qed.

(** A calm program, then one that starts from what is still true. *)
Lemma safe_calm c {A B} (p : prog (D := D) A) (f : A → prog B) Q s :
  calm_prog p → (∀ a s', world_evo s s' → world_ok s' → safe c (f a) Q s') → safe c (p ≫= f) Q s.
Proof. intros Hp Hf. apply safe_bind. eapply safe_mono; [by apply calm_safe|]. auto. Qed.

Lemma calm_bind {A B} (p : prog (D := D) A) (f : A → prog B) : calm_prog p → (∀ a, calm_prog (f a)) → calm_prog (p ≫= f).
Proof.
  intros Hp Hf. induction p as [A a|A C o k IH|A q IHq k IHk]; cbn in *; [auto| |].
  - destruct Hp as [Ho Hk]. split; [done|]. intros b. by apply IH.
  - destruct Hp. split; [done|by apply IHk].
Qed.
Lemma calm_ret {A} (a : A) : calm_prog (mret a : prog (D := D) A).
Proof. done. Qed.
Lemma calm_for_each {A} (l : list A) (body : A → prog (D := D) ()) : (∀ a, calm_prog (body a)) → calm_prog (for_each l body).
Proof. intros Hb. induction l as [|a l IH]; cbn; [done|]. apply calm_bind; [apply Hb|done]. Qed.
Lemma calm_do {B} (o : op (D := D) B) : calm_op o → calm_prog (Do o Return).
Proof. intros Ho. by split. Qed.
Lemma calm_go p : calm_prog p → calm_prog (go (D := D) p).
Proof. intros Hp. by split. Qed.
Lemma calm_wait {A} : calm_prog (wait : prog (D := D) A).
Proof. split; [done|]. by intros []. Qed.
Lemma calm_mem {B} (f : choice → pool_memory → B * pool_memory) : calm_section f → calm_prog (mem (D := D) f).
Proof. by split. Qed.
Lemma calm_held {B} (f : choice → pool_memory → B * pool_memory) : calm_section f → calm_prog (held (D := D) f).
Proof. by split. Qed.
Lemma calm_free {B} (f : choice → pool_memory → B * pool_memory) : calm_section f → calm_prog (free (D := D) f).
Proof. by split. Qed.
End world.

(** * Calm programs *)

Lemma calm_add_session w : calm w (add_session w).
Proof. by apply calm_fields. Qed.
Lemma calm_drop_session w : calm w (drop_session w).
Proof. unfold drop_session. case_bool_decide; by apply calm_fields. Qed.
Lemma unlist_calm id k k' : heap_calm (heap k) (heap k') → heap_calm (heap k) (heap (unlist id k')).
Proof. done. Qed.
Lemma mark_retired_calm r k k' : heap_calm (heap k) (heap k') → heap_calm (heap k) (heap (markWorkerRetiredInMemoryLocked r k')).
Proof. intros Hk. by apply try_move_calm. Qed.

#[export] Hint Resolve heap_calm_refl update_calm try_move_calm enlist_calm new_managed_cold calm_add_session calm_drop_session
  unlist_calm mark_retired_calm calm_fields : calm.
#[export] Hint Resolve calm_ret calm_wait : calm.

(** Goes through a section or a program to the changes of the heap. *)
Ltac calm_section := intros ? ?; cbn beta zeta; repeat case_match; cbn [fst snd]; simplify_eq; auto with calm.
Ltac calm_step :=
  first
  [ progress intros
  | solve [auto with calm]
  | lazymatch goal with
    | |- calm_prog (_ ≫= _) => apply calm_bind
    | |- calm_prog (for_each _ _) => apply calm_for_each
    | |- calm_prog (go _) => apply calm_go
    | |- calm_prog (mem _) => apply calm_mem; solve [calm_section]
    | |- calm_prog (held _) => apply calm_held; solve [calm_section]
    | |- calm_prog (free _) => apply calm_free; solve [calm_section]
    | |- calm_prog (Do _ Return) => apply calm_do; exact I
    | |- calm_prog (lock) => apply calm_do; exact I
    | |- calm_prog (unlock) => apply calm_do; exact I
    | |- calm_prog (store _) => apply calm_do; exact I
    | |- calm_prog (ask _) => apply calm_do; exact I
    | |- calm_prog (delete_pod _) => apply calm_do; exact I
    end
  | case_match ].
Ltac calm := repeat calm_step.

Section calm_pool.
Context `{HD : DuckDB} `{HU : UnicodeCase} {D : Type} `{HW : World D}.
Local Notation prog := (prog (D := D)).

Lemma calm_persist record : calm_prog (persistWorkerRecord record : prog ()).
Proof. unfold persistWorkerRecord. calm. Qed.
#[local] Hint Resolve calm_persist : calm.
Lemma calm_retire_pod r : calm_prog (retireWorkerPod r : prog ()).
Proof. unfold retireWorkerPod. calm. Qed.
#[local] Hint Resolve calm_retire_pod : calm.
Lemma calm_lost l : calm_prog (markWorkerLostForHealthLease l : prog _).
Proof. unfold markWorkerLostForHealthLease, markWorkerLostIfCurrentLease. calm. Qed.
#[local] Hint Resolve calm_lost : calm.
Lemma drop_local_calm l k : heap_calm (heap k) (heap (dropLocalWorkerIfSameLeaseLocked l k).2).
Proof. unfold dropLocalWorkerIfSameLeaseLocked. by case_match; auto with calm. Qed.
#[local] Hint Resolve drop_local_calm : calm.
Lemma calm_clean : calm_prog (cleanDeadWorkersLocked : prog ()).
Proof. unfold cleanDeadWorkersLocked. calm. Qed.
#[local] Hint Resolve calm_clean : calm.

Lemma calm_mark_retired r reason : calm_prog (markWorkerRetiredLocked r reason : prog ()).
Proof. unfold markWorkerRetiredLocked. calm. Qed.
#[local] Hint Resolve calm_mark_retired : calm.
Lemma calm_retire_listed id r reason : calm_prog (retire_listed id r reason : prog ()).
Proof. unfold retire_listed. calm. Qed.
#[local] Hint Resolve calm_retire_listed : calm.
Lemma calm_retire id reason : calm_prog (retireWorkerWithReason id reason : prog bool).
Proof. unfold retireWorkerWithReason. calm. Qed.
#[local] Hint Resolve calm_retire : calm.
Lemma calm_retire_idle id reason : calm_prog (retireWorkerIfNoSessionsWithReason id reason : prog bool).
Proof. unfold retireWorkerIfNoSessionsWithReason. calm. Qed.
Lemma calm_retire_draining id : calm_prog (RetireIfDrainingAndEmpty id : prog ()).
Proof. unfold RetireIfDrainingAndEmpty. calm. Qed.

(** The transition of a local copy of the memory. *)
Lemma try_move_calm_eq next a r k k' b k2 : heap_calm (heap k) (heap k') → next ≠ LifecycleHot →
  try_move next a r k' = (b, k2) → heap_calm (heap k) (heap k2).
Proof. intros Hk Hn E. pose proof (try_move_calm next a r k k' Hk Hn) as Hc. by rewrite E in Hc. Qed.
#[local] Hint Extern 5 (heap_calm _ _) => (eapply try_move_calm_eq; [| |eassumption]) : calm.

Lemma calm_hot_idle id : calm_prog (TransitionToHotIdleIfNoSessions id : prog bool).
Proof. unfold TransitionToHotIdleIfNoSessions. calm. Qed.
Lemma calm_artifacts id pod : calm_prog (DeleteWorkerArtifacts id pod : prog ()).
Proof. unfold DeleteWorkerArtifacts. calm. Qed.
#[local] Hint Resolve calm_retire_idle calm_retire_draining calm_hot_idle calm_artifacts : calm.
Lemma calm_cleanup m : calm_prog (with_cleanup m : prog _).
Proof. unfold with_cleanup. calm. Qed.
#[local] Hint Resolve calm_cleanup : calm.
Lemma calm_retire_claimed claimed reason : calm_prog (retireClaimedWorker claimed reason : prog ()).
Proof. unfold retireClaimedWorker. calm. Qed.
#[local] Hint Resolve calm_retire_claimed : calm.
Lemma calm_retire_current claimed reason : calm_prog (retireCurrentRuntimeWorker claimed reason : prog ()).
Proof. unfold retireCurrentRuntimeWorker. calm. Qed.
#[local] Hint Resolve calm_retire_current : calm.

Lemma stamp_heap node now k : heap (stampNodeFirstSeenLocked node now k) = heap k.
Proof. unfold stampNodeFirstSeenLocked. by destruct (_ || _). Qed.
Lemma prune_heap order node k : heap (pruneNodeFirstSeenLocked order node k) = heap k.
Proof. unfold pruneNodeFirstSeenLocked. by destruct (_ || _). Qed.
Lemma stamp_calm node now k k' : heap_calm (heap k) (heap k') → heap_calm (heap k) (heap (stampNodeFirstSeenLocked node now k')).
Proof. by rewrite stamp_heap. Qed.
Lemma prune_calm order node k k' : heap_calm (heap k) (heap k') → heap_calm (heap k) (heap (pruneNodeFirstSeenLocked order node k')).
Proof. by rewrite prune_heap. Qed.
#[local] Hint Resolve stamp_calm prune_calm : calm.

Lemma calm_create n name img cp id : calm_prog (create_pod n name img cp id : prog bool).
Proof. induction n; cbn [create_pod]; calm. Qed.
#[local] Hint Resolve calm_create : calm.
Lemma calm_spawn id img publish : calm_prog (spawnWorker id img publish : prog bool).
Proof. unfold spawnWorker, createPodWithBackoff. calm. Qed.
#[local] Hint Resolve calm_spawn : calm.
Lemma calm_spawn_warm id img : calm_prog (spawnWarmWorker id img : prog bool).
Proof. unfold spawnWarmWorker, SpawnWorker. calm. Qed.
#[local] Hint Resolve calm_spawn_warm : calm.
Lemma calm_spawn_slot slot : calm_prog (spawn_slot slot : prog ()).
Proof. unfold spawn_slot. calm. Qed.
#[local] Hint Resolve calm_spawn_slot : calm.
Lemma calm_claim_slots n create : ∀ slots, calm_prog (claim_slots n create slots : prog _).
Proof. induction n; intros slots; cbn [claim_slots]; calm. Qed.
#[local] Hint Resolve calm_claim_slots : calm.
Lemma calm_spawn_slots slots : calm_prog (spawn_slots slots : prog ()).
Proof. unfold spawn_slots. calm. Qed.
#[local] Hint Resolve calm_spawn_slots : calm.
Lemma calm_spawn_min n : calm_prog (SpawnMinWorkers n : prog ()).
Proof. unfold SpawnMinWorkers. calm. Qed.
Lemma calm_spawn_min_image img n : calm_prog (SpawnMinWorkersForImage img n : prog ()).
Proof. unfold SpawnMinWorkersForImage. calm. Qed.
#[local] Hint Resolve calm_spawn_min calm_spawn_min_image : calm.
Lemma calm_replenish img : calm_prog (triggerPerImageReplenish img : prog ()).
Proof. unfold triggerPerImageReplenish. calm. Qed.
Lemma calm_adopt claimed : calm_prog (adoptClaimedWorker claimed : prog _).
Proof. unfold adoptClaimedWorker. calm. Qed.
Lemma calm_miss a reason : calm_prog (recordWarmCapacityMiss a reason : prog ()).
Proof. unfold recordWarmCapacityMiss. calm. Qed.
#[local] Hint Resolve calm_replenish calm_adopt calm_miss : calm.

Lemma adopted_cold claimed i : ¬ hot (adopted_worker claimed i).
Proof. apply new_managed_cold. Qed.
#[local] Hint Resolve adopted_cold : calm.
Lemma set_pod_calm b pod w : calm w (if b : bool then w else set_pod pod w).
Proof. destruct b; [apply calm_refl|by apply calm_fields]. Qed.

Lemma calm_bind_claim claimed a r : calm_section (bind_claim claimed a r).
Proof.
  intros e k. unfold bind_claim. destruct (shuttingDown k); [auto with calm|]. destruct (heap k !! r) as [w0|] eqn:Hr; [|auto with calm].
  set (w := if bool_decide (W_PodName claimed = "") then w0 else _). set (k1 := update r (λ _, w) k).
  assert (heap_calm (heap k) (heap k1)) as Hk1.
  { apply calm_alter. intros w1. rewrite Hr. intros [= <-]. apply set_pod_calm. }
  repeat case_match; cbn [fst snd]; simplify_eq; auto with calm.
Qed.
#[local] Hint Resolve calm_bind_claim : calm.

Lemma calm_activate_tenant r payload : calm_prog (ActivateTenant r payload : prog bool).
Proof. unfold ActivateTenant. calm. Qed.
Lemma calm_begin_activation r : calm_section (begin_activation r).
Proof. intros e k. unfold begin_activation. repeat case_match; cbn [fst snd]; simplify_eq; auto with calm. Qed.
Lemma calm_build a : calm_prog (BuildActivationRequest a : prog _).
Proof. unfold BuildActivationRequest. calm. Qed.
Lemma calm_check_migration payload : calm_prog (check_migration payload : prog _).
Proof. unfold check_migration. calm. Qed.
#[local] Hint Resolve calm_activate_tenant calm_begin_activation calm_build calm_check_migration : calm.
Lemma calm_refresh r : calm_prog (RefreshCredentials r : prog ()).
Proof. unfold RefreshCredentials. calm. Qed.
#[local] Hint Resolve calm_refresh : calm.
Lemma calm_refresh_tick lookahead : calm_prog (refresh_tick lookahead : prog ()).
Proof. unfold refresh_tick. calm. Qed.
Lemma calm_release id : calm_prog (ReleaseWorker id : prog ()).
Proof. unfold ReleaseWorker. calm. Qed.
Lemma calm_org_retire org id : calm_prog (org_RetireWorker org id : prog ()).
Proof. unfold org_RetireWorker, has_worker, RetireWorker. calm. Qed.
Lemma calm_org_retire_idle org id : calm_prog (org_RetireWorkerIfNoSessions org id : prog ()).
Proof. unfold org_RetireWorkerIfNoSessions, has_worker. calm. Qed.
Lemma calm_org_shutdown org : calm_prog (org_ShutdownAll org : prog ()).
Proof. unfold org_ShutdownAll. calm. Qed.
#[local] Hint Resolve calm_refresh_tick calm_release calm_org_retire calm_org_retire_idle calm_org_shutdown : calm.

Lemma remove_lost_calm l k : heap_calm (heap k) (heap (removeWorkerAfterLostLeaseLocked l k).2).
Proof. unfold removeWorkerAfterLostLeaseLocked. case_match; cbn [snd]; auto with calm. Qed.
#[local] Hint Resolve remove_lost_calm : calm.
Lemma calm_bury l : calm_prog (bury l : prog ()).
Proof. unfold bury. calm. Qed.
#[local] Hint Resolve calm_bury : calm.
Lemma calm_health r l : calm_prog (health_check r l : prog ()).
Proof. unfold health_check, forget_failures. calm. Qed.
#[local] Hint Resolve calm_health : calm.
Lemma calm_health_tick : calm_prog (health_tick : prog ()).
Proof. unfold health_tick. calm. Qed.
Lemma calm_terminated id : calm_prog (onPodTerminated id : prog ()).
Proof. unfold onPodTerminated. calm. Qed.
Lemma calm_reap n candidates : calm_prog (reap n candidates : prog _).
Proof. revert n. induction candidates as [|[[id r] w] rest IH]; intros n; cbn [reap]; calm. Qed.
#[local] Hint Resolve calm_health_tick calm_terminated calm_reap : calm.
Lemma calm_reaper : calm_prog (idle_reaper_tick : prog ()).
Proof. unfold idle_reaper_tick, reapIdleWorkers, reapStuckActivatingWorkers. calm. Qed.
Lemma calm_mismatched v pods : calm_prog (retire_mismatched v pods : prog bool).
Proof. induction pods as [|[[[[[name id] cp] lbl] img] t] rest IH]; cbn [retire_mismatched]; calm. Qed.
#[local] Hint Resolve calm_reaper calm_mismatched : calm.
Lemma calm_retire_mismatched : calm_prog (RetireOneMismatchedVersionWorker : prog bool).
Proof. unfold RetireOneMismatchedVersionWorker. calm. Qed.
Lemma calm_cleanup_pods age : calm_prog (cleanupOrphanedWorkerPods age : prog ()).
Proof. unfold cleanupOrphanedWorkerPods. calm. Qed.
Lemma calm_shut_down r : calm_prog (shut_down r : prog bool).
Proof. unfold shut_down. calm. Qed.
#[local] Hint Resolve calm_retire_mismatched calm_cleanup_pods calm_shut_down : calm.
Lemma calm_shut_down_all rs : calm_prog (shut_down_all rs : prog _).
Proof. induction rs as [|[id r] rs IH]; cbn [shut_down_all]; calm. Qed.
#[local] Hint Resolve calm_shut_down_all : calm.
Lemma calm_destroy_sessions held : calm_prog (destroy_sessions held : prog ()).
Proof. unfold destroy_sessions. calm. Qed.
#[local] Hint Resolve calm_destroy_sessions : calm.
Lemma calm_shutdown order held : calm_prog (router_ShutdownAll order held : prog ()).
Proof. unfold router_ShutdownAll, ShutdownAll. calm. Qed.
Lemma calm_destroy org held : calm_prog (DestroyOrgStack org held : prog ()).
Proof. unfold DestroyOrgStack. calm. Qed.
#[local] Hint Resolve calm_shutdown calm_destroy : calm.

(** * Facts that last *)

Local Notation world := (world (D := D)).

(** The worker is bound to the organisation. *)
Definition bound (c : string) (r : nat) (org : string) (s : world) : Prop :=
  ∃ k w, w_cps s !! c = Some k ∧ heap k !! r = Some w ∧ bound_to (sharedState w) org.
(** And it is in a pod activated for it. *)
Definition serves (c : string) (r : nat) (org : string) (s : world) : Prop :=
  ∃ k w i, w_cps s !! c = Some k ∧ heap k !! r = Some w ∧ bound_to (sharedState w) org ∧ client w = Some i ∧ active s i org.

Lemma bound_evo c r org s s' : world_evo s s' → bound c r org s → bound c r org s'.
Proof.
  intros [_ Hc] (k & w & Hk & Hr & Hb). destruct (Hc _ _ Hk) as (k' & Hk' & He). destruct (He _ _ Hr) as (w' & Hr' & _ & Hb').
  exists k', w'. auto.
Qed.
Lemma serves_evo c r org s s' : world_evo s s' → serves c r org s → serves c r org s'.
Proof.
  intros He (k & w & i & Hk & Hr & Hb & Hi & Ha). destruct (evo_cps _ _ He _ _ Hk) as (k' & Hk' & Hh).
  destruct (Hh _ _ Hr) as (w' & Hr' & Hcl & Hb'). exists k', w', i.
  split_and!; [done|done|by apply Hb'|congruence|by eapply active_evo].
Qed.
Lemma serves_bound c r org s : serves c r org s → bound c r org s.
Proof. intros (k & w & i & ? & ? & ? & _). by exists k, w. Qed.
Lemma bound_to_inj st a b : bound_to st a → bound_to st b → a = b.
Proof. unfold bound_to. congruence. Qed.
Lemma serves_of_bound c r a b s : serves c r a s → bound c r b s → serves c r b s.
Proof.
  intros (k & w & i & Hk & Hr & Hb & Hi & Ha) (k' & w' & Hk' & Hr' & Hb'). simplify_eq.
  rewrite (bound_to_inj _ _ _ Hb' Hb). by exists k, w, i.
Qed.

(** A section that is calm, with a lasting fact about its result. *)
Definition lasts {B} (Q : B → world → Prop) : Prop := ∀ b s s', world_evo s s' → Q b s → Q b s'.

Lemma safe_section c {B} (o : op (D := D) B) f (Q : B → world → Prop) s :
  (∀ e s' k r, w_cps s' !! c = Some k → op_step c e o s' = Some r → section_step c e f k s' = Some r) →
  lasts Q →
  (∀ e s' k, world_evo s s' → world_ok s' → w_cps s' !! c = Some k →
    let s2 := with_memory c (f e k).2 s' in world_ok s2 ∧ world_evo s' s2 ∧ Q (f e k).1 s2) →
  safe c (Do o Return) Q s.
Proof.
  intros Ho HQ Hf s' He Hs e b s2 Hstep.
  assert (∃ k, w_cps s' !! c = Some k) as [k Hk].
  { unfold op_step in Hstep. destruct (w_cps s' !! c) as [k|]; [by exists k|done]. }
  specialize (Ho _ _ _ _ Hk Hstep). unfold section_step in Ho. destruct (an_order _ _); [|done].
  pose proof (Hf e s' k He Hs Hk) as Hx. destruct (f e k) as [b' k']. injection Ho as <- <-. cbn in Hx.
  destruct Hx as (Hok & Hev & HQ'). split; [done|]. split; [done|]. intros s3 He3 _. by eapply HQ.
Qed.

Lemma mem_section c {B} f e (s' : world) k r : w_cps s' !! c = Some k → op_step c e (@Mem D B f) s' = Some r → section_step c e f k s' = Some r.
Proof. intros Hk. unfold op_step. rewrite Hk. cbn. by destruct (mu k). Qed.
Lemma free_section c {B} f e (s' : world) k r : w_cps s' !! c = Some k → op_step c e (@Free D B f) s' = Some r → section_step c e f k s' = Some r.
Proof. intros Hk. unfold op_step. by rewrite Hk. Qed.
Lemma held_section c {B} f e (s' : world) k r : w_cps s' !! c = Some k → op_step c e (@Held D B f) s' = Some r → section_step c e f k s' = Some r.
Proof. intros Hk. unfold op_step. by rewrite Hk. Qed.

(** The same for a calm section: only the fact is left to show. *)
Definition section_fact c {B} (f : choice → pool_memory → B * pool_memory) (Q : B → world → Prop) (s : world) : Prop :=
  ∀ e s' k, world_evo s s' → world_ok s' → w_cps s' !! c = Some k → Q (f e k).1 (with_memory c (f e k).2 s').

Lemma safe_calm_section c {B} (o : op (D := D) B) f (Q : B → world → Prop) s :
  (∀ e s' k r, w_cps s' !! c = Some k → op_step c e o s' = Some r → section_step c e f k s' = Some r) →
  calm_section f → lasts Q → section_fact c f Q s → safe c (Do o Return) Q s.
Proof.
  intros Ho Hf HQ Hfact. apply (safe_section _ _ f); [done|done|]. intros e s' k He Hs Hk.
  destruct (with_memory_calm c k (f e k).2 s' Hs Hk (Hf e k)). split; [done|]. split; [done|]. by apply Hfact.
Qed.
Lemma safe_mem c {B} f (Q : B → world → Prop) s : calm_section f → lasts Q → section_fact c f Q s → safe c (mem f) Q s.
Proof. apply safe_calm_section, mem_section. Qed.
Lemma safe_free c {B} f (Q : B → world → Prop) s : calm_section f → lasts Q → section_fact c f Q s → safe c (free f) Q s.
Proof. apply safe_calm_section, free_section. Qed.
Lemma safe_held c {B} f (Q : B → world → Prop) s : calm_section f → lasts Q → section_fact c f Q s → safe c (held f) Q s.
Proof. apply safe_calm_section, held_section. Qed.

Lemma lookup_memory c k (s : world) : w_cps (with_memory c k s) !! c = Some k.
Proof. apply lookup_insert_eq. Qed.

(** * Reserving binds *)

Lemma try_move_true next a r k k' : try_move next a r k = (true, k') →
  ∃ w w', heap k !! r = Some w ∧ move next a w = Some w' ∧ k' = update r (λ _, w') k ∧ heap k' !! r = Some w'.
Proof.
  unfold try_move. destruct (heap k !! r) as [w|] eqn:Hr; [|done]. cbn. destruct (move next a w) as [w'|] eqn:Hm; [|done].
  intros [= <-]. exists w, w'. split_and!; [done|done|done|]. cbn. by rewrite list_lookup_alter_eq, Hr.
Qed.

Lemma bind_claim_binds claimed a r e k x : (bind_claim claimed a r e k).1 = inr x →
  ∃ w, heap (bind_claim claimed a r e k).2 !! r = Some w ∧ bound_to (sharedState w) (WorkerState.OrgID a).
Proof.
  unfold bind_claim. destruct (shuttingDown k); [done|]. destruct (heap k !! r) as [w0|]; [|done].
  set (k1 := update r _ k). destruct (_ && _); [done|]. destruct (isDuplicateRuntimeWorkerClaim _ _ _); [done|].
  destruct (try_move LifecycleReserved (Some a) r _) as [[] k2] eqn:Em; [|done]. intros _.
  apply try_move_true in Em as (w & w' & _ & (_ & _ & _ & _ & Hb)%move_inv & _ & Hr).
  exists (set_reserved_at (ch_now e) w'). split; [cbn; by rewrite list_lookup_alter_eq, Hr|]. by apply Hb.
Qed.

Lemma safe_ret c {A} (a : A) (Q : A → world → Prop) s : (∀ s', world_evo s s' → world_ok s' → Q a s') → safe c (mret a : prog A) Q s.
Proof. done. Qed.

Definition reserved_bound c (a : WorkerAssignment) (res : reserve_result) (s : world) : Prop :=
  ∀ r, res = ReservedWorker r → bound c r (WorkerState.OrgID a) s.

Lemma reserve_binds c claimed a s : safe c (reserveClaimedWorker claimed a) (reserved_bound c a) s.
Proof.
  unfold reserveClaimedWorker.
  apply safe_calm; [calm|]. intros _ s1 _ _. apply safe_calm; [calm|]. intros down s2 _ _.
  destruct down; [apply safe_calm; [calm|]; intros; by apply safe_ret|].
  apply safe_calm; [calm|]. intros _ s3 _ _. apply safe_calm; [calm|]. intros known s4 _ _.
  apply safe_calm; [calm|]. intros _ s5 _ _. apply safe_calm; [calm|]. intros [r|] s6 _ _; [|by apply safe_ret].
  apply safe_bind.
  apply (safe_mono _ _ (λ b s, ∀ x, b = inr x → bound c r (WorkerState.OrgID a) s)).
  - apply safe_mem; [auto with calm|intros b s7 s8 He HQ x Hx; by eapply bound_evo, HQ|]. intros e s' k _ _ _ x Hx.
    destruct (bind_claim_binds _ _ _ _ _ _ Hx) as (w & Hr & Hb). eexists _, w. split; [apply lookup_memory|done].
  - intros [stale|[id record]] s7 _ _ Hb; [by apply safe_ret; intros s8 _ _ r'; destruct stale|].
    specialize (Hb _ eq_refl). apply safe_calm; [calm|]. intros _ s8 He8 _. apply safe_calm; [calm|]. intros alive s9 He9 _.
    destruct alive; [|apply safe_calm; [calm|]; intros; by apply safe_ret].
    apply safe_ret. intros s10 He10 _ r' [= <-]. by eapply bound_evo, bound_evo, bound_evo.
Qed.

(** * Activating *)

(** The worker's connection is to a pod activated for the organisation. *)
Definition reaches (c : string) (r : nat) (org : string) (s : world) : Prop :=
  ∃ k w i, w_cps s !! c = Some k ∧ heap k !! r = Some w ∧ client w = Some i ∧ active s i org.
(** The worker's connection is to the pod. *)
Definition connected (c : string) (r i : nat) (s : world) : Prop :=
  ∃ k w, w_cps s !! c = Some k ∧ heap k !! r = Some w ∧ client w = Some i.
(** The pod was asked for an activation. *)
Definition asked (i j : nat) (payload : ActivationPayload) (s : world) : Prop :=
  ∃ p rq, w_pods s !! i = Some p ∧ requests (pod_worker p) !! j = Some rq ∧ payload_of rq = Some payload.

Lemma reaches_evo c r org s s' : world_evo s s' → reaches c r org s → reaches c r org s'.
Proof.
  intros He (k & w & i & Hk & Hr & Hi & Ha). destruct (evo_cps _ _ He _ _ Hk) as (k' & Hk' & Hh).
  destruct (Hh _ _ Hr) as (w' & Hr' & Hcl & _). exists k', w', i. split_and!; [done|done|congruence|by eapply active_evo].
Qed.
Lemma connected_evo c r i s s' : world_evo s s' → connected c r i s → connected c r i s'.
Proof.
  intros He (k & w & Hk & Hr & Hi). destruct (evo_cps _ _ He _ _ Hk) as (k' & Hk' & Hh).
  destruct (Hh _ _ Hr) as (w' & Hr' & Hcl & _). exists k', w'. split_and!; [done|done|congruence].
Qed.
Lemma asked_evo i j payload s s' : world_evo s s' → asked i j payload s → asked i j payload s'.
Proof.
  intros He (p & rq & Hp & Hj & Hq). destruct (evo_pods _ _ He _ _ Hp) as (p' & Hp' & _ & Hr).
  destruct (Hr _ _ Hj) as (rq' & ? & ?). exists p', rq'. split_and!; [done|done|congruence].
Qed.

Lemma send_asks c i payload s : safe c (Do (Send i payload) Return) (λ j s, asked i j payload s) s.
Proof.
  intros s' He Hs e j s2 Hstep. assert (world_ok s2 ∧ world_evo s' s2) as [Hok Hev] by by eapply calm_op_step; [| |exact Hstep]. split; [done|]. split; [done|].
  intros s3 He3 _. eapply asked_evo; [exact He3|]. unfold op_step in Hstep. destruct (w_cps s' !! c) as [k|]; [|done]. cbn in Hstep.
  destruct (w_pods s' !! i) as [p|] eqn:Hp; [|done]. cbn in Hstep. injection Hstep as <- <-.
  eexists _, (AReceived payload). split; [cbn; by rewrite list_lookup_insert_eq by (by eapply lookup_lt_Some)|].
  split; [|done]. cbn. by rewrite lookup_app_r, Nat.sub_diag.
Qed.

Lemma receive_activates c i j payload s : asked i j payload s →
  safe c (Do (Receive i j) Return) (λ ok s, ok = true → active s i (OrgID payload)) s.
Proof.
  intros Ha s' He Hs e b s2 Hstep. assert (world_ok s2 ∧ world_evo s' s2) as [Hok Hev] by by eapply calm_op_step; [| |exact Hstep]. split; [done|]. split; [done|].
  intros s3 He3 _ ->. eapply active_evo; [exact He3|]. destruct (asked_evo _ _ _ _ _ He Ha) as (p & rq & Hp & Hj & Hq).
  unfold op_step in Hstep. destruct (w_cps s' !! c) as [k|]; [|done]. cbn in Hstep. destruct (ch_ok e); cbn in Hstep; [|done].
  rewrite Hp in Hstep. cbn in Hstep. rewrite Hj in Hstep. destruct rq as [| | | | | | | | |payload' ok| | | | | | | | |]; try done.
  injection Hstep as -> <-. injection Hq as ->.
  destruct (ok_pods _ Hs _ _ Hp) as [[_ Hreq _] _]. pose proof (Forall_lookup_1 _ _ _ _ Hreq Hj) as (q & db & Hact & Hsame & _).
  exists p, q, db. split_and!; [done|done|by apply same_runtime_org].
Qed.

Lemma activate_tenant_reaches c r payload s :
  safe c (ActivateTenant r payload) (λ ok s, ok = true → reaches c r (OrgID payload) s) s.
Proof.
  unfold ActivateTenant. apply safe_bind.
  apply (safe_mono _ _ (λ oi s, ∀ i, oi = Some i → connected c r i s)).
  - apply safe_free; [calm_section|intros oi s1 s2 He HQ i Hi; by eapply connected_evo, HQ|].
    intros e s' k _ _ _ i. cbn [fst snd]. intros (w & Hr & Hi)%bind_Some. exists k, w. split_and!; [apply lookup_memory|done|done].
  - intros [i|] s1 _ _ Hc; [|by apply safe_ret]. specialize (Hc _ eq_refl). apply safe_bind.
    eapply safe_mono; [apply send_asks|]. intros j s2 He2 _ Ha.
    eapply safe_mono; [exact (receive_activates _ _ _ _ _ Ha)|]. intros ok s3 He3 _ Hact Hok. specialize (Hact Hok).
    destruct (connected_evo _ _ _ _ _ (world_evo_trans _ _ _ He2 He3) Hc) as (k & w & ? & ? & ?). by exists k, w, i.
Qed.

(** * Making a worker hot *)

(** Only one worker is changed, and it is still the same. *)
Definition only_at (r : nat) (k k' : pool_memory) : Prop :=
  (∀ r', r' ≠ r → heap k' !! r' = heap k !! r') ∧
  (∀ w, heap k !! r = Some w → ∃ w', heap k' !! r = Some w' ∧ same_worker w w').

Lemma only_refl r k : only_at r k k.
Proof. split; [done|]. intros w Hw. exists w. split; [done|apply same_worker_refl]. Qed.
Lemma only_trans r k1 k2 k3 : only_at r k1 k2 → only_at r k2 k3 → only_at r k1 k3.
Proof.
  intros [H1 S1] [H2 S2]. split; [intros r' Hr; by rewrite H2, H1|].
  intros w (w2 & Hw2 & ?)%S1. destruct (S2 _ Hw2) as (w3 & ? & ?). exists w3. split; [done|by eapply same_worker_trans].
Qed.
Lemma only_update r f k : (∀ w, heap k !! r = Some w → same_worker w (f w)) → only_at r k (update r f k).
Proof.
  intros Hf. split; [intros r' Hr; cbn; by rewrite list_lookup_alter_ne|].
  intros w Hw. exists (f w). cbn. rewrite list_lookup_alter_eq, Hw. split; [done|by apply Hf].
Qed.
Lemma only_try_move next a r k : only_at r k (try_move next a r k).2.
Proof.
  unfold try_move. destruct (heap k !! r) as [w|] eqn:Hr; cbn; [|apply only_refl].
  destruct (move next a w) as [w'|] eqn:Hm; [|apply only_refl]. apply only_update. intros w0. rewrite Hr. intros [= <-].
  apply move_inv in Hm as (? & _ & _ & ? & _). by split.
Qed.

(** The worker is bound and in a pod activated for its organisation: it may become hot. *)
Lemma may_be_hot c k k' r org s : world_ok s → w_cps s !! c = Some k → bound c r org s → reaches c r org s → only_at r k k' →
  let s2 := with_memory c k' s in world_ok s2 ∧ world_evo s s2 ∧ serves c r org s2.
Proof.
  intros Hs Hk (k1 & w1 & Hk1 & Hr1 & Hb) (k2 & w2 & i & Hk2 & Hr2 & Hi & Ha) [Hother Hsame]. simplify_eq.
  assert (heap_evo (heap k) (heap k')) as Hh.
  { intros r' w' Hr'. destruct (decide (r' = r)) as [->|Hne]; [by apply Hsame|]. exists w'. rewrite Hother by done.
    split; [done|apply same_worker_refl]. }
  pose proof (with_memory_evo c k k' s Hk Hh) as Hev.
  destruct (Hsame _ Hr1) as (w' & Hr' & Hcl & Hb').
  assert (serves c r org (with_memory c k' s)) as Hserves.
  { exists k', w', i. split_and!; [apply lookup_memory|done|by apply Hb'|congruence|by eapply active_evo]. }
  split_and!; [|done|done]. split; [exact (ok_pods s Hs)|]. intros c' k0 r' w0. cbn. destruct (decide (c' = c)) as [->|].
  - rewrite lookup_insert_eq. intros [= <-] Hr0 Hhot. destruct (decide (r' = r)) as [->|Hne].
    + simplify_eq. exists org, i. split_and!; [by apply Hb'|congruence|by eapply active_evo].
    + rewrite Hother in Hr0 by done. destruct (ok_hot s Hs _ _ _ _ Hk Hr0 Hhot) as (o & j & ? & ? & ?). by exists o, j.
  - rewrite lookup_insert_ne by done. intros Hk0 Hr0 Hhot. by eapply (ok_hot s Hs).
Qed.

Lemma finish_only r payload e k : only_at r k (finish_activation r payload e k).2.
Proof.
  unfold finish_activation. set (k1 := update r (set_cached payload) k).
  assert (only_at r k k1) as Hk1 by by apply only_update.
  destruct (heap k1 !! r) as [w|]; [|done]. case_bool_decide; [done|].
  pose proof (only_try_move LifecycleHot None r k1) as Hm. destruct (try_move LifecycleHot None r k1) as [ok k2].
  destruct ok; by eapply only_trans.
Qed.

(** The state an activation goes back to when it fails. *)
Definition fallback_state (org : string) (b : option (option SharedWorkerState * option WorkerRecord)) : Prop :=
  ∀ st record, b = Some (Some st, record) → NormalizedLifecycle st = LifecycleReserved ∧ bound_to st org.

Lemma begin_fallback r e k w org : heap k !! r = Some w → bound_to (sharedState w) org → fallback_state org (begin_activation r e k).1.
Proof.
  intros Hr Hb st record. unfold begin_activation. rewrite Hr. destruct (lifecycle_of w) eqn:El; try done.
  destruct (try_move LifecycleActivating None r k) as [[] k2]; [|done]. intros [= <- _]. split; [exact El|exact Hb].
Qed.

Lemma go_back_safe c r org st s : bound c r org s → NormalizedLifecycle st = LifecycleReserved → bound_to st org →
  safe c (mem (λ _ k, ((), match w ← heap k !! r; SetSharedState st w with Some w => update r (λ _, w) k | None => k end))) (λ _ _, True) s.
Proof.
  intros Hb Hl Hst. eapply safe_section; [apply mem_section|done|]. intros e s' k He Hs Hk. cbn [fst snd].
  destruct (bound_evo _ _ _ _ _ He Hb) as (k1 & w & Hk1 & Hr & Hbw). simplify_eq. rewrite Hr. cbn [mbind option_bind].
  unfold SetSharedState. destruct (Validate st); cbn.
  2-3: by destruct (with_memory_calm c k k s' Hs Hk (heap_calm_refl _)).
  assert (heap_calm (heap k) (heap (update r (λ _, set_shared (cloneSharedWorkerState st) w) k))) as Hc.
  { apply calm_alter. intros w0. rewrite Hr. intros [= <-]. split; [split; [done|]|].
    - intros o Ho. rewrite (bound_to_inj _ _ _ Ho Hbw). by apply clone_bound.
    - unfold hot. rewrite lifecycle_set_shared, Hl. by intros [?|?]. }
  by destruct (with_memory_calm c k _ s' Hs Hk Hc).
Qed.

Lemma finish_serves c r org payload s : bound c r org s → reaches c r org s →
  safe c (mem (finish_activation r payload)) (λ res s, res.1 = true → serves c r org s) s.
Proof.
  intros Hb Hr. eapply safe_section; [apply mem_section|intros res s1 s2 He HQ Ht; by eapply serves_evo, HQ|].
  intros e s' k He Hs Hk. destruct (may_be_hot c k (finish_activation r payload e k).2 r org s' Hs Hk) as (? & ? & ?);
    [by eapply bound_evo|by eapply reaches_evo|apply finish_only|]. by split_and!.
Qed.

Lemma reserved_worker_serves c r payload s : bound c r (tp_OrgID payload) s →
  safe c (ActivateReservedWorker r payload) (λ ok s, ok = true → serves c r (tp_OrgID payload) s) s.
Proof.
  intros Hb. unfold ActivateReservedWorker. apply safe_bind.
  apply (safe_mono _ _ (λ b _, fallback_state (tp_OrgID payload) b)).
  { apply safe_mem; [auto with calm|by intros ? ? ?|]. intros e s' k He _ Hk. destruct (bound_evo _ _ _ _ _ He Hb) as (k1 & w & Hk1 & Hr & Hbw).
    simplify_eq. by eapply begin_fallback. }
  intros [[prev record]|] s1 He1 _ Hprev; [|by apply safe_ret]. apply (bound_evo _ _ _ _ _ He1) in Hb.
  apply safe_calm; [calm|]. intros _ s2 He2 _. apply (bound_evo _ _ _ _ _ He2) in Hb.
  apply safe_calm; [calm|]. intros [[[id epoch] owner]|] s3 He3 _; [|by apply safe_ret]. apply (bound_evo _ _ _ _ _ He3) in Hb.
  apply safe_bind. eapply safe_mono; [apply activate_tenant_reaches|]. intros [] s4 He4 _ Hreach; cbn [negb].
  - apply (bound_evo _ _ _ _ _ He4) in Hb. apply safe_bind. eapply safe_mono; [apply finish_serves; [exact Hb|by apply Hreach]|].
    intros [hot rec] s5 He5 _ Hserves. apply safe_calm; [calm|]. intros _ s6 He6 _. apply safe_ret. intros s7 He7 _ ->.
    by eapply serves_evo, serves_evo, Hserves.
  - apply (bound_evo _ _ _ _ _ He4) in Hb. apply safe_bind.
    apply (safe_mono _ _ (λ _ _, True)).
    { destruct prev as [st|]; [|by apply safe_ret]. destruct (Hprev _ _ eq_refl). by eapply go_back_safe. }
    intros _ s5 _ _ _. apply safe_calm; [calm|]. intros _ s6 _ _. by apply safe_ret.
Qed.

Lemma build_org c a s : safe c (BuildActivationRequest a) (λ p _, ∀ x, p = Some x → tp_OrgID x = WorkerState.OrgID a) s.
Proof.
  unfold BuildActivationRequest. apply safe_calm; [calm|]. intros resolved s1 _ _. apply safe_calm; [calm|]. intros spec s2 _ _.
  apply safe_ret. intros s3 _ _ x. destruct resolved as [[[[dl ic] expires] version]|]; [|done]. by intros [= <-].
Qed.
Lemma migration_org c payload s : safe c (check_migration payload) (λ p _, tp_OrgID p = tp_OrgID payload) s.
Proof.
  unfold check_migration. apply safe_calm; [calm|]. intros [[]|] s1 _ _; [by apply safe_ret..|].
  apply safe_calm; [calm|]. intros [needed|] s2 _ _; [|by apply safe_ret]. apply safe_calm; [calm|]. intros _ s3 _ _.
  apply safe_ret. by destruct needed.
Qed.

(** The same worker, for some organisation. *)
Definition serves_some (c : string) (r : nat) (ok : bool) (s : world) : Prop := ok = true → ∃ org, serves c r org s.
Lemma serves_some_evo c r ok s s' : world_evo s s' → serves_some c r ok s → serves_some c r ok s'.
Proof. intros He Hs Hok. destruct (Hs Hok) as [org ?]. exists org. by eapply serves_evo. Qed.

Lemma assigned_bound c r s :
  safe c (free (λ _ k, (w ← heap k !! r; Assignment (SharedState w), k))) (λ a s, ∀ x, a = Some x → bound c r (WorkerState.OrgID x) s) s.
Proof.
  apply safe_free; [calm_section|intros a s1 s2 He HQ x Hx; by eapply bound_evo, HQ|].
  intros e s' k _ _ _ x. cbn [fst snd]. intros (w & Hr & Ha)%bind_Some. exists k, w. split_and!; [apply lookup_memory|done|].
  unfold bound_to. change (Assignment (sharedState w)) with (Assignment (SharedState w)). by rewrite Ha.
Qed.

Lemma catalogs_serve c r s : safe c (activate_with_catalogs r) (serves_some c r) s.
Proof.
  unfold activate_with_catalogs. apply safe_bind. eapply safe_mono; [apply assigned_bound|].
  intros [a|] s1 _ _ Hb; [|by apply safe_ret]. specialize (Hb _ eq_refl).
  apply safe_bind. eapply safe_mono; [apply build_org|]. intros [payload|] s2 He2 _ Ho; [|by apply safe_ret]. specialize (Ho _ eq_refl).
  apply safe_bind. eapply safe_mono; [apply migration_org|]. intros p s3 He3 _ Hp. cbn beta in Hp.
  apply safe_calm; [calm|]. intros _ s4 He4 _. apply safe_bind.
  eapply safe_mono; [apply reserved_worker_serves|].
  { rewrite Hp, Ho. by do 3 (eapply bound_evo; [eassumption|]). }
  intros ok s5 _ _ Hs. assert (serves_some c r ok s5) as Hsome by (intros Hok; eexists; by apply Hs). clear Hs.
  apply safe_calm; [calm|]. intros _ s6 He6 _. apply safe_calm; [calm|]. intros _ s7 He7 _.
  apply (serves_some_evo _ _ _ _ _ He6), (serves_some_evo _ _ _ _ _ He7) in Hsome.
  assert (∀ s, world_evo s7 s → serves_some c r ok s) as Hend by (intros s8 He8; by eapply serves_some_evo).
  destruct ok, (tp_ExpiresAt p) as [t|]; try (apply safe_ret; by auto).
  apply safe_calm; [calm|]. intros [[[id epoch] owner]|] s8 He8 _; [|apply safe_ret; intros s9 He9 _; by eapply serves_some_evo, Hend].
  apply safe_calm; [calm|]. intros _ s9 He9 _. apply safe_ret. intros s10 He10 _. by eapply serves_some_evo, serves_some_evo, Hend.
Qed.

Lemma worker_for_org_serves c r s : safe c (activateWorkerForOrg r) (serves_some c r) s.
Proof.
  unfold activateWorkerForOrg. apply safe_calm; [calm|]. intros ready s1 _ _. destruct ready; cbn [negb]; [|by apply safe_ret].
  apply safe_bind. eapply safe_mono; [apply catalogs_serve|]. intros ok s2 _ _ Hs. destruct ok; cbn [negb]; [|by apply safe_ret].
  destruct (Hs eq_refl) as [org Hserves]. eapply safe_section; [apply mem_section|intros b s3 s4; apply serves_some_evo|].
  intros e s' k He Hok Hk. apply (serves_evo _ _ _ _ _ He) in Hserves.
  assert (∀ k', only_at r k k' → let s2 := with_memory c k' s' in world_ok s2 ∧ world_evo s' s2 ∧ serves c r org s2) as Hhot.
  { intros k'. apply may_be_hot; [done|done|by apply serves_bound|]. destruct Hserves as (k1 & w & i & ? & ? & ? & ? & ?). by exists k1, w, i. }
  assert (∀ k' b, only_at r k k' → let s2 := with_memory c k' s' in world_ok s2 ∧ world_evo s' s2 ∧ serves_some c r b s2) as Hend.
  { intros k' b (? & ? & ?)%Hhot. split_and!; [done|done|by exists org]. }
  apply Hend. cbn beta. destruct (heap k !! r) as [w|]; [|apply only_refl].
  destruct (lifecycle_of w); first [apply only_refl|apply only_try_move].
Qed.

(** * Handing out *)

Definition binds_worker c (org : string) (res : option nat) (s : world) : Prop := ∀ r, res = Some r → bound c r org s.
Definition serves_worker c (org : string) (res : option nat) (s : world) : Prop := ∀ r, res = Some r → serves c r org s.

Lemma safe_wait c {A} (Q : A → world → Prop) s : safe c (wait : prog A) Q s.
Proof. intros s' _ _ e []. Qed.
Lemma safe_none c org (s : world) : safe c (mret None : prog (option nat)) (binds_worker c org) s.
Proof. by apply safe_ret. Qed.
Lemma safe_some c org r (s : world) : bound c r org s → safe c (mret (Some r) : prog (option nat)) (binds_worker c org) s.
Proof. intros Hb. apply safe_ret. intros s' He _ r' [= <-]. by eapply bound_evo. Qed.

Lemma reserve_shared_binds c n a : ∀ s, safe c (ReserveSharedWorker n a) (binds_worker c (WorkerState.OrgID a)) s.
Proof.
  induction n as [|n IH]; intros s; cbn [ReserveSharedWorker]; [apply safe_wait|].
  destruct (bool_decide _); [apply safe_none|]. apply safe_calm; [calm|]. intros cancelled s1 _ _.
  destruct cancelled; [apply safe_none|]. apply safe_calm; [calm|]. intros own s2 _ _.
  apply safe_calm; [calm|]. intros [[hotClaimed missReason]|err] s3 _ _; [|apply safe_none]. cbn zeta.
  match goal with |- context [retireClaimedWorker _ RetireReasonMismatchedVersion ≫= λ _, ?p] => set (claim_idle := p) end.
  assert (∀ s, safe c claim_idle (binds_worker c (WorkerState.OrgID a)) s) as Hidle.
  { intros s4. unfold claim_idle. apply safe_calm; [calm|]. intros max s5 _ _. apply safe_calm; [calm|].
    intros [[[claimed|] reason]|err] s6 _ _; [|apply safe_calm; [calm|]; intros; apply safe_none|apply safe_none].
    apply safe_bind. eapply safe_mono; [apply reserve_binds|]. intros [r| |] s7 _ _ Hb; [|apply IH|apply safe_calm; [calm|]; auto].
    specialize (Hb _ eq_refl). apply safe_calm; [calm|]. intros _ s8 He8 _. by eapply safe_some, bound_evo. }
  clearbody claim_idle. destruct hotClaimed as [claimed|].
  - destruct (_ && _); [apply safe_calm; [calm|]; auto|].
    apply safe_bind. eapply safe_mono; [apply reserve_binds|]. intros [r| |] s7 _ _ Hb; [|apply IH|apply safe_calm; [calm|]; auto].
    specialize (Hb _ eq_refl). apply safe_calm; [calm|]. intros _ s8 He8 _. by eapply safe_some, bound_evo.
  - destruct (bool_decide _); [apply safe_calm; [calm|]; intros; apply safe_none|done].
Qed.

Lemma claim_specific_binds c id epoch a s : safe c (claimSpecificWorker id epoch a) (binds_worker c (WorkerState.OrgID a)) s.
Proof.
  unfold claimSpecificWorker. destruct (bool_decide _); [apply safe_none|]. apply safe_calm; [calm|]. intros own s1 _ _.
  apply safe_calm; [calm|]. intros [[rec|]|err] s2 _ _; [|apply safe_none..]. destruct (_ && _); [apply safe_none|].
  apply safe_bind. eapply safe_mono; [apply reserve_binds|]. intros [r| |] s3 _ _ Hb; [|apply safe_none..].
  by apply safe_some, Hb.
Qed.

(** A worker that is bound to the organisation and then activated serves it. *)
Lemma bound_then_activated c r org ok s s' : world_evo s s' → bound c r org s → serves_some c r ok s' → ok = true → serves c r org s'.
Proof. intros He Hb Hs Hok. destruct (Hs Hok) as [org' ?]. by eapply serves_of_bound, bound_evo. Qed.

Lemma listed_lookup order k x : x ∈ listed order k → heap k !! x.1.2 = Some x.2.
Proof.
  unfold listed. intros (id & _ & Hx)%list_elem_of_omap. destruct (workers k !! id) as [r|]; [|done]. cbn in Hx.
  destruct (heap k !! r) as [w|] eqn:Hr; [|done]. cbn in Hx. by simplify_eq.
Qed.

Lemma find_idle_inv org order k r : findIdleAssignedWorkerLocked org order k = Some r →
  ∃ w, heap k !! r = Some w ∧ lifecycle_of w = LifecycleHot ∧ belongs org w = true.
Proof.
  unfold findIdleAssignedWorkerLocked. intros ([[id r'] w] & Hh & ->)%fmap_Some.
  apply head_Some_elem_of, list_elem_of_filter in Hh as [(_ & _ & Hb & Hl) Hin].
  apply listed_lookup in Hin. by exists w.
Qed.

Lemma belongs_bound org w : belongs org w = true → bound_to (sharedState w) org.
Proof.
  unfold belongs, bound_to, SharedState. intros [Ha _]%andb_true_iff. cbn in Ha.
  destruct (Assignment (sharedState w)) as [a|]; [|done]. cbn in *. by apply bool_decide_eq_true in Ha as ->.
Qed.

(** A hot worker of the organisation serves it. *)
Lemma hot_serves c k r w org s : world_ok s → w_cps s !! c = Some k → heap k !! r = Some w →
  lifecycle_of w = LifecycleHot → belongs org w = true → serves c r org s.
Proof.
  intros Hs Hk Hr Hl Hb%belongs_bound. destruct (ok_hot s Hs _ _ _ _ Hk Hr (or_introl Hl)) as (org' & i & Hb' & ? & ?).
  rewrite (bound_to_inj _ _ _ Hb Hb'). by exists k, w, i.
Qed.

Lemma calm_plan org : calm_section (plan_acquire org).
Proof. unfold plan_acquire. calm_section. Qed.
Lemma calm_hand_out org r : calm_section (λ _, hand_out org r).
Proof. unfold hand_out. calm_section. Qed.

Lemma plan_serves c org s : safe c (held (plan_acquire org)) (λ plan s, ∀ r, plan = Take r → serves c r org s) s.
Proof.
  apply safe_held; [apply calm_plan|intros b s1 s2 He HQ r Hr; by eapply serves_evo, HQ|].
  intros e s' k _ Hs Hk r Hplan. eapply serves_evo; [by apply (with_memory_calm c k _ s' Hs Hk (calm_plan org e k))|].
  unfold plan_acquire in Hplan. destruct (orgs k !! org) as [[max img]|]; [|done].
  destruct (findIdleAssignedWorkerLocked org (ch_order e) k) as [r'|] eqn:Ef; [|by destruct (_ || _)].
  cbn in Hplan. simplify_eq. destruct (find_idle_inv _ _ _ _ Ef) as (w & ? & ? & ?). by eapply hot_serves.
Qed.

Lemma hand_out_same org r k r' k' : hand_out org r k = (Some r', k') → r' = r.
Proof. unfold hand_out. destruct (heap k !! r) as [w|]; [|done]. by destruct (belongs org w); intros [=]. Qed.

Lemma acquire_serves c org n : ∀ s, safe c (AcquireWorker n org) (serves_worker c org) s.
Proof.
  induction n as [|n IH]; intros s; cbn [AcquireWorker]; [apply safe_wait|].
  apply safe_calm; [calm|]. intros cancelled s1 _ _. destruct cancelled; [by apply safe_ret|].
  apply safe_calm; [calm|]. intros _ s2 _ _. apply safe_calm; [calm|]. intros down s3 _ _.
  destruct down; [apply safe_calm; [calm|]; intros; by apply safe_ret|].
  apply safe_calm; [calm|]. intros _ s4 _ _. apply safe_bind. eapply safe_mono; [apply plan_serves|]. intros plan s5 _ _ Hplan.
  apply safe_calm; [calm|]. intros _ s6 He6 _. destruct plan as [|r|max img|]; [by apply safe_ret| | |apply IH].
  { apply safe_ret. intros s7 He7 _ r' [= <-]. by eapply serves_evo, serves_evo, Hplan. }
  apply safe_bind. eapply safe_mono; [apply reserve_shared_binds|]. intros [r|] s7 _ _ Hb; [|by apply safe_ret].
  specialize (Hb _ eq_refl). apply safe_bind. eapply safe_mono; [apply worker_for_org_serves|]. intros ok s8 He8 _ Hok.
  destruct ok; cbn [negb].
  - pose proof (bound_then_activated _ _ _ _ _ _ He8 Hb Hok eq_refl) as Hserves.
    apply safe_bind. apply (safe_mono _ _ (λ given s, ∀ r', given = Some r' → r' = r ∧ serves c r org s)).
    + apply safe_mem; [apply calm_hand_out|intros b s9 s10 He HQ r' (-> & ?)%HQ; split; [done|by eapply serves_evo]|].
      intros e s' k He Hs Hk r' Hr'. destruct (hand_out org r k) as [given k'] eqn:Eh. cbn in Hr'. subst given.
      split; [by eapply hand_out_same|]. eapply serves_evo; [|by eapply serves_evo].
      change k' with (Some r', k').2. rewrite <-Eh. apply (with_memory_calm c k _ s' Hs Hk (calm_hand_out org r e k)).
    + intros [r'|] s9 _ _ Hg; [|apply IH]. destruct (Hg _ eq_refl) as [-> ?].
      apply safe_ret. intros s10 He10 _ r' [= <-]. by eapply serves_evo.
  - apply safe_calm; [calm|]. intros [id|] s9 _ _; [|by apply safe_ret]. apply safe_calm; [calm|]. intros; by apply safe_ret.
Qed.

Lemma reconnect_serves c org id epoch s : safe c (ReconnectFlightWorker org id epoch) (serves_worker c org) s.
Proof.
  unfold ReconnectFlightWorker. apply safe_calm; [calm|]. intros [max img] s1 _ _.
  apply safe_bind. eapply safe_mono; [apply claim_specific_binds|]. intros [r|] s2 _ _ Hb; [|by apply safe_ret].
  specialize (Hb _ eq_refl). apply safe_bind. eapply safe_mono; [apply worker_for_org_serves|]. intros ok s3 He3 _ Hok.
  destruct ok.
  - apply safe_ret. intros s4 He4 _ r' [= <-]. eapply serves_evo; [done|]. by eapply bound_then_activated.
  - apply safe_calm; [calm|]. intros [wid|] s9 _ _; [|by apply safe_ret]. apply safe_calm; [calm|]. intros; by apply safe_ret.
Qed.

(** * The cluster *)

(** What a call of a control plane ends with. *)
Definition keeps_word (c : string) (res : result) (s : world) : Prop :=
  match res with Acquired org r => serves c r org s | Finished => True end.

Lemma acquired_safe c org (p : prog (option nat)) s : safe c p (serves_worker c org) s → safe c (acquired org p) (keeps_word c) s.
Proof.
  intros Hp. apply safe_bind. eapply safe_mono; [exact Hp|]. intros [r|] s1 _ _ Hr; [|by apply safe_ret].
  apply safe_ret. intros s2 He _. cbn. by eapply serves_evo, Hr.
Qed.
Lemma finished_safe c {A} (p : prog A) s : safe c p (λ _ _, True) s → safe c (finished p) (keeps_word c) s.
Proof. intros Hp. apply safe_bind. eapply safe_mono; [exact Hp|]. intros a s1 _ _ _. by apply safe_ret. Qed.

Lemma program_safe c call s : safe c (program call) (keeps_word c) s.
Proof.
  destruct call; cbn [program]; first [apply acquired_safe|apply finished_safe];
    first [apply acquire_serves|apply reconnect_serves|apply calm_safe];
    unfold createOrgStack, org_SetMaxWorkers, org_SetWorkerImage, SetMaxWorkers, SetWarmCapacityTarget, SetPerImageWarmTargets; calm.
Qed.

Definition thread_safe (s : world) (t : thread (D := D)) : Prop := safe (t_cp t) (t_prog t) (keeps_word (t_cp t)) s.

(** The world is right, and every thread keeps it so. *)
Definition cluster_ok (s : cluster (D := D)) : Prop := world_ok (c_world s) ∧ Forall (thread_safe (c_world s)) (c_threads s).

Lemma threads_evo s s' ts : world_evo s s' → Forall (thread_safe s) ts → Forall (thread_safe s') ts.
Proof. intros He. induction 1; constructor; [by eapply safe_evo|done]. Qed.
Lemma threads_app s ts ts' : Forall (thread_safe s) ts → Forall (thread_safe s) ts' → Forall (thread_safe s) (ts ++ ts').
Proof. intros Hts Hts'. induction Hts; cbn; [done|by constructor]. Qed.
Lemma threads_lookup s ts : ∀ i t, Forall (thread_safe s) ts → ts !! i = Some t → thread_safe s t.
Proof. induction ts as [|t0 ts IH]; intros [|i] t Hts Hi; inversion Hts; cbn in Hi; simplify_eq; [done|by eapply IH]. Qed.
Lemma threads_insert s ts t : ∀ i, Forall (thread_safe s) ts → thread_safe s t → Forall (thread_safe s) (<[i := t]> ts).
Proof. induction ts as [|t0 ts IH]; intros [|i] Hts Ht; inversion Hts; cbn; constructor; auto. Qed.
Lemma threads_forked s c forked : Forall (λ q, safe c q (λ _ _, True) s) forked →
  Forall (thread_safe s) (map (λ q : prog (), {| t_cp := c; t_prog := finished q |}) forked).
Proof. induction 1 as [|q qs Hq _ IH]; cbn; constructor; [by apply finished_safe|done]. Qed.

(** A step of a thread. *)
Lemma prog_step_safe c e {A} (p : prog A) Q s s' p' forked : safe c p Q s → world_ok s → prog_step c e p s = Some (s', p', forked) →
  world_ok s' ∧ world_evo s s' ∧ safe c p' Q s' ∧ Forall (λ q, safe c q (λ _ _, True) s') forked.
Proof.
  destruct p as [A a|A B o k|A q k]; cbn; intros Hp Hs Hstep; [done| |].
  - destruct (op_step c e o s) as [[b s2]|] eqn:Ho; [|done]. injection Hstep as <- <- <-.
    destruct (Hp s (world_evo_refl s) Hs e b s2 Ho) as (? & ? & ?). by split_and!.
  - injection Hstep as <- <- <-. destruct Hp. split_and!; [done|apply world_evo_refl|done|by constructor].
Qed.

Lemma new_memory_ok c k (s : world) : world_ok s → w_cps s !! c = None → heap k = [] →
  world_ok (with_memory c k s) ∧ world_evo s (with_memory c k s).
Proof.
  intros Hs Hc Hk. assert (world_evo s (with_memory c k s)) as He.
  { split; [intros i p Hp; exists p; split; [done|apply worker_evo_refl]|]. intros c' k' Hk'. exists k'. cbn.
    rewrite lookup_insert_ne by congruence. split; [done|apply heap_evo_refl]. }
  split; [|done]. split; [exact (ok_pods s Hs)|]. intros c' k' r w. cbn. destruct (decide (c' = c)) as [->|].
  - rewrite lookup_insert_eq. intros [= <-]. by rewrite Hk.
  - rewrite lookup_insert_ne by done. intros Hk' Hr Hw. destruct (ok_hot s Hs _ _ _ _ Hk' Hr Hw) as (org & i & ? & ? & ?).
    exists org, i. split_and!; [done|done|by eapply active_evo].
Qed.

Lemma cluster_step_ok ev s s' : cluster_ok s → cluster_step ev s = Some s' → cluster_ok s' ∧ world_evo (c_world s) (c_world s').
Proof.
  intros [Hw Ht] Hs.
  assert (∀ w, world_ok w ∧ world_evo (c_world s) w → cluster_ok {| c_world := w; c_threads := c_threads s |} ∧ world_evo (c_world s) w) as Hworld.
  { intros w [Hw' He]. split; [|done]. split; [done|by eapply threads_evo]. }
  destruct ev as [instance id img spec idle activating max|c call|i e|i ev|d]; cbn in Hs.
  - destruct (w_cps (c_world s) !! instance) eqn:Hi; [done|]. injection Hs as <-. apply Hworld. by apply new_memory_ok.
  - injection Hs as <-. split; [|apply world_evo_refl]. split; [done|]. apply threads_app; [done|]. by constructor; [apply program_safe|].
  - destruct (c_threads s !! i) as [t|] eqn:Hi; [|done]. destruct (prog_step _ _ _ _) as [[[w p] forked]|] eqn:Ep; [|done].
    injection Hs as <-. pose proof (threads_lookup _ _ _ _ Ht Hi) as Hsafe.
    destruct (prog_step_safe _ _ _ _ _ _ _ _ Hsafe Hw Ep) as (Hw' & He & Hp & Hf). split; [|done]. split; [done|]. cbn.
    apply threads_app; [apply threads_insert; [by eapply threads_evo|exact Hp]|by apply threads_forked].
  - destruct (w_pods (c_world s) !! i) as [p|] eqn:Hp; [|by destruct ev].
    destruct (worker_step ev (pod_worker p)) as [w|] eqn:Es; cbn [mbind option_bind] in Hs; rewrite Es in Hs; [|by destruct ev].
    apply (insert_worker_ok _ i p ev w Hw Hp) in Es. destruct ev; [done|..]; injection Hs as <-; by apply Hworld.
  - injection Hs as <-. apply Hworld. by apply with_db_ok.
Qed.

Lemma cluster_reachable_ok s : cluster_reachable s → cluster_ok s.
Proof.
  induction 1 as [d|ev s s' _ IH Hs]; [|by eapply cluster_step_ok].
  split; [|done]. split; [done|]. intros c k r w Hk. cbn in Hk. by rewrite lookup_empty in Hk.
Qed.

Lemma cluster_run_ok evs : ∀ s s', cluster_ok s → cluster_run evs s = Some s' → cluster_ok s' ∧ world_evo (c_world s) (c_world s').
Proof.
  induction evs as [|ev evs IH]; intros s s' Hs; cbn; [intros [= <-]; split; [done|apply world_evo_refl]|].
  destruct (cluster_step ev s) as [s1|] eqn:E; [|done]. destruct (cluster_step_ok _ _ _ Hs E) as [Hs1 He1]. intros Hr.
  destruct (IH _ _ Hs1 Hr). split; [done|by eapply world_evo_trans].
Qed.

(** A call of a control plane has ended with a worker for a session of the organisation. *)
Definition handed_out (s : cluster (D := D)) (c org : string) (r : nat) : Prop :=
  ∃ i, c_threads s !! i = Some {| t_cp := c; t_prog := Return (Acquired org r) |}.
(** The pod a control plane reaches that worker in. *)
Definition in_pod (s : cluster (D := D)) (c : string) (r j : nat) : Prop :=
  ∃ k w, w_cps (c_world s) !! c = Some k ∧ heap k !! r = Some w ∧ client w = Some j.

Lemma handed_out_serves s c org r : cluster_ok s → handed_out s c org r → serves c r org (c_world s).
Proof. intros [Hw Ht] [i Hi]. exact (threads_lookup _ _ _ _ Ht Hi (c_world s) (world_evo_refl _) Hw). Qed.

Lemma in_pod_active s c org r j : in_pod s c r j → serves c r org (c_world s) → active (c_world s) j org.
Proof. intros (k & w & Hk & Hr & Hj) (k' & w' & j' & Hk' & Hr' & _ & Hj' & Ha). by simplify_eq. Qed.

(** C2. Whatever the control planes, the workers, Kubernetes and the runtime tables do, and
    however their steps interleave: when a control plane has a worker for a session of an
    organisation, the process it is connected to was activated for that organisation, and
    every session on it is on the database of that activation. *)
Theorem handed_out_worker_is_the_tenants s c org r : cluster_reachable s → handed_out s c org r →
  ∃ j p q db, in_pod s c r j ∧ w_pods (c_world s) !! j = Some p ∧ activation (pool (pod_worker p)) = Some (q, db) ∧ OrgID q = org ∧
    ∀ token db', sessions (pool (pod_worker p)) !! token = Some db' → db' = db.
Proof.
  intros Hs%cluster_reachable_ok Ho%handed_out_serves; [|done]. destruct Ho as (k & w & j & Hk & Hr & _ & Hj & p & q & db & Hp & Ha & Horg).
  exists j, p, q, db. split_and!; [by exists k, w|done|done|done|]. intros token db' Ht.
  destruct (ok_pods _ (proj1 Hs) _ _ Hp) as [[(_ & Hsess & _) _ _] Hm]. destruct (Hsess Hm _ _ Ht) as (q2 & Ha2). congruence.
Qed.

(** C4. A pod is never shared: when two control planes, or one of them twice, at any two
    moments, hand out workers they reach in the same pod, it is to the same organisation. *)
Theorem pods_are_not_shared s evs s' c org r c' org' r' j : cluster_reachable s → cluster_run evs s = Some s' →
  handed_out s c org r → in_pod s c r j → handed_out s' c' org' r' → in_pod s' c' r' j → org = org'.
Proof.
  intros Hs%cluster_reachable_ok Hrun Ho Hj Ho' Hj'. destruct (cluster_run_ok _ _ _ Hs Hrun) as [Hs' He].
  pose proof (active_evo _ _ _ _ He (in_pod_active _ _ _ _ _ Hj (handed_out_serves _ _ _ _ Hs Ho))) as (p & q & db & Hp & Ha & <-).
  destruct (in_pod_active _ _ _ _ _ Hj' (handed_out_serves _ _ _ _ Hs' Ho')) as (p' & q' & db' & Hp' & Ha' & <-). by simplify_eq.
Qed.
End calm_pool.
