(* ===== verification/K8sRuns.v ===== *)
(** Runs of a cluster: two control planes on the same runtime tables, pods, an organisation
    that is served, and what a shut-down and a migration do to it. *)

From Stdlib Require Import Strings.Byte.
From stdpp Require Import prelude gmap strings list fin_maps.
From Stdlib Require Import ZArith Lia.
From S2P Require Import Prelude GoText DuckLake Catalogs RuntimeDB RuntimeStore Lifecycle WorkerState TenantRuntime Cluster K8sPool K8sTheorems.

Open Scope string_scope.
Open Scope list_scope.
Open Scope Z_scope.

#[local] Existing Instances toy ascii.

Local Notation cluster := (cluster (D := RuntimeDB.mem)).
Local Notation cluster_event := (cluster_event (D := RuntimeDB.mem)).

(** * Scripts *)

(** The events of a run are chosen from the state: a step of a thread ranges over the
    workers its control plane has then. *)
Definition order_of (i : nat) (s : cluster) : list Z :=
  match c_threads s !! i with
  | Some t => match w_cps (c_world s) !! t_cp t with Some k => elements (dom (workers k)) | None => [] end
  | None => []
  end.

(** What the organisation's configuration resolves to: its lake, with S3 credentials. *)
Definition warehouse (key : string) (expires : time) : ducklake.Config * iceberg.Config * option time * string :=
  (with_s3 key alpha_lake, no_iceberg, Some expires, "").

Definition chosen (ok : bool) (migration : bool) (key : string) (expires : time) (order : list Z) : choice := {|
  ch_now := 100; ch_order := order; ch_ok := ok; ch_applied := ok; ch_permanent := false;
  ch_warehouse := Some (warehouse key expires); ch_migration := Some migration; ch_image := None; ch_node := "node";
  ch_new := (0, "", nobody) |}.

(** [n] steps of thread [i]; [ok] is what it is told. *)
Definition steps (i : nat) (ok : bool) (n : nat) : list (cluster → cluster_event) :=
  replicate n (λ s, Run i (chosen ok false "key1" 1000 (order_of i s))).
Definition steps_migrating (migration : bool) (i n : nat) : list (cluster → cluster_event) :=
  replicate n (λ s, Run i (chosen true migration "key1" 1000 (order_of i s))).
Definition steps_renewing (i n : nat) : list (cluster → cluster_event) :=
  replicate n (λ s, Run i (chosen true false "key2" 3000 (order_of i s))).
Definition pod_steps (i j n : nat) : list (cluster → cluster_event) := replicate n (λ _, PodStep i (Proceed j (here []))).
Definition start (c : string) (call : call) : list (cluster → cluster_event) := [λ _, Start c call].

Fixpoint play (script : list (cluster → cluster_event)) (s : cluster) : option (list cluster_event * cluster) :=
  match script with
  | [] => Some ([], s)
  | f :: script =>
      match cluster_step (f s) s with
      | Some s1 => match play script s1 with Some (evs, s2) => Some (f s :: evs, s2) | None => None end
      | None => None
      end
  end.

Lemma play_runs script : ∀ s evs s', play script s = Some (evs, s') → cluster_run evs s = Some s'.
Proof.
  induction script as [|f script IH]; intros s evs s'; cbn; [by intros [= <- <-]|].
  destruct (cluster_step (f s) s) as [s1|] eqn:E; [|done]. destruct (play script s1) as [[evs1 s2]|] eqn:Ep; [|done].
  intros [= <- <-]. cbn. rewrite E. by apply IH.
Qed.

Definition ended {A} (p : prog (D := RuntimeDB.mem) A) : option A := match p with Return a => Some a | _ => None end.
Lemma ended_return {A} (p : prog (D := RuntimeDB.mem) A) a : ended p = Some a → p = Return a.
Proof. destruct p; cbn; congruence. Qed.

(** * An organisation is served *)

Definition nothing : cluster := {|
  c_world := {| w_db := {| m_db := empty_db; m_faults := []; m_locked := ∅; m_seq := 1; m_clock := 50 |}; w_pods := []; w_cps := ∅ |};
  c_threads := [] |}.

Definition warmup (i : nat) : list (cluster → cluster_event) := [λ _, PodStep i (Warmup (here []))].
Definition join (c id : string) : list (cluster → cluster_event) := [λ _, Join c id "img" "" 0 0 10].

(** A control plane starts a worker. *)
Definition spawning_script : list (cluster → cluster_event) :=
  join "cp-1" "duckgres-7c9f8-abcde" ++ start "cp-1" (CallCreateStack "alpha" 5 "img") ++ steps 0 true 1
  ++ start "cp-1" (CallSpawnMin 1) ++ steps 1 true 5 ++ steps 2 true 10 ++ warmup 0.
(** A session of alpha is given it; a migration of the catalog may be needed first. *)
Definition serving_script (migration : bool) : list (cluster → cluster_event) :=
  spawning_script ++ start "cp-1" (CallAcquire 2 "alpha") ++ steps 3 false 9
  ++ steps_migrating migration 3 (if migration then 25 else 24) ++ pod_steps 0 0 8 ++ steps 3 true (if migration then 11 else 9).

(** What is seen of a thread, of a row and of a pod. *)
Definition thread_result (i : nat) (s : cluster) : option (string * result) :=
  match c_threads s !! i with
  | Some t => match ended (t_prog t) with Some r => Some (t_cp t, r) | None => None end
  | None => None
  end.
Definition row (id : Z) (s : cluster) : option (RuntimeDB.WorkerState * string * string * Z * option time) :=
  (λ r, (W_State r, W_OrgID r, go_owner r, W_Epoch r, W_S3ExpiresAt r)) <$> t_workers (m_db (w_db (c_world s))) !! id.
Definition known (c : string) (r : nat) (s : cluster) : option (WorkerLifecycleState * Z * option nat) :=
  k ← w_cps (c_world s) !! c; w ← heap k !! r; Some (lifecycle_of w, activeSessions w, client w).
Definition deleted (i : nat) (s : cluster) : option bool := pod_deleted <$> w_pods (c_world s) !! i.
Definition reply (i j : nat) (s : cluster) : option bool :=
  p ← w_pods (c_world s) !! i; r ← requests (pod_worker p) !! j; match r with AReplied _ ok => Some ok | _ => None end.

Lemma thread_result_inv i c org r s : thread_result i s = Some (c, Acquired org r) → handed_out s c org r.
Proof.
  unfold thread_result. destruct (c_threads s !! i) as [[c' p]|] eqn:Hi; [|done]. cbn.
  destruct (ended p) as [res|] eqn:He; [|done]. intros [= -> ->]. exists i. by rewrite Hi, (ended_return _ _ He).
Qed.
Lemma known_inv c r l n j s : known c r s = Some (l, n, Some j) → in_pod s c r j.
Proof.
  unfold known. destruct (w_cps (c_world s) !! c) as [k|] eqn:Hk; [|done]. cbn. destruct (heap k !! r) as [w|] eqn:Hr; [|done].
  cbn. intros [= <- <- Hc]. by exists k, w.
Qed.

(** The state a script leads to, and what is seen of it. *)
Definition outcome {A} (see : cluster → A) (script : list (cluster → cluster_event)) (s : cluster) : option A :=
  match play script s with Some (_, s') => Some (see s') | None => None end.
Lemma outcome_inv {A} (see : cluster → A) script s a : outcome see script s = Some a →
  ∃ evs s', cluster_run evs s = Some s' ∧ see s' = a.
Proof.
  unfold outcome. destruct (play script s) as [[evs s']|] eqn:E; [|done]. intros [= <-]. exists evs, s'.
  split; [by apply (play_runs script)|done].
Qed.
Lemma cluster_run_reachable (evs : list cluster_event) : ∀ s s', cluster_reachable s → cluster_run evs s = Some s' → cluster_reachable s'.
Proof.
  induction evs as [|ev evs IH]; intros s s' Hs; cbn; [by intros [= <-]|].
  destruct (cluster_step ev s) as [s1|] eqn:E; [|done]. apply IH. by eapply cluster_next.
Qed.
Lemma nothing_reachable evs s : cluster_run evs nothing = Some s → cluster_reachable s.
Proof. apply cluster_run_reachable, cluster_start. Qed.

(** Two scripts, one after the other. *)
Lemma outcomes_inv {A B} (see : cluster → A) (see' : cluster → B) script script' a b :
  outcome (λ s, (see s, outcome see' script' s)) script nothing = Some (a, Some b) →
  ∃ evs s evs' s', cluster_run evs nothing = Some s ∧ play script' s = Some (evs', s') ∧ cluster_run evs' s = Some s' ∧
    see s = a ∧ see' s' = b.
Proof.
  intros (evs & s & Hrun & [= Ha Hb])%outcome_inv. unfold outcome in Hb.
  destruct (play script' s) as [[evs' s']|] eqn:E; [|done]. injection Hb as Hb.
  exists evs, s, evs', s'. split_and!; [done|done|by apply (play_runs script')|done|done].
Qed.

Lemma handed_out_worker_is_the_tenants_witness : ∃ evs s j p q db,
  cluster_run evs nothing = Some s ∧ handed_out s "cp-1" "alpha" 0 ∧ in_pod s "cp-1" 0 j ∧
  w_pods (c_world s) !! j = Some p ∧ activation (pool (pod_worker p)) = Some (q, db) ∧ OrgID q = "alpha".
Proof.
  assert (outcome (thread_result 3) (serving_script false) nothing = Some (Some ("cp-1", Acquired "alpha" 0)))
    as (evs & s & Hrun & Ht%thread_result_inv)%outcome_inv by (vm_compute; reflexivity).
  destruct (handed_out_worker_is_the_tenants s "cp-1" "alpha" 0 (nothing_reachable _ _ Hrun) Ht) as (j & p & q & db & Hj & Hp & Ha & Ho & _).
  exact (ex_intro _ evs (ex_intro _ s (ex_intro _ j (ex_intro _ p (ex_intro _ q (ex_intro _ db
    (conj Hrun (conj Ht (conj Hj (conj Hp (conj Ha Ho))))))))))).
Defined.

(** * A worker moves to another control plane *)

(** The session ends, and the worker is kept for alpha; the other control plane claims it
    for a session of its own. *)
Definition takeover_script : list (cluster → cluster_event) :=
  start "cp-1" (CallRelease 1) ++ steps 4 true 2
  ++ join "cp-2" "duckgres-7c9f8-fghij" ++ start "cp-2" (CallCreateStack "alpha" 5 "img") ++ steps 5 true 1
  ++ start "cp-2" (CallAcquire 2 "alpha") ++ steps 6 false 8 ++ steps 6 true 24 ++ pod_steps 0 1 4 ++ steps 6 true 9.

Lemma pods_are_not_shared_witness : ∃ evs s evs' s' : _,
  cluster_run evs nothing = Some s ∧ cluster_run evs' s = Some s' ∧
  handed_out s "cp-1" "alpha" 0 ∧ in_pod s "cp-1" 0 0 ∧ handed_out s' "cp-2" "alpha" 0 ∧ in_pod s' "cp-2" 0 0 ∧ "alpha" = "alpha".
Proof.
  assert (outcome (λ s, (thread_result 3 s, known "cp-1" 0 s, outcome (λ s', (thread_result 6 s', known "cp-2" 0 s')) takeover_script s))
            (serving_script false) nothing
          = Some (Some ("cp-1", Acquired "alpha" 0), Some (LifecycleHot, 1, Some 0%nat),
                  Some (Some ("cp-2", Acquired "alpha" 0), Some (LifecycleHot, 1, Some 0%nat))))
    as (evs & s & evs' & s' & Hrun & _ & Hrun' & [= Ht%thread_result_inv Hk%known_inv] & [= Ht'%thread_result_inv Hk'%known_inv])%outcomes_inv
    by (vm_compute; reflexivity).
  exact (ex_intro _ evs (ex_intro _ s (ex_intro _ evs' (ex_intro _ s' (conj Hrun (conj Hrun' (conj Ht (conj Hk (conj Ht' (conj Hk'
    (pods_are_not_shared s evs' s' "cp-1" "alpha" 0 "cp-2" "alpha" 0 0 (nothing_reachable _ _ Hrun) Hrun' Ht Hk Ht' Hk'))))))))))).
Defined.

(** The first control plane shuts down. *)
Definition shutdown_script : list (cluster → cluster_event) :=
  start "cp-1" (CallShutdown ["alpha"] (λ _, [])) ++ steps 7 true 11 ++ steps 8 true 2.

(** C37. A control plane that shuts down retires the workers it has for its organisations,
    also one that another control plane has claimed since: the write to its row is fenced,
    but the pod is deleted, under the session that the row's owner serves on it. *)
Theorem shutdown_deletes_anothers_pod : ∃ evs s evs' s',
  cluster_run evs nothing = Some s ∧ handed_out s "cp-2" "alpha" 0 ∧ known "cp-2" 0 s = Some (LifecycleHot, 1, Some 0%nat) ∧
  deleted 0 s = Some false ∧
  play shutdown_script s = Some (evs', s') ∧
  known "cp-2" 0 s' = Some (LifecycleHot, 1, Some 0%nat) ∧ row 1 s' = Some (Hot, "alpha", "cp-2", 2, Some 1000) ∧ deleted 0 s' = Some true.
Proof.
  assert (outcome (λ s, (thread_result 6 s, known "cp-2" 0 s, deleted 0 s, outcome (λ s', (known "cp-2" 0 s', row 1 s', deleted 0 s')) shutdown_script s))
            (serving_script false ++ takeover_script) nothing
          = Some (Some ("cp-2", Acquired "alpha" 0), Some (LifecycleHot, 1, Some 0%nat), Some false,
                  Some (Some (LifecycleHot, 1, Some 0%nat), Some (Hot, "alpha", "cp-2", 2, Some 1000), Some true)))
    as (evs & s & evs' & s' & Hrun & Hplay & _ & [= Ht%thread_result_inv Hk Hd] & [= Hk' Hr Hd'])%outcomes_inv
    by (vm_compute; reflexivity).
  exact (ex_intro _ evs (ex_intro _ s (ex_intro _ evs' (ex_intro _ s'
    (conj Hrun (conj Ht (conj Hk (conj Hd (conj Hplay (conj Hk' (conj Hr Hd'))))))))))).
Qed.

(** * A catalog is migrated *)

(** A tick of the renewals, when the credentials are due. *)
Definition renewal_script (migration : bool) : list (cluster → cluster_event) :=
  start "cp-1" (CallRefreshTick 2000) ++ steps_renewing 4 10 ++ pod_steps 0 1 (if migration then 2 else 5)
  ++ steps_renewing 4 (if migration then 1 else 2).
(** The session ends, and alpha asks for a worker again. *)
Definition reclaim_script (migration : bool) : list (cluster → cluster_event) :=
  start "cp-1" (CallRelease 1) ++ steps 4 true 2 ++ start "cp-1" (CallAcquire 2 "alpha") ++ steps 5 false 9
  ++ steps 5 true 20 ++ pod_steps 0 1 (if migration then 2 else 4) ++ steps 5 true (if migration then 12 else 9).

(** What the worker answered, until when the row says its credentials last, and what an
    attempt to acquire a worker came to. *)
Definition renewed (s : cluster) : option bool * option (option time) := (reply 0 1 s, (λ x, x.2) <$> row 1 s).
Definition reclaimed (s : cluster) : option bool * option (string * result) * option RuntimeDB.WorkerState :=
  (reply 0 1 s, thread_result 5 s, (λ x, x.1.1.1.1) <$> row 1 s).

(** C38. The worker that migrated its organisation's catalog was activated with Migrate, and
    the worker takes Migrate for part of its tenant's identity. Later requests do not have
    it: the worker refuses the renewal of its credentials, and refuses to be used again,
    after which it is retired and the caller has nothing. Without a migration the same
    calls succeed. *)
Theorem migrated_worker_refuses_renewal : ∀ migration : bool, ∃ evs s,
  cluster_run evs nothing = Some s ∧ handed_out s "cp-1" "alpha" 0 ∧
  outcome renewed (renewal_script migration) s
    = Some (if migration then (Some false, Some (Some 1000)) else (Some true, Some (Some 3000))) ∧
  outcome reclaimed (reclaim_script migration) s
    = Some (if migration then (Some false, Some ("cp-1", Finished), Some Retired)
            else (Some true, Some ("cp-1", Acquired "alpha" 0), Some Hot)).
Proof.
  intros migration.
  assert (outcome (λ s, (thread_result 3 s, outcome renewed (renewal_script migration) s, outcome reclaimed (reclaim_script migration) s))
            (serving_script migration) nothing
          = Some (Some ("cp-1", Acquired "alpha" 0),
                  Some (if migration then (Some false, Some (Some 1000)) else (Some true, Some (Some 3000))),
                  Some (if migration then (Some false, Some ("cp-1", Finished), Some Retired)
                        else (Some true, Some ("cp-1", Acquired "alpha" 0), Some Hot))))
    as (evs & s & Hrun & [= Ht%thread_result_inv Hn Hc])%outcome_inv by (destruct migration; vm_compute; reflexivity).
  exact (ex_intro _ evs (ex_intro _ s (conj Hrun (conj Ht (conj Hn Hc))))).
Qed.
